(* ===== verification/_CoqProject ===== *)
-Q . S2P
Prelude.v
Text.v
Ids.v
Codes.v
Events.v
Flow.v
State.v
Effects.v
Guard.v
Input.v
Evolve.v
Decide.v
Status.v
Host.v
Examples.v
FlowFacts.v
Keys.v
Spec.v
Replay.v
Slots.v
Stops.v
Seats.v
Timers.v
Runs.v
Budgets.v
Owed.v
StatusFacts.v
Utf8.v
Ports.v
TreeLedger.v
Contract.v
Sqlite.v
StoreSpec.v
SqliteFacts.v
Runner.v
Execute.v
Tick.v
Bridge.v
Logs.v
HostRuns.v
HostTicks.v
Armed.v
StoreFacts.v
Around.v
HostFacts.v
Exclusive.v
Drains.v
Posts.v
HostGaps.v
BridgeFacts.v
BridgeRuns.v
FoldEnds.v
Turns.v
Scrub.v
OpModel.v
Changes.v
Tasks.v
ChangeFacts.v
OpStore.v
LogFacts.v
Convergence.v
TaskFacts.v
FileRuns.v
SharedLog.v
Edits.v
Images.v
ImageFacts.v
BoardViews.v
Graph.v
TarjanFacts.v
GraphFacts.v
Derive.v
DeriveFacts.v
LaneFacts.v
Server.v
ServerFold.v
ServerFacts.v
ServerIndex.v
Snapshots.v
ServerBoard.v
