(* ===== verification/Prelude.v ===== *)
(** * Verification of nexus-flow: runs of agents, the replicated log, the board and its server

    nexus-flow keeps the work of people and agents on a board and commissions parts of it to agents. Two halves
    of the repository carry this, and the library has both.

    The runs. A flow of steps is compiled from a declaration, and a run of it starts sessions, watches them,
    counts replies, asks people and parks what needs one. [src/crates/run-engine] is a pure reducer over an
    event log: [decide] answers an input with a list of decisions, [evolve] folds one event, [pending_effects]
    says what the run owes the outside world. [src/crates/run-contracts] has the vocabulary of the log and the
    traits of the store and of sessions. [src/crates/run-store-sqlite] keeps logs, inboxes, timers, leases and a
    key-value table in one file that several processes use at once. [src/crates/run-host] is the service: each
    tick takes the leases of the open runs, drains sessions into the inboxes, fires timers, folds every inbox
    through the reducer with one append per input, and executes what the runs owe through ports, whose results
    come back as inputs; its bridge is what clients say to a run.

    The board. Every replica keeps a log of signed operations ([src/crates/foundation]); a reducer describes
    what an operation changes as data, and an applier carries the changes out on the tables of the product. The
    reducer of the issue tracker ([src/crates/core]) folds operations into tickets, edges, labels, notes and
    custom fields, from which the lanes of the board are derived twice, by SQL and by a graph. A server
    ([src/crates/fold-ddb]) folds the same operations into one DynamoDB table, with indexes kept beside the rows,
    and selects the board from an index.

    ** The model, file by file

    - [Prelude]: results, record updates, iterator adapters of the Rust standard library, ordered maps.
      Unsigned integers are [N] with the wrap-around or saturation of the source written out
      ([u32_succ], [u64_wrap], [u8_saturating_succ]); instants are [Z] within [i64].
    - [Text], [Utf8]: the string operations the source uses ([strip_prefix], [rsplitn], [parse], [format!],
      [split], [join], [from_utf8], [trim], [char::is_whitespace]), and [scrub] of
      [run-host/src/git_tree/runner.rs].

    Of the runs:
    - [Ids]: [run-contracts/src/ids.rs] and [policy.rs]: run ids over a parameter for the ULID reader,
      slots, session keys, spans, instants ([plus]), the default policy.
    - [Codes]: [codes.rs], the thirteen closed lists with their unknown value, [as_str] and [parse].
    - [Events]: [events.rs] and [session.rs]: inputs, decisions, session facts, and which of them carry a
      value this version does not know.
    - [Flow]: [run-engine/src/flow.rs], the compiler of a flow ([compile]) with its refusals.
    - [State]: [state.rs], the state of a run ([RunState], a record with one [SlotRecord] per attempt) and its
      projections; timer ids and session keys as strings.
    - [Effects]: [effects.rs], [pending_effects] and the stop table. [Guard]: [guard.rs], [ignored_reason].
      [Input]: [input.rs], [apply_input]. [Evolve]: [evolve.rs], [apply_decision] and [evolve].
    - [Decide]: [decide.rs] with [route.rs], [session.rs] and [timers.rs]. The source's [&mut Emit] is a state
      record [Emit] passed through: [push] folds a decision as it emits it.
    - [Status]: [status.rs] of both crates, the projection a person reads.
    - [Host]: the pure part of [fold.rs] ([reduce], [fold_events], the event of a poisoned row) and the step
      relation of a run ([step], [run_of]): a run's log starts with its commission, and every step consumes
      an input of the inbox or a poisoned row.
    - [Examples]: a sample flow, compiled, and runs of it through their phases, evaluated.
    - [Contract]: [run-contracts/src/store.rs], the trait as the class [RunStore], its types and errors.
      [Sqlite]: [run-store-sqlite], the tables of [schema.rs] as lists and maps, every statement with the
      meaning SQL gives it, every call as one transaction. A [SqliteRunStore] is the tables with a script of
      what happens at each coming call: the calls other processes make before it, and whether SQLite fails
      it. JSON is the class [Serde], whose laws are that reading undoes writing.
    - [Ports]: the types of [ports.rs], [tree_worker.rs] and [session.rs]; [Outside] is the class of
      everything a host asks that is not its store (chat, declarations, sessions, the working directory, the
      clock, the budget, files); and [compose.rs], the texts a host posts. [TreeLedger]: [tree_ledger.rs], the
      file a tree operation is announced in.
    - [Runner]: [fold.rs], [lease.rs] of both crates and the caches of [host.rs]: leases, the state from the
      log, one append per input, the poison counters, the withdraw exit. [Execute]: [effects.rs], [start.rs]
      and [tree_effects.rs]: the ledger of effects and every effect of [execute]. [Tick]: [host.rs], the tick.
      The state of a host is the record [Host], passed through every operation.
    - [Bridge]: [bridge.rs], every verb and read of a client.
    - [Around]: one instance of [Outside] for the examples and witnesses.

    Of the board:
    - [OpModel]: [foundation/src/model.rs] and [signing.rs]: operations, the bytes they are signed over, who may
      be their author, the verdict on a received one. Ed25519 is the class [Ed25519].
    - [Changes]: [change.rs] and [reducer.rs]: changes as data, tables, the SQLite applier statement by
      statement, reducers as a record.
    - [OpStore]: [store.rs]: the log of a file, the clock, taking operations in, local writes, watermarks and
      rebuilds, on a file several handles use. [Images]: [image.rs]: an image of a store written and loaded.
    - [Tasks]: [core/src/model.rs], the tables of [schema.rs] and [task_reducer.rs]. [BoardViews]: the views of
      [schema.rs] over them. [Graph]: [graph.rs], the board of active tickets with Tarjan's walk and the lanes.
      [Derive]: [derive.rs] and [invariant.rs], the same lanes in SQL.
    - [Server]: [fold-ddb/src/layout.rs], [write.rs], [table.rs] and [mem.rs]: keys, a change as one conditional
      write, a partition with the condition semantics and the limits of DynamoDB. [ServerFold]: [board.rs] and
      [fold.rs]: the fold of an operation with its refusals, the indexes, the watermark, the selection. [Snapshots]:
      [snapshot.rs]: the tables of a partition, of a replica or of an image as a snapshot, and a stream started
      from one.

    ** What is proved

    Of the reducer of runs:
    - [FlowFacts]: a compiled flow is well formed, and the compiler accepts exactly the declarations that
      meet its conditions; its bounded walk along [next] decides whether the chain ends.
    - [Keys]: timer ids, grace rungs and session keys read back.
    - [Spec]: an abstract specification of the reducer, [may input e d], with one rule per reason for a
      decision, and the lemmas that every operation of [Decide] emits only what it allows. A timer that is set or
      cleared has a rule of its own ([timer_reason], [clear_reason]), with its id, its instant, which is a span of
      the policy counted from the input or the instant of a hold, and its purpose. [Replay]:
      [decide] refines it; the host's fold is total and a replay of a log is its run; refused inputs change
      nothing; a finished run is final. It also has the induction principle for invariants ([preserved]).
    - [Slots]: the state machine of one attempt as two step relations, which the fold follows.
    - [Stops]: a kill needs a withdrawal; a withdrawal always acts.
    - [Seats]: the invariant [seats]: slots are unique, attempts of a seat are in order and over but for the
      latest, only the current visit is open, questions are about what they say.
    - [Timers]: the invariant [timers_ok]: every armed timer names an attempt in the state it watches. It is
      broken and restored within one list, so it is proved operation by operation ([flux]). [run_sound] puts
      the two together for every state of a run.
    - [Runs]: what these say of a run, an induction principle over sound states ([kept]), attempts only go
      forward, a finishing run only winds down. [Budgets]: restarts, holds and passes stay within the policy
      and the ceiling. [Owed]: the result of every owed effect is accepted, and the claim is released last.
    - [StatusFacts]: the precedence of the view and what the status asks for.

    Of the store of runs: [StoreSpec] has the contract of the trait on an abstract [View] (logs, inboxes, a
    key-value map), one relation per call in which every error has its cause and the checks their order, and the
    class [RunStoreLaws] the host is proved against.
    [SqliteFacts] proves the SQLite store an instance of it, with the invariant [store_ok] that its derived
    columns agree with the log. [StoreFacts] states the refinement, the fence of a stale owner, the agreement
    of the columns, and that an append loads back.

    Of the host, for any answers of the outside, any faults of SQLite and any other processes that keep to
    [rely], which is what one host is shown to do itself:
    - [Logs]: what logs hold when hosts write them ([log_ok]: nothing, or a log that never opened ([unopened]), or
      a run from its commission on), what it is for an input to have arrived in the store ([arrived]: it waits in
      the inbox, or the log holds what consuming it wrote), the relation [rely], which keeps both, and that taking
      a lease keeps to it. [HostRuns]: so does every operation of [Runner]. [HostTicks]: a walk through a tick for any
      invariant that single calls keep ([HostCalls]), with [rely] as an instance, and instances for what no
      store call touches. [HostFacts]: every log hosts write is one of the three, and due timers are those of
      the run ([Armed]).
    - [Exclusive]: hosts own a run one after the other under rising epochs. [Drains]: the offset of a session
      moves after its facts arrived. [Posts]: no message is posted twice. [FoldEnds]: the fold of an inbox
      ends. [Turns]: every run gets its turn. [Scrub]: no credentials are stored.
    - [BridgeFacts], [BridgeRuns]: what a client says is in the inbox under the key minted for it and heard by the
      run, or refused with nothing written; every write of a client is a [client_step], which touches no log and no
      lease, and so keeps to [rely]: the theorems on hosts hold beside clients.
    - [HostGaps]: states in which the engine leaves an attempt or a resumed run without a timer, and as examples two
      interleavings on which a host does what it means not to.

    Of the log and the board:
    - [ChangeFacts]: when two changes commute and when a change is settled. [Convergence]: the class
      [Convergent] of reducers whose operations commute and are idempotent, and what follows for any log.
      [TaskFacts]: the task reducer is an instance ([task_convergent]).
    - [LogFacts]: the numbers and rows of a log. [FileRuns]: the invariant of a file that several handles use
      ([inv]). [SharedLog]: the step relation of such a file ([reached]); opening a product makes its views the
      fold of the whole log, keeps those of a newer release, and asks for the history a based file lacks; replicas
      with the same operations show the same board. [Edits]: local writes
      land and show.
    - [ImageFacts]: an image brings the log; what a signature covers, and who signs.
    - [TarjanFacts]: the invariant of the walk for cycles. [GraphFacts]: what the lanes of a board mean.
      [DeriveFacts], [LaneFacts]: what the SQL derivations mean, and that they give the same lanes as the graph.
    - [ServerFacts]: keys are injective; a planned write does to a stored row what the applier does to the row it
      reads as; the relation [mirrors] of a partition to views. [ServerIndex]: what keeps the indexes leaves the
      rows alone ([same_rows], [beside]), the invariant [indexed], and that every fold restores it. [ServerBoard]:
      a served partition holds the views of its log, its selection is the board of a replica, and its listings are
      those of the views. [Snapshots] has the life of a stream ([served]: batches, a clear, a rebuild of its indexes,
      a start from a snapshot) and proves that every step of it serves a log; with [ServerBoard], a snapshot of a
      stream or of a replica starts a stream that serves the same log.

    ** Bounds

    Visits and attempts are [u32] and wrap in the model as in a release build. The invariants about seats and
    timers are therefore stated for runs whose log is shorter than [2^32 - 1] events ([compiled_run]): every
    visit and every attempt takes an event of its own, so no count can wrap before. A log of the store holds
    at most [i64::MAX] events, which the store itself checks. Local writes land in logs of fewer than [2^61]
    operations, as many as fit below the bound on numbers with room for the operations of others. Everything
    else holds of runs and logs of any length.
    Fuel bounds these loops: [compile]'s walk along [next], whose bound is the source's own (the number of
    steps) and is proved sufficient; [fold_run], proved to end by itself ([FoldEnds]); [poll_tree], which
    ends when the worker reports nothing more (the theorems about a tick hold for every fuel); the rounds of
    Tarjan's walk and of [descend], the bounded walk and the iterated union of the recursive queries, each proved
    sufficient where it is used ([TarjanFacts], [GraphFacts], [DeriveFacts]).
    A server's theorems are about partitions whose stream id is within the limit of a partition key, and about
    folds that refused nothing: what a server refuses, it does not hold.

    ** Not modelled

    The serde form of events, statuses and operations, the text form of instants and the flow hash (the classes
    [Serde] and [HostSerde] stand for them); log lines and the hooks of the tests; panics, since the functions of
    the model are total (where a panic could be reached by data, a theorem says whether it is); opening and
    migrating a database file; the processes, threads and git calls behind the ports ([tree_worker.rs],
    [tree_child.rs], [git_tree], [run-session-claude]); requests to DynamoDB that fail or are retried, and the
    spelling of its expressions; the reads of the facade and the command lines; and the other tools of the
    repository (chat, memory, sync, the relay). What they report to a run or bring to a log are the inputs of
    the model, which are arbitrary. *)

From stdpp Require Export base tactics numbers list gmap strings pretty sorting.
From stdpp Require Import options.

(** Every file of the development reads numerals and operators in these scopes unless a term says
    otherwise: unsigned machine integers are [N], instants are [Z]. *)
Open Scope N_scope.

(** ** Fallible code

    [Result<T, E>] of the source, with the [?] operator as a bind. *)
Inductive result (E A : Type) : Type :=
| Ok (a : A)
| Err (e : E).
Arguments Ok {E A} a.
Arguments Err {E A} e.

Declare Scope run_scope.
Delimit Scope run_scope with run.
Open Scope run_scope.

Notation "x <-? c ;; k" :=
  (match c with Ok x => k | Err e => Err e end)
  (at level 100, c at next level, right associativity) : run_scope.

(** ** Field update

    [s <| f := v |>] is the source's [s.f = v] on a value: every record of the model declares one
    [Setter] per field. *)
Class Setter {R T : Type} (proj : R → T) := set_field : T → R → R.
Global Hint Mode Setter - - ! : typeclass_instances.

Notation "s <| f := v |>" :=
  (set_field (proj := f) v s)
  (at level 1, left associativity, format "s  <| f  :=  v |>") : run_scope.

(** ** Machine integers *)
Definition u8_max : N := 255.
Definition u32_modulus : N := 4294967296.
Definition u32_max : N := 4294967295.
Definition u64_modulus : N := 18446744073709551616.
Definition u64_max : N := 18446744073709551615.
Definition i64_max : Z := 9223372036854775807%Z.
Definition i64_min : Z := (-9223372036854775808)%Z.

(** [x + 1] on a [u32] or a [u64]: the release profile wraps. *)
Definition u32_succ (n : N) : N := (n + 1) mod u32_modulus.
Definition u64_succ (n : N) : N := (n + 1) mod u64_modulus.
Definition u64_wrap (n : N) : N := n mod u64_modulus.
(** [u8::saturating_add(1)] and [u64::saturating_mul]. *)
Definition u8_saturating_succ (n : N) : N := N.min u8_max (n + 1).
Definition u64_saturating_mul (a b : N) : N := N.min u64_max (a * b).
(** [i64::saturating_add] and [a - b] on [i64] with its wrap. *)
Definition i64_saturating_add (a b : Z) : Z := Z.max i64_min (Z.min i64_max (a + b)).
Definition i64_sub (a b : Z) : Z :=
  ((a - b - i64_min) mod (2 ^ 64) + i64_min)%Z.

Lemma u32_succ_small n : n < u32_max → u32_succ n = n + 1.
Proof. unfold u32_succ, u32_max, u32_modulus. intros. apply N.mod_small. lia. Qed.

Lemma u32_succ_bound n : u32_succ n < u32_modulus.
Proof. unfold u32_succ, u32_modulus. apply N.mod_lt. lia. Qed.

Lemma u64_wrap_small n : n < u64_modulus → u64_wrap n = n.
Proof. apply N.mod_small. Qed.

Lemma u64_wrap_add a b : u64_wrap (u64_wrap a + b) = u64_wrap (a + b).
Proof. unfold u64_wrap, u64_modulus. by rewrite N.Div0.add_mod_idemp_l. Qed.

Lemma i64_sub_small a b :
  (i64_min <= a - b <= i64_max)%Z → i64_sub a b = (a - b)%Z.
Proof. unfold i64_sub, i64_min, i64_max. intros. rewrite Z.mod_small; lia. Qed.

(** ** Iterators

    The adapters of the standard library the engine uses, with its rules: [position] and [find] give
    the first hit, and [min_by_key] the first of several equal minima. *)
Section iterators.
Context {A B : Type}.

Fixpoint position (f : A → bool) (l : list A) : option nat :=
  match l with
  | [] => None
  | x :: l => if f x then Some 0%nat else S <$> position f l
  end.

Fixpoint find_first (f : A → bool) (l : list A) : option A :=
  match l with
  | [] => None
  | x :: l => if f x then Some x else find_first f l
  end.

Fixpoint find_map (f : A → option B) (l : list A) : option B :=
  match l with
  | [] => None
  | x :: l => match f x with Some y => Some y | None => find_map f l end
  end.

(** [iter().map(f).collect::<Option<Vec<_>>>()]. *)
Fixpoint collect_option (f : A → option B) (l : list A) : option (list B) :=
  match l with
  | [] => Some []
  | x :: l => y ← f x; ys ← collect_option f l; Some (y :: ys)
  end.

Fixpoint min_by_key (key : A → Z) (l : list A) : option A :=
  match l with
  | [] => None
  | x :: l =>
      match min_by_key key l with
      | Some y => if (key x <=? key y)%Z then Some x else Some y
      | None => Some x
      end
  end.
End iterators.

Section iterator_lemmas.
Context {A B : Type}.
Implicit Types (l : list A) (f : A → bool).

Lemma position_Some f l i :
  position f l = Some i → ∃ x, l !! i = Some x ∧ f x = true.
Proof.
  revert i; induction l as [|x l IH]; intros i H; simpl in *; [done|].
  destruct (f x) eqn:E; simplify_eq; [by exists x|].
  apply fmap_Some in H as (j & Hj & ->). eauto.
Qed.

Lemma position_None f l : position f l = None ↔ Forall (λ x, f x = false) l.
Proof.
  induction l as [|x l IH]; simpl; [done|].
  destruct (f x) eqn:E; rewrite Forall_cons, E.
  - split; [done|]. intros [? _]; done.
  - rewrite fmap_None, IH. naive_solver.
Qed.

Lemma position_lt f l i : position f l = Some i → (i < length l)%nat.
Proof. intros (x & Hx & _)%position_Some. eauto using lookup_lt_Some. Qed.

Lemma position_alter f g l i :
  (∀ x, f (g x) = f x) → position f (alter g i l) = position f l.
Proof.
  intros Hg. revert i; induction l as [|x l IH]; intros [|i]; try done; cbn; [by rewrite Hg|].
  by rewrite <-(IH i).
Qed.

(** A weaker test finds its first hit no later. *)
Lemma position_first f g l i x :
  position f l = Some i → l !! i = Some x → g x = true → (∀ y, g y = true → f y = true) →
  position g l = Some i.
Proof.
  intros Hf Hx Hg Himp. revert i Hf Hx; induction l as [|y l IH]; intros i Hf Hx; simpl in *; [done|].
  destruct (f y) eqn:Ey; simplify_eq/=; [by rewrite Hg|].
  apply fmap_Some in Hf as (j & Hj & ->). simpl in Hx.
  destruct (g y) eqn:Eg; [by rewrite (Himp _ Eg) in Ey|]. by rewrite (IH j).
Qed.

(** The only element that passes the test is the one found. *)
Lemma position_unique f l i x :
  l !! i = Some x → f x = true →
  (∀ j y, l !! j = Some y → f y = true → j = i) →
  position f l = Some i.
Proof.
  intros Hi Hx Huniq. destruct (position f l) as [j|] eqn:E.
  - apply position_Some in E as (y & Hy & Hfy). f_equal. eauto.
  - apply position_None in E. rewrite Forall_lookup in E. specialize (E i x Hi). congruence.
Qed.

Lemma find_first_Some f l x : find_first f l = Some x → x ∈ l ∧ f x = true.
Proof.
  induction l as [|y l IH]; simpl; [done|].
  destruct (f y) eqn:E; intros; simplify_eq; [by split; [left|]|].
  destruct IH; [done|]. split; [by right|done].
Qed.

Lemma find_first_position f l x :
  find_first f l = Some x → ∃ i, position f l = Some i ∧ l !! i = Some x.
Proof.
  induction l as [|y l IH]; simpl; [done|]. destruct (f y); intros; simplify_eq.
  - by exists 0%nat.
  - destruct IH as (i & -> & Hi); [done|]. by exists (S i).
Qed.

Lemma find_first_None f l : find_first f l = None ↔ Forall (λ x, f x = false) l.
Proof.
  induction l as [|x l IH]; simpl; [done|].
  destruct (f x) eqn:E; rewrite Forall_cons, E; naive_solver.
Qed.

Lemma find_first_app f l1 l2 :
  find_first f (l1 ++ l2) =
  match find_first f l1 with Some x => Some x | None => find_first f l2 end.
Proof. induction l1 as [|x l IH]; simpl; [done|]. by destruct (f x). Qed.

Lemma find_map_Some (g : A → option B) l y :
  find_map g l = Some y → ∃ x, x ∈ l ∧ g x = Some y.
Proof.
  induction l as [|x l IH]; simpl; [done|].
  destruct (g x) eqn:E; intros; simplify_eq.
  - exists x. split; [by left|done].
  - destruct IH as (z & ? & ?); [done|]. exists z. split; [by right|done].
Qed.

Lemma collect_option_Some (g : A → option B) l ys :
  collect_option g l = Some ys ↔ Forall2 (λ x y, g x = Some y) l ys.
Proof.
  revert ys; induction l as [|x l IH]; intros ys; simpl.
  - split; [intros [= <-]; constructor|by intros ->%Forall2_nil_inv_l].
  - destruct (g x) as [y|] eqn:E; simpl.
    + destruct (collect_option g l) as [zs|] eqn:E'; simpl; split.
      * intros [= <-]. constructor; [done|]. by apply IH.
      * intros (y' & ys' & ? & Hf & ->)%Forall2_cons_inv_l. simplify_eq.
        apply IH in Hf. by simplify_eq.
      * done.
      * intros (y' & ys' & ? & Hf & ->)%Forall2_cons_inv_l. by apply IH in Hf.
    + split; [done|]. intros (y' & ys' & ? & Hf & ->)%Forall2_cons_inv_l. congruence.
Qed.

Lemma min_by_key_None (key : A → Z) l : min_by_key key l = None ↔ l = [].
Proof. destruct l; simpl; [done|]. by destruct (min_by_key _ _); [case_match|]. Qed.

Lemma min_by_key_Some (key : A → Z) l x :
  min_by_key key l = Some x → x ∈ l ∧ ∀ y, y ∈ l → (key x <= key y)%Z.
Proof.
  revert x; induction l as [|y l IH]; intros x; simpl; [done|].
  destruct (min_by_key key l) as [z|] eqn:E.
  - destruct (IH z eq_refl) as [Hz Hmin].
    destruct (Z.leb_spec (key y) (key z)); intros [= <-].
    + split; [by left|]. intros w [->|Hw]%elem_of_cons; [lia|]. specialize (Hmin w Hw). lia.
    + split; [by right|]. intros w [->|Hw]%elem_of_cons; [lia|auto].
  - intros [= <-]. apply min_by_key_None in E as ->. split; [by left|].
    intros w [->|Hw]%elem_of_cons; [lia|]. by apply not_elem_of_nil in Hw.
Qed.
End iterator_lemmas.

Lemma filter_all {A} (P : A → Prop) `{!∀ x, Decision (P x)} (l : list A) : Forall P l → base.filter P l = l.
Proof. induction 1 as [|x l Hx Hl IH]; [done|]. by rewrite filter_cons_True, IH by done. Qed.

Lemma StronglySorted_impl_elem_of {A} (R R' : relation A) (l : list A) :
  (∀ x y, x ∈ l → y ∈ l → R x y → R' x y) → StronglySorted R l → StronglySorted R' l.
Proof.
  intros HR H. induction H as [|x l Hl IH Hx]; constructor.
  - apply IH. intros y z ??. apply HR; by right.
  - rewrite Forall_forall in *. intros y Hy. apply HR; [by left|by right|by apply Hx].
Qed.

Lemma StronglySorted_sublist {A} (R : relation A) (l1 l2 : list A) :
  sublist l1 l2 → StronglySorted R l2 → StronglySorted R l1.
Proof.
  intros Hsub. induction Hsub as [|x l1 l2 Hsub IH|x l1 l2 Hsub IH]; [done| |];
    intros [Hx Hs]%StronglySorted_cons; [|by apply IH].
  constructor; [by apply IH|]. rewrite Forall_forall in *. intros y Hy.
  apply Hx. by eapply elem_of_submseteq, sublist_submseteq.
Qed.

Lemma omap_restrict {A B} (f : A → option B) (P : A → Prop) `{!∀ x, Decision (P x)} (l : list A) :
  (∀ x y, x ∈ l → f x = Some y → P x) → omap f l = omap f (base.filter P l).
Proof.
  intros Hf. induction l as [|x l IH]; simpl; [done|]. rewrite filter_cons. case_decide; simpl.
  - destruct (f x); [f_equal|]; apply IH; intros; (eapply Hf; [by right|done]).
  - destruct (f x) as [y|] eqn:E; [exfalso; eauto using list_elem_of_here|].
    apply IH. intros; (eapply Hf; [by right|done]).
Qed.

Lemma filter_omap_fmap {A B C} (get : A → option B) (f : B → bool) (g : B → C) (l : list A) :
  g <$> base.filter (λ t, f t = true) (omap get l) =
  omap (λ x, t ← get x; if f t then Some (g t) else None) l.
Proof.
  induction l as [|x l IH]; simpl; [done|]. destruct (get x) as [t|]; simpl; [|done].
  rewrite filter_cons. destruct (f t); simpl; [|done]. f_equal. exact IH.
Qed.

Lemma omap_ext_elem {A B} (f g : A → option B) (l : list A) :
  (∀ x, x ∈ l → f x = g x) → omap f l = omap g l.
Proof.
  intros H. induction l as [|x l IH]; [done|].
  assert (omap f l = omap g l) as E by (apply IH; intros; apply H; by right).
  simpl. rewrite (H x) by (by left). destruct (g x); [f_equal|]; exact E.
Qed.

Lemma find_first_filter {A} (f : A → bool) (l : list A) : find_first f l = head (base.filter (λ x, f x = true) l).
Proof. induction l as [|x l IH]; simpl; [done|]. rewrite filter_cons. destruct (f x); simpl; done. Qed.

(** ** Ordered maps

    A [BTreeMap<String, V>] is a [gmap]; where the source iterates over it, the order is that of the
    keys' bytes, which is [String.le]. *)
Definition sorted_keys {V} (m : gmap string V) : list string :=
  merge_sort String.le (map_to_list m).*1.

Lemma elem_of_sorted_keys {V} (m : gmap string V) k :
  k ∈ sorted_keys m ↔ is_Some (m !! k).
Proof.
  unfold sorted_keys. rewrite merge_sort_Permutation, list_elem_of_fmap. split.
  - intros ([k' v] & -> & H%elem_of_map_to_list). by exists v.
  - intros [v H]. exists (k, v). by rewrite elem_of_map_to_list.
Qed.

(** ** Automation

    [case_results] splits on a fallible call met in the goal or a hypothesis, keeping its equation;
    the [emit] and [run] databases carry the composition and preservation lemmas of the engine. *)
Create HintDb emit.
Create HintDb run.

Ltac case_result :=
  match goal with
  | H : context [match ?c with Ok _ => _ | Err _ => _ end] |- _ => destruct c eqn:?; simplify_eq
  | |- context [match ?c with Ok _ => _ | Err _ => _ end] => destruct c eqn:?; simplify_eq
  end.
Ltac case_results := repeat case_result.
