(* ===== verification/Text.v ===== *)
(** * Text

    The string operations of the Rust standard library that the engine reads and writes its keys with
    ([format!], [strip_prefix], [starts_with], [ends_with], [rsplitn], [split('/').next()] and
    [str::parse] for unsigned integers), and the laws its keys rely on. A string is the list of its
    bytes; every separator is ASCII, so splitting at a byte is splitting at a character. *)

From S2P Require Import Prelude.
From stdpp Require Import options.
From Stdlib Require Import Ascii.

Definition slash : ascii := "/"%char.

(** ** Operations *)

Fixpoint strip_prefix (p s : string) : option string :=
  match p, s with
  | EmptyString, _ => Some s
  | String a p, String b s => if decide (a = b) then strip_prefix p s else None
  | String _ _, EmptyString => None
  end.

Definition starts_with (p s : string) : bool := bool_decide (is_Some (strip_prefix p s)).

(** Whether some tail of [s] is [suf]. *)
Fixpoint ends_with (suf s : string) : bool :=
  bool_decide (s = suf) ||
  match s with
  | EmptyString => false
  | String _ s => ends_with suf s
  end.

Fixpoint contains_char (c : ascii) (s : string) : bool :=
  match s with
  | EmptyString => false
  | String a s => bool_decide (a = c) || contains_char c s
  end.

Fixpoint all_chars (f : ascii → bool) (s : string) : bool :=
  match s with
  | EmptyString => true
  | String a s => f a && all_chars f s
  end.

(** The part before the first [c], or all of [s]: [s.split(c).next()]. *)
Fixpoint before_first (c : ascii) (s : string) : string :=
  match s with
  | EmptyString => EmptyString
  | String a s => if decide (a = c) then EmptyString else String a (before_first c s)
  end.

(** Around the last [c] of [s]. *)
Fixpoint rsplit_once (c : ascii) (s : string) : option (string * string) :=
  match s with
  | EmptyString => None
  | String a s =>
      match rsplit_once c s with
      | Some (before, after) => Some (String a before, after)
      | None => if decide (a = c) then Some (EmptyString, s) else None
      end
  end.

(** [s.rsplitn(n, c)]: at most [n] parts, from the right, the last one holding the rest. *)
Fixpoint rsplitn (n : nat) (c : ascii) (s : string) : list string :=
  match n with
  | 0%nat => []
  | 1%nat => [s]
  | S n =>
      match rsplit_once c s with
      | Some (before, after) => after :: rsplitn n c before
      | None => [s]
      end
  end.

Definition digit_value (c : ascii) : option N :=
  let n := N_of_ascii c in
  if decide (48 ≤ n ∧ n ≤ 57) then Some (n - 48) else None.

(** The digits of an unsigned integer no larger than [max], on top of what was read before. *)
Fixpoint parse_digits (max acc : N) (s : string) : option N :=
  match s with
  | EmptyString => Some acc
  | String c s =>
      d ← digit_value c;
      let acc := acc * 10 + d in
      if decide (acc ≤ max) then parse_digits max acc s else None
  end.

(** [str::parse] for an unsigned type with this maximum: an optional [+], then at least one digit. *)
Definition parse_uint (max : N) (s : string) : option N :=
  match s with
  | EmptyString => None
  | String c rest =>
      if decide (c = "+"%char)
      then match rest with EmptyString => None | _ => parse_digits max 0 rest end
      else parse_digits max 0 s
  end.

(** ** Laws *)

Lemma string_app_assoc (a b c : string) : a +:+ (b +:+ c) = (a +:+ b) +:+ c.
Proof. induction a as [|x a IH]; [done|]. unfold String.app in *. simpl. by rewrite IH. Qed.

Lemma string_app_cons x (a b : string) : String x a +:+ b = String x (a +:+ b).
Proof. done. Qed.

Lemma string_app_nil_l (a : string) : EmptyString +:+ a = a.
Proof. done. Qed.

Lemma string_app_nil_r (a : string) : a +:+ EmptyString = a.
Proof. induction a as [|x a IH]; [done|]. rewrite string_app_cons. by rewrite IH. Qed.

Lemma string_length_app (a b : string) :
  String.length (a +:+ b) = (String.length a + String.length b)%nat.
Proof. induction a as [|x a IH]; [done|]. rewrite string_app_cons. simpl. by rewrite IH. Qed.

Lemma string_app_inj_r (a b c : string) : a +:+ c = b +:+ c → a = b.
Proof.
  revert b; induction a as [|x a IH]; intros [|y b]; [done|..];
    rewrite ?string_app_cons, ?string_app_nil_l; intros Heq.
  - apply (f_equal String.length) in Heq. simpl in Heq. rewrite string_length_app in Heq. lia.
  - apply (f_equal String.length) in Heq. simpl in Heq. rewrite string_length_app in Heq. lia.
  - injection Heq as -> Heq. f_equal. by apply IH.
Qed.

Lemma strip_prefix_app p s : strip_prefix p (p +:+ s) = Some s.
Proof. induction p as [|a p IH]; [done|]. rewrite string_app_cons. simpl. by case_decide. Qed.

Lemma strip_prefix_Some p s r : strip_prefix p s = Some r → s = p +:+ r.
Proof.
  revert s; induction p as [|a p IH]; intros [|b s]; simpl; intros H; simplify_eq; try done.
  case_decide; simplify_eq. rewrite string_app_cons. by rewrite (IH s H).
Qed.

Lemma starts_with_app p s : starts_with p (p +:+ s) = true.
Proof. unfold starts_with. rewrite strip_prefix_app. by apply bool_decide_eq_true. Qed.

Lemma ends_with_app p suf : ends_with suf (p +:+ suf) = true.
Proof.
  induction p as [|a p IH].
  - rewrite string_app_nil_l. by destruct suf; cbn [ends_with]; rewrite bool_decide_eq_true_2.
  - rewrite string_app_cons. simpl. rewrite IH. apply orb_true_r.
Qed.

Lemma ends_with_inv suf s : ends_with suf s = true → ∃ p, s = p +:+ suf.
Proof.
  induction s as [|a s IH]; simpl; intros H.
  - exists EmptyString. rewrite orb_false_r, bool_decide_eq_true in H. by rewrite <-H.
  - apply orb_true_iff in H as [H|H].
    + exists EmptyString. by apply bool_decide_eq_true in H as ->.
    + destruct (IH H) as [p ->]. by exists (String a p).
Qed.

Lemma contains_char_app c a b :
  contains_char c (a +:+ b) = contains_char c a || contains_char c b.
Proof.
  induction a as [|x a IH]; [done|]. rewrite string_app_cons. simpl. by rewrite IH, orb_assoc.
Qed.

Lemma before_first_app c a b :
  contains_char c a = false → before_first c (a +:+ String c b) = a.
Proof.
  induction a as [|x a IH].
  - intros _. rewrite string_app_nil_l. simpl. by case_decide.
  - cbn [contains_char]. intros [Hx Ha]%orb_false_iff. rewrite string_app_cons. simpl.
    rewrite bool_decide_eq_false in Hx. case_decide; [done|]. by rewrite IH.
Qed.

Lemma rsplit_once_None c s : contains_char c s = false → rsplit_once c s = None.
Proof.
  induction s as [|a s IH]; simpl; [done|]. intros [Ha Hs]%orb_false_iff.
  rewrite IH by done. rewrite bool_decide_eq_false in Ha. by case_decide.
Qed.

Lemma rsplit_once_app c a b :
  contains_char c b = false → rsplit_once c (a +:+ String c b) = Some (a, b).
Proof.
  intros Hb. induction a as [|x a IH].
  - rewrite string_app_nil_l. simpl. rewrite rsplit_once_None by done. by case_decide.
  - rewrite string_app_cons. simpl. by rewrite IH.
Qed.

Lemma rsplit_once_Some c s a b : rsplit_once c s = Some (a, b) → s = a +:+ String c b.
Proof.
  revert a b; induction s as [|x s IH]; intros a b; simpl; [done|].
  destruct (rsplit_once c s) as [[u v]|]; [|case_decide]; intros; simplify_eq; [|done].
  rewrite string_app_cons. f_equal. by apply IH.
Qed.

Lemma rsplitn_step n c a b :
  contains_char c b = false →
  rsplitn (S (S n)) c (a +:+ String c b) = b :: rsplitn (S n) c a.
Proof. intros Hb. cbn [rsplitn]. by rewrite rsplit_once_app. Qed.

(** ** Decimal numbers

    [pretty] writes an integer the way [format!] does. *)
Lemma digit_value_pretty d : d < 10 → digit_value (pretty_N_char d) = Some d.
Proof.
  intros H.
  assert (d = 0 ∨ d = 1 ∨ d = 2 ∨ d = 3 ∨ d = 4 ∨ d = 5 ∨ d = 6 ∨ d = 7 ∨ d = 8 ∨ d = 9) by lia.
  naive_solver.
Qed.

Lemma parse_digits_pretty_go max n s :
  n ≤ max →
  parse_digits max 0 (pretty_N_go n s) =
    (if decide (n = 0) then parse_digits max 0 s else parse_digits max n s).
Proof.
  revert s. induction (N.lt_wf_0 n) as [n _ IH]; intros s Hmax.
  destruct (decide (n = 0)) as [->|Hn]; [done|].
  assert (Hlt : n `div` 10 < n) by (apply N.div_lt; lia).
  assert (Hmod : n `mod` 10 < 10) by (apply N.mod_lt; lia).
  pose proof (N.div_mod n 10 ltac:(lia)) as Hdm.
  rewrite pretty_N_go_step by lia. rewrite IH by lia.
  case_decide as Hd; simpl; rewrite digit_value_pretty by done; simpl;
    rewrite decide_True by lia; f_equal; lia.
Qed.

Lemma pretty_N_go_cons n s : s ≠ EmptyString ∨ 0 < n → ∃ c r, pretty_N_go n s = String c r.
Proof.
  revert s; induction (N.lt_wf_0 n) as [n _ IH]; intros s Hs.
  destruct (decide (n = 0)) as [->|Hn].
  - rewrite pretty_N_go_0. destruct s as [|c r]; [naive_solver lia|]. eauto.
  - rewrite pretty_N_go_step by lia.
    destruct (IH (n `div` 10)) with (s := String (pretty_N_char (n `mod` 10)) s)
      as (c & r & ->); [apply N.div_lt; lia|by left|]. eauto.
Qed.

(** The characters of a decimal number are digits. *)
Lemma all_digits_pretty_go (f : ascii → bool) n s :
  (∀ d, d < 10 → f (pretty_N_char d) = true) →
  all_chars f s = true → all_chars f (pretty_N_go n s) = true.
Proof.
  intros Hf. revert s; induction (N.lt_wf_0 n) as [n _ IH]; intros s Hs.
  destruct (decide (n = 0)) as [->|Hn]; [done|].
  rewrite pretty_N_go_step by lia. apply IH; [apply N.div_lt; lia|].
  simpl. rewrite Hs, Hf by (apply N.mod_lt; lia). done.
Qed.

Lemma all_digits_pretty (f : ascii → bool) (n : N) :
  (∀ d, d < 10 → f (pretty_N_char d) = true) → all_chars f (pretty n) = true.
Proof.
  intros Hf. unfold pretty, pretty_N. case_decide.
  - simpl. specialize (Hf 0 ltac:(lia)). simpl in Hf. by rewrite Hf.
  - by apply all_digits_pretty_go.
Qed.

Lemma all_chars_contains c s :
  all_chars (λ a, bool_decide (a ≠ c)) s = true → contains_char c s = false.
Proof.
  induction s as [|a s IH]; simpl; [done|]. intros [Ha Hs]%andb_true_iff.
  rewrite IH by done. rewrite bool_decide_eq_true in Ha. by rewrite bool_decide_eq_false_2.
Qed.

Lemma pretty_char_ne d c :
  d < 10 → digit_value c = None → pretty_N_char d ≠ c.
Proof. intros Hd Hc Heq. pose proof (digit_value_pretty d Hd). congruence. Qed.

Lemma pretty_no_char c (n : N) : digit_value c = None → contains_char c (pretty n) = false.
Proof.
  intros Hc. apply all_chars_contains, all_digits_pretty. intros d Hd.
  apply bool_decide_eq_true. by apply pretty_char_ne.
Qed.

Lemma pretty_no_slash (n : N) : contains_char slash (pretty n) = false.
Proof. by apply pretty_no_char. Qed.

(** What [format!] writes for an unsigned integer, [str::parse] reads back. *)
Lemma parse_uint_pretty max (n : N) : n ≤ max → parse_uint max (pretty n) = Some n.
Proof.
  intros Hmax. pose proof (pretty_no_char "+"%char n eq_refl) as Hplus.
  unfold parse_uint. unfold pretty, pretty_N in *. case_decide as Hn.
  - subst n. simpl. by rewrite decide_True by lia.
  - destruct (pretty_N_go_cons n EmptyString) as (c & r & Heq); [right; lia|].
    rewrite Heq. rewrite Heq in Hplus. simpl in Hplus.
    apply orb_false_iff in Hplus as [Hc _]. rewrite bool_decide_eq_false in Hc.
    rewrite decide_False by done. rewrite <-Heq, parse_digits_pretty_go by done.
    by rewrite decide_False by done.
Qed.

(** ** Splitting and joining text

    [str::split] on a character, [str::split_once], [slice::join] and the order of strings, as the op-log
    tools use them for composite ids. *)
(** [s.split(c)]: at least one part, as many as there are separators and one more. *)
Fixpoint split_on (c : ascii) (s : string) : list string :=
  match s with
  | EmptyString => [EmptyString]
  | String a s =>
      if bool_decide (a = c) then EmptyString :: split_on c s
      else match split_on c s with
           | part :: parts => String a part :: parts
           | [] => [String a EmptyString]
           end
  end.

(** [s.split_once(c)]. *)
Fixpoint split_once (c : ascii) (s : string) : option (string * string) :=
  match s with
  | EmptyString => None
  | String a s =>
      if bool_decide (a = c) then Some (EmptyString, s)
      else '(before, after) ← split_once c s; Some (String a before, after)
  end.

(** [parts.join(c)]. *)
Fixpoint join (c : ascii) (parts : list string) : string :=
  match parts with
  | [] => EmptyString
  | [part] => part
  | part :: parts => part +:+ String c (join c parts)
  end.

Definition is_empty (s : string) : bool := match s with EmptyString => true | _ => false end.

(** [len()], in bytes. *)
Definition byte_len (s : string) : N := N.of_nat (String.length s).

Lemma split_on_nonempty c s : split_on c s ≠ [].
Proof. destruct s as [|a s]; simpl; [done|]. case_bool_decide; [done|]. by destruct (split_on c s). Qed.

Lemma split_on_plain c s : contains_char c s = false → split_on c s = [s].
Proof.
  induction s as [|a s IH]; simpl; [done|]. rewrite orb_false_iff. intros [Ha Hs].
  case_bool_decide; [done|]. by rewrite IH.
Qed.

Lemma split_on_app c a b :
  contains_char c a = false → split_on c (a +:+ String c b) = a :: split_on c b.
Proof.
  induction a as [|x a IH]; simpl; intros Ha.
  - by rewrite bool_decide_eq_true_2.
  - rewrite orb_false_iff in Ha. destruct Ha as [Hx Ha].
    case_bool_decide; [done|]. by rewrite IH.
Qed.

(** Joining parts that hold no separator splits back. *)
Lemma split_join c parts :
  parts ≠ [] → Forall (λ part, contains_char c part = false) parts → split_on c (join c parts) = parts.
Proof.
  induction parts as [|part [|next parts] IH]; intros Hne H; [done| |].
  - rewrite Forall_singleton in H. by apply split_on_plain.
  - apply Forall_cons in H as [Hp H]. change (join c (part :: next :: parts)) with
      (part +:+ String c (join c (next :: parts))).
    rewrite split_on_app by done. by rewrite IH.
Qed.

Lemma split_once_app c a b :
  contains_char c a = false → split_once c (a +:+ String c b) = Some (a, b).
Proof.
  induction a as [|x a IH]; simpl; intros Ha.
  - by rewrite bool_decide_eq_true_2.
  - rewrite orb_false_iff in Ha. destruct Ha as [Hx Ha].
    case_bool_decide; [done|]. by rewrite IH.
Qed.

Lemma split_once_None c s : contains_char c s = false → split_once c s = None.
Proof.
  induction s as [|x s IH]; simpl; intros Hs; [done|]. rewrite orb_false_iff in Hs.
  destruct Hs as [Hx Hs]. case_bool_decide; [done|].
  by rewrite IH.
Qed.

Lemma split_once_Some c s a b :
  split_once c s = Some (a, b) → s = a +:+ String c b ∧ contains_char c a = false.
Proof.
  revert a; induction s as [|x s IH]; intros a H; simpl in H; [done|]. case_bool_decide as Hx.
  - simplify_eq. by split.
  - destruct (split_once c s) as [[before after]|] eqn:E; simplify_eq/=.
    destruct (IH before) as [-> Hc]; [done|]. split; [done|]. by rewrite bool_decide_eq_false_2.
Qed.
