(* ===== verification/Ids.v ===== *)
(** * Value types of the contracts

    [crates/run-contracts/src/ids.rs] and [policy.rs]: run ids, slots, spans and instants, and the
    liveness policy a run is pinned to. *)

From S2P Require Import Prelude Text.
From stdpp Require Import options.

Abbreviation MessageId := string (only parsing).
Abbreviation Handle := string (only parsing).
Abbreviation StepId := string (only parsing).
Abbreviation SessionKey := string (only parsing).
Abbreviation Key := string (only parsing).
Abbreviation RunId := string (only parsing).
Abbreviation Seq := N (only parsing).

(** ** Run ids

    The ULID library is outside the repository: what it accepts is a parameter. *)
Section run_id.
Variable ulid_from_string : string → bool.

Definition RunId_new (ulid : string) : RunId := "r-" +:+ ulid.

Definition RunId_parse (text : string) : option RunId :=
  ulid ← strip_prefix "r-" text;
  if ulid_from_string ulid then Some text else None.

Lemma RunId_parse_new ulid :
  ulid_from_string ulid = true → RunId_parse (RunId_new ulid) = Some (RunId_new ulid).
Proof. intros H. unfold RunId_parse, RunId_new. rewrite strip_prefix_app. simpl. by rewrite H. Qed.
End run_id.

(** ** Slots *)
Record Slot := MkSlot {
  slot_step : StepId;
  slot_visit : N;
  slot_member : Handle;
  slot_attempt : N;
}.

Global Instance Slot_eq_dec : EqDecision Slot.
Proof. solve_decision. Defined.

Definition session_key (slot : Slot) (run : RunId) : SessionKey :=
  run +:+ "/" +:+ slot_step slot +:+ "/v" +:+ pretty (slot_visit slot) +:+ "/" +:+
  slot_member slot +:+ "/a" +:+ pretty (slot_attempt slot).

(** ** Spans: whole seconds, a [u64] *)
Abbreviation Secs := N (only parsing).

Definition Secs_minutes (n : N) : Secs := n * 60.
Definition Secs_hours (n : N) : Secs := n * 3600.

(** ** Instants: milliseconds since the epoch, an [i64] inside the writable years *)
Abbreviation Timestamp := Z (only parsing).

Definition FIRST_WRITABLE_MILLIS : Z := (-62167219200000)%Z.
Definition LAST_WRITABLE_MILLIS : Z := 253402300799999%Z.

Definition from_unix_millis (millis : Z) : Timestamp :=
  if (millis <? FIRST_WRITABLE_MILLIS)%Z then FIRST_WRITABLE_MILLIS
  else if (LAST_WRITABLE_MILLIS <? millis)%Z then LAST_WRITABLE_MILLIS
  else millis.

Definition plus (at' : Timestamp) (span : Secs) : Timestamp :=
  let millis := u64_saturating_mul span 1000 in
  let millis :=
    if Z.to_N LAST_WRITABLE_MILLIS <? millis then LAST_WRITABLE_MILLIS else Z.of_N millis in
  from_unix_millis (i64_saturating_add at' millis).

(** Every value of the type is inside the years the wire form can write. *)
Definition timestamp_ok (t : Timestamp) : Prop :=
  (FIRST_WRITABLE_MILLIS <= t <= LAST_WRITABLE_MILLIS)%Z.

(** ** The liveness policy *)
Record LivenessPolicy := MkPolicy {
  root_deadline : Secs;
  start_deadline : Secs;
  quiet_after : Secs;
  confirm_within : Secs;
  call_bound_after : Secs;
  subprocess_idle : Secs;
  stop_grace : Secs;
  tree_window : Secs;
  wake_jump : Secs;
  hold_retry : Secs;
  hold_retry_min : Secs;
  hold_retry_max : Secs;
  max_attempts : N;
  max_holds : N;
}.

Definition LivenessPolicy_default : LivenessPolicy := {|
  root_deadline := Secs_minutes 1;
  start_deadline := Secs_minutes 3;
  quiet_after := Secs_minutes 10;
  confirm_within := Secs_minutes 5;
  call_bound_after := Secs_hours 3;
  subprocess_idle := Secs_minutes 30;
  stop_grace := Secs_minutes 5;
  tree_window := Secs_minutes 10;
  wake_jump := Secs_minutes 2;
  hold_retry := Secs_minutes 30;
  hold_retry_min := Secs_minutes 1;
  hold_retry_max := Secs_hours 24;
  max_attempts := 3;
  max_holds := 5;
|}.

(** ** Laws of instants *)

Lemma from_unix_millis_ok m : timestamp_ok (from_unix_millis m).
Proof.
  unfold timestamp_ok, from_unix_millis, FIRST_WRITABLE_MILLIS, LAST_WRITABLE_MILLIS.
  repeat case_match; lia.
Qed.

Lemma from_unix_millis_id t : timestamp_ok t → from_unix_millis t = t.
Proof.
  unfold timestamp_ok, from_unix_millis, FIRST_WRITABLE_MILLIS, LAST_WRITABLE_MILLIS.
  intros; repeat case_match; lia.
Qed.

Lemma plus_ok t span : timestamp_ok (plus t span).
Proof. apply from_unix_millis_ok. Qed.

(** What [plus] computes, with its saturations resolved: the span itself is cut to the last writable
    instant before it is added. *)
Lemma plus_spec t span :
  timestamp_ok t →
  plus t span =
    Z.min LAST_WRITABLE_MILLIS (t + Z.min LAST_WRITABLE_MILLIS (Z.of_N span * 1000)).
Proof.
  unfold plus, timestamp_ok, u64_saturating_mul, u64_max.
  intros. set (m := if _ <? _ then _ else _).
  assert (m = Z.min LAST_WRITABLE_MILLIS (Z.of_N span * 1000)) as ->.
  { unfold m, LAST_WRITABLE_MILLIS in *. destruct (N.ltb_spec (Z.to_N 253402300799999)
      (N.min 18446744073709551615 (span * 1000))); lia. }
  unfold from_unix_millis, i64_saturating_add, i64_min, i64_max, FIRST_WRITABLE_MILLIS,
    LAST_WRITABLE_MILLIS in *.
  repeat case_match; lia.
Qed.

Lemma plus_le t span : timestamp_ok t → (t <= plus t span)%Z.
Proof.
  intros Ht. rewrite plus_spec by done. unfold timestamp_ok, LAST_WRITABLE_MILLIS in *. lia.
Qed.

(** From 1970 on, [plus] is the sum, stopping at the last writable instant. *)
Lemma plus_after_epoch t span :
  timestamp_ok t → (0 <= t)%Z →
  plus t span = Z.min LAST_WRITABLE_MILLIS (t + Z.of_N span * 1000).
Proof. intros. rewrite plus_spec by done. lia. Qed.

(** Before it, the span is cut first, so a long enough span stops short of the last writable
    instant although the sum is past it. *)
Lemma plus_before_epoch_stops_short :
  timestamp_ok (-1000) ∧
  (LAST_WRITABLE_MILLIS < -1000 + Z.of_N 253402300801 * 1000)%Z ∧
  plus (-1000) 253402300801 = (LAST_WRITABLE_MILLIS - 1000)%Z.
Proof. repeat split; by vm_compute. Qed.

(** Two instants are never so far apart that their difference overflows. *)
Lemma timestamp_sub a b : timestamp_ok a → timestamp_ok b → i64_sub a b = (a - b)%Z.
Proof.
  unfold timestamp_ok, FIRST_WRITABLE_MILLIS, LAST_WRITABLE_MILLIS. intros.
  apply i64_sub_small. unfold i64_min, i64_max. lia.
Qed.

(** Adding a span to an instant never leaves the years the wire form can write and never goes back;
    from 1970 on it is the sum, stopping at the last writable instant. *)
Lemma plus_saturates t span :
  timestamp_ok t →
  timestamp_ok (plus t span) ∧ (t <= plus t span)%Z ∧
  ((0 <= t)%Z → plus t span = Z.min LAST_WRITABLE_MILLIS (t + Z.of_N span * 1000)).
Proof. intros. split_and!; auto using plus_ok, plus_le, plus_after_epoch. Qed.

Lemma plus_saturates_witness :
  timestamp_ok (plus 5000 60) ∧ (5000 <= plus 5000 60)%Z ∧
  ((0 <= 5000)%Z → plus 5000 60 = Z.min LAST_WRITABLE_MILLIS (5000 + Z.of_N 60 * 1000)).
Proof. apply (plus_saturates 5000 60). by split. Defined.
