(* ===== verification/Codes.v ===== *)
(** * The closed lists of the contracts

    [crates/run-contracts/src/codes.rs] and the [closed_code!] lists of [events.rs], [session.rs] and
    [status.rs]. The macro makes an enum, its wire words [ALL], [as_str] and [parse] from one list; here
    each list is a module with the enum, and the macro's functions are the operations of the class
    [ClosedCode], whose laws every list proves. A value from a newer version reads as [Unknown]. *)

From S2P Require Import Prelude Text.
From stdpp Require Import options.

Class ClosedCode (A : Type) := {
  as_str : A → string;
  parse : string → A;
  ALL : list string;
  unknown_code : string → A;
}.

(** What a reader and a writer of a list rely on. *)
Class ClosedCodeLaws (A : Type) `{ClosedCode A} := {
  (** whatever word was read is written back *)
  as_str_parse : ∀ text : string, as_str (parse text : A) = text;
  (** a word of the list is never read as unknown, and any other word is kept as it was read *)
  parse_listed : ∀ text : string, text ∉ ALL ↔ parse text = unknown_code text;
  (** a code reads back as itself, unless it is an unknown one holding a listed word *)
  parse_as_str : ∀ c : A, parse (as_str c) = c ∨ ∃ raw, c = unknown_code raw ∧ raw ∈ ALL;
  (** the list has no word twice *)
  ALL_NoDup : NoDup ALL;
}.

(** A word is in a list of words, by evaluation. *)
Ltac listed := apply (bool_decide_unpack _); vm_compute; exact I.

(** The tests of a [parse] on a word that is in no list all fail. *)
Ltac unlisted H := repeat (case_decide; [exfalso; apply H; subst; listed|]); reflexivity.

Ltac solve_closed_code :=
  constructor;
  [ intros text; cbn;
    lazymatch goal with |- ?f (?g text) = _ => unfold f, g end;
    repeat (case_decide; [by subst|]); reflexivity
  | intros text; split;
    [ intros Hnot; cbn;
      lazymatch goal with |- ?g text = _ => unfold g end; unlisted Hnot
    | intros Heq Hin; cbn in Hin;
      lazymatch type of Hin with _ ∈ ?h => unfold h in Hin end;
      repeat (apply elem_of_cons in Hin as [->|Hin]; [by vm_compute in Heq|]);
      by apply elem_of_nil in Hin ]
  | intros c; destruct c as []; try (left; reflexivity);
    match goal with raw : string |- _ =>
      destruct (decide (raw ∈ ALL)) as [Hin|Hnot]; [by right; exists raw|left];
      cbn;
      lazymatch goal with |- ?g raw = _ => unfold g; unlisted Hnot end
    end
  | apply (bool_decide_unpack _); vm_compute; exact I ].

(** ** [ReasonCode] *)
Module ReasonCode.
Inductive ReasonCode :=
| StaleTimer | DuplicateReply | LateReplyAfterSkip | UnknownSession | FinalState
| AlreadyFinishing | OutOfState | Quiet | Hung | StartFailed | Lost | Exit | TurnComplete
| StoppedByHost | WouldNotStop | RootFailed | TreeRefused | PoisonInput | PermissionRefused
| EndedWithoutReply | FanOutIncomplete | UsageLimit | ProviderUnavailable | HoldLimit
| Ceiling | AcceptedByRequester | WithdrawnByRequester | WithdrawnByOwner | Delivered
| Unknown (raw : string).
End ReasonCode.
Abbreviation ReasonCode := ReasonCode.ReasonCode (only parsing).

Global Instance ReasonCode_eq_dec : EqDecision ReasonCode.
Proof. solve_decision. Defined.

Definition ReasonCode_as_str (c : ReasonCode) : string :=
  match c with
  | ReasonCode.StaleTimer => "stale_timer"
  | ReasonCode.DuplicateReply => "duplicate_reply"
  | ReasonCode.LateReplyAfterSkip => "late_reply_after_skip"
  | ReasonCode.UnknownSession => "unknown_session"
  | ReasonCode.FinalState => "final_state"
  | ReasonCode.AlreadyFinishing => "already_finishing"
  | ReasonCode.OutOfState => "out_of_state"
  | ReasonCode.Quiet => "quiet"
  | ReasonCode.Hung => "hung"
  | ReasonCode.StartFailed => "start_failed"
  | ReasonCode.Lost => "lost"
  | ReasonCode.Exit => "exit"
  | ReasonCode.TurnComplete => "turn_complete"
  | ReasonCode.StoppedByHost => "stopped_by_host"
  | ReasonCode.WouldNotStop => "would_not_stop"
  | ReasonCode.RootFailed => "root_failed"
  | ReasonCode.TreeRefused => "tree_refused"
  | ReasonCode.PoisonInput => "poison_input"
  | ReasonCode.PermissionRefused => "permission_refused"
  | ReasonCode.EndedWithoutReply => "ended_without_reply"
  | ReasonCode.FanOutIncomplete => "fan_out_incomplete"
  | ReasonCode.UsageLimit => "usage_limit"
  | ReasonCode.ProviderUnavailable => "provider_unavailable"
  | ReasonCode.HoldLimit => "hold_limit"
  | ReasonCode.Ceiling => "ceiling"
  | ReasonCode.AcceptedByRequester => "accepted_by_requester"
  | ReasonCode.WithdrawnByRequester => "withdrawn_by_requester"
  | ReasonCode.WithdrawnByOwner => "withdrawn_by_owner"
  | ReasonCode.Delivered => "delivered"
  | ReasonCode.Unknown raw => raw
  end.

Definition ReasonCode_parse (text : string) : ReasonCode :=
  if decide (text = "stale_timer") then ReasonCode.StaleTimer else
  if decide (text = "duplicate_reply") then ReasonCode.DuplicateReply else
  if decide (text = "late_reply_after_skip") then ReasonCode.LateReplyAfterSkip else
  if decide (text = "unknown_session") then ReasonCode.UnknownSession else
  if decide (text = "final_state") then ReasonCode.FinalState else
  if decide (text = "already_finishing") then ReasonCode.AlreadyFinishing else
  if decide (text = "out_of_state") then ReasonCode.OutOfState else
  if decide (text = "quiet") then ReasonCode.Quiet else
  if decide (text = "hung") then ReasonCode.Hung else
  if decide (text = "start_failed") then ReasonCode.StartFailed else
  if decide (text = "lost") then ReasonCode.Lost else
  if decide (text = "exit") then ReasonCode.Exit else
  if decide (text = "turn_complete") then ReasonCode.TurnComplete else
  if decide (text = "stopped_by_host") then ReasonCode.StoppedByHost else
  if decide (text = "would_not_stop") then ReasonCode.WouldNotStop else
  if decide (text = "root_failed") then ReasonCode.RootFailed else
  if decide (text = "tree_refused") then ReasonCode.TreeRefused else
  if decide (text = "poison_input") then ReasonCode.PoisonInput else
  if decide (text = "permission_refused") then ReasonCode.PermissionRefused else
  if decide (text = "ended_without_reply") then ReasonCode.EndedWithoutReply else
  if decide (text = "fan_out_incomplete") then ReasonCode.FanOutIncomplete else
  if decide (text = "usage_limit") then ReasonCode.UsageLimit else
  if decide (text = "provider_unavailable") then ReasonCode.ProviderUnavailable else
  if decide (text = "hold_limit") then ReasonCode.HoldLimit else
  if decide (text = "ceiling") then ReasonCode.Ceiling else
  if decide (text = "accepted_by_requester") then ReasonCode.AcceptedByRequester else
  if decide (text = "withdrawn_by_requester") then ReasonCode.WithdrawnByRequester else
  if decide (text = "withdrawn_by_owner") then ReasonCode.WithdrawnByOwner else
  if decide (text = "delivered") then ReasonCode.Delivered else
  ReasonCode.Unknown text.

Definition ReasonCode_ALL : list string :=
  ["stale_timer";
   "duplicate_reply";
   "late_reply_after_skip";
   "unknown_session";
   "final_state";
   "already_finishing";
   "out_of_state";
   "quiet";
   "hung";
   "start_failed";
   "lost";
   "exit";
   "turn_complete";
   "stopped_by_host";
   "would_not_stop";
   "root_failed";
   "tree_refused";
   "poison_input";
   "permission_refused";
   "ended_without_reply";
   "fan_out_incomplete";
   "usage_limit";
   "provider_unavailable";
   "hold_limit";
   "ceiling";
   "accepted_by_requester";
   "withdrawn_by_requester";
   "withdrawn_by_owner";
   "delivered"].

Global Instance ReasonCode_code : ClosedCode ReasonCode :=
  {| as_str := ReasonCode_as_str; parse := ReasonCode_parse; ALL := ReasonCode_ALL;
     unknown_code := ReasonCode.Unknown |}.
Global Instance ReasonCode_laws : ClosedCodeLaws ReasonCode.
Proof. solve_closed_code. Qed.

(** ** [GitReason] *)
Module GitReason.
Inductive GitReason :=
| BoundExceeded | FetchFailed | LockHeld | ExitNonzero
| Unknown (raw : string).
End GitReason.
Abbreviation GitReason := GitReason.GitReason (only parsing).

Global Instance GitReason_eq_dec : EqDecision GitReason.
Proof. solve_decision. Defined.

Definition GitReason_as_str (c : GitReason) : string :=
  match c with
  | GitReason.BoundExceeded => "bound_exceeded"
  | GitReason.FetchFailed => "fetch_failed"
  | GitReason.LockHeld => "lock_held"
  | GitReason.ExitNonzero => "exit_nonzero"
  | GitReason.Unknown raw => raw
  end.

Definition GitReason_parse (text : string) : GitReason :=
  if decide (text = "bound_exceeded") then GitReason.BoundExceeded else
  if decide (text = "fetch_failed") then GitReason.FetchFailed else
  if decide (text = "lock_held") then GitReason.LockHeld else
  if decide (text = "exit_nonzero") then GitReason.ExitNonzero else
  GitReason.Unknown text.

Definition GitReason_ALL : list string :=
  ["bound_exceeded";
   "fetch_failed";
   "lock_held";
   "exit_nonzero"].

Global Instance GitReason_code : ClosedCode GitReason :=
  {| as_str := GitReason_as_str; parse := GitReason_parse; ALL := GitReason_ALL;
     unknown_code := GitReason.Unknown |}.
Global Instance GitReason_laws : ClosedCodeLaws GitReason.
Proof. solve_closed_code. Qed.

(** ** [Origin] *)
Module Origin.
Inductive Origin :=
| Cli | Host | Adapter | Reducer | Timer
| Unknown (raw : string).
End Origin.
Abbreviation Origin := Origin.Origin (only parsing).

Global Instance Origin_eq_dec : EqDecision Origin.
Proof. solve_decision. Defined.

Definition Origin_as_str (c : Origin) : string :=
  match c with
  | Origin.Cli => "cli"
  | Origin.Host => "host"
  | Origin.Adapter => "adapter"
  | Origin.Reducer => "reducer"
  | Origin.Timer => "timer"
  | Origin.Unknown raw => raw
  end.

Definition Origin_parse (text : string) : Origin :=
  if decide (text = "cli") then Origin.Cli else
  if decide (text = "host") then Origin.Host else
  if decide (text = "adapter") then Origin.Adapter else
  if decide (text = "reducer") then Origin.Reducer else
  if decide (text = "timer") then Origin.Timer else
  Origin.Unknown text.

Definition Origin_ALL : list string :=
  ["cli";
   "host";
   "adapter";
   "reducer";
   "timer"].

Global Instance Origin_code : ClosedCode Origin :=
  {| as_str := Origin_as_str; parse := Origin_parse; ALL := Origin_ALL;
     unknown_code := Origin.Unknown |}.
Global Instance Origin_laws : ClosedCodeLaws Origin.
Proof. solve_closed_code. Qed.

(** ** [SequenceKind] *)
Module SequenceKind.
Inductive SequenceKind :=
| Merge | Rebase | CherryPick | Revert | Bisect
| Unknown (raw : string).
End SequenceKind.
Abbreviation SequenceKind := SequenceKind.SequenceKind (only parsing).

Global Instance SequenceKind_eq_dec : EqDecision SequenceKind.
Proof. solve_decision. Defined.

Definition SequenceKind_as_str (c : SequenceKind) : string :=
  match c with
  | SequenceKind.Merge => "merge"
  | SequenceKind.Rebase => "rebase"
  | SequenceKind.CherryPick => "cherry_pick"
  | SequenceKind.Revert => "revert"
  | SequenceKind.Bisect => "bisect"
  | SequenceKind.Unknown raw => raw
  end.

Definition SequenceKind_parse (text : string) : SequenceKind :=
  if decide (text = "merge") then SequenceKind.Merge else
  if decide (text = "rebase") then SequenceKind.Rebase else
  if decide (text = "cherry_pick") then SequenceKind.CherryPick else
  if decide (text = "revert") then SequenceKind.Revert else
  if decide (text = "bisect") then SequenceKind.Bisect else
  SequenceKind.Unknown text.

Definition SequenceKind_ALL : list string :=
  ["merge";
   "rebase";
   "cherry_pick";
   "revert";
   "bisect"].

Global Instance SequenceKind_code : ClosedCode SequenceKind :=
  {| as_str := SequenceKind_as_str; parse := SequenceKind_parse; ALL := SequenceKind_ALL;
     unknown_code := SequenceKind.Unknown |}.
Global Instance SequenceKind_laws : ClosedCodeLaws SequenceKind.
Proof. solve_closed_code. Qed.

(** ** [Disposition] *)
Module Disposition.
Inductive Disposition :=
| Continue | Accept
| Unknown (raw : string).
End Disposition.
Abbreviation Disposition := Disposition.Disposition (only parsing).

Global Instance Disposition_eq_dec : EqDecision Disposition.
Proof. solve_decision. Defined.

Definition Disposition_as_str (c : Disposition) : string :=
  match c with
  | Disposition.Continue => "continue"
  | Disposition.Accept => "accept"
  | Disposition.Unknown raw => raw
  end.

Definition Disposition_parse (text : string) : Disposition :=
  if decide (text = "continue") then Disposition.Continue else
  if decide (text = "accept") then Disposition.Accept else
  Disposition.Unknown text.

Definition Disposition_ALL : list string :=
  ["continue";
   "accept"].

Global Instance Disposition_code : ClosedCode Disposition :=
  {| as_str := Disposition_as_str; parse := Disposition_parse; ALL := Disposition_ALL;
     unknown_code := Disposition.Unknown |}.
Global Instance Disposition_laws : ClosedCodeLaws Disposition.
Proof. solve_closed_code. Qed.

(** ** [WithdrawnBy] *)
Module WithdrawnBy.
Inductive WithdrawnBy :=
| Requester | Owner
| Unknown (raw : string).
End WithdrawnBy.
Abbreviation WithdrawnBy := WithdrawnBy.WithdrawnBy (only parsing).

Global Instance WithdrawnBy_eq_dec : EqDecision WithdrawnBy.
Proof. solve_decision. Defined.

Definition WithdrawnBy_as_str (c : WithdrawnBy) : string :=
  match c with
  | WithdrawnBy.Requester => "requester"
  | WithdrawnBy.Owner => "owner"
  | WithdrawnBy.Unknown raw => raw
  end.

Definition WithdrawnBy_parse (text : string) : WithdrawnBy :=
  if decide (text = "requester") then WithdrawnBy.Requester else
  if decide (text = "owner") then WithdrawnBy.Owner else
  WithdrawnBy.Unknown text.

Definition WithdrawnBy_ALL : list string :=
  ["requester";
   "owner"].

Global Instance WithdrawnBy_code : ClosedCode WithdrawnBy :=
  {| as_str := WithdrawnBy_as_str; parse := WithdrawnBy_parse; ALL := WithdrawnBy_ALL;
     unknown_code := WithdrawnBy.Unknown |}.
Global Instance WithdrawnBy_laws : ClosedCodeLaws WithdrawnBy.
Proof. solve_closed_code. Qed.

(** ** [StopKind] *)
Module StopKind.
Inductive StopKind :=
| Term | Kill
| Unknown (raw : string).
End StopKind.
Abbreviation StopKind := StopKind.StopKind (only parsing).

Global Instance StopKind_eq_dec : EqDecision StopKind.
Proof. solve_decision. Defined.

Definition StopKind_as_str (c : StopKind) : string :=
  match c with
  | StopKind.Term => "term"
  | StopKind.Kill => "kill"
  | StopKind.Unknown raw => raw
  end.

Definition StopKind_parse (text : string) : StopKind :=
  if decide (text = "term") then StopKind.Term else
  if decide (text = "kill") then StopKind.Kill else
  StopKind.Unknown text.

Definition StopKind_ALL : list string :=
  ["term";
   "kill"].

Global Instance StopKind_code : ClosedCode StopKind :=
  {| as_str := StopKind_as_str; parse := StopKind_parse; ALL := StopKind_ALL;
     unknown_code := StopKind.Unknown |}.
Global Instance StopKind_laws : ClosedCodeLaws StopKind.
Proof. solve_closed_code. Qed.

(** ** [StepOutcome] *)
Module StepOutcome.
Inductive StepOutcome :=
| Pass | NeedsRework | Escalated
| Unknown (raw : string).
End StepOutcome.
Abbreviation StepOutcome := StepOutcome.StepOutcome (only parsing).

Global Instance StepOutcome_eq_dec : EqDecision StepOutcome.
Proof. solve_decision. Defined.

Definition StepOutcome_as_str (c : StepOutcome) : string :=
  match c with
  | StepOutcome.Pass => "pass"
  | StepOutcome.NeedsRework => "needs_rework"
  | StepOutcome.Escalated => "escalated"
  | StepOutcome.Unknown raw => raw
  end.

Definition StepOutcome_parse (text : string) : StepOutcome :=
  if decide (text = "pass") then StepOutcome.Pass else
  if decide (text = "needs_rework") then StepOutcome.NeedsRework else
  if decide (text = "escalated") then StepOutcome.Escalated else
  StepOutcome.Unknown text.

Definition StepOutcome_ALL : list string :=
  ["pass";
   "needs_rework";
   "escalated"].

Global Instance StepOutcome_code : ClosedCode StepOutcome :=
  {| as_str := StepOutcome_as_str; parse := StepOutcome_parse; ALL := StepOutcome_ALL;
     unknown_code := StepOutcome.Unknown |}.
Global Instance StepOutcome_laws : ClosedCodeLaws StepOutcome.
Proof. solve_closed_code. Qed.

(** ** [Outcome] *)
Module Outcome.
Inductive Outcome :=
| Delivered | Withdrawn | Accepted | Failed
| Unknown (raw : string).
End Outcome.
Abbreviation Outcome := Outcome.Outcome (only parsing).

Global Instance Outcome_eq_dec : EqDecision Outcome.
Proof. solve_decision. Defined.

Definition Outcome_as_str (c : Outcome) : string :=
  match c with
  | Outcome.Delivered => "delivered"
  | Outcome.Withdrawn => "withdrawn"
  | Outcome.Accepted => "accepted"
  | Outcome.Failed => "failed"
  | Outcome.Unknown raw => raw
  end.

Definition Outcome_parse (text : string) : Outcome :=
  if decide (text = "delivered") then Outcome.Delivered else
  if decide (text = "withdrawn") then Outcome.Withdrawn else
  if decide (text = "accepted") then Outcome.Accepted else
  if decide (text = "failed") then Outcome.Failed else
  Outcome.Unknown text.

Definition Outcome_ALL : list string :=
  ["delivered";
   "withdrawn";
   "accepted";
   "failed"].

Global Instance Outcome_code : ClosedCode Outcome :=
  {| as_str := Outcome_as_str; parse := Outcome_parse; ALL := Outcome_ALL;
     unknown_code := Outcome.Unknown |}.
Global Instance Outcome_laws : ClosedCodeLaws Outcome.
Proof. solve_closed_code. Qed.

(** ** [TimerPurpose] *)
Module TimerPurpose.
Inductive TimerPurpose :=
| RootDeadline | StartDeadline | Quiet | Confirm | CallBound | SubprocessIdle | StopGrace
| WindDown | HoldRetry | TreeWindow
| Unknown (raw : string).
End TimerPurpose.
Abbreviation TimerPurpose := TimerPurpose.TimerPurpose (only parsing).

Global Instance TimerPurpose_eq_dec : EqDecision TimerPurpose.
Proof. solve_decision. Defined.

Definition TimerPurpose_as_str (c : TimerPurpose) : string :=
  match c with
  | TimerPurpose.RootDeadline => "root_deadline"
  | TimerPurpose.StartDeadline => "start_deadline"
  | TimerPurpose.Quiet => "quiet"
  | TimerPurpose.Confirm => "confirm"
  | TimerPurpose.CallBound => "call_bound"
  | TimerPurpose.SubprocessIdle => "subprocess_idle"
  | TimerPurpose.StopGrace => "stop_grace"
  | TimerPurpose.WindDown => "wind_down"
  | TimerPurpose.HoldRetry => "hold_retry"
  | TimerPurpose.TreeWindow => "tree_window"
  | TimerPurpose.Unknown raw => raw
  end.

Definition TimerPurpose_parse (text : string) : TimerPurpose :=
  if decide (text = "root_deadline") then TimerPurpose.RootDeadline else
  if decide (text = "start_deadline") then TimerPurpose.StartDeadline else
  if decide (text = "quiet") then TimerPurpose.Quiet else
  if decide (text = "confirm") then TimerPurpose.Confirm else
  if decide (text = "call_bound") then TimerPurpose.CallBound else
  if decide (text = "subprocess_idle") then TimerPurpose.SubprocessIdle else
  if decide (text = "stop_grace") then TimerPurpose.StopGrace else
  if decide (text = "wind_down") then TimerPurpose.WindDown else
  if decide (text = "hold_retry") then TimerPurpose.HoldRetry else
  if decide (text = "tree_window") then TimerPurpose.TreeWindow else
  TimerPurpose.Unknown text.

Definition TimerPurpose_ALL : list string :=
  ["root_deadline";
   "start_deadline";
   "quiet";
   "confirm";
   "call_bound";
   "subprocess_idle";
   "stop_grace";
   "wind_down";
   "hold_retry";
   "tree_window"].

Global Instance TimerPurpose_code : ClosedCode TimerPurpose :=
  {| as_str := TimerPurpose_as_str; parse := TimerPurpose_parse; ALL := TimerPurpose_ALL;
     unknown_code := TimerPurpose.Unknown |}.
Global Instance TimerPurpose_laws : ClosedCodeLaws TimerPurpose.
Proof. solve_closed_code. Qed.

(** ** [HeartbeatKind] *)
Module HeartbeatKind.
Inductive HeartbeatKind :=
| ModelOutput | CallsOpen | CallsClosed | SubprocessMoved | Blind
| Unknown (raw : string).
End HeartbeatKind.
Abbreviation HeartbeatKind := HeartbeatKind.HeartbeatKind (only parsing).

Global Instance HeartbeatKind_eq_dec : EqDecision HeartbeatKind.
Proof. solve_decision. Defined.

Definition HeartbeatKind_as_str (c : HeartbeatKind) : string :=
  match c with
  | HeartbeatKind.ModelOutput => "model_output"
  | HeartbeatKind.CallsOpen => "calls_open"
  | HeartbeatKind.CallsClosed => "calls_closed"
  | HeartbeatKind.SubprocessMoved => "subprocess_moved"
  | HeartbeatKind.Blind => "blind"
  | HeartbeatKind.Unknown raw => raw
  end.

Definition HeartbeatKind_parse (text : string) : HeartbeatKind :=
  if decide (text = "model_output") then HeartbeatKind.ModelOutput else
  if decide (text = "calls_open") then HeartbeatKind.CallsOpen else
  if decide (text = "calls_closed") then HeartbeatKind.CallsClosed else
  if decide (text = "subprocess_moved") then HeartbeatKind.SubprocessMoved else
  if decide (text = "blind") then HeartbeatKind.Blind else
  HeartbeatKind.Unknown text.

Definition HeartbeatKind_ALL : list string :=
  ["model_output";
   "calls_open";
   "calls_closed";
   "subprocess_moved";
   "blind"].

Global Instance HeartbeatKind_code : ClosedCode HeartbeatKind :=
  {| as_str := HeartbeatKind_as_str; parse := HeartbeatKind_parse; ALL := HeartbeatKind_ALL;
     unknown_code := HeartbeatKind.Unknown |}.
Global Instance HeartbeatKind_laws : ClosedCodeLaws HeartbeatKind.
Proof. solve_closed_code. Qed.

(** ** [Verdict] *)
Module Verdict.
Inductive Verdict :=
| Working | Quiet | Suspect | Hung
| Unknown (raw : string).
End Verdict.
Abbreviation Verdict := Verdict.Verdict (only parsing).

Global Instance Verdict_eq_dec : EqDecision Verdict.
Proof. solve_decision. Defined.

Definition Verdict_as_str (c : Verdict) : string :=
  match c with
  | Verdict.Working => "working"
  | Verdict.Quiet => "quiet"
  | Verdict.Suspect => "suspect"
  | Verdict.Hung => "hung"
  | Verdict.Unknown raw => raw
  end.

Definition Verdict_parse (text : string) : Verdict :=
  if decide (text = "working") then Verdict.Working else
  if decide (text = "quiet") then Verdict.Quiet else
  if decide (text = "suspect") then Verdict.Suspect else
  if decide (text = "hung") then Verdict.Hung else
  Verdict.Unknown text.

Definition Verdict_ALL : list string :=
  ["working";
   "quiet";
   "suspect";
   "hung"].

Global Instance Verdict_code : ClosedCode Verdict :=
  {| as_str := Verdict_as_str; parse := Verdict_parse; ALL := Verdict_ALL;
     unknown_code := Verdict.Unknown |}.
Global Instance Verdict_laws : ClosedCodeLaws Verdict.
Proof. solve_closed_code. Qed.

(** ** [NeedsKind] *)
Module NeedsKind.
Inductive NeedsKind :=
| Decision | Person
| Unknown (raw : string).
End NeedsKind.
Abbreviation NeedsKind := NeedsKind.NeedsKind (only parsing).

Global Instance NeedsKind_eq_dec : EqDecision NeedsKind.
Proof. solve_decision. Defined.

Definition NeedsKind_as_str (c : NeedsKind) : string :=
  match c with
  | NeedsKind.Decision => "decision"
  | NeedsKind.Person => "person"
  | NeedsKind.Unknown raw => raw
  end.

Definition NeedsKind_parse (text : string) : NeedsKind :=
  if decide (text = "decision") then NeedsKind.Decision else
  if decide (text = "person") then NeedsKind.Person else
  NeedsKind.Unknown text.

Definition NeedsKind_ALL : list string :=
  ["decision";
   "person"].

Global Instance NeedsKind_code : ClosedCode NeedsKind :=
  {| as_str := NeedsKind_as_str; parse := NeedsKind_parse; ALL := NeedsKind_ALL;
     unknown_code := NeedsKind.Unknown |}.
Global Instance NeedsKind_laws : ClosedCodeLaws NeedsKind.
Proof. solve_closed_code. Qed.


(** What a closed list promises on the wire: a word is written back as it was read, a listed word is read as
    a code of this version, and any other word is kept. *)
Definition code_on_wire (A : Type) `{ClosedCode A} : Prop :=
  ∀ text : string,
    as_str (parse text : A) = text ∧ (text ∉ ALL ↔ parse text = unknown_code text).

Lemma laws_on_wire A `{ClosedCodeLaws A} : code_on_wire A.
Proof. intros text. split; [apply as_str_parse|apply parse_listed]. Qed.

(** Every closed list of the contracts survives a reader of another version. For all thirteen lists, the
    word that is read is the word that is written, and a word is read as unknown exactly when the list
    does not have it. *)
Lemma codes_survive_the_wire :
  code_on_wire ReasonCode ∧ code_on_wire GitReason ∧ code_on_wire Origin ∧
  code_on_wire SequenceKind ∧ code_on_wire Disposition ∧ code_on_wire WithdrawnBy ∧
  code_on_wire StopKind ∧ code_on_wire StepOutcome ∧ code_on_wire Outcome ∧
  code_on_wire TimerPurpose ∧ code_on_wire HeartbeatKind ∧ code_on_wire Verdict ∧
  code_on_wire NeedsKind.
Proof. split_and!; apply laws_on_wire, _. Qed.
