(* ===== verification/Events.v ===== *)
(** * Run events and session facts

    [crates/run-contracts/src/events.rs] and [session.rs]: what a run's log holds. An event is an INPUT
    (something happened outside the reducer) or a DECISION (the reducer's own conclusion); both share
    one envelope. *)

From S2P Require Import Prelude Text Ids Codes.
From stdpp Require Import options.

(** The version every wire object carries ([crates/run-contracts/src/lib.rs]). *)
Definition CONTRACT_V : N := 1.

(** ** JSON values

    The data model of [serde_json::Value]; a number is kept by its text. An object is the list of its
    entries in the order of the keys. *)
Inductive Value :=
| VNull
| VBool (b : bool)
| VNumber (text : string)
| VString (s : string)
| VArray (items : list Value)
| VObject (entries : list (string * Value)).

Fixpoint map_get (entries : list (string * Value)) (key : string) : option Value :=
  match entries with
  | [] => None
  | (k, v) :: rest => if decide (k = key) then Some v else map_get rest key
  end.

Definition Value_get (v : Value) (key : string) : option Value :=
  match v with VObject entries => map_get entries key | _ => None end.

Definition Value_as_str (v : Value) : option string :=
  match v with VString s => Some s | _ => None end.

(** An object whose tag this version does not know, kept whole. *)
Record UnknownBody := MkUnknownBody { unknown_kind : string; unknown_raw : Value }.

(** [read_tag] after its input was read as a value: the tag, which has to be a string, and the whole. *)
Definition read_tag (raw : Value) (tag : string) : option (string * Value) :=
  v ← Value_get raw tag; kind ← Value_as_str v; Some (kind, raw).

Record FlowRef := MkFlowRef { flow_ref_hash : string }.

Record Base := MkBase { base_branch : string; base_commit : string }.

(** ** Tagged lists with an open end ([tolerant_tagged!]) *)
Module ParkOutcome.
Inductive ParkOutcome :=
| Committed (branch commit : string)
| OnOwnBranch (branch commit : string)
| Clean (branch : option string)
| Missing
| NotHeld
| Unknown (body : UnknownBody).
End ParkOutcome.
Abbreviation ParkOutcome := ParkOutcome.ParkOutcome (only parsing).

Module TreeRefusal.
Inductive TreeRefusal :=
| NotARepository
| ForeignDirectory
| MidSequence (what : SequenceKind)
| Git (reason : GitReason)
| Unknown (body : UnknownBody).
End TreeRefusal.
Abbreviation TreeRefusal := TreeRefusal.TreeRefusal (only parsing).

(** Why a session ended. *)
Module EndCause.
Inductive EndCause :=
| TurnComplete
| Exit (status : option Z)
| UsageLimit (resets_at : option Timestamp)
| ProviderUnavailable
| PermissionRefused (rule program : string)
| StoppedByHost
| Lost
| Unknown (body : UnknownBody).
End EndCause.
Abbreviation EndCause := EndCause.EndCause (only parsing).

(** What a session reported. *)
Module SessionFact.
Inductive SessionFact :=
| Started (backend_session_id : string) (pid : option N)
| Heartbeat (beat : HeartbeatKind)
| Usage (model : string) (input_tokens output_tokens cache_read_tokens cache_write_tokens : N)
    (turns : N)
| PermissionRefused (rule program : string)
| GroupLingering (pids : list N)
| Ended (cause : EndCause)
| Unknown (body : UnknownBody).
End SessionFact.
Abbreviation SessionFact := SessionFact.SessionFact (only parsing).

(** ** Decisions *)
Module Decision.
Inductive Decision :=
| RootRequested
| ClaimRequested
| RunQueued (behind : option RunId)
| StepStarted (step : StepId) (visit attempt : N) (members : list Handle)
| StepFinished (step : StepId) (visit : N) (outcome : StepOutcome)
| Rework (from to declaring : StepId) (pass : N)
| Escalated (question : Key) (slot : Slot) (message : MessageId)
| Ceiling (question : Key) (step : StepId) (pass : N) (last_verdict : MessageId)
| TimerSet (timer : string) (fire_at : Timestamp) (purpose : TimerPurpose)
| TimerCleared (timer : string)
| Liveness (slot : Slot) (reason : ReasonCode) (since : Timestamp)
| Held (slot : Slot) (reason : ReasonCode) (until : Timestamp) (resets_at : option Timestamp)
| Parked (slot : option Slot) (reason : ReasonCode)
| Finishing (outcome : Outcome) (reason : option ReasonCode)
| WithdrawForced
| Finished (outcome : Outcome) (reason : option ReasonCode)
| Ignored (input_seq : Seq) (reason : ReasonCode).
End Decision.
Abbreviation Decision := Decision.Decision (only parsing).

(** ** Event bodies: the inputs, a decision, or a kind this version does not know *)
Module EventBody.
Inductive EventBody :=
| Commissioned (run : RunId) (workspace_id tenant : string) (flow : FlowRef)
    (policy : LivenessPolicy) (root_thread : MessageId) (requester : Handle)
| RootOpened (thread message : MessageId)
| ClaimTaken
| ClaimBusy (holder : RunId)
| ClaimReleased
| TreePrepared (base : Base) (found : option ParkOutcome)
| TreeRefused (reason : TreeRefusal)
| TreeParked (outcome : ParkOutcome)
| Delivered (message : MessageId)
| Nudged (session_key : SessionKey)
| StopSignalled (session_key : SessionKey) (nth : N) (signal : StopKind)
| SessionFact (session_key : SessionKey) (fact : SessionFact)
| Reply (session_key : SessionKey) (message : MessageId) (escalate needs_rework : bool)
| Answer (question : Key) (disposition : Disposition) (message : MessageId)
| Resume (slot : option Slot)
| ResumeRun
| Withdrawn (message : option MessageId) (by_ : WithdrawnBy)
| TimerFired (timer : string) (fire_at : Timestamp)
| Decision (d : Decision)
| Unknown (body : UnknownBody).
End EventBody.
Abbreviation EventBody := EventBody.EventBody (only parsing).

(** ** The envelope *)
Module Event.
Record Event := Mk {
  run : RunId;
  seq : Seq;
  at_ : Timestamp;
  v : N;
  key : Key;
  origin : Origin;
  body : EventBody;
  extra : list (string * Value);
}.
End Event.
Abbreviation Event := Event.Event (only parsing).

Global Instance set_event_seq : Setter Event.seq := λ x e,
  Event.Mk (Event.run e) x (Event.at_ e) (Event.v e) (Event.key e) (Event.origin e)
    (Event.body e) (Event.extra e).
Global Instance set_event_origin : Setter Event.origin := λ x e,
  Event.Mk (Event.run e) (Event.seq e) (Event.at_ e) (Event.v e) (Event.key e) x
    (Event.body e) (Event.extra e).

(** An event of this version with nothing unknown on it. *)
Definition Event_new (run : RunId) (seq : Seq) (at_ : Timestamp) (key : Key) (origin : Origin)
    (body : EventBody) : Event :=
  {| Event.run := run; Event.seq := seq; Event.at_ := at_; Event.v := CONTRACT_V;
     Event.key := key; Event.origin := origin; Event.body := body; Event.extra := [] |}.

Definition is_StepOutcome_unknown (o : StepOutcome) : bool :=
  match o with StepOutcome.Unknown _ => true | _ => false end.
Definition is_Outcome_unknown (o : Outcome) : bool :=
  match o with Outcome.Unknown _ => true | _ => false end.
Definition is_TimerPurpose_unknown (p : TimerPurpose) : bool :=
  match p with TimerPurpose.Unknown _ => true | _ => false end.

(** A value of an enum only decisions carry that this version does not know. *)
Definition holds_unknown_value (d : Decision) : bool :=
  match d with
  | Decision.StepFinished _ _ outcome => is_StepOutcome_unknown outcome
  | Decision.Finishing outcome _ | Decision.Finished outcome _ => is_Outcome_unknown outcome
  | Decision.TimerSet _ _ purpose => is_TimerPurpose_unknown purpose
  | _ => false
  end.

Definition is_unknown_decision (e : Event) : bool :=
  match Event.body e with
  | EventBody.Unknown _ => bool_decide (Event.origin e = Origin.Reducer)
  | EventBody.Decision d => holds_unknown_value d
  | _ => false
  end.

Definition is_unknown_input (e : Event) : bool :=
  match Event.body e with
  | EventBody.Unknown _ => negb (bool_decide (Event.origin e = Origin.Reducer))
  | _ => false
  end.

(** ** Kinds on the wire *)
Definition Decision_kind (d : Decision) : string :=
  match d with
  | Decision.RootRequested => "root_requested"
  | Decision.ClaimRequested => "claim_requested"
  | Decision.RunQueued _ => "run_queued"
  | Decision.StepStarted _ _ _ _ => "step_started"
  | Decision.StepFinished _ _ _ => "step_finished"
  | Decision.Rework _ _ _ _ => "rework"
  | Decision.Escalated _ _ _ => "escalated"
  | Decision.Ceiling _ _ _ _ => "ceiling"
  | Decision.TimerSet _ _ _ => "timer_set"
  | Decision.TimerCleared _ => "timer_cleared"
  | Decision.Liveness _ _ _ => "liveness"
  | Decision.Held _ _ _ _ => "held"
  | Decision.Parked _ _ => "parked"
  | Decision.Finishing _ _ => "finishing"
  | Decision.WithdrawForced => "withdraw_forced"
  | Decision.Finished _ _ => "finished"
  | Decision.Ignored _ _ => "ignored"
  end.

(** [EventBody::kind]: an unknown body is written as it was read, and its [kind] is read off that. *)
Definition EventBody_kind (b : EventBody) : string :=
  match b with
  | EventBody.Commissioned _ _ _ _ _ _ _ => "commissioned"
  | EventBody.RootOpened _ _ => "root_opened"
  | EventBody.ClaimTaken => "claim_taken"
  | EventBody.ClaimBusy _ => "claim_busy"
  | EventBody.ClaimReleased => "claim_released"
  | EventBody.TreePrepared _ _ => "tree_prepared"
  | EventBody.TreeRefused _ => "tree_refused"
  | EventBody.TreeParked _ => "tree_parked"
  | EventBody.Delivered _ => "delivered"
  | EventBody.Nudged _ => "nudged"
  | EventBody.StopSignalled _ _ _ => "stop_signalled"
  | EventBody.SessionFact _ _ => "session_fact"
  | EventBody.Reply _ _ _ _ => "reply"
  | EventBody.Answer _ _ _ => "answer"
  | EventBody.Resume _ => "resume"
  | EventBody.ResumeRun => "resume_run"
  | EventBody.Withdrawn _ _ => "withdrawn"
  | EventBody.TimerFired _ _ => "timer_fired"
  | EventBody.Decision d => Decision_kind d
  | EventBody.Unknown u =>
      default "" (v ← Value_get (unknown_raw u) "kind"; Value_as_str v)
  end.
