(* ===== verification/Flow.v ===== *)
(** * Flow definitions

    [crates/run-engine/src/flow.rs]: channel declarations, the compiled flow a run is pinned to, and the
    compiler between them. *)

From S2P Require Import Prelude Text Ids Codes Events.
From stdpp Require Import options.
From Stdlib Require Import Ascii.

Definition SUPERVISOR : string := "__channel__".
Definition SYNTH : string := "__synth__".

(** ** Declarations *)
Module Expects.
Inductive Expects := All | Subset (handles : list Handle).
End Expects.
Abbreviation Expects := Expects.Expects (only parsing).
Global Instance Expects_eq_dec : EqDecision Expects.
Proof. solve_decision. Defined.

Module OnComplete.
Inductive OnComplete := PassThrough | Summarize.
End OnComplete.
Abbreviation OnComplete := OnComplete.OnComplete (only parsing).
Global Instance OnComplete_eq_dec : EqDecision OnComplete.
Proof. solve_decision. Defined.

Module DeclaredTree.
Inductive DeclaredTree := Shared | Exclusive.
End DeclaredTree.
Abbreviation DeclaredTree := DeclaredTree.DeclaredTree (only parsing).
Global Instance DeclaredTree_eq_dec : EqDecision DeclaredTree.
Proof. solve_decision. Defined.

Module StepDecl.
Record StepDecl := Mk {
  id : StepId;
  target : string;
  next : option StepId;
  on_needs_rework : option StepId;
  max_passes : option N;
  input : option (list StepId);
  resume : bool;
  task : option string;
  stage : option string;
  timeout : option string;
}.
End StepDecl.
Abbreviation StepDecl := StepDecl.StepDecl (only parsing).

Module ChannelDecl.
Record ChannelDecl := Mk {
  name : string;
  members : list Handle;
  steps : list StepDecl;
  expects : Expects;
  on_complete : OnComplete;
  summary_prompt : option string;
  summary_model : option string;
  working_tree : DeclaredTree;
  timeout : option string;
}.
End ChannelDecl.
Abbreviation ChannelDecl := ChannelDecl.ChannelDecl (only parsing).

(** ** Compiled flows *)
Inductive WorkingTree := Exclusive.
Inductive FanOutExpects := ExpectsAll.

Record IgnoredTimeout := MkIgnoredTimeout { timeout_scope : string; timeout_value : string }.
Record Synthesis := MkSynthesis { synthesis_model : option string; synthesis_prompt : string }.

Module StepKind.
Inductive StepKind :=
| Single (target : Handle)
| FanOut (members : list Handle) (expects : FanOutExpects) (synthesis : option Synthesis).
End StepKind.
Abbreviation StepKind := StepKind.StepKind (only parsing).

Module StepDef.
Record StepDef := Mk {
  id : StepId;
  kind : StepKind;
  next : option StepId;
  on_needs_rework : option StepId;
  max_passes : N;
  input : option (list StepId);
  resume : bool;
  task : option string;
  stage : option string;
  channel : string;
  opener : Handle;
}.
End StepDef.
Abbreviation StepDef := StepDef.StepDef (only parsing).

Module FlowDef.
Record FlowDef := Mk {
  name : string;
  steps : list StepDef;
  working_tree : WorkingTree;
  ignored_timeouts : list IgnoredTimeout;
}.
End FlowDef.
Abbreviation FlowDef := FlowDef.FlowDef (only parsing).

(** Who a step commissions, the consolidator not among them. *)
Definition members_of (s : StepDef) : list Handle :=
  match StepDef.kind s with
  | StepKind.Single target => [target]
  | StepKind.FanOut members _ _ => members
  end.

Definition has_synthesis (s : StepDef) : bool :=
  match StepDef.kind s with StepKind.FanOut _ _ (Some _) => true | _ => false end.

Definition is_fan_out (s : StepDef) : bool :=
  match StepDef.kind s with StepKind.FanOut _ _ _ => true | _ => false end.

Definition find_step (steps : list StepDef) (id : StepId) : option StepDef :=
  find_first (λ s, bool_decide (StepDef.id s = id)) steps.

(** [FlowDef::step]. *)
Definition def_step (def : FlowDef) (id : StepId) : option StepDef :=
  find_step (FlowDef.steps def) id.

(** ** The compiler *)
Module CompileRefusal.
Inductive CompileRefusal :=
| SharedTree (channel : string)
| ExpectsSubset (channel : string)
| PassThroughFanOut (channel : string)
| SummaryWithoutPrompt (channel : string)
| BadId (id : string)
| UnknownStep (name : string)
| NoSteps (channel : string)
| NoMembers (channel : string)
| DuplicateStep (id : string)
| DuplicateMember (channel handle : string)
| ZeroMaxPasses (step : string)
| NextCycle (step : string).
End CompileRefusal.
Abbreviation CompileRefusal := CompileRefusal.CompileRefusal (only parsing).

Definition is_ascii_alphanumeric (c : ascii) : bool :=
  let n := N_of_ascii c in
  bool_decide (48 ≤ n ∧ n ≤ 57) || bool_decide (65 ≤ n ∧ n ≤ 90) || bool_decide (97 ≤ n ∧ n ≤ 122).

Definition id_char (c : ascii) : bool :=
  is_ascii_alphanumeric c || bool_decide (c = "_"%char) || bool_decide (c = "-"%char).

Definition check_id (id : string) : result CompileRefusal () :=
  if bool_decide (id = EmptyString) || negb (all_chars id_char id) || starts_with "__" id
  then Err (CompileRefusal.BadId id)
  else Ok ().

Fixpoint first_duplicate_go (seen : gset string) (ids : list string) : option string :=
  match ids with
  | [] => None
  | id :: ids => if decide (id ∈ seen) then Some id else first_duplicate_go ({[id]} ∪ seen) ids
  end.

Definition first_duplicate (ids : list string) : option string := first_duplicate_go ∅ ids.

(** [for x in l { f(x)?; }]. *)
Fixpoint check_all {A} (f : A → result CompileRefusal ()) (l : list A) : result CompileRefusal () :=
  match l with
  | [] => Ok ()
  | x :: l => _ <-? f x ;; check_all f l
  end.

Definition fan_out (review : ChannelDecl) : result CompileRefusal StepKind :=
  let channel := ChannelDecl.name review in
  if bool_decide (ChannelDecl.expects review ≠ Expects.All)
  then Err (CompileRefusal.ExpectsSubset channel)
  else if bool_decide (ChannelDecl.on_complete review = OnComplete.PassThrough)
  then Err (CompileRefusal.PassThroughFanOut channel)
  else match ChannelDecl.summary_prompt review with
  | None => Err (CompileRefusal.SummaryWithoutPrompt channel)
  | Some prompt =>
      if bool_decide (ChannelDecl.members review = [])
      then Err (CompileRefusal.NoMembers channel)
      else
        _ <-? check_all check_id (ChannelDecl.members review) ;;
        match first_duplicate (ChannelDecl.members review) with
        | Some handle => Err (CompileRefusal.DuplicateMember channel handle)
        | None =>
            Ok (StepKind.FanOut (ChannelDecl.members review) ExpectsAll
                  (Some (MkSynthesis (ChannelDecl.summary_model review) prompt)))
        end
  end.

Definition compile_step (flow review : ChannelDecl) (declared : StepDecl) (fans_out : bool)
    : result CompileRefusal StepDef :=
  _ <-? check_id (StepDecl.id declared) ;;
  if bool_decide (StepDecl.max_passes declared = Some 0)
  then Err (CompileRefusal.ZeroMaxPasses (StepDecl.id declared))
  else
    kind_channel <-?
      (if fans_out
       then kind <-? fan_out review ;; Ok (kind, ChannelDecl.name review)
       else _ <-? check_id (StepDecl.target declared) ;;
            Ok (StepKind.Single (StepDecl.target declared), ChannelDecl.name flow)) ;;
    Ok {|
      StepDef.id := StepDecl.id declared;
      StepDef.kind := kind_channel.1;
      StepDef.next := StepDecl.next declared;
      StepDef.on_needs_rework := StepDecl.on_needs_rework declared;
      StepDef.max_passes := default 1 (StepDecl.max_passes declared);
      StepDef.input := StepDecl.input declared;
      StepDef.resume := StepDecl.resume declared;
      StepDef.task := StepDecl.task declared;
      StepDef.stage := StepDecl.stage declared;
      StepDef.channel := kind_channel.2;
      StepDef.opener := SUPERVISOR;
    |}.

Definition check_reference (steps : list StepDef) (name : StepId) : result CompileRefusal () :=
  if existsb (λ s, bool_decide (StepDef.id s = name)) steps
  then Ok ()
  else Err (CompileRefusal.UnknownStep name).

(** What a step names: [next], the back edge, and its inputs. *)
Definition references (s : StepDef) : list StepId :=
  option_list (StepDef.next s) ++ option_list (StepDef.on_needs_rework s) ++
  default [] (StepDef.input s).

Definition check_references (steps : list StepDef) : result CompileRefusal () :=
  check_all (λ s, check_all (check_reference steps) (references s)) steps.

Definition next_of (steps : list StepDef) (s : StepDef) : option StepDef :=
  next ← StepDef.next s; find_step steps next.

(** At most [n] hops along [next], stopping where there is none. *)
Fixpoint follow (steps : list StepDef) (n : nat) (at_ : StepDef) : StepDef :=
  match n with
  | 0%nat => at_
  | S n => match next_of steps at_ with Some next => follow steps n next | None => at_ end
  end.

Definition check_next_chains (steps : list StepDef) : result CompileRefusal () :=
  check_all (λ start,
    match next_of steps (follow steps (length steps) start) with
    | Some _ => Err (CompileRefusal.NextCycle (StepDef.id start))
    | None => Ok ()
    end) steps.

Definition note_timeout (scope : string) (timeout : option string) : list IgnoredTimeout :=
  match timeout with Some value => [MkIgnoredTimeout scope value] | None => [] end.

(** The loop of [compile] over the declared steps, with what it has collected. *)
Fixpoint compile_steps (flow review : ChannelDecl) (declared : list StepDecl)
    (ignored : list IgnoredTimeout) (steps : list StepDef)
    : result CompileRefusal (list IgnoredTimeout * list StepDef) :=
  match declared with
  | [] => Ok (ignored, steps)
  | d :: declared =>
      let fans_out := bool_decide (StepDecl.target d = ChannelDecl.name review) in
      let ignored := ignored ++ note_timeout (StepDecl.id d) (StepDecl.timeout d) in
      let ignored :=
        if fans_out
        then ignored ++ note_timeout (ChannelDecl.name review) (ChannelDecl.timeout review)
        else ignored in
      step <-? compile_step flow review d fans_out ;;
      compile_steps flow review declared ignored (steps ++ [step])
  end.

Definition compile (flow review : ChannelDecl) : result CompileRefusal FlowDef :=
  if bool_decide (ChannelDecl.working_tree flow ≠ DeclaredTree.Exclusive)
  then Err (CompileRefusal.SharedTree (ChannelDecl.name flow))
  else if bool_decide (ChannelDecl.steps flow = [])
  then Err (CompileRefusal.NoSteps (ChannelDecl.name flow))
  else
    compiled <-? compile_steps flow review (ChannelDecl.steps flow)
      (note_timeout (ChannelDecl.name flow) (ChannelDecl.timeout flow)) [] ;;
    let steps := compiled.2 in
    match first_duplicate (StepDef.id <$> steps) with
    | Some id => Err (CompileRefusal.DuplicateStep id)
    | None =>
        _ <-? check_references steps ;;
        _ <-? check_next_chains steps ;;
        Ok {| FlowDef.name := ChannelDecl.name flow; FlowDef.steps := steps;
              FlowDef.working_tree := Exclusive; FlowDef.ignored_timeouts := compiled.1 |}
    end.
