(* ===== verification/State.v ===== *)
(** * Run state

    [crates/run-engine/src/state.rs]: the state a fold of the log reaches, and its projections. *)

From S2P Require Import Prelude Text Ids Codes Events Flow.
From stdpp Require Import options.

(** ** Parts of the state *)
Inductive TreePhase := Unprepared | Prepared.
Global Instance TreePhase_eq_dec : EqDecision TreePhase.
Proof. solve_decision. Defined.

Module ParkPhase.
Inductive ParkPhase := Unparked | Parked (outcome : ParkOutcome).
End ParkPhase.
Abbreviation ParkPhase := ParkPhase.ParkPhase (only parsing).

Module Phase.
Inductive Phase :=
| Created
| Queued (behind : option RunId)
| Running (tree : TreePhase)
| Finishing (outcome : Outcome) (reason : option ReasonCode) (tree : ParkPhase)
| Finished (outcome : Outcome) (reason : option ReasonCode).
End Phase.
Abbreviation Phase := Phase.Phase (only parsing).

Record RunCondition := MkRunCondition {
  rc_reason : ReasonCode;
  rc_order : N;
  rc_since : Timestamp;
}.

Record FinishedStep := MkFinishedStep {
  fs_step : StepId;
  fs_visit : N;
  fs_outcome : StepOutcome;
  fs_at : Timestamp;
}.

Record ArmedTimer := MkArmedTimer { fire_at : Timestamp; purpose : TimerPurpose }.

Module Asked.
Inductive Asked :=
| Escalation (slot : Slot) (message : MessageId)
| Ceiling (step : StepId) (pass : N) (last_verdict : MessageId).
End Asked.
Abbreviation Asked := Asked.Asked (only parsing).

(** A question a person owes an answer to. *)
Module Question.
Record Question := Mk {
  id : Key;
  asked : Asked;
  since : Timestamp;
  answered : bool;
}.
End Question.
Abbreviation Question := Question.Question (only parsing).

Global Instance set_Question_answered : Setter Question.answered := λ x q,
  Question.Mk (Question.id q) (Question.asked q) (Question.since q) x.

(** A reply that stands as a step's verdict. *)
Record VerdictRef := MkVerdictRef {
  vr_step : StepId;
  vr_member : Handle;
  vr_message : MessageId;
}.

Module StartCause.
Inductive StartCause :=
| Rework (verdict : VerdictRef)
| Answer (message : MessageId)
| Accept (answer : MessageId) (verdict : VerdictRef).
End StartCause.
Abbreviation StartCause := StartCause.StartCause (only parsing).

Module TurnKind.
Inductive TurnKind :=
| Root
| Reply (step : StepId) (member : Handle)
| Task
| Obligation
| Answer
| Reminder.
End TurnKind.
Abbreviation TurnKind := TurnKind.TurnKind (only parsing).

Record TurnPart := MkTurnPart { tp_kind : TurnKind; tp_message : option MessageId }.

(** A hold or a park on a slot. *)
Module SlotCondition.
Inductive SlotCondition :=
| Held (reason : ReasonCode) (until : Timestamp) (order : N)
| Parked (reason : ReasonCode) (order : N) (since : Timestamp).
End SlotCondition.
Abbreviation SlotCondition := SlotCondition.SlotCondition (only parsing).

Definition condition_order (c : SlotCondition) : N :=
  match c with SlotCondition.Held _ _ order | SlotCondition.Parked _ order _ => order end.

Inductive Process := Live | ProcessEnded.

(** What a confirmed end of a stop leads to. *)
Module AfterStop.
Inductive AfterStop := Nothing | Restart (exhausted : ReasonCode).
End AfterStop.
Abbreviation AfterStop := AfterStop.AfterStop (only parsing).

(** How many graces of a stop have fired; the derived order is the order of the constructors. *)
Module GraceFired.
Inductive GraceFired := None | First | Second.
End GraceFired.
Abbreviation GraceFired := GraceFired.GraceFired (only parsing).

Definition grace_rank (g : GraceFired) : nat :=
  match g with GraceFired.None => 0 | GraceFired.First => 1 | GraceFired.Second => 2 end.

Definition grace_max (a b : GraceFired) : GraceFired :=
  if (grace_rank a <=? grace_rank b)%nat then b else a.

(** The stop ladder of one session. *)
Module Ladder.
Record Ladder := Mk {
  since : Timestamp;
  forced : bool;
  signals_sent : N;
  total : N;
  fired : GraceFired;
}.
End Ladder.
Abbreviation Ladder := Ladder.Ladder (only parsing).

Global Instance set_Ladder_since : Setter Ladder.since := λ x l, Ladder.Mk
    x (Ladder.forced l) (Ladder.signals_sent l) (Ladder.total l) (Ladder.fired l).
Global Instance set_Ladder_forced : Setter Ladder.forced := λ x l, Ladder.Mk
    (Ladder.since l) x (Ladder.signals_sent l) (Ladder.total l) (Ladder.fired l).
Global Instance set_Ladder_signals_sent : Setter Ladder.signals_sent := λ x l, Ladder.Mk
    (Ladder.since l) (Ladder.forced l) x (Ladder.total l) (Ladder.fired l).
Global Instance set_Ladder_total : Setter Ladder.total := λ x l, Ladder.Mk
    (Ladder.since l) (Ladder.forced l) (Ladder.signals_sent l) x (Ladder.fired l).
Global Instance set_Ladder_fired : Setter Ladder.fired := λ x l, Ladder.Mk
    (Ladder.since l) (Ladder.forced l) (Ladder.signals_sent l) (Ladder.total l) x.

Definition Ladder_new (since : Timestamp) (forced : bool) : Ladder :=
  {| Ladder.since := since; Ladder.forced := forced; Ladder.signals_sent := 0; Ladder.total := 0;
     Ladder.fired := GraceFired.None |}.

Module SlotState.
Inductive SlotState :=
| Pending
| Starting (deadline : Timestamp)
| Running (session : string) (open_call : option Timestamp)
| Quiet (since : Timestamp) (open_call : option Timestamp)
| Nudged (at_ : Timestamp) (open_call : option Timestamp)
| Stopping (ladder : Ladder) (after : AfterStop)
| Replied (message : MessageId) (escalate needs_rework : bool) (process : Process) (overdue : bool)
    (ladder : option Ladder)
| Ended (cause : EndCause).
End SlotState.
Abbreviation SlotState := SlotState.SlotState (only parsing).

(** Whether a process of this attempt may exist. *)
Definition is_live (s : SlotState) : bool :=
  match s with
  | SlotState.Pending | SlotState.Ended _ => false
  | SlotState.Replied _ _ _ process _ _ => match process with Live => true | ProcessEnded => false end
  | _ => true
  end.

Definition ladder_of (s : SlotState) : option Ladder :=
  match s with
  | SlotState.Stopping ladder _ => Some ladder
  | SlotState.Replied _ _ _ _ _ ladder => ladder
  | _ => None
  end.

(** [if let Some(ladder) = state.ladder_mut() { *ladder = f(ladder) }]. *)
Definition ladder_mut (f : Ladder → Ladder) (s : SlotState) : SlotState :=
  match s with
  | SlotState.Stopping ladder after => SlotState.Stopping (f ladder) after
  | SlotState.Replied message escalate needs_rework process overdue ladder =>
      SlotState.Replied message escalate needs_rework process overdue (f <$> ladder)
  | s => s
  end.

Definition is_pending (s : SlotState) : bool :=
  match s with SlotState.Pending => true | _ => false end.
Definition is_starting (s : SlotState) : bool :=
  match s with SlotState.Starting _ => true | _ => false end.
Definition is_replied (s : SlotState) : bool :=
  match s with SlotState.Replied _ _ _ _ _ _ => true | _ => false end.
Definition is_ended (s : SlotState) : bool :=
  match s with SlotState.Ended _ => true | _ => false end.

(** One attempt of one seat. *)
Module SlotRecord.
Record SlotRecord := Mk {
  slot : Slot;
  state : SlotState;
  created_at : Timestamp;
  resume : bool;
  turn : list TurnPart;
  base_turn : list TurnPart;
  restarts : N;
  holds : N;
  reminded : bool;
  condition : option SlotCondition;
  fresh : bool;
  blind : bool;
  sampling : bool;
  backend_session : option string;
  last_fact : option Timestamp;
  pids : list N;
  refused : option string;
}.
End SlotRecord.
Abbreviation SlotRecord := SlotRecord.SlotRecord (only parsing).

Global Instance set_SlotRecord_slot : Setter SlotRecord.slot := λ x r, SlotRecord.Mk
    x (SlotRecord.state r) (SlotRecord.created_at r) (SlotRecord.resume r) (SlotRecord.turn r)
    (SlotRecord.base_turn r) (SlotRecord.restarts r) (SlotRecord.holds r)
    (SlotRecord.reminded r) (SlotRecord.condition r) (SlotRecord.fresh r) (SlotRecord.blind r)
    (SlotRecord.sampling r) (SlotRecord.backend_session r) (SlotRecord.last_fact r)
    (SlotRecord.pids r) (SlotRecord.refused r).
Global Instance set_SlotRecord_state : Setter SlotRecord.state := λ x r, SlotRecord.Mk
    (SlotRecord.slot r) x (SlotRecord.created_at r) (SlotRecord.resume r) (SlotRecord.turn r)
    (SlotRecord.base_turn r) (SlotRecord.restarts r) (SlotRecord.holds r)
    (SlotRecord.reminded r) (SlotRecord.condition r) (SlotRecord.fresh r) (SlotRecord.blind r)
    (SlotRecord.sampling r) (SlotRecord.backend_session r) (SlotRecord.last_fact r)
    (SlotRecord.pids r) (SlotRecord.refused r).
Global Instance set_SlotRecord_created_at : Setter SlotRecord.created_at := λ x r, SlotRecord.Mk
    (SlotRecord.slot r) (SlotRecord.state r) x (SlotRecord.resume r) (SlotRecord.turn r)
    (SlotRecord.base_turn r) (SlotRecord.restarts r) (SlotRecord.holds r)
    (SlotRecord.reminded r) (SlotRecord.condition r) (SlotRecord.fresh r) (SlotRecord.blind r)
    (SlotRecord.sampling r) (SlotRecord.backend_session r) (SlotRecord.last_fact r)
    (SlotRecord.pids r) (SlotRecord.refused r).
Global Instance set_SlotRecord_resume : Setter SlotRecord.resume := λ x r, SlotRecord.Mk
    (SlotRecord.slot r) (SlotRecord.state r) (SlotRecord.created_at r) x (SlotRecord.turn r)
    (SlotRecord.base_turn r) (SlotRecord.restarts r) (SlotRecord.holds r)
    (SlotRecord.reminded r) (SlotRecord.condition r) (SlotRecord.fresh r) (SlotRecord.blind r)
    (SlotRecord.sampling r) (SlotRecord.backend_session r) (SlotRecord.last_fact r)
    (SlotRecord.pids r) (SlotRecord.refused r).
Global Instance set_SlotRecord_turn : Setter SlotRecord.turn := λ x r, SlotRecord.Mk
    (SlotRecord.slot r) (SlotRecord.state r) (SlotRecord.created_at r) (SlotRecord.resume r) x
    (SlotRecord.base_turn r) (SlotRecord.restarts r) (SlotRecord.holds r)
    (SlotRecord.reminded r) (SlotRecord.condition r) (SlotRecord.fresh r) (SlotRecord.blind r)
    (SlotRecord.sampling r) (SlotRecord.backend_session r) (SlotRecord.last_fact r)
    (SlotRecord.pids r) (SlotRecord.refused r).
Global Instance set_SlotRecord_base_turn : Setter SlotRecord.base_turn := λ x r, SlotRecord.Mk
    (SlotRecord.slot r) (SlotRecord.state r) (SlotRecord.created_at r) (SlotRecord.resume r)
    (SlotRecord.turn r) x (SlotRecord.restarts r) (SlotRecord.holds r) (SlotRecord.reminded r)
    (SlotRecord.condition r) (SlotRecord.fresh r) (SlotRecord.blind r) (SlotRecord.sampling r)
    (SlotRecord.backend_session r) (SlotRecord.last_fact r) (SlotRecord.pids r)
    (SlotRecord.refused r).
Global Instance set_SlotRecord_restarts : Setter SlotRecord.restarts := λ x r, SlotRecord.Mk
    (SlotRecord.slot r) (SlotRecord.state r) (SlotRecord.created_at r) (SlotRecord.resume r)
    (SlotRecord.turn r) (SlotRecord.base_turn r) x (SlotRecord.holds r)
    (SlotRecord.reminded r) (SlotRecord.condition r) (SlotRecord.fresh r) (SlotRecord.blind r)
    (SlotRecord.sampling r) (SlotRecord.backend_session r) (SlotRecord.last_fact r)
    (SlotRecord.pids r) (SlotRecord.refused r).
Global Instance set_SlotRecord_holds : Setter SlotRecord.holds := λ x r, SlotRecord.Mk
    (SlotRecord.slot r) (SlotRecord.state r) (SlotRecord.created_at r) (SlotRecord.resume r)
    (SlotRecord.turn r) (SlotRecord.base_turn r) (SlotRecord.restarts r) x
    (SlotRecord.reminded r) (SlotRecord.condition r) (SlotRecord.fresh r) (SlotRecord.blind r)
    (SlotRecord.sampling r) (SlotRecord.backend_session r) (SlotRecord.last_fact r)
    (SlotRecord.pids r) (SlotRecord.refused r).
Global Instance set_SlotRecord_reminded : Setter SlotRecord.reminded := λ x r, SlotRecord.Mk
    (SlotRecord.slot r) (SlotRecord.state r) (SlotRecord.created_at r) (SlotRecord.resume r)
    (SlotRecord.turn r) (SlotRecord.base_turn r) (SlotRecord.restarts r) (SlotRecord.holds r)
    x (SlotRecord.condition r) (SlotRecord.fresh r) (SlotRecord.blind r)
    (SlotRecord.sampling r) (SlotRecord.backend_session r) (SlotRecord.last_fact r)
    (SlotRecord.pids r) (SlotRecord.refused r).
Global Instance set_SlotRecord_condition : Setter SlotRecord.condition := λ x r, SlotRecord.Mk
    (SlotRecord.slot r) (SlotRecord.state r) (SlotRecord.created_at r) (SlotRecord.resume r)
    (SlotRecord.turn r) (SlotRecord.base_turn r) (SlotRecord.restarts r) (SlotRecord.holds r)
    (SlotRecord.reminded r) x (SlotRecord.fresh r) (SlotRecord.blind r)
    (SlotRecord.sampling r) (SlotRecord.backend_session r) (SlotRecord.last_fact r)
    (SlotRecord.pids r) (SlotRecord.refused r).
Global Instance set_SlotRecord_fresh : Setter SlotRecord.fresh := λ x r, SlotRecord.Mk
    (SlotRecord.slot r) (SlotRecord.state r) (SlotRecord.created_at r) (SlotRecord.resume r)
    (SlotRecord.turn r) (SlotRecord.base_turn r) (SlotRecord.restarts r) (SlotRecord.holds r)
    (SlotRecord.reminded r) (SlotRecord.condition r) x (SlotRecord.blind r)
    (SlotRecord.sampling r) (SlotRecord.backend_session r) (SlotRecord.last_fact r)
    (SlotRecord.pids r) (SlotRecord.refused r).
Global Instance set_SlotRecord_blind : Setter SlotRecord.blind := λ x r, SlotRecord.Mk
    (SlotRecord.slot r) (SlotRecord.state r) (SlotRecord.created_at r) (SlotRecord.resume r)
    (SlotRecord.turn r) (SlotRecord.base_turn r) (SlotRecord.restarts r) (SlotRecord.holds r)
    (SlotRecord.reminded r) (SlotRecord.condition r) (SlotRecord.fresh r) x
    (SlotRecord.sampling r) (SlotRecord.backend_session r) (SlotRecord.last_fact r)
    (SlotRecord.pids r) (SlotRecord.refused r).
Global Instance set_SlotRecord_sampling : Setter SlotRecord.sampling := λ x r, SlotRecord.Mk
    (SlotRecord.slot r) (SlotRecord.state r) (SlotRecord.created_at r) (SlotRecord.resume r)
    (SlotRecord.turn r) (SlotRecord.base_turn r) (SlotRecord.restarts r) (SlotRecord.holds r)
    (SlotRecord.reminded r) (SlotRecord.condition r) (SlotRecord.fresh r) (SlotRecord.blind r)
    x (SlotRecord.backend_session r) (SlotRecord.last_fact r) (SlotRecord.pids r)
    (SlotRecord.refused r).
Global Instance set_SlotRecord_backend_session : Setter SlotRecord.backend_session := λ x r, SlotRecord.Mk
    (SlotRecord.slot r) (SlotRecord.state r) (SlotRecord.created_at r) (SlotRecord.resume r)
    (SlotRecord.turn r) (SlotRecord.base_turn r) (SlotRecord.restarts r) (SlotRecord.holds r)
    (SlotRecord.reminded r) (SlotRecord.condition r) (SlotRecord.fresh r) (SlotRecord.blind r)
    (SlotRecord.sampling r) x (SlotRecord.last_fact r) (SlotRecord.pids r)
    (SlotRecord.refused r).
Global Instance set_SlotRecord_last_fact : Setter SlotRecord.last_fact := λ x r, SlotRecord.Mk
    (SlotRecord.slot r) (SlotRecord.state r) (SlotRecord.created_at r) (SlotRecord.resume r)
    (SlotRecord.turn r) (SlotRecord.base_turn r) (SlotRecord.restarts r) (SlotRecord.holds r)
    (SlotRecord.reminded r) (SlotRecord.condition r) (SlotRecord.fresh r) (SlotRecord.blind r)
    (SlotRecord.sampling r) (SlotRecord.backend_session r) x (SlotRecord.pids r)
    (SlotRecord.refused r).
Global Instance set_SlotRecord_pids : Setter SlotRecord.pids := λ x r, SlotRecord.Mk
    (SlotRecord.slot r) (SlotRecord.state r) (SlotRecord.created_at r) (SlotRecord.resume r)
    (SlotRecord.turn r) (SlotRecord.base_turn r) (SlotRecord.restarts r) (SlotRecord.holds r)
    (SlotRecord.reminded r) (SlotRecord.condition r) (SlotRecord.fresh r) (SlotRecord.blind r)
    (SlotRecord.sampling r) (SlotRecord.backend_session r) (SlotRecord.last_fact r) x
    (SlotRecord.refused r).
Global Instance set_SlotRecord_refused : Setter SlotRecord.refused := λ x r, SlotRecord.Mk
    (SlotRecord.slot r) (SlotRecord.state r) (SlotRecord.created_at r) (SlotRecord.resume r)
    (SlotRecord.turn r) (SlotRecord.base_turn r) (SlotRecord.restarts r) (SlotRecord.holds r)
    (SlotRecord.reminded r) (SlotRecord.condition r) (SlotRecord.fresh r) (SlotRecord.blind r)
    (SlotRecord.sampling r) (SlotRecord.backend_session r) (SlotRecord.last_fact r)
    (SlotRecord.pids r) x.

(** Everything a fold of the log knows about a run. *)
Module RunState.
Record RunState := Mk {
  run : RunId;
  def : FlowDef;
  seq : Seq;
  commissioned : bool;
  workspace : string;
  flow_hash : string;
  requester : Handle;
  policy : LivenessPolicy;
  root_thread : option MessageId;
  root_message : option MessageId;
  phase : Phase;
  condition : option RunCondition;
  slots : list SlotRecord;
  visits : gmap string N;
  passes : gmap string N;
  current_step : option StepId;
  finished_steps : list FinishedStep;
  questions : list Question;
  timers : gmap string ArmedTimer;
  pending_start : option StartCause;
  claim_since : option Timestamp;
  claim_changes : N;
  tree_refusals : N;
  root_periods : N;
  tree_cancel_owed : bool;
  base : option Base;
  found : option ParkOutcome;
  parked : option ParkOutcome;
  delivered : gset string;
  withdrawn : bool;
  next_order : N;
}.
End RunState.
Abbreviation RunState := RunState.RunState (only parsing).

Global Instance set_RunState_run : Setter RunState.run := λ x s, RunState.Mk
    x (RunState.def s) (RunState.seq s) (RunState.commissioned s) (RunState.workspace s)
    (RunState.flow_hash s) (RunState.requester s) (RunState.policy s) (RunState.root_thread s)
    (RunState.root_message s) (RunState.phase s) (RunState.condition s) (RunState.slots s)
    (RunState.visits s) (RunState.passes s) (RunState.current_step s)
    (RunState.finished_steps s) (RunState.questions s) (RunState.timers s)
    (RunState.pending_start s) (RunState.claim_since s) (RunState.claim_changes s)
    (RunState.tree_refusals s) (RunState.root_periods s) (RunState.tree_cancel_owed s)
    (RunState.base s) (RunState.found s) (RunState.parked s) (RunState.delivered s)
    (RunState.withdrawn s) (RunState.next_order s).
Global Instance set_RunState_def : Setter RunState.def := λ x s, RunState.Mk
    (RunState.run s) x (RunState.seq s) (RunState.commissioned s) (RunState.workspace s)
    (RunState.flow_hash s) (RunState.requester s) (RunState.policy s) (RunState.root_thread s)
    (RunState.root_message s) (RunState.phase s) (RunState.condition s) (RunState.slots s)
    (RunState.visits s) (RunState.passes s) (RunState.current_step s)
    (RunState.finished_steps s) (RunState.questions s) (RunState.timers s)
    (RunState.pending_start s) (RunState.claim_since s) (RunState.claim_changes s)
    (RunState.tree_refusals s) (RunState.root_periods s) (RunState.tree_cancel_owed s)
    (RunState.base s) (RunState.found s) (RunState.parked s) (RunState.delivered s)
    (RunState.withdrawn s) (RunState.next_order s).
Global Instance set_RunState_seq : Setter RunState.seq := λ x s, RunState.Mk
    (RunState.run s) (RunState.def s) x (RunState.commissioned s) (RunState.workspace s)
    (RunState.flow_hash s) (RunState.requester s) (RunState.policy s) (RunState.root_thread s)
    (RunState.root_message s) (RunState.phase s) (RunState.condition s) (RunState.slots s)
    (RunState.visits s) (RunState.passes s) (RunState.current_step s)
    (RunState.finished_steps s) (RunState.questions s) (RunState.timers s)
    (RunState.pending_start s) (RunState.claim_since s) (RunState.claim_changes s)
    (RunState.tree_refusals s) (RunState.root_periods s) (RunState.tree_cancel_owed s)
    (RunState.base s) (RunState.found s) (RunState.parked s) (RunState.delivered s)
    (RunState.withdrawn s) (RunState.next_order s).
Global Instance set_RunState_commissioned : Setter RunState.commissioned := λ x s, RunState.Mk
    (RunState.run s) (RunState.def s) (RunState.seq s) x (RunState.workspace s)
    (RunState.flow_hash s) (RunState.requester s) (RunState.policy s) (RunState.root_thread s)
    (RunState.root_message s) (RunState.phase s) (RunState.condition s) (RunState.slots s)
    (RunState.visits s) (RunState.passes s) (RunState.current_step s)
    (RunState.finished_steps s) (RunState.questions s) (RunState.timers s)
    (RunState.pending_start s) (RunState.claim_since s) (RunState.claim_changes s)
    (RunState.tree_refusals s) (RunState.root_periods s) (RunState.tree_cancel_owed s)
    (RunState.base s) (RunState.found s) (RunState.parked s) (RunState.delivered s)
    (RunState.withdrawn s) (RunState.next_order s).
Global Instance set_RunState_workspace : Setter RunState.workspace := λ x s, RunState.Mk
    (RunState.run s) (RunState.def s) (RunState.seq s) (RunState.commissioned s) x
    (RunState.flow_hash s) (RunState.requester s) (RunState.policy s) (RunState.root_thread s)
    (RunState.root_message s) (RunState.phase s) (RunState.condition s) (RunState.slots s)
    (RunState.visits s) (RunState.passes s) (RunState.current_step s)
    (RunState.finished_steps s) (RunState.questions s) (RunState.timers s)
    (RunState.pending_start s) (RunState.claim_since s) (RunState.claim_changes s)
    (RunState.tree_refusals s) (RunState.root_periods s) (RunState.tree_cancel_owed s)
    (RunState.base s) (RunState.found s) (RunState.parked s) (RunState.delivered s)
    (RunState.withdrawn s) (RunState.next_order s).
Global Instance set_RunState_flow_hash : Setter RunState.flow_hash := λ x s, RunState.Mk
    (RunState.run s) (RunState.def s) (RunState.seq s) (RunState.commissioned s)
    (RunState.workspace s) x (RunState.requester s) (RunState.policy s)
    (RunState.root_thread s) (RunState.root_message s) (RunState.phase s)
    (RunState.condition s) (RunState.slots s) (RunState.visits s) (RunState.passes s)
    (RunState.current_step s) (RunState.finished_steps s) (RunState.questions s)
    (RunState.timers s) (RunState.pending_start s) (RunState.claim_since s)
    (RunState.claim_changes s) (RunState.tree_refusals s) (RunState.root_periods s)
    (RunState.tree_cancel_owed s) (RunState.base s) (RunState.found s) (RunState.parked s)
    (RunState.delivered s) (RunState.withdrawn s) (RunState.next_order s).
Global Instance set_RunState_requester : Setter RunState.requester := λ x s, RunState.Mk
    (RunState.run s) (RunState.def s) (RunState.seq s) (RunState.commissioned s)
    (RunState.workspace s) (RunState.flow_hash s) x (RunState.policy s)
    (RunState.root_thread s) (RunState.root_message s) (RunState.phase s)
    (RunState.condition s) (RunState.slots s) (RunState.visits s) (RunState.passes s)
    (RunState.current_step s) (RunState.finished_steps s) (RunState.questions s)
    (RunState.timers s) (RunState.pending_start s) (RunState.claim_since s)
    (RunState.claim_changes s) (RunState.tree_refusals s) (RunState.root_periods s)
    (RunState.tree_cancel_owed s) (RunState.base s) (RunState.found s) (RunState.parked s)
    (RunState.delivered s) (RunState.withdrawn s) (RunState.next_order s).
Global Instance set_RunState_policy : Setter RunState.policy := λ x s, RunState.Mk
    (RunState.run s) (RunState.def s) (RunState.seq s) (RunState.commissioned s)
    (RunState.workspace s) (RunState.flow_hash s) (RunState.requester s) x
    (RunState.root_thread s) (RunState.root_message s) (RunState.phase s)
    (RunState.condition s) (RunState.slots s) (RunState.visits s) (RunState.passes s)
    (RunState.current_step s) (RunState.finished_steps s) (RunState.questions s)
    (RunState.timers s) (RunState.pending_start s) (RunState.claim_since s)
    (RunState.claim_changes s) (RunState.tree_refusals s) (RunState.root_periods s)
    (RunState.tree_cancel_owed s) (RunState.base s) (RunState.found s) (RunState.parked s)
    (RunState.delivered s) (RunState.withdrawn s) (RunState.next_order s).
Global Instance set_RunState_root_thread : Setter RunState.root_thread := λ x s, RunState.Mk
    (RunState.run s) (RunState.def s) (RunState.seq s) (RunState.commissioned s)
    (RunState.workspace s) (RunState.flow_hash s) (RunState.requester s) (RunState.policy s) x
    (RunState.root_message s) (RunState.phase s) (RunState.condition s) (RunState.slots s)
    (RunState.visits s) (RunState.passes s) (RunState.current_step s)
    (RunState.finished_steps s) (RunState.questions s) (RunState.timers s)
    (RunState.pending_start s) (RunState.claim_since s) (RunState.claim_changes s)
    (RunState.tree_refusals s) (RunState.root_periods s) (RunState.tree_cancel_owed s)
    (RunState.base s) (RunState.found s) (RunState.parked s) (RunState.delivered s)
    (RunState.withdrawn s) (RunState.next_order s).
Global Instance set_RunState_root_message : Setter RunState.root_message := λ x s, RunState.Mk
    (RunState.run s) (RunState.def s) (RunState.seq s) (RunState.commissioned s)
    (RunState.workspace s) (RunState.flow_hash s) (RunState.requester s) (RunState.policy s)
    (RunState.root_thread s) x (RunState.phase s) (RunState.condition s) (RunState.slots s)
    (RunState.visits s) (RunState.passes s) (RunState.current_step s)
    (RunState.finished_steps s) (RunState.questions s) (RunState.timers s)
    (RunState.pending_start s) (RunState.claim_since s) (RunState.claim_changes s)
    (RunState.tree_refusals s) (RunState.root_periods s) (RunState.tree_cancel_owed s)
    (RunState.base s) (RunState.found s) (RunState.parked s) (RunState.delivered s)
    (RunState.withdrawn s) (RunState.next_order s).
Global Instance set_RunState_phase : Setter RunState.phase := λ x s, RunState.Mk
    (RunState.run s) (RunState.def s) (RunState.seq s) (RunState.commissioned s)
    (RunState.workspace s) (RunState.flow_hash s) (RunState.requester s) (RunState.policy s)
    (RunState.root_thread s) (RunState.root_message s) x (RunState.condition s)
    (RunState.slots s) (RunState.visits s) (RunState.passes s) (RunState.current_step s)
    (RunState.finished_steps s) (RunState.questions s) (RunState.timers s)
    (RunState.pending_start s) (RunState.claim_since s) (RunState.claim_changes s)
    (RunState.tree_refusals s) (RunState.root_periods s) (RunState.tree_cancel_owed s)
    (RunState.base s) (RunState.found s) (RunState.parked s) (RunState.delivered s)
    (RunState.withdrawn s) (RunState.next_order s).
Global Instance set_RunState_condition : Setter RunState.condition := λ x s, RunState.Mk
    (RunState.run s) (RunState.def s) (RunState.seq s) (RunState.commissioned s)
    (RunState.workspace s) (RunState.flow_hash s) (RunState.requester s) (RunState.policy s)
    (RunState.root_thread s) (RunState.root_message s) (RunState.phase s) x (RunState.slots s)
    (RunState.visits s) (RunState.passes s) (RunState.current_step s)
    (RunState.finished_steps s) (RunState.questions s) (RunState.timers s)
    (RunState.pending_start s) (RunState.claim_since s) (RunState.claim_changes s)
    (RunState.tree_refusals s) (RunState.root_periods s) (RunState.tree_cancel_owed s)
    (RunState.base s) (RunState.found s) (RunState.parked s) (RunState.delivered s)
    (RunState.withdrawn s) (RunState.next_order s).
Global Instance set_RunState_slots : Setter RunState.slots := λ x s, RunState.Mk
    (RunState.run s) (RunState.def s) (RunState.seq s) (RunState.commissioned s)
    (RunState.workspace s) (RunState.flow_hash s) (RunState.requester s) (RunState.policy s)
    (RunState.root_thread s) (RunState.root_message s) (RunState.phase s)
    (RunState.condition s) x (RunState.visits s) (RunState.passes s) (RunState.current_step s)
    (RunState.finished_steps s) (RunState.questions s) (RunState.timers s)
    (RunState.pending_start s) (RunState.claim_since s) (RunState.claim_changes s)
    (RunState.tree_refusals s) (RunState.root_periods s) (RunState.tree_cancel_owed s)
    (RunState.base s) (RunState.found s) (RunState.parked s) (RunState.delivered s)
    (RunState.withdrawn s) (RunState.next_order s).
Global Instance set_RunState_visits : Setter RunState.visits := λ x s, RunState.Mk
    (RunState.run s) (RunState.def s) (RunState.seq s) (RunState.commissioned s)
    (RunState.workspace s) (RunState.flow_hash s) (RunState.requester s) (RunState.policy s)
    (RunState.root_thread s) (RunState.root_message s) (RunState.phase s)
    (RunState.condition s) (RunState.slots s) x (RunState.passes s) (RunState.current_step s)
    (RunState.finished_steps s) (RunState.questions s) (RunState.timers s)
    (RunState.pending_start s) (RunState.claim_since s) (RunState.claim_changes s)
    (RunState.tree_refusals s) (RunState.root_periods s) (RunState.tree_cancel_owed s)
    (RunState.base s) (RunState.found s) (RunState.parked s) (RunState.delivered s)
    (RunState.withdrawn s) (RunState.next_order s).
Global Instance set_RunState_passes : Setter RunState.passes := λ x s, RunState.Mk
    (RunState.run s) (RunState.def s) (RunState.seq s) (RunState.commissioned s)
    (RunState.workspace s) (RunState.flow_hash s) (RunState.requester s) (RunState.policy s)
    (RunState.root_thread s) (RunState.root_message s) (RunState.phase s)
    (RunState.condition s) (RunState.slots s) (RunState.visits s) x (RunState.current_step s)
    (RunState.finished_steps s) (RunState.questions s) (RunState.timers s)
    (RunState.pending_start s) (RunState.claim_since s) (RunState.claim_changes s)
    (RunState.tree_refusals s) (RunState.root_periods s) (RunState.tree_cancel_owed s)
    (RunState.base s) (RunState.found s) (RunState.parked s) (RunState.delivered s)
    (RunState.withdrawn s) (RunState.next_order s).
Global Instance set_RunState_current_step : Setter RunState.current_step := λ x s, RunState.Mk
    (RunState.run s) (RunState.def s) (RunState.seq s) (RunState.commissioned s)
    (RunState.workspace s) (RunState.flow_hash s) (RunState.requester s) (RunState.policy s)
    (RunState.root_thread s) (RunState.root_message s) (RunState.phase s)
    (RunState.condition s) (RunState.slots s) (RunState.visits s) (RunState.passes s) x
    (RunState.finished_steps s) (RunState.questions s) (RunState.timers s)
    (RunState.pending_start s) (RunState.claim_since s) (RunState.claim_changes s)
    (RunState.tree_refusals s) (RunState.root_periods s) (RunState.tree_cancel_owed s)
    (RunState.base s) (RunState.found s) (RunState.parked s) (RunState.delivered s)
    (RunState.withdrawn s) (RunState.next_order s).
Global Instance set_RunState_finished_steps : Setter RunState.finished_steps := λ x s, RunState.Mk
    (RunState.run s) (RunState.def s) (RunState.seq s) (RunState.commissioned s)
    (RunState.workspace s) (RunState.flow_hash s) (RunState.requester s) (RunState.policy s)
    (RunState.root_thread s) (RunState.root_message s) (RunState.phase s)
    (RunState.condition s) (RunState.slots s) (RunState.visits s) (RunState.passes s)
    (RunState.current_step s) x (RunState.questions s) (RunState.timers s)
    (RunState.pending_start s) (RunState.claim_since s) (RunState.claim_changes s)
    (RunState.tree_refusals s) (RunState.root_periods s) (RunState.tree_cancel_owed s)
    (RunState.base s) (RunState.found s) (RunState.parked s) (RunState.delivered s)
    (RunState.withdrawn s) (RunState.next_order s).
Global Instance set_RunState_questions : Setter RunState.questions := λ x s, RunState.Mk
    (RunState.run s) (RunState.def s) (RunState.seq s) (RunState.commissioned s)
    (RunState.workspace s) (RunState.flow_hash s) (RunState.requester s) (RunState.policy s)
    (RunState.root_thread s) (RunState.root_message s) (RunState.phase s)
    (RunState.condition s) (RunState.slots s) (RunState.visits s) (RunState.passes s)
    (RunState.current_step s) (RunState.finished_steps s) x (RunState.timers s)
    (RunState.pending_start s) (RunState.claim_since s) (RunState.claim_changes s)
    (RunState.tree_refusals s) (RunState.root_periods s) (RunState.tree_cancel_owed s)
    (RunState.base s) (RunState.found s) (RunState.parked s) (RunState.delivered s)
    (RunState.withdrawn s) (RunState.next_order s).
Global Instance set_RunState_timers : Setter RunState.timers := λ x s, RunState.Mk
    (RunState.run s) (RunState.def s) (RunState.seq s) (RunState.commissioned s)
    (RunState.workspace s) (RunState.flow_hash s) (RunState.requester s) (RunState.policy s)
    (RunState.root_thread s) (RunState.root_message s) (RunState.phase s)
    (RunState.condition s) (RunState.slots s) (RunState.visits s) (RunState.passes s)
    (RunState.current_step s) (RunState.finished_steps s) (RunState.questions s) x
    (RunState.pending_start s) (RunState.claim_since s) (RunState.claim_changes s)
    (RunState.tree_refusals s) (RunState.root_periods s) (RunState.tree_cancel_owed s)
    (RunState.base s) (RunState.found s) (RunState.parked s) (RunState.delivered s)
    (RunState.withdrawn s) (RunState.next_order s).
Global Instance set_RunState_pending_start : Setter RunState.pending_start := λ x s, RunState.Mk
    (RunState.run s) (RunState.def s) (RunState.seq s) (RunState.commissioned s)
    (RunState.workspace s) (RunState.flow_hash s) (RunState.requester s) (RunState.policy s)
    (RunState.root_thread s) (RunState.root_message s) (RunState.phase s)
    (RunState.condition s) (RunState.slots s) (RunState.visits s) (RunState.passes s)
    (RunState.current_step s) (RunState.finished_steps s) (RunState.questions s)
    (RunState.timers s) x (RunState.claim_since s) (RunState.claim_changes s)
    (RunState.tree_refusals s) (RunState.root_periods s) (RunState.tree_cancel_owed s)
    (RunState.base s) (RunState.found s) (RunState.parked s) (RunState.delivered s)
    (RunState.withdrawn s) (RunState.next_order s).
Global Instance set_RunState_claim_since : Setter RunState.claim_since := λ x s, RunState.Mk
    (RunState.run s) (RunState.def s) (RunState.seq s) (RunState.commissioned s)
    (RunState.workspace s) (RunState.flow_hash s) (RunState.requester s) (RunState.policy s)
    (RunState.root_thread s) (RunState.root_message s) (RunState.phase s)
    (RunState.condition s) (RunState.slots s) (RunState.visits s) (RunState.passes s)
    (RunState.current_step s) (RunState.finished_steps s) (RunState.questions s)
    (RunState.timers s) (RunState.pending_start s) x (RunState.claim_changes s)
    (RunState.tree_refusals s) (RunState.root_periods s) (RunState.tree_cancel_owed s)
    (RunState.base s) (RunState.found s) (RunState.parked s) (RunState.delivered s)
    (RunState.withdrawn s) (RunState.next_order s).
Global Instance set_RunState_claim_changes : Setter RunState.claim_changes := λ x s, RunState.Mk
    (RunState.run s) (RunState.def s) (RunState.seq s) (RunState.commissioned s)
    (RunState.workspace s) (RunState.flow_hash s) (RunState.requester s) (RunState.policy s)
    (RunState.root_thread s) (RunState.root_message s) (RunState.phase s)
    (RunState.condition s) (RunState.slots s) (RunState.visits s) (RunState.passes s)
    (RunState.current_step s) (RunState.finished_steps s) (RunState.questions s)
    (RunState.timers s) (RunState.pending_start s) (RunState.claim_since s) x
    (RunState.tree_refusals s) (RunState.root_periods s) (RunState.tree_cancel_owed s)
    (RunState.base s) (RunState.found s) (RunState.parked s) (RunState.delivered s)
    (RunState.withdrawn s) (RunState.next_order s).
Global Instance set_RunState_tree_refusals : Setter RunState.tree_refusals := λ x s, RunState.Mk
    (RunState.run s) (RunState.def s) (RunState.seq s) (RunState.commissioned s)
    (RunState.workspace s) (RunState.flow_hash s) (RunState.requester s) (RunState.policy s)
    (RunState.root_thread s) (RunState.root_message s) (RunState.phase s)
    (RunState.condition s) (RunState.slots s) (RunState.visits s) (RunState.passes s)
    (RunState.current_step s) (RunState.finished_steps s) (RunState.questions s)
    (RunState.timers s) (RunState.pending_start s) (RunState.claim_since s)
    (RunState.claim_changes s) x (RunState.root_periods s) (RunState.tree_cancel_owed s)
    (RunState.base s) (RunState.found s) (RunState.parked s) (RunState.delivered s)
    (RunState.withdrawn s) (RunState.next_order s).
Global Instance set_RunState_root_periods : Setter RunState.root_periods := λ x s, RunState.Mk
    (RunState.run s) (RunState.def s) (RunState.seq s) (RunState.commissioned s)
    (RunState.workspace s) (RunState.flow_hash s) (RunState.requester s) (RunState.policy s)
    (RunState.root_thread s) (RunState.root_message s) (RunState.phase s)
    (RunState.condition s) (RunState.slots s) (RunState.visits s) (RunState.passes s)
    (RunState.current_step s) (RunState.finished_steps s) (RunState.questions s)
    (RunState.timers s) (RunState.pending_start s) (RunState.claim_since s)
    (RunState.claim_changes s) (RunState.tree_refusals s) x (RunState.tree_cancel_owed s)
    (RunState.base s) (RunState.found s) (RunState.parked s) (RunState.delivered s)
    (RunState.withdrawn s) (RunState.next_order s).
Global Instance set_RunState_tree_cancel_owed : Setter RunState.tree_cancel_owed := λ x s, RunState.Mk
    (RunState.run s) (RunState.def s) (RunState.seq s) (RunState.commissioned s)
    (RunState.workspace s) (RunState.flow_hash s) (RunState.requester s) (RunState.policy s)
    (RunState.root_thread s) (RunState.root_message s) (RunState.phase s)
    (RunState.condition s) (RunState.slots s) (RunState.visits s) (RunState.passes s)
    (RunState.current_step s) (RunState.finished_steps s) (RunState.questions s)
    (RunState.timers s) (RunState.pending_start s) (RunState.claim_since s)
    (RunState.claim_changes s) (RunState.tree_refusals s) (RunState.root_periods s) x
    (RunState.base s) (RunState.found s) (RunState.parked s) (RunState.delivered s)
    (RunState.withdrawn s) (RunState.next_order s).
Global Instance set_RunState_base : Setter RunState.base := λ x s, RunState.Mk
    (RunState.run s) (RunState.def s) (RunState.seq s) (RunState.commissioned s)
    (RunState.workspace s) (RunState.flow_hash s) (RunState.requester s) (RunState.policy s)
    (RunState.root_thread s) (RunState.root_message s) (RunState.phase s)
    (RunState.condition s) (RunState.slots s) (RunState.visits s) (RunState.passes s)
    (RunState.current_step s) (RunState.finished_steps s) (RunState.questions s)
    (RunState.timers s) (RunState.pending_start s) (RunState.claim_since s)
    (RunState.claim_changes s) (RunState.tree_refusals s) (RunState.root_periods s)
    (RunState.tree_cancel_owed s) x (RunState.found s) (RunState.parked s)
    (RunState.delivered s) (RunState.withdrawn s) (RunState.next_order s).
Global Instance set_RunState_found : Setter RunState.found := λ x s, RunState.Mk
    (RunState.run s) (RunState.def s) (RunState.seq s) (RunState.commissioned s)
    (RunState.workspace s) (RunState.flow_hash s) (RunState.requester s) (RunState.policy s)
    (RunState.root_thread s) (RunState.root_message s) (RunState.phase s)
    (RunState.condition s) (RunState.slots s) (RunState.visits s) (RunState.passes s)
    (RunState.current_step s) (RunState.finished_steps s) (RunState.questions s)
    (RunState.timers s) (RunState.pending_start s) (RunState.claim_since s)
    (RunState.claim_changes s) (RunState.tree_refusals s) (RunState.root_periods s)
    (RunState.tree_cancel_owed s) (RunState.base s) x (RunState.parked s)
    (RunState.delivered s) (RunState.withdrawn s) (RunState.next_order s).
Global Instance set_RunState_parked : Setter RunState.parked := λ x s, RunState.Mk
    (RunState.run s) (RunState.def s) (RunState.seq s) (RunState.commissioned s)
    (RunState.workspace s) (RunState.flow_hash s) (RunState.requester s) (RunState.policy s)
    (RunState.root_thread s) (RunState.root_message s) (RunState.phase s)
    (RunState.condition s) (RunState.slots s) (RunState.visits s) (RunState.passes s)
    (RunState.current_step s) (RunState.finished_steps s) (RunState.questions s)
    (RunState.timers s) (RunState.pending_start s) (RunState.claim_since s)
    (RunState.claim_changes s) (RunState.tree_refusals s) (RunState.root_periods s)
    (RunState.tree_cancel_owed s) (RunState.base s) (RunState.found s) x
    (RunState.delivered s) (RunState.withdrawn s) (RunState.next_order s).
Global Instance set_RunState_delivered : Setter RunState.delivered := λ x s, RunState.Mk
    (RunState.run s) (RunState.def s) (RunState.seq s) (RunState.commissioned s)
    (RunState.workspace s) (RunState.flow_hash s) (RunState.requester s) (RunState.policy s)
    (RunState.root_thread s) (RunState.root_message s) (RunState.phase s)
    (RunState.condition s) (RunState.slots s) (RunState.visits s) (RunState.passes s)
    (RunState.current_step s) (RunState.finished_steps s) (RunState.questions s)
    (RunState.timers s) (RunState.pending_start s) (RunState.claim_since s)
    (RunState.claim_changes s) (RunState.tree_refusals s) (RunState.root_periods s)
    (RunState.tree_cancel_owed s) (RunState.base s) (RunState.found s) (RunState.parked s) x
    (RunState.withdrawn s) (RunState.next_order s).
Global Instance set_RunState_withdrawn : Setter RunState.withdrawn := λ x s, RunState.Mk
    (RunState.run s) (RunState.def s) (RunState.seq s) (RunState.commissioned s)
    (RunState.workspace s) (RunState.flow_hash s) (RunState.requester s) (RunState.policy s)
    (RunState.root_thread s) (RunState.root_message s) (RunState.phase s)
    (RunState.condition s) (RunState.slots s) (RunState.visits s) (RunState.passes s)
    (RunState.current_step s) (RunState.finished_steps s) (RunState.questions s)
    (RunState.timers s) (RunState.pending_start s) (RunState.claim_since s)
    (RunState.claim_changes s) (RunState.tree_refusals s) (RunState.root_periods s)
    (RunState.tree_cancel_owed s) (RunState.base s) (RunState.found s) (RunState.parked s)
    (RunState.delivered s) x (RunState.next_order s).
Global Instance set_RunState_next_order : Setter RunState.next_order := λ x s, RunState.Mk
    (RunState.run s) (RunState.def s) (RunState.seq s) (RunState.commissioned s)
    (RunState.workspace s) (RunState.flow_hash s) (RunState.requester s) (RunState.policy s)
    (RunState.root_thread s) (RunState.root_message s) (RunState.phase s)
    (RunState.condition s) (RunState.slots s) (RunState.visits s) (RunState.passes s)
    (RunState.current_step s) (RunState.finished_steps s) (RunState.questions s)
    (RunState.timers s) (RunState.pending_start s) (RunState.claim_since s)
    (RunState.claim_changes s) (RunState.tree_refusals s) (RunState.root_periods s)
    (RunState.tree_cancel_owed s) (RunState.base s) (RunState.found s) (RunState.parked s)
    (RunState.delivered s) (RunState.withdrawn s) x.

(** The state a fold starts from. *)
Definition initial (run : RunId) (def : FlowDef) : RunState := {|
  RunState.run := run;
  RunState.def := def;
  RunState.seq := 0;
  RunState.commissioned := false;
  RunState.workspace := "";
  RunState.flow_hash := "";
  RunState.requester := "";
  RunState.policy := LivenessPolicy_default;
  RunState.root_thread := None;
  RunState.root_message := None;
  RunState.phase := Phase.Created;
  RunState.condition := None;
  RunState.slots := [];
  RunState.visits := ∅;
  RunState.passes := ∅;
  RunState.current_step := None;
  RunState.finished_steps := [];
  RunState.questions := [];
  RunState.timers := ∅;
  RunState.pending_start := None;
  RunState.claim_since := None;
  RunState.claim_changes := 0;
  RunState.tree_refusals := 0;
  RunState.root_periods := 0;
  RunState.tree_cancel_owed := false;
  RunState.base := None;
  RunState.found := None;
  RunState.parked := None;
  RunState.delivered := ∅;
  RunState.withdrawn := false;
  RunState.next_order := 0;
|}.

(** ** Reading the state *)
Definition is_finished (s : RunState) : bool :=
  match RunState.phase s with Phase.Finished _ _ => true | _ => false end.

Definition is_finishing (s : RunState) : bool :=
  match RunState.phase s with Phase.Finishing _ _ _ => true | _ => false end.

Definition tree_prepared (s : RunState) : bool :=
  match RunState.phase s with Phase.Running Prepared => true | _ => false end.

Definition outcome (s : RunState) : option Outcome :=
  match RunState.phase s with
  | Phase.Finishing outcome _ _ | Phase.Finished outcome _ => Some outcome
  | _ => None
  end.

Definition state_session_key (s : RunState) (slot : Slot) : SessionKey :=
  session_key slot (RunState.run s).

(** The record of the attempt with this session key. *)
Definition find (s : RunState) (key : SessionKey) : option nat :=
  position (λ r, bool_decide (state_session_key s (SlotRecord.slot r) = key)) (RunState.slots s).

(** The record of exactly this slot. *)
Definition find_slot (s : RunState) (slot : Slot) : option nat :=
  position (λ r, bool_decide (SlotRecord.slot r = slot)) (RunState.slots s).

Definition same_seat (step : StepId) (visit : N) (member : Handle) (r : SlotRecord) : bool :=
  bool_decide (slot_step (SlotRecord.slot r) = step) &&
  bool_decide (slot_visit (SlotRecord.slot r) = visit) &&
  bool_decide (slot_member (SlotRecord.slot r) = member).

(** The latest attempt of a seat. *)
Definition latest (s : RunState) (step : StepId) (visit : N) (member : Handle) : option SlotRecord :=
  find_first (same_seat step visit member) (reverse (RunState.slots s)).

(** Whether a later attempt of this seat exists. *)
Definition is_superseded (s : RunState) (r : SlotRecord) : bool :=
  let slot := SlotRecord.slot r in
  match latest s (slot_step slot) (slot_visit slot) (slot_member slot) with
  | Some l => negb (bool_decide (slot_attempt (SlotRecord.slot l) = slot_attempt slot))
  | None => false
  end.

(** Whether a process of this persona may be alive in this run. *)
Definition persona_is_live (s : RunState) (member : Handle) : bool :=
  existsb (λ r, bool_decide (slot_member (SlotRecord.slot r) = member) &&
                is_live (SlotRecord.state r)) (RunState.slots s).

Definition any_live (s : RunState) : bool :=
  existsb (λ r, is_live (SlotRecord.state r)) (RunState.slots s).

Definition open_questions (s : RunState) : list Question :=
  filter (λ q, Question.answered q = false) (RunState.questions s).

(** The conditions on seats' latest attempts. *)
Definition current_conditions (s : RunState) : list SlotCondition :=
  omap SlotRecord.condition (filter (λ r, is_superseded s r = false) (RunState.slots s)).

Definition earliest_hold (s : RunState) : option (ReasonCode * Timestamp) :=
  min_by_key snd
    (omap (λ c, match c with
                | SlotCondition.Held reason until _ => Some (reason, until)
                | SlotCondition.Parked _ _ _ => None
                end) (current_conditions s)).

Definition oldest_park (s : RunState) : option ReasonCode :=
  let slots :=
    omap (λ c, match c with
               | SlotCondition.Parked reason order _ => Some (order, reason)
               | SlotCondition.Held _ _ _ => None
               end) (current_conditions s) in
  let run := (λ c, (rc_order c, rc_reason c)) <$> option_list (RunState.condition s) in
  snd <$> min_by_key (λ p, Z.of_N p.1) (slots ++ run).

(** Since when the oldest park has stood. *)
Definition parked_since (s : RunState) : option Timestamp :=
  let slots :=
    omap (λ c, match c with
               | SlotCondition.Parked _ order since => Some (order, since)
               | SlotCondition.Held _ _ _ => None
               end) (current_conditions s) in
  let run := (λ c, (rc_order c, rc_since c)) <$> option_list (RunState.condition s) in
  snd <$> min_by_key (λ p, Z.of_N p.1) (slots ++ run).

(** ** The run as a person reads it *)
Module RunView.
Inductive RunView :=
| Created
| Queued (behind : option RunId)
| Running (tree : TreePhase)
| NeedsDecision (questions : list Key)
| Held (reason : ReasonCode) (until : Timestamp)
| Parked (reason : ReasonCode)
| Finishing (outcome : Outcome)
| Finished (outcome : Outcome).
End RunView.
Abbreviation RunView := RunView.RunView (only parsing).

(** The projection once no phase of its own decides it. *)
Definition view_open (s : RunState) : RunView :=
  match Question.id <$> open_questions s with
  | q :: qs => RunView.NeedsDecision (q :: qs)
  | [] =>
      match earliest_hold s with
      | Some (reason, until) => RunView.Held reason until
      | None =>
          match oldest_park s with
          | Some reason => RunView.Parked reason
          | None =>
              match RunState.phase s with
              | Phase.Running tree => RunView.Running tree
              | _ => RunView.Created
              end
          end
      end
  end.

Definition view (s : RunState) : RunView :=
  match RunState.phase s with
  | Phase.Finished outcome _ => RunView.Finished outcome
  | Phase.Finishing outcome _ _ => RunView.Finishing outcome
  | Phase.Queued behind => RunView.Queued behind
  | Phase.Created | Phase.Running _ => view_open s
  end.

(** ** Verdicts, passes and keys *)

(** The reply that stands as a step's verdict: on its latest visit, the consolidator's where it has
    one, otherwise the member's. *)
Definition verdict_of (s : RunState) (step : StepId) : option VerdictRef :=
  visit ← RunState.visits s !! step;
  let fans_out :=
    match def_step (RunState.def s) step with Some d => is_fan_out d | None => false end in
  find_map (λ r,
    match SlotRecord.state r with
    | SlotState.Replied message _ _ _ _ _ =>
        Some (MkVerdictRef step (slot_member (SlotRecord.slot r)) message)
    | _ => None
    end)
    (filter (λ r, negb fans_out || bool_decide (slot_member (SlotRecord.slot r) = SYNTH) = true)
      (filter (λ r, slot_step (SlotRecord.slot r) = step ∧ slot_visit (SlotRecord.slot r) = visit)
        (reverse (RunState.slots s)))).

Definition pass_of (s : RunState) (step : StepId) : N := default 0 (RunState.passes s !! step).

Definition tree_refused_key (s : RunState) : Key :=
  "tree_refused/" +:+ RunState.run s +:+ "/" +:+ pretty (RunState.tree_refusals s).

Definition claim_busy_key (s : RunState) : Key :=
  "claim_busy/" +:+ RunState.run s +:+ "/" +:+ pretty (RunState.claim_changes s).

(** A span in milliseconds, for comparing two instants. *)
Definition millis (span : Secs) : Z :=
  let m := Z.of_N (u64_saturating_mul span 1000) in
  if (m <=? i64_max)%Z then m else i64_max.

(** The session key's tail, which every slot timer's id ends in. *)
Definition slot_suffix (slot : Slot) : string :=
  slot_step slot +:+ "/v" +:+ pretty (slot_visit slot) +:+ "/" +:+
  slot_member slot +:+ "/a" +:+ pretty (slot_attempt slot).

Definition slot_timer (p : TimerPurpose) (slot : Slot) : string :=
  as_str p +:+ "/" +:+ slot_suffix slot.

Definition grace_timer (nth : N) (slot : Slot) : string :=
  "stop_grace/" +:+ pretty nth +:+ "/" +:+ slot_suffix slot.

(** Which grace of a stop a timer id names. *)
Definition grace_nth (timer : string) : option N :=
  rest ← strip_prefix "stop_grace/" timer; parse_uint u8_max (before_first slash rest).

Definition ROOT_DEADLINE_TIMER : string := "root_deadline".
Definition TREE_WINDOW_TIMER : string := "tree_window".

(** The slot a timer id names, by its last four segments; a fifth has to be there. *)
Definition timer_slot (timer : string) : option Slot :=
  match rsplitn 5 slash timer with
  | a :: member :: v :: step :: _ :: _ =>
      a ← strip_prefix "a" a; attempt ← parse_uint u32_max a;
      v ← strip_prefix "v" v; visit ← parse_uint u32_max v;
      Some (MkSlot step visit member attempt)
  | _ => None
  end.
