(* ===== verification/Effects.v ===== *)
(** * Pending effects

    [crates/run-engine/src/effects.rs]: what a run owes the outside world, derived from its state
    alone. The host executes each effect and enqueues its result as an input. *)

From S2P Require Import Prelude Text Ids Codes Events Flow State.
From stdpp Require Import options.

Definition NUDGE_TEXT : string :=
  "You have gone quiet. Say what you are doing, or reply on your thread.".

Module DeliverBody.
Inductive DeliverBody :=
| Message (message : MessageId)
| Discharge (step : option StepId) (pass : N) (verdict : option MessageId)
    (parked : option ParkOutcome)
| ParkNotice (branch commit : string)
| Question (key : Key).
End DeliverBody.
Abbreviation DeliverBody := DeliverBody.DeliverBody (only parsing).

Module Effect.
Inductive Effect :=
| OpenRoot (run : RunId)
| TakeClaim (workspace : string)
| PrepareTree (workspace : string)
| CancelTree (workspace : string)
| ParkTree (workspace : string) (occasion : Outcome)
| ReleaseClaim (workspace : string)
| StartSession (session_key : SessionKey) (turn : list TurnPart) (resume : bool)
| NudgeSession (session_key : SessionKey) (text : string)
| StopSession (session_key : SessionKey) (kind : StopKind) (nth : N)
| Deliver (thread : MessageId) (body : DeliverBody) (key : Key).
End Effect.
Abbreviation Effect := Effect.Effect (only parsing).

(** The stop table: the signal owed for the stop's kind, the signals of this round and the graces
    fired. *)
Definition stop_signal (forced : bool) (signals_sent : N) (fired : GraceFired) : option StopKind :=
  match forced, signals_sent, fired with
  | _, 0, _ => Some StopKind.Term
  | false, 1, (GraceFired.First | GraceFired.Second) => Some StopKind.Term
  | true, 1, (GraceFired.First | GraceFired.Second) => Some StopKind.Kill
  | true, 2, GraceFired.Second => Some StopKind.Kill
  | _, _, _ => None
  end.

Definition stop_effect (r : SlotRecord) (key : SessionKey) : option Effect :=
  ladder ← ladder_of (SlotRecord.state r);
  kind ← stop_signal (Ladder.forced ladder) (Ladder.signals_sent ladder) (Ladder.fired ladder);
  Some (Effect.StopSession key kind (u32_succ (Ladder.total ladder))).

Definition slot_effect (s : RunState) (r : SlotRecord) : option Effect :=
  let key := state_session_key s (SlotRecord.slot r) in
  match SlotRecord.state r with
  | SlotState.Starting _ =>
      Some (Effect.StartSession key (SlotRecord.turn r) (SlotRecord.resume r))
  | SlotState.Quiet _ _ => Some (Effect.NudgeSession key NUDGE_TEXT)
  | _ => stop_effect r key
  end.

(** The newest verdict of any step, for a discharge. *)
Definition last_verdict (s : RunState) : option MessageId :=
  vr_message <$> find_map (λ f, verdict_of s (fs_step f)) (reverse (RunState.finished_steps s)).

Definition result_deliveries (s : RunState) (outcome : Outcome) (parked : ParkOutcome)
    : list (Key * DeliverBody) :=
  let run := RunState.run s in
  let step := RunState.current_step s in
  let verdict := step ≫= verdict_of s in
  let discharge :=
    DeliverBody.Discharge step (from_option (pass_of s) 0 step) (last_verdict s) (Some parked) in
  let result :=
    ("result/" +:+ run,
     match outcome, verdict with
     | (Outcome.Withdrawn | Outcome.Failed), _ | _, None => discharge
     | _, Some verdict => DeliverBody.Message (vr_message verdict)
     end) in
  let notice :=
    if bool_decide (outcome ≠ Outcome.Withdrawn) then
      match parked with
      | ParkOutcome.Committed branch commit | ParkOutcome.OnOwnBranch branch commit =>
          [("park/" +:+ run, DeliverBody.ParkNotice branch commit)]
      | _ => []
      end
    else [] in
  result :: notice.

(** The deliveries [delivered] has not recorded. *)
Definition owed_deliveries (s : RunState) : list (Key * DeliverBody) :=
  match RunState.root_message s with
  | None => []
  | Some _ =>
      let owed :=
        match RunState.phase s with
        | Phase.Finishing outcome _ (ParkPhase.Parked parked) => result_deliveries s outcome parked
        | Phase.Running _ =>
            (λ q, ("question/" +:+ Question.id q, DeliverBody.Question (Question.id q)))
              <$> open_questions s
        | _ => []
        end in
      filter (λ d, d.1 ∉ RunState.delivered s) owed
  end.

Definition deliver_effects (s : RunState) : list Effect :=
  let thread := default "" (RunState.root_thread s) in
  (λ d, Effect.Deliver thread d.2 d.1) <$> owed_deliveries s.

Definition running_effects (s : RunState) (tree : TreePhase) (workspace : string) : list Effect :=
  if RunState.tree_cancel_owed s then [Effect.CancelTree workspace]
  else match tree with
  | Unprepared =>
      match RunState.condition s with
      | Some _ => []
      | None => [Effect.PrepareTree workspace]
      end
  | Prepared => omap (slot_effect s) (RunState.slots s) ++ deliver_effects s
  end.

(** In this order, each owed only once the one before is done: the stops, the park, the deliveries,
    the release. *)
Definition finishing_effects (s : RunState) (tree : ParkPhase) (occasion : Outcome)
    (workspace : string) : list Effect :=
  let stops :=
    omap (λ r, stop_effect r (state_session_key s (SlotRecord.slot r))) (RunState.slots s) in
  if any_live s then stops
  else match tree with
  | ParkPhase.Unparked => [Effect.ParkTree workspace occasion]
  | ParkPhase.Parked _ =>
      match deliver_effects s with
      | [] => [Effect.ReleaseClaim workspace]
      | deliveries => deliveries
      end
  end.

(** What the run owes the outside world now. *)
Definition pending_effects (s : RunState) : list Effect :=
  let workspace := RunState.workspace s in
  match RunState.phase s with
  | Phase.Finished _ _ => []
  | Phase.Created =>
      match RunState.commissioned s, RunState.root_message s, RunState.condition s with
      | true, None, None => [Effect.OpenRoot (RunState.run s)]
      | _, _, _ => []
      end
  | Phase.Queued _ => [Effect.TakeClaim workspace]
  | Phase.Running tree => running_effects s tree workspace
  | Phase.Finishing outcome _ tree => finishing_effects s tree outcome workspace
  end.

(** Whether the run may let go of the claim. *)
Definition ready_to_release (s : RunState) : bool :=
  match RunState.phase s with
  | Phase.Finishing _ _ (ParkPhase.Parked _) =>
      negb (any_live s) && bool_decide (owed_deliveries s = [])
  | _ => false
  end.
