(* ===== verification/Guard.v ===== *)
(** * Which inputs change nothing

    [crates/run-engine/src/guard.rs]: [decide] answers these with one [ignored], and folding such an
    input changes no state; both ask here. *)

From S2P Require Import Prelude Text Ids Codes Events Flow State Effects.
From stdpp Require Import options.

Definition DELIVERED_PREFIX : string := "delivered/".

(** The key of the effect a [delivered] input records. *)
Definition delivery_key (input : Event) : option string :=
  strip_prefix DELIVERED_PREFIX (Event.key input).

(** The key a host enqueues a [delivered] input under. *)
Definition delivered_key (effect_key : string) : string := DELIVERED_PREFIX +:+ effect_key.

(** [(!applies).then_some(reason)]. *)
Definition unless (applies : bool) (reason : ReasonCode) : option ReasonCode :=
  if applies then None else Some reason.

(** [Option::or]. *)
Definition option_or {A} (a b : option A) : option A :=
  match a with Some x => Some x | None => b end.

Definition record_at (s : RunState) (key : SessionKey) : option SlotRecord :=
  i ← find s key; RunState.slots s !! i.

Definition is_talking (st : SlotState) : bool :=
  match st with
  | SlotState.Running _ _ | SlotState.Quiet _ _ | SlotState.Nudged _ _ => true
  | _ => false
  end.

Definition fact_ignored (s : RunState) (r : SlotRecord) (fact : SessionFact) : option ReasonCode :=
  match fact with
  | SessionFact.Started _ _ =>
      unless (match SlotRecord.state r with
              | SlotState.Starting _ | SlotState.Stopping _ _ => true
              | SlotState.Ended _ => is_superseded s r
              | _ => false
              end) ReasonCode.OutOfState
  | SessionFact.Heartbeat _ => unless (is_talking (SlotRecord.state r)) ReasonCode.OutOfState
  | SessionFact.Usage _ _ _ _ _ _ | SessionFact.PermissionRefused _ _ => None
  | SessionFact.GroupLingering _ => unless (is_live (SlotRecord.state r)) ReasonCode.OutOfState
  | SessionFact.Ended _ =>
      match SlotRecord.state r with
      | SlotState.Ended _ => Some ReasonCode.FinalState
      | SlotState.Pending => Some ReasonCode.OutOfState
      | SlotState.Replied _ _ _ process _ _ =>
          match process with ProcessEnded => Some ReasonCode.FinalState | Live => None end
      | _ => None
      end
  | SessionFact.Unknown _ => Some ReasonCode.OutOfState
  end.

Definition reply_ignored (s : RunState) (r : SlotRecord) : option ReasonCode :=
  if is_replied (SlotRecord.state r) then Some ReasonCode.DuplicateReply
  else if is_superseded s r then Some ReasonCode.LateReplyAfterSkip
  else if is_finishing s then Some ReasonCode.AlreadyFinishing
  else match SlotRecord.state r with
  | SlotState.Ended _ => Some ReasonCode.FinalState
  | SlotState.Stopping _ _ => Some ReasonCode.LateReplyAfterSkip
  | SlotState.Pending => Some ReasonCode.OutOfState
  | _ => None
  end.

(** A condition a [resume] may act on: there is one, and it is on a seat's latest attempt. *)
Definition resumable (s : RunState) (index : nat) : bool :=
  match RunState.slots s !! index with
  | Some r => bool_decide (is_Some (SlotRecord.condition r)) && negb (is_superseded s r)
  | None => false
  end.

(** [Option<u64>]'s order: [None] is below every [Some]. *)
Definition order_key (s : RunState) (index : nat) : Z :=
  match r ← RunState.slots s !! index; SlotRecord.condition r with
  | Some c => Z.of_N (condition_order c)
  | None => (-1)%Z
  end.

(** The condition a [resume] acts on: the named slot's, or without one the oldest there is. *)
Definition resume_target (s : RunState) (slot : option Slot) : option nat :=
  match slot with
  | Some slot => i ← find_slot s slot; if resumable s i then Some i else None
  | None => min_by_key (order_key s) (filter (λ i, resumable s i = true) (seq 0 (length (RunState.slots s))))
  end.

(** Whether a timer that takes a rung away fired so far past its instant that the host cannot have
    been looking: it is put off once. *)
Definition is_destructive (p : TimerPurpose) : bool :=
  match p with
  | TimerPurpose.StartDeadline | TimerPurpose.Confirm | TimerPurpose.StopGrace
  | TimerPurpose.WindDown | TimerPurpose.TreeWindow | TimerPurpose.RootDeadline => true
  | TimerPurpose.Quiet | TimerPurpose.SubprocessIdle | TimerPurpose.CallBound
  | TimerPurpose.HoldRetry | TimerPurpose.Unknown _ => false
  end.

Definition is_deferred (s : RunState) (timer : string) (fired_at at_ : Timestamp) : bool :=
  match RunState.timers s !! timer with
  | None => false
  | Some armed =>
      let late := i64_sub at_ fired_at in
      is_destructive (purpose armed) && (millis (wake_jump (RunState.policy s)) <? late)%Z
  end.

Definition is_permanent (reason : TreeRefusal) : bool :=
  match reason with
  | TreeRefusal.NotARepository | TreeRefusal.ForeignDirectory | TreeRefusal.Unknown _ => true
  | _ => false
  end.

(** The end causes that are a hold rather than a failure. *)
Definition is_hold (cause : EndCause) : bool :=
  match cause with
  | EndCause.UsageLimit _ | EndCause.ProviderUnavailable => true
  | _ => false
  end.

(** An answer acts on an open question; [accept] is no answer to an escalation, and an unknown
    disposition is none at all. *)
Definition answerable (question : Key) (disposition : Disposition) (q : Question) : bool :=
  bool_decide (Question.id q = question) &&
  match disposition with Disposition.Unknown _ => false | _ => true end &&
  negb (bool_decide (disposition = Disposition.Accept) &&
        match Question.asked q with Asked.Escalation _ _ => true | _ => false end).

(** Why this input changes nothing, or [None] when it is to be acted on. *)
Definition ignored_reason (s : RunState) (input : Event) : option ReasonCode :=
  if is_finished s then Some ReasonCode.FinalState else
  let finishing := if is_finishing s then Some ReasonCode.AlreadyFinishing else None in
  let out_of_state applies := unless applies ReasonCode.OutOfState in
  match Event.body input with
  | EventBody.Commissioned _ _ _ _ _ _ _ => out_of_state (negb (RunState.commissioned s))
  | EventBody.RootOpened _ _ =>
      out_of_state (bool_decide (RunState.root_message s = None) &&
        match RunState.phase s with Phase.Created | Phase.Finishing _ _ _ => true | _ => false end)
  | EventBody.ClaimTaken =>
      option_or finishing (out_of_state
        (match RunState.phase s with Phase.Queued _ => true | _ => false end))
  | EventBody.ClaimBusy holder =>
      option_or finishing (out_of_state
        (match RunState.phase s with
         | Phase.Queued behind => negb (bool_decide (behind = Some holder))
         | _ => false
         end))
  | EventBody.ClaimReleased => out_of_state (ready_to_release s)
  | EventBody.TreePrepared _ _ | EventBody.TreeRefused _ =>
      option_or finishing (out_of_state
        (match RunState.phase s with Phase.Running Unprepared => true | _ => false end))
  | EventBody.TreeParked _ =>
      out_of_state
        (match RunState.phase s with Phase.Finishing _ _ ParkPhase.Unparked => true | _ => false end)
  | EventBody.Delivered _ =>
      out_of_state
        (match delivery_key input with
         | Some key => bool_decide (key ∈ (owed_deliveries s).*1)
         | None => false
         end)
  | EventBody.Nudged key =>
      match record_at s key with
      | None => Some ReasonCode.UnknownSession
      | Some r =>
          out_of_state (match SlotRecord.state r with SlotState.Quiet _ _ => true | _ => false end)
      end
  | EventBody.StopSignalled key nth _ =>
      match record_at s key with
      | None => Some ReasonCode.UnknownSession
      | Some r =>
          out_of_state
            (match ladder_of (SlotRecord.state r) with
             | Some l => bool_decide (nth = u32_succ (Ladder.total l))
             | None => false
             end)
      end
  | EventBody.SessionFact key fact =>
      match record_at s key with
      | None => Some ReasonCode.UnknownSession
      | Some r => fact_ignored s r fact
      end
  | EventBody.Reply key _ _ _ =>
      match record_at s key with
      | None => Some ReasonCode.UnknownSession
      | Some r => reply_ignored s r
      end
  | EventBody.Answer question disposition _ =>
      option_or finishing
        (out_of_state (existsb (answerable question disposition) (open_questions s)))
  | EventBody.Resume slot =>
      option_or finishing (out_of_state (bool_decide (is_Some (resume_target s slot))))
  | EventBody.ResumeRun =>
      option_or finishing (out_of_state (bool_decide (is_Some (RunState.condition s))))
  | EventBody.Withdrawn _ _ =>
      let open_stop :=
        existsb (λ r, match ladder_of (SlotRecord.state r) with
                      | Some l => negb (Ladder.forced l)
                      | None => false
                      end) (RunState.slots s) in
      if is_finishing s && negb open_stop then Some ReasonCode.AlreadyFinishing else None
  | EventBody.TimerFired timer fired_at =>
      if bool_decide ((fire_at <$> RunState.timers s !! timer) = Some fired_at)
      then None else Some ReasonCode.StaleTimer
  | EventBody.Decision _ | EventBody.Unknown _ => Some ReasonCode.OutOfState
  end.
