(* ===== verification/Input.v ===== *)
(** * What an input does to state

    [crates/run-engine/src/input.rs]: an input records its fact and moves the slot it names. What
    follows from it is [decide]'s. *)

From S2P Require Import Prelude Text Ids Codes Events Flow State Effects Guard.
From stdpp Require Import options.

(** [state.slots[index] = f(state.slots[index])]. *)
Definition alter_slot (i : nat) (f : SlotRecord → SlotRecord) (s : RunState) : RunState :=
  s <| RunState.slots := alter f i (RunState.slots s) |>.

Definition alter_state (f : SlotState → SlotState) (r : SlotRecord) : SlotRecord :=
  r <| SlotRecord.state := f (SlotRecord.state r) |>.

(** [for record in &mut state.slots { *record = f(record) }]. *)
Definition map_slots (f : SlotRecord → SlotRecord) (s : RunState) : RunState :=
  s <| RunState.slots := f <$> RunState.slots s |>.

(** A replied slot that is overdue, or whose group lingers, owes the same ladder as a stopping one. *)
Definition start_reply_stop (at_ : Timestamp) (forced : bool) (st : SlotState) : SlotState :=
  match st with
  | SlotState.Replied message escalate needs_rework process _ ladder =>
      SlotState.Replied message escalate needs_rework process true
        (Some (default (Ladder_new at_ forced) ladder))
  | st => st
  end.

(** Any fact of the session returns a quiet or nudged slot to running. *)
Definition revive (r : SlotRecord) : SlotRecord :=
  match SlotRecord.state r with
  | SlotState.Quiet _ open_call | SlotState.Nudged _ open_call =>
      r <| SlotRecord.state :=
             SlotState.Running (default "" (SlotRecord.backend_session r)) open_call |>
  | _ => r
  end.

Definition set_open_call (value : option Timestamp) (r : SlotRecord) : SlotRecord :=
  match SlotRecord.state r with
  | SlotState.Running session open_call =>
      r <| SlotRecord.state :=
             SlotState.Running session
               (match value with Some _ => option_or open_call value | None => None end) |>
  | _ => r
  end.

Definition refusal_text (rule program : string) : string := rule +:+ ": " +:+ program.

Definition apply_ended (cause : EndCause) (r : SlotRecord) : SlotRecord :=
  let r :=
    match cause with
    | EndCause.PermissionRefused rule program =>
        r <| SlotRecord.refused := Some (refusal_text rule program) |>
    | _ => r
    end in
  let r := r <| SlotRecord.condition := None |> in
  alter_state (λ st,
    match st with
    | SlotState.Replied message escalate needs_rework _ overdue _ =>
        SlotState.Replied message escalate needs_rework ProcessEnded overdue None
    | _ => SlotState.Ended cause
    end) r.

(** What [apply_fact] does to the record the fact names. *)
Definition fact_record (superseded forced : bool) (at_ : Timestamp) (fact : SessionFact)
    (r : SlotRecord) : SlotRecord :=
  let r := r <| SlotRecord.last_fact := Some at_ |> in
  match fact with
  | SessionFact.Started backend_session_id _ =>
      let r := r <| SlotRecord.backend_session := Some backend_session_id |> in
      match SlotRecord.state r with
      | SlotState.Starting _ =>
          r <| SlotRecord.state := SlotState.Running backend_session_id None |>
      | SlotState.Ended _ =>
          if superseded
          then r <| SlotRecord.state :=
                      SlotState.Stopping (Ladder_new at_ forced) AfterStop.Nothing |>
          else r
      | _ => r
      end
  | SessionFact.Heartbeat beat =>
      let r := revive r in
      match beat with
      | HeartbeatKind.CallsOpen => set_open_call (Some at_) r
      | HeartbeatKind.CallsClosed => set_open_call None r
      | HeartbeatKind.SubprocessMoved => r <| SlotRecord.sampling := true |>
      | HeartbeatKind.Blind => r <| SlotRecord.blind := true |>
      | HeartbeatKind.ModelOutput | HeartbeatKind.Unknown _ => r
      end
  | SessionFact.Usage _ _ _ _ _ _ => revive r
  | SessionFact.PermissionRefused rule program =>
      revive (r <| SlotRecord.refused := Some (refusal_text rule program) |>)
  | SessionFact.GroupLingering pids =>
      alter_state (start_reply_stop at_ forced) (r <| SlotRecord.pids := pids |>)
  | SessionFact.Ended cause => apply_ended cause r
  | SessionFact.Unknown _ => r
  end.

Definition apply_fact (s : RunState) (i : nat) (fact : SessionFact) (input : Event) : RunState :=
  let superseded :=
    match RunState.slots s !! i with Some r => is_superseded s r | None => false end in
  alter_slot i (fact_record superseded (RunState.withdrawn s) (Event.at_ input) fact) s.

(** The synthesis reply carries no routing bit, and a step with no back edge has nothing the bit could
    pull. *)
Definition apply_reply (s : RunState) (i : nat) (message : MessageId) (escalate needs_rework : bool)
    : RunState :=
  alter_slot i (λ r,
    let slot := SlotRecord.slot r in
    let is_synth := bool_decide (slot_member slot = SYNTH) in
    let has_edge :=
      match def_step (RunState.def s) (slot_step slot) with
      | Some d => bool_decide (is_Some (StepDef.on_needs_rework d))
      | None => false
      end in
    r <| SlotRecord.state :=
           SlotState.Replied message (escalate && negb is_synth)
             (needs_rework && negb is_synth && has_edge) Live false None |>) s.

Definition apply_answer (s : RunState) (question : Key) (disposition : Disposition)
    (message : MessageId) : RunState :=
  match position (λ q, bool_decide (Question.id q = question)) (RunState.questions s) with
  | None => s
  | Some i =>
      match RunState.questions s !! i with
      | None => s
      | Some q =>
          let s := s <| RunState.questions :=
                         alter (λ q, q <| Question.answered := true |>) i (RunState.questions s) |> in
          s <| RunState.pending_start :=
                 match Question.asked q, disposition with
                 | Asked.Escalation _ _, _ => Some (StartCause.Answer message)
                 | Asked.Ceiling step _ _, Disposition.Accept =>
                     StartCause.Accept message <$> verdict_of s step
                 | Asked.Ceiling _ _ _, (Disposition.Continue | Disposition.Unknown _) => None
                 end |>
      end
  end.

(** [timer_record]: the record of the slot a timer id names. *)
Definition timer_record (s : RunState) (timer : string) : option nat :=
  slot ← timer_slot timer; find_slot s slot.

Definition apply_firing (s : RunState) (timer : string) (p : TimerPurpose) (input : Event)
    : RunState :=
  match p with
  | TimerPurpose.RootDeadline =>
      s <| RunState.root_periods := u32_succ (RunState.root_periods s) |>
  | TimerPurpose.TreeWindow => s <| RunState.tree_cancel_owed := true |>
  | TimerPurpose.StopGrace =>
      let fired :=
        if bool_decide (grace_nth timer = Some 2) then GraceFired.Second else GraceFired.First in
      match timer_record s timer with
      | Some i =>
          alter_slot i (alter_state (ladder_mut (λ l,
            l <| Ladder.fired := grace_max (Ladder.fired l) fired |>))) s
      | None => s
      end
  | TimerPurpose.WindDown =>
      match timer_record s timer with
      | Some i =>
          alter_slot i (alter_state (start_reply_stop (Event.at_ input) (RunState.withdrawn s))) s
      | None => s
      end
  | _ => s
  end.

Definition is_would_not_stop (r : SlotRecord) : bool :=
  match SlotRecord.condition r with
  | Some (SlotCondition.Parked reason _ _) => bool_decide (reason = ReasonCode.WouldNotStop)
  | _ => false
  end.

Definition resume_record (r : SlotRecord) : SlotRecord :=
  let would_not_stop := is_would_not_stop r in
  let r := r <| SlotRecord.condition := None |> in
  if would_not_stop
  then alter_state (ladder_mut (λ l,
         l <| Ladder.signals_sent := 0 |> <| Ladder.fired := GraceFired.None |>)) r
  else r <| SlotRecord.fresh := true |>.

Definition withdraw_record (r : SlotRecord) : SlotRecord :=
  let r := alter_state (ladder_mut (λ l, l <| Ladder.forced := true |>)) r in
  if is_would_not_stop r then r <| SlotRecord.condition := None |> else r.

Definition signal_ladder (l : Ladder) : Ladder :=
  l <| Ladder.signals_sent := u8_saturating_succ (Ladder.signals_sent l) |>
    <| Ladder.total := u32_succ (Ladder.total l) |>.

Definition nudge_state (at_ : Timestamp) (st : SlotState) : SlotState :=
  match st with SlotState.Quiet _ open_call => SlotState.Nudged at_ open_call | st => st end.

(** What an input that is not ignored does. *)
Definition act_input (s : RunState) (input : Event) : RunState :=
  let at_ := Event.at_ input in
  match Event.body input with
  | EventBody.Commissioned _ workspace_id _ flow policy root_thread requester =>
      s <| RunState.commissioned := true |>
        <| RunState.workspace := workspace_id |>
        <| RunState.flow_hash := flow_ref_hash flow |>
        <| RunState.policy := policy |>
        <| RunState.root_thread := Some root_thread |>
        <| RunState.requester := requester |>
  | EventBody.RootOpened thread message =>
      s <| RunState.root_thread := Some thread |>
        <| RunState.root_message := Some message |>
        <| RunState.condition := None |>
  | EventBody.ClaimTaken => s <| RunState.claim_since := Some at_ |>
  | EventBody.TreePrepared base found =>
      s <| RunState.phase := Phase.Running Prepared |>
        <| RunState.base := Some base |>
        <| RunState.found := found |>
        <| RunState.condition := None |>
        <| RunState.tree_cancel_owed := false |>
  | EventBody.TreeRefused _ =>
      s <| RunState.tree_refusals := u32_succ (RunState.tree_refusals s) |>
        <| RunState.tree_cancel_owed := false |>
  | EventBody.TreeParked outcome =>
      let s := s <| RunState.parked := Some outcome |> in
      match RunState.phase s with
      | Phase.Finishing o reason _ =>
          s <| RunState.phase := Phase.Finishing o reason (ParkPhase.Parked outcome) |>
      | _ => s
      end
  | EventBody.Delivered _ =>
      match delivery_key input with
      | Some key => s <| RunState.delivered := {[key]} ∪ RunState.delivered s |>
      | None => s
      end
  | EventBody.Nudged key =>
      match find s key with
      | Some i => alter_slot i (alter_state (nudge_state at_)) s
      | None => s
      end
  | EventBody.StopSignalled key _ _ =>
      match find s key with
      | Some i => alter_slot i (alter_state (ladder_mut signal_ladder)) s
      | None => s
      end
  | EventBody.SessionFact key fact =>
      match find s key with Some i => apply_fact s i fact input | None => s end
  | EventBody.Reply key message escalate needs_rework =>
      match find s key with
      | Some i => apply_reply s i message escalate needs_rework
      | None => s
      end
  | EventBody.Answer question disposition message => apply_answer s question disposition message
  | EventBody.Resume slot =>
      match resume_target s slot with Some i => alter_slot i resume_record s | None => s end
  | EventBody.ResumeRun =>
      s <| RunState.condition := None |> <| RunState.root_periods := 0 |>
  | EventBody.Withdrawn _ _ => map_slots withdraw_record (s <| RunState.withdrawn := true |>)
  | EventBody.TimerFired timer fired_at =>
      let deferred := is_deferred s timer fired_at at_ in
      let armed := RunState.timers s !! timer in
      let s := s <| RunState.timers := delete timer (RunState.timers s) |> in
      if deferred then s
      else match armed with
      | Some armed => apply_firing s timer (purpose armed) input
      | None => s
      end
  | EventBody.ClaimBusy _ | EventBody.ClaimReleased
  | EventBody.Decision _ | EventBody.Unknown _ => s
  end.

(** Folds one input. One [decide] ignored folds to nothing. *)
Definition apply_input (s : RunState) (input : Event) : RunState :=
  match ignored_reason s input with
  | Some _ => s
  | None => act_input s input
  end.
