(* ===== verification/Evolve.v ===== *)
(** * Applying events

    [crates/run-engine/src/evolve.rs]: a replay is the fold of [evolve] over the log. An unknown input
    leaves the state unchanged; an unknown decision is an error, because folding past it would diverge. *)

From S2P Require Import Prelude Text Ids Codes Events Flow State Effects Guard Input.
From stdpp Require Import options.

(** A decision this version cannot fold. *)
Record UnknownDecision := MkUnknownDecision { ud_kind : string; ud_seq : Seq }.

(** ** Turns *)
Definition part (kind : TurnKind) (message : option MessageId) : TurnPart := MkTurnPart kind message.

Definition reply_part (v : VerdictRef) : TurnPart :=
  part (TurnKind.Reply (vr_step v) (vr_member v)) (Some (vr_message v)).

(** [input], or the preceding step where none is declared. *)
Definition declared_inputs (s : RunState) (step : StepId) : list StepId :=
  let steps := FlowDef.steps (RunState.def s) in
  match d ← def_step (RunState.def s) step; StepDef.input d with
  | Some declared => declared
  | None =>
      match position (λ d, bool_decide (StepDef.id d = step)) steps with
      | Some (S i) => StepDef.id <$> option_list (steps !! i)
      | _ => []
      end
  end.

(** The consolidator's turn: the members' replies of this visit, its prompt, the obligation. *)
Definition synthesis_turn (s : RunState) (step : StepId) (visit : N) : list TurnPart :=
  let members := from_option members_of [] (def_step (RunState.def s) step) in
  omap (λ member,
    r ← latest s step visit member;
    match SlotRecord.state r with
    | SlotState.Replied message _ _ _ _ _ =>
        Some (part (TurnKind.Reply step (slot_member (SlotRecord.slot r))) (Some message))
    | _ => None
    end) members ++ [part TurnKind.Task None; part TurnKind.Obligation None].

(** The first turn of a seat: the root, what [input] names, the task, the obligation. *)
Definition first_turn (s : RunState) (step : StepId) (member : Handle) (visit : N)
    (cause : option StartCause) : list TurnPart :=
  if bool_decide (member = SYNTH) then synthesis_turn s step visit
  else
    let inputs :=
      match cause with
      | Some (StartCause.Rework verdict) => [reply_part verdict]
      | Some (StartCause.Accept answer verdict) =>
          [part TurnKind.Answer (Some answer); reply_part verdict]
      | Some (StartCause.Answer _) | None =>
          reply_part <$> omap (verdict_of s) (declared_inputs s step)
      end in
    let task :=
      match d ← def_step (RunState.def s) step; StepDef.task d with
      | Some _ => [part TurnKind.Task None]
      | None => []
      end in
    [part TurnKind.Root (RunState.root_message s)] ++ inputs ++ task ++ [part TurnKind.Obligation None].

(** ** New attempts *)

(** An attempt after the first: what it carries over and what it spends. *)
Definition next_attempt (r prior : SlotRecord) (cause : option StartCause) (declared_resume : bool)
    : SlotRecord :=
  let r := r <| SlotRecord.base_turn := SlotRecord.base_turn prior |>
             <| SlotRecord.restarts := SlotRecord.restarts prior |>
             <| SlotRecord.holds := SlotRecord.holds prior |>
             <| SlotRecord.reminded := SlotRecord.reminded prior |> in
  let plain :=
    r <| SlotRecord.turn := SlotRecord.base_turn r |>
      <| SlotRecord.resume := declared_resume |>
      <| SlotRecord.restarts := u32_succ (SlotRecord.restarts r) |> in
  let r :=
    match cause, SlotRecord.state prior with
    | Some (StartCause.Answer message), _ =>
        r <| SlotRecord.turn :=
               [part TurnKind.Answer (Some message); part TurnKind.Obligation None] |>
          <| SlotRecord.resume := true |>
    | _, SlotState.Ended cause =>
        if is_hold cause then
          r <| SlotRecord.turn := SlotRecord.turn prior |> <| SlotRecord.resume := true |>
        else match cause, SlotRecord.reminded prior with
        | EndCause.TurnComplete, false =>
            r <| SlotRecord.turn := [part TurnKind.Reminder None; part TurnKind.Obligation None] |>
              <| SlotRecord.resume := true |>
              <| SlotRecord.reminded := true |>
              <| SlotRecord.restarts := u32_succ (SlotRecord.restarts r) |>
        | _, _ => plain
        end
    | _, _ => plain
    end in
  if SlotRecord.fresh prior then
    r <| SlotRecord.restarts := 0 |> <| SlotRecord.holds := 0 |> <| SlotRecord.reminded := false |>
  else r.

Definition new_record (s : RunState) (step : StepId) (visit attempt : N) (member : Handle)
    (cause : option StartCause) : SlotRecord :=
  let declared_resume :=
    negb (bool_decide (member = SYNTH)) &&
    from_option StepDef.resume false (def_step (RunState.def s) step) in
  let r := {|
    SlotRecord.slot := MkSlot step visit member attempt;
    SlotRecord.state := SlotState.Pending;
    SlotRecord.created_at := from_unix_millis 0;
    SlotRecord.resume := declared_resume;
    SlotRecord.turn := [];
    SlotRecord.base_turn := [];
    SlotRecord.restarts := 0;
    SlotRecord.holds := 0;
    SlotRecord.reminded := false;
    SlotRecord.condition := None;
    SlotRecord.fresh := false;
    SlotRecord.blind := false;
    SlotRecord.sampling := false;
    SlotRecord.backend_session := None;
    SlotRecord.last_fact := None;
    SlotRecord.pids := [];
    SlotRecord.refused := None;
  |} in
  match latest s step visit member with
  | None =>
      let turn := first_turn s step member visit cause in
      r <| SlotRecord.base_turn := turn |> <| SlotRecord.turn := turn |>
  | Some prior => next_attempt r prior cause declared_resume
  end.

(** ** Decisions *)
Definition start_member (step : StepId) (visit attempt : N) (cause : option StartCause)
    (at_ : Timestamp) (s : RunState) (member : Handle) : RunState :=
  let r := new_record s step visit attempt member cause in
  s <| RunState.slots := RunState.slots s ++ [r <| SlotRecord.created_at := at_ |>] |>.

Definition apply_step_started (s : RunState) (step : StepId) (visit attempt : N)
    (members : list Handle) (at_ : Timestamp) : RunState :=
  let s :=
    match RunState.phase s with
    | Phase.Queued _ | Phase.Created => s <| RunState.phase := Phase.Running Unprepared |>
    | _ => s
    end in
  let s := s <| RunState.visits := <[step := visit]> (RunState.visits s) |>
             <| RunState.current_step := Some step |> in
  let cause := RunState.pending_start s in
  let s := s <| RunState.pending_start := None |> in
  foldl (start_member step visit attempt cause at_) s members.

(** [if let Some(record) = record_of(state, slot) { *record = f(record) }]. *)
Definition alter_record (slot : Slot) (f : SlotRecord → SlotRecord) (s : RunState) : RunState :=
  match find_slot s slot with Some i => alter_slot i f s | None => s end.

(** Arming the start deadline is what takes a waiting slot to [Starting]. *)
Definition start_state (deadline : Timestamp) (st : SlotState) : SlotState :=
  match st with
  | SlotState.Pending | SlotState.Starting _ => SlotState.Starting deadline
  | st => st
  end.

Definition arm_start (s : RunState) (timer : string) (deadline : Timestamp) : RunState :=
  match timer_slot timer with
  | Some slot => alter_record slot (alter_state (start_state deadline)) s
  | None => s
  end.

Definition liveness_state (reason : ReasonCode) (since : Timestamp) (forced : bool) (st : SlotState)
    : SlotState :=
  let open_call :=
    match st with
    | SlotState.Running _ open_call | SlotState.Nudged _ open_call => open_call
    | _ => None
    end in
  if bool_decide (reason = ReasonCode.Quiet) then SlotState.Quiet since open_call
  else SlotState.Stopping (Ladder_new since forced) (AfterStop.Restart reason).

Definition apply_liveness (s : RunState) (slot : Slot) (reason : ReasonCode) (since : Timestamp)
    : RunState :=
  alter_record slot (alter_state (liveness_state reason since (RunState.withdrawn s))) s.

Definition finishing_state (at_ : Timestamp) (forced : bool) (st : SlotState) : SlotState :=
  match st with
  | SlotState.Pending => SlotState.Ended EndCause.StoppedByHost
  | SlotState.Starting _ | SlotState.Running _ _ | SlotState.Quiet _ _ | SlotState.Nudged _ _ =>
      SlotState.Stopping (Ladder_new at_ forced) AfterStop.Nothing
  | SlotState.Stopping ladder _ => SlotState.Stopping ladder AfterStop.Nothing
  | other => other
  end.

Definition apply_finishing (s : RunState) (outcome : Outcome) (reason : option ReasonCode)
    (at_ : Timestamp) : RunState :=
  let s := s <| RunState.phase := Phase.Finishing outcome reason ParkPhase.Unparked |>
             <| RunState.condition := None |>
             <| RunState.tree_cancel_owed := false |> in
  map_slots (λ r, alter_state (finishing_state at_ (RunState.withdrawn s))
                    (r <| SlotRecord.condition := None |>)) s.

(** [next_order]: the state with the age handed out, which is its new count. *)
Definition next_order (s : RunState) : RunState :=
  s <| RunState.next_order := u64_succ (RunState.next_order s) |>.

Definition hold_record (reason : ReasonCode) (until : Timestamp) (resets_at : option Timestamp)
    (order : N) (r : SlotRecord) : SlotRecord :=
  let r :=
    match resets_at with
    | None => r <| SlotRecord.holds := u32_succ (SlotRecord.holds r) |>
    | Some _ => r
    end in
  r <| SlotRecord.condition := Some (SlotCondition.Held reason until order) |>.

Definition ask (s : RunState) (id : Key) (asked : Asked) (at_ : Timestamp) : RunState :=
  s <| RunState.questions := RunState.questions s ++
         [{| Question.id := id; Question.asked := asked; Question.since := at_;
             Question.answered := false |}] |>.

(** What a decision does to state. *)
Definition apply_decision (at_ : Timestamp) (s : RunState) (d : Decision) : RunState :=
  match d with
  | Decision.RootRequested | Decision.WithdrawForced | Decision.Ignored _ _ => s
  | Decision.ClaimRequested => s <| RunState.phase := Phase.Queued None |>
  | Decision.RunQueued behind =>
      s <| RunState.phase := Phase.Queued behind |>
        <| RunState.claim_changes := u32_succ (RunState.claim_changes s) |>
  | Decision.StepStarted step visit attempt members =>
      apply_step_started s step visit attempt members at_
  | Decision.StepFinished step visit outcome =>
      s <| RunState.finished_steps :=
             RunState.finished_steps s ++ [MkFinishedStep step visit outcome at_] |>
  | Decision.Rework from _ declaring pass =>
      let s := s <| RunState.passes := <[declaring := pass]> (RunState.passes s) |> in
      s <| RunState.pending_start := StartCause.Rework <$> verdict_of s from |>
  | Decision.Escalated question slot message => ask s question (Asked.Escalation slot message) at_
  | Decision.Ceiling question step pass last_verdict =>
      ask s question (Asked.Ceiling step pass last_verdict) at_
  | Decision.TimerSet timer fire_at p =>
      let s := s <| RunState.timers := <[timer := MkArmedTimer fire_at p]> (RunState.timers s) |> in
      if bool_decide (p = TimerPurpose.StartDeadline) then arm_start s timer fire_at else s
  | Decision.TimerCleared timer => s <| RunState.timers := delete timer (RunState.timers s) |>
  | Decision.Liveness slot reason since => apply_liveness s slot reason since
  | Decision.Held slot reason until resets_at =>
      let s := next_order s in
      alter_record slot (hold_record reason until resets_at (RunState.next_order s)) s
  | Decision.Parked (Some slot) reason =>
      let s := next_order s in
      alter_record slot (λ r, r <| SlotRecord.condition :=
        Some (SlotCondition.Parked reason (RunState.next_order s) at_) |>) s
  | Decision.Parked None reason =>
      let s := next_order s in
      s <| RunState.condition := Some (MkRunCondition reason (RunState.next_order s) at_) |>
  | Decision.Finishing outcome reason => apply_finishing s outcome reason at_
  | Decision.Finished outcome reason =>
      s <| RunState.phase := Phase.Finished outcome reason |> <| RunState.timers := ∅ |>
  end.

(** Applies one event of the log. *)
Definition evolve (s : RunState) (e : Event) : result UnknownDecision RunState :=
  if is_unknown_decision e
  then Err (MkUnknownDecision (EventBody_kind (Event.body e)) (Event.seq e))
  else match Event.body e with
  | EventBody.Decision d =>
      Ok ((apply_decision (Event.at_ e) s d) <| RunState.seq := Event.seq e |>)
  | _ => Ok ((apply_input s e) <| RunState.seq := Event.seq e |>)
  end.
