(* ===== verification/Decide.v ===== *)
(** * Choosing transitions

    [crates/run-engine/src/decide.rs] with its modules [route], [session] and [timers]. [decide] works
    on a copy of the state with the input folded in and folds each decision as it emits it. *)

From S2P Require Import Prelude Text Ids Codes Events Flow State Effects Guard Input Evolve.
From stdpp Require Import options.

(** The list being written, and the state it has reached. *)
Module Emit.
Record Emit := Mk {
  before : RunState;
  state : RunState;
  at_ : Timestamp;
  def : FlowDef;
  out : list Decision;
}.
End Emit.
Abbreviation Emit := Emit.Emit (only parsing).

(** ** [decide.rs]: emitting and timers *)

Definition push (d : Decision) (e : Emit) : Emit :=
  {| Emit.before := Emit.before e;
     Emit.state := apply_decision (Emit.at_ e) (Emit.state e) d;
     Emit.at_ := Emit.at_ e; Emit.def := Emit.def e; Emit.out := Emit.out e ++ [d] |}.

Definition policy_of (e : Emit) : LivenessPolicy := RunState.policy (Emit.state e).

Definition set_timer_at (timer : string) (fire_at : Timestamp) (p : TimerPurpose) (e : Emit) : Emit :=
  push (Decision.TimerSet timer fire_at p) e.

Definition set_timer (timer : string) (span : Secs) (p : TimerPurpose) (e : Emit) : Emit :=
  set_timer_at timer (plus (Emit.at_ e) span) p e.

Definition set_slot_timer (slot : Slot) (span : Secs) (p : TimerPurpose) (e : Emit) : Emit :=
  set_timer (slot_timer p slot) span p e.

(** Cancels a timer if it is armed. *)
Definition clear_timer (timer : string) (e : Emit) : Emit :=
  match RunState.timers (Emit.state e) !! timer with
  | Some _ => push (Decision.TimerCleared timer) e
  | None => e
  end.

Definition clear_slot_timer (slot : Slot) (p : TimerPurpose) (e : Emit) : Emit :=
  clear_timer (slot_timer p slot) e.

(** [for timer in armed { self.clear_timer(&timer) }]. *)
Definition clear_timers (armed : list string) (e : Emit) : Emit :=
  foldl (λ e timer, clear_timer timer e) e armed.

(** Cancels every timer of this slot. *)
Definition clear_slot_timers (slot : Slot) (e : Emit) : Emit :=
  let suffix := "/" +:+ slot_suffix slot in
  clear_timers
    (filter (λ timer, ends_with suffix timer = true) (sorted_keys (RunState.timers (Emit.state e)))) e.

Definition set_tree_window (e : Emit) : Emit :=
  set_timer TREE_WINDOW_TIMER (tree_window (policy_of e)) TimerPurpose.TreeWindow e.

Definition set_root_deadline (e : Emit) : Emit :=
  set_timer ROOT_DEADLINE_TIMER (root_deadline (policy_of e)) TimerPurpose.RootDeadline e.

Definition finished (e : Emit) : Emit :=
  match RunState.phase (Emit.state e) with
  | Phase.Finishing outcome reason _ => push (Decision.Finished outcome reason) e
  | _ => e
  end.

(** ** [route.rs]: where a run goes when a step is done *)

Definition arm_if_free (span : Secs) (e : Emit) (slot : Slot) : Emit :=
  if persona_is_live (Emit.state e) (slot_member slot) then e
  else set_slot_timer slot span TimerPurpose.StartDeadline e.

(** Starts every waiting slot that may start. *)
Definition arm_ready (e : Emit) : Emit :=
  if tree_prepared (Emit.state e) then
    let span := start_deadline (policy_of e) in
    let waiting :=
      SlotRecord.slot <$>
        filter (λ r, is_pending (SlotRecord.state r) = true) (RunState.slots (Emit.state e)) in
    foldl (arm_if_free span) e waiting
  else e.

(** The next visit of a step. *)
Definition start_step (step : StepId) (e : Emit) : Emit :=
  match def_step (Emit.def e) step with
  | None => e
  | Some d =>
      let visit := u32_succ (default 0 (RunState.visits (Emit.state e) !! step)) in
      arm_ready (push (Decision.StepStarted step visit 1 (members_of d)) e)
  end.

(** The next attempt of a seat. *)
Definition restart (slot : Slot) (e : Emit) : Emit :=
  arm_ready (push (Decision.StepStarted (slot_step slot) (slot_visit slot)
    (u32_succ (slot_attempt slot)) [slot_member slot]) e).

(** A member's latest attempt counts when it replied without [escalate]. *)
Definition member_verdict (r : SlotRecord) : option bool :=
  match SlotRecord.state r with
  | SlotState.Replied _ false needs_rework _ _ _ => Some needs_rework
  | _ => None
  end.

Definition ceiling_key (run : RunId) (step : StepId) (visit pass : N) : Key :=
  "ceiling/" +:+ run +:+ "/" +:+ step +:+ "/v" +:+ pretty visit +:+ "/p" +:+ pretty pass.

Definition rework (from to : StepId) (pass : N) (e : Emit) : Emit :=
  start_step to (push (Decision.Rework from to from pass) e).

(** The pass a rework would start is over the ceiling: the run asks. *)
Definition ceiling (step : StepId) (visit pass : N) (e : Emit) : Emit :=
  match verdict_of (Emit.state e) step with
  | None => e
  | Some verdict =>
      push (Decision.Ceiling (ceiling_key (RunState.run (Emit.state e)) step visit pass)
              step pass (vr_message verdict)) e
  end.

Definition survives_finish (p : TimerPurpose) : bool :=
  match p with TimerPurpose.StopGrace | TimerPurpose.WindDown => true | _ => false end.

Definition is_over (timers : gmap string ArmedTimer) (timer : string) : bool :=
  match timers !! timer with Some armed => negb (survives_finish (purpose armed)) | None => false end.

(** Every outcome goes through [Finishing]; what keeps running is what stops a session. *)
Definition finish_run (o : Outcome) (reason : ReasonCode) (e : Emit) : Emit :=
  let e := push (Decision.Finishing o (Some reason)) e in
  let timers := RunState.timers (Emit.state e) in
  clear_timers (filter (λ timer, is_over timers timer = true) (sorted_keys timers)) e.

Definition finish_step (step : StepId) (visit : N) (needs_rework : bool) (e : Emit) : Emit :=
  let o := if needs_rework then StepOutcome.NeedsRework else StepOutcome.Pass in
  let e := push (Decision.StepFinished step visit o) e in
  match def_step (Emit.def e) step with
  | None => e
  | Some d =>
      match needs_rework, StepDef.on_needs_rework d with
      | true, Some to =>
          let pass := u32_succ (pass_of (Emit.state e) step) in
          if pass <=? StepDef.max_passes d then rework step to pass e else ceiling step visit pass e
      | _, _ =>
          match StepDef.next d with
          | Some next => start_step next e
          | None => finish_run Outcome.Delivered ReasonCode.Delivered e
          end
      end
  end.

(** What [after_reply] does once every member has counted. *)
Definition all_replied (step : StepId) (visit : N) (d : StepDef) (replies : list bool) (e : Emit)
    : Emit :=
  let finish := finish_step step visit (existsb id replies) in
  if has_synthesis d then
    match latest (Emit.state e) step visit SYNTH with
    | None => arm_ready (push (Decision.StepStarted step visit 1 [SYNTH]) e)
    | Some r => if is_replied (SlotRecord.state r) then finish e else e
    end
  else finish e.

(** A reply folded: is its step done? *)
Definition after_reply (slot : Slot) (e : Emit) : Emit :=
  let step := slot_step slot in
  let visit := slot_visit slot in
  if bool_decide (RunState.current_step (Emit.state e) = Some step) &&
     bool_decide (RunState.visits (Emit.state e) !! step = Some visit)
  then
    match def_step (Emit.def e) step with
    | None => e
    | Some d =>
        match collect_option
                (λ member, latest (Emit.state e) step visit member ≫= member_verdict)
                (members_of d) with
        | None => e
        | Some replies => all_replied step visit d replies e
        end
    end
  else e.

(** [continue] at the ceiling: exactly one more pass of the back edge. *)
Definition one_more_pass (step : StepId) (pass : N) (e : Emit) : Emit :=
  match d ← def_step (Emit.def e) step; StepDef.on_needs_rework d with
  | None => e
  | Some to => rework step to pass e
  end.

(** [accept] at the ceiling. *)
Definition accept (step : StepId) (e : Emit) : Emit :=
  match d ← def_step (Emit.def e) step; StepDef.next d with
  | Some next => start_step next e
  | None => finish_run Outcome.Accepted ReasonCode.AcceptedByRequester e
  end.

(** ** [session.rs]: what a session's facts and replies lead to *)

Definition slot_at (e : Emit) (i : nat) : option SlotRecord := RunState.slots (Emit.state e) !! i.

Definition nudged (key : SessionKey) (e : Emit) : Emit :=
  match i ← find (Emit.state e) key; slot_at e i with
  | None => e
  | Some r =>
      set_slot_timer (SlotRecord.slot r) (confirm_within (policy_of e)) TimerPurpose.Confirm e
  end.

(** A signal was sent: its grace starts. The third signal has no rung after it. *)
Definition stop_signalled (key : SessionKey) (e : Emit) : Emit :=
  match i ← find (Emit.state e) key; slot_at e i with
  | None => e
  | Some r =>
      let sent := from_option Ladder.signals_sent 0 (ladder_of (SlotRecord.state r)) in
      if bool_decide (sent = 1) || bool_decide (sent = 2)
      then set_timer (grace_timer sent (SlotRecord.slot r)) (stop_grace (policy_of e))
             TimerPurpose.StopGrace e
      else e
  end.

Definition has_open_call (st : SlotState) : bool :=
  match st with SlotState.Running _ (Some _) => true | _ => false end.

(** [matches!(beat, Some(...))] over the kinds [rearm] names. *)
Definition beat_is (kinds : list HeartbeatKind) (beat : option HeartbeatKind) : bool :=
  match beat with Some b => bool_decide (b ∈ kinds) | None => false end.

(** Re-arms the signs of life for what is now true of the slot. *)
Definition rearm (i : nat) (slot : Slot) (was_quiet : bool) (beat : option HeartbeatKind) (e : Emit)
    : Emit :=
  let e := if was_quiet then clear_slot_timer slot TimerPurpose.Confirm e else e in
  match slot_at e i with
  | None => e
  | Some r =>
      let blind := SlotRecord.blind r in
      let sampling := SlotRecord.sampling r in
      let policy := policy_of e in
      if negb (has_open_call (SlotRecord.state r)) then
        let e := clear_slot_timer slot TimerPurpose.SubprocessIdle e in
        let e := clear_slot_timer slot TimerPurpose.CallBound e in
        if was_quiet ||
           beat_is [HeartbeatKind.ModelOutput; HeartbeatKind.CallsClosed;
                    HeartbeatKind.SubprocessMoved] beat
        then set_slot_timer slot (quiet_after policy) TimerPurpose.Quiet e
        else e
      else
        let e := clear_slot_timer slot TimerPurpose.Quiet e in
        let e := if blind then clear_slot_timer slot TimerPurpose.SubprocessIdle e else e in
        let e := if sampling then clear_slot_timer slot TimerPurpose.CallBound e else e in
        let opened_or_back := was_quiet || beat_is [HeartbeatKind.CallsOpen] beat in
        let e :=
          if negb blind && (opened_or_back || beat_is [HeartbeatKind.SubprocessMoved] beat)
          then set_slot_timer slot (subprocess_idle policy) TimerPurpose.SubprocessIdle e
          else e in
        if negb sampling && (opened_or_back || beat_is [HeartbeatKind.Blind] beat)
        then set_slot_timer slot (call_bound_after policy) TimerPurpose.CallBound e
        else e
  end.

(** A dead leader with a non-empty group is not an end. *)
Definition group_lingering (slot : Slot) (was : SlotState) (e : Emit) : Emit :=
  match was with
  | SlotState.Stopping _ _ => e
  | SlotState.Replied _ _ _ _ _ _ => clear_slot_timer slot TimerPurpose.WindDown e
  | _ =>
      let e := clear_slot_timers slot e in
      push (Decision.Liveness slot ReasonCode.Lost (Emit.at_ e)) e
  end.

(** The next attempt while the budget lasts; after it the slot parks. *)
Definition restart_or_park (i : nat) (slot : Slot) (exhausted : ReasonCode) (e : Emit) : Emit :=
  match slot_at e i with
  | None => e
  | Some r =>
      let attempts := u32_succ (SlotRecord.restarts r) in
      if attempts <? max_attempts (policy_of e) then restart slot e
      else
        let in_fan_out :=
          negb (bool_decide (slot_member slot = SYNTH)) &&
          from_option is_fan_out false (def_step (Emit.def e) (slot_step slot)) in
        push (Decision.Parked (Some slot)
                (if in_fan_out then ReasonCode.FanOutIncomplete else exhausted)) e
  end.

(** The backend's reset clamped to the policy's window, or the policy's own retry without one. *)
Definition hold_until (resets_at : option Timestamp) (e : Emit) : Timestamp :=
  match resets_at with
  | None => plus (Emit.at_ e) (hold_retry (policy_of e))
  | Some resets_at =>
      Z.min (Z.max resets_at (plus (Emit.at_ e) (hold_retry_min (policy_of e))))
            (plus (Emit.at_ e) (hold_retry_max (policy_of e)))
  end.

(** On hold, not failed. *)
Definition hold (i : nat) (slot : Slot) (reason : ReasonCode) (resets_at : option Timestamp) (e : Emit)
    : Emit :=
  match slot_at e i with
  | None => e
  | Some r =>
      if bool_decide (resets_at = None) && (max_holds (policy_of e) <=? SlotRecord.holds r)
      then push (Decision.Parked (Some slot) ReasonCode.HoldLimit) e
      else
        let until := hold_until resets_at e in
        let e := push (Decision.Held slot reason until resets_at) e in
        set_timer_at (slot_timer TimerPurpose.HoldRetry slot) until TimerPurpose.HoldRetry e
  end.

(** The confirmed end of a process; what it leads to is the state it ended in. *)
Definition ended (i : nat) (slot : Slot) (was : SlotState) (cause : EndCause) (e : Emit) : Emit :=
  let e := clear_slot_timers slot e in
  if is_finishing (Emit.state e) then e
  else match was with
  | SlotState.Replied _ _ _ _ _ _ | SlotState.Stopping _ AfterStop.Nothing => arm_ready e
  | SlotState.Stopping _ (AfterStop.Restart exhausted) => restart_or_park i slot exhausted e
  | _ =>
      match cause with
      | EndCause.TurnComplete => restart_or_park i slot ReasonCode.EndedWithoutReply e
      | EndCause.Exit _ | EndCause.Unknown _ => restart_or_park i slot ReasonCode.StartFailed e
      | EndCause.Lost => restart_or_park i slot ReasonCode.Lost e
      | EndCause.UsageLimit resets_at => hold i slot ReasonCode.UsageLimit resets_at e
      | EndCause.ProviderUnavailable => hold i slot ReasonCode.ProviderUnavailable None e
      | EndCause.PermissionRefused _ _ =>
          push (Decision.Parked (Some slot) ReasonCode.PermissionRefused) e
      | EndCause.StoppedByHost => restart_or_park i slot ReasonCode.Lost e
      end
  end.

Definition is_quiet_or_nudged (st : SlotState) : bool :=
  match st with SlotState.Quiet _ _ | SlotState.Nudged _ _ => true | _ => false end.

Definition emit_fact (key : SessionKey) (fact : SessionFact) (e : Emit) : Emit :=
  match find (Emit.state e) key with
  | None => e
  | Some i =>
      match RunState.slots (Emit.before e) !! i, slot_at e i with
      | Some before, Some r =>
          let was := SlotRecord.state before in
          let slot := SlotRecord.slot r in
          let was_quiet := is_quiet_or_nudged was in
          match fact with
          | SessionFact.Started _ _ =>
              if is_starting was then
                let e := clear_slot_timer slot TimerPurpose.StartDeadline e in
                set_slot_timer slot (quiet_after (policy_of e)) TimerPurpose.Quiet e
              else e
          | SessionFact.Heartbeat (HeartbeatKind.Unknown _)
          | SessionFact.Usage _ _ _ _ _ _
          | SessionFact.PermissionRefused _ _ =>
              if was_quiet then rearm i slot true None e else e
          | SessionFact.Heartbeat beat => rearm i slot was_quiet (Some beat) e
          | SessionFact.GroupLingering _ => group_lingering slot was e
          | SessionFact.Ended cause => ended i slot was cause e
          | SessionFact.Unknown _ => e
          end
      | _, _ => e
      end
  end.

(** A reply folded onto its slot. *)
Definition emit_reply (key : SessionKey) (e : Emit) : Emit :=
  match find (Emit.state e) key with
  | None => e
  | Some i =>
      match slot_at e i with
      | None => e
      | Some r =>
          let slot := SlotRecord.slot r in
          let e := clear_slot_timers slot e in
          let e := set_slot_timer slot (stop_grace (policy_of e)) TimerPurpose.WindDown e in
          let e :=
            match SlotRecord.state <$> slot_at e i with
            | Some (SlotState.Replied message true _ _ _ _) =>
                push (Decision.Escalated ("escalated/" +:+ key) slot message) e
            | _ => e
            end in
          after_reply slot e
      end
  end.

(** ** [timers.rs]: a timer fired *)

(** A period of [root_deadline] with no [root_opened]. *)
Definition root_period (e : Emit) : Emit :=
  if max_attempts (policy_of e) <=? RunState.root_periods (Emit.state e)
  then push (Decision.Parked None ReasonCode.RootFailed) e
  else set_root_deadline e.

Definition conclude (slot : Slot) (reason : ReasonCode) (e : Emit) : Emit :=
  push (Decision.Liveness slot reason (Emit.at_ e)) e.

Definition quiet (slot : Slot) (e : Emit) : Emit :=
  let e := conclude slot ReasonCode.Quiet e in
  set_slot_timer slot (confirm_within (policy_of e)) TimerPurpose.Confirm e.

(** [call_bound] binds a blind host only. *)
Definition call_bound (slot : Slot) (e : Emit) : Emit :=
  match i ← find_slot (Emit.state e) slot; slot_at e i with
  | Some r =>
      if SlotRecord.blind r
      then quiet slot (clear_slot_timer slot TimerPurpose.SubprocessIdle e)
      else e
  | None => e
  end.

(** The second grace ran out: unforced, that is the last rung. *)
Definition grace_over (timer : string) (slot : Slot) (e : Emit) : Emit :=
  if bool_decide (grace_nth timer = Some 2) then
    let forced :=
      match i ← find_slot (Emit.state e) slot; r ← slot_at e i; ladder_of (SlotRecord.state r) with
      | Some l => Ladder.forced l
      | None => false
      end in
    if forced then e else push (Decision.Parked (Some slot) ReasonCode.WouldNotStop) e
  else e.

Definition timer_fired (timer : string) (fired_at : Timestamp) (e : Emit) : Emit :=
  match RunState.timers (Emit.before e) !! timer with
  | None => e
  | Some armed =>
      if is_deferred (Emit.before e) timer fired_at (Emit.at_ e)
      then set_timer timer (wake_jump (policy_of e)) (purpose armed) e
      else match purpose armed, timer_slot timer with
      | TimerPurpose.RootDeadline, _ => root_period e
      | TimerPurpose.TreeWindow, _ => push (Decision.Parked None ReasonCode.TreeRefused) e
      | TimerPurpose.StartDeadline, Some slot => conclude slot ReasonCode.StartFailed e
      | TimerPurpose.Quiet, Some slot => quiet slot e
      | TimerPurpose.SubprocessIdle, Some slot =>
          quiet slot (clear_slot_timer slot TimerPurpose.CallBound e)
      | TimerPurpose.CallBound, Some slot => call_bound slot e
      | TimerPurpose.Confirm, Some slot => conclude slot ReasonCode.Hung (clear_slot_timers slot e)
      | TimerPurpose.StopGrace, Some slot => grace_over timer slot e
      | TimerPurpose.HoldRetry, Some slot => restart slot e
      | _, _ => e
      end
  end.

(** ** [decide.rs]: the person's inputs, and the dispatch *)

Definition answer (question : Key) (disposition : Disposition) (e : Emit) : Emit :=
  match find_first (λ q, bool_decide (Question.id q = question))
          (RunState.questions (Emit.before e)) with
  | None => e
  | Some q =>
      match Question.asked q with
      | Asked.Escalation slot _ => restart slot e
      | Asked.Ceiling step pass _ =>
          match disposition with
          | Disposition.Continue => one_more_pass step pass e
          | Disposition.Accept => accept step e
          | Disposition.Unknown _ => e
          end
      end
  end.

Definition resume (slot : option Slot) (e : Emit) : Emit :=
  match i ← resume_target (Emit.before e) slot; RunState.slots (Emit.before e) !! i with
  | None => e
  | Some r =>
      let slot := SlotRecord.slot r in
      match SlotRecord.condition r with
      | Some (SlotCondition.Held _ _ _) =>
          restart slot (clear_slot_timer slot TimerPurpose.HoldRetry e)
      | Some (SlotCondition.Parked reason _ _) =>
          if bool_decide (reason = ReasonCode.WouldNotStop) then e else restart slot e
      | None => e
      end
  end.

Definition resume_run (e : Emit) : Emit :=
  match RunState.condition (Emit.before e) with
  | None => e
  | Some condition =>
      match rc_reason condition with
      | ReasonCode.RootFailed => set_root_deadline e
      | ReasonCode.TreeRefused => set_tree_window e
      | _ => e
      end
  end.

Definition withdrawn_reason (by_ : WithdrawnBy) : ReasonCode :=
  match by_ with
  | WithdrawnBy.Requester => ReasonCode.WithdrawnByRequester
  | WithdrawnBy.Owner => ReasonCode.WithdrawnByOwner
  | WithdrawnBy.Unknown raw => ReasonCode.Unknown raw
  end.

Definition withdrawn (by_ : WithdrawnBy) (e : Emit) : Emit :=
  if is_finishing (Emit.before e) then push Decision.WithdrawForced e
  else finish_run Outcome.Withdrawn (withdrawn_reason by_) e.

(** [Emit::input]: what follows from an input that was folded. *)
Definition emit_input (input : Event) (e : Emit) : Emit :=
  match Event.body input with
  | EventBody.Commissioned _ _ _ _ _ _ _ => set_root_deadline (push Decision.RootRequested e)
  | EventBody.RootOpened _ _ =>
      match RunState.phase (Emit.state e) with
      | Phase.Created => push Decision.ClaimRequested (clear_timer ROOT_DEADLINE_TIMER e)
      | _ => e
      end
  | EventBody.ClaimTaken =>
      let e :=
        match head (FlowDef.steps (Emit.def e)) with
        | Some first => start_step (StepDef.id first) e
        | None => e
        end in
      set_tree_window e
  | EventBody.ClaimBusy holder => push (Decision.RunQueued (Some holder)) e
  | EventBody.ClaimReleased => finished e
  | EventBody.TreePrepared _ _ => arm_ready (clear_timer TREE_WINDOW_TIMER e)
  | EventBody.TreeRefused reason =>
      if is_permanent reason && bool_decide (RunState.condition (Emit.before e) = None)
      then push (Decision.Parked None ReasonCode.TreeRefused) (clear_timer TREE_WINDOW_TIMER e)
      else e
  | EventBody.TreeParked _ | EventBody.Delivered _ => e
  | EventBody.Nudged key => nudged key e
  | EventBody.StopSignalled key _ _ => stop_signalled key e
  | EventBody.SessionFact key fact => emit_fact key fact e
  | EventBody.Reply key _ _ _ => emit_reply key e
  | EventBody.Answer question disposition _ => answer question disposition e
  | EventBody.Resume slot => resume slot e
  | EventBody.ResumeRun => resume_run e
  | EventBody.Withdrawn _ by_ => withdrawn by_ e
  | EventBody.TimerFired timer fired_at => timer_fired timer fired_at e
  | EventBody.Decision _ | EventBody.Unknown _ => e
  end.

(** The copy [decide] starts from: the input folded, nothing emitted yet. *)
Definition emit_start (s : RunState) (input : Event) (def : FlowDef) : Emit :=
  {| Emit.before := s; Emit.state := apply_input s input; Emit.at_ := Event.at_ input;
     Emit.def := def; Emit.out := [] |}.

(** The next decisions of a run for one input. *)
Definition decide (s : RunState) (input : Event) (def : FlowDef) : list Decision :=
  match ignored_reason s input with
  | Some reason => [Decision.Ignored (Event.seq input) reason]
  | None => Emit.out (emit_input input (emit_start s input def))
  end.

(** The key a host writes a decision under. *)
Definition decision_key (input_key : Key) (index : N) (d : Decision) : Key :=
  match d with
  | Decision.Escalated question _ _ | Decision.Ceiling question _ _ _ => question
  | _ => input_key +:+ "/d" +:+ pretty index
  end.
