(* ===== verification/Status.v ===== *)
(** * The status projection

    [crates/run-engine/src/status.rs], with the types of [crates/run-contracts/src/status.rs] it fills:
    what folds from the log, with no clock and no inbox. The host adds [local] around it. *)

From S2P Require Import Prelude Text Ids Codes Events Flow State.
From stdpp Require Import options.

(** ** The published types *)
Module StatusState.
Inductive StatusState :=
| Created
| Queued (behind : option RunId)
| Running
| NeedsDecision
| Held (until : Timestamp)
| Parked
| Finishing
| Finished
| Unknown (body : UnknownBody).
End StatusState.
Abbreviation StatusState := StatusState.StatusState (only parsing).

Record FlowStatus := MkFlowStatus { flow_name : string; flow_status_hash : string }.

Record ClaimStatus := MkClaimStatus {
  claim_workspace_id : string;
  claim_held : bool;
  claim_status_since : option Timestamp;
}.

Record SlotLiveness := MkSlotLiveness { liveness_last_fact : option Timestamp; verdict : Verdict }.

Module MemberStatus.
Record MemberStatus := Mk {
  handle : Handle;
  session_key : SessionKey;
  attempt : N;
  state : string;
  liveness : SlotLiveness;
  pids : list N;
  refused : option string;
}.
End MemberStatus.
Abbreviation MemberStatus := MemberStatus.MemberStatus (only parsing).

Module StepStatus.
Record StepStatus := Mk {
  id : StepId;
  visit : N;
  pass : N;
  state : string;
  outcome : option StepOutcome;
  started : option Timestamp;
  ended : option Timestamp;
  members : list MemberStatus;
}.
End StepStatus.
Abbreviation StepStatus := StepStatus.StepStatus (only parsing).

Record Needs := MkNeeds {
  needs_kind : NeedsKind;
  needs_question : option Key;
  needs_message : option MessageId;
  needs_since : Timestamp;
}.

(** ** What only the machine that holds the run can say *)

(** Whether any service attends the workspace. *)
Record Owner := MkOwner { attended : bool; last_seen : option Timestamp }.

(** The tree operation the worker is running, and the standing refusal. *)
Record InFlight := MkInFlight { inflight_op : string; inflight_step : string; inflight_since : Timestamp }.
Record Refusal := MkRefusal { refusal_reason : TreeRefusal; refusal_words : string; refusal_at : Timestamp }.

Module TreeStatus.
Record TreeStatus := Mk {
  path : string;
  base : option Base;
  found : option ParkOutcome;
  commit : option string;
  branch : option string;
  dirty : option bool;
  in_flight : option InFlight;
  parked : option ParkOutcome;
  refusal : option Refusal;
}.
End TreeStatus.
Abbreviation TreeStatus := TreeStatus.TreeStatus (only parsing).

Module LocalStatus.
Record LocalStatus := Mk {
  observed_at : Timestamp;
  owner : Owner;
  pending_inputs : N;
  tree : TreeStatus;
}.
End LocalStatus.
Abbreviation LocalStatus := LocalStatus.LocalStatus (only parsing).

(** [local] is what the machine that holds the run adds: the projection leaves it out. *)
Module RunStatus.
Record RunStatus := Mk {
  v : N;
  run : RunId;
  flow : FlowStatus;
  seq : Seq;
  finished : bool;
  outcome : option Outcome;
  state : StatusState;
  claim : ClaimStatus;
  steps : list StepStatus;
  waiting_for : option string;
  needs : option Needs;
  reason : option ReasonCode;
  next_action : option string;
  local : option LocalStatus;
}.
End RunStatus.
Abbreviation RunStatus := RunStatus.RunStatus (only parsing).

Definition MEMBER_STATES : list string :=
  ["pending"; "starting"; "running"; "quiet"; "nudged"; "stopping"; "replied"; "ended"].
Definition STEP_STATES : list string := ["open"; "done"].

(** ** The projection *)
Definition status_state (v : RunView) : StatusState :=
  match v with
  | RunView.Created => StatusState.Created
  | RunView.Queued behind => StatusState.Queued behind
  | RunView.Running _ => StatusState.Running
  | RunView.NeedsDecision _ => StatusState.NeedsDecision
  | RunView.Held _ until => StatusState.Held until
  | RunView.Parked _ => StatusState.Parked
  | RunView.Finishing _ => StatusState.Finishing
  | RunView.Finished _ => StatusState.Finished
  end.

Definition slot_word (st : SlotState) : string :=
  match st with
  | SlotState.Pending => "pending"
  | SlotState.Starting _ => "starting"
  | SlotState.Running _ _ => "running"
  | SlotState.Quiet _ _ => "quiet"
  | SlotState.Nudged _ _ => "nudged"
  | SlotState.Stopping _ _ => "stopping"
  | SlotState.Replied _ _ _ _ _ _ => "replied"
  | SlotState.Ended _ => "ended"
  end.

Definition slot_verdict (st : SlotState) : Verdict :=
  match st with
  | SlotState.Pending | SlotState.Starting _ | SlotState.Quiet _ _ => Verdict.Quiet
  | SlotState.Nudged _ _ => Verdict.Suspect
  | SlotState.Stopping _ _ => Verdict.Hung
  | SlotState.Running _ _ | SlotState.Replied _ _ _ _ _ _ | SlotState.Ended _ => Verdict.Working
  end.

Definition member_status (s : RunState) (r : SlotRecord) : MemberStatus := {|
  MemberStatus.handle := slot_member (SlotRecord.slot r);
  MemberStatus.session_key := state_session_key s (SlotRecord.slot r);
  MemberStatus.attempt := slot_attempt (SlotRecord.slot r);
  MemberStatus.state := slot_word (SlotRecord.state r);
  MemberStatus.liveness := MkSlotLiveness (SlotRecord.last_fact r) (slot_verdict (SlotRecord.state r));
  MemberStatus.pids := SlotRecord.pids r;
  MemberStatus.refused := SlotRecord.refused r;
|}.

Definition in_visit (id : StepId) (visit : N) (r : SlotRecord) : bool :=
  bool_decide (slot_step (SlotRecord.slot r) = id) &&
  bool_decide (slot_visit (SlotRecord.slot r) = visit).

Definition step_status (s : RunState) (id : StepId) (visit : N) : StepStatus :=
  let members :=
    member_status s <$>
      filter (λ r, in_visit id visit r && negb (is_superseded s r) = true) (RunState.slots s) in
  let finished :=
    find_first (λ f, bool_decide (fs_step f = id) && bool_decide (fs_visit f = visit))
      (reverse (RunState.finished_steps s)) in
  {| StepStatus.id := id;
     StepStatus.visit := visit;
     StepStatus.pass := pass_of s id;
     StepStatus.state := match finished with Some _ => "done" | None => "open" end;
     StepStatus.outcome := fs_outcome <$> finished;
     StepStatus.started :=
       SlotRecord.created_at <$> find_first (in_visit id visit) (RunState.slots s);
     StepStatus.ended := fs_at <$> finished;
     StepStatus.members := members |}.

Definition step_statuses (s : RunState) : list StepStatus :=
  omap (λ d, let id := StepDef.id d in step_status s id <$> RunState.visits s !! id)
    (FlowDef.steps (RunState.def s)).

Definition waiting_for (s : RunState) (v : RunView) : option string :=
  match v with
  | RunView.Finished _ => None
  | RunView.NeedsDecision _ => Some ("a decision of " +:+ RunState.requester s)
  | RunView.Held _ _ => Some ("the retry, or a resume by " +:+ RunState.requester s)
  | RunView.Parked _ => Some ("a resume by " +:+ RunState.requester s)
  | RunView.Queued behind => (λ holder, "the holder " +:+ holder) <$> behind
  | RunView.Finishing _ =>
      match RunState.phase s with
      | Phase.Finishing _ _ ParkPhase.Unparked => if any_live s then None else Some "the park"
      | _ => None
      end
  | RunView.Created | RunView.Running _ =>
      (λ r, "the reply of " +:+ slot_member (SlotRecord.slot r)) <$>
        find_first (λ r, negb (is_replied (SlotRecord.state r) || is_ended (SlotRecord.state r)))
          (reverse (RunState.slots s))
  end.

Definition needs (s : RunState) (v : RunView) : option Needs :=
  match v with
  | RunView.NeedsDecision _ =>
      first ← head (open_questions s);
      let message :=
        match Question.asked first with
        | Asked.Escalation _ message => message
        | Asked.Ceiling _ _ last_verdict => last_verdict
        end in
      Some (MkNeeds NeedsKind.Decision (Some (Question.id first)) (Some message)
              (Question.since first))
  | RunView.Parked _ => MkNeeds NeedsKind.Person None None <$> parked_since s
  | _ => None
  end.

Definition status_reason (s : RunState) (v : RunView) : option ReasonCode :=
  match v with
  | RunView.Held reason _ | RunView.Parked reason => Some reason
  | RunView.NeedsDecision _ =>
      find_map (λ q, match Question.asked q with
                     | Asked.Ceiling _ _ _ => Some ReasonCode.Ceiling
                     | Asked.Escalation _ _ => None
                     end) (open_questions s)
  | RunView.Finished _ | RunView.Finishing _ =>
      match RunState.phase s with
      | Phase.Finishing _ reason _ | Phase.Finished _ reason =>
          let stuck :=
            find_map (λ r, match SlotRecord.condition r with
                           | Some (SlotCondition.Parked reason _ _) => Some reason
                           | _ => None
                           end) (RunState.slots s) in
          match stuck with Some r => Some r | None => reason end
      | _ => None
      end
  | _ => None
  end.

Definition next_action (s : RunState) (v : RunView) : option string :=
  let root := default "<root>" (RunState.root_thread s) in
  match v with
  | RunView.NeedsDecision _ =>
      Some ("nxc reply --thread " +:+ root +:+ " - answers; nxc withdraw --thread " +:+ root +:+
            " ends the run")
  | RunView.Held _ _ | RunView.Parked _ =>
      Some ("nxc resume --thread " +:+ root +:+ " resumes; nxc withdraw --thread " +:+ root +:+
            " ends the run")
  | _ => None
  end.

(** Run status as of [state.seq]. *)
Definition status (s : RunState) : RunStatus :=
  let v := view s in {|
    RunStatus.v := CONTRACT_V;
    RunStatus.run := RunState.run s;
    RunStatus.flow := MkFlowStatus (FlowDef.name (RunState.def s)) (RunState.flow_hash s);
    RunStatus.seq := RunState.seq s;
    RunStatus.finished := is_finished s;
    RunStatus.outcome := match v with RunView.Finished o => Some o | _ => None end;
    RunStatus.state := status_state v;
    RunStatus.claim := MkClaimStatus (RunState.workspace s)
      (bool_decide (is_Some (RunState.claim_since s)) && negb (is_finished s))
      (RunState.claim_since s);
    RunStatus.steps := step_statuses s;
    RunStatus.waiting_for := waiting_for s v;
    RunStatus.needs := needs s v;
    RunStatus.reason := status_reason s v;
    RunStatus.next_action := next_action s v;
    RunStatus.local := None;
  |}.
