(* ===== verification/Host.v ===== *)
(** * The host's fold

    The part of [crates/run-host/src/fold.rs] that is a function of a run's state and one input: the
    true origin of an input, the events one input appends ([reduce]), the replay of a log
    ([fold_events]) and the synthetic park of a poisoned row. What the store, the cache and the clock add
    around it is not here. *)

From S2P Require Import Prelude Text Ids Codes Events Flow State Effects Guard Input Evolve Decide.
From stdpp Require Import options.

(** Where an input really came from, whatever its row says. *)
Definition true_origin (body : EventBody) : Origin :=
  match body with
  | EventBody.Commissioned _ _ _ _ _ _ _ | EventBody.Reply _ _ _ _ | EventBody.Answer _ _ _
  | EventBody.Resume _ | EventBody.ResumeRun | EventBody.Withdrawn _ _ => Origin.Cli
  | EventBody.SessionFact _ _ => Origin.Adapter
  | EventBody.TimerFired _ _ => Origin.Timer
  | _ => Origin.Host
  end.

(** The fold of a log with what stopped it. A panic has no counterpart here: every function of the
    model is total. *)
Module Folded.
Inductive Folded :=
| Whole (s : RunState)
| NewerNxs (s : RunState).
End Folded.
Abbreviation Folded := Folded.Folded (only parsing).

Fixpoint fold_from (s : RunState) (events : list Event) : Folded :=
  match events with
  | [] => Folded.Whole s
  | e :: events =>
      match evolve s e with
      | Ok next => fold_from next events
      | Err _ => Folded.NewerNxs s
      end
  end.

Definition fold_events (run : RunId) (def : FlowDef) (events : list Event) : Folded :=
  fold_from (initial run def) events.

(** The input as it is logged. *)
Definition logged_input (s : RunState) (input : Event) : Event :=
  input <| Event.seq := u64_succ (RunState.seq s) |>
        <| Event.origin := true_origin (Event.body input) |>.

(** The events of the decisions, numbered on from the input. *)
Definition decision_event (s : RunState) (logged : Event) (index : nat) (d : Decision) : Event :=
  Event_new (RunState.run s) (u64_wrap (Event.seq logged + 1 + N.of_nat index)) (Event.at_ logged)
    (decision_key (Event.key logged) (N.of_nat index) d) Origin.Reducer (EventBody.Decision d).

Definition reduce_events (s : RunState) (input : Event) : list Event :=
  let logged := logged_input s input in
  logged :: imap (decision_event s logged) (decide s logged (RunState.def s)).

(** [decide], then [evolve] over the input and each decision; [None] is a fold that could not read what
    the reducer wrote. *)
Definition reduce (s : RunState) (input : Event) : option (list Event * RunState) :=
  let events := reduce_events s input in
  match fold_from s events with
  | Folded.Whole next => Some (events, next)
  | Folded.NewerNxs _ => None
  end.

Definition is_decision (body : EventBody) : bool :=
  match body with EventBody.Decision _ => true | _ => false end.

(** The event that consumes a poisoned row. *)
Definition poison_event (s : RunState) (at_ : Timestamp) (key : Key) : Event :=
  Event_new (RunState.run s) (u64_succ (RunState.seq s)) at_
    ("poison/" +:+ RunState.run s +:+ "/" +:+ key) Origin.Host
    (EventBody.Decision (Decision.Parked None ReasonCode.PoisonInput)).

(** [decide] answered the input with one [ignored]. *)
Definition is_ignored (events : list Event) : bool :=
  match Event.body <$> events !! 1%nat with
  | Some (EventBody.Decision (Decision.Ignored _ _)) => true
  | _ => false
  end.

(** ** Runs

    One step of a run as the host takes it: an input of the inbox that is no decision is reduced, or a
    poisoned row is consumed. *)
Inductive step (s : RunState) : list Event → RunState → Prop :=
| step_input input events next :
    is_decision (Event.body input) = false →
    reduce s input = Some (events, next) →
    step s events next
| step_poison at_ key next :
    evolve s (poison_event s at_ key) = Ok next →
    step s [poison_event s at_ key] next.

(** The first event of every run is its commission, and only this one creates a run: a log that starts
    with anything else has no definition to fold it with. *)
Definition commissions (events : list Event) : bool :=
  match Event.body <$> head events with
  | Some (EventBody.Commissioned _ _ _ _ _ _ _) => true
  | _ => false
  end.

(** A run with its log, from the commission on. *)
Inductive run_of (run : RunId) (def : FlowDef) : list Event → RunState → Prop :=
| run_initial : run_of run def [] (initial run def)
| run_step log s events next :
    run_of run def log s → step s events next → (log = [] → commissions events = true) →
    run_of run def (log ++ events) next.

Definition reachable (run : RunId) (def : FlowDef) (s : RunState) : Prop :=
  ∃ log, run_of run def log s.
