(* ===== verification/Examples.v ===== *)
(** * A concrete run

    A flow with one persona and a reviewing fan-out behind a back edge, and the inputs that take a run
    of it through its phases. The witnesses of the properties are taken from here. *)

From S2P Require Import Prelude Text Ids Codes Events Flow State Effects Guard Input Evolve Decide Host.
From stdpp Require Import options.

Definition review_decl : ChannelDecl := {|
  ChannelDecl.name := "review";
  ChannelDecl.members := ["reader"; "tester"];
  ChannelDecl.steps := [];
  ChannelDecl.expects := Expects.All;
  ChannelDecl.on_complete := OnComplete.Summarize;
  ChannelDecl.summary_prompt := Some "one verdict";
  ChannelDecl.summary_model := None;
  ChannelDecl.working_tree := DeclaredTree.Shared;
  ChannelDecl.timeout := Some "1h";
|}.

Definition build_decl : StepDecl := {|
  StepDecl.id := "build";
  StepDecl.target := "coder";
  StepDecl.next := Some "check";
  StepDecl.on_needs_rework := None;
  StepDecl.max_passes := None;
  StepDecl.input := None;
  StepDecl.resume := true;
  StepDecl.task := Some "do it";
  StepDecl.stage := None;
  StepDecl.timeout := None;
|}.

Definition check_decl : StepDecl := {|
  StepDecl.id := "check";
  StepDecl.target := "review";
  StepDecl.next := None;
  StepDecl.on_needs_rework := Some "build";
  StepDecl.max_passes := Some 1;
  StepDecl.input := None;
  StepDecl.resume := false;
  StepDecl.task := None;
  StepDecl.stage := None;
  StepDecl.timeout := None;
|}.

Definition flow_decl : ChannelDecl := {|
  ChannelDecl.name := "delivery";
  ChannelDecl.members := [];
  ChannelDecl.steps := [build_decl; check_decl];
  ChannelDecl.expects := Expects.All;
  ChannelDecl.on_complete := OnComplete.PassThrough;
  ChannelDecl.summary_prompt := None;
  ChannelDecl.summary_model := None;
  ChannelDecl.working_tree := DeclaredTree.Exclusive;
  ChannelDecl.timeout := None;
|}.

(** The compiled flow, as the compiler returns it. *)
Definition sample_def : FlowDef :=
  match compile flow_decl review_decl with
  | Ok d => d
  | Err _ => FlowDef.Mk "" [] Exclusive []
  end.

Definition sample_run : RunId := "r-01ARZ3NDEKTSV4RRFFQ69G5FAV".

Definition input_at (at_ : Z) (key : Key) (body : EventBody) : Event :=
  Event_new sample_run 0 at_ key Origin.Cli body.

Definition commissioned_input : Event :=
  input_at 1000 "c" (EventBody.Commissioned sample_run "ws" "local" (MkFlowRef "sha256:00")
    LivenessPolicy_default "m-root" "owner").

(** Inputs folded one after the other; a refused fold stops where it was. *)
Definition walk (s : RunState) (inputs : list Event) : RunState :=
  foldl (λ s input, match reduce s input with Some (_, next) => next | None => s end) s inputs.

(** The log of a walk. *)
Fixpoint walk_log (s : RunState) (inputs : list Event) : list Event :=
  match inputs with
  | [] => []
  | input :: inputs =>
      match reduce s input with
      | Some (events, next) => events ++ walk_log next inputs
      | None => walk_log s inputs
      end
  end.

Definition key_of (step : StepId) (visit : N) (member : Handle) (attempt : N) : SessionKey :=
  session_key (MkSlot step visit member attempt) sample_run.

Definition coder_key : SessionKey := key_of "build" 1 "coder" 1.

Definition started_input (at_ : Z) (key : SessionKey) : Event :=
  input_at at_ ("s/" +:+ key) (EventBody.SessionFact key (SessionFact.Started "b-1" None)).
Definition ended_input (at_ : Z) (key : SessionKey) (cause : EndCause) : Event :=
  input_at at_ ("e/" +:+ key) (EventBody.SessionFact key (SessionFact.Ended cause)).
Definition reply_input (at_ : Z) (key : SessionKey) (escalate needs_rework : bool) : Event :=
  input_at at_ ("input/" +:+ key) (EventBody.Reply key ("m-" +:+ key) escalate needs_rework).

(** The tree prepared and the coder's session running. *)
Definition opening : list Event :=
  [commissioned_input;
   input_at 2000 "o" (EventBody.RootOpened "m-root" "m-root");
   input_at 3000 "t" EventBody.ClaimTaken;
   input_at 4000 "p" (EventBody.TreePrepared (MkBase "main" "abc") None);
   started_input 5000 coder_key].

Definition running_state : RunState := walk (initial sample_run sample_def) opening.

(** The coder has replied and its process is gone: the reviewers are started. *)
Definition reviewing_state : RunState :=
  walk running_state [reply_input 6000 coder_key false false;
                      ended_input 7000 coder_key EndCause.TurnComplete].

Definition withdrawn_input (at_ : Z) : Event :=
  input_at at_ "w" (EventBody.Withdrawn None WithdrawnBy.Requester).
Definition signalled_input (at_ : Z) (key : SessionKey) (nth : N) (kind : StopKind) : Event :=
  input_at at_ ("stop/" +:+ key +:+ pretty nth) (EventBody.StopSignalled key nth kind).
Definition fired_input (at_ : Z) (timer : string) (fire_at : Z) : Event :=
  input_at at_ ("timer/" +:+ timer) (EventBody.TimerFired timer fire_at).

(** The requester withdrew, the coder was asked to stop, and its first grace ran out. *)
Definition killing_inputs : list Event :=
  [withdrawn_input 6000;
   signalled_input 7000 coder_key 1 StopKind.Term;
   fired_input 307000 (grace_timer 1 (MkSlot "build" 1 "coder" 1)) 307000].
Definition killing_state : RunState := walk running_state killing_inputs.

(** Withdrawn, stopped, parked, delivered and released. *)
Definition finishing_inputs : list Event :=
  [withdrawn_input 6000;
   ended_input 7000 coder_key EndCause.StoppedByHost;
   input_at 8000 "tp" (EventBody.TreeParked (ParkOutcome.Clean None));
   input_at 9000 (delivered_key ("result/" +:+ sample_run)) (EventBody.Delivered "m-out");
   input_at 10000 "rel" EventBody.ClaimReleased].
Definition finished_state : RunState := walk running_state finishing_inputs.

(** The coder's session ended without a reply: the seat's second attempt. *)
Definition restarted_inputs : list Event := [ended_input 6000 coder_key EndCause.TurnComplete].
Definition restarted_state : RunState := walk running_state restarted_inputs.

Example restarted_restarts :
  SlotRecord.restarts <$> RunState.slots restarted_state !! 1%nat = Some 1.
Proof. vm_compute. reflexivity. Qed.

(** The coder asked its requester back. *)
Definition asking_inputs : list Event := [reply_input 6000 coder_key true false].
Definition asking_state : RunState := walk running_state asking_inputs.

(** A session from its start to its end, with one reply. *)
Definition session_inputs (at_ : Z) (key : SessionKey) (needs_rework : bool) : list Event :=
  [started_input at_ key; reply_input (at_ + 1) key false needs_rework;
   ended_input (at_ + 2) key EndCause.TurnComplete].

(** The reviewers and their consolidator on one visit; both reviewers ask for rework. *)
Definition review_inputs (at_ : Z) (visit : N) : list Event :=
  session_inputs at_ (key_of "check" visit "reader" 1) true ++
  session_inputs (at_ + 10) (key_of "check" visit "tester" 1) true ++
  session_inputs (at_ + 20) (key_of "check" visit SYNTH 1) false.

(** Two visits of each step: the back edge was pulled once and the ceiling is reached. *)
Definition ceiling_inputs : list Event :=
  [reply_input 6000 coder_key false false; ended_input 7000 coder_key EndCause.TurnComplete] ++
  review_inputs 8000 1 ++ session_inputs 9000 (key_of "build" 2 "coder" 1) false ++
  review_inputs 10000 2.
Definition ceiling_state : RunState := walk running_state ceiling_inputs.

(** The requester lets the run go one pass further. *)
Definition continued_inputs : list Event :=
  ceiling_inputs ++
  [input_at 11000 "ans" (EventBody.Answer (ceiling_key sample_run "check" 2 2) Disposition.Continue
     "m-go")].
Definition continued_state : RunState := walk running_state continued_inputs.

Example ceiling_questions :
  (λ q, (Question.id q, Question.answered q)) <$> RunState.questions ceiling_state =
    [(ceiling_key sample_run "check" 2 2, false)].
Proof. vm_compute. reflexivity. Qed.

Example continued_passes : RunState.passes continued_state !! "check" = Some 2.
Proof. vm_compute. reflexivity. Qed.

Example compile_sample : compile flow_decl review_decl = Ok sample_def.
Proof. vm_compute. reflexivity. Qed.

Example running_view : view running_state = RunView.Running Prepared.
Proof. vm_compute. reflexivity. Qed.

Example running_slots :
  (λ r, (SlotRecord.slot r, SlotRecord.state r)) <$> RunState.slots running_state =
  [(MkSlot "build" 1 "coder" 1, SlotState.Running "b-1" None)].
Proof. vm_compute. reflexivity. Qed.

Example reviewing_slots :
  (λ r, (SlotRecord.slot r, SlotRecord.state r)) <$> RunState.slots reviewing_state =
  [(MkSlot "build" 1 "coder" 1,
    SlotState.Replied ("m-" +:+ coder_key) false false ProcessEnded false None);
   (MkSlot "check" 1 "reader" 1, SlotState.Starting 186000);
   (MkSlot "check" 1 "tester" 1, SlotState.Starting 186000)].
Proof. vm_compute. reflexivity. Qed.

(** A walk of inputs that are no decisions stays within the run. *)
Lemma walk_run run def s inputs log :
  run_of run def log s → log ≠ [] →
  forallb (λ i, negb (is_decision (Event.body i))) inputs = true →
  run_of run def (log ++ walk_log s inputs) (walk s inputs).
Proof.
  intros Hrun Hlog. revert s log Hrun Hlog.
  induction inputs as [|i inputs IH]; intros s log Hrun Hlog Hd; simpl.
  { by rewrite app_nil_r. }
  apply andb_true_iff in Hd as [Hi%negb_true_iff Hd].
  destruct (reduce s i) as [[events next]|] eqn:E; [|by apply IH].
  rewrite app_assoc. apply (IH next); [|by destruct log|done].
  eapply run_step; [done|by eapply step_input|done].
Qed.

(** The log of a walk from the commission on. *)
Definition opening_log (inputs : list Event) : list Event :=
  walk_log (initial sample_run sample_def) (commissioned_input :: inputs).

Lemma opening_run inputs :
  forallb (λ i, negb (is_decision (Event.body i))) inputs = true →
  run_of sample_run sample_def (opening_log inputs)
    (walk (initial sample_run sample_def) (commissioned_input :: inputs)).
Proof.
  intros Hd. unfold opening_log, walk. cbn [foldl walk_log].
  destruct (reduce (initial sample_run sample_def) commissioned_input) as [[events next]|] eqn:E;
    [|by vm_compute in E].
  assert (Hev : commissions events = true ∧ events ≠ [])
    by (vm_compute in E; injection E as <- _; done).
  apply (walk_run sample_run sample_def next inputs events); [|naive_solver|done].
  apply (run_step _ _ [] (initial sample_run sample_def)); [constructor| |naive_solver].
  by apply (step_input _ commissioned_input).
Qed.

Lemma opening_reachable inputs :
  forallb (λ i, negb (is_decision (Event.body i))) inputs = true →
  reachable sample_run sample_def (walk (initial sample_run sample_def) (commissioned_input :: inputs)).
Proof. intros Hd. eexists. by apply opening_run. Qed.

Lemma walk_app s l1 l2 : walk s (l1 ++ l2) = walk (walk s l1) l2.
Proof. apply foldl_app. Qed.

Lemma running_reachable : reachable sample_run sample_def running_state.
Proof. apply (opening_reachable (tail opening)). reflexivity. Qed.

Lemma running_walk_run inputs :
  forallb (λ i, negb (is_decision (Event.body i))) inputs = true →
  run_of sample_run sample_def (opening_log (tail opening ++ inputs)) (walk running_state inputs).
Proof.
  intros Hd. unfold running_state. rewrite <-walk_app.
  apply (opening_run (tail opening ++ inputs)). by rewrite forallb_app.
Qed.

Lemma running_walk_reachable inputs :
  forallb (λ i, negb (is_decision (Event.body i))) inputs = true →
  reachable sample_run sample_def (walk running_state inputs).
Proof. intros Hd. eexists. by apply running_walk_run. Qed.

Lemma reviewing_reachable : reachable sample_run sample_def reviewing_state.
Proof. apply running_walk_reachable. reflexivity. Qed.

Lemma killing_reachable : reachable sample_run sample_def killing_state.
Proof. apply running_walk_reachable. reflexivity. Qed.

Example killing_effects :
  pending_effects killing_state = [Effect.StopSession coder_key StopKind.Kill 2].
Proof. vm_compute. reflexivity. Qed.

Lemma finished_reachable : reachable sample_run sample_def finished_state.
Proof. apply running_walk_reachable. reflexivity. Qed.

Example finished_phase :
  RunState.phase finished_state =
    Phase.Finished Outcome.Withdrawn (Some ReasonCode.WithdrawnByRequester).
Proof. vm_compute. reflexivity. Qed.
