(* ===== verification/FlowFacts.v ===== *)
(** * What the flow compiler guarantees

    A compiled flow is well formed, the compiler refuses nothing else, and its bounded walk along [next]
    is a complete test for cycles. *)

From S2P Require Import Prelude Text Ids Codes Events Flow Examples.
From stdpp Require Import options.

(** ** Specification *)

(** An id the rest of the engine may build keys from. *)
Definition id_ok (id : string) : Prop :=
  id ≠ EmptyString ∧ all_chars id_char id = true ∧ starts_with "__" id = false.

(** From this step the chain of [next] comes to an end. *)
Inductive chain_ends (steps : list StepDef) : StepDef → Prop :=
| chain_end s : next_of steps s = None → chain_ends steps s
| chain_next s t : next_of steps s = Some t → chain_ends steps t → chain_ends steps s.

Record step_ok (steps : list StepDef) (s : StepDef) : Prop := {
  step_id_ok : id_ok (StepDef.id s);
  step_members_some : members_of s ≠ [];
  step_members_ok : Forall id_ok (members_of s);
  step_members_distinct : NoDup (members_of s);
  step_fan_out_synthesis : is_fan_out s = has_synthesis s;
  step_max_passes : StepDef.max_passes s ≠ 0;
  step_references : Forall (λ name, name ∈ (StepDef.id <$> steps)) (references s);
  step_chain_ends : chain_ends steps s;
}.

Record flow_ok (d : FlowDef) : Prop := {
  flow_steps_some : FlowDef.steps d ≠ [];
  flow_ids_distinct : NoDup (StepDef.id <$> FlowDef.steps d);
  flow_steps_ok : Forall (step_ok (FlowDef.steps d)) (FlowDef.steps d);
}.

(** ** The small checks *)
Lemma check_id_Ok id : check_id id = Ok () ↔ id_ok id.
Proof.
  unfold check_id, id_ok. rewrite bool_decide_decide. case_decide; simpl; [naive_solver|].
  destruct (all_chars id_char id), (starts_with "__" id); simpl; naive_solver.
Qed.

Lemma check_all_Ok {A} (f : A → result CompileRefusal ()) l :
  check_all f l = Ok () ↔ Forall (λ x, f x = Ok ()) l.
Proof.
  induction l as [|x l IH]; simpl; [done|].
  rewrite Forall_cons, <-IH. destruct (f x) as [[]|]; naive_solver.
Qed.

Lemma first_duplicate_go_None seen ids :
  first_duplicate_go seen ids = None ↔ NoDup ids ∧ ∀ id, id ∈ ids → id ∉ seen.
Proof.
  revert seen; induction ids as [|id ids IH]; intros seen; simpl.
  - split; [|done]. intros _. split; [constructor|set_solver].
  - rewrite NoDup_cons. case_decide; [set_solver|]. rewrite IH. set_solver.
Qed.

Lemma first_duplicate_None ids : first_duplicate ids = None ↔ NoDup ids.
Proof. unfold first_duplicate. rewrite first_duplicate_go_None. set_solver. Qed.

Lemma check_reference_Ok steps name :
  check_reference steps name = Ok () ↔ name ∈ (StepDef.id <$> steps).
Proof.
  unfold check_reference. rewrite list_elem_of_fmap.
  destruct (existsb _ _) eqn:E.
  - apply existsb_exists in E as (s & ?%list_elem_of_In & ?%bool_decide_eq_true).
    split; [|done]. eauto.
  - split; [done|]. intros (s & -> & Hs%list_elem_of_In).
    assert (existsb (λ t, bool_decide (StepDef.id t = StepDef.id s)) steps = true); [|congruence].
    apply existsb_exists. exists s. by rewrite bool_decide_eq_true_2.
Qed.

Lemma check_references_Ok steps :
  check_references steps = Ok () ↔
  Forall (λ s, Forall (λ name, name ∈ (StepDef.id <$> steps)) (references s)) steps.
Proof.
  unfold check_references. rewrite check_all_Ok.
  apply Forall_iff. intros s. rewrite check_all_Ok. apply Forall_iff. apply check_reference_Ok.
Qed.

(** ** The walk along [next] *)

Lemma next_of_elem steps s t : next_of steps s = Some t → t ∈ steps.
Proof.
  unfold next_of, find_step. destruct (StepDef.next s); simpl; [|done].
  intros [? _]%find_first_Some. done.
Qed.

(** Where the walk stopped before its bound, the chain ends. *)
Lemma follow_ends steps n s :
  next_of steps (follow steps n s) = None → chain_ends steps s.
Proof.
  revert s; induction n as [|n IH]; intros s; simpl; [by constructor|].
  destruct (next_of steps s) as [t|] eqn:E; intros; [|by constructor].
  eapply chain_next; eauto.
Qed.

(** The steps a chain that ends goes through. *)
Inductive chain (steps : list StepDef) : StepDef → list StepDef → Prop :=
| chain_nil s : next_of steps s = None → chain steps s []
| chain_cons s t path :
    next_of steps s = Some t → chain steps t path → chain steps s (t :: path).

Lemma chain_ends_chain steps s : chain_ends steps s → ∃ path, chain steps s path.
Proof. induction 1 as [|?? ? _ [path ?]]; eauto using chain. Qed.

Lemma chain_length_unique steps s p q : chain steps s p → chain steps s q → p = q.
Proof.
  intros Hp; revert q; induction Hp as [s Hs|s t path Hs Hp IH]; intros q Hq;
    inversion Hq; subst; try congruence.
  replace t0 with t in * by congruence. f_equal. auto.
Qed.

(** A step of the path is the start of a shorter chain. *)
Lemma chain_suffix steps s path t :
  chain steps s path → t ∈ path → ∃ q, chain steps t q ∧ (length q < length path)%nat.
Proof.
  induction 1 as [s Hs|s u path Hs Hp IH]; [by intros ?%elem_of_nil|].
  intros [->|Ht]%elem_of_cons; [exists path; simpl; split; [done|lia]|].
  destruct (IH Ht) as (q & ? & ?). exists q. simpl. split; [done|lia].
Qed.

(** So a chain that ends meets no step twice. *)
Lemma chain_NoDup steps s path : chain steps s path → NoDup (s :: path).
Proof.
  induction 1 as [s Hs|s t path Hs Hp IH]; [apply NoDup_singleton|].
  constructor; [|done]. intros Hin.
  assert (Hc : chain steps s (t :: path)) by by econstructor.
  destruct (chain_suffix _ _ _ _ Hc Hin) as (q & Hq & Hlt).
  rewrite (chain_length_unique _ _ _ _ Hc Hq) in Hlt. lia.
Qed.

Lemma chain_elem steps s path : chain steps s path → Forall (λ t, t ∈ steps) path.
Proof. induction 1; constructor; eauto using next_of_elem. Qed.

Lemma follow_chain steps s path n :
  chain steps s path → (length path ≤ n)%nat → next_of steps (follow steps n s) = None.
Proof.
  intros Hp; revert n; induction Hp as [s Hs|s t path Hs Hp IH]; intros n Hn; simpl in *.
  - destruct n; simpl; by rewrite ?Hs.
  - destruct n as [|n]; [lia|]. simpl. rewrite Hs. apply IH. lia.
Qed.

(** The walk of as many hops as there are steps decides whether the chain ends. *)
Lemma follow_complete steps s :
  s ∈ steps → chain_ends steps s ↔ next_of steps (follow steps (length steps) s) = None.
Proof.
  intros Hs. split; [|apply follow_ends].
  intros [path Hp]%chain_ends_chain. apply (follow_chain _ _ path); [done|].
  assert (length (s :: path) ≤ length steps)%nat; [|simpl in *; lia].
  apply submseteq_length, NoDup_submseteq; [by eapply chain_NoDup|].
  intros t [->|Ht]%elem_of_cons; [done|].
  pose proof (chain_elem _ _ _ Hp) as He. rewrite Forall_forall in He. auto.
Qed.

Lemma check_next_chains_Ok steps :
  check_next_chains steps = Ok () ↔ Forall (chain_ends steps) steps.
Proof.
  unfold check_next_chains. rewrite check_all_Ok, !Forall_forall.
  split; intros H s Hs; specialize (H s Hs).
  - apply follow_complete; [done|]. by destruct (next_of _ _).
  - apply follow_complete in H; [|done]. by rewrite H.
Qed.

(** ** What a declaration has to satisfy *)
Record review_ok (review : ChannelDecl) : Prop := {
  review_expects : ChannelDecl.expects review = Expects.All;
  review_summarizes : ChannelDecl.on_complete review = OnComplete.Summarize;
  review_prompt : is_Some (ChannelDecl.summary_prompt review);
  review_members : ChannelDecl.members review ≠ [];
  review_member_ids : Forall id_ok (ChannelDecl.members review);
  review_distinct : NoDup (ChannelDecl.members review);
}.

Definition fans_out (review : ChannelDecl) (d : StepDecl) : bool :=
  bool_decide (StepDecl.target d = ChannelDecl.name review).

Record declared_ok (review : ChannelDecl) (d : StepDecl) : Prop := {
  declared_id : id_ok (StepDecl.id d);
  declared_passes : StepDecl.max_passes d ≠ Some 0;
  declared_target :
    if fans_out review d then review_ok review else id_ok (StepDecl.target d);
}.

(** The step a declaration that satisfies this stands for. *)
Definition elaborate (flow review : ChannelDecl) (d : StepDecl) : StepDef := {|
  StepDef.id := StepDecl.id d;
  StepDef.kind :=
    if fans_out review d
    then StepKind.FanOut (ChannelDecl.members review) ExpectsAll
           (Some (MkSynthesis (ChannelDecl.summary_model review)
                    (default "" (ChannelDecl.summary_prompt review))))
    else StepKind.Single (StepDecl.target d);
  StepDef.next := StepDecl.next d;
  StepDef.on_needs_rework := StepDecl.on_needs_rework d;
  StepDef.max_passes := default 1 (StepDecl.max_passes d);
  StepDef.input := StepDecl.input d;
  StepDef.resume := StepDecl.resume d;
  StepDef.task := StepDecl.task d;
  StepDef.stage := StepDecl.stage d;
  StepDef.channel := ChannelDecl.name (if fans_out review d then review else flow);
  StepDef.opener := SUPERVISOR;
|}.

Definition elaborated (flow review : ChannelDecl) : list StepDef :=
  elaborate flow review <$> ChannelDecl.steps flow.

Record accepted (flow review : ChannelDecl) : Prop := {
  accepted_tree : ChannelDecl.working_tree flow = DeclaredTree.Exclusive;
  accepted_steps : ChannelDecl.steps flow ≠ [];
  accepted_declared : Forall (declared_ok review) (ChannelDecl.steps flow);
  accepted_distinct : NoDup (StepDecl.id <$> ChannelDecl.steps flow);
  accepted_references :
    Forall (λ s, Forall (λ name, name ∈ (StepDecl.id <$> ChannelDecl.steps flow)) (references s))
      (elaborated flow review);
  accepted_chains : Forall (chain_ends (elaborated flow review)) (elaborated flow review);
}.

Lemma elaborated_ids flow review :
  StepDef.id <$> elaborated flow review = StepDecl.id <$> ChannelDecl.steps flow.
Proof. unfold elaborated. by rewrite <-list_fmap_compose. Qed.

Lemma fan_out_Ok review kind :
  fan_out review = Ok kind ↔
  review_ok review ∧
  kind = StepKind.FanOut (ChannelDecl.members review) ExpectsAll
           (Some (MkSynthesis (ChannelDecl.summary_model review)
                    (default "" (ChannelDecl.summary_prompt review)))).
Proof.
  unfold fan_out. split.
  - intros H. destruct (ChannelDecl.summary_prompt review) as [prompt|] eqn:Ep;
      repeat case_bool_decide; simplify_eq.
    destruct (check_all check_id _) as [[]|] eqn:Ec; simplify_eq.
    destruct (first_duplicate _) eqn:Ed; simplify_eq.
    split; [|done]. split; [done|by destruct (ChannelDecl.on_complete review)|
      by rewrite Ep|done| |by apply first_duplicate_None].
    apply check_all_Ok in Ec. eapply Forall_impl; [done|]. intros x ?. by apply check_id_Ok.
  - intros [[He Hc [prompt Hp] Hm Hids Hd] ->].
    rewrite He, Hc, Hp. simpl. rewrite (bool_decide_eq_false_2 _ Hm).
    assert (check_all check_id (ChannelDecl.members review) = Ok ()) as ->.
    { apply check_all_Ok. eapply Forall_impl; [done|]. intros x ?. by apply check_id_Ok. }
    by apply first_duplicate_None in Hd as ->.
Qed.

Lemma compile_step_Ok flow review d s :
  compile_step flow review d (fans_out review d) = Ok s ↔
  declared_ok review d ∧ s = elaborate flow review d.
Proof.
  unfold compile_step, elaborate. split.
  - intros H. case_result. destruct a. apply check_id_Ok in Heqr. case_bool_decide; simplify_eq.
    destruct (fans_out review d) eqn:Ef.
    + destruct (fan_out review) as [kind|] eqn:Ek; simplify_eq.
      apply fan_out_Ok in Ek as [? ->]. split; [|done]. split; [done..|]. by rewrite Ef.
    + destruct (check_id (StepDecl.target d)) as [[]|] eqn:Ek; simplify_eq.
      apply check_id_Ok in Ek. split; [|done]. split; [done..|]. by rewrite Ef.
  - intros [[Hid Hp Ht] ->]. apply check_id_Ok in Hid as ->. rewrite bool_decide_eq_false_2 by done.
    destruct (fans_out review d) eqn:Ef.
    + destruct (fan_out review) as [kind|] eqn:Ek.
      * by apply fan_out_Ok in Ek as [_ ->].
      * exfalso. by rewrite (proj2 (fan_out_Ok review _) (conj Ht eq_refl)) in Ek.
    + by apply check_id_Ok in Ht as ->.
Qed.

Lemma compile_steps_Ok flow review declared ignored steps :
  (∃ ignored', compile_steps flow review declared ignored steps =
     Ok (ignored', steps ++ (elaborate flow review <$> declared))) ↔
  Forall (declared_ok review) declared.
Proof.
  revert ignored steps; induction declared as [|d declared IH]; intros ignored steps; simpl.
  - rewrite app_nil_r. naive_solver.
  - change (bool_decide _) with (fans_out review d). rewrite Forall_cons.
    destruct (compile_step flow review d (fans_out review d)) as [s|] eqn:E.
    + apply compile_step_Ok in E as [? ->].
      setoid_rewrite (app_assoc steps [elaborate flow review d] (elaborate flow review <$> declared)).
      rewrite IH. naive_solver.
    + split; [by intros [? ?]|]. intros [Hd _].
      by rewrite (proj2 (compile_step_Ok flow review d _) (conj Hd eq_refl)) in E.
Qed.

Lemma compile_steps_steps flow review declared ignored steps ignored' steps' :
  compile_steps flow review declared ignored steps = Ok (ignored', steps') →
  Forall (declared_ok review) declared ∧ steps' = steps ++ (elaborate flow review <$> declared).
Proof.
  revert ignored steps; induction declared as [|d declared IH]; intros ignored steps; simpl.
  - intros [= -> ->]. by rewrite app_nil_r.
  - change (bool_decide _) with (fans_out review d).
    destruct (compile_step flow review d (fans_out review d)) as [s|] eqn:E; [|done].
    apply compile_step_Ok in E as [? ->]. intros [? ->]%IH.
    split; [by constructor|]. by rewrite <-app_assoc.
Qed.

(** [compile] in terms of the specification: what it accepts, and the steps it returns. *)
Lemma compile_spec flow review d :
  compile flow review = Ok d → accepted flow review ∧ FlowDef.steps d = elaborated flow review.
Proof.
  unfold compile. intros H. repeat case_bool_decide; simplify_eq.
  destruct (compile_steps _ _ _ _ _) as [[ignored steps]|] eqn:E; simplify_eq/=.
  apply compile_steps_steps in E as [Hd Hs]. simpl in Hs. subst steps.
  change (elaborate flow review <$> ChannelDecl.steps flow) with (elaborated flow review) in H.
  rewrite elaborated_ids in H. destruct (first_duplicate _) eqn:Ed; simplify_eq.
  case_results. destruct a, a0. split; [|done].
  match goal with H : check_references _ = _ |- _ => apply check_references_Ok in H end.
  match goal with H : check_next_chains _ = _ |- _ => apply check_next_chains_Ok in H end.
  split; [done..| | |done].
  - by apply first_duplicate_None.
  - by rewrite <-(elaborated_ids flow review).
Qed.

Lemma compile_accepted flow review :
  accepted flow review → ∃ d, compile flow review = Ok d.
Proof.
  intros [Ht Hs Hd Hn Hr Hc]. unfold compile.
  rewrite Ht, (bool_decide_eq_false_2 _ Hs). simpl.
  destruct (proj2 (compile_steps_Ok flow review (ChannelDecl.steps flow)
    (note_timeout (ChannelDecl.name flow) (ChannelDecl.timeout flow)) []) Hd) as [ignored ->].
  simpl. change (elaborate flow review <$> ChannelDecl.steps flow) with (elaborated flow review).
  rewrite elaborated_ids. apply first_duplicate_None in Hn as ->.
  rewrite <-(elaborated_ids flow review) in Hr.
  apply check_references_Ok in Hr as ->. apply check_next_chains_Ok in Hc as ->. eauto.
Qed.

Lemma elaborate_ok flow review d :
  declared_ok review d →
  Forall (λ name, name ∈ (StepDef.id <$> elaborated flow review))
    (references (elaborate flow review d)) →
  chain_ends (elaborated flow review) (elaborate flow review d) →
  step_ok (elaborated flow review) (elaborate flow review d).
Proof.
  intros [Hid Hp Ht] Hr Hc. unfold elaborate, members_of, is_fan_out, has_synthesis in *.
  split; simpl; try done.
  all: destruct (fans_out review d) eqn:Ef; simpl; try done.
  all: try (by destruct Ht).
  - by apply Forall_singleton.
  - apply NoDup_singleton.
  - destruct (StepDecl.max_passes d) as [p|]; simpl; [|done]. congruence.
  - destruct (StepDecl.max_passes d) as [p|]; simpl; [|done]. congruence.
Qed.

Lemma compile_flow_ok flow review d : compile flow review = Ok d → flow_ok d.
Proof.
  intros [[_ Hs Hd Hn Hr Hc] Heq]%compile_spec. rewrite <-(elaborated_ids flow review) in Hr.
  split; rewrite Heq; [|by rewrite elaborated_ids|].
  - unfold elaborated. by destruct (ChannelDecl.steps flow).
  - apply Forall_forall. intros s Hin. pose proof Hin as (decl & -> & Hdecl)%list_elem_of_fmap.
    apply elaborate_ok; eapply Forall_forall in Hd, Hr, Hc; eauto.
Qed.

(** C30: a flow that compiles is well formed: it has a step, its ids can be told apart in a key and none
    occurs twice, every reference names a step of the flow, every step has members and none twice, a back
    edge has a ceiling, and every [next] chain ends. *)
Theorem compile_sound flow review d :
  compile flow review = Ok d → flow_ok d.
Proof. apply compile_flow_ok. Qed.

Lemma compile_sound_witness : flow_ok sample_def.
Proof. apply (compile_sound flow_decl review_decl sample_def). exact compile_sample. Defined.

(** The compiler accepts exactly the declarations that meet its stated conditions: nothing acceptable
    is refused, and whatever misses one condition is. *)
Lemma compile_accepts flow review :
  (∃ d, compile flow review = Ok d) ↔ accepted flow review.
Proof. split; [|apply compile_accepted]. intros [d [? _]%compile_spec]. done. Qed.
