(* ===== verification/Keys.v ===== *)
(** * Session keys and timer ids

    The engine names a slot in strings: the session key a fact or a reply comes in under, and the ids of
    the slot's timers. Reading them back gives the slot they were made from, so two slots never share
    one. *)

From S2P Require Import Prelude Text Ids Codes Events Flow State FlowFacts.
From stdpp Require Import options.
From Stdlib Require Import Ascii.

(** A slot whose parts can be told apart in a key, with its numbers in range. *)
Record slot_ok (slot : Slot) : Prop := {
  slot_step_ok : contains_char slash (slot_step slot) = false;
  slot_member_ok : contains_char slash (slot_member slot) = false;
  slot_visit_ok : slot_visit slot ≤ u32_max;
  slot_attempt_ok : slot_attempt slot ≤ u32_max;
}.

(** Ids the compiler accepts, and the consolidator's, hold no separator. *)
Lemma id_ok_no_slash id : id_ok id → contains_char slash id = false.
Proof.
  intros (_ & Hall & _). apply all_chars_contains. revert Hall.
  induction id as [|a id IH]; simpl; [done|]. intros [Ha Hid]%andb_true_iff.
  rewrite IH, andb_true_r by done. apply bool_decide_eq_true. by intros ->.
Qed.

Lemma SYNTH_no_slash : contains_char slash SYNTH = false.
Proof. reflexivity. Qed.

(** The suffix in the shape [rsplitn] takes apart. *)
Lemma slot_suffix_split p slot :
  p +:+ "/" +:+ slot_suffix slot =
  (((p +:+ String slash (slot_step slot))
     +:+ String slash ("v" +:+ pretty (slot_visit slot)))
     +:+ String slash (slot_member slot))
     +:+ String slash ("a" +:+ pretty (slot_attempt slot)).
Proof.
  unfold slot_suffix. rewrite <-!string_app_assoc. reflexivity.
Qed.

Lemma timer_slot_suffix p slot :
  slot_ok slot → timer_slot (p +:+ "/" +:+ slot_suffix slot) = Some slot.
Proof.
  intros [Hs Hm Hv Ha]. unfold timer_slot. rewrite slot_suffix_split.
  rewrite rsplitn_step by (rewrite contains_char_app, pretty_no_slash; reflexivity).
  rewrite rsplitn_step by done.
  rewrite rsplitn_step by (rewrite contains_char_app, pretty_no_slash; reflexivity).
  rewrite rsplitn_step by done. cbn [rsplitn].
  rewrite !strip_prefix_app. cbn. rewrite !parse_uint_pretty by done. cbn. by destruct slot.
Qed.

Lemma timer_slot_slot_timer p slot : slot_ok slot → timer_slot (slot_timer p slot) = Some slot.
Proof. apply timer_slot_suffix. Qed.

Lemma timer_slot_grace_timer n slot : slot_ok slot → timer_slot (grace_timer n slot) = Some slot.
Proof.
  intros Hok. unfold grace_timer.
  rewrite (string_app_assoc "stop_grace/"). by apply timer_slot_suffix.
Qed.

Lemma timer_slot_root : timer_slot ROOT_DEADLINE_TIMER = None.
Proof. reflexivity. Qed.
Lemma timer_slot_tree : timer_slot TREE_WINDOW_TIMER = None.
Proof. reflexivity. Qed.

Lemma grace_nth_grace_timer n slot : n ≤ u8_max → grace_nth (grace_timer n slot) = Some n.
Proof.
  intros Hn. unfold grace_nth, grace_timer. rewrite strip_prefix_app. cbn.
  change ("/" +:+ slot_suffix slot) with (String slash (slot_suffix slot)).
  rewrite before_first_app by apply pretty_no_slash. by apply parse_uint_pretty.
Qed.

Lemma slot_suffix_inj a b : slot_ok a → slot_ok b → slot_suffix a = slot_suffix b → a = b.
Proof.
  intros Ha Hb Heq.
  pose proof (timer_slot_suffix "" a Ha) as Hsa. rewrite Heq, timer_slot_suffix in Hsa by done.
  by simplify_eq.
Qed.

Lemma session_key_suffix slot run : session_key slot run = run +:+ "/" +:+ slot_suffix slot.
Proof. reflexivity. Qed.

Lemma session_key_inj run a b :
  slot_ok a → slot_ok b → session_key a run = session_key b run → a = b.
Proof.
  intros Ha Hb. rewrite !session_key_suffix. intros Heq.
  apply (inj (String.app run)), (inj (String.app "/")) in Heq. by apply slot_suffix_inj.
Qed.

(** A timer id that ends in a slot's suffix is a timer of that slot. *)
Lemma ends_with_slot_suffix timer slot :
  slot_ok slot → ends_with ("/" +:+ slot_suffix slot) timer = true → timer_slot timer = Some slot.
Proof. intros Hok [p ->]%ends_with_inv. by apply timer_slot_suffix. Qed.

Lemma ends_with_slot_timer p slot : ends_with ("/" +:+ slot_suffix slot) (slot_timer p slot) = true.
Proof. apply ends_with_app. Qed.

Lemma ends_with_grace_timer n slot :
  ends_with ("/" +:+ slot_suffix slot) (grace_timer n slot) = true.
Proof. unfold grace_timer. rewrite (string_app_assoc "stop_grace/"). apply ends_with_app. Qed.

(** Purposes that name a slot's own timer: their words hold no separator, so the id gives them back. *)
Lemma slot_timer_inj p q a b :
  slot_ok a → slot_ok b → slot_timer p a = slot_timer q b → a = b ∧ as_str p = as_str q.
Proof.
  intros Ha Hb Heq. assert (a = b) as <-.
  { pose proof (timer_slot_slot_timer p a Ha) as H. rewrite Heq, timer_slot_slot_timer in H by done.
    by simplify_eq. }
  split; [done|]. by apply string_app_inj_r in Heq.
Qed.

(** The strings the engine names a slot in can be read back. The slot of every slot timer and of every
    grace timer is the slot it was made for, a grace timer gives its rung back, and two slots of a run
    never share a session key. *)
Lemma keys_read_back run p n a b :
  slot_ok a → slot_ok b → n ≤ u8_max →
  timer_slot (slot_timer p a) = Some a ∧
  timer_slot (grace_timer n a) = Some a ∧
  grace_nth (grace_timer n a) = Some n ∧
  (session_key a run = session_key b run ↔ a = b).
Proof.
  intros Ha Hb Hn. split_and!; auto using timer_slot_slot_timer, timer_slot_grace_timer,
    grace_nth_grace_timer. split; [by apply session_key_inj|by intros ->].
Qed.

Lemma keys_read_back_witness :
  let a := MkSlot "build" 1 "coder" 2 in
  timer_slot (slot_timer TimerPurpose.Quiet a) = Some a ∧ timer_slot (grace_timer 2 a) = Some a ∧
  grace_nth (grace_timer 2 a) = Some 2 ∧ (session_key a "r" = session_key a "r" ↔ a = a).
Proof. apply (keys_read_back "r" TimerPurpose.Quiet 2); try split; done. Defined.
