(* ===== verification/Spec.v ===== *)
(** * What the reducer may conclude

    An abstract specification of [decide]: [may input e d] says that the decision [d] is justified for
    this input by the state the input and the earlier decisions have made ([Emit.state e]) and by the
    state before the input ([Emit.before e]). [decide] refines it: every decision of a list is justified
    where it stands ([decide_refines]). The properties of single decisions are read off this relation. *)

From S2P Require Import Prelude Text Ids Codes Events Flow State Effects Guard Input Evolve Decide FlowFacts Keys.
From stdpp Require Import options.

(** Every member of the step has replied on this visit with its latest attempt, without escalating; the
    bits are the members' routing bits in order. *)
Definition members_replied (s : RunState) (step : StepId) (visit : N) (d : StepDef) (bits : list bool)
    : Prop :=
  Forall2 (λ member bit,
      ∃ r message process overdue ladder,
        latest s step visit member = Some r ∧
        SlotRecord.state r = SlotState.Replied message false bit process overdue ladder)
    (members_of d) bits.

(** No decision of this list has touched a slot or the phase yet: they are as the input left them. *)
Definition slots_folded (input : Event) (e : Emit) : Prop :=
  RunState.slots (Emit.state e) = RunState.slots (apply_input (Emit.before e) input) ∧
  RunState.phase (Emit.state e) = RunState.phase (apply_input (Emit.before e) input).

(** Nor has anything been asked yet. *)
Definition books_folded (input : Event) (e : Emit) : Prop :=
  slots_folded input e ∧
  RunState.questions (Emit.state e) = RunState.questions (apply_input (Emit.before e) input).

(** The step and visit a reply completes: the reply is to an attempt of this visit, the run stands on it,
    and every member has replied; nothing else was asked meanwhile but what the reply itself asks. *)
Record step_complete (input : Event) (e : Emit) (step : StepId) (visit : N) (d : StepDef)
    (bits : list bool) : Prop := {
  complete_folded : slots_folded input e;
  complete_asked q :
    q ∈ RunState.questions (Emit.state e) →
    q ∈ RunState.questions (Emit.before e) ∨ ∃ slot m, Question.asked q = Asked.Escalation slot m;
  complete_reply : ∃ key message escalate needs_rework i r0,
    Event.body input = EventBody.Reply key message escalate needs_rework ∧
    RunState.slots (Emit.before e) !! i = Some r0 ∧ reply_ignored (Emit.before e) r0 = None ∧
    slot_step (SlotRecord.slot r0) = step ∧ slot_visit (SlotRecord.slot r0) = visit;
  complete_current : RunState.current_step (Emit.state e) = Some step;
  complete_visit : RunState.visits (Emit.state e) !! step = Some visit;
  complete_def : def_step (Emit.def e) step = Some d;
  complete_members : members_replied (Emit.state e) step visit d bits;
}.

(** The step is done: the consolidator has replied too, where there is one. *)
Definition step_done (input : Event) (e : Emit) (step : StepId) (visit : N) (d : StepDef)
    (bits : list bool) : Prop :=
  step_complete input e step visit d bits ∧
  (has_synthesis d = true → ∃ r, latest (Emit.state e) step visit SYNTH = Some r ∧
     is_replied (SlotRecord.state r) = true).

(** The first question with this key, which the input answers. *)
Definition asked_first (e : Emit) (question : Key) (q : Question) : Prop :=
  find_first (λ q, bool_decide (Question.id q = question)) (RunState.questions (Emit.before e))
    = Some q.

(** An attempt is over when nothing it does leads to another attempt: it ended, it replied, or it is being
    stopped for good. *)
Definition over (st : SlotState) : bool :=
  match st with
  | SlotState.Ended _ | SlotState.Replied _ _ _ _ _ _ | SlotState.Stopping _ AfterStop.Nothing => true
  | _ => false
  end.

(** The record of the attempt whose process the input says ended, without having been over. *)
Inductive just_ended (input : Event) (e : Emit) (slot : Slot) (r : SlotRecord) (cause : EndCause)
    : Prop :=
| JustEnded key i r0 :
    Event.body input = EventBody.SessionFact key (SessionFact.Ended cause) →
    slots_folded input e →
    RunState.slots (Emit.before e) !! i = Some r0 → SlotRecord.slot r0 = slot →
    over (SlotRecord.state r0) = false →
    find_slot (Emit.state e) slot = Some i → slot_at e i = Some r → SlotRecord.slot r = slot →
    SlotRecord.state r = SlotState.Ended cause →
    just_ended input e slot r cause.

(** Why a seat gets its next attempt. *)
Inductive attempt_reason (input : Event) (e : Emit) (slot : Slot) : Prop :=
| attempt_budget r cause :
    (** its process ended without a reply, and the restart budget lasts *)
    just_ended input e slot r cause →
    u32_succ (SlotRecord.restarts r) < max_attempts (policy_of e) →
    attempt_reason input e slot
| attempt_answer q message question disposition :
    (** its escalation was answered *)
    Event.body input = EventBody.Answer question disposition message →
    books_folded input e → asked_first e question q →
    (∃ m, Question.asked q = Asked.Escalation slot m) →
    RunState.pending_start (Emit.state e) = Some (StartCause.Answer message) →
    attempt_reason input e slot
| attempt_resume named i r :
    (** a person resumed its hold or its park *)
    Event.body input = EventBody.Resume named →
    slots_folded input e →
    resume_target (Emit.before e) named = Some i →
    RunState.slots (Emit.before e) !! i = Some r → SlotRecord.slot r = slot →
    is_Some (SlotRecord.condition r) → is_would_not_stop r = false →
    attempt_reason input e slot
| attempt_retry timer fired_at armed :
    (** the retry of its hold is due *)
    Event.body input = EventBody.TimerFired timer fired_at →
    slots_folded input e →
    RunState.timers (Emit.before e) !! timer = Some armed →
    purpose armed = TimerPurpose.HoldRetry → timer_slot timer = Some slot →
    attempt_reason input e slot.

(** Why a step is visited. *)
Inductive visit_reason (input : Event) (e : Emit) (step : StepId) : Prop :=
| visit_first d :
    (** the claim was taken: the first step *)
    Event.body input = EventBody.ClaimTaken → books_folded input e →
    head (FlowDef.steps (Emit.def e)) = Some d → StepDef.id d = step →
    visit_reason input e step
| visit_next from visit d bits :
    (** the step before it is done and pulls no back edge *)
    step_done input e from visit d bits → StepDef.next d = Some step →
    existsb id bits = false ∨ StepDef.on_needs_rework d = None →
    visit_reason input e step
| visit_back from visit d bits pass :
    (** the back edge was just pulled *)
    step_done input e from visit d bits →
    last (Emit.out e) = Some (Decision.Rework from step from pass) →
    visit_reason input e step
| visit_continued question message q from pass m :
    (** a person continued at the ceiling *)
    Event.body input = EventBody.Answer question Disposition.Continue message →
    books_folded input e → asked_first e question q →
    Question.asked q = Asked.Ceiling from pass m →
    last (Emit.out e) = Some (Decision.Rework from step from pass) →
    visit_reason input e step
| visit_accepted question message q from pass m d :
    (** a person accepted the step before it at its ceiling *)
    Event.body input = EventBody.Answer question Disposition.Accept message →
    books_folded input e → asked_first e question q →
    Question.asked q = Asked.Ceiling from pass m →
    def_step (Emit.def e) from = Some d → StepDef.next d = Some step →
    visit_reason input e step.

(** What a timer that fired says of its slot. *)
Definition timer_verdict (p : TimerPurpose) : option ReasonCode :=
  match p with
  | TimerPurpose.StartDeadline => Some ReasonCode.StartFailed
  | TimerPurpose.Quiet | TimerPurpose.SubprocessIdle | TimerPurpose.CallBound =>
      Some ReasonCode.Quiet
  | TimerPurpose.Confirm => Some ReasonCode.Hung
  | _ => None
  end.

(** Why a session is no longer trusted: a timer of its slot fired and was not put off, or its leader is
    dead while its group is not empty. *)
Inductive liveness_reason (input : Event) (e : Emit) (slot : Slot) : ReasonCode → Prop :=
| liveness_timer timer fired_at armed reason :
    Event.body input = EventBody.TimerFired timer fired_at →
    RunState.timers (Emit.before e) !! timer = Some armed →
    is_deferred (Emit.before e) timer fired_at (Emit.at_ e) = false →
    slots_folded input e →
    timer_slot timer = Some slot →
    timer_verdict (purpose armed) = Some reason →
    liveness_reason input e slot reason
| liveness_lingering key pids i r0 :
    Event.body input = EventBody.SessionFact key (SessionFact.GroupLingering pids) →
    slots_folded input e →
    RunState.slots (Emit.before e) !! i = Some r0 → SlotRecord.slot r0 = slot →
    over (SlotRecord.state r0) = false → is_live (SlotRecord.state r0) = true →
    (∀ l a, SlotRecord.state r0 ≠ SlotState.Stopping l a) →
    find_slot (Emit.state e) slot = Some i →
    liveness_reason input e slot ReasonCode.Lost.

(** Why a run is finishing. *)
Inductive finish_reason (input : Event) (e : Emit) : Outcome → ReasonCode → Prop :=
| finish_delivered step visit d bits :
    step_done input e step visit d bits → StepDef.next d = None →
    existsb id bits = false ∨ StepDef.on_needs_rework d = None →
    finish_reason input e Outcome.Delivered ReasonCode.Delivered
| finish_accepted question message q step pass m :
    Event.body input = EventBody.Answer question Disposition.Accept message →
    asked_first e question q →
    Question.asked q = Asked.Ceiling step pass m →
    (d ← def_step (Emit.def e) step; StepDef.next d) = None →
    finish_reason input e Outcome.Accepted ReasonCode.AcceptedByRequester
| finish_withdrawn message by_ :
    Event.body input = EventBody.Withdrawn message by_ →
    is_finishing (Emit.before e) = false →
    finish_reason input e Outcome.Withdrawn (withdrawn_reason by_).

(** The hold an end of the process asks for: its reason, and the instant the backend names. *)
Definition held_for (cause : EndCause) : option (ReasonCode * option Timestamp) :=
  match cause with
  | EndCause.UsageLimit resets_at => Some (ReasonCode.UsageLimit, resets_at)
  | EndCause.ProviderUnavailable => Some (ReasonCode.ProviderUnavailable, None)
  | _ => None
  end.

(** What a slot parks for once its restarts are used up: the reason it was stopped for, or what its end says;
    one member of a fan-out leaves the fan-out incomplete. *)
Definition exhausted_for (st : SlotState) (cause : EndCause) : option ReasonCode :=
  match st with
  | SlotState.Stopping _ (AfterStop.Restart exhausted) => Some exhausted
  | _ =>
      match cause with
      | EndCause.TurnComplete => Some ReasonCode.EndedWithoutReply
      | EndCause.Exit _ | EndCause.Unknown _ => Some ReasonCode.StartFailed
      | EndCause.Lost | EndCause.StoppedByHost => Some ReasonCode.Lost
      | _ => None
      end
  end.

Definition in_fan_out (def : FlowDef) (slot : Slot) : bool :=
  negb (bool_decide (slot_member slot = SYNTH)) &&
  from_option is_fan_out false (def_step def (slot_step slot)).

(** Why a person is needed on a slot. *)
Inductive park_reason (input : Event) (e : Emit) (slot : Slot) : ReasonCode → Prop :=
| park_exhausted r cause i r0 exhausted :
    just_ended input e slot r cause →
    max_attempts (policy_of e) ≤ u32_succ (SlotRecord.restarts r) →
    RunState.slots (Emit.before e) !! i = Some r0 → SlotRecord.slot r0 = slot →
    exhausted_for (SlotRecord.state r0) cause = Some exhausted →
    park_reason input e slot
      (if in_fan_out (Emit.def e) slot then ReasonCode.FanOutIncomplete else exhausted)
| park_hold_limit r cause :
    just_ended input e slot r cause → is_hold cause = true →
    max_holds (policy_of e) ≤ SlotRecord.holds r →
    park_reason input e slot ReasonCode.HoldLimit
| park_refused r rule program :
    just_ended input e slot r (EndCause.PermissionRefused rule program) →
    park_reason input e slot ReasonCode.PermissionRefused
| park_would_not_stop timer fired_at armed :
    Event.body input = EventBody.TimerFired timer fired_at →
    RunState.timers (Emit.before e) !! timer = Some armed →
    purpose armed = TimerPurpose.StopGrace → timer_slot timer = Some slot →
    grace_nth timer = Some 2 →
    (∀ i r l, find_slot (Emit.state e) slot = Some i → slot_at e i = Some r →
       ladder_of (SlotRecord.state r) = Some l → Ladder.forced l = false) →
    park_reason input e slot ReasonCode.WouldNotStop.

(** ** Timers *)

(** The slot of the session an input is from, with its index and its record once the input is folded. *)
Definition spoken_for (input : Event) (e : Emit) (key : SessionKey) (i : nat) (r : SlotRecord) : Prop :=
  find (apply_input (Emit.before e) input) key = Some i ∧
  RunState.slots (apply_input (Emit.before e) input) !! i = Some r.

(** The slot an input is about. *)
Inductive about_slot (input : Event) (e : Emit) (slot : Slot) : Prop :=
| about_session key i r :
    (∃ fact, Event.body input = EventBody.SessionFact key fact) ∨
      (∃ m esc nr, Event.body input = EventBody.Reply key m esc nr) →
    spoken_for input e key i r → SlotRecord.slot r = slot → about_slot input e slot
| about_timer timer fired_at :
    Event.body input = EventBody.TimerFired timer fired_at → timer_slot timer = Some slot →
    about_slot input e slot
| about_resumed named i r :
    Event.body input = EventBody.Resume named → resume_target (Emit.before e) named = Some i →
    RunState.slots (Emit.before e) !! i = Some r → SlotRecord.slot r = slot → about_slot input e slot.

(** A sign of life of one of these kinds, or any sign of a session that was quiet. *)
Definition alive_by (kinds : list HeartbeatKind) (r0 : SlotRecord) (fact : SessionFact) : Prop :=
  is_quiet_or_nudged (SlotRecord.state r0) = true ∨
  ∃ beat, fact = SessionFact.Heartbeat beat ∧ beat ∈ kinds.

(** The timer that fired, which was armed and is not put off. *)
Definition fired (input : Event) (e : Emit) (timer : string) (p : TimerPurpose) : Prop :=
  ∃ fired_at armed, Event.body input = EventBody.TimerFired timer fired_at ∧
    RunState.timers (Emit.before e) !! timer = Some armed ∧ purpose armed = p ∧
    is_deferred (Emit.before e) timer fired_at (Emit.at_ e) = false.

(** The run is resumed from a park with this reason. *)
Definition resumed_from (input : Event) (e : Emit) (reason : ReasonCode) : Prop :=
  Event.body input = EventBody.ResumeRun ∧
  rc_reason <$> RunState.condition (Emit.before e) = Some reason.

(** A span of the policy, counted from the input. *)
Definition due (e : Emit) (span : LivenessPolicy → Secs) : Timestamp :=
  plus (Emit.at_ e) (span (policy_of e)).

(** Which timer is armed, for when and for what. *)
Inductive timer_reason (input : Event) (e : Emit) : string → Timestamp → TimerPurpose → Prop :=
| arm_root :
    (** the root is asked for, asked for again after a period, or a person resumed the run *)
    last (Emit.out e) = Some Decision.RootRequested ∨
    (∃ timer, fired input e timer TimerPurpose.RootDeadline ∧
       RunState.root_periods (Emit.state e) < max_attempts (policy_of e)) ∨
    resumed_from input e ReasonCode.RootFailed →
    timer_reason input e ROOT_DEADLINE_TIMER (due e root_deadline) TimerPurpose.RootDeadline
| arm_window :
    (** the claim was taken, or a person resumed the run whose tree was refused *)
    Event.body input = EventBody.ClaimTaken ∨ resumed_from input e ReasonCode.TreeRefused →
    timer_reason input e TREE_WINDOW_TIMER (due e tree_window) TimerPurpose.TreeWindow
| arm_starting r :
    (** the tree is ready and a waiting attempt is of a persona with no live session *)
    tree_prepared (Emit.state e) = true → r ∈ RunState.slots (Emit.state e) →
    is_pending (SlotRecord.state r) = true →
    persona_is_live (Emit.state e) (slot_member (SlotRecord.slot r)) = false →
    timer_reason input e (slot_timer TimerPurpose.StartDeadline (SlotRecord.slot r))
      (due e start_deadline) TimerPurpose.StartDeadline
| arm_started key backend pid i r0 r :
    (** its session started *)
    Event.body input = EventBody.SessionFact key (SessionFact.Started backend pid) →
    spoken_for input e key i r → RunState.slots (Emit.before e) !! i = Some r0 →
    is_starting (SlotRecord.state r0) = true →
    timer_reason input e (slot_timer TimerPurpose.Quiet (SlotRecord.slot r))
      (due e quiet_after) TimerPurpose.Quiet
| arm_quiet key fact i r0 r :
    (** a sign of life with no call open *)
    Event.body input = EventBody.SessionFact key fact →
    spoken_for input e key i r → RunState.slots (Emit.before e) !! i = Some r0 →
    has_open_call (SlotRecord.state r) = false →
    alive_by [HeartbeatKind.ModelOutput; HeartbeatKind.CallsClosed; HeartbeatKind.SubprocessMoved] r0 fact →
    timer_reason input e (slot_timer TimerPurpose.Quiet (SlotRecord.slot r))
      (due e quiet_after) TimerPurpose.Quiet
| arm_idle key fact i r0 r :
    (** a sign of life with a call open whose processes can be seen *)
    Event.body input = EventBody.SessionFact key fact →
    spoken_for input e key i r → RunState.slots (Emit.before e) !! i = Some r0 →
    has_open_call (SlotRecord.state r) = true → SlotRecord.blind r = false →
    alive_by [HeartbeatKind.CallsOpen; HeartbeatKind.SubprocessMoved] r0 fact →
    timer_reason input e (slot_timer TimerPurpose.SubprocessIdle (SlotRecord.slot r))
      (due e subprocess_idle) TimerPurpose.SubprocessIdle
| arm_bound key fact i r0 r :
    (** a sign of life with a call open that nobody samples *)
    Event.body input = EventBody.SessionFact key fact →
    spoken_for input e key i r → RunState.slots (Emit.before e) !! i = Some r0 →
    has_open_call (SlotRecord.state r) = true → SlotRecord.sampling r = false →
    alive_by [HeartbeatKind.CallsOpen; HeartbeatKind.Blind] r0 fact →
    timer_reason input e (slot_timer TimerPurpose.CallBound (SlotRecord.slot r))
      (due e call_bound_after) TimerPurpose.CallBound
| arm_nudged key i r :
    (** it was nudged *)
    Event.body input = EventBody.Nudged key → spoken_for input e key i r →
    timer_reason input e (slot_timer TimerPurpose.Confirm (SlotRecord.slot r))
      (due e confirm_within) TimerPurpose.Confirm
| arm_went_quiet slot :
    (** it was just found quiet *)
    last (Emit.out e) = Some (Decision.Liveness slot ReasonCode.Quiet (Emit.at_ e)) →
    timer_reason input e (slot_timer TimerPurpose.Confirm slot) (due e confirm_within) TimerPurpose.Confirm
| arm_grace key nth kind i r ladder :
    (** the first or the second signal was sent *)
    Event.body input = EventBody.StopSignalled key nth kind → spoken_for input e key i r →
    ladder_of (SlotRecord.state r) = Some ladder →
    Ladder.signals_sent ladder = 1 ∨ Ladder.signals_sent ladder = 2 →
    timer_reason input e (grace_timer (Ladder.signals_sent ladder) (SlotRecord.slot r))
      (due e stop_grace) TimerPurpose.StopGrace
| arm_wind_down key m esc nr i r :
    (** it replied and may wind down *)
    Event.body input = EventBody.Reply key m esc nr → spoken_for input e key i r →
    timer_reason input e (slot_timer TimerPurpose.WindDown (SlotRecord.slot r))
      (due e stop_grace) TimerPurpose.WindDown
| arm_hold slot reason until resets_at :
    (** it was just held *)
    last (Emit.out e) = Some (Decision.Held slot reason until resets_at) →
    timer_reason input e (slot_timer TimerPurpose.HoldRetry slot) until TimerPurpose.HoldRetry
| arm_again timer fired_at armed :
    (** it fired across a sleep of the machine: the same timer, put off *)
    Event.body input = EventBody.TimerFired timer fired_at →
    RunState.timers (Emit.before e) !! timer = Some armed →
    is_deferred (Emit.before e) timer fired_at (Emit.at_ e) = true →
    timer_reason input e timer (due e wake_jump) (purpose armed).

(** Which timer is cancelled. *)
Inductive clear_reason (input : Event) (e : Emit) (timer : string) : Prop :=
| clear_root thread message :
    Event.body input = EventBody.RootOpened thread message → timer = ROOT_DEADLINE_TIMER →
    clear_reason input e timer
| clear_window :
    (∃ base found, Event.body input = EventBody.TreePrepared base found) ∨
      (∃ reason, Event.body input = EventBody.TreeRefused reason ∧ is_permanent reason = true) →
    timer = TREE_WINDOW_TIMER → clear_reason input e timer
| clear_slot slot :
    (** a timer of the slot the input is about *)
    about_slot input e slot → ends_with ("/" +:+ slot_suffix slot) timer = true →
    clear_reason input e timer
| clear_over o reason armed :
    (** the run is finishing, and the timer is none of those that stop a session *)
    Decision.Finishing o reason ∈ Emit.out e →
    RunState.timers (Emit.state e) !! timer = Some armed → survives_finish (purpose armed) = false →
    clear_reason input e timer.

Inductive may (input : Event) (e : Emit) : Decision → Prop :=
| may_root_requested run ws machine flow policy thread requester :
    Event.body input = EventBody.Commissioned run ws machine flow policy thread requester →
    may input e Decision.RootRequested
| may_claim_requested thread message :
    Event.body input = EventBody.RootOpened thread message →
    RunState.phase (Emit.state e) = Phase.Created → may input e Decision.ClaimRequested
| may_run_queued holder :
    Event.body input = EventBody.ClaimBusy holder →
    (∃ behind, RunState.phase (Emit.state e) = Phase.Queued behind) →
    may input e (Decision.RunQueued (Some holder))
| may_visit step d :
    visit_reason input e step → def_step (Emit.def e) step = Some d →
    may input e (Decision.StepStarted step
      (u32_succ (default 0 (RunState.visits (Emit.state e) !! step))) 1 (members_of d))
| may_attempt slot :
    attempt_reason input e slot →
    may input e (Decision.StepStarted (slot_step slot) (slot_visit slot)
      (u32_succ (slot_attempt slot)) [slot_member slot])
| may_synthesis step visit d bits :
    step_complete input e step visit d bits → has_synthesis d = true →
    latest (Emit.state e) step visit SYNTH = None →
    may input e (Decision.StepStarted step visit 1 [SYNTH])
| may_step_finished step visit d bits :
    step_done input e step visit d bits →
    may input e (Decision.StepFinished step visit
      (if existsb id bits then StepOutcome.NeedsRework else StepOutcome.Pass))
| may_rework step visit to d bits :
    step_done input e step visit d bits → existsb id bits = true →
    StepDef.on_needs_rework d = Some to →
    u32_succ (pass_of (Emit.state e) step) ≤ StepDef.max_passes d →
    may input e (Decision.Rework step to step (u32_succ (pass_of (Emit.state e) step)))
| may_continue question message q step pass m d to :
    Event.body input = EventBody.Answer question Disposition.Continue message →
    asked_first e question q →
    Question.asked q = Asked.Ceiling step pass m →
    def_step (Emit.def e) step = Some d → StepDef.on_needs_rework d = Some to →
    may input e (Decision.Rework step to step pass)
| may_escalated key i r0 r message bit process overdue ladder :
    (∃ m esc nr, Event.body input = EventBody.Reply key m esc nr) →
    slots_folded input e →
    RunState.questions (Emit.state e) = RunState.questions (Emit.before e) →
    RunState.slots (Emit.before e) !! i = Some r0 → SlotRecord.slot r0 = SlotRecord.slot r →
    reply_ignored (Emit.before e) r0 = None →
    find (Emit.state e) key = Some i →
    slot_at e i = Some r →
    SlotRecord.state r = SlotState.Replied message true bit process overdue ladder →
    may input e (Decision.Escalated ("escalated/" +:+ key) (SlotRecord.slot r) message)
| may_ceiling step visit d bits verdict :
    step_done input e step visit d bits → existsb id bits = true →
    is_Some (StepDef.on_needs_rework d) →
    StepDef.max_passes d < u32_succ (pass_of (Emit.state e) step) →
    verdict_of (Emit.state e) step = Some verdict →
    may input e (Decision.Ceiling
      (ceiling_key (RunState.run (Emit.state e)) step visit
         (u32_succ (pass_of (Emit.state e) step)))
      step (u32_succ (pass_of (Emit.state e) step)) (vr_message verdict))
| may_timer_set timer fire_at p :
    timer_reason input e timer fire_at p → may input e (Decision.TimerSet timer fire_at p)
| may_timer_cleared timer :
    is_Some (RunState.timers (Emit.state e) !! timer) → clear_reason input e timer →
    may input e (Decision.TimerCleared timer)
| may_liveness slot reason :
    liveness_reason input e slot reason →
    may input e (Decision.Liveness slot reason (Emit.at_ e))
| may_held r cause slot reason resets_at :
    just_ended input e slot r cause →
    held_for cause = Some (reason, resets_at) →
    resets_at ≠ None ∨ SlotRecord.holds r < max_holds (policy_of e) →
    may input e (Decision.Held slot reason (hold_until resets_at e) resets_at)
| may_park slot reason :
    park_reason input e slot reason → may input e (Decision.Parked (Some slot) reason)
| may_park_root timer :
    fired input e timer TimerPurpose.RootDeadline →
    max_attempts (policy_of e) ≤ RunState.root_periods (Emit.state e) →
    may input e (Decision.Parked None ReasonCode.RootFailed)
| may_park_window timer :
    fired input e timer TimerPurpose.TreeWindow →
    may input e (Decision.Parked None ReasonCode.TreeRefused)
| may_park_tree reason :
    Event.body input = EventBody.TreeRefused reason → is_permanent reason = true →
    RunState.condition (Emit.before e) = None →
    may input e (Decision.Parked None ReasonCode.TreeRefused)
| may_finishing o reason :
    finish_reason input e o reason → may input e (Decision.Finishing o (Some reason))
| may_withdraw_forced message by_ :
    Event.body input = EventBody.Withdrawn message by_ →
    is_finishing (Emit.before e) = true → may input e Decision.WithdrawForced
| may_finished o reason tree :
    Event.body input = EventBody.ClaimReleased →
    RunState.phase (Emit.state e) = Phase.Finishing o reason tree →
    slots_folded input e →
    may input e (Decision.Finished o reason).

(** [e'] is [e] with justified decisions appended. *)
Inductive emits (input : Event) (e : Emit) : Emit → Prop :=
| emits_refl : emits input e e
| emits_push e1 d : emits input e e1 → may input e1 d → emits input e (push d e1).

(** ** What the timer operations leave alone *)
Section timer_frames.
Implicit Types (e : Emit) (s : RunState).

Lemma set_timers_id s : s <| RunState.timers := RunState.timers s |> = s.
Proof. by destruct s. Qed.

Lemma clear_timer_state t e :
  Emit.state (clear_timer t e) =
    (Emit.state e) <| RunState.timers := delete t (RunState.timers (Emit.state e)) |>.
Proof.
  unfold clear_timer. case_match eqn:E; [done|].
  rewrite delete_id by done. by rewrite set_timers_id.
Qed.

Lemma clear_timers_state l e :
  Emit.state (clear_timers l e) =
    (Emit.state e) <| RunState.timers := foldl (λ m t, delete t m)
                        (RunState.timers (Emit.state e)) l |>.
Proof.
  unfold clear_timers. revert e; induction l as [|t l IH]; intros e; simpl.
  - by rewrite set_timers_id.
  - rewrite IH, clear_timer_state. done.
Qed.

Lemma foldl_delete_lookup {V} (m : gmap string V) l k :
  foldl (λ m t, delete t m) m l !! k = if bool_decide (k ∈ l) then None else m !! k.
Proof.
  revert m; induction l as [|t l IH]; intros m; simpl; [done|].
  rewrite IH. destruct (bool_decide_reflect (k ∈ l)), (bool_decide_reflect (k ∈ t :: l)); set_solver
    || (try done; destruct (base.decide (t = k)) as [->|]; simplify_map_eq; set_solver).
Qed.

(** The timers of the other slots, and those of the run. *)
Lemma clear_slot_timers_lookup slot e t :
  RunState.timers (Emit.state (clear_slot_timers slot e)) !! t =
    if ends_with ("/" +:+ slot_suffix slot) t then None
    else RunState.timers (Emit.state e) !! t.
Proof.
  unfold clear_slot_timers. rewrite clear_timers_state. cbn. rewrite foldl_delete_lookup.
  case_bool_decide as H; rewrite list_elem_of_filter, elem_of_sorted_keys in H.
  - by destruct H as [-> _].
  - destruct (ends_with _ t); [|done].
    destruct (RunState.timers (Emit.state e) !! t); [|done]. exfalso. eauto.
Qed.

Lemma clear_slot_timers_state slot e :
  Emit.state (clear_slot_timers slot e) =
    (Emit.state e) <| RunState.timers := RunState.timers (Emit.state (clear_slot_timers slot e)) |>.
Proof. unfold clear_slot_timers. by rewrite clear_timers_state. Qed.

(** Arming any timer but a start deadline moves no slot. *)
Lemma set_timer_at_state t at_ p e :
  p ≠ TimerPurpose.StartDeadline →
  Emit.state (set_timer_at t at_ p e) =
    (Emit.state e) <| RunState.timers := <[t := MkArmedTimer at_ p]>
                        (RunState.timers (Emit.state e)) |>.
Proof. intros. cbn. by rewrite bool_decide_eq_false_2. Qed.

Lemma clear_timer_fixed t e :
  Emit.before (clear_timer t e) = Emit.before e ∧ Emit.at_ (clear_timer t e) = Emit.at_ e ∧
  Emit.def (clear_timer t e) = Emit.def e.
Proof. unfold clear_timer. by case_match. Qed.

Lemma clear_timers_fixed l e :
  Emit.before (clear_timers l e) = Emit.before e ∧ Emit.at_ (clear_timers l e) = Emit.at_ e ∧
  Emit.def (clear_timers l e) = Emit.def e.
Proof.
  unfold clear_timers. revert e; induction l as [|t l IH]; intros e; simpl; [done|].
  destruct (IH (clear_timer t e)) as (-> & -> & ->). apply clear_timer_fixed.
Qed.
End timer_frames.

(** ** Every operation emits justified decisions only *)
#[export] Hint Resolve emits_refl emits_push : emit.
#[export] Hint Constructors may visit_reason attempt_reason finish_reason liveness_reason : emit.
#[export] Hint Resolve park_hold_limit park_refused park_would_not_stop : emit.

Section refines.
Context (input : Event).
Implicit Types (e : Emit).

Lemma emits_trans e1 e2 e3 : emits input e1 e2 → emits input e2 e3 → emits input e1 e3.
Proof. intros H1; induction 1; eauto with emit. Qed.

Lemma emits_fixed e e1 :
  emits input e e1 →
  Emit.before e1 = Emit.before e ∧ Emit.at_ e1 = Emit.at_ e ∧ Emit.def e1 = Emit.def e.
Proof. induction 1; naive_solver. Qed.

Lemma emits_foldl {A} (f : Emit → A → Emit) l e e1 :
  (∀ e2 x, emits input e2 (f e2 x)) → emits input e e1 → emits input e (foldl f e1 l).
Proof.
  intros Hf. revert e1; induction l as [|x l IH]; intros e1 He; simpl; [done|].
  apply IH. eapply emits_trans; [done|apply Hf].
Qed.

Lemma emits_set_timer_at e e1 t at_ p :
  timer_reason input e1 t at_ p → emits input e e1 → emits input e (set_timer_at t at_ p e1).
Proof. unfold set_timer_at. eauto with emit. Qed.
Lemma emits_set_timer e e1 t span p :
  timer_reason input e1 t (plus (Emit.at_ e1) span) p →
  emits input e e1 → emits input e (set_timer t span p e1).
Proof. apply emits_set_timer_at. Qed.
Lemma emits_set_slot_timer e e1 slot span p :
  timer_reason input e1 (slot_timer p slot) (plus (Emit.at_ e1) span) p →
  emits input e e1 → emits input e (set_slot_timer slot span p e1).
Proof. apply emits_set_timer_at. Qed.
Lemma emits_clear_timer e e1 t :
  clear_reason input e1 t → emits input e e1 → emits input e (clear_timer t e1).
Proof. unfold clear_timer. intros. case_match eqn:E; [|done]. eauto with emit. Qed.

(** The timers of the slot an input is about may be cancelled, whatever was decided before. *)
Lemma about_slot_later e e1 slot : emits input e e1 → about_slot input e slot → about_slot input e1 slot.
Proof.
  intros [Hb _]%emits_fixed. destruct 1; [eapply about_session|eapply about_timer|eapply about_resumed];
    unfold spoken_for in *; rewrite ?Hb; eauto.
Qed.
Lemma emits_clear_of_slot e e1 slot t :
  about_slot input e slot → ends_with ("/" +:+ slot_suffix slot) t = true →
  emits input e e1 → emits input e (clear_timer t e1).
Proof.
  intros Ha Ht He. apply emits_clear_timer; [|done]. eapply clear_slot; [|exact Ht]. by eapply about_slot_later.
Qed.
Lemma emits_clear_slot_timer e e1 slot p :
  about_slot input e slot → emits input e e1 → emits input e (clear_slot_timer slot p e1).
Proof. intros. eapply emits_clear_of_slot; [done| |done]. apply ends_with_slot_timer. Qed.
Lemma emits_clear_slot_timers e e1 slot :
  about_slot input e slot → emits input e e1 → emits input e (clear_slot_timers slot e1).
Proof.
  intros Ha. unfold clear_slot_timers, clear_timers. set (l := filter _ _).
  assert (Forall (λ t, ends_with ("/" +:+ slot_suffix slot) t = true) l) as Hl.
  { apply Forall_forall. by intros t [? _]%list_elem_of_filter. }
  clearbody l. revert e1; induction Hl as [|t l Ht Hl IH]; intros e1 He; simpl; [done|].
  apply IH. by eapply emits_clear_of_slot.
Qed.

(** A run that is finishing cancels what does not stop a session. *)
Lemma emits_clear_over e e1 l o reason :
  Decision.Finishing o reason ∈ Emit.out e1 →
  (∀ t a, t ∈ l → RunState.timers (Emit.state e1) !! t = Some a → survives_finish (purpose a) = false) →
  emits input e e1 → emits input e (clear_timers l e1).
Proof.
  unfold clear_timers. revert e1; induction l as [|t l IH]; intros e1 Hout Hl He; simpl; [done|]. apply IH.
  - unfold clear_timer. case_match; [|done]. simpl. apply elem_of_app. by left.
  - intros t' a Ht'. rewrite clear_timer_state. cbn. intros [_ Ha]%lookup_delete_Some. eapply Hl; [by right|done].
  - unfold clear_timer. case_match eqn:Et; [|done]. apply emits_push; [done|]. constructor; [eauto|].
    eapply clear_over; [exact Hout|exact Et|]. eapply Hl; [by left|exact Et].
Qed.

Lemma emits_set_tree_window e e1 :
  Event.body input = EventBody.ClaimTaken ∨ resumed_from input e1 ReasonCode.TreeRefused →
  emits input e e1 → emits input e (set_tree_window e1).
Proof. intros. unfold set_tree_window. by apply emits_set_timer; [constructor|]. Qed.

(** *** The attempts that wait *)
Definition waits_or_lives (r : SlotRecord) : Prop :=
  is_pending (SlotRecord.state r) = true ∨ is_live (SlotRecord.state r) = true.

Lemma arm_start_frame s t at_ :
  RunState.policy (arm_start s t at_) = RunState.policy s ∧
  tree_prepared (arm_start s t at_) = tree_prepared s ∧
  ∀ i r, RunState.slots s !! i = Some r → ∃ r',
    RunState.slots (arm_start s t at_) !! i = Some r' ∧ SlotRecord.slot r' = SlotRecord.slot r ∧
    (waits_or_lives r → waits_or_lives r').
Proof.
  unfold arm_start. destruct (timer_slot t) as [slot|]; [|by eauto 10].
  unfold alter_record. destruct (find_slot s slot) as [j|]; [|by eauto 10].
  split_and!; [done..|]. intros i r Hi. cbn. destruct (base.decide (i = j)) as [->|Hne].
  - rewrite list_lookup_alter_eq, Hi. simpl. eexists. split_and!; [done..|].
    unfold waits_or_lives. destruct r as [sl st]. cbn. destruct st; cbn; auto.
  - rewrite list_lookup_alter_ne by done. eauto.
Qed.

Lemma emits_arm_ready e e1 : emits input e e1 → emits input e (arm_ready e1).
Proof.
  unfold arm_ready. intros He. destruct (tree_prepared (Emit.state e1)) eqn:Et; [|done].
  set (span := start_deadline (policy_of e1)).
  set (l := SlotRecord.slot <$> _).
  assert (∀ slot, slot ∈ l → ∃ i r, RunState.slots (Emit.state e1) !! i = Some r ∧
    SlotRecord.slot r = slot ∧ waits_or_lives r) as Hl.
  { intros slot (r & -> & [Hp (i & Hi)%list_elem_of_lookup]%list_elem_of_filter)%list_elem_of_fmap.
    exists i, r. split_and!; [done..|]. by left. }
  assert (span = start_deadline (policy_of e1)) as Hspan by done. clearbody l span.
  revert e1 He Et Hl Hspan; induction l as [|slot l IH]; intros e1 He Et Hl Hspan; simpl; [done|].
  unfold arm_if_free at 2. destruct (persona_is_live (Emit.state e1) (slot_member slot)) eqn:Elive.
  { apply IH; [done..| |done]. intros slot' Hs'. apply Hl. by right. }
  destruct (Hl slot) as (i & r & Hi & <- & Hr); [by left|].
  destruct (arm_start_frame ((Emit.state e1) <| RunState.timers :=
    <[slot_timer TimerPurpose.StartDeadline (SlotRecord.slot r) :=
        MkArmedTimer (plus (Emit.at_ e1) span) TimerPurpose.StartDeadline]> (RunState.timers (Emit.state e1)) |>)
    (slot_timer TimerPurpose.StartDeadline (SlotRecord.slot r)) (plus (Emit.at_ e1) span)) as (Hpol & Hprep & Hslots).
  apply IH.
  - apply emits_set_slot_timer; [|done]. rewrite Hspan. apply arm_starting; [done| | |done].
    + by eapply list_elem_of_lookup_2.
    + destruct Hr as [?|Hlive]; [done|]. exfalso. apply not_true_iff_false in Elive. apply Elive.
      apply existsb_exists. exists r. split; [by apply list_elem_of_In, list_elem_of_lookup_2 with i|].
      by rewrite bool_decide_eq_true_2.
  - exact (eq_trans Hprep Et).
  - intros slot' Hs'. destruct (Hl slot') as (i' & r1 & Hi' & <- & Hr1); [by right|].
    destruct (Hslots i' r1) as (r2 & Hi2 & Hsl & Hr2); [done|]. exists i', r2. split_and!; [exact Hi2|done|auto].
  - exact (eq_trans Hspan (f_equal start_deadline (eq_sym Hpol))).
Qed.
Hint Resolve emits_arm_ready : emit.

Lemma emits_start_step e e1 step :
  visit_reason input e1 step → emits input e e1 → emits input e (start_step step e1).
Proof. unfold start_step. intros. case_match eqn:E; [|done]. eauto with emit. Qed.
Lemma emits_restart e e1 slot :
  attempt_reason input e1 slot → emits input e e1 → emits input e (restart slot e1).
Proof. unfold restart. eauto with emit. Qed.
Lemma emits_finish_run e e1 o reason :
  finish_reason input e1 o reason → emits input e e1 → emits input e (finish_run o reason e1).
Proof.
  intros Hr He. unfold finish_run. eapply emits_clear_over.
  - simpl. apply elem_of_app. right. by left.
  - intros t a [Ho _]%list_elem_of_filter Ha. unfold is_over in Ho. rewrite Ha in Ho.
    by destruct (survives_finish (purpose a)).
  - eauto with emit.
Qed.
Hint Resolve emits_start_step emits_restart emits_finish_run : emit.

(** *** A step that is done *)
Lemma emits_rework e e1 from to pass :
  may input e1 (Decision.Rework from to from pass) →
  visit_reason input (push (Decision.Rework from to from pass) e1) to →
  emits input e e1 → emits input e (rework from to pass e1).
Proof. intros Hm Hv He. unfold rework. eauto with emit. Qed.

(** What only the step's books record leaves a complete step complete. *)
Lemma step_done_push e step visit d bits x :
  match x with Decision.StepFinished _ _ _ | Decision.Rework _ _ _ _ => True | _ => False end →
  step_done input e step visit d bits → step_done input (push x e) step visit d bits.
Proof. destruct x; intros [] [[] Hs]; split; [split|exact Hs|split|exact Hs]; done. Qed.

Lemma emits_finish_step e e1 step visit d bits :
  step_done input e1 step visit d bits →
  emits input e e1 → emits input e (finish_step step visit (existsb id bits) e1).
Proof.
  intros Hc He. unfold finish_step.
  set (o := if existsb id bits then _ else _).
  set (e2 := push (Decision.StepFinished step visit o) e1).
  assert (H2 : emits input e e2) by (subst e2 o; eauto with emit).
  assert (Hc2 : step_done input e2 step visit d bits) by by apply step_done_push.
  pose proof (complete_def _ _ _ _ _ _ (proj1 Hc2)) as Hd. rewrite Hd.
  destruct (existsb id bits) eqn:Eb, (StepDef.on_needs_rework d) as [to|] eqn:Eo;
    try (destruct (StepDef.next d) eqn:?;
         [apply emits_start_step; [eapply visit_next; eauto|done]
         |apply emits_finish_run; [|done]; econstructor; eauto]; fail).
  case_match eqn:El; [apply N.leb_le in El|apply N.leb_gt in El].
  - apply emits_rework; [| |done].
    + econstructor; eauto.
    + eapply visit_back; [by apply step_done_push|]. apply last_snoc.
  - unfold ceiling. case_match eqn:Ev; [|done].
    apply emits_push; [done|]. econstructor; eauto.
Qed.

Lemma member_verdict_Some r bit :
  member_verdict r = Some bit ↔
  ∃ message process overdue ladder,
    SlotRecord.state r = SlotState.Replied message false bit process overdue ladder.
Proof. unfold member_verdict. repeat case_match; naive_solver. Qed.

Lemma collect_members_replied s step visit d bits :
  collect_option (λ member, latest s step visit member ≫= member_verdict) (members_of d)
    = Some bits →
  members_replied s step visit d bits.
Proof.
  rewrite collect_option_Some. intros H. eapply Forall2_impl; [exact H|]. intros member bit.
  intros (r & Hr & (m & p & o & l & Hs)%member_verdict_Some)%bind_Some. eauto 10.
Qed.

Lemma emits_after_reply e e1 slot :
  slots_folded input e1 →
  (∀ q, q ∈ RunState.questions (Emit.state e1) →
     q ∈ RunState.questions (Emit.before e1) ∨ ∃ slot m, Question.asked q = Asked.Escalation slot m) →
  (∃ key message escalate needs_rework i r0,
     Event.body input = EventBody.Reply key message escalate needs_rework ∧
     RunState.slots (Emit.before e1) !! i = Some r0 ∧ reply_ignored (Emit.before e1) r0 = None ∧
     SlotRecord.slot r0 = slot) →
  emits input e e1 → emits input e (after_reply slot e1).
Proof.
  intros Hf Hq Hrep He. unfold after_reply.
  destruct (bool_decide_reflect (RunState.current_step (Emit.state e1) = Some (slot_step slot)));
    [|done].
  destruct (bool_decide_reflect
    (RunState.visits (Emit.state e1) !! slot_step slot = Some (slot_visit slot))); [|done].
  simpl. case_match eqn:Ed; [|done]. case_match eqn:Eb; [|done].
  assert (Hc : step_complete input e1 (slot_step slot) (slot_visit slot) s l).
  { split; try done; [|by apply collect_members_replied].
    destruct Hrep as (k & m & es & nr & i & r0 & ? & ? & ? & <-). eauto 12. }
  unfold all_replied. destruct (has_synthesis s) eqn:Es.
  - case_match eqn:El; [|eauto with emit].
    case_match; [|done]. apply emits_finish_step with s; [|done]. split; eauto.
  - apply emits_finish_step with s; [|done]. split; [done|]. by rewrite Es.
Qed.

(** *** A session's end *)
Lemma emits_restart_or_park e e1 i slot r cause r0 reason :
  slot_at e1 i = Some r → just_ended input e1 slot r cause →
  RunState.slots (Emit.before e1) !! i = Some r0 → SlotRecord.slot r0 = slot →
  exhausted_for (SlotRecord.state r0) cause = Some reason →
  emits input e e1 → emits input e (restart_or_park i slot reason e1).
Proof.
  intros Hr Hj H0 Hs Hx He. unfold restart_or_park. rewrite Hr.
  case_match eqn:El; [apply N.ltb_lt in El|apply N.ltb_ge in El]; [eauto with emit|].
  apply emits_push; [done|]. constructor. by eapply park_exhausted.
Qed.

Lemma emits_hold e e1 i slot r cause reason resets_at :
  slot_at e1 i = Some r → just_ended input e1 slot r cause →
  held_for cause = Some (reason, resets_at) →
  emits input e e1 → emits input e (hold i slot reason resets_at e1).
Proof.
  intros Hr Hj Hh He. unfold hold. rewrite Hr.
  assert (is_hold cause = true) by (by destruct cause).
  destruct (bool_decide_reflect (resets_at = None)); simpl.
  - case_match eqn:El; [apply N.leb_le in El|apply N.leb_gt in El]; [eauto with emit|].
    apply emits_set_timer_at; [by eapply arm_hold, last_snoc|]. apply emits_push; [done|].
    eapply may_held; eauto.
  - apply emits_set_timer_at; [by eapply arm_hold, last_snoc|]. apply emits_push; [done|].
    eapply may_held; eauto.
Qed.

Lemma clear_slot_timers_slots slot e :
  RunState.slots (Emit.state (clear_slot_timers slot e)) = RunState.slots (Emit.state e).
Proof. by rewrite clear_slot_timers_state. Qed.

Lemma clear_slot_timers_before slot e :
  Emit.before (clear_slot_timers slot e) = Emit.before e.
Proof. apply clear_timers_fixed. Qed.

Lemma find_find_slot s key i r :
  find s key = Some i → RunState.slots s !! i = Some r → find_slot s (SlotRecord.slot r) = Some i.
Proof.
  intros Hf Hr. eapply position_first; [exact Hf|exact Hr|by apply bool_decide_eq_true|].
  intros y Hy%bool_decide_eq_true. apply bool_decide_eq_true.
  apply position_Some in Hf as (r' & Hr' & Hk%bool_decide_eq_true). simplify_eq. congruence.
Qed.

Lemma fact_record_slot superseded forced at_ fact r :
  SlotRecord.slot (fact_record superseded forced at_ fact r) = SlotRecord.slot r.
Proof. destruct r as [sl st]; destruct fact as [|[]| | | |[]|], st; cbn; try done; by case_match. Qed.

Lemma folded_start e : Emit.state e = apply_input (Emit.before e) input → slots_folded input e.
Proof. intros Hs. unfold slots_folded. by rewrite Hs. Qed.

Lemma books_start e : Emit.state e = apply_input (Emit.before e) input → books_folded input e.
Proof. intros Hs. split; [by apply folded_start|]. by rewrite Hs. Qed.

Lemma clear_slot_timers_folded slot e :
  slots_folded input e → slots_folded input (clear_slot_timers slot e).
Proof.
  unfold slots_folded. by rewrite clear_slot_timers_before, clear_slot_timers_state.
Qed.

Lemma clear_timer_folded t e : slots_folded input e → slots_folded input (clear_timer t e).
Proof.
  unfold slots_folded. by rewrite clear_timer_state, (proj1 (clear_timer_fixed _ _)).
Qed.
Hint Resolve clear_slot_timers_folded clear_timer_folded : emit.

(** *** Signs of life *)
Lemma clear_slot_timer_frame slot p e :
  RunState.slots (Emit.state (clear_slot_timer slot p e)) = RunState.slots (Emit.state e) ∧
  policy_of (clear_slot_timer slot p e) = policy_of e ∧
  Emit.before (clear_slot_timer slot p e) = Emit.before e ∧
  Emit.at_ (clear_slot_timer slot p e) = Emit.at_ e.
Proof.
  unfold clear_slot_timer, policy_of. rewrite clear_timer_state. cbn.
  destruct (clear_timer_fixed (slot_timer p slot) e) as (-> & -> & _). done.
Qed.

Lemma beat_is_In kinds beat fact :
  (∀ b, beat = Some b → fact = SessionFact.Heartbeat b) → beat_is kinds beat = true →
  ∃ b, fact = SessionFact.Heartbeat b ∧ b ∈ kinds.
Proof.
  intros Hf Hb. destruct beat as [b|]; [|done]. simpl in Hb. apply bool_decide_eq_true in Hb. eauto.
Qed.

(** What is cleared and armed again for a slot whose records and policy stand. *)
Definition steady (e e1 : Emit) : Prop :=
  RunState.slots (Emit.state e1) = RunState.slots (Emit.state e) ∧ policy_of e1 = policy_of e ∧
  emits input e e1.

Lemma steady_clear e e1 slot p :
  about_slot input e slot → steady e e1 → steady e (clear_slot_timer slot p e1).
Proof.
  intros Ha (Hs & Hp & He). destruct (clear_slot_timer_frame slot p e1) as (Hs1 & Hp1 & _).
  split_and!; [congruence..|]. by apply emits_clear_slot_timer.
Qed.

Lemma steady_clear_if (b : bool) e e1 slot p :
  about_slot input e slot → steady e e1 → steady e (if b then clear_slot_timer slot p e1 else e1).
Proof. destruct b; [apply steady_clear|done]. Qed.

Lemma steady_set_if (b : bool) e e1 slot (span : LivenessPolicy → Secs) p :
  p ≠ TimerPurpose.StartDeadline → steady e e1 →
  (b = true → Emit.before e1 = Emit.before e → timer_reason input e1 (slot_timer p slot) (due e1 span) p) →
  steady e (if b then set_slot_timer slot (span (policy_of e)) p e1 else e1).
Proof.
  intros Hp (Hs & Hpol & He) Hr. destruct b; [|done]. unfold steady, policy_of.
  unfold set_slot_timer at 1 2, set_timer. rewrite set_timer_at_state by done. split_and!; [done..|].
  apply emits_set_slot_timer; [|done]. specialize (Hr eq_refl (proj1 (emits_fixed _ _ He))).
  unfold due in Hr. by rewrite Hpol in Hr.
Qed.

Lemma emits_rearm e key fact i r0 r b beat :
  Event.body input = EventBody.SessionFact key fact → spoken_for input e key i r →
  RunState.slots (Emit.before e) !! i = Some r0 → slot_at e i = Some r →
  b = is_quiet_or_nudged (SlotRecord.state r0) →
  (∀ x, beat = Some x → fact = SessionFact.Heartbeat x) →
  emits input e (rearm i (SlotRecord.slot r) b beat e).
Proof.
  intros Hb Hk H0 Hr Hquiet Hbeat. set (slot := SlotRecord.slot r).
  assert (about_slot input e slot) as Ha by (eapply about_session; eauto).
  assert (∀ e1, Emit.before e1 = Emit.before e → spoken_for input e1 key i r) as Hk'
    by (intros e1 He1; unfold spoken_for; by rewrite He1).
  assert (∀ e1, Emit.before e1 = Emit.before e → RunState.slots (Emit.before e1) !! i = Some r0) as H0'
    by (intros e1 ->; done).
  assert (∀ kinds, b || beat_is kinds beat = true → alive_by kinds r0 fact) as Halive.
  { intros kinds [Hq|Hq]%orb_true_iff; [left; congruence|right; by eapply beat_is_In]. }
  assert (∀ k1 k2, b || beat_is k1 beat || beat_is k2 beat = true → alive_by (k1 ++ k2) r0 fact) as Halive2.
  { intros k1 k2 [[Hq|Hq]%orb_true_iff|Hq]%orb_true_iff; [left; congruence|right..];
      (eapply beat_is_In in Hq as (x & -> & Hx); [|done]); exists x; split; [done| |done|]; set_solver. }
  unfold rearm. set (e1 := if b then _ else e).
  assert (steady e e1) as H1 by (apply steady_clear_if; [done|]; split_and!; [done..|eauto with emit]).
  assert (slot_at e1 i = Some r) as Hr1 by (unfold slot_at; rewrite (proj1 H1); exact Hr).
  rewrite Hr1. rewrite (proj1 (proj2 H1)).
  destruct (has_open_call (SlotRecord.state r)) eqn:Eopen; simpl.
  - apply (steady_set_if _ _ _ _ call_bound_after); [done| |].
    + apply (steady_set_if _ _ _ _ subprocess_idle); [done| |].
      * by repeat apply steady_clear_if; [..|apply steady_clear].
      * intros [Hblind Hal]%andb_true_iff He. rewrite negb_true_iff in Hblind.
        eapply arm_idle; eauto. by apply (Halive2 [_] [_]).
    + intros [Hsam Hal]%andb_true_iff He. rewrite negb_true_iff in Hsam.
      eapply arm_bound; eauto. by apply (Halive2 [_] [_]).
  - apply (steady_set_if _ _ _ _ quiet_after); [done| |].
    + by repeat apply steady_clear.
    + intros Hal He. eapply arm_quiet; eauto.
Qed.

(** A fact the guard lets through, just folded: the record it names, before and after. *)
Section fact.
Context (e : Emit) (key : SessionKey) (fact : SessionFact) (i : nat) (r : SlotRecord).
Hypothesis Hbody : Event.body input = EventBody.SessionFact key fact.
Hypothesis Hguard : ignored_reason (Emit.before e) input = None.
Hypothesis Hstate : Emit.state e = apply_input (Emit.before e) input.
Hypothesis Hfind : find (Emit.state e) key = Some i.
Hypothesis Hr : slot_at e i = Some r.

Lemma fact_before :
  ∃ r0, RunState.slots (Emit.before e) !! i = Some r0 ∧ SlotRecord.slot r0 = SlotRecord.slot r ∧
    fact_ignored (Emit.before e) r0 fact = None ∧
    r = fact_record (is_superseded (Emit.before e) r0) (RunState.withdrawn (Emit.before e))
          (Event.at_ input) fact r0 ∧
    find_slot (Emit.state e) (SlotRecord.slot r) = Some i.
Proof using Type*.
  pose proof (find_find_slot _ _ _ _ Hfind Hr) as Hfs. unfold slot_at in Hr.
  rewrite Hstate in Hfind, Hr. unfold apply_input in Hfind, Hr. rewrite Hguard in Hfind, Hr.
  unfold act_input in Hfind, Hr. rewrite Hbody in Hfind, Hr.
  destruct (find (Emit.before e) key) as [j|] eqn:Ef; [|congruence].
  assert (i = j) as ->.
  { unfold apply_fact, find in Hfind. cbn in Hfind. rewrite position_alter in Hfind.
    - unfold find, state_session_key in Ef. unfold state_session_key in Hfind. cbn in Hfind. congruence.
    - intros x. by rewrite fact_record_slot. }
  unfold apply_fact in Hr. cbn in Hr. rewrite list_lookup_alter_eq in Hr.
  destruct (RunState.slots (Emit.before e) !! j) as [r0|] eqn:E0; simplify_eq/=.
  exists r0. rewrite fact_record_slot in Hfs |- *. split_and!; try done.
  unfold ignored_reason in Hguard. rewrite Hbody in Hguard. case_match; [done|].
  unfold record_at in Hguard. rewrite Ef in Hguard. simpl in Hguard. by rewrite E0 in Hguard.
Qed.
End fact.

Lemma emits_emit_fact e key fact :
  Event.body input = EventBody.SessionFact key fact →
  ignored_reason (Emit.before e) input = None →
  Emit.state e = apply_input (Emit.before e) input →
  emits input e (emit_fact key fact e).
Proof.
  intros Hb Hg Hs. unfold emit_fact. destruct (find (Emit.state e) key) as [i|] eqn:Ef;
    [|eauto with emit].
  destruct (RunState.slots (Emit.before e) !! i) as [r0|] eqn:E0; [|eauto with emit].
  destruct (slot_at e i) as [r|] eqn:Er; [|eauto with emit].
  destruct (fact_before _ _ _ _ _ Hb Hg Hs Ef Er) as (r0' & Hr0 & Hsl & Hacc & -> & Hfs).
  rewrite E0 in Hr0. simplify_eq. rewrite fact_record_slot in *.
  assert (Hk : spoken_for input e key i (fact_record (is_superseded (Emit.before e) r0')
    (RunState.withdrawn (Emit.before e)) (Event.at_ input) fact r0')) by (split; by rewrite <-Hs).
  assert (Ha : about_slot input e (SlotRecord.slot r0'))
    by (eapply about_session; [eauto|exact Hk|apply fact_record_slot]).
  assert (Hrearm : ∀ beat, (∀ x, beat = Some x → fact = SessionFact.Heartbeat x) →
    emits input e (rearm i (SlotRecord.slot r0') (is_quiet_or_nudged (SlotRecord.state r0')) beat e)).
  { intros beat Hbeat. assert (H := emits_rearm e key fact i r0' _ _ beat Hb Hk E0 Er eq_refl Hbeat).
    by rewrite fact_record_slot in H. }
  destruct fact as [backend pid|beat| | |pids|cause|];
    try (destruct (is_quiet_or_nudged (SlotRecord.state r0')); [by apply Hrearm|by eauto with emit]).
  - (* started *)
    destruct (is_starting (SlotRecord.state r0')) eqn:Est; [|by eauto with emit].
    destruct (clear_slot_timer_frame (SlotRecord.slot r0') TimerPurpose.StartDeadline e) as (_ & _ & Hbe & _).
    apply emits_set_slot_timer; [|apply emits_clear_slot_timer; eauto with emit].
    set (e1 := clear_slot_timer _ _ e) in *. clearbody e1.
    rewrite <-(fact_record_slot (is_superseded (Emit.before e) r0') (RunState.withdrawn (Emit.before e))
      (Event.at_ input) (SessionFact.Started backend pid) r0').
    eapply arm_started; [exact Hb| |by rewrite Hbe|done]. unfold spoken_for in *. by rewrite Hbe.
  - (* heartbeat *)
    destruct beat; try (apply Hrearm; intros x [= <-]; done).
    destruct (is_quiet_or_nudged (SlotRecord.state r0')); [by apply Hrearm|by eauto with emit].
  - (* group_lingering *)
    unfold group_lingering. assert (Hlive : is_live (SlotRecord.state r0') = true).
    { cbn in Hacc. by destruct (is_live _). }
    set (e1 := clear_slot_timers _ e).
    assert (H1 : emits input e e1) by (apply emits_clear_slot_timers; eauto with emit).
    pose proof (clear_slot_timers_folded (SlotRecord.slot r0') e (folded_start e Hs)) as Hfold. fold e1 in Hfold.
    assert (Hm : over (SlotRecord.state r0') = false →
      (∀ l a, SlotRecord.state r0' ≠ SlotState.Stopping l a) →
      may input e1 (Decision.Liveness (SlotRecord.slot r0') ReasonCode.Lost (Emit.at_ e1))).
    { intros Ho Hn. constructor. eapply liveness_lingering with (i := i); eauto.
      - subst e1. by rewrite clear_slot_timers_before.
      - unfold find_slot. subst e1. by rewrite clear_slot_timers_slots. }
    destruct (SlotRecord.state r0'); eauto using emits_clear_slot_timer with emit.
  - (* ended *)
    unfold ended. set (e1 := clear_slot_timers _ e).
    assert (H1 : emits input e e1) by (apply emits_clear_slot_timers; eauto with emit).
    assert (Hbe : RunState.slots (Emit.before e1) !! i = Some r0')
      by (subst e1; by rewrite clear_slot_timers_before).
    pose proof (clear_slot_timers_folded (SlotRecord.slot r0') e (folded_start e Hs)) as Hfold. fold e1 in Hfold.
    assert (Hr1 : slot_at e1 i = slot_at e i)
      by (subst e1; unfold slot_at; by rewrite clear_slot_timers_slots).
    rewrite Er in Hr1.
    assert (Hj : over (SlotRecord.state r0') = false →
      just_ended input e1 (SlotRecord.slot r0')
        (fact_record (is_superseded (Emit.before e) r0') (RunState.withdrawn (Emit.before e))
           (Event.at_ input) (SessionFact.Ended cause) r0') cause).
    { intros Ho. eapply JustEnded with (i := i); eauto.
      - unfold find_slot. subst e1. by rewrite clear_slot_timers_slots.
      - by rewrite fact_record_slot.
      - destruct r0' as [sl st]; destruct cause; cbn in *; by destruct st. }
    case_match; [done|]. cbn in Hacc.
    assert (Hpark : ∀ reason, over (SlotRecord.state r0') = false →
      exhausted_for (SlotRecord.state r0') cause = Some reason →
      emits input e (restart_or_park i (SlotRecord.slot r0') reason e1)).
    { intros reason Ho Hx. by eapply emits_restart_or_park; [exact Hr1|apply Hj|..]. }
    destruct (SlotRecord.state r0') as [| | | | |l []| |]; try done; eauto using emits_arm_ready;
      destruct cause; eauto using emits_hold with emit.
  - (* a fact of a newer release *) eauto with emit.
Qed.

(** *** A reply *)
Lemma emit_reply_timers slot span e :
  let e1 := set_slot_timer slot span TimerPurpose.WindDown (clear_slot_timers slot e) in
  RunState.slots (Emit.state e1) = RunState.slots (Emit.state e) ∧
  RunState.phase (Emit.state e1) = RunState.phase (Emit.state e) ∧
  RunState.run (Emit.state e1) = RunState.run (Emit.state e) ∧
  RunState.questions (Emit.state e1) = RunState.questions (Emit.state e) ∧
  Emit.before e1 = Emit.before e.
Proof.
  cbn zeta. split_and!; [| | | |apply clear_slot_timers_before];
    unfold set_slot_timer, set_timer; rewrite set_timer_at_state by done;
    by rewrite clear_slot_timers_state.
Qed.

(** A reply the guard lets through, just folded. *)
Lemma reply_before e key message escalate needs_rework i r :
  Event.body input = EventBody.Reply key message escalate needs_rework →
  ignored_reason (Emit.before e) input = None →
  Emit.state e = apply_input (Emit.before e) input →
  find (Emit.state e) key = Some i → slot_at e i = Some r →
  ∃ r0, RunState.slots (Emit.before e) !! i = Some r0 ∧ SlotRecord.slot r0 = SlotRecord.slot r ∧
    reply_ignored (Emit.before e) r0 = None.
Proof.
  intros Hb Hg Hs Hf Hr. unfold slot_at in Hr.
  rewrite Hs in Hf, Hr. unfold apply_input in Hf, Hr. rewrite Hg in Hf, Hr.
  unfold act_input in Hf, Hr. rewrite Hb in Hf, Hr.
  destruct (find (Emit.before e) key) as [j|] eqn:Ef; [|congruence].
  assert (i = j) as ->.
  { unfold apply_reply, find in Hf. cbn in Hf. rewrite position_alter in Hf by done.
    unfold find, state_session_key in Ef. unfold state_session_key in Hf. cbn in Hf. congruence. }
  unfold apply_reply in Hr. cbn in Hr. rewrite list_lookup_alter_eq in Hr.
  destruct (RunState.slots (Emit.before e) !! j) as [r0|] eqn:E0; simplify_eq/=.
  exists r0. split_and!; try done.
  unfold ignored_reason in Hg. rewrite Hb in Hg. case_match; [done|].
  unfold record_at in Hg. rewrite Ef in Hg. simpl in Hg. by rewrite E0 in Hg.
Qed.

Lemma emits_emit_reply e key message escalate needs_rework :
  Event.body input = EventBody.Reply key message escalate needs_rework →
  ignored_reason (Emit.before e) input = None →
  Emit.state e = apply_input (Emit.before e) input →
  emits input e (emit_reply key e).
Proof.
  intros Hb Hg Hst. unfold emit_reply. destruct (find _ key) as [i|] eqn:Ef; [|eauto with emit].
  destruct (slot_at e i) as [r|] eqn:Er; [|eauto with emit].
  destruct (reply_before _ _ _ _ _ _ _ Hb Hg Hst Ef Er) as (r0 & Hr0 & Hsl & Hacc).
  destruct (emit_reply_timers (SlotRecord.slot r)
    (stop_grace (policy_of (clear_slot_timers (SlotRecord.slot r) e))) e) as (Hs & Hph & Hr & Hqs & Hbef).
  set (e1 := set_slot_timer _ _ _ _) in *.
  assert (H1 : emits input e e1).
  { assert (Hk : spoken_for input e key i r) by (split; by rewrite <-Hst).
    apply emits_set_slot_timer.
    - eapply arm_wind_down; [exact Hb|]. unfold spoken_for in *. by rewrite clear_slot_timers_before.
    - apply emits_clear_slot_timers; [|eauto with emit]. eapply about_session; [eauto 6|exact Hk|done]. }
  assert (Hi : slot_at e1 i = Some r) by (unfold slot_at in *; by rewrite Hs).
  assert (Hfold : slots_folded input e1) by (unfold slots_folded; by rewrite Hs, Hph, Hbef, Hst).
  assert (Hq : RunState.questions (Emit.state e1) = RunState.questions (Emit.before e1)).
  { rewrite Hqs, Hbef, Hst. unfold apply_input. rewrite Hg. unfold act_input. rewrite Hb.
    by destruct (find (Emit.before e) key). }
  assert (Hrep : ∃ key message escalate needs_rework i r',
    Event.body input = EventBody.Reply key message escalate needs_rework ∧
    RunState.slots (Emit.before e1) !! i = Some r' ∧ reply_ignored (Emit.before e1) r' = None ∧
    SlotRecord.slot r' = SlotRecord.slot r) by (rewrite Hbef; eauto 12).
  rewrite Hi. simpl.
  destruct (SlotRecord.state r) as [| | | | | |m [] nr p o l|] eqn:Est;
    try (apply emits_after_reply; [done| |done..]; rewrite Hq; by eauto).
  apply emits_after_reply; [done| |done|].
  - intros q [H|H%list_elem_of_singleton]%elem_of_app; [|right; subst; by eauto].
    left. change (q ∈ RunState.questions (Emit.before e1)). by rewrite <-Hq.
  - apply emits_push; [done|]. eapply may_escalated; eauto; rewrite ?Hbef; try done.
    rewrite <-Ef. unfold find, state_session_key. by rewrite Hs, Hr.
Qed.

(** *** A timer *)
Section timer.
Context (e : Emit) (timer : string) (fired_at : Timestamp) (armed : ArmedTimer) (slot : Slot).
Hypothesis Hbody : Event.body input = EventBody.TimerFired timer fired_at.
Hypothesis Harmed : RunState.timers (Emit.before e) !! timer = Some armed.
Hypothesis Hnow : is_deferred (Emit.before e) timer fired_at (Emit.at_ e) = false.
Hypothesis Hslot : timer_slot timer = Some slot.

Lemma emits_conclude e1 reason :
  timer_verdict (purpose armed) = Some reason → slots_folded input e1 →
  emits input e e1 → emits input e (conclude slot reason e1).
Proof using Type*.
  intros Hv Hf He. destruct (emits_fixed _ _ He) as (Hb & Ha & _).
  apply emits_push; [done|]. constructor. eapply liveness_timer; eauto; by rewrite ?Hb, ?Ha.
Qed.

Lemma emits_quiet e1 :
  timer_verdict (purpose armed) = Some ReasonCode.Quiet → slots_folded input e1 →
  emits input e e1 → emits input e (quiet slot e1).
Proof using Type*.
  intros. unfold quiet. apply emits_set_slot_timer; [|by apply emits_conclude].
  by apply arm_went_quiet, last_snoc.
Qed.

Lemma emits_grace_over :
  purpose armed = TimerPurpose.StopGrace → emits input e (grace_over timer slot e).
Proof using Type*.
  intros Hp. unfold grace_over. destruct (bool_decide_reflect (grace_nth timer = Some 2));
    [|eauto with emit].
  case_match eqn:Ef; [eauto with emit|]. apply emits_push; [eauto with emit|].
  constructor. eapply park_would_not_stop; eauto.
  intros i r l Hi Hr Hl. by rewrite Hi in Ef; simpl in Ef; rewrite Hr in Ef; simpl in Ef;
    rewrite Hl in Ef.
Qed.
End timer.

Lemma emits_timer_fired e timer fired_at :
  Event.body input = EventBody.TimerFired timer fired_at → slots_folded input e →
  emits input e (timer_fired timer fired_at e).
Proof.
  intros Hb Hf. unfold timer_fired. case_match eqn:Et; [|eauto with emit].
  case_match eqn:Ed.
  { apply emits_set_timer; [by eapply arm_again|eauto with emit]. }
  assert (Hfired : fired input e timer (purpose a)) by by eexists _, _.
  assert (Habout : ∀ slot, timer_slot timer = Some slot → about_slot input e slot)
    by (intros; by eapply about_timer).
  destruct (purpose a) eqn:Ep; try (case_match eqn:Es; [|eauto with emit]); subst;
    eauto using emits_clear_slot_timer, emits_clear_slot_timers with emit;
    try (eapply emits_quiet; rewrite ?Ep; by eauto using emits_clear_slot_timer with emit);
    try (eapply emits_conclude; rewrite ?Ep; by eauto using emits_clear_slot_timers with emit).
  - unfold root_period. case_match eqn:El; [apply N.leb_le in El; eauto with emit|].
    apply N.leb_gt in El. unfold set_root_deadline. apply emits_set_timer; [|eauto with emit]. apply arm_root. right. left. eauto.
  - unfold call_bound. repeat case_match; eauto with emit.
    eapply emits_quiet; rewrite ?Ep; eauto using emits_clear_slot_timer with emit.
  - eapply emits_grace_over; eauto.
Qed.

(** *** The person's inputs *)
Lemma answer_pending e question disposition message q slot m :
  Event.body input = EventBody.Answer question disposition message →
  ignored_reason (Emit.before e) input = None →
  Emit.state e = apply_input (Emit.before e) input → asked_first e question q →
  Question.asked q = Asked.Escalation slot m →
  RunState.pending_start (Emit.state e) = Some (StartCause.Answer message).
Proof.
  intros Hb Hg Hst (i & Hi & Hq)%find_first_position Ha. rewrite Hst. unfold apply_input. rewrite Hg.
  unfold act_input. rewrite Hb. unfold apply_answer. rewrite Hi, Hq. cbn. by rewrite Ha.
Qed.

Lemma emits_answer e question disposition message :
  Event.body input = EventBody.Answer question disposition message →
  ignored_reason (Emit.before e) input = None →
  Emit.state e = apply_input (Emit.before e) input →
  emits input e (answer question disposition e).
Proof.
  intros Hb Hg Hst. pose proof (books_start e Hst) as Hf. unfold answer.
  case_match eqn:Eq; [|eauto with emit].
  destruct (Question.asked q) eqn:Ea; [eauto 8 using answer_pending with emit|].
  destruct disposition; [| |eauto with emit].
  - unfold one_more_pass. case_match eqn:Ed; [|eauto with emit].
    apply bind_Some in Ed as (d & Hd & Ho).
    apply emits_rework; [eapply may_continue; eauto| |eauto with emit].
    eapply visit_continued; eauto. apply last_snoc.
  - unfold accept. case_match eqn:Ed.
    { apply bind_Some in Ed as (d & Hd & Hn). apply emits_start_step; [|eauto with emit].
      eapply visit_accepted; eauto. }
    apply emits_finish_run; [|eauto with emit]. eapply finish_accepted; eauto.
Qed.

Lemma emits_resume e named :
  Event.body input = EventBody.Resume named → slots_folded input e →
  emits input e (resume named e).
Proof.
  intros Hb Hf. unfold resume. case_match eqn:Er; [|eauto with emit].
  apply bind_Some in Er as (i & Hi & Hr).
  assert (Hw : ∀ e1, Emit.before e1 = Emit.before e → slots_folded input e1 → is_Some (SlotRecord.condition s) →
    is_would_not_stop s = false → attempt_reason input e1 (SlotRecord.slot s)).
  { intros e1 Hb1 Hf1 Hc Hn. eapply attempt_resume; eauto; by rewrite Hb1. }
  destruct (SlotRecord.condition s) as [[reason until order|reason order since]|] eqn:Ec;
    [| |eauto with emit].
  - apply emits_restart;
      [|apply emits_clear_slot_timer; [by eapply about_resumed|eauto with emit]]. apply Hw; [| |eauto|].
    + apply clear_timer_fixed.
    + by apply clear_timer_folded.
    + unfold is_would_not_stop. by rewrite Ec.
  - case_match eqn:Ew; [eauto with emit|]. apply emits_restart; [|eauto with emit].
    apply Hw; [done|done|eauto|]. unfold is_would_not_stop. by rewrite Ec.
Qed.

Lemma emits_emit_input e :
  ignored_reason (Emit.before e) input = None →
  Emit.state e = apply_input (Emit.before e) input →
  emits input e (emit_input input e).
Proof.
  intros Hg Hst. pose proof (folded_start e Hst) as Hfold. pose proof (books_start e Hst) as Hbooks.
  unfold emit_input. destruct (Event.body input) eqn:Eb;
    eauto using emits_emit_fact, emits_emit_reply, emits_timer_fired, emits_answer, emits_resume
      with emit.
  - unfold set_root_deadline. apply emits_set_timer; [|eauto with emit]. apply arm_root. left. apply last_snoc.
  - case_match eqn:Ep; [|eauto with emit..].
    apply emits_push; [|eapply may_claim_requested; [done|by rewrite clear_timer_state]].
    apply emits_clear_timer; [by eapply clear_root|eauto with emit].
  - apply emits_set_tree_window; [by left|]. case_match eqn:Eh; eauto 8 with emit.
  - apply emits_push; [eauto with emit|]. eapply may_run_queued; [done|].
    rewrite Hst. unfold apply_input. rewrite Hg. unfold act_input. rewrite Eb.
    unfold ignored_reason in Hg. rewrite Eb in Hg. case_match; [done|]. case_match; [done|].
    cbn in Hg. destruct (RunState.phase (Emit.before e)); try done. eauto.
  - unfold finished. case_match eqn:Ep; eauto with emit.
  - apply emits_arm_ready, emits_clear_timer; [|eauto with emit]. apply clear_window; [|done]. left. eauto.
  - case_match eqn:Ec; [|eauto with emit]. apply andb_true_iff in Ec as [Ec Hn%bool_decide_eq_true].
    apply emits_push; [apply emits_clear_timer; [|eauto with emit]|].
    + apply clear_window; [|done]. right. eauto.
    + eapply may_park_tree; [done..|]. by rewrite (proj1 (clear_timer_fixed _ _)).
  - unfold nudged. case_match eqn:Ef; [|eauto with emit]. apply bind_Some in Ef as (i & Hi & Hr).
    apply emits_set_slot_timer; [|eauto with emit]. eapply arm_nudged; [done|]. split; by rewrite <-Hst.
  - unfold stop_signalled. case_match eqn:Ef; [|eauto with emit]. apply bind_Some in Ef as (i & Hi & Hr).
    destruct (ladder_of (SlotRecord.state s)) as [ladder|] eqn:El; simpl; [|eauto with emit].
    case_match eqn:En; [|eauto with emit]. rewrite orb_true_iff, !bool_decide_eq_true in En.
    apply emits_set_timer; [|eauto with emit]. eapply arm_grace; [done| |done..]. split; by rewrite <-Hst.
  - unfold resume_run. destruct (RunState.condition (Emit.before e)) as [c|] eqn:Ec; [|eauto with emit].
    assert (Hres : resumed_from input e (rc_reason c)) by (split; [done|by rewrite Ec]).
    destruct (rc_reason c); eauto with emit.
    + unfold set_root_deadline. apply emits_set_timer; [|eauto with emit]. apply arm_root. by right; right.
    + apply emits_set_tree_window; [by right|eauto with emit].
  - unfold withdrawn. case_match eqn:Ef; eauto with emit.
Qed.
End refines.

(** ** The refinement *)

(** Where [decide] stands once it has emitted [pre]. *)
Definition emitted (e : Emit) (pre : list Decision) : Emit := {|
  Emit.before := Emit.before e;
  Emit.state := foldl (apply_decision (Emit.at_ e)) (Emit.state e) pre;
  Emit.at_ := Emit.at_ e;
  Emit.def := Emit.def e;
  Emit.out := Emit.out e ++ pre;
|}.

Lemma emitted_push e pre d : push d (emitted e pre) = emitted e (pre ++ [d]).
Proof. unfold push, emitted. simpl. by rewrite foldl_app, app_assoc. Qed.

Lemma emits_emitted input e e1 :
  emits input e e1 →
  ∃ ds, e1 = emitted e ds ∧
    ∀ pre d post, ds = pre ++ d :: post → may input (emitted e pre) d.
Proof.
  induction 1 as [|e1 d He (ds & -> & IH) Hd].
  - exists []. split; [|by intros [] ? ?].
    destruct e. unfold emitted. simpl. by rewrite app_nil_r.
  - exists (ds ++ [d]). split; [apply emitted_push|]. intros pre d' post Heq.
    destruct post as [|x post] using rev_ind.
    + by apply app_inj_tail in Heq as [<- <-].
    + clear IHpost. rewrite app_comm_cons, app_assoc in Heq. apply app_inj_tail in Heq as [Heq _].
      eauto.
Qed.

(** The state [decide] has reached once it has emitted [pre]. *)
Definition emit_after (s : RunState) (input : Event) (def : FlowDef) (pre : list Decision) : Emit :=
  emitted (emit_start s input def) pre.

Lemma decide_emitted s input def :
  ignored_reason s input = None →
  emit_input input (emit_start s input def) = emit_after s input def (decide s input def) ∧
  ∀ pre d post, decide s input def = pre ++ d :: post → may input (emit_after s input def pre) d.
Proof.
  intros Hi. destruct (emits_emitted _ _ _ (emits_emit_input input (emit_start s input def) Hi eq_refl))
    as (ds & Heq & Hmay).
  unfold decide. rewrite Hi, Heq. done.
Qed.

Lemma decide_may s input def d :
  ignored_reason s input = None → d ∈ decide s input def →
  ∃ pre post, decide s input def = pre ++ d :: post ∧ may input (emit_after s input def pre) d.
Proof.
  intros Hi (pre & post & Heq)%list_elem_of_split. exists pre, post. split; [done|].
  eapply decide_emitted; eauto.
Qed.
