(* ===== verification/Replay.v ===== *)
(** * The list and its replay are the same thing

    [decide] folds what it emits, so the state it reaches is the fold of its list; the host's [reduce]
    is total on every run, numbers its events without a gap, and a replay of the log from the start
    reaches the state the host holds. *)

From S2P Require Import Prelude Text Ids Codes Events Flow State Effects Guard Input Evolve Decide Host Examples Spec.
From stdpp Require Import options.

(** ** The position in the log is read by nothing *)
Section seq_frame.
Implicit Types (s : RunState).

Lemma foldl_start_member_seq step visit attempt cause at_ members s n :
  foldl (start_member step visit attempt cause at_) (s <| RunState.seq := n |>) members =
  (foldl (start_member step visit attempt cause at_) s members) <| RunState.seq := n |>.
Proof. revert s; induction members as [|m l IH]; intros s; simpl; [done|]. by rewrite <-IH. Qed.

Lemma alter_record_seq slot f s n :
  alter_record slot f (s <| RunState.seq := n |>) = (alter_record slot f s) <| RunState.seq := n |>.
Proof.
  unfold alter_record. change (find_slot (s <| RunState.seq := n |>) slot) with (find_slot s slot).
  by destruct (find_slot s slot).
Qed.

Lemma apply_decision_seq at_ s d n :
  apply_decision at_ (s <| RunState.seq := n |>) d = (apply_decision at_ s d) <| RunState.seq := n |>.
Proof.
  destruct d as [| | | | | | | |timer fire_at p| | | |[slot|] reason| | | |]; try reflexivity.
  - cbn -[foldl]. unfold apply_step_started. rewrite <-foldl_start_member_seq. cbn -[foldl].
    by destruct (RunState.phase s).
  - cbn. case_match; [|done]. unfold arm_start. case_match; [|done].
    by rewrite <-alter_record_seq.
  - cbn. unfold apply_liveness. by rewrite <-alter_record_seq.
  - cbn. by rewrite <-alter_record_seq.
  - cbn. by rewrite <-alter_record_seq.
Qed.

Lemma foldl_apply_decision_seq at_ s ds n :
  foldl (apply_decision at_) (s <| RunState.seq := n |>) ds =
  (foldl (apply_decision at_) s ds) <| RunState.seq := n |>.
Proof.
  revert s; induction ds as [|d ds IH]; intros s; simpl; [done|]. by rewrite apply_decision_seq, IH.
Qed.

(** The guard reads neither the input's number nor its origin. *)
Lemma ignored_reason_logged s input :
  ignored_reason s (logged_input s input) = ignored_reason s input.
Proof. reflexivity. Qed.
End seq_frame.

(** ** One step of the host *)

Definition known (d : Decision) : bool := negb (holds_unknown_value d).

(** The state [decide] reaches: the input and its decisions folded. *)
Definition decided (s : RunState) (input : Event) : RunState :=
  foldl (apply_decision (Event.at_ input)) (apply_input s input) (decide s input (RunState.def s)).

Lemma fold_from_app s l1 l2 :
  fold_from s (l1 ++ l2) =
  match fold_from s l1 with
  | Folded.Whole s1 => fold_from s1 l2
  | Folded.NewerNxs s1 => Folded.NewerNxs s1
  end.
Proof. revert s; induction l1 as [|e l1 IH]; intros s; simpl; [done|]. case_result; auto. Qed.

Lemma fold_decisions s logged s' i ds :
  match fold_from (s' <| RunState.seq := u64_wrap (Event.seq logged + i) |>)
          (imap (λ j d, decision_event s logged (N.to_nat i + j) d) ds) with
  | Folded.Whole next =>
      forallb known ds = true ∧
      next = (foldl (apply_decision (Event.at_ logged)) s' ds)
               <| RunState.seq := u64_wrap (Event.seq logged + i + N.of_nat (length ds)) |>
  | Folded.NewerNxs _ => forallb known ds = false
  end.
Proof.
  revert i s'; induction ds as [|d ds IH]; intros i s'; simpl.
  { split; [done|]. by rewrite N.add_0_r. }
  unfold evolve, is_unknown_decision, known at 1 3. simpl.
  destruct (holds_unknown_value d); simpl; [done|].
  rewrite apply_decision_seq. specialize (IH (i + 1) (apply_decision (Event.at_ logged) s' d)).
  rewrite Nat.add_0_r, N2Nat.id.
  replace (Event.seq logged + 1 + i) with (Event.seq logged + (i + 1)) by lia.
  rewrite (imap_ext _ (λ j d, decision_event s logged (N.to_nat (i + 1) + j) d)).
  2:{ intros j x _. simpl. f_equal. lia. }
  replace (Event.seq logged + i + N.of_nat (S (length ds)))
    with (Event.seq logged + (i + 1) + N.of_nat (length ds)) by lia.
  exact IH.
Qed.

(** What [reduce] returns: the events, and the decided state at the last one's number; nothing exactly
    when a decision carries a value this version does not know. *)
Lemma reduce_spec s input :
  is_decision (Event.body input) = false →
  reduce s input =
  if forallb known (decide s (logged_input s input) (RunState.def s)) then
    Some (reduce_events s input,
      (decided s (logged_input s input))
        <| RunState.seq := u64_wrap (RunState.seq s + N.of_nat (length (reduce_events s input))) |>)
  else None.
Proof.
  intros Hd. unfold reduce, reduce_events. set (l := logged_input s input).
  assert (He : evolve s l = Ok ((apply_input s l) <| RunState.seq := u64_wrap (Event.seq l + 0) |>)).
  { assert (Hl : u64_wrap (Event.seq l + 0) = Event.seq l).
    { subst l. simpl. unfold u64_wrap, u64_succ. by rewrite N.add_0_r, N.Div0.mod_mod. }
    rewrite Hl. unfold evolve, is_unknown_decision. subst l. simpl.
    destruct (Event.body input); try done. }
  simpl fold_from. rewrite He.
  pose proof (fold_decisions s l (apply_input s l) 0 (decide s l (RunState.def s))) as Hf.
  change (λ j d, decision_event s l (N.to_nat 0 + j) d) with (decision_event s l) in Hf.
  destruct (fold_from _ _) as [next|next].
  - destruct Hf as [-> ->]. do 3 f_equal. simpl. rewrite length_imap.
    unfold u64_succ. change (?a mod u64_modulus) with (u64_wrap a).
    rewrite <-N.add_assoc, u64_wrap_add. f_equal. lia.
  - by rewrite Hf.
Qed.

(** ** Invariants of a run

    A predicate on states that an accepted input, a justified decision, a consumed poisoned row and a
    new number keep holds of every state a run reaches. [J] is what the step may rely on. *)
Definition deciding (input : Event) (e : Emit) : Prop :=
  is_decision (Event.body input) = false ∧
  ignored_reason (Emit.before e) input = None ∧
  ∃ pre, e = emit_after (Emit.before e) input (RunState.def (Emit.before e)) pre.

Record preserved (J I : RunState → Prop) : Prop := {
  preserved_seq s n : J s → I s → I (s <| RunState.seq := n |>);
  preserved_input s input :
    J s → I s → is_decision (Event.body input) = false → ignored_reason s input = None →
    I (act_input s input);
  preserved_decision input e d :
    J (Emit.before e) → I (Emit.before e) → J (Emit.state e) → I (Emit.state e) →
    deciding input e → may input e d →
    I (apply_decision (Emit.at_ e) (Emit.state e) d);
  preserved_poison s at_ :
    J s → I s → I (apply_decision at_ s (Decision.Parked None ReasonCode.PoisonInput));
}.

Definition invariant (I : RunState → Prop) : Prop := preserved (λ _, True) I.

Lemma preserved_and J I : invariant J → preserved J I → invariant (λ s, J s ∧ I s).
Proof.
  intros HJ HI. split.
  - intros s n _ [? ?]. split; [by apply HJ|by apply HI].
  - intros s input _ [? ?] ? ?. split; [by apply HJ|by apply HI].
  - intros input e d _ [? ?] _ [? ?] ? ?. split; [eapply HJ|eapply HI]; eauto.
  - intros s at_ _ [? ?]. split; [by apply HJ|by apply HI].
Qed.

Section invariant.
Context (I : RunState → Prop) (HI : invariant I).

Lemma invariant_apply_input s input :
  I s → is_decision (Event.body input) = false → I (apply_input s input).
Proof using Type*.
  intros Hs Hd. unfold apply_input. case_match eqn:E; [done|]. by apply HI.
Qed.

(** Every state on the way of [decide] satisfies the invariant. *)
Lemma invariant_emitted s input pre post :
  I s → is_decision (Event.body input) = false → ignored_reason s input = None →
  decide s input (RunState.def s) = pre ++ post →
  I (Emit.state (emit_after s input (RunState.def s) pre)).
Proof using Type*.
  intros Hs Hd Hi. revert post. induction pre as [|d pre IH] using rev_ind; intros post Heq.
  - by apply invariant_apply_input.
  - rewrite <-app_assoc in Heq. simpl in Heq.
    destruct (decide_emitted s input (RunState.def s) Hi) as [_ Hmay].
    specialize (Hmay _ _ _ Heq). unfold emit_after in *. rewrite <-emitted_push.
    eapply (preserved_decision _ _ HI input (emitted _ pre)); eauto.
    repeat split; try done. by exists pre.
Qed.

Lemma invariant_decided s input :
  I s → is_decision (Event.body input) = false → I (decided s input).
Proof using Type*.
  intros Hs Hd. unfold decided. destruct (ignored_reason s input) eqn:Hi.
  - unfold decide, apply_input. rewrite Hi. done.
  - exact (invariant_emitted s input _ [] Hs Hd Hi (eq_sym (app_nil_r _))).
Qed.

Lemma invariant_step s events next : step s events next → I s → I next.
Proof using Type*.
  intros [input events' next' Hd Hr|at_ key next' He] Hs.
  - rewrite reduce_spec in Hr by done. case_match; simplify_eq.
    apply HI; [done|]. by apply invariant_decided.
  - unfold evolve in He. simpl in He. simplify_eq. apply HI; [done|]. by apply HI.
Qed.

Lemma invariant_reachable run def s : I (initial run def) → reachable run def s → I s.
Proof using Type*.
  intros H0 [log Hrun]. induction Hrun as [|log s events next Hrun IH Hstep _]; [done|].
  eauto using invariant_step.
Qed.
End invariant.

(** ** What an input and a decision leave alone *)
Ltac input_cases :=
  unfold act_input, apply_fact, apply_reply, apply_answer, apply_firing, alter_slot, map_slots in *;
  repeat (case_match; simplify_eq); try done.

Section frames.
Implicit Types (s : RunState) (input : Event).

Lemma act_input_timers s input t a :
  RunState.timers (act_input s input) !! t = Some a → RunState.timers s !! t = Some a.
Proof. input_cases; cbn; try done; rewrite lookup_delete_Some; by intros [_ ?]. Qed.

Lemma act_input_fixed s input :
  RunState.def (act_input s input) = RunState.def s ∧
  RunState.run (act_input s input) = RunState.run s.
Proof. input_cases. Qed.

(** The phase an input makes: a prepared tree, or a parked one. *)
Lemma act_input_phase s input :
  RunState.phase (act_input s input) = RunState.phase s ∨
  (∃ base found, Event.body input = EventBody.TreePrepared base found ∧
     RunState.phase (act_input s input) = Phase.Running Prepared) ∨
  (∃ o reason tree parked, Event.body input = EventBody.TreeParked parked ∧
     RunState.phase s = Phase.Finishing o reason tree ∧
     RunState.phase (act_input s input) = Phase.Finishing o reason (ParkPhase.Parked parked)).
Proof. input_cases; cbn; eauto 10. Qed.

Lemma foldl_start_member_frame step visit attempt cause at_ members s :
  foldl (start_member step visit attempt cause at_) s members =
  s <| RunState.slots :=
    RunState.slots (foldl (start_member step visit attempt cause at_) s members) |>.
Proof.
  revert s; induction members as [|m l IH]; intros s; simpl; [by destruct s|]. by rewrite IH.
Qed.

(** A step or a seat is started by appending one waiting attempt per member, with nothing of its own
    but the seat. *)
Lemma foldl_start_member_slots step visit attempt cause at_ members s :
  ∃ rs, RunState.slots (foldl (start_member step visit attempt cause at_) s members) =
          RunState.slots s ++ rs ∧
    Forall2 (λ m r, SlotRecord.slot r = MkSlot step visit m attempt ∧
      SlotRecord.state r = SlotState.Pending ∧ SlotRecord.condition r = None ∧
      SlotRecord.fresh r = false ∧
      ∃ s', SlotRecord.restarts r = SlotRecord.restarts (new_record s' step visit attempt m cause) ∧
            SlotRecord.holds r = SlotRecord.holds (new_record s' step visit attempt m cause) ∧
            ∃ rs', RunState.slots s' = RunState.slots s ++ rs' ∧ RunState.def s' = RunState.def s)
      members rs.
Proof.
  revert s; induction members as [|m l IH]; intros s; simpl.
  { exists []. by rewrite app_nil_r. }
  destruct (IH (start_member step visit attempt cause at_ s m)) as (rs & -> & Hrs).
  cbn. rewrite <-app_assoc. eexists. split; [done|]. constructor.
  - cbn. unfold new_record, next_attempt. repeat split; try (repeat case_match; done).
    exists s. repeat split. exists []. by rewrite app_nil_r.
  - eapply Forall2_impl; [exact Hrs|]. cbn.
    intros m' r (?&?&?&?&s'&?&?&rs'&Hs&?). repeat split; try done. exists s'.
    repeat split; try done. rewrite <-app_assoc in Hs. eauto.
Qed.

Lemma alter_record_frame slot f s :
  alter_record slot f s = s <| RunState.slots := RunState.slots (alter_record slot f s) |>.
Proof. unfold alter_record. case_match; by destruct s. Qed.

Lemma alter_record_slots slot f s :
  RunState.slots (alter_record slot f s) =
  match find_slot s slot with
  | Some i => alter f i (RunState.slots s)
  | None => RunState.slots s
  end.
Proof. unfold alter_record. by case_match. Qed.

End frames.

Ltac decision_frame d :=
  destruct d as [| | | | | | | |timer fire_at p| | | |[slot|] reason| | | |]; cbn; try done;
  unfold apply_liveness, apply_step_started, arm_start;
  repeat (case_match; try done);
  first [by rewrite foldl_start_member_frame | by rewrite alter_record_frame].

Section decision_frames.
Implicit Types (s : RunState).

Lemma apply_decision_timers at_ s d :
  RunState.timers (apply_decision at_ s d) =
  match d with
  | Decision.TimerSet t fire_at p => <[t := MkArmedTimer fire_at p]> (RunState.timers s)
  | Decision.TimerCleared t => delete t (RunState.timers s)
  | Decision.Finished _ _ => ∅
  | _ => RunState.timers s
  end.
Proof. decision_frame d. Qed.

Lemma apply_decision_phase at_ s d :
  RunState.phase (apply_decision at_ s d) =
  match d with
  | Decision.ClaimRequested => Phase.Queued None
  | Decision.RunQueued behind => Phase.Queued behind
  | Decision.StepStarted _ _ _ _ =>
      match RunState.phase s with
      | Phase.Queued _ | Phase.Created => Phase.Running Unprepared
      | p => p
      end
  | Decision.Finishing o reason => Phase.Finishing o reason ParkPhase.Unparked
  | Decision.Finished o reason => Phase.Finished o reason
  | _ => RunState.phase s
  end.
Proof. decision_frame d. Qed.

(** The books of a run: what was asked, which visit is which, where the run stands. *)
Lemma apply_decision_questions at_ s d :
  RunState.questions (apply_decision at_ s d) =
  match d with
  | Decision.Escalated question slot message =>
      RunState.questions s ++ [Question.Mk question (Asked.Escalation slot message) at_ false]
  | Decision.Ceiling question step pass verdict =>
      RunState.questions s ++ [Question.Mk question (Asked.Ceiling step pass verdict) at_ false]
  | _ => RunState.questions s
  end.
Proof. decision_frame d. Qed.

Lemma apply_decision_visits at_ s d :
  RunState.visits (apply_decision at_ s d) =
  match d with
  | Decision.StepStarted step visit _ _ => <[step := visit]> (RunState.visits s)
  | _ => RunState.visits s
  end.
Proof. decision_frame d. Qed.

Lemma apply_decision_current at_ s d :
  RunState.current_step (apply_decision at_ s d) =
  match d with
  | Decision.StepStarted step _ _ _ => Some step
  | _ => RunState.current_step s
  end.
Proof. decision_frame d. Qed.

Lemma apply_decision_fixed at_ s d :
  RunState.def (apply_decision at_ s d) = RunState.def s ∧
  RunState.run (apply_decision at_ s d) = RunState.run s ∧
  RunState.withdrawn (apply_decision at_ s d) = RunState.withdrawn s ∧
  RunState.policy (apply_decision at_ s d) = RunState.policy s.
Proof. decision_frame d. Qed.
End decision_frames.

(** ** The reducer writes only what it can read *)
Definition known_values (s : RunState) : Prop :=
  (∀ t a, RunState.timers s !! t = Some a → is_TimerPurpose_unknown (purpose a) = false) ∧
  (∀ o, outcome s = Some o → is_Outcome_unknown o = false).

Lemma may_known input e d :
  known_values (Emit.before e) → known_values (Emit.state e) → may input e d → known d = true.
Proof.
  intros [Ht _] [_ Ho] H. unfold known. destruct H; cbn; try done.
  - by destruct (existsb id bits).
  - destruct H; try done. by erewrite Ht.
  - by destruct H.
  - rewrite Ho; [done|]. unfold outcome. by rewrite H0.
Qed.

Lemma known_values_invariant : invariant known_values.
Proof.
  split.
  - done.
  - intros s input _ [Ht Ho] _ _. split.
    + intros t a Ha%act_input_timers. eauto.
    + intros o. unfold outcome in *.
      destruct (act_input_phase s input) as [->|[(?&?&_&->)|(?&?&?&?&_&Hp&->)]]; [by apply Ho|done|].
      rewrite Hp in Ho. eauto.
  - intros input e d _ Hb _ Hs _ Hmay. pose proof (may_known _ _ _ Hb Hs Hmay) as Hk.
    destruct Hs as [Ht Ho]. unfold known in Hk. apply negb_true_iff in Hk. split.
    + intros t a. rewrite apply_decision_timers.
      destruct d; eauto; rewrite ?lookup_insert_Some, ?lookup_delete_Some, ?lookup_empty;
        naive_solver.
    + intros o. unfold outcome in *. rewrite apply_decision_phase.
      destruct d; eauto; cbn in Hk; try naive_solver. case_match; naive_solver.
  - intros s at_ _ [Ht Ho]. split; [exact Ht|exact Ho].
Qed.

Lemma known_values_initial run def : known_values (initial run def).
Proof. split; [intros t a; cbn; by rewrite lookup_empty|done]. Qed.

Lemma reachable_known run def s : reachable run def s → known_values s.
Proof.
  apply invariant_reachable; [apply known_values_invariant|apply known_values_initial].
Qed.

Lemma decide_known s input :
  known_values s → is_decision (Event.body input) = false →
  forallb known (decide s input (RunState.def s)) = true.
Proof.
  intros Hs Hd. apply forallb_forall. intros d Hin%list_elem_of_In.
  destruct (ignored_reason s input) eqn:Hi.
  { unfold decide in Hin. rewrite Hi in Hin. by apply list_elem_of_singleton in Hin as ->. }
  destruct (decide_may _ _ _ _ Hi Hin) as (pre & post & Heq & Hmay).
  eapply may_known; [| |exact Hmay]; [done|].
  eapply (invariant_emitted _ known_values_invariant); eauto.
Qed.

(** ** The properties of a replay *)

Lemma reduce_known s input :
  known_values s → is_decision (Event.body input) = false →
  reduce s input = Some (reduce_events s input,
    (decided s (logged_input s input))
      <| RunState.seq := u64_wrap (RunState.seq s + N.of_nat (length (reduce_events s input))) |>).
Proof. intros Hs Hd. rewrite reduce_spec by done. by rewrite (decide_known s (logged_input s input)). Qed.

Lemma reduce_events_seq s input :
  Event.seq <$> reduce_events s input =
  (λ i, u64_wrap (RunState.seq s + N.of_nat (S i))) <$> seq 0 (length (reduce_events s input)).
Proof.
  unfold reduce_events. cbn [fmap list_fmap length seq]. f_equal.
  - rewrite length_imap, <-fmap_S_seq. apply list_eq. intros i.
    rewrite !list_lookup_fmap, list_lookup_imap. set (ds := decide _ _ _).
    destruct (ds !! i) as [d|] eqn:E; simpl.
    + rewrite lookup_seq_lt by eauto using lookup_lt_Some. simpl. f_equal.
      change (u64_succ (RunState.seq s)) with (u64_wrap (RunState.seq s + 1)).
      rewrite <-N.add_assoc, u64_wrap_add. f_equal. lia.
    + apply lookup_ge_None in E. by rewrite lookup_seq_ge.
Qed.

Lemma step_fold s events next :
  step s events next → fold_from s events = Folded.Whole next.
Proof.
  intros [input events' next' Hd Hr|at_ key next' He]; [|cbn -[evolve]; by rewrite He].
  unfold reduce in Hr. case_match eqn:Hf; by simplify_eq.
Qed.

Lemma step_seq s events next :
  step s events next →
  Event.seq <$> events = (λ i, u64_wrap (RunState.seq s + N.of_nat (S i))) <$> seq 0 (length events) ∧
  u64_wrap (RunState.seq next) = u64_wrap (RunState.seq s + N.of_nat (length events)).
Proof.
  intros [input events' next' Hd Hr|at_ key next' He].
  - rewrite reduce_spec in Hr by done. case_match; simplify_eq.
    split; [apply reduce_events_seq|]. cbn [RunState.seq set_field set_RunState_seq].
    unfold u64_wrap at 1 2. by rewrite N.Div0.mod_mod.
  - unfold evolve in He. simpl in He. simplify_eq. split.
    + done.
    + simpl. unfold u64_succ, u64_wrap. by rewrite N.Div0.mod_mod.
Qed.

Lemma run_of_log run def log s :
  run_of run def log s →
  fold_from (initial run def) log = Folded.Whole s ∧
  Event.seq <$> log = (λ i, u64_wrap (N.of_nat (S i))) <$> seq 0 (length log) ∧
  u64_wrap (RunState.seq s) = u64_wrap (N.of_nat (length log)).
Proof.
  induction 1 as [|log s events next Hrun (Hf & Hseq & Hs) Hstep _]; [done|].
  destruct (step_seq _ _ _ Hstep) as [He Hn]. split_and!.
  - rewrite fold_from_app, Hf. by apply step_fold.
  - rewrite fmap_app, Hseq, He, length_app, seq_app, fmap_app. f_equal.
    apply list_eq. intros i. rewrite !list_lookup_fmap.
    destruct (base.decide (i < length events)%nat) as [Hi|Hi].
    + rewrite !lookup_seq_lt by done. simpl. f_equal.
      rewrite <-u64_wrap_add, Hs, u64_wrap_add. f_equal. lia.
    + by rewrite !lookup_seq_ge by lia.
  - rewrite Hn, <-u64_wrap_add, Hs, u64_wrap_add, length_app. f_equal. lia.
Qed.

(** The host can always fold what the reducer writes. On every state a run reaches, every input of
    the inbox that is no decision has a result: its events are the input followed by the decisions of
    [decide], and the next state is their fold. Nothing a run holds makes [reduce] answer [None]. *)
Lemma reduce_total run def s input :
  reachable run def s → is_decision (Event.body input) = false →
  reduce s input = Some (reduce_events s input,
    (decided s (logged_input s input))
      <| RunState.seq := u64_wrap (RunState.seq s + N.of_nat (length (reduce_events s input))) |>).
Proof. intros. apply reduce_known; eauto using reachable_known. Qed.

Lemma reduce_total_witness :
  reduce running_state (withdrawn_input 6000) = Some (reduce_events running_state (withdrawn_input 6000),
    (decided running_state (logged_input running_state (withdrawn_input 6000)))
      <| RunState.seq := u64_wrap (RunState.seq running_state +
           N.of_nat (length (reduce_events running_state (withdrawn_input 6000)))) |>).
Proof.
  apply (reduce_total sample_run sample_def running_state (withdrawn_input 6000) running_reachable).
  reflexivity.
Defined.

(** C24: a log is its run. Replaying the whole log from the initial state with [fold_events] succeeds and
    gives the very state the host reached step by step, whatever inputs and poisoned rows it consumed,
    and the log's numbers are 1, 2, 3, ... without a gap (as [u64] counts). *)
Theorem replay_log run def log s :
  run_of run def log s →
  fold_events run def log = Folded.Whole s ∧
  Event.seq <$> log = (λ i, u64_wrap (N.of_nat (S i))) <$> seq 0 (length log).
Proof. intros (? & ? & _)%run_of_log. by split. Qed.

Lemma replay_log_witness :
  ∃ log, fold_events sample_run sample_def log = Folded.Whole finished_state ∧
    Event.seq <$> log = (λ i, u64_wrap (N.of_nat (S i))) <$> seq 0 (length log).
Proof.
  destruct finished_reachable as [log Hlog]. exists log.
  exact (replay_log sample_run sample_def log finished_state Hlog).
Defined.

Lemma decide_not_ignored s input def n reason :
  ignored_reason s input = None → Decision.Ignored n reason ∉ decide s input def.
Proof. intros Hi (pre & post & _ & Hmay)%decide_may; [inversion Hmay|done]. Qed.

(** An input the guard refuses changes nothing. Exactly the inputs with an [ignored_reason] are
    answered with an [ignored], the answer is that one decision and names the reason, and the state
    after it is the state before it but for its place in the log. *)
Lemma ignored_changes_nothing s input :
  is_decision (Event.body input) = false →
  (is_ignored (reduce_events s input) = true ↔ is_Some (ignored_reason s input)) ∧
  (∀ reason, ignored_reason s input = Some reason →
     reduce s input = Some
       ([logged_input s input;
         decision_event s (logged_input s input) 0
           (Decision.Ignored (u64_succ (RunState.seq s)) reason)],
        s <| RunState.seq := u64_wrap (RunState.seq s + 2) |>)).
Proof.
  intros Hd. split.
  - unfold is_ignored, reduce_events. simpl. destruct (ignored_reason s input) as [r|] eqn:Hi.
    { unfold decide. rewrite ignored_reason_logged, Hi. simpl. naive_solver. }
    split; [|by intros []].
    destruct (decide s (logged_input s input) (RunState.def s)) as [|d ds] eqn:Ed; [done|]. simpl.
    destruct d; try done. exfalso.
    eapply (decide_not_ignored s (logged_input s input)); [done|]. rewrite Ed. by left.
  - intros reason Hi. rewrite reduce_spec by done. unfold reduce_events, decided, decide, apply_input.
    by rewrite ignored_reason_logged, Hi.
Qed.

Lemma ignored_changes_nothing_witness :
  let input := input_at 9000 "rel" EventBody.ClaimReleased in
  (is_ignored (reduce_events running_state input) = true ↔
     is_Some (ignored_reason running_state input)) ∧
  (∀ reason, ignored_reason running_state input = Some reason →
     reduce running_state input = Some
       ([logged_input running_state input;
         decision_event running_state (logged_input running_state input) 0
           (Decision.Ignored (u64_succ (RunState.seq running_state)) reason)],
        running_state <| RunState.seq := u64_wrap (RunState.seq running_state + 2) |>)).
Proof. apply ignored_changes_nothing. reflexivity. Defined.

(** A finished run stays finished. Every input is answered with [ignored], a poisoned row leaves the
    outcome alone, and the run owes the outside world nothing ever again. *)
Lemma finished_is_final s o reason events next :
  RunState.phase s = Phase.Finished o reason → step s events next →
  RunState.phase next = Phase.Finished o reason ∧ pending_effects next = [] ∧
  (length events = 1%nat ∨ is_ignored events = true).
Proof.
  intros Hp Hstep. assert (Hn : RunState.phase next = Phase.Finished o reason).
  2:{ unfold pending_effects. rewrite Hn. split_and!; try done.
      destruct Hstep as [input events' next' Hd Hr|]; [right|by left].
      rewrite reduce_spec in Hr by done. case_match; simplify_eq.
      unfold is_ignored, reduce_events, decide, ignored_reason, is_finished. by rewrite Hp. }
  destruct Hstep as [input events' next' Hd Hr|at_ key next' He].
  - rewrite reduce_spec in Hr by done. case_match; simplify_eq. simpl.
    unfold decided, decide, apply_input, ignored_reason, is_finished. by rewrite Hp.
  - unfold evolve in He. simpl in He. by simplify_eq.
Qed.

Lemma finished_is_final_witness :
  ∃ events next, step finished_state events next ∧
    RunState.phase next = Phase.Finished Outcome.Withdrawn (Some ReasonCode.WithdrawnByRequester) ∧
    pending_effects next = [] ∧ (length events = 1%nat ∨ is_ignored events = true).
Proof.
  destruct (evolve finished_state (poison_event finished_state 11000 "row")) as [next|] eqn:E.
  - exists [poison_event finished_state 11000 "row"], next.
    assert (Hstep : step finished_state [poison_event finished_state 11000 "row"] next)
      by by apply step_poison.
    split; [done|]. by apply (finished_is_final finished_state _ _ _ _ finished_phase Hstep).
  - by vm_compute in E.
Defined.

(** C1: [decide] refines its specification. An input the guard refuses is answered by the one decision that
    ignores it, with the guard's reason. Of any other, every decision of the list is justified where it
    stands: by the input, by the state before it, and by the state the input and the decisions in front of it
    have made. A timer that is set has the id of its rule (the slot the input is about, a slot that waits, the
    root, the tree), its instant is the rule's span of the policy counted from the input, or the instant
    of the hold, and its purpose is the rule's; a timer that is cleared is one of the slot the input is
    about, one the input settles, or one a finishing run has no more use for. And the state [decide] worked
    on is what those decisions fold to. *)
Theorem decide_refines s input def :
  (∀ reason, ignored_reason s input = Some reason →
     decide s input def = [Decision.Ignored (Event.seq input) reason]) ∧
  (ignored_reason s input = None →
   emit_input input (emit_start s input def) = emit_after s input def (decide s input def) ∧
   ∀ pre d post, decide s input def = pre ++ d :: post → may input (emit_after s input def pre) d).
Proof.
  split; [|apply decide_emitted]. intros reason Hi. unfold decide. by rewrite Hi.
Qed.
