(* ===== verification/Slots.v ===== *)
(** * The state machine of a slot

    What an accepted input and a decision do to the record of one attempt, as two step relations over
    slot records, and the proof that the fold moves every record of a run by them and adds records only
    for a started step. Invariants of single slots are proved against these relations. *)

From S2P Require Import Prelude Text Ids Codes Events Flow State Effects Guard Input Evolve Decide Host Examples Spec Replay.
From stdpp Require Import options.

(** What an accepted input does to a record. *)
Inductive input_move (s : RunState) (input : Event) (r : SlotRecord) : SlotRecord → Prop :=
| move_stay : input_move s input r r
| move_nudged key :
    Event.body input = EventBody.Nudged key →
    state_session_key s (SlotRecord.slot r) = key →
    input_move s input r (alter_state (nudge_state (Event.at_ input)) r)
| move_signalled key nth kind :
    Event.body input = EventBody.StopSignalled key nth kind →
    state_session_key s (SlotRecord.slot r) = key →
    input_move s input r (alter_state (ladder_mut signal_ladder) r)
| move_fact key fact :
    Event.body input = EventBody.SessionFact key fact →
    state_session_key s (SlotRecord.slot r) = key →
    fact_ignored s r fact = None →
    input_move s input r
      (fact_record (is_superseded s r) (RunState.withdrawn s) (Event.at_ input) fact r)
| move_reply key message escalate needs_rework rew :
    Event.body input = EventBody.Reply key message escalate needs_rework →
    state_session_key s (SlotRecord.slot r) = key →
    reply_ignored s r = None →
    input_move s input r
      (r <| SlotRecord.state := SlotState.Replied message
              (escalate && negb (bool_decide (slot_member (SlotRecord.slot r) = SYNTH))) rew
              Live false None |>)
| move_resumed named :
    Event.body input = EventBody.Resume named →
    is_Some (SlotRecord.condition r) → is_superseded s r = false →
    input_move s input r (resume_record r)
| move_withdrawn message by_ :
    Event.body input = EventBody.Withdrawn message by_ →
    input_move s input r (withdraw_record r)
| move_grace timer fired_at fired :
    Event.body input = EventBody.TimerFired timer fired_at →
    timer_slot timer = Some (SlotRecord.slot r) →
    input_move s input r
      (alter_state (ladder_mut (λ l, l <| Ladder.fired := grace_max (Ladder.fired l) fired |>)) r)
| move_wind_down timer fired_at :
    Event.body input = EventBody.TimerFired timer fired_at →
    timer_slot timer = Some (SlotRecord.slot r) →
    input_move s input r
      (alter_state (start_reply_stop (Event.at_ input) (RunState.withdrawn s)) r).

(** What a decision does to a record. *)
Inductive decision_move (s : RunState) (at_ : Timestamp) (d : Decision) (r : SlotRecord)
    : SlotRecord → Prop :=
| decides_nothing : decision_move s at_ d r r
| decides_start timer fire_at :
    d = Decision.TimerSet timer fire_at TimerPurpose.StartDeadline →
    timer_slot timer = Some (SlotRecord.slot r) →
    decision_move s at_ d r (alter_state (start_state fire_at) r)
| decides_liveness reason since :
    d = Decision.Liveness (SlotRecord.slot r) reason since →
    decision_move s at_ d r (alter_state (liveness_state reason since (RunState.withdrawn s)) r)
| decides_hold reason until resets_at :
    d = Decision.Held (SlotRecord.slot r) reason until resets_at →
    decision_move s at_ d r
      (hold_record reason until resets_at (u64_succ (RunState.next_order s)) r)
| decides_park reason :
    d = Decision.Parked (Some (SlotRecord.slot r)) reason →
    decision_move s at_ d r
      (r <| SlotRecord.condition :=
              Some (SlotCondition.Parked reason (u64_succ (RunState.next_order s)) at_) |>)
| decides_finishing o reason :
    d = Decision.Finishing o reason →
    decision_move s at_ d r
      (alter_state (finishing_state at_ (RunState.withdrawn s)) (r <| SlotRecord.condition := None |>)).

(** The attempts a decision adds. *)
Definition new_attempts (s : RunState) (d : Decision) (rs : list SlotRecord) : Prop :=
  match d with
  | Decision.StepStarted step visit attempt members =>
      Forall2 (λ m r, SlotRecord.slot r = MkSlot step visit m attempt ∧
        SlotRecord.state r = SlotState.Pending ∧ SlotRecord.condition r = None ∧
        SlotRecord.fresh r = false ∧
        ∃ s', SlotRecord.restarts r =
                SlotRecord.restarts (new_record s' step visit attempt m (RunState.pending_start s)) ∧
              SlotRecord.holds r =
                SlotRecord.holds (new_record s' step visit attempt m (RunState.pending_start s)) ∧
              ∃ rs', RunState.slots s' = RunState.slots s ++ rs' ∧ RunState.def s' = RunState.def s)
        members rs
  | _ => rs = []
  end.

(** ** The fold moves slots by these relations *)
Lemma Forall2_refl_move {A} (R : A → A → Prop) l : (∀ x, R x x) → Forall2 R l l.
Proof. intros. by apply Forall_Forall2_diag, Forall_true. Qed.

Lemma Forall2_alter_move {A} (R : A → A → Prop) f i l :
  (∀ x, R x x) → (∀ x, l !! i = Some x → R x (f x)) → Forall2 R l (alter f i l).
Proof.
  intros Hr. revert i; induction l as [|y l IH]; intros [|i] Hf; try constructor; try done.
  - by apply Hf.
  - by apply Forall2_refl_move.
  - by apply IH.
Qed.

Lemma find_Some s key i :
  find s key = Some i →
  ∃ r, RunState.slots s !! i = Some r ∧ state_session_key s (SlotRecord.slot r) = key.
Proof. intros (r & Hr & Hk%bool_decide_eq_true)%position_Some. eauto. Qed.

Lemma find_slot_Some s slot i :
  find_slot s slot = Some i → ∃ r, RunState.slots s !! i = Some r ∧ SlotRecord.slot r = slot.
Proof. intros (r & Hr & Hk%bool_decide_eq_true)%position_Some. eauto. Qed.

Lemma resume_target_Some s named i :
  resume_target s named = Some i →
  ∃ r, RunState.slots s !! i = Some r ∧ is_Some (SlotRecord.condition r) ∧ is_superseded s r = false.
Proof.
  intros H. assert (Hr : resumable s i = true).
  { destruct named as [slot|]; simpl in H.
    - apply bind_Some in H as (j & _ & Hj). case_match; by simplify_eq.
    - apply min_by_key_Some in H as [H _]. by apply list_elem_of_filter in H as [? _]. }
  unfold resumable in Hr. case_match eqn:E; [|done]. exists s0.
  apply andb_true_iff in Hr as [?%bool_decide_eq_true ?%negb_true_iff]. done.
Qed.

Section input_slots.
Context (s : RunState) (input : Event) (Hi : ignored_reason s input = None).
Hint Resolve move_stay : run.

Lemma record_at_find key i r :
  find s key = Some i → RunState.slots s !! i = Some r → record_at s key = Some r.
Proof. intros Hf Hr. unfold record_at. by rewrite Hf. Qed.

Ltac accepted Hb :=
  let H := fresh "Hacc" in
  pose proof Hi as H; unfold ignored_reason in H; rewrite Hb in H;
  destruct (is_finished s); [done|].

Lemma act_input_slots :
  Forall2 (input_move s input) (RunState.slots s) (RunState.slots (act_input s input)).
Proof using Type*.
  assert (Hstay : Forall2 (input_move s input) (RunState.slots s) (RunState.slots s))
    by (apply Forall2_refl_move; eauto with run).
  unfold act_input. destruct (Event.body input) eqn:Hb; try exact Hstay.
  - (* tree_parked *) cbn. by destruct (RunState.phase s).
  - (* delivered *) by destruct (delivery_key input).
  - (* nudged *)
    destruct (find s session_key) as [i|] eqn:Ef; [|done].
    apply Forall2_alter_move; [eauto with run|]. intros r Hr.
    destruct (find_Some _ _ _ Ef) as (r' & Hr' & Hk). simplify_eq. eapply move_nudged; eauto.
  - (* stop_signalled *)
    destruct (find s session_key) as [i|] eqn:Ef; [|done].
    apply Forall2_alter_move; [eauto with run|]. intros r Hr.
    destruct (find_Some _ _ _ Ef) as (r' & Hr' & Hk). simplify_eq. eapply move_signalled; eauto.
  - (* session_fact *)
    destruct (find s session_key) as [i|] eqn:Ef; [|done]. unfold apply_fact. cbn.
    apply Forall2_alter_move; [eauto with run|]. intros r Hr. rewrite Hr.
    destruct (find_Some _ _ _ Ef) as (r' & Hr' & Hk). simplify_eq. eapply move_fact; eauto.
    accepted Hb. by rewrite (record_at_find _ _ _ Ef Hr) in Hacc.
  - (* reply *)
    destruct (find s session_key) as [i|] eqn:Ef; [|done]. unfold apply_reply. cbn.
    apply Forall2_alter_move; [eauto with run|]. intros r Hr.
    destruct (find_Some _ _ _ Ef) as (r' & Hr' & Hk). simplify_eq. eapply move_reply; eauto.
    accepted Hb. by rewrite (record_at_find _ _ _ Ef Hr) in Hacc.
  - (* answer *) unfold apply_answer. by repeat case_match.
  - (* resume *)
    destruct (resume_target s slot) as [i|] eqn:Er; [|done]. cbn.
    apply Forall2_alter_move; [eauto with run|]. intros r Hr.
    destruct (resume_target_Some _ _ _ Er) as (r' & Hr' & ? & ?). simplify_eq.
    eapply move_resumed; eauto.
  - (* withdrawn *)
    apply Forall2_fmap_r, Forall_Forall2_diag, Forall_true. intros r. eapply move_withdrawn; eauto.
  - (* timer_fired *)
    case_match; [done|]. case_match; [|done]. unfold apply_firing.
    set (s1 := s <| RunState.timers := _ |>).
    assert (Ht : ∀ i r, timer_record s1 timer = Some i → RunState.slots s !! i = Some r →
      timer_slot timer = Some (SlotRecord.slot r)).
    { intros i r (slot & Hs & Hf)%bind_Some Hr.
      destruct (find_slot_Some _ _ _ Hf) as (r' & Hr' & <-). cbn in Hr'. by simplify_eq. }
    case_match; try done; case_match eqn:Er; try done; cbn;
      (apply Forall2_alter_move; [eauto with run|]); intros r Hr;
      [eapply move_grace | eapply move_wind_down]; eauto.
Qed.
End input_slots.

Lemma alter_record_move s s1 at_ d slot f :
  RunState.slots s1 = RunState.slots s →
  (∀ r, SlotRecord.slot r = slot → decision_move s at_ d r (f r)) →
  Forall2 (decision_move s at_ d) (RunState.slots s) (RunState.slots (alter_record slot f s1)).
Proof.
  intros <- Hf. rewrite alter_record_slots. case_match eqn:Ef.
  - apply Forall2_alter_move; [constructor|]. intros r Hr.
    destruct (find_slot_Some _ _ _ Ef) as (r' & Hr' & Hk). simplify_eq. by apply Hf.
  - apply Forall2_refl_move. constructor.
Qed.

Lemma apply_decision_slots at_ s d :
  ∃ kept new, RunState.slots (apply_decision at_ s d) = kept ++ new ∧
    Forall2 (decision_move s at_ d) (RunState.slots s) kept ∧ new_attempts s d new.
Proof.
  assert (Hstay : Forall2 (decision_move s at_ d) (RunState.slots s) (RunState.slots s))
    by (apply Forall2_refl_move; constructor).
  assert (Hmove : ∀ kept, Forall2 (decision_move s at_ d) (RunState.slots s) kept →
    (∀ step visit attempt members, d ≠ Decision.StepStarted step visit attempt members) →
    ∃ kept' new, kept = kept' ++ new ∧
      Forall2 (decision_move s at_ d) (RunState.slots s) kept' ∧ new_attempts s d new).
  { intros kept Hk Hd. exists kept, []. rewrite app_nil_r. split_and!; try done.
    destruct d; try done. by destruct (Hd step visit attempt members). }
  destruct d as [| | |step visit attempt members| | | | |timer fire_at p| |slot reason since
    |slot reason until resets_at|[slot|] reason|o reason| | |]; try (by apply Hmove).
  - cbn [apply_decision]. unfold apply_step_started.
    set (s1 := foldl _ _ _). set (s0 := _ <| RunState.pending_start := None |>) in s1.
    destruct (foldl_start_member_slots step visit attempt (RunState.pending_start s) at_ members s0)
      as (rs & Hrs & Hall).
    assert (Hs0 : RunState.slots s0 = RunState.slots s ∧ RunState.def s0 = RunState.def s)
      by (subst s0; by destruct (RunState.phase s)).
    destruct Hs0 as [Hs0 Hd0]. exists (RunState.slots s), rs. split_and!; [|done|].
    + rewrite <-Hs0, <-Hrs. subst s1. do 2 f_equal. by destruct (RunState.phase s).
    + cbn. rewrite Hs0, Hd0 in Hall. exact Hall.
  - cbn. destruct (bool_decide_reflect (p = TimerPurpose.StartDeadline)) as [->|]; [|by apply Hmove].
    unfold arm_start. case_match eqn:Et; [|by apply Hmove]. apply Hmove; [|done].
    apply alter_record_move; [done|]. intros r <-. eapply decides_start; eauto.
  - cbn. apply Hmove; [|done]. apply alter_record_move; [done|]. intros r <-. by eapply decides_liveness.
  - cbn. apply Hmove; [|done]. apply alter_record_move; [done|]. intros r <-. by eapply decides_hold.
  - cbn. apply Hmove; [|done]. apply alter_record_move; [done|]. intros r <-. by eapply decides_park.
  - cbn. apply Hmove; [|done]. apply Forall2_fmap_r, Forall_Forall2_diag, Forall_true.
    intros r. by eapply decides_finishing.
Qed.

(** ** Invariants of single slots *)
Definition slotwise (P : RunState → SlotRecord → Prop) (s : RunState) : Prop :=
  Forall (P s) (RunState.slots s).

Record slot_preserved (J : RunState → Prop) (P : RunState → SlotRecord → Prop) : Prop := {
  slot_preserved_seq s n r : P s r → P (s <| RunState.seq := n |>) r;
  slot_preserved_input s input r r' :
    J s → is_decision (Event.body input) = false → ignored_reason s input = None →
    r ∈ RunState.slots s → P s r → input_move s input r r' → P (act_input s input) r';
  slot_preserved_decision input e d r r' :
    J (Emit.before e) → J (Emit.state e) → slotwise P (Emit.state e) →
    deciding input e → may input e d →
    r ∈ RunState.slots (Emit.state e) → P (Emit.state e) r →
    decision_move (Emit.state e) (Emit.at_ e) d r r' →
    P (apply_decision (Emit.at_ e) (Emit.state e) d) r';
  slot_preserved_new input e d new r :
    J (Emit.before e) → J (Emit.state e) → slotwise P (Emit.state e) →
    deciding input e → may input e d →
    new_attempts (Emit.state e) d new → r ∈ new →
    P (apply_decision (Emit.at_ e) (Emit.state e) d) r;
  slot_preserved_poison s at_ r :
    P s r → P (apply_decision at_ s (Decision.Parked None ReasonCode.PoisonInput)) r;
}.

Lemma slotwise_preserved J P : slot_preserved J P → preserved J (slotwise P).
Proof.
  intros HP. split.
  - intros s n _ Hs. eapply Forall_impl; [exact Hs|]. apply HP.
  - intros s input HJ Hs Hd Hi. apply Forall_forall. intros r' Hr'.
    apply list_elem_of_lookup in Hr' as [i Hi'].
    destruct (Forall2_lookup_r _ _ _ _ _ (act_input_slots s input Hi) Hi') as (r & Hr & Hm).
    eapply HP; eauto using list_elem_of_lookup_2. eapply Forall_lookup_1; eauto.
  - intros input e d HJb Hb HJ Hs Hdec Hmay.
    destruct (apply_decision_slots (Emit.at_ e) (Emit.state e) d) as (kept & new & Heq & Hk & Hn).
    unfold slotwise. rewrite Heq. apply Forall_app. split; apply Forall_forall; intros r' Hr'.
    + apply list_elem_of_lookup in Hr' as [i Hi'].
      destruct (Forall2_lookup_r _ _ _ _ _ Hk Hi') as (r & Hr & Hm).
      eapply HP; eauto using list_elem_of_lookup_2. eapply Forall_lookup_1; eauto.
    + eapply (slot_preserved_new _ _ HP); eauto.
  - intros s at_ _ Hs. eapply Forall_impl; [exact Hs|]. intros r. apply HP.
Qed.

Lemma slotwise_initial P run def : slotwise P (initial run def).
Proof. constructor. Qed.

(** A new attempt is waiting and has nothing of its own but its seat. *)
Lemma new_attempts_fresh s d new r :
  new_attempts s d new → r ∈ new →
  SlotRecord.state r = SlotState.Pending ∧ SlotRecord.condition r = None ∧
  SlotRecord.fresh r = false.
Proof.
  intros Hn [i Hi]%list_elem_of_lookup. destruct d; simpl in Hn; subst; try done.
  destruct (Forall2_lookup_r _ _ _ _ _ Hn Hi) as (m & _ & _ & ? & ? & ? & _). done.
Qed.

(** The budget of a new attempt is that of the seat's latest one, as the attempts of the same decision
    before it leave it. *)
Lemma foldl_start_member_budget step visit attempt cause at_ members s rs :
  RunState.slots (foldl (start_member step visit attempt cause at_) s members) =
    RunState.slots s ++ rs →
  ∀ i m r, members !! i = Some m → rs !! i = Some r →
  ∃ s', RunState.slots s' = RunState.slots s ++ take i rs ∧
    SlotRecord.restarts r = SlotRecord.restarts (new_record s' step visit attempt m cause) ∧
    SlotRecord.holds r = SlotRecord.holds (new_record s' step visit attempt m cause).
Proof.
  revert s rs; induction members as [|m0 l IH]; intros s rs Hrs i m r Hm Hr; [done|]. simpl in Hrs.
  set (s1 := start_member _ _ _ _ _ s m0) in Hrs.
  destruct (foldl_start_member_slots step visit attempt cause at_ l s1) as (rs1 & Hrs1 & _).
  assert (Hs1 : ∃ r0, RunState.slots s1 = RunState.slots s ++ [r0] ∧
    SlotRecord.restarts r0 = SlotRecord.restarts (new_record s step visit attempt m0 cause) ∧
    SlotRecord.holds r0 = SlotRecord.holds (new_record s step visit attempt m0 cause)) by (by eexists).
  destruct Hs1 as (r0 & Hs1 & Hre & Hho).
  assert (rs = r0 :: rs1) as ->.
  { rewrite Hrs1, Hs1, <-app_assoc in Hrs. by apply app_inv_head in Hrs. }
  clearbody s1. destruct i as [|i]; simpl in Hm, Hr.
  - simplify_eq. exists s. simpl. by rewrite app_nil_r.
  - destruct (IH s1 rs1 Hrs1 i m r Hm Hr) as (s' & Hs' & ? & ?). exists s'.
    rewrite Hs1, <-app_assoc in Hs'. done.
Qed.

Lemma started_budget at_ s step visit attempt members rs :
  RunState.slots (apply_decision at_ s (Decision.StepStarted step visit attempt members)) =
    RunState.slots s ++ rs →
  ∀ i m r, members !! i = Some m → rs !! i = Some r →
  ∃ s', RunState.slots s' = RunState.slots s ++ take i rs ∧
    SlotRecord.restarts r =
      SlotRecord.restarts (new_record s' step visit attempt m (RunState.pending_start s)) ∧
    SlotRecord.holds r =
      SlotRecord.holds (new_record s' step visit attempt m (RunState.pending_start s)).
Proof.
  intros Hrs.
  assert (Hgen : ∀ s1, RunState.slots s1 = RunState.slots s →
    RunState.pending_start s1 = RunState.pending_start s →
    apply_decision at_ s (Decision.StepStarted step visit attempt members) =
      foldl (start_member step visit attempt (RunState.pending_start s1) at_)
        (s1 <| RunState.visits := <[step := visit]> (RunState.visits s1) |>
            <| RunState.current_step := Some step |> <| RunState.pending_start := None |>) members →
    ∀ i m r, members !! i = Some m → rs !! i = Some r →
    ∃ s', RunState.slots s' = RunState.slots s ++ take i rs ∧
      SlotRecord.restarts r =
        SlotRecord.restarts (new_record s' step visit attempt m (RunState.pending_start s)) ∧
      SlotRecord.holds r =
        SlotRecord.holds (new_record s' step visit attempt m (RunState.pending_start s))).
  { intros s1 Hs1 Hp1 Heq. rewrite Heq, <-Hs1 in Hrs. rewrite <-Hs1, <-Hp1.
    exact (foldl_start_member_budget step visit attempt (RunState.pending_start s1) at_ members _ rs Hrs). }
  cbn [apply_decision] in Hgen. unfold apply_step_started in Hgen.
  destruct (RunState.phase s) eqn:Ep;
    [eapply (Hgen (s <| RunState.phase := Phase.Running Unprepared |>))
    |eapply (Hgen (s <| RunState.phase := Phase.Running Unprepared |>))
    |eapply (Hgen s)..]; done.
Qed.
