(* ===== verification/Stops.v ===== *)
(** * Stopping a session

    The stop ladder: which signal is owed when, and that a session is only killed once a person has
    withdrawn the run. *)

From S2P Require Import Prelude Text Ids Codes Events Flow State Effects Guard Input Evolve Decide Host Examples Spec Replay Slots.
From stdpp Require Import options.

(** A ladder is forced only after a withdrawal. *)
Definition forced_withdrawn (s : RunState) (r : SlotRecord) : Prop :=
  ∀ l, ladder_of (SlotRecord.state r) = Some l → Ladder.forced l = true →
  RunState.withdrawn s = true.

Lemma act_input_withdrawn s input :
  RunState.withdrawn s = true → RunState.withdrawn (act_input s input) = true.
Proof. input_cases. Qed.

(** Every ladder of a record after an input: it was there before, perhaps forced by a withdrawal, or it
    is new and forced only where the run was withdrawn. *)
Lemma input_move_ladder s input r r' l' :
  input_move s input r r' → ladder_of (SlotRecord.state r') = Some l' → Ladder.forced l' = true →
  (∃ l, ladder_of (SlotRecord.state r) = Some l ∧ Ladder.forced l = true) ∨
  RunState.withdrawn (act_input s input) = true.
Proof.
  intros Hm Hl Hf. destruct Hm.
  - eauto.
  - left. unfold alter_state, nudge_state in Hl. cbn in Hl.
    destruct (SlotRecord.state r); cbn in *; eauto.
  - left. cbn in Hl. destruct (SlotRecord.state r) as [| | | | |l a|m es nr p o [l|]|]; cbn in *;
      simplify_eq; eauto.
  - assert (Hw : RunState.withdrawn s = true → RunState.withdrawn (act_input s input) = true)
      by apply act_input_withdrawn.
    destruct r as [sl st]; destruct st as [| | | | |l a|m es nr p o [l|]|];
      destruct fact as [|[]| | | |[]|]; cbn in *; repeat (case_match; cbn in *); simplify_eq; eauto.
  - done.
  - left. unfold resume_record in Hl.
    destruct (is_would_not_stop r); cbn in Hl; [|eauto].
    destruct (SlotRecord.state r) as [| | | | |l a|m es nr p o [l|]|]; cbn in *; simplify_eq; eauto.
  - right. unfold act_input. by rewrite H.
  - left. cbn in Hl. destruct (SlotRecord.state r) as [| | | | |l a|m es nr p o [l|]|]; cbn in *;
      simplify_eq; eauto.
  - cbn in Hl. destruct (SlotRecord.state r) as [| | | | |l a|m es nr p o [l|]|]; cbn in *;
      simplify_eq; cbn in *; eauto using act_input_withdrawn.
Qed.

Lemma decision_move_ladder s at_ d r r' l' :
  decision_move s at_ d r r' → ladder_of (SlotRecord.state r') = Some l' → Ladder.forced l' = true →
  (∃ l, ladder_of (SlotRecord.state r) = Some l ∧ Ladder.forced l = true) ∨
  RunState.withdrawn s = true.
Proof.
  intros Hm Hl Hf. destruct Hm; cbn in Hl; eauto.
  - destruct (SlotRecord.state r); cbn in *; simplify_eq; eauto.
  - unfold liveness_state in Hl. case_match; cbn in Hl; simplify_eq; eauto.
  - unfold hold_record in Hl. destruct resets_at; eauto.
  - destruct (SlotRecord.state r); cbn in *; simplify_eq; eauto.
Qed.

Lemma forced_withdrawn_preserved : invariant (slotwise forced_withdrawn).
Proof.
  apply slotwise_preserved. split.
  - done.
  - intros s input r r' _ _ _ _ Hr Hm l' Hl Hf.
    destruct (input_move_ladder _ _ _ _ _ Hm Hl Hf) as [(l & ? & ?)|]; [|done].
    apply act_input_withdrawn. eauto.
  - intros input e d r r' _ _ _ _ _ _ Hr Hm l' Hl Hf.
    rewrite (proj1 (proj2 (proj2 (apply_decision_fixed _ _ _)))).
    destruct (decision_move_ladder _ _ _ _ _ _ Hm Hl Hf) as [(l & ? & ?)|]; eauto.
  - intros input e d new r _ _ _ _ _ Hn Hin l Hl.
    destruct (new_attempts_fresh _ _ _ _ Hn Hin) as [Hs _]. by rewrite Hs in Hl.
  - done.
Qed.

Lemma reachable_forced run def s r :
  reachable run def s → r ∈ RunState.slots s → forced_withdrawn s r.
Proof.
  intros Hs Hr. revert r Hr. apply Forall_forall. change (slotwise forced_withdrawn s).
  eapply invariant_reachable; eauto using forced_withdrawn_preserved, slotwise_initial.
Qed.

Lemma pending_stop s key kind nth :
  Effect.StopSession key kind nth ∈ pending_effects s →
  ∃ r, r ∈ RunState.slots s ∧ state_session_key s (SlotRecord.slot r) = key ∧
    stop_effect r key = Some (Effect.StopSession key kind nth).
Proof.
  assert (Hs : ∀ r, slot_effect s r = Some (Effect.StopSession key kind nth) →
    state_session_key s (SlotRecord.slot r) = key ∧
    stop_effect r key = Some (Effect.StopSession key kind nth)).
  { intros r H. assert (Hst : stop_effect r (state_session_key s (SlotRecord.slot r)) =
      Some (Effect.StopSession key kind nth)).
    { unfold slot_effect in H. by destruct (SlotRecord.state r). }
    assert (state_session_key s (SlotRecord.slot r) = key) as <-; [|done].
    by apply bind_Some in Hst as (l & _ & (k & _ & [=])%bind_Some). }
  assert (Hd : Effect.StopSession key kind nth ∉ deliver_effects s).
  { unfold deliver_effects. by intros (x & ? & _)%list_elem_of_fmap. }
  unfold pending_effects. destruct (RunState.phase s) as [|behind|tree|o reason tree|o reason].
  - repeat case_match; set_solver.
  - set_solver.
  - unfold running_effects. case_match; [set_solver|]. destruct tree; [case_match; set_solver|].
    intros [(r & Hr & He)%list_elem_of_omap|]%elem_of_app; [|done]. exists r.
    destruct (Hs r He). done.
  - unfold finishing_effects. case_match.
    + intros (r & Hr & He)%list_elem_of_omap. exists r.
      assert (state_session_key s (SlotRecord.slot r) = key) as <-; [|done].
      by apply bind_Some in He as (l & _ & (k & _ & [=])%bind_Some).
    + destruct tree; [set_solver|]. case_match eqn:E; [set_solver|]. by intros ?%Hd.
  - set_solver.
Qed.

(** A session is killed only for a person who withdrew. In every state a run reaches, a kill is owed
    to a session only if the run has been withdrawn: a quiet, hung or overdue session alone never gets
    more than the two polite signals. *)
Lemma kill_needs_withdrawal run def s key nth :
  reachable run def s → Effect.StopSession key StopKind.Kill nth ∈ pending_effects s →
  RunState.withdrawn s = true.
Proof.
  intros Hs (r & Hr & _ & Hstop)%pending_stop.
  pose proof (reachable_forced _ _ _ _ Hs Hr) as Hf. unfold stop_effect in Hstop.
  apply bind_Some in Hstop as (l & Hl & (k & Hk & [=])%bind_Some). subst.
  apply (Hf l Hl). unfold stop_signal in Hk. by repeat case_match.
Qed.

Lemma kill_needs_withdrawal_witness : RunState.withdrawn killing_state = true.
Proof.
  apply (kill_needs_withdrawal sample_run sample_def killing_state coder_key 2 killing_reachable).
  rewrite killing_effects. by left.
Defined.

(** ** A withdrawal *)
Lemma decided_emit s input :
  ignored_reason s input = None →
  decided s input = Emit.state (emit_input input (emit_start s input (RunState.def s))).
Proof. intros Hi. by rewrite (proj1 (decide_emitted s input (RunState.def s) Hi)). Qed.

Definition all_forced (s : RunState) : Prop :=
  ∀ r l, r ∈ RunState.slots s → ladder_of (SlotRecord.state r) = Some l → Ladder.forced l = true.

Lemma withdraw_record_forced r l :
  ladder_of (SlotRecord.state (withdraw_record r)) = Some l → Ladder.forced l = true.
Proof.
  unfold withdraw_record. destruct (is_would_not_stop _); cbn;
    destruct (SlotRecord.state r) as [| | | | |l0 a|m es nr p o [l0|]|]; cbn; by intros; simplify_eq.
Qed.

(** A withdrawal always acts. In every state that is not finished, the first withdrawal is accepted and
    takes the run to finishing as withdrawn, by whoever withdrew it, with every attempt over; whenever a
    withdrawal is accepted, the run is marked withdrawn and every stop under way is forced from then on; and
    one is refused only of a run that is finishing already and has no unforced stop left. *)
Lemma withdrawal_acts s input message by_ :
  Event.body input = EventBody.Withdrawn message by_ → is_finished s = false →
  (is_finishing s = false →
     ignored_reason s input = None ∧
     RunState.phase (decided s input) =
       Phase.Finishing Outcome.Withdrawn (Some (withdrawn_reason by_)) ParkPhase.Unparked ∧
     Forall (λ r, over (SlotRecord.state r) = true) (RunState.slots (decided s input))) ∧
  (ignored_reason s input = None →
     RunState.withdrawn (decided s input) = true ∧ all_forced (decided s input)) ∧
  (∀ reason, ignored_reason s input = Some reason →
     reason = ReasonCode.AlreadyFinishing ∧ is_finishing s = true ∧ all_forced s).
Proof.
  intros Hb Hfin.
  assert (Hdec : ignored_reason s input = None → is_finishing s = false →
    decided s input = Emit.state (finish_run Outcome.Withdrawn (withdrawn_reason by_)
      (emit_start s input (RunState.def s)))).
  { intros Hi Hf. rewrite (decided_emit _ _ Hi). unfold emit_input. rewrite Hb. unfold withdrawn.
    cbn. by rewrite Hf. }
  assert (Hact : ignored_reason s input = None →
    apply_input s input = map_slots withdraw_record (s <| RunState.withdrawn := true |>)).
  { intros Hi. unfold apply_input. rewrite Hi. unfold act_input. by rewrite Hb. }
  split_and!.
  - intros Hf. assert (Hi : ignored_reason s input = None)
      by (unfold ignored_reason; by rewrite Hfin, Hb, Hf).
    split; [done|]. rewrite (Hdec Hi Hf). unfold finish_run. rewrite clear_timers_state. cbn.
    rewrite (Hact Hi). split; [done|]. cbn. apply Forall_fmap, Forall_true. intros r. cbn.
    by destruct (SlotRecord.state r) as [| | | | |? []| |].
  - intros Hi. destruct (is_finishing s) eqn:Hf.
    + rewrite (decided_emit _ _ Hi). unfold emit_input. rewrite Hb. unfold withdrawn. cbn.
      rewrite Hf. cbn. rewrite (Hact Hi). split; [done|].
      intros r' l (r & -> & _)%list_elem_of_fmap. apply withdraw_record_forced.
    + rewrite (Hdec Hi eq_refl). unfold finish_run. rewrite clear_timers_state. cbn.
      rewrite (Hact Hi). split; [done|]. cbn. intros r' l (r & -> & (r0 & -> & _)%list_elem_of_fmap)%list_elem_of_fmap.
      cbn. pose proof (withdraw_record_forced r0 l) as Hforced.
      destruct (SlotRecord.state (withdraw_record r0)); cbn in *; auto; by intros [= <-].
  - intros reason Hi. unfold ignored_reason in Hi. rewrite Hfin, Hb in Hi.
    destruct (is_finishing s); [|done]. cbn in Hi.
    destruct (existsb _ (RunState.slots s)) eqn:Ex; [done|]. cbn in Hi. simplify_eq. split; [done|]. split; [done|].
    intros r l Hr Hl. destruct (Ladder.forced l) eqn:Ef; [done|].
    assert (Hex : existsb (λ r, match ladder_of (SlotRecord.state r) with
      | Some l => negb (Ladder.forced l) | None => false end) (RunState.slots s) = true); [|congruence].
    apply existsb_exists. exists r. rewrite <-list_elem_of_In. split; [done|]. by rewrite Hl, Ef.
Qed.

Lemma withdrawal_acts_witness :
  ignored_reason running_state (withdrawn_input 6000) = None ∧
  RunState.phase (decided running_state (withdrawn_input 6000)) =
    Phase.Finishing Outcome.Withdrawn (Some ReasonCode.WithdrawnByRequester) ParkPhase.Unparked ∧
  Forall (λ r, over (SlotRecord.state r) = true)
    (RunState.slots (decided running_state (withdrawn_input 6000))).
Proof.
  apply (withdrawal_acts running_state (withdrawn_input 6000) None WithdrawnBy.Requester).
  - reflexivity.
  - vm_compute. reflexivity.
  - vm_compute. reflexivity.
Defined.
