(* ===== verification/Seats.v ===== *)
(** * Seats and attempts

    A seat is a member of one visit of a step. This file proves what the rest of the engine relies on when
    it names a slot by its seat and attempt: attempts of a seat are numbered upwards and no slot occurs
    twice, every attempt but a seat's latest is over, and only the visit the run stands on has attempts
    that are not settled. Numbers are [u32], so the statements are about runs with fewer than [2^32 - 1]
    events in their log. *)

From S2P Require Import Prelude Text Ids Codes Events Flow State Effects Guard Input Evolve Decide Host Examples FlowFacts Keys Spec Replay Slots.
From stdpp Require Import options.

Definition seat (r : SlotRecord) : StepId * N * Handle :=
  (slot_step (SlotRecord.slot r), slot_visit (SlotRecord.slot r), slot_member (SlotRecord.slot r)).

(** The record at this index is the latest attempt of its seat. *)
Definition last_of (l : list SlotRecord) (i : nat) (r : SlotRecord) : Prop :=
  l !! i = Some r ∧ ∀ j r', (i < j)%nat → l !! j = Some r' → seat r' ≠ seat r.

(** The attempt has done what its seat owes: a reply that asks nothing back. *)
Definition settled (st : SlotState) : bool :=
  match st with SlotState.Replied _ false _ _ _ _ => true | _ => false end.

Lemma settled_over st : settled st = true → over st = true.
Proof. by destruct st. Qed.
Lemma settled_replied st : settled st = true → is_replied st = true.
Proof. by destruct st. Qed.
Lemma replied_over st : is_replied st = true → over st = true.
Proof. by destruct st. Qed.

(** No attempt of this visit is open. *)
Definition closed (s : RunState) (step : StepId) (visit : N) : Prop :=
  ∀ i r, last_of (RunState.slots s) i r → slot_step (SlotRecord.slot r) = step →
    slot_visit (SlotRecord.slot r) = visit → settled (SlotRecord.state r) = true.

(** Attempts of one seat follow each other, and all but the last are over. *)
Definition in_order (l : list SlotRecord) : Prop :=
  ∀ i j r1 r2, (i < j)%nat → l !! i = Some r1 → l !! j = Some r2 → seat r1 = seat r2 →
    slot_attempt (SlotRecord.slot r1) < slot_attempt (SlotRecord.slot r2) ∧
    over (SlotRecord.state r1) = true.

Record seats (n : N) (s : RunState) : Prop := {
  seats_visits step v : RunState.visits s !! step = Some v → v ≤ n;
  seats_visited step v :
    RunState.visits s !! step = Some v → is_Some (def_step (RunState.def s) step);
  seats_bounds r :
    r ∈ RunState.slots s →
    slot_attempt (SlotRecord.slot r) ≤ n ∧
    ∃ v, RunState.visits s !! slot_step (SlotRecord.slot r) = Some v ∧
      slot_visit (SlotRecord.slot r) ≤ v;
  seats_members r :
    r ∈ RunState.slots s →
    ∃ d, def_step (RunState.def s) (slot_step (SlotRecord.slot r)) = Some d ∧
      (slot_member (SlotRecord.slot r) ∈ members_of d ∨
       slot_member (SlotRecord.slot r) = SYNTH ∧ has_synthesis d = true);
  seats_order : in_order (RunState.slots s);
  seats_condition r :
    r ∈ RunState.slots s → is_Some (SlotRecord.condition r) → is_would_not_stop r = false →
    over (SlotRecord.state r) = true ∧ is_replied (SlotRecord.state r) = false;
  seats_synth r :
    r ∈ RunState.slots s → slot_member (SlotRecord.slot r) = SYNTH →
    is_replied (SlotRecord.state r) = true → settled (SlotRecord.state r) = true;
  seats_open i r :
    last_of (RunState.slots s) i r → settled (SlotRecord.state r) = false →
    RunState.current_step s = Some (slot_step (SlotRecord.slot r)) ∧
    RunState.visits s !! slot_step (SlotRecord.slot r) = Some (slot_visit (SlotRecord.slot r));
  seats_queued :
    match RunState.phase s with
    | Phase.Created | Phase.Queued _ => RunState.slots s = [] ∧ RunState.questions s = []
    | _ => True
    end;
  seats_ids : NoDup (Question.id <$> RunState.questions s);
  seats_escalation q slot m :
    q ∈ RunState.questions s → Question.asked q = Asked.Escalation slot m →
    Question.id q = "escalated/" +:+ session_key slot (RunState.run s) ∧
    ∃ i r, RunState.slots s !! i = Some r ∧ SlotRecord.slot r = slot ∧
      is_replied (SlotRecord.state r) = true ∧
      (Question.answered q = false →
         last_of (RunState.slots s) i r ∧ settled (SlotRecord.state r) = false);
  seats_ceiling q step pass m :
    q ∈ RunState.questions s → Question.asked q = Asked.Ceiling step pass m →
    ∃ visit v, Question.id q = ceiling_key (RunState.run s) step visit pass ∧
      RunState.visits s !! step = Some v ∧ visit ≤ v ∧ closed s step visit ∧
      (Question.answered q = false →
         ∀ i r, last_of (RunState.slots s) i r → settled (SlotRecord.state r) = true);
  seats_one_ceiling q q' step pass m step' pass' m' :
    q ∈ RunState.questions s → q' ∈ RunState.questions s →
    Question.asked q = Asked.Ceiling step pass m → Question.asked q' = Asked.Ceiling step' pass' m' →
    Question.answered q = false → Question.answered q' = false → q = q';
}.

(** ** Latest attempts *)
Lemma find_first_reverse {A} (f : A → bool) l x :
  find_first f (reverse l) = Some x ↔
  ∃ i, l !! i = Some x ∧ f x = true ∧ ∀ j y, (i < j)%nat → l !! j = Some y → f y = false.
Proof.
  induction l as [|y l IH] using rev_ind.
  - split; [done|]. by intros (i & ? & _).
  - rewrite reverse_snoc. simpl. destruct (f y) eqn:Ey; split.
    + intros [= <-]. exists (length l). rewrite list_lookup_middle by done. split_and!; try done.
      intros j z Hj Hz. apply lookup_lt_Some in Hz. rewrite length_app in Hz. simpl in Hz. lia.
    + intros (i & Hi & Hf & Hl). destruct (base.decide (i = length l)) as [->|].
      { rewrite list_lookup_middle in Hi by done. done. }
      assert (i < length (l ++ [y]))%nat by eauto using lookup_lt_Some.
      rewrite length_app in *. simpl in *.
      rewrite (Hl (length l) y) in Ey; [done|lia|]. by rewrite list_lookup_middle.
    + intros (i & Hi & Hf & Hl)%IH. exists i. split_and!; [|done|].
      * rewrite lookup_app_l; eauto using lookup_lt_Some.
      * intros j z Hj [Hz|[Hlt Hz]]%lookup_app_Some; [eauto|].
        apply list_lookup_singleton_Some in Hz as [_ <-]. done.
    + intros (i & Hi & Hf & Hl). apply IH. exists i.
      apply lookup_app_Some in Hi as [Hi|[_ [_ <-]%list_lookup_singleton_Some]]; [|congruence].
      split_and!; try done. intros j z Hj Hz. eapply Hl; [done|].
      rewrite lookup_app_l; eauto using lookup_lt_Some.
Qed.

Lemma same_seat_true step visit member r :
  same_seat step visit member r = true ↔ seat r = (step, visit, member).
Proof.
  unfold same_seat, seat. rewrite !andb_true_iff, !bool_decide_eq_true. naive_solver.
Qed.

Lemma latest_Some s step visit member r :
  latest s step visit member = Some r ↔
  ∃ i, last_of (RunState.slots s) i r ∧ seat r = (step, visit, member).
Proof.
  unfold latest. rewrite find_first_reverse. setoid_rewrite same_seat_true. split.
  - intros (i & Hi & Hs & Hl). exists i. split; [|done]. split; [done|].
    intros j r' Hj Hr' Heq. specialize (Hl j r' Hj Hr'). rewrite Hs in Heq.
    apply same_seat_true in Heq. congruence.
  - intros (i & [Hi Hl] & Hs). exists i. split_and!; try done. intros j r' Hj Hr'.
    destruct (same_seat step visit member r') eqn:E; [|done]. apply same_seat_true in E.
    destruct (Hl j r' Hj Hr'). congruence.
Qed.

(** Every seat with an attempt has a latest one. *)
Lemma last_of_exists l i r :
  l !! i = Some r → ∃ j r', (i <= j)%nat ∧ last_of l j r' ∧ seat r' = seat r.
Proof.
  intros Hi. destruct (find_first (λ x, bool_decide (seat x = seat r)) (reverse l)) as [x|] eqn:E.
  - apply find_first_reverse in E as (j & Hj & Hx%bool_decide_eq_true & Hl). exists j, x.
    split_and!; [|split; [done|]|done].
    + destruct (base.decide (i <= j)%nat); [done|]. specialize (Hl i r ltac:(lia) Hi).
      by apply bool_decide_eq_false in Hl.
    + intros k y Hk Hy. rewrite Hx. apply (bool_decide_eq_false_1 (seat y = seat r)). eauto.
  - apply find_first_None in E. rewrite Forall_forall in E.
    specialize (E r ltac:(by apply elem_of_reverse, (list_elem_of_lookup_2 _ i))).
    by apply bool_decide_eq_false in E.
Qed.

Section order.
Context (l : list SlotRecord) (Hl : in_order l).

Lemma in_order_slot_inj i j r1 r2 :
  l !! i = Some r1 → l !! j = Some r2 → SlotRecord.slot r1 = SlotRecord.slot r2 → i = j ∧ r1 = r2.
Proof using Hl.
  intros Hi Hj Heq. assert (i = j) as ->; [|split; [done|congruence]].
  assert (seat r1 = seat r2) by (unfold seat; by rewrite Heq).
  destruct (Nat.lt_trichotomy i j) as [Hlt|[?|Hlt]]; [|done|].
  - destruct (Hl i j r1 r2) as [Hlt2 _]; try done. rewrite Heq in Hlt2. lia.
  - destruct (Hl j i r2 r1) as [Hlt2 _]; try done. rewrite Heq in Hlt2. lia.
Qed.

Lemma last_of_unique i j r1 r2 :
  last_of l i r1 → last_of l j r2 → seat r1 = seat r2 → i = j ∧ r1 = r2.
Proof using Type.
  intros [Hi Hl1] [Hj Hl2] Heq. destruct (Nat.lt_trichotomy i j) as [Hlt|[->|Hlt]].
  - by destruct (Hl1 j r2 Hlt Hj).
  - split; [done|congruence].
  - by destruct (Hl2 i r1 Hlt Hi).
Qed.
End order.

Lemma superseded_last s i r :
  in_order (RunState.slots s) → RunState.slots s !! i = Some r →
  is_superseded s r = false ↔ last_of (RunState.slots s) i r.
Proof.
  intros Ho Hi. unfold is_superseded.
  destruct (last_of_exists _ _ _ Hi) as (j & r' & Hij & Hlast & Hseat).
  assert (Hlat : latest s (slot_step (SlotRecord.slot r)) (slot_visit (SlotRecord.slot r))
    (slot_member (SlotRecord.slot r)) = Some r') by (apply latest_Some; eauto).
  rewrite Hlat. rewrite negb_false_iff, bool_decide_eq_true. split.
  - intros Ha. destruct (base.decide (i = j)) as [->|]; [by destruct Hlast; simplify_eq|].
    destruct (Ho i j r r') as [H _]; try done; [lia|by destruct Hlast|]. lia.
  - intros Hr. destruct (last_of_unique _ _ _ _ _ Hr Hlast) as [_ ->]; done.
Qed.

(** ** Moves that keep the seats in order *)
Record moves (r r' : SlotRecord) : Prop := {
  moves_slot : SlotRecord.slot r' = SlotRecord.slot r;
  moves_over : over (SlotRecord.state r) = true → over (SlotRecord.state r') = true;
  moves_replied :
    over (SlotRecord.state r) = true →
    is_replied (SlotRecord.state r') = is_replied (SlotRecord.state r);
  moves_settled :
    over (SlotRecord.state r) = true → settled (SlotRecord.state r') = settled (SlotRecord.state r);
  moves_condition :
    is_Some (SlotRecord.condition r') → is_would_not_stop r' = false →
    (is_Some (SlotRecord.condition r) ∧ is_would_not_stop r = false) ∨
    (over (SlotRecord.state r') = true ∧ is_replied (SlotRecord.state r') = false);
  moves_synth :
    over (SlotRecord.state r) = false → is_replied (SlotRecord.state r') = true →
    slot_member (SlotRecord.slot r) = SYNTH → settled (SlotRecord.state r') = true;
}.

Lemma moves_seat r r' : moves r r' → seat r' = seat r.
Proof. intros [H _ _ _ _ _]. unfold seat. by rewrite H. Qed.

(** What is left open by a question after an input: nothing new. *)
Record asks (q q' : Question) : Prop := {
  asks_id : Question.id q' = Question.id q;
  asks_asked : Question.asked q' = Question.asked q;
  asks_answered : Question.answered q' = false → Question.answered q = false;
}.

Section moves.
Context (l l' : list SlotRecord) (Hm : Forall2 moves l l').

Lemma moves_lookup i r' :
  l' !! i = Some r' → ∃ r, l !! i = Some r ∧ moves r r'.
Proof using Hm. intros Hr. destruct (Forall2_lookup_r _ _ _ _ _ Hm Hr) as (r & ? & ?). eauto. Qed.

Lemma moves_lookup_l i r :
  l !! i = Some r → ∃ r', l' !! i = Some r' ∧ moves r r'.
Proof using Hm. intros Hr. destruct (Forall2_lookup_l _ _ _ _ _ Hm Hr) as (r' & ? & ?). eauto. Qed.

Lemma moves_last i r' : last_of l' i r' → ∃ r, last_of l i r ∧ moves r r'.
Proof using Hm.
  intros [Hi Hl]. destruct (moves_lookup _ _ Hi) as (r & Hr & Hrr). exists r. split; [|done].
  split; [done|]. intros j x Hj Hx. destruct (moves_lookup_l _ _ Hx) as (x' & Hx' & Hxx).
  rewrite <-(moves_seat _ _ Hxx), <-(moves_seat _ _ Hrr). eauto.
Qed.

Lemma moves_last_l i r : last_of l i r → ∃ r', last_of l' i r' ∧ moves r r'.
Proof using Hm.
  intros [Hi Hl]. destruct (moves_lookup_l _ _ Hi) as (r' & Hr & Hrr). exists r'. split; [|done].
  split; [done|]. intros j x' Hj Hx'. destruct (moves_lookup _ _ Hx') as (x & Hx & Hxx).
  rewrite (moves_seat _ _ Hxx), (moves_seat _ _ Hrr). eauto.
Qed.

Lemma moves_in_order : in_order l → in_order l'.
Proof using Hm.
  intros Ho i j r1' r2' Hij Hi Hj Hs.
  destruct (moves_lookup _ _ Hi) as (r1 & Hr1 & H1). destruct (moves_lookup _ _ Hj) as (r2 & Hr2 & H2).
  rewrite (moves_seat _ _ H1), (moves_seat _ _ H2) in Hs.
  destruct (Ho i j r1 r2) as [Ha Hov]; try done.
  rewrite (moves_slot _ _ H1), (moves_slot _ _ H2). split; [done|]. by apply (moves_over _ _ H1).
Qed.

(** An attempt that is settled stays so, and one that is not was not before. *)
Lemma moves_unsettled r r' :
  moves r r' → settled (SlotRecord.state r') = false → settled (SlotRecord.state r) = false.
Proof using Type.
  intros Hrr Hs. destruct (settled (SlotRecord.state r)) eqn:E; [|done].
  rewrite (moves_settled _ _ Hrr), E in Hs by by apply settled_over. done.
Qed.

Lemma moves_settled_stays r r' :
  moves r r' → settled (SlotRecord.state r) = true → settled (SlotRecord.state r') = true.
Proof using Type.
  intros Hrr Hs. by rewrite (moves_settled _ _ Hrr), Hs by by apply settled_over.
Qed.
End moves.

Lemma seats_mono n m s : n ≤ m → seats n s → seats m s.
Proof.
  intros Hnm []. split; try done.
  - intros step v Hv. transitivity n; eauto.
  - intros r Hr. destruct (seats_bounds0 r Hr) as [? ?]. split; [lia|done].
Qed.

Lemma seats_moves n s s' :
  Forall2 moves (RunState.slots s) (RunState.slots s') →
  Forall2 asks (RunState.questions s) (RunState.questions s') →
  RunState.visits s' = RunState.visits s → RunState.current_step s' = RunState.current_step s →
  RunState.def s' = RunState.def s → RunState.run s' = RunState.run s →
  match RunState.phase s' with
  | Phase.Created | Phase.Queued _ =>
      match RunState.phase s with Phase.Created | Phase.Queued _ => True | _ => False end
  | _ => True
  end →
  seats n s → seats n s'.
Proof.
  intros Hm Hq Hv Hc Hd Hr Hp [].
  assert (Hlk : ∀ r', r' ∈ RunState.slots s' → ∃ r, r ∈ RunState.slots s ∧ moves r r').
  { intros r' [i Hi]%list_elem_of_lookup. destruct (moves_lookup _ _ Hm _ _ Hi) as (r & ? & ?).
    eauto using list_elem_of_lookup_2. }
  assert (Hqk : ∀ q', q' ∈ RunState.questions s' → ∃ q, q ∈ RunState.questions s ∧ asks q q').
  { intros q' [i Hi]%list_elem_of_lookup. destruct (Forall2_lookup_r _ _ _ _ _ Hq Hi) as (q & ? & ?).
    eauto using list_elem_of_lookup_2. }
  split; rewrite ?Hv, ?Hc, ?Hd, ?Hr; try done.
  - intros r' (r & Hin & Hrr)%Hlk. rewrite (moves_slot _ _ Hrr). eauto.
  - intros r' (r & Hin & Hrr)%Hlk. rewrite (moves_slot _ _ Hrr). eauto.
  - by eapply moves_in_order.
  - intros r' (r & Hin & Hrr)%Hlk Hco Hw.
    destruct (moves_condition _ _ Hrr Hco Hw) as [[Hco' Hw']|]; [|done].
    destruct (seats_condition0 r Hin Hco' Hw') as [Ho Hn].
    by rewrite (moves_over _ _ Hrr Ho), (moves_replied _ _ Hrr Ho).
  - intros r' (r & Hin & Hrr)%Hlk. rewrite (moves_slot _ _ Hrr). intros Hsy Hre.
    destruct (over (SlotRecord.state r)) eqn:Eo; [|by eapply moves_synth].
    rewrite (moves_settled _ _ Hrr Eo). rewrite (moves_replied _ _ Hrr Eo) in Hre. eauto.
  - intros i r' (r & Hla & Hrr)%(moves_last _ _ Hm) Hs. rewrite (moves_slot _ _ Hrr).
    eapply seats_open0; eauto. by eapply moves_unsettled.
  - destruct (RunState.phase s'); try done; destruct (RunState.phase s); try done;
      destruct seats_queued0 as [H1 H2]; rewrite H1 in Hm; rewrite H2 in Hq;
      by apply Forall2_nil_inv_l in Hm, Hq.
  - replace (Question.id <$> RunState.questions s') with (Question.id <$> RunState.questions s);
      [done|]. clear -Hq. induction Hq as [|q q' l l' [Hid _ _] _ IH]; [done|]. csimpl. congruence.
  - intros q' slot m (q & Hin & Hqq)%Hqk Ha. rewrite (asks_asked _ _ Hqq) in Ha.
    destruct (seats_escalation0 q slot m Hin Ha) as [Hid (i & r & Hi & Hs & Hrep & Hopen)].
    rewrite (asks_id _ _ Hqq). split; [done|].
    destruct (moves_lookup_l _ _ Hm _ _ Hi) as (r' & Hi' & Hrr). exists i, r'.
    rewrite (moves_slot _ _ Hrr), (moves_replied _ _ Hrr) by by apply replied_over.
    split_and!; try done. intros Hans%(asks_answered _ _ Hqq).
    destruct (Hopen Hans) as [Hla Hun]. split.
    + destruct (moves_last_l _ _ Hm _ _ Hla) as (x & Hx & _). by destruct Hx; simplify_eq.
    + rewrite (moves_settled _ _ Hrr); [done|]. by apply replied_over.
  - intros q' step pass m (q & Hin & Hqq)%Hqk Ha. rewrite (asks_asked _ _ Hqq) in Ha.
    destruct (seats_ceiling0 q step pass m Hin Ha) as (visit & v & Hid & Hvi & Hle & Hcl & Hop).
    exists visit, v. rewrite (asks_id _ _ Hqq). split_and!; try done.
    + intros i r' (r & Hla & Hrr)%(moves_last _ _ Hm). rewrite (moves_slot _ _ Hrr). intros.
      eapply moves_settled_stays; eauto.
    + intros Hans%(asks_answered _ _ Hqq) i r' (r & Hla & Hrr)%(moves_last _ _ Hm).
      eapply moves_settled_stays; eauto.
  - intros q1' q2' step pass m step' pass' m' H1 H2 Ha1 Ha2 Hn1 Hn2.
    apply list_elem_of_lookup in H1 as [i Hi], H2 as [j Hj].
    destruct (Forall2_lookup_r _ _ _ _ _ Hq Hi) as (q1 & Hq1 & Hqq1).
    destruct (Forall2_lookup_r _ _ _ _ _ Hq Hj) as (q2 & Hq2 & Hqq2).
    rewrite (asks_asked _ _ Hqq1) in Ha1. rewrite (asks_asked _ _ Hqq2) in Ha2.
    assert (q1 = q2) as <- by
      (eapply seats_one_ceiling0; eauto using list_elem_of_lookup_2, asks_answered).
    assert (i = j) as <-; [|congruence].
    eapply (NoDup_lookup _ i j (Question.id q1) seats_ids0); by rewrite list_lookup_fmap, ?Hq1, ?Hq2.
Qed.

Lemma ladder_mut_kind f st :
  over (ladder_mut f st) = over st ∧ is_replied (ladder_mut f st) = is_replied st ∧
  settled (ladder_mut f st) = settled st.
Proof. by destruct st. Qed.

Lemma start_reply_stop_kind at_ forced st :
  over (start_reply_stop at_ forced st) = over st ∧
  is_replied (start_reply_stop at_ forced st) = is_replied st ∧
  settled (start_reply_stop at_ forced st) = settled st.
Proof. by destruct st. Qed.

Lemma moves_refl r : moves r r.
Proof. split; auto. intros Ho Hr. by rewrite (replied_over _ Hr) in Ho. Qed.

(** A move of the state alone that keeps its kind. *)
Lemma moves_state f r :
  over (f (SlotRecord.state r)) = over (SlotRecord.state r) →
  is_replied (f (SlotRecord.state r)) = is_replied (SlotRecord.state r) →
  settled (f (SlotRecord.state r)) = settled (SlotRecord.state r) →
  moves r (alter_state f r).
Proof.
  intros Ho Hr Hs. split; cbn; rewrite ?Ho, ?Hr, ?Hs; auto.
  intros Hov Hre. by rewrite (replied_over _ Hre) in Hov.
Qed.

Lemma input_move_moves s input r r' : input_move s input r r' → moves r r'.
Proof.
  intros Hm. destruct Hm as [ | | |key fact Hb Hk Hacc|key m es nr rew Hb Hk Hacc| | | | ].
  - apply moves_refl.
  - by apply moves_state; destruct (SlotRecord.state r).
  - apply moves_state; apply ladder_mut_kind.
  - destruct r as [sl st]; destruct fact as [|[]| | | |[]|], st; split; cbn in *; try done;
      repeat (case_match; cbn in *; try done); auto; by intros [].
  - assert (Ho : over (SlotRecord.state r) = false).
    { unfold reply_ignored in Hacc. by destruct (SlotRecord.state r);
        repeat (case_match; cbn in *; try done). }
    split; cbn; rewrite ?Ho; auto; try done.
    intros _ _ ->. rewrite bool_decide_eq_true_2 by done. by rewrite andb_false_r.
  - unfold resume_record.
    destruct (ladder_mut_kind
      (λ l, l <| Ladder.signals_sent := 0 |> <| Ladder.fired := GraceFired.None |>)
      (SlotRecord.state r)) as (Ho & Hr & Hs).
    case_match; split; cbn; rewrite ?Ho, ?Hr, ?Hs; auto; try (by intros []);
      intros Hov Hre; by rewrite (replied_over _ Hre) in Hov.
  - unfold withdraw_record.
    destruct (ladder_mut_kind (λ l, l <| Ladder.forced := true |>) (SlotRecord.state r))
      as (Ho & Hr & Hs).
    case_match; split; cbn; rewrite ?Ho, ?Hr, ?Hs; auto; try (by intros []);
      intros Hov Hre; by rewrite (replied_over _ Hre) in Hov.
  - apply moves_state; apply ladder_mut_kind.
  - apply moves_state; apply start_reply_stop_kind.
Qed.

Lemma act_input_visits s input :
  RunState.visits (act_input s input) = RunState.visits s ∧
  RunState.current_step (act_input s input) = RunState.current_step s.
Proof. input_cases. Qed.

Lemma asks_refl q : asks q q.
Proof. by split. Qed.

Lemma act_input_questions s input :
  Forall2 asks (RunState.questions s) (RunState.questions (act_input s input)).
Proof.
  assert (Hrefl : Forall2 asks (RunState.questions s) (RunState.questions s))
    by (apply Forall2_refl_move, asks_refl).
  unfold act_input. destruct (Event.body input) eqn:Hb; try exact Hrefl;
    try (input_cases; exact Hrefl).
  unfold apply_answer. case_match; [|done]. case_match; [|done]. cbn.
  apply Forall2_alter_move; [apply asks_refl|]. by split.
Qed.

Lemma seats_input n s input :
  ignored_reason s input = None → seats n s → seats n (act_input s input).
Proof.
  intros Hi Hs. destruct (act_input_visits s input) as [Hv Hc].
  destruct (act_input_fixed s input) as [Hd Hr].
  apply (seats_moves n s); try done.
  - eapply Forall2_impl; [apply act_input_slots; done|]. apply input_move_moves.
  - apply act_input_questions.
  - destruct (act_input_phase s input) as [->|[(?&?&_&->)|(?&?&?&?&_&_&->)]]; try done.
    by destruct (RunState.phase s).
Qed.

(** ** Decisions *)

(** What the timers of a state between two inputs say of the slots they name: a liveness timer names an
    attempt that is not over, and the retry of a hold names a seat's latest attempt, which has ended. *)
Definition armed_right (s : RunState) : Prop :=
  ∀ timer armed slot,
    RunState.timers s !! timer = Some armed → timer_slot timer = Some slot →
    (is_Some (timer_verdict (purpose armed)) →
       ∃ r, r ∈ RunState.slots s ∧ SlotRecord.slot r = slot ∧ over (SlotRecord.state r) = false) ∧
    (purpose armed = TimerPurpose.HoldRetry →
       ∃ i r, last_of (RunState.slots s) i r ∧ SlotRecord.slot r = slot ∧
         is_ended (SlotRecord.state r) = true).

(** A firing that is no grace and no wind-down moves no slot. *)
Lemma fired_slots s input timer fired_at armed :
  Event.body input = EventBody.TimerFired timer fired_at →
  RunState.timers s !! timer = Some armed →
  (is_Some (timer_verdict (purpose armed)) ∨ purpose armed = TimerPurpose.HoldRetry) →
  RunState.slots (apply_input s input) = RunState.slots s.
Proof.
  intros Hb Ha Hp. unfold apply_input. case_match; [done|]. unfold act_input. rewrite Hb, Ha.
  case_match; [done|]. unfold apply_firing.
  destruct (purpose armed); try done; by destruct Hp as [[]|].
Qed.

Section decision.
Context (n : N) (input : Event) (e : Emit).
Hypothesis Hdeciding : deciding input e.
Hypothesis Hbefore : seats n (Emit.before e).
Hypothesis Harmed : armed_right (Emit.before e).
Hypothesis Hseats : seats n (Emit.state e).

Lemma accepted_input : apply_input (Emit.before e) input = act_input (Emit.before e) input.
Proof using Hdeciding. destruct Hdeciding as (_ & Hi & _). unfold apply_input. by rewrite Hi. Qed.

(** Record by record, the slots of a list that has touched none yet are the slots before the input. *)
Lemma folded_moves :
  slots_folded input e →
  Forall2 (input_move (Emit.before e) input) (RunState.slots (Emit.before e))
    (RunState.slots (Emit.state e)).
Proof using Hdeciding.
  intros [-> _]. rewrite accepted_input. apply act_input_slots. by destruct Hdeciding as (_ & ? & _).
Qed.

Lemma folded_moves' :
  slots_folded input e →
  Forall2 moves (RunState.slots (Emit.before e)) (RunState.slots (Emit.state e)).
Proof using Hdeciding.
  intros Hf. eapply Forall2_impl; [by apply folded_moves|]. apply input_move_moves.
Qed.

Lemma just_ended_record slot r cause r1 :
  just_ended input e slot r cause → r1 ∈ RunState.slots (Emit.state e) → SlotRecord.slot r1 = slot →
  is_ended (SlotRecord.state r1) = true.
Proof using Hseats.
  intros [key i r0 _ _ _ _ _ _ Hr Hs He] [j Hj]%list_elem_of_lookup Hs1. unfold slot_at in Hr.
  by destruct (in_order_slot_inj _ (seats_order _ _ Hseats) j i r1 r) as [_ ->]; [..|congruence|rewrite He].
Qed.

Lemma liveness_not_over slot reason r :
  liveness_reason input e slot reason → r ∈ RunState.slots (Emit.state e) → SlotRecord.slot r = slot →
  over (SlotRecord.state r) = false.
Proof using Hdeciding Hbefore Harmed Hseats.
  intros [timer fired_at armed reason' Hb Ha _ Hf Hts Hv|key pids i r0 Hb Hf Hr0 Hs Ho Hli Hns Hfs] Hr Hsr.
  - destruct Hf as [Hf _]. rewrite (fired_slots _ _ _ _ _ Hb Ha) in Hf by eauto.
    destruct (Harmed timer armed slot Ha Hts) as [Hv' _].
    destruct Hv' as (r1 & Hr1 & Hs1 & Ho1); [eauto|]. rewrite Hf in Hr.
    apply list_elem_of_lookup in Hr as [i Hi], Hr1 as [j Hj].
    by destruct (in_order_slot_inj _ (seats_order _ _ Hbefore) i j r r1) as [_ ->]; [..|congruence|].
  - apply list_elem_of_lookup in Hr as [j Hj].
    destruct (find_slot_Some _ _ _ Hfs) as (r1 & Hr1 & Hs1).
    destruct (in_order_slot_inj _ (seats_order _ _ Hseats) j i r r1) as [-> ->]; [done|done|congruence|].
    destruct (Forall2_lookup_r _ _ _ _ _ (folded_moves Hf) Hr1) as (r2 & Hr2 & Hm).
    simplify_eq. destruct Hm as [| | |key' fact' Hb'| | | | | ]; try done; try congruence.
    rewrite Hb in Hb'. simplify_eq. destruct r0 as [sl st]; destruct st; cbn in *; naive_solver.
Qed.

Lemma decision_moves d r r' :
  may input e d → r ∈ RunState.slots (Emit.state e) →
  decision_move (Emit.state e) (Emit.at_ e) d r r' → moves r r'.
Proof using Hdeciding Hbefore Harmed Hseats.
  intros Hmay Hin Hm. destruct Hm as [|timer fire_at ->|reason since ->|reason until resets ->|reason ->|o reason ->].
  - apply moves_refl.
  - by apply moves_state; destruct (SlotRecord.state r).
  - assert (Ho : over (SlotRecord.state r) = false).
    { inversion Hmay; subst. by eapply liveness_not_over. }
    split; cbn; rewrite ?Ho; auto; try done. unfold liveness_state. by case_match.
  - assert (He : is_ended (SlotRecord.state r) = true).
    { inversion Hmay; subst. by eapply just_ended_record. }
    unfold hold_record. destruct resets; split; cbn; auto; by destruct (SlotRecord.state r); auto.
  - split; cbn; auto; [|intros Ho Hr; by rewrite (replied_over _ Hr) in Ho].
    unfold is_would_not_stop. cbn. intros _ Hw%bool_decide_eq_false.
    assert (He : is_ended (SlotRecord.state r) = true).
    { inversion Hmay as [| | | | | | | | | | | | | | |? ? Hp| | | | | |]; subst.
      destruct Hp; [..|by destruct Hw]; by eapply just_ended_record. }
    by destruct (SlotRecord.state r); auto.
  - split; cbn; try (by intros []); by destruct (SlotRecord.state r) as [| | | | |? []| |].
Qed.
End decision.

(** *** A started step *)
Lemma last_of_app l new i r :
  last_of (l ++ new) i r →
  (last_of l i r ∧ ∀ x, x ∈ new → seat x ≠ seat r) ∨ r ∈ new.
Proof.
  intros [[Hi|[Hlt Hi]]%lookup_app_Some Hl]; [left|right; by eapply list_elem_of_lookup_2].
  split; [split; [done|]|].
  - intros j r' Hj Hr'. eapply Hl; [done|]. by apply lookup_app_l_Some.
  - intros x [k Hk]%list_elem_of_lookup. apply (Hl (length l + k)%nat).
    + apply lookup_lt_Some in Hi. lia.
    + by rewrite lookup_app_r, Nat.add_comm, Nat.add_sub by lia.
Qed.

Lemma last_of_app_l l new i r :
  last_of l i r → (∀ x, x ∈ new → seat x ≠ seat r) → last_of (l ++ new) i r.
Proof.
  intros [Hi Hl] Hn. split; [by apply lookup_app_l_Some|].
  intros j r' Hj [Hr'|[_ Hr']]%lookup_app_Some; [eauto|]. apply Hn. by eapply list_elem_of_lookup_2.
Qed.

Section append.
Context (n : N) (s s' : RunState) (step : StepId) (visit attempt : N) (members : list Handle)
  (d : StepDef) (new : list SlotRecord).
Hypothesis Hs : seats n s.
Hypothesis Hslots : RunState.slots s' = RunState.slots s ++ new.
Hypothesis Hnew : Forall2 (λ m r, SlotRecord.slot r = MkSlot step visit m attempt ∧
  SlotRecord.state r = SlotState.Pending ∧ SlotRecord.condition r = None) members new.
Hypothesis Hquestions : RunState.questions s' = RunState.questions s.
Hypothesis Hvisits : RunState.visits s' = <[step := visit]> (RunState.visits s).
Hypothesis Hcurrent : RunState.current_step s' = Some step.
Hypothesis Hfixed : RunState.def s' = RunState.def s ∧ RunState.run s' = RunState.run s.
Hypothesis Hphase :
  match RunState.phase s' with Phase.Created | Phase.Queued _ => False | _ => True end.
Hypothesis Hnodup : NoDup members.
Hypothesis Hdef : def_step (RunState.def s) step = Some d.
Hypothesis Hmembers : ∀ m, m ∈ members → m ∈ members_of d ∨ m = SYNTH ∧ has_synthesis d = true.
Hypothesis Hbound : attempt ≤ n + 1 ∧ visit ≤ n + 1.
Hypothesis Hmono : ∀ v, RunState.visits s !! step = Some v → v ≤ visit.
Hypothesis Hprior : ∀ i r m, last_of (RunState.slots s) i r → m ∈ members →
  seat r = (step, visit, m) →
  over (SlotRecord.state r) = true ∧ slot_attempt (SlotRecord.slot r) < attempt.
Hypothesis Hopen : ∀ i r, last_of (RunState.slots s) i r → settled (SlotRecord.state r) = false →
  slot_step (SlotRecord.slot r) = step ∧ slot_visit (SlotRecord.slot r) = visit.
Hypothesis Hceiling : ∀ q step' pass m,
  q ∈ RunState.questions s → Question.asked q = Asked.Ceiling step' pass m →
  Question.answered q = true ∧
  ∀ visit', Question.id q = ceiling_key (RunState.run s) step' visit' pass →
    closed s step' visit' → (step', visit') ≠ (step, visit).
Hypothesis Hescalation : ∀ q slot m,
  q ∈ RunState.questions s → Question.asked q = Asked.Escalation slot m →
  Question.answered q = false → slot_step slot = step → slot_visit slot = visit →
  slot_member slot ∉ members.

Lemma new_record_of r : r ∈ new →
  ∃ m, m ∈ members ∧ SlotRecord.slot r = MkSlot step visit m attempt ∧
    SlotRecord.state r = SlotState.Pending ∧ SlotRecord.condition r = None.
Proof using Hnew.
  intros [k Hk]%list_elem_of_lookup.
  destruct (Forall2_lookup_r _ _ _ _ _ Hnew Hk) as (m & Hm & ? & ? & ?).
  eauto 10 using list_elem_of_lookup_2.
Qed.

Lemma append_in_order : in_order (RunState.slots s').
Proof using Hs Hslots Hnew Hnodup Hprior Hbound.
  rewrite Hslots. intros i j r1 r2 Hij Hi Hj Hseat.
  apply lookup_app_Some in Hj as [Hj|[Hlt Hj]].
  { rewrite lookup_app_l in Hi by (apply lookup_lt_Some in Hj; lia).
    eapply (seats_order _ _ Hs); eauto. }
  destruct (Forall2_lookup_r _ _ _ _ _ Hnew Hj) as (m & Hm & Hs2 & _ & _).
  assert (Hsm : seat r1 = (step, visit, m)) by (rewrite Hseat; unfold seat; by rewrite Hs2).
  apply lookup_app_Some in Hi as [Hi|[Hlt' Hi]].
  - destruct (last_of_exists _ _ _ Hi) as (k & r & Hik & Hlast & Hsr).
    destruct (Hprior k r m Hlast) as [Ho Ha]; [by eapply list_elem_of_lookup_2|congruence|].
    rewrite Hs2. simpl. destruct (base.decide (i = k)) as [->|].
    { destruct Hlast. by simplify_eq. }
    destruct (seats_order _ _ Hs i k r1 r) as [Hlt1 Ho1]; [lia|done|by destruct Hlast|done|].
    split; [lia|done].
  - destruct (Forall2_lookup_r _ _ _ _ _ Hnew Hi) as (m1 & Hm1 & Hs1 & _ & _).
    unfold seat in Hsm. rewrite Hs1 in Hsm. simplify_eq/=.
    pose proof (NoDup_lookup _ _ _ _ Hnodup Hm Hm1). lia.
Qed.

Lemma seats_append : seats (n + 1) s'.
Proof using Type*.
  destruct Hfixed as [Hd Hr]. destruct Hbound as [Hba Hbv].
  assert (Hin : ∀ r, r ∈ RunState.slots s' → r ∈ RunState.slots s ∨ r ∈ new)
    by (intros r; rewrite Hslots; apply elem_of_app).
  split; rewrite ?Hd, ?Hr, ?Hquestions.
  - intros step' v. rewrite Hvisits, lookup_insert_Some. intros [[<- <-]|[_ Hv]]; [done|].
    apply (seats_visits _ _ Hs) in Hv. lia.
  - intros step' v. rewrite Hvisits, lookup_insert_Some. intros [[<- _]|[_ Hv]]; [by rewrite Hdef|].
    by eapply seats_visited.
  - intros r [Hold|(m & _ & Hsl & _ & _)%new_record_of]%Hin; rewrite Hvisits.
    + destruct (seats_bounds _ _ Hs r Hold) as [Ha (v & Hv & Hle)]. split; [lia|].
      destruct (base.decide (slot_step (SlotRecord.slot r) = step)) as [<-|Hne].
      * exists visit. rewrite lookup_insert_eq. split; [done|]. etrans; [exact Hle|]. eauto.
      * exists v. by rewrite lookup_insert_ne.
    + rewrite Hsl. simpl. split; [done|]. exists visit. by rewrite lookup_insert_eq.
  - intros r [Hold|(m & Hm & Hsl & _ & _)%new_record_of]%Hin; [by eapply seats_members|].
    rewrite Hsl. simpl. eauto.
  - apply append_in_order.
  - intros r [Hold|(m & _ & _ & _ & Hc)%new_record_of]%Hin; [by eapply seats_condition|].
    rewrite Hc. by intros [].
  - intros r [Hold|(m & _ & _ & Hst & _)%new_record_of]%Hin; [by eapply seats_synth|].
    by rewrite Hst.
  - intros i r. rewrite Hslots, Hcurrent, Hvisits.
    intros [[Hlast _]|(m & _ & Hsl & _ & _)%new_record_of]%last_of_app Hset.
    + destruct (Hopen i r Hlast Hset) as [-> ->]. by rewrite lookup_insert_eq.
    + rewrite Hsl. simpl. by rewrite lookup_insert_eq.
  - by destruct (RunState.phase s').
  - apply (seats_ids _ _ Hs).
  - intros q slot m Hq Ha. destruct (seats_escalation _ _ Hs q slot m Hq Ha)
      as [Hid (i & r & Hi & Hsl & Hrep & Hopn)].
    split; [done|]. exists i, r. rewrite Hslots. split_and!; try done; [by apply lookup_app_l_Some|].
    intros Hans. destruct (Hopn Hans) as [Hlast Hun]. split; [|done].
    apply last_of_app_l; [done|]. intros x (m' & Hm' & Hsx & _ & _)%new_record_of Heq.
    unfold seat in Heq. rewrite Hsx, Hsl in Heq. simplify_eq/=.
    eapply Hescalation; eauto; congruence.
  - intros q step' pass m Hq Ha.
    destruct (seats_ceiling _ _ Hs q step' pass m Hq Ha) as (visit' & v & Hid & Hv & Hle & Hcl & _).
    destruct (Hceiling q step' pass m Hq Ha) as [Hans Hne].
    exists visit', (if base.decide (step' = step) then visit else v). split_and!; [done|..].
    + rewrite Hvisits. case_decide as Hst; [subst; apply lookup_insert_eq|by rewrite lookup_insert_ne].
    + case_decide as Hst; [|done]. subst. etrans; [exact Hle|]. by apply Hmono.
    + intros i r. rewrite Hslots. intros [[Hlast _]|(m' & _ & Hsl & _ & _)%new_record_of]%last_of_app;
        [by apply (Hcl i r)|]. rewrite Hsl. simpl. intros <- <-. by destruct (Hne visit Hid Hcl).
    + congruence.
  - intros q q' step1 pass m step2 pass' m' Hq Hq' Ha Ha' Hn.
    destruct (Hceiling q step1 pass m Hq Ha) as [Hans _]. congruence.
Qed.
End append.

(** ** Why a decision keeps the seats in order *)

Lemma deciding_fixed input e :
  deciding input e →
  Emit.def e = RunState.def (Emit.before e) ∧
  RunState.def (Emit.state e) = RunState.def (Emit.before e) ∧
  RunState.run (Emit.state e) = RunState.run (Emit.before e).
Proof.
  intros (_ & Hi & pre & Heq). rewrite Heq. cbn. split; [done|].
  assert (Hfold : ∀ ds s, RunState.def (foldl (apply_decision (Event.at_ input)) s ds) = RunState.def s ∧
    RunState.run (foldl (apply_decision (Event.at_ input)) s ds) = RunState.run s).
  { induction ds as [|d ds IH]; intros s; simpl; [done|].
    destruct (IH (apply_decision (Event.at_ input) s d)) as [-> ->].
    by destruct (apply_decision_fixed (Event.at_ input) s d) as (-> & -> & _). }
  destruct (Hfold pre (apply_input (Emit.before e) input)) as [-> ->].
  unfold apply_input. rewrite Hi. apply act_input_fixed.
Qed.

Definition all_settled (s : RunState) : Prop :=
  ∀ i r, last_of (RunState.slots s) i r → settled (SlotRecord.state r) = true.

Definition ceilings_answered (s : RunState) : Prop :=
  ∀ q step pass m, q ∈ RunState.questions s → Question.asked q = Asked.Ceiling step pass m →
    Question.answered q = true.

Lemma ceiling_key_visit_inj run step visit visit' pass :
  ceiling_key run step visit pass = ceiling_key run step visit' pass → visit = visit'.
Proof.
  unfold ceiling_key. intros H.
  apply (inj (String.app "ceiling/")), (inj (String.app run)), (inj (String.app "/")),
    (inj (String.app step)), (inj (String.app "/v")) in H.
  by apply string_app_inj_r, (inj pretty) in H.
Qed.

Section starts.
Context (n : N) (at_ : Timestamp) (s : RunState).
Hypothesis Hflow : flow_ok (RunState.def s).
Hypothesis Hs : seats n s.
Hypothesis Hn : n < u32_max.

Lemma step_started_seats step visit attempt members d :
  def_step (RunState.def s) step = Some d →
  NoDup members →
  (∀ m, m ∈ members → m ∈ members_of d ∨ m = SYNTH ∧ has_synthesis d = true) →
  attempt ≤ n + 1 → visit ≤ n + 1 →
  (∀ v, RunState.visits s !! step = Some v → v ≤ visit) →
  (∀ i r m, last_of (RunState.slots s) i r → m ∈ members → seat r = (step, visit, m) →
     over (SlotRecord.state r) = true ∧ slot_attempt (SlotRecord.slot r) < attempt) →
  (∀ i r, last_of (RunState.slots s) i r → settled (SlotRecord.state r) = false →
     slot_step (SlotRecord.slot r) = step ∧ slot_visit (SlotRecord.slot r) = visit) →
  (∀ q step' pass m, q ∈ RunState.questions s → Question.asked q = Asked.Ceiling step' pass m →
     Question.answered q = true ∧
     ∀ visit', Question.id q = ceiling_key (RunState.run s) step' visit' pass →
       closed s step' visit' → (step', visit') ≠ (step, visit)) →
  (∀ q slot m, q ∈ RunState.questions s → Question.asked q = Asked.Escalation slot m →
     Question.answered q = false → slot_step slot = step → slot_visit slot = visit →
     slot_member slot ∉ members) →
  seats (n + 1) (apply_decision at_ s (Decision.StepStarted step visit attempt members)).
Proof using Hs.
  intros Hd Hnd Hme Ha Hv Hmo Hpr Hop Hce Hes.
  destruct (apply_decision_slots at_ s (Decision.StepStarted step visit attempt members))
    as (kept & new & Heq & Hk & Hnew).
  assert (kept = RunState.slots s) as ->.
  { clear -Hk. induction Hk as [|r r' l l' Hm _ IH]; [done|]. rewrite IH. f_equal.
    by destruct Hm. }
  eapply (seats_append n s _ step visit attempt members d new); eauto.
  - eapply Forall2_impl; [exact Hnew|]. naive_solver.
  - by rewrite apply_decision_questions.
  - by rewrite apply_decision_visits.
  - by rewrite apply_decision_current.
  - by destruct (apply_decision_fixed at_ s (Decision.StepStarted step visit attempt members))
      as (? & ? & _).
  - rewrite apply_decision_phase. by destruct (RunState.phase s).
Qed.

(** Nothing is open: a visit of any step may start. *)
Lemma new_visit_seats step d :
  def_step (RunState.def s) step = Some d → all_settled s → ceilings_answered s →
  seats (n + 1) (apply_decision at_ s (Decision.StepStarted step
    (u32_succ (default 0 (RunState.visits s !! step))) 1 (members_of d))).
Proof using Type*.
  intros Hd Hset Hce. set (v := default 0 (RunState.visits s !! step)).
  assert (Hv : v ≤ n).
  { subst v. destruct (RunState.visits s !! step) eqn:E; simpl; [by eapply seats_visits|lia]. }
  rewrite u32_succ_small by lia.
  assert (Hlt : ∀ r, r ∈ RunState.slots s → slot_step (SlotRecord.slot r) = step →
    slot_visit (SlotRecord.slot r) < v + 1).
  { intros r Hr Heq. destruct (seats_bounds _ _ Hs r Hr) as [_ (w & Hw & Hle)].
    subst v. rewrite Heq in Hw. rewrite Hw. simpl. lia. }
  assert (Hok : step_ok (FlowDef.steps (RunState.def s)) d).
  { unfold def_step, find_step in Hd. apply find_first_Some in Hd as [Hin _].
    eapply Forall_forall; [exact (flow_steps_ok _ Hflow)|done]. }
  apply step_started_seats with d; try done; try lia.
  - apply (step_members_distinct _ _ Hok).
  - auto.
  - intros w Hw. subst v. rewrite Hw. simpl. lia.
  - intros i r m [Hi _] _ Hseat. unfold seat in Hseat. simplify_eq.
    specialize (Hlt r ltac:(by eapply list_elem_of_lookup_2) eq_refl). lia.
  - intros i r Hla Hun. by rewrite (Hset i r Hla) in Hun.
  - intros q step' pass m Hq Ha. split; [by eapply Hce|]. intros visit' Hid _ [= -> ->].
    destruct (seats_ceiling _ _ Hs q step pass m Hq Ha) as (w & w' & Hid' & Hw & Hle & _).
    rewrite Hid' in Hid. apply ceiling_key_visit_inj in Hid as ->.
    subst v. rewrite Hw in Hle. simpl in Hle. lia.
  - intros q slot m Hq Ha Hans. destruct (seats_escalation _ _ Hs q slot m Hq Ha)
      as [_ (i & r & _ & _ & _ & Hopn)]. destruct (Hopn Hans) as [Hla Hun].
    by rewrite (Hset i r Hla) in Hun.
Qed.

(** The latest attempt of a seat is over and unsettled: the next one may start. *)
Lemma new_attempt_seats i r :
  last_of (RunState.slots s) i r → over (SlotRecord.state r) = true →
  settled (SlotRecord.state r) = false →
  (∀ q m, q ∈ RunState.questions s → Question.asked q = Asked.Escalation (SlotRecord.slot r) m →
     Question.answered q = true) →
  seats (n + 1) (apply_decision at_ s (Decision.StepStarted (slot_step (SlotRecord.slot r))
    (slot_visit (SlotRecord.slot r)) (u32_succ (slot_attempt (SlotRecord.slot r)))
    [slot_member (SlotRecord.slot r)])).
Proof using Hs Hn.
  intros Hla Hov Hun Hes. destruct (seats_open _ _ Hs i r Hla Hun) as [Hcur Hvis].
  assert (Hr : r ∈ RunState.slots s) by (destruct Hla; by eapply list_elem_of_lookup_2).
  destruct (seats_bounds _ _ Hs r Hr) as [Hat _].
  destruct (seats_members _ _ Hs r Hr) as (d & Hd & Hm).
  pose proof (seats_visits _ _ Hs _ _ Hvis) as Hvn.
  rewrite u32_succ_small by lia. apply step_started_seats with d; try done; try lia.
  - apply NoDup_singleton.
  - intros m ->%list_elem_of_singleton. done.
  - intros v Hv. by simplify_eq.
  - intros j r' m Hla' ->%list_elem_of_singleton Hseat.
    destruct (last_of_unique _ _ _ _ _ Hla' Hla Hseat) as [_ ->]. split; [done|lia].
  - intros j r' Hla' Hun'. destruct (seats_open _ _ Hs j r' Hla' Hun') as [Hcur' Hvis'].
    split; congruence.
  - intros q step' pass m Hq Ha. split.
    + destruct (Question.answered q) eqn:E; [done|].
      destruct (seats_ceiling _ _ Hs q step' pass m Hq Ha) as (? & ? & _ & _ & _ & _ & Hop).
      by rewrite (Hop E i r Hla) in Hun.
    + intros visit' _ Hcl [= -> ->]. by rewrite (Hcl i r Hla eq_refl eq_refl) in Hun.
  - intros q slot m Hq Ha Hans Hst Hvi Hmm%list_elem_of_singleton.
    destruct (seats_escalation _ _ Hs q slot m Hq Ha) as [_ (j & r' & _ & Hsl & _ & Hopn)].
    destruct (Hopn Hans) as [Hla' _].
    destruct (last_of_unique _ _ _ _ _ Hla' Hla) as [_ ->].
    { unfold seat. rewrite Hsl. congruence. }
    subst slot. by rewrite (Hes q m Hq Ha) in Hans.
Qed.
End starts.

Lemma not_over_last l i r :
  in_order l → l !! i = Some r → over (SlotRecord.state r) = false → last_of l i r.
Proof.
  intros Ho Hi Hov. split; [done|]. intros j r' Hj Hr' Heq.
  destruct (Ho i j r r') as [_ ?]; congruence.
Qed.

Section reasons.
Context (n : N) (input : Event) (e : Emit).
Hypothesis Hdeciding : deciding input e.
Hypothesis Hbefore : seats n (Emit.before e).
Hypothesis Harmed : armed_right (Emit.before e).
Hypothesis Hseats : seats n (Emit.state e).

Lemma folded_last i r0 :
  slots_folded input e → last_of (RunState.slots (Emit.before e)) i r0 →
  ∃ r, last_of (RunState.slots (Emit.state e)) i r ∧ moves r0 r.
Proof using Hdeciding. intros Hf Hla. by apply (moves_last_l _ _ (folded_moves' _ _ Hdeciding Hf)). Qed.

(** The attempt a reply is accepted for is its seat's latest and is not over. *)
Lemma reply_open i r0 :
  RunState.slots (Emit.before e) !! i = Some r0 → reply_ignored (Emit.before e) r0 = None →
  last_of (RunState.slots (Emit.before e)) i r0 ∧ over (SlotRecord.state r0) = false.
Proof using Hbefore.
  intros Hi Hr. unfold reply_ignored in Hr. case_match; [done|]. case_match eqn:Esup; [done|].
  split; [by apply superseded_last; [apply (seats_order _ _ Hbefore)|..]|].
  case_match; [done|]. by destruct (SlotRecord.state r0).
Qed.

Lemma not_over_unsettled st : over st = false → settled st = false.
Proof using Type. by destruct st as [| | | | |? []| |]. Qed.

(** Whoever replies, no ceiling stands, and the visit replied in has asked at none. *)
Lemma complete_ceilings step visit d bits q step' pass m :
  step_complete input e step visit d bits →
  q ∈ RunState.questions (Emit.state e) → Question.asked q = Asked.Ceiling step' pass m →
  Question.answered q = true ∧
  ∀ visit', Question.id q = ceiling_key (RunState.run (Emit.state e)) step' visit' pass →
    (step', visit') ≠ (step, visit).
Proof using Hdeciding Hbefore.
  intros [_ Hq (key & msg & esc & nr & i & r0 & Hb & Hr0 & Hri & Hst & Hvi) _ _ _ _] Hin Ha.
  destruct (Hq q Hin) as [Hinb|(slot & m' & ?)]; [|congruence].
  destruct (reply_open i r0 Hr0 Hri) as [Hla Hov].
  destruct (deciding_fixed _ _ Hdeciding) as (_ & _ & Hrun).
  destruct (seats_ceiling _ _ Hbefore q step' pass m Hinb Ha) as (w & v & Hid & _ & _ & Hcl & Hop).
  apply not_over_unsettled in Hov. split.
  - destruct (Question.answered q) eqn:E; [done|]. by rewrite (Hop eq_refl i r0 Hla) in Hov.
  - intros visit'. rewrite Hid, Hrun. intros <-%ceiling_key_visit_inj [= -> ->].
    by rewrite (Hcl i r0 Hla Hst Hvi) in Hov.
Qed.

Lemma done_all_settled step visit d bits :
  step_done input e step visit d bits → all_settled (Emit.state e).
Proof using Hdeciding Hseats.
  intros [[_ _ _ Hcur Hvis Hdef Hmem] Hsyn] i r Hla.
  destruct (settled (SlotRecord.state r)) eqn:E; [done|].
  destruct (seats_open _ _ Hseats i r Hla E) as [Hc Hv].
  assert (Hr : r ∈ RunState.slots (Emit.state e)) by (destruct Hla; by eapply list_elem_of_lookup_2).
  destruct (seats_members _ _ Hseats r Hr) as (d' & Hd' & Hm).
  destruct (deciding_fixed _ _ Hdeciding) as (Hde & Hds & _). rewrite Hde, <-Hds in Hdef.
  rewrite Hcur in Hc. simplify_eq.
  assert (Hlat : latest (Emit.state e) (slot_step (SlotRecord.slot r)) (slot_visit (SlotRecord.slot r))
    (slot_member (SlotRecord.slot r)) = Some r) by (apply latest_Some; eauto).
  destruct Hm as [Hm|[Hm Hhas]].
  - apply list_elem_of_lookup in Hm as [k Hk].
    destruct (Forall2_lookup_l _ _ _ _ _ Hmem Hk) as (bit & _ & r' & msg & p & o & l & Hr' & Hst).
    rewrite Hlat in Hr'. simplify_eq. by rewrite Hst in E.
  - destruct (Hsyn Hhas) as (r' & Hr' & Hrep). rewrite <-Hm, Hlat in Hr'. simplify_eq.
    by rewrite (seats_synth _ _ Hseats r' Hr Hm Hrep) in E.
Qed.

(** The question an answer acts on was open, and is answered now; nothing else was touched. *)
Lemma answered_first question disposition message q :
  Event.body input = EventBody.Answer question disposition message →
  books_folded input e → asked_first e question q →
  q ∈ RunState.questions (Emit.before e) ∧ Question.answered q = false ∧
  ∀ q', q' ∈ RunState.questions (Emit.state e) → Question.answered q' = false →
    q' ∈ RunState.questions (Emit.before e) ∧ q' ≠ q.
Proof using Hdeciding Hbefore.
  intros Hb [_ Hbk] Hfirst. destruct (find_first_Some _ _ _ Hfirst) as [Hin Hid%bool_decide_eq_true].
  destruct Hdeciding as (_ & Hi & _). pose proof (seats_ids _ _ Hbefore) as Hnd.
  assert (Hopen : Question.answered q = false).
  { unfold ignored_reason in Hi. rewrite Hb in Hi. case_match; [done|]. case_match; [done|].
    cbn in Hi. destruct (existsb _ _) eqn:Ex; [|done].
    apply existsb_exists in Ex as (q1 & Hq1%list_elem_of_In & Han).
    apply list_elem_of_filter in Hq1 as [Ho1 Hin1].
    unfold answerable in Han. rewrite !andb_true_iff, bool_decide_eq_true in Han.
    destruct Han as [[Hid1 _] _].
    assert (q = q1) as <-; [|done].
    apply list_elem_of_lookup in Hin as [j Hj], Hin1 as [k Hk].
    assert (j = k) as <-; [|congruence].
    eapply (NoDup_lookup _ j k (Question.id q) Hnd); rewrite list_lookup_fmap, ?Hj, ?Hk; simpl;
      congruence. }
  split_and!; [done|done|]. rewrite Hbk, (accepted_input input e Hdeciding).
  unfold act_input. rewrite Hb. unfold apply_answer.
  destruct (position _ (RunState.questions (Emit.before e))) as [k|] eqn:Ek.
  2:{ apply position_None in Ek. rewrite Forall_forall in Ek. specialize (Ek q Hin).
      by rewrite bool_decide_eq_true_2 in Ek. }
  destruct (position_Some _ _ _ Ek) as (q1 & Hk & Hid1%bool_decide_eq_true). rewrite Hk. cbn.
  intros q' [j Hj]%list_elem_of_lookup Hans.
  destruct (base.decide (k = j)) as [<-|Hne].
  { rewrite list_lookup_alter_eq, Hk in Hj. simpl in Hj. by simplify_eq. }
  rewrite list_lookup_alter_ne in Hj by done. split; [by eapply list_elem_of_lookup_2|].
  intros ->. apply Hne. eapply (NoDup_lookup _ k j (Question.id q) Hnd); rewrite list_lookup_fmap, ?Hj, ?Hk;
    simpl; congruence.
Qed.

Lemma visit_settled step :
  visit_reason input e step →
  all_settled (Emit.state e) ∧ ceilings_answered (Emit.state e).
Proof using Hdeciding Hbefore Hseats.
  assert (Hans : ∀ question disposition message q from pass m,
    Event.body input = EventBody.Answer question disposition message →
    books_folded input e → asked_first e question q → Question.asked q = Asked.Ceiling from pass m →
    all_settled (Emit.state e) ∧ ceilings_answered (Emit.state e)).
  { intros question disposition message q from pass m Hb Hbk Hfi Ha.
    destruct (answered_first _ _ _ _ Hb Hbk Hfi) as (Hin & Hopen & Hrest). split.
    - destruct (seats_ceiling _ _ Hbefore q from pass m Hin Ha) as (_ & _ & _ & _ & _ & _ & Hall).
      intros i r Hla. destruct (moves_last _ _ (folded_moves' _ _ Hdeciding (proj1 Hbk)) _ _ Hla)
        as (r0 & Hla0 & Hrr). eapply moves_settled_stays; eauto.
    - intros q' step' pass' m' Hq' Ha'. destruct (Question.answered q') eqn:E; [done|].
      destruct (Hrest q' Hq' E) as [Hinb Hne]. destruct Hne.
      eapply (seats_one_ceiling _ _ Hbefore); eauto. }
  intros [d Hb [Hf Hq] _ _|from visit d bits Hd _ _|from visit d bits pass Hd _
    |question message q from pass m Hb Hbk Hfi Ha _|question message q from pass m d Hb Hbk Hfi Ha _ _].
  - assert (Hempty : RunState.slots (Emit.before e) = [] ∧ RunState.questions (Emit.before e) = []).
    { destruct Hdeciding as (_ & Hi & _). unfold ignored_reason in Hi. rewrite Hb in Hi.
      case_match; [done|]. case_match; [done|]. cbn in Hi. pose proof (seats_queued _ _ Hbefore) as Hqu.
      by destruct (RunState.phase (Emit.before e)). }
    destruct Hempty as [Hs0 Hq0]. split.
    + intros i r [Hi _]. pose proof (folded_moves' _ _ Hdeciding Hf) as Hm. rewrite Hs0 in Hm.
      apply Forall2_nil_inv_l in Hm. by rewrite Hm in Hi.
    + intros q' step' pass m. rewrite Hq, (accepted_input input e Hdeciding).
      unfold act_input. rewrite Hb. cbn. rewrite Hq0. by intros ?%elem_of_nil.
  - split; [by eapply done_all_settled|]. intros q step' pass m Hin Ha.
    destruct Hd as [Hc _]. eapply complete_ceilings; eauto.
  - split; [by eapply done_all_settled|]. intros q step' pass' m Hin Ha.
    destruct Hd as [Hc _]. eapply complete_ceilings; eauto.
  - by eapply Hans.
  - by eapply Hans.
Qed.
(** An attempt that did not reply has no open question about it. *)
Lemma unasked r :
  r ∈ RunState.slots (Emit.state e) → is_replied (SlotRecord.state r) = false →
  ∀ q m, q ∈ RunState.questions (Emit.state e) →
    Question.asked q = Asked.Escalation (SlotRecord.slot r) m → Question.answered q = true.
Proof using Hseats.
  intros [i Hi]%list_elem_of_lookup Hr q m Hq Ha.
  destruct (seats_escalation _ _ Hseats q _ m Hq Ha) as [_ (j & r' & Hj & Hsl & Hrep & _)].
  destruct (in_order_slot_inj _ (seats_order _ _ Hseats) j i r' r Hj Hi Hsl) as [_ ->]. congruence.
Qed.

Lemma attempt_open slot :
  attempt_reason input e slot →
  ∃ i r, last_of (RunState.slots (Emit.state e)) i r ∧ SlotRecord.slot r = slot ∧
    over (SlotRecord.state r) = true ∧ settled (SlotRecord.state r) = false ∧
    ∀ q m, q ∈ RunState.questions (Emit.state e) → Question.asked q = Asked.Escalation slot m →
      Question.answered q = true.
Proof using Hdeciding Hbefore Harmed Hseats.
  assert (Hgen : ∀ i r, last_of (RunState.slots (Emit.state e)) i r → SlotRecord.slot r = slot →
    over (SlotRecord.state r) = true → is_replied (SlotRecord.state r) = false →
    ∃ i r, last_of (RunState.slots (Emit.state e)) i r ∧ SlotRecord.slot r = slot ∧
      over (SlotRecord.state r) = true ∧ settled (SlotRecord.state r) = false ∧
      ∀ q m, q ∈ RunState.questions (Emit.state e) → Question.asked q = Asked.Escalation slot m →
        Question.answered q = true).
  { intros i r Hla Hsl Hov Hre. exists i, r. split_and!; try done.
    - by destruct (SlotRecord.state r).
    - subst slot. apply unasked; [destruct Hla; by eapply list_elem_of_lookup_2|done]. }
  intros [r cause Hj _|q message question disposition Hb Hbk Hfi [m Ha] _
    |named i r Hb Hf Hres Hi Hsl Hc Hw|timer fired_at armed Hb Hf Hti Hp Hts].
  - pose proof Hj as [key i r0 Hb Hf Hr0 Hs0 Hov Hfs Hr Hs1 He].
    pose proof (not_over_last _ _ _ (seats_order _ _ Hbefore) Hr0 Hov) as Hla0.
    destruct (folded_last i r0 Hf Hla0) as (r1 & Hla & Hrr).
    assert (r1 = r) as -> by (unfold slot_at in Hr; destruct Hla; congruence).
    by eapply (Hgen i r); [..|by destruct (SlotRecord.state r)|by destruct (SlotRecord.state r)].
  - destruct (answered_first _ _ _ _ Hb Hbk Hfi) as (Hin & Hopen & Hrest).
    destruct (seats_escalation _ _ Hbefore q slot m Hin Ha) as [Hid (i & r0 & _ & Hs0 & Hrep & Hop)].
    destruct (Hop Hopen) as [Hla0 Hun]. destruct (folded_last i r0 (proj1 Hbk) Hla0) as (r & Hla & Hrr).
    pose proof (replied_over _ Hrep) as Hov0. exists i, r. split_and!.
    + done.
    + by rewrite (moves_slot _ _ Hrr).
    + by apply (moves_over _ _ Hrr).
    + by rewrite (moves_settled _ _ Hrr Hov0).
    + intros q' m' Hq' Ha'. destruct (Question.answered q') eqn:E; [done|].
      destruct (Hrest q' Hq' E) as [Hinb Hne]. destruct Hne.
      destruct (seats_escalation _ _ Hbefore q' slot m' Hinb Ha') as [Hid' _].
      apply list_elem_of_lookup in Hin as [j Hj], Hinb as [k Hk].
      assert (j = k) as <-; [|congruence].
      eapply (NoDup_lookup _ j k (Question.id q) (seats_ids _ _ Hbefore));
        rewrite list_lookup_fmap, ?Hj, ?Hk; simpl; congruence.
  - destruct (resume_target_Some _ _ _ Hres) as (r1 & Hr1 & _ & Hsup).
    assert (r1 = r) as -> by congruence.
    destruct (seats_condition _ _ Hbefore r) as [Hov Hre]; [by eapply list_elem_of_lookup_2|done..|].
    apply superseded_last with (i := i) in Hsup; [|apply (seats_order _ _ Hbefore)|done].
    destruct (folded_last i r Hf Hsup) as (r' & Hla & Hrr). apply (Hgen i r' Hla).
    + by rewrite (moves_slot _ _ Hrr).
    + by apply (moves_over _ _ Hrr).
    + by rewrite (moves_replied _ _ Hrr Hov).
  - destruct (Harmed timer armed slot Hti Hts) as [_ Hret].
    destruct (Hret Hp) as (i & r & Hla & Hsl & He).
    destruct Hf as [Hf _]. rewrite (fired_slots _ _ _ _ _ Hb Hti) in Hf by auto.
    rewrite <-Hf in Hla. by apply (Hgen i r Hla); [|destruct (SlotRecord.state r)..].
Qed.
End reasons.

(** ** Questions *)
Definition question_prefix (q : Question) : string :=
  match Question.asked q with Asked.Escalation _ _ => "escalated/" | Asked.Ceiling _ _ _ => "ceiling/" end.

Section asks.
Context (n : N) (s s' : RunState) (question : Question).
Hypothesis Hs : seats n s.
Hypothesis Hs' : s' = s <| RunState.questions := RunState.questions s ++ [question] |>.
Hypothesis Hfresh : Question.id question ∉ (Question.id <$> RunState.questions s).
Hypothesis Hphase :
  match RunState.phase s with Phase.Created | Phase.Queued _ => False | _ => True end.
Hypothesis Hescalation : ∀ slot m, Question.asked question = Asked.Escalation slot m →
  Question.id question = "escalated/" +:+ session_key slot (RunState.run s) ∧
  ∃ i r, last_of (RunState.slots s) i r ∧ SlotRecord.slot r = slot ∧
    is_replied (SlotRecord.state r) = true ∧ settled (SlotRecord.state r) = false.
Hypothesis Hceiling : ∀ step pass m, Question.asked question = Asked.Ceiling step pass m →
  (∃ visit, Question.id question = ceiling_key (RunState.run s) step visit pass ∧
     RunState.visits s !! step = Some visit) ∧
  all_settled s ∧ ceilings_answered s.

Lemma seats_ask : seats n s'.
Proof using Type*.
  subst s'. split; cbn; try apply Hs.
  - by destruct (RunState.phase s).
  - rewrite fmap_app. apply NoDup_app. split_and!; [apply Hs| |apply NoDup_singleton].
    intros id Hid ->%list_elem_of_singleton. done.
  - intros q slot m [Hq| ->%list_elem_of_singleton]%elem_of_app Ha.
    + apply (seats_escalation _ _ Hs q slot m Hq Ha).
    + destruct (Hescalation slot m Ha) as [Hid (i & r & Hla & Hsl & Hre & Hun)]. split; [done|].
      exists i, r. pose proof Hla as [Hi _]. split_and!; done.
  - intros q step pass m [Hq| ->%list_elem_of_singleton]%elem_of_app Ha.
    + apply (seats_ceiling _ _ Hs q step pass m Hq Ha).
    + destruct (Hceiling step pass m Ha) as [(visit & Hid & Hv) [Hset _]].
      exists visit, visit. split_and!; try done. intros i r Hla _ _. by eapply Hset.
  - intros q q' step pass m step' pass' m' [Hq| ->%list_elem_of_singleton]%elem_of_app
      [Hq'| ->%list_elem_of_singleton]%elem_of_app Ha Ha' Hn Hn'; [|..|done].
    + eapply (seats_one_ceiling _ _ Hs); eauto.
    + destruct (Hceiling _ _ _ Ha') as (_ & _ & Hans). by rewrite (Hans q step pass m) in Hn.
    + destruct (Hceiling _ _ _ Ha) as (_ & _ & Hans). by rewrite (Hans q' step' pass' m') in Hn'.
Qed.
End asks.

(** The slots of a compiled flow can be told apart by their keys. *)
Lemma seats_slot_ok n s r :
  flow_ok (RunState.def s) → seats n s → n ≤ u32_max → r ∈ RunState.slots s →
  slot_ok (SlotRecord.slot r).
Proof.
  intros Hflow Hs Hn Hr. destruct (seats_members _ _ Hs r Hr) as (d & Hd & Hm).
  destruct (seats_bounds _ _ Hs r Hr) as [Ha (v & Hv & Hle)]. apply (seats_visits _ _ Hs) in Hv.
  unfold def_step, find_step in Hd. apply find_first_Some in Hd as [Hin Hid%bool_decide_eq_true].
  pose proof (flow_steps_ok _ Hflow) as Hall. rewrite Forall_forall in Hall.
  specialize (Hall d Hin). split; [| |lia|lia].
  - rewrite <-Hid. apply id_ok_no_slash, Hall.
  - destruct Hm as [Hm|[-> _]]; [|apply SYNTH_no_slash]. apply id_ok_no_slash.
    eapply Forall_forall; [apply (step_members_ok _ _ Hall)|done].
Qed.

Lemma seats_not_queued n s i r :
  seats n s → RunState.slots s !! i = Some r →
  match RunState.phase s with Phase.Created | Phase.Queued _ => False | _ => True end.
Proof.
  intros Hs Hi. pose proof (seats_queued _ _ Hs) as Hq.
  destruct (RunState.phase s); try done; destruct Hq as [Hq _]; by rewrite Hq in Hi.
Qed.

Lemma ceiling_key_inj run step step' visit visit' pass pass' :
  contains_char slash step = false → contains_char slash step' = false →
  ceiling_key run step visit pass = ceiling_key run step' visit' pass' → step = step' ∧ visit = visit'.
Proof.
  intros Hst Hst' H. unfold ceiling_key in H.
  apply (inj (String.app "ceiling/")), (inj (String.app run)), (inj (String.app "/")) in H.
  pose proof (f_equal (before_first slash) H) as H1.
  change ("/v" +:+ ?x) with (String slash ("v" +:+ x)) in H1.
  rewrite !before_first_app in H1 by done. subst step'. split; [done|].
  apply (inj (String.app step)), (inj (String.app "/v")) in H.
  pose proof (f_equal (before_first slash) H) as H2.
  change ("/p" +:+ ?x) with (String slash ("p" +:+ x)) in H2.
  rewrite !before_first_app in H2 by apply pretty_no_slash. by apply (inj pretty).
Qed.

Section decides.
Context (n : N) (input : Event) (e : Emit).
Hypothesis Hflow : flow_ok (RunState.def (Emit.before e)).
Hypothesis Hn : n < u32_max.
Hypothesis Hdeciding : deciding input e.
Hypothesis Hbefore : seats n (Emit.before e).
Hypothesis Harmed : armed_right (Emit.before e).
Hypothesis Hseats : seats n (Emit.state e).

Lemma flow_state : flow_ok (RunState.def (Emit.state e)).
Proof using Hflow Hdeciding.
  destruct (deciding_fixed _ _ Hdeciding) as (_ & Hd & _). by rewrite Hd.
Qed.

Lemma synthesis_seats step visit d bits :
  step_complete input e step visit d bits → has_synthesis d = true →
  latest (Emit.state e) step visit SYNTH = None →
  seats (n + 1) (apply_decision (Emit.at_ e) (Emit.state e)
    (Decision.StepStarted step visit 1 [SYNTH])).
Proof using Hn Hdeciding Hbefore Hseats.
  intros Hc Hhas Hlat. pose proof Hc as [_ _ _ Hcur Hvis Hdef _].
  destruct (deciding_fixed _ _ Hdeciding) as (Hde & Hds & _). rewrite Hde, <-Hds in Hdef.
  pose proof (seats_visits _ _ Hseats _ _ Hvis) as Hvn.
  assert (Hnone : ∀ i r, RunState.slots (Emit.state e) !! i = Some r →
    seat r ≠ (step, visit, SYNTH)).
  { intros i r Hi Hseat. destruct (last_of_exists _ _ _ Hi) as (j & r' & _ & Hla & Hs').
    assert (latest (Emit.state e) step visit SYNTH = Some r'); [|congruence].
    apply latest_Some. exists j. split; [done|congruence]. }
  apply (step_started_seats n) with d; try done; try lia.
  - apply NoDup_singleton.
  - intros m ->%list_elem_of_singleton. auto.
  - intros v Hv. by simplify_eq.
  - intros i r m [Hi _] ->%list_elem_of_singleton Hseat. by destruct (Hnone i r Hi).
  - intros i r Hla Hun. destruct (seats_open _ _ Hseats i r Hla Hun) as [Hc' Hv'].
    rewrite Hcur in Hc'. by simplify_eq.
  - intros q step' pass m Hq Ha.
    destruct (complete_ceilings n input e Hdeciding Hbefore _ _ _ _ _ _ _ _ Hc Hq Ha). eauto.
  - intros q slot m Hq Ha _ Hst Hvi Hm%list_elem_of_singleton.
    destruct (seats_escalation _ _ Hseats q slot m Hq Ha) as [_ (i & r & Hi & Hsl & _)].
    apply (Hnone i r Hi). unfold seat. rewrite Hsl. congruence.
Qed.

Lemma escalated_seats key slot message :
  may input e (Decision.Escalated key slot message) →
  seats n (apply_decision (Emit.at_ e) (Emit.state e) (Decision.Escalated key slot message)).
Proof using Hflow Hn Hdeciding Hbefore Hseats.
  intros Hm. inversion Hm as [| | | | | | | | |k i r0 r msg bit pr ov la Hb Hf Hq Hr0 Hs0 Hri Hfi Hr Hst| | | | | | | | | | | |]; subst.
  unfold slot_at in Hr. destruct (find_Some _ _ _ Hfi) as (r' & Hr' & Hk).
  assert (r' = r) as -> by congruence. subst k.
  destruct (reply_open n e Hbefore i r0 Hr0 Hri) as [Hla0 Hov0].
  destruct (folded_last input e Hdeciding i r0 Hf Hla0) as (r1 & Hla & Hrr).
  assert (r1 = r) as -> by (destruct Hla; congruence).
  eapply (seats_ask n (Emit.state e)); [done|reflexivity|..]; cbn.
  - intros (q & Hid & Hin)%list_elem_of_fmap. rewrite Hq in Hin.
    destruct (Question.asked q) as [slot m|step pass m] eqn:Ea.
    + destruct (seats_escalation _ _ Hbefore q slot m Hin Ea) as [Hid' (j & r2 & Hj & Hsl & Hrep & _)].
      rewrite Hid' in Hid. apply (inj (String.app "escalated/")) in Hid.
      unfold state_session_key in Hid. destruct (deciding_fixed _ _ Hdeciding) as (_ & _ & Hru).
      rewrite Hru in Hid. apply session_key_inj in Hid.
      * rewrite <-Hs0 in Hid. subst slot.
        destruct (in_order_slot_inj _ (seats_order _ _ Hbefore) j i r2 r0 Hj Hr0) as [_ ->];
          [congruence|]. by rewrite (replied_over _ Hrep) in Hov0.
      * rewrite <-Hs0. eapply (seats_slot_ok n (Emit.before e)); eauto using list_elem_of_lookup_2. lia.
      * rewrite <-Hsl. eapply (seats_slot_ok n (Emit.before e)); eauto using list_elem_of_lookup_2. lia.
    + destruct (seats_ceiling _ _ Hbefore q step pass m Hin Ea) as (w & v & Hid' & _).
      by rewrite Hid' in Hid.
  - by eapply seats_not_queued.
  - intros slot m [= <- <-]. split; [done|]. exists i, r. rewrite Hst. done.
  - done.
Qed.

Lemma ceiling_seats key step pass message :
  may input e (Decision.Ceiling key step pass message) →
  seats n (apply_decision (Emit.at_ e) (Emit.state e) (Decision.Ceiling key step pass message)).
Proof using Hflow Hn Hdeciding Hbefore Hseats.
  intros Hm. inversion Hm as [| | | | | | | | | |st visit d bits ve Hd _ _ _ _| | | | | | | | | | |]; subst.
  pose proof Hd as [Hc _]. pose proof Hc as [_ Hasked Hrep Hcur Hvis Hdef _].
  destruct Hrep as (k & msg & esc & nr & i & r0 & Hb & Hr0 & Hri & Hst & Hvi).
  destruct (deciding_fixed _ _ Hdeciding) as (Hde & Hds & Hru).
  assert (Hslash : ∀ st d', def_step (RunState.def (Emit.before e)) st = Some d' →
    contains_char slash st = false).
  { intros st d' H. unfold def_step, find_step in H.
    apply find_first_Some in H as [Hin <-%bool_decide_eq_true].
    pose proof (flow_steps_ok _ Hflow) as Hall. rewrite Forall_forall in Hall.
    apply id_ok_no_slash, (Hall d' Hin). }
  eapply (seats_ask n (Emit.state e)); [done|reflexivity|..]; cbn.
  - intros (q & Hid & Hin)%list_elem_of_fmap.
    destruct (Question.asked q) as [slot m|step' pass' m] eqn:Ea.
    + destruct (seats_escalation _ _ Hseats q slot m Hin Ea) as [Hid' _]. by rewrite Hid' in Hid.
    + destruct (seats_ceiling _ _ Hseats q step' pass' m Hin Ea) as (w & v & Hid' & Hv & Hle & Hcl & _).
      destruct (complete_ceilings n input e Hdeciding Hbefore _ _ _ _ _ _ _ _ Hc Hin Ea) as [_ Hne].
      pose proof Hid' as Hid2. rewrite <-Hid in Hid2. apply ceiling_key_inj in Hid2 as [<- <-].
      * by apply (Hne visit Hid').
      * rewrite Hde in Hdef. eauto.
      * destruct (seats_visited _ _ Hseats step' v Hv) as [d' Hd']. rewrite Hds in Hd'. eauto.
  - destruct (reply_open n e Hbefore i r0 Hr0 Hri) as [Hla0 _].
    destruct (folded_last input e Hdeciding i r0 (complete_folded _ _ _ _ _ _ Hc) Hla0)
      as (r1 & [Hi _] & _). by eapply seats_not_queued.
  - done.
  - intros st pa m [= <- <- <-]. split; [eauto|]. split; [by eapply done_all_settled|].
    intros q st pa m Hq Ha. eapply complete_ceilings; eauto.
Qed.
(** A decision that starts nothing and asks nothing only moves slots. *)
Lemma other_seats d :
  match d with
  | Decision.StepStarted _ _ _ _ | Decision.Escalated _ _ _ | Decision.Ceiling _ _ _ _ => False
  | _ => True
  end →
  may input e d → seats n (apply_decision (Emit.at_ e) (Emit.state e) d).
Proof using Hdeciding Hbefore Harmed Hseats.
  intros Hd Hmay. destruct (apply_decision_slots (Emit.at_ e) (Emit.state e) d)
    as (kept & new & Heq & Hk & Hnew).
  assert (new = []) as -> by (by destruct d). rewrite app_nil_r in Heq. subst kept.
  destruct (apply_decision_fixed (Emit.at_ e) (Emit.state e) d) as (Hde & Hru & _).
  apply (seats_moves n (Emit.state e)); try done.
  - apply Forall2_same_length_lookup_2; [by eapply Forall2_length|].
    intros i r r' Hr Hr'. eapply (decision_moves n input e); eauto using list_elem_of_lookup_2.
    by eapply Forall2_lookup_lr.
  - rewrite apply_decision_questions. destruct d; try done; apply Forall2_refl_move, asks_refl.
  - rewrite apply_decision_visits. by destruct d.
  - rewrite apply_decision_current. by destruct d.
  - rewrite apply_decision_phase. inversion Hmay; subst; try done;
      try (by destruct (RunState.phase (Emit.state e))).
    by match goal with H : ∃ _, RunState.phase _ = _ |- _ => destruct H as [? ->] end.
Qed.

Lemma seats_decision d :
  may input e d → seats (n + 1) (apply_decision (Emit.at_ e) (Emit.state e) d).
Proof using Type*.
  intros Hmay. destruct d as [| | |step visit attempt members| | |key slot message
    |key step pass message| | | | | | | | |];
    try (eapply (seats_mono n); [lia|]; by apply other_seats).
  - destruct (deciding_fixed _ _ Hdeciding) as (Hde & Hds & _). pose proof flow_state as Hfl.
    inversion Hmay as [| | |st d Hv Hd|slot Ha|st vi d bits Hc Hh Hl| | | | | | | | | | | | | | | |];
      subst.
    + rewrite Hde, <-Hds in Hd.
      destruct (visit_settled n input e Hdeciding Hbefore Hseats _ Hv). by apply new_visit_seats.
    + destruct (attempt_open n input e Hdeciding Hbefore Harmed Hseats _ Ha)
        as (i & r & Hla & <- & Hov & Hun & Hes). by eapply new_attempt_seats.
    + by eapply synthesis_seats.
  - eapply (seats_mono n); [lia|]. by apply escalated_seats.
  - eapply (seats_mono n); [lia|]. by apply ceiling_seats.
Qed.
End decides.

(** On its way through a list the state stays in order. *)
Lemma seats_emitted n s input pre post :
  flow_ok (RunState.def s) → seats n s → armed_right s →
  is_decision (Event.body input) = false → ignored_reason s input = None →
  decide s input (RunState.def s) = pre ++ post →
  n + N.of_nat (length pre) < u32_max →
  seats (n + N.of_nat (length pre)) (Emit.state (emit_after s input (RunState.def s) pre)).
Proof.
  intros Hflow Hs Ha Hd Hi. revert post. induction pre as [|d pre IH] using rev_ind; intros post Heq Hn.
  - rewrite N.add_0_r. cbn. unfold apply_input. rewrite Hi. by apply seats_input.
  - rewrite <-app_assoc in Heq. rewrite length_app in *. cbn [length app] in *.
    destruct (decide_emitted s input (RunState.def s) Hi) as [_ Hmay].
    specialize (Hmay _ _ _ Heq). unfold emit_after. rewrite <-emitted_push.
    replace (n + N.of_nat (length pre + 1)) with (n + N.of_nat (length pre) + 1) by lia.
    apply (seats_decision _ input (emit_after s input (RunState.def s) pre)); try done; try lia.
    + repeat split; try done. by exists pre.
    + eapply seats_mono; [|exact Hs]. lia.
    + eapply IH; [exact Heq|lia].
Qed.

Lemma seats_decided n s input :
  flow_ok (RunState.def s) → seats n s → armed_right s →
  is_decision (Event.body input) = false →
  n + N.of_nat (length (reduce_events s input)) < u32_max →
  seats (n + N.of_nat (length (reduce_events s input))) (decided s (logged_input s input)).
Proof.
  intros Hflow Hs Ha Hd. unfold reduce_events. cbn [length]. rewrite length_imap. intros Hn.
  unfold decided. destruct (ignored_reason s (logged_input s input)) eqn:Hi.
  - unfold decide, apply_input in *. rewrite Hi in *. cbn in *. eapply seats_mono; [|exact Hs]. lia.
  - eapply seats_mono; [|eapply (seats_emitted n s (logged_input s input) _ []); eauto].
    + lia.
    + by rewrite app_nil_r.
    + lia.
Qed.
