(* ===== verification/Timers.v ===== *)
(** * Timers and the slots they watch

    Between two inputs every armed timer names an attempt that is in the state the timer watches: a start
    deadline an attempt that is starting, a quiet timer one that is running with no call open, and so on.
    So a timer that fires finds its attempt as it was when it was armed, and what it concludes is about
    that attempt. *)

From S2P Require Import Prelude Text Ids Codes Events Flow State Effects Guard Input Evolve Decide Host Examples FlowFacts Keys Spec Replay Slots Seats.
From stdpp Require Import options.

(** The purposes of a slot's own timers, which are named after them. *)
Definition slot_purpose (p : TimerPurpose) : bool :=
  match p with
  | TimerPurpose.RootDeadline | TimerPurpose.TreeWindow | TimerPurpose.StopGrace
  | TimerPurpose.Unknown _ => false
  | _ => true
  end.

(** The id of a timer of this slot with this purpose. *)
Definition named (t : string) (p : TimerPurpose) (slot : Slot) : Prop :=
  (slot_purpose p = true ∧ t = slot_timer p slot) ∨
  (p = TimerPurpose.StopGrace ∧ ∃ k, (k = 1 ∨ k = 2) ∧ t = grace_timer k slot).

(** The state of an attempt a timer of this purpose watches. *)
Definition watches (p : TimerPurpose) (r : SlotRecord) : bool :=
  match p, SlotRecord.state r with
  | TimerPurpose.StartDeadline, SlotState.Starting _ => true
  | TimerPurpose.Quiet, SlotState.Running _ None => true
  | (TimerPurpose.SubprocessIdle | TimerPurpose.CallBound), SlotState.Running _ (Some _) => true
  | TimerPurpose.Confirm, (SlotState.Quiet _ _ | SlotState.Nudged _ _) => true
  | TimerPurpose.StopGrace, (SlotState.Stopping _ _ | SlotState.Replied _ _ _ _ _ (Some _)) => true
  | TimerPurpose.WindDown, SlotState.Replied _ _ _ Live _ _ => true
  | TimerPurpose.HoldRetry, SlotState.Ended _ =>
      match SlotRecord.condition r with Some (SlotCondition.Held _ _ _) => true | _ => false end
  | _, _ => false
  end.

(** The retry of a hold belongs to a seat's latest attempt. *)
Definition fits (p : TimerPurpose) (l : list SlotRecord) (i : nat) (r : SlotRecord) : Prop :=
  watches p r = true ∧ (p = TimerPurpose.HoldRetry → last_of l i r).

(** The two timers of the run itself. *)
Definition run_timer (t : string) (p : TimerPurpose) : Prop :=
  (p = TimerPurpose.RootDeadline ∧ t = ROOT_DEADLINE_TIMER) ∨
  (p = TimerPurpose.TreeWindow ∧ t = TREE_WINDOW_TIMER).

Definition timers_ok (s : RunState) : Prop :=
  ∀ t a, RunState.timers s !! t = Some a →
    run_timer t (purpose a) ∨
    ∃ i r, RunState.slots s !! i = Some r ∧ named t (purpose a) (SlotRecord.slot r) ∧
      fits (purpose a) (RunState.slots s) i r.

(** The same, with the timers of one slot in flux: those that may be armed are the allowed ones. *)
Definition timers_but (slot : Slot) (A : TimerPurpose → Prop) (s : RunState) : Prop :=
  ∀ t a, RunState.timers s !! t = Some a →
    run_timer t (purpose a) ∨
    ∃ i r, RunState.slots s !! i = Some r ∧ named t (purpose a) (SlotRecord.slot r) ∧
      (SlotRecord.slot r = slot → A (purpose a)) ∧
      (SlotRecord.slot r ≠ slot → fits (purpose a) (RunState.slots s) i r).

Lemma named_ends t p slot : named t p slot → ends_with ("/" +:+ slot_suffix slot) t = true.
Proof.
  intros [[_ ->]|[_ (k & _ & ->)]]; [apply ends_with_slot_timer|apply ends_with_grace_timer].
Qed.

Lemma named_slot t p slot : slot_ok slot → named t p slot → timer_slot t = Some slot.
Proof.
  intros Hok [[_ ->]|[_ (k & _ & ->)]]; [by apply timer_slot_slot_timer|by apply timer_slot_grace_timer].
Qed.

(** ** From all timers to all but one slot's, and back *)
Lemma timers_ok_but slot A s :
  timers_ok s →
  (∀ i r p, RunState.slots s !! i = Some r → SlotRecord.slot r = slot →
     fits p (RunState.slots s) i r → A p) →
  timers_but slot A s.
Proof.
  intros Hs HA t a Ha. destruct (Hs t a Ha) as [|(i & r & Hi & Hn & Hf)]; [by left|right].
  exists i, r. split_and!; try done. intros. by eapply HA.
Qed.

Lemma timers_but_ok slot A s :
  timers_but slot A s →
  (∀ i r p, RunState.slots s !! i = Some r → SlotRecord.slot r = slot → A p →
     fits p (RunState.slots s) i r) →
  timers_ok s.
Proof.
  intros Hs HA t a Ha. destruct (Hs t a Ha) as [|(i & r & Hi & Hn & H1 & H2)]; [by left|right].
  exists i, r. split_and!; try done.
  destruct (base.decide (SlotRecord.slot r = slot)); [eapply HA|]; eauto.
Qed.

Lemma timers_but_weaken slot (A B : TimerPurpose → Prop) s :
  timers_but slot A s → (∀ p, A p → B p) → timers_but slot B s.
Proof.
  intros Hs HAB t a Ha. destruct (Hs t a Ha) as [|(i & r & Hi & Hn & H1 & H2)]; [by left|right].
  exists i, r. split_and!; auto.
Qed.

(** Fewer timers. *)
Lemma timers_ok_sub s s' :
  RunState.slots s' = RunState.slots s → RunState.timers s' ⊆ RunState.timers s →
  timers_ok s → timers_ok s'.
Proof. intros Hs Ht Hok t a Ha. rewrite Hs. eapply Hok, lookup_weaken; eauto. Qed.

Lemma timers_but_sub slot A s s' :
  RunState.slots s' = RunState.slots s → RunState.timers s' ⊆ RunState.timers s →
  timers_but slot A s → timers_but slot A s'.
Proof. intros Hs Ht Hok t a Ha. rewrite Hs. eapply Hok, lookup_weaken; eauto. Qed.

(** ** Operations on timers *)
Section ops.
Implicit Types (e : Emit).

Lemma clear_timer_ok t e : timers_ok (Emit.state e) → timers_ok (Emit.state (clear_timer t e)).
Proof. rewrite clear_timer_state. apply timers_ok_sub; [done|]. apply delete_subseteq. Qed.

Lemma clear_timer_but slot A t e :
  timers_but slot A (Emit.state e) → timers_but slot A (Emit.state (clear_timer t e)).
Proof. rewrite clear_timer_state. apply timers_but_sub; [done|]. apply delete_subseteq. Qed.

Lemma clear_slot_timer_but slot A p e :
  slot_purpose p = true → timers_but slot A (Emit.state e) →
  timers_but slot (λ q, A q ∧ q ≠ p) (Emit.state (clear_slot_timer slot p e)).
Proof.
  intros Hp Hs t a. unfold clear_slot_timer. rewrite clear_timer_state. cbn.
  rewrite lookup_delete_Some. intros [Hne Ha].
  destruct (Hs t a Ha) as [|(i & r & Hi & Hn & H1 & H2)]; [by left|right].
  exists i, r. split_and!; try done. intros Hsl. split; [auto|]. intros <-.
  destruct Hn as [[_ ->]|[Hg _]]; [by rewrite Hsl in Hne|]. by rewrite Hg in Hp.
Qed.

Lemma clear_slot_timers_but slot A e :
  timers_but slot A (Emit.state e) →
  timers_but slot (λ _, False) (Emit.state (clear_slot_timers slot e)).
Proof.
  intros Hs t a. rewrite clear_slot_timers_slots. unfold clear_slot_timers.
  rewrite clear_timers_state. cbn. rewrite foldl_delete_lookup.
  case_bool_decide as Hin; [done|]. intros Ha.
  destruct (Hs t a Ha) as [|(i & r & Hi & Hn & H1 & H2)]; [by left|right].
  exists i, r. split_and!; try done. intros Hsl. destruct Hin.
  apply list_elem_of_filter. split; [rewrite <-Hsl; by eapply named_ends|].
  apply elem_of_sorted_keys. eauto.
Qed.

(** Arming anything but a start deadline only adds the timer. *)
Lemma set_timer_at_but slot A t at_ p i r e :
  p ≠ TimerPurpose.StartDeadline → RunState.slots (Emit.state e) !! i = Some r →
  SlotRecord.slot r = slot → named t p slot →
  timers_but slot A (Emit.state e) →
  timers_but slot (λ q, A q ∨ q = p) (Emit.state (set_timer_at t at_ p e)).
Proof.
  intros Hp Hi Hsl Hn Hs t' a. rewrite set_timer_at_state by done. cbn.
  rewrite lookup_insert_Some. intros [[<- <-]|[Hne Ha]]; cbn.
  - right. exists i, r. rewrite Hsl. split_and!; try done. auto.
  - destruct (Hs t' a Ha) as [|(j & r' & Hj & Hn' & H1 & H2)]; [by left|right].
    exists j, r'. split_and!; auto.
Qed.

Lemma set_run_timer_ok t at_ p e :
  run_timer t p → timers_ok (Emit.state e) → timers_ok (Emit.state (set_timer_at t at_ p e)).
Proof.
  intros Hr Hs t' a. rewrite set_timer_at_state by (by destruct Hr as [[-> _]|[-> _]]). cbn.
  rewrite lookup_insert_Some. intros [[<- <-]|[Hne Ha]]; [by left|by apply Hs].
Qed.
End ops.

(** ** Moves of slots *)
Lemma same_slots_last (l l' : list SlotRecord) i r r' :
  Forall2 (λ r r', SlotRecord.slot r' = SlotRecord.slot r) l l' →
  last_of l i r → l' !! i = Some r' → last_of l' i r'.
Proof.
  intros Hm [Hi Hl] Hi'. split; [done|]. intros j x' Hj Hx'.
  destruct (Forall2_lookup_r _ _ _ _ _ Hm Hx') as (x & Hx & Hxx).
  destruct (Forall2_lookup_r _ _ _ _ _ Hm Hi') as (y & Hy & Hyy). simplify_eq.
  unfold seat. rewrite Hxx, Hyy. exact (Hl j x Hj Hx).
Qed.

(** A record keeps its slot, and what watches it still does, but for one slot. *)
Definition keeps (slot : option Slot) (r r' : SlotRecord) : Prop :=
  SlotRecord.slot r' = SlotRecord.slot r ∧
  (slot ≠ Some (SlotRecord.slot r) → ∀ p, watches p r = true → watches p r' = true).

Lemma keeps_refl slot r : keeps slot r r.
Proof. by split. Qed.

Lemma keeps_fits slot l l' i r p :
  Forall2 (keeps slot) l l' → l !! i = Some r → slot ≠ Some (SlotRecord.slot r) → fits p l i r →
  ∃ r', l' !! i = Some r' ∧ SlotRecord.slot r' = SlotRecord.slot r ∧ fits p l' i r'.
Proof.
  intros Hk Hi Hne [Hw Hh]. destruct (Forall2_lookup_l _ _ _ _ _ Hk Hi) as (r' & Hi' & Hs & Hk').
  exists r'. split_and!; try done. split; [by apply Hk'|]. intros Hp.
  eapply same_slots_last; [|by apply Hh|done]. eapply Forall2_impl; [exact Hk|]. by intros ? ? [].
Qed.

Lemma timers_ok_keeps s s' :
  Forall2 (keeps None) (RunState.slots s) (RunState.slots s') →
  RunState.timers s' ⊆ RunState.timers s → timers_ok s → timers_ok s'.
Proof.
  intros Hk Ht Hs t a Ha. destruct (Hs t a) as [|(i & r & Hi & Hn & Hf)]; [by eapply lookup_weaken|
    by left|right].
  destruct (keeps_fits _ _ _ _ _ _ Hk Hi ltac:(done) Hf) as (r' & Hi' & Hsl & Hf').
  exists i, r'. by rewrite Hsl.
Qed.

Lemma timers_but_keeps slot A s s' :
  Forall2 (keeps (Some slot)) (RunState.slots s) (RunState.slots s') →
  RunState.timers s' ⊆ RunState.timers s → timers_but slot A s → timers_but slot A s'.
Proof.
  intros Hk Ht Hs t a Ha.
  destruct (Hs t a) as [|(i & r & Hi & Hn & H1 & H2)]; [by eapply lookup_weaken|by left|right].
  destruct (Forall2_lookup_l _ _ _ _ _ Hk Hi) as (r' & Hi' & Hsl & _). exists i, r'.
  rewrite Hsl. split_and!; try done. intros Hne.
  destruct (keeps_fits _ _ _ _ _ (purpose a) Hk Hi) as (r1 & Hr1 & _ & Hf); [congruence|auto|].
  by simplify_eq.
Qed.

(** New attempts, none of them of a seat a hold waits on. *)
Lemma timers_ok_new s s' new :
  RunState.slots s' = RunState.slots s ++ new → RunState.timers s' = RunState.timers s →
  (∀ t a i r x, RunState.timers s !! t = Some a → purpose a = TimerPurpose.HoldRetry →
     RunState.slots s !! i = Some r → named t (purpose a) (SlotRecord.slot r) → x ∈ new →
     seat x ≠ seat r) →
  timers_ok s → timers_ok s'.
Proof.
  intros Hsl Ht Hnew Hs t a. rewrite Ht. intros Ha.
  destruct (Hs t a Ha) as [|(i & r & Hi & Hn & Hw & Hh)]; [by left|right]. exists i, r.
  rewrite Hsl. split_and!; [by apply lookup_app_l_Some|done|]. split; [done|]. intros Hp.
  apply last_of_app_l; [auto|]. intros x Hx. by eapply Hnew.
Qed.

(** The slots of a run can be told apart. *)
Definition ordered (s : RunState) : Prop :=
  in_order (RunState.slots s) ∧ ∀ r, r ∈ RunState.slots s → slot_ok (SlotRecord.slot r).

Lemma find_slot_ordered s i r :
  ordered s → RunState.slots s !! i = Some r → find_slot s (SlotRecord.slot r) = Some i.
Proof.
  intros [Ho _] Hi. eapply position_unique; [done|by apply bool_decide_eq_true|].
  intros j r' Hj Heq%bool_decide_eq_true. by eapply (in_order_slot_inj _ Ho) in Heq as [-> _].
Qed.

Lemma ordered_same s s' :
  Forall2 moves (RunState.slots s) (RunState.slots s') → ordered s → ordered s'.
Proof.
  intros Hm [Ho Hk]. split; [by eapply moves_in_order|].
  intros r' [i Hi]%list_elem_of_lookup. destruct (moves_lookup _ _ Hm _ _ Hi) as (r & Hr & Hrr).
  rewrite (moves_slot _ _ Hrr). eapply Hk, list_elem_of_lookup_2, Hr.
Qed.

(** ** Starting what waits *)
Lemma arm_start_state e i r fire_at :
  ordered (Emit.state e) → RunState.slots (Emit.state e) !! i = Some r →
  let s' := Emit.state (set_timer_at (slot_timer TimerPurpose.StartDeadline (SlotRecord.slot r)) fire_at
              TimerPurpose.StartDeadline e) in
  RunState.slots s' = alter (alter_state (start_state fire_at)) i (RunState.slots (Emit.state e)) ∧
  RunState.timers s' =
    <[slot_timer TimerPurpose.StartDeadline (SlotRecord.slot r) :=
        MkArmedTimer fire_at TimerPurpose.StartDeadline]> (RunState.timers (Emit.state e)).
Proof.
  intros Ho Hi. cbn zeta. split; [|exact (apply_decision_timers _ _ (Decision.TimerSet _ _ _))].
  cbn. rewrite bool_decide_eq_true_2 by done. unfold arm_start. rewrite timer_slot_slot_timer.
  - cbv iota beta. rewrite alter_record_slots. cbn.
    pose proof (find_slot_ordered _ _ _ Ho Hi) as Hf. unfold find_slot in *. cbn. by rewrite Hf.
  - apply Ho. by eapply list_elem_of_lookup_2.
Qed.

(** An attempt that waits, or whose start deadline is being moved. *)
Definition startable (s : RunState) (slot : Slot) : Prop :=
  ∃ i r, RunState.slots s !! i = Some r ∧ SlotRecord.slot r = slot ∧
    (is_pending (SlotRecord.state r) = true ∨ is_starting (SlotRecord.state r) = true).

Lemma set_start_deadline_ok e slot fire_at :
  ordered (Emit.state e) → startable (Emit.state e) slot → timers_ok (Emit.state e) →
  let e' := set_timer_at (slot_timer TimerPurpose.StartDeadline slot) fire_at
              TimerPurpose.StartDeadline e in
  timers_ok (Emit.state e') ∧ ordered (Emit.state e') ∧
  ∀ slot', startable (Emit.state e) slot' → startable (Emit.state e') slot'.
Proof.
  intros Ho (i & r & Hi & <- & Hst) Hs. cbn zeta.
  destruct (arm_start_state e i r fire_at Ho Hi) as [Hsl Ht].
  assert (Hk : Forall2 (keeps None) (RunState.slots (Emit.state e))
    (alter (alter_state (start_state fire_at)) i (RunState.slots (Emit.state e)))).
  { apply Forall2_alter_move; [apply keeps_refl|]. intros r' Hr'. simplify_eq. split; [done|].
    intros _ p. unfold watches. cbn.
    destruct (SlotRecord.state r); destruct Hst as [?|?]; try done; by destruct p. }
  split_and!.
  - intros t a. rewrite Ht, lookup_insert_Some. intros [[<- <-]|[_ Ha]].
    + right. exists i, (alter_state (start_state fire_at) r). rewrite Hsl, list_lookup_alter_eq, Hi.
      cbn. split_and!; [done|by left|]. split; [|done]. unfold watches. cbn.
      destruct (SlotRecord.state r); destruct Hst; done.
    + destruct (Hs t a Ha) as [|(j & r' & Hj & Hn & Hf)]; [by left|right].
      destruct (keeps_fits _ _ _ _ _ _ Hk Hj ltac:(done) Hf) as (r1 & Hr1 & Hsl1 & Hf1).
      exists j, r1. by rewrite Hsl, Hsl1.
  - eapply ordered_same; [|exact Ho]. rewrite Hsl.
    apply Forall2_alter_move; [apply moves_refl|]. intros r' _.
    by apply moves_state; destruct (SlotRecord.state r').
  - intros slot' (j & r' & Hj & Hsl' & Hst'). unfold startable. rewrite Hsl. exists j.
    destruct (base.decide (j = i)) as [->|]; [|exists r'; by rewrite list_lookup_alter_ne].
    simplify_eq. eexists. rewrite list_lookup_alter_eq, Hi. split_and!; [done..|].
    cbn. destruct (SlotRecord.state r); destruct Hst; try done; by right.
Qed.

Lemma arm_ready_ok e :
  ordered (Emit.state e) → timers_ok (Emit.state e) → timers_ok (Emit.state (arm_ready e)).
Proof.
  intros Ho Hs. unfold arm_ready. case_match; [|done].
  set (span := start_deadline _). set (waiting := SlotRecord.slot <$> _).
  assert (Hw : ∀ slot, slot ∈ waiting → startable (Emit.state e) slot).
  { intros slot (r & -> & [Hp [i Hi]%list_elem_of_lookup]%list_elem_of_filter)%list_elem_of_fmap.
    exists i, r. auto. }
  clearbody span waiting. clear H. revert e Ho Hs Hw.
  induction waiting as [|slot waiting IH]; intros e Ho Hs Hw; simpl; [done|].
  unfold arm_if_free at 2. case_match; [apply IH; set_solver|].
  destruct (set_start_deadline_ok e slot (plus (Emit.at_ e) span) Ho) as (H1 & H2 & H3);
    [set_solver|done|]. apply IH; [done..|]. set_solver.
Qed.

(** ** The way of a list

    [e'] is [e] with decisions appended, whatever justifies them. *)
Definition extends (e e' : Emit) : Prop := ∃ ds, e' = emitted e ds.

Create HintDb ext.

Section extends.
Implicit Types (e : Emit).

Lemma extends_refl e : extends e e.
Proof. exists []. destruct e. unfold emitted. cbn. by rewrite app_nil_r. Qed.
Lemma extends_push e e1 d : extends e e1 → extends e (push d e1).
Proof. intros [ds ->]. exists (ds ++ [d]). apply emitted_push. Qed.
Lemma extends_trans e1 e2 e3 : extends e1 e2 → extends e2 e3 → extends e1 e3.
Proof.
  intros [ds ->] [ds' ->]. exists (ds ++ ds'). unfold emitted. cbn. by rewrite foldl_app, app_assoc.
Qed.
Lemma extends_foldl {A} (f : Emit → A → Emit) l e e1 :
  (∀ e x, extends e (f e x)) → extends e e1 → extends e (foldl f e1 l).
Proof.
  intros Hf. revert e1; induction l as [|x l IH]; intros e1 He; simpl; [done|].
  apply IH. eapply extends_trans; [done|apply Hf].
Qed.
Hint Resolve extends_refl extends_push : ext.

Lemma extends_set_timer_at e e1 t at_ p : extends e e1 → extends e (set_timer_at t at_ p e1).
Proof. apply extends_push. Qed.
Lemma extends_set_timer e e1 t span p : extends e e1 → extends e (set_timer t span p e1).
Proof. apply extends_push. Qed.
Lemma extends_set_slot_timer e e1 slot span p :
  extends e e1 → extends e (set_slot_timer slot span p e1).
Proof. apply extends_push. Qed.
Lemma extends_clear_timer e e1 t : extends e e1 → extends e (clear_timer t e1).
Proof. unfold clear_timer. case_match; eauto with ext. Qed.
Lemma extends_clear_slot_timer e e1 slot p : extends e e1 → extends e (clear_slot_timer slot p e1).
Proof. apply extends_clear_timer. Qed.
Hint Resolve extends_clear_timer : ext.
Lemma extends_clear_timers e e1 l : extends e e1 → extends e (clear_timers l e1).
Proof. apply extends_foldl. eauto with ext. Qed.
Lemma extends_clear_slot_timers e e1 slot : extends e e1 → extends e (clear_slot_timers slot e1).
Proof. apply extends_clear_timers. Qed.
Lemma extends_tree_window e e1 : extends e e1 → extends e (set_tree_window e1).
Proof. apply extends_push. Qed.
Lemma extends_arm_ready e e1 : extends e e1 → extends e (arm_ready e1).
Proof.
  unfold arm_ready. case_match; [|done]. apply extends_foldl. intros. unfold arm_if_free.
  case_match; [|apply extends_set_slot_timer]; eauto with ext.
Qed.
Lemma extends_start_step e e1 step : extends e e1 → extends e (start_step step e1).
Proof. unfold start_step. case_match; [|done]. intros. by apply extends_arm_ready, extends_push. Qed.
End extends.

#[export] Hint Resolve extends_refl extends_push extends_set_timer_at extends_set_timer
  extends_set_slot_timer extends_clear_timer extends_clear_slot_timer extends_clear_timers
  extends_clear_slot_timers extends_tree_window extends_arm_ready extends_start_step : ext.

(** ** Starting a step, finishing a run *)
Lemma started_slots at_ s step visit attempt members :
  ∃ new, RunState.slots (apply_decision at_ s (Decision.StepStarted step visit attempt members)) =
           RunState.slots s ++ new ∧
    ∀ x, x ∈ new → ∃ m, m ∈ members ∧ seat x = (step, visit, m).
Proof.
  destruct (apply_decision_slots at_ s (Decision.StepStarted step visit attempt members))
    as (kept & new & Heq & Hk & Hnew).
  assert (kept = RunState.slots s) as ->.
  { symmetry. apply list_eq_Forall2. eapply Forall2_impl; [exact Hk|].
    intros r r' Hm. by destruct Hm. }
  exists new. split; [done|]. intros x [k Hx]%list_elem_of_lookup.
  destruct (Forall2_lookup_r _ _ _ _ _ Hnew Hx) as (m & Hm & Hsl & _). exists m.
  split; [by eapply list_elem_of_lookup_2|]. unfold seat. by rewrite Hsl.
Qed.

Lemma push_started_ok e step visit attempt members :
  (∀ t a i r m, RunState.timers (Emit.state e) !! t = Some a →
     purpose a = TimerPurpose.HoldRetry → last_of (RunState.slots (Emit.state e)) i r →
     named t (purpose a) (SlotRecord.slot r) → m ∈ members → seat r ≠ (step, visit, m)) →
  timers_ok (Emit.state e) →
  timers_ok (Emit.state (push (Decision.StepStarted step visit attempt members) e)).
Proof.
  intros Hno Hs. destruct (started_slots (Emit.at_ e) (Emit.state e) step visit attempt members)
    as (new & Hsl & Hnew).
  intros t a. cbn [push Emit.state]. rewrite apply_decision_timers, Hsl. intros Ha.
  destruct (Hs t a Ha) as [|(i & r & Hi & Hn & Hw & Hh)]; [by left|right]. exists i, r.
  split_and!; [by apply lookup_app_l_Some|done|]. split; [done|]. intros Hp.
  apply last_of_app_l; [auto|]. intros x (m & Hm & Hx)%Hnew. rewrite Hx. symmetry. eapply Hno; eauto.
Qed.

Lemma restart_ok e slot i r :
  last_of (RunState.slots (Emit.state e)) i r → SlotRecord.slot r = slot →
  ordered (Emit.state e) → timers_ok (Emit.state e) →
  timers_but slot (λ p, p ≠ TimerPurpose.HoldRetry) (Emit.state e) →
  (∀ e', restart slot e = arm_ready e' → extends e e' → ordered (Emit.state e')) →
  timers_ok (Emit.state (restart slot e)).
Proof.
  intros Hla <- [Ho Hok] Hs Hbut Hnext. apply arm_ready_ok; [apply Hnext; eauto with ext|].
  apply push_started_ok; [|done]. intros t a j r' m Ha Hp Hla' Hn ->%list_elem_of_singleton Hseat.
  destruct (last_of_unique _ _ _ _ _ Hla' Hla Hseat) as [-> ->].
  destruct (Hbut t a Ha) as [[[? _]|[? _]]|(k & x & Hk & Hn' & H1 & _)]; [congruence..|].
  apply H1; [|done]. assert (Hx : timer_slot t = Some (SlotRecord.slot x))
    by (eapply named_slot; [|done]; eauto using list_elem_of_lookup_2).
  assert (Hy : timer_slot t = Some (SlotRecord.slot r)); [|congruence].
  destruct Hla as [Hi _]. eapply named_slot; [|done]. eauto using list_elem_of_lookup_2.
Qed.

Lemma start_step_ok e step m :
  m < u32_max → seats m (Emit.state e) → timers_ok (Emit.state e) →
  (∀ e', start_step step e = arm_ready e' → extends e e' → ordered (Emit.state e')) →
  timers_ok (Emit.state (start_step step e)).
Proof.
  intros Hm Hse Hs Hnext. unfold start_step in *. case_match; [|done].
  apply arm_ready_ok; [apply Hnext; eauto with ext|]. apply push_started_ok; [|done].
  intros t a i r mem _ _ [Hi _] _ _ Hseat. unfold seat in Hseat. simplify_eq.
  destruct (seats_bounds _ _ Hse r) as [_ (v & Hv & Hle)]; [by eapply list_elem_of_lookup_2|].
  pose proof (seats_visits _ _ Hse _ _ Hv). rewrite Hv in *. cbn in *.
  rewrite u32_succ_small in * by lia. lia.
Qed.

(** What stops a session keeps watching it. *)
Lemma finishing_watches p at_ forced r :
  survives_finish p = true → watches p r = true →
  watches p (alter_state (finishing_state at_ forced) (r <| SlotRecord.condition := None |>)) = true.
Proof.
  intros Hp. unfold watches. cbn. destruct p; try done; by destruct (SlotRecord.state r).
Qed.

Lemma finish_run_ok e o reason :
  timers_ok (Emit.state e) → timers_ok (Emit.state (finish_run o reason e)).
Proof.
  intros Hs t a. unfold finish_run. rewrite clear_timers_state. cbn. rewrite foldl_delete_lookup.
  case_bool_decide as Hin; [done|]. intros Ha.
  assert (Hsurv : survives_finish (purpose a) = true).
  { destruct (survives_finish (purpose a)) eqn:E; [done|]. destruct Hin.
    apply list_elem_of_filter. split; [|apply elem_of_sorted_keys; eauto].
    unfold is_over. by rewrite Ha, E. }
  destruct (Hs t a Ha) as [|(i & r & Hi & Hn & Hw & Hh)]; [by left|right]. eexists i, _.
  rewrite list_lookup_fmap, Hi. cbn. split_and!; [done..|]. split; [by apply finishing_watches|].
  intros Hp. by rewrite Hp in Hsurv.
Qed.

(** ** One attempt in flux

    While a list treats an attempt, its timers are the allowed ones and everything else is as it should
    be. *)
Record flux (i : nat) (r : SlotRecord) (A : TimerPurpose → Prop) (e : Emit) : Prop := {
  flux_record : RunState.slots (Emit.state e) !! i = Some r;
  flux_ordered : ordered (Emit.state e);
  flux_timers : timers_but (SlotRecord.slot r) A (Emit.state e);
}.

Lemma ordered_slots s s' : RunState.slots s' = RunState.slots s → ordered s → ordered s'.
Proof. unfold ordered. by intros ->. Qed.

Section flux.
Context (i : nat) (r : SlotRecord).
Implicit Types (e : Emit) (A B : TimerPurpose → Prop) (p : TimerPurpose).

Lemma flux_weaken A B e : flux i r A e → (∀ p, A p → B p) → flux i r B e.
Proof. intros [Hr Ho Ht] HAB. split; try done. by eapply timers_but_weaken. Qed.

Lemma flux_close A e :
  flux i r A e → (∀ p, A p → fits p (RunState.slots (Emit.state e)) i r) → timers_ok (Emit.state e).
Proof.
  intros [Hr [Ho Hok] Ht] HA. eapply timers_but_ok; [done|]. intros j x p Hj Hx Hp.
  destruct (in_order_slot_inj _ Ho j i x r Hj Hr Hx) as [-> ->]. auto.
Qed.

Lemma flux_open e :
  RunState.slots (Emit.state e) !! i = Some r → ordered (Emit.state e) → timers_ok (Emit.state e) →
  flux i r (λ p, fits p (RunState.slots (Emit.state e)) i r) e.
Proof.
  intros Hr Ho Hs. split; [done..|]. apply timers_ok_but; [done|]. intros j x p Hj Hx Hp.
  by destruct (in_order_slot_inj _ (proj1 Ho) j i x r Hj Hr Hx) as [-> ->].
Qed.

Lemma flux_clear A p e :
  slot_purpose p = true → flux i r A e →
  flux i r (λ q, A q ∧ q ≠ p) (clear_slot_timer (SlotRecord.slot r) p e).
Proof.
  intros Hp [Hr Ho Ht]. split; [..|by apply clear_slot_timer_but];
    unfold clear_slot_timer; by rewrite clear_timer_state.
Qed.

Lemma flux_clear_if (b : bool) A p e :
  slot_purpose p = true → flux i r A e →
  flux i r (λ q, A q ∧ (b = true → q ≠ p)) (if b then clear_slot_timer (SlotRecord.slot r) p e else e).
Proof.
  intros Hp Hf. destruct b; [|by eapply flux_weaken].
  eapply flux_weaken; [by apply flux_clear|]. naive_solver.
Qed.

Lemma flux_clear_all A e :
  flux i r A e → flux i r (λ _, False) (clear_slot_timers (SlotRecord.slot r) e).
Proof.
  intros [Hr Ho Ht]. split; [by rewrite clear_slot_timers_slots| |by eapply clear_slot_timers_but].
  eapply ordered_slots; [apply clear_slot_timers_slots|done].
Qed.

Lemma flux_set_at A t at_ p e :
  p ≠ TimerPurpose.StartDeadline → named t p (SlotRecord.slot r) → flux i r A e →
  flux i r (λ q, A q ∨ q = p) (set_timer_at t at_ p e).
Proof.
  intros Hp Hn [Hr Ho Ht]. split; [..|by eapply set_timer_at_but]; by rewrite set_timer_at_state.
Qed.

Lemma flux_set A span p e :
  slot_purpose p = true → p ≠ TimerPurpose.StartDeadline → flux i r A e →
  flux i r (λ q, A q ∨ q = p) (set_slot_timer (SlotRecord.slot r) span p e).
Proof. intros Hp Hn. apply flux_set_at; [done|]. by left. Qed.

Lemma flux_set_if (b : bool) A span p e :
  slot_purpose p = true → p ≠ TimerPurpose.StartDeadline → flux i r A e →
  flux i r (λ q, A q ∨ (b = true ∧ q = p))
    (if b then set_slot_timer (SlotRecord.slot r) span p e else e).
Proof.
  intros Hp Hn Hf. destruct b; (eapply flux_weaken; [|..]); [by apply flux_set| |done|]; naive_solver.
Qed.
End flux.

(** An input that touches one attempt puts it in flux, with the timers that watched it. *)
Lemma flux_alter s i r f e :
  ordered s → timers_ok s → RunState.slots s !! i = Some r → SlotRecord.slot (f r) = SlotRecord.slot r →
  RunState.slots (Emit.state e) = alter f i (RunState.slots s) → ordered (Emit.state e) →
  RunState.timers (Emit.state e) = RunState.timers s →
  flux i (f r) (λ p, fits p (RunState.slots s) i r) e.
Proof.
  intros Ho Hs Hi Hf Hsl Ho' Ht. split; [by rewrite Hsl, list_lookup_alter_eq, Hi|done|].
  rewrite Hf. apply (timers_but_keeps _ _ s).
  - rewrite Hsl. apply Forall2_alter_move; [apply keeps_refl|]. intros x Hx. simplify_eq.
    by split.
  - by rewrite Ht.
  - apply timers_ok_but; [done|]. intros j x p Hj Hx Hp.
    by destruct (in_order_slot_inj _ (proj1 Ho) j i x r Hj Hi Hx) as [-> ->].
Qed.

(** Re-arming the signs of life of a running attempt. *)
Lemma rearm_ok i r A was_quiet beat session open_call e :
  SlotRecord.state r = SlotState.Running session open_call →
  flux i r A e →
  (∀ p, A p → match p with
              | TimerPurpose.Quiet | TimerPurpose.SubprocessIdle | TimerPurpose.CallBound => True
              | TimerPurpose.Confirm => was_quiet = true
              | _ => False
              end) →
  timers_ok (Emit.state (rearm i (SlotRecord.slot r) was_quiet beat e)).
Proof.
  intros Hst Hf HA. unfold rearm.
  apply (flux_clear_if _ _ was_quiet _ TimerPurpose.Confirm) in Hf; [|done].
  set (e1 := if was_quiet then _ else e) in *. clearbody e1.
  unfold slot_at. rewrite (flux_record _ _ _ _ Hf). rewrite Hst.
  destruct open_call as [o|]; cbn [has_open_call negb].
  - eapply flux_close.
    + apply flux_set_if, flux_set_if, flux_clear_if, flux_clear_if, flux_clear; try done; exact Hf.
    + cbn. intros p Hp. split; [|intros ->; naive_solver]. unfold watches. rewrite Hst.
      destruct p; naive_solver.
  - eapply flux_close.
    + apply flux_set_if, flux_clear, flux_clear; try done; exact Hf.
    + cbn. intros p Hp. split; [|intros ->; naive_solver]. unfold watches. rewrite Hst.
      destruct p; naive_solver.
Qed.

(** A decision about the attempt itself. *)
Lemma flux_push i r A f d e :
  flux i r A e → ordered (Emit.state (push d e)) → SlotRecord.slot (f r) = SlotRecord.slot r →
  RunState.slots (Emit.state (push d e)) =
    RunState.slots (alter_record (SlotRecord.slot r) f (Emit.state e)) →
  RunState.timers (Emit.state (push d e)) = RunState.timers (Emit.state e) →
  flux i (f r) A (push d e).
Proof.
  intros [Hr Ho Ht] Ho' Hf Hsl Htm. rewrite alter_record_slots, (find_slot_ordered _ _ _ Ho Hr) in Hsl.
  split; [by rewrite Hsl, list_lookup_alter_eq, Hr|done|]. rewrite Hf.
  apply (timers_but_keeps _ _ (Emit.state e)); [|by rewrite Htm|done].
  rewrite Hsl. apply Forall2_alter_move; [apply keeps_refl|]. intros x Hx. simplify_eq. by split.
Qed.

Lemma flux_liveness i r A reason at_ e :
  flux i r A e → ordered (Emit.state (push (Decision.Liveness (SlotRecord.slot r) reason at_) e)) →
  flux i (alter_state (liveness_state reason at_ (RunState.withdrawn (Emit.state e))) r) A
    (push (Decision.Liveness (SlotRecord.slot r) reason at_) e).
Proof.
  intros Hf Ho.
  by apply (flux_push i r A (alter_state (liveness_state reason at_ _)));
    [| | | |apply apply_decision_timers].
Qed.

Lemma flux_parked i r A reason e :
  flux i r A e → ordered (Emit.state (push (Decision.Parked (Some (SlotRecord.slot r)) reason) e)) →
  ∃ c, flux i (r <| SlotRecord.condition := Some c |>) A
    (push (Decision.Parked (Some (SlotRecord.slot r)) reason) e).
Proof.
  intros Hf Ho. exists (SlotCondition.Parked reason
    (u64_succ (RunState.next_order (Emit.state e))) (Emit.at_ e)).
  by apply (flux_push i r A (λ r, r <| SlotRecord.condition := Some _ |>));
    [| | |cbn; rewrite !alter_record_slots|apply apply_decision_timers].
Qed.

Lemma flux_held i r A reason until resets_at e :
  flux i r A e →
  ordered (Emit.state (push (Decision.Held (SlotRecord.slot r) reason until resets_at) e)) →
  flux i (hold_record reason until resets_at
            (u64_succ (RunState.next_order (Emit.state e))) r) A
    (push (Decision.Held (SlotRecord.slot r) reason until resets_at) e).
Proof.
  intros Hf Ho. by apply (flux_push i r A (hold_record reason until resets_at _));
    [| |destruct resets_at|cbn; rewrite !alter_record_slots|apply apply_decision_timers].
Qed.

Lemma timers_armed_right n s :
  flow_ok (RunState.def s) → n < u32_max → seats n s → timers_ok s → armed_right s.
Proof.
  intros Hf Hn Hs Ht timer armed slot Ha Hsl.
  destruct (Ht timer armed Ha) as [[[_ ->]|[_ ->]]|(i & r & Hi & Hnamed & Hw & Hh)].
  - by rewrite timer_slot_root in Hsl.
  - by rewrite timer_slot_tree in Hsl.
  - assert (Hok : slot_ok (SlotRecord.slot r))
      by (eapply (seats_slot_ok n s); eauto using list_elem_of_lookup_2; lia).
    rewrite (named_slot _ _ _ Hok Hnamed) in Hsl. simplify_eq. split.
    + intros Hv. exists r. split_and!; [by eapply list_elem_of_lookup_2|done|].
      unfold watches in Hw. destruct (purpose armed), (SlotRecord.state r); try done;
        by destruct Hv.
    + intros Hp. exists i, r. split_and!; [auto|done|]. rewrite Hp in Hw. unfold watches in Hw.
      by destruct (SlotRecord.state r).
Qed.

Section decides.
Context (n : N) (s : RunState) (input : Event).
Hypothesis Hflow : flow_ok (RunState.def s).
Hypothesis Hseats : seats n s.
Hypothesis Htimers : timers_ok s.
Hypothesis Hinput : is_decision (Event.body input) = false.
Hypothesis Hguard : ignored_reason s input = None.
Hypothesis Hbound : n + N.of_nat (length (decide s input (RunState.def s))) < u32_max.

Definition start : Emit := emit_start s input (RunState.def s).
Definition final : Emit := emit_input input start.

(** On the way from the folded input to the end of the list. *)
Definition on_way (e : Emit) : Prop := extends start e ∧ extends e final.

Lemma on_way_seats e :
  on_way e → ∃ m, m < u32_max ∧ flow_ok (RunState.def (Emit.state e)) ∧ seats m (Emit.state e).
Proof using Type*.
  intros [[pre ->] [post Hpost]]. exists (n + N.of_nat (length pre)).
  assert (Hd : decide s input (RunState.def s) = pre ++ post).
  { unfold decide. rewrite Hguard. fold start. change (emit_input input start) with final.
    by rewrite Hpost. }
  assert (n + N.of_nat (length pre) < u32_max) by (rewrite Hd, length_app in Hbound; lia).
  split_and!; [done| |].
  - destruct (deciding_fixed input (emitted start pre)) as (_ & -> & _); [|done].
    split_and!; try done. by exists pre.
  - eapply (seats_emitted n s input pre post); try done.
    apply (timers_armed_right n); try done. lia.
Qed.

Lemma on_way_ordered e : on_way e → ordered (Emit.state e).
Proof using Type*.
  intros (m & Hm & Hf & Hs)%on_way_seats. split; [by eapply seats_order|].
  intros r Hr. eapply (seats_slot_ok m (Emit.state e)); eauto. lia.
Qed.

Lemma extends_final e1 : e1 = final → extends start e1.
Proof using Hguard.
  intros ->. destruct (decide_emitted s input (RunState.def s) Hguard) as [Heq _]. by eexists.
Qed.

Lemma start_on_way : on_way start.
Proof using Hguard. split; [apply extends_refl|]. by apply extends_final. Qed.

Lemma start_state : Emit.state start = act_input s input.
Proof using Hguard. cbn. unfold apply_input. by rewrite Hguard. Qed.

(** The slots before the input, and those it left. *)
Lemma start_moves : Forall2 moves (RunState.slots s) (RunState.slots (Emit.state start)).
Proof using Hguard.
  rewrite start_state. eapply Forall2_impl; [by apply act_input_slots|]. apply input_move_moves.
Qed.

Lemma before_ordered : ordered s.
Proof using Hflow Hseats Hbound.
  split; [by eapply seats_order|]. intros r Hr. eapply (seats_slot_ok n s); eauto. lia.
Qed.

(** An input that touches the attempt of one session. *)
Lemma altered_found key i r f :
  find s key = Some i → RunState.slots s !! i = Some r → act_input s input = alter_slot i f s →
  (∀ x, SlotRecord.slot (f x) = SlotRecord.slot x) →
  find (Emit.state start) key = Some i ∧ flux i (f r) (λ p, fits p (RunState.slots s) i r) start.
Proof using Type*.
  intros Hf Hi Hst Hfs. rewrite <-start_state in Hst. split.
  - rewrite Hst. unfold find. cbn. rewrite position_alter; [exact Hf|].
    intros x. unfold state_session_key. by rewrite Hfs.
  - pose proof before_ordered as Ho. pose proof (on_way_ordered start start_on_way) as Ho'.
    apply (flux_alter s i r f start); try done; by rewrite Hst.
Qed.

Lemma next_ordered e e' :
  extends start e → extends e e' → extends (arm_ready e') final → ordered (Emit.state e').
Proof using Type*.
  intros H1 H2 H3. apply on_way_ordered. split; [by eapply extends_trans|].
  eapply extends_trans; [|exact H3]. eauto with ext.
Qed.

(** *** A session's facts *)

(** The end of an attempt that has not replied: the seat's next attempt, a hold, or a park. *)
Section ended.
Context (i : nat) (r : SlotRecord) (e : Emit).
Hypothesis Hway : extends start e.
Hypothesis Hlast : last_of (RunState.slots (Emit.state e)) i r.
Hypothesis Hended : is_ended (SlotRecord.state r) = true.
Hypothesis Hflux : flux i r (λ _, False) e.

Lemma ended_restart_ok :
  final = restart (SlotRecord.slot r) e → timers_ok (Emit.state final).
Proof using Type*.
  intros Hfin. rewrite Hfin. apply (restart_ok e _ i r); try done; [apply Hflux| | |].
  - by eapply flux_close.
  - eapply timers_but_weaken; [apply Hflux|done].
  - intros e' He' Hx. apply (next_ordered e); [done..|]. rewrite Hfin, He'. apply extends_refl.
Qed.

Lemma ended_park_ok reason :
  final = push (Decision.Parked (Some (SlotRecord.slot r)) reason) e → timers_ok (Emit.state final).
Proof using Type*.
  intros Hfin. rewrite Hfin. destruct (flux_parked i r _ reason e Hflux) as [c Hc].
  - apply on_way_ordered. rewrite <-Hfin. split; [by apply extends_final|apply extends_refl].
  - by eapply flux_close.
Qed.

Lemma ended_restart_or_park_ok reason :
  final = restart_or_park i (SlotRecord.slot r) reason e → timers_ok (Emit.state final).
Proof using Type*.
  intros Hfin. unfold restart_or_park in Hfin. unfold slot_at in Hfin.
  rewrite (flux_record _ _ _ _ Hflux) in Hfin.
  case_match; [by apply ended_restart_ok|by eapply ended_park_ok].
Qed.

Lemma ended_hold_ok reason resets_at :
  final = hold i (SlotRecord.slot r) reason resets_at e → timers_ok (Emit.state final).
Proof using Type*.
  intros Hfin. unfold hold in Hfin. unfold slot_at in Hfin.
  rewrite (flux_record _ _ _ _ Hflux) in Hfin. case_match; [by eapply ended_park_ok|].
  set (e1 := push _ e) in Hfin. set (until := hold_until resets_at e) in *.
  assert (Ho : ordered (Emit.state e1)).
  { apply on_way_ordered. split; [subst e1|rewrite Hfin]; eauto with ext. }
  pose proof (flux_held i r _ reason until resets_at e Hflux Ho) as Hf.
  set (r1 := hold_record _ _ _ _ r) in Hf. assert (Hs1 : SlotRecord.slot r1 = SlotRecord.slot r)
    by (subst r1; unfold hold_record; by destruct resets_at).
  rewrite Hfin. rewrite <-Hs1. eapply flux_close; [eapply flux_set_at; [done|by left|exact Hf]|].
  intros p [[]| ->]. split.
  - unfold watches. subst r1. unfold hold_record. destruct resets_at; cbn;
      by destruct (SlotRecord.state r).
  - intros _. rewrite set_timer_at_state by done. cbn. eapply same_slots_last; [|exact Hlast|apply Hf].
    cbn. rewrite alter_record_slots. cbn. case_match; [|by apply Forall2_refl_move].
    apply Forall2_alter_move; [done|]. intros x _. unfold hold_record. by destruct resets_at.
Qed.
End ended.

Section fact.
Context (key : SessionKey) (fact : SessionFact).
Hypothesis Hbody : Event.body input = EventBody.SessionFact key fact.

Lemma fact_found :
  ∃ i r, RunState.slots s !! i = Some r ∧ fact_ignored s r fact = None ∧
    find (Emit.state start) key = Some i ∧
    let r' := fact_record (is_superseded s r) (RunState.withdrawn s) (Event.at_ input) fact r in
    flux i r' (λ p, fits p (RunState.slots s) i r) start.
Proof using Type*.
  pose proof Hguard as Hg. unfold ignored_reason in Hg. rewrite Hbody in Hg.
  destruct (is_finished s); [done|]. destruct (record_at s key) as [r|] eqn:Er; [|done].
  apply bind_Some in Er as (i & Hf & Hi). exists i, r. split; [done|]. split; [done|].
  apply (altered_found key i r (fact_record _ _ _ fact)); try done.
  - unfold act_input. rewrite Hbody, Hf. unfold apply_fact. by rewrite Hi.
  - intros. apply fact_record_slot.
Qed.

Section record.
Context (i : nat) (r : SlotRecord).
Let r' := fact_record (is_superseded s r) (RunState.withdrawn s) (Event.at_ input) fact r.
Hypothesis Hi : RunState.slots s !! i = Some r.
Hypothesis Haccepted : fact_ignored s r fact = None.
Hypothesis Hflux : flux i r' (λ p, fits p (RunState.slots s) i r) start.

(** Nothing is armed for it but what watches it still. *)
Lemma fact_kept_ok :
  (∀ p, fits p (RunState.slots s) i r → watches p r' = true) → timers_ok (Emit.state start).
Proof using Type*.
  intros Hk. eapply flux_close; [exact Hflux|]. intros p Hp. split; [auto|]. intros Hh.
  destruct (moves_last_l _ _ start_moves _ _ (proj2 Hp Hh)) as (x & Hx & _).
  pose proof (flux_record _ _ _ _ Hflux). by destruct Hx; simplify_eq.
Qed.

Lemma started_ok backend pids :
  fact = SessionFact.Started backend pids →
  timers_ok (Emit.state (if is_starting (SlotRecord.state r) then
    let e := clear_slot_timer (SlotRecord.slot r') TimerPurpose.StartDeadline start in
    set_slot_timer (SlotRecord.slot r') (quiet_after (policy_of e)) TimerPurpose.Quiet e else start)).
Proof using Type*.
  intros Hfa. destruct (is_starting (SlotRecord.state r)) eqn:Est.
  - eapply flux_close; [by apply flux_set, flux_clear|]. subst r'. rewrite Hfa.
    unfold fact_record, fits, watches. cbn.
    destruct (SlotRecord.state r); try done. intros p [[[Hw _] Hne]| ->]; [|done].
    by destruct p.
  - apply fact_kept_ok. intros p [Hw Hh]. rewrite Hfa in Haccepted. cbn in Haccepted.
    subst r'. rewrite Hfa. unfold fact_record. unfold watches in *. cbn.
    destruct (SlotRecord.state r) eqn:Est0; try done; [cbn; by rewrite Est0|].
    destruct (is_superseded s r) eqn:Esup; [|done]. exfalso. destruct p; try done.
    apply superseded_last in Hh; [congruence|apply (seats_order _ _ Hseats)|done|done].
Qed.

Definition talks : Prop :=
  match fact with
  | SessionFact.Heartbeat _ | SessionFact.Usage _ _ _ _ _ _ | SessionFact.PermissionRefused _ _ => True
  | _ => False
  end.

Lemma talks_running :
  talks → is_talking (SlotRecord.state r) = true →
  ∃ session open_call, SlotRecord.state r' = SlotState.Running session open_call.
Proof using Type*.
  unfold talks. intros Hf Ht. subst r'. unfold fact_record, revive, set_open_call.
  destruct r as [sl st]. destruct fact as [|[]| | | |[]|]; try done; destruct st; try done; cbn; eauto.
Qed.

Lemma talks_rearm_ok beat :
  talks → is_talking (SlotRecord.state r) = true →
  timers_ok (Emit.state (rearm i (SlotRecord.slot r') (is_quiet_or_nudged (SlotRecord.state r)) beat
    start)).
Proof using Type*.
  intros Hf Ht. destruct (talks_running Hf Ht) as (session & open_call & Hst).
  eapply rearm_ok; [exact Hst|exact Hflux|]. intros p [Hw _]. unfold watches in Hw.
  destruct p, (SlotRecord.state r); done.
Qed.

(** A fact that says no more than that the session lives. *)
Lemma alive_ok :
  match fact with
  | SessionFact.Heartbeat (HeartbeatKind.Unknown _) | SessionFact.Usage _ _ _ _ _ _
  | SessionFact.PermissionRefused _ _ => True
  | _ => False
  end →
  timers_ok (Emit.state (if is_quiet_or_nudged (SlotRecord.state r)
                         then rearm i (SlotRecord.slot r') true None start else start)).
Proof using Type*.
  intros Hfa. destruct (is_quiet_or_nudged (SlotRecord.state r)) eqn:Eq.
  - rewrite <-Eq. apply talks_rearm_ok; [unfold talks; by destruct fact|].
    by destruct (SlotRecord.state r).
  - apply fact_kept_ok. intros p [Hw _]. rewrite <-Hw. unfold watches.
    assert (SlotRecord.state r' = SlotRecord.state r ∧ SlotRecord.condition r' = SlotRecord.condition r)
      as [-> ->]; [|done].
    subst r'. unfold fact_record, revive. destruct r as [sl st].
    destruct fact as [|[]| | | |[]|]; try done; by destruct st.
Qed.

Lemma group_lingering_ok pids :
  fact = SessionFact.GroupLingering pids →
  final = group_lingering (SlotRecord.slot r') (SlotRecord.state r) start →
  timers_ok (Emit.state final).
Proof using Type*.
  intros Hfa Hfin. pose proof Haccepted as Hacc. rewrite Hfa in Hacc. cbn in Hacc.
  destruct (is_live (SlotRecord.state r)) eqn:El; [|done].
  assert (Hlost : final = push (Decision.Liveness (SlotRecord.slot r') ReasonCode.Lost
      (Emit.at_ (clear_slot_timers (SlotRecord.slot r') start)))
    (clear_slot_timers (SlotRecord.slot r') start) → timers_ok (Emit.state final)).
  { intros Hl. rewrite Hl. eapply (flux_close i _ (λ _, False)); [|done].
    apply flux_liveness; [by eapply flux_clear_all|]. apply on_way_ordered. rewrite <-Hl.
    split; [by apply extends_final|apply extends_refl]. }
  unfold group_lingering in Hfin. destruct (SlotRecord.state r) eqn:Est; try done; try (by apply Hlost).
  - rewrite Hfin. apply fact_kept_ok. subst r'. rewrite Hfa. intros p [Hw _]. revert Hw.
    unfold fact_record, watches. cbn. rewrite Est. by destruct p.
  - rewrite Hfin. eapply flux_close; [by apply flux_clear|]. subst r'. rewrite Hfa.
    unfold fact_record, fits, watches. cbn. rewrite Est. cbn.
    intros p [[Hw _] _]. destruct p, process; done.
Qed.

Lemma ended_ok cause :
  fact = SessionFact.Ended cause →
  final = ended i (SlotRecord.slot r') (SlotRecord.state r) cause start →
  timers_ok (Emit.state final).
Proof using Type*.
  intros Hfa Hfin. unfold ended in Hfin.
  set (e1 := clear_slot_timers (SlotRecord.slot r') start) in *.
  assert (Hf1 : flux i r' (λ _, False) e1) by (by eapply flux_clear_all).
  assert (Hx1 : extends start e1) by (subst e1; eauto with ext).
  assert (Hok1 : timers_ok (Emit.state e1)) by (by eapply flux_close).
  destruct (is_finishing (Emit.state e1)); [by rewrite Hfin|].
  assert (Harm : timers_ok (Emit.state (arm_ready e1))) by (apply arm_ready_ok; [apply Hf1|done]).
  assert (Hend : over (SlotRecord.state r) = false →
    last_of (RunState.slots (Emit.state e1)) i r' ∧ is_ended (SlotRecord.state r') = true).
  { intros Ho. split.
    - subst e1. rewrite clear_slot_timers_slots.
      destruct (moves_last_l _ _ start_moves i r) as (x & Hx & _).
      + by apply not_over_last; [apply (seats_order _ _ Hseats)|..].
      + pose proof (flux_record _ _ _ _ Hflux). by destruct Hx; simplify_eq.
    - subst r'. rewrite Hfa. destruct r as [sl st]; destruct cause; cbn in *; by destruct st. }
  pose proof Haccepted as Hacc. rewrite Hfa in Hacc. cbn in Hacc.
  destruct (over (SlotRecord.state r)) eqn:Eo.
  - destruct (SlotRecord.state r) as [| | | | |l []| |]; try done; by rewrite Hfin.
  - destruct (Hend eq_refl) as [Hla He].
    destruct (SlotRecord.state r) as [| | | | |l []| |]; try done;
      try (by eapply ended_restart_or_park_ok);
      destruct cause;
        first [by eapply ended_restart_or_park_ok|by eapply ended_hold_ok|by eapply ended_park_ok].
Qed.
End record.

Lemma fact_ok : timers_ok (Emit.state final).
Proof using Type*.
  destruct fact_found as (i & r & Hi & Hacc & Hf & Hfl). cbn zeta in Hfl.
  pose proof (flux_record _ _ _ _ Hfl) as Hr'.
  assert (Hfin : final = emit_fact key fact start) by (unfold final, emit_input; by rewrite Hbody).
  unfold emit_fact, slot_at in Hfin. rewrite Hf in Hfin.
  change (Emit.before start) with s in Hfin. rewrite Hi, Hr' in Hfin.
  pose proof Hacc as Hacc'. revert Hfin Hacc'.
  case_eq fact; [intros b ps|intros beat|intros a b c d x y|intros a b|intros ps|intros cause|intros b];
    intros H Hfin Hacc'; cbn in Hacc'; rewrite ?Hfin.
  - rewrite <-H. by eapply started_ok.
  - assert (Ht : is_talking (SlotRecord.state r) = true) by (by destruct (is_talking _)).
    destruct beat; rewrite <-H;
      first [apply alive_ok; try done; by rewrite H
        |apply talks_rearm_ok; try done; unfold talks; by rewrite H].
  - rewrite <-H. apply alive_ok; try done; by rewrite H.
  - rewrite <-H. apply alive_ok; try done; by rewrite H.
  - rewrite <-Hfin. rewrite <-H in Hfin. by eapply group_lingering_ok.
  - rewrite <-Hfin. rewrite <-H in Hfin. by eapply ended_ok.
  - done.
Qed.
End fact.

(** *** Where a run goes *)
Lemma start_step_way_ok e step :
  extends start e → extends (start_step step e) final → timers_ok (Emit.state e) →
  timers_ok (Emit.state (start_step step e)).
Proof using Type*.
  intros Hx Hfin Hok. destruct (on_way_seats e) as (m & Hm & _ & Hs).
  { split; [done|]. eapply extends_trans; [|exact Hfin]. eauto with ext. }
  apply (start_step_ok e step m); try done. intros e' He' Hx'.
  apply (next_ordered e); try done. by rewrite <-He'.
Qed.

Lemma finish_step_ok e step visit needs_rework :
  extends start e → final = finish_step step visit needs_rework e → timers_ok (Emit.state e) →
  timers_ok (Emit.state final).
Proof using Type*.
  intros Hx Hfin Hok. unfold finish_step in Hfin. set (e1 := push _ e) in Hfin.
  assert (Hx1 : extends start e1) by (subst e1; eauto with ext).
  assert (Hok1 : timers_ok (Emit.state e1)) by done.
  assert (Hstart : ∀ e2 to, extends start e2 → timers_ok (Emit.state e2) → final = start_step to e2 →
    timers_ok (Emit.state final)).
  { intros e2 to Hx2 Hok2 Hf2. rewrite Hf2. apply start_step_way_ok; try done. rewrite Hf2.
    apply extends_refl. }
  destruct (def_step _ step) as [d|]; [|by rewrite Hfin].
  assert (Hnext : final = match StepDef.next d with
      | Some next => start_step next e1
      | None => finish_run Outcome.Delivered ReasonCode.Delivered e1
      end → timers_ok (Emit.state final)).
  { intros Hf1. destruct (StepDef.next d); [by eapply Hstart|]. rewrite Hf1. by apply finish_run_ok. }
  destruct needs_rework; [|by apply Hnext].
  destruct (StepDef.on_needs_rework d) as [to|]; [|by apply Hnext].
  clear Hnext. case_match.
  - unfold rework in Hfin. eapply Hstart; [| |exact Hfin]; [eauto with ext|done].
  - rewrite Hfin. unfold ceiling. by case_match.
Qed.

Lemma after_reply_ok e slot :
  extends start e → final = after_reply slot e → timers_ok (Emit.state e) →
  timers_ok (Emit.state final).
Proof using Type*.
  intros Hx Hfin Hok. unfold after_reply in Hfin. case_match; [|by rewrite Hfin].
  destruct (def_step _ _) as [d|]; [|by rewrite Hfin]. case_match; [|by rewrite Hfin].
  unfold all_replied in Hfin. destruct (has_synthesis d); [|by eapply finish_step_ok].
  destruct (latest _ _ _ SYNTH) as [r|] eqn:El.
  { case_match; [by eapply finish_step_ok|by rewrite Hfin]. }
  rewrite Hfin. apply arm_ready_ok.
  - apply (next_ordered e); [done|eauto with ext|]. rewrite Hfin. apply extends_refl.
  - apply push_started_ok; [|done]. intros t a i r m _ _ Hla _ ->%list_elem_of_singleton Hseat.
    assert (Hsome : latest (Emit.state e) (slot_step slot) (slot_visit slot) SYNTH = Some r)
      by (apply latest_Some; eauto). congruence.
Qed.

Lemma reply_ok key message escalate needs_rework :
  Event.body input = EventBody.Reply key message escalate needs_rework → timers_ok (Emit.state final).
Proof using Type*.
  intros Hbody. pose proof Hguard as Hg. unfold ignored_reason in Hg. rewrite Hbody in Hg.
  destruct (is_finished s); [done|]. destruct (record_at s key) as [r|] eqn:Er; [|done].
  apply bind_Some in Er as (i & Hf & Hi).
  assert (Hst : ∃ f, act_input s input = alter_slot i f s ∧
    (∀ x, SlotRecord.slot (f x) = SlotRecord.slot x) ∧
    ∃ m es nr, SlotRecord.state (f r) = SlotState.Replied m es nr Live false None).
  { unfold act_input. rewrite Hbody, Hf. unfold apply_reply.
    eexists. split; [done|]. cbn. split; [done|]. eauto. }
  destruct Hst as (f & Hst & Hfs & m & es & nr & Hrep).
  destruct (altered_found key i r f Hf Hi Hst Hfs) as [Hfi Hfl].
  assert (Hfin : final = emit_reply key start) by (unfold final, emit_input; by rewrite Hbody).
  unfold emit_reply in Hfin. rewrite Hfi in Hfin.
  change (slot_at start i) with (RunState.slots (Emit.state start) !! i) in Hfin.
  rewrite (flux_record _ _ _ _ Hfl) in Hfin.
  set (e1 := clear_slot_timers _ start) in Hfin.
  assert (Hf1 : flux i (f r) (λ _, False) e1) by (by eapply flux_clear_all).
  set (e2 := set_slot_timer _ _ _ e1) in Hfin.
  assert (Hok2 : timers_ok (Emit.state e2)).
  { eapply flux_close; [by apply flux_set|]. intros p [[]| ->]. split; [|done].
    unfold watches. by rewrite Hrep. }
  assert (Hx2 : extends start e2) by (subst e2 e1; eauto with ext).
  set (e3 := match SlotRecord.state <$> slot_at e2 i with Some _ => _ | None => _ end) in Hfin.
  eapply (after_reply_ok e3); [|exact Hfin|]; subst e3; repeat case_match; eauto with ext.
Qed.

(** *** The host's inputs about a session *)
Lemma nudged_ok key : Event.body input = EventBody.Nudged key → timers_ok (Emit.state final).
Proof using Type*.
  intros Hbody. pose proof Hguard as Hg. unfold ignored_reason in Hg. rewrite Hbody in Hg.
  destruct (is_finished s); [done|]. destruct (record_at s key) as [r|] eqn:Er; [|done].
  apply bind_Some in Er as (i & Hf & Hi).
  destruct (altered_found key i r (alter_state (nudge_state (Event.at_ input))) Hf Hi) as [Hfi Hfl];
    [unfold act_input; by rewrite Hbody, Hf|done|].
  unfold final, emit_input. rewrite Hbody. unfold nudged, slot_at. rewrite Hfi. cbn [mbind option_bind].
  rewrite (flux_record _ _ _ _ Hfl). eapply flux_close; [by apply flux_set|].
  unfold fits, watches. cbn. destruct (SlotRecord.state r); try done.
  intros p [[Hw _]| ->]; [|done]. by destruct p.
Qed.

Lemma stop_signalled_ok key nth kind :
  Event.body input = EventBody.StopSignalled key nth kind → timers_ok (Emit.state final).
Proof using Type*.
  intros Hbody. pose proof Hguard as Hg. unfold ignored_reason in Hg. rewrite Hbody in Hg.
  destruct (is_finished s); [done|]. destruct (record_at s key) as [r|] eqn:Er; [|done].
  apply bind_Some in Er as (i & Hf & Hi).
  set (f := alter_state (ladder_mut signal_ladder)).
  destruct (altered_found key i r f Hf Hi) as [Hfi Hfl];
    [unfold act_input; by rewrite Hbody, Hf|done|].
  assert (Hk : ∀ p, watches p (f r) = watches p r).
  { intros p. unfold watches. subst f. cbn.
    by destruct p, (SlotRecord.state r) as [| | | | | |m es nr pr o [l|]|]. }
  assert (Hgr : watches TimerPurpose.StopGrace (f r) = true).
  { rewrite Hk. unfold watches. by destruct (SlotRecord.state r) as [| | | | | |m es nr pr o [l|]|]. }
  assert (Hfit : ∀ p, fits p (RunState.slots s) i r →
    fits p (RunState.slots (Emit.state start)) i (f r)).
  { intros p [Hw Hh]. split; [by rewrite Hk|]. intros Hp.
    destruct (moves_last_l _ _ start_moves _ _ (Hh Hp)) as (x & Hx & _).
    pose proof (flux_record _ _ _ _ Hfl). by destruct Hx; simplify_eq. }
  unfold final, emit_input. rewrite Hbody. unfold stop_signalled, slot_at. rewrite Hfi.
  cbn [mbind option_bind]. rewrite (flux_record _ _ _ _ Hfl).
  clear Hg. case_match eqn:Es; [|eapply flux_close; [exact Hfl|exact Hfit]].
  apply orb_true_iff in Es. rewrite !bool_decide_eq_true in Es.
  eapply flux_close; [apply flux_set_at; [done| |exact Hfl]|].
  - right. split; [done|]. eexists. split; [|done]. naive_solver.
  - unfold set_timer. rewrite set_timer_at_state by done.
    intros p [Hp| ->]; [by apply Hfit|]. by split.
Qed.

(** *** A person's inputs *)

(** An input that arms nothing and leaves every timer a record to watch. *)
Lemma kept_ok :
  Forall2 (keeps None) (RunState.slots s) (RunState.slots (Emit.state start)) →
  timers_ok (Emit.state start).
Proof using Htimers Hguard.
  intros Hk. apply (timers_ok_keeps s); [done| |done]. rewrite start_state.
  apply map_subseteq_spec. apply act_input_timers.
Qed.

Lemma same_slots_ok :
  RunState.slots (act_input s input) = RunState.slots s → timers_ok (Emit.state start).
Proof using Htimers Hguard.
  intros Hs. apply kept_ok. rewrite start_state, Hs. apply Forall2_refl_move, keeps_refl.
Qed.

Lemma answer_ok question disposition message :
  Event.body input = EventBody.Answer question disposition message → timers_ok (Emit.state final).
Proof using Type*.
  intros Hbody.
  assert (Hok : timers_ok (Emit.state start)).
  { apply same_slots_ok. unfold act_input. rewrite Hbody. unfold apply_answer. by repeat case_match. }
  assert (Hfin : final = answer question disposition start)
    by (unfold final, emit_input; by rewrite Hbody).
  unfold answer in Hfin. change (Emit.before start) with s in Hfin.
  destruct (find_first _ (RunState.questions s)) as [q|] eqn:Eq; [|by rewrite Hfin].
  destruct (Question.asked q) as [slot m|step pass m] eqn:Ea.
  - destruct (answered_first n input start) with question disposition message q
      as (Hin & Hopen & _); try done.
    { split_and!; try done. exists []. done. }
    destruct (seats_escalation _ _ Hseats q slot m Hin Ea) as [_ (i & r0 & _ & Hs0 & Hrep & Hop)].
    destruct (Hop Hopen) as [Hla0 _].
    destruct (moves_last_l _ _ start_moves _ _ Hla0) as (r & Hla & Hrr).
    rewrite Hfin. apply (restart_ok start slot i r); try done.
    + by rewrite (moves_slot _ _ Hrr).
    + apply on_way_ordered, start_on_way.
    + apply timers_ok_but; [done|]. intros j x p Hj Hx [Hw _] ->.
      destruct (in_order_slot_inj _ (proj1 (on_way_ordered _ start_on_way)) j i x r) as [_ ->];
        [done|by destruct Hla|by rewrite Hx, (moves_slot _ _ Hrr)|].
      rewrite <-(moves_replied _ _ Hrr) in Hrep by (by apply replied_over).
      unfold watches in Hw. by destruct (SlotRecord.state r).
    + intros e' He' Hx. apply (next_ordered start); [apply extends_refl|done|]. rewrite Hfin, He'.
      apply extends_refl.
  - assert (Hgo : ∀ e to, extends start e → timers_ok (Emit.state e) → final = start_step to e →
      timers_ok (Emit.state final)).
    { intros e to Hx Hoke Hf. rewrite Hf. apply start_step_way_ok; try done. rewrite Hf.
      apply extends_refl. }
    destruct disposition; [| |by rewrite Hfin].
    + unfold one_more_pass in Hfin. case_match; [|by rewrite Hfin]. unfold rework in Hfin.
      eapply Hgo; [| |exact Hfin]; [eauto with ext|done].
    + unfold accept in Hfin. case_match; [eapply Hgo; [| |exact Hfin]; eauto with ext|].
      rewrite Hfin. by apply finish_run_ok.
Qed.

Lemma withdrawn_ok message by_ :
  Event.body input = EventBody.Withdrawn message by_ → timers_ok (Emit.state final).
Proof using Type*.
  intros Hbody.
  assert (Hok : timers_ok (Emit.state start)).
  { apply kept_ok. rewrite start_state. unfold act_input. rewrite Hbody.
    apply Forall2_fmap_r, Forall_Forall2_diag, Forall_true. intros r.
    change (keeps None r (withdraw_record r)). unfold withdraw_record.
    set (r1 := alter_state (ladder_mut (λ l, l <| Ladder.forced := true |>)) r). assert (H1 : keeps None r r1).
    { split; [done|]. intros _ p. unfold watches. subst r1. cbn.
      by destruct p, (SlotRecord.state r) as [| | | | | |m es nr pr o [l|]|]. }
    destruct (is_would_not_stop r1) eqn:Ew; [|done]. destruct H1 as [Hs1 Hk1]. split; [done|].
    intros Hne p Hp. specialize (Hk1 Hne p Hp). unfold is_would_not_stop in Ew.
    unfold watches in *. cbn. destruct p; try done.
    destruct (SlotRecord.state r1), (SlotRecord.condition r1) as [[]|]; done. }
  unfold final, emit_input. rewrite Hbody. unfold withdrawn.
  case_match; [done|by apply finish_run_ok].
Qed.

Lemma resume_ok named :
  Event.body input = EventBody.Resume named → timers_ok (Emit.state final).
Proof using Type*.
  intros Hbody. assert (Hfin : final = resume named start)
    by (unfold final, emit_input; by rewrite Hbody).
  unfold resume in Hfin. change (Emit.before start) with s in Hfin.
  destruct (resume_target s named) as [i|] eqn:Et; cbn [mbind option_bind] in Hfin.
  2:{ rewrite Hfin. apply same_slots_ok. unfold act_input. by rewrite Hbody, Et. }
  destruct (resume_target_Some _ _ _ Et) as (r & Hi & Hc & Hsup). rewrite Hi in Hfin.
  apply (superseded_last _ i r) in Hsup; [|apply (seats_order _ _ Hseats)|done].
  destruct (moves_last_l _ _ start_moves _ _ Hsup) as (x & Hla & Hrx).
  assert (Hst : Emit.state start = alter_slot i resume_record s)
    by (rewrite start_state; unfold act_input; by rewrite Hbody, Et).
  assert (Hrec : ∀ x, SlotRecord.slot (resume_record x) = SlotRecord.slot x)
    by (intros; unfold resume_record; by destruct (is_would_not_stop _)).
  assert (Hfl : flux i (resume_record r) (λ p, fits p (RunState.slots s) i r) start).
  { pose proof before_ordered as Ho. pose proof (on_way_ordered start start_on_way) as Ho'.
    apply (flux_alter s i r resume_record start); try done; by rewrite Hst. }
  assert (x = resume_record r) as ->.
  { pose proof (flux_record _ _ _ _ Hfl). destruct Hla. congruence. }
  destruct (SlotRecord.condition r) as [[reason until order|reason order since]|] eqn:Ec.
  - (* held *)
    assert (Hw : is_would_not_stop r = false) by (unfold is_would_not_stop; by rewrite Ec).
    destruct (seats_condition _ _ Hseats r) as [Hov Hre]; [by eapply list_elem_of_lookup_2|eauto|done|].
    rewrite <-(Hrec r) in Hfin. set (e1 := clear_slot_timer _ _ start) in Hfin.
    pose proof (flux_clear i _ _ TimerPurpose.HoldRetry start eq_refl Hfl) as Hf1. fold e1 in Hf1.
    assert (Hok : timers_ok (Emit.state e1)).
    { eapply flux_close; [exact Hf1|]. intros p [[Hwa _] Hne]. split; [|done].
      unfold resume_record. rewrite Hw. unfold watches in *. cbn. by destruct p. }
    rewrite Hfin. apply (restart_ok e1 _ i (resume_record r)); try done.
    + subst e1. unfold clear_slot_timer. by rewrite clear_timer_state.
    + apply Hf1.
    + eapply timers_but_weaken; [apply Hf1|]. by intros p [].
    + intros e' He' Hx. apply (next_ordered e1); [subst e1; eauto with ext|done|].
      rewrite Hfin, He'. apply extends_refl.
  - (* parked *)
    assert (Hok : timers_ok (Emit.state start)).
    { eapply flux_close; [exact Hfl|]. intros p [Hwa Hh].
      assert (p ≠ TimerPurpose.HoldRetry).
      { intros ->. unfold watches in Hwa. rewrite Ec in Hwa. by destruct (SlotRecord.state r). }
      split; [|done]. unfold resume_record. unfold watches in *.
      destruct (is_would_not_stop r); cbn; [|by destruct p].
      by destruct p, (SlotRecord.state r) as [| | | | | |m es nr pr o [l|]|]. }
    case_match; [by rewrite Hfin|]. rewrite <-(Hrec r) in Hfin. rewrite Hfin.
    apply (restart_ok start _ i (resume_record r)); try done.
    + apply Hfl.
    + eapply timers_but_weaken; [apply Hfl|]. intros p [Hwa _] ->. unfold watches in Hwa.
      rewrite Ec in Hwa. by destruct (SlotRecord.state r).
    + intros e' He' Hx. apply (next_ordered start); [apply extends_refl|done|].
      rewrite Hfin, He'. apply extends_refl.
  - by destruct Hc.
Qed.

(** *** A timer *)
Lemma named_purpose t p slot :
  named t p slot → slot_purpose p = true ∨ p = TimerPurpose.StopGrace.
Proof using Type. by intros [[]|[]]; auto. Qed.

(** A slot's own timers have one name each. *)
Lemma named_unique t t' p slot :
  slot_purpose p = true → named t p slot → named t' p slot → t = t'.
Proof using Type.
  intros Hp [[_ ->]|[-> _]]; [|done]. by intros [[_ ->]|[-> _]].
Qed.

Section fired.
Context (timer : string) (fired_at : Timestamp) (armed : ArmedTimer).
Hypothesis Hbody : Event.body input = EventBody.TimerFired timer fired_at.
Hypothesis Harmed : RunState.timers s !! timer = Some armed.

Lemma fired_final : final = timer_fired timer fired_at start.
Proof using Hbody. unfold final, emit_input. by rewrite Hbody. Qed.

Lemma fired_timers : RunState.timers (Emit.state start) = delete timer (RunState.timers s).
Proof using Hbody Hguard Harmed.
  rewrite start_state. unfold act_input, apply_firing, alter_slot. rewrite Hbody. by repeat case_match.
Qed.

Section deferred.
Hypothesis Hlate : is_deferred s timer fired_at (Event.at_ input) = true.

(** Put off: armed again, for the same slot. *)
Lemma deferred_ok : timers_ok (Emit.state final).
Proof using Type*.
  assert (Hok : timers_ok (Emit.state start)).
  { apply same_slots_ok. unfold act_input. rewrite Hbody, Hlate. done. }
  assert (Hsl : RunState.slots (Emit.state start) = RunState.slots s)
    by (rewrite start_state; unfold act_input; by rewrite Hbody, Hlate).
  pose proof (on_way_ordered start start_on_way) as Ho.
  rewrite fired_final. unfold timer_fired. change (Emit.before start) with s.
  change (Emit.at_ start) with (Event.at_ input). rewrite Harmed, Hlate.
  destruct (Htimers timer armed Harmed) as [Hr|(i & r & Hi & Hn & Hw & Hh)].
  { by apply set_run_timer_ok. }
  destruct (base.decide (purpose armed = TimerPurpose.StartDeadline)) as [Hp|Hp].
  - rewrite Hp in *. destruct Hn as [[_ ->]|[? _]]; [|done]. apply set_start_deadline_ok; try done.
    exists i, r. rewrite Hsl. split_and!; try done. right. unfold watches in Hw.
    by destruct (SlotRecord.state r).
  - rewrite <-Hsl in Hi, Hh. eapply flux_close.
    + apply flux_set_at; [done|done|]. by apply flux_open.
    + unfold set_timer. rewrite set_timer_at_state by done. intros q [Hq| ->]; [done|]. by split.
Qed.
End deferred.

(** A timer of a slot fires: its attempt is as it was, and the timer is gone. *)
Section slot_fired.
Hypothesis Hnow : is_deferred s timer fired_at (Event.at_ input) = false.
Context (i : nat) (r : SlotRecord).
Hypothesis Hi : RunState.slots s !! i = Some r.
Hypothesis Hnamed : named timer (purpose armed) (SlotRecord.slot r).
Hypothesis Hfits : fits (purpose armed) (RunState.slots s) i r.

Lemma fired_slot : timer_slot timer = Some (SlotRecord.slot r).
Proof using Hflow Hseats Hbound Hnamed Hi.
  eapply named_slot; [|exact Hnamed]. destruct before_ordered as [_ Hok].
  by eapply Hok, list_elem_of_lookup_2.
Qed.

Lemma fired_record s' :
  RunState.slots s' = RunState.slots s → timer_record s' timer = Some i.
Proof using Hflow Hseats Hbound Hnamed Hi.
  intros Hs. unfold timer_record. rewrite fired_slot. cbn.
  pose proof (find_slot_ordered _ _ _ before_ordered Hi) as Hf. unfold find_slot in *. by rewrite Hs.
Qed.

Lemma fired_flux :
  RunState.slots (act_input s input) = RunState.slots s → slot_purpose (purpose armed) = true →
  flux i r (λ p, fits p (RunState.slots s) i r ∧ p ≠ purpose armed) start.
Proof using Type*.
  intros Hs Hp. rewrite <-start_state in Hs.
  split; [by rewrite Hs|apply on_way_ordered, start_on_way|].
  intros t a. rewrite fired_timers, lookup_delete_Some, Hs. intros [Hne Ha].
  destruct (Htimers t a Ha) as [|(j & x & Hj & Hn & Hf)]; [by left|right]. exists j, x.
  split_and!; try done. intros Hx.
  destruct (in_order_slot_inj _ (seats_order _ _ Hseats) j i x r Hj Hi Hx) as [-> ->].
  split; [done|]. intros Heq. rewrite Heq in Hn. by destruct Hne; eapply named_unique.
Qed.

Lemma conclude_ok reason e A :
  flux i r A e → (∀ p, A p → False) → extends start e →
  final = conclude (SlotRecord.slot r) reason e → timers_ok (Emit.state final).
Proof using Type*.
  intros Hf HA Hx Hfin. rewrite Hfin. eapply flux_close.
  - apply flux_liveness; [exact Hf|]. apply on_way_ordered.
    change (on_way (conclude (SlotRecord.slot r) reason e)). rewrite <-Hfin.
    split; [by apply extends_final|apply extends_refl].
  - intros p []%HA.
Qed.

Lemma quiet_ok e A :
  flux i r A e → (∀ p, A p → False) → extends start e →
  final = quiet (SlotRecord.slot r) e → timers_ok (Emit.state final).
Proof using Type*.
  intros Hf HA Hx Hfin. rewrite Hfin. unfold quiet in *. set (e1 := conclude _ _ e) in *.
  assert (H1 : flux i (alter_state (liveness_state ReasonCode.Quiet (Emit.at_ e)
    (RunState.withdrawn (Emit.state e))) r) A e1).
  { apply flux_liveness; [exact Hf|]. apply on_way_ordered. change (on_way e1).
    split; [subst e1; unfold conclude|rewrite Hfin]; eauto with ext. }
  change (SlotRecord.slot r) with (SlotRecord.slot (alter_state (liveness_state ReasonCode.Quiet
    (Emit.at_ e) (RunState.withdrawn (Emit.state e))) r)).
  eapply flux_close; [by apply flux_set|]. intros p [[]%HA| ->]. by split.
Qed.

Lemma fired_act :
  act_input s input =
  apply_firing (s <| RunState.timers := delete timer (RunState.timers s) |>) timer (purpose armed) input.
Proof using Hbody Hnow Harmed. unfold act_input. by rewrite Hbody, Hnow, Harmed. Qed.

Lemma fired_now p :
  purpose armed = p →
  final = match p with
          | TimerPurpose.RootDeadline => root_period start
          | TimerPurpose.TreeWindow => push (Decision.Parked None ReasonCode.TreeRefused) start
          | TimerPurpose.StartDeadline => conclude (SlotRecord.slot r) ReasonCode.StartFailed start
          | TimerPurpose.Quiet => quiet (SlotRecord.slot r) start
          | TimerPurpose.SubprocessIdle =>
              quiet (SlotRecord.slot r) (clear_slot_timer (SlotRecord.slot r) TimerPurpose.CallBound start)
          | TimerPurpose.CallBound => call_bound (SlotRecord.slot r) start
          | TimerPurpose.Confirm =>
              conclude (SlotRecord.slot r) ReasonCode.Hung (clear_slot_timers (SlotRecord.slot r) start)
          | TimerPurpose.StopGrace => grace_over timer (SlotRecord.slot r) start
          | TimerPurpose.HoldRetry => restart (SlotRecord.slot r) start
          | _ => start
          end.
Proof using Hflow Hseats Hbound Hnamed Hi Hbody Hnow Harmed.
  intros <-. rewrite fired_final. unfold timer_fired. change (Emit.before start) with s.
  change (Emit.at_ start) with (Event.at_ input). by rewrite Harmed, Hnow, fired_slot.
Qed.

(** A firing of a sign of life, or of a retry: the record is untouched. *)
Lemma fired_sign_ok :
  match purpose armed with TimerPurpose.StopGrace | TimerPurpose.WindDown => False | _ => True end →
  timers_ok (Emit.state final).
Proof using Type*.
  intros Hp. pose proof Hfits as [Hw Hh]. pose proof (named_purpose _ _ _ Hnamed) as Hpn.
  pose proof (fired_now _ eq_refl) as Hfin. pose proof fired_flux as Hfl.
  rewrite fired_act in Hfl. unfold watches in Hw.
  assert (Hst : ∀ p, (fits p (RunState.slots s) i r ∧ p ≠ purpose armed) →
    watches p r = true ∧ p ≠ purpose armed) by (by intros p [[] ?]).
  revert Hp Hfin Hw Hh Hpn Hfl Hst. case_eq (purpose armed); intros; try (by destruct Hpn);
    cbn [apply_firing] in Hfl; specialize (Hfl eq_refl eq_refl); unfold watches in Hst.
  - eapply conclude_ok; [exact Hfl| |apply extends_refl|exact Hfin]. intros p [Hq Hne]%Hst.
    destruct (SlotRecord.state r); try done; by destruct p.
  - eapply quiet_ok; [exact Hfl| |apply extends_refl|exact Hfin]. intros p [Hq Hne]%Hst.
    destruct (SlotRecord.state r) as [| |? []| | | | |]; try done; by destruct p.
  - eapply conclude_ok; [| | |exact Hfin]; [eapply flux_clear_all, Hfl|done|eauto with ext].
  - unfold call_bound, slot_at in Hfin. rewrite (find_slot_ordered _ i r) in Hfin;
      [|apply Hfl|apply Hfl]. cbn [mbind option_bind] in Hfin.
    rewrite (flux_record _ _ _ _ Hfl) in Hfin. destruct (SlotRecord.blind r).
    + eapply quiet_ok; [| | |exact Hfin]; [by apply flux_clear| |eauto with ext]. intros p [[Hq Hne]%Hst Hne'].
      destruct (SlotRecord.state r) as [| |? []| | | | |]; try done; by destruct p.
    + rewrite Hfin. apply same_slots_ok. rewrite fired_act. by rewrite H.
  - eapply quiet_ok; [| | |exact Hfin]; [by apply flux_clear| |eauto with ext]. intros p [[Hq Hne]%Hst Hne'].
    destruct (SlotRecord.state r) as [| |? []| | | | |]; try done; by destruct p.
  - eapply ended_restart_ok; [apply extends_refl| | | |exact Hfin].
    + rewrite start_state, fired_act, H. by apply Hh.
    + by destruct (SlotRecord.state r).
    + eapply flux_weaken; [exact Hfl|]. intros p [Hq Hne]%Hst.
      destruct (SlotRecord.state r); try done; by destruct p.
Qed.

(** A grace, or the wind-down of a replied attempt: the ladder moves. *)
Lemma fired_ladder_ok :
  match purpose armed with TimerPurpose.StopGrace | TimerPurpose.WindDown => True | _ => False end →
  timers_ok (Emit.state final).
Proof using Type*.
  intros Hp. pose proof (fired_now _ eq_refl) as Hfin. pose proof fired_act as Hact.
  pose proof Hfits as [Hw _]. unfold apply_firing in Hact. revert Hp Hfin Hact Hw.
  case_eq (purpose armed); intros H Hp Hfin Hact Hw; try done;
    rewrite fired_record in Hact by done; rewrite <-start_state in Hact.
  - assert (Hsl : RunState.slots (Emit.state start) = alter (alter_state (ladder_mut (λ l,
      l <| Ladder.fired := grace_max (Ladder.fired l)
        (if bool_decide (grace_nth timer = Some 2) then GraceFired.Second else GraceFired.First) |>))) i
      (RunState.slots s)) by (by rewrite Hact).
    assert (Hok : timers_ok (Emit.state start)).
    { apply kept_ok. rewrite Hsl. apply Forall2_alter_move; [apply keeps_refl|]. intros x _.
      split; [done|]. intros _ p. unfold watches. cbn.
      by destruct p, (SlotRecord.state x) as [| | | | | |m es nr pr o [l|]|]. }
    set (f := alter_state _) in Hsl.
    assert (Hr : RunState.slots (Emit.state start) !! i = Some (f r))
      by (by rewrite Hsl, list_lookup_alter_eq, Hi).
    assert (Hpark : final = push (Decision.Parked (Some (SlotRecord.slot r)) ReasonCode.WouldNotStop)
      start → timers_ok (Emit.state final)).
    { clear Hfin. intros Hfin. rewrite Hfin.
      destruct (flux_parked i (f r) (λ p, fits p (RunState.slots (Emit.state start)) i (f r))
        ReasonCode.WouldNotStop start) as [c Hc].
      - apply flux_open; try done. apply on_way_ordered, start_on_way.
      - apply on_way_ordered. change (SlotRecord.slot (f r)) with (SlotRecord.slot r).
        rewrite <-Hfin. split; [by apply extends_final|apply extends_refl].
      - eapply flux_close; [exact Hc|]. intros p [Hq _]. unfold watches in Hw. revert Hq.
        unfold fits, watches. subst f. cbn.
        by destruct p, (SlotRecord.state r) as [| | | | | |m es nr pr o [l|]|]. }
    unfold grace_over in Hfin. case_match; [|by rewrite Hfin].
    case_match; [by rewrite Hfin|by apply Hpark].
  - rewrite Hfin. apply kept_ok. rewrite Hact. cbn. apply Forall2_alter_move; [apply keeps_refl|].
    intros x _. split; [done|]. intros _ p. unfold watches. cbn.
    by destruct p, (SlotRecord.state x) as [| | | | | |m es nr [] o [l|]|].
Qed.

Lemma slot_fired_ok : timers_ok (Emit.state final).
Proof using Type*.
  assert (H :
    match purpose armed with TimerPurpose.StopGrace | TimerPurpose.WindDown => False | _ => True end ∨
    match purpose armed with TimerPurpose.StopGrace | TimerPurpose.WindDown => True | _ => False end)
    by (destruct (purpose armed); auto).
  by destruct H; [apply fired_sign_ok|apply fired_ladder_ok].
Qed.
End slot_fired.

Lemma timer_ok : timers_ok (Emit.state final).
Proof using Type*.
  destruct (is_deferred s timer fired_at (Event.at_ input)) eqn:Ed; [by apply deferred_ok|].
  destruct (Htimers timer armed Harmed) as [Hr|(i & r & Hi & Hn & Hf)]; [|by eapply slot_fired_ok].
  assert (Hok : timers_ok (Emit.state start)).
  { apply same_slots_ok. unfold act_input. rewrite Hbody, Ed, Harmed.
    by destruct Hr as [[-> _]|[-> _]]. }
  rewrite fired_final. unfold timer_fired. change (Emit.before start) with s.
  change (Emit.at_ start) with (Event.at_ input). rewrite Harmed, Ed.
  destruct Hr as [[-> _]|[-> _]]; [|done].
  unfold root_period. case_match; [done|]. apply set_run_timer_ok; [by left|done].
Qed.
End fired.

(** *** Every input *)
Lemma final_ok : timers_ok (Emit.state final).
Proof using Type*.
  assert (Hc : ∃ b, Event.body input = b) by eauto. destruct Hc as [b Hb]. destruct b;
    try (by eauto using fact_ok, reply_ok, nudged_ok, stop_signalled_ok, answer_ok, resume_ok, withdrawn_ok);
    try (assert (Hok : timers_ok (Emit.state start))
           by (apply same_slots_ok; unfold act_input; rewrite Hb; by repeat case_match);
         unfold final, emit_input; rewrite Hb).
  - (* commissioned *) apply set_run_timer_ok; [by left|done].
  - (* root_opened *) case_match; try done. by apply (clear_timer_ok _ start).
  - (* claim_taken *)
    apply set_run_timer_ok; [by right|]. destruct (head _) as [first|] eqn:Eh; [|done].
    apply start_step_way_ok; [apply extends_refl| |done].
    unfold final, emit_input. rewrite Hb, Eh. eauto with ext.
  - (* claim_busy *) done.
  - (* claim_released *) unfold finished. by case_match.
  - (* tree_prepared *)
    apply arm_ready_ok; [|by apply clear_timer_ok]. apply (next_ordered start); [eauto with ext..|].
    unfold final, emit_input. rewrite Hb. eauto with ext.
  - (* tree_refused *) case_match; [|done]. by apply (clear_timer_ok _ start).
  - (* tree_parked *) done.
  - (* delivered *) done.
  - (* resume_run *)
    unfold resume_run. repeat case_match; try done; apply set_run_timer_ok; try done; [by left|by right].
  - (* timer_fired *)
    destruct (RunState.timers s !! timer) as [armed|] eqn:Ea; [by eapply timer_ok|].
    unfold final, emit_input. rewrite Hb. unfold timer_fired. change (Emit.before start) with s.
    rewrite Ea. apply same_slots_ok. unfold act_input. rewrite Hb, Ea. by case_match.
  - (* decision *) pose proof Hinput as Hd. by rewrite Hb in Hd.
  - (* unknown *) done.
Qed.
End decides.

(** One input of a run, decisions and all. *)
Lemma timers_decided n s input :
  flow_ok (RunState.def s) → seats n s → timers_ok s → is_decision (Event.body input) = false →
  n + N.of_nat (length (reduce_events s input)) < u32_max →
  timers_ok (decided s (logged_input s input)).
Proof.
  intros Hflow Hs Ht Hd. unfold reduce_events. cbn [length]. rewrite length_imap. intros Hn.
  unfold decided. destruct (ignored_reason s (logged_input s input)) eqn:Hi.
  - unfold decide, apply_input in *. rewrite Hi in *. done.
  - pose proof (final_ok n s (logged_input s input) Hflow Hs Ht Hd Hi ltac:(lia)) as Hok.
    destruct (decide_emitted s (logged_input s input) (RunState.def s) Hi) as [Heq _].
    unfold final, start in Hok. by rewrite Heq in Hok.
Qed.

(** ** Every state of a run *)
Lemma seats_initial run def n : seats n (initial run def).
Proof.
  split; try done; try (by intros; set_solver); [by intros i r [? _]|apply NoDup_nil_2].
Qed.

Lemma timers_initial run def : timers_ok (initial run def).
Proof. by intros t a. Qed.

Lemma step_fixed s events next : step s events next → RunState.def next = RunState.def s.
Proof.
  intros [input events' next' Hd Hr|at_ key next' He].
  - rewrite reduce_spec in Hr by done. case_match; simplify_eq. cbn.
    destruct (ignored_reason s (logged_input s input)) eqn:Hi.
    + unfold decided, decide, apply_input. by rewrite Hi.
    + by destruct (deciding_fixed (logged_input s input) (emit_after s (logged_input s input)
        (RunState.def s) (decide s (logged_input s input) (RunState.def s)))) as (_ & Hx & _);
        [split_and!; eauto|].
  - unfold evolve in He. cbn in He. by simplify_eq.
Qed.

Lemma seats_poison n s at_ :
  seats n s → seats n (apply_decision at_ s (Decision.Parked None ReasonCode.PoisonInput)).
Proof.
  intros Hs. apply (seats_moves n s); try done.
  - apply Forall2_refl_move, moves_refl.
  - apply Forall2_refl_move, asks_refl.
  - cbn. by destruct (RunState.phase s).
Qed.

Lemma seats_seq n s k : seats n s → seats n (s <| RunState.seq := k |>).
Proof. intros []. by split. Qed.

Lemma step_sound n s events next :
  flow_ok (RunState.def s) → step s events next → n + N.of_nat (length events) < u32_max →
  seats n s → timers_ok s → seats (n + N.of_nat (length events)) next ∧ timers_ok next.
Proof.
  intros Hflow [input events' next' Hd Hr|at_ key next' He] Hn Hs Ht.
  - rewrite reduce_spec in Hr by done. case_match; simplify_eq. split.
    + apply seats_seq, seats_decided; try done. apply (timers_armed_right n); try done. lia.
    + by apply (timers_decided n s input).
  - unfold evolve in He. cbn -[apply_decision] in He. simplify_eq. split; [|exact Ht].
    apply seats_seq. eapply (seats_mono n); [lia|]. by apply seats_poison.
Qed.

(** What holds of every state of a run of a compiled flow, while its log is shorter than [2^32 - 1]
    events. *)
Lemma run_sound run def log s :
  flow_ok def → run_of run def log s → N.of_nat (length log) < u32_max →
  RunState.def s = def ∧ seats (N.of_nat (length log)) s ∧ timers_ok s.
Proof.
  intros Hflow. induction 1 as [|log s events next Hrun IH Hstep _]; intros Hn.
  - split_and!; [done|apply seats_initial|apply timers_initial].
  - rewrite length_app in Hn. destruct IH as (Hd & Hs & Ht); [lia|].
    split; [by rewrite (step_fixed _ _ _ Hstep)|]. rewrite length_app, Nat2N.inj_add.
    apply (step_sound _ s); try done; [by rewrite Hd|lia].
Qed.
