(* ===== verification/Runs.v ===== *)
(** * What holds of every run

    The invariants of [Seats] and [Timers] hold of every state a run of a compiled flow reaches. This file
    states what they say of the code and adds what follows from them: replies stand, a finishing run only
    winds down, the budget of a seat bounds its attempts, and a pass over the ceiling needs a person. *)

From S2P Require Import Prelude Text Ids Codes Events Flow State Effects Guard Input Evolve Decide Host Examples FlowFacts Keys Spec Replay Slots Seats Timers.
From stdpp Require Import options.

(** ** Invariants that rely on the sound state before an input *)
Record sound (n : N) (s : RunState) : Prop := {
  sound_bound : n < u32_max;
  sound_flow : flow_ok (RunState.def s);
  sound_seats : seats n s;
  sound_timers : timers_ok s;
}.

Lemma run_of_sound run def log s :
  flow_ok def → run_of run def log s → N.of_nat (length log) < u32_max →
  sound (N.of_nat (length log)) s.
Proof. intros Hf Hr Hn. destruct (run_sound _ _ _ _ Hf Hr Hn) as (Hd & ? & ?). by split; rewrite ?Hd. Qed.

(** Kept by an accepted input on a sound state, and by a justified decision on the way from one. *)
Record kept (I : RunState → Prop) : Prop := {
  kept_seq s n : I s → I (s <| RunState.seq := n |>);
  kept_input n s input :
    sound n s → I s → is_decision (Event.body input) = false → ignored_reason s input = None →
    I (act_input s input);
  kept_decision n m input e d :
    sound n (Emit.before e) → I (Emit.before e) → m < u32_max → seats m (Emit.state e) →
    I (Emit.state e) → deciding input e → may input e d →
    I (apply_decision (Emit.at_ e) (Emit.state e) d);
  kept_poison s at_ : I s → I (apply_decision at_ s (Decision.Parked None ReasonCode.PoisonInput));
}.

Section kept.
Context (I : RunState → Prop) (HI : kept I).

Lemma kept_emitted n s input pre post :
  sound n s → I s → is_decision (Event.body input) = false → ignored_reason s input = None →
  decide s input (RunState.def s) = pre ++ post → n + N.of_nat (length pre) < u32_max →
  I (Emit.state (emit_after s input (RunState.def s) pre)).
Proof using Type*.
  intros Hs HIs Hd Hi. revert post. induction pre as [|d pre IH] using rev_ind; intros post Heq Hn.
  - cbn. unfold apply_input. rewrite Hi. by eapply HI.
  - rewrite <-app_assoc in Heq. rewrite length_app in Hn. cbn [length app] in *.
    destruct (decide_emitted s input (RunState.def s) Hi) as [_ Hmay].
    specialize (Hmay _ _ _ Heq). unfold emit_after in *. rewrite <-emitted_push.
    eapply (kept_decision _ HI n (n + N.of_nat (length pre)) input (emitted _ pre)); try done.
    + lia.
    + apply (seats_emitted n s input pre (d :: post)); try done; [apply Hs|apply Hs| |lia].
      by eapply (timers_armed_right n); apply Hs.
    + eapply IH; [exact Heq|lia].
    + repeat split; try done. by exists pre.
Qed.

Lemma kept_step n s events next :
  step s events next → sound n s → n + N.of_nat (length events) < u32_max → I s → I next.
Proof using Type*.
  intros [input events' next' Hd Hr|at_ key next' He] Hs Hn HIs.
  - rewrite reduce_spec in Hr by done. case_match; simplify_eq. apply HI.
    unfold reduce_events in Hn. cbn [length] in Hn. rewrite length_imap in Hn.
    unfold decided. destruct (ignored_reason s (logged_input s input)) eqn:Hi.
    + unfold decide, apply_input. by rewrite Hi.
    + eapply (kept_emitted n s (logged_input s input) _ []); try done; [by rewrite app_nil_r|lia].
  - unfold evolve in He. simpl in He. simplify_eq. by apply HI, HI.
Qed.

Lemma kept_run run def log s :
  flow_ok def → I (initial run def) → run_of run def log s → N.of_nat (length log) < u32_max → I s.
Proof using Type*.
  intros Hf H0. induction 1 as [|log s events next Hrun IH Hstep _]; intros Hn; [done|].
  rewrite length_app in Hn. eapply (kept_step (N.of_nat (length log))); [exact Hstep| |lia|].
  - eapply run_of_sound; [done..|lia].
  - apply IH. lia.
Qed.
End kept.

(** ** Runs of compiled flows *)
Record compiled_run (run : RunId) (def : FlowDef) (log : list Event) (s : RunState) : Prop := {
  run_compiled : ∃ flow review, compile flow review = Ok def;
  run_ran : run_of run def log s;
  run_short : N.of_nat (length log) < u32_max;
}.

Lemma compiled_run_sound run def log s : compiled_run run def log s → sound (N.of_nat (length log)) s.
Proof. intros [(? & ? & ?%compile_flow_ok) ? ?]. by eapply run_of_sound. Qed.

Lemma sample_compiled_run inputs :
  forallb (λ i, negb (is_decision (Event.body i))) inputs = true →
  N.of_nat (length (opening_log (tail opening ++ inputs))) < u32_max →
  compiled_run sample_run sample_def (opening_log (tail opening ++ inputs)) (walk running_state inputs).
Proof. intros Hd Hn. split; [|by apply running_walk_run|done]. eauto using compile_sample. Qed.

Lemma running_compiled_run :
  compiled_run sample_run sample_def (opening_log (tail opening)) running_state.
Proof.
  split; [eauto using compile_sample| |vm_compute; reflexivity].
  unfold running_state. apply (opening_run (tail opening)). reflexivity.
Qed.

(** C16: attempts are told apart and follow each other. In every state a run of a compiled flow reaches, no
    slot occurs twice; of two attempts of one seat the later one has the higher number and the earlier one
    is over; and every attempt that is its seat's latest and has not settled belongs to the step and the
    visit the run stands on. *)
Theorem attempts_in_order run def log s :
  compiled_run run def log s →
  NoDup (SlotRecord.slot <$> RunState.slots s) ∧
  (∀ i j r1 r2, (i < j)%nat → RunState.slots s !! i = Some r1 → RunState.slots s !! j = Some r2 →
     seat r1 = seat r2 →
     slot_attempt (SlotRecord.slot r1) < slot_attempt (SlotRecord.slot r2) ∧
     over (SlotRecord.state r1) = true) ∧
  (∀ r, r ∈ RunState.slots s → is_superseded s r = false → settled (SlotRecord.state r) = false →
     RunState.current_step s = Some (slot_step (SlotRecord.slot r)) ∧
     RunState.visits s !! slot_step (SlotRecord.slot r) = Some (slot_visit (SlotRecord.slot r))).
Proof.
  intros [_ _ Hs _]%compiled_run_sound. pose proof (seats_order _ _ Hs) as Ho. split_and!.
  - apply NoDup_alt. intros i j slot. rewrite !list_lookup_fmap.
    intros (r1 & Hi & ->)%fmap_Some (r2 & Hj & Heq)%fmap_Some.
    by destruct (in_order_slot_inj _ Ho i j r1 r2 Hi Hj Heq).
  - exact Ho.
  - intros r [i Hi]%list_elem_of_lookup Hsup Hun. eapply (seats_open _ _ Hs); [|done].
    by apply superseded_last.
Qed.

Lemma attempts_in_order_witness :
  NoDup (SlotRecord.slot <$> RunState.slots reviewing_state) ∧
  (∀ i j r1 r2, (i < j)%nat → RunState.slots reviewing_state !! i = Some r1 →
     RunState.slots reviewing_state !! j = Some r2 → seat r1 = seat r2 →
     slot_attempt (SlotRecord.slot r1) < slot_attempt (SlotRecord.slot r2) ∧
     over (SlotRecord.state r1) = true) ∧
  (∀ r, r ∈ RunState.slots reviewing_state → is_superseded reviewing_state r = false →
     settled (SlotRecord.state r) = false →
     RunState.current_step reviewing_state = Some (slot_step (SlotRecord.slot r)) ∧
     RunState.visits reviewing_state !! slot_step (SlotRecord.slot r) =
       Some (slot_visit (SlotRecord.slot r))).
Proof.
  apply (attempts_in_order sample_run sample_def (opening_log (tail opening ++
    [reply_input 6000 coder_key false false; ended_input 7000 coder_key EndCause.TurnComplete]))).
  apply sample_compiled_run; vm_compute; reflexivity.
Defined.

(** C17: every armed timer watches what it is about. In every state a run of a compiled flow reaches, a
    timer is one of the run's own two, or its id reads back to an attempt of the run that is in the state
    the timer's purpose watches: a start deadline an attempt that is starting, a quiet timer one that is
    running with no call open, a grace one whose ladder stands, and so on; and the retry of a hold is armed
    only for a seat's latest attempt while it is held. *)
Theorem timers_watch run def log s t a :
  compiled_run run def log s → RunState.timers s !! t = Some a →
  run_timer t (purpose a) ∨
  ∃ r, r ∈ RunState.slots s ∧ timer_slot t = Some (SlotRecord.slot r) ∧ watches (purpose a) r = true ∧
    (purpose a = TimerPurpose.HoldRetry → is_superseded s r = false).
Proof.
  intros [Hn Hf Hs Ht]%compiled_run_sound Ha.
  destruct (Ht t a Ha) as [|(i & r & Hi & Hnm & Hw & Hh)]; [by left|right]. exists r.
  assert (Hr : r ∈ RunState.slots s) by (by eapply list_elem_of_lookup_2). split_and!; try done.
  - eapply named_slot; [|done]. eapply (seats_slot_ok _ s); eauto. lia.
  - intros Hp. apply superseded_last with i; auto. apply (seats_order _ _ Hs).
Qed.

Lemma timers_watch_witness :
  let t := slot_timer TimerPurpose.StartDeadline (MkSlot "check" 1 "reader" 1) in
  run_timer t TimerPurpose.StartDeadline ∨
  ∃ r, r ∈ RunState.slots reviewing_state ∧ timer_slot t = Some (SlotRecord.slot r) ∧
    watches TimerPurpose.StartDeadline r = true ∧
    (TimerPurpose.StartDeadline = TimerPurpose.HoldRetry → is_superseded reviewing_state r = false).
Proof.
  apply (timers_watch sample_run sample_def (opening_log (tail opening ++
    [reply_input 6000 coder_key false false; ended_input 7000 coder_key EndCause.TurnComplete]))
    reviewing_state _ (MkArmedTimer 186000 TimerPurpose.StartDeadline)).
  - apply sample_compiled_run; vm_compute; reflexivity.
  - vm_compute. reflexivity.
Defined.

(** C39: open questions stand. In every state a run of a compiled flow reaches, no two questions share a
    key; an open escalation is about a seat's latest attempt, which has replied and has not settled; while
    a ceiling is open every seat's latest attempt has settled; and only one ceiling is open at a time. *)
Theorem questions_stand run def log s :
  compiled_run run def log s →
  NoDup (Question.id <$> RunState.questions s) ∧
  (∀ q slot m, q ∈ open_questions s → Question.asked q = Asked.Escalation slot m →
     ∃ r, latest s (slot_step slot) (slot_visit slot) (slot_member slot) = Some r ∧
       SlotRecord.slot r = slot ∧ is_replied (SlotRecord.state r) = true ∧
       settled (SlotRecord.state r) = false) ∧
  (∀ q step pass m, q ∈ open_questions s → Question.asked q = Asked.Ceiling step pass m →
     ∀ r, r ∈ RunState.slots s → is_superseded s r = false → settled (SlotRecord.state r) = true) ∧
  (∀ q q' step pass m step' pass' m', q ∈ open_questions s → q' ∈ open_questions s →
     Question.asked q = Asked.Ceiling step pass m → Question.asked q' = Asked.Ceiling step' pass' m' →
     q = q').
Proof.
  intros [_ _ Hs _]%compiled_run_sound. split_and!.
  - apply Hs.
  - intros q slot m [Hop Hq]%list_elem_of_filter Ha.
    destruct (seats_escalation _ _ Hs q slot m Hq Ha) as [_ (i & r & Hi & <- & Hre & Hl)].
    destruct (Hl Hop) as [Hla Hun]. exists r. split_and!; try done. apply latest_Some. eauto.
  - intros q step pass m [Hop Hq]%list_elem_of_filter Ha r [i Hi]%list_elem_of_lookup Hsup.
    destruct (seats_ceiling _ _ Hs q step pass m Hq Ha) as (visit & v & _ & _ & _ & _ & Hall).
    eapply Hall; [done|]. apply superseded_last; [apply (seats_order _ _ Hs)|done..].
  - intros q q' step pass m step' pass' m' [Hop Hq]%list_elem_of_filter [Hop' Hq']%list_elem_of_filter.
    intros. by eapply (seats_one_ceiling _ _ Hs).
Qed.

Lemma questions_stand_witness :
  NoDup (Question.id <$> RunState.questions asking_state) ∧
  (∀ q slot m, q ∈ open_questions asking_state → Question.asked q = Asked.Escalation slot m →
     ∃ r, latest asking_state (slot_step slot) (slot_visit slot) (slot_member slot) = Some r ∧
       SlotRecord.slot r = slot ∧ is_replied (SlotRecord.state r) = true ∧
       settled (SlotRecord.state r) = false) ∧
  (∀ q step pass m, q ∈ open_questions asking_state → Question.asked q = Asked.Ceiling step pass m →
     ∀ r, r ∈ RunState.slots asking_state → is_superseded asking_state r = false →
     settled (SlotRecord.state r) = true) ∧
  (∀ q q' step pass m step' pass' m', q ∈ open_questions asking_state →
     q' ∈ open_questions asking_state →
     Question.asked q = Asked.Ceiling step pass m → Question.asked q' = Asked.Ceiling step' pass' m' →
     q = q').
Proof.
  apply (questions_stand sample_run sample_def (opening_log (tail opening ++ asking_inputs))).
  apply sample_compiled_run; vm_compute; reflexivity.
Defined.

(** ** An attempt only goes forward *)
Definition rank (st : SlotState) : N :=
  match st with
  | SlotState.Pending => 0
  | SlotState.Starting _ => 1
  | SlotState.Running _ _ | SlotState.Quiet _ _ | SlotState.Nudged _ _ => 2
  | SlotState.Stopping _ (AfterStop.Restart _) => 3
  | SlotState.Stopping _ AfterStop.Nothing | SlotState.Ended _ | SlotState.Replied _ _ _ _ _ _ => 4
  end.

(** The rank does not fall, and a reply stays the reply it is. *)
Definition forward (st st' : SlotState) : Prop :=
  rank st ≤ rank st' ∧
  ∀ message escalate needs_rework process overdue ladder,
    st = SlotState.Replied message escalate needs_rework process overdue ladder →
    ∃ process' overdue' ladder',
      st' = SlotState.Replied message escalate needs_rework process' overdue' ladder'.

Lemma forward_refl st : forward st st.
Proof. split; [lia|]. naive_solver. Qed.

Lemma forward_trans st1 st2 st3 : forward st1 st2 → forward st2 st3 → forward st1 st3.
Proof. intros [H1 H1'] [H2 H2']. split; [lia|]. naive_solver. Qed.

Ltac forward_cases :=
  split; cbn in *; try lia; intros; simplify_eq; eauto.

Lemma forward_ladder f st : forward st (ladder_mut f st).
Proof. destruct st as [| | | | |? []| |]; forward_cases. Qed.

Lemma forward_reply_stop at_ forced st : forward st (start_reply_stop at_ forced st).
Proof. destruct st as [| | | | |? []| |]; forward_cases. Qed.

Lemma input_move_forward s input r r' :
  input_move s input r r' → forward (SlotRecord.state r) (SlotRecord.state r').
Proof.
  destruct 1 as [|key Hb Hk|key nth kind Hb Hk|key fact Hb Hk Hacc|key m es nr rew Hb Hk Hacc
    |named Hb Hc Hs|m by_ Hb|timer fired_at fired Hb Ht|timer fired_at Hb Ht].
  - apply forward_refl.
  - cbn. destruct (SlotRecord.state r) as [| | | | |? []| |]; forward_cases.
  - apply forward_ladder.
  - destruct r as [sl st]; destruct st as [| | | | |? []| |];
      destruct fact as [|[]| | | |[]|]; cbn in *; try done; try (case_match; try done); forward_cases.
  - cbn. unfold reply_ignored in Hacc. destruct (SlotRecord.state r) as [| | | | |? []| |]; cbn in *;
      try done; repeat (case_match; try done); forward_cases.
  - unfold resume_record. destruct (is_would_not_stop r); cbn; [apply forward_ladder|apply forward_refl].
  - unfold withdraw_record. case_match; apply forward_ladder.
  - apply forward_ladder.
  - apply forward_reply_stop.
Qed.

(** What a timer that is armed on a sound state says of the record it names. *)
Lemma armed_watches n s t a slot i r :
  sound n s → RunState.timers s !! t = Some a → timer_slot t = Some slot →
  RunState.slots s !! i = Some r → SlotRecord.slot r = slot →
  watches (purpose a) r = true ∧ (purpose a = TimerPurpose.HoldRetry → last_of (RunState.slots s) i r).
Proof.
  intros [Hn Hf Hs Ht] Ha Hts Hi Hsl.
  destruct (Ht t a Ha) as [[[_ ->]|[_ ->]]|(j & x & Hj & Hnm & Hw)].
  - by rewrite timer_slot_root in Hts.
  - by rewrite timer_slot_tree in Hts.
  - rewrite (named_slot _ _ _ ltac:(eapply (seats_slot_ok _ s); eauto using list_elem_of_lookup_2; lia)
      Hnm) in Hts. simplify_eq.
    by destruct (in_order_slot_inj _ (seats_order _ _ Hs) j i x r Hj Hi) as [-> ->].
Qed.

Lemma liveness_forward n m input e slot reason since forced r :
  sound n (Emit.before e) → seats m (Emit.state e) → deciding input e →
  liveness_reason input e slot reason → r ∈ RunState.slots (Emit.state e) → SlotRecord.slot r = slot →
  forward (SlotRecord.state r) (liveness_state reason since forced (SlotRecord.state r)).
Proof.
  intros Hso Hs Hd Hl Hr Hsl. pose proof Hso as [Hn Hf Hs0 Ht].
  assert (Ho : over (SlotRecord.state r) = false).
  { eapply (liveness_not_over (N.max n m) input e); eauto.
    - eapply (seats_mono n); [lia|done].
    - by apply (timers_armed_right n).
    - eapply (seats_mono m); [lia|done]. }
  assert (Hq : reason = ReasonCode.Quiet → rank (SlotRecord.state r) ≤ 2).
  { intros Hq. destruct Hl as [timer fired_at armed reason Hb Ha _ Hfo Hts Hv|]; [|done].
    destruct Hfo as [Hfo _]. rewrite (fired_slots _ _ _ _ _ Hb Ha) in Hfo by eauto.
    rewrite Hfo in Hr. apply list_elem_of_lookup in Hr as [i Hi].
    destruct (armed_watches _ _ _ _ _ _ _ Hso Ha Hts Hi Hsl) as [Hw _].
    unfold watches in Hw. destruct (purpose armed), (SlotRecord.state r);
      simplify_eq/=; try done; lia. }
  unfold liveness_state. destruct (bool_decide_reflect (reason = ReasonCode.Quiet)) as [->|].
  - split; [by apply Hq|]. intros ? ? ? ? ? ? Hst. by rewrite Hst in Ho.
  - split; [destruct (SlotRecord.state r) as [| | | | |? []| |]; try done; cbn; lia|].
    intros ? ? ? ? ? ? Hst. by rewrite Hst in Ho.
Qed.

Lemma decision_move_forward n m input e d r r' :
  sound n (Emit.before e) → seats m (Emit.state e) → deciding input e → may input e d →
  r ∈ RunState.slots (Emit.state e) → decision_move (Emit.state e) (Emit.at_ e) d r r' →
  forward (SlotRecord.state r) (SlotRecord.state r').
Proof.
  intros Hso Hs Hd Hmay Hr Hm.
  destruct Hm as [|timer fire_at ->|reason since ->|reason until resets ->|reason ->|o reason ->].
  - apply forward_refl.
  - cbn. destruct (SlotRecord.state r) as [| | | | |? []| |]; forward_cases.
  - inversion Hmay; subst. by eapply (liveness_forward n m).
  - unfold hold_record. destruct resets; apply forward_refl.
  - apply forward_refl.
  - cbn. destruct (SlotRecord.state r) as [| | | | |? []| |]; forward_cases.
Qed.

Definition gone_forward (i : nat) (r : SlotRecord) (s : RunState) : Prop :=
  ∃ r', RunState.slots s !! i = Some r' ∧ SlotRecord.slot r' = SlotRecord.slot r ∧
    forward (SlotRecord.state r) (SlotRecord.state r').

Lemma gone_forward_kept i r : kept (gone_forward i r).
Proof.
  split.
  - done.
  - intros n s input _ (r1 & Hr1 & Hs1 & Hf1) _ Hi.
    destruct (Forall2_lookup_l _ _ _ _ _ (act_input_slots s input Hi) Hr1) as (r2 & Hr2 & Hm).
    exists r2. split_and!; [done| |].
    + by rewrite (moves_slot _ _ (input_move_moves _ _ _ _ Hm)).
    + eapply forward_trans; [done|by eapply input_move_forward].
  - intros n m input e d Hso _ Hm Hs (r1 & Hr1 & Hs1 & Hf1) Hd Hmay.
    destruct (apply_decision_slots (Emit.at_ e) (Emit.state e) d) as (k & new & Heq & Hk & _).
    destruct (Forall2_lookup_l _ _ _ _ _ Hk Hr1) as (r2 & Hr2 & Hmv). exists r2.
    rewrite Heq. split_and!; [by apply lookup_app_l_Some| |].
    + rewrite <-Hs1. destruct Hmv; try done. unfold hold_record. by destruct resets_at.
    + eapply forward_trans; [done|]. eapply (decision_move_forward n m); eauto.
      by eapply list_elem_of_lookup_2.
  - done.
Qed.

(** C40: the books of a run only grow, and an attempt only goes forward. One step of a run of a compiled
    flow, whatever input or poisoned row it consumes, keeps every attempt at its place and with its slot,
    never takes it back to an earlier stage of its life (waiting, starting, running, being stopped for a
    restart, over), and never changes or loses a reply that was counted. *)
Theorem attempts_go_forward run def log s events next i r :
  compiled_run run def log s → step s events next →
  N.of_nat (length (log ++ events)) < u32_max → RunState.slots s !! i = Some r →
  ∃ r', RunState.slots next !! i = Some r' ∧ SlotRecord.slot r' = SlotRecord.slot r ∧
    forward (SlotRecord.state r) (SlotRecord.state r').
Proof.
  intros Hs%compiled_run_sound Hstep Hn Hi. rewrite length_app in Hn.
  eapply (kept_step _ (gone_forward_kept i r)); [done|done|lia|]. exists r.
  split_and!; try done. apply forward_refl.
Qed.

Lemma reduce_Some s input events next : reduce s input = Some (events, next) → events = reduce_events s input.
Proof. unfold reduce. case_match; naive_solver. Qed.

Lemma attempts_go_forward_witness :
  ∃ events next r r', reduce running_state (reply_input 6000 coder_key false false) =
      Some (events, next) ∧ RunState.slots running_state !! 0%nat = Some r ∧
    RunState.slots next !! 0%nat = Some r' ∧ SlotRecord.slot r' = SlotRecord.slot r ∧
    forward (SlotRecord.state r) (SlotRecord.state r').
Proof.
  destruct (reduce running_state (reply_input 6000 coder_key false false)) as [[events next]|] eqn:E;
    [|by vm_compute in E].
  destruct (RunState.slots running_state !! 0%nat) as [r|] eqn:Er; [|by vm_compute in Er].
  destruct (attempts_go_forward sample_run sample_def (opening_log (tail opening))
    running_state events next 0 r) as (r' & Hr' & Hs & Hf).
  - apply running_compiled_run.
  - exact (step_input _ (reply_input 6000 coder_key false false) events next eq_refl E).
  - rewrite (reduce_Some _ _ _ _ E). vm_compute. reflexivity.
  - exact Er.
  - exists events, next, r, r'. exact (conj eq_refl (conj eq_refl (conj Hr' (conj Hs Hf)))).
Defined.

(** ** A finishing run only winds down *)
Definition wound (r : SlotRecord) : Prop :=
  over (SlotRecord.state r) = true ∧ (is_Some (SlotRecord.condition r) → is_would_not_stop r = true).

Definition ending (s : RunState) : Prop :=
  match RunState.phase s with Phase.Finishing _ _ _ | Phase.Finished _ _ => True | _ => False end.

Definition winding_down (s : RunState) : Prop :=
  (ending s → Forall wound (RunState.slots s)) ∧ (is_finished s = true → any_live s = false).

Lemma input_move_condition s input r r' :
  input_move s input r r' →
  SlotRecord.condition r' = None ∨ SlotRecord.condition r' = SlotRecord.condition r.
Proof.
  destruct 1; auto.
  - destruct r as [sl st]; destruct st; destruct fact as [|[]| | | |[]|]; cbn in *; auto;
      repeat (case_match; auto).
  - unfold resume_record. destruct (is_would_not_stop r); auto.
  - unfold withdraw_record. case_match; auto.
Qed.

Lemma input_move_wound s input r r' : input_move s input r r' → wound r → wound r'.
Proof.
  intros Hm [Ho Hc]. split; [by apply (moves_over _ _ (input_move_moves _ _ _ _ Hm))|].
  unfold is_would_not_stop in *. destruct (input_move_condition _ _ _ _ Hm) as [-> | ->]; [by intros []|done].
Qed.

Lemma act_input_ending s input :
  ignored_reason s input = None → ending (act_input s input) → ending s ∧ is_finished s = false.
Proof.
  intros Hi He. split.
  - unfold ending in *. destruct (act_input_phase s input) as [Hp|[(? & ? & _ & Hp)|(? & ? & ? & ? & _ & Hp & _)]];
      by rewrite Hp in *.
  - unfold ignored_reason in Hi. by destruct (is_finished s).
Qed.

(** Before it touches a slot, the list of an ending run began on an ending run. *)
Lemma folded_ending input e :
  deciding input e → slots_folded input e → ending (Emit.state e) →
  ending (Emit.before e) ∧ is_finishing (Emit.before e) = true.
Proof.
  intros Hd [_ Hp] He. pose proof Hd as (_ & Hi & _).
  assert (He' : ending (act_input (Emit.before e) input)).
  { unfold ending in *. by rewrite Hp, (accepted_input input e Hd) in He. }
  destruct (act_input_ending _ _ Hi He') as [Hb Hf]. split; [done|].
  unfold ending, is_finishing, is_finished in *. by destruct (RunState.phase (Emit.before e)).
Qed.

Section ending.
Context (n m : N) (input : Event) (e : Emit).
Hypothesis Hsound : sound n (Emit.before e).
Hypothesis Hbefore : winding_down (Emit.before e).
Hypothesis Hseats : seats m (Emit.state e).
Hypothesis Hdeciding : deciding input e.
Hypothesis Hending : ending (Emit.state e).

Lemma ending_refused : is_finishing (Emit.before e) = true →
  match Event.body input with
  | EventBody.ClaimTaken | EventBody.Answer _ _ _ | EventBody.Resume _ => False
  | _ => True
  end.
Proof using Hdeciding.
  intros Hf. destruct Hdeciding as (_ & Hi & _). unfold ignored_reason in Hi. rewrite Hf in Hi.
  destruct (is_finished (Emit.before e)); [done|]. by destruct (Event.body input).
Qed.

Lemma ending_no_end slot r cause : just_ended input e slot r cause → False.
Proof using Type*.
  intros [key i r0 _ Hf Hr0 _ Ho _ _ _ _]. destruct (folded_ending _ _ Hdeciding Hf Hending) as [He _].
  destruct Hbefore as [Hw _]. specialize (Hw He). rewrite Forall_forall in Hw.
  destruct (Hw r0) as [Ho' _]; [by eapply list_elem_of_lookup_2|]. congruence.
Qed.

Lemma ending_no_reply step visit d bits : step_complete input e step visit d bits → False.
Proof using Type*.
  intros [Hf _ Hr _ _ _ _]. destruct Hr as (? & ? & ? & ? & i & r0 & _ & Hr0 & Hri & _ & _).
  destruct (folded_ending _ _ Hdeciding Hf Hending) as [_ Hfin]. unfold reply_ignored in Hri.
  rewrite Hfin in Hri. by repeat case_match.
Qed.

Lemma ending_no_start step visit attempt members :
  may input e (Decision.StepStarted step visit attempt members) → False.
Proof using Type*.
  intros Hmay. inversion Hmay as [| | |st d Hv Hd|slot Ha|st vi d bits Hc Hh Hl| | | | | | | | | | | | | | | |];
    subst; [| |by eapply ending_no_reply].
  - destruct Hv as [d' Hb [Hf _] _ _|from v d' bits [Hc _] _ _|from v d' bits pass [Hc _] _
      |question message q from pass mm Hb [Hf _] _ _ _|question message q from pass mm d' Hb [Hf _] _ _ _ _];
      try (by eapply ending_no_reply);
      destruct (folded_ending _ _ Hdeciding Hf Hending) as [_ Hfin]; apply ending_refused in Hfin;
      by rewrite Hb in Hfin.
  - destruct Ha as [r cause Hj _|q message question disposition Hb [Hf _] _ _ _
      |named i r Hb Hf _ _ _ _ _|timer fired_at armed Hb Hf Hti Hp Hts].
    + by eapply ending_no_end.
    + destruct (folded_ending _ _ Hdeciding Hf Hending) as [_ Hfin]. apply ending_refused in Hfin.
      by rewrite Hb in Hfin.
    + destruct (folded_ending _ _ Hdeciding Hf Hending) as [_ Hfin]. apply ending_refused in Hfin.
      by rewrite Hb in Hfin.
    + destruct (folded_ending _ _ Hdeciding Hf Hending) as [He _].
      destruct Hbefore as [Hw _]. specialize (Hw He). rewrite Forall_forall in Hw.
      destruct (sound_timers _ _ Hsound timer armed Hti) as [[[? _]|[? _]]|(i & r & Hi & _ & Hwa & _)];
        [congruence..|]. destruct (Hw r) as [_ Hc]; [by eapply list_elem_of_lookup_2|].
      rewrite Hp in Hwa. unfold watches, is_would_not_stop in *.
      destruct (SlotRecord.state r); try done. destruct (SlotRecord.condition r) as [[]|]; try done.
      by specialize (Hc ltac:(eauto)).
Qed.

Lemma ending_wound d r r' :
  may input e d → r ∈ RunState.slots (Emit.state e) → wound r →
  decision_move (Emit.state e) (Emit.at_ e) d r r' → wound r'.
Proof using Type*.
  intros Hmay Hr [Ho Hc] Hm.
  destruct Hm as [|timer fire_at ->|reason since ->|reason until resets ->|reason ->|o reason ->].
  - done.
  - split; [|done]. cbn. by destruct (SlotRecord.state r).
  - exfalso. inversion Hmay; subst. pose proof Hsound as [Hn Hf Hs Ht].
    assert (over (SlotRecord.state r) = false); [|congruence].
    eapply (liveness_not_over (N.max n m) input e); eauto.
    + eapply (seats_mono n); [lia|done].
    + by apply (timers_armed_right n).
    + eapply (seats_mono m); [lia|done].
  - exfalso. inversion Hmay; subst. by eapply ending_no_end.
  - inversion Hmay as [| | | | | | | | | | | | | | |? ? Hp| | | | | |]; subst.
    destruct Hp; try (exfalso; by eapply ending_no_end). split; [done|].
    intros _. unfold is_would_not_stop. cbn. by apply bool_decide_eq_true.
  - split; cbn; [by destruct (SlotRecord.state r) as [| | | | |? []| |]|by intros []].
Qed.

(** A decision about an attempt that is over does not change its state. *)
Lemma ending_state d r r' :
  may input e d → r ∈ RunState.slots (Emit.state e) → wound r →
  decision_move (Emit.state e) (Emit.at_ e) d r r' → SlotRecord.state r' = SlotRecord.state r.
Proof using Type*.
  intros Hmay Hr [Ho Hc] Hm. pose proof Hm as Hm'.
  destruct Hm as [|timer fire_at ->|reason since ->|reason until resets ->|reason ->|o reason ->];
    try done; try (by cbn; destruct (SlotRecord.state r) as [| | | | |? []| |]).
  - exfalso. inversion Hmay; subst. pose proof Hsound as [Hn Hf Hs Ht].
    assert (over (SlotRecord.state r) = false); [|congruence].
    eapply (liveness_not_over (N.max n m) input e); eauto.
    + eapply (seats_mono n); [lia|done].
    + by apply (timers_armed_right n).
    + eapply (seats_mono m); [lia|done].
  - unfold hold_record. by destruct resets.
Qed.

(** Nothing is started: the attempts of an ending run are the ones it has. *)
Lemma ending_slots d :
  may input e d → Forall wound (RunState.slots (Emit.state e)) →
  Forall2 (λ r r', SlotRecord.slot r' = SlotRecord.slot r ∧ SlotRecord.state r' = SlotRecord.state r ∧
      wound r')
    (RunState.slots (Emit.state e)) (RunState.slots (apply_decision (Emit.at_ e) (Emit.state e) d)).
Proof using Type*.
  intros Hmay Hw. rewrite Forall_forall in Hw.
  destruct (apply_decision_slots (Emit.at_ e) (Emit.state e) d) as (k & new & -> & Hk & Hnew).
  assert (new = []) as ->.
  { destruct d; try done. exfalso. by eapply ending_no_start. }
  rewrite app_nil_r. apply Forall2_same_length_lookup_2; [by eapply Forall2_length|].
  intros i r r' Hr Hr'. pose proof (Forall2_lookup_lr _ _ _ _ _ _ Hk Hr Hr') as Hmv.
  apply list_elem_of_lookup_2 in Hr. split_and!.
  - destruct Hmv; try done. unfold hold_record. by destruct resets_at.
  - eapply ending_state; eauto.
  - eapply ending_wound; eauto.
Qed.
End ending.

Lemma any_live_same s s' :
  Forall2 (λ r r', SlotRecord.slot r' = SlotRecord.slot r ∧ SlotRecord.state r' = SlotRecord.state r ∧
      wound r') (RunState.slots s) (RunState.slots s') → any_live s' = any_live s.
Proof.
  unfold any_live. induction 1 as [|r r' l l' (_ & Hst & _) _ IH]; [done|]. cbn. by rewrite Hst, IH.
Qed.

Lemma act_input_winding s input :
  ignored_reason s input = None → winding_down s → winding_down (act_input s input).
Proof.
  intros Hi [Hw _]. split.
  - intros He. destruct (act_input_ending _ _ Hi He) as [Hs _]. specialize (Hw Hs).
    rewrite Forall_forall in *. intros r' [i Hr']%list_elem_of_lookup.
    destruct (Forall2_lookup_r _ _ _ _ _ (act_input_slots s input Hi) Hr') as (r & Hr & Hm).
    eapply input_move_wound; [done|]. by eapply Hw, list_elem_of_lookup_2.
  - intros Hf. destruct (act_input_ending s input Hi) as [_ Hn].
    { unfold ending, is_finished in *. by destruct (RunState.phase (act_input s input)). }
    unfold is_finished in Hf, Hn.
    destruct (act_input_phase s input) as [Hp|[(? & ? & _ & Hp)|(? & ? & ? & ? & _ & _ & Hp)]];
      rewrite Hp in Hf; [congruence|done|done].
Qed.

(** A run finishes only when no process of it may be left. *)
Lemma finished_not_live input e o reason :
  deciding input e → may input e (Decision.Finished o reason) → any_live (Emit.state e) = false.
Proof.
  intros Hd Hmay.
  inversion Hmay as [| | | | | | | | | | | | | | | | | | | | |o' reason' tree Hb Hp [Hf _]]; subst.
  rewrite (accepted_input _ _ Hd) in Hf. destruct Hd as (_ & Hi & _).
  unfold act_input in Hf. rewrite Hb in Hf. unfold any_live. rewrite Hf.
  unfold ignored_reason in Hi. rewrite Hb in Hi. destruct (is_finished (Emit.before e)); [done|].
  unfold ready_to_release in Hi. repeat case_match; try done. unfold any_live in *.
  by destruct (existsb _ _).
Qed.

(** How a decision moves a run in and out of its end. *)
Lemma decision_ending input e d :
  may input e d →
  let s' := apply_decision (Emit.at_ e) (Emit.state e) d in
  (ending s' → ending (Emit.state e) ∨ ∃ o reason, d = Decision.Finishing o reason) ∧
  (is_finished s' = true →
     is_finished (Emit.state e) = true ∨ (∃ o reason, d = Decision.Finished o reason)) ∧
  (ending (Emit.state e) → ending s').
Proof.
  intros Hmay. cbn zeta. unfold ending, is_finished. rewrite apply_decision_phase.
  destruct Hmay; try (by split_and!; eauto);
    repeat match goal with
    | H : ∃ _, RunState.phase _ = _ |- _ => destruct H as [? H]
    | H : RunState.phase _ = _ |- _ => rewrite H
    end; try (by split_and!; eauto); destruct (RunState.phase (Emit.state e)); by split_and!; eauto.
Qed.

Lemma winding_down_kept : kept winding_down.
Proof.
  split.
  - done.
  - intros n s input _ Hw _ Hi. by apply act_input_winding.
  - intros n m input e d Hso Hb Hm Hs [Hw Hfin] Hd Hmay.
    assert (Hsame : ending (Emit.state e) → Forall2 (λ r r', SlotRecord.slot r' = SlotRecord.slot r ∧
        SlotRecord.state r' = SlotRecord.state r ∧ wound r') (RunState.slots (Emit.state e))
        (RunState.slots (apply_decision (Emit.at_ e) (Emit.state e) d))).
    { intros He. apply (ending_slots n m input e); auto. }
    destruct (decision_ending _ _ _ Hmay) as (Hin & Hdone & _). split.
    + intros [He|(o & reason & ->)]%Hin.
      * apply Forall_forall. intros r' [i Hr']%list_elem_of_lookup.
        by destruct (Forall2_lookup_r _ _ _ _ _ (Hsame He) Hr') as (r & _ & _ & _ & ?).
      * cbn. apply Forall_fmap, Forall_true. intros r. split; cbn; [|by intros []].
        by destruct (SlotRecord.state r) as [| | | | |? []| |].
    + intros [Hf|(o & reason & ->)]%Hdone; [|by apply (finished_not_live input e o reason)].
      rewrite (any_live_same (Emit.state e)); [auto|]. apply Hsame.
      unfold ending, is_finished in *. by destruct (RunState.phase (Emit.state e)).
  - intros s at_ [Hw Hf]. split; [exact Hw|exact Hf].
Qed.

Lemma winding_down_initial run def : winding_down (initial run def).
Proof. by split. Qed.

Lemma run_winding_down run def log s : compiled_run run def log s → winding_down s.
Proof.
  intros [(? & ? & Hf%compile_flow_ok) Hr Hn].
  eapply (kept_run _ winding_down_kept); eauto using winding_down_initial.
Qed.

(** The attempts a run had when it began to end. *)
Definition ends_with_slots (slots : list Slot) (s : RunState) : Prop :=
  ending s ∧ winding_down s ∧ SlotRecord.slot <$> RunState.slots s = slots.

Lemma ends_with_slots_kept slots : kept (ends_with_slots slots).
Proof.
  assert (Hsame : ∀ l l', Forall2 (λ r r', SlotRecord.slot r' = SlotRecord.slot r) l l' →
    SlotRecord.slot <$> l' = SlotRecord.slot <$> l)
    by (induction 1; csimpl; congruence).
  split.
  - done.
  - intros n s input _ (He & Hw & <-) _ Hi. split_and!.
    + unfold ending in *.
      destruct (act_input_phase s input) as [->|[(? & ? & Hb & _)|(? & ? & ? & ? & _ & _ & ->)]]; try done.
      unfold ignored_reason in Hi. rewrite Hb in Hi. unfold is_finished, is_finishing in Hi.
      destruct (RunState.phase s); cbn in *; done.
    + by apply act_input_winding.
    + apply Hsame. eapply Forall2_impl; [by apply act_input_slots|].
      intros r r' Hm. by apply (moves_slot _ _ (input_move_moves _ _ _ _ Hm)).
  - intros n m input e d Hso (_ & Hb & _) Hm Hs (He & Hw & <-) Hd Hmay. split_and!.
    + by apply (decision_ending _ _ _ Hmay).
    + by eapply (kept_decision _ winding_down_kept).
    + apply Hsame. destruct Hw as [Hw _].
      eapply Forall2_impl; [by apply (ending_slots n m input e); auto|]. by intros r r' (? & _).
  - intros s at_ (He & [Hw Hf] & Hsl). split_and!; [exact He|split; [exact Hw|exact Hf]|exact Hsl].
Qed.

(** The effects that take a run apart. *)
Definition winds (eff : Effect) : bool :=
  match eff with
  | Effect.StopSession _ _ _ | Effect.ParkTree _ _ | Effect.ReleaseClaim _ | Effect.Deliver _ _ _ => true
  | _ => false
  end.

Lemma stop_effect_winds r key eff : stop_effect r key = Some eff → winds eff = true.
Proof. by intros (l & _ & (k & _ & [= <-])%bind_Some)%bind_Some. Qed.

Lemma deliver_effects_winds s eff : eff ∈ deliver_effects s → winds eff = true.
Proof. by intros (d & -> & _)%list_elem_of_fmap. Qed.

Lemma ending_effects s eff : ending s → eff ∈ pending_effects s → winds eff = true.
Proof.
  unfold ending, pending_effects. destruct (RunState.phase s) as [| | |o reason tree|]; try done;
    [|by intros _ ?%elem_of_nil].
  intros _. unfold finishing_effects. case_match.
  - intros (r & _ & ?)%list_elem_of_omap. by eapply stop_effect_winds.
  - destruct tree; [by intros ->%list_elem_of_singleton|].
    destruct (deliver_effects s) eqn:Ed; [by intros ->%list_elem_of_singleton|].
    rewrite <-Ed. apply deliver_effects_winds.
Qed.

(** C28: a run that is finishing only winds down. From the moment a run of a compiled flow is finishing, no
    step of it, whatever input it consumes, takes it back to work: it stays in its end phases, no attempt is
    added, every attempt has ended, replied or is being stopped for good, the run owes nothing but stops,
    the park, deliveries and the release, and once it is finished no process of it may be alive. *)
Theorem finishing_only_winds_down run def log s events next :
  compiled_run run def log s → ending s → step s events next →
  N.of_nat (length (log ++ events)) < u32_max →
  ending next ∧ SlotRecord.slot <$> RunState.slots next = SlotRecord.slot <$> RunState.slots s ∧
  Forall (λ r, over (SlotRecord.state r) = true) (RunState.slots next) ∧
  (∀ eff, eff ∈ pending_effects next → winds eff = true) ∧
  (is_finished next = true → any_live next = false).
Proof.
  intros Hrun He Hstep Hn. rewrite length_app in Hn.
  pose proof (run_winding_down _ _ _ _ Hrun) as Hw. apply compiled_run_sound in Hrun.
  assert (Hx : ends_with_slots (SlotRecord.slot <$> RunState.slots s) next).
  { eapply (kept_step _ (ends_with_slots_kept _)); [exact Hstep|exact Hrun|lia|done]. }
  destruct Hx as (Hen & [Hwn Hfn] & Hsl). split_and!; try done.
  - eapply Forall_impl; [by apply Hwn|]. by intros r [].
  - intros eff. by apply ending_effects.
Qed.

Lemma finishing_only_winds_down_witness :
  ∃ events next, step killing_state events next ∧ ending next ∧
    SlotRecord.slot <$> RunState.slots next = SlotRecord.slot <$> RunState.slots killing_state ∧
    Forall (λ r, over (SlotRecord.state r) = true) (RunState.slots next) ∧
    (∀ eff, eff ∈ pending_effects next → winds eff = true) ∧
    (is_finished next = true → any_live next = false).
Proof.
  destruct (reduce killing_state (ended_input 308000 coder_key EndCause.StoppedByHost))
    as [[events next]|] eqn:E; [|by vm_compute in E].
  pose proof (step_input killing_state (ended_input 308000 coder_key EndCause.StoppedByHost)
    events next eq_refl E) as Hstep. exists events, next.
  refine (conj Hstep (finishing_only_winds_down sample_run sample_def
    (opening_log (tail opening ++ killing_inputs)) killing_state events next _ _ Hstep _)).
  - apply sample_compiled_run; vm_compute; reflexivity.
  - vm_compute. exact I.
  - rewrite (reduce_Some _ _ _ _ E). vm_compute. reflexivity.
Defined.
