(* ===== verification/Budgets.v ===== *)
(** * What a run may spend

    The reducer counts: a step's passes against its ceiling, a seat's restarts and holds against the policy.
    This file proves the counts stay within them, and that only a person takes a run past its ceiling. *)

From S2P Require Import Prelude Text Ids Codes Events Flow State Effects Guard Input Evolve Decide Host Examples FlowFacts Keys Spec Replay Slots Seats Timers Runs.
From stdpp Require Import options.

(** ** Passes *)
Definition person_continued (s : RunState) (step : StepId) (pass : N) : Prop :=
  ∃ q m, q ∈ RunState.questions s ∧ Question.asked q = Asked.Ceiling step pass m ∧
    Question.answered q = true.

Definition passes_ok (s : RunState) : Prop :=
  ∀ step pass, RunState.passes s !! step = Some pass →
    ∃ d, def_step (RunState.def s) step = Some d ∧
      (pass ≤ StepDef.max_passes d ∨ person_continued s step pass).

Lemma act_input_passes s input : RunState.passes (act_input s input) = RunState.passes s.
Proof. input_cases. Qed.

Lemma apply_decision_passes at_ s d :
  RunState.passes (apply_decision at_ s d) =
  match d with
  | Decision.Rework _ _ declaring pass => <[declaring := pass]> (RunState.passes s)
  | _ => RunState.passes s
  end.
Proof. decision_frame d. Qed.

Lemma continued_input s input step pass :
  person_continued s step pass → person_continued (act_input s input) step pass.
Proof.
  intros (q & m & [i Hi]%list_elem_of_lookup & Ha & Han).
  destruct (Forall2_lookup_l _ _ _ _ _ (act_input_questions s input) Hi) as (q' & Hq' & [_ Ha' Hn']).
  exists q', m. split_and!; [by eapply list_elem_of_lookup_2|by rewrite Ha'|].
  destruct (Question.answered q'); [done|]. by rewrite Hn' in Han.
Qed.

Lemma continued_decision at_ s d step pass :
  person_continued s step pass → person_continued (apply_decision at_ s d) step pass.
Proof.
  intros (q & m & Hq & Ha & Han). exists q, m. split; [|done]. rewrite apply_decision_questions.
  destruct d; try done; apply elem_of_app; by left.
Qed.

(** The question an answer was given to stays answered to the end of the list. *)
Lemma answer_continued input e question disposition message q step pass m :
  deciding input e → Event.body input = EventBody.Answer question disposition message →
  asked_first e question q → Question.asked q = Asked.Ceiling step pass m →
  person_continued (Emit.state e) step pass.
Proof.
  intros (_ & Hi & pre & He) Hb (i & Hp & Hq)%find_first_position Ha. rewrite He. cbn.
  assert (H0 : person_continued (apply_input (Emit.before e) input) step pass).
  { unfold apply_input. rewrite Hi. unfold act_input. rewrite Hb. unfold apply_answer. rewrite Hp, Hq.
    exists (q <| Question.answered := true |>), m. cbn. split_and!; [|done|done].
    eapply list_elem_of_lookup_2. by rewrite list_lookup_alter_eq, Hq. }
  clear -H0. revert H0. generalize (apply_input (Emit.before e) input).
  induction pre as [|d pre IH]; intros s Hs; simpl; [done|]. by apply IH, continued_decision.
Qed.

Lemma passes_invariant : invariant passes_ok.
Proof.
  split.
  - done.
  - intros s input _ Hs _ _ step pass. rewrite act_input_passes, (proj1 (act_input_fixed s input)).
    intros (d & Hd & Hp)%Hs. exists d. split; [done|]. destruct Hp; auto using continued_input.
  - intros input e d _ _ _ Hs Hdec Hmay step pass.
    destruct (deciding_fixed _ _ Hdec) as (Hde & Hds & _).
    rewrite apply_decision_passes, (proj1 (apply_decision_fixed _ _ _)).
    assert (Hold : RunState.passes (Emit.state e) !! step = Some pass →
      ∃ d0, def_step (RunState.def (Emit.state e)) step = Some d0 ∧
        (pass ≤ StepDef.max_passes d0 ∨
         person_continued (apply_decision (Emit.at_ e) (Emit.state e) d) step pass)).
    { intros (d0 & Hd0 & Hp)%Hs. exists d0. split; [done|]. destruct Hp; auto using continued_decision. }
    destruct d as [| | | | |from to declaring p| | | | | | | | | | |]; try done.
    rewrite lookup_insert_Some. intros [[-> ->]|[_ Ha]]; [|auto].
    inversion Hmay as [| | | | | | |st vi to' d' bits [Hc _] Hbits Ho Hle
      |question message q st pa m d' to' Hb Hfi Ha Hd' Ho| | | | | | | | | | | | |]; subst.
    + destruct Hc as [_ _ _ _ _ Hdef _]. exists d'. rewrite Hds, <-Hde. auto.
    + exists d'. rewrite Hds, <-Hde. split; [done|right]. apply continued_decision.
      by eapply answer_continued.
  - done.
Qed.

Lemma reachable_def run def s : reachable run def s → RunState.def s = def.
Proof.
  intros [log Hrun]. induction Hrun as [|log s events next Hrun IH Hstep _]; [done|].
  by rewrite (step_fixed _ _ _ Hstep).
Qed.

(** Only a person takes a run past its ceiling. In every state a run reaches, the pass a step stands on
    belongs to a step of the flow and is within its [max_passes], unless the run asked at the ceiling for
    exactly that pass and the question was answered. *)
Lemma ceiling_needs_a_person run def s step pass :
  reachable run def s → RunState.passes s !! step = Some pass →
  ∃ d, def_step def step = Some d ∧ (pass ≤ StepDef.max_passes d ∨ person_continued s step pass).
Proof.
  intros Hs Hp. rewrite <-(reachable_def _ _ _ Hs).
  eapply (invariant_reachable _ passes_invariant); [|exact Hs|exact Hp]. by intros ? ?.
Qed.

Lemma ceiling_needs_a_person_witness :
  ∃ d, def_step sample_def "check" = Some d ∧
    (2 ≤ StepDef.max_passes d ∨ person_continued continued_state "check" 2).
Proof.
  apply (ceiling_needs_a_person sample_run sample_def continued_state "check" 2).
  - apply running_walk_reachable. vm_compute. reflexivity.
  - exact continued_passes.
Defined.

(** ** Restarts and holds *)
Record spent (policy : LivenessPolicy) (r : SlotRecord) : Prop := {
  spent_restarts : SlotRecord.restarts r = 0 ∨ SlotRecord.restarts r < max_attempts policy;
  spent_holds : SlotRecord.holds r ≤ max_holds policy;
  spent_held reason until order cause :
    SlotRecord.condition r = Some (SlotCondition.Held reason until order) →
    SlotRecord.state r = SlotState.Ended cause → is_hold cause = true;
}.

Definition within_budget (s : RunState) : Prop :=
  RunState.commissioned s = true ∧ Forall (spent (RunState.policy s)) (RunState.slots s).

(** An input spends nothing, and only an end ends an attempt. *)
Lemma input_move_spent s input policy r r' :
  input_move s input r r' → spent policy r → spent policy r'.
Proof.
  intros Hm [Hre Hho Hhe].
  assert (Hsame : SlotRecord.restarts r' = SlotRecord.restarts r ∧ SlotRecord.holds r' = SlotRecord.holds r).
  { destruct Hm; try done.
    - destruct r as [sl st]; destruct st; destruct fact as [|[]| | | |[]|]; cbn; try done; by case_match.
    - unfold resume_record. by destruct (is_would_not_stop r).
    - unfold withdraw_record. by case_match. }
  destruct Hsame as [Hr Hh]. split; [by rewrite Hr|by rewrite Hh|].
  intros reason until order cause Hc Hst.
  assert (SlotRecord.condition r = SlotRecord.condition r' ∧ SlotRecord.state r = SlotRecord.state r')
    as [Hc' Hst']; [|rewrite <-Hc' in Hc; rewrite <-Hst' in Hst; eauto].
  destruct Hm; try done.
  - cbn in *. by destruct (SlotRecord.state r).
  - cbn in *. by destruct (SlotRecord.state r).
  - destruct r as [sl st]; destruct st; destruct fact as [|[]| | | |[]|]; cbn in *; try done; by case_match.
  - unfold resume_record in *. by destruct (is_would_not_stop r).
  - unfold withdraw_record in *. destruct (is_would_not_stop _); try done. cbn in *.
    by destruct (SlotRecord.state r).
  - cbn in *. by destruct (SlotRecord.state r).
  - cbn in *. by destruct (SlotRecord.state r).
Qed.

Lemma u32_succ_le n m : n < m → u32_succ n ≤ m.
Proof. intros. unfold u32_succ. etransitivity; [apply N.Div0.mod_le|]. lia. Qed.

Lemma decision_move_spent m input e d r r' :
  seats m (Emit.state e) → may input e d → r ∈ RunState.slots (Emit.state e) →
  decision_move (Emit.state e) (Emit.at_ e) d r r' →
  spent (RunState.policy (Emit.state e)) r → spent (RunState.policy (Emit.state e)) r'.
Proof.
  intros Hs Hmay Hr Hm [Hre Hho Hhe].
  destruct Hm as [|timer fire_at ->|reason since ->|reason until resets ->|reason ->|o reason ->];
    try (split; cbn; done).
  - split; cbn; try done. intros reason until order cause Hc Hst. eapply Hhe; [done|].
    by destruct (SlotRecord.state r).
  - split; cbn; try done. unfold liveness_state. intros ? ? ? ? _. by case_match.
  - inversion Hmay as [| | | | | | | | | | | | | |r0 cause sl re res Hj Hh Hlt| | | | | | |]; subst.
    destruct Hj as [key i r1 _ _ _ _ _ _ Hr0 Hsl Hst]. unfold slot_at in Hr0.
    apply list_elem_of_lookup in Hr as [j Hj].
    destruct (in_order_slot_inj _ (seats_order _ _ Hs) i j r0 r Hr0 Hj Hsl) as [-> ->].
    assert (Hhold : is_hold cause = true) by (by destruct cause).
    unfold hold_record. destruct resets; split; cbn; try done; intros; simplify_eq; try congruence.
    apply u32_succ_le. destruct Hlt; [done|]. done.
Qed.

(** ** A new attempt *)
Lemma next_attempt_budget r prior cause resume :
  SlotRecord.holds (next_attempt r prior cause resume) =
    (if SlotRecord.fresh prior then 0 else SlotRecord.holds prior) ∧
  (SlotRecord.restarts (next_attempt r prior cause resume) = 0 ∨
   SlotRecord.restarts (next_attempt r prior cause resume) = SlotRecord.restarts prior ∨
   SlotRecord.restarts (next_attempt r prior cause resume) = u32_succ (SlotRecord.restarts prior) ∧
     SlotRecord.fresh prior = false ∧ (∀ m, cause ≠ Some (StartCause.Answer m)) ∧
     ∀ c, SlotRecord.state prior = SlotState.Ended c → is_hold c = false).
Proof.
  unfold next_attempt. destruct (SlotRecord.fresh prior); [split; [|left]; by repeat case_match|].
  destruct cause as [[]|], (SlotRecord.state prior) as [| | | | | | |c];
    try destruct (is_hold c) eqn:Eh; try destruct c; try destruct (SlotRecord.reminded prior);
    cbn; split; auto; right; right; split_and!; try done; naive_solver.
Qed.

Lemma new_record_first s step visit attempt member cause :
  latest s step visit member = None →
  SlotRecord.restarts (new_record s step visit attempt member cause) = 0 ∧
  SlotRecord.holds (new_record s step visit attempt member cause) = 0.
Proof. intros Hl. unfold new_record. by rewrite Hl. Qed.

Lemma new_record_next s step visit attempt member cause prior :
  latest s step visit member = Some prior →
  ∃ r resume, new_record s step visit attempt member cause = next_attempt r prior cause resume.
Proof. intros Hl. unfold new_record. rewrite Hl. eauto. Qed.

Lemma latest_slots s s' step visit member :
  RunState.slots s' = RunState.slots s → latest s' step visit member = latest s step visit member.
Proof. unfold latest. by intros ->. Qed.

Lemma latest_None s step visit member :
  (∀ i r, RunState.slots s !! i = Some r → seat r ≠ (step, visit, member)) →
  latest s step visit member = None.
Proof.
  intros Hno. destruct (latest s step visit member) as [r|] eqn:E; [|done].
  apply latest_Some in E as (i & [Hi _] & Hs). by destruct (Hno i r Hi).
Qed.

Section attempts.
Context (n m : N) (input : Event) (e : Emit).
Hypothesis Hsound : sound n (Emit.before e).
Hypothesis Hm : m < u32_max.
Hypothesis Hseats : seats m (Emit.state e).
Hypothesis Hbefore : within_budget (Emit.before e).
Hypothesis Hbudget : within_budget (Emit.state e).
Hypothesis Hdeciding : deciding input e.
Let policy := RunState.policy (Emit.state e).

(** The seat's latest attempt, as an attempt after it finds it. *)
Lemma attempt_prior slot :
  attempt_reason input e slot →
  ∃ i prior, RunState.slots (Emit.state e) !! i = Some prior ∧ SlotRecord.slot prior = slot ∧
    latest (Emit.state e) (slot_step slot) (slot_visit slot) (slot_member slot) = Some prior ∧
    (u32_succ (SlotRecord.restarts prior) < max_attempts policy ∨ SlotRecord.fresh prior = true ∨
     (∃ message, RunState.pending_start (Emit.state e) = Some (StartCause.Answer message)) ∨
     ∃ c, SlotRecord.state prior = SlotState.Ended c ∧ is_hold c = true).
Proof using Type*.
  intros Ha. destruct Hsound as [Hn Hf Hs Ht].
  destruct (attempt_open (N.max n m) input e) with slot as (i & r & Hla & Hsl & _); try done.
  { eapply (seats_mono n); [lia|done]. }
  { by apply (timers_armed_right n). }
  { eapply (seats_mono m); [lia|done]. }
  exists i, r. pose proof Hla as [Hi _]. split_and!; [done|done| |].
  { apply latest_Some. exists i. split; [done|]. unfold seat. by rewrite Hsl. }
  assert (Huniq : ∀ j x, RunState.slots (Emit.state e) !! j = Some x → SlotRecord.slot x = slot → x = r).
  { intros j x Hj Hx. by destruct (in_order_slot_inj _ (seats_order _ _ Hseats) j i x r Hj Hi) as [_ ->];
      [congruence|]. }
  destruct Ha as [r' cause [key j r0 _ _ _ _ _ _ Hr' Hsl' _] Hlt|q message question disposition _ _ _ _ Hp
    |named j r0 Hb [Hfo _] Hres Hr0 Hsl0 Hc Hw|timer fired_at armed Hb [Hfo _] Hti Hp Hts].
  - left. by rewrite <-(Huniq j r' Hr' Hsl').
  - right. right. left. eauto.
  - right. left. rewrite (accepted_input _ _ Hdeciding) in Hfo. unfold act_input in Hfo.
    rewrite Hb, Hres in Hfo. cbn in Hfo. rewrite <-(Huniq j (resume_record r0)).
    + unfold resume_record. by rewrite Hw.
    + by rewrite Hfo, list_lookup_alter_eq, Hr0.
    + unfold resume_record. by rewrite Hw.
  - right. right. right. rewrite (fired_slots _ _ _ _ _ Hb Hti) in Hfo by auto. rewrite Hfo in Hi.
    destruct (armed_watches n _ _ _ _ _ _ Hsound Hti Hts Hi Hsl) as [Hwa _]. rewrite Hp in Hwa.
    unfold watches in Hwa. destruct (SlotRecord.state r) as [| | | | | | |c] eqn:Est; try done.
    destruct (SlotRecord.condition r) as [[]|] eqn:Ec; try done. exists c. split; [done|].
    destruct Hbefore as [_ Hall]. rewrite Forall_forall in Hall.
    eapply (spent_held _ _ (Hall r ltac:(by eapply list_elem_of_lookup_2))); eauto.
Qed.

Lemma new_attempt_spent slot s' attempt :
  attempt_reason input e slot → RunState.slots s' = RunState.slots (Emit.state e) →
  let r := new_record s' (slot_step slot) (slot_visit slot) attempt (slot_member slot)
             (RunState.pending_start (Emit.state e)) in
  (SlotRecord.restarts r = 0 ∨ SlotRecord.restarts r < max_attempts policy) ∧
  SlotRecord.holds r ≤ max_holds policy.
Proof using Type*.
  intros Ha Hs'. cbn zeta. destruct (attempt_prior slot Ha) as (i & prior & Hi & Hsl & Hlat & Hwhy).
  rewrite <-(latest_slots _ _ _ _ _ Hs') in Hlat.
  destruct (new_record_next _ _ _ attempt _ (RunState.pending_start (Emit.state e)) _ Hlat)
    as (r0 & resume & ->).
  destruct (next_attempt_budget r0 prior (RunState.pending_start (Emit.state e)) resume) as [Hho Hre].
  destruct Hbudget as [_ Hall]. rewrite Forall_forall in Hall.
  destruct (Hall prior) as [Hr1 Hh1 _]; [by eapply list_elem_of_lookup_2|]. split.
  - destruct Hre as [->|[->|(-> & Hfr & Hnc & Hnh)]]; [by left|done|right].
    destruct Hwhy as [?|[?|[[msg ?]|(c & Hc & Hh)]]]; [done|congruence|by destruct (Hnc msg)|].
    by rewrite (Hnh c Hc) in Hh.
  - rewrite Hho. case_match; [lia|done].
Qed.

Lemma started_spent step visit attempt members new :
  may input e (Decision.StepStarted step visit attempt members) →
  RunState.slots (apply_decision (Emit.at_ e) (Emit.state e)
    (Decision.StepStarted step visit attempt members)) = RunState.slots (Emit.state e) ++ new →
  new_attempts (Emit.state e) (Decision.StepStarted step visit attempt members) new →
  Forall (spent policy) new.
Proof using Type*.
  intros Hmay Hsl Hnew. apply Forall_forall. intros r [i Hr]%list_elem_of_lookup.
  destruct (Forall2_lookup_r _ _ _ _ _ Hnew Hr) as (mem & Hmem & _ & _ & Hcond & _).
  destruct (started_budget _ _ _ _ _ _ _ Hsl i mem r Hmem Hr) as (s' & Hs' & Hre & Hho).
  assert (Hspent : (SlotRecord.restarts r = 0 ∨ SlotRecord.restarts r < max_attempts policy) ∧
    SlotRecord.holds r ≤ max_holds policy); [|destruct Hspent; split; [done..|by rewrite Hcond]].
  rewrite Hre, Hho.
  inversion Hmay as [| | |st d Hv Hd|slot Ha|st vi d bits Hc Hh Hl| | | | | | | | | | | | | | | |]; subst.
  - destruct (new_record_first s' step (u32_succ (default 0 (RunState.visits (Emit.state e) !! step))) 1
      mem (RunState.pending_start (Emit.state e))) as [-> ->]; [|split; [by left|lia]].
    apply latest_None. intros j x. rewrite Hs'. intros [Hj|[_ Hj]]%lookup_app_Some Hseat.
    + unfold seat in Hseat. simplify_eq.
      destruct (seats_bounds _ _ Hseats x) as [_ (v & Hvi & Hle)]; [by eapply list_elem_of_lookup_2|].
      pose proof (seats_visits _ _ Hseats _ _ Hvi). rewrite Hvi in *. cbn in *.
      rewrite u32_succ_small in * by lia. lia.
    + set (k := (j - length (RunState.slots (Emit.state e)))%nat) in Hj.
      assert (k < i)%nat by (apply lookup_lt_Some in Hj; rewrite length_take in Hj; lia).
      rewrite lookup_take_lt in Hj by done.
      destruct (Forall2_lookup_r _ _ _ _ _ Hnew Hj) as (mem' & Hmem' & Hslot & _).
      unfold seat in Hseat. rewrite Hslot in Hseat. cbn in Hseat. simplify_eq.
      assert (k = i); [|lia]. eapply (NoDup_lookup (members_of d)); eauto.
      destruct (deciding_fixed _ _ Hdeciding) as (Hde & _). rewrite Hde in Hd.
      unfold def_step, find_step in Hd. apply find_first_Some in Hd as [Hin _].
      pose proof (flow_steps_ok _ (sound_flow _ _ Hsound)) as Hok. rewrite Forall_forall in Hok.
      by apply (step_members_distinct _ _ (Hok d Hin)).
  - destruct i as [|]; [|done]. cbn in Hmem, Hs'. simplify_eq. rewrite app_nil_r in Hs'.
    by apply new_attempt_spent.
  - destruct i as [|]; [|done]. cbn in Hmem, Hs'. simplify_eq. rewrite app_nil_r in Hs'.
    destruct (new_record_first s' step visit 1 SYNTH (RunState.pending_start (Emit.state e)))
      as [-> ->]; [by rewrite (latest_slots _ _ _ _ _ Hs')|split; [by left|lia]].
Qed.
End attempts.

Lemma act_input_policy s input :
  ignored_reason s input = None → RunState.commissioned s = true →
  RunState.commissioned (act_input s input) = true ∧
  RunState.policy (act_input s input) = RunState.policy s.
Proof.
  intros Hi Hc. assert (Hb : ∀ run ws ma fl po th re,
    Event.body input ≠ EventBody.Commissioned run ws ma fl po th re).
  { intros ? ? ? ? ? ? ? Hb. unfold ignored_reason in Hi. rewrite Hb, Hc in Hi. by case_match. }
  clear Hi. unfold act_input, apply_fact, apply_reply, apply_answer, apply_firing, alter_slot, map_slots.
  repeat (case_match; try done). exfalso. by eapply Hb.
Qed.

Lemma within_budget_kept : kept within_budget.
Proof.
  split.
  - done.
  - intros n s input _ [Hc Hall] _ Hi. destruct (act_input_policy s input Hi Hc) as [Hc' Hp].
    split; [done|]. rewrite Hp. rewrite Forall_forall in *. intros r' [i Hr']%list_elem_of_lookup.
    destruct (Forall2_lookup_r _ _ _ _ _ (act_input_slots s input Hi) Hr') as (r & Hr & Hmv).
    eapply input_move_spent; [done|]. by eapply Hall, list_elem_of_lookup_2.
  - intros n m input e d Hso Hb Hm Hs Hbud Hd Hmay. pose proof Hbud as [Hc Hall]. split.
    { assert (Hsame : RunState.commissioned (apply_decision (Emit.at_ e) (Emit.state e) d) =
        RunState.commissioned (Emit.state e)) by decision_frame d. by rewrite Hsame. }
    destruct (apply_decision_fixed (Emit.at_ e) (Emit.state e) d) as (_ & _ & _ & ->).
    destruct (apply_decision_slots (Emit.at_ e) (Emit.state e) d) as (k & new & Heq & Hk & Hnew).
    rewrite Heq. apply Forall_app. split.
    + rewrite Forall_forall in *. intros r' [i Hr']%list_elem_of_lookup.
      destruct (Forall2_lookup_r _ _ _ _ _ Hk Hr') as (r & Hr & Hmv).
      apply list_elem_of_lookup_2 in Hr. eapply (decision_move_spent m input e); eauto.
    + destruct d as [| | |step visit attempt members| | | | | | | | | | | | |];
        try (simpl in Hnew; by subst).
      eapply (started_spent n m input e); eauto. rewrite Heq. f_equal. symmetry.
      apply list_eq_Forall2. eapply Forall2_impl; [exact Hk|]. intros r r' Hmv. by destruct Hmv.
  - done.
Qed.

(** After its commission a run is commissioned, and has nothing yet. *)
Lemma commissioned_first run def events next :
  step (initial run def) events next → commissions events = true → within_budget next.
Proof.
  intros [input events' next' Hd Hr|at_ key next' He] Hc; [|done].
  rewrite reduce_spec in Hr by done. case_match; simplify_eq.
  unfold commissions, reduce_events in Hc. cbn in Hc.
  destruct (Event.body input) eqn:Hb; try done.
  unfold within_budget, decided, decide, apply_input, ignored_reason, act_input, emit_input. cbn.
  by rewrite !Hb.
Qed.

Lemma run_within_budget run def log s :
  flow_ok def → run_of run def log s → N.of_nat (length log) < u32_max →
  log = [] ∧ RunState.slots s = [] ∨ log ≠ [] ∧ within_budget s.
Proof.
  intros Hf. induction 1 as [|log s events next Hrun IH Hstep Hfirst]; intros Hn; [by left|right].
  rewrite length_app in Hn. destruct IH as [[-> Hsl]|[Hne Hb]]; [lia| |].
  - inversion Hrun as [|log' s' events' next' Hrun' Hstep' Hfirst' Hl]; subst.
    + specialize (Hfirst eq_refl). split; [by destruct events|]. by eapply commissioned_first.
    + apply app_eq_nil in Hl as [-> ->]. by specialize (Hfirst' eq_refl).
  - split; [by destruct log|]. eapply (kept_step _ within_budget_kept (N.of_nat (length log)));
      [exact Hstep| |lia|done]. eapply run_of_sound; [done..|lia].
Qed.

(** C29: a seat's budget bounds its attempts. In every state a run of a compiled flow reaches, an attempt has
    used fewer restarts than the policy's [max_attempts] (or none), and no more holds without a named end
    than its [max_holds]: a session that keeps failing is not restarted for ever. *)
Theorem budgets_hold run def log s r :
  compiled_run run def log s → r ∈ RunState.slots s →
  (SlotRecord.restarts r = 0 ∨ SlotRecord.restarts r < max_attempts (RunState.policy s)) ∧
  SlotRecord.holds r ≤ max_holds (RunState.policy s).
Proof.
  intros [(? & ? & Hf%compile_flow_ok) Hrun Hn] Hr.
  destruct (run_within_budget _ _ _ _ Hf Hrun Hn) as [[_ Hsl]|[_ [_ Hall]]].
  - rewrite Hsl in Hr. by apply elem_of_nil in Hr.
  - rewrite Forall_forall in Hall. by destruct (Hall r Hr).
Qed.

Lemma budgets_hold_witness :
  ∃ r, r ∈ RunState.slots restarted_state ∧ SlotRecord.restarts r = 1 ∧
    (SlotRecord.restarts r = 0 ∨
     SlotRecord.restarts r < max_attempts (RunState.policy restarted_state)) ∧
    SlotRecord.holds r ≤ max_holds (RunState.policy restarted_state).
Proof.
  destruct (RunState.slots restarted_state !! 1%nat) as [r|] eqn:Er; [|by vm_compute in Er].
  exists r. pose proof (list_elem_of_lookup_2 _ _ _ Er) as Hin.
  refine (conj Hin (conj _ (budgets_hold sample_run sample_def
    (opening_log (tail opening ++ restarted_inputs)) restarted_state r _ Hin))).
  - apply (f_equal (fmap SlotRecord.restarts)) in Er. rewrite restarted_restarts in Er.
    by injection Er as <-.
  - apply sample_compiled_run; vm_compute; reflexivity.
Defined.
