(* ===== verification/Owed.v ===== *)
(** * Effects and their results

    The host executes what [pending_effects] owes and enqueues the result as an input. This file proves the
    two sides agree: the guard accepts the result of every owed effect, so no effect is carried out for
    nothing and derived again for ever; and the claim is let go of exactly when the guard expects it. *)

From S2P Require Import Prelude Text Ids Codes Events Flow State Effects Guard Input Evolve Decide Host Examples FlowFacts Keys Spec Replay Slots Stops Seats Timers Runs.
From stdpp Require Import options.

(** The result an effect has when it is carried out. A cancelled preparation has none of its own: the
    standing refusal is the result of the preparation. *)
Inductive answers : Effect → Event → Prop :=
| answer_root run input thread message :
    Event.body input = EventBody.RootOpened thread message → answers (Effect.OpenRoot run) input
| answer_claim ws input :
    Event.body input = EventBody.ClaimTaken → answers (Effect.TakeClaim ws) input
| answer_prepared ws input base found :
    Event.body input = EventBody.TreePrepared base found → answers (Effect.PrepareTree ws) input
| answer_refused ws input reason :
    Event.body input = EventBody.TreeRefused reason → answers (Effect.PrepareTree ws) input
| answer_parked ws occasion input outcome :
    Event.body input = EventBody.TreeParked outcome → answers (Effect.ParkTree ws occasion) input
| answer_released ws input :
    Event.body input = EventBody.ClaimReleased → answers (Effect.ReleaseClaim ws) input
| answer_started key turn resume input backend pid :
    Event.body input = EventBody.SessionFact key (SessionFact.Started backend pid) →
    answers (Effect.StartSession key turn resume) input
| answer_not_started key turn resume input cause :
    Event.body input = EventBody.SessionFact key (SessionFact.Ended cause) →
    answers (Effect.StartSession key turn resume) input
| answer_nudged key text input :
    Event.body input = EventBody.Nudged key → answers (Effect.NudgeSession key text) input
| answer_stopped key kind nth input :
    Event.body input = EventBody.StopSignalled key nth kind →
    answers (Effect.StopSession key kind nth) input
| answer_delivered thread body key input message :
    Event.body input = EventBody.Delivered message → Event.key input = delivered_key key →
    answers (Effect.Deliver thread body key) input.

(** A session key names one attempt of a sound run. *)
Lemma record_at_key n s r :
  sound n s → r ∈ RunState.slots s → record_at s (state_session_key s (SlotRecord.slot r)) = Some r.
Proof.
  intros [Hn Hf Hs _] Hr. pose proof Hr as [i Hi]%list_elem_of_lookup. unfold record_at.
  assert (Hfind : find s (state_session_key s (SlotRecord.slot r)) = Some i); [|by rewrite Hfind].
  eapply position_unique; [exact Hi|by apply bool_decide_eq_true|].
  intros j x Hj Hk%bool_decide_eq_true. unfold state_session_key in Hk. apply session_key_inj in Hk.
  - by destruct (in_order_slot_inj _ (seats_order _ _ Hs) j i x r Hj Hi Hk).
  - eapply (seats_slot_ok n s); eauto using list_elem_of_lookup_2. lia.
  - eapply (seats_slot_ok n s); eauto. lia.
Qed.

Lemma delivery_key_delivered key input :
  Event.key input = delivered_key key → delivery_key input = Some key.
Proof. unfold delivery_key, delivered_key. intros ->. apply strip_prefix_app. Qed.

(** Where an owed session effect comes from. *)
Lemma pending_session s eff :
  eff ∈ pending_effects s →
  match eff with
  | Effect.StartSession key _ _ =>
      ∃ r deadline, r ∈ RunState.slots s ∧ state_session_key s (SlotRecord.slot r) = key ∧
        SlotRecord.state r = SlotState.Starting deadline
  | Effect.NudgeSession key _ =>
      ∃ r since open_call, r ∈ RunState.slots s ∧ state_session_key s (SlotRecord.slot r) = key ∧
        SlotRecord.state r = SlotState.Quiet since open_call
  | Effect.Deliver _ _ key => key ∈ (owed_deliveries s).*1
  | _ => True
  end ∧ is_finished s = false.
Proof.
  assert (Hd : ∀ eff, eff ∈ deliver_effects s →
    match eff with
    | Effect.Deliver _ _ key => key ∈ (owed_deliveries s).*1
    | _ => False
    end).
  { intros x (d & -> & Hx)%list_elem_of_fmap. apply list_elem_of_fmap. eauto. }
  assert (Hst : ∀ r key eff, stop_effect r key = Some eff →
    ∃ k kind nth, eff = Effect.StopSession k kind nth).
  { intros r key x (l & _ & (k & _ & [= <-])%bind_Some)%bind_Some. eauto. }
  unfold pending_effects, is_finished.
  destruct (RunState.phase s) as [|behind|tree|o reason tree|o reason]; intros H.
  - split; [|done]. repeat case_match; set_solver.
  - apply list_elem_of_singleton in H as ->. done.
  - split; [|done]. unfold running_effects in H. case_match; [set_solver|].
    destruct tree; [case_match; set_solver|]. apply elem_of_app in H as [H|H].
    + apply list_elem_of_omap in H as (r & Hr & He). unfold slot_effect in He.
      destruct (SlotRecord.state r) eqn:Est; simplify_eq; eauto 8;
        apply Hst in He as (? & ? & ? & ->); done.
    + specialize (Hd _ H). by destruct eff.
  - split; [|done]. unfold finishing_effects in H. case_match.
    + apply list_elem_of_omap in H as (r & Hr & (? & ? & ? & ->)%Hst). done.
    + destruct tree; [set_solver|]. destruct (deliver_effects s) eqn:Ed; [set_solver|].
      rewrite <-Ed in H, Hd. specialize (Hd _ H). by destruct eff.
  - by apply elem_of_nil in H.
Qed.

Lemma deliver_effects_nil s : deliver_effects s = [] → owed_deliveries s = [].
Proof. apply fmap_nil_inv. Qed.

(** Where an owed effect of the run itself comes from. *)
Lemma pending_run s eff :
  eff ∈ pending_effects s →
  match eff with
  | Effect.OpenRoot _ => RunState.phase s = Phase.Created ∧ RunState.root_message s = None
  | Effect.TakeClaim _ => ∃ behind, RunState.phase s = Phase.Queued behind
  | Effect.PrepareTree _ => RunState.phase s = Phase.Running Unprepared
  | Effect.ParkTree _ _ =>
      ∃ o reason, RunState.phase s = Phase.Finishing o reason ParkPhase.Unparked ∧ any_live s = false
  | Effect.ReleaseClaim _ => ready_to_release s = true
  | _ => True
  end.
Proof.
  assert (Hd : ∀ eff, eff ∈ deliver_effects s → ∃ t b k, eff = Effect.Deliver t b k)
    by (intros x (d & -> & _)%list_elem_of_fmap; eauto).
  assert (Hst : ∀ r key eff, stop_effect r key = Some eff →
    ∃ k kind nth, eff = Effect.StopSession k kind nth).
  { intros r key x (l & _ & (k & _ & [= <-])%bind_Some)%bind_Some. eauto. }
  unfold pending_effects, ready_to_release.
  destruct (RunState.phase s) as [|behind|tree|o reason tree|o reason]; intros H.
  - destruct (RunState.commissioned s), (RunState.root_message s), (RunState.condition s); set_solver.
  - apply list_elem_of_singleton in H as ->. eauto.
  - unfold running_effects in H. case_match; [set_solver|].
    destruct tree; [case_match; set_solver|]. apply elem_of_app in H as [H|H].
    + apply list_elem_of_omap in H as (r & Hr & He). unfold slot_effect in He.
      destruct (SlotRecord.state r) eqn:Est; simplify_eq; try done;
        apply Hst in He as (? & ? & ? & ->); done.
    + destruct (Hd _ H) as (? & ? & ? & ->). done.
  - unfold finishing_effects in H. destruct (any_live s).
    + apply list_elem_of_omap in H as (r & Hr & (? & ? & ? & ->)%Hst). done.
    + destruct tree; [apply list_elem_of_singleton in H as ->; eauto|].
      destruct (deliver_effects s) eqn:Ed.
      * apply list_elem_of_singleton in H as ->. apply deliver_effects_nil in Ed. by rewrite Ed.
      * rewrite <-Ed in H, Hd. destruct (Hd _ H) as (? & ? & ? & ->). done.
  - by apply elem_of_nil in H.
Qed.

(** C27: the result of an owed effect is never refused. In every state a run of a compiled flow reaches, when
    the run owes the outside world an effect, the input that reports it carried out - the root opened, the
    claim taken, the tree prepared, refused or parked, the claim released, the session started, ended before
    its start, nudged or signalled with the owed number, the delivery made under its key - is one the guard
    acts on. *)
Theorem results_are_accepted run def log s eff input :
  compiled_run run def log s → eff ∈ pending_effects s → answers eff input →
  ignored_reason s input = None.
Proof.
  intros Hrun%compiled_run_sound Heff Ha. pose proof (pending_run _ _ Heff) as Hp.
  destruct (pending_session _ _ Heff) as [Hs Hf].
  assert (Hrec : ∀ r, r ∈ RunState.slots s →
    record_at s (state_session_key s (SlotRecord.slot r)) = Some r)
    by (intros; by eapply record_at_key).
  unfold ignored_reason. rewrite Hf. unfold is_finishing.
  destruct Ha as [? ? ? ? Hb|? ? Hb|? ? ? ? Hb|? ? ? Hb|? ? ? ? Hb|? ? Hb|key ? ? ? ? ? Hb|key ? ? ? ? Hb
    |key ? ? Hb|key kind nth ? Hb|? ? key ? ? Hb Hk]; rewrite Hb.
  - destruct Hp as [-> ->]. done.
  - by destruct Hp as [? ->].
  - by rewrite Hp.
  - by rewrite Hp.
  - by destruct Hp as (? & ? & -> & _).
  - by rewrite Hp.
  - destruct Hs as (r & dl & Hr & <- & Hst). rewrite (Hrec r Hr). cbn. by rewrite Hst.
  - destruct Hs as (r & dl & Hr & <- & Hst). rewrite (Hrec r Hr). cbn. by rewrite Hst.
  - destruct Hs as (r & si & oc & Hr & <- & Hst). rewrite (Hrec r Hr). by rewrite Hst.
  - apply pending_stop in Heff as (r & Hr & <- & Hst). rewrite (Hrec r Hr).
    apply bind_Some in Hst as (l & Hl & (k & _ & [= -> <-])%bind_Some). rewrite Hl.
    by rewrite bool_decide_eq_true_2.
  - rewrite (delivery_key_delivered _ _ Hk). by rewrite bool_decide_eq_true_2.
Qed.

Lemma results_are_accepted_witness :
  ignored_reason killing_state (signalled_input 308000 coder_key 2 StopKind.Kill) = None.
Proof.
  apply (results_are_accepted sample_run sample_def (opening_log (tail opening ++ killing_inputs))
    killing_state (Effect.StopSession coder_key StopKind.Kill 2)).
  - apply sample_compiled_run; vm_compute; reflexivity.
  - rewrite killing_effects. by left.
  - by constructor.
Defined.

(** The claim is let go of last, and then the run may finish. A run owes the release of its claim exactly
    when it is parked, no process of it may be alive and every delivery is recorded; and a recorded release
    is acted on in exactly those states, where it finishes the run with the outcome it was finishing with. *)
Lemma release_is_last s :
  ((∃ ws, Effect.ReleaseClaim ws ∈ pending_effects s) ↔ ready_to_release s = true) ∧
  (∀ input, Event.body input = EventBody.ClaimReleased →
     (ignored_reason s input = None ↔ ready_to_release s = true) ∧
     ∀ o reason tree, RunState.phase s = Phase.Finishing o reason tree → ready_to_release s = true →
       RunState.phase (decided s input) = Phase.Finished o reason).
Proof.
  split; [split|intros input Hb; split].
  - intros [ws Hws]. apply (pending_run _ _ Hws).
  - unfold ready_to_release, pending_effects, finishing_effects. intros H.
    exists (RunState.workspace s). destruct (RunState.phase s) as [| | |o reason []|]; try done.
    apply andb_true_iff in H as [->%negb_true_iff Ho%bool_decide_eq_true].
    unfold deliver_effects. rewrite Ho. by left.
  - unfold ignored_reason. rewrite Hb. unfold is_finished, ready_to_release.
    destruct (RunState.phase s) as [| | |o reason []|]; try done. by destruct (negb _ && _).
  - intros o reason tree Hp Hr. unfold decided, decide, apply_input, ignored_reason.
    unfold is_finished. rewrite Hp, Hb, Hr. cbn. unfold emit_input. rewrite Hb. unfold finished. cbn.
    unfold apply_input, ignored_reason, is_finished, act_input. rewrite Hp, Hb, Hr. cbn. by rewrite Hp.
Qed.
