(* ===== verification/StatusFacts.v ===== *)
(** * What the status tells a person

    The published projection follows the precedence of the view, names the hold that ends first and the
    park that stands longest, and asks for a person exactly where the run waits for one. *)

From S2P Require Import Prelude Text Ids Codes Events Flow State Effects Guard Input Evolve Decide Status Host Examples.
From stdpp Require Import options.

(** The holds and parks of seats' latest attempts. *)
Definition held_now (s : RunState) (reason : ReasonCode) (until : Timestamp) : Prop :=
  ∃ order, SlotCondition.Held reason until order ∈ current_conditions s.

Inductive parked_now (s : RunState) (reason : ReasonCode) (order : N) (since : Timestamp) : Prop :=
| parked_slot : SlotCondition.Parked reason order since ∈ current_conditions s → parked_now s reason order since
| parked_run : RunState.condition s = Some (MkRunCondition reason order since) → parked_now s reason order since.

Lemma earliest_hold_Some s reason until :
  earliest_hold s = Some (reason, until) →
  held_now s reason until ∧ ∀ reason' until', held_now s reason' until' → (until ≤ until')%Z.
Proof.
  unfold earliest_hold. intros [Hin Hmin]%min_by_key_Some. split.
  - apply list_elem_of_omap in Hin as (c & Hc & Heq). destruct c; simplify_eq. by eexists.
  - intros reason' until' [order Ho]. apply (Hmin (reason', until')).
    apply list_elem_of_omap. by eexists.
Qed.

Lemma earliest_hold_None s reason until : earliest_hold s = None → ¬ held_now s reason until.
Proof.
  unfold earliest_hold. intros Hn%min_by_key_None [order Ho].
  assert (Hin : (reason, until) ∈ omap (λ c, match c with
    | SlotCondition.Held reason until _ => Some (reason, until)
    | SlotCondition.Parked _ _ _ => None end) (current_conditions s))
    by (apply list_elem_of_omap; by eexists).
  rewrite Hn in Hin. by apply elem_of_nil in Hin.
Qed.

(** The parks of a run with their age and one more value each. *)
Definition parks {A} (of_slot : ReasonCode → Timestamp → A) (s : RunState) : list (N * A) :=
  omap (λ c, match c with
             | SlotCondition.Parked reason order since => Some (order, of_slot reason since)
             | SlotCondition.Held _ _ _ => None
             end) (current_conditions s) ++
  ((λ c, (rc_order c, of_slot (rc_reason c) (rc_since c))) <$> option_list (RunState.condition s)).

Lemma elem_of_parks {A} (f : ReasonCode → Timestamp → A) s order x :
  (order, x) ∈ parks f s ↔ ∃ reason since, parked_now s reason order since ∧ x = f reason since.
Proof.
  unfold parks. rewrite elem_of_app, list_elem_of_omap, list_elem_of_fmap. split.
  - intros [(c & Hc & Heq)|([r o t] & Heq & Hc)].
    + destruct c; simplify_eq. do 2 eexists. split; [by left|done].
    + destruct (RunState.condition s) as [rc|] eqn:Ec; [|by apply elem_of_nil in Hc].
      apply list_elem_of_singleton in Hc. simplify_eq/=. do 2 eexists. split; [by right|done].
  - intros (reason & since & [Hc|Hc] & ->); [left|right].
    + by eexists.
    + rewrite Hc. eexists. split; [|by left]. done.
Qed.

Lemma oldest_park_parks s :
  oldest_park s = snd <$> min_by_key (λ p, Z.of_N p.1) (parks (λ reason _, reason) s).
Proof. done. Qed.

Lemma parked_since_parks s :
  parked_since s = snd <$> min_by_key (λ p, Z.of_N p.1) (parks (λ _ since, since) s).
Proof. done. Qed.

Lemma oldest_Some {A} (f : ReasonCode → Timestamp → A) s x :
  snd <$> min_by_key (λ p, Z.of_N p.1) (parks f s) = Some x →
  ∃ reason order since, parked_now s reason order since ∧ x = f reason since ∧
    ∀ reason' order' since', parked_now s reason' order' since' → order ≤ order'.
Proof.
  intros ([order y] & [Hin Hmin]%min_by_key_Some & ->)%fmap_Some.
  apply elem_of_parks in Hin as (reason & since & Hp & Hx). simpl in *. subst y.
  exists reason, order, since. split_and!; [done..|]. intros reason' order' since' Hp'.
  specialize (Hmin (order', f reason' since')). simpl in Hmin.
  assert (Z.of_N order <= Z.of_N order')%Z; [|lia]. apply Hmin, elem_of_parks. eauto.
Qed.

Lemma oldest_None {A} (f : ReasonCode → Timestamp → A) s reason order since :
  snd <$> min_by_key (λ p, Z.of_N p.1) (parks f s) = None → ¬ parked_now s reason order since.
Proof.
  intros Hn%fmap_None%min_by_key_None Hp.
  assert (Hin : (order, f reason since) ∈ parks f s) by (apply elem_of_parks; eauto).
  rewrite Hn in Hin. by apply elem_of_nil in Hin.
Qed.

(** The view names what stands first. A run that reads as held has no open question, is held for that
    reason until that instant on a seat's latest attempt, and no other hold ends earlier; one that reads as
    parked has no open question and no hold, and the reason named is that of a park than which none is
    older, on a seat's latest attempt or on the run; and one that reads as running or created has none of
    the three. *)
Lemma view_precedence s :
  match view s with
  | RunView.NeedsDecision questions =>
      questions = Question.id <$> open_questions s ∧ open_questions s ≠ []
  | RunView.Held reason until =>
      open_questions s = [] ∧ held_now s reason until ∧
      ∀ reason' until', held_now s reason' until' → (until ≤ until')%Z
  | RunView.Parked reason =>
      open_questions s = [] ∧ (∀ reason' until', ¬ held_now s reason' until') ∧
      ∃ order since, parked_now s reason order since ∧
        ∀ reason' order' since', parked_now s reason' order' since' → order ≤ order'
  | RunView.Created | RunView.Running _ =>
      open_questions s = [] ∧ (∀ reason until, ¬ held_now s reason until) ∧
      ∀ reason order since, ¬ parked_now s reason order since
  | RunView.Queued behind => RunState.phase s = Phase.Queued behind
  | RunView.Finishing o | RunView.Finished o => outcome s = Some o
  end.
Proof.
  assert (Hopen : match view_open s with
    | RunView.NeedsDecision questions =>
        questions = Question.id <$> open_questions s ∧ open_questions s ≠ []
    | RunView.Held reason until =>
        open_questions s = [] ∧ held_now s reason until ∧
        ∀ reason' until', held_now s reason' until' → (until ≤ until')%Z
    | RunView.Parked reason =>
        open_questions s = [] ∧ (∀ reason' until', ¬ held_now s reason' until') ∧
        ∃ order since, parked_now s reason order since ∧
          ∀ reason' order' since', parked_now s reason' order' since' → order ≤ order'
    | RunView.Created | RunView.Running _ =>
        open_questions s = [] ∧ (∀ reason until, ¬ held_now s reason until) ∧
        ∀ reason order since, ¬ parked_now s reason order since
    | _ => False
    end).
  { unfold view_open. destruct (open_questions s) as [|q qs]; [|done]. cbn [fmap list_fmap].
    destruct (earliest_hold s) as [[reason until]|] eqn:Eh.
    { split; [done|]. by apply earliest_hold_Some. }
    assert (Hh : ∀ reason until, ¬ held_now s reason until) by (intros; by apply earliest_hold_None).
    destruct (oldest_park s) as [reason|] eqn:Eo; rewrite oldest_park_parks in Eo.
    - split; [done|]. split; [done|].
      apply oldest_Some in Eo as (r & order & since & Hp & -> & Hmin). eauto.
    - assert (Hp : ∀ reason order since, ¬ parked_now s reason order since)
        by (intros; by eapply oldest_None).
      by destruct (RunState.phase s). }
  unfold view, outcome. destruct (RunState.phase s); try done; by destruct (view_open s).
Qed.

(** The status asks for a person exactly where the run waits for one. It carries [needs] exactly when its
    state is [needs_decision] or [parked]: a decision names the oldest open question, its message and since
    when; a person is needed since the oldest park. It offers a next action exactly in those states and in
    [held], an outcome exactly when it is finished, and every word it uses for a member or a step is one of
    the published words. *)
Lemma status_asks_where_it_waits s :
  let st := status s in
  (is_Some (RunStatus.needs st) ↔
     RunStatus.state st = StatusState.NeedsDecision ∨ RunStatus.state st = StatusState.Parked) ∧
  (is_Some (RunStatus.next_action st) ↔
     RunStatus.state st = StatusState.NeedsDecision ∨ RunStatus.state st = StatusState.Parked ∨
     ∃ until, RunStatus.state st = StatusState.Held until) ∧
  (is_Some (RunStatus.outcome st) ↔ RunStatus.finished st = true) ∧
  (∀ n, RunStatus.needs st = Some n →
     (∃ q, head (open_questions s) = Some q ∧ needs_kind n = NeedsKind.Decision ∧
        needs_question n = Some (Question.id q) ∧ needs_since n = Question.since q) ∨
     (needs_kind n = NeedsKind.Person ∧ needs_question n = None ∧
      ∃ reason order, parked_now s reason order (needs_since n) ∧
        ∀ reason' order' since', parked_now s reason' order' since' → order ≤ order')) ∧
  (∀ step, step ∈ RunStatus.steps st →
     StepStatus.state step ∈ STEP_STATES ∧
     Forall (λ m, MemberStatus.state m ∈ MEMBER_STATES) (StepStatus.members step)).
Proof.
  cbn zeta. pose proof (view_precedence s) as Hv.
  assert (Hfin : is_finished s = true ↔ ∃ o, view s = RunView.Finished o).
  { assert (Hno : ∀ o, view_open s ≠ RunView.Finished o).
    { intros o. unfold view_open. repeat case_match; done. }
    unfold view, is_finished. destruct (RunState.phase s); (split; [|intros [o' Ho]]); try done; eauto;
      by apply Hno in Ho. }
  assert (Hsince : ∀ reason, view s = RunView.Parked reason → is_Some (parked_since s)).
  { intros reason Hp. rewrite Hp in Hv. destruct Hv as (_ & _ & order & since & Hpark & _).
    destruct (parked_since s) eqn:E; [by eexists|]. rewrite parked_since_parks in E.
    by apply (oldest_None _ _ _ _ _ E) in Hpark. }
  split_and!; unfold status; cbn -[step_statuses].
  - unfold needs. destruct (view s) eqn:Ev; cbn; try (split; [by intros []|by intros [|]]).
    + destruct Hv as [_ Hne]. destruct (open_questions s); [done|]. cbn. split; [by left|eauto].
    + destruct (Hsince _ eq_refl) as [t ->]. cbn. split; [by right|eauto].
  - unfold next_action. destruct (view s); cbn; (split; [|naive_solver]); intros; eauto;
      by destruct H.
  - rewrite Hfin. destruct (view s); cbn; split; try (by intros []); eauto.
  - intros n. unfold needs. destruct (view s) eqn:Ev; try done.
    + intros (q & Hq & [= <-])%bind_Some. left. exists q. done.
    + intros (t & Ht & ->)%fmap_Some. right. rewrite parked_since_parks in Ht.
      apply oldest_Some in Ht as (reason' & order & since & Hp & -> & Hmin). cbn. eauto 8.
  - intros step Hin. unfold step_statuses in Hin. apply list_elem_of_omap in Hin as (d & _ & Hd).
    apply fmap_Some in Hd as (visit & _ & ->). unfold step_status. cbn. split.
    + destruct (find_first _ _); apply (bool_decide_eq_true_1 _); vm_compute; reflexivity.
    + apply Forall_fmap, Forall_true. intros r. cbn.
      destruct (SlotRecord.state r); apply (bool_decide_eq_true_1 _); vm_compute; reflexivity.
Qed.
