(* ===== verification/Ports.v ===== *)
(** * What is around the host

    The ports ([run-host/src/ports.rs]), the session backend ([run-contracts/src/session.rs]) and the tree
    worker ([run-host/src/tree_worker.rs]) as the host sees them: their data, and one class with their
    calls. A call may change what is outside and may fail; the text of a failure never decides anything,
    so a failed call answers [None]. *)

From S2P Require Import Prelude Text Ids Codes Events Flow State Effects.
From stdpp Require Import options.
From Stdlib Require Import Ascii.

(** ** Messages, declarations and turns *)
Record Refs := MkRefs { refs_nxf_ids : list string }.
Definition Refs_default : Refs := MkRefs [].

Module Message.
Record Message := Mk { sender : Handle; body : string; refs : Refs }.
End Message.
Abbreviation Message := Message.Message (only parsing).

Module PersonaDecl.
Record PersonaDecl := Mk {
  handle : Handle;
  model : option string;
  permissions : option string;
  tools : list string;
  resume_session : bool;
}.
End PersonaDecl.
Abbreviation PersonaDecl := PersonaDecl.PersonaDecl (only parsing).

Module PromptBundle.
Record PromptBundle := Mk {
  system_prompt : string;
  use_claude_code_preset : bool;
  granted_tools : list string;
  declaration_hash : string;
}.
End PromptBundle.
Abbreviation PromptBundle := PromptBundle.PromptBundle (only parsing).

(** ** Sessions *)
Record EnvVar := MkEnvVar { env_name : string; env_value : string }.

Module Prompt.
Record Prompt := Mk {
  system_prompt : string;
  use_claude_code_preset : bool;
  declaration_hash : string;
}.
End Prompt.
Abbreviation Prompt := Prompt.Prompt (only parsing).

Record Turn := MkTurn { turn_thread : MessageId; turn_text : string }.

(** What a session is started from. *)
Module StartSpec.
Record StartSpec := Mk {
  v : N;
  session_key : SessionKey;
  cwd : string;
  env : list EnvVar;
  prompt : Prompt;
  turn : Turn;
  resume : option string;
  model : option string;
  tools : list string;
  permissions : option string;
  ledger_dir : string;
}.
End StartSpec.
Abbreviation StartSpec := StartSpec.StartSpec (only parsing).

Module StartOutcome.
Inductive StartOutcome := Spawned | Reattached | Waiting | Lost.
End StartOutcome.
Abbreviation StartOutcome := StartOutcome.StartOutcome (only parsing).

Module Liveness.
Inductive Liveness := Dead | Alive (open_call moved_at : option Timestamp).
End Liveness.
Abbreviation Liveness := Liveness.Liveness (only parsing).

(** One fact and the byte offset it starts at in the session's facts file. *)
Record DrainedFact := MkDrainedFact { drained_offset : N; drained_fact : SessionFact }.

(** ** The working directory *)
Module TreeOp.
Inductive TreeOp :=
| Prepare (run : RunId) (dir : string)
| Park (run : RunId) (dir : string) (occasion : Outcome).
End TreeOp.
Abbreviation TreeOp := TreeOp.TreeOp (only parsing).

Definition op_run (op : TreeOp) : RunId :=
  match op with TreeOp.Prepare run _ | TreeOp.Park run _ _ => run end.

Module TreeResult.
Inductive TreeResult :=
| Prepared (base : Base) (found : option ParkOutcome)
| Parked (outcome : ParkOutcome)
| Refused (reason : TreeRefusal) (text : string).
End TreeResult.
Abbreviation TreeResult := TreeResult.TreeResult (only parsing).

(** ** The calls *)
Class Outside (O : Type) := {
  (* [Clock::now]; whether the budget of the tick is used up; [Ulid::new]; [std::env::var] *)
  clock_now : O → O * Timestamp;
  budget_gone : O → O * bool;
  mint_ulid : O → O * string;
  env_var : string → O → O * option string;
  (* [MessagePort] *)
  port_find : MessageId → Key → O → O * option (option MessageId);
  port_post : MessageId → Handle → string → Refs → Key → O → O * option MessageId;
  port_read : MessageId → O → O * option (option Message);
  port_open_thread : MessageId → option MessageId → string → Handle → O → O * option unit;
  (* [DeclarationPort], [SidecarPort] *)
  port_persona : Handle → O → O * option PersonaDecl;
  port_prompt : Handle → O → O * option PromptBundle;
  port_turn : Handle → list TurnPart → O → O * option string;
  port_bundle_path : O → O * option string;
  (* [SessionBackend] *)
  backend_start : StartSpec → O → O * option StartOutcome;
  backend_nudge : SessionKey → string → O → O * option unit;
  backend_stop : SessionKey → bool → O → O * option unit;
  backend_alive : SessionKey → O → O * option Liveness;
  backend_drain_facts : SessionKey → N → O → O * option (list DrainedFact * N);
  (* [WorkTree]: an operation already in flight answers [None] *)
  tree_begin : TreeOp → O → O * option unit;
  tree_poll : O → O * option (TreeOp * TreeResult);
  tree_cancel : O → O * unit;
  (* the offset file of a session: read whole; written by temp file and rename *)
  read_file : string → O → O * option string;
  replace_file : string → string → O → O * option unit;
}.

(** ** Where a workspace's things are *)
Module Layout.
Record Layout := Mk { root : string; agent_logs : string; session_env : list EnvVar }.
End Layout.
Abbreviation Layout := Layout.Layout (only parsing).

Definition v2_dir (layout : Layout) : string := Layout.root layout +:+ "-v2".

Definition ledger_dir (layout : Layout) (session_key : SessionKey) : string :=
  Layout.agent_logs layout +:+ "/v2/" +:+ session_key.

(** ** The texts of the host

    [run-host/src/compose.rs]: what the host writes itself, from ids and state, and the text of a turn
    from [run-host/src/start.rs]. Nothing here goes into the log. *)
Definition newline : string := String (ascii_of_nat 10) "".
Definition blank_line : string := newline +:+ newline.

(** How a session ends its turn; [--needs-rework] appears exactly where the step declares a back edge. *)
Definition obligation (thread : MessageId) (step : StepDef) : string :=
  "When you are done, answer on your thread: `nxc reply --thread " +:+ thread +:+
  " - <<'EOF'`, your text, then `EOF` on its own line." +:+ newline +:+
  (match StepDef.on_needs_rework step with
   | Some _ =>
       "If the work has to go back, add `--needs-rework`: `nxc reply --thread " +:+ thread +:+
       " --needs-rework -`." +:+ newline
   | None => ""
   end) +:+
  "If you cannot reach a result, or need a decision, add `--escalate`: `nxc reply --thread " +:+
  thread +:+ " --escalate -`." +:+ newline +:+
  "This session cannot commission anybody. Whatever you need, ask for it with `--escalate`, never in a plain reply, which would advance the run."
  +:+ newline.

Definition REMINDER : string :=
  "You ended your turn without replying on your thread. Finish the work and reply now.".

Definition EARLIER_ATTEMPT : string :=
  "An earlier attempt of this step may already have pushed or opened a pull request. Check that first.".

Definition UNREAD : string := "(the message could not be read)".

(** The question a person is delivered. *)
Definition question (q : Question) (root : string) (last_verdict : option string) : string :=
  let said := default UNREAD last_verdict in
  match Question.asked q with
  | Asked.Escalation slot _ =>
      slot_member slot +:+ " on step " +:+ slot_step slot +:+ " asks for a decision:" +:+ blank_line +:+
      said +:+ blank_line +:+
      "Answer with `nxc reply --thread " +:+ root +:+ " -`; `nxc withdraw --thread " +:+ root +:+
      "` ends the run."
  | Asked.Ceiling step pass _ =>
      "Step " +:+ step +:+ " sent the work back " +:+ pretty (pass - 1) +:+
      " times, its ceiling. The last verdict:" +:+ blank_line +:+ said +:+ blank_line +:+
      "`nxc reply --thread " +:+ root +:+ " -` continues with exactly one more pass; `nxc reply --thread "
      +:+ root +:+ " --accept -` accepts the verdict as it stands; `nxc withdraw --thread " +:+ root +:+
      "` ends the run."
  end.

(** What a run that ends without a verdict to hand on says. *)
Definition discharge (outcome : option Outcome) (step : option StepId) (pass : N)
    (verdict : option MessageId) (parked : option ParkOutcome) (dir : string) : string :=
  let what :=
    match outcome with
    | Some Outcome.Withdrawn => "This run was withdrawn"
    | Some Outcome.Failed => "This run failed"
    | _ => "This run ended"
    end in
  (match step with
   | Some step => what +:+ " at step " +:+ step +:+ ", pass " +:+ pretty pass +:+ "."
   | None => what +:+ " before any step started."
   end) +:+
  (match verdict with
   | Some verdict => " The last verdict is message " +:+ verdict +:+ "."
   | None => ""
   end) +:+
  (match parked with
   | Some (ParkOutcome.Committed branch commit | ParkOutcome.OnOwnBranch branch commit) =>
       " Its uncommitted work is on branch " +:+ branch +:+ " at " +:+ commit +:+ ", in " +:+ dir +:+ "."
   | _ => ""
   end).

Definition park_notice (branch commit dir : string) : string :=
  "This run left a local, unpushed commit: " +:+ commit +:+ " on branch " +:+ branch +:+ ", in " +:+
  dir +:+ ".".

(** A step's task for its members; for the consolidator, its own prompt. *)
Definition task_text (step : StepDef) (handle : Handle) : option string :=
  if bool_decide (handle = SYNTH) then
    match StepDef.kind step with
    | StepKind.FanOut _ _ (Some synthesis) => Some (synthesis_prompt synthesis)
    | _ => None
    end
  else StepDef.task step.

(** [sections.join("\n\n")]. *)
Definition join_sections (sections : list string) : string :=
  match sections with
  | [] => ""
  | first :: rest => foldl (λ text section, text +:+ blank_line +:+ section) first rest
  end.

Example join_two : join_sections ["a"; "b"] = "a" +:+ blank_line +:+ "b".
Proof. reflexivity. Qed.
