(* ===== verification/TreeLedger.v ===== *)
(** * The ledger of tree operations

    [run-host/src/tree_ledger.rs]: one file per workspace that says who is doing a tree operation, written
    before each spawn and read first by whoever comes next. Its JSON, the process table and what the file
    system answers are parameters. *)

From S2P Require Import Prelude Text Utf8 Ids Codes Events Flow State Effects Status Ports.
From stdpp Require Import options.
From Stdlib Require Import Ascii.

Module LedgerEntry.
Record LedgerEntry := Mk {
  run : RunId;
  op : string;
  step : string;
  pid : option N;
  start_time : option string;
  began_at : Timestamp;
  owner_id : string;
  epoch : N;
  lock_existed_before : bool;
  spawning : bool;
  locks_before : list string;
}.
End LedgerEntry.
Abbreviation LedgerEntry := LedgerEntry.LedgerEntry (only parsing).

Class LedgerSerde := {
  ledger_entry_to_vec : LedgerEntry → option string;
  ledger_entry_from_slice : string → option LedgerEntry;
}.

(** What the ledger asks beside [Outside]: [ProcessGuard::is_alive], the time since a file was written in
    milliseconds, and the calls that make a directory and remove a file. *)
Class LedgerPorts (O : Type) := {
  process_alive : N → string → O → O * bool;
  file_age : string → O → O * option N;
  make_dirs : string → O → O * option unit;
  remove_file : string → O → O * unit;
}.

(** [Path::with_extension] on the name of a file: the text after its last dot is replaced, where a dot at
    the start of the name begins no extension. *)
Definition with_extension (name extension : string) : string :=
  match rsplit_once "."%char name with
  | Some (EmptyString, _) | None => name +:+ "." +:+ extension
  | Some (stem, _) => stem +:+ "." +:+ extension
  end.

Definition SPAWN_GRACE_MS : N := 2000.

Section ledger.
Context {O : Type} {outside : Outside O} {ports : LedgerPorts O} {serde : LedgerSerde}.
Context (agent_logs workspace_id : string).

Definition ledger_parent : string := agent_logs +:+ "/v2/tree".
Definition ledger_name : string := workspace_id +:+ ".json".
Definition ledger_path : string := ledger_parent +:+ "/" +:+ ledger_name.

(** Where a child records its own pid as its first act. *)
Definition child_record : string := ledger_parent +:+ "/" +:+ with_extension ledger_name "child".

Definition ledger_read (o : O) : O * option LedgerEntry :=
  let '(o, bytes) := read_file ledger_path o in (o, bytes ≫= ledger_entry_from_slice).

(** By temp file and rename. *)
Definition ledger_write (entry : LedgerEntry) (o : O) : O * option unit :=
  let '(o, made) := make_dirs ledger_parent o in
  match made, ledger_entry_to_vec entry with
  | Some _, Some bytes => replace_file ledger_path bytes o
  | _, _ => (o, None)
  end.

Definition ledger_delete (o : O) : O :=
  let '(o, _) := remove_file ledger_path o in
  let '(o, _) := remove_file child_record o in o.

Definition self_recorded_pid (o : O) : O * option N :=
  let '(o, text) := read_file child_record o in
  (o, text ≫= λ text, from_utf8 text ≫= λ text, parse_uint u32_max (trim text)).

(** Whether the entry is young enough that a spawn it announces may still be starting. *)
Definition within_spawn_grace (o : O) : O * bool :=
  let '(o, age) := file_age ledger_path o in (o, from_option (λ age, age <? SPAWN_GRACE_MS) false age).

(** Deletes the entry only if this owner wrote it. *)
Definition delete_own (owner_id : string) (o : O) : O :=
  let '(o, entry) := ledger_read o in
  if from_option (λ entry, bool_decide (LedgerEntry.owner_id entry = owner_id)) false entry
  then ledger_delete o else o.

(** [tree.in_flight] of status: the entry with its pid checked, a dead child reading as none. *)
Definition in_flight (o : O) : O * option InFlight :=
  let '(o, entry) := ledger_read o in
  match entry with
  | Some entry =>
      match LedgerEntry.pid entry, LedgerEntry.start_time entry with
      | Some pid, Some start_time =>
          let '(o, alive) := process_alive pid start_time o in
          (o, if alive : bool
              then Some (MkInFlight (LedgerEntry.op entry) (LedgerEntry.step entry)
                           (LedgerEntry.began_at entry))
              else None)
      | _, _ => (o, None)
      end
  | None => (o, None)
  end.
End ledger.
