(* ===== verification/Contract.v ===== *)
(** * The storage contract

    [crates/run-contracts/src/store.rs]: the values of the [RunStore] trait, its errors with the order
    [append] checks them in, and the trait itself as a class of operations on a store that is passed
    along. A call that fails still hands back a store: one error of [append] writes. *)

From S2P Require Import Prelude Text Ids Codes Events.
From stdpp Require Import options.

(** A stored value: the bytes of a string. *)
Abbreviation Bytes := string (only parsing).
Abbreviation Epoch := N (only parsing).

(** ** Errors *)
Module StoreError.
Inductive StoreError :=
| Fenced
| SeqMismatch
| DuplicateKey (seq : Seq)
| CasFailed (key : Key)
| VersionTooOld (max_v : N)
| Busy
| Protected (key : Key)
| UnknownRun
| InvalidEvent (what : string)
| Backend (what : string)
| DamagedRow (key : Key) (seq : option Seq).

(** The name the golden pins. *)
Definition kind (e : StoreError) : string :=
  match e with
  | Fenced => "fenced"
  | SeqMismatch => "seq_mismatch"
  | DuplicateKey _ => "duplicate_key"
  | CasFailed _ => "cas_failed"
  | VersionTooOld _ => "version_too_old"
  | Busy => "busy"
  | Protected _ => "protected"
  | UnknownRun => "unknown_run"
  | InvalidEvent _ => "invalid_event"
  | Backend _ => "backend"
  | DamagedRow _ _ => "damaged_row"
  end.

(** The order [append] checks in, first wins. *)
Definition PRECEDENCE : list string := ["fenced"; "seq_mismatch"; "duplicate_key"; "cas_failed"].

(** What a person reads. *)
Definition display (e : StoreError) : string :=
  match e with
  | Fenced => "fenced: the lease of this run moved on"
  | SeqMismatch => "sequence mismatch: another writer appended"
  | DuplicateKey seq => "key already in the log at seq " +:+ pretty seq
  | CasFailed key => "compare-and-set failed on " +:+ key
  | VersionTooOld max_v => "a newer version has written to this run (v" +:+ pretty max_v +:+ ")"
  | Busy => "the store is locked"
  | Protected key => key +:+ " is never deleted"
  | UnknownRun => "no such run"
  | InvalidEvent what => "invalid event: " +:+ what
  | Backend what => "store backend: " +:+ what
  | DamagedRow key None => key +:+ " does not decode"
  | DamagedRow key (Some seq) => key +:+ " at seq " +:+ pretty seq +:+ " does not decode"
  end.
End StoreError.
Abbreviation StoreError := StoreError.StoreError (only parsing).

Global Instance StoreError_eq_dec : EqDecision StoreError.
Proof. solve_decision. Defined.

Abbreviation StoreResult := (result StoreError) (only parsing).

(** ** Values *)
Module Cas.
(** One compare-and-set: [from = None] means it must not exist, [to = None] deletes. *)
Record Cas := Mk { key : Key; from : option Bytes; to : option Bytes }.
End Cas.
Abbreviation Cas := Cas.Cas (only parsing).

Module Enqueued.
Inductive Enqueued := Accepted | Duplicate.
End Enqueued.
Abbreviation Enqueued := Enqueued.Enqueued (only parsing).

Module TimerChangeKind.
Inductive TimerChangeKind := Armed | Cleared | Fired.
End TimerChangeKind.
Abbreviation TimerChangeKind := TimerChangeKind.TimerChangeKind (only parsing).

Module TimerChange.
Record TimerChange := Mk { timer : string; change : TimerChangeKind; fire_at : Timestamp }.
End TimerChange.
Abbreviation TimerChange := TimerChange.TimerChange (only parsing).

(** What an [append] did. *)
Module Appended.
Record Appended := Mk { last_seq : Seq; timers : list TimerChange }.
End Appended.
Abbreviation Appended := Appended.Appended (only parsing).

(** An armed timer that is due. *)
Module Timer.
Record Timer := Mk { run : RunId; timer : string; fire_at : Timestamp; purpose : TimerPurpose }.
End Timer.
Abbreviation Timer := Timer.Timer (only parsing).

(** A run the store knows. *)
Module RunRow.
Record RunRow := Mk {
  run : RunId;
  workspace_id : string;
  tenant : string;
  finished : bool;
  last_seq : Seq;
  max_v : N;
  commissioned_at : Timestamp;
}.
End RunRow.
Abbreviation RunRow := RunRow.RunRow (only parsing).

(** The bounds a backend declares. *)
Module StoreLimits.
Record StoreLimits := Mk {
  max_events_per_append : option N;
  max_event_bytes : option N;
  max_events_per_run : option N;
  max_inbox_depth : option N;
}.
Definition default : StoreLimits := Mk None None None None.
End StoreLimits.
Abbreviation StoreLimits := StoreLimits.StoreLimits (only parsing).

(** ** The trait

    [S] is the store behind [&self]: a call returns the store it leaves with its result, so a reading
    call can also meet what another process wrote in between. *)
Class RunStore (S : Type) := {
  enqueue : RunId → Event → list Cas → S → S * StoreResult Enqueued;
  append : RunId → Seq → Epoch → list Event → list Key → list Cas → S → S * StoreResult Appended;
  next_input : RunId → S → S * StoreResult (option Event);
  due_timers : Timestamp → S → S * StoreResult (list Timer);
  compare_and_set : string → option Bytes → option Bytes → S → S * StoreResult unit;
  get : string → S → S * StoreResult (option Bytes);
  open_runs : S → S * StoreResult (list RunRow);
  load : RunId → Seq → S → S * StoreResult (list Event);
  limits : S → StoreLimits;
}.
