(* ===== verification/Sqlite.v ===== *)
(** * The SQLite store

    [crates/run-store-sqlite]: the tables of [run.sqlite] as a record, one definition per statement with
    the meaning SQL gives it, and the store's calls on top of them. A call is one transaction: an error
    before its commit leaves the tables as they were. What SQLite itself may answer to any call (a lock, an
    I/O error) is the argument [fault]; where a transaction meets it makes no difference, because all of
    it rolls back.

    The JSON of stored values comes from a library and is the class [Serde]: writing may fail, and what
    was written reads back. The ULID reader is the class [Ulid]. *)

From S2P Require Import Prelude Text Ids Codes Events Flow Contract.
From stdpp Require Import options.
From Stdlib Require Import Ascii.

(** ** The values the store reads and writes itself *)
Module Lease.
Record Lease := Mk { owner_id : string; epoch : Epoch; expires_at : Timestamp }.
End Lease.
Abbreviation Lease := Lease.Lease (only parsing).

Module EffectEntry.
Record EffectEntry := Mk { state : string; epoch : Epoch }.
End EffectEntry.
Abbreviation EffectEntry := EffectEntry.EffectEntry (only parsing).

(** ** What is outside the repository *)
Class Ulid := ulid_from_string : string → bool.

Class Serde := {
  Text : Type;
  event_to_string : Event → option Text;
  event_from_str : Text → option Event;
  lease_to_vec : Lease → option Bytes;
  lease_from_slice : Bytes → option Lease;
  entry_to_vec : EffectEntry → option Bytes;
  entry_from_slice : Bytes → option EffectEntry;
  instant_to_vec : Timestamp → option Bytes;
  instant_from_slice : Bytes → option Timestamp;
  count_to_vec : N → option Bytes;
  count_from_slice : Bytes → option N;
  flow_from_slice : Bytes → option FlowDef;
}.

(** Reading undoes writing. *)
Class SerdeLaws (serde : Serde) := {
  event_reads_back e t : event_to_string e = Some t → event_from_str t = Some e;
  lease_reads_back l b : lease_to_vec l = Some b → lease_from_slice b = Some l;
  entry_reads_back x b : entry_to_vec x = Some b → entry_from_slice b = Some x;
  instant_reads_back t b : instant_to_vec t = Some b → instant_from_slice b = Some t;
  count_reads_back n b : count_to_vec n = Some b → count_from_slice b = Some n;
}.

(** What SQLite answers when it cannot serve a statement. *)
Module Fault.
Inductive Fault := Locked | Failed (what : string).
End Fault.
Abbreviation Fault := Fault.Fault (only parsing).

(** A locked database is [Busy], whichever statement met it. *)
Definition db (error : Fault) : StoreError :=
  match error with
  | Fault.Locked => StoreError.Busy
  | Fault.Failed what => StoreError.Backend what
  end.

(** ** [ORDER BY]: rows in the order of a comparison *)
Section order_by.
Context {A : Type} (le : A → A → bool).

Fixpoint insert_by (x : A) (l : list A) : list A :=
  match l with
  | [] => [x]
  | y :: l' => if le x y then x :: l else y :: insert_by x l'
  end.

Fixpoint order_by (l : list A) : list A :=
  match l with [] => [] | x :: l => insert_by x (order_by l) end.
End order_by.

(** [ORDER BY] a number and then a text, in the order of its bytes. *)
Definition column_le {A} (number : A → Z) (text : A → string) (a b : A) : bool :=
  (number a <? number b)%Z || ((number a =? number b)%Z && String.leb (text a) (text b)).

(** A [u64] bound to a statement is an [INTEGER], which is signed. *)
Definition sql_u64 (n : N) : StoreResult N :=
  if (Z.of_N n <=? i64_max)%Z then Ok n
  else Err (StoreError.Backend "out of range integral type conversion attempted").

(** ** The tables *)
Section tables.
Context {serde : Serde}.

Record EventRow := MkEventRow {
  events_run : string;
  events_seq : N;
  events_at : Z;
  events_v : N;
  events_key : string;
  events_origin : string;
  events_body : Text;
}.

Record InboxRow := MkInboxRow {
  inbox_run : string;
  inbox_key : string;
  inbox_at : Z;
  inbox_origin : string;
  inbox_body : Text;
}.

Record TimerRow := MkTimerRow {
  timers_fire_at : Z;
  timers_purpose : string;
  timers_state : string;
}.

Record RunsRow := MkRunsRow {
  runs_workspace_id : string;
  runs_tenant : string;
  runs_finished : bool;
  runs_last_seq : N;
  runs_max_v : N;
  runs_commissioned_at : Z;
}.

(** [events] and [inbox] in the order of their row ids; the other tables by their primary key. *)
Record Tables := MkTables {
  t_events : list EventRow;
  t_inbox : list InboxRow;
  t_timers : gmap (string * string) TimerRow;
  t_kv : gmap string Bytes;
  t_runs : gmap string RunsRow;
}.

Definition new_tables : Tables := MkTables [] [] ∅ ∅ ∅.

Global Instance set_t_events : Setter t_events := λ x t,
  MkTables x (t_inbox t) (t_timers t) (t_kv t) (t_runs t).
Global Instance set_t_inbox : Setter t_inbox := λ x t,
  MkTables (t_events t) x (t_timers t) (t_kv t) (t_runs t).
Global Instance set_t_timers : Setter t_timers := λ x t,
  MkTables (t_events t) (t_inbox t) x (t_kv t) (t_runs t).
Global Instance set_t_kv : Setter t_kv := λ x t,
  MkTables (t_events t) (t_inbox t) (t_timers t) x (t_runs t).
Global Instance set_t_runs : Setter t_runs := λ x t,
  MkTables (t_events t) (t_inbox t) (t_timers t) (t_kv t) x.
End tables.

(** ** Reading the tables ([lib.rs], [append.rs]) *)
Definition OWNER_PREFIX : string := "owner/".
Definition EFFECT_PREFIX : string := "effect/".
Definition HOST_SEEN_PREFIX : string := "host-seen/".

Definition owner_key (run : string) : string := OWNER_PREFIX +:+ run.
Definition is_owner_key (key : string) : bool := starts_with OWNER_PREFIX key.

Definition invalid (what : string) : StoreError := StoreError.InvalidEvent what.

(** What a call reads of a run's row. *)
Module RunRowState.
Record RunRowState := Mk { last_seq : Seq; max_v : N; workspace_id : string; tenant : string }.
End RunRowState.

Section reading.
Context {serde : Serde} {ulid : Ulid}.
Implicit Types t : Tables.

(** [INSERT .. ON CONFLICT DO UPDATE], [DELETE] and [SELECT] on [kv]. *)
Definition select_kv t (key : string) : option Bytes := t_kv t !! key.

(** A body that does not read as an event is [DamagedRow]. *)
Definition decode_event (key : Key) (seq : option Seq) (body : Text) : StoreResult Event :=
  match event_from_str body with
  | Some event => Ok event
  | None => Err (StoreError.DamagedRow key seq)
  end.

Definition stored_run_id (text : string) : StoreResult RunId :=
  match RunId_parse ulid_from_string text with
  | Some run => Ok run
  | None => Err (StoreError.Backend "a run row holds no run id")
  end.

Definition read_run t (run : RunId) : option RunRowState.RunRowState :=
  row ← t_runs t !! run;
  Some (RunRowState.Mk (runs_last_seq row) (runs_max_v row) (runs_workspace_id row)
          (runs_tenant row)).

Definition logged_seq t (run : RunId) (key : string) : option Seq :=
  events_seq <$>
  find_first (λ row, bool_decide (events_run row = run) && bool_decide (events_key row = key))
    (t_events t).

Definition waiting t (run : RunId) (key : string) : bool :=
  existsb (λ row, bool_decide (inbox_run row = run) && bool_decide (inbox_key row = key))
    (t_inbox t).

(** The rows of one run, in the order of the position and of the row id. *)
Definition event_rows t (run : RunId) (from_seq : Seq) : list EventRow :=
  order_by (λ a b, events_seq a <=? events_seq b)
    (filter (λ row, events_run row = run ∧ from_seq < events_seq row) (t_events t)).

Definition inbox_rows t (run : RunId) : list InboxRow :=
  filter (λ row, inbox_run row = run) (t_inbox t).

(** ** The lease ([lease.rs]) *)
Definition decode_lease (key : string) (bytes : Bytes) : StoreResult Lease :=
  match lease_from_slice bytes with
  | Some lease => Ok lease
  | None => Err (StoreError.DamagedRow key None)
  end.

(** The epoch of a run's lease, or none while nobody ever held it. *)
Definition current_epoch t (run : string) : StoreResult (option Epoch) :=
  match select_kv t (owner_key run) with
  | None => Ok None
  | Some bytes => lease <-? decode_lease (owner_key run) bytes ;; Ok (Some (Lease.epoch lease))
  end.

Definition check_owner_value (key : string) (new : option Bytes) : StoreResult unit :=
  match new with
  | None => Err (StoreError.Protected key)
  | Some new =>
      match lease_from_slice new with
      | Some _ => Ok tt
      | None => Err (invalid (key +:+ " holds a lease"))
      end
  end.

Definition check_epoch_keeps_rising (key : string) (current new : option Bytes) :
    StoreResult unit :=
  match current, new with
  | Some current, Some new =>
      new <-? decode_lease key new ;;
      current <-? decode_lease key current ;;
      if Lease.epoch new <? Lease.epoch current then Err (StoreError.Protected key) else Ok tt
  | _, _ => Ok tt
  end.

(** The run an effect key names: [effect/<run>/<key>]. *)
Definition effect_run (key : string) : option RunId :=
  rest ← strip_prefix EFFECT_PREFIX key;
  run ← (if contains_char slash rest then Some (before_first slash rest) else None);
  RunId_parse ulid_from_string run.

Definition check_effect_write t (key : string) (value : Bytes) : StoreResult unit :=
  let invalid what := invalid (key +:+ ": " +:+ what) in
  match effect_run key with
  | None => Err (invalid "an effect key is effect/<run>/<key>")
  | Some run =>
      match entry_from_slice value with
      | None => Err (invalid "an effect entry records its state and its epoch")
      | Some entry =>
          epoch <-? current_epoch t run ;;
          if bool_decide (epoch = Some (EffectEntry.epoch entry)) then Ok tt
          else Err StoreError.Fenced
      end
  end.

(** ** The checks of a call ([append.rs]) *)
Definition holds_separator (s : string) : bool :=
  contains_char slash s || contains_char "\"%char s.

Definition check_event (run : RunId) (event : Event) : StoreResult unit :=
  if negb (bool_decide (Event.run event = run))
  then Err (invalid ("event " +:+ Event.key event +:+ " is of another run"))
  else match Event.body event with
  | EventBody.Commissioned named workspace_id tenant _ _ root_thread _ =>
      if negb (bool_decide (named = run)) then Err (invalid "commissioned names another run")
      else if bool_decide (workspace_id = "") || holds_separator workspace_id
      then Err (invalid "commissioned.workspace_id is the opaque id, never a path")
      else if bool_decide (tenant = "") || holds_separator tenant
      then Err (invalid "commissioned.tenant is an opaque id, never a path")
      else match ulid ← strip_prefix "m-" root_thread;
                 RunId_parse ulid_from_string ("r-" +:+ ulid) with
      | None => Err (invalid "commissioned.root_thread is a message id")
      | Some _ => Ok tt
      end
  | _ => Ok tt
  end.

Fixpoint check_events (run : RunId) (keys : list Key) (events : list Event) : StoreResult unit :=
  match events with
  | [] => Ok tt
  | event :: events =>
      _ <-? check_event run event ;;
      if bool_decide (Event.key event ∈ keys)
      then Err (invalid ("key " +:+ Event.key event +:+ " twice in one call"))
      else check_events run (Event.key event :: keys) events
  end.

Fixpoint check_cas (keys : list Key) (cas : list Cas) : StoreResult unit :=
  match cas with
  | [] => Ok tt
  | item :: cas =>
      if is_owner_key (Cas.key item) then Err (StoreError.Protected (Cas.key item))
      else if bool_decide (Cas.key item ∈ keys)
      then Err (invalid ("CAS on " +:+ Cas.key item +:+ " twice in one call"))
      else check_cas (Cas.key item :: keys) cas
  end.

(** What a call is refused for whatever the store holds. *)
Definition check_call (run : RunId) (events : list Event) (cas : list Cas) : StoreResult unit :=
  _ <-? check_events run [] events ;; check_cas [] cas.

Fixpoint check_commissioned_at (index : nat) (events : list Event) (last_seq : Seq)
    (row : option RunRowState.RunRowState) : StoreResult unit :=
  match events with
  | [] => Ok tt
  | event :: events =>
      let rest := check_commissioned_at (S index) events last_seq row in
      match Event.body event with
      | EventBody.Commissioned _ workspace_id tenant _ _ _ _ =>
          if negb (last_seq =? 0) || negb (index =? 0)%nat
          then Err (invalid ("commissioned " +:+ Event.key event +:+
                               " is not the first event of its run"))
          else match row with
          | Some row =>
              if negb (bool_decide (RunRowState.workspace_id row = workspace_id))
              then Err (invalid "commissioned changes workspace_id")
              else if negb (bool_decide (RunRowState.tenant row = tenant))
              then Err (invalid "commissioned changes tenant")
              else rest
          | None => rest
          end
      | _ => rest
      end
  end.

(** [commissioned] opens a log, so it is its first event, and what it names never changes. *)
Definition check_commissioned_position (events : list Event) (last_seq : Seq)
    (row : option RunRowState.RunRowState) : StoreResult unit :=
  check_commissioned_at 0 events last_seq row.

Definition is_finished (body : EventBody) : bool :=
  match body with EventBody.Decision (Decision.Finished _ _) => true | _ => false end.

Definition is_commissioned (body : EventBody) : bool :=
  match body with EventBody.Commissioned _ _ _ _ _ _ _ => true | _ => false end.

Definition wire (event : Event) : StoreResult Text :=
  match event_to_string event with
  | Some text => Ok text
  | None => Err (invalid ("event " +:+ Event.key event +:+ " cannot be written"))
  end.
End reading.

(** ** Writing the tables *)
Section writing.
Context {serde : Serde} {ulid : Ulid}.
Implicit Types t : Tables.

(** One compare-and-set. *)
Definition apply_cas t (item : Cas) : StoreResult Tables :=
  let owner_key := is_owner_key (Cas.key item) in
  _ <-? (if owner_key then check_owner_value (Cas.key item) (Cas.to item) else Ok tt) ;;
  _ <-? (if starts_with EFFECT_PREFIX (Cas.key item) then
           match Cas.to item with
           | Some value => check_effect_write t (Cas.key item) value
           | None => Ok tt
           end
         else Ok tt) ;;
  let current := select_kv t (Cas.key item) in
  if negb (bool_decide (current = Cas.from item)) then Err (StoreError.CasFailed (Cas.key item)) else
  _ <-? (if owner_key then check_epoch_keeps_rising (Cas.key item) current (Cas.to item)
         else Ok tt) ;;
  Ok (t <| t_kv := match Cas.to item with
                   | Some value => <[Cas.key item := value]> (t_kv t)
                   | None => delete (Cas.key item) (t_kv t)
                   end |>).

Fixpoint apply_cas_list t (cas : list Cas) : StoreResult Tables :=
  match cas with
  | [] => Ok t
  | item :: cas => t <-? apply_cas t item ;; apply_cas_list t cas
  end.

(** The row of a run [commissioned] creates. *)
Definition create_run t (run : RunId) (event : Event) : StoreResult Tables :=
  match Event.body event with
  | EventBody.Commissioned _ workspace_id tenant _ _ _ _ =>
      match t_runs t !! run with
      | Some _ => Err (StoreError.Backend "UNIQUE constraint failed: runs.run")
      | None =>
          Ok (t <| t_runs :=
            <[run := MkRunsRow workspace_id tenant false 0 0 (Event.at_ event)]> (t_runs t) |>)
      end
  | _ => Err StoreError.UnknownRun
  end.

Definition delete_inbox_row t (run : RunId) (key : Key) : Tables :=
  t <| t_inbox := filter (λ row, ¬ (inbox_run row = run ∧ inbox_key row = key)) (t_inbox t) |>.

Definition delete_inbox_rows t (run : RunId) (consume : list Key) : Tables :=
  fold_left (λ t key, delete_inbox_row t run key) consume t.

(** The store owns the position. *)
Definition insert_event t (event : Event) (seq : Seq) : StoreResult Tables :=
  let positioned := event <| Event.seq := seq |> in
  text <-? wire positioned ;;
  seq <-? sql_u64 seq ;;
  if existsb (λ row, bool_decide (events_run row = Event.run event) &&
                     (events_seq row =? seq)) (t_events t)
  then Err (StoreError.Backend "UNIQUE constraint failed: events.run, events.seq") else
  if existsb (λ row, bool_decide (events_run row = Event.run event) &&
                     bool_decide (events_key row = Event.key event)) (t_events t)
  then Err (StoreError.Backend "UNIQUE constraint failed: events.run, events.key") else
  Ok (t <| t_events := t_events t ++
    [MkEventRow (Event.run event) seq (Event.at_ event) (Event.v event) (Event.key event)
       (as_str (Event.origin event)) text] |>).

(** The loop over the events of a call: the last position with the tables. *)
Fixpoint insert_events t (seq : Seq) (events : list Event) : StoreResult (Tables * Seq) :=
  match events with
  | [] => Ok (t, seq)
  | event :: events =>
      let seq := u64_succ seq in
      t <-? insert_event t event seq ;; insert_events t seq events
  end.

(** ** The timer index ([timers.rs]) *)
Definition ARMED : string := "armed".
Definition CLEARED : string := "cleared".
Definition FIRED : string := "fired".

Definition change (timer : string) (kind : TimerChangeKind) (fire_at : Timestamp) : TimerChange :=
  TimerChange.Mk timer kind fire_at.

Definition arm t (run : RunId) (timer : string) (fire_at : Timestamp) (purpose : TimerPurpose) :
    Tables :=
  t <| t_timers := <[(run, timer) := MkTimerRow fire_at (as_str purpose) ARMED]> (t_timers t) |>.

Definition is_armed (row : TimerRow) : bool := bool_decide (timers_state row = ARMED).

Definition set_state t (run : RunId) (timer : string) (row : TimerRow) (state : string) : Tables :=
  t <| t_timers :=
    <[(run, timer) := MkTimerRow (timers_fire_at row) (timers_purpose row) state]> (t_timers t) |>.

Definition clear t (run : RunId) (timer : string) : Tables * option Timestamp :=
  match t_timers t !! (run, timer) with
  | Some row =>
      if is_armed row
      then (set_state t run timer row CLEARED, Some (from_unix_millis (timers_fire_at row)))
      else (t, None)
  | None => (t, None)
  end.

Definition fire t (run : RunId) (timer : string) (fire_at : Timestamp) : Tables * bool :=
  match t_timers t !! (run, timer) with
  | Some row =>
      if is_armed row && (timers_fire_at row =? fire_at)%Z
      then (set_state t run timer row FIRED, true) else (t, false)
  | None => (t, false)
  end.

(** The armed timers of a run, [ORDER BY fire_at, timer]. *)
Definition armed_timers t (run : RunId) : list string :=
  (order_by (column_le snd fst)
     (omap (λ '((r, timer), row),
              if bool_decide (r = run) && is_armed row
              then Some (timer, timers_fire_at row) else None)
        (map_to_list (t_timers t)))).*1.

Fixpoint clear_each t (run : RunId) (timers : list string) : Tables * list TimerChange :=
  match timers with
  | [] => (t, [])
  | timer :: timers =>
      let '(t, cleared) := clear t run timer in
      let '(t, changes) := clear_each t run timers in
      (t, match cleared with
          | Some fire_at => change timer TimerChangeKind.Cleared fire_at :: changes
          | None => changes
          end)
  end.

Definition clear_all t (run : RunId) : Tables * list TimerChange :=
  clear_each t run (armed_timers t run).

(** What one event does to the index. *)
Definition apply_event t (run : RunId) (event : Event) : Tables * list TimerChange :=
  match Event.body event with
  | EventBody.Decision (Decision.TimerSet timer fire_at purpose) =>
      (arm t run timer fire_at purpose, [change timer TimerChangeKind.Armed fire_at])
  | EventBody.Decision (Decision.TimerCleared timer) =>
      let '(t, cleared) := clear t run timer in
      (t, match cleared with
          | Some fire_at => [change timer TimerChangeKind.Cleared fire_at]
          | None => []
          end)
  | EventBody.TimerFired timer fire_at =>
      let '(t, fired) := fire t run timer fire_at in
      (t, if fired : bool then [change timer TimerChangeKind.Fired fire_at] else [])
  | EventBody.Decision (Decision.Finished _ _) => clear_all t run
  | _ => (t, [])
  end.

Fixpoint apply t (run : RunId) (events : list Event) : Tables * list TimerChange :=
  match events with
  | [] => (t, [])
  | event :: events =>
      let '(t, now) := apply_event t run event in
      let '(t, later) := apply t run events in
      (t, now ++ later)
  end.

(** Armed rows due at [now], oldest first; a purpose this version cannot read is skipped. *)
Fixpoint due_rows (rows : list (string * string * TimerRow)) : StoreResult (list Timer) :=
  match rows with
  | [] => Ok []
  | (run, timer, row) :: rows =>
      match parse (timers_purpose row) with
      | TimerPurpose.Unknown _ => due_rows rows
      | purpose =>
          run <-? stored_run_id run ;;
          due <-? due_rows rows ;;
          Ok (Timer.Mk run timer (from_unix_millis (timers_fire_at row)) purpose :: due)
      end
  end.

(** [ORDER BY fire_at, run, timer]. *)
Definition due_le (a b : string * string * TimerRow) : bool :=
  let '(run_a, timer_a, row_a) := a in let '(run_b, timer_b, row_b) := b in
  (timers_fire_at row_a <? timers_fire_at row_b)%Z ||
  ((timers_fire_at row_a =? timers_fire_at row_b)%Z &&
   (String.ltb run_a run_b || (String.eqb run_a run_b && String.leb timer_a timer_b))).

Definition due t (now : Timestamp) : StoreResult (list Timer) :=
  due_rows (order_by due_le
    (filter (λ '(_, row), is_armed row && (timers_fire_at row <=? now)%Z)
       (map_to_list (t_timers t)))).
End writing.

(** ** The calls

    A transaction is a function of the tables: [Err] rolls back, [Ok] commits. *)
Section calls.
Context {serde : Serde} {ulid : Ulid}.
Implicit Types (t : Tables) (fault : option Fault).

(** [BEGIN IMMEDIATE] and what follows it. *)
Definition transaction {A} fault (body : Tables → StoreResult (Tables * A)) t :
    Tables * StoreResult A :=
  match fault with
  | Some error => (t, Err (db error))
  | None => match body t with Ok (t', a) => (t', Ok a) | Err e => (t, Err e) end
  end.

(** A reading statement. *)
Definition query {A} fault (body : Tables → StoreResult A) t : Tables * StoreResult A :=
  transaction fault (λ t, a <-? body t ;; Ok (t, a)) t.

Definition max_version (events : list Event) : N := foldr N.max 0 (Event.v <$> events).

(** The body of [append] once the keys are known to be new: its writes and its answer. *)
Definition append_new t (run : RunId) (row : option RunRowState.RunRowState) (last_seq : Seq)
    (events : list Event) (consume : list Key) (cas : list Cas) : StoreResult (Tables * Appended) :=
  t <-? (match row, events with
         | None, event :: _ => create_run t run event
         | _, _ => Ok t
         end) ;;
  _ <-? check_commissioned_position events last_seq row ;;
  inserted <-? insert_events t last_seq events ;;
  let '(t, seq) := inserted in
  let t := delete_inbox_rows t run consume in
  let '(t, timers) := apply t run events in
  t <-? apply_cas_list t cas ;;
  let finishes := existsb (λ event, is_finished (Event.body event)) events in
  let t := t <| t_runs := alter (λ row,
    MkRunsRow (runs_workspace_id row) (runs_tenant row) (runs_finished row || finishes) seq
      (N.max (runs_max_v row) (max_version events)) (runs_commissioned_at row)) run (t_runs t) |> in
  Ok (t, Appended.Mk seq timers).

(** The transaction of [append]. A key that is in the log already commits too: the rows it consumes go
    with the error. *)
Definition append_tx (run : RunId) (expected_seq : Seq) (fence : Epoch) (events : list Event)
    (consume : list Key) (cas : list Cas) t : StoreResult (Tables * StoreResult Appended) :=
  epoch <-? current_epoch t run ;;
  if negb (bool_decide (epoch = Some fence)) then Err StoreError.Fenced else
  let row := read_run t run in
  let first_is_commissioned :=
    match events with event :: _ => is_commissioned (Event.body event) | [] => false end in
  if negb (bool_decide (is_Some row)) && negb first_is_commissioned
  then Err StoreError.UnknownRun else
  let last_seq := from_option RunRowState.last_seq 0 row in
  if negb (last_seq =? expected_seq) then Err StoreError.SeqMismatch else
  let max_v := from_option RunRowState.max_v 0 row in
  if existsb (λ event, Event.v event <? max_v) events
  then Err (StoreError.VersionTooOld max_v) else
  match find_map (λ event, logged_seq t run (Event.key event)) events with
  | Some seq => Ok (delete_inbox_rows t run consume, Err (StoreError.DuplicateKey seq))
  | None =>
      done <-? append_new t run row last_seq events consume cas ;;
      let '(t, appended) := done in Ok (t, Ok appended)
  end.

(** The answer of a transaction that may commit an error. *)
Definition flatten_call {A} (called : Tables * StoreResult (StoreResult A)) :
    Tables * StoreResult A :=
  let '(t, r) := called in (t, match r with Ok inner => inner | Err e => Err e end).

Definition sql_append fault (run : RunId) (expected_seq : Seq) (fence : Epoch) (events : list Event)
    (consume : list Key) (cas : list Cas) t : Tables * StoreResult Appended :=
  match check_call run events cas with
  | Err e => (t, Err e)
  | Ok _ =>
      flatten_call (transaction fault (append_tx run expected_seq fence events consume cas) t)
  end.

Definition enqueue_tx (run : RunId) (event : Event) (cas : list Cas) t :
    StoreResult (Tables * Enqueued) :=
  if waiting t run (Event.key event) || bool_decide (is_Some (logged_seq t run (Event.key event)))
  then Ok (t, Enqueued.Duplicate) else
  t <-? (match read_run t run, is_commissioned (Event.body event) with
         | None, true => create_run t run event
         | None, false => Err StoreError.UnknownRun
         | Some _, true =>
             Err (invalid ("commissioned " +:+ Event.key event +:+ " for a run that has one"))
         | Some _, false => Ok t
         end) ;;
  t <-? apply_cas_list t cas ;;
  let waiting_input := event <| Event.seq := 0 |> in
  text <-? wire waiting_input ;;
  Ok (t <| t_inbox := t_inbox t ++
        [MkInboxRow run (Event.key event) (Event.at_ event) (as_str (Event.origin event)) text] |>,
      Enqueued.Accepted).

Definition sql_enqueue fault (run : RunId) (event : Event) (cas : list Cas) t :
    Tables * StoreResult Enqueued :=
  match check_call run [event] cas with
  | Err e => (t, Err e)
  | Ok _ => transaction fault (enqueue_tx run event cas) t
  end.

Definition sql_compare_and_set fault (key : string) (from to : option Bytes) t :
    Tables * StoreResult unit :=
  transaction fault (λ t, t <-? apply_cas t (Cas.Mk key from to) ;; Ok (t, tt)) t.

Definition sql_get fault (key : string) : Tables → Tables * StoreResult (option Bytes) :=
  query fault (λ t, Ok (select_kv t key)).

(** The oldest inbox entry of a run. *)
Definition sql_next_input fault (run : RunId) : Tables → Tables * StoreResult (option Event) :=
  query fault (λ t,
    match inbox_rows t run with
    | [] => Ok None
    | row :: _ => event <-? decode_event (inbox_key row) None (inbox_body row) ;; Ok (Some event)
    end).

Definition sql_due_timers fault (now : Timestamp) : Tables → Tables * StoreResult (list Timer) :=
  query fault (λ t, due t now).

(** [rows.map(..).collect()]: the first error wins. *)
Fixpoint collect_result {A B} (f : A → StoreResult B) (l : list A) : StoreResult (list B) :=
  match l with
  | [] => Ok []
  | x :: l => y <-? f x ;; ys <-? collect_result f l ;; Ok (y :: ys)
  end.

Definition open_row '((run, row) : string * RunsRow) : StoreResult RunRow :=
  run <-? stored_run_id run ;;
  Ok (RunRow.Mk run (runs_workspace_id row) (runs_tenant row) false (runs_last_seq row)
        (runs_max_v row) (from_unix_millis (runs_commissioned_at row))).

Definition sql_open_runs fault : Tables → Tables * StoreResult (list RunRow) :=
  query fault (λ t,
    collect_result open_row
      (order_by (column_le (λ '(_, row), runs_commissioned_at row) fst)
         (filter (λ '(_, row), runs_finished row = false) (map_to_list (t_runs t))))).

Definition decode_row (row : EventRow) : StoreResult Event :=
  decode_event (events_key row) (Some (events_seq row)) (events_body row).

(** The run's events after a position, in order. *)
Definition sql_load fault (run : RunId) (from_seq : Seq) :
    Tables → Tables * StoreResult (list Event) :=
  query fault (λ t,
    from_seq <-? sql_u64 from_seq ;; collect_result decode_row (event_rows t run from_seq)).

(** Every inbox row of a run, each read on its own. *)
Definition sql_waiting_inputs fault (run : RunId) :
    Tables → Tables * StoreResult (list (StoreResult Event)) :=
  query fault (λ t,
    Ok ((λ row, decode_event (inbox_key row) None (inbox_body row)) <$> inbox_rows t run)).

(** What of a run's log still reads, in order. *)
Definition sql_load_readable fault (run : RunId) : Tables → Tables * StoreResult (list Event) :=
  query fault (λ t,
    Ok (omap (λ row, match decode_row row with Ok event => Some event | Err _ => None end)
          (order_by (λ a b, events_seq a <=? events_seq b)
             (filter (λ row, events_run row = run) (t_events t))))).
End calls.

(** ** A connection among others

    Other processes use the same file: between two calls of this one they may do anything the store
    allows, in reaction to what it holds, and SQLite may fail the call. A script says what happens
    before each call; once it ends, this process is alone. *)
Module Call.
Inductive Call :=
| Enqueue (run : RunId) (event : Event) (cas : list Cas)
| Append (run : RunId) (expected_seq : Seq) (fence : Epoch) (events : list Event)
    (consume : list Key) (cas : list Cas)
| CompareAndSet (key : string) (from to : option Bytes).
End Call.
Abbreviation Call := Call.Call (only parsing).

Section connection.
Context {serde : Serde} {ulid : Ulid}.

Definition perform (t : Tables) (call : Call) : Tables :=
  match call with
  | Call.Enqueue run event cas => (sql_enqueue None run event cas t).1
  | Call.Append run expected_seq fence events consume cas =>
      (sql_append None run expected_seq fence events consume cas t).1
  | Call.CompareAndSet key from to => (sql_compare_and_set None key from to t).1
  end.

Definition performs (t : Tables) (calls : list Call) : Tables := fold_left perform calls t.

Record Interlude := MkInterlude {
  others_do : Tables → list Call;
  call_fault : option Fault;
}.

Record SqliteRunStore := MkConnection {
  conn_tables : Tables;
  conn_script : list Interlude;
}.

(** One call: what the script has for it, then the call itself. *)
Definition turn {A} (op : option Fault → Tables → Tables * A) (c : SqliteRunStore) :
    SqliteRunStore * A :=
  match conn_script c with
  | [] => let '(t, a) := op None (conn_tables c) in (MkConnection t [], a)
  | i :: script =>
      let '(t, a) := op (call_fault i) (performs (conn_tables c) (others_do i (conn_tables c))) in
      (MkConnection t script, a)
  end.

Global Instance sqlite_run_store : RunStore SqliteRunStore := {
  enqueue run event cas := turn (λ fault, sql_enqueue fault run event cas);
  append run expected_seq fence events consume cas :=
    turn (λ fault, sql_append fault run expected_seq fence events consume cas);
  next_input run := turn (λ fault, sql_next_input fault run);
  due_timers now := turn (λ fault, sql_due_timers fault now);
  compare_and_set key from to := turn (λ fault, sql_compare_and_set fault key from to);
  get key := turn (λ fault, sql_get fault key);
  open_runs := turn sql_open_runs;
  load run from_seq := turn (λ fault, sql_load fault run from_seq);
  limits _ := StoreLimits.default;
}.
End connection.
