(* ===== verification/StoreSpec.v ===== *)
(** * What a run store promises

    The contract of [RunStore] over what a caller can observe of a store: the log and the inbox of every
    run and the named values. Each writing call has one relation with a rule per outcome, and
    [RunStoreLaws] is the interface the host's theorems rely on: a call first meets what other processes
    did, and then takes one step of its contract. *)

From S2P Require Import Prelude Text Ids Codes Events Contract Sqlite.
From stdpp Require Import options.

(** ** What a caller observes *)
Module View.
Record View := Mk {
  known : RunId → bool;
  log : RunId → list Event;
  inbox : RunId → list Event;
  kv : gmap string Bytes;
}.
End View.
Abbreviation View := View.View (only parsing).

(** Events at the positions after [n]. *)
Definition number (n : nat) (events : list Event) : list Event :=
  imap (λ i e, e <| Event.seq := N.of_nat (n + i) + 1 |>) events.

(** The timers a log leaves armed, with the instant and the purpose as they are written. *)
Definition timer_event (armed : gmap string (Timestamp * string)) (e : Event) :
    gmap string (Timestamp * string) :=
  match Event.body e with
  | EventBody.Decision (Decision.TimerSet timer fire_at purpose) =>
      <[timer := (fire_at, as_str purpose)]> armed
  | EventBody.Decision (Decision.TimerCleared timer) => delete timer armed
  | EventBody.TimerFired timer fire_at =>
      if bool_decide (fst <$> armed !! timer = Some fire_at) then delete timer armed else armed
  | EventBody.Decision (Decision.Finished _ _) => ∅
  | _ => armed
  end.

Definition armed_of (log : list Event) : gmap string (Timestamp * string) :=
  fold_left timer_event log ∅.

(** What the events of a call change in the timers a log leaves armed: each timer that is set, each armed one
    that is cleared, each that fires at the instant it is armed for, and all of them when the run finishes. *)
Definition changes_of (armed : gmap string (Timestamp * string)) (e : Event) (changes : list TimerChange) :
    Prop :=
  match Event.body e with
  | EventBody.Decision (Decision.TimerSet timer fire_at _) =>
      changes = [TimerChange.Mk timer TimerChangeKind.Armed fire_at]
  | EventBody.Decision (Decision.TimerCleared timer) =>
      changes = from_option (λ a, [TimerChange.Mk timer TimerChangeKind.Cleared (from_unix_millis a.1)]) []
        (armed !! timer)
  | EventBody.TimerFired timer fire_at =>
      changes = if bool_decide (fst <$> armed !! timer = Some fire_at)
                then [TimerChange.Mk timer TimerChangeKind.Fired fire_at] else []
  | EventBody.Decision (Decision.Finished _ _) =>
      changes ≡ₚ (λ a, TimerChange.Mk a.1 TimerChangeKind.Cleared (from_unix_millis a.2.1)) <$> map_to_list armed
  | _ => changes = []
  end.

Fixpoint timer_changes (armed : gmap string (Timestamp * string)) (events : list Event)
    (changes : list TimerChange) : Prop :=
  match events with
  | [] => changes = []
  | e :: events =>
      ∃ now later, changes = now ++ later ∧ changes_of armed e now ∧
        timer_changes (timer_event armed e) events later
  end.

(** Inbox entries but those with a consumed key. *)
Definition consumed (consume : list Key) (inbox : list Event) : list Event :=
  filter (λ e, Event.key e ∉ consume) inbox.

(** The named values after a list of compare-and-sets that all compared equal. *)
Definition cas_write (kv : gmap string Bytes) (item : Cas) : gmap string Bytes :=
  match Cas.to item with
  | Some value => <[Cas.key item := value]> kv
  | None => delete (Cas.key item) kv
  end.

Definition cas_writes (kv : gmap string Bytes) (cas : list Cas) : gmap string Bytes :=
  fold_left cas_write cas kv.

Section contract.
Context {serde : Serde} {ulid : Ulid}.
Implicit Types v : View.

Definition lease_of (kv : gmap string Bytes) (run : RunId) : option Lease :=
  bytes ← kv !! owner_key run; lease_from_slice bytes.

Definition epoch_of (kv : gmap string Bytes) (run : RunId) : option Epoch :=
  Lease.epoch <$> lease_of kv run.

(** Nothing of any run but [run] differs, in the log, the inbox or whether it is known. *)
Definition same_beside (run : RunId) v v' : Prop :=
  ∀ other, other ≠ run →
    View.known v' other = View.known v other ∧ View.log v' other = View.log v other ∧
    View.inbox v' other = View.inbox v other.

Definition same_view v v' : Prop :=
  (∀ run, View.known v' run = View.known v run ∧ View.log v' run = View.log v run ∧
          View.inbox v' run = View.inbox v run) ∧ View.kv v' = View.kv v.

Definition logged_key v (run : RunId) (key : Key) : Prop := key ∈ (Event.key <$> View.log v run).

(** ** Compare-and-sets

    A lease stays a lease and its epoch never falls; an entry of the effect ledger is written under the
    current epoch of its run. *)
Definition keeps_lease (item : Cas) : Prop :=
  is_owner_key (Cas.key item) = true →
  ∃ bytes new, Cas.to item = Some bytes ∧ lease_from_slice bytes = Some new ∧
    (∀ old, Cas.from item ≫= lease_from_slice = Some old → Lease.epoch old <= Lease.epoch new).

Definition keeps_ledger (kv : gmap string Bytes) (item : Cas) : Prop :=
  ∀ bytes, starts_with EFFECT_PREFIX (Cas.key item) = true → Cas.to item = Some bytes →
  ∃ run entry, effect_run (Cas.key item) = Some run ∧ entry_from_slice bytes = Some entry ∧
    epoch_of kv run = Some (EffectEntry.epoch entry).

(** Why one is refused. *)
Inductive cas_failure (kv : gmap string Bytes) (item : Cas) : StoreError → Prop :=
| cas_differs :
    kv !! Cas.key item ≠ Cas.from item → cas_failure kv item (StoreError.CasFailed (Cas.key item))
| cas_no_lease e :
    is_owner_key (Cas.key item) = true → ¬ keeps_lease item →
    StoreError.kind e ∈ ["invalid_event"; "protected"] → cas_failure kv item e
| cas_no_entry e :
    ¬ keeps_ledger kv item → StoreError.kind e ∈ ["invalid_event"; "fenced"] → cas_failure kv item e.

(** The first of a list that is refused. *)
Definition cas_list_failure (kv : gmap string Bytes) (cas : list Cas) (e : StoreError) : Prop :=
  ∃ before item rest, cas = before ++ item :: rest ∧
    Forall (λ item, kv !! Cas.key item = Cas.from item) before ∧ cas_failure (cas_writes kv before) item e.

(** ** [append]

    What has to hold of the store before [append] looks at the keys, in the order of its checks; each
    failure has the error of its place. *)
Section append.
Context (faults : Fault → Prop) (run : RunId) (expected_seq : Seq) (fence : Epoch) (events : list Event)
  (consume : list Key) (cas : list Cas).

Definition opens_run : bool :=
  match events with event :: _ => is_commissioned (Event.body event) | [] => false end.

Inductive append_refusal v : StoreError → Prop :=
| refuse_call e : check_call run events cas = Err e → append_refusal v e
| refuse_fence :
    check_call run events cas = Ok tt → epoch_of (View.kv v) run ≠ Some fence →
    append_refusal v StoreError.Fenced
| refuse_unknown :
    check_call run events cas = Ok tt → epoch_of (View.kv v) run = Some fence →
    View.known v run = false → opens_run = false →
    append_refusal v StoreError.UnknownRun
| refuse_seq :
    check_call run events cas = Ok tt → epoch_of (View.kv v) run = Some fence →
    (View.known v run = true ∨ opens_run = true) →
    N.of_nat (length (View.log v run)) ≠ expected_seq →
    append_refusal v StoreError.SeqMismatch.

(** Every check before the version and the keys passed. *)
Record append_admitted v : Prop := {
  admitted_call : check_call run events cas = Ok tt;
  admitted_fence : epoch_of (View.kv v) run = Some fence;
  admitted_run : View.known v run = true ∨ opens_run = true;
  admitted_seq : N.of_nat (length (View.log v run)) = expected_seq;
}.

(** The events can be written where they go: a commission opens the log of a run that has none, each text
    can be made, and there are positions for all. *)
Definition well_placed v : Prop :=
  ∀ i e, events !! i = Some e → is_commissioned (Event.body e) = true → i = 0%nat ∧ View.log v run = [].

Definition writable v : Prop :=
  (∀ i e, events !! i = Some e →
     is_Some (event_to_string (e <| Event.seq := N.of_nat (length (View.log v run) + i) + 1 |>))) ∧
  (Z.of_nat (length (View.log v run) + length events) <= i64_max)%Z.

(** Why the writes of an admitted append fail, in the order they are made. *)
Inductive append_failure v : StoreError → Prop :=
| failed_commission e :
    ¬ well_placed v ∨ View.known v run = true ∧ opens_run = true →
    StoreError.kind e = "invalid_event" → append_failure v e
| failed_text i event e :
    well_placed v → events !! i = Some event →
    event_to_string (event <| Event.seq := N.of_nat (length (View.log v run) + i) + 1 |>) = None →
    StoreError.kind e = "invalid_event" → append_failure v e
| failed_length e :
    well_placed v → (i64_max < Z.of_nat (length (View.log v run) + length events))%Z →
    StoreError.kind e = "backend" → append_failure v e
| failed_cas e :
    well_placed v → writable v → cas_list_failure (View.kv v) cas e → append_failure v e.

Inductive append_within v : StoreResult Appended → View → Prop :=
| append_done v' timers :
    append_admitted v →
    Forall (λ e, max_version (View.log v run) <= Event.v e) events →
    Forall (λ e, ¬ logged_key v run (Event.key e)) events →
    View.known v' run = true →
    View.log v' run = View.log v run ++ number (length (View.log v run)) events →
    (Z.of_nat (length (View.log v' run)) <= i64_max)%Z →
    well_placed v →
    View.inbox v' run = consumed consume (View.inbox v run) →
    View.kv v' = cas_writes (View.kv v) cas →
    Forall (λ item, View.kv v !! Cas.key item = Cas.from item) cas →
    same_beside run v v' →
    timer_changes (armed_of (View.log v run)) events timers →
    append_within v
      (Ok (Appended.Mk (N.of_nat (length (View.log v' run))) timers)) v'
| append_duplicate v' seq e :
    append_admitted v →
    Forall (λ e, max_version (View.log v run) <= Event.v e) events →
    e ∈ events →
    (Event.key <$> View.log v run) !! N.to_nat (N.pred seq) = Some (Event.key e) → 0 < seq →
    View.known v' run = View.known v run →
    View.log v' run = View.log v run →
    View.inbox v' run = consumed consume (View.inbox v run) →
    View.kv v' = View.kv v →
    same_beside run v v' →
    append_within v (Err (StoreError.DuplicateKey seq)) v'
| append_refused e v' : append_refusal v e → same_view v v' → append_within v (Err e) v'
| append_too_old v' :
    append_admitted v →
    Exists (λ e, Event.v e < max_version (View.log v run)) events →
    same_view v v' →
    append_within v (Err (StoreError.VersionTooOld (max_version (View.log v run)))) v'
| append_failed e v' :
    append_admitted v →
    Forall (λ e, max_version (View.log v run) <= Event.v e) events →
    Forall (λ e, ¬ logged_key v run (Event.key e)) events →
    append_failure v e →
    same_view v v' →
    append_within v (Err e) v'
| append_fault f v' :
    check_call run events cas = Ok tt → same_view v v' → faults f → append_within v (Err (db f)) v'.
End append.

(** ** [enqueue] *)
Inductive enqueue_refusal (faults : Fault → Prop) (run : RunId) (event : Event) (cas : list Cas) v :
    StoreError → Prop :=
| enqueue_invalid e : check_call run [event] cas = Err e → enqueue_refusal faults run event cas v e
| enqueue_fault f :
    check_call run [event] cas = Ok tt → faults f → enqueue_refusal faults run event cas v (db f)
| enqueue_failed e :
    check_call run [event] cas = Ok tt →
    Event.key event ∉ (Event.key <$> View.inbox v run) → ¬ logged_key v run (Event.key event) →
    (** a second commission, a compare-and-set that is refused, or an event no text can be made of *)
    (is_commissioned (Event.body event) = true ∧ View.known v run = true ∧ StoreError.kind e = "invalid_event") ∨
    (is_commissioned (Event.body event) = negb (View.known v run) ∧ cas_list_failure (View.kv v) cas e) ∨
    (is_commissioned (Event.body event) = negb (View.known v run) ∧
     event_to_string (event <| Event.seq := 0 |>) = None ∧ StoreError.kind e = "invalid_event") →
    enqueue_refusal faults run event cas v e.

Inductive enqueue_within (faults : Fault → Prop) (run : RunId) (event : Event) (cas : list Cas) v :
    StoreResult Enqueued → View → Prop :=
| enqueue_accepted v' :
    check_call run [event] cas = Ok tt →
    Event.key event ∉ (Event.key <$> View.inbox v run) → ¬ logged_key v run (Event.key event) →
    is_commissioned (Event.body event) = negb (View.known v run) →
    View.known v' run = true →
    View.log v' run = View.log v run →
    View.inbox v' run = View.inbox v run ++ [event <| Event.seq := 0 |>] →
    View.kv v' = cas_writes (View.kv v) cas →
    Forall (λ item, View.kv v !! Cas.key item = Cas.from item) cas →
    same_beside run v v' →
    enqueue_within faults run event cas v (Ok Enqueued.Accepted) v'
| enqueue_duplicate v' :
    check_call run [event] cas = Ok tt →
    Event.key event ∈ (Event.key <$> View.inbox v run) ∨ logged_key v run (Event.key event) →
    same_view v v' →
    enqueue_within faults run event cas v (Ok Enqueued.Duplicate) v'
| enqueue_unknown v' :
    check_call run [event] cas = Ok tt →
    Event.key event ∉ (Event.key <$> View.inbox v run) → ¬ logged_key v run (Event.key event) →
    View.known v run = false →
    is_commissioned (Event.body event) = false → same_view v v' →
    enqueue_within faults run event cas v (Err StoreError.UnknownRun) v'
| enqueue_refused e v' :
    enqueue_refusal faults run event cas v e → same_view v v' → enqueue_within faults run event cas v (Err e) v'.

(** ** [compare_and_set] *)
Inductive cas_within (faults : Fault → Prop) (item : Cas) v : StoreResult unit → View → Prop :=
| cas_done v' :
    View.kv v !! Cas.key item = Cas.from item →
    keeps_lease item → keeps_ledger (View.kv v) item →
    View.kv v' = cas_write (View.kv v) item →
    (∀ run, View.known v' run = View.known v run ∧ View.log v' run = View.log v run ∧
            View.inbox v' run = View.inbox v run) →
    cas_within faults item v (Ok tt) v'
| cas_refused e v' :
    cas_failure (View.kv v) item e ∨ (∃ f, faults f ∧ e = db f) → same_view v v' →
    cas_within faults item v (Err e) v'.

(** To a caller SQLite may fail any call. *)
Definition any_fault : Fault → Prop := λ _, True.
Definition append_contract := append_within any_fault.
Definition enqueue_contract := enqueue_within any_fault.
Definition cas_contract := cas_within any_fault.

Lemma append_within_any faults run expected_seq fence events consume cas v r v' :
  append_within faults run expected_seq fence events consume cas v r v' →
  append_contract run expected_seq fence events consume cas v r v'.
Proof. destruct 1; [eapply append_done|eapply append_duplicate|eapply append_refused|eapply append_too_old|eapply append_failed|eapply append_fault]; try done; by eauto. Qed.

Lemma enqueue_within_any faults run event cas v r v' :
  enqueue_within faults run event cas v r v' → enqueue_contract run event cas v r v'.
Proof.
  destruct 1 as [| | |e v' Hr Hs]; [by apply enqueue_accepted|by apply enqueue_duplicate|by apply enqueue_unknown|].
  apply enqueue_refused; [|done]. destruct Hr; [by apply enqueue_invalid|by apply enqueue_fault|by apply enqueue_failed].
Qed.

Lemma cas_within_any faults item v r v' : cas_within faults item v r v' → cas_contract item v r v'.
Proof.
  destruct 1 as [|e v' He Hs]; [by apply cas_done|]. apply cas_refused; [|done].
  destruct He as [?|(f & _ & ->)]; [by left|right]. by exists f.
Qed.

(** ** Views a store can show *)
Record view_ok v : Prop := {
  view_positions run i e :
    View.log v run !! i = Some e → Event.seq e = N.of_nat i + 1 ∧ Event.run e = run;
  view_length run : (Z.of_nat (length (View.log v run)) <= i64_max)%Z;
  view_log_keys run : NoDup (Event.key <$> View.log v run);
  view_first run i e :
    View.log v run !! i = Some e → is_commissioned (Event.body e) = true → i = 0%nat;
  view_inbox run e : e ∈ View.inbox v run → Event.run e = run ∧ Event.seq e = 0;
  view_inbox_keys run : NoDup (Event.key <$> View.inbox v run);
  view_known run : View.known v run = false → View.log v run = [] ∧ View.inbox v run = [];
  view_leases run : is_Some (View.kv v !! owner_key run) → is_Some (lease_of (View.kv v) run);
}.

(** ** What the reading calls answer *)

(** The runs that are not finished, each with the last position of its log. *)
Definition open_rows v (rows : list RunRow) : Prop :=
  (∀ run, run ∈ (RunRow.run <$> rows) ↔
     View.known v run = true ∧
     existsb (λ e, Sqlite.is_finished (Event.body e)) (View.log v run) = false) ∧
  Forall (λ row, RunRow.last_seq row = N.of_nat (length (View.log v (RunRow.run row)))) rows.

(** A timer the log leaves armed that is due, with a purpose this version knows. *)
Definition due_in v (now : Timestamp) (timer : Timer) : Prop :=
  ∃ at_ word, armed_of (View.log v (Timer.run timer)) !! Timer.timer timer = Some (at_, word) ∧
    (at_ <= now)%Z ∧ Timer.fire_at timer = from_unix_millis at_ ∧
    Timer.purpose timer = parse word ∧ is_TimerPurpose_unknown (Timer.purpose timer) = false.

(** ** The interface

    [others] is what other processes may do between two calls. A reading call sees the store after it. *)
Class RunStoreLaws (S : Type) `{RunStore S} (others : View → View → Prop) := {
  observe : S → View;
  valid : S → Prop;
  valid_view s : valid s → view_ok (observe s);
  append_law run expected_seq fence events consume cas s s' r :
    valid s → append run expected_seq fence events consume cas s = (s', r) →
    valid s' ∧ ∃ v, others (observe s) v ∧ view_ok v ∧
      append_contract run expected_seq fence events consume cas v r (observe s');
  enqueue_law run event cas s s' r :
    valid s → enqueue run event cas s = (s', r) →
    valid s' ∧ ∃ v, others (observe s) v ∧ view_ok v ∧ enqueue_contract run event cas v r (observe s');
  cas_law key from to s s' r :
    valid s → compare_and_set key from to s = (s', r) →
    valid s' ∧ ∃ v, others (observe s) v ∧ view_ok v ∧
      cas_contract (Cas.Mk key from to) v r (observe s');
  next_input_law run s s' r :
    valid s → next_input run s = (s', r) →
    valid s' ∧ others (observe s) (observe s') ∧
    ∀ found, r = Ok found → found = head (View.inbox (observe s') run);
  get_law key s s' r :
    valid s → get key s = (s', r) →
    valid s' ∧ others (observe s) (observe s') ∧
    ∀ found, r = Ok found → found = View.kv (observe s') !! key;
  load_law run from_seq s s' r :
    valid s → load run from_seq s = (s', r) →
    valid s' ∧ others (observe s) (observe s') ∧
    ∀ events, r = Ok events → events = drop (N.to_nat from_seq) (View.log (observe s') run);
  open_runs_law s s' r :
    valid s → open_runs s = (s', r) →
    valid s' ∧ others (observe s) (observe s') ∧ ∀ rows, r = Ok rows → open_rows (observe s') rows;
  due_timers_law now s s' r :
    valid s → due_timers now s = (s', r) →
    valid s' ∧ others (observe s) (observe s') ∧
    ∀ due, r = Ok due → ∀ timer, timer ∈ due ↔ due_in (observe s') now timer;
}.
End contract.
