(* ===== verification/SqliteFacts.v ===== *)
(** * The SQLite store keeps its contract

    The invariant of the tables: the columns the store computes (positions, the row of a run, the timer
    index) never disagree with the log they are derived from. Every call keeps it and takes one step of
    its contract in [StoreSpec], whatever another call did before. *)

From S2P Require Import Prelude Text Ids Codes Events Contract Sqlite StoreSpec.
From stdpp Require Import options.

(** ** Lists *)
Section lists.
Context {A B : Type}.

Lemma omap_Forall2 (f : A → option B) l :
  Forall (λ x, is_Some (f x)) l → Forall2 (λ y x, f x = Some y) (omap f l) l.
Proof.
  induction 1 as [|x l [y Hy] _ IH]; simpl; [constructor|]. rewrite Hy. by constructor.
Qed.

Lemma Forall2_omap (R : B → A → Prop) (f : A → option B) ys l :
  (∀ y x, R y x → f x = Some y) → Forall2 R ys l → omap f l = ys.
Proof. intros Hf. induction 1 as [|y x ys l H _ IH]; simpl; [done|].
  rewrite (Hf _ _ H). by f_equal.
Qed.

(** Rows that are in order stay where they are. *)
Lemma order_by_sorted (le : A → A → bool) l :
  StronglySorted (λ a b, le a b = true) l → order_by le l = l.
Proof.
  induction 1 as [|x l Hs IH Hx]; simpl; [done|]. rewrite IH.
  destruct l as [|y l]; simpl; [done|]. apply Forall_cons in Hx as [-> _]. done.
Qed.

Lemma insert_by_perm (le : A → A → bool) x l : insert_by le x l ≡ₚ x :: l.
Proof.
  induction l as [|y l IH]; simpl; [done|]. destruct (le x y); [done|].
  rewrite IH. constructor.
Qed.

Lemma order_by_perm (le : A → A → bool) l : order_by le l ≡ₚ l.
Proof. induction l as [|x l IH]; simpl; [done|]. by rewrite insert_by_perm, IH. Qed.

Lemma existsb_false (f : A → bool) l : existsb f l = false ↔ Forall (λ x, f x = false) l.
Proof.
  induction l as [|x l IH]; simpl; [by split|]. rewrite orb_false_iff, Forall_cons. by rewrite IH.
Qed.

Lemma existsb_true (f : A → bool) l : existsb f l = true ↔ Exists (λ x, f x = true) l.
Proof.
  induction l as [|x l IH]; simpl; [by rewrite Exists_nil|].
  rewrite orb_true_iff, Exists_cons. by rewrite IH.
Qed.

Lemma find_map_None (g : A → option B) l : find_map g l = None ↔ Forall (λ x, g x = None) l.
Proof.
  induction l as [|x l IH]; simpl; [by split|]. rewrite Forall_cons.
  destruct (g x) eqn:E; [split; [done|]; intros [? _]; done|]. rewrite IH. naive_solver.
Qed.
End lists.

Lemma number_length n events : length (number n events) = length events.
Proof. apply length_imap. Qed.

Lemma number_keys n events : Event.key <$> number n events = Event.key <$> events.
Proof. unfold number. rewrite fmap_imap. apply (imap_const Event.key). Qed.

Lemma number_cons n e events :
  number n (e :: events) = e <| Event.seq := N.of_nat n + 1 |> :: number (S n) events.
Proof.
  unfold number. simpl. rewrite Nat.add_0_r. f_equal. apply imap_ext. intros i x _. simpl.
  by rewrite Nat.add_succ_r.
Qed.

Lemma number_lookup n events i e :
  number n events !! i = Some e →
  ∃ e', events !! i = Some e' ∧ e = e' <| Event.seq := N.of_nat (n + i) + 1 |>.
Proof. unfold number. rewrite list_lookup_imap. intros (e' & -> & ->)%fmap_Some. by exists e'. Qed.

Lemma u64_succ_small n : (Z.of_N n <= i64_max)%Z → u64_succ n = n + 1.
Proof. unfold u64_succ, i64_max, u64_modulus. intros. apply N.mod_small. lia. Qed.

(** ** The tables as a caller sees them *)
Section tables.
Context {serde : Serde} {ulid : Ulid}.
Implicit Types t : Tables.

Definition rows_of t (run : RunId) : list EventRow :=
  filter (λ row, events_run row = run) (t_events t).

Definition log_of t (run : RunId) : list Event :=
  omap (λ row, event_from_str (events_body row)) (rows_of t run).

Definition inbox_of t (run : RunId) : list Event :=
  omap (λ row, event_from_str (inbox_body row)) (inbox_rows t run).

Definition view_of t : View := {|
  View.known := λ run, bool_decide (is_Some (t_runs t !! run));
  View.log := log_of t;
  View.inbox := inbox_of t;
  View.kv := t_kv t;
|}.

(** A row of the log and the event it holds. *)
Definition row_of (e : Event) (row : EventRow) : Prop :=
  events_run row = Event.run e ∧ events_seq row = Event.seq e ∧ events_key row = Event.key e ∧
  events_v row = Event.v e ∧ event_from_str (events_body row) = Some e.

Definition inbox_row_of (e : Event) (row : InboxRow) : Prop :=
  inbox_run row = Event.run e ∧ inbox_key row = Event.key e ∧
  event_from_str (inbox_body row) = Some e.

(** The instant and the purpose of a timer row, while it is armed. *)
Definition armed_row (row : TimerRow) : option (Timestamp * string) :=
  if is_armed row then Some (timers_fire_at row, timers_purpose row) else None.

Definition armed_at t (run : RunId) (timer : string) : option (Timestamp * string) :=
  t_timers t !! (run, timer) ≫= armed_row.

Record store_ok t : Prop := {
  ok_view : view_ok (view_of t);
  ok_rows run : Forall2 row_of (log_of t run) (rows_of t run);
  ok_inbox run : Forall2 inbox_row_of (inbox_of t run) (inbox_rows t run);
  ok_runs run row :
    t_runs t !! run = Some row →
    runs_last_seq row = N.of_nat (length (log_of t run)) ∧
    runs_max_v row = max_version (log_of t run) ∧
    runs_finished row = existsb (λ e, is_finished (Event.body e)) (log_of t run);
  ok_timers run timer : armed_at t run timer = armed_of (log_of t run) !! timer;
}.

Lemma new_tables_ok : store_ok new_tables.
Proof.
  split; try done. split; simpl; try done; try (by intros; constructor).
  - intros run e H. by apply not_elem_of_nil in H.
  - intros run [b Hb]. by rewrite lookup_empty in Hb.
Qed.

(** ** Writing events *)
Lemma insert_event_Ok `{!SerdeLaws serde} t e seq t' :
  insert_event t e seq = Ok t' →
  (Z.of_N seq <= i64_max)%Z ∧
  ∃ row, t' = t <| t_events := t_events t ++ [row] |> ∧ row_of (e <| Event.seq := seq |>) row.
Proof.
  unfold insert_event, wire, sql_u64. intros H. repeat case_match; simplify_eq.
  split; [lia|]. eexists. split; [done|]. split_and!; try done. simpl.
  by apply event_reads_back.
Qed.

Lemma insert_events_Ok `{!SerdeLaws serde} events t (n : nat) t' seq :
  (Z.of_nat n <= i64_max)%Z →
  insert_events t (N.of_nat n) events = Ok (t', seq) →
  seq = N.of_nat (n + length events) ∧ (Z.of_nat (n + length events) <= i64_max)%Z ∧
  ∃ rows, t' = t <| t_events := t_events t ++ rows |> ∧ Forall2 row_of (number n events) rows.
Proof.
  revert t n; induction events as [|e events IH]; intros t n Hn H; cbn [insert_events] in H.
  - simplify_eq. rewrite Nat.add_0_r. split_and!; [done..|].
    exists []. rewrite app_nil_r. split; [by destruct t'|constructor].
  - destruct (insert_event _ _ _) as [t1|] eqn:E; [|done].
    rewrite u64_succ_small in E, H by lia.
    apply insert_event_Ok in E as (Hb & row & -> & Hrow).
    replace (N.of_nat n + 1) with (N.of_nat (S n)) in H by lia.
    apply IH in H as (-> & Hlen & rows & -> & Hrows); [|lia].
    split_and!; [simpl; lia..|]. exists (row :: rows). split.
    { simpl. unfold set_field, set_t_events. simpl. by rewrite <-app_assoc. }
    rewrite number_cons. by constructor.
Qed.

(** ** The timer index *)
Definition timers_only t t' : Prop := t' = t <| t_timers := t_timers t' |>.

Lemma timers_only_refl t : timers_only t t.
Proof. by destruct t. Qed.

Lemma timers_only_trans t1 t2 t3 : timers_only t1 t2 → timers_only t2 t3 → timers_only t1 t3.
Proof. unfold timers_only. intros -> ->. by destruct t1. Qed.

Lemma armed_at_insert t run timer row run' timer' :
  armed_at (t <| t_timers := <[(run, timer) := row]> (t_timers t) |>) run' timer' =
  if decide ((run', timer') = (run, timer)) then armed_row row else armed_at t run' timer'.
Proof.
  unfold armed_at. simpl. case_decide as E; simplify_eq.
  - by rewrite lookup_insert_eq.
  - by rewrite lookup_insert_ne.
Qed.

Lemma clear_Some t run timer t' cleared :
  clear t run timer = (t', cleared) →
  timers_only t t' ∧
  ∀ run' timer', armed_at t' run' timer' =
    if decide ((run', timer') = (run, timer)) then None else armed_at t run' timer'.
Proof.
  unfold clear, set_state. intros H.
  destruct (t_timers t !! (run, timer)) as [row|] eqn:E; [destruct (is_armed row) eqn:Ea|];
    simplify_eq.
  - split; [done|]. intros run' timer'. by rewrite armed_at_insert.
  - split; [apply timers_only_refl|]. intros. case_decide; simplify_eq; [|done].
    unfold armed_at, armed_row. rewrite E. simpl. by rewrite Ea.
  - split; [apply timers_only_refl|]. intros. case_decide; simplify_eq; [|done].
    unfold armed_at. by rewrite E.
Qed.

Lemma clear_each_Some timers t run t' changes :
  clear_each t run timers = (t', changes) →
  timers_only t t' ∧
  ∀ run' timer', armed_at t' run' timer' =
    if decide (run' = run ∧ timer' ∈ timers) then None else armed_at t run' timer'.
Proof.
  revert t changes; induction timers as [|timer timers IH]; intros t changes H; simpl in H.
  - simplify_eq. split; [apply timers_only_refl|]. intros.
    rewrite decide_False; [done|]. intros [_ H]. by apply not_elem_of_nil in H.
  - destruct (clear t run timer) as [t1 cleared] eqn:E1.
    destruct (clear_each t1 run timers) as [t2 later] eqn:E2. simplify_eq.
    apply clear_Some in E1 as [Ho1 H1]. apply IH in E2 as [Ho2 H2].
    split; [by eapply timers_only_trans|]. intros run' timer'. rewrite H2, H1.
    repeat case_decide; set_solver.
Qed.

Lemma elem_of_armed_timers t run timer :
  timer ∈ armed_timers t run ↔ is_Some (armed_at t run timer).
Proof.
  unfold armed_timers, armed_at, armed_row. rewrite list_elem_of_fmap. setoid_rewrite order_by_perm.
  setoid_rewrite list_elem_of_omap. split.
  - intros ([timer' at_] & -> & ([[run' timer''] row] & Hin & H)).
    apply elem_of_map_to_list in Hin.
    destruct (bool_decide_reflect (run' = run)); simplify_eq/=.
    destruct (is_armed row) eqn:Ea; simplify_eq/=. rewrite Hin. simpl. by rewrite Ea.
  - intros [x Hx]. destruct (t_timers t !! (run, timer)) as [row|] eqn:E; [|done]. simpl in Hx.
    destruct (is_armed row) eqn:Ea; [|done]. exists (timer, timers_fire_at row). split; [done|].
    exists (run, timer, row). split; [by apply elem_of_map_to_list|].
    rewrite bool_decide_eq_true_2 by done. simpl. by rewrite Ea.
Qed.

(** Each armed timer is cleared, once. *)
Lemma armed_timers_NoDup t run : NoDup (armed_timers t run).
Proof.
  unfold armed_timers. rewrite order_by_perm.
  assert (NoDup (map_to_list (t_timers t)).*1) as Hn by apply NoDup_fst_map_to_list.
  revert Hn. generalize (map_to_list (t_timers t)). intros l.
  induction l as [|[[r timer] row] l IH]; intros Hn; csimpl; [constructor|].
  apply NoDup_cons in Hn as [Hnot Hn]. case_match eqn:E; [|auto]. csimpl. apply NoDup_cons. split; [|auto].
  destruct (bool_decide_reflect (r = run)); simplify_eq/=. destruct (is_armed row); simplify_eq/=.
  intros ([timer' at_] & -> & ([[r' timer''] row'] & Hin & Hx)%list_elem_of_omap)%list_elem_of_fmap.
  destruct (bool_decide_reflect (r' = run)); simplify_eq/=. destruct (is_armed row'); simplify_eq/=.
  apply Hnot. apply list_elem_of_fmap. by exists (run, timer', row').
Qed.

Lemma clear_each_changes t run timers t' changes :
  NoDup timers → clear_each t run timers = (t', changes) →
  changes = omap (λ timer, (λ a, change timer TimerChangeKind.Cleared (from_unix_millis a.1)) <$>
    armed_at t run timer) timers.
Proof.
  revert t changes; induction timers as [|timer timers IH]; intros t changes Hn H; simpl in H; [by simplify_eq|].
  apply NoDup_cons in Hn as [Hnot Hn]. destruct (clear t run timer) as [t1 cleared] eqn:E1.
  destruct (clear_each t1 run timers) as [t2 later] eqn:E2. simplify_eq. apply IH in E2 as ->; [|done].
  assert (omap (λ timer, (λ a, change timer TimerChangeKind.Cleared (from_unix_millis a.1)) <$>
      armed_at t1 run timer) timers =
    omap (λ timer, (λ a, change timer TimerChangeKind.Cleared (from_unix_millis a.1)) <$>
      armed_at t run timer) timers) as ->.
  { apply clear_Some in E1 as [_ Ha]. clear -Ha Hnot. induction timers as [|x l IH]; csimpl; [done|].
    apply not_elem_of_cons in Hnot as [Hx Hnot]. rewrite Ha, IH by done. case_decide; [|done]. naive_solver. }
  csimpl. unfold clear in E1. unfold armed_at, armed_row.
  destruct (t_timers t !! (run, timer)) as [row|]; simpl; [destruct (is_armed row)|]; by simplify_eq/=.
Qed.

Lemma armed_changes t run (m : gmap string (Timestamp * string)) (timers : list string) :
  (∀ timer, armed_at t run timer = m !! timer) → NoDup timers →
  (∀ timer, timer ∈ timers ↔ is_Some (m !! timer)) →
  omap (λ timer, (λ a, change timer TimerChangeKind.Cleared (from_unix_millis a.1)) <$> armed_at t run timer) timers
  ≡ₚ (λ a, TimerChange.Mk a.1 TimerChangeKind.Cleared (from_unix_millis a.2.1)) <$> map_to_list m.
Proof.
  intros Hm Hn Hall. assert (timers ≡ₚ (map_to_list m).*1) as Hp.
  { apply NoDup_Permutation; [done|apply NoDup_fst_map_to_list|]. intros timer. rewrite Hall.
    rewrite list_elem_of_fmap. split.
    - intros [a Ha]. exists (timer, a). split; [done|]. by apply elem_of_map_to_list.
    - intros ([timer' a] & -> & Ha%elem_of_map_to_list). by eexists. }
  etrans; [apply omap_Permutation, Hp|]. clear Hp.
  assert (∀ l, (∀ k a, (k, a) ∈ l → m !! k = Some a) →
    omap (λ timer, (λ a, change timer TimerChangeKind.Cleared (from_unix_millis a.1)) <$> armed_at t run timer) l.*1 =
    (λ a, TimerChange.Mk a.1 TimerChangeKind.Cleared (from_unix_millis a.2.1)) <$> l) as Hl.
  { intros l. induction l as [|[k a] l IH]; intros Hin; csimpl; [done|].
    rewrite Hm, (Hin k a) by by left. simpl. f_equal. apply IH. intros. apply Hin. by right. }
  rewrite Hl; [done|]. intros k a Ha. by apply elem_of_map_to_list.
Qed.

(** What one event does to the index is what it does to the armed timers of the log. *)
Lemma apply_event_changes t run e m t' changes :
  (∀ timer, armed_at t run timer = m !! timer) →
  apply_event t run e = (t', changes) → changes_of m e changes.
Proof.
  intros Hm. unfold apply_event, changes_of.
  destruct (Event.body e) as [| | | | | | | | | | | | | | | | |timer fire_at|d|];
    try (by intros [= _ <-]); [|destruct d; try (by intros [= _ <-])]; intros H.
  - unfold fire in H. specialize (Hm timer) as Ht. unfold armed_at, armed_row in Ht.
    destruct (t_timers t !! (run, timer)) as [row|] eqn:E; simpl in Ht;
      [destruct (is_armed row) eqn:Ea; [destruct (Z.eqb_spec (timers_fire_at row) fire_at)|]|];
      simplify_eq/=; rewrite <-Ht; simpl; [by rewrite bool_decide_eq_true_2|by rewrite bool_decide_eq_false_2 by congruence|done..].
  - specialize (Hm timer) as Ht. rewrite <-Ht. unfold clear in H. unfold armed_at, armed_row.
    destruct (t_timers t !! (run, timer)) as [row|]; simpl; [destruct (is_armed row)|]; by simplify_eq/=.
  - unfold clear_all in H. apply clear_each_changes in H as ->; [|apply armed_timers_NoDup].
    apply armed_changes; [done|apply armed_timers_NoDup|]. intros timer. by rewrite elem_of_armed_timers, Hm.
Qed.

Lemma apply_event_Some t run e m t' changes :
  (∀ timer, armed_at t run timer = m !! timer) →
  apply_event t run e = (t', changes) →
  timers_only t t' ∧
  (∀ timer, armed_at t' run timer = timer_event m e !! timer) ∧
  ∀ run' timer, run' ≠ run → armed_at t' run' timer = armed_at t run' timer.
Proof.
  intros Hm. unfold apply_event, timer_event.
  assert (timers_only t t ∧ (∀ timer, armed_at t run timer = m !! timer) ∧
    ∀ run' timer, run' ≠ run → armed_at t run' timer = armed_at t run' timer) as Hsame
    by (split_and!; [apply timers_only_refl|done..]).
  destruct (Event.body e) as [| | | | | | | | | | | | | | | | |timer fire_at|d|];
    try (by intros [= <- <-]); [|destruct d; try (by intros [= <- <-])]; intros H.
  - unfold fire, set_state in H. specialize (Hm timer) as Ht. unfold armed_at, armed_row in Ht.
    destruct (t_timers t !! (run, timer)) as [row|] eqn:E; simpl in Ht;
      [destruct (is_armed row) eqn:Ea; [destruct (Z.eqb_spec (timers_fire_at row) fire_at)|]|];
      simplify_eq/=; rewrite <-Ht; simpl.
    + rewrite bool_decide_eq_true_2 by done. split_and!; [done|..]; intros;
        rewrite armed_at_insert; case_decide; simplify_eq/=; try done.
      * by rewrite lookup_delete_eq.
      * rewrite lookup_delete_ne by congruence. apply Hm.
    + rewrite bool_decide_eq_false_2 by congruence. exact Hsame.
    + exact Hsame.
    + exact Hsame.
  - unfold arm in H. simplify_eq. split_and!; [done|..]; intros; rewrite armed_at_insert;
      case_decide; simplify_eq/=; try done.
    + by rewrite lookup_insert_eq.
    + rewrite lookup_insert_ne by congruence. apply Hm.
  - destruct (clear t run timer) as [t1 cleared] eqn:E. simplify_eq.
    apply clear_Some in E as [Ho Ha]. split_and!; [done|..]; intros; rewrite Ha;
      case_decide; simplify_eq; try done.
    + by rewrite lookup_delete_eq.
    + rewrite lookup_delete_ne by congruence. apply Hm.
  - unfold clear_all in H. apply clear_each_Some in H as [Ho Ha]. split_and!; [done|..]; intros;
      rewrite Ha; case_decide as Hd; try done.
    + rewrite lookup_empty. destruct (armed_at t run timer) eqn:Et; [|done]. exfalso. apply Hd.
      split; [done|]. apply elem_of_armed_timers. by rewrite Et.
    + naive_solver.
Qed.

Lemma apply_Some events t run m t' changes :
  (∀ timer, armed_at t run timer = m !! timer) →
  apply t run events = (t', changes) →
  timers_only t t' ∧
  (∀ timer, armed_at t' run timer = fold_left timer_event events m !! timer) ∧
  (∀ run' timer, run' ≠ run → armed_at t' run' timer = armed_at t run' timer) ∧
  timer_changes m events changes.
Proof.
  revert t m changes; induction events as [|e events IH]; intros t m changes Hm H; simpl in H.
  - simplify_eq. split_and!; [apply timers_only_refl|done..].
  - destruct (apply_event t run e) as [t1 now] eqn:E1.
    destruct (apply t1 run events) as [t2 later] eqn:E2. simplify_eq.
    assert (Hc1 := apply_event_changes _ _ _ _ _ _ Hm E1).
    eapply apply_event_Some in E1 as (Ho1 & Ht1 & Hr1); [|done].
    eapply IH in E2 as (Ho2 & Ht2 & Hr2 & Hc2); [|done].
    split_and!; [by eapply timers_only_trans|done| |by eexists _, _].
    intros. rewrite Hr2, Hr1 by done. done.
Qed.

(** ** Named values *)
Lemma current_epoch_Ok t run epoch :
  current_epoch t run = Ok epoch → epoch = epoch_of (t_kv t) run.
Proof.
  unfold current_epoch, epoch_of, lease_of, select_kv, decode_lease.
  destruct (t_kv t !! owner_key run) as [bytes|]; simpl; [|congruence].
  destruct (lease_from_slice bytes); simpl; congruence.
Qed.

Lemma apply_cas_Ok t item t' :
  apply_cas t item = Ok t' →
  t' = t <| t_kv := cas_write (t_kv t) item |> ∧ t_kv t !! Cas.key item = Cas.from item ∧
  keeps_lease item ∧ keeps_ledger (t_kv t) item.
Proof.
  unfold apply_cas. intros H.
  destruct (if is_owner_key _ then check_owner_value _ _ else _) as [[]|] eqn:E1; [|done].
  destruct (if starts_with _ _ then _ else _) as [[]|] eqn:E2; [|done].
  case_bool_decide as E3; [simpl in H|done].
  destruct (if is_owner_key _ then check_epoch_keeps_rising _ _ _ else _) as [[]|] eqn:E4; [|done].
  simplify_eq. split_and!; [by unfold cas_write; case_match|done|..].
  - intros Ho. rewrite Ho in E1, E4. unfold check_owner_value in E1.
    destruct (Cas.to item) as [bytes|] eqn:Et; [|done].
    destruct (lease_from_slice bytes) as [new|] eqn:En; [|done]. exists bytes, new.
    split_and!; [done..|]. intros old Hold. unfold check_epoch_keeps_rising in E4.
    rewrite E3 in E4. destruct (Cas.from item) as [from|]; [|done]. simpl in Hold.
    unfold decode_lease in E4. rewrite En, Hold in E4. case_match eqn:El; [done|].
    by apply N.ltb_ge in El.
  - intros bytes He Ht. rewrite He, Ht in E2. unfold check_effect_write in E2.
    destruct (effect_run (Cas.key item)) as [run|]; [|done].
    destruct (entry_from_slice bytes) as [entry|] eqn:Ee; [|done].
    destruct (current_epoch t run) as [epoch|] eqn:Ec; [|done].
    case_bool_decide; [|done]. apply current_epoch_Ok in Ec as ->. by exists run, entry.
Qed.

Lemma check_cas_Ok keys cas :
  check_cas keys cas = Ok tt →
  NoDup (Cas.key <$> cas) ∧
  Forall (λ item, is_owner_key (Cas.key item) = false ∧ Cas.key item ∉ keys) cas.
Proof.
  revert keys; induction cas as [|item cas IH]; intros keys H; simpl in *; [by repeat constructor|].
  destruct (is_owner_key (Cas.key item)) eqn:Eo; [done|]. case_bool_decide; [done|].
  apply IH in H as [Hn Hf]. split.
  - apply NoDup_cons. split; [|done]. intros (item' & Hk & Hin)%list_elem_of_fmap.
    rewrite Forall_forall in Hf. specialize (Hf _ Hin). set_solver.
  - constructor; [done|]. eapply Forall_impl; [exact Hf|]. set_solver.
Qed.

Lemma apply_cas_list_Ok cas t t' :
  NoDup (Cas.key <$> cas) → apply_cas_list t cas = Ok t' →
  t' = t <| t_kv := cas_writes (t_kv t) cas |> ∧
  Forall (λ item, t_kv t !! Cas.key item = Cas.from item) cas.
Proof.
  revert t; induction cas as [|item cas IH]; intros t Hn H; simpl in *.
  - simplify_eq. split; [by destruct t'|constructor].
  - apply NoDup_cons in Hn as [Hnot Hn]. destruct (apply_cas t item) as [t1|] eqn:E; [|done].
    apply apply_cas_Ok in E as (-> & Hc & _). apply IH in H as [-> Hf]; [|done]. split; [done|].
    constructor; [done|]. rewrite Forall_forall in Hf |- *. intros other Hin.
    rewrite <-(Hf _ Hin). simpl. unfold cas_write.
    assert (Cas.key other ≠ Cas.key item).
    { intros Heq. apply Hnot. rewrite <-Heq. by apply list_elem_of_fmap_2. }
    case_match; [by rewrite lookup_insert_ne|by rewrite lookup_delete_ne].
Qed.

(** Compare-and-sets on other keys leave a value alone. *)
Lemma cas_writes_lookup kv cas key :
  Forall (λ item, Cas.key item ≠ key) cas → cas_writes kv cas !! key = kv !! key.
Proof.
  unfold cas_writes. revert kv; induction cas as [|item cas IH]; intros kv H; simpl; [done|].
  apply Forall_cons in H as [Hne H]. rewrite IH by done. unfold cas_write.
  case_match; [by rewrite lookup_insert_ne|by rewrite lookup_delete_ne].
Qed.

Lemma cas_writes_leases kv cas run :
  Forall (λ item, is_owner_key (Cas.key item) = false) cas →
  cas_writes kv cas !! owner_key run = kv !! owner_key run.
Proof.
  intros H. apply cas_writes_lookup. eapply Forall_impl; [exact H|]. simpl. intros item Ho Heq.
  rewrite Heq in Ho. unfold is_owner_key, owner_key in Ho. by rewrite starts_with_app in Ho.
Qed.

(** ** The checks of a call *)
Lemma check_events_Ok run keys events :
  check_events run keys events = Ok tt →
  NoDup (Event.key <$> events) ∧ Forall (λ e, Event.key e ∉ keys) events ∧
  Forall (λ e, Event.run e = run) events.
Proof.
  revert keys; induction events as [|e events IH]; intros keys H; simpl in *;
    [by repeat constructor|].
  destruct (check_event run e) as [[]|] eqn:Ee; [|done]. case_bool_decide; [done|].
  apply IH in H as (Hn & Hf & Hr). split_and!.
  - apply NoDup_cons. split; [|done]. intros (e' & Hk & Hin)%list_elem_of_fmap.
    rewrite Forall_forall in Hf. specialize (Hf _ Hin). set_solver.
  - constructor; [done|]. eapply Forall_impl; [exact Hf|]. set_solver.
  - constructor; [|done]. unfold check_event in Ee.
    destruct (bool_decide_reflect (Event.run e = run)); [done|]. done.
Qed.

Lemma check_call_Ok run events cas :
  check_call run events cas = Ok tt →
  NoDup (Event.key <$> events) ∧ Forall (λ e, Event.run e = run) events ∧
  NoDup (Cas.key <$> cas) ∧ Forall (λ item, is_owner_key (Cas.key item) = false) cas.
Proof.
  unfold check_call. destruct (check_events run [] events) as [[]|] eqn:E; [|done].
  intros H. apply check_events_Ok in E as (? & _ & ?). apply check_cas_Ok in H as (? & Hf).
  split_and!; try done. eapply Forall_impl; [done|]. naive_solver.
Qed.

Lemma check_commissioned_at_Ok index events last_seq row :
  check_commissioned_at index events last_seq row = Ok tt →
  ∀ i e, events !! i = Some e → is_commissioned (Event.body e) = true →
    last_seq = 0 ∧ (index + i = 0)%nat.
Proof.
  revert index; induction events as [|e events IH]; intros index H i e' Hi He; [done|].
  assert (is_commissioned (Event.body e) = true → last_seq = 0 ∧ index = 0%nat) as Hhead.
  { intros Hc. simpl in H. destruct (Event.body e); try done.
    destruct (N.eqb_spec last_seq 0), (Nat.eqb_spec index 0); simpl in H; done. }
  assert (check_commissioned_at (S index) events last_seq row = Ok tt) as Hrest.
  { simpl in H. repeat case_match; done. }
  destruct i as [|i]; simplify_eq/=; [destruct (Hhead He); split; [done|lia]|].
  eapply IH in Hrest; [|done..]. lia.
Qed.

(** ** Keys *)
Lemma logged_seq_Some t run key seq :
  store_ok t → logged_seq t run key = Some seq →
  (Event.key <$> log_of t run) !! N.to_nat (N.pred seq) = Some key ∧ 0 < seq.
Proof.
  unfold logged_seq. intros Hok (row & Hf & ->)%fmap_Some.
  apply find_first_Some in Hf as [Hin Hf]. apply andb_true_iff in Hf as [Hr Hk].
  apply bool_decide_eq_true in Hr, Hk.
  assert (row ∈ rows_of t run) as [i Hi]%list_elem_of_lookup
    by (apply list_elem_of_filter; done).
  destruct (Forall2_lookup_r _ _ _ _ _ (ok_rows t Hok run) Hi) as (e & He & _ & Hs & Hke & _).
  destruct (view_positions _ (ok_view t Hok) run i e He) as [Hseq _].
  rewrite Hs, Hseq, list_lookup_fmap. replace (N.to_nat (N.pred (N.of_nat i + 1))) with i by lia.
  simpl in He. rewrite He. simpl. split; [congruence|lia].
Qed.

Lemma logged_seq_None t run key :
  store_ok t → logged_seq t run key = None → key ∉ (Event.key <$> log_of t run).
Proof.
  unfold logged_seq. intros Hok Hf%fmap_None. apply find_first_None in Hf.
  intros (e & -> & [i He]%list_elem_of_lookup)%list_elem_of_fmap.
  destruct (Forall2_lookup_l _ _ _ _ _ (ok_rows t Hok run) He) as (row & Hi & Hr & _ & Hk & _).
  destruct (view_positions _ (ok_view t Hok) run i e He) as [_ Hrun].
  apply list_elem_of_lookup_2, list_elem_of_filter in Hi as [Hrow Hin].
  rewrite Forall_forall in Hf. specialize (Hf _ Hin). rewrite andb_false_iff in Hf.
  destruct Hf as [Hf|Hf]; apply bool_decide_eq_false in Hf; congruence.
Qed.

Lemma waiting_iff t run key :
  store_ok t → waiting t run key = true ↔ key ∈ (Event.key <$> inbox_of t run).
Proof.
  intros Hok. unfold waiting. rewrite existsb_true, Exists_exists. split.
  - intros (row & Hin & Hrow). apply andb_true_iff in Hrow as [Hr Hk].
    apply bool_decide_eq_true in Hr, Hk.
    assert (row ∈ inbox_rows t run) as [i Hi]%list_elem_of_lookup
      by (apply list_elem_of_filter; done).
    destruct (Forall2_lookup_r _ _ _ _ _ (ok_inbox t Hok run) Hi) as (e & He & _ & Hke & _).
    apply list_elem_of_fmap. exists e. split; [congruence|]. by eapply list_elem_of_lookup_2.
  - intros (e & -> & [i He]%list_elem_of_lookup)%list_elem_of_fmap.
    destruct (Forall2_lookup_l _ _ _ _ _ (ok_inbox t Hok run) He) as (row & Hi & _ & Hk & _).
    apply list_elem_of_lookup_2, list_elem_of_filter in Hi as [Hrow Hin]. exists row.
    split; [done|]. apply andb_true_iff. split; by apply bool_decide_eq_true.
Qed.
End tables.

(** ** The contract keeps a view well formed *)
Section views.
Context {serde : Serde} {ulid : Ulid}.
Implicit Types v : View.

Lemma same_view_ok v v' : view_ok v → same_view v v' → view_ok v'.
Proof.
  intros Hok [Hs Hkv]. split.
  - intros run. destruct (Hs run) as (_ & -> & _). apply Hok.
  - intros run. destruct (Hs run) as (_ & -> & _). apply Hok.
  - intros run. destruct (Hs run) as (_ & -> & _). apply Hok.
  - intros run. destruct (Hs run) as (_ & -> & _). apply Hok.
  - intros run. destruct (Hs run) as (_ & _ & ->). apply Hok.
  - intros run. destruct (Hs run) as (_ & _ & ->). apply Hok.
  - intros run. destruct (Hs run) as (-> & -> & ->). apply Hok.
  - rewrite Hkv. apply Hok.
Qed.

(** What has to be shown of the one run a call touches. *)
Lemma view_ok_beside run v v' :
  view_ok v → same_beside run v v' →
  (∀ i e, View.log v' run !! i = Some e →
     Event.seq e = N.of_nat i + 1 ∧ Event.run e = run ∧
     (is_commissioned (Event.body e) = true → i = 0%nat)) →
  (Z.of_nat (length (View.log v' run)) <= i64_max)%Z →
  NoDup (Event.key <$> View.log v' run) →
  (∀ e, e ∈ View.inbox v' run → Event.run e = run ∧ Event.seq e = 0) →
  NoDup (Event.key <$> View.inbox v' run) →
  (View.known v' run = false → View.log v' run = [] ∧ View.inbox v' run = []) →
  (∀ other, View.kv v' !! owner_key other = View.kv v !! owner_key other) →
  view_ok v'.
Proof.
  intros Hok Hs Hlog Hlen Hkeys Hin Hinkeys Hknown Hkv.
  assert (∀ other, other = run ∨ View.known v' other = View.known v other ∧
    View.log v' other = View.log v other ∧ View.inbox v' other = View.inbox v other) as Hcase.
  { intros other. destruct (decide (other = run)); [by left|right; by apply Hs]. }
  split.
  - intros other i e. destruct (Hcase other) as [->|(_ & -> & _)]; [naive_solver|apply Hok].
  - intros other. destruct (Hcase other) as [->|(_ & -> & _)]; [done|apply Hok].
  - intros other. destruct (Hcase other) as [->|(_ & -> & _)]; [done|apply Hok].
  - intros other i e. destruct (Hcase other) as [->|(_ & -> & _)]; [naive_solver|apply Hok].
  - intros other e. destruct (Hcase other) as [->|(_ & _ & ->)]; [naive_solver|apply Hok].
  - intros other. destruct (Hcase other) as [->|(_ & _ & ->)]; [done|apply Hok].
  - intros other. destruct (Hcase other) as [->|(-> & -> & ->)]; [done|apply Hok].
  - intros other. unfold lease_of. rewrite Hkv. apply Hok.
Qed.

Lemma consumed_ok v run consume :
  view_ok v →
  (∀ e, e ∈ consumed consume (View.inbox v run) → Event.run e = run ∧ Event.seq e = 0) ∧
  NoDup (Event.key <$> consumed consume (View.inbox v run)).
Proof.
  intros Hok. split.
  - intros e [_ H]%list_elem_of_filter. by eapply view_inbox.
  - eapply sublist_NoDup; [apply (view_inbox_keys v Hok run)|].
    apply fmap_sublist, sublist_filter.
Qed.

Lemma log_app_ok v run events :
  view_ok v → NoDup (Event.key <$> events) → Forall (λ e, Event.run e = run) events →
  Forall (λ e, ¬ logged_key v run (Event.key e)) events →
  (∀ i e, events !! i = Some e → is_commissioned (Event.body e) = true →
     i = 0%nat ∧ View.log v run = []) →
  let log' := View.log v run ++ number (length (View.log v run)) events in
  (∀ i e, log' !! i = Some e →
     Event.seq e = N.of_nat i + 1 ∧ Event.run e = run ∧
     (is_commissioned (Event.body e) = true → i = 0%nat)) ∧
  NoDup (Event.key <$> log').
Proof.
  intros Hok Hn Hr Hnew Hfirst log'. split.
  - intros i e [Hi|[Hle Hi]]%lookup_app_Some.
    + destruct (view_positions v Hok _ _ _ Hi). split_and!; [done..|]. by eapply view_first.
    + apply number_lookup in Hi as (e' & Hi & ->). simpl. rewrite Forall_forall in Hr.
      split_and!; [lia|eapply Hr, list_elem_of_lookup_2, Hi|]. intros Hc.
      destruct (Hfirst _ _ Hi Hc) as [H0 Hnil]. rewrite Hnil in *. simpl in *. lia.
  - unfold log'. rewrite fmap_app, number_keys. apply NoDup_app. split_and!; [apply Hok| |done].
    intros key Hold (e & -> & Hin)%list_elem_of_fmap. rewrite Forall_forall in Hnew.
    by apply (Hnew e).
Qed.

Lemma append_contract_ok run expected_seq fence events consume cas v r v' :
  view_ok v → append_contract run expected_seq fence events consume cas v r v' → view_ok v'.
Proof.
  intros Hok [v1 timers [Hcall _ _ _] _ Hnew Hknown Hlog Hlen Hfirst Hinbox Hkv _ Hs
    |v1 seq e _ _ _ _ _ Hknown Hlog Hinbox Hkv Hs| | | |];
    try (by eapply same_view_ok).
  - apply check_call_Ok in Hcall as (Hn & Hr & _ & Ho).
    destruct (log_app_ok v run events) as [Hl Hk]; [done..|].
    destruct (consumed_ok v run consume) as [Hi Hik]; [done|].
    eapply (view_ok_beside run v); rewrite ?Hlog, ?Hinbox; try done.
    + by rewrite <-Hlog.
    + by rewrite Hknown.
    + intros other. rewrite Hkv. by apply cas_writes_leases.
  - destruct (consumed_ok v run consume) as [Hi Hik]; [done|].
    eapply (view_ok_beside run v); rewrite ?Hlog, ?Hinbox, ?Hkv; try done; try apply Hok.
    + intros i x Hx. destruct (view_positions v Hok _ _ _ Hx). split_and!; [done..|].
      by eapply view_first.
    + rewrite Hknown. intros Hf. destruct (view_known v Hok _ Hf) as [-> ->]. done.
Qed.
End views.

(** ** What the derived columns are made of *)
Lemma max_version_app l1 l2 : max_version (l1 ++ l2) = N.max (max_version l1) (max_version l2).
Proof.
  unfold max_version. rewrite fmap_app, foldr_app. induction (Event.v <$> l1) as [|n l IH]; simpl.
  - lia.
  - rewrite IH. lia.
Qed.

Lemma max_version_number n events : max_version (number n events) = max_version events.
Proof.
  unfold max_version. f_equal. unfold number. rewrite fmap_imap. apply (imap_const Event.v).
Qed.

Lemma max_version_le events n :
  Forall (λ e, n <= Event.v e) events → events ≠ [] → n <= max_version events.
Proof. destruct 1; [done|]. intros _. unfold max_version. simpl. lia. Qed.

Lemma finishes_number n events :
  existsb (λ e, is_finished (Event.body e)) (number n events) =
  existsb (λ e, is_finished (Event.body e)) events.
Proof.
  revert n; induction events as [|e events IH]; intros n; [done|]. rewrite number_cons. simpl.
  by rewrite IH.
Qed.

Lemma timer_event_number n events m :
  fold_left timer_event (number n events) m = fold_left timer_event events m.
Proof.
  revert n m; induction events as [|e events IH]; intros n m; [done|]. rewrite number_cons. simpl.
  by rewrite IH.
Qed.

Lemma armed_of_app log n events :
  armed_of (log ++ number n events) = fold_left timer_event events (armed_of log).
Proof. unfold armed_of. by rewrite fold_left_app, timer_event_number. Qed.

(** ** The rows of one run *)
Section rows.
Context {serde : Serde} {ulid : Ulid}.
Implicit Types t : Tables.

Lemma filter_none {A} (P : A → Prop) `{!∀ x, base.Decision (P x)} l :
  Forall (λ x, ¬ P x) l → filter P l = [].
Proof. induction 1; [done|]. by rewrite filter_cons_False. Qed.

Lemma delete_inbox_rows_eq t run consume :
  delete_inbox_rows t run consume =
  t <| t_inbox := filter (λ row, ¬ (inbox_run row = run ∧ inbox_key row ∈ consume)) (t_inbox t) |>.
Proof.
  unfold delete_inbox_rows, delete_inbox_row.
  revert t; induction consume as [|key consume IH]; intros t; simpl.
  - rewrite filter_all; [by destruct t|]. apply Forall_true.
    intros row [_ H]. by apply not_elem_of_nil in H.
  - rewrite IH. unfold set_field, set_t_inbox. simpl. f_equal. rewrite list_filter_filter.
    apply list_filter_iff. intros row. set_solver.
Qed.

Lemma log_of_rows t run log :
  Forall2 row_of log (rows_of t run) → log_of t run = log.
Proof. intros H. eapply Forall2_omap; [|exact H]. by intros e row (_ & _ & _ & _ & ?). Qed.

Lemma inbox_of_rows t run inbox :
  Forall2 inbox_row_of inbox (inbox_rows t run) → inbox_of t run = inbox.
Proof. intros H. eapply Forall2_omap; [|exact H]. by intros e row (_ & _ & ?). Qed.

(** The rows of a call that is of one run. *)
Lemma rows_of_app t rows run other :
  Forall (λ row, events_run row = run) rows →
  rows_of (t <| t_events := t_events t ++ rows |>) other =
  if decide (other = run) then rows_of t other ++ rows else rows_of t other.
Proof.
  intros H. unfold rows_of. simpl. rewrite filter_app. case_decide; subst.
  - by rewrite (filter_all _ rows).
  - rewrite (filter_none _ rows), app_nil_r; [done|]. eapply Forall_impl; [exact H|]. congruence.
Qed.

Lemma row_of_run log rows run :
  Forall (λ e, Event.run e = run) log → Forall2 row_of log rows →
  Forall (λ row, events_run row = run) rows.
Proof.
  intros Hf. induction 1 as [|e row log rows (Hr & _) _ IH]; [constructor|].
  apply Forall_cons in Hf as [He Hf]. constructor; [congruence|auto].
Qed.

Lemma number_run n events run :
  Forall (λ e, Event.run e = run) events → Forall (λ e, Event.run e = run) (number n events).
Proof.
  intros H. revert n; induction H as [|e events He _ IH]; intros n; [constructor|].
  rewrite number_cons. by constructor.
Qed.

Lemma inbox_rows_consumed t run consume other :
  inbox_rows (delete_inbox_rows t run consume) other =
  if decide (other = run) then filter (λ row, inbox_key row ∉ consume) (inbox_rows t other)
  else inbox_rows t other.
Proof.
  rewrite delete_inbox_rows_eq. unfold inbox_rows. simpl. rewrite list_filter_filter.
  case_decide; subst; [rewrite list_filter_filter|]; apply list_filter_iff; naive_solver.
Qed.

Lemma inbox_row_consumed inbox rows consume :
  Forall2 inbox_row_of inbox rows →
  Forall2 inbox_row_of (consumed consume inbox) (filter (λ row, inbox_key row ∉ consume) rows).
Proof.
  unfold consumed. induction 1 as [|e row inbox rows H _ IH]; [constructor|].
  destruct H as (Hr & Hk & Hb). rewrite !filter_cons, Hk. case_decide; [|done].
  constructor; [|done]. by repeat split.
Qed.
End rows.

(** ** Errors *)
Section errors.
Context {serde : Serde} {ulid : Ulid}.
Implicit Types t : Tables.

Lemma known_read_run t run :
  bool_decide (is_Some (read_run t run)) = View.known (view_of t) run.
Proof.
  simpl. apply bool_decide_ext. unfold read_run. destruct (t_runs t !! run); simpl; split;
    intros [? ?]; try done; by eexists.
Qed.

(** What the writes of a call fail for. *)
Definition leases_read (kv : gmap string Bytes) : Prop :=
  ∀ run, is_Some (kv !! owner_key run) → is_Some (lease_of kv run).

Lemma current_epoch_reads t run : leases_read (t_kv t) → ∃ epoch, current_epoch t run = Ok epoch.
Proof.
  intros Hl. unfold current_epoch, decode_lease, select_kv. specialize (Hl run). unfold lease_of in Hl.
  destruct (t_kv t !! owner_key run) as [b|]; [|by eexists]. simpl in Hl.
  destruct Hl as [lease ->]; [by eexists|]. by eexists.
Qed.

Lemma check_effect_fails t key value e :
  leases_read (t_kv t) → starts_with EFFECT_PREFIX key = true → check_effect_write t key value = Err e →
  ¬ (∃ run entry, effect_run key = Some run ∧ entry_from_slice value = Some entry ∧
       epoch_of (t_kv t) run = Some (EffectEntry.epoch entry)) ∧
  StoreError.kind e ∈ ["invalid_event"; "fenced"].
Proof.
  intros Hl Hp H. unfold check_effect_write in H.
  destruct (effect_run key) as [run|]; [|simplify_eq; split; [by intros (? & ? & ? & _)|set_solver]].
  destruct (entry_from_slice value) as [entry|]; [|simplify_eq; split; [by intros (? & ? & _ & ? & _)|set_solver]].
  destruct (current_epoch_reads t run Hl) as [epoch He]. rewrite He in H. case_bool_decide as Hb; [done|].
  simplify_eq. split; [|set_solver]. intros (run' & entry' & [= <-] & [= <-] & Hx).
  apply current_epoch_Ok in He as ->. congruence.
Qed.

Lemma apply_cas_fails t item e :
  leases_read (t_kv t) → apply_cas t item = Err e → cas_failure (t_kv t) item e.
Proof.
  intros Hl H. unfold apply_cas in H. destruct (is_owner_key (Cas.key item)) eqn:Eo.
  - destruct (check_owner_value _ _) as [[]|e1] eqn:E1.
    2:{ simplify_eq. unfold check_owner_value in E1. apply cas_no_lease; [done|..].
        - intros Hk. destruct (Hk Eo) as (bytes & new & Ht & Hn & _). by rewrite Ht, Hn in E1.
        - repeat case_match; simplify_eq; set_solver. }
    assert (starts_with EFFECT_PREFIX (Cas.key item) = false) as Ee.
    { destruct (starts_with EFFECT_PREFIX (Cas.key item)) eqn:Ee; [|done]. exfalso.
      unfold is_owner_key, starts_with in Eo, Ee. apply bool_decide_eq_true in Eo as [r1 H1%strip_prefix_Some].
      apply bool_decide_eq_true in Ee as [r2 H2%strip_prefix_Some]. rewrite H1 in H2. done. }
    rewrite Ee in H. case_bool_decide as Ec; simpl in H; [|simplify_eq; by apply cas_differs].
    destruct (check_epoch_keeps_rising _ _ _) as [[]|e2] eqn:E2; simplify_eq.
    unfold check_owner_value in E1. destruct (Cas.to item) as [new|] eqn:Et; [|done].
    destruct (lease_from_slice new) as [lease|] eqn:El; [|done].
    unfold check_epoch_keeps_rising in E2. rewrite Ec in E2. destruct (Cas.from item) as [from|] eqn:Ef; [|done].
    unfold decode_lease in E2. rewrite El in E2.
    destruct (lease_from_slice from) as [old|] eqn:Eold.
    + case_match eqn:Elt; [|done]. simplify_eq. apply N.ltb_lt in Elt. apply cas_no_lease; [done| |set_solver].
      intros Hk. destruct (Hk Eo) as (bytes & new' & Ht & Hn & Hle). rewrite Et in Ht. simplify_eq.
      specialize (Hle old). rewrite Ef in Hle. simpl in Hle. specialize (Hle Eold). lia.
    + exfalso. unfold is_owner_key, starts_with in Eo. apply bool_decide_eq_true in Eo as [run Hr%strip_prefix_Some].
      destruct (Hl run) as [l Hlease]; unfold lease_of, owner_key in *; rewrite <-Hr in *.
      * unfold select_kv in Ec. by rewrite Ec.
      * unfold select_kv in Ec. rewrite Ec in Hlease. simpl in Hlease. congruence.
  - destruct (starts_with EFFECT_PREFIX (Cas.key item)) eqn:Ee.
    + destruct (Cas.to item) as [value|] eqn:Et.
      * destruct (check_effect_write t _ _) as [[]|e1] eqn:E1.
        { case_bool_decide as Ec; simpl in H; [done|]. simplify_eq. by apply cas_differs. }
        simplify_eq. apply check_effect_fails in E1 as [Hno Hk]; [|done..]. apply cas_no_entry; [|done].
        intros Hkeeps. by apply Hno, Hkeeps.
      * case_bool_decide as Ec; simpl in H; [done|]. simplify_eq. by apply cas_differs.
    + case_bool_decide as Ec; simpl in H; [done|]. simplify_eq. by apply cas_differs.
Qed.

Lemma apply_cas_list_fails t cas e :
  leases_read (t_kv t) → NoDup (Cas.key <$> cas) →
  Forall (λ item, is_owner_key (Cas.key item) = false) cas →
  apply_cas_list t cas = Err e → cas_list_failure (t_kv t) cas e.
Proof.
  revert t; induction cas as [|item cas IH]; intros t Hl Hn Ho H; simpl in H; [done|].
  apply Forall_cons in Ho as [Hi Ho]. csimpl in Hn. apply NoDup_cons in Hn as [Hnot Hn].
  destruct (apply_cas t item) as [t1|e1] eqn:E.
  - apply apply_cas_Ok in E as (-> & Hc & _).
    assert (∀ run, Cas.key item ≠ owner_key run) as Hne.
    { intros run Hk. rewrite Hk in Hi. unfold is_owner_key, owner_key in Hi. by rewrite starts_with_app in Hi. }
    apply IH in H as (before & it & rest & -> & Hf & Hx); [| |done..].
    + exists (item :: before), it, rest. split_and!; [done| |exact Hx]. constructor; [done|].
      rewrite Forall_forall in *. intros x Hin. rewrite <-(Hf x Hin). cbn. unfold cas_write.
      assert (Cas.key item ≠ Cas.key x) as Hkx.
      { intros Hk. apply Hnot. rewrite Hk. apply list_elem_of_fmap_2, elem_of_app. by left. }
      destruct (Cas.to item); [by rewrite lookup_insert_ne|by rewrite lookup_delete_ne].
    + intros run. unfold lease_of. cbn. unfold cas_write. specialize (Hl run). unfold lease_of in Hl.
      destruct (Cas.to item); [by rewrite lookup_insert_ne|by rewrite lookup_delete_ne].
  - simplify_eq. exists [], item, cas. split_and!; [done|constructor|]. by apply apply_cas_fails.
Qed.

(** The texts and the positions of the events, in tables that hold nothing at those positions and under
    those keys. *)
Lemma insert_events_fails t run n events e :
  (Z.of_nat n <= i64_max)%Z → Forall (λ e, Event.run e = run) events → NoDup (Event.key <$> events) →
  (∀ row, row ∈ t_events t → events_run row = run →
     events_seq row <= N.of_nat n ∧ events_key row ∉ (Event.key <$> events)) →
  insert_events t (N.of_nat n) events = Err e →
  (∃ i event, events !! i = Some event ∧
     event_to_string (event <| Event.seq := N.of_nat (n + i) + 1 |>) = None ∧
     StoreError.kind e = "invalid_event") ∨
  (i64_max < Z.of_nat (n + length events))%Z ∧ StoreError.kind e = "backend".
Proof.
  revert t n; induction events as [|event events IH]; intros t n Hn Hrun Hnd Hrows H; simpl in H; [done|].
  apply Forall_cons in Hrun as [Hr Hrun]. csimpl in Hnd. apply NoDup_cons in Hnd as [Hnot Hnd].
  rewrite u64_succ_small in H by lia.
  destruct (insert_event t event (N.of_nat n + 1)) as [t1|e1] eqn:E.
  - unfold insert_event, wire, sql_u64 in E. destruct (event_to_string _) as [text|]; [|done]. simpl in E.
    destruct (Z.leb_spec (Z.of_N (N.of_nat n + 1)) i64_max) as [Hle|]; [|done]. simpl in E.
    destruct (existsb _ (t_events t)); [done|]. destruct (existsb _ (t_events t)); [done|]. simplify_eq.
    replace (N.of_nat n + 1) with (N.of_nat (Datatypes.S n)) in H by lia.
    apply IH in H as [(i & ev & Hi & Ht & Hk)|[Hlen Hk]]; [..|lia|done|done|].
    + left. exists (Datatypes.S i), ev. split_and!; [done| |done].
      by replace (N.of_nat (n + Datatypes.S i)) with (N.of_nat (Datatypes.S n + i)) by lia.
    + right. split; [|done]. simpl. lia.
    + intros row [Hin| ->%list_elem_of_singleton]%elem_of_app Hrow.
      * destruct (Hrows row Hin Hrow) as [Hs Hk]. split; [lia|]. set_solver.
      * simpl. split; [lia|done].
  - simplify_eq. unfold insert_event, wire, sql_u64 in E.
    destruct (event_to_string _) as [text|] eqn:Et.
    2:{ simpl in E. simplify_eq. left. exists 0%nat, event. rewrite Nat.add_0_r. by split_and!. }
    simpl in E. destruct (Z.leb_spec (Z.of_N (N.of_nat n + 1)) i64_max) as [Hle|Hlt].
    2:{ simplify_eq. right. split; [simpl; lia|done]. }
    exfalso. simpl in E. destruct (existsb _ (t_events t)) eqn:E1.
    { apply existsb_exists in E1 as (row & Hin%list_elem_of_In & [Hr1%bool_decide_eq_true Hs%N.eqb_eq]%andb_true_iff).
      destruct (Hrows row Hin) as [Hle' _]; [congruence|]. lia. }
    clear E1. case_match eqn:E2; [|done].
    apply existsb_exists in E2 as (row & Hin%list_elem_of_In & [Hr1%bool_decide_eq_true Hk%bool_decide_eq_true]%andb_true_iff).
    destruct (Hrows row Hin) as [_ Hk']; [congruence|]. rewrite Hk in Hk'. set_solver.
Qed.

Lemma insert_events_writable t n events t' seq :
  (Z.of_nat n <= i64_max)%Z → insert_events t (N.of_nat n) events = Ok (t', seq) →
  ∀ i event, events !! i = Some event →
    is_Some (event_to_string (event <| Event.seq := N.of_nat (n + i) + 1 |>)).
Proof.
  revert t n; induction events as [|event events IH]; intros t n Hn H i ev Hi; simpl in H; [done|].
  rewrite u64_succ_small in H by lia.
  destruct (insert_event t event (N.of_nat n + 1)) as [t1|e1] eqn:E; [|done].
  unfold insert_event, wire, sql_u64 in E. destruct (event_to_string _) as [text|] eqn:Et; [|done]. simpl in E.
  destruct (Z.leb_spec (Z.of_N (N.of_nat n + 1)) i64_max) as [Hle|]; [|done].
  destruct i as [|i]; [injection Hi as <-; rewrite Nat.add_0_r; by eexists|].
  replace (N.of_nat n + 1) with (N.of_nat (Datatypes.S n)) in H by lia.
  destruct (IH t1 (Datatypes.S n) ltac:(lia) H i ev Hi) as [text' H'].
  exists text'. by replace (N.of_nat (n + Datatypes.S i)) with (N.of_nat (Datatypes.S n + i)) by lia.
Qed.

Lemma check_commissioned_at_fails index events last_seq row e :
  check_commissioned_at index events last_seq row = Err e →
  StoreError.kind e = "invalid_event" ∧
  ∃ i event, events !! i = Some event ∧ is_commissioned (Event.body event) = true ∧
    ((index + i)%nat ≠ 0%nat ∨ last_seq ≠ 0 ∨ is_Some row).
Proof.
  revert index; induction events as [|event events IH]; intros index H; simpl in H; [done|].
  assert (check_commissioned_at (Datatypes.S index) events last_seq row = Err e →
    StoreError.kind e = "invalid_event" ∧
    ∃ i event', (event :: events) !! i = Some event' ∧ is_commissioned (Event.body event') = true ∧
      ((index + i)%nat ≠ 0%nat ∨ last_seq ≠ 0 ∨ is_Some row)) as Hrest.
  { intros (Hk & i & ev & Hi & Hc & Hx)%IH. split; [done|]. exists (Datatypes.S i), ev.
    split_and!; [done..|]. left. lia. }
  destruct (Event.body event) eqn:Eb; try by apply Hrest.
  assert (is_commissioned (Event.body event) = true) as Hc by by rewrite Eb.
  destruct (negb (last_seq =? 0) || negb (index =? 0)%nat) eqn:Epos.
  { simplify_eq. split; [done|]. exists 0%nat, event. split_and!; [done..|].
    apply orb_true_iff in Epos as [Hl%negb_true_iff|Hl%negb_true_iff]; [right; left|left].
    - by apply N.eqb_neq in Hl.
    - apply Nat.eqb_neq in Hl. lia. }
  destruct row as [row|]; [|by apply Hrest].
  assert (∃ i event', (event :: events) !! i = Some event' ∧ is_commissioned (Event.body event') = true ∧
    ((index + i)%nat ≠ 0%nat ∨ last_seq ≠ 0 ∨ is_Some (Some row))) as Hhere
    by (exists 0%nat, event; split_and!; [done|done|]; right; right; by eexists).
  clear Epos. do 2 (case_match; [by simplify_eq|]).
  by apply Hrest.
Qed.

Definition call_errors : list string := ["invalid_event"; "protected"].

Lemma check_cas_Err keys cas e : check_cas keys cas = Err e → StoreError.kind e ∈ call_errors.
Proof.
  revert keys; induction cas as [|item cas IH]; intros keys H; simpl in H; [done|].
  destruct (is_owner_key _); [simplify_eq; set_solver|].
  destruct (bool_decide _); [simplify_eq; set_solver|]. by eapply IH.
Qed.

Lemma check_events_Err run keys events e :
  check_events run keys events = Err e → StoreError.kind e ∈ call_errors.
Proof.
  revert keys; induction events as [|event events IH]; intros keys H; simpl in H; [done|].
  destruct (check_event run event) as [[]|e2] eqn:E.
  - destruct (bool_decide _); [simplify_eq; set_solver|]. by eapply IH.
  - simplify_eq. unfold check_event in E. repeat case_match; simplify_eq; set_solver.
Qed.

Lemma check_call_Err run events cas e :
  check_call run events cas = Err e → StoreError.kind e ∈ call_errors.
Proof.
  unfold check_call. destruct (check_events run [] events) as [[]|e1] eqn:E; intros H.
  - by eapply check_cas_Err.
  - simplify_eq. by eapply check_events_Err.
Qed.
End errors.

(** ** [append] *)
Section append.
Context {serde : Serde} {laws : SerdeLaws serde} {ulid : Ulid}.
Implicit Types t : Tables.

(** The tables after the writes of an [append]. *)
Record appended t (run : RunId) (events : list Event) (consume : list Key) (cas : list Cas) t' :
    Prop := {
  appended_rows : ∃ rows,
    t_events t' = t_events t ++ rows ∧ Forall2 row_of (number (length (log_of t run)) events) rows;
  appended_length : (Z.of_nat (length (log_of t run) + length events) <= i64_max)%Z;
  appended_first i e :
    events !! i = Some e → is_commissioned (Event.body e) = true → i = 0%nat ∧ log_of t run = [];
  appended_inbox : t_inbox t' = t_inbox (delete_inbox_rows t run consume);
  appended_kv : t_kv t' = cas_writes (t_kv t) cas;
  appended_compared : Forall (λ item, t_kv t !! Cas.key item = Cas.from item) cas;
  appended_timers timer :
    armed_at t' run timer = fold_left timer_event events (armed_of (log_of t run)) !! timer;
  appended_others run' timer : run' ≠ run → armed_at t' run' timer = armed_at t run' timer;
  appended_row : ∃ row, t_runs t' !! run = Some row ∧
    runs_last_seq row = N.of_nat (length (log_of t run) + length events) ∧
    runs_max_v row = N.max (max_version (log_of t run)) (max_version events) ∧
    runs_finished row = existsb (λ e, is_finished (Event.body e)) (log_of t run) ||
                        existsb (λ e, is_finished (Event.body e)) events;
  appended_runs other : other ≠ run → t_runs t' !! other = t_runs t !! other;
}.

(** The row of the run, before its update. *)
Lemma created_row t run events t1 :
  store_ok t →
  (match read_run t run, events with
   | None, event :: _ => create_run t run event
   | _, _ => Ok t
   end) = Ok t1 →
  is_Some (t_runs t !! run) ∨ events ≠ [] →
  ∃ row, t1 = t <| t_runs := <[run := row]> (t_runs t) |> ∧
    runs_last_seq row = N.of_nat (length (log_of t run)) ∧
    runs_max_v row = max_version (log_of t run) ∧
    runs_finished row = existsb (λ e, is_finished (Event.body e)) (log_of t run).
Proof.
  intros Hok Hc Hsome. unfold read_run in Hc.
  destruct (t_runs t !! run) as [row|] eqn:Er; simpl in Hc.
  - simplify_eq. exists row. split; [|by apply (ok_runs _ Hok)].
    rewrite insert_id by done. by destruct t1.
  - destruct events as [|event events]; [destruct Hsome as [[? ?]|?]; done|].
    assert (View.known (view_of t) run = false) as Hk%(view_known _ (ok_view t Hok)).
    { simpl. by rewrite Er. }
    destruct Hk as [Hlog _]. simpl in Hlog. unfold create_run in Hc. rewrite Er in Hc.
    destruct (Event.body event); try done. simplify_eq. rewrite Hlog.
    eexists. split; [done|]. by split_and!.
Qed.

Lemma append_new_Ok t run events consume cas t' ap :
  store_ok t → check_call run events cas = Ok tt → is_Some (t_runs t !! run) ∨ events ≠ [] →
  append_new t run (read_run t run) (N.of_nat (length (log_of t run))) events consume cas
    = Ok (t', ap) →
  appended t run events consume cas t' ∧
  Appended.last_seq ap = N.of_nat (length (log_of t run) + length events) ∧
  timer_changes (armed_of (log_of t run)) events (Appended.timers ap).
Proof using Type*.
  intros Hok Hcall Hsome H. unfold append_new in H.
  apply check_call_Ok in Hcall as (_ & Hrun & Hck & Hco).
  destruct (match read_run t run with Some _ => _ | None => _ end) as [t1|] eqn:Hc; [|done].
  apply created_row in Hc as (row & -> & Hl & Hv & Hf); [|done..].
  destruct (check_commissioned_position _ _ _) as [[]|] eqn:Hp; [|done].
  destruct (insert_events _ _ _) as [[t2 seq]|] eqn:Hi; [|done].
  apply insert_events_Ok in Hi as (-> & Hlen & rows & -> & Hrows);
    [|apply (view_length _ (ok_view t Hok) run)].
  rewrite delete_inbox_rows_eq in H. unfold set_field, set_t_inbox, set_t_events, set_t_runs in H.
  cbn [t_events t_inbox t_timers t_kv t_runs] in H.
  destruct (apply _ run events) as [t3 timers] eqn:Ha.
  eapply (apply_Some _ _ _ (armed_of (log_of t run))) in Ha as (Ho & Ht & Hr & Hch);
    [|intros timer; exact (ok_timers t Hok run timer)].
  unfold timers_only in Ho. rewrite Ho in H. unfold set_field, set_t_timers in H.
  cbn [t_events t_inbox t_timers t_kv t_runs] in H.
  destruct (apply_cas_list _ cas) as [t4|] eqn:Hcas; [|done].
  apply apply_cas_list_Ok in Hcas as [-> Hcmp]; [|done]. cbn [t_kv] in Hcmp.
  simplify_eq. split; [|done]. split; cbn.
  - eauto.
  - done.
  - intros i e Hi Hc. eapply check_commissioned_at_Ok in Hp as [H0 ?]; [|done..].
    split; [lia|]. apply length_zero_iff_nil. lia.
  - by rewrite delete_inbox_rows_eq.
  - done.
  - done.
  - exact Ht.
  - exact Hr.
  - rewrite lookup_alter_eq, lookup_insert_eq. simpl. eexists. split; [done|]. simpl.
    by rewrite Hv, Hf.
  - intros other Hne. by rewrite lookup_alter_ne, lookup_insert_ne by done.
Qed.

Lemma appended_logs t run events consume cas t' :
  store_ok t → Forall (λ e, Event.run e = run) events → appended t run events consume cas t' →
  ∀ other, Forall2 row_of
    (if decide (other = run) then log_of t run ++ number (length (log_of t run)) events
     else log_of t other) (rows_of t' other).
Proof.
  intros Hok Hrun Ha other. destruct (appended_rows _ _ _ _ _ _ Ha) as (rows & He & Hrows).
  assert (rows_of t' other = rows_of (t <| t_events := t_events t ++ rows |>) other) as ->
    by (unfold rows_of; by rewrite He).
  rewrite (rows_of_app _ _ run) by (eapply row_of_run; [by apply number_run|exact Hrows]).
  case_decide; subst; [apply Forall2_app; [|done]|]; apply (ok_rows _ Hok).
Qed.

Lemma appended_inboxes t run events consume cas t' :
  store_ok t → appended t run events consume cas t' →
  ∀ other, Forall2 inbox_row_of
    (if decide (other = run) then consumed consume (inbox_of t run) else inbox_of t other)
    (inbox_rows t' other).
Proof.
  intros Hok Ha other.
  assert (inbox_rows t' other = inbox_rows (delete_inbox_rows t run consume) other) as ->
    by (unfold inbox_rows; by rewrite (appended_inbox _ _ _ _ _ _ Ha)).
  rewrite inbox_rows_consumed.
  case_decide; subst; [apply inbox_row_consumed|]; apply (ok_inbox _ Hok).
Qed.

Lemma appended_contract faults t run expected_seq fence events consume cas t' timers :
  timer_changes (armed_of (log_of t run)) events timers → store_ok t → append_admitted run expected_seq fence events cas (view_of t) →
  Forall (λ e, max_version (log_of t run) <= Event.v e) events →
  Forall (λ e, ¬ logged_key (view_of t) run (Event.key e)) events →
  appended t run events consume cas t' →
  append_within faults run expected_seq fence events consume cas (view_of t)
    (Ok (Appended.Mk (N.of_nat (length (log_of t run) + length events)) timers)) (view_of t').
Proof.
  intros Hch Hok Had Hv Hnew Ha.
  assert (Hrun := proj1 (proj2 (check_call_Ok _ _ _ (admitted_call _ _ _ _ _ _ Had)))).
  assert (Hlog := λ other, log_of_rows _ _ _ (appended_logs _ _ _ _ _ _ Hok Hrun Ha other)).
  assert (Hinbox := λ other, inbox_of_rows _ _ _ (appended_inboxes _ _ _ _ _ _ Hok Ha other)).
  assert (log_of t' run = log_of t run ++ number (length (log_of t run)) events) as Hl
    by (rewrite Hlog; by case_decide).
  replace (length (log_of t run) + length events)%nat with (length (View.log (view_of t') run))
    by (simpl; by rewrite Hl, length_app, number_length).
  eapply append_done; try done; simpl.
  - destruct (appended_row _ _ _ _ _ _ Ha) as (row & -> & _). done.
  - rewrite Hl, length_app, number_length. apply Ha.
  - exact (appended_first _ _ _ _ _ _ Ha).
  - rewrite Hinbox. by case_decide.
  - apply Ha.
  - apply Ha.
  - intros other Hne. simpl. rewrite Hlog, Hinbox, !decide_False by done.
    by rewrite (appended_runs _ _ _ _ _ _ Ha).
Qed.

Lemma appended_ok t run expected_seq fence events consume cas t' timers :
  timer_changes (armed_of (log_of t run)) events timers → store_ok t → append_admitted run expected_seq fence events cas (view_of t) →
  Forall (λ e, max_version (log_of t run) <= Event.v e) events →
  Forall (λ e, ¬ logged_key (view_of t) run (Event.key e)) events →
  appended t run events consume cas t' → store_ok t'.
Proof.
  intros Hch Hok Had Hv Hnew Ha.
  assert (Hrun := proj1 (proj2 (check_call_Ok _ _ _ (admitted_call _ _ _ _ _ _ Had)))).
  assert (Hrows := appended_logs _ _ _ _ _ _ Hok Hrun Ha).
  assert (Hlog := λ other, log_of_rows _ _ _ (Hrows other)).
  assert (Hin := appended_inboxes _ _ _ _ _ _ Hok Ha).
  split.
  - eapply append_contract_ok; [exact (ok_view t Hok)|].
    by apply (appended_contract any_fault t run expected_seq fence events consume cas t' timers).
  - intros other. rewrite (Hlog other). apply Hrows.
  - intros other. rewrite (inbox_of_rows _ _ _ (Hin other)). apply Hin.
  - intros other row Hr. rewrite Hlog. case_decide as Ho; [subst other|].
    + destruct (appended_row _ _ _ _ _ _ Ha) as (row' & Hr' & Hl & Hm & Hf). simplify_eq.
      rewrite length_app, number_length, max_version_app, max_version_number, existsb_app,
        finishes_number. done.
    + rewrite (appended_runs _ _ _ _ _ _ Ha) in Hr by done. by apply (ok_runs _ Hok).
  - intros other timer. rewrite Hlog. case_decide as Ho; [subst other|].
    + rewrite armed_of_app. apply Ha.
    + rewrite (appended_others _ _ _ _ _ _ Ha) by done. apply (ok_timers _ Hok).
Qed.

Lemma same_view_refl v : same_view v v.
Proof. by repeat split. Qed.

(** Consuming rows alone. *)
Lemma delete_inbox_rows_ok t run consume :
  store_ok t → store_ok (delete_inbox_rows t run consume) ∧
  View.inbox (view_of (delete_inbox_rows t run consume)) run =
    consumed consume (View.inbox (view_of t) run) ∧
  same_beside run (view_of t) (view_of (delete_inbox_rows t run consume)).
Proof.
  intros Hok.
  assert (∀ other, Forall2 inbox_row_of
    (if decide (other = run) then consumed consume (inbox_of t run) else inbox_of t other)
    (inbox_rows (delete_inbox_rows t run consume) other)) as Hrows.
  { intros other. rewrite inbox_rows_consumed.
    case_decide; subst; [apply inbox_row_consumed|]; apply (ok_inbox _ Hok). }
  assert (Hin := λ other, inbox_of_rows _ _ _ (Hrows other)).
  assert (same_beside run (view_of t) (view_of (delete_inbox_rows t run consume))) as Hs.
  { intros other Hne. simpl. rewrite Hin, delete_inbox_rows_eq, decide_False by done. done. }
  assert (inbox_of (delete_inbox_rows t run consume) run = consumed consume (inbox_of t run)) as Hi
    by (rewrite Hin; by case_decide).
  split_and!; [|done..].
  destruct (consumed_ok (view_of t) run consume (ok_view t Hok)) as [Hc Hk].
  split.
  - eapply (view_ok_beside run (view_of t)); try done; [apply Hok|..]; simpl;
      rewrite ?Hi; try done; rewrite delete_inbox_rows_eq; simpl.
    + intros i e He. destruct (view_positions _ (ok_view t Hok) _ _ _ He).
      split_and!; [done..|]. by eapply (view_first _ (ok_view t Hok)).
    + apply (view_length _ (ok_view t Hok)).
    + apply (view_log_keys _ (ok_view t Hok)).
    + intros Hf. destruct (view_known _ (ok_view t Hok) _ Hf) as [Hl Hb]. simpl in Hl, Hb.
      rewrite Hb. done.
    + done.
  - intros other. rewrite delete_inbox_rows_eq. apply (ok_rows _ Hok).
  - intros other. rewrite (inbox_of_rows _ _ _ (Hrows other)). apply Hrows.
  - rewrite delete_inbox_rows_eq. apply (ok_runs _ Hok).
  - rewrite delete_inbox_rows_eq. apply (ok_timers _ Hok).
Qed.

Lemma read_run_log t run :
  store_ok t →
  from_option RunRowState.last_seq 0 (read_run t run) = N.of_nat (length (log_of t run)) ∧
  from_option RunRowState.max_v 0 (read_run t run) = max_version (log_of t run).
Proof.
  intros Hok. unfold read_run. destruct (t_runs t !! run) as [row|] eqn:Er; simpl.
  - destruct (ok_runs _ Hok _ _ Er) as (-> & -> & _). done.
  - assert (View.known (view_of t) run = false) as Hk by (simpl; by rewrite Er).
    destruct (view_known _ (ok_view t Hok) _ Hk) as [Hl _]. simpl in Hl. by rewrite Hl.
Qed.

(** What the writes fail for. *)
Lemma append_new_fails t run events consume cas e :
  store_ok t → check_call run events cas = Ok tt →
  Forall (λ e, ¬ logged_key (view_of t) run (Event.key e)) events →
  View.known (view_of t) run = true ∨ opens_run events = true →
  append_new t run (read_run t run) (N.of_nat (length (log_of t run))) events consume cas = Err e →
  append_failure run events cas (view_of t) e.
Proof using Type*.
  intros Hok Hcall Hnew Hk H. unfold append_new in H.
  apply check_call_Ok in Hcall as (Hnd & Hrun & Hck & Hco).
  assert (is_Some (t_runs t !! run) ∨ events ≠ []) as Hsome.
  { destruct Hk as [Hk|Ho]; [left; by apply bool_decide_eq_true in Hk|right; by destruct events]. }
  assert (Hlen := view_length _ (ok_view t Hok) run). cbn in Hlen.
  destruct (match read_run t run with Some _ => _ | None => _ end) as [t1|e1] eqn:Hc.
  2:{ exfalso. rewrite <-known_read_run in Hk. unfold read_run in *.
      destruct (t_runs t !! run) eqn:Er, events as [|event events]; try done.
      destruct Hk as [Hk|Ho]; [done|]. simpl in Ho. unfold create_run in Hc. rewrite Er in Hc.
      by destruct (Event.body event). }
  apply created_row in Hc as (row & -> & _); [|done..].
  destruct (check_commissioned_position _ _ _) as [[]|e1] eqn:Hp.
  2:{ simplify_eq. apply check_commissioned_at_fails in Hp as (Hkind & i & event & Hi & Hcom & Hx).
      apply failed_commission; [|done].
      destruct (decide (i = 0%nat ∧ log_of t run = [])) as [[-> Hnil]|Hbad].
      - right. destruct Hx as [?|[Hx|[row' Hrow]]]; [done|by rewrite Hnil in Hx|]. split.
        + rewrite <-known_read_run. apply bool_decide_eq_true. by eexists.
        + unfold opens_run. destruct events as [|e0 events]; [done|]. injection Hi as ->. done.
      - left. intros Hplaced. by apply Hbad, (Hplaced i event). }
  assert (well_placed run events (view_of t)) as Hplaced.
  { intros i ev Hi Hcom. eapply check_commissioned_at_Ok in Hp as [H0 ?]; [|done..].
    split; [lia|]. apply length_zero_iff_nil. simpl. lia. }
  destruct (insert_events _ _ _) as [[t2 seq]|e1] eqn:Hi.
  2:{ simplify_eq. apply (insert_events_fails _ run) in Hi as [(i & ev & Hi & Ht & Hkind)|[Hlong Hkind]];
        [..|done|done|done|].
      - by eapply failed_text.
      - by apply failed_length.
      - intros r Hr Hrr. cbn in Hr.
        assert (r ∈ rows_of t run) as (i & Hi')%list_elem_of_lookup by (by apply list_elem_of_filter).
        destruct (Forall2_lookup_r _ _ _ _ _ (ok_rows t Hok run) Hi') as (ev & Hev & Hrow).
        split.
        + destruct Hrow as (_ & -> & _). destruct (view_positions _ (ok_view t Hok) run i ev Hev) as [-> _].
          apply lookup_lt_Some in Hev. lia.
        + destruct Hrow as (_ & _ & Hkey & _). rewrite Hkey. intros (ev' & Hkk & Hin)%list_elem_of_fmap.
          rewrite Forall_forall in Hnew. apply (Hnew ev' Hin). rewrite <-Hkk. unfold logged_key.
          apply list_elem_of_fmap_2. by eapply list_elem_of_lookup_2. }
  assert (Hw := insert_events_writable _ _ _ _ _ Hlen Hi).
  apply insert_events_Ok in Hi as (_ & Hfit & rows & -> & _); [|done].
  rewrite delete_inbox_rows_eq in H. unfold set_field, set_t_inbox, set_t_events, set_t_runs in H.
  cbn [t_events t_inbox t_timers t_kv t_runs] in H.
  destruct (apply _ run events) as [t3 timers] eqn:Ha.
  eapply (apply_Some _ _ _ (armed_of (log_of t run))) in Ha as (Ho & _);
    [|intros timer; exact (ok_timers t Hok run timer)].
  unfold timers_only in Ho. rewrite Ho in H. unfold set_field, set_t_timers in H.
  cbn [t_events t_inbox t_timers t_kv t_runs] in H.
  destruct (apply_cas_list _ cas) as [t4|e1] eqn:Hcas; simplify_eq.
  apply apply_cas_list_fails in Hcas; [|exact (view_leases _ (ok_view t Hok))|done|done].
  apply failed_cas; [done| |done]. split; [exact Hw|exact Hfit].
Qed.

(** The transaction takes one step of the contract. *)
Lemma append_tx_contract faults t run expected_seq fence events consume cas :
  store_ok t → check_call run events cas = Ok tt →
  match append_tx run expected_seq fence events consume cas t with
  | Ok (t', r) => store_ok t' ∧
      append_within faults run expected_seq fence events consume cas (view_of t) r (view_of t')
  | Err e =>
      append_within faults run expected_seq fence events consume cas (view_of t) (Err e) (view_of t)
  end.
Proof using Type*.
  intros Hok Hcall. unfold append_tx.
  destruct (current_epoch t run) as [epoch|e] eqn:Ee.
  2:{ unfold current_epoch, decode_lease, select_kv in Ee.
      destruct (t_kv t !! owner_key run) as [b|] eqn:Eb; [|done].
      destruct (view_leases _ (ok_view t Hok) run) as [l Hl]; [by simpl; rewrite Eb|].
      unfold lease_of in Hl. simpl in Hl. rewrite Eb in Hl. simpl in Hl. by rewrite Hl in Ee. }
  apply current_epoch_Ok in Ee as ->.
  case_bool_decide as Hfence; simpl; [|by eapply append_refused; [apply refuse_fence|]].
  rewrite known_read_run. destruct (read_run_log t run Hok) as [-> ->].
  change (match events with [] => false | event :: _ => is_commissioned (Event.body event) end)
    with (opens_run events).
  destruct (negb (View.known (view_of t) run) && negb (opens_run events)) eqn:Eu.
  { apply andb_true_iff in Eu as [Hk Ho]. apply negb_true_iff in Hk, Ho.
    by eapply append_refused; [apply refuse_unknown|]. }
  assert (View.known (view_of t) run = true ∨ opens_run events = true) as Hknown.
  { destruct (View.known (view_of t) run); [by left|]. destruct (opens_run events); [by right|done]. }
  destruct (N.eqb_spec (N.of_nat (length (log_of t run))) expected_seq) as [Hseq|Hseq]; simpl;
    [|by eapply append_refused; [apply refuse_seq|]].
  assert (append_admitted run expected_seq fence events cas (view_of t)) as Had by done.
  destruct (existsb _ events) eqn:Ev.
  { apply append_too_old; [done| |done]. apply existsb_true in Ev. eapply Exists_impl; [exact Ev|].
    simpl. intros e He. by apply N.ltb_lt. }
  assert (Forall (λ e, max_version (log_of t run) <= Event.v e) events) as Hv.
  { apply existsb_false in Ev. eapply Forall_impl; [exact Ev|]. simpl. intros e He.
    by apply N.ltb_ge. }
  destruct (find_map _ events) as [seq|] eqn:Ek.
  - apply find_map_Some in Ek as (e & Hin & He). apply logged_seq_Some in He as [He Hpos]; [|done].
    destruct (delete_inbox_rows_ok t run consume Hok) as (Hok' & Hinb & Hs).
    split; [done|]. eapply append_duplicate; try done.
    + simpl. by rewrite delete_inbox_rows_eq.
    + simpl. by rewrite delete_inbox_rows_eq.
    + simpl. by rewrite delete_inbox_rows_eq.
  - apply find_map_None in Ek.
    assert (Forall (λ e, ¬ logged_key (view_of t) run (Event.key e)) events) as Hnew.
    { eapply Forall_impl; [exact Ek|]. simpl. intros e He. by apply logged_seq_None. }
    destruct (append_new _ _ _ _ _ _ _) as [[t' ap]|e] eqn:Ea.
    + apply append_new_Ok in Ea as (Ha & Hap & Hch); [|done..|].
      * split; [by eapply appended_ok|]. destruct ap as [seq timers]. simpl in Hap, Hch. rewrite Hap.
        by eapply appended_contract.
      * destruct Hknown as [Hk|Ho]; [left; by apply bool_decide_eq_true in Hk|].
        right. by destruct events.
    + apply append_new_fails in Ea; [|done..]. by eapply append_failed.
Qed.

Lemma sql_append_within t fault run expected_seq fence events consume cas t' r :
  store_ok t → sql_append fault run expected_seq fence events consume cas t = (t', r) →
  store_ok t' ∧
  append_within (λ f, fault = Some f) run expected_seq fence events consume cas (view_of t) r (view_of t').
Proof using Type*.
  intros Hok H. unfold sql_append in H.
  destruct (check_call run events cas) as [[]|e] eqn:Hcall;
    [|simplify_eq; split; [done|]; eapply append_refused; [by apply refuse_call|done]].
  assert (Htx := append_tx_contract (λ f, fault = Some f) t run expected_seq fence events consume cas Hok Hcall).
  unfold transaction in H. destruct fault as [f|]; simpl in H;
    [simplify_eq; split; [done|]; by apply append_fault|].
  destruct (append_tx _ _ _ _ _ _ _) as [[t1 r1]|e]; simplify_eq/=; [done|]. by split.
Qed.

Lemma sql_append_contract t fault run expected_seq fence events consume cas t' r :
  store_ok t → sql_append fault run expected_seq fence events consume cas t = (t', r) →
  store_ok t' ∧
  append_contract run expected_seq fence events consume cas (view_of t) r (view_of t').
Proof using Type*.
  intros Hok H. apply sql_append_within in H as [? ?]; [|done]. split; [done|]. by eapply append_within_any.
Qed.
End append.

(** ** [enqueue] *)
Section enqueue.
Context {serde : Serde} {laws : SerdeLaws serde} {ulid : Ulid}.
Implicit Types t : Tables.

(** The tables after an accepted input. *)
Record enqueued t (run : RunId) (event : Event) (cas : list Cas) t' : Prop := {
  enqueued_events : t_events t' = t_events t;
  enqueued_timers : t_timers t' = t_timers t;
  enqueued_inbox : ∃ row, t_inbox t' = t_inbox t ++ [row] ∧ inbox_run row = run ∧
    inbox_row_of (event <| Event.seq := 0 |>) row;
  enqueued_kv : t_kv t' = cas_writes (t_kv t) cas;
  enqueued_compared : Forall (λ item, t_kv t !! Cas.key item = Cas.from item) cas;
  enqueued_row : ∃ row, t_runs t' = <[run := row]> (t_runs t) ∧
    runs_last_seq row = N.of_nat (length (log_of t run)) ∧
    runs_max_v row = max_version (log_of t run) ∧
    runs_finished row = existsb (λ e, is_finished (Event.body e)) (log_of t run);
}.

Lemma enqueued_inboxes t run event cas t' :
  store_ok t → enqueued t run event cas t' →
  ∀ other, Forall2 inbox_row_of
    (if decide (other = run) then inbox_of t run ++ [event <| Event.seq := 0 |>]
     else inbox_of t other) (inbox_rows t' other).
Proof.
  intros Hok He other. destruct (enqueued_inbox _ _ _ _ _ He) as (row & Hi & Hr & Hrow).
  unfold inbox_rows. rewrite Hi, filter_app. case_decide; subst.
  - rewrite (filter_all _ [row]) by by repeat constructor.
    apply Forall2_app; [apply (ok_inbox _ Hok)|by constructor].
  - rewrite (filter_none _ [row]), app_nil_r; [apply (ok_inbox _ Hok)|].
    constructor; [congruence|constructor].
Qed.

Lemma enqueued_contract faults t run event cas t' :
  store_ok t → check_call run [event] cas = Ok tt →
  Event.key event ∉ (Event.key <$> inbox_of t run) →
  ¬ logged_key (view_of t) run (Event.key event) →
  is_commissioned (Event.body event) = negb (View.known (view_of t) run) →
  enqueued t run event cas t' →
  store_ok t' ∧
  enqueue_within faults run event cas (view_of t) (Ok Enqueued.Accepted) (view_of t').
Proof.
  intros Hok Hcall Hnin Hnlog Hc He.
  assert (Hrows := enqueued_inboxes _ _ _ _ _ Hok He).
  assert (Hin := λ other, inbox_of_rows _ _ _ (Hrows other)).
  assert (∀ other, rows_of t' other = rows_of t other) as Hrow.
  { intros. unfold rows_of. by rewrite (enqueued_events _ _ _ _ _ He). }
  assert (∀ other, log_of t' other = log_of t other) as Hlog.
  { intros. unfold log_of. by rewrite Hrow. }
  destruct (enqueued_row _ _ _ _ _ He) as (row & Hruns & Hl & Hv & Hf).
  destruct (check_call_Ok _ _ _ Hcall) as (_ & [Hrun _]%Forall_cons & _ & Ho).
  assert (same_beside run (view_of t) (view_of t')) as Hs.
  { intros other Hne. simpl. rewrite Hin, Hlog, Hruns, decide_False, lookup_insert_ne by done.
    done. }
  assert (inbox_of t' run = inbox_of t run ++ [event <| Event.seq := 0 |>]) as Hi
    by (rewrite Hin; by case_decide).
  assert (View.known (view_of t') run = true) as Hk.
  { simpl. rewrite Hruns, lookup_insert_eq. done. }
  split; [split|].
  - eapply (view_ok_beside run (view_of t)); try done; [apply Hok|..]; simpl; rewrite ?Hlog, ?Hi.
    + intros i e He'. destruct (view_positions _ (ok_view t Hok) _ _ _ He').
      split_and!; [done..|]. by eapply (view_first _ (ok_view t Hok)).
    + apply (view_length _ (ok_view t Hok)).
    + apply (view_log_keys _ (ok_view t Hok)).
    + intros e [He'|He']%elem_of_app; [by apply (view_inbox _ (ok_view t Hok))|].
      by apply list_elem_of_singleton in He' as ->.
    + rewrite fmap_app. apply NoDup_app. split_and!.
      * apply (view_inbox_keys _ (ok_view t Hok)).
      * intros key Hkey H%list_elem_of_singleton. subst key. done.
      * apply NoDup_singleton.
    + intros Hfalse. simpl in Hk. by rewrite Hk in Hfalse.
    + intros other. rewrite (enqueued_kv _ _ _ _ _ He). by apply cas_writes_leases.
  - intros other. rewrite Hlog, Hrow. apply (ok_rows _ Hok).
  - intros other. rewrite Hin. apply Hrows.
  - intros other row' Hr. rewrite Hlog. rewrite Hruns in Hr.
    destruct (decide (other = run)) as [->|Hne].
    + rewrite lookup_insert_eq in Hr. by simplify_eq.
    + rewrite lookup_insert_ne in Hr by done. by apply (ok_runs _ Hok).
  - intros other timer. unfold armed_at. rewrite Hlog, (enqueued_timers _ _ _ _ _ He).
    apply (ok_timers _ Hok).
  - eapply enqueue_accepted; try done; try apply He. by simpl.
Qed.

Lemma sql_enqueue_within t fault run event cas t' r :
  store_ok t → sql_enqueue fault run event cas t = (t', r) →
  store_ok t' ∧ enqueue_within (λ f, fault = Some f) run event cas (view_of t) r (view_of t').
Proof using Type*.
  intros Hok H. unfold sql_enqueue in H.
  destruct (check_call run [event] cas) as [[]|e] eqn:Hcall.
  2:{ simplify_eq. split; [done|]. apply enqueue_refused; [|apply same_view_refl].
      by apply enqueue_invalid. }
  unfold transaction in H. destruct fault as [f|].
  { simplify_eq. split; [done|]. apply enqueue_refused; [by apply enqueue_fault|apply same_view_refl]. }
  destruct (enqueue_tx run event cas t) as [[t1 r1]|e] eqn:E; injection H as <- <-.
  - unfold enqueue_tx in E.
    destruct (waiting t run (Event.key event) || _) eqn:Ed.
    { simplify_eq. split; [done|]. apply enqueue_duplicate; [done| |apply same_view_refl].
      apply orb_true_iff in Ed as [Ed|Ed]; [left; by apply (waiting_iff _ _ _ Hok)|right].
      apply bool_decide_eq_true in Ed as [seq [Hs _]%logged_seq_Some]; [|done].
      by eapply list_elem_of_lookup_2. }
    apply orb_false_iff in Ed as [Ew El]. apply bool_decide_eq_false in El.
    apply eq_None_not_Some, logged_seq_None in El; [|done].
    destruct (match read_run t run with Some _ => _ | None => _ end) as [t2|] eqn:Ec; [|done].
    destruct (apply_cas_list t2 cas) as [t3|] eqn:Ecas; [|done].
    unfold wire in E. destruct (event_to_string _) as [text|] eqn:Et; simplify_eq.
    destruct (check_call_Ok _ _ _ Hcall) as (_ & [Hrun _]%Forall_cons & Hck & _).
    apply apply_cas_list_Ok in Ecas as [-> Hcmp]; [|done].
    assert (is_commissioned (Event.body event) = negb (View.known (view_of t) run) ∧
      ∃ row, t2 = t <| t_runs := <[run := row]> (t_runs t) |> ∧
        runs_last_seq row = N.of_nat (length (log_of t run)) ∧
        runs_max_v row = max_version (log_of t run) ∧
        runs_finished row = existsb (λ e, is_finished (Event.body e)) (log_of t run))
      as (Hc & row & -> & Hrow).
    { rewrite <-known_read_run. split.
      - destruct (read_run t run); destruct (is_commissioned (Event.body event)); done.
      - apply (created_row t run [event]); [done| |by right].
        destruct (read_run t run); destruct (is_commissioned (Event.body event)); done. }
    apply enqueued_contract; try done.
    + intros Hin%(waiting_iff _ _ _ Hok). congruence.
    + split; try done; [|by exists row]. eexists. split; [done|]. simpl. split; [done|].
      split_and!; [done..|]. by apply event_reads_back.
  - split; [done|]. unfold enqueue_tx in E. destruct (waiting t run (Event.key event) || _) eqn:Ed; [done|].
    apply orb_false_iff in Ed as [Ew El]. apply bool_decide_eq_false in El.
    apply eq_None_not_Some, logged_seq_None in El; [|done].
    assert (Event.key event ∉ (Event.key <$> inbox_of t run)) as Hnin
      by (intros Hin%(waiting_iff _ _ _ Hok); congruence).
    assert (Hkn := known_read_run t run).
    destruct (check_call_Ok _ _ _ Hcall) as (_ & _ & Hck & Hco).
    destruct (match read_run t run with Some _ => _ | None => _ end) as [t2|e2] eqn:Ec.
    + assert (is_commissioned (Event.body event) = negb (View.known (view_of t) run) ∧ t_kv t2 = t_kv t)
        as [Hc Hkv].
      { rewrite <-Hkn. unfold create_run in Ec. destruct (read_run t run), (is_commissioned (Event.body event)) eqn:Hc;
          simplify_eq; try done. destruct (Event.body event); try done. by destruct (t_runs t !! run); simplify_eq. }
      apply enqueue_refused; [|apply same_view_refl]. apply enqueue_failed; [done..|]. right.
      destruct (apply_cas_list t2 cas) as [t3|e3] eqn:Ecas.
      * right. unfold wire, invalid in E. destruct (event_to_string _) eqn:Et; simplify_eq. by split_and!.
      * left. simplify_eq. split; [done|]. simpl. rewrite <-Hkv. apply apply_cas_list_fails; try done.
        rewrite Hkv. exact (view_leases _ (ok_view t Hok)).
    + simplify_eq. unfold create_run in Ec.
      destruct (read_run t run) as [row|] eqn:Er; destruct (is_commissioned (Event.body event)) eqn:Hc;
        simplify_eq.
      * apply enqueue_refused; [|apply same_view_refl]. apply enqueue_failed; [done..|]. left. by rewrite <-Hkn.
      * exfalso. unfold read_run in Er. destruct (t_runs t !! run); [done|]. by destruct (Event.body event).
      * by apply enqueue_unknown.
Qed.

Lemma sql_enqueue_contract t fault run event cas t' r :
  store_ok t → sql_enqueue fault run event cas t = (t', r) →
  store_ok t' ∧ enqueue_contract run event cas (view_of t) r (view_of t').
Proof using Type*.
  intros Hok H. apply sql_enqueue_within in H as [? ?]; [|done]. split; [done|]. by eapply enqueue_within_any.
Qed.
End enqueue.

(** ** [compare_and_set] *)
Section compare_and_set.
Context {serde : Serde} {ulid : Ulid}.
Implicit Types t : Tables.

Lemma cas_contract_ok item v v' r : view_ok v → cas_contract item v r v' → view_ok v'.
Proof.
  intros Hok [v1 Hc Hlease _ Hkv Hs|]; [|by eapply same_view_ok].
  split.
  - intros run. destruct (Hs run) as (_ & -> & _). apply Hok.
  - intros run. destruct (Hs run) as (_ & -> & _). apply Hok.
  - intros run. destruct (Hs run) as (_ & -> & _). apply Hok.
  - intros run. destruct (Hs run) as (_ & -> & _). apply Hok.
  - intros run. destruct (Hs run) as (_ & _ & ->). apply Hok.
  - intros run. destruct (Hs run) as (_ & _ & ->). apply Hok.
  - intros run. destruct (Hs run) as (-> & -> & ->). apply Hok.
  - intros run. unfold lease_of. rewrite Hkv. unfold cas_write.
    destruct (decide (Cas.key item = owner_key run)) as [Hk|Hk].
    + destruct Hlease as (bytes & new & -> & Hnew & _);
        [rewrite Hk; unfold is_owner_key, owner_key; apply starts_with_app|].
      rewrite Hk, lookup_insert_eq. simpl. by rewrite Hnew.
    + assert (view_leases := view_leases v Hok run). unfold lease_of in view_leases.
      case_match; [by rewrite lookup_insert_ne|by rewrite lookup_delete_ne].
Qed.

Lemma sql_compare_and_set_within t fault key from to t' r :
  store_ok t → sql_compare_and_set fault key from to t = (t', r) →
  store_ok t' ∧ cas_within (λ f, fault = Some f) (Cas.Mk key from to) (view_of t) r (view_of t').
Proof.
  intros Hok H. unfold sql_compare_and_set, transaction in H.
  destruct fault as [f|].
  { injection H as <- <-. split; [done|]. apply cas_refused; [|by apply same_view_refl]. right. by exists f. }
  destruct (apply_cas t _) as [t1|e] eqn:E; simplify_eq.
  2:{ split; [done|]. apply cas_refused; [left|by apply same_view_refl].
      apply apply_cas_fails; [exact (view_leases _ (ok_view t' Hok))|done]. }
  apply apply_cas_Ok in E as (-> & Hc & Hl & He).
  assert (cas_within (λ f, None = Some f) (Cas.Mk key from to) (view_of t) (Ok tt)
    (view_of (t <| t_kv := cas_write (t_kv t) (Cas.Mk key from to) |>))) as Hcas
    by by apply cas_done.
  split; [|done].
  split; [eapply cas_contract_ok; [apply Hok|by eapply cas_within_any]|..]; apply Hok.
Qed.

Lemma sql_compare_and_set_contract t fault key from to t' r :
  store_ok t → sql_compare_and_set fault key from to t = (t', r) →
  store_ok t' ∧ cas_contract (Cas.Mk key from to) (view_of t) r (view_of t').
Proof.
  intros Hok H. apply sql_compare_and_set_within in H as [? ?]; [|done]. split; [done|].
  by eapply cas_within_any.
Qed.
End compare_and_set.

(** ** Reading *)
Section reads.
Context {serde : Serde} {ulid : Ulid}.
Implicit Types t : Tables.

Lemma query_same {A} fault (body : Tables → StoreResult A) t t' r :
  query fault body t = (t', r) → t' = t ∧ ∀ a, r = Ok a → body t = Ok a.
Proof.
  unfold query, transaction. intros H. destruct fault; [by simplify_eq|].
  destruct (body t); simplify_eq; split; congruence.
Qed.

Lemma filter_positions rows k n :
  (∀ i row, rows !! i = Some row → events_seq row = N.of_nat (k + i) + 1) →
  filter (λ row, n < events_seq row) rows = drop (N.to_nat n - k) rows.
Proof.
  revert k; induction rows as [|row rows IH]; intros k H; [by rewrite drop_nil|].
  assert (events_seq row = N.of_nat k + 1) as Hrow by (rewrite (H 0%nat row eq_refl); lia).
  assert (filter (λ row, n < events_seq row) rows = drop (N.to_nat n - S k) rows) as Hrest.
  { apply IH. intros i row' Hi. rewrite (H (S i) row' Hi). lia. }
  rewrite filter_cons, Hrest. case_decide.
  - replace (N.to_nat n - k)%nat with 0%nat by lia.
    replace (N.to_nat n - S k)%nat with 0%nat by lia. done.
  - replace (N.to_nat n - k)%nat with (S (N.to_nat n - S k)) by lia. done.
Qed.

Lemma positions_sorted rows k :
  (∀ i row, rows !! i = Some row → events_seq row = N.of_nat (k + i) + 1) →
  StronglySorted (λ a b, (events_seq a <=? events_seq b) = true) rows.
Proof.
  revert k; induction rows as [|row rows IH]; intros k H; constructor.
  - apply (IH (S k)). intros i row' Hi. rewrite (H (S i) row' Hi). lia.
  - apply Forall_lookup. intros i row' Hi. rewrite (H 0%nat row eq_refl), (H (S i) row' Hi).
    apply N.leb_le. lia.
Qed.

Lemma row_positions t run i row :
  store_ok t → rows_of t run !! i = Some row → events_seq row = N.of_nat (0 + i) + 1.
Proof.
  intros Hok Hi.
  destruct (Forall2_lookup_r _ _ _ _ _ (ok_rows t Hok run) Hi) as (e & He & _ & -> & _).
  by destruct (view_positions _ (ok_view t Hok) run i e He) as [-> _].
Qed.

Lemma event_rows_drop t run from_seq :
  store_ok t → event_rows t run from_seq = drop (N.to_nat from_seq) (rows_of t run).
Proof.
  intros Hok. unfold event_rows.
  rewrite (list_filter_iff _ (λ row, from_seq < events_seq row ∧ events_run row = run)) by naive_solver.
  rewrite <-list_filter_filter. fold (rows_of t run).
  rewrite (filter_positions _ 0), Nat.sub_0_r by eauto using row_positions.
  apply order_by_sorted, (positions_sorted _ (N.to_nat from_seq)).
  intros i row Hi. rewrite lookup_drop in Hi. by eapply row_positions in Hi.
Qed.

Lemma collect_decode_rows log rows :
  Forall2 row_of log rows → collect_result decode_row rows = Ok log.
Proof.
  induction 1 as [|e row log rows (_ & _ & _ & _ & Hb) _ IH]; simpl; [done|].
  unfold decode_row at 1, decode_event. by rewrite Hb, IH.
Qed.

Lemma sql_load_Ok t fault run from_seq t' r :
  store_ok t → sql_load fault run from_seq t = (t', r) →
  t' = t ∧ ∀ events, r = Ok events → events = drop (N.to_nat from_seq) (log_of t run).
Proof.
  intros Hok [-> H]%query_same. split; [done|]. intros events Hr%H.
  unfold sql_u64 in Hr. destruct (_ <=? _)%Z; [|done]. rewrite event_rows_drop in Hr by done.
  erewrite collect_decode_rows in Hr; [by simplify_eq|]. by apply Forall2_drop, ok_rows.
Qed.

Lemma sql_next_input_Ok t fault run t' r :
  store_ok t → sql_next_input fault run t = (t', r) →
  t' = t ∧ ∀ found, r = Ok found → found = head (inbox_of t run).
Proof.
  intros Hok [-> H]%query_same. split; [done|]. intros found Hr%H.
  destruct (ok_inbox t Hok run) as [|e row inbox rows (_ & _ & Hb) _]; [by simplify_eq|].
  unfold decode_event in Hr. rewrite Hb in Hr. by simplify_eq.
Qed.

Lemma sql_get_Ok t fault key t' r :
  sql_get fault key t = (t', r) → t' = t ∧ ∀ found, r = Ok found → found = t_kv t !! key.
Proof. intros [-> H]%query_same. split; [done|]. intros found [= <-]%H. done. Qed.
End reads.

(** ** Any sequence of calls *)
Section calls.
Context {serde : Serde} {laws : SerdeLaws serde} {ulid : Ulid}.
Implicit Types t : Tables.

Lemma perform_ok t call : store_ok t → store_ok (perform t call).
Proof using Type*.
  intros Hok. destruct call; cbn [perform].
  - destruct (sql_enqueue None run event cas t) eqn:E. by apply sql_enqueue_contract in E as [? _].
  - destruct (sql_append None run expected_seq fence events consume cas t) eqn:E. by apply sql_append_contract in E as [? _].
  - destruct (sql_compare_and_set None key from to t) eqn:E.
    by apply sql_compare_and_set_contract in E as [? _].
Qed.

Lemma performs_ok calls t : store_ok t → store_ok (performs t calls).
Proof using Type*.
  unfold performs. revert t; induction calls as [|call calls IH]; intros t Hok; simpl; [done|].
  by apply IH, perform_ok.
Qed.

(** The rows of the open runs. *)
Lemma collect_result_Ok {A B} (f : A → StoreResult B) l ys :
  collect_result f l = Ok ys → Forall2 (λ x y, f x = Ok y) l ys.
Proof.
  revert ys; induction l as [|x l IH]; intros ys H; simpl in H; [simplify_eq; constructor|].
  destruct (f x) eqn:Ef; [|done]. destruct (collect_result f l) eqn:Ec; simplify_eq.
  constructor; [done|by apply IH].
Qed.

Lemma stored_run_id_Ok text run : stored_run_id text = Ok run → run = text.
Proof.
  unfold stored_run_id, RunId_parse. intros H. destruct (strip_prefix _ _) as [u|]; simpl in H; [|done].
  destruct (ulid_from_string u); by simplify_eq.
Qed.

Lemma open_row_Ok text row answer :
  open_row (text, row) = Ok answer →
  RunRow.run answer = text ∧ RunRow.last_seq answer = runs_last_seq row.
Proof.
  unfold open_row. destruct (stored_run_id text) as [run|] eqn:E; intros; simplify_eq.
  by apply stored_run_id_Ok in E as ->.
Qed.

Lemma sql_open_runs_Ok fault t t' r :
  store_ok t → sql_open_runs fault t = (t', r) →
  t' = t ∧ ∀ rows, r = Ok rows → open_rows (view_of t) rows.
Proof.
  intros Hok [-> Hr]%query_same. split; [done|]. intros rows Hrows%Hr%collect_result_Ok. split.
  - intros run. rewrite list_elem_of_fmap. change (View.log (view_of t) run) with (log_of t run). split.
    + intros (answer & -> & Hin). eapply list_elem_of_lookup in Hin as [i Hi].
      destruct (Forall2_lookup_r _ _ _ _ _ Hrows Hi) as ([text row] & Hx & Ha).
      apply open_row_Ok in Ha as [-> _]. apply list_elem_of_lookup_2 in Hx.
      rewrite order_by_perm, list_elem_of_filter, elem_of_map_to_list in Hx. destruct Hx as [Hf Hx].
      destruct (ok_runs t Hok _ _ Hx) as (_ & _ & Hfin). rewrite <-Hfin. split; [|done].
      rewrite <-known_read_run. unfold read_run. rewrite Hx. by apply bool_decide_eq_true_2.
    + intros [Hk Hf]. rewrite <-known_read_run in Hk. apply bool_decide_eq_true in Hk as [x Hx].
      unfold read_run in Hx. destruct (t_runs t !! run) as [row|] eqn:Erow; [|done].
      destruct (ok_runs t Hok _ _ Erow) as (_ & _ & Hfin).
      assert ((run, row) ∈ order_by (column_le (λ '(_, row), runs_commissioned_at row) fst)
         (filter (λ '(_, row), runs_finished row = false) (map_to_list (t_runs t)))) as Hin.
      { rewrite order_by_perm, list_elem_of_filter, elem_of_map_to_list. split; [congruence|done]. }
      apply list_elem_of_lookup in Hin as [i Hi].
      destruct (Forall2_lookup_l _ _ _ _ _ Hrows Hi) as (answer & Hy & Ha).
      apply open_row_Ok in Ha as [Ha _]. exists answer. split; [done|]. by eapply list_elem_of_lookup_2.
  - apply Forall_lookup. intros i answer Hi.
    destruct (Forall2_lookup_r _ _ _ _ _ Hrows Hi) as ([text row] & Hx & Ha).
    apply open_row_Ok in Ha as [-> ->]. apply list_elem_of_lookup_2 in Hx.
    rewrite order_by_perm, list_elem_of_filter, elem_of_map_to_list in Hx. destruct Hx as [_ Hx].
    by destruct (ok_runs t Hok _ _ Hx) as (-> & _).
Qed.

(** The due rows of the index. *)
Definition timer_of (x : string * string * TimerRow) (timer : Timer) : Prop :=
  let '(run, name, row) := x in
  timer = Timer.Mk run name (from_unix_millis (timers_fire_at row)) (parse (timers_purpose row)) ∧
  is_TimerPurpose_unknown (Timer.purpose timer) = false.

Lemma due_rows_Ok rows due timer :
  due_rows rows = Ok due → timer ∈ due ↔ ∃ x, x ∈ rows ∧ timer_of x timer.
Proof.
  revert due; induction rows as [|[[run name] row] rows IH]; intros due H; cbn [due_rows] in H.
  { simplify_eq. split; [by intros ?%not_elem_of_nil|]. intros (x & ?%not_elem_of_nil & _). done. }
  setoid_rewrite elem_of_cons.
  destruct (is_TimerPurpose_unknown (parse (timers_purpose row))) eqn:Eu.
  - assert (due_rows rows = Ok due) as Hd by by destruct (parse (timers_purpose row)).
    rewrite (IH due Hd). split; [naive_solver|].
    intros (x & [->|Hx] & Ht); [|by exists x]. destruct Ht as [-> Hn]. cbn [Timer.purpose] in Hn. congruence.
  - assert (∃ rest, due_rows rows = Ok rest ∧
      due = Timer.Mk run name (from_unix_millis (timers_fire_at row))
              (parse (timers_purpose row)) :: rest) as (rest & Hd & ->).
    { destruct (parse (timers_purpose row)); try done;
        (destruct (stored_run_id run) as [run'|] eqn:E; [apply stored_run_id_Ok in E as ->|done];
         destruct (due_rows rows); simplify_eq; by eexists). }
    rewrite elem_of_cons, (IH rest Hd). split.
    + intros [->|(x & Hx & Ht)]; [|naive_solver]. exists (run, name, row). split; [by left|]. by split.
    + intros (x & [->|Hx] & Ht); [left; by destruct Ht|]. right. by exists x.
Qed.

Lemma sql_due_timers_Ok fault now t t' r :
  store_ok t → sql_due_timers fault now t = (t', r) →
  t' = t ∧ ∀ due, r = Ok due → ∀ timer, timer ∈ due ↔ due_in (view_of t) now timer.
Proof.
  intros Hok [-> Hr]%query_same. split; [done|]. intros due Hdue%Hr timer.
  rewrite (due_rows_Ok _ _ _ Hdue). unfold due_in. simpl. split.
  - intros ([[run name] row] & Hx & Ht & Hu).
    rewrite order_by_perm, list_elem_of_filter, elem_of_map_to_list in Hx. destruct Hx as [Ha Hx].
    apply andb_prop_elim in Ha as [Ha Hle]. rewrite Ht in *. simpl in *.
    exists (timers_fire_at row), (timers_purpose row). rewrite <-(ok_timers t Hok).
    unfold armed_at, armed_row. rewrite Hx. simpl. destruct (is_armed row); [|done].
    split_and!; [done| |done..]. apply Is_true_true in Hle. lia.
  - intros (at_ & word & Ha & Hle & Hf & Hp & Hu). rewrite <-(ok_timers t Hok) in Ha.
    unfold armed_at, armed_row in Ha.
    destruct (t_timers t !! (Timer.run timer, Timer.timer timer)) as [row|] eqn:Erow; [|done].
    simpl in Ha. destruct (is_armed row) eqn:Ear; simplify_eq.
    exists (Timer.run timer, Timer.timer timer, row). split.
    + rewrite order_by_perm, list_elem_of_filter, elem_of_map_to_list. split; [|done].
      rewrite Ear. simpl. apply Is_true_true. lia.
    + split; [|done]. destruct timer; simpl in *. by subst.
Qed.

(** ** The connection keeps the interface *)
Section connection.
Context (others : View → View → Prop) {others_refl : Reflexive others}.

(** What the others do before a call is allowed, whatever the tables hold then. *)
Definition honest (i : Interlude) : Prop :=
  ∀ t, store_ok t → others (view_of t) (view_of (performs t (others_do i t))).

Definition connected (c : SqliteRunStore) : Prop :=
  store_ok (conn_tables c) ∧ Forall honest (conn_script c).

Lemma turn_spec {A} (op : option Fault → Tables → Tables * A) c c' a :
  connected c → turn op c = (c', a) →
  ∃ fault t, store_ok t ∧ others (view_of (conn_tables c)) (view_of t) ∧
    op fault t = (conn_tables c', a) ∧ Forall honest (conn_script c').
Proof using Type*.
  intros [Hok Hs] H. unfold turn in H. destruct (conn_script c) as [|i script].
  - destruct (op None (conn_tables c)) as [t a'] eqn:E. simplify_eq.
    exists None, (conn_tables c). by split_and!.
  - apply Forall_cons in Hs as [Hi Hs].
    destruct (op (call_fault i) _) as [t a'] eqn:E. simplify_eq.
    eexists _, _. split_and!; [|by apply Hi|exact E|done]. by apply performs_ok.
Qed.

Global Instance sqlite_laws : RunStoreLaws SqliteRunStore others.
Proof using Type*.
  refine {| observe c := view_of (conn_tables c); valid := connected |}.
  - intros c [Hok _]. apply Hok.
  - intros * Hv (fault & t & Hok & Ho & Hop & Hs)%turn_spec; [|done].
    apply sql_append_contract in Hop as [Hok' Hc]; [|done].
    split; [done|]. exists (view_of t). split_and!; [done|apply Hok|done].
  - intros * Hv (fault & t & Hok & Ho & Hop & Hs)%turn_spec; [|done].
    apply sql_enqueue_contract in Hop as [Hok' Hc]; [|done].
    split; [done|]. exists (view_of t). split_and!; [done|apply Hok|done].
  - intros * Hv (fault & t & Hok & Ho & Hop & Hs)%turn_spec; [|done].
    apply sql_compare_and_set_contract in Hop as [Hok' Hc]; [|done].
    split; [done|]. exists (view_of t). split_and!; [done|apply Hok|done].
  - intros * Hv (fault & t & Hok & Ho & Hop & Hs)%turn_spec; [|done].
    apply sql_next_input_Ok in Hop as [Ht Hr]; [|done]. unfold connected. rewrite Ht.
    by split_and!.
  - intros * Hv (fault & t & Hok & Ho & Hop & Hs)%turn_spec; [|done].
    apply sql_get_Ok in Hop as [Ht Hr]. unfold connected. rewrite Ht. by split_and!.
  - intros * Hv (fault & t & Hok & Ho & Hop & Hs)%turn_spec; [|done].
    apply sql_load_Ok in Hop as [Ht Hr]; [|done]. unfold connected. rewrite Ht. by split_and!.
  - intros * Hv (fault & t & Hok & Ho & Hop & Hs)%turn_spec; [|done].
    apply sql_open_runs_Ok in Hop as [Ht Hr]; [|done]. unfold connected. rewrite Ht. by split_and!.
  - intros * Hv (fault & t & Hok & Ho & Hop & Hs)%turn_spec; [|done].
    apply sql_due_timers_Ok in Hop as [Ht Hr]; [|done]. unfold connected. rewrite Ht. by split_and!.
Defined.
End connection.
End calls.
