(* ===== verification/Runner.v ===== *)
(** * The host over a store

    What a host does for one run between two ticks: the lease ([run-store-sqlite/src/lease.rs] and
    [run-host/src/lease.rs]), the state from the log, one input at a time into one [append], the poison
    counters and the withdraw exit ([run-host/src/fold.rs]).

    The host is a record that is passed along, its store behind the [RunStore] class, so that another
    process may act before every call. Log lines, the crash harness and the hooks of the tests are left out;
    a panic has no counterpart, because every function of the model is total. What is outside (the clock, the
    budget of a tick, the ports, the session backend, the tree worker) is a part of the host's state behind the
    class [Outside]. *)

From S2P Require Import Prelude Text Ids Codes Events Flow State Effects Guard Input Evolve Decide Host Ports Contract Sqlite.
From stdpp Require Import options.

(** ** The lease of a run *)

(** How long a lease holds without a renewal. *)
Definition LEASE_EXPIRY : Secs := 30.

Definition expiry_ms : Z := Z.of_N LEASE_EXPIRY * 1000.

(** What the epoch of the next lease is, or the answer that needs no write. *)
Module Renewal.
Inductive Renewal := Write (epoch : Epoch) | Keep (lease : Lease).
End Renewal.

(** What a tick may do with a run: another host's run is skipped, inputs and effects alike. *)
Module Holding.
Inductive Holding := Ours (epoch : Epoch) | Skip.
End Holding.

Section lease.
Context {serde : Serde} {S : Type} {store : RunStore S}.

(** [serde_json::to_vec] as the store wraps it; the text of the error is the library's. *)
Definition encode_value (bytes : option Bytes) : StoreResult Bytes :=
  match bytes with
  | Some bytes => Ok bytes
  | None => Err (StoreError.Backend "a kv value cannot be written")
  end.

Definition renewal (key : string) (current : option Bytes) (owner_id : string) (now : Timestamp) :
    StoreResult Renewal.Renewal :=
  match current with
  | None => Ok (Renewal.Write 1)
  | Some bytes =>
      held <-? decode_lease key bytes ;;
      let remaining_ms := i64_sub (Lease.expires_at held) now in
      if (remaining_ms <=? 0)%Z then Ok (Renewal.Write (u64_succ (Lease.epoch held)))
      else if negb (bool_decide (Lease.owner_id held = owner_id))
      then Err (StoreError.CasFailed key)
      else if (Z.quot expiry_ms 2 <=? remaining_ms)%Z then Ok (Renewal.Keep held)
      else Ok (Renewal.Write (Lease.epoch held))
  end.

(** Takes or keeps the lease of a run, by compare-and-set on the exact value read. *)
Definition acquire_or_renew (run : RunId) (owner_id : string) (now : Timestamp) (s : S) :
    S * StoreResult Lease :=
  let key := owner_key run in
  let '(s, current) := get key s in
  match (current <-? current ;; todo <-? renewal key current owner_id now ;; Ok (current, todo)) with
  | Err e => (s, Err e)
  | Ok (_, Renewal.Keep held) => (s, Ok held)
  | Ok (current, Renewal.Write epoch) =>
      let lease := Lease.Mk owner_id epoch (plus now LEASE_EXPIRY) in
      match encode_value (lease_to_vec lease) with
      | Err e => (s, Err e)
      | Ok bytes =>
          let '(s, r) := compare_and_set key current (Some bytes) s in
          (s, _ <-? r ;; Ok lease)
      end
  end.

(** Records that a service attends this workspace, unless what is stored is recent enough. *)
Definition mark_host_seen (workspace_id : string) (now : Timestamp) (s : S) :
    S * StoreResult unit :=
  let key := HOST_SEEN_PREFIX +:+ workspace_id in
  let '(s, stored) := get key s in
  match stored with
  | Err e => (s, Err e)
  | Ok stored =>
      let seen := stored ≫= instant_from_slice in
      if from_option (λ at_, (Z.abs (i64_sub now at_) <? expiry_ms)%Z) false seen
      then (s, Ok tt)
      else match encode_value (instant_to_vec now) with
      | Err e => (s, Err e)
      | Ok value =>
          let '(s, r) := compare_and_set key stored (Some value) s in
          (s, match r with Err (StoreError.CasFailed _) => Ok tt | other => other end)
      end
  end.

(** When a service last recorded this workspace. *)
Definition host_seen (workspace_id : string) (s : S) : S * StoreResult (option Timestamp) :=
  let '(s, stored) := get (HOST_SEEN_PREFIX +:+ workspace_id) s in
  (s, stored <-? stored ;; Ok (stored ≫= instant_from_slice)).

(** What this tick may do with a run. *)
Definition acquire (run : RunId) (owner_id : string) (now : Timestamp) (s : S) :
    S * StoreResult Holding.Holding :=
  let '(s, r) := acquire_or_renew run owner_id now s in
  (s, match r with
      | Ok lease => Ok (Holding.Ours (Lease.epoch lease))
      | Err (StoreError.CasFailed _) => Ok Holding.Skip
      | Err error => Err error
      end).

(** A run's lease, as the tree worker and the check before an effect read it. *)
Definition read_lease (run : RunId) (s : S) : S * StoreResult (option Lease) :=
  let key := "owner/" +:+ run in
  let '(s, bytes) := get key s in
  (s, bytes <-? bytes ;;
      match bytes with
      | None => Ok None
      | Some bytes =>
          match lease_from_slice bytes with
          | Some lease => Ok (Some lease)
          | None => Err (StoreError.DamagedRow key None)
          end
      end).

(** The check immediately before an effect. *)
Definition still_ours (run : RunId) (owner_id : string) (epoch : Epoch) (now : Timestamp) (s : S) :
    S * bool :=
  let '(s, r) := read_lease run s in
  (s, match r with
      | Ok (Some lease) =>
          bool_decide (Lease.owner_id lease = owner_id) && (Lease.epoch lease =? epoch) &&
          (now <? Lease.expires_at lease)%Z
      | _ => false
      end).
End lease.

(** ** The host *)

(** Why a run is read-only: not stepped, only projected. *)
Module ReadOnly.
Inductive ReadOnly := NewerNxs | Unfoldable.
End ReadOnly.
Abbreviation ReadOnly := ReadOnly.ReadOnly (only parsing).

Global Instance ReadOnly_eq_dec : EqDecision ReadOnly.
Proof. solve_decision. Defined.

(** What the host keeps about one run; all of it can be lost. *)
Module RunCache.
Record RunCache := Mk {
  state : option RunState;
  read_only : option ReadOnly;
  offsets : gmap SessionKey N;
  started : gset SessionKey;
}.
Definition default : RunCache := Mk None None ∅ ∅.
End RunCache.
Abbreviation RunCache := RunCache.RunCache (only parsing).

Global Instance set_RunCache_state : Setter RunCache.state := λ x c,
  RunCache.Mk x (RunCache.read_only c) (RunCache.offsets c) (RunCache.started c).
Global Instance set_RunCache_read_only : Setter RunCache.read_only := λ x c,
  RunCache.Mk (RunCache.state c) x (RunCache.offsets c) (RunCache.started c).
Global Instance set_RunCache_offsets : Setter RunCache.offsets := λ x c,
  RunCache.Mk (RunCache.state c) (RunCache.read_only c) x (RunCache.started c).
Global Instance set_RunCache_started : Setter RunCache.started := λ x c,
  RunCache.Mk (RunCache.state c) (RunCache.read_only c) (RunCache.offsets c) x.

(** What one tick did. *)
Module TickReport.
Record TickReport := Mk { yielded : bool; busy : bool; folded : N }.
Definition default : TickReport := Mk false false 0.
End TickReport.
Abbreviation TickReport := TickReport.TickReport (only parsing).

(** The refusals of a run's tree operations, and when the next try may start. *)
Module Attempts.
Record Attempts := Mk { refused : N; next_at : option Timestamp }.
Definition default : Attempts := Mk 0 None.
End Attempts.
Abbreviation Attempts := Attempts.Attempts (only parsing).

(** What the host remembers of the tree worker. *)
Module TreeTrack.
Record TreeTrack := Mk {
  running : option TreeOp;
  cancelled : bool;
  attempts : gmap RunId Attempts;
}.
Definition default : TreeTrack := Mk None false ∅.
End TreeTrack.
Abbreviation TreeTrack := TreeTrack.TreeTrack (only parsing).

(** The parts of a tick that give each run a turn. *)
Module Part.
Inductive Part := Drain | Fold | Execute.
End Part.
Abbreviation Part := Part.Part (only parsing).

Global Instance Part_eq_dec : EqDecision Part.
Proof. solve_decision. Defined.

(** What the host uses of the SQLite store beside the trait. *)
Class InherentStore (S : Type) := {
  waiting_inputs : RunId → S → S * StoreResult (list (StoreResult Event));
  load_readable : RunId → S → S * StoreResult (list Event);
}.

Global Instance sqlite_inherent {serde : Serde} {ulid : Ulid} : InherentStore SqliteRunStore := {
  waiting_inputs run := turn (λ fault, sql_waiting_inputs fault run);
  load_readable run := turn (λ fault, sql_load_readable fault run);
}.

Section host.
Context {serde : Serde} {S O : Type} {store : RunStore S} {outside : Outside O}.

Record Host := MkHost {
  h_store : S;
  h_outside : O;
  h_layout : Layout;
  h_owner_id : string;
  h_runs : gmap RunId RunCache;
  h_track : TreeTrack;
  h_report : TickReport;
  h_next_turn : Part → nat;
}.

Global Instance set_h_store : Setter h_store := λ x h,
  MkHost x (h_outside h) (h_layout h) (h_owner_id h) (h_runs h) (h_track h) (h_report h) (h_next_turn h).
Global Instance set_h_outside : Setter h_outside := λ x h,
  MkHost (h_store h) x (h_layout h) (h_owner_id h) (h_runs h) (h_track h) (h_report h) (h_next_turn h).
Global Instance set_h_runs : Setter h_runs := λ x h,
  MkHost (h_store h) (h_outside h) (h_layout h) (h_owner_id h) x (h_track h) (h_report h) (h_next_turn h).
Global Instance set_h_track : Setter h_track := λ x h,
  MkHost (h_store h) (h_outside h) (h_layout h) (h_owner_id h) (h_runs h) x (h_report h) (h_next_turn h).
Global Instance set_h_report : Setter h_report := λ x h,
  MkHost (h_store h) (h_outside h) (h_layout h) (h_owner_id h) (h_runs h) (h_track h) x (h_next_turn h).
Global Instance set_h_next_turn : Setter h_next_turn := λ x h,
  MkHost (h_store h) (h_outside h) (h_layout h) (h_owner_id h) (h_runs h) (h_track h) (h_report h) x.

Context {inherent : InherentStore S}.
Implicit Types h : Host.

(** One call of the store. *)
Definition call {A} (op : S → S * A) h : Host * A :=
  let '(s, a) := op (h_store h) in (h <| h_store := s |>, a).

(** One call of what is outside. *)
Definition ask {A} (op : O → O * A) h : Host * A :=
  let '(o, a) := op (h_outside h) in (h <| h_outside := o |>, a).

Definition now h : Host * Timestamp := ask clock_now h.

Definition note_store_error (error : StoreError) h : Host :=
  match error with
  | StoreError.Busy =>
      h <| h_report := TickReport.Mk (TickReport.yielded (h_report h)) true
                         (TickReport.folded (h_report h)) |>
  | _ => h
  end.

(** Whether this tick may go on. *)
Definition may_work (turn_owed : bool) h : Host * bool :=
  if TickReport.busy (h_report h) then (h, false) else
  let '(h, gone) := ask budget_gone h in
  if gone : bool
  then (h <| h_report := TickReport.Mk true (TickReport.busy (h_report h))
                           (TickReport.folded (h_report h)) |>, turn_owed)
  else (h, true).

(** [self.cache(run)]: the entry, made when there is none. *)
Definition cache (run : RunId) h : RunCache := default RunCache.default (h_runs h !! run).

Definition set_cache (run : RunId) (c : RunCache) h : Host :=
  h <| h_runs := <[run := c]> (h_runs h) |>.

Definition set_cached_state (run : RunId) (state : option RunState) h : Host :=
  set_cache run ((cache run h) <| RunCache.state := state |>) h.

Definition drop_run (run : RunId) h : Host := h <| h_runs := delete run (h_runs h) |>.

Definition mark_read_only (run : RunId) (why : ReadOnly) h : Host :=
  set_cache run ((cache run h) <| RunCache.read_only := Some why |> <| RunCache.state := None |>) h.

(** The definition a run was pinned to, by the hash its first event names. *)
Definition pinned_def (first : Event) (s : S) : S * option FlowDef :=
  match Event.body first with
  | EventBody.Commissioned _ _ _ flow _ _ _ =>
      let '(s, r) := get ("flow/" +:+ flow_ref_hash flow) s in
      (s, match r with Ok (Some bytes) => flow_from_slice bytes | _ => None end)
  | _ => (s, None)
  end.

Definition fold_whole (run : RunId) (def : FlowDef) (events : list Event) h :
    Host * option RunState :=
  match fold_events run def events with
  | Folded.Whole state => (set_cached_state run (Some state) h, Some state)
  | Folded.NewerNxs _ => (mark_read_only run ReadOnly.NewerNxs h, None)
  end.

Definition fold_pinned (run : RunId) (first : Event) (events : list Event) h :
    Host * option RunState :=
  let '(h, def) := call (pinned_def first) h in
  match def with
  | None => (mark_read_only run ReadOnly.Unfoldable h, None)
  | Some def => fold_whole run def events h
  end.

Definition fold_loaded (row : RunRow) (events : list Event) h : Host * option RunState :=
  let run := RunRow.run row in
  match events with
  | first :: _ => fold_pinned run first events h
  | [] =>
      let '(h, r) := call (next_input run) h in
      match r with
      | Ok (Some event) => fold_pinned run event events h
      | Ok None => (h, None)
      | Err error => (note_store_error error h, None)
      end
  end.

(** The run's state: cached, or folded once from the log. *)
Definition loaded_state (row : RunRow) h : Host * option RunState :=
  let run := RunRow.run row in
  match RunCache.read_only (cache run h) with
  | Some _ => (h, None)
  | None =>
      match RunCache.state (cache run h) with
      | Some state => (h, Some state)
      | None =>
          let '(h, r) := call (load run 0) h in
          match r with
          | Ok events => fold_loaded row events h
          | Err (StoreError.DamagedRow _ (Some _)) => (mark_read_only run ReadOnly.Unfoldable h, None)
          | Err error => (note_store_error error h, None)
          end
      end
  end.

(** A compare-and-set that deletes what is there. *)
Definition delete_if_present (key : string) (s : S) : S * StoreResult (list Cas) :=
  let '(s, r) := get key s in
  (s, value <-? r ;;
      Ok (match value with Some value => [Cas.Mk key (Some value) None] | None => [] end)).

Definition pending_key (run : RunId) : string := "pending/" +:+ run.
Definition tree_refusal_key (run : RunId) : string := "tree_refusal/" +:+ run.
Definition poison_key (run : RunId) (key : Key) : string := "poison/" +:+ run +:+ "/" +:+ key.

Definition holds_finished (events : list Event) : bool :=
  existsb (λ event, Sqlite.is_finished (Event.body event)) events.

(** The first part of [fold_cas]: what the input itself brings. *)
Definition input_cas (run : RunId) (state : RunState) (events : list Event) (s : S) :
    S * StoreResult (list Cas) :=
  match Event.body <$> head events with
  | Some (EventBody.RootOpened _ _) =>
      if is_ignored events then (s, Ok []) else delete_if_present (pending_key run) s
  | Some (EventBody.SessionFact key (SessionFact.Started backend_session_id _)) =>
      if is_ignored events then (s, Ok [])
      else match i ← find state key; RunState.slots state !! i with
      | Some record =>
          let handle := slot_member (SlotRecord.slot record) in
          let key := "persona_session/" +:+ run +:+ "/" +:+ handle in
          let '(s, r) := get key s in
          (s, current <-? r ;;
              Ok (if bool_decide (current = Some backend_session_id) then []
                  else [Cas.Mk key current (Some backend_session_id)]))
      | None => (s, Ok [])
      end
  | _ => (s, Ok [])
  end.

(** The second part: a finished run leaves no text behind. *)
Definition finished_cas (run : RunId) (events : list Event) (s : S) : S * StoreResult (list Cas) :=
  if holds_finished events then
    let '(s, pending) := delete_if_present (pending_key run) s in
    match pending with
    | Err e => (s, Err e)
    | Ok pending =>
        let '(s, refusal) := delete_if_present (tree_refusal_key run) s in
        (s, refusal <-? refusal ;; Ok (pending ++ refusal))
    end
  else (s, Ok []).

(** The compare-and-sets that ride in an append. *)
Definition fold_cas (run : RunId) (state : RunState) (events : list Event) (input_key : Key)
    (s : S) : S * StoreResult (list Cas) :=
  let '(s, a) := input_cas run state events s in
  match a with
  | Err e => (s, Err e)
  | Ok a =>
      let '(s, b) := finished_cas run events s in
      match b with
      | Err e => (s, Err e)
      | Ok b =>
          let '(s, c) := delete_if_present (poison_key run input_key) s in
          (s, c <-? c ;; Ok (a ++ b ++ c))
      end
  end.

(** What a refused append means for this run's cached view. *)
Definition append_refused (run : RunId) (error : StoreError) h : Host :=
  match error with
  | StoreError.Fenced => drop_run run h
  | StoreError.DuplicateKey _ | StoreError.SeqMismatch => set_cached_state run None h
  | StoreError.VersionTooOld _ => mark_read_only run ReadOnly.NewerNxs h
  | _ => note_store_error error h
  end.

(** The row goes, and the run keeps its human exit. *)
Definition consume_poison (row : RunRow) (epoch : Epoch) (key : Key) h : Host :=
  let run := RunRow.run row in
  let '(h, state) := loaded_state row h in
  match state with
  | None => h
  | Some state =>
      let '(h, at_) := now h in
      let event := Event_new run (u64_succ (RunState.seq state)) at_ (poison_key run key) Origin.Host
        (EventBody.Decision (Decision.Parked None ReasonCode.PoisonInput)) in
      let '(h, cas) := call (delete_if_present (poison_key run key)) h in
      match cas with
      | Err error => note_store_error error h
      | Ok cas =>
          let '(h, r) := call (append run (RunState.seq state) epoch [event] [key] cas) h in
          match r with
          | Ok _ => set_cached_state run None h
          | Err error => append_refused run error h
          end
      end
  end.

(** The budget of a run that has no policy to read yet. *)
Definition DEFAULT_MAX_ATTEMPTS : N := 3.

(** One failure of this row against the budget of its run. *)
Definition count_poison (row : RunRow) (epoch : Epoch) (key : Key) h : Host * bool :=
  let run := RunRow.run row in
  let budget := from_option (λ state, max_attempts (RunState.policy state)) DEFAULT_MAX_ATTEMPTS
    (RunCache.state (cache run h)) in
  let count_key := poison_key run key in
  let '(h, r) := call (get count_key) h in
  match r with
  | Err error => (note_store_error error h, false)
  | Ok current =>
      let count := u32_succ (default 0 (current ≫= count_from_slice)) in
      if budget <=? count then (consume_poison row epoch key h, false)
      else
        let value := default "" (count_to_vec count) in
        let '(h, r) := call (compare_and_set count_key current (Some value)) h in
        (match r with Ok _ => h | Err error => note_store_error error h end, false)
  end.

(** The append of a folded input, with one retry after a comparison that failed. *)
Fixpoint commit_attempts (retries : nat) (row : RunRow) (epoch : Epoch) (state : RunState)
    (key : Key) (events : list Event) (next : RunState) h : Host * bool :=
  let run := RunRow.run row in
  let '(h, cas) := call (fold_cas run state events key) h in
  match cas with
  | Err error => (note_store_error error h, false)
  | Ok cas =>
      let '(h, appended) := call (append run (RunState.seq state) epoch events [key] cas) h in
      match appended with
      | Ok _ =>
          let h := set_cached_state run (Some next) h in
          (h <| h_report := TickReport.Mk (TickReport.yielded (h_report h))
                              (TickReport.busy (h_report h))
                              (u32_succ (TickReport.folded (h_report h))) |>, true)
      | Err (StoreError.CasFailed _) =>
          match retries with
          | Datatypes.S retries => commit_attempts retries row epoch state key events next h
          | Datatypes.O => count_poison row epoch key h
          end
      | Err error => (append_refused run error h, false)
      end
  end.

Definition commit_input (row : RunRow) (epoch : Epoch) (state : RunState) (key : Key)
    (events : list Event) (next : RunState) h : Host * bool :=
  commit_attempts 1 row epoch state key events next h.

(** One input; [false] when there is nothing more to do for this run in this tick. *)
Definition step_input (row : RunRow) (epoch : Epoch) h : Host * bool :=
  let run := RunRow.run row in
  let '(h, r) := call (next_input run) h in
  match r with
  | Ok None => (h, false)
  | Err (StoreError.DamagedRow key None) => count_poison row epoch key h
  | Err error => (note_store_error error h, false)
  | Ok (Some input) =>
      if is_decision (Event.body input) then count_poison row epoch (Event.key input) h else
      let '(h, state) := loaded_state row h in
      match state with
      | None => (h, false)
      | Some state =>
          match reduce state input with
          | Some (events, next) => commit_input row epoch state (Event.key input) events next h
          | None => count_poison row epoch (Event.key input) h
          end
      end
  end.

(** Every inbox entry of the run, one append per input, with a bound on the turns of the loop; the flag
    is whether the loop ended by itself. *)
Fixpoint fold_run (turns : nat) (row : RunRow) (epoch : Epoch) (turn_owed : bool) h : Host * bool :=
  match turns with
  | Datatypes.O => (h, false)
  | Datatypes.S turns =>
      let '(h, work) := may_work turn_owed h in
      if negb work then (h, true) else
      let '(h, state) := loaded_state row h in
      match state with
      | None => (h, true)
      | Some _ =>
          let '(h, more) := step_input row epoch h in
          if more : bool then fold_run turns row epoch false h else (h, true)
      end
  end.

(** The sessions the [step_started] of a log name. *)
Definition started_sessions (run : RunId) (events : list Event) : list SessionKey :=
  mjoin ((λ event,
    match Event.body event with
    | EventBody.Decision (Decision.StepStarted step visit attempt members) =>
        (λ member, session_key (MkSlot step visit member attempt) run) <$> members
    | _ => []
    end) <$> events).

(** Whether the backend does not confirm one of them dead, asked one by one until it does not. *)
Fixpoint may_live (sessions : list SessionKey) h : Host * bool :=
  match sessions with
  | [] => (h, false)
  | key :: sessions =>
      let '(h, r) := ask (backend_alive key) h in
      match r with
      | Some Liveness.Dead => may_live sessions h
      | _ => (h, true)
      end
  end.

Definition is_withdrawn (event : Event) : bool :=
  match Event.body event with EventBody.Withdrawn _ _ => true | _ => false end.

(** The claim is given back if it is this run's; [false] is a call that failed. *)
Definition give_back_claim (row : RunRow) h : Host * bool :=
  let claim := "claim/" +:+ RunRow.workspace_id row in
  let '(h, r) := call (get claim) h in
  match r with
  | Err error => (note_store_error error h, false)
  | Ok holder =>
      if bool_decide (holder = Some (RunRow.run row)) then
        let '(h, r) := call (compare_and_set claim holder None) h in
        (h, match r with Ok _ => true | Err _ => false end)
      else (h, true)
  end.

(** [nxc withdraw] on a run that cannot fold releases the claim with no fold, once no session of the run
    lives. *)
Definition withdraw_exit (row : RunRow) (epoch : Epoch) (now : Timestamp) h : Host :=
  let run := RunRow.run row in
  if negb (bool_decide (RunCache.read_only (cache run h) = Some ReadOnly.Unfoldable)) then h else
  let '(h, waiting) := call (waiting_inputs run) h in
  match waiting with
  | Err _ => h
  | Ok waiting =>
  match find_map (λ input, match input with
                           | Ok event => if is_withdrawn event then Some event else None
                           | Err _ => None
                           end) waiting with
  | None => h
  | Some withdrawal =>
  let '(h, readable) := call (load_readable run) h in
  match readable with
  | Err _ => h
  | Ok readable =>
  let '(h, live) := may_live (started_sessions run readable) h in
  if live : bool then h else
  let '(h, given) := give_back_claim row h in
  if negb given then h else
  let '(h, pending) := call (delete_if_present (pending_key run)) h in
  match pending with
  | Err error => note_store_error error h
  | Ok pending =>
  let '(h, refusal) := call (delete_if_present (tree_refusal_key run)) h in
  match refusal with
  | Err error => note_store_error error h
  | Ok refusal =>
      let input := withdrawal <| Event.seq := u64_succ (RunRow.last_seq row) |>
                              <| Event.origin := Origin.Cli |> in
      let finished := Event_new run (u64_wrap (RunRow.last_seq row + 2)) now
        (Event.key input +:+ "/finished") Origin.Host
        (EventBody.Decision
           (Decision.Finished Outcome.Withdrawn (Some ReasonCode.WithdrawnByRequester))) in
      let '(h, r) := call (append run (RunRow.last_seq row) epoch [input; finished]
                             [Event.key input] (pending ++ refusal)) h in
      match r with
      | Ok _ => drop_run run h
      | Err error => append_refused run error h
      end
  end end end end end.
End host.
