(* ===== verification/Execute.v ===== *)
(** * Executing what a run owes

    [run-host/src/effects.rs], [start.rs] and [tree_effects.rs]: every effect through its port, the
    backend or the tree worker, behind the effect ledger in [kv], its result put into the inbox. An
    operation is a function of the host's state with its answer; [x <-- m ;; k] runs one after another, and
    [x <-! m ;; k] is the [?] of the source. *)

From S2P Require Import Prelude Text Utf8 Ids Codes Events Flow State Effects Guard Decide Host Ports Contract Sqlite Runner.
From stdpp Require Import options.

(** ** Sequences of operations *)
Section sequence.
Context {T A B E : Type}.

Definition and_then (m : T → T * A) (k : A → T → T * B) : T → T * B :=
  λ t, let '(t, a) := m t in k a t.

Definition try_then (m : T → T * result E A) (k : A → T → T * result E B) : T → T * result E B :=
  λ t, let '(t, r) := m t in match r with Ok a => k a t | Err e => (t, Err e) end.

Definition give (a : A) : T → T * A := λ t, (t, a).
Definition change_to (f : T → T) : T → T * unit := λ t, (f t, tt).
End sequence.

Notation "x <-- m ;; k" := (and_then m (λ x, k))
  (at level 100, m at next level, right associativity) : run_scope.
Notation "x <-! m ;; k" := (try_then m (λ x, k))
  (at level 100, m at next level, right associativity) : run_scope.

(** ** The values the host keeps in [kv] *)
Module PendingCommission.
Record PendingCommission := Mk {
  root_thread : MessageId;
  channel : string;
  sender : string;
  body : string;
  refs : Refs;
}.
End PendingCommission.
Abbreviation PendingCommission := PendingCommission.PendingCommission (only parsing).

(** The value of [thread/<id>]: the run of a thread and the session it waits on. *)
Record ThreadRoute := MkThreadRoute { route_run : RunId; route_session_key : option SessionKey }.

(** The value of [tree_refusal/<run>]. *)
Module StoredRefusal.
Record StoredRefusal := Mk {
  reason : TreeRefusal;
  text : string;
  at_ : Timestamp;
  first_refused_at : Timestamp;
}.
End StoredRefusal.
Abbreviation StoredRefusal := StoredRefusal.StoredRefusal (only parsing).

(** The derived equality of a refusal. *)
Fixpoint same_value (a b : Value) : bool :=
  match a, b with
  | VNull, VNull => true
  | VBool a, VBool b => Bool.eqb a b
  | VNumber a, VNumber b | VString a, VString b => bool_decide (a = b)
  | VArray a, VArray b =>
      (fix go (xs ys : list Value) :=
         match xs, ys with
         | [], [] => true
         | x :: xs, y :: ys => same_value x y && go xs ys
         | _, _ => false
         end) a b
  | VObject a, VObject b =>
      (fix go (xs ys : list (string * Value)) :=
         match xs, ys with
         | [], [] => true
         | (k, x) :: xs, (l, y) :: ys => bool_decide (k = l) && same_value x y && go xs ys
         | _, _ => false
         end) a b
  | _, _ => false
  end.

Definition same_refusal (a b : TreeRefusal) : bool :=
  match a, b with
  | TreeRefusal.NotARepository, TreeRefusal.NotARepository
  | TreeRefusal.ForeignDirectory, TreeRefusal.ForeignDirectory => true
  | TreeRefusal.MidSequence a, TreeRefusal.MidSequence b => bool_decide (a = b)
  | TreeRefusal.Git a, TreeRefusal.Git b => bool_decide (a = b)
  | TreeRefusal.Unknown a, TreeRefusal.Unknown b =>
      bool_decide (unknown_kind a = unknown_kind b) && same_value (unknown_raw a) (unknown_raw b)
  | _, _ => false
  end.

(** Their JSON and the text of an instant come from libraries. *)
Class HostSerde := {
  pending_from_slice : Bytes → option PendingCommission;
  route_to_vec : ThreadRoute → option Bytes;
  refusal_to_vec : StoredRefusal → option Bytes;
  refusal_from_slice : Bytes → option StoredRefusal;
  instant_text : Timestamp → string;
}.

(** Where an effect's ledger entry stands. *)
Module EntryPhase.
Inductive EntryPhase := Pending | Done (id : string).
End EntryPhase.

Definition DONE : string := "done:".
Definition PENDING : string := "pending".
Definition CHAT_REFUSED : string := "waiting/chat_store".

Definition effect_key (run : RunId) (key : string) : string := "effect/" +:+ run +:+ "/" +:+ key.
Definition claim_key (workspace : string) : string := "claim/" +:+ workspace.

(** ** The effect ledger *)
Section ledger.
Context {serde : Serde} {S : Type} {store : RunStore S}.

Definition entry_bytes (state : string) (epoch : Epoch) : StoreResult Bytes :=
  encode_value (entry_to_vec (EffectEntry.Mk state epoch)).

(** Reads an entry's state, or writes [initial] from absent. *)
Definition entry_or_write (run : RunId) (key : string) (epoch : Epoch) (initial : string) :
    S → S * StoreResult string :=
  let full := effect_key run key in
  found <-! get full ;;
  match found with
  | Some bytes =>
      give (match entry_from_slice bytes with
            | Some entry => Ok (EffectEntry.state entry)
            | None => Err (StoreError.DamagedRow full None)
            end)
  | None =>
      value <-! give (entry_bytes initial epoch) ;;
      _ <-! compare_and_set full None (Some value) ;;
      give (Ok initial)
  end.

(** Moves an entry to a new state under this epoch, from whatever bytes it holds. *)
Definition entry_set (run : RunId) (key : string) (epoch : Epoch) (state : string) :
    S → S * StoreResult unit :=
  let full := effect_key run key in
  current <-! get full ;;
  value <-! give (entry_bytes state epoch) ;;
  compare_and_set full current (Some value).

Definition entry_phase (run : RunId) (key : string) (epoch : Epoch) :
    S → S * StoreResult EntryPhase.EntryPhase :=
  state <-! entry_or_write run key epoch PENDING ;;
  give (Ok (match strip_prefix DONE state with
            | Some id => EntryPhase.Done id
            | None => EntryPhase.Pending
            end)).
End ledger.

Section execute.
Context {serde : Serde} {host_serde : HostSerde} {ulid : Ulid}.
Context {S O : Type} {store : RunStore S} {outside : Outside O}.
Local Abbreviation Host := (@Runner.Host S O).
Implicit Types h : Host.

(** ** Into the inbox *)
Definition put (run : RunId) (key : Key) (origin : Origin) (body : EventBody) (at_ : Timestamp) h :
    Host * bool :=
  let event := Event_new run 0 at_ key origin body in
  let '(h, r) := call (enqueue run event []) h in
  match r with Ok _ => (h, true) | Err error => (note_store_error error h, false) end.

(** The result of an effect, whose success nobody waits for. *)
Definition record_result (run : RunId) (key : Key) (origin : Origin) (body : EventBody)
    (at_ : Timestamp) h : Host * StoreResult unit :=
  let '(h, _) := put run key origin body at_ h in (h, Ok tt).

(** An operation whose error is only noted. *)
Definition noting {A} (op : S → S * StoreResult A) h : Host :=
  let '(h, r) := call op h in match r with Ok _ => h | Err error => note_store_error error h end.

(** ** Messages *)
Definition mark_chat_refused (run : RunId) (epoch : Epoch) h : Host :=
  noting (entry_or_write run CHAT_REFUSED epoch "the chat store") h.

(** Deletes a value if it is there; a failed read deletes nothing. *)
Definition clear_value (key : string) h : Host :=
  let '(h, r) := call (get key) h in
  match r with
  | Ok (Some bytes) => noting (compare_and_set key (Some bytes) None) h
  | _ => h
  end.

Definition clear_chat_refused (run : RunId) h : Host := clear_value (effect_key run CHAT_REFUSED) h.

(** [pending] is reconciled by [find] first, so a crash after the post never posts twice. *)
Definition find_or_post (run : RunId) (epoch : Epoch) (thread : MessageId) (sender : Handle)
    (refs : Refs) (key : Key) (body : Host → Host * option string) h : Host * option MessageId :=
  let '(h, found) := ask (port_find thread key) h in
  match found with
  | None => (mark_chat_refused run epoch h, None)
  | Some (Some id) => (clear_chat_refused run h, Some id)
  | Some None =>
      let '(h, text) := body h in
      match text with
      | None => (h, None)
      | Some text =>
          let '(h, posted) := ask (port_post thread sender text refs key) h in
          match posted with
          | None => (mark_chat_refused run epoch h, None)
          | Some id => (clear_chat_refused run h, Some id)
          end
      end
  end.

(** A message reached its thread: the ledger says so. *)
Definition posted (run : RunId) (ledger : Key) (epoch : Epoch) (found : Host → Host * option MessageId) :
    Host → Host * StoreResult (option MessageId) :=
  id <-- found ;;
  match id with
  | None => give (Ok None)
  | Some id => _ <-! call (entry_set run ledger epoch (DONE +:+ id)) ;; give (Ok (Some id))
  end.

(** ** [OpenRoot] *)
Definition root_message_of (run : RunId) (epoch : Epoch) (ledger : Key) :
    Host → Host * StoreResult (option MessageId) :=
  phase <-! call (entry_phase run ledger epoch) ;;
  match phase with
  | EntryPhase.Done id => give (Ok (Some id))
  | EntryPhase.Pending =>
      bytes <-! call (get (pending_key run)) ;;
      match bytes with
      | None => give (Ok None)
      | Some bytes =>
          match pending_from_slice bytes with
          | None => give (Err (StoreError.DamagedRow (pending_key run) None))
          | Some pending =>
              opened <-- ask (port_open_thread (PendingCommission.root_thread pending) None
                                (PendingCommission.channel pending)
                                (PendingCommission.sender pending)) ;;
              match opened with
              | None => _ <-- change_to (mark_chat_refused run epoch) ;; give (Ok None)
              | Some _ =>
                  posted run ledger epoch
                    (find_or_post run epoch (PendingCommission.root_thread pending)
                       (PendingCommission.sender pending) (PendingCommission.refs pending) ledger
                       (give (Some (PendingCommission.body pending))))
              end
          end
      end
  end.

Definition open_root (state : RunState) (epoch : Epoch) (now : Timestamp) :
    Host → Host * StoreResult unit :=
  let run := RunState.run state in
  message <-! root_message_of run epoch ("root/" +:+ run) ;;
  match message with
  | None => give (Ok tt)
  | Some message =>
      record_result run ("root_opened/" +:+ run) Origin.Host
        (EventBody.RootOpened (default "" (RunState.root_thread state)) message) now
  end.

(** ** [Deliver] *)

(** The body of a message, or none when it cannot be read. *)
Definition message_body (message : MessageId) : Host → Host * option string :=
  read <-- ask (port_read message) ;;
  give (match read with Some (Some message) => Some (Message.body message) | _ => None end).

Definition delivery_text (state : RunState) (body : DeliverBody) h : Host * option string :=
  let dir := v2_dir (h_layout h) in
  match body with
  | DeliverBody.Message id => message_body id h
  | DeliverBody.Discharge step pass verdict parked =>
      (h, Some (discharge (outcome state) step pass verdict parked dir))
  | DeliverBody.ParkNotice branch commit => (h, Some (park_notice branch commit dir))
  | DeliverBody.Question id =>
      match find_first (λ q, bool_decide (Question.id q = id)) (RunState.questions state) with
      | None => (h, None)
      | Some q =>
          let message :=
            match Question.asked q with
            | Asked.Escalation _ message => message
            | Asked.Ceiling _ _ last_verdict => last_verdict
            end in
          (said <-- message_body message ;;
           give (match said with
                 | None => None
                 | Some said => Some (question q (default "" (RunState.root_thread state)) (Some said))
                 end)) h
      end
  end.

Definition deliver (state : RunState) (epoch : Epoch) (thread : MessageId) (body : DeliverBody)
    (key : Key) (now : Timestamp) : Host → Host * StoreResult unit :=
  let run := RunState.run state in
  phase <-! call (entry_phase run key epoch) ;;
  message <-! (match phase with
               | EntryPhase.Done id => give (Ok (Some id))
               | EntryPhase.Pending =>
                   posted run key epoch
                     (find_or_post run epoch thread SUPERVISOR Refs_default key
                        (delivery_text state body))
               end) ;;
  match message with
  | None => give (Ok tt)
  | Some message =>
      record_result run (delivered_key key) Origin.Host (EventBody.Delivered message) now
  end.

(** ** The claim *)

(** A key that holds another run or nothing is the release already done. *)
Definition release_claim (run : RunId) (workspace : string) (now : Timestamp) :
    Host → Host * StoreResult unit :=
  let key := claim_key workspace in
  holder <-! call (get key) ;;
  _ <-! (if bool_decide (holder = Some run) then call (compare_and_set key (Some run) None)
         else give (Ok tt)) ;;
  record_result run ("claim_released/" +:+ run) Origin.Host EventBody.ClaimReleased now.

(** [claim_busy] only when the holder differs from the one the state already carries. *)
Definition note_holder (state : RunState) (behind : option RunId) (holder : Bytes) (now : Timestamp) h :
    Host :=
  match from_utf8 holder ≫= RunId_parse ulid_from_string with
  | None => h
  | Some holder =>
      if bool_decide (behind = Some holder) then h
      else (put (RunState.run state) (claim_busy_key state) Origin.Host (EventBody.ClaimBusy holder)
              now h).1
  end.

(** The tick's last part: oldest queued run first, one compare-and-set of the claim per workspace. *)
Fixpoint take_claims_from (tried : list string) (owed : bool) (owned : list (RunRow * Epoch))
    (now : Timestamp) h : Host :=
  match owned with
  | [] => h
  | (row, _) :: owned =>
      let run := RunRow.run row in
      let workspace := RunRow.workspace_id row in
      let '(h, state) := loaded_state row h in
      match state with
      | None => take_claims_from tried owed owned now h
      | Some state =>
      match RunState.phase state with
      | Phase.Queued behind =>
          let '(h, work) := may_work owed h in
          if negb work then h else
          let '(h, holder) := call (get (claim_key workspace)) h in
          match holder with
          | Err error => note_store_error error h
          | Ok holder =>
              let take h :=
                (put run ("claim_taken/" +:+ run) Origin.Host EventBody.ClaimTaken now h).1 in
              match holder with
              | Some bytes =>
                  let h := if bool_decide (bytes = run) then take h
                           else note_holder state behind bytes now h in
                  take_claims_from tried false owned now h
              | None =>
                  if bool_decide (workspace ∈ tried)
                  then take_claims_from tried false owned now h else
                  let '(h, r) := call (compare_and_set (claim_key workspace) None (Some run)) h in
                  match r with
                  | Ok _ => take_claims_from (workspace :: tried) false owned now (take h)
                  | Err (StoreError.CasFailed _) =>
                      take_claims_from (workspace :: tried) false owned now h
                  | Err error => note_store_error error h
                  end
              end
          end
      | _ => take_claims_from tried owed owned now h
      end
      end
  end.

Definition take_claims (owned : list (RunRow * Epoch)) (now : Timestamp) h : Host :=
  take_claims_from [] true owned now h.

(** ** [NudgeSession] and [StopSession] *)
Definition nudge (state : RunState) (session_key : SessionKey) (text : string) (now : Timestamp) :
    Host → Host * StoreResult unit :=
  nudged <-- ask (backend_nudge session_key text) ;;
  match nudged with
  | None => give (Ok tt)
  | Some _ =>
      let since :=
        match i ← find state session_key; RunState.slots state !! i with
        | Some record =>
            match SlotRecord.state record with SlotState.Quiet since _ => since | _ => 0%Z end
        | None => 0%Z
        end in
      record_result (RunState.run state) ("nudged/" +:+ session_key +:+ "/" +:+ pretty since)
        Origin.Host (EventBody.Nudged session_key) now
  end.

(** The ledger entry is written before the signal, and a found one is taken as sent. *)
Definition stop (run : RunId) (epoch : Epoch) (session_key : SessionKey) (kind : StopKind) (nth : N)
    (now : Timestamp) : Host → Host * StoreResult unit :=
  let ledger := "stop/" +:+ session_key +:+ "/" +:+ pretty nth in
  entry <-! call (get (effect_key run ledger)) ;;
  _ <-! (match entry with
         | Some _ => give (Ok tt)
         | None =>
             _ <-! call (entry_or_write run ledger epoch PENDING) ;;
             _ <-- ask (backend_stop session_key (bool_decide (kind = StopKind.Kill))) ;;
             give (Ok tt)
         end) ;;
  record_result run ("stop_signalled/" +:+ session_key +:+ "/" +:+ pretty nth) Origin.Host
    (EventBody.StopSignalled session_key nth kind) now.

(** ** [StartSession] *)

(** What was framed so far becomes one section; a port that refuses leaves the effect owed. *)
Definition flush_framed (handle : Handle) (framed : list TurnPart) (sections : list string) h :
    Host * option (list string) :=
  match framed with
  | [] => (h, Some sections)
  | _ => let '(h, r) := ask (port_turn handle framed) h in (h, (λ text, sections ++ [text]) <$> r)
  end.

Fixpoint compose_parts (step : StepDef) (handle : Handle) (thread : MessageId) (turn : list TurnPart)
    (framed : list TurnPart) (sections : list string) h : Host * option (list string) :=
  match turn with
  | [] => flush_framed handle framed sections h
  | part :: turn =>
      match tp_message part with
      | Some _ => compose_parts step handle thread turn (framed ++ [part]) sections h
      | None =>
          let '(h, r) := flush_framed handle framed sections h in
          match r with
          | None => (h, None)
          | Some sections =>
              let more :=
                match tp_kind part with
                | TurnKind.Task => option_list (task_text step handle)
                | TurnKind.Obligation => [obligation thread step]
                | TurnKind.Reminder => [REMINDER]
                | TurnKind.Root | TurnKind.Reply _ _ | TurnKind.Answer => []
                end in
              compose_parts step handle thread turn [] (sections ++ more) h
          end
      end
  end.

Definition compose_turn (slot : Slot) (step : StepDef) (turn : list TurnPart) (thread : MessageId) h :
    Host * option string :=
  let '(h, r) := compose_parts step (slot_member slot) thread turn [] [] h in
  (h, (λ sections,
         let earlier := (1 <? slot_attempt slot) && bool_decide (StepDef.next step = None) in
         join_sections ((if earlier then [EARLIER_ATTEMPT] else []) ++ sections)) <$> r).

Definition write_route (run : RunId) (thread : MessageId) (session_key : option SessionKey) :
    S → S * StoreResult unit :=
  let key := "thread/" +:+ thread in
  found <-! get key ;;
  match found with
  | Some _ => give (Ok tt)
  | None =>
      value <-! give (encode_value (route_to_vec (MkThreadRoute run session_key))) ;;
      compare_and_set key None (Some value)
  end.

(** The routes a reply needs: of the thread and of the session. *)
Definition write_routes (run : RunId) (thread : MessageId) (session_key : SessionKey) :
    S → S * StoreResult unit :=
  let session := "session/" +:+ session_key in
  _ <-! write_route run thread (Some session_key) ;;
  found <-! get session ;;
  match found with
  | Some _ => give (Ok tt)
  | None => compare_and_set session None (Some thread)
  end.

(** The ledger keeps the id before the open; a restart reads it back and repeats the open. *)
Definition open_step_thread (state : RunState) (epoch : Epoch) (slot : Slot) (step : StepDef)
    (session_key : SessionKey) (turn : list TurnPart) : Host → Host * StoreResult (option MessageId) :=
  let run := RunState.run state in
  let ledger := "thread/" +:+ session_key in
  minted <-- ask mint_ulid ;;
  entry <-! call (entry_or_write run ledger epoch (PENDING +:+ ":" +:+ ("m-" +:+ minted))) ;;
  match strip_prefix DONE entry, strip_prefix (PENDING +:+ ":") entry with
  | Some id, _ => give (Ok (Some id))
  | None, None => give (Ok None)
  | None, Some thread =>
      opened <-- ask (port_open_thread thread (RunState.root_thread state) (StepDef.channel step)
                        (StepDef.opener step)) ;;
      match opened with
      | None => give (Ok None)
      | Some _ =>
          message <-- find_or_post run epoch thread (StepDef.opener step) Refs_default
                        ("turn/" +:+ session_key) (compose_turn slot step turn thread) ;;
          match message with
          | None => give (Ok None)
          | Some _ =>
              _ <-! call (write_routes run thread session_key) ;;
              _ <-! call (entry_set run ledger epoch (DONE +:+ thread)) ;;
              give (Ok (Some thread))
          end
      end
  end.

Fixpoint env_of_names (names : list string) h : Host * list EnvVar :=
  match names with
  | [] => (h, [])
  | name :: names =>
      let '(h, value) := ask (env_var name) h in
      let '(h, rest) := env_of_names names h in
      (h, option_list (MkEnvVar name <$> value) ++ rest)
  end.

(** The allowlist: identity is the session's environment. *)
Definition session_env (base : list EnvVar) (session_key : SessionKey) (handle : Handle)
    (bundle : string) h : Host * list EnvVar :=
  let '(h, env) := env_of_names ["PATH"; "HOME"; "USER"] h in
  (h, env ++ base ++
      [MkEnvVar "NXC_SIDECAR" bundle; MkEnvVar "NXC_SESSION" session_key;
       MkEnvVar "NXC_ACTOR" handle]).

(** Prompt, tools, model and permissions of the member; the consolidator has its own. *)
Definition member_prompt (state : RunState) (step : StepDef) (handle : Handle) h :
    Host * option (Prompt * list string * option string * option string) :=
  if bool_decide (handle = SYNTH) then
    let model :=
      match StepDef.kind step with
      | StepKind.FanOut _ _ (Some synthesis) => synthesis_model synthesis
      | _ => None
      end in
    (h, Some (Prompt.Mk "" false (RunState.flow_hash state), ["Bash(nxc reply:*)"], model, None))
  else
    let '(h, bundle) := ask (port_prompt handle) h in
    let '(h, persona) := ask (port_persona handle) h in
    (h, match bundle, persona with
        | Some bundle, Some persona =>
            Some (Prompt.Mk (PromptBundle.system_prompt bundle)
                    (PromptBundle.use_claude_code_preset bundle)
                    (PromptBundle.declaration_hash bundle),
                  PromptBundle.granted_tools bundle, PersonaDecl.model persona,
                  PersonaDecl.permissions persona)
        | _, _ => None
        end).

Definition start_spec (state : RunState) (slot : Slot) (step : StepDef) (session_key : SessionKey)
    (thread : MessageId) (text : string) (resume : bool) :
    Host → Host * StoreResult (option StartSpec) :=
  let run := RunState.run state in
  let handle := slot_member slot in
  who <-- member_prompt state step handle ;;
  match who with
  | None => give (Ok None)
  | Some (prompt, tools, model, permissions) =>
      resumed <-! (if resume
                   then call (get ("persona_session/" +:+ run +:+ "/" +:+ handle))
                   else give (Ok None)) ;;
      bundle <-- ask port_bundle_path ;;
      match bundle with
      | None => give (Ok None)
      | Some bundle => λ h,
          let layout := h_layout h in
          (env <-- session_env (Layout.session_env layout) session_key handle bundle ;;
           give (Ok (Some (StartSpec.Mk CONTRACT_V session_key (v2_dir layout) env prompt
                             (MkTurn thread text) (resumed ≫= from_utf8) model tools permissions
                             (ledger_dir layout session_key))))) h
      end
  end.

Definition mark_started (run : RunId) (session_key : SessionKey) h : Host :=
  set_cache run ((cache run h) <| RunCache.started :=
    {[session_key]} ∪ RunCache.started (cache run h) |>) h.

(** What an answer of the backend means. *)
Definition started_as (run : RunId) (session_key : SessionKey) (now : Timestamp)
    (answer : option StartOutcome) : Host → Host * StoreResult unit :=
  match answer with
  | Some (StartOutcome.Spawned | StartOutcome.Reattached | StartOutcome.Waiting) =>
      _ <-- change_to (mark_started run session_key) ;; give (Ok tt)
  | Some StartOutcome.Lost =>
      _ <-- change_to (mark_started run session_key) ;;
      record_result run ("fact/" +:+ session_key +:+ "/start-lost") Origin.Adapter
        (EventBody.SessionFact session_key (SessionFact.Ended EndCause.Lost)) now
  | None => give (Ok tt)
  end.

Definition start_session (state : RunState) (epoch : Epoch) (session_key : SessionKey)
    (turn : list TurnPart) (resume : bool) (now : Timestamp) h : Host * StoreResult unit :=
  let run := RunState.run state in
  if bool_decide (session_key ∈ RunCache.started (cache run h)) then (h, Ok tt) else
  match (i ← find state session_key; RunState.slots state !! i) with
  | None => (h, Ok tt)
  | Some record =>
  let slot := SlotRecord.slot record in
  match def_step (RunState.def state) (slot_step slot) with
  | None => (h, Ok tt)
  | Some step =>
      (thread <-! open_step_thread state epoch slot step session_key turn ;;
       match thread with
       | None => give (Ok tt)
       | Some thread =>
           text <-- compose_turn slot step turn thread ;;
           match text with
           | None => give (Ok tt)
           | Some text =>
               spec <-! start_spec state slot step session_key thread text resume ;;
               match spec with
               | None => give (Ok tt)
               | Some spec =>
                   answer <-- ask (backend_start spec) ;; started_as run session_key now answer
               end
           end
       end) h
  end end.

(** ** The working directory ([tree_effects.rs]) *)
Definition BACKOFF_START_MS : Z := 1000.
Definition BACKOFF_MAX_MS : Z := 60000.
Definition MIN_TREE_ATTEMPTS : N := 3.

Definition is_permanent (reason : TreeRefusal) : bool :=
  match reason with
  | TreeRefusal.NotARepository | TreeRefusal.ForeignDirectory | TreeRefusal.Unknown _ => true
  | _ => false
  end.

Definition set_running (op : option TreeOp) (cancelled : bool) h : Host :=
  h <| h_track := TreeTrack.Mk op cancelled (TreeTrack.attempts (h_track h)) |>.

Definition set_attempts (attempts : gmap RunId Attempts) h : Host :=
  h <| h_track :=
    TreeTrack.Mk (TreeTrack.running (h_track h)) (TreeTrack.cancelled (h_track h)) attempts |>.

Definition attempts_of (run : RunId) h : Attempts :=
  default Attempts.default (TreeTrack.attempts (h_track h) !! run).

Definition running_for (run : RunId) h : bool :=
  from_option (λ op, bool_decide (op_run op = run)) false (TreeTrack.running (h_track h)).

Definition may_begin (run : RunId) (now : Timestamp) h : Host * bool :=
  match TreeTrack.running (h_track h) with
  | Some _ => (h, false)
  | None =>
      let attempts := attempts_of run h in
      (set_attempts (<[run := attempts]> (TreeTrack.attempts (h_track h))) h,
       from_option (λ at_, (at_ <=? now)%Z) true (Attempts.next_at attempts))
  end.

Definition begin_op (op : TreeOp) h : Host :=
  let '(h, r) := ask (tree_begin op) h in
  match r with Some _ => set_running (Some op) false h | None => h end.

Definition prepare_tree (run : RunId) (now : Timestamp) h : Host :=
  let '(h, may) := may_begin run now h in
  if may : bool then begin_op (TreeOp.Prepare run (v2_dir (h_layout h))) h else h.

(** Executed only while the claim key holds this run. *)
Definition park_tree (run : RunId) (workspace : string) (occasion : Outcome) (now : Timestamp) :
    Host → Host * StoreResult unit :=
  holds <-! call (get (claim_key workspace)) ;;
  if negb (bool_decide (holds = Some run))
  then record_result run ("tree_parked/" +:+ run) Origin.Host
         (EventBody.TreeParked ParkOutcome.NotHeld) now
  else λ h,
    let '(h, may) := may_begin run now h in
    (if may : bool then begin_op (TreeOp.Park run (v2_dir (h_layout h)) occasion) h else h, Ok tt).

Definition cancel_running h : Host :=
  if TreeTrack.cancelled (h_track h) then h
  else let '(h, _) := ask tree_cancel h in set_running (TreeTrack.running (h_track h)) true h.

Definition standing_refusal (run : RunId) (s : S) : S * option StoredRefusal :=
  let '(s, r) := get (tree_refusal_key run) s in
  (s, match r with Ok (Some bytes) => refusal_from_slice bytes | _ => None end).

(** [tree_window] closed: cancel what is in flight, and enqueue the standing refusal. *)
Definition cancel_tree (state : RunState) (now : Timestamp) h : Host :=
  let run := RunState.run state in
  let h := if running_for run h then cancel_running h else h in
  let '(h, standing) := call (standing_refusal run) h in
  let reason := from_option StoredRefusal.reason (TreeRefusal.Git GitReason.BoundExceeded) standing in
  (put run (tree_refused_key state) Origin.Host (EventBody.TreeRefused reason) now h).1.

(** [withdrawn] cancels an in-flight preparation. *)
Definition cancel_if_withdrawn (state : RunState) h : Host :=
  match TreeTrack.running (h_track h) with
  | Some (TreeOp.Prepare run _) =>
      if bool_decide (run = RunState.run state) && is_finishing state then cancel_running h else h
  | _ => h
  end.

(** Whether to hold back a due [tree_window]. *)
Definition holds_tree_window (run : RunId) h : bool :=
  let refused := from_option Attempts.refused 0 (TreeTrack.attempts (h_track h) !! run) in
  let tried := if running_for run h then u32_succ refused else refused in
  tried <? MIN_TREE_ATTEMPTS.

Definition clear_refusal (run : RunId) h : Host := clear_value (tree_refusal_key run) h.

(** When the next try after a refusal may start. *)
Definition backoff (refused : N) (now : Timestamp) : Timestamp :=
  let doubling :=
    Z.min i64_max (BACKOFF_START_MS * Z.shiftl 1 (Z.of_N (N.min refused 16 - 1)))%Z in
  from_unix_millis (now + Z.min doubling BACKOFF_MAX_MS).

(** One more refusal: its backoff, and the row, rewritten only when the refusal changes. *)
Definition record_refusal (run : RunId) (reason : TreeRefusal) (text : string) (now : Timestamp) h :
    Host :=
  let refused := u32_succ (Attempts.refused (attempts_of run h)) in
  let h := set_attempts
    (<[run := Attempts.Mk refused (Some (backoff refused now))]> (TreeTrack.attempts (h_track h))) h in
  let key := tree_refusal_key run in
  let '(h, r) := call (get key) h in
  match r with
  | Err error => note_store_error error h
  | Ok current =>
      let stored := current ≫= refusal_from_slice in
      let text := scrub text in
      if from_option (λ s, same_refusal (StoredRefusal.reason s) reason &&
                           bool_decide (StoredRefusal.text s = text)) false stored
      then h
      else
        let first := from_option StoredRefusal.first_refused_at now stored in
        match refusal_to_vec (StoredRefusal.Mk reason text now first) with
        | None => h
        | Some value => noting (compare_and_set key current (Some value)) h
        end
  end.

Definition forget_attempts (run : RunId) h : Host :=
  set_attempts (delete run (TreeTrack.attempts (h_track h))) h.

Definition fold_tree_result (op : TreeOp) (result : TreeResult) (now : Timestamp) h : Host :=
  let run := op_run op in
  match op, result with
  | TreeOp.Prepare _ _, TreeResult.Prepared base found =>
      let h := clear_refusal run (forget_attempts run h) in
      (put run ("tree_prepared/" +:+ run) Origin.Host (EventBody.TreePrepared base found) now h).1
  | TreeOp.Park _ _ _, TreeResult.Parked outcome =>
      let h := clear_refusal run (forget_attempts run h) in
      (put run ("tree_parked/" +:+ run) Origin.Host (EventBody.TreeParked outcome) now h).1
  | TreeOp.Prepare _ _, TreeResult.Refused reason text =>
      let h := record_refusal run reason text now h in
      match RunCache.state (cache run h) with
      | Some state =>
          if is_permanent reason || is_finishing state
          then (put run (tree_refused_key state) Origin.Host (EventBody.TreeRefused reason) now h).1
          else h
      | None => h
      end
  | TreeOp.Park _ _ _, TreeResult.Refused reason text => record_refusal run reason text now h
  | _, _ => h
  end.

(** Whether a tree result may be folded: its run is ours, and still is. *)
Definition result_is_ours (owned : list (RunRow * Epoch)) (run : RunId) h : Host * bool :=
  match find_first (λ '(row, _), bool_decide (RunRow.run row = run)) owned with
  | None => (h, false)
  | Some (_, epoch) =>
      let '(h, at_) := now h in call (still_ours run (h_owner_id h) epoch at_) h
  end.

(** Folds what the worker finished, with a bound on the turns of the loop. *)
Fixpoint poll_tree (polls : nat) (owned : list (RunRow * Epoch)) (now : Timestamp) h : Host :=
  match polls with
  | Datatypes.O => h
  | Datatypes.S polls =>
      let '(h, polled) := ask tree_poll h in
      match polled with
      | None => h
      | Some (op, result) =>
          let h := set_running None false h in
          let '(h, live) := result_is_ours owned (op_run op) h in
          let h := if live : bool then fold_tree_result op result now h else h in
          poll_tree polls owned now h
      end
  end.

(** ** What the run owes now *)
Definition execute (state : RunState) (row : RunRow) (epoch : Epoch) (effect : Effect)
    (now : Timestamp) : Host → Host * StoreResult unit :=
  let run := RunRow.run row in
  let done f := _ <-- change_to f ;; give (Ok tt) in
  match effect with
  | Effect.OpenRoot _ => open_root state epoch now
  | Effect.TakeClaim _ => give (Ok tt)
  | Effect.PrepareTree _ => done (prepare_tree run now)
  | Effect.CancelTree _ => done (cancel_tree state now)
  | Effect.ParkTree workspace occasion => park_tree run workspace occasion now
  | Effect.ReleaseClaim workspace => release_claim run workspace now
  | Effect.StartSession session_key turn resume =>
      start_session state epoch session_key turn resume now
  | Effect.NudgeSession session_key text => nudge state session_key text now
  | Effect.StopSession session_key kind nth => stop run epoch session_key kind nth now
  | Effect.Deliver thread body key => deliver state epoch thread body key now
  end.

(** Each effect behind a check of the lease immediately before it. *)
Fixpoint execute_each (state : RunState) (row : RunRow) (epoch : Epoch) (effects : list Effect)
    (at_ : Timestamp) (turn_owed : bool) h : Host :=
  match effects with
  | [] => h
  | effect :: effects =>
      let '(h, work) := may_work turn_owed h in
      if negb work then h else
      let '(h, clock) := now h in
      let '(h, ours) := call (still_ours (RunRow.run row) (h_owner_id h) epoch clock) h in
      if negb ours then drop_run (RunRow.run row) h else
      let '(h, r) := execute state row epoch effect at_ h in
      match r with
      | Err StoreError.Fenced => drop_run (RunRow.run row) h
      | Err error =>
          execute_each state row epoch effects at_ turn_owed (note_store_error error h)
      | Ok _ => execute_each state row epoch effects at_ turn_owed h
      end
  end.

Definition execute_run (row : RunRow) (epoch : Epoch) (at_ : Timestamp) (turn_owed : bool) h : Host :=
  let '(h, state) := loaded_state row h in
  match state with
  | None => h
  | Some state =>
      execute_each state row epoch (pending_effects state) at_ turn_owed (cancel_if_withdrawn state h)
  end.
End execute.
