(* ===== verification/Tick.v ===== *)
(** * One tick of a host

    [run-host/src/host.rs]: refresh the open runs; acquire or renew each lease; drain the facts of the
    sessions and the results of the tree worker into the inboxes; enqueue due timers; fold the inboxes;
    execute what every run owes; take the claim for the oldest queued run. The loops that the source leaves
    unbounded (the inbox of a run, the results of the worker) have a bound on their turns, [fuel]. *)

From S2P Require Import Prelude Text Utf8 Ids Codes Events Flow State Effects Host Ports Contract Sqlite Runner Execute.
From stdpp Require Import options.

Section tick.
Context {serde : Serde} {host_serde : HostSerde} {ulid : Ulid}.
Context {S O : Type} {store : RunStore S} {inherent : InherentStore S} {outside : Outside O}.
Local Abbreviation Host := (@Runner.Host S O).
Implicit Types h : Host.

(** Every open run's lease, whatever the budget says. *)
Fixpoint leases (rows : list RunRow) (now : Timestamp) h : Host * list (RunRow * Epoch) :=
  match rows with
  | [] => (h, [])
  | row :: rows =>
      if TickReport.busy (h_report h) then leases rows now (drop_run (RunRow.run row) h) else
      let '(h, r) := call (acquire (RunRow.run row) (h_owner_id h) now) h in
      match r with
      | Ok (Holding.Ours epoch) =>
          let '(h, owned) := leases rows now h in (h, (row, epoch) :: owned)
      | Ok Holding.Skip => leases rows now (drop_run (RunRow.run row) h)
      | Err error => leases rows now (note_store_error error (drop_run (RunRow.run row) h))
      end
  end.

(** The workspaces of the open runs, each once, in the order of their names. *)
Definition workspaces (rows : list RunRow) : list string :=
  sorted_keys (list_to_map ((λ row, (RunRow.workspace_id row, tt)) <$> rows)).

Fixpoint mark_seen_each (names : list string) (now : Timestamp) h : Host :=
  match names with
  | [] => h
  | name :: names =>
      if TickReport.busy (h_report h) then h
      else mark_seen_each names now (noting (mark_host_seen name now) h)
  end.

Definition mark_seen (rows : list RunRow) (now : Timestamp) h : Host :=
  mark_seen_each (workspaces rows) now h.

(** ** Turns

    A part of the tick starts where it last ran out, and its first run has a turn however little is left
    of the budget. *)
Fixpoint each_run_from (part : Part) (owned : list (RunRow * Epoch)) (start : nat)
    (offsets : list nat) (step : RunRow → Epoch → bool → Host → Host) h : Host :=
  match offsets with
  | [] => h
  | offset :: offsets =>
      let index := Nat.modulo (start + offset) (length owned) in
      let turn_owed := (offset =? 0)%nat in
      let '(h, work) := may_work turn_owed h in
      if negb work
      then h <| h_next_turn :=
             λ p, if bool_decide (p = part) then index else h_next_turn h p |>
      else match owned !! index with
      | Some (row, epoch) =>
          each_run_from part owned start offsets step (step row epoch turn_owed h)
      | None => h
      end
  end.

Definition each_run (part : Part) (owned : list (RunRow * Epoch))
    (step : RunRow → Epoch → bool → Host → Host) h : Host :=
  match owned with
  | [] => h
  | _ =>
      let start := Nat.modulo (h_next_turn h part) (length owned) in
      each_run_from part owned start (seq 0 (length owned)) step h
  end.

(** ** Facts of sessions *)
Definition offset_path (key : SessionKey) h : string := ledger_dir (h_layout h) key +:+ "/offset".

Definition set_offset (run : RunId) (key : SessionKey) (offset : N) h : Host :=
  set_cache run ((cache run h) <| RunCache.offsets :=
    <[key := offset]> (RunCache.offsets (cache run h)) |>) h.

Definition offset_of (run : RunId) (key : SessionKey) h : Host * N :=
  match RunCache.offsets (cache run h) !! key with
  | Some offset => (h, offset)
  | None =>
      let '(h, text) := ask (read_file (offset_path key h)) h in
      let offset := default 0 (text ≫= λ text, parse_uint u64_max (trim text)) in
      (set_offset run key offset h, offset)
  end.

(** A write that fails is only a second delivery after the next restart. *)
Definition store_offset (run : RunId) (key : SessionKey) (offset : N) h : Host :=
  let '(h, wrote) := ask (replace_file (offset_path key h) (pretty offset)) h in
  match wrote with Some _ => set_offset run key offset h | None => h end.

Definition fact_key (key : SessionKey) (offset : N) : Key :=
  "fact/" +:+ key +:+ "/" +:+ pretty offset.

(** The facts in order, until one is refused. *)
Fixpoint put_facts (run : RunId) (key : SessionKey) (facts : list DrainedFact) (now : Timestamp) h :
    Host * bool :=
  match facts with
  | [] => (h, true)
  | drained :: facts =>
      let '(h, accepted) := put run (fact_key key (drained_offset drained)) Origin.Adapter
        (EventBody.SessionFact key (drained_fact drained)) now h in
      if accepted : bool then put_facts run key facts now h else (h, false)
  end.

(** An end is confirmed by the backend, and only once its facts are drained to the end. *)
Definition confirm_end (run : RunId) (key : SessionKey) (now : Timestamp) h : Host :=
  let '(h, r) := ask (backend_alive key) h in
  match r with
  | Some Liveness.Dead =>
      (put run ("fact/" +:+ key +:+ "/stopped") Origin.Adapter
         (EventBody.SessionFact key (SessionFact.Ended EndCause.StoppedByHost)) now h).1
  | _ => h
  end.

Definition drain_session (run : RunId) (key : SessionKey) (stopping : bool) (now : Timestamp) h :
    Host :=
  let '(h, from) := offset_of run key h in
  let '(h, drained) := ask (backend_drain_facts key from) h in
  match drained with
  | None => h
  | Some (facts, next) =>
      let '(h, all) := put_facts run key facts now h in
      if negb all then h else
      let h := if next =? from then h else store_offset run key next h in
      if stopping && bool_decide (facts = []) then confirm_end run key now h else h
  end.

(** The sessions of a run that may have a process, and whether each is being stopped. *)
Definition live_sessions (state : RunState) : list (SessionKey * bool) :=
  omap (λ record,
    if is_live (SlotRecord.state record)
    then Some (state_session_key state (SlotRecord.slot record),
               bool_decide (is_Some (ladder_of (SlotRecord.state record))))
    else None) (RunState.slots state).

Fixpoint drain_each (run : RunId) (live : list (SessionKey * bool)) (now : Timestamp)
    (turn_owed : bool) h : Host :=
  match live with
  | [] => h
  | (key, stopping) :: live =>
      let '(h, work) := may_work turn_owed h in
      if negb work then h
      else drain_each run live now turn_owed (drain_session run key stopping now h)
  end.

Definition drain_run (row : RunRow) (_ : Epoch) (now : Timestamp) (turn_owed : bool) h : Host :=
  let '(h, state) := loaded_state row h in
  match state with
  | None => h
  | Some state => drain_each (RunRow.run row) (live_sessions state) now turn_owed h
  end.

(** ** Due timers *)
Definition timer_key (timer : Timer) : Key :=
  "timer/" +:+ Timer.timer timer +:+ "/" +:+ instant_text (Timer.fire_at timer).

Fixpoint fire_each (owned : list (RunRow * Epoch)) (due : list Timer) (now : Timestamp) h : Host :=
  match due with
  | [] => h
  | timer :: due =>
      let run := Timer.run timer in
      let ours := existsb (λ '(row, _), bool_decide (RunRow.run row = run)) owned in
      let held := bool_decide (Timer.purpose timer = TimerPurpose.TreeWindow) &&
                  holds_tree_window run h in
      let h :=
        if ours && negb held
        then (put run (timer_key timer) Origin.Timer
                (EventBody.TimerFired (Timer.timer timer) (Timer.fire_at timer)) now h).1
        else h in
      fire_each owned due now h
  end.

(** Due timers of the runs this host owns. *)
Definition fire_due_timers (owned : list (RunRow * Epoch)) (now : Timestamp) h : Host :=
  if TickReport.busy (h_report h) then h else
  let '(h, r) := call (due_timers now) h in
  match r with
  | Err error => note_store_error error h
  | Ok due => fire_each owned due now h
  end.

(** ** The tick *)

(** What is in memory about runs that are not open any more is forgotten. *)
Definition retain_open (rows : list RunRow) h : Host :=
  h <| h_runs := filter (λ '(run, _), run ∈ (RunRow.run <$> rows)) (h_runs h) |>.

Definition tick_parts (fuel : nat) (owned : list (RunRow * Epoch)) (now : Timestamp) h : Host :=
  let h := each_run Part.Drain owned (λ row epoch turn_owed, drain_run row epoch now turn_owed) h in
  let h := poll_tree fuel owned now h in
  let h := fire_due_timers owned now h in
  let h := each_run Part.Fold owned
    (λ row epoch turn_owed h, (fold_run fuel row epoch turn_owed h).1) h in
  let h := each_run Part.Execute owned
    (λ row epoch turn_owed h,
       execute_run row epoch now turn_owed (withdraw_exit row epoch now h)) h in
  take_claims owned now h.

Definition tick (fuel : nat) (now : Timestamp) h : Host * TickReport :=
  let h := h <| h_report := TickReport.default |> in
  let '(h, r) := call open_runs h in
  match r with
  | Err error => let h := note_store_error error h in (h, h_report h)
  | Ok rows =>
      let h := retain_open rows h in
      let '(h, owned) := leases rows now h in
      let h := mark_seen rows now h in
      let h := tick_parts fuel owned now h in
      (h, h_report h)
  end.
End tick.
