(* ===== verification/Bridge.v ===== *)
(** * The bridge

    [run-host/src/bridge.rs]: what the command line calls, over a store connection of its own: commission a
    run, reply in a step's thread, answer a question, withdraw, and read. Every verb checks before it writes
    and refuses with the reason. The JSON and the hash of a definition, the declarations, git and the
    process table are parameters; the text of a port's error is left out. *)

From S2P Require Import Prelude Text Utf8 Ids Codes Events Flow State Effects Guard Input Evolve Decide Status Host Ports TreeLedger Contract Sqlite Runner Execute.
From stdpp Require Import options.
From Stdlib Require Import Ascii.

(** ** Lossy UTF-8

    [String::from_utf8_lossy]: every longest part that begins a character and does not go on becomes one
    replacement character. *)
Definition REPLACEMENT : string := String "239"%char (String "191"%char (String "189"%char EmptyString)).

Fixpoint from_utf8_lossy (s : string) : string :=
  match s with
  | EmptyString => EmptyString
  | String a s1 =>
      if in_range 0 127 a then String a (from_utf8_lossy s1) else
      let bad := REPLACEMENT +:+ from_utf8_lossy s1 in
      match s1 with
      | EmptyString => REPLACEMENT
      | String b s2 =>
          if in_range 194 223 a then
            if is_cont b then String a (String b (from_utf8_lossy s2)) else bad
          else
          let second := (in_range 224 239 a && second_of_three a b) ||
                        (in_range 240 244 a && second_of_four a b) in
          if negb second then bad else
          let bad := REPLACEMENT +:+ from_utf8_lossy s2 in
          match s2 with
          | EmptyString => REPLACEMENT
          | String c s3 =>
              if negb (is_cont c) then bad else
              if in_range 224 239 a then String a (String b (String c (from_utf8_lossy s3))) else
              match s3 with
              | EmptyString => REPLACEMENT
              | String d s4 =>
                  if is_cont d then String a (String b (String c (String d (from_utf8_lossy s4))))
                  else REPLACEMENT +:+ from_utf8_lossy s3
              end
          end
      end
  end.

Example lossy_keeps_text : from_utf8_lossy "m-01 é" = "m-01 é".
Proof. vm_compute. reflexivity. Qed.
Example lossy_replaces :
  from_utf8_lossy (String "a"%char (String "226"%char (String "130"%char "b"))) = String "a"%char (REPLACEMENT +:+ "b").
Proof. vm_compute. reflexivity. Qed.

(** ** Parameters *)

(** What the status read of a directory answers. *)
Module TreeState.
Record TreeState := Mk {
  commit : option string;
  branch : option string;
  dirty : bool;
  mid_sequence : bool;
  missing : bool;
}.
End TreeState.
Abbreviation TreeState := TreeState.TreeState (only parsing).

(** [canonical_json], [FlowRef::of_canonical_json] and the [Debug] text of a compiler's refusal. *)
Class BridgeSerde := {
  pending_to_vec : PendingCommission → option Bytes;
  route_from_slice : Bytes → option ThreadRoute;
  canonical_json : FlowDef → Bytes;
  flow_digest : Bytes → string;
  refusal_debug : CompileRefusal → string;
}.

(** [DeclarationPort::channel] and [tree_state]. *)
Class BridgePorts (O : Type) := {
  port_channel : string → O → O * option ChannelDecl;
  tree_state : string → string → O → O * option TreeState;
}.

(** [ChannelDecl::default]. *)
Definition ChannelDecl_default : ChannelDecl :=
  ChannelDecl.Mk "" [] [] Expects.All OnComplete.PassThrough None None DeclaredTree.Shared None.

Definition LOCAL_TENANT : string := "local".

Definition flow_ref {bridge_serde : BridgeSerde} (def : FlowDef) : FlowRef :=
  MkFlowRef ("sha256:" +:+ flow_digest (canonical_json def)).

(** ** Refusals *)
Module Refused.
Inductive Refused :=
| NotARunThread (thread : string)
| NotTheSlot (owed_by : Handle)
| NotWaitingForReply
| NotTheRequester
| RunFinished
| NoOpenQuestion
| AcceptAtACeilingOnly
| PostedNotEnqueued (message : MessageId)
| Compile (what : string)
| Store (error : StoreError)
| Port.
End Refused.
Abbreviation Refused := Refused.Refused (only parsing).

(** Who is calling: a session's actor and key, or a person with no session. *)
Module Caller.
Record Caller := Mk { actor : Handle; session : option SessionKey }.
End Caller.
Abbreviation Caller := Caller.Caller (only parsing).

Module CommissionReceipt.
Record CommissionReceipt := Mk {
  run : RunId;
  root_thread : MessageId;
  ignored_timeouts : list string;
}.
End CommissionReceipt.
Abbreviation CommissionReceipt := CommissionReceipt.CommissionReceipt (only parsing).

Module ReplyFlags.
Record ReplyFlags := Mk { escalate : bool; needs_rework : bool }.
End ReplyFlags.
Abbreviation ReplyFlags := ReplyFlags.ReplyFlags (only parsing).

(** A run as far as it folds. *)
Record RunRead := MkRunRead { read_state : RunState; read_only : option string }.

Record LiveSession := MkLiveSession {
  live_run : RunId;
  live_session_key : SessionKey;
  live_handle : Handle;
}.

(** ** The bridge's own connection and ports *)
Section bridge.
Context {serde : Serde} {host_serde : HostSerde} {bridge_serde : BridgeSerde} {ledger_serde : LedgerSerde}.
Context {ulid : Ulid} {S O : Type} {store : RunStore S} {inherent : InherentStore S}.
Context {outside : Outside O} {ledger_ports : LedgerPorts O} {bridge_ports : BridgePorts O}.

Record BridgeCtx := MkBridgeCtx {
  b_store : S;
  b_outside : O;
  b_layout : Layout;
  b_workspace_id : string;
}.
Implicit Types b : BridgeCtx.

Definition with_store {A} (op : S → S * A) b : BridgeCtx * A :=
  let '(s, a) := op (b_store b) in (MkBridgeCtx s (b_outside b) (b_layout b) (b_workspace_id b), a).

Definition with_outside {A} (op : O → O * A) b : BridgeCtx * A :=
  let '(o, a) := op (b_outside b) in (MkBridgeCtx (b_store b) o (b_layout b) (b_workspace_id b), a).

(** [?] on what the store and a port answer. *)
Definition stored {A} (op : S → S * StoreResult A) b : BridgeCtx * result Refused A :=
  let '(b, r) := with_store op b in
  (b, match r with Ok a => Ok a | Err error => Err (Refused.Store error) end).

Definition ported {A} (op : O → O * option A) b : BridgeCtx * result Refused A :=
  let '(b, r) := with_outside op b in
  (b, match r with Some a => Ok a | None => Err Refused.Port end).

Definition refuse {A} (why : Refused) : BridgeCtx → BridgeCtx * result Refused A := give (Err why).
Definition answer_with {A} (a : A) : BridgeCtx → BridgeCtx * result Refused A := give (Ok a).

Definition encode (bytes : option Bytes) : result Refused Bytes :=
  match bytes with
  | Some bytes => Ok bytes
  | None => Err (Refused.Store (StoreError.Backend "a kv value cannot be written"))
  end.

(** [format!("m-{}", Ulid::new())] and [RunId::new(Ulid::new())]. *)
Definition mint_thread_id b : BridgeCtx * MessageId :=
  let '(b, minted) := with_outside mint_ulid b in (b, "m-" +:+ minted).
Definition mint_run_id b : BridgeCtx * RunId :=
  let '(b, minted) := with_outside mint_ulid b in (b, RunId_new minted).

(** ** Commissioning *)

(** The first step target the declarations know as a channel. *)
Fixpoint first_channel (targets : list string) b : BridgeCtx * option ChannelDecl :=
  match targets with
  | [] => (b, None)
  | target :: targets =>
      let '(b, found) := with_outside (port_channel target) b in
      match found with Some channel => (b, Some channel) | None => first_channel targets b end
  end.

Definition review_of (flow : ChannelDecl) b : BridgeCtx * ChannelDecl :=
  let '(b, found) := first_channel (StepDecl.target <$> ChannelDecl.steps flow) b in
  (b, default ChannelDecl_default found).

(** Content-addressed: the definition rides along unless the key holds it, and a racing send's refusal is
    retried once. *)
Fixpoint open_run (retries : nat) (run : RunId) (event : Event) (cas : list Cas) (flow_key : string)
    (def : FlowDef) b : BridgeCtx * result Refused unit :=
  let '(b, held) := stored (get flow_key) b in
  match held with
  | Err why => (b, Err why)
  | Ok held =>
      let this_try := match held with
                      | None => cas ++ [Cas.Mk flow_key None (Some (canonical_json def))]
                      | Some _ => cas
                      end in
      let '(b, r) := with_store (enqueue run event this_try) b in
      match r, retries with
      | Ok _, _ => (b, Ok tt)
      | Err (StoreError.CasFailed key), Datatypes.S retries =>
          if bool_decide (key = flow_key) then open_run retries run event cas flow_key def b
          else (b, Err (Refused.Store (StoreError.CasFailed key)))
      | Err error, _ => (b, Err (Refused.Store error))
      end
  end.

Definition commission (channel body : string) (refs : Refs) (sender : Handle) (policy : LivenessPolicy)
    (now : Timestamp) b : BridgeCtx * result Refused CommissionReceipt :=
  (flow <-! ported (port_channel channel) ;;
   review <-- review_of flow ;;
   match compile flow review with
   | Err refusal => refuse (Refused.Compile (refusal_debug refusal))
   | Ok def =>
       run <-- mint_run_id ;;
       root_thread <-- mint_thread_id ;;
       let hash := flow_ref def in
       let pending := PendingCommission.Mk root_thread channel sender body refs in
       let route := MkThreadRoute run None in
       let event := Event_new run 0 now ("commissioned/" +:+ run) Origin.Cli
         (EventBody.Commissioned run (b_workspace_id b) LOCAL_TENANT hash policy root_thread sender) in
       let flow_key := "flow/" +:+ flow_ref_hash hash in
       pending_bytes <-! give (encode (pending_to_vec pending)) ;;
       route_bytes <-! give (encode (route_to_vec route)) ;;
       let cas := [Cas.Mk ("pending/" +:+ run) None (Some pending_bytes);
                   Cas.Mk ("thread/" +:+ root_thread) None (Some route_bytes)] in
       _ <-! open_run 1 run event cas flow_key def ;;
       answer_with (CommissionReceipt.Mk run root_thread
         ((λ timeout, timeout_scope timeout +:+ ": " +:+ timeout_value timeout) <$>
          FlowDef.ignored_timeouts def))
   end) b.

(** ** Reading a run *)

(** A run whose commission still waits in the inbox reads as commissioned. *)
Definition with_commission (state : RunState) (first : Event) (events : list Event) : RunState :=
  match events with
  | [] => match evolve state first with
          | Ok folded => folded <| RunState.seq := 0 |>
          | Err _ => state
          end
  | _ => state
  end.

Definition UNFOLDABLE : string := "a fold that does not panic".

(** The log, or what of it reads. *)
Definition read_log (run : RunId) : BridgeCtx → BridgeCtx * result Refused (list Event * bool) :=
  loaded <-- with_store (load run 0) ;;
  match loaded with
  | Ok events => answer_with (events, false)
  | Err (StoreError.DamagedRow _ (Some _)) =>
      events <-! stored (load_readable run) ;;
      answer_with (events, true)
  | Err error => refuse (Refused.Store error)
  end.

(** The event that names the definition: the first of the log, or the one the inbox begins with. *)
Definition first_event (run : RunId) (events : list Event) b : BridgeCtx * option Event :=
  match events with
  | first :: _ => (b, Some first)
  | [] => let '(b, r) := with_store (next_input run) b in
          (b, match r with Ok found => found | Err _ => None end)
  end.

Definition read_folded (run : RunId) (def : FlowDef) (first : Event) (events : list Event)
    (damaged : bool) : RunRead :=
  match fold_events run def events with
  | Folded.Whole state =>
      MkRunRead (with_commission state first events) (if damaged then Some UNFOLDABLE else None)
  | Folded.NewerNxs state => MkRunRead state (Some "a newer nxs")
  end.

(** The fold of a run for reading. *)
Definition view (run : RunId) : BridgeCtx → BridgeCtx * result Refused (option RunRead) :=
  log <-! read_log run ;;
  let '(events, damaged) := log in
  first <-- first_event run events ;;
  match first with
  | None => answer_with None
  | Some first =>
      def <-- with_store (pinned_def first) ;;
      answer_with ((λ def, read_folded run def first events damaged) <$> def)
  end.

Definition route_of (thread : string) : BridgeCtx → BridgeCtx * result Refused ThreadRoute :=
  found <-! stored (get ("thread/" +:+ thread)) ;;
  match found with
  | None => refuse (Refused.NotARunThread thread)
  | Some bytes =>
      match route_from_slice bytes with
      | Some route => answer_with route
      | None => refuse (Refused.Store (StoreError.DamagedRow ("thread/" +:+ thread) None))
      end
  end.

Definition state_of (run : RunId) : BridgeCtx → BridgeCtx * result Refused RunState :=
  read <-! view run ;;
  match read with Some read => answer_with (read_state read) | None => refuse Refused.RunFinished end.

(** ** Posting and enqueueing *)
Definition input_key (run : RunId) b : BridgeCtx * Key :=
  let '(b, minted) := with_outside mint_ulid b in (b, "input/" +:+ run +:+ "/" +:+ minted).

(** Posts, then enqueues: a message that is posted and not enqueued is told to the caller. *)
Definition post_and_enqueue (run : RunId) (thread : string) (sender : Handle) (text : string) (key : Key)
    (now : Timestamp) (body : MessageId → EventBody) : BridgeCtx → BridgeCtx * result Refused MessageId :=
  message <-! ported (port_post thread sender text Refs_default key) ;;
  let event := Event_new run 0 now key Origin.Cli (body message) in
  r <-- with_store (enqueue run event []) ;;
  match r with
  | Ok _ => answer_with message
  | Err _ => refuse (Refused.PostedNotEnqueued message)
  end.

(** ** The verbs *)

(** Whether the slot of a session is waiting for its reply. *)
Definition owes_reply (state : SlotState) : bool :=
  match state with
  | SlotState.Starting _ | SlotState.Running _ _ | SlotState.Quiet _ _ | SlotState.Nudged _ _ => true
  | _ => false
  end.

(** A step's party answers in its thread, from that slot's own session only. *)
Definition reply (thread : string) (caller : Caller) (text : string) (flags : ReplyFlags)
    (now : Timestamp) : BridgeCtx → BridgeCtx * result Refused MessageId :=
  route <-! route_of thread ;;
  match route_session_key route with
  | None => refuse (Refused.NotARunThread thread)
  | Some session_key =>
      state <-! state_of (route_run route) ;;
      if State.is_finished state then refuse Refused.RunFinished else
      match find state session_key ≫= λ index, RunState.slots state !! index with
      | None => refuse Refused.NotWaitingForReply
      | Some record =>
          let member := slot_member (SlotRecord.slot record) in
          if negb (bool_decide (Caller.actor caller = member) &&
                   bool_decide (Caller.session caller = Some session_key))
          then refuse (Refused.NotTheSlot member)
          else if negb (owes_reply (SlotRecord.state record)) then refuse Refused.NotWaitingForReply
          else
            key <-- input_key (route_run route) ;;
            post_and_enqueue (route_run route) thread (Caller.actor caller) text key now
              (λ message, EventBody.Reply session_key message (ReplyFlags.escalate flags)
                            (ReplyFlags.needs_rework flags))
      end
  end.

(** The caller is the person who commissioned the run, at the terminal. *)
Definition check_requester (state : RunState) (caller : Caller) : result Refused unit :=
  if bool_decide (Caller.session caller = None) &&
     bool_decide (Caller.actor caller = RunState.requester state)
  then Ok tt else Err Refused.NotTheRequester.

Definition root_route (thread : string) : BridgeCtx → BridgeCtx * result Refused RunId :=
  route <-! route_of thread ;;
  match route_session_key route with
  | Some _ => refuse (Refused.NotARunThread thread)
  | None => answer_with (route_run route)
  end.

(** The questions that answers in the inbox already address. *)
Definition addressed (inputs : list (StoreResult Event)) : list Key :=
  omap (λ input, match input with
                 | Ok event => match Event.body event with
                               | EventBody.Answer question _ _ => Some question
                               | _ => None
                               end
                 | Err _ => None
                 end) inputs.

Definition is_escalation (asked : Asked) : bool :=
  match asked with Asked.Escalation _ _ => true | _ => false end.

(** The commissioner answers the oldest question no pending answer addresses. *)
Definition answer (root : string) (caller : Caller) (text : string) (accept : bool) (now : Timestamp) :
    BridgeCtx → BridgeCtx * result Refused MessageId :=
  run <-! root_route root ;;
  state <-! state_of run ;;
  if State.is_finished state then refuse Refused.RunFinished else
  _ <-! give (check_requester state caller) ;;
  waiting <-! stored (waiting_inputs run) ;;
  match find_first (λ question, negb (bool_decide (Question.id question ∈ addressed waiting)))
          (open_questions state) with
  | None => refuse Refused.NoOpenQuestion
  | Some question =>
      if accept && is_escalation (Question.asked question) then refuse Refused.AcceptAtACeilingOnly
      else
        key <-- input_key run ;;
        post_and_enqueue run root (Caller.actor caller) text key now
          (λ message, EventBody.Answer (Question.id question)
             (if accept then Disposition.Accept else Disposition.Continue) message)
  end.

(** The human exit, valid in every non-final state. *)
Definition withdraw (root : string) (caller : Caller) (text : string) (now : Timestamp) :
    BridgeCtx → BridgeCtx * result Refused (option MessageId) :=
  run <-! root_route root ;;
  state <-! state_of run ;;
  if State.is_finished state then refuse Refused.RunFinished else
  _ <-! give (check_requester state caller) ;;
  key <-- input_key run ;;
  match RunState.root_message state with
  | Some _ =>
      message <-! post_and_enqueue run root (Caller.actor caller) text key now
        (λ message, EventBody.Withdrawn (Some message) WithdrawnBy.Requester) ;;
      answer_with (Some message)
  | None =>
      _ <-! stored (enqueue run (Event_new run 0 now key Origin.Cli
                                   (EventBody.Withdrawn None WithdrawnBy.Requester)) []) ;;
      answer_with None
  end.

(** ** Status *)

(** The row a park on a poisoned input set aside, named by the event's own key. *)
Definition poisoned_key (run : RunId) (event : Event) : option Key :=
  match Event.body event with
  | EventBody.Decision (Decision.Parked _ _) => strip_prefix ("poison/" +:+ run +:+ "/") (Event.key event)
  | _ => None
  end.

Definition poisoned_row (run : RunId) (state : RunState) :
    BridgeCtx → BridgeCtx * result Refused (option Key) :=
  if from_option (λ c, bool_decide (rc_reason c = ReasonCode.PoisonInput)) false
       (RunState.condition state)
  then
    events <-! stored (load_readable run) ;;
    answer_with (head (omap (poisoned_key run) (rev events)))
  else answer_with None.

Definition attended_window : Z := 2 * Z.of_N LEASE_EXPIRY * 1000.

Definition local (run : RunId) (state : RunState) (now : Timestamp) b :
    BridgeCtx * result Refused LocalStatus :=
  let dir := v2_dir (b_layout b) in
  (seen <-! stored (host_seen (b_workspace_id b)) ;;
   live <-- with_outside (tree_state (Layout.root (b_layout b)) dir) ;;
   let live := live ≫= λ tree, if TreeState.missing tree then None else Some tree in
   refused <-! stored (get ("tree_refusal/" +:+ run)) ;;
   let refusal := refused ≫= refusal_from_slice in
   waiting <-! stored (waiting_inputs run) ;;
   flight <-- with_outside (in_flight (Layout.agent_logs (b_layout b)) (b_workspace_id b)) ;;
   answer_with (LocalStatus.Mk now
     (MkOwner (from_option (λ at_, (i64_sub now at_ <=? attended_window)%Z) false seen) seen)
     (N.min (N.of_nat (length waiting)) u32_max)
     (TreeStatus.Mk dir (RunState.base state) (RunState.found state)
        (live ≫= TreeState.commit) (live ≫= TreeState.branch) (TreeState.dirty <$> live)
        flight (RunState.parked state)
        ((λ stored, MkRefusal (StoredRefusal.reason stored) (StoredRefusal.text stored)
                      (StoredRefusal.at_ stored)) <$> refusal)))) b.

(** The projection, with what only this machine can say around it. *)
Definition status (run : RunId) (now : Timestamp) :
    BridgeCtx → BridgeCtx * result Refused (option RunStatus) :=
  read <-! view run ;;
  match read with
  | None => answer_with None
  | Some read =>
      let state := read_state read in
      let projected := Status.status state in
      waiting_for <-! match read_only read with
                      | Some why => answer_with (Some why)
                      | None =>
                          refused <-! stored (get ("effect/" +:+ run +:+ "/" +:+ CHAT_REFUSED)) ;;
                          answer_with (match refused with
                                       | Some _ => Some "the chat store"
                                       | None => RunStatus.waiting_for projected
                                       end)
                      end ;;
      poisoned <-! poisoned_row run state ;;
      let next_action := match poisoned with
                         | Some row =>
                             Some ("the input " +:+ row +:+ " could not be folded and was set aside; " +:+
                                   default "" (RunStatus.next_action projected))
                         | None => RunStatus.next_action projected
                         end in
      here <-! local run state now ;;
      answer_with (Some (RunStatus.Mk (RunStatus.v projected) (RunStatus.run projected)
        (RunStatus.flow projected) (RunStatus.seq projected) (RunStatus.finished projected)
        (RunStatus.outcome projected) (RunStatus.state projected) (RunStatus.claim projected)
        (RunStatus.steps projected) waiting_for (RunStatus.needs projected) (RunStatus.reason projected)
        next_action (Some here)))
  end.

(** ** Sessions *)
Definition live_of (run : RunId) (state : RunState) : list LiveSession :=
  omap (λ record,
    if is_live (SlotRecord.state record)
    then Some (MkLiveSession run (state_session_key state (SlotRecord.slot record))
                 (slot_member (SlotRecord.slot record)))
    else None) (RunState.slots state).

Fixpoint live_in (rows : list RunRow) : BridgeCtx → BridgeCtx * result Refused (list LiveSession) :=
  match rows with
  | [] => answer_with []
  | row :: rows =>
      read <-! view (RunRow.run row) ;;
      rest <-! live_in rows ;;
      answer_with (from_option (λ read, live_of (RunRow.run row) (read_state read)) [] read ++ rest)
  end.

(** The sessions of open runs that may have a process. *)
Definition live_sessions : BridgeCtx → BridgeCtx * result Refused (list LiveSession) :=
  rows <-! stored open_runs ;;
  live_in rows.

(** The run and the thread of a session key, when this store knows it. *)
Definition session_of (session_key : SessionKey) :
    BridgeCtx → BridgeCtx * result Refused (option ThreadRoute) :=
  thread <-! stored (get ("session/" +:+ session_key)) ;;
  match thread with
  | None => answer_with None
  | Some thread =>
      route <-! route_of (from_utf8_lossy thread) ;;
      answer_with (Some route)
  end.
End bridge.
