(* ===== verification/Logs.v ===== *)
(** * Logs that hosts write

    What a log holds when every writer is a host: the steps of a run, and the exit of a run that could not
    be folded. [rely] is what one process may assume of all the others, and every operation of a host is
    shown to keep it in [HostRuns], so that any number of hosts and clients on one store keep it
    together. *)

From S2P Require Import Prelude Text Ids Codes Events Flow State Effects Guard Input Evolve Decide Host Contract Sqlite StoreSpec SqliteFacts Runner Spec Replay Ports Execute Tick.
From stdpp Require Import options.

(** The event that closes a run with no fold. *)
Definition exit_event (run : RunId) (at_ : Timestamp) (key : Key) : Event :=
  Event_new run 0 at_ key Origin.Host
    (EventBody.Decision
       (Decision.Finished Outcome.Withdrawn (Some ReasonCode.WithdrawnByRequester))).

(** A log with the state it folds to: the steps of a run and exits between them. *)
Inductive hosted (run : RunId) (def : FlowDef) : list Event → RunState → Prop :=
| hosted_start : hosted run def [] (initial run def)
| hosted_step log s events next :
    hosted run def log s → step s events next → (log = [] → commissions events = true) →
    hosted run def (log ++ events) next
| hosted_exit log s w at_ key next :
    hosted run def log s → log ≠ [] → is_withdrawn w = true →
    fold_from s (number (length log) [w; exit_event run at_ key]) = Folded.Whole next →
    hosted run def (log ++ number (length log) [w; exit_event run at_ key]) next.

(** A log without an exit is the log of a run. *)
Definition no_exit (log : list Event) : Prop :=
  ∀ i e, log !! i = Some e → Event.origin e = Origin.Host →
    Sqlite.is_finished (Event.body e) = false.

Lemma hosted_run run def log s : hosted run def log s → no_exit log → run_of run def log s.
Proof.
  induction 1 as [|log s events next H IH Hstep Hc|log s w at_ key next H IH Hne Hw Hf]; intros Hno.
  - constructor.
  - eapply run_step; [|done|done]. apply IH. intros i e Hi. apply (Hno i). by apply lookup_app_l_Some.
  - exfalso.
    assert ((log ++ number (length log) [w; exit_event run at_ key]) !! S (length log) =
            Some ((exit_event run at_ key) <| Event.seq := N.of_nat (length log + 1) + 1 |>)) as Hi.
    { rewrite lookup_app_r by lia. replace (S (length log) - length log)%nat with 1%nat by lia.
      done. }
    by specialize (Hno _ _ Hi eq_refl).
Qed.

(** ** A log and its state *)
Lemma evolve_seq s e s' :
  evolve s e = Ok s' → RunState.seq s' = Event.seq e ∧ RunState.run s' = RunState.run s ∧
  RunState.def s' = RunState.def s.
Proof.
  unfold evolve. intros H. destruct (is_unknown_decision e); [done|].
  destruct (Event.body e) eqn:Eb; simplify_eq/=;
    try (unfold apply_input; destruct (ignored_reason s e); simpl; [done|];
         by destruct (act_input_fixed s e) as [-> ->]).
  by destruct (apply_decision_fixed (Event.at_ e) s d) as (-> & -> & _).
Qed.

Lemma fold_from_seq s log s' :
  fold_from s log = Folded.Whole s' →
  RunState.seq s' = default (RunState.seq s) (Event.seq <$> last log) ∧
  RunState.run s' = RunState.run s ∧ RunState.def s' = RunState.def s.
Proof.
  revert s; induction log as [|e log IH]; intros s H; simpl in H; [by simplify_eq|].
  destruct (evolve s e) as [s1|] eqn:E; [|done]. apply IH in H as (Hs & -> & ->).
  apply evolve_seq in E as (He & -> & ->). split; [|done].
  rewrite Hs, last_cons. destruct (last log); simpl; [done|]. by rewrite He.
Qed.

Lemma hosted_fold run def log s :
  hosted run def log s → fold_from (initial run def) log = Folded.Whole s.
Proof.
  induction 1 as [|log s events next H IH Hstep _|log s w at_ key next H IH Hne Hw Hf]; [done|..];
    rewrite fold_from_app, IH; [by apply step_fold|done].
Qed.

Lemma hosted_fixed run def log s :
  hosted run def log s → RunState.run s = run ∧ RunState.def s = def.
Proof. intros H%hosted_fold%fold_from_seq. naive_solver. Qed.

(** Events that are numbered already. *)
Lemma number_id n events :
  (∀ i e, events !! i = Some e → Event.seq e = N.of_nat (n + i) + 1) → number n events = events.
Proof.
  intros H. apply list_eq. intros i. unfold number. rewrite list_lookup_imap.
  destruct (events !! i) as [e|] eqn:E; simpl; [|done]. rewrite <-(H i e E). by destruct e.
Qed.

Lemma step_numbers s events next n :
  step s events next → RunState.seq s = N.of_nat n →
  (Z.of_nat (n + length events) <= i64_max)%Z → number n events = events.
Proof.
  intros [He _]%step_seq Hs Hb. apply number_id. intros i e Hi.
  assert (Event.seq <$> events !! i = (Event.seq <$> events) !! i) as Hl
    by by rewrite list_lookup_fmap.
  rewrite Hi, He, list_lookup_fmap, lookup_seq_lt in Hl by eauto using lookup_lt_Some.
  simpl in Hl. apply (inj Some) in Hl. rewrite Hl, Hs. apply lookup_lt_Some in Hi.
  rewrite u64_wrap_small; [lia|]. unfold i64_max, u64_modulus in *. lia.
Qed.

Lemma last_number n events e :
  last (number n events) = Some e → Event.seq e = N.of_nat (n + length events).
Proof.
  rewrite last_lookup, number_length. intros (e' & Hi & ->)%number_lookup. simpl.
  apply lookup_lt_Some in Hi. lia.
Qed.

(** The state of a log is at its end. *)
Lemma hosted_seq run def log s :
  hosted run def log s → (Z.of_nat (length log) <= i64_max)%Z → RunState.seq s = N.of_nat (length log).
Proof.
  induction 1 as [|log s events next H IH Hstep _|log s w at_ key next H IH Hne Hw Hf]; [done|..];
    rewrite length_app; intros Hb.
  - specialize (IH ltac:(lia)). assert (Hn := step_numbers _ _ _ _ Hstep IH Hb).
    apply step_fold, fold_from_seq in Hstep as (Hs & _). rewrite Hs, IH.
    destruct (last events) as [e|] eqn:El; simpl.
    + rewrite <-Hn in El. by apply last_number in El.
    + apply last_None in El as ->. simpl. by rewrite Nat.add_0_r.
  - apply fold_from_seq in Hf as [Hs _]. rewrite Hs. simpl. lia.
Qed.

(** A log that never opened: the park that set the commission itself aside as poison, and exits. *)
Inductive unopened (run : RunId) : list Event → Prop :=
| unopened_poison at_ key n :
    unopened run [Event_new run n at_ (poison_key run key) Origin.Host
      (EventBody.Decision (Decision.Parked None ReasonCode.PoisonInput))]
| unopened_withdrawn w at_ key :
    is_withdrawn w = true → unopened run (number 0 [w; exit_event run at_ key])
| unopened_exit log w at_ key :
    unopened run log → is_withdrawn w = true →
    unopened run (log ++ number (length log) [w; exit_event run at_ key]).

Lemma unopened_head run log :
  unopened run log → ∃ e rest, log = e :: rest ∧ is_commissioned (Event.body e) = false.
Proof.
  induction 1 as [at_ key n|w at_ key Hw|log w at_ key _ (e & rest & -> & He) Hw]; eexists _, _; split; try done.
  unfold is_withdrawn in Hw. cbn. by destruct (Event.body w).
Qed.

(** ** What every writer keeps

    [F] is what the hash of a flow names: a [flow/<hash>] value that reads as a definition reads as that
    one, whoever wrote it. *)
Section writers.
Context {serde : Serde} {ulid : Ulid} (F : string → option FlowDef).
Implicit Types v : View.

Definition flow_key (hash : string) : string := "flow/" +:+ hash.

Definition pinned_flows (kv : gmap string Bytes) : Prop :=
  ∀ hash bytes def,
    kv !! flow_key hash = Some bytes → flow_from_slice bytes = Some def → F hash = Some def.

(** The definition a commission names. *)
Definition flow_of (e : Event) : option FlowDef :=
  match Event.body e with
  | EventBody.Commissioned _ _ _ flow _ _ _ => F (flow_ref_hash flow)
  | _ => None
  end.

(** A log of hosts: empty, of a run with its exits, or of a run that never opened. *)
Inductive log_ok (run : RunId) : list Event → Prop :=
| log_empty : log_ok run []
| log_hosted e log def s :
    flow_of e = Some def → hosted run def (e :: log) s → log_ok run (e :: log)
| log_unopened log : unopened run log → log_ok run log.

(** A lease stays a lease, its epoch never falls, and while the epoch is the same so is the owner. *)
Definition leases_in_turn v v' : Prop :=
  ∀ run old, lease_of (View.kv v) run = Some old →
  ∃ new, lease_of (View.kv v') run = Some new ∧ Lease.epoch old <= Lease.epoch new ∧
    (Lease.epoch new = Lease.epoch old → Lease.owner_id new = Lease.owner_id old).

(** ** What becomes of an input

    A person's inputs, replies among them, come in under keys of their own. *)
Definition is_reply (body : EventBody) : bool :=
  match body with EventBody.Reply _ _ _ _ => true | _ => false end.

Definition is_input_key (key : Key) : bool := starts_with "input/" key.

Definition filed (e : Event) : Prop := is_reply (Event.body e) = true → is_input_key (Event.key e) = true.

Definition all_filed v : Prop := ∀ run, Forall filed (View.inbox v run).

(** The keys a host writes when it consumes the input under [key]: the input's own, those of its decisions,
    that of the exit it asked for, and that of the park which sets it aside as poison. *)
Inductive answers (run : RunId) (key : Key) : Key → Prop :=
| answers_itself : answers run key key
| answers_decision (index : N) : answers run key (key +:+ "/d" +:+ pretty index)
| answers_exit : answers run key (key +:+ "/finished")
| answers_poison : answers run key (poison_key run key).

(** The input under [key] waits in the inbox, or the log holds what became of it. *)
Definition arrived v (run : RunId) (key : Key) : Prop :=
  key ∈ (Event.key <$> View.inbox v run) ∨ ∃ k, answers run key k ∧ logged_key v run k.

(** One process over all that the others do. *)
Record rely v v' : Prop := {
  rely_log run : View.log v run `prefix_of` View.log v' run;
  rely_ok : (∀ run, log_ok run (View.log v run)) → ∀ run, log_ok run (View.log v' run);
  rely_inbox run :
    View.log v' run = [] → View.inbox v run `prefix_of` View.inbox v' run;
  rely_flows : pinned_flows (View.kv v) → pinned_flows (View.kv v');
  rely_leases : leases_in_turn v v';
  rely_filed : all_filed v → all_filed v';
  rely_arrived :
    all_filed v → ∀ run key, is_input_key key = false → arrived v run key → arrived v' run key;
}.

Lemma same_leases v v' :
  (∀ run, lease_of (View.kv v') run = lease_of (View.kv v) run) → leases_in_turn v v'.
Proof using Type. intros H run old Hl. exists old. by rewrite H. Qed.

Lemma leases_in_turn_trans v1 v2 v3 :
  leases_in_turn v1 v2 → leases_in_turn v2 v3 → leases_in_turn v1 v3.
Proof using Type.
  intros H12 H23 run l1 Hl1. destruct (H12 _ _ Hl1) as (l2 & Hl2 & Hle12 & Ho12).
  destruct (H23 _ _ Hl2) as (l3 & Hl3 & Hle23 & Ho23). exists l3. split_and!; [done|lia|].
  intros Heq. rewrite Ho23, Ho12; [done|lia..].
Qed.

Global Instance rely_refl : Reflexive rely.
Proof. intros v. split; try done. by apply same_leases. Qed.

Lemma logged_key_prefix v v' run key :
  View.log v run `prefix_of` View.log v' run → logged_key v run key → logged_key v' run key.
Proof using Type. intros [l Hl]. unfold logged_key. rewrite Hl, fmap_app, elem_of_app. by left. Qed.

Lemma arrived_same v v' run key :
  View.log v' run = View.log v run → View.inbox v' run = View.inbox v run →
  arrived v run key → arrived v' run key.
Proof using Type. unfold arrived, logged_key. by intros -> ->. Qed.

Global Instance rely_trans : Transitive rely.
Proof.
  intros v1 v2 v3 H12 H23. split.
  - intros run. etrans; [apply H12|apply H23].
  - intros H. by apply H23, H12.
  - intros run Hnil. etrans; [apply H12|by apply H23].
    destruct (rely_log _ _ H23 run) as [l Hl]. rewrite Hnil in Hl.
    by destruct (View.log v2 run).
  - intros H. by apply H23, H12.
  - eapply leases_in_turn_trans; [apply H12|apply H23].
  - intros H. by apply H23, H12.
  - intros Hf run key Hk Ha. apply H23; [by apply H12|done|]. by apply H12.
Qed.

Lemma same_view_rely v v' : same_view v v' → rely v v'.
Proof.
  intros [Hs Hkv]. split.
  - intros run. destruct (Hs run) as (_ & -> & _). done.
  - intros H run. destruct (Hs run) as (_ & -> & _). done.
  - intros run _. destruct (Hs run) as (_ & _ & ->). done.
  - by rewrite Hkv.
  - apply same_leases. by rewrite Hkv.
  - intros H run. destruct (Hs run) as (_ & _ & ->). done.
  - intros _ run key _. destruct (Hs run) as (_ & Hl & Hi). by apply arrived_same.
Qed.

(** ** What a host may have in memory *)
Definition opens v (run : RunId) (def : FlowDef) : Prop :=
  ∃ e, head (View.inbox v run) = Some e ∧ flow_of e = Some def.

Record cached_ok v (run : RunId) (s : RunState) : Prop := {
  cached_fold : ∃ def log,
    log `prefix_of` View.log v run ∧ hosted run def log s ∧
    (∀ e, head log = Some e → flow_of e = Some def) ∧
    (View.log v run = [] → opens v run def);
}.

Lemma flow_of_commissioned e def : flow_of e = Some def → is_commissioned (Event.body e) = true.
Proof. unfold flow_of. by destruct (Event.body e). Qed.

Lemma head_prefix {A} (l1 l2 : list A) x :
  head l1 = Some x → l1 `prefix_of` l2 → head l2 = Some x.
Proof. intros Hx [l ->]. by destruct l1. Qed.

Lemma rely_nil v v' run : rely v v' → View.log v' run = [] → View.log v run = [].
Proof.
  intros H Hnil. destruct (rely_log _ _ H run) as [l Hl]. rewrite Hnil in Hl.
  by destruct (View.log v run).
Qed.

Lemma rely_cached v v' run s : rely v v' → cached_ok v run s → cached_ok v' run s.
Proof.
  intros H [(def & log & Hp & Hh & Hf & Ho)]. split. exists def, log. split_and!; [|done..|].
  - etrans; [exact Hp|apply H].
  - intros Hnil. destruct Ho as (e & He & Hfe); [by eapply rely_nil|]. exists e. split; [|done].
    eapply head_prefix; [exact He|by apply H].
Qed.

(** While the log is empty, the input at hand is the oldest. *)
Definition at_hand v (run : RunId) (input : Event) : Prop :=
  View.log v run = [] → head (View.inbox v run) = Some input.

Lemma rely_at_hand v v' run input : rely v v' → at_hand v run input → at_hand v' run input.
Proof.
  intros H Ha Hnil. eapply head_prefix; [by apply Ha; eapply rely_nil|by apply H].
Qed.

(** ** Calls that keep it *)

(** A key that is neither a definition nor a lease. *)
Definition plain_key (key : string) : Prop :=
  (∀ hash, key ≠ flow_key hash) ∧ (∀ run, key ≠ owner_key run).

(** A write that stores nothing under the name of a definition but that definition, and no lease. *)
Definition keeps_names (item : Cas) : Prop :=
  (∀ hash bytes def, Cas.key item = flow_key hash → Cas.to item = Some bytes →
     flow_from_slice bytes = Some def → F hash = Some def) ∧
  (∀ run, Cas.key item ≠ owner_key run).

Lemma plain_keeps_names cas : Forall (λ item, plain_key (Cas.key item)) cas → Forall keeps_names cas.
Proof using Type.
  intros H. eapply Forall_impl; [exact H|]. simpl. intros item [Hf Ho]. split; [|done].
  intros hash bytes def Hk. by destruct (Hf hash).
Qed.

Lemma cas_writes_same_leases kv cas run :
  Forall keeps_names cas → lease_of (cas_writes kv cas) run = lease_of kv run.
Proof using Type.
  intros H. unfold lease_of. rewrite cas_writes_lookup; [done|].
  eapply Forall_impl; [exact H|]. simpl. intros item [_ Hn]. apply Hn.
Qed.

Lemma cas_writes_flows kv cas : Forall keeps_names cas → pinned_flows kv → pinned_flows (cas_writes kv cas).
Proof using Type.
  unfold cas_writes. revert kv; induction cas as [|item cas IH]; intros kv H Hp; simpl; [done|].
  apply Forall_cons in H as [[Hf _] H]. apply IH; [done|]. intros hash bytes def. unfold cas_write.
  destruct (Cas.to item) as [value|] eqn:Eto.
  - intros [[Hk ->]|[_ Hk]]%lookup_insert_Some; [by eapply Hf|by apply Hp].
  - intros [_ Hk]%lookup_delete_Some. by apply Hp.
Qed.

Lemma cas_rely item v r v' : plain_key (Cas.key item) → cas_contract item v r v' → rely v v'.
Proof.
  intros Hn [v1 _ _ _ Hkv Hs|]; [|by apply same_view_rely]. split.
  - intros run. destruct (Hs run) as (_ & -> & _). done.
  - intros H run. destruct (Hs run) as (_ & -> & _). done.
  - intros run _. destruct (Hs run) as (_ & _ & ->). done.
  - rewrite Hkv. by apply (cas_writes_flows _ [item]), plain_keeps_names, Forall_singleton.
  - apply same_leases. intros run. rewrite Hkv.
    by apply (cas_writes_same_leases _ [item]), plain_keeps_names, Forall_singleton.
  - intros H run. destruct (Hs run) as (_ & _ & ->). done.
  - intros _ run key _. destruct (Hs run) as (_ & Hl & Hi). by apply arrived_same.
Qed.

(** A call that touches one run. *)
Lemma rely_beside run v v' cas :
  same_beside run v v' →
  View.log v run `prefix_of` View.log v' run →
  (log_ok run (View.log v run) → log_ok run (View.log v' run)) →
  (View.log v' run = [] → View.inbox v run `prefix_of` View.inbox v' run) →
  View.kv v' = cas_writes (View.kv v) cas → Forall keeps_names cas →
  (Forall filed (View.inbox v run) → Forall filed (View.inbox v' run)) →
  (∀ key, is_input_key key = false → arrived v run key → arrived v' run key) → rely v v'.
Proof.
  intros Hs Hlog Hok Hin Hkv Hcas Hfiled Harrived.
  assert (∀ other, other = run ∨ View.log v' other = View.log v other ∧
    View.inbox v' other = View.inbox v other) as Hcase.
  { intros other. destruct (base.decide (other = run)); [by left|right]. by apply Hs. }
  split.
  - intros other. destruct (Hcase other) as [->|[-> _]]; done.
  - intros H other. destruct (Hcase other) as [->|[-> _]]; auto.
  - intros other. destruct (Hcase other) as [->|[_ ->]]; done.
  - rewrite Hkv. by apply cas_writes_flows.
  - apply same_leases. intros other. rewrite Hkv. by apply cas_writes_same_leases.
  - intros H other. destruct (Hcase other) as [->|[_ ->]]; [by apply Hfiled|done].
  - intros _ other key Hk. destruct (Hcase other) as [->|[Hl Hi]]; [by apply Harrived|].
    by apply arrived_same.
Qed.

Lemma enqueue_names_rely run event cas v r v' :
  filed event → Forall keeps_names cas → enqueue_contract run event cas v r v' → rely v v'.
Proof.
  intros Hfiled Hcas [v1 _ _ _ _ _ Hlog Hin Hkv _ Hs| | |]; try by apply same_view_rely.
  eapply (rely_beside run); try done; rewrite ?Hlog; try done.
  - intros _. rewrite Hin. by eexists.
  - rewrite Hin. intros H. apply Forall_app. split; [done|]. by apply Forall_singleton.
  - intros key _ [Hi|(k & Ha & Hk)]; [left|right].
    + rewrite Hin, fmap_app. apply elem_of_app. by left.
    + exists k. split; [done|]. unfold logged_key. by rewrite Hlog.
Qed.

Lemma enqueue_rely run event cas v r v' :
  filed event → Forall (λ item, plain_key (Cas.key item)) cas →
  enqueue_contract run event cas v r v' → rely v v'.
Proof. intros Hf Hcas%plain_keeps_names. by apply enqueue_names_rely. Qed.

Lemma filed_consumed consume (inbox : list Event) : Forall filed inbox → Forall filed (consumed consume inbox).
Proof using Type.
  rewrite !Forall_forall. intros H e [_ He]%list_elem_of_filter. by apply H.
Qed.

(** What is consumed has arrived: a key of the events is in the log. *)
Lemma consumed_arrived run consume (events : list Event) e v v' :
  (∀ k e, k ∈ consume → e ∈ events → is_input_key k = false → answers run k (Event.key e)) →
  View.log v run `prefix_of` View.log v' run →
  View.inbox v' run = consumed consume (View.inbox v run) →
  e ∈ events → logged_key v' run (Event.key e) →
  ∀ key, is_input_key key = false → arrived v run key → arrived v' run key.
Proof using Type.
  intros Hans Hlog Hin He Hlogged key Hk [Hi|(k & Ha & Hl)].
  - destruct (base.decide (key ∈ consume)) as [Hc|Hc]; [right; eauto|left]. rewrite Hin.
    apply list_elem_of_fmap in Hi as (x & -> & Hx). apply list_elem_of_fmap_2.
    by apply list_elem_of_filter.
  - right. exists k. split; [done|]. by eapply logged_key_prefix.
Qed.

Lemma append_rely run expected_seq fence events consume cas v r v' :
  append_contract run expected_seq fence events consume cas v r v' →
  events ≠ [] → Forall (λ item, plain_key (Cas.key item)) cas →
  (∀ k e, k ∈ consume → e ∈ events → is_input_key k = false → answers run k (Event.key e)) →
  (N.of_nat (length (View.log v run)) = expected_seq →
   (Z.of_nat (length (View.log v run) + length events) <= i64_max)%Z →
   log_ok run (View.log v run) →
   log_ok run (View.log v run ++ number (length (View.log v run)) events)) →
  rely v v'.
Proof.
  intros Hcontract Hne Hplain Hans Hok. assert (Hcas := plain_keeps_names _ Hplain).
  destruct Hcontract as [v1 timers [_ _ _ Hseq] _ _ _ Hlog Hlen _ Hin Hkv _ Hs
         |v1 seq e _ _ He Hkey _ _ Hlog Hin Hkv Hs| | | |];
    try by apply same_view_rely.
  - rewrite Hlog, length_app, number_length in Hlen. destruct events as [|e0 events]; [done|].
    eapply (rely_beside run); try done; rewrite ?Hlog.
    + by eexists.
    + by apply Hok.
    + by intros [_ Hnil]%app_nil.
    + rewrite Hin. apply filed_consumed.
    + eapply (consumed_arrived run consume _ e0); try done; rewrite ?Hlog; [by eexists|by left|].
      unfold logged_key. rewrite Hlog, fmap_app. apply elem_of_app. right. by left.
  - assert (logged_key v run (Event.key e)) as Hlogged by by eapply list_elem_of_lookup_2.
    eapply (rely_beside run _ _ []); try done; rewrite ?Hlog; try done.
    + intros Hnil. rewrite Hnil in Hkey. by destruct (N.to_nat _).
    + rewrite Hin. apply filed_consumed.
    + eapply (consumed_arrived run consume events e); try done; rewrite ?Hlog; try done.
      unfold logged_key. by rewrite Hlog.
Qed.

(** ** The appends of a host *)

(** The first step of a run is its commission. *)
Lemma reduce_commissions s input events next def :
  reduce s input = Some (events, next) → flow_of input = Some def → commissions events = true.
Proof.
  unfold reduce. intros H Hf. case_match; simplify_eq. apply flow_of_commissioned in Hf.
  unfold commissions, reduce_events. simpl. by destruct (Event.body input).
Qed.

(** Only a reply raises a question, so the events of any other input are written under its own key. *)
Lemma decide_key s input def d key index :
  d ∈ decide s input def → is_reply (Event.body input) = false →
  decision_key key index d = key +:+ "/d" +:+ pretty index.
Proof using Type.
  intros Hd Hb. destruct (ignored_reason s input) as [reason|] eqn:Hi.
  { unfold decide in Hd. rewrite Hi in Hd. by apply list_elem_of_singleton in Hd as ->. }
  destruct (decide_may s input def d Hi Hd) as (pre & post & _ & Hm).
  destruct d; try done; exfalso; inversion Hm as [| | | | | | | | |? ? ? ? ? ? ? ? ? (m & esc & nr & Hr)
    |? ? ? ? ? [[_ _ (? & ? & ? & ? & ? & ? & Hr & _)] _]| | | | | | | | | | |]; by rewrite Hr in Hb.
Qed.

Lemma reduce_answers s input events next run k e :
  reduce s input = Some (events, next) → filed input → k = Event.key input → e ∈ events →
  is_input_key k = false → answers run k (Event.key e).
Proof using Type.
  unfold reduce. intros H Hfiled -> He Hk. case_match; simplify_eq. unfold reduce_events in He. simpl in He.
  apply elem_of_cons in He as [->|He]; [constructor|].
  apply list_elem_of_lookup in He as (i & Hi). rewrite list_lookup_imap in Hi.
  apply fmap_Some in Hi as (d & Hd & ->). simpl. rewrite (decide_key s (logged_input s input) (RunState.def s)).
  - apply answers_decision.
  - by eapply list_elem_of_lookup_2.
  - simpl. unfold filed in Hfiled. destruct (is_reply (Event.body input)); [|done].
    rewrite Hfiled in Hk; done.
Qed.

Lemma cached_whole v run s :
  view_ok v → cached_ok v run s → RunState.seq s = N.of_nat (length (View.log v run)) →
  ∃ def, hosted run def (View.log v run) s ∧
    (∀ e, head (View.log v run) = Some e → flow_of e = Some def) ∧
    (View.log v run = [] → opens v run def).
Proof.
  intros Hv [(def & log & Hp & Hh & Hf & Ho)] Hs. exists def.
  assert (View.log v run = log) as Heq; [|rewrite Heq in *; done].
  destruct Hp as [rest Hp]. assert (length rest = 0%nat) as Hr.
  { assert (Hl := view_length v Hv run). rewrite Hp, length_app in Hl, Hs.
    rewrite (hosted_seq _ _ _ _ Hh) in Hs by lia. lia. }
  apply length_zero_iff_nil in Hr as ->. by rewrite app_nil_r in Hp.
Qed.

Lemma hosted_log_ok run def log s :
  hosted run def log s → (∀ e, head log = Some e → flow_of e = Some def) → log_ok run log.
Proof. intros Hh Hf. destruct log as [|e log]; [constructor|]. eapply log_hosted; [|done]. by apply Hf. Qed.

(** A folded input continues the log, and the folded state is the state of the new log. *)
Lemma input_log_ok v run s input events next :
  view_ok v → cached_ok v run s → at_hand v run input →
  is_decision (Event.body input) = false → reduce s input = Some (events, next) →
  RunState.seq s = N.of_nat (length (View.log v run)) →
  (Z.of_nat (length (View.log v run) + length events) <= i64_max)%Z →
  ∃ def, hosted run def (View.log v run ++ events) next ∧
    number (length (View.log v run)) events = events ∧
    (∀ e, head (View.log v run ++ events) = Some e → flow_of e = Some def).
Proof.
  intros Hv Hc Ha Hd Hr Hs Hb. destruct (cached_whole v run s) as (def & Hh & Hf & Ho); [done..|].
  assert (step s events next) as Hstep by by apply (Host.step_input s input).
  assert (View.log v run = [] → flow_of input = Some def) as Hin.
  { intros Hnil. destruct (Ho Hnil) as (e & He & Hfe). rewrite (Ha Hnil) in He. by simplify_eq. }
  exists def. split_and!.
  - eapply hosted_step; [done..|]. intros Hnil. by eapply reduce_commissions; [|apply Hin].
  - by eapply step_numbers.
  - destruct (View.log v run) as [|e0 l] eqn:El; [|by intros e [= <-]; apply Hf].
    unfold reduce in Hr. case_match; simplify_eq. simpl. intros e [= <-].
    specialize (Hin eq_refl). unfold flow_of in *. simpl. done.
Qed.

(** So does the park of a poisoned row, unless it is the commission itself. *)
Lemma poison_log_ok v run s at_ key event :
  view_ok v → cached_ok v run s → log_ok run (View.log v run) →
  RunState.seq s = N.of_nat (length (View.log v run)) →
  event = poison_event s at_ key →
  log_ok run (View.log v run ++ number (length (View.log v run)) [event]).
Proof.
  intros Hv Hc Hok Hs ->. destruct (View.log v run) as [|e0 l] eqn:El.
  { apply log_unopened. assert (RunState.run s = run) as Hrun.
    { destruct Hc as [(def & log & _ & Hh & _)]. by apply hosted_fixed in Hh as [-> _]. }
    unfold poison_event. rewrite Hrun. apply unopened_poison. }
  rewrite <-El in *. destruct (cached_whole v run s) as (def & Hh & Hf & Ho); [done..|].
  destruct (evolve s (poison_event s at_ key)) as [next|] eqn:Ee; [|done].
  rewrite number_id.
  - eapply hosted_log_ok.
    + eapply hosted_step; [exact Hh|by eapply step_poison|]. by rewrite El.
    + rewrite El. intros e [= <-]. apply Hf. by rewrite El.
  - intros i e Hi. destruct i as [|i]; [|done]. injection Hi as <-. simpl.
    assert (Hl := view_length v Hv run).
    rewrite Hs, u64_succ_small, Nat.add_0_r; [done|]. lia.
Qed.

(** The exit closes a log of any kind. *)
Lemma exit_log_ok run log w at_ key n :
  log_ok run log → is_withdrawn w = true → n = length log →
  log_ok run (log ++ number n [w; exit_event run at_ key]).
Proof.
  intros Hok Hw ->. destruct Hok as [|e log def s Hf Hh|log Hl].
  - apply log_unopened. by apply unopened_withdrawn.
  - destruct (fold_from s (number (length (e :: log)) [w; exit_event run at_ key]))
      as [next|next] eqn:Ef.
    + eapply (log_hosted run e (log ++ _)); [done|]. by eapply (hosted_exit run def (e :: log)).
    + exfalso. unfold number in Ef. simpl in Ef. unfold evolve at 1 in Ef.
      unfold is_withdrawn in Hw. destruct (Event.body w) eqn:Eb; try done.
      unfold is_unknown_decision in Ef. simpl in Ef. rewrite Eb in Ef. done.
  - by apply log_unopened, unopened_exit.
Qed.
End writers.

(** ** Leases

    The lease of a run is a row other hosts write too. What [acquire_or_renew] answers holds in the store it
    leaves, and what it writes is what every host relies on of the others: the epochs of a run rise, and an
    epoch has one owner. The theorem about hosts that take the same run one after the other is here too. *)
Lemma u64_succ_ne n : u64_succ n ≠ n.
Proof.
  unfold u64_succ, u64_modulus. intros H.
  assert ((n + 1) mod 18446744073709551616 < 18446744073709551616) by (apply N.mod_lt; done).
  destruct (base.decide (n + 1 < 18446744073709551616)) as [Hlt|Hge].
  - rewrite N.mod_small in H by done. lia.
  - assert (n + 1 = 18446744073709551616) as E by lia. rewrite E, N.Div0.mod_same in H. lia.
Qed.

Section leases.
Context {serde : Serde} {serde_laws : SerdeLaws serde} {ulid : Ulid} (F : string → option FlowDef).
Context {S : Type} {store : RunStore S} {laws : RunStoreLaws S (rely F)}.
Local Set Default Proof Using "laws".

(** The lease that will be written over what was read: of the caller, and at a new epoch unless the caller
    holds it already. *)
Lemma renewal_write key current owner now epoch :
  renewal key current owner now = Ok (Renewal.Write epoch) →
  ∀ bytes held, current = Some bytes → lease_from_slice bytes = Some held →
  epoch = Lease.epoch held → Lease.owner_id held = owner.
Proof using Type.
  unfold renewal, decode_lease. intros H bytes held -> Hh. rewrite Hh in H. simpl in H.
  repeat case_match; simplify_eq; [by intros ?%u64_succ_ne|].
  by rewrite negb_false_iff, bool_decide_eq_true in *.
Qed.

Lemma renewal_keep key current owner now held :
  renewal key current owner now = Ok (Renewal.Keep held) →
  ∃ bytes, current = Some bytes ∧ lease_from_slice bytes = Some held ∧ Lease.owner_id held = owner.
Proof using Type.
  unfold renewal, decode_lease. intros H. destruct current as [bytes|]; [|done].
  destruct (lease_from_slice bytes) as [l|] eqn:El; simpl in H; [|done]. repeat case_match; simplify_eq.
  eexists. split_and!; [done..|]. by rewrite negb_false_iff, bool_decide_eq_true in *.
Qed.

(** A compare-and-set of a lease that answers in turn. *)
Lemma lease_cas_rely run current lease bytes v v' r :
  lease_to_vec lease = Some bytes →
  (∀ old, current ≫= lease_from_slice = Some old →
     Lease.epoch lease = Lease.epoch old → Lease.owner_id old = Lease.owner_id lease) →
  cas_contract (Cas.Mk (owner_key run) current (Some bytes)) v r v' →
  rely F v v' ∧ (r = Ok tt → lease_of (View.kv v') run = Some lease).
Proof using serde_laws.
  intros Hb Hown [v1 Hfrom Hkeeps _ Hkv Hs|]; [|by split; [apply same_view_rely|]].
  simpl in Hfrom.
  assert (lease_of (View.kv v1) run = Some lease) as Hnew.
  { unfold lease_of. rewrite Hkv. unfold cas_write. simpl. rewrite lookup_insert_eq. simpl.
    by apply lease_reads_back. }
  assert (View.kv v1 = <[owner_key run := bytes]> (View.kv v)) as Hkv' by by rewrite Hkv.
  split; [|done]. split.
  - intros other. by destruct (Hs other) as (_ & -> & _).
  - intros H other. by destruct (Hs other) as (_ & -> & _).
  - intros other _. by destruct (Hs other) as (_ & _ & ->).
  - intros Hp hash b def. rewrite Hkv', lookup_insert_ne; [apply Hp|done].
  - intros other old Hold. destruct (base.decide (other = run)) as [->|Hne].
    + exists lease. assert (current ≫= lease_from_slice = Some old) as Hcur.
      { unfold lease_of in Hold. by rewrite Hfrom in Hold. }
      destruct Hkeeps as (b & new & Hto & Hnew' & Hle); [apply starts_with_app|]. simpl in *.
      assert (new = lease) as -> by (apply lease_reads_back in Hb; simplify_eq; congruence).
      split_and!; [done|by apply Hle|]. intros Heq. by rewrite (Hown _ Hcur Heq).
    + exists old. unfold lease_of. rewrite Hkv', lookup_insert_ne; [by split_and!|].
      unfold owner_key. by intros ->%(inj (String.append OWNER_PREFIX)).
  - intros H other. by destruct (Hs other) as (_ & _ & ->).
  - intros _ other key _. destruct (Hs other) as (_ & Hl & Hi). by apply arrived_same.
Qed.

(** What a host is told of the lease of a run. *)
Lemma acquire_or_renew_law run owner now s s' r :
  valid s → acquire_or_renew run owner now s = (s', r) →
  valid s' ∧ rely F (observe s) (observe s') ∧
  ∀ lease, r = Ok lease → Lease.owner_id lease = owner ∧ lease_of (View.kv (observe s')) run = Some lease.
Proof using laws serde_laws.
  intros Hv H. unfold acquire_or_renew in H. destruct (get (owner_key run) s) as [s1 got] eqn:Eg.
  apply get_law in Eg as (Hv1 & Hr1 & Hgot); [|done].
  destruct got as [current|e]; simpl in H; [|simplify_eq; by split_and!].
  specialize (Hgot _ eq_refl).
  destruct (renewal (owner_key run) current owner now) as [[epoch|held]|e] eqn:Er; simpl in H;
    [|injection H as <- <-|simplify_eq; by split_and!].
  - destruct (lease_to_vec _) as [bytes|] eqn:Eb; simpl in H; [|simplify_eq; by split_and!].
    destruct (compare_and_set _ _ _ s1) as [s2 r2] eqn:Ec. injection H as <- <-.
    apply cas_law in Ec as (Hv2 & v & Ho & Hvok & Hc); [|done].
    apply (lease_cas_rely run current _ bytes v (observe s2) r2 Eb) in Hc as [Hrely Hnew].
    + split_and!; [done|by etrans; [|etrans]|]. intros lease Hl. destruct r2 as [[]|]; simplify_eq/=.
      split; [done|by apply Hnew].
    + intros old Hold Heq. destruct current as [b|]; [|done].
      exact (renewal_write _ _ _ _ _ Er b old eq_refl Hold Heq).
  - split_and!; [done..|]. intros lease [= <-]. apply renewal_keep in Er as (b & -> & Hb & Hown).
    split; [done|]. unfold lease_of. by rewrite <-Hgot.
Qed.
End leases.
