(* ===== verification/HostRuns.v ===== *)
(** * Hosts write runs

    Every operation of a host over a store keeps what hosts rely on of each other: logs only grow, by the
    steps of a run or by the exit of one that could not be folded, and what a host has in memory is the
    fold of a part of the log. The proofs use the store through [RunStoreLaws] alone. *)

From S2P Require Import Prelude Text Ids Codes Events Flow State Effects Guard Input Evolve Decide Host Ports Contract Sqlite StoreSpec SqliteFacts Runner Spec Replay Logs.
From stdpp Require Import options.

(** The calls of the SQLite store beside the trait only read. *)
Class InherentLaws {serde : Serde} {ulid : Ulid} (S : Type) `{RunStore S} {inherent : InherentStore S}
    (others : View → View → Prop) {laws : RunStoreLaws S others} := {
  waiting_inputs_law run s s' r :
    valid s → waiting_inputs run s = (s', r) → valid s' ∧ others (observe s) (observe s');
  load_readable_law run s s' r :
    valid s → load_readable run s = (s', r) → valid s' ∧ others (observe s) (observe s');
}.

Global Instance sqlite_inherent_laws {serde : Serde} {laws : SerdeLaws serde} {ulid : Ulid}
    (others : View → View → Prop) {others_refl : Reflexive others} :
  InherentLaws SqliteRunStore others.
Proof.
  split; intros * Hv H; simpl in H; eapply turn_spec in H as (fault & t & Hok & Ho & Hop & Hs);
    try done; apply query_same in Hop as [Ht _]; simpl; unfold connected; by rewrite Ht.
Qed.

Section host_runs.
Local Set Default Proof Using "Type*".
Context {serde : Serde} {ulid : Ulid} (F : string → option FlowDef).
Context {S O : Type} {store : RunStore S} {laws : RunStoreLaws S (rely F)}.
Implicit Types (h : @Host S O) (run : RunId).

Definition seen h : View := observe (h_store h).

Record good h : Prop := {
  good_valid : valid (h_store h);
  good_logs run : log_ok F run (View.log (seen h) run);
  good_flows : pinned_flows F (View.kv (seen h));
  good_filed : all_filed (seen h);
  good_cache run s :
    RunCache.state (cache run h) = Some s → cached_ok F (seen h) run s;
}.

(** One operation of a host: it leaves a good host, and all it did to the store is allowed. *)
Definition keeps h h' : Prop := good h' ∧ rely F (seen h) (seen h').

Lemma keeps_self h : good h → keeps h h.
Proof. intros. by split. Qed.

Lemma keeps_trans h1 h2 h3 : keeps h1 h2 → keeps h2 h3 → keeps h1 h3.
Proof. intros [_ H12] [Hg H23]. split; [done|]. by etrans. Qed.

Lemma keeps_cached h h' run s : keeps h h' → cached_ok F (seen h) run s → cached_ok F (seen h') run s.
Proof. intros [_ H]. by apply rely_cached. Qed.

Lemma keeps_at_hand h h' run input : keeps h h' → at_hand (seen h) run input → at_hand (seen h') run input.
Proof. intros [_ H]. by eapply rely_at_hand. Qed.

(** ** Calls *)
Lemma call_eq {A} (op : S → S * A) h h' a :
  call op h = (h', a) → op (h_store h) = (h_store h', a) ∧ h_runs h' = h_runs h.
Proof using Type. unfold call. destruct (op (h_store h)) as [s a'] eqn:E. intros. by simplify_eq. Qed.

Lemma call_keeps {A} (op : S → S * A) h h' a :
  good h → call op h = (h', a) → valid (h_store h') → rely F (seen h) (seen h') → keeps h h'.
Proof.
  intros Hg [_ Hr]%call_eq Hv Hrely. split; [|done]. split; [done|..].
  - apply (rely_ok _ _ _ Hrely), Hg.
  - apply (rely_flows _ _ _ Hrely), Hg.
  - apply (rely_filed _ _ _ Hrely), Hg.
  - intros run s. unfold cache. rewrite Hr. intros Hs. eapply rely_cached; [done|]. by apply Hg.
Qed.

Lemma get_keeps key h h' r :
  good h → call (get key) h = (h', r) →
  keeps h h' ∧ ∀ found, r = Ok found → found = View.kv (seen h') !! key.
Proof.
  intros Hg H. destruct (call_eq _ _ _ _ H) as [Hop _].
  apply get_law in Hop as (Hv & Hrely & Hr); [|apply Hg]. split; [|done]. by eapply call_keeps.
Qed.

Lemma next_input_keeps run h h' r :
  good h → call (next_input run) h = (h', r) →
  keeps h h' ∧ ∀ found, r = Ok found → found = head (View.inbox (seen h') run).
Proof.
  intros Hg H. destruct (call_eq _ _ _ _ H) as [Hop _].
  apply next_input_law in Hop as (Hv & Hrely & Hr); [|apply Hg]. split; [|done]. by eapply call_keeps.
Qed.

Lemma load_keeps run h h' r :
  good h → call (load run 0) h = (h', r) →
  keeps h h' ∧ ∀ events, r = Ok events → events = View.log (seen h') run.
Proof.
  intros Hg H. destruct (call_eq _ _ _ _ H) as [Hop _].
  apply load_law in Hop as (Hv & Hrely & Hr); [|apply Hg]. split; [|done]. by eapply call_keeps.
Qed.

Lemma cas_keeps key from to h h' r :
  good h → plain_key key → call (compare_and_set key from to) h = (h', r) → keeps h h'.
Proof.
  intros Hg Hk H. destruct (call_eq _ _ _ _ H) as [Hop _].
  apply cas_law in Hop as (Hv & v & Ho & _ & Hc); [|apply Hg]. eapply call_keeps; [done..|].
  unfold seen. etrans; [exact Ho|].
  by eapply (cas_rely F (Cas.Mk key from to)).
Qed.

Lemma enqueue_keeps run event h h' r :
  good h → filed event → call (enqueue run event []) h = (h', r) → keeps h h'.
Proof.
  intros Hg Hf H. destruct (call_eq _ _ _ _ H) as [Hop _].
  apply enqueue_law in Hop as (Hv & v & Ho & _ & Hc); [|apply Hg]. eapply call_keeps; [done..|].
  unfold seen. etrans; [exact Ho|]. by eapply (enqueue_rely F _ _ []).
Qed.

(** ** The cache *)
Lemma cache_set run c h run' :
  cache run' (set_cache run c h) = if base.decide (run' = run) then c else cache run' h.
Proof.
  unfold cache, set_cache. simpl. case_decide; subst; [by rewrite lookup_insert_eq|].
  by rewrite lookup_insert_ne.
Qed.

Lemma set_cache_keeps run c h :
  good h → (∀ s, RunCache.state c = Some s → cached_ok F (seen h) run s) →
  keeps h (set_cache run c h).
Proof.
  intros Hg Hc. split; [|done]. split; try apply Hg.
  intros run' s. rewrite cache_set. case_decide; subst; [apply Hc|apply Hg].
Qed.

Lemma mark_read_only_keeps run why h : good h → keeps h (mark_read_only run why h).
Proof. intros Hg. by apply set_cache_keeps. Qed.

Lemma forget_keeps run h : good h → keeps h (set_cached_state run None h).
Proof. intros Hg. by apply set_cache_keeps. Qed.

Lemma remember_keeps run s h :
  good h → cached_ok F (seen h) run s → keeps h (set_cached_state run (Some s) h).
Proof. intros Hg Hs. apply set_cache_keeps; [done|]. by intros ? [= <-]. Qed.

Lemma drop_run_keeps run h : good h → keeps h (drop_run run h).
Proof.
  intros Hg. split; [|done]. split; try apply Hg. intros run' s. unfold cache, drop_run. simpl.
  destruct (base.decide (run' = run)) as [->|]; [by rewrite lookup_delete_eq|].
  rewrite lookup_delete_ne by done. apply Hg.
Qed.

(** What a tick reports and asks is not what it keeps. *)
Lemma same_parts_keeps h h' :
  good h → h_store h' = h_store h → h_runs h' = h_runs h → keeps h h'.
Proof.
  intros Hg Hs Hr. unfold keeps, seen. rewrite Hs. split; [|done].
  split; unfold seen; rewrite Hs; try apply Hg.
  intros run s. unfold cache. rewrite Hr. apply Hg.
Qed.

Lemma note_store_error_keeps error h : good h → keeps h (note_store_error error h).
Proof. intros. apply same_parts_keeps; [done|..]; by destruct error. Qed.

Lemma append_refused_keeps run error h : good h → keeps h (append_refused run error h).
Proof.
  intros Hg. unfold append_refused.
  destruct error; auto using drop_run_keeps, forget_keeps, mark_read_only_keeps,
    note_store_error_keeps.
Qed.

(** ** The state of a run *)
Lemma pinned_def_keeps first h h' def :
  good h → call (pinned_def first) h = (h', def) →
  keeps h h' ∧ ∀ d, def = Some d → flow_of F first = Some d.
Proof.
  intros Hg H. destruct (call_eq _ _ _ _ H) as [Hop Hr]. unfold pinned_def in Hop.
  destruct (Event.body first) eqn:Eb; try (simplify_eq; split; [|done];
    apply same_parts_keeps; [done|congruence|done]).
  destruct (get _ (h_store h)) as [s r] eqn:Eg. injection Hop as Hs Hd.
  apply get_law in Eg as (Hv & Hrely & Hfound); [|apply Hg]. rewrite Hs in *.
  assert (keeps h h') as Hk by by eapply call_keeps.
  split; [done|]. intros d ->. unfold flow_of. rewrite Eb.
  destruct r as [[bytes|]|]; try done. specialize (Hfound _ eq_refl).
  destruct Hk as [Hg' _]. by eapply (good_flows _ Hg').
Qed.

(** A log that folds whole is the state of that log. *)
Lemma fold_events_cached h run first events def s :
  good h → flow_of F first = Some def → fold_events run def events = Folded.Whole s →
  events `prefix_of` View.log (seen h) run → log_ok F run events →
  (events = [] → at_hand (seen h) run first) → (∀ e, head events = Some e → e = first) →
  cached_ok F (seen h) run s.
Proof.
  intros Hg Hf Hfold Hp Hok Ha Hhead. split. exists def, events.
  assert (hosted run def events s) as Hh.
  { destruct Hok as [|e log def' s' Hfe Hh|log (e & rest & -> & Hc)%unopened_head].
    - unfold fold_events in Hfold. simpl in Hfold. simplify_eq. constructor.
    - rewrite (Hhead e eq_refl), Hf in Hfe. simplify_eq. apply hosted_fold in Hh as Hh'.
      unfold fold_events in Hfold. rewrite Hh' in Hfold. by simplify_eq.
    - rewrite (Hhead e eq_refl) in Hc. apply flow_of_commissioned in Hf. congruence. }
  split_and!; [done|done|..].
  - intros e He. by rewrite (Hhead e He).
  - intros Hnil. rewrite Hnil in Hp. destruct Hp as [l Hl]. destruct events; [|done].
    exists first. split; [by apply Ha|done].
Qed.

Lemma fold_pinned_keeps run first events h h' r :
  good h → events `prefix_of` View.log (seen h) run → log_ok F run events →
  (events = [] → at_hand (seen h) run first) → (∀ e, head events = Some e → e = first) →
  fold_pinned run first events h = (h', r) →
  keeps h h' ∧ ∀ s, r = Some s → cached_ok F (seen h') run s.
Proof.
  intros Hg Hp Hok Ha Hhead H. unfold fold_pinned in H.
  destruct (call (pinned_def first) h) as [h1 def] eqn:E.
  apply pinned_def_keeps in E as [Hk Hdef]; [|done]. destruct Hk as [Hg1 Hr1].
  assert (keeps h h1) as Hk1 by done. destruct def as [def|].
  - specialize (Hdef _ eq_refl). unfold fold_whole in H.
    destruct (fold_events run def events) as [s|s] eqn:Ef; simplify_eq.
    + assert (cached_ok F (seen h1) run s) as Hc.
      { eapply fold_events_cached; try done.
        - etrans; [exact Hp|apply Hr1].
        - intros Hnil. eapply rely_at_hand; [exact Hr1|by apply Ha]. }
      split; [eapply keeps_trans; [done|by apply remember_keeps]|]. by intros ? [= <-].
    + split; [|done]. eapply keeps_trans; [done|by apply mark_read_only_keeps].
  - simplify_eq. split; [|done]. eapply keeps_trans; [done|by apply mark_read_only_keeps].
Qed.

Lemma loaded_state_keeps row h h' r :
  good h → loaded_state row h = (h', r) →
  keeps h h' ∧ ∀ s, r = Some s → cached_ok F (seen h') (RunRow.run row) s.
Proof.
  intros Hg H. unfold loaded_state in H. set (run := RunRow.run row) in *.
  destruct (RunCache.read_only (cache run h)); [simplify_eq; by auto using keeps_self|].
  destruct (RunCache.state (cache run h)) as [s|] eqn:Es.
  { simplify_eq. split; [by apply keeps_self|]. intros ? [= <-]. by apply Hg. }
  destruct (call (load run 0) h) as [h1 r1] eqn:E. apply load_keeps in E as [Hk Hload]; [|done].
  assert (Hg1 := proj1 Hk). destruct r1 as [events|error].
  2:{ assert (keeps h (mark_read_only run ReadOnly.Unfoldable h1))
        by (eapply keeps_trans; [exact Hk|by apply mark_read_only_keeps]).
      assert (keeps h (note_store_error error h1))
        by (eapply keeps_trans; [exact Hk|by apply note_store_error_keeps]).
      repeat case_match; by simplify_eq. }
  specialize (Hload _ eq_refl) as ->. unfold fold_loaded in H. fold run in H.
  destruct (View.log (seen h1) run) as [|first events] eqn:El.
  - destruct (call (next_input run) h1) as [h2 r2] eqn:E2.
    apply next_input_keeps in E2 as [Hk2 Hin]; [|done]. assert (Hg2 := proj1 Hk2).
    assert (keeps h h2) as Hk02 by by eapply keeps_trans.
    destruct r2 as [[event|]|error].
    + eapply fold_pinned_keeps in H as [Hk3 Hc]; [|done|apply prefix_nil|constructor| |done].
      * split; [by eapply keeps_trans|done].
      * intros _ _. by rewrite <-(Hin _ eq_refl).
    + by simplify_eq.
    + simplify_eq. split; [|done]. eapply keeps_trans; [done|by apply note_store_error_keeps].
  - eapply fold_pinned_keeps in H as [Hk3 Hc]; [| |by rewrite El| | |].
    + split; [by eapply keeps_trans|done].
    + done.
    + rewrite <-El. apply Hg1.
    + done.
    + by intros e [= <-].
Qed.

(** ** The compare-and-sets of an append *)
Definition reads (s s' : S) : Prop := valid s' ∧ rely F (observe s) (observe s').

Lemma reads_trans s1 s2 s3 : reads s1 s2 → reads s2 s3 → reads s1 s3.
Proof. intros [_ H12] [Hv H23]. split; [done|]. by etrans. Qed.

Definition off_flows (r : StoreResult (list Cas)) : Prop :=
  ∀ cas, r = Ok cas → Forall (λ item, plain_key (Cas.key item)) cas.

Lemma delete_if_present_reads key s s' r :
  valid s → plain_key key → delete_if_present key s = (s', r) → reads s s' ∧ off_flows r.
Proof.
  unfold delete_if_present. intros Hv Hk H. destruct (get key s) as [s1 found] eqn:E.
  apply get_law in E as (Hv' & Hr & _); [|done]. simplify_eq. split; [done|]. intros cas Hcas.
  destruct found as [[value|]|]; simplify_eq; by rewrite ?Forall_singleton, ?Forall_nil.
Qed.

Lemma pending_plain_key run : plain_key (pending_key run).
Proof. by split. Qed.
Lemma tree_refusal_plain_key run : plain_key (tree_refusal_key run).
Proof. by split. Qed.
Lemma poison_plain_key run key : plain_key (poison_key run key).
Proof. by split. Qed.

Lemma input_cas_reads run state events s s' r :
  valid s → input_cas run state events s = (s', r) → reads s s' ∧ off_flows r.
Proof.
  intros Hv H. unfold input_cas in H.
  assert (reads s s ∧ off_flows (Ok [])) as Hnone by (split; [done|by intros ? [= <-]]).
  destruct (Event.body <$> head events) as [body|]; [|by simplify_eq].
  destruct body; try by simplify_eq.
  - destruct (is_ignored events); [by simplify_eq|].
    by apply delete_if_present_reads in H; [|done|apply pending_plain_key].
  - destruct fact; try by simplify_eq. destruct (is_ignored events); [by simplify_eq|].
    destruct (_ ≫= _) as [record|]; [|by simplify_eq].
    destruct (get _ s) as [s1 found] eqn:E. apply get_law in E as (Hv' & Hr & _); [|done].
    simplify_eq. split; [done|]. intros cas Hcas. destruct found as [found|]; simplify_eq.
    case_bool_decide; by rewrite ?Forall_singleton, ?Forall_nil.
Qed.

Lemma finished_cas_reads run events s s' r :
  valid s → finished_cas run events s = (s', r) → reads s s' ∧ off_flows r.
Proof.
  intros Hv H. unfold finished_cas in H.
  destruct (holds_finished events); [|simplify_eq; split; [done|by intros ? [= <-]]].
  destruct (delete_if_present (pending_key run) s) as [s1 a] eqn:E1.
  apply delete_if_present_reads in E1 as [Hr1 Ha]; [|done|apply pending_plain_key].
  destruct a as [a|]; [|simplify_eq; by split].
  destruct (delete_if_present (tree_refusal_key run) s1) as [s2 b] eqn:E2.
  apply delete_if_present_reads in E2 as [Hr2 Hb]; [|apply Hr1|apply tree_refusal_plain_key].
  simplify_eq. split; [by eapply reads_trans|]. intros cas Hcas. destruct b as [b|]; simplify_eq.
  apply Forall_app. split; [by apply Ha|by apply Hb].
Qed.

Lemma fold_cas_reads run state events key s s' r :
  valid s → fold_cas run state events key s = (s', r) → reads s s' ∧ off_flows r.
Proof.
  intros Hv H. unfold fold_cas in H.
  destruct (input_cas run state events s) as [s1 a] eqn:E1.
  apply input_cas_reads in E1 as [Hr1 Ha]; [|done].
  destruct a as [a|]; [|simplify_eq; by split].
  destruct (finished_cas run events s1) as [s2 b] eqn:E2.
  apply finished_cas_reads in E2 as [Hr2 Hb]; [|apply Hr1].
  destruct b as [b|]; [|simplify_eq; split; [by eapply reads_trans|done]].
  destruct (delete_if_present (poison_key run key) s2) as [s3 c] eqn:E3.
  apply delete_if_present_reads in E3 as [Hr3 Hc]; [|apply Hr2|apply poison_plain_key].
  simplify_eq. split; [by eapply reads_trans; [eapply reads_trans|]|].
  intros cas Hcas. destruct c as [c|]; simplify_eq.
  rewrite !Forall_app. split_and!; [by apply Ha|by apply Hb|by apply Hc].
Qed.

Lemma call_reads {A} (op : S → S * A) h h' a :
  good h → call op h = (h', a) → reads (h_store h) (h_store h') → keeps h h'.
Proof. intros Hg H [Hv Hr]. by eapply call_keeps. Qed.

(** ** The appends of a host *)
Lemma append_input_keeps run state epoch input events next cas h h' r :
  good h → cached_ok F (seen h) run state → at_hand (seen h) run input →
  is_decision (Event.body input) = false → filed input → reduce state input = Some (events, next) →
  Forall (λ item, plain_key (Cas.key item)) cas →
  call (append run (RunState.seq state) epoch events [Event.key input] cas) h = (h', r) →
  keeps h h' ∧ ∀ appended, r = Ok appended → cached_ok F (seen h') run next.
Proof.
  intros Hg Hc Ha Hd Hfiled Hred Hcas H. destruct (call_eq _ _ _ _ H) as [Hop _].
  apply append_law in Hop as (Hv & v & Ho & Hvok & Happ); [|apply Hg].
  assert (cached_ok F v run state) as Hcv by by eapply rely_cached.
  assert (at_hand v run input) as Hav by by eapply rely_at_hand.
  assert (events ≠ []) as Hne.
  { unfold reduce in Hred. case_match; by simplify_eq. }
  split.
  - eapply call_keeps; [done..|]. unfold seen. etrans; [exact Ho|].
    eapply append_rely; [exact Happ|done|done| |].
    { intros k e ->%list_elem_of_singleton He. by eapply reduce_answers. }
    intros Hs Hb _. symmetry in Hs.
    destruct (input_log_ok F v run state input events next) as (def & Hh & Hn & Hf); [done..|].
    rewrite Hn. by eapply hosted_log_ok.
  - intros appended ->. inversion Happ as [v' timers Had _ _ _ Hlog Hlen| | | | |]; subst v'.
    destruct Had as [_ _ _ Hs]. symmetry in Hs. rewrite Hlog, length_app, number_length in Hlen.
    destruct (input_log_ok F v run state input events next) as (def & Hh & Hn & Hf); [done..|].
    split. exists def, (View.log v run ++ events). rewrite Hn in Hlog. unfold seen.
    rewrite Hlog. split_and!; [done..|]. intros [_ ?]%app_nil. done.
Qed.

Lemma append_poison_keeps run state epoch at_ key event cas h h' r :
  good h → RunState.run state = run → cached_ok F (seen h) run state → event = poison_event state at_ key →
  Forall (λ item, plain_key (Cas.key item)) cas →
  call (append run (RunState.seq state) epoch [event] [key] cas) h = (h', r) → keeps h h'.
Proof.
  intros Hg Hrun Hc He Hcas H. destruct (call_eq _ _ _ _ H) as [Hop _].
  apply append_law in Hop as (Hv & v & Ho & Hvok & Happ); [|apply Hg].
  assert (cached_ok F v run state) as Hcv by by eapply rely_cached.
  eapply call_keeps; [done..|]. unfold seen. etrans; [exact Ho|].
  eapply append_rely; [exact Happ|done|done| |].
  { intros k e ->%list_elem_of_singleton ->%list_elem_of_singleton _. rewrite He. simpl. rewrite Hrun.
    apply answers_poison. }
  intros Hs _ Hok. symmetry in Hs.
  by eapply poison_log_ok.
Qed.

Lemma append_exit_keeps run n epoch w f at_ key input_key cas h h' r :
  good h → is_withdrawn w = true → f <| Event.seq := 0 |> = exit_event run at_ key →
  input_key = Event.key w → key = Event.key w +:+ "/finished" →
  Forall (λ item, plain_key (Cas.key item)) cas →
  call (append run n epoch [w; f] [input_key] cas) h = (h', r) → keeps h h'.
Proof.
  intros Hg Hw Hf -> Hkey Hcas H. destruct (call_eq _ _ _ _ H) as [Hop _].
  apply append_law in Hop as (Hv & v & Ho & Hvok & Happ); [|apply Hg].
  eapply call_keeps; [done..|]. unfold seen. etrans; [exact Ho|].
  eapply append_rely; [exact Happ|done|done| |].
  { intros k e ->%list_elem_of_singleton He _. apply elem_of_cons in He as [->|He]; [constructor|].
    apply list_elem_of_singleton in He as ->.
    assert (Event.key f = key) as ->; [|rewrite Hkey; apply answers_exit].
    by apply (f_equal Event.key) in Hf. }
  intros _ _ Hok.
  assert (∀ m, number m [w; f] = number m [w; exit_event run at_ key]) as ->.
  { intros m. rewrite <-Hf. done. }
  by apply exit_log_ok.
Qed.

End host_runs.

(** ** The operations *)
Section operations.
Local Set Default Proof Using "laws".
Context {serde : Serde} {ulid : Ulid} (F : string → option FlowDef).
Context {S O : Type} {store : RunStore S} {inherent : InherentStore S} {outside : Outside O}.
Context {laws : RunStoreLaws S (rely F)} {inherent_laws : InherentLaws S (rely F)}.
Implicit Types (h : @Host S O) (run : RunId).

Local Abbreviation good := (good F).
Local Abbreviation keeps := (keeps F).
Local Abbreviation seen := (seen F).

Lemma ask_keeps {A} (op : O → O * A) h h' a : good h → ask op h = (h', a) → keeps h h'.
Proof.
  unfold ask. destruct (op (h_outside h)). intros Hg ?. simplify_eq. by apply same_parts_keeps.
Qed.

Lemma may_work_keeps turn_owed h h' b : good h → may_work  turn_owed h = (h', b) → keeps h h'.
Proof.
  unfold may_work. intros Hg H. destruct (TickReport.busy _); [simplify_eq; by apply keeps_self|].
  destruct (ask budget_gone h) as [h1 gone] eqn:E. apply ask_keeps in E as Hk; [|done].
  destruct gone; simplify_eq; [|done]. eapply keeps_trans; [exact Hk|].
  apply same_parts_keeps; [apply Hk|done..].
Qed.

Lemma now_keeps h h' at_ : good h → now  h = (h', at_) → keeps h h'.
Proof. apply ask_keeps. Qed.

Lemma may_live_keeps sessions h h' b : good h → may_live sessions h = (h', b) → keeps h h'.
Proof.
  revert h; induction sessions as [|key sessions IH]; intros h Hg H; simpl in H.
  { simplify_eq. by apply keeps_self. }
  destruct (ask (backend_alive key) h) as [h1 r] eqn:E. apply ask_keeps in E as Hk; [|done].
  destruct r as [[|]|]; [|by simplify_eq..]. eapply keeps_trans; [exact Hk|].
  apply IH; [apply Hk|done].
Qed.

Lemma consume_poison_keeps row epoch key h : good h → keeps h (consume_poison  row epoch key h).
Proof.
  intros Hg. unfold consume_poison. set (run := RunRow.run row).
  destruct (loaded_state row h) as [h1 state] eqn:E1.
  apply (loaded_state_keeps F) in E1 as [Hk1 Hc]; [|done]. destruct state as [state|]; [|done].
  specialize (Hc _ eq_refl). destruct (now  h1) as [h2 at_] eqn:E2.
  apply now_keeps in E2 as Hk2; [|apply Hk1].
  destruct (call (delete_if_present (poison_key run key)) h2) as [h3 cas] eqn:E3.
  destruct (call_eq _ _ _ _ E3) as [Hop _].
  apply (delete_if_present_reads F) in Hop as [Hr Hoff]; [|apply Hk2|apply poison_plain_key].
  assert (keeps h2 h3) as Hk3 by (eapply call_reads; [apply Hk2|done..]).
  assert (keeps h h3) as Hk03 by (eapply keeps_trans; [exact Hk1|by eapply keeps_trans]).
  destruct cas as [cas|error];
    [|eapply keeps_trans; [exact Hk03|apply note_store_error_keeps, Hk03]].
  destruct (call (append _ _ _ _ _ _) h3) as [h4 r] eqn:E4.
  assert (cached_ok F (seen h3) run state) as Hc3.
  { eapply keeps_cached; [exact Hk3|]. by eapply keeps_cached. }
  assert (RunState.run state = run) as Hrun.
  { destruct Hc3 as [(def & log & _ & Hh & _)]. by apply hosted_fixed in Hh as [-> _]. }
  eapply (append_poison_keeps F _ _ _ at_ key) in E4 as Hk4; [|apply Hk3|done|done| |by apply Hoff].
  2:{ unfold poison_event. by rewrite Hrun. }
  eapply keeps_trans; [exact Hk03|]. eapply keeps_trans; [exact Hk4|].
  destruct r; [apply forget_keeps|apply append_refused_keeps]; apply Hk4.
Qed.

Lemma count_poison_keeps row epoch key h h' b :
  good h → count_poison  row epoch key h = (h', b) → keeps h h' ∧ b = false.
Proof.
  intros Hg H. unfold count_poison in H.
  destruct (call (get _) h) as [h1 r1] eqn:E1. apply (get_keeps F) in E1 as [Hk1 _]; [|done].
  destruct r1 as [current|error].
  2:{ simplify_eq. split; [|done]. eapply keeps_trans; [exact Hk1|apply note_store_error_keeps, Hk1]. }
  destruct (_ <=? _).
  { simplify_eq. split; [|done]. eapply keeps_trans; [exact Hk1|apply consume_poison_keeps, Hk1]. }
  destruct (call (compare_and_set _ _ _) h1) as [h2 r2] eqn:E2.
  apply (cas_keeps F) in E2 as Hk2; [|apply Hk1|apply poison_plain_key]. simplify_eq. split; [|done].
  eapply keeps_trans; [exact Hk1|]. destruct r2; [done|].
  eapply keeps_trans; [exact Hk2|apply note_store_error_keeps, Hk2].
Qed.

Lemma commit_attempts_keeps retries row epoch state input events next h h' b :
  good h → cached_ok F (seen h) (RunRow.run row) state → at_hand (seen h) (RunRow.run row) input →
  is_decision (Event.body input) = false → filed input → reduce state input = Some (events, next) →
  commit_attempts  retries row epoch state (Event.key input) events next h = (h', b) →
  keeps h h'.
Proof.
  revert h; induction retries as [|retries IH]; intros h Hg Hc Ha Hd Hfiled Hred H;
    cbn [commit_attempts] in H; set (run := RunRow.run row) in *;
    (destruct (call (fold_cas _ _ _ _) h) as [h1 cas] eqn:E1;
     destruct (call_eq _ _ _ _ E1) as [Hop _];
     apply (fold_cas_reads F) in Hop as [Hr Hoff]; [|apply Hg];
     assert (keeps h h1) as Hk1 by by eapply call_reads);
    (destruct cas as [cas|error];
     [|simplify_eq; eapply keeps_trans; [exact Hk1|apply note_store_error_keeps, Hk1]]);
    (destruct (call (append _ _ _ _ _ _) h1) as [h2 r] eqn:E2;
     eapply (append_input_keeps F) in E2 as [Hk2 Hnext];
     [|apply Hk1|by eapply keeps_cached|by eapply keeps_at_hand|done|done|done|by apply Hoff]);
    (assert (keeps h h2) as Hk02 by by eapply keeps_trans);
    (destruct r as [appended|error];
     [simplify_eq; eapply keeps_trans; [exact Hk02|]; eapply keeps_trans;
        [apply remember_keeps; [apply Hk02|by eapply Hnext]|];
      apply same_parts_keeps; [|done..]; apply remember_keeps; [apply Hk02|by eapply Hnext]|]).
  - assert (keeps h (append_refused run error h2)) as Hre
      by (eapply keeps_trans; [exact Hk02|apply append_refused_keeps, Hk02]).
    destruct error; try by simplify_eq.
    apply count_poison_keeps in H as [Hk3 _]; [|apply Hk02]. by eapply keeps_trans.
  - assert (keeps h (append_refused run error h2)) as Hre
      by (eapply keeps_trans; [exact Hk02|apply append_refused_keeps, Hk02]).
    destruct error; try by simplify_eq.
    eapply keeps_trans; [exact Hk02|]. eapply IH; [apply Hk02| | |done|done|done|exact H].
    + by eapply keeps_cached.
    + by eapply keeps_at_hand.
Qed.

Lemma step_input_keeps row epoch h h' b :
  good h → step_input  row epoch h = (h', b) → keeps h h'.
Proof.
  intros Hg H. unfold step_input in H. set (run := RunRow.run row) in *.
  destruct (call (next_input run) h) as [h1 r] eqn:E1.
  apply (next_input_keeps F) in E1 as [Hk1 Hin]; [|done].
  assert (∀ key h2 b2, count_poison  row epoch key h1 = (h2, b2) → keeps h h2) as Hpoison.
  { intros key h2 b2 [Hk2 _]%count_poison_keeps; [by eapply keeps_trans|apply Hk1]. }
  destruct r as [[input|]|error].
  - destruct (is_decision (Event.body input)) eqn:Ed; [by eapply Hpoison|].
    destruct (loaded_state row h1) as [h2 state] eqn:E2.
    apply (loaded_state_keeps F) in E2 as [Hk2 Hc]; [|apply Hk1].
    assert (keeps h h2) as Hk02 by by eapply keeps_trans.
    destruct state as [state|]; [|by simplify_eq]. specialize (Hc _ eq_refl).
    destruct (reduce state input) as [[events next]|] eqn:Er.
    + eapply keeps_trans; [exact Hk02|].
      eapply commit_attempts_keeps; [apply Hk2|done| |done| |done|exact H].
      * eapply keeps_at_hand; [exact Hk2|]. intros _. symmetry. by apply Hin.
      * eapply (Forall_forall filed (View.inbox (seen h1) run)); [apply (good_filed _ _ (proj1 Hk1))|].
        specialize (Hin _ eq_refl). destruct (View.inbox (seen h1) run); [done|]. injection Hin as ->. by left.
    + apply count_poison_keeps in H as [Hk3 _]; [|apply Hk2]. by eapply keeps_trans.
  - by simplify_eq.
  - assert (keeps h (note_store_error error h1))
      by (eapply keeps_trans; [exact Hk1|apply note_store_error_keeps, Hk1]).
    destruct error as [| | | | | | | | | |key [seq|]]; try by simplify_eq. by eapply Hpoison.
Qed.

Lemma fold_run_keeps turns row epoch turn_owed h h' b :
  good h → fold_run  turns row epoch turn_owed h = (h', b) → keeps h h'.
Proof.
  revert h turn_owed; induction turns as [|turns IH]; intros h turn_owed Hg H;
    cbn [fold_run] in H.
  { simplify_eq. by apply keeps_self. }
  destruct (may_work  turn_owed h) as [h1 work] eqn:E1. apply may_work_keeps in E1 as Hk1; [|done].
  destruct work; cbn [negb] in H; [|by simplify_eq].
  destruct (loaded_state row h1) as [h2 state] eqn:E2.
  apply (loaded_state_keeps F) in E2 as [Hk2 _]; [|apply Hk1].
  assert (keeps h h2) as Hk02 by by eapply keeps_trans.
  destruct state; [|by simplify_eq].
  destruct (step_input  row epoch h2) as [h3 more] eqn:E3.
  apply step_input_keeps in E3 as Hk3; [|apply Hk2].
  assert (keeps h h3) as Hk03 by by eapply keeps_trans.
  destruct more; [|by simplify_eq]. eapply keeps_trans; [exact Hk03|]. eapply IH; [apply Hk3|done].
Qed.

Lemma give_back_claim_keeps row h h' b :
  good h → give_back_claim row h = (h', b) → keeps h h'.
Proof.
  intros Hg H. unfold give_back_claim in H.
  destruct (call (get _) h) as [h1 r1] eqn:E1. apply (get_keeps F) in E1 as [Hk1 _]; [|done].
  destruct r1 as [holder|error].
  2:{ simplify_eq. eapply keeps_trans; [exact Hk1|apply note_store_error_keeps, Hk1]. }
  case_bool_decide; [|by simplify_eq].
  destruct (call (compare_and_set _ _ _) h1) as [h2 r2] eqn:E2.
  apply (cas_keeps F) in E2 as Hk2; [|apply Hk1|by split]. simplify_eq. by eapply keeps_trans.
Qed.

Lemma delete_if_present_keeps key h h' r :
  good h → plain_key key → call (delete_if_present key) h = (h', r) → keeps h h' ∧ off_flows r.
Proof.
  intros Hg Hk H. destruct (call_eq _ _ _ _ H) as [Hop _].
  apply (delete_if_present_reads F) in Hop as [Hr Hoff]; [|apply Hg|done]. split; [|done].
  by eapply call_reads.
Qed.

Lemma withdraw_exit_keeps row epoch now_ h : good h → keeps h (withdraw_exit  row epoch now_ h).
Proof using laws inherent_laws.
  intros Hg. unfold withdraw_exit. set (run := RunRow.run row).
  case_bool_decide; simpl; [|by apply keeps_self].
  destruct (call (waiting_inputs run) h) as [h1 r1] eqn:E1. destruct (call_eq _ _ _ _ E1) as [Hop1 _].
  apply waiting_inputs_law in Hop1 as [Hv1 Hr1]; [|apply Hg].
  assert (keeps h h1) as Hk1 by by eapply call_keeps. destruct r1 as [waiting|]; [|done].
  destruct (find_map _ waiting) as [w|] eqn:Ew; [|done].
  assert (is_withdrawn w = true) as Hw.
  { apply find_map_Some in Ew as (x & _ & Hx). destruct x as [e|]; [|done].
    destruct (is_withdrawn e) eqn:Ee; by simplify_eq. }
  destruct (call (load_readable run) h1) as [h2 r2] eqn:E2. destruct (call_eq _ _ _ _ E2) as [Hop2 _].
  apply load_readable_law in Hop2 as [Hv2 Hr2]; [|apply Hk1].
  assert (keeps h1 h2) as Hk2 by (eapply call_keeps; [apply Hk1|done..]).
  assert (keeps h h2) as Hk02 by by eapply keeps_trans.
  destruct r2 as [readable|]; [|done].
  destruct (may_live _ h2) as [h2' live] eqn:El. apply may_live_keeps in El as Hkl; [|apply Hk2].
  assert (keeps h h2') as Hk02' by by eapply keeps_trans. destruct live; [done|].
  destruct (give_back_claim row h2') as [h3 given] eqn:E3.
  apply give_back_claim_keeps in E3 as Hk3; [|apply Hkl].
  assert (keeps h h3) as Hk03 by by eapply keeps_trans. destruct given; [simpl|done].
  destruct (call (delete_if_present (pending_key run)) h3) as [h4 pending] eqn:E4.
  apply delete_if_present_keeps in E4 as [Hk4 Hp]; [|apply Hk3|apply pending_plain_key].
  assert (keeps h h4) as Hk04 by by eapply keeps_trans.
  destruct pending as [pending|];
    [|eapply keeps_trans; [exact Hk04|apply note_store_error_keeps, Hk04]].
  destruct (call (delete_if_present (tree_refusal_key run)) h4) as [h5 refusal] eqn:E5.
  apply delete_if_present_keeps in E5 as [Hk5 Hrf]; [|apply Hk4|apply tree_refusal_plain_key].
  assert (keeps h h5) as Hk05 by by eapply keeps_trans.
  destruct refusal as [refusal|];
    [|eapply keeps_trans; [exact Hk05|apply note_store_error_keeps, Hk05]].
  destruct (call (append _ _ _ _ _ _) h5) as [h6 r] eqn:E6.
  eapply (append_exit_keeps F) in E6 as Hk6; [|apply Hk5| |done|done|done|].
  - eapply keeps_trans; [exact Hk05|]. eapply keeps_trans; [exact Hk6|].
    destruct r; [apply drop_run_keeps|apply append_refused_keeps]; apply Hk6.
  - unfold is_withdrawn in *. done.
  - apply Forall_app. split; [by apply Hp|by apply Hrf].
Qed.
End operations.
