(* ===== verification/HostTicks.v ===== *)
(** * Invariants through a tick

    One walk through the operations of [Execute] and [Tick] for every invariant of a host: [HostCalls] is
    what an invariant says about single calls, and from it every operation and the whole tick keep the
    invariant. [kept] is the property of an operation, the hint database [keeps] has it for every operation
    walked so far, and the tactic [keep] does the walking. The invariant of [HostRuns] is the first
    instance; [Asides] has those about the outside and the rotation. *)

From S2P Require Import Prelude Text Utf8 Ids Codes Events Flow State Effects Guard Decide Host Ports Contract Sqlite StoreSpec SqliteFacts Runner Execute Tick Spec Replay Logs HostRuns.
From stdpp Require Import options.

Create HintDb keeps.

(** ** What may be asked of the outside

    Every call but the two that are acted on once only: a post and a signal. *)
Inductive harmless {O : Type} {outside : Outside O} : ∀ {A : Type}, (O → O * A) → Prop :=
| harmless_clock : harmless clock_now
| harmless_budget : harmless budget_gone
| harmless_mint : harmless mint_ulid
| harmless_env name : harmless (env_var name)
| harmless_find thread key : harmless (port_find thread key)
| harmless_read message : harmless (port_read message)
| harmless_open thread parent channel opener : harmless (port_open_thread thread parent channel opener)
| harmless_persona handle : harmless (port_persona handle)
| harmless_prompt handle : harmless (port_prompt handle)
| harmless_turn handle parts : harmless (port_turn handle parts)
| harmless_bundle : harmless port_bundle_path
| harmless_start spec : harmless (backend_start spec)
| harmless_nudge key text : harmless (backend_nudge key text)
| harmless_alive key : harmless (backend_alive key)
| harmless_drain key from : harmless (backend_drain_facts key from)
| harmless_begin op : harmless (tree_begin op)
| harmless_poll : harmless tree_poll
| harmless_cancel : harmless tree_cancel
| harmless_read_file path : harmless (read_file path)
| harmless_replace_file path text : harmless (replace_file path text).
#[export] Hint Constructors harmless : keeps.

(** The texts a host posts: the commission, a delivery and a turn. None of them posts itself. *)
Inductive speaks {S O : Type} {outside : Outside O} : (@Host S O → @Host S O * option string) → Prop :=
| speaks_text text : speaks (give (Some text))
| speaks_delivery state body : speaks (delivery_text state body)
| speaks_turn slot step turn thread : speaks (compose_turn slot step turn thread).
#[export] Hint Constructors speaks : keeps.

(** ** The interface

    An invariant of hosts with a relation between the hosts before and after: what it has to say about
    single calls. Posts, signals and the operations of [Runner] are in [HostActs] below. *)
Class HostCalls {serde : Serde} {ulid : Ulid} {S O : Type} {store : RunStore S}
    {inherent : InherentStore S} {outside : Outside O} := {
  inv : @Host S O → Prop;
  moves : @Host S O → @Host S O → Prop;
  s_inv : S → Prop;
  s_moves : S → S → Prop;
  moves_refl h : inv h → moves h h;
  moves_trans h1 h2 h3 : moves h1 h2 → moves h2 h3 → moves h1 h3;
  moves_after h h' : moves h h' → inv h';
  s_moves_refl s : s_inv s → s_moves s s;
  s_moves_trans s1 s2 s3 : s_moves s1 s2 → s_moves s2 s3 → s_moves s1 s3;
  s_moves_after s s' : s_moves s s' → s_inv s';
  inv_call {A} (op : S → S * A) h :
    (∀ s, s_inv s → s_moves s (op s).1) → inv h → moves h (call op h).1;
  inv_get key s : s_inv s → s_moves s (get key s).1;
  inv_cas key from to s : plain_key key → s_inv s → s_moves s (compare_and_set key from to s).1;
  inv_acquire run owner now s : s_inv s → s_moves s (acquire_or_renew run owner now s).1;
  inv_enqueue run event s : is_reply (Event.body event) = false → s_inv s → s_moves s (enqueue run event [] s).1;
  inv_open_runs s : s_inv s → s_moves s (open_runs s).1;
  inv_due_timers now s : s_inv s → s_moves s (due_timers now s).1;
  inv_ask {A} (op : O → O * A) h : harmless op → inv h → moves h (ask op h).1;
  inv_cache run (g : RunCache → RunCache) h :
    (∀ c, RunCache.state (g c) = RunCache.state c) → inv h →
    moves h (set_cache run (g (cache run h)) h);
  inv_drop run h : inv h → moves h (drop_run run h);
  inv_retain rows h : inv h → moves h (retain_open rows h);
  inv_track track h : inv h → moves h (h <| h_track := track |>);
  inv_report report h : inv h → moves h (h <| h_report := report |>);
}.

Section ticks.
Context {serde : Serde} {ulid : Ulid} {S O : Type} {store : RunStore S}.
Context {inherent : InherentStore S} {outside : Outside O} {calls : HostCalls (S:=S) (O:=O)}.
Local Abbreviation Host := (@Runner.Host S O).
Implicit Types h : Host.

(** The property of a change of the host, of an operation with an answer, and of one on the store. *)
Definition kept (f : Host → Host) : Prop := ∀ h, inv h → moves h (f h).
Definition kept_op {A} (m : Host → Host * A) : Prop := ∀ h, inv h → moves h (m h).1.
Definition reading {A} (op : S → S * A) : Prop := ∀ s, s_inv s → s_moves s (op s).1.

Lemma moves_then h0 h f : kept f → moves h0 h → moves h0 (f h).
Proof. intros Hf Hk. eapply moves_trans; [exact Hk|]. apply Hf. by eapply moves_after. Qed.

Lemma moves_then_op {A} h0 h (m : Host → Host * A) : kept_op m → moves h0 h → moves h0 (m h).1.
Proof. intros Hf Hk. eapply moves_trans; [exact Hk|]. apply Hf. by eapply moves_after. Qed.

Lemma s_moves_then {A} s0 s (op : S → S * A) : reading op → s_moves s0 s → s_moves s0 (op s).1.
Proof. intros Hf Hr. eapply s_moves_trans; [exact Hr|]. apply Hf. by eapply s_moves_after. Qed.

Lemma kept_call {A} (op : S → S * A) : reading op → kept_op (call op).
Proof. intros Hop h Hg. by apply inv_call. Qed.
Lemma kept_ask {A} (op : O → O * A) : harmless op → kept_op (ask op).
Proof. intros Hop h Hg. by apply inv_ask. Qed.
Lemma reading_get key : reading (get key).
Proof. intros s. apply inv_get. Qed.
Lemma reading_cas key from to : plain_key key → reading (compare_and_set key from to).
Proof. intros Hk s. by apply inv_cas. Qed.
Lemma reading_enqueue run event :
  is_reply (Event.body event) = false → reading (enqueue run event []).
Proof. intros Hb s. by apply inv_enqueue. Qed.
Lemma reading_open_runs : reading open_runs.
Proof. intros s. apply inv_open_runs. Qed.
Lemma reading_due_timers now : reading (due_timers now).
Proof. intros s. apply inv_due_timers. Qed.
End ticks.

#[export] Hint Resolve kept_ask kept_call reading_get reading_enqueue reading_open_runs
  reading_due_timers : keeps.
#[export] Hint Extern 1 (reading (compare_and_set _ _ _)) =>
  apply reading_cas; [assumption || by split] : keeps.

(** Walks through an operation: [keep] from a good host, every call it meets by the database. *)
Ltac keep_call x :=
  match goal with
  | |- context [moves ?h0 _] =>
      let Hk := fresh "Hk" in
      assert (moves h0 (fst x)) as Hk;
      [|destruct x eqn:?; cbn [fst] in Hk]
  | |- context [s_moves ?s0 _] =>
      let Hk := fresh "Hk" in
      assert (s_moves s0 (fst x)) as Hk;
      [|destruct x eqn:?; cbn [fst] in Hk]
  end.

Ltac scrutinee t :=
  lazymatch t with
  | context [match ?x with _ => _ end] => scrutinee x
  | _ => t
  end.

Ltac keep_step :=
  match goal with
  | H : moves ?h0 ?h |- moves ?h0 ?h => exact H
  | H : s_moves ?s0 ?s |- s_moves ?s0 ?s => exact H
  | |- moves ?h ?h => apply moves_refl; assumption
  | |- s_moves ?s ?s => apply s_moves_refl; assumption
  | |- moves _ (fst (?h, _)) => cbn [fst]
  | |- s_moves _ (fst (?h, _)) => cbn [fst]
  | |- moves _ (fst (?m ?h)) => apply moves_then_op; [solve [eauto 20 with keeps nocore]|]
  | |- s_moves _ (fst (?m ?h)) => apply s_moves_then; [solve [eauto 20 with keeps nocore]|]
  | |- moves _ (?f ?h) => apply moves_then; [solve [eauto 20 with keeps nocore]|]
  | |- context [match ?x with _ => _ end] =>
      let y := scrutinee x in first [keep_call y | destruct y eqn:?]
  end.

Ltac keep := cbv beta zeta; repeat (keep_step; cbv beta zeta).

Section kept.
Context {serde : Serde} {host_serde : HostSerde} {ulid : Ulid} {S O : Type} {store : RunStore S}.
Context {inherent : InherentStore S} {outside : Outside O} {calls : HostCalls (S:=S) (O:=O)}.
Local Abbreviation Host := (@Runner.Host S O).
Implicit Types h : Host.
Local Abbreviation kept := (HostTicks.kept (S:=S) (O:=O)).
Local Abbreviation kept_op := (HostTicks.kept_op (S:=S) (O:=O)).
Local Abbreviation reading := (HostTicks.reading (S:=S) (O:=O)).

(** ** Operations of [HostRuns] *)
Lemma kept_note error : kept (note_store_error error).
Proof. intros h Hg. destruct error; simpl; (by apply moves_refl) || by apply inv_report. Qed.
Lemma kept_drop run : kept (drop_run run).
Proof. intros h Hg. by apply inv_drop. Qed.
Lemma kept_retain rows : kept (retain_open rows).
Proof. intros h Hg. by apply inv_retain. Qed.
Lemma kept_now : kept_op now.
Proof. unfold now. eauto with keeps nocore. Qed.
Lemma kept_may_work turn_owed : kept_op (may_work turn_owed).
Proof.
  intros h Hg. unfold may_work. destruct (TickReport.busy _); [by apply moves_refl|].
  assert (moves h (ask budget_gone h).1) as Hk by (apply inv_ask; [constructor|done]).
  destruct (ask budget_gone h) as [h1 gone]. destruct gone; [|done]. simpl in *.
  eapply moves_trans; [exact Hk|]. apply inv_report. by eapply moves_after.
Qed.

Lemma kept_track op cancelled : kept (set_running op cancelled).
Proof. intros h Hg. by apply inv_track. Qed.
Lemma kept_attempts attempts : kept (set_attempts attempts).
Proof. intros h Hg. by apply inv_track. Qed.
Lemma kept_forget_attempts run : kept (forget_attempts run).
Proof. intros h Hg. by apply inv_track. Qed.
Lemma kept_mark_started run key : kept (mark_started run key).
Proof.
  intros h Hg.
  apply (inv_cache run (λ c, c <| RunCache.started := {[key]} ∪ RunCache.started c |>)); [|done].
  by intros [].
Qed.
Lemma kept_set_offset run key offset : kept (set_offset run key offset).
Proof.
  intros h Hg.
  apply (inv_cache run (λ c, c <| RunCache.offsets := <[key := offset]> (RunCache.offsets c) |>)); [|done].
  by intros [].
Qed.

(** ** Sequences *)
Lemma kept_and_then {A B} (m : Host → Host * A) (k : A → Host → Host * B) :
  kept_op m → (∀ a, kept_op (k a)) → kept_op (and_then m k).
Proof.
  intros Hm Hk h Hg. unfold and_then. assert (Hkm := Hm h Hg). destruct (m h) as [h1 a].
  apply moves_then_op; [apply Hk|done].
Qed.

Lemma kept_try_then {A B} (m : Host → Host * StoreResult A) (k : A → Host → Host * StoreResult B) :
  kept_op m → (∀ a, kept_op (k a)) → kept_op (try_then m k).
Proof.
  intros Hm Hk h Hg. unfold try_then. assert (Hkm := Hm h Hg). destruct (m h) as [h1 [a|e]]; [|done].
  apply moves_then_op; [apply Hk|done].
Qed.

Lemma kept_give {A} (a : A) : kept_op (give a).
Proof. intros h Hg. by apply moves_refl. Qed.
Lemma kept_change f : kept f → kept_op (change_to f).
Proof. intros Hf h Hg. by apply Hf. Qed.

Lemma reading_try_then {A B} (m : S → S * StoreResult A) (k : A → S → S * StoreResult B) :
  reading m → (∀ a, reading (k a)) → reading (try_then m k).
Proof.
  intros Hm Hk s Hv. unfold try_then. assert (Hrm := Hm s Hv). destruct (m s) as [s1 [a|e]]; [|done].
  apply s_moves_then; [apply Hk|done].
Qed.

Lemma reading_give {A} (a : A) : reading (give a).
Proof. intros s Hv. by apply s_moves_refl. Qed.
End kept.

#[export] Hint Resolve kept_note kept_drop kept_retain kept_now kept_may_work kept_track
  kept_attempts kept_forget_attempts kept_mark_started kept_set_offset kept_and_then kept_try_then
  kept_give kept_change reading_try_then reading_give : keeps.
#[export] Hint Extern 2 (kept_op (match ?x with _ => _ end)) => destruct x : keeps.
#[export] Hint Extern 2 (reading (match ?x with _ => _ end)) => destruct x : keeps.
#[export] Hint Extern 1 (is_reply _ = false) => reflexivity || assumption : keeps.
#[export] Hint Extern 3 (kept_op _) => progress intros : keeps.

(** ** The effect ledger and the ports *)
Section executing.
Context {serde : Serde} {host_serde : HostSerde} {ulid : Ulid} {S O : Type} {store : RunStore S}.
Context {inherent : InherentStore S} {outside : Outside O} {calls : HostCalls (S:=S) (O:=O)}.
Local Abbreviation Host := (@Runner.Host S O).
Implicit Types h : Host.
Local Abbreviation kept := (HostTicks.kept (S:=S) (O:=O)).
Local Abbreviation kept_op := (HostTicks.kept_op (S:=S) (O:=O)).
Local Abbreviation reading := (HostTicks.reading (S:=S) (O:=O)).

Lemma reading_entry_or_write run key epoch initial : reading (entry_or_write run key epoch initial).
Proof. unfold entry_or_write. cbv zeta. eauto 10 with keeps nocore. Qed.
Lemma reading_entry_set run key epoch state : reading (entry_set run key epoch state).
Proof. unfold entry_set. cbv zeta. eauto 10 with keeps nocore. Qed.
Hint Resolve reading_entry_or_write reading_entry_set : keeps.
Lemma reading_entry_phase run key epoch : reading (entry_phase run key epoch).
Proof. unfold entry_phase. eauto 10 with keeps nocore. Qed.
Hint Resolve reading_entry_phase : keeps.

Lemma kept_put run key origin body at_ :
  is_reply body = false → kept_op (put run key origin body at_).
Proof. intros Hb h Hg. unfold put. keep. Qed.
Hint Resolve kept_put : keeps.
Lemma kept_record run key origin body at_ :
  is_reply body = false → kept_op (record_result run key origin body at_).
Proof. intros Hb h Hg. unfold record_result. keep. Qed.
Lemma kept_noting {A} (op : S → S * StoreResult A) : reading op → kept (noting op).
Proof. intros Hop h Hg. unfold noting. keep. Qed.
Hint Resolve kept_record kept_noting : keeps.
Lemma kept_mark_chat_refused run epoch : kept (mark_chat_refused run epoch).
Proof. unfold mark_chat_refused. eauto with keeps nocore. Qed.
Lemma kept_clear_value key : plain_key key → kept (clear_value key).
Proof. intros Hk h Hg. unfold clear_value. keep. Qed.
Hint Resolve kept_mark_chat_refused : keeps.
Hint Extern 1 (HostTicks.kept (clear_value _)) => apply kept_clear_value; by split : keeps.
Lemma kept_clear_chat_refused run : kept (clear_chat_refused run).
Proof. intros h Hg. unfold clear_chat_refused. keep. Qed.
Lemma kept_clear_refusal run : kept (clear_refusal run).
Proof. intros h Hg. unfold clear_refusal. keep. Qed.
Hint Resolve kept_clear_chat_refused kept_clear_refusal : keeps.

(** ** Texts to post *)
Lemma kept_message_body message : kept_op (message_body message).
Proof. unfold message_body. eauto with keeps nocore. Qed.
Hint Resolve kept_message_body : keeps.
Lemma kept_delivery_text state body : kept_op (delivery_text state body).
Proof. intros h Hg. unfold delivery_text. keep. Qed.
Hint Resolve kept_delivery_text : keeps.
Lemma kept_flush_framed handle framed sections : kept_op (flush_framed handle framed sections).
Proof. intros h Hg. unfold flush_framed. keep. Qed.
Hint Resolve kept_flush_framed : keeps.
Lemma kept_compose_parts step handle thread turn framed sections :
  kept_op (compose_parts step handle thread turn framed sections).
Proof.
  revert framed sections; induction turn as [|part turn IH]; intros framed sections h Hg;
    cbn [compose_parts]; keep.
Qed.
Hint Resolve kept_compose_parts : keeps.
Lemma kept_compose_turn slot step turn thread : kept_op (compose_turn slot step turn thread).
Proof. intros h Hg. unfold compose_turn. keep. Qed.
Hint Resolve kept_compose_turn : keeps.

Lemma kept_speaks body : speaks body → kept_op body.
Proof. destruct 1; eauto with keeps nocore. Qed.

(** Where posts and signals need no care. *)
Lemma kept_find_or_post_any run epoch thread sender refs key body :
  (∀ text, kept_op (ask (port_post thread sender text refs key))) → speaks body →
  kept_op (find_or_post run epoch thread sender refs key body).
Proof. intros Hp Hb%kept_speaks h Hg. unfold find_or_post. keep. Qed.
Lemma kept_stop_any run epoch key kind nth at_ :
  (∀ force, kept_op (ask (backend_stop key force))) → kept_op (stop run epoch key kind nth at_).
Proof. intros Hs. unfold stop. cbv zeta. eauto 20 with keeps nocore. Qed.
End executing.

(** ** Posts, signals and the fold *)
Class HostActs {serde : Serde} {ulid : Ulid} {S O : Type} {store : RunStore S}
    {inherent : InherentStore S} {outside : Outside O} (calls : HostCalls (S:=S) (O:=O)) := {
  kept_find_or_post run epoch thread sender refs key body :
    speaks body → kept_op (find_or_post run epoch thread sender refs key body);
  kept_stop run epoch key kind nth at_ : kept_op (stop run epoch key kind nth at_);
  kept_loaded row : kept_op (loaded_state row);
  kept_fold turns row epoch turn_owed : kept_op (fold_run turns row epoch turn_owed);
  kept_exit row epoch at_ : kept (withdraw_exit row epoch at_);
}.
#[export] Hint Resolve kept_find_or_post kept_stop kept_loaded kept_fold kept_exit : keeps.
#[export] Hint Resolve kept_message_body kept_delivery_text kept_flush_framed kept_compose_parts kept_compose_turn reading_entry_or_write reading_entry_set reading_entry_phase kept_put kept_record kept_noting kept_mark_chat_refused kept_clear_chat_refused kept_clear_refusal : keeps.

Section acting.
Local Unset Default Proof Using.
Context {serde : Serde} {host_serde : HostSerde} {ulid : Ulid} {S O : Type} {store : RunStore S}.
Context {inherent : InherentStore S} {outside : Outside O} {calls : HostCalls (S:=S) (O:=O)}.
Local Abbreviation Host := (@Runner.Host S O).
Implicit Types h : Host.
Local Abbreviation kept := (HostTicks.kept (S:=S) (O:=O)).
Local Abbreviation kept_op := (HostTicks.kept_op (S:=S) (O:=O)).
Local Abbreviation reading := (HostTicks.reading (S:=S) (O:=O)).
Context {acts : HostActs calls}.


Lemma kept_posted run ledger epoch found : kept_op found → kept_op (posted run ledger epoch found).
Proof. intros Hf. unfold posted. eauto 10 with keeps nocore. Qed.
Hint Resolve kept_posted : keeps.

Lemma kept_root_message_of run epoch ledger : kept_op (root_message_of run epoch ledger).
Proof. unfold root_message_of. eauto 20 with keeps nocore. Qed.
Hint Resolve kept_root_message_of : keeps.
Lemma kept_open_root state epoch at_ : kept_op (open_root state epoch at_).
Proof. unfold open_root. cbv zeta. eauto 20 with keeps nocore. Qed.

Lemma kept_deliver state epoch thread body key at_ : kept_op (deliver state epoch thread body key at_).
Proof. unfold deliver. cbv zeta. eauto 20 with keeps nocore. Qed.

Lemma kept_release_claim run workspace at_ : kept_op (release_claim run workspace at_).
Proof. unfold release_claim. cbv zeta. eauto 20 with keeps nocore. Qed.
Lemma kept_note_holder state behind holder at_ : kept (note_holder state behind holder at_).
Proof. intros h Hg. unfold note_holder. keep. Qed.
Hint Resolve kept_note_holder : keeps.
Lemma kept_take_claims owned at_ tried owed : kept (take_claims_from tried owed owned at_).
Proof.
  revert tried owed; induction owned as [|[row epoch] owned IH]; intros tried owed h Hg;
    cbn [take_claims_from]; keep.
Qed.

Lemma kept_nudge state key text at_ : kept_op (nudge state key text at_).
Proof. unfold nudge. cbv zeta. eauto 20 with keeps nocore. Qed.

Lemma reading_write_route run thread key : reading (write_route run thread key).
Proof. unfold write_route. cbv zeta. eauto 20 with keeps nocore. Qed.
Hint Resolve reading_write_route : keeps.
Lemma reading_write_routes run thread key : reading (write_routes run thread key).
Proof. unfold write_routes. cbv zeta. eauto 20 with keeps nocore. Qed.
Hint Resolve reading_write_routes : keeps.
Lemma kept_open_step_thread state epoch slot step key turn :
  kept_op (open_step_thread state epoch slot step key turn).
Proof. unfold open_step_thread. cbv zeta. eauto 30 with keeps nocore. Qed.
Lemma kept_env_of_names names : kept_op (env_of_names names).
Proof. induction names as [|name names IH]; intros h Hg; cbn [env_of_names]; keep. Qed.
Hint Resolve kept_open_step_thread kept_env_of_names : keeps.
Lemma kept_session_env base key handle bundle : kept_op (session_env base key handle bundle).
Proof. intros h Hg. unfold session_env. keep. Qed.
Lemma kept_member_prompt state step handle : kept_op (member_prompt state step handle).
Proof. intros h Hg. unfold member_prompt. keep. Qed.
Hint Resolve kept_session_env kept_member_prompt : keeps.
Lemma kept_start_spec state slot step key thread text resume :
  kept_op (start_spec state slot step key thread text resume).
Proof.
  unfold start_spec. cbv zeta. apply kept_and_then; [eauto with keeps nocore|].
  intros [[[[prompt tools] model] permissions]|]; [|apply kept_give].
  apply kept_try_then; [destruct resume; eauto with keeps nocore|]. intros resumed.
  apply kept_and_then; [eauto with keeps nocore|]. intros [bundle|]; [|apply kept_give].
  intros h Hg. apply moves_then_op; [eauto with keeps nocore|by apply moves_refl].
Qed.
Lemma kept_started_as run key at_ answer : kept_op (started_as run key at_ answer).
Proof. unfold started_as. destruct answer as [[]|]; eauto with keeps nocore. Qed.
Hint Resolve kept_start_spec kept_started_as : keeps.
Lemma kept_start_session state epoch key turn resume at_ :
  kept_op (start_session state epoch key turn resume at_).
Proof. intros h Hg. unfold start_session. keep. Qed.

(** ** The working directory *)
Lemma kept_may_begin run at_ : kept_op (may_begin run at_).
Proof. intros h Hg. unfold may_begin. keep. Qed.
Lemma kept_begin_op op : kept (begin_op op).
Proof. intros h Hg. unfold begin_op. keep. Qed.
Hint Resolve kept_may_begin kept_begin_op : keeps.
Lemma kept_prepare_tree run at_ : kept (prepare_tree run at_).
Proof. intros h Hg. unfold prepare_tree. keep. Qed.
Lemma kept_park_tree run workspace occasion at_ : kept_op (park_tree run workspace occasion at_).
Proof.
  unfold park_tree. apply kept_try_then; [eauto with keeps nocore|]. intros holds.
  destruct (negb _); [eauto with keeps nocore|]. intros h Hg. keep.
Qed.
Lemma kept_cancel_running : kept cancel_running.
Proof. intros h Hg. unfold cancel_running. keep. Qed.
Lemma reading_standing_refusal run : reading (standing_refusal run).
Proof. intros s Hv. unfold standing_refusal. keep. Qed.
Hint Resolve kept_cancel_running reading_standing_refusal : keeps.
Lemma kept_cancel_tree state at_ : kept (cancel_tree state at_).
Proof. intros h Hg. unfold cancel_tree. keep. Qed.
Lemma kept_cancel_if_withdrawn state : kept (cancel_if_withdrawn state).
Proof. intros h Hg. unfold cancel_if_withdrawn. keep. Qed.
Lemma kept_record_refusal run reason text at_ : kept (record_refusal run reason text at_).
Proof. intros h Hg. unfold record_refusal. keep. Qed.
Hint Resolve kept_record_refusal : keeps.
Lemma kept_fold_tree_result op result at_ : kept (fold_tree_result op result at_).
Proof. intros h Hg. unfold fold_tree_result. keep. Qed.
End acting.

#[export] Hint Resolve kept_posted kept_root_message_of kept_open_root kept_deliver kept_release_claim kept_note_holder kept_take_claims kept_nudge reading_write_route reading_write_routes kept_open_step_thread kept_env_of_names kept_session_env kept_member_prompt kept_start_spec kept_started_as kept_start_session kept_may_begin kept_begin_op kept_prepare_tree kept_park_tree kept_cancel_running reading_standing_refusal kept_cancel_tree kept_cancel_if_withdrawn kept_record_refusal kept_fold_tree_result : keeps.

(** ** The tick *)
Section ticking.
Local Unset Default Proof Using.
Context {serde : Serde} {host_serde : HostSerde} {ulid : Ulid} {S O : Type} {store : RunStore S}.
Context {inherent : InherentStore S} {outside : Outside O} {calls : HostCalls (S:=S) (O:=O)}.
Local Abbreviation Host := (@Runner.Host S O).
Implicit Types h : Host.
Local Abbreviation kept := (HostTicks.kept (S:=S) (O:=O)).
Local Abbreviation kept_op := (HostTicks.kept_op (S:=S) (O:=O)).
Local Abbreviation reading := (HostTicks.reading (S:=S) (O:=O)).
Context {acts : HostActs calls}.
Context (turning : ∀ next (h : Host), inv h → moves h (h <| h_next_turn := next |>)).

Lemma reading_acquire_or_renew run owner at_ : reading (acquire_or_renew run owner at_).
Proof. intros s. apply inv_acquire. Qed.
Hint Resolve reading_acquire_or_renew : keeps.
Lemma reading_acquire run owner at_ : reading (acquire run owner at_).
Proof. intros s Hv. unfold acquire. keep. Qed.
Lemma reading_mark_host_seen workspace at_ : reading (mark_host_seen workspace at_).
Proof. intros s Hv. unfold mark_host_seen. keep. Qed.
Lemma reading_read_lease run : reading (read_lease run).
Proof. intros s Hv. unfold read_lease. keep. Qed.
Hint Resolve reading_acquire reading_mark_host_seen reading_read_lease : keeps.
Lemma reading_still_ours run owner epoch at_ : reading (still_ours run owner epoch at_).
Proof. intros s Hv. unfold still_ours. keep. Qed.
Hint Resolve reading_still_ours : keeps.

Lemma kept_result_is_ours owned run : kept_op (result_is_ours owned run).
Proof. intros h Hg. unfold result_is_ours. keep. Qed.
Hint Resolve kept_result_is_ours : keeps.
Lemma kept_poll_tree polls owned at_ : kept (poll_tree polls owned at_).
Proof. induction polls as [|polls IH]; intros h Hg; cbn [poll_tree]; keep. Qed.
Lemma kept_execute state row epoch effect at_ : kept_op (execute state row epoch effect at_).
Proof. unfold execute. cbv zeta. destruct effect; eauto 10 with keeps nocore. Qed.
Hint Resolve kept_poll_tree kept_execute : keeps.
Lemma kept_execute_each state row epoch effects at_ turn_owed :
  kept (execute_each state row epoch effects at_ turn_owed).
Proof. induction effects as [|effect effects IH]; intros h Hg; cbn [execute_each]; keep. Qed.
Hint Resolve kept_execute_each : keeps.
Lemma kept_execute_run row epoch at_ turn_owed : kept (execute_run row epoch at_ turn_owed).
Proof. intros h Hg. unfold execute_run. keep. Qed.
Hint Resolve kept_execute_run : keeps.

Lemma kept_leases rows at_ : kept_op (leases rows at_).
Proof. induction rows as [|row rows IH]; intros h Hg; cbn [leases]; keep. Qed.
Lemma kept_mark_seen_each names at_ : kept (mark_seen_each names at_).
Proof. induction names as [|name names IH]; intros h Hg; cbn [mark_seen_each]; keep. Qed.
Hint Resolve kept_leases kept_mark_seen_each : keeps.

Lemma kept_each_run part owned step :
  (∀ row epoch turn_owed, kept (step row epoch turn_owed)) → kept (each_run part owned step).
Proof.
  intros Hstep. assert (∀ start offsets, kept (each_run_from part owned start offsets step)) as H.
  { intros start offsets. induction offsets as [|offset offsets IH]; intros h Hg;
      cbn [each_run_from]; keep. eapply moves_trans; [exact Hk|]. apply turning. by eapply moves_after. }
  intros h Hg. unfold each_run. destruct owned; [by apply moves_refl|]. by apply H.
Qed.
Hint Resolve kept_each_run : keeps.

Lemma kept_offset_of run key : kept_op (offset_of run key).
Proof. intros h Hg. unfold offset_of. keep. Qed.
Lemma kept_store_offset run key offset : kept (store_offset run key offset).
Proof. intros h Hg. unfold store_offset. keep. Qed.
Lemma kept_put_facts run key facts at_ : kept_op (put_facts run key facts at_).
Proof. induction facts as [|fact facts IH]; intros h Hg; cbn [put_facts]; keep. Qed.
Lemma kept_confirm_end run key at_ : kept (confirm_end run key at_).
Proof. intros h Hg. unfold confirm_end. keep. Qed.
Hint Resolve kept_offset_of kept_store_offset kept_put_facts kept_confirm_end : keeps.
Lemma kept_drain_session run key stopping at_ : kept (drain_session run key stopping at_).
Proof. intros h Hg. unfold drain_session. keep. Qed.
Hint Resolve kept_drain_session : keeps.
Lemma kept_drain_each run live at_ turn_owed : kept (drain_each run live at_ turn_owed).
Proof. induction live as [|[key stopping] live IH]; intros h Hg; cbn [drain_each]; keep. Qed.
Hint Resolve kept_drain_each : keeps.
Lemma kept_drain_run row epoch at_ turn_owed : kept (drain_run row epoch at_ turn_owed).
Proof. intros h Hg. unfold drain_run. keep. Qed.

Lemma kept_fire_each owned due at_ : kept (fire_each owned due at_).
Proof. induction due as [|timer due IH]; intros h Hg; cbn [fire_each]; keep. Qed.
Hint Resolve kept_drain_run kept_fire_each : keeps.
Lemma kept_fire_due_timers owned at_ : kept (fire_due_timers owned at_).
Proof. intros h Hg. unfold fire_due_timers. keep. Qed.
Hint Resolve kept_fire_due_timers : keeps.

Lemma kept_fold_step fuel : ∀ row epoch turn_owed, kept (λ h, (fold_run fuel row epoch turn_owed h).1).
Proof. intros row epoch turn_owed h Hg. keep. Qed.
Lemma kept_execute_step at_ : ∀ row epoch turn_owed,
  kept (λ h, execute_run row epoch at_ turn_owed (withdraw_exit row epoch at_ h)).
Proof. intros row epoch turn_owed h Hg. keep. Qed.

Lemma kept_tick_parts fuel owned at_ : kept (tick_parts fuel owned at_).
Proof.
  intros h Hg. unfold tick_parts, take_claims. cbv zeta.
  apply moves_then; [eauto with keeps nocore|]. apply moves_then; [apply kept_each_run, kept_execute_step|].
  apply moves_then; [apply kept_each_run, kept_fold_step|]. apply moves_then; [eauto with keeps nocore|].
  apply moves_then; [eauto with keeps nocore|]. apply moves_then; [|by apply moves_refl].
  apply kept_each_run. eauto with keeps nocore.
Qed.

(** A whole tick keeps what hosts rely on. *)
Lemma kept_tick fuel at_ : kept_op (tick fuel at_).
Proof.
  intros h Hg. unfold tick. cbv zeta.
  assert (moves h (h <| h_report := TickReport.default |>)) as Hk0 by by apply inv_report.
  keep_call (call open_runs (h <| h_report := TickReport.default |>)); [keep|].
  destruct r as [rows|error]; cbn [fst]; [|keep].
  keep_call (leases rows at_ (retain_open rows h0)); [keep|]. cbn [fst].
  apply moves_then; [apply kept_tick_parts|]. unfold mark_seen. keep.
Qed.
End ticking.

(** ** What hosts rely on of each other *)
Section relied_on.
Local Set Default Proof Using "laws inherent_laws serde_laws".
Context {serde : Serde} {serde_laws : SerdeLaws serde} {host_serde : HostSerde} {ulid : Ulid} (F : string → option FlowDef).
Context {S O : Type} {store : RunStore S} {inherent : InherentStore S} {outside : Outside O}.
Context {laws : RunStoreLaws S (rely F)} {inherent_laws : InherentLaws S (rely F)}.
Local Abbreviation Host := (@Runner.Host S O).
Implicit Types h : Host.

Definition relied_on : HostCalls (S:=S) (O:=O).
Proof.
  refine {| inv := good F; moves := keeps F; s_inv := valid; s_moves := reads F |}.
  - apply keeps_self.
  - intros *. apply keeps_trans.
  - by intros h h' [? _].
  - by intros.
  - intros *. apply reads_trans.
  - by intros s s' [? _].
  - intros A op h Hop Hg. unfold call. specialize (Hop _ (good_valid _ _ Hg)).
    destruct (op (h_store h)) as [s a] eqn:E. eapply (call_reads F op h _ a); [done| |done].
    unfold call. by rewrite E.
  - intros key s Hv. destruct (get key s) as [s' r] eqn:E. by apply get_law in E as (? & ? & _).
  - intros key from to s Hk Hv. destruct (compare_and_set key from to s) as [s' r] eqn:E.
    apply cas_law in E as (Hv' & v & Ho & _ & Hc); [|done]. split; [done|]. simpl. etrans; [exact Ho|].
    by eapply (cas_rely F (Cas.Mk key from to)).
  - intros run owner at_ s Hv. destruct (acquire_or_renew run owner at_ s) as [s' r] eqn:E.
    by apply (acquire_or_renew_law F) in E as (? & ? & _).
  - intros run event s Hb Hv. destruct (enqueue run event [] s) as [s' r] eqn:E.
    apply enqueue_law in E as (Hv' & v & Ho & _ & Hc); [|done]. split; [done|]. simpl.
    etrans; [exact Ho|]. eapply (enqueue_rely F _ _ []); [|done..].
    unfold filed. by rewrite Hb.
  - intros s Hv. destruct (open_runs s) as [s' r] eqn:E. by apply open_runs_law in E as (? & ? & _).
  - intros at_ s Hv. destruct (due_timers at_ s) as [s' r] eqn:E.
    by apply due_timers_law in E as (? & ? & _).
  - intros A op h _ Hg. destruct (ask op h) as [h' a] eqn:E. by eapply ask_keeps.
  - intros run g h Hc Hg. apply set_cache_keeps; [done|]. intros s. rewrite Hc. by apply Hg.
  - intros. by apply drop_run_keeps.
  - intros rows h Hg. split; [|done]. split; try apply Hg. intros run s. unfold cache, retain_open. simpl.
    intros Hs. apply (good_cache _ _ Hg). unfold cache.
    destruct (filter _ _ !! run) as [c|] eqn:E; [|done]. by apply map_lookup_filter_Some in E as [-> _].
  - intros. by apply same_parts_keeps.
  - intros. by apply same_parts_keeps.
Defined.

Local Existing Instance relied_on.

Lemma relied_on_ask {A} (op : O → O * A) : kept_op (calls:=relied_on) (ask op).
Proof. intros h Hg. destruct (ask op h) as [h' a] eqn:E. by eapply ask_keeps. Qed.

Global Instance relied_on_acts : HostActs relied_on.
Proof.
  split.
  - intros. apply kept_find_or_post_any; [|done]. intros. apply relied_on_ask.
  - intros. apply kept_stop_any. intros. apply relied_on_ask.
  - intros row h Hg. destruct (loaded_state row h) eqn:E. by eapply loaded_state_keeps in E as [? _].
  - intros turns row epoch turn_owed h Hg. destruct (fold_run turns row epoch turn_owed h) eqn:E.
    by eapply fold_run_keeps.
  - intros row epoch at_ h Hg. by apply withdraw_exit_keeps.
Qed.

(** A whole tick keeps it. *)
Lemma tick_keeps fuel at_ h : good F h → keeps F h (tick fuel at_ h).1.
Proof.
  apply (kept_tick (calls:=relied_on)). intros next h' Hg. by apply same_parts_keeps.
Qed.
End relied_on.

(** ** Invariants beside the store

    A part of the host that no call of the store and nothing in memory touches: the state of the outside, or
    the rotation of the turns. A relation on it that every harmless call of the outside keeps is kept by
    every operation of [Runner], so with the two acts it is an instance of the walk of [HostTicks]. *)
(** A part of the host with an invariant and a relation of it. *)
Class Part_of {S O X : Type} (part : @Host S O → X) := {
  part_store s h : part (h <| h_store := s |>) = part h;
  part_runs runs h : part (h <| h_runs := runs |>) = part h;
  part_track track h : part (h <| h_track := track |>) = part h;
  part_report report h : part (h <| h_report := report |>) = part h;
}.

Section aside.
Local Unset Default Proof Using.
Context {serde : Serde} {host_serde : HostSerde} {ulid : Ulid} {S O : Type} {store : RunStore S}.
Context {inherent : InherentStore S} {outside : Outside O}.
Local Abbreviation Host := (@Runner.Host S O).
Implicit Types h : Host.
Context {X : Type} (part : Host → X) {is_part : Part_of part} (ok : X → Prop) (step : X → X → Prop).
Context (step_refl : ∀ x, ok x → step x x).
Context (step_trans : ∀ x y z, step x y → step y z → step x z).
Context (step_after : ∀ x y, step x y → ok y).
Context (step_ask : ∀ A (op : O → O * A) h,
  harmless op → ok (part h) → step (part h) (part (ask op h).1)).

Definition aside : HostCalls (S:=S) (O:=O).
Proof.
  refine {| inv h := ok (part h); moves h h' := step (part h) (part h');
            s_inv _ := True; s_moves _ _ := True |}; eauto.
  - intros A op h _ Hg. unfold call. destruct (op (h_store h)) as [s a]. simpl. rewrite part_store. auto.
  - intros run g h _ Hg. unfold set_cache. rewrite part_runs. auto.
  - intros run h Hg. unfold drop_run. rewrite part_runs. auto.
  - intros rows h Hg. unfold retain_open. rewrite part_runs. auto.
  - intros track h Hg. rewrite part_track. auto.
  - intros report h Hg. rewrite part_report. auto.
Defined.

Local Existing Instance aside.

Lemma reading_any {A} (op : S → S * A) : reading op.
Proof. by intros s. Qed.
Lemma kept_set_cache run c : kept (set_cache run c).
Proof. intros h Hg. unfold set_cache. simpl. rewrite part_runs. auto. Qed.
Lemma kept_set_cached_state run state : kept (set_cached_state run state).
Proof. intros h Hg. unfold set_cached_state. apply kept_set_cache, Hg. Qed.
Lemma kept_mark_read_only run why : kept (mark_read_only run why).
Proof. intros h Hg. unfold mark_read_only. apply kept_set_cache, Hg. Qed.
Lemma kept_report report : kept (λ h, h <| h_report := report |>).
Proof. intros h Hg. by apply inv_report. Qed.
Hint Resolve reading_any kept_set_cache kept_set_cached_state kept_mark_read_only kept_report : keeps.

Lemma kept_fold_whole run def events : kept_op (fold_whole run def events).
Proof. intros h Hg. unfold fold_whole. keep. Qed.
Hint Resolve kept_fold_whole : keeps.
Lemma kept_fold_pinned run first events : kept_op (fold_pinned run first events).
Proof. intros h Hg. unfold fold_pinned. keep. Qed.
Hint Resolve kept_fold_pinned : keeps.
Lemma kept_fold_loaded row events : kept_op (fold_loaded row events).
Proof. intros h Hg. unfold fold_loaded. keep. Qed.
Hint Resolve kept_fold_loaded : keeps.
Lemma aside_loaded row : kept_op (loaded_state row).
Proof. intros h Hg. unfold loaded_state. keep. Qed.
Lemma kept_append_refused run error : kept (append_refused run error).
Proof. intros h Hg. unfold append_refused. keep. Qed.
Hint Resolve aside_loaded kept_append_refused : keeps.
Lemma kept_consume_poison row epoch key : kept (consume_poison row epoch key).
Proof. intros h Hg. unfold consume_poison. keep. Qed.
Hint Resolve kept_consume_poison : keeps.
Lemma kept_count_poison row epoch key : kept_op (count_poison row epoch key).
Proof. intros h Hg. unfold count_poison. keep. Qed.
Hint Resolve kept_count_poison : keeps.
Lemma kept_commit_attempts retries row epoch state key events next :
  kept_op (commit_attempts retries row epoch state key events next).
Proof.
  induction retries as [|retries IH]; intros h Hg; cbn [commit_attempts]; keep;
    (eapply moves_trans; [|apply kept_report; eapply moves_after]); keep.
Qed.
Hint Resolve kept_commit_attempts : keeps.
Lemma kept_step_input row epoch : kept_op (step_input row epoch).
Proof. intros h Hg. unfold step_input, commit_input. keep. Qed.
Hint Resolve kept_step_input : keeps.
Lemma aside_fold turns row epoch turn_owed : kept_op (fold_run turns row epoch turn_owed).
Proof.
  revert turn_owed; induction turns as [|turns IH]; intros turn_owed h Hg; cbn [fold_run]; keep.
Qed.
Lemma kept_may_live sessions : kept_op (may_live sessions).
Proof. induction sessions as [|key sessions IH]; intros h Hg; cbn [may_live]; keep. Qed.
Lemma kept_give_back_claim row : kept_op (give_back_claim row).
Proof. intros h Hg. unfold give_back_claim. keep. Qed.
Hint Resolve kept_may_live kept_give_back_claim : keeps.
Lemma aside_exit row epoch at_ : kept (withdraw_exit row epoch at_).
Proof. intros h Hg. unfold withdraw_exit. keep. Qed.

(** With what posts and signals do, it goes through a tick. *)
Lemma aside_acts :
  (∀ run epoch thread sender refs key body,
     speaks body → kept_op (find_or_post run epoch thread sender refs key body)) →
  (∀ run epoch key kind nth at_, kept_op (stop run epoch key kind nth at_)) →
  HostActs aside.
Proof. intros Hp Hs. split; auto using aside_loaded, aside_fold, aside_exit. Qed.
End aside.
