(* ===== verification/Armed.v ===== *)
(** * The timer index is the run's timers

    The store derives which timers are armed from the events it appends; the engine keeps them in the state
    of the run. For every log hosts write, the two are the same. *)

From S2P Require Import Prelude Text Ids Codes Events Flow State Effects Guard Input Evolve Decide Host Contract Sqlite StoreSpec SqliteFacts Runner Spec Replay Logs.
From stdpp Require Import options.

(** The armed timers of a state, as the index writes them. *)
Definition arms (s : RunState) : gmap string (Timestamp * string) :=
  (λ a, (fire_at a, as_str (purpose a))) <$> RunState.timers s.

(** A finished run has none. *)
Definition quiet (s : RunState) : Prop := State.is_finished s = true → RunState.timers s = ∅.

Lemma act_input_timers_eq s input :
  RunState.timers (act_input s input) =
  match Event.body input with
  | EventBody.TimerFired timer _ => delete timer (RunState.timers s)
  | _ => RunState.timers s
  end.
Proof. input_cases; by cbn. Qed.

Lemma arms_lookup s timer : fst <$> arms s !! timer = fire_at <$> RunState.timers s !! timer.
Proof. unfold arms. rewrite lookup_fmap. by destruct (RunState.timers s !! timer). Qed.

Lemma evolve_decision_arms s e d s' :
  Event.body e = EventBody.Decision d → evolve s e = Ok s' → arms s' = timer_event (arms s) e.
Proof.
  intros Hb He. unfold evolve in He. destruct (is_unknown_decision e); [done|].
  rewrite Hb in He. injection He as <-. unfold arms. cbn [RunState.timers set_field set_RunState_seq].
  rewrite apply_decision_timers. unfold timer_event. rewrite Hb.
  destruct d; try done; [by rewrite fmap_insert|by rewrite fmap_delete].
Qed.

Lemma evolve_input_arms s e s' :
  is_decision (Event.body e) = false → quiet s → evolve s e = Ok s' →
  arms s' = timer_event (arms s) e.
Proof.
  intros Hd Hq He. unfold evolve in He. destruct (is_unknown_decision e); [done|].
  assert (s' = (apply_input s e) <| RunState.seq := Event.seq e |>) as ->
    by (destruct (Event.body e); by simplify_eq). clear He.
  unfold timer_event. unfold arms at 1. cbn [RunState.timers set_field set_RunState_seq].
  unfold apply_input. destruct (ignored_reason s e) as [reason|] eqn:Ei.
  - destruct (Event.body e) eqn:Eb; try done. rewrite arms_lookup.
    unfold ignored_reason in Ei. rewrite Eb in Ei. destruct (State.is_finished s) eqn:Ef.
    + rewrite bool_decide_eq_false_2; [done|]. by rewrite (Hq Ef), lookup_empty.
    + case_bool_decide; [done|]. done.
  - rewrite act_input_timers_eq. destruct (Event.body e) eqn:Eb; try done. rewrite arms_lookup.
    unfold ignored_reason in Ei. rewrite Eb in Ei. destruct (State.is_finished s) eqn:Ef; [done|].
    case_bool_decide; [|done]. by rewrite fmap_delete.
Qed.

Lemma fold_decisions_arms s events s' :
  Forall (λ e, is_decision (Event.body e) = true) events → fold_from s events = Folded.Whole s' →
  arms s' = fold_left timer_event events (arms s).
Proof.
  intros Hd. revert s; induction Hd as [|e events He _ IH]; intros s H; simpl in H; [by simplify_eq|].
  destruct (evolve s e) as [s1|] eqn:E; [|done]. simpl. rewrite (IH _ H). f_equal.
  destruct (Event.body e) eqn:Eb; try done. by eapply evolve_decision_arms.
Qed.

Lemma reduce_events_decisions s input :
  Forall (λ e, is_decision (Event.body e) = true) (tail (reduce_events s input)).
Proof.
  unfold reduce_events. simpl. apply Forall_lookup. intros i e. rewrite list_lookup_imap.
  intros (d & _ & ->)%fmap_Some. done.
Qed.

Lemma step_arms s events next :
  quiet s → step s events next → arms next = fold_left timer_event events (arms s).
Proof.
  intros Hq Hstep. apply step_fold in Hstep as Hf.
  destruct Hstep as [input events next Hd Hr|at_ key next He].
  - assert (events = reduce_events s input) as -> by (unfold reduce in Hr; case_match; by simplify_eq).
    assert (Hds := reduce_events_decisions s input). unfold reduce_events in *.
    cbn [fold_from tail fold_left] in *. destruct (evolve s (logged_input s input)) as [s1|] eqn:E; [|done].
    rewrite (fold_decisions_arms _ _ _ Hds Hf). f_equal. by eapply evolve_input_arms.
  - by eapply evolve_decision_arms.
Qed.

(** ** Only the last event of a run is [finished] *)
Lemma apply_decision_not_finished at_ s d :
  State.is_finished s = false → (∀ o reason, d ≠ Decision.Finished o reason) →
  State.is_finished (apply_decision at_ s d) = false.
Proof.
  unfold State.is_finished. rewrite apply_decision_phase. intros Hs Hd.
  destruct d; try done; [by destruct (RunState.phase s)|by edestruct Hd].
Qed.

Lemma fold_not_finished at_ ds s :
  State.is_finished s = false → Forall (λ d, ∀ o reason, d ≠ Decision.Finished o reason) ds →
  State.is_finished (foldl (apply_decision at_) s ds) = false.
Proof.
  intros Hs Hds. revert s Hs; induction Hds as [|d ds Hd _ IH]; intros s Hs; simpl; [done|].
  by apply IH, apply_decision_not_finished.
Qed.

Lemma apply_input_not_finished s input : State.is_finished s = false → State.is_finished (apply_input s input) = false.
Proof.
  intros Hs. unfold apply_input. case_match; [done|]. unfold State.is_finished in *.
  destruct (act_input_phase s input) as [->|[(? & ? & _ & ->)|(? & ? & ? & ? & _ & _ & ->)]]; done.
Qed.

Lemma decided_quiet s input :
  is_decision (Event.body input) = false → quiet s → quiet (decided s input).
Proof.
  intros Hd Hq. destruct (State.is_finished s) eqn:Ef.
  { assert (ignored_reason s input = Some ReasonCode.FinalState) as Hi
      by (unfold ignored_reason; by rewrite Ef).
    unfold decided, decide, apply_input. rewrite Hi. simpl. exact Hq. }
  intros Hfin. assert (Hs := apply_input_not_finished s input Ef).
  destruct (ignored_reason s input) as [reason|] eqn:Hi.
  { unfold decided, decide in Hfin. rewrite Hi in Hfin. simpl in Hfin. congruence. }
  assert (Event.body input = EventBody.ClaimReleased ∨ Event.body input ≠ EventBody.ClaimReleased)
    as [Hb|Hb] by (destruct (Event.body input); (by left) || (by right)).
  - unfold decided, decide in *. rewrite Hi in *. unfold emit_input, emit_start, finished in *.
    rewrite Hb in *. cbn [Emit.state Emit.out] in *.
    destruct (RunState.phase (apply_input s input)) eqn:Ep; simpl in *; try congruence.
  - exfalso. unfold decided in Hfin. rewrite fold_not_finished in Hfin; [done|done|].
    apply Forall_forall. intros d Hin o reason ->.
    apply decide_may in Hin as (pre & post & _ & Hmay); [|done]. inversion Hmay; congruence.
Qed.

Lemma step_quiet s events next : quiet s → step s events next → quiet next.
Proof.
  intros Hq [input events' next' Hd Hr|at_ key next' He].
  - rewrite reduce_spec in Hr by done. case_match; simplify_eq.
    apply (decided_quiet s (logged_input s input)); [done|done].
  - unfold evolve in He. simpl in He. simplify_eq. exact Hq.
Qed.

(** ** A log of hosts *)
Lemma hosted_arms run def log s : hosted run def log s → quiet s ∧ arms s = armed_of log.
Proof.
  induction 1 as [|log s events next H [Hq IH] Hstep _|log s w at_ key next H [Hq IH] Hne Hw Hf].
  - split; [done|]. unfold arms, armed_of. simpl. by rewrite fmap_empty.
  - split; [by eapply step_quiet|]. unfold armed_of. rewrite fold_left_app.
    rewrite (step_arms _ _ _ Hq Hstep). by rewrite IH.
  - rewrite armed_of_app. simpl in Hf. unfold number in Hf. simpl in Hf.
    destruct (evolve s _) as [s1|] eqn:E1; [|done]. simplify_eq. split; [done|].
    unfold arms. simpl. by rewrite fmap_empty.
Qed.

(** ** Purposes *)

(** Every armed timer of a log that was folded has a purpose this version knows. *)
Definition purposes_known (s : RunState) : Prop :=
  map_Forall (λ _ armed, is_TimerPurpose_unknown (purpose armed) = false) (RunState.timers s).

Lemma evolve_purposes s e s' : evolve s e = Ok s' → purposes_known s → purposes_known s'.
Proof.
  intros He Hs. unfold evolve in He. destruct (is_unknown_decision e) eqn:Eu; [done|].
  unfold purposes_known, is_unknown_decision, holds_unknown_value in *.
  destruct (Event.body e) eqn:Eb; simplify_eq/=;
    try (unfold apply_input; destruct (ignored_reason s e); simpl; [done|];
         rewrite act_input_timers_eq, Eb; done || by apply map_Forall_delete).
  rewrite apply_decision_timers. destruct d; try done.
  - by apply map_Forall_insert_2.
  - by apply map_Forall_delete.
Qed.

Lemma fold_from_purposes s log s' :
  fold_from s log = Folded.Whole s' → purposes_known s → purposes_known s'.
Proof.
  revert s; induction log as [|e log IH]; intros s H Hs; simpl in H; [by simplify_eq|].
  destruct (evolve s e) as [s1|] eqn:E; [|done]. eapply IH; [done|]. by eapply evolve_purposes.
Qed.

Lemma hosted_purposes run def log s : hosted run def log s → purposes_known s.
Proof. intros H%hosted_fold. by eapply fold_from_purposes. Qed.

(** A known purpose reads back. *)
Lemma known_purpose_reads_back p : is_TimerPurpose_unknown p = false → parse (as_str p) = p.
Proof. intros Hp. by destruct (parse_as_str p) as [|(raw & -> & _)]. Qed.
