(* ===== verification/StoreFacts.v ===== *)
(** * What the SQLite store guarantees

    The refinement of the contract, the derived columns of any file, fencing and the round trip through the
    log; and a codec and a small file the witnesses are evaluated on. *)

From S2P Require Import Prelude Text Ids Codes Events Flow State Decide Host Examples Contract Sqlite StoreSpec SqliteFacts Runner.
From stdpp Require Import options.
From Stdlib Require Import Ascii.

(** ** A codec

    Values are written as the binary digits of their number, events as they are. *)
Fixpoint bits (p : positive) : string :=
  match p with
  | xH => ""
  | xO p => String "0"%char (bits p)
  | xI p => String "1"%char (bits p)
  end.

Fixpoint unbits (s : string) : option positive :=
  match s with
  | "" => Some xH
  | String c s =>
      if Ascii.eqb c "0"%char then xO <$> unbits s
      else if Ascii.eqb c "1"%char then xI <$> unbits s else None
  end.

Lemma unbits_bits p : unbits (bits p) = Some p.
Proof. induction p as [p IH|p IH|]; simpl; [by rewrite IH..|done]. Qed.

Definition to_bits `{Countable A} (a : A) : Bytes := bits (encode a).
Definition of_bits `{Countable A} (b : Bytes) : option A := p ← unbits b; decode p.

Lemma of_to_bits `{Countable A} (a : A) : of_bits (to_bits a) = Some a.
Proof. unfold of_bits, to_bits. rewrite unbits_bits. simpl. apply decode_encode. Qed.

Definition lease_parts (l : Lease) : string * N * Z :=
  (Lease.owner_id l, Lease.epoch l, Lease.expires_at l).
Definition entry_parts (x : EffectEntry) : string * N := (EffectEntry.state x, EffectEntry.epoch x).

Global Instance sample_serde : Serde := {
  Text := Event;
  event_to_string := Some;
  event_from_str := Some;
  lease_to_vec l := Some (to_bits (lease_parts l));
  lease_from_slice b := '(owner, epoch, at_) ← of_bits b; Some (Lease.Mk owner epoch at_);
  entry_to_vec x := Some (to_bits (entry_parts x));
  entry_from_slice b := '(state, epoch) ← of_bits b; Some (EffectEntry.Mk state epoch);
  instant_to_vec t := Some (to_bits t);
  instant_from_slice := of_bits;
  count_to_vec n := Some (to_bits n);
  count_from_slice := of_bits;
  flow_from_slice b := if bool_decide (b = "the sample flow") then Some sample_def else None;
}.

Global Instance sample_laws : SerdeLaws sample_serde.
Proof.
  split; simpl; [by intros ? ? [= ->]|..]; intros x b [= <-]; rewrite of_to_bits; by destruct x.
Qed.

Global Instance sample_ulid : Ulid := λ _, true.

(** ** A file with one run in it *)
Definition sample_lease : Lease := Lease.Mk "h-1" 1 31000.
Definition next_lease : Lease := Lease.Mk "h-2" 2 91000.
Definition lease_bytes (l : Lease) : Bytes := to_bits (lease_parts l).

Definition sample_calls : list Call :=
  [Call.CompareAndSet "flow/sha256:00" None (Some "the sample flow");
   Call.Enqueue sample_run commissioned_input [];
   Call.CompareAndSet (owner_key sample_run) None (Some (lease_bytes sample_lease))].

Definition sample_tables : Tables := performs new_tables sample_calls.

Lemma sample_tables_ok : store_ok sample_tables.
Proof. apply performs_ok, new_tables_ok. Qed.

(** The commission's append, as the host makes it. *)
Definition sample_events : list Event :=
  reduce_events (initial sample_run sample_def) (commissioned_input <| Event.seq := 0 |>).

Example sample_append :
  (sql_append None sample_run 0 1 sample_events ["c"] [] sample_tables).2 =
  Ok (Appended.Mk 3 [TimerChange.Mk ROOT_DEADLINE_TIMER TimerChangeKind.Armed 61000]).
Proof. vm_compute. reflexivity. Qed.

(** ** Refinement *)

(** C2: the SQLite store implements the contract of [RunStore]. On tables whose derived columns agree with
    the log, [append], [enqueue] and [compare_and_set] leave such tables again, whatever their arguments and
    whether or not SQLite fails the call, and each takes one step of its contract, in which every answer
    has its cause. A call that is malformed is refused; of the others, one SQLite fails answers with that
    failure and nothing else does. An append then checks the fence, the run, the position and the version in
    this order and reports the first that fails; a key that is in the log already is reported with its
    position, and that alone of the errors writes: it consumes the inbox rows. Then the commission has to
    open the log, every event to be writable and every compare-and-set to hold in turn. An append that is
    accepted adds the events at the next positions, consumes, compares and sets, and answers with the
    last position and with what its events change in the timers the log leaves armed. Every other error leaves
    the store as it was. *)
Theorem calls_refine {serde : Serde} {laws : SerdeLaws serde} {ulid : Ulid} (t : Tables) fault t' :
  store_ok t →
  (∀ run expected_seq fence events consume cas r,
     sql_append fault run expected_seq fence events consume cas t = (t', r) →
     store_ok t' ∧
     append_within (λ f, fault = Some f) run expected_seq fence events consume cas
       (view_of t) r (view_of t') ∧
     (∀ f, fault = Some f → check_call run events cas = Ok tt → r = Err (db f))) ∧
  (∀ run event cas r,
     sql_enqueue fault run event cas t = (t', r) →
     store_ok t' ∧
     enqueue_within (λ f, fault = Some f) run event cas (view_of t) r (view_of t') ∧
     (∀ f, fault = Some f → check_call run [event] cas = Ok tt → r = Err (db f))) ∧
  (∀ key from to r,
     sql_compare_and_set fault key from to t = (t', r) →
     store_ok t' ∧
     cas_within (λ f, fault = Some f) (Cas.Mk key from to) (view_of t) r (view_of t') ∧
     (∀ f, fault = Some f → r = Err (db f))).
Proof.
  intros Hok. split_and!; intros * H.
  - destruct (sql_append_within _ _ _ _ _ _ _ _ _ _ Hok H). split_and!; [done..|]. intros f -> Hcall.
    unfold sql_append in H. rewrite Hcall in H. by simplify_eq/=.
  - destruct (sql_enqueue_within _ _ _ _ _ _ _ Hok H). split_and!; [done..|]. intros f -> Hcall.
    unfold sql_enqueue in H. rewrite Hcall in H. by simplify_eq/=.
  - destruct (sql_compare_and_set_within _ _ _ _ _ _ _ Hok H). split_and!; [done..|]. intros f ->.
    unfold sql_compare_and_set in H. by simplify_eq/=.
Qed.

Definition appended_tables : Tables :=
  (sql_append None sample_run 0 1 sample_events ["c"] [] sample_tables).1.

Lemma calls_refine_witness :
  store_ok appended_tables ∧
  append_within (λ f, None = Some f) sample_run 0 1 sample_events ["c"] [] (view_of sample_tables)
    (Ok (Appended.Mk 3 [TimerChange.Mk ROOT_DEADLINE_TIMER TimerChangeKind.Armed 61000]))
    (view_of appended_tables).
Proof.
  destruct (calls_refine sample_tables None appended_tables sample_tables_ok) as [H _].
  edestruct H as (H1 & H2 & _); [|split; [exact H1|exact H2]].
  rewrite <-sample_append. apply surjective_pairing.
Defined.

(** ** Derived columns *)

(** C26: what the store computes never disagrees with the log. After any calls by any processes on a new
    file, the positions of every run's rows are 1, 2, 3, ... without a gap and its keys are distinct, the row
    of the run carries the last position, the highest version and whether the log holds [finished], and the
    timer index arms exactly the timers the log leaves armed. *)
Theorem tables_follow_the_log {serde : Serde} {laws : SerdeLaws serde} {ulid : Ulid} calls run :
  let t := performs new_tables calls in
  events_seq <$> rows_of t run = (λ i, N.of_nat (S i)) <$> seq 0 (length (log_of t run)) ∧
  NoDup (events_key <$> rows_of t run) ∧
  (∀ row, t_runs t !! run = Some row →
     runs_last_seq row = N.of_nat (length (log_of t run)) ∧
     runs_max_v row = max_version (log_of t run) ∧
     runs_finished row = existsb (λ e, is_finished (Event.body e)) (log_of t run)) ∧
  ∀ timer, armed_at t run timer = armed_of (log_of t run) !! timer.
Proof.
  intros t. assert (store_ok t) as Hok by apply performs_ok, new_tables_ok.
  assert (Hrows := ok_rows t Hok run). split_and!.
  - apply list_eq. intros i. rewrite !list_lookup_fmap.
    destruct (rows_of t run !! i) as [row|] eqn:Ei; simpl.
    + rewrite (row_positions t run i row Hok Ei). apply lookup_lt_Some in Ei.
      rewrite lookup_seq_lt by (by rewrite (Forall2_length _ _ _ Hrows)). simpl. f_equal. lia.
    + apply lookup_ge_None in Ei. rewrite lookup_seq_ge; [done|].
      by rewrite (Forall2_length _ _ _ Hrows).
  - assert (events_key <$> rows_of t run = Event.key <$> log_of t run) as ->;
      [|apply (view_log_keys _ (ok_view t Hok))].
    clear -Hrows. induction Hrows as [|e row log rows (_ & _ & Hk & _) _ IH]; [done|].
    csimpl. by rewrite Hk, IH.
  - apply (ok_runs t Hok).
  - apply (ok_timers t Hok).
Qed.

Lemma tables_follow_the_log_witness :
  let t := performs new_tables
    (sample_calls ++ [Call.Append sample_run 0 1 sample_events ["c"] []]) in
  length (log_of t sample_run) = 3%nat ∧
  events_seq <$> rows_of t sample_run = (λ i, N.of_nat (S i)) <$> seq 0 (length (log_of t sample_run)) ∧
  NoDup (events_key <$> rows_of t sample_run) ∧
  (∀ row, t_runs t !! sample_run = Some row →
     runs_last_seq row = N.of_nat (length (log_of t sample_run)) ∧
     runs_max_v row = max_version (log_of t sample_run) ∧
     runs_finished row = existsb (λ e, is_finished (Event.body e)) (log_of t sample_run)) ∧
  ∀ timer, armed_at t sample_run timer = armed_of (log_of t sample_run) !! timer.
Proof.
  intros t. split; [vm_compute; reflexivity|].
  exact (tables_follow_the_log
    (sample_calls ++ [Call.Append sample_run 0 1 sample_events ["c"] []]) sample_run).
Defined.

(** ** Fencing *)
Section epochs.
Context {serde : Serde} {laws : SerdeLaws serde} {ulid : Ulid}.
Implicit Types (t : Tables) (v : View).

Lemma epoch_of_same kv kv' run :
  kv' !! owner_key run = kv !! owner_key run → epoch_of kv' run = epoch_of kv run.
Proof. unfold epoch_of, lease_of. by intros ->. Qed.

Lemma append_epochs run0 expected_seq fence events consume cas v r v' run :
  append_contract run0 expected_seq fence events consume cas v r v' →
  epoch_of (View.kv v') run = epoch_of (View.kv v) run.
Proof.
  intros [v1 timers [Hcall _ _ _] _ _ _ _ _ _ _ Hkv _ _|v1 seq e _ _ _ _ _ _ _ _ Hkv _
         |e v1 _ [_ Hkv]|v1 _ _ [_ Hkv]|e v1 _ _ _ _ [_ Hkv]|f v1 _ [_ Hkv]]; rewrite Hkv; try done.
  apply epoch_of_same, cas_writes_leases. by apply check_call_Ok in Hcall as (_ & _ & _ & ?).
Qed.

Lemma enqueue_epochs run0 event cas v r v' run :
  enqueue_contract run0 event cas v r v' →
  epoch_of (View.kv v') run = epoch_of (View.kv v) run.
Proof.
  intros [v1 Hcall _ _ _ _ _ _ Hkv _ _|v1 _ _ [_ Hkv]|v1 _ _ _ _ _ [_ Hkv]|e v1 _ [_ Hkv]];
    rewrite Hkv; try done.
  apply epoch_of_same, cas_writes_leases. by apply check_call_Ok in Hcall as (_ & _ & _ & ?).
Qed.

Lemma cas_epochs item v r v' run epoch :
  cas_contract item v r v' → epoch_of (View.kv v) run = Some epoch →
  ∃ epoch', epoch_of (View.kv v') run = Some epoch' ∧ epoch <= epoch'.
Proof.
  intros [v1 Hc Hlease _ Hkv _|e v1 _ [_ Hkv]] He; [|rewrite Hkv; by exists epoch].
  destruct (base.decide (Cas.key item = owner_key run)) as [Hk|Hk].
  - destruct Hlease as (bytes & new & Hto & Hnew & Hle);
      [rewrite Hk; unfold is_owner_key, owner_key; apply starts_with_app|].
    exists (Lease.epoch new). unfold epoch_of, lease_of in *. rewrite Hkv. unfold cas_write.
    rewrite Hto, Hk, lookup_insert_eq. simpl. rewrite Hnew. split; [done|].
    rewrite <-Hk, Hc in He. destruct (_ ≫= _) as [old|] eqn:Eo; simplify_eq/=. by apply Hle.
  - exists epoch. split; [|done]. rewrite <-He. apply epoch_of_same. rewrite Hkv. unfold cas_write.
    case_match; [by rewrite lookup_insert_ne|by rewrite lookup_delete_ne].
Qed.

Lemma perform_epochs t call run epoch :
  store_ok t → epoch_of (t_kv t) run = Some epoch →
  ∃ epoch', epoch_of (t_kv (perform t call)) run = Some epoch' ∧ epoch <= epoch'.
Proof using Type*.
  intros Hok He. destruct call; cbn [perform].
  - destruct (sql_enqueue None run0 event cas t) as [t' r] eqn:E.
    apply sql_enqueue_contract in E as [_ Hc]; [|done]. exists epoch. split; [|done].
    rewrite <-He. by apply (enqueue_epochs _ _ _ _ _ _ run) in Hc.
  - destruct (sql_append None run0 expected_seq fence events consume cas t) as [t' r] eqn:E.
    apply sql_append_contract in E as [_ Hc]; [|done]. exists epoch. split; [|done].
    rewrite <-He. by apply (append_epochs _ _ _ _ _ _ _ _ _ run) in Hc.
  - destruct (sql_compare_and_set None key from to t) as [t' r] eqn:E.
    apply sql_compare_and_set_contract in E as [_ Hc]; [|done].
    by apply (cas_epochs _ _ _ _ run epoch) in Hc.
Qed.

Lemma performs_epochs calls t run epoch :
  store_ok t → epoch_of (t_kv t) run = Some epoch →
  ∃ epoch', epoch_of (t_kv (performs t calls)) run = Some epoch' ∧ epoch <= epoch'.
Proof using Type*.
  unfold performs. revert t epoch; induction calls as [|call calls IH]; intros t epoch Hok He.
  { by exists epoch. }
  destruct (perform_epochs t call run epoch Hok He) as (e1 & He1 & Hle).
  destruct (IH (perform t call) e1) as (e2 & He2 & Hle2); [by apply perform_ok|done|].
  exists e2. split; [done|]. lia.
Qed.
End epochs.

(** C25: a host that lost a run writes nothing to it again. Once the lease of a run is at a higher epoch, no
    sequence of calls by any processes lets an append under the old epoch succeed: it answers with an error
    and leaves the tables as they are. *)
Theorem stale_owner_is_fenced {serde : Serde} {laws : SerdeLaws serde} {ulid : Ulid}
    (t : Tables) calls run epoch fence fault expected_seq events consume cas t' r :
  store_ok t → epoch_of (t_kv t) run = Some epoch → fence < epoch →
  sql_append fault run expected_seq fence events consume cas (performs t calls) = (t', r) →
  t' = performs t calls ∧ ∃ e, r = Err e ∧
    (check_call run events cas = Ok tt → fault = None → e = StoreError.Fenced).
Proof.
  intros Hok He Hlt H. destruct (performs_epochs calls t run epoch Hok He) as (now & Hnow & Hle).
  assert (Hok' := performs_ok calls t Hok). unfold sql_append in H.
  destruct (check_call run events cas) as [[]|e];
    [|simplify_eq; split; [done|]; by exists e].
  destruct fault as [f|]; simpl in H; [simplify_eq; split; [done|]; by exists (db f)|].
  unfold append_tx in H.
  destruct (current_epoch (performs t calls) run) as [now'|e] eqn:Ec.
  - apply current_epoch_Ok in Ec as ->. rewrite Hnow in H.
    rewrite bool_decide_eq_false_2 in H by (intros [= ->]; lia).
    simplify_eq/=. split; [done|]. by exists StoreError.Fenced.
  - exfalso. unfold current_epoch, decode_lease, select_kv in Ec. unfold epoch_of, lease_of in Hnow.
    destruct (t_kv _ !! _) as [b|]; [|done]. simpl in Hnow. by destruct (lease_from_slice b).
Qed.

Lemma stale_owner_is_fenced_witness :
  let t := performs sample_tables
    [Call.CompareAndSet (owner_key sample_run) (Some (lease_bytes sample_lease))
       (Some (lease_bytes next_lease))] in
  let calls := [Call.Append sample_run 0 2 sample_events ["c"] []] in
  (sql_append None sample_run 3 1 sample_events [] [] (performs t calls)).1 = performs t calls ∧
  ∃ e, (sql_append None sample_run 3 1 sample_events [] [] (performs t calls)).2 = Err e ∧
    (check_call sample_run sample_events [] = Ok tt → @None Fault = None → e = StoreError.Fenced).
Proof.
  intros t calls. apply (stale_owner_is_fenced t calls sample_run 2 1 None 3 sample_events [] []).
  - apply performs_ok, sample_tables_ok.
  - vm_compute. reflexivity.
  - reflexivity.
  - apply surjective_pairing.
Defined.

(** ** Round trip *)

(** What was appended is what is loaded. After an append that succeeded, loading the run from the
    position it started at gives the appended events, in order and at the positions after it, and loading
    from the beginning gives the earlier log followed by them; the inbox no longer holds the consumed rows. *)
Lemma append_then_load {serde : Serde} {laws : SerdeLaws serde} {ulid : Ulid}
    (t : Tables) run expected_seq fence events consume cas t' appended :
  store_ok t →
  sql_append None run expected_seq fence events consume cas t = (t', Ok appended) →
  (sql_load None run expected_seq t').2 = Ok (number (N.to_nat expected_seq) events) ∧
  (sql_load None run 0 t').2 = Ok (log_of t run ++ number (N.to_nat expected_seq) events) ∧
  Appended.last_seq appended = expected_seq + N.of_nat (length events) ∧
  Forall (λ key, waiting t' run key = false) consume.
Proof.
  intros Hok H. apply sql_append_contract in H as [Hok' Hc]; [|done].
  inversion Hc as [v' timers [_ _ _ Hseq] _ _ _ Hlog Hlen _ Hin _ _ _| | | | |]; subst v'.
  cbn [view_of View.log View.inbox] in *.
  assert (∀ n, (Z.of_N n <= i64_max)%Z →
    (sql_load None run n t').2 = Ok (drop (N.to_nat n) (log_of t' run))) as Hload.
  { intros n Hn. destruct (sql_load None run n t') as [t1 r] eqn:E. simpl. unfold sql_load, query,
      transaction, sql_u64 in E. rewrite (proj2 (Z.leb_le _ _) Hn), event_rows_drop in E by done.
    erewrite collect_decode_rows in E by by apply Forall2_drop, ok_rows. by simplify_eq. }
  rewrite Hlog, length_app, number_length in *. subst expected_seq. rewrite !Nat2N.id in *. split_and!.
  - rewrite Hload by lia. by rewrite Nat2N.id, drop_app_length.
  - by rewrite Hload by (unfold i64_max; lia).
  - cbn. lia.
  - apply Forall_forall. intros key Hk. destruct (waiting t' run key) eqn:Ew; [|done].
    apply waiting_iff in Ew; [|done]. rewrite Hin in Ew.
    apply list_elem_of_fmap in Ew as (e & -> & [Hn _]%list_elem_of_filter). done.
Qed.

Lemma append_then_load_witness :
  (sql_load None sample_run 0 appended_tables).2 = Ok (number 0 sample_events) ∧
  (sql_load None sample_run 0 appended_tables).2 = Ok (log_of sample_tables sample_run ++ number 0 sample_events) ∧
  Appended.last_seq
    (Appended.Mk 3 [TimerChange.Mk ROOT_DEADLINE_TIMER TimerChangeKind.Armed 61000]) =
    0 + N.of_nat (length sample_events) ∧
  Forall (λ key, waiting appended_tables sample_run key = false) ["c"].
Proof.
  apply (append_then_load sample_tables sample_run 0 1 sample_events ["c"] []).
  - apply sample_tables_ok.
  - rewrite <-sample_append. apply surjective_pairing.
Defined.
