(* ===== verification/Around.v ===== *)
(** * A world for the examples

    One instance of [Outside], evaluated in the examples and witnesses: messages and signals are recorded,
    sessions report the facts they are given, files are a map. *)

From S2P Require Import Prelude Text Utf8 Ids Codes Events Flow State Effects Ports Contract Sqlite Runner Execute StoreFacts.
From stdpp Require Import options.

Record Around := MkAround {
  ar_clock : Timestamp;
  ar_budget : list bool;
  ar_minted : N;
  ar_posts : list (MessageId * Key);
  ar_signals : list (SessionKey * bool);
  ar_started : list SessionKey;
  ar_facts : list (SessionKey * DrainedFact);
  ar_files : gmap string string;
  ar_results : list (TreeOp * TreeResult);
}.

Definition quiet_world : Around := MkAround 3000 [] 0 [] [] [] [] ∅ [].

Definition around_budget (o : Around) : Around * bool :=
  match ar_budget o with
  | [] => (o, false)
  | gone :: rest =>
      (MkAround (ar_clock o) rest (ar_minted o) (ar_posts o) (ar_signals o) (ar_started o) (ar_facts o)
         (ar_files o) (ar_results o), gone)
  end.

Definition around_mint (o : Around) : Around * string :=
  (MkAround (ar_clock o) (ar_budget o) (ar_minted o + 1) (ar_posts o) (ar_signals o) (ar_started o)
     (ar_facts o) (ar_files o) (ar_results o), pretty (ar_minted o)).

(** A message has the place it was posted at as its id. *)
Definition around_find (thread : MessageId) (key : Key) (o : Around) : Around * option (option MessageId) :=
  (o, Some ((λ i, "m-" +:+ pretty (N.of_nat i)) <$>
            position (λ p, bool_decide (p = (thread, key))) (ar_posts o))).

Definition around_post (thread : MessageId) (key : Key) (o : Around) : Around * option MessageId :=
  (MkAround (ar_clock o) (ar_budget o) (ar_minted o) (ar_posts o ++ [(thread, key)]) (ar_signals o)
     (ar_started o) (ar_facts o) (ar_files o) (ar_results o),
   Some ("m-" +:+ pretty (N.of_nat (length (ar_posts o))))).

Definition around_stop (key : SessionKey) (force : bool) (o : Around) : Around * option unit :=
  (MkAround (ar_clock o) (ar_budget o) (ar_minted o) (ar_posts o) (ar_signals o ++ [(key, force)])
     (ar_started o) (ar_facts o) (ar_files o) (ar_results o), Some tt).

Definition around_start (spec : StartSpec) (o : Around) : Around * option StartOutcome :=
  (MkAround (ar_clock o) (ar_budget o) (ar_minted o) (ar_posts o) (ar_signals o)
     (ar_started o ++ [StartSpec.session_key spec]) (ar_facts o) (ar_files o) (ar_results o),
   Some StartOutcome.Spawned).

(** The facts of a session from an offset on; each takes one byte. *)
Definition around_drain (key : SessionKey) (from : N) (o : Around) :
    Around * option (list DrainedFact * N) :=
  let facts := snd <$> filter (λ p, p.1 = key ∧ from <= drained_offset p.2) (ar_facts o) in
  (o, Some (facts, foldr N.max from ((λ f, drained_offset f + 1) <$> facts))).

Definition around_poll (o : Around) : Around * option (TreeOp * TreeResult) :=
  match ar_results o with
  | [] => (o, None)
  | r :: rest =>
      (MkAround (ar_clock o) (ar_budget o) (ar_minted o) (ar_posts o) (ar_signals o) (ar_started o)
         (ar_facts o) (ar_files o) rest, Some r)
  end.

Definition around_replace (path text : string) (o : Around) : Around * option unit :=
  (MkAround (ar_clock o) (ar_budget o) (ar_minted o) (ar_posts o) (ar_signals o) (ar_started o)
     (ar_facts o) (<[path := text]> (ar_files o)) (ar_results o), Some tt).

Global Instance around : Outside Around := {
  clock_now o := (o, ar_clock o);
  budget_gone := around_budget;
  mint_ulid := around_mint;
  env_var _ o := (o, None);
  port_find := around_find;
  port_post thread _ _ _ key := around_post thread key;
  port_read _ o := (o, Some None);
  port_open_thread _ _ _ _ o := (o, Some tt);
  port_persona handle o := (o, Some (PersonaDecl.Mk handle None None [] false));
  port_prompt _ o := (o, Some (PromptBundle.Mk "" false [] ""));
  port_turn _ _ o := (o, Some "a turn");
  port_bundle_path o := (o, Some "bundle");
  backend_start := around_start;
  backend_nudge _ _ o := (o, Some tt);
  backend_stop := around_stop;
  backend_alive _ o := (o, Some Liveness.Dead);
  backend_drain_facts := around_drain;
  tree_begin _ o := (o, Some tt);
  tree_poll := around_poll;
  tree_cancel o := (o, tt);
  read_file path o := (o, ar_files o !! path);
  replace_file := around_replace;
}.

(** The commission every example reads. *)
Global Instance sample_host_serde : HostSerde := {
  pending_from_slice b :=
    if bool_decide (b = "the commission")
    then Some (PendingCommission.Mk "m-root" "dev" "peter" "Please." Refs_default) else None;
  route_to_vec route := Some (to_bits (route_run route, route_session_key route));
  refusal_to_vec refusal := Some (StoredRefusal.text refusal);
  refusal_from_slice text :=
    Some (StoredRefusal.Mk TreeRefusal.NotARepository text 0%Z 0%Z);
  instant_text at_ := pretty at_;
}.

Definition sample_layout : Layout := Layout.Mk "/w" "/logs" [].
