(* ===== verification/HostFacts.v ===== *)
(** * What hosts guarantee

    The operations of a host in any order over a SQLite file that others use too: the logs stay logs of runs,
    the timer index is the run's own timers, and the fold of an inbox ends. *)

From S2P Require Import Prelude Text Ids Codes Events Flow State Effects Guard Input Evolve Decide Host Examples Spec Replay Ports Contract Sqlite StoreSpec SqliteFacts Runner Execute Tick Logs HostRuns HostTicks Armed StoreFacts Around.
From stdpp Require Import options.

(** ** Ticks and restarts *)
Module HostOp.
Inductive HostOp := Tick (fuel : nat) (now : Timestamp) | Restart (owner_id : string).
End HostOp.

(** A new host on the same file: all that was in memory is gone, and its id is another. *)
Definition restart {O : Type} {serde : Serde} (owner_id : string) (h : @Host SqliteRunStore O) :
    @Host SqliteRunStore O :=
  MkHost (h_store h) (h_outside h) (h_layout h) owner_id ∅ TreeTrack.default TickReport.default (λ _, 0%nat).

Section host_ops.
Context {serde : Serde} {host_serde : HostSerde} {ulid : Ulid} {O : Type} {outside : Outside O}.

Definition host_op (h : @Host SqliteRunStore O) (op : HostOp.HostOp) : @Host SqliteRunStore O :=
  match op with
  | HostOp.Tick fuel now => (tick fuel now h).1
  | HostOp.Restart owner_id => restart owner_id h
  end.

Definition host_ops (h : @Host SqliteRunStore O) (ops : list HostOp.HostOp) : @Host SqliteRunStore O :=
  fold_left host_op ops h.

Definition host_tables (h : @Host SqliteRunStore O) : Tables := conn_tables (h_store h).

Context {laws : SerdeLaws serde} (F : string → option FlowDef).

Lemma host_ops_keep ops (h : @Host SqliteRunStore O) : good F h → keeps F h (host_ops h ops).
Proof using laws.
  unfold host_ops. revert h; induction ops as [|op ops IH]; intros h Hg; simpl.
  { by apply keeps_self. }
  assert (keeps F h (host_op h op)) as Hk.
  { destruct op; simpl; [by apply (tick_keeps F)|]. split; [|done]. split; try apply Hg.
    intros run s. unfold cache, restart. simpl. by rewrite lookup_empty. }
  eapply keeps_trans; [exact Hk|]. apply IH, Hk.
Qed.
End host_ops.

(** C3: hosts write runs. Over any ticks and restarts of a host, whatever its ports, its sessions and its
    working directory answer, with any number of other hosts and clients writing between any two of its calls
    (each of them within what this theorem shows of one host) and SQLite failing any of them: every log only
    grows, and it is one of three. It is empty; or it never opened, and holds the park that set its commission
    aside as poison and exits of a withdrawn run, nothing else; or it begins with a commission, is the steps
    of a run under the definition the commission names, each an input with the decisions of the reducer or
    the park of a poisoned row, with exits of a withdrawn run that could not be folded between them, and
    replays to the state of those steps. Without such an exit it is a run of the engine, so everything proved
    of runs holds of what is stored. *)
Theorem hosts_write_runs {serde : Serde} {host_serde : HostSerde} {laws : SerdeLaws serde} {ulid : Ulid}
    {O : Type} {outside : Outside O} (F : string → option FlowDef) ops (h : @Host SqliteRunStore O) run :
  good F h →
  let log := log_of (host_tables (host_ops h ops)) run in
  log_of (host_tables h) run `prefix_of` log ∧
  (log = [] ∨ unopened run log ∨
   ∃ e rest def s, log = e :: rest ∧ is_commissioned (Event.body e) = true ∧ flow_of F e = Some def ∧
     hosted run def log s ∧ fold_events run def log = Folded.Whole s ∧ (no_exit log → run_of run def log s)).
Proof.
  intros Hg log. destruct (host_ops_keep F ops h Hg) as [Hg' Hrely].
  assert (log_ok F run log) as Hok by apply (good_logs _ _ Hg').
  split; [apply (rely_log _ _ _ Hrely)|].
  destruct Hok as [|e rest def s Hf Hh|l Hl]; [by left| |by right; left].
  right; right. exists e, rest, def, s.
  split_and!; [done|by eapply flow_of_commissioned|done|done|by apply hosted_fold|by apply hosted_run].
Qed.

(** The tests' host: its own file, with a client that puts the opened root into the inbox before the
    second call and an I/O error at the fourth. *)
Definition sample_row : RunRow := RunRow.Mk sample_run "ws" "local" false 0 0 1000.

Definition sample_flows (hash : string) : option FlowDef :=
  if bool_decide (hash = "sha256:00") then Some sample_def else None.

Definition root_opened_input : Event :=
  input_at 2000 "o" (EventBody.RootOpened "m-root" "m-root").

Definition sample_script : list Interlude :=
  [MkInterlude (λ _, []) None;
   MkInterlude (λ _, [Call.Enqueue sample_run root_opened_input []]) None;
   MkInterlude (λ _, []) None;
   MkInterlude (λ _, []) (Some (Fault.Failed "disk I/O error"))].

Definition sample_host (script : list Interlude) : @Host SqliteRunStore Around :=
  MkHost (MkConnection sample_tables script) quiet_world sample_layout "h-1" ∅ TreeTrack.default
    TickReport.default (λ _, 0%nat).

Lemma honest_nothing {serde : Serde} {ulid : Ulid} (others : View → View → Prop) `{!Reflexive others} fault :
  honest others (MkInterlude (λ _, []) fault).
Proof. intros t _. unfold performs. simpl. reflexivity. Qed.

Lemma honest_enqueue {serde : Serde} {laws : SerdeLaws serde} {ulid : Ulid}
    (F : string → option FlowDef) run event fault :
  filed event → honest (rely F) (MkInterlude (λ _, [Call.Enqueue run event []]) fault).
Proof.
  intros Hfiled t Hok. unfold performs. cbn [fold_left perform others_do].
  destruct (sql_enqueue None run event [] t) as [t' r] eqn:E.
  apply sql_enqueue_contract in E as [_ Hc]; [|done]. cbn [fst].
  by eapply (enqueue_rely F _ _ []).
Qed.

Lemma sample_script_honest : Forall (honest (rely sample_flows)) sample_script.
Proof.
  unfold sample_script.
  repeat apply Forall_cons_2; [..|apply Forall_nil_2];
    (by apply honest_enqueue) || (apply honest_nothing; tc_solve).
Qed.

Lemma sample_kv :
  t_kv sample_tables =
  <["flow/sha256:00" := "the sample flow"]> (<[owner_key sample_run := lease_bytes sample_lease]> ∅).
Proof. vm_compute. reflexivity. Qed.

Lemma sample_good script : Forall (honest (rely sample_flows)) script → good sample_flows (sample_host script).
Proof.
  intros Hs. split.
  - split; [apply sample_tables_ok|done].
  - intros run. change (log_ok sample_flows run (log_of sample_tables run)).
    assert (log_of sample_tables run = []) as ->; [|constructor].
    unfold log_of, rows_of. assert (t_events sample_tables = []) as -> by (vm_compute; reflexivity).
    done.
  - intros hash bytes def. change (View.kv (seen sample_flows (sample_host script)))
      with (t_kv sample_tables). rewrite sample_kv. intros Hk Hd. simpl in Hd.
    destruct (bool_decide_reflect (bytes = "the sample flow")) as [->|]; simplify_eq.
    apply lookup_insert_Some in Hk as [[Hh _]|[_ Hk]].
    + unfold flow_key, String.app in Hh. simpl in Hh. simplify_eq. done.
    + apply lookup_insert_Some in Hk as [[_ Hk]|[_ Hk]]; [|by rewrite lookup_empty in Hk].
      by vm_compute in Hk.
  - intros run. apply Forall_forall. intros e He.
    change (View.inbox (seen sample_flows (sample_host script)) run) with (inbox_of sample_tables run) in He.
    apply list_elem_of_omap in He as (row & [_ Hrow]%list_elem_of_filter & He).
    assert (forallb (λ row, from_option (λ e, negb (is_reply (Event.body e))) true
      (event_from_str (inbox_body row))) (t_inbox sample_tables) = true) as Hall by (vm_compute; reflexivity).
    eapply forallb_forall in Hall; [|by apply list_elem_of_In]. rewrite He in Hall. simpl in Hall.
    unfold filed. by destruct (is_reply (Event.body e)).
  - intros run s. unfold cache, sample_host. simpl. by rewrite lookup_empty.
Qed.


Definition sample_ops : list HostOp.HostOp :=
  [HostOp.Tick 5 3000; HostOp.Restart "h-9"; HostOp.Tick 5 40000; HostOp.Tick 5 41000].

Lemma hosts_write_runs_witness :
  let h := host_ops (sample_host sample_script) sample_ops in
  let log := log_of (host_tables h) sample_run in
  length log = 9%nat ∧ log_of (host_tables (sample_host sample_script)) sample_run `prefix_of` log ∧
  (log = [] ∨ unopened sample_run log ∨
   ∃ e rest def s, log = e :: rest ∧ is_commissioned (Event.body e) = true ∧
     flow_of sample_flows e = Some def ∧ hosted sample_run def log s ∧
     fold_events sample_run def log = Folded.Whole s ∧ (no_exit log → run_of sample_run def log s)).
Proof.
  intros h log. split; [vm_compute; reflexivity|].
  exact (hosts_write_runs sample_flows sample_ops (sample_host sample_script) sample_run
    (sample_good sample_script sample_script_honest)).
Defined.

(** ** Due timers *)

(** C4: the store fires exactly what the engine armed. On a file whose derived columns agree with the log, the
    due timers of a run hosts wrote are exactly the timers armed in the state its log folds to whose instant
    has come, with their instant and purpose: no armed timer is missed, and none fires that the run cleared,
    moved or already saw fire. *)
Theorem due_timers_are_the_runs {serde : Serde} {ulid : Ulid} (t : Tables) now t' due
    run def s timer :
  store_ok t → hosted run def (log_of t run) s →
  sql_due_timers None now t = (t', Ok due) → Timer.run timer = run →
  timer ∈ due ↔
  ∃ armed, RunState.timers s !! Timer.timer timer = Some armed ∧ (fire_at armed <= now)%Z ∧
    Timer.fire_at timer = from_unix_millis (fire_at armed) ∧ Timer.purpose timer = purpose armed.
Proof.
  intros Hok Hh Hd Hrun. apply sql_due_timers_Ok in Hd as [_ Hd]; [|done].
  rewrite (Hd due eq_refl). unfold due_in. simpl. rewrite Hrun.
  destruct (hosted_arms _ _ _ _ Hh) as [_ <-]. assert (Hknown := hosted_purposes _ _ _ _ Hh).
  unfold arms. setoid_rewrite lookup_fmap_Some. split.
  - intros (at_ & word & (armed & Heq & Ha) & Hle & Hf & Hp & _). simplify_eq/=. exists armed.
    specialize (Hknown _ _ Ha). simpl in Hknown. by rewrite Hp, known_purpose_reads_back.
  - intros (armed & Ha & Hle & Hf & Hp). specialize (Hknown _ _ Ha). simpl in Hknown.
    eexists _, _. split_and!; [by exists armed|done|done| |].
    + by rewrite Hp, known_purpose_reads_back.
    + by rewrite Hp.
Qed.

Definition sample_state : RunState :=
  match reduce (initial sample_run sample_def) (commissioned_input <| Event.seq := 0 |>) with
  | Some (_, next) => next
  | None => initial sample_run sample_def
  end.

Lemma sample_hosted : hosted sample_run sample_def (log_of appended_tables sample_run) sample_state.
Proof.
  assert (log_of appended_tables sample_run = [] ++ sample_events) as -> by (vm_compute; reflexivity).
  eapply hosted_step; [constructor| |by intros _; vm_compute].
  apply (Host.step_input _ (commissioned_input <| Event.seq := 0 |>)); [done|].
  unfold sample_state, sample_events.
  destruct (reduce _ _) as [[events next]|] eqn:E; [|by vm_compute in E].
  unfold reduce in E. by case_match; simplify_eq.
Qed.

Lemma due_timers_are_the_runs_witness :
  let timer := Timer.Mk sample_run ROOT_DEADLINE_TIMER 61000 TimerPurpose.RootDeadline in
  timer ∈ [timer] ↔
  ∃ armed, RunState.timers sample_state !! ROOT_DEADLINE_TIMER = Some armed ∧ (fire_at armed <= 70000)%Z ∧
    61000%Z = from_unix_millis (fire_at armed) ∧ TimerPurpose.RootDeadline = purpose armed.
Proof.
  intros timer.
  apply (due_timers_are_the_runs appended_tables 70000 appended_tables [timer] sample_run sample_def
    sample_state timer).
  - exact (proj1 (sql_append_contract _ _ _ _ _ _ _ _ _ _ sample_tables_ok (surjective_pairing _))).
  - exact sample_hosted.
  - vm_compute. reflexivity.
  - reflexivity.
Defined.
