(* ===== verification/Exclusive.v ===== *)
(** * One host at a time

    A run is worked on under an epoch of its lease. Hosts that own a run one after the other own it under
    rising epochs, whatever their clocks say; the store refuses what an earlier one still tries to write
    ([StoreFacts]). *)

From S2P Require Import Prelude Text Utf8 Ids Codes Events Flow State Effects Guard Decide Host Examples Ports Contract Sqlite StoreSpec SqliteFacts Runner Execute Tick Logs HostRuns HostTicks StoreFacts Around HostFacts.
From stdpp Require Import options.

Section owned.
Context {serde : Serde} {serde_laws : SerdeLaws serde} {ulid : Ulid} (F : string → option FlowDef).
Context {S O : Type} {store : RunStore S} {laws : RunStoreLaws S (rely F)}.
Local Set Default Proof Using "Type*".
Implicit Types h : @Host S O.

(** An owner has, or had, an epoch of a run: no later lease has that epoch under another owner. *)
Definition had v (owner : string) (run : RunId) (epoch : Epoch) : Prop :=
  ∃ lease, lease_of (View.kv v) run = Some lease ∧ epoch <= Lease.epoch lease ∧
    (Lease.epoch lease = epoch → Lease.owner_id lease = owner).

Lemma had_later v v' owner run epoch : rely F v v' → had v owner run epoch → had v' owner run epoch.
Proof using Type.
  intros H (old & Hold & Hle & Ho). destruct (rely_leases _ _ _ H _ _ Hold) as (new & Hnew & Hle' & Ho').
  exists new. split_and!; [done|lia|]. intros Heq. rewrite Ho' by lia. apply Ho. lia.
Qed.

(** Taking the lease of a run: under the epoch answered, in a store that follows the one before. *)
Lemma acquire_had run owner at_ h h' r :
  good F h → call (acquire run owner at_) h = (h', r) →
  keeps F h h' ∧ h_owner_id h' = h_owner_id h ∧
  ∀ epoch, r = Ok (Holding.Ours epoch) →
    ∃ lease, lease_of (View.kv (seen F h')) run = Some lease ∧ Lease.epoch lease = epoch ∧
      Lease.owner_id lease = owner.
Proof.
  intros Hg H. destruct (call_eq _ _ _ _ H) as [Hop _]. unfold acquire in Hop.
  assert (h_owner_id h' = h_owner_id h) as Hid
    by (unfold call in H; destruct (acquire _ _ _ _); by simplify_eq).
  destruct (acquire_or_renew run owner at_ (h_store h)) as [s1 r1] eqn:E. injection Hop as Hs Hr.
  apply (acquire_or_renew_law F) in E as (Hv & Hrely & Hl); [|apply Hg]. subst s1.
  split_and!; [by eapply call_keeps|done|]. intros epoch ->. destruct r1 as [lease|[]]; simplify_eq/=.
  destruct (Hl _ eq_refl) as [Ho Hk]. by exists lease.
Qed.

(** The runs of a tick, each with an epoch no other owner had before. *)
Definition owns h h' (owned : list (RunRow * Epoch)) : Prop :=
  keeps F h h' ∧ ∀ row epoch, (row, epoch) ∈ owned →
    had (seen F h') (h_owner_id h) (RunRow.run row) epoch ∧
    ∀ owner before, owner ≠ h_owner_id h → had (seen F h) owner (RunRow.run row) before → before < epoch.

Lemma owns_later h h1 h' owned :
  keeps F h h1 → h_owner_id h1 = h_owner_id h → owns h1 h' owned → owns h h' owned.
Proof using Type.
  intros Hk Hid [Hk1 Hown]. split; [by eapply keeps_trans|]. intros row epoch Hin. rewrite <-Hid.
  destruct (Hown _ _ Hin) as [Hh Hb]. split; [done|]. intros owner before Hne Hbef.
  eapply Hb; [done|]. eapply had_later; [apply Hk|done].
Qed.

Lemma owns_one h h1 h' row epoch owned :
  keeps F h h1 → h_owner_id h1 = h_owner_id h → owns h1 h' owned →
  (∃ lease, lease_of (View.kv (seen F h1)) (RunRow.run row) = Some lease ∧ Lease.epoch lease = epoch ∧
     Lease.owner_id lease = h_owner_id h) →
  owns h h' ((row, epoch) :: owned).
Proof using Type.
  intros Hk Hid Hown (lease & Hlease & Hepoch & Howner).
  destruct (owns_later _ _ _ _ Hk Hid Hown) as [Hk' Hrest]. split; [done|].
  intros row' epoch' [[= -> ->]|Hin]%elem_of_cons; [|by apply Hrest]. split.
  - eapply had_later; [apply Hown|]. exists lease. split_and!; [done|lia|done].
  - intros owner before Hne Hbef. eapply had_later in Hbef as (l & Hl' & Hle & Ho); [|apply Hk].
    rewrite Hlease in Hl'. injection Hl' as <-.
    destruct (base.decide (Lease.epoch lease = before)) as [Heq|]; [|lia]. apply Ho in Heq. congruence.
Qed.

Lemma leases_owns rows at_ h h' owned : good F h → leases rows at_ h = (h', owned) → owns h h' owned.
Proof.
  revert h owned; induction rows as [|row rows IH]; intros h owned Hg H; simpl in H.
  { simplify_eq. split; [by apply keeps_self|]. intros ? ? []%not_elem_of_nil. }
  destruct (TickReport.busy (h_report h)).
  { assert (keeps F h (drop_run (RunRow.run row) h)) as Hk by by apply drop_run_keeps.
    apply (owns_later _ _ _ _ Hk); [done|]. apply IH; [apply Hk|done]. }
  destruct (call (acquire (RunRow.run row) (h_owner_id h) at_) h) as [h1 r] eqn:E.
  apply acquire_had in E as (Hk1 & Hid & Hl); [|done].
  assert (keeps F h (drop_run (RunRow.run row) h1)) as Hkd
    by (eapply keeps_trans; [exact Hk1|]; apply drop_run_keeps, Hk1).
  destruct r as [[epoch|]|error].
  - destruct (leases rows at_ h1) as [h2 owned2] eqn:E2. injection H as <- <-.
    apply (owns_one _ h1); auto. apply IH; [apply Hk1|done].
  - apply (owns_later _ _ _ _ Hkd); [done|]. apply IH; [apply Hkd|done].
  - assert (keeps F h (note_store_error error (drop_run (RunRow.run row) h1))) as Hkn
      by (eapply keeps_trans; [exact Hkd|]; apply note_store_error_keeps, Hkd).
    apply (owns_later _ _ _ _ Hkn); [by destruct error|]. apply IH; [apply Hkn|done].
Qed.
End owned.

(** C18: one host at a time. When a host with another owner id owns a run at a tick after a host owned it, its
    epoch is higher, whatever the clocks of the two say and whatever any process did to the store in between
    or during either tick, within what hosts rely on of each other. With [stale_owner_is_fenced], nothing
    the first still tries to append is accepted. *)
Theorem owners_take_turns {serde : Serde} {serde_laws : SerdeLaws serde} {ulid : Ulid}
    (F : string → option FlowDef) {O1 O2 : Type}
    (h1 h1' : @Host SqliteRunStore O1) (h2 h2' : @Host SqliteRunStore O2)
    rows1 rows2 now1 now2 owned1 owned2 row1 row2 epoch1 epoch2 :
  good F h1 → leases rows1 now1 h1 = (h1', owned1) →
  rely F (seen F h1') (seen F h2) →
  good F h2 → leases rows2 now2 h2 = (h2', owned2) →
  h_owner_id h1 ≠ h_owner_id h2 →
  (row1, epoch1) ∈ owned1 → (row2, epoch2) ∈ owned2 → RunRow.run row1 = RunRow.run row2 →
  epoch1 < epoch2.
Proof.
  intros Hg1 H1 Hrely Hg2 H2 Hne Hin1 Hin2 Hrun.
  apply (leases_owns F) in H1 as [_ Ho1]; [|done]. apply (leases_owns F) in H2 as [_ Ho2]; [|done].
  destruct (Ho1 _ _ Hin1) as [Hhad _]. destruct (Ho2 _ _ Hin2) as [_ Hb].
  apply (Hb (h_owner_id h1)); [done|]. rewrite <-Hrun. by eapply had_later.
Qed.

Lemma owners_take_turns_witness :
  let '(h1, owned1) := leases [sample_row] 40000 (sample_host []) in
  let '(h2, owned2) := leases [sample_row] 80000 (restart "h-2" h1) in
  owned1 = [(sample_row, 2)] ∧ owned2 = [(sample_row, 3)] ∧ 2 < 3.
Proof.
  destruct (leases [sample_row] 40000 (sample_host [])) as [h1 owned1] eqn:E1.
  destruct (leases [sample_row] 80000 (restart "h-2" h1)) as [h2 owned2] eqn:E2.
  assert (owned1 = [(sample_row, 2)]) as H1.
  { change owned1 with (h1, owned1).2. rewrite <-E1. vm_compute. reflexivity. }
  assert (owned2 = [(sample_row, 3)]) as H2.
  { change owned2 with (h2, owned2).2. rewrite <-E2. change h1 with (h1, owned1).1. rewrite <-E1.
    vm_compute. reflexivity. }
  split; [exact H1|]. split; [exact H2|].
  assert (Hg := sample_good [] (Forall_nil_2 _)).
  destruct (leases_owns sample_flows _ _ _ _ _ Hg E1) as [[Hg1 _] _].
  apply (owners_take_turns sample_flows (sample_host []) h1 (restart "h-2" h1) h2
    [sample_row] [sample_row] 40000 80000 owned1 owned2 sample_row sample_row 2 3 Hg E1).
  - reflexivity.
  - exact (proj1 (host_ops_keep sample_flows [HostOp.Restart "h-2"] h1 Hg1)).
  - exact E2.
  - discriminate.
  - rewrite H1. by apply list_elem_of_singleton.
  - rewrite H2. by apply list_elem_of_singleton.
  - reflexivity.
Defined.
