(* ===== verification/Drains.v ===== *)
(** * Facts before the offset

    A host remembers how far it read the facts of a session. The offset moves only after every fact before it
    was put into the inbox of the run, so a crash anywhere delivers a fact again and never loses one; the
    key of a fact makes the second delivery a duplicate. *)

From S2P Require Import Prelude Text Utf8 Ids Codes Events Flow State Effects Guard Decide Host Examples Ports Contract Sqlite StoreSpec SqliteFacts Runner Execute Tick Logs HostRuns HostTicks StoreFacts Around HostFacts.
From stdpp Require Import options.

Section drains.
Context {serde : Serde} {serde_laws : SerdeLaws serde} {host_serde : HostSerde} {ulid : Ulid}.
Context (F : string → option FlowDef) {S O : Type} {store : RunStore S} {inherent : InherentStore S}.
Context {outside : Outside O} {laws : RunStoreLaws S (rely F)} {inherent_laws : InherentLaws S (rely F)}.
Local Set Default Proof Using "Type*".
Local Existing Instance relied_on.
Implicit Types h : @Host S O.

(** A fact does not come in under the key of a person's input. *)
Lemma fact_key_input key offset : is_input_key (fact_key key offset) = false.
Proof using Type. reflexivity. Qed.

(** What has arrived stays. *)
Lemma arrived_later h h' run key :
  good F h → rely F (seen F h) (seen F h') → is_input_key key = false →
  arrived (seen F h) run key → arrived (seen F h') run key.
Proof using Type. intros Hg Hr. apply (rely_arrived _ _ _ Hr), Hg. Qed.

(** An input that was accepted is there. *)
Lemma put_arrived run key origin body at_ h h' :
  good F h → put run key origin body at_ h = (h', true) → arrived (seen F h') run key.
Proof.
  intros Hg H. unfold put in H. destruct (call (enqueue _ _ _) h) as [h1 r] eqn:E.
  destruct r as [answer|]; simplify_eq. destruct (call_eq _ _ _ _ E) as [Hop _].
  apply enqueue_law in Hop as (Hv & v & Ho & _ & Hc); [|apply Hg].
  inversion Hc as [? _ _ _ _ _ _ Hin _ _ _| ? _ Hdup [Hs _]| |]; subst.
  - left. unfold seen. rewrite Hin, fmap_app. apply elem_of_app. right. by apply list_elem_of_singleton.
  - destruct (Hs run) as (_ & Hl & Hi). eapply arrived_same; [exact Hl|exact Hi|].
    destruct Hdup as [?|?]; [by left|right]. exists key. split; [constructor|done].
Qed.

Lemma put_facts_arrived run key facts at_ h h' :
  good F h → put_facts run key facts at_ h = (h', true) →
  Forall (λ drained, arrived (seen F h') run (fact_key key (drained_offset drained))) facts.
Proof.
  revert h; induction facts as [|drained facts IH]; intros h Hg H; cbn [put_facts] in H; [done|].
  destruct (put run _ _ _ at_ h) as [h1 accepted] eqn:E. destruct accepted; [|done].
  assert (keeps F h h1) as Hk1.
  { change h1 with (h1, true).1. rewrite <-E. by apply (kept_put (calls:=relied_on F)). }
  assert (keeps F h1 h') as Hk2.
  { change h' with (h', true).1. rewrite <-H. apply (kept_put_facts (calls:=relied_on F)), Hk1. }
  constructor; [|by eapply IH; [apply Hk1|]].
  eapply arrived_later; [apply Hk1|apply Hk2|apply fact_key_input|by eapply put_arrived].
Qed.

(** ** What is in memory *)
Lemma ask_runs {A} (op : O → O * A) h : h_runs (ask op h).1 = h_runs h.
Proof using Type. unfold ask. by destruct (op (h_outside h)). Qed.

Lemma put_runs run key origin body at_ h : h_runs (put run key origin body at_ h).1 = h_runs h.
Proof using Type.
  unfold put, call. destruct (enqueue _ _ _ _) as [s [answer|[]]]; done.
Qed.

Lemma put_facts_runs run key facts at_ h : h_runs (put_facts run key facts at_ h).1 = h_runs h.
Proof using Type.
  revert h; induction facts as [|drained facts IH]; intros h; cbn [put_facts]; [done|].
  assert (H := put_runs run (fact_key key (drained_offset drained)) Origin.Adapter
    (EventBody.SessionFact key (drained_fact drained)) at_ h).
  destruct (put _ _ _ _ _ _) as [h1 []]; [|done]. by rewrite IH.
Qed.

Lemma confirm_end_runs run key at_ h : h_runs (confirm_end run key at_ h) = h_runs h.
Proof using Type.
  unfold confirm_end. assert (H := ask_runs (backend_alive key) h).
  destruct (ask (backend_alive key) h) as [h1 [[]|]]; try done. by rewrite put_runs.
Qed.

(** How far a host has read the facts of a session. *)
Definition offset_at run key h : option N := RunCache.offsets (cache run h) !! key.

Lemma same_offset run key h h' : h_runs h' = h_runs h → offset_at run key h' = offset_at run key h.
Proof using Type. unfold offset_at, cache. by intros ->. Qed.

Lemma offset_of_at run key h : offset_at run key (offset_of run key h).1 = Some (offset_of run key h).2.
Proof.
  unfold offset_at, offset_of. destruct (RunCache.offsets (cache run h) !! key) eqn:E; [done|].
  destruct (ask _ h) as [h1 text]. unfold set_offset. simpl. rewrite (cache_set F).
  destruct (base.decide (run = run)); [|done]. by apply lookup_insert_eq.
Qed.

Lemma store_offset_at run key offset h :
  offset_at run key (store_offset run key offset h) = offset_at run key h ∨
  offset_at run key (store_offset run key offset h) = Some offset.
Proof.
  unfold store_offset. assert (H := ask_runs (replace_file (offset_path key h) (pretty offset)) h).
  destruct (ask _ h) as [h1 [[]|]]; [right|left; by apply same_offset].
  unfold offset_at, set_offset. rewrite (cache_set F). destruct (base.decide (run = run)); [|done].
  by apply lookup_insert_eq.
Qed.

(** Draining a session from the host that asked for its facts. *)
Lemma drained_arrived run key stopping at_ h from facts next h1 :
  good F h1 → offset_at run key h1 = Some from → h_runs h1 = h_runs h →
  let '(h2, all) := put_facts run key facts at_ h1 in
  let h3 := if next =? from then h2 else store_offset run key next h2 in
  let h4 := if stopping && bool_decide (facts = []) then confirm_end run key at_ h3 else h3 in
  let h' := if negb all then h2 else h4 in
  offset_at run key h' = Some from ∨
  offset_at run key h' = Some next ∧
    Forall (λ drained, arrived (seen F h') run (fact_key key (drained_offset drained))) facts.
Proof.
  intros Hg Hfrom Hruns. destruct (put_facts run key facts at_ h1) as [h2 all] eqn:E.
  assert (h_runs h2 = h_runs h1) as Hr2
    by (change h2 with (h2, all).1; rewrite <-E; apply put_facts_runs).
  assert (offset_at run key h2 = Some from) as Ho2 by (by rewrite (same_offset run key h1 h2 Hr2)).
  assert (keeps F h1 h2) as Hk2.
  { change h2 with (h2, all).1. rewrite <-E. by apply (kept_put_facts (calls:=relied_on F)). }
  cbv zeta. destruct all; simpl; [|by left].
  set (h3 := if next =? from then h2 else store_offset run key next h2).
  set (h4 := if stopping && _ then _ else h3).
  assert (keeps F h2 h3) as Hk3.
  { unfold h3. destruct (next =? from); [apply keeps_self, Hk2|].
    apply (kept_store_offset (calls:=relied_on F)), Hk2. }
  assert (keeps F h3 h4) as Hk4.
  { unfold h4. destruct (stopping && _); [|apply keeps_self, Hk3].
    apply (kept_confirm_end (calls:=relied_on F)), Hk3. }
  assert (offset_at run key h4 = offset_at run key h3) as ->.
  { unfold h4. destruct (stopping && _); [|done]. apply same_offset, confirm_end_runs. }
  assert (offset_at run key h3 = Some from ∨ offset_at run key h3 = Some next) as [?|Hn].
  { unfold h3. destruct (next =? from); [by left|]. rewrite <-Ho2. apply store_offset_at. }
  - by left.
  - right. split; [done|]. eapply Forall_impl; [by eapply put_facts_arrived|]. intros x Hx.
    eapply arrived_later; [apply Hk2| |apply fact_key_input|exact Hx]. etrans; [apply Hk3|apply Hk4].
Qed.
End drains.

(** C20: no fact is skipped. When draining a session moves its offset, it moves to where the session said its
    facts end, and every fact it reported up to there has then arrived in the store: its key is in the inbox
    of the run, or the log holds what a host wrote when it consumed it, that is its own key, a decision of
    it, or the park that set it aside as poison. A refused fact leaves the offset where it is, so the facts
    are read again. Whatever the ports answer and SQLite fails, and whatever other hosts and clients do in
    between, other hosts that fold and consume the same facts among them. *)
Theorem facts_before_the_offset {serde : Serde} {serde_laws : SerdeLaws serde} {host_serde : HostSerde}
    {ulid : Ulid} {O : Type} {outside : Outside O} (F : string → option FlowDef)
    run key stopping at_ (h asking : @Host SqliteRunStore O) from facts next :
  let h' := drain_session run key stopping at_ h in
  good F h → offset_of run key h = (asking, from) →
  (ask (backend_drain_facts key from) asking).2 = Some (facts, next) →
  offset_at run key h' = Some from ∨
  offset_at run key h' = Some next ∧
    Forall (λ drained, arrived (seen F h') run (fact_key key (drained_offset drained))) facts.
Proof.
  intros h' Hg Heq. unfold h'; clear h'. assert (Hat := offset_of_at F run key h).
  assert (keeps F h (offset_of run key h).1) as Hk0 by by apply (kept_offset_of (calls:=relied_on F)).
  unfold drain_session. rewrite Heq in *. simpl in Hat, Hk0. cbv zeta.
  assert (keeps F asking (ask (backend_drain_facts key from) asking).1) as Hk1
    by (apply (kept_ask (calls:=relied_on F)); [constructor|apply Hk0]).
  assert (Hr := ask_runs (backend_drain_facts key from) asking).
  destruct (ask (backend_drain_facts key from) asking) as [h1 drained]. simpl in *. intros ->.
  assert (H := drained_arrived F run key stopping at_ asking from facts next h1).
  destruct (put_facts run key facts at_ h1) as [h2 all]. cbv zeta in H.
  destruct H as [H|[H Hall]]; [apply Hk1|by rewrite (same_offset run key asking h1 Hr)|done|..].
  - left. by destruct all.
  - right. by destruct all.
Qed.

(** A session with two facts, of which the client reads both before the offset moves. *)
Definition drained_key : SessionKey := "s-1".

Definition drained_facts : list DrainedFact :=
  [MkDrainedFact 0 (SessionFact.Started "b-1" None); MkDrainedFact 1 (SessionFact.Ended EndCause.Lost)].

Definition draining_host (script : list Interlude) : @Host SqliteRunStore Around :=
  (sample_host script) <| h_outside :=
    MkAround 3000 [] 0 [] [] [] ((λ fact, (drained_key, fact)) <$> drained_facts) ∅ [] |>.

Lemma facts_before_the_offset_witness :
  let h' := drain_session sample_run drained_key false 3000 (draining_host sample_script) in
  offset_at sample_run drained_key h' = Some 2 ∧
  (offset_at sample_run drained_key h' = Some 0 ∨
   offset_at sample_run drained_key h' = Some 2 ∧
   Forall (λ drained, arrived (seen sample_flows h') sample_run
     (fact_key drained_key (drained_offset drained))) drained_facts).
Proof.
  intros h'. split; [vm_compute; reflexivity|].
  apply (facts_before_the_offset sample_flows sample_run drained_key false 3000
    (draining_host sample_script) (offset_of sample_run drained_key (draining_host sample_script)).1
    0 drained_facts 2).
  - destruct (sample_good sample_script sample_script_honest). by split.
  - vm_compute. reflexivity.
  - vm_compute. reflexivity.
Defined.
