(* ===== verification/Posts.v ===== *)
(** * One post per key

    A message has the key of what owes it, and the chat store finds a message by its thread and key. A host
    posts only where nothing is found, with nothing of its own between the search and the post that could
    post, so over any ticks, failures and restarts no thread holds two messages with one key. *)

From S2P Require Import Prelude Text Utf8 Ids Codes Events Flow State Effects Guard Decide Host Examples Ports Contract Sqlite StoreSpec SqliteFacts Runner Execute Tick Logs HostTicks StoreFacts Around HostFacts.
From stdpp Require Import options.

(** ** What the chat store promises

    [posts] is what it holds. A search that finds nothing says so of all of it, a post adds its message or,
    when it fails, may or may not have added it, and nothing else adds any. *)
Class ChatStore (O : Type) {outside : Outside O} := {
  posts : O → list (MessageId * Key);
  find_posts thread key o : (port_find thread key o).2 = Some None → (thread, key) ∉ posts o;
  post_posts thread sender text refs key o :
    let after := posts (port_post thread sender text refs key o).1 in
    after = posts o ∨ after = posts o ++ [(thread, key)];
  stop_posts key force o : posts (backend_stop key force o).1 = posts o;
  harmless_posts {A} (op : O → O * A) o : harmless op → posts (op o).1 = posts o;
}.

Section posts.
Local Unset Default Proof Using.
Context {serde : Serde} {host_serde : HostSerde} {ulid : Ulid} {S O : Type} {store : RunStore S}.
Context {inherent : InherentStore S} {outside : Outside O} {chat : ChatStore O}.
Local Abbreviation Host := (@Runner.Host S O).
Implicit Types h : Host.

Global Instance outside_part : Part_of (S:=S) (O:=O) h_outside.
Proof. by split. Qed.

Lemma ask_outside {A} (op : O → O * A) h : h_outside (ask op h).1 = (op (h_outside h)).1.
Proof. unfold ask. by destruct (op (h_outside h)). Qed.

(** ** No post *)
Definition no_post : HostCalls (S:=S) (O:=O).
Proof.
  refine (aside h_outside (λ _, True) (λ o o', posts o' = posts o) _ _ _ _); try congruence; try done.
  intros A op h Hop _. rewrite ask_outside. by apply harmless_posts.
Defined.

Lemma speaks_no_post body h : speaks body → posts (h_outside (body h).1) = posts (h_outside h).
Proof. intros Hb. by apply (kept_speaks (calls:=no_post) body Hb h). Qed.

(** ** No second post *)
Definition once (o : O) : Prop := NoDup (posts o).

Definition once_posts : HostCalls (S:=S) (O:=O).
Proof.
  refine (aside h_outside once (λ o o', once o' ∧ posts o `prefix_of` posts o') _ _ _ _).
  - done.
  - intros o1 o2 o3 [_ H12] [H3 H23]. split; [done|by etrans].
  - by intros o o' [].
  - intros A op h Hop Ho. rewrite ask_outside. unfold once. by rewrite harmless_posts.
Defined.

Local Existing Instance once_posts.

Lemma once_post thread sender text refs key h :
  inv h → (thread, key) ∉ posts (h_outside h) →
  moves h (ask (port_post thread sender text refs key) h).1.
Proof.
  simpl. rewrite ask_outside. intros Ho Hnew. unfold once.
  destruct (post_posts thread sender text refs key (h_outside h)) as [-> | ->]; [done|].
  split; [|by apply prefix_app_r]. apply NoDup_app. split_and!; [done| |apply NoDup_singleton].
  intros p Hp ->%list_elem_of_singleton. done.
Qed.

Lemma once_find_or_post run epoch thread sender refs key body :
  speaks body → kept_op (find_or_post run epoch thread sender refs key body).
Proof.
  intros Hb h Hg. unfold find_or_post.
  assert (moves h (ask (port_find thread key) h).1) as Hk by (apply kept_ask; [constructor|done]).
  assert (Hfind := find_posts thread key (h_outside h)).
  assert (posts (h_outside (ask (port_find thread key) h).1) = posts (h_outside h)) as Hsame
    by (rewrite ask_outside; apply harmless_posts; constructor).
  assert ((ask (port_find thread key) h).2 = (port_find thread key (h_outside h)).2) as Hanswer
    by (unfold ask; by destruct (port_find thread key (h_outside h))).
  rewrite <-Hanswer in Hfind. destruct (ask (port_find thread key) h) as [h1 found]. cbn [fst snd] in *.
  destruct found as [[id|]|]; [keep| |keep]. specialize (Hfind eq_refl).
  assert (Hquiet := speaks_no_post body h1 Hb).
  assert (moves h (body h1).1) as Hkb by (apply moves_then_op; [by apply kept_speaks|done]).
  destruct (body h1) as [h2 text]. cbn [fst snd] in *. destruct text as [text|]; [|keep].
  assert (moves h (ask (port_post thread sender text refs key) h2).1) as Hkp.
  { eapply moves_trans; [exact Hkb|]. apply once_post; [by eapply moves_after|].
    by rewrite Hquiet, Hsame. }
  destruct (ask (port_post thread sender text refs key) h2) as [h3 posted]. cbn [fst snd] in *.
  destruct posted; keep.
Qed.

Global Instance once_acts : HostActs once_posts.
Proof.
  apply aside_acts; [intros; by apply once_find_or_post|].
  intros. apply kept_stop_any. intros force h Hg. simpl. rewrite ask_outside. unfold once.
  by rewrite stop_posts.
Qed.

Lemma tick_once fuel at_ h : inv h → moves h (tick fuel at_ h).1.
Proof. apply kept_tick. intros next h' Hg. simpl. done. Qed.
End posts.

(** C19: no message is posted twice. Over any ticks and restarts of a host, whatever its store answers, other
    processes write there and SQLite fails, and wherever a post failed after it was stored: if no thread holds
    two messages with one key before, none does after, and what was posted stays. *)
Theorem posts_once {serde : Serde} {host_serde : HostSerde} {ulid : Ulid} {O : Type} {outside : Outside O}
    {chat : ChatStore O} ops (h : @Host SqliteRunStore O) :
  NoDup (posts (h_outside h)) →
  NoDup (posts (h_outside (host_ops h ops))) ∧
  posts (h_outside h) `prefix_of` posts (h_outside (host_ops h ops)).
Proof.
  unfold host_ops. revert h; induction ops as [|op ops IH]; intros h Hn; simpl; [done|].
  assert (NoDup (posts (h_outside (host_op h op))) ∧
          posts (h_outside h) `prefix_of` posts (h_outside (host_op h op))) as [Hn1 Hp1].
  { destruct op as [fuel at_|owner]; [|done]. exact (tick_once fuel at_ h Hn). }
  destruct (IH _ Hn1) as [Hn2 Hp2]. split; [done|by etrans].
Qed.

(** ** An example: the commission is posted, the record of it fails, and the next tick finds it *)
Lemma around_find_posts thread key o :
  (around_find thread key o).2 = Some None → (thread, key) ∉ ar_posts o.
Proof.
  unfold around_find. simpl. intros [= H]. destruct (position _ _) eqn:E; [done|].
  apply position_None in E. intros Hin. rewrite Forall_forall in E. specialize (E _ Hin).
  by rewrite bool_decide_eq_false in E.
Qed.

Lemma around_harmless_posts {A} (op : Around → Around * A) o :
  harmless op → ar_posts (op o).1 = ar_posts o.
Proof.
  destruct 1; try done; simpl.
  - unfold around_budget. by destruct (ar_budget o).
  - unfold around_poll. by destruct (ar_results o).
Qed.

Global Instance around_chat : ChatStore Around := {|
  posts := ar_posts;
  find_posts := around_find_posts;
  post_posts thread sender text refs key o := or_intror eq_refl;
  stop_posts key force o := eq_refl;
  harmless_posts := @around_harmless_posts;
|}.

Definition posting_tables : Tables :=
  performs sample_tables [Call.CompareAndSet (pending_key sample_run) None (Some "the commission")].

Definition posting_host (script : list Interlude) : @Host SqliteRunStore Around :=
  MkHost (MkConnection posting_tables script) quiet_world sample_layout "h-1" ∅ TreeTrack.default
    TickReport.default (λ _, 0%nat).

(** The eighteenth call, the one that records the post, meets a locked database. *)
Definition locked_at (call : nat) : list Interlude :=
  replicate call (MkInterlude (λ _, []) None) ++ [MkInterlude (λ _, []) (Some Fault.Locked)].

Definition posting_ops : list HostOp.HostOp :=
  [HostOp.Tick 5 3000; HostOp.Restart "h-2"; HostOp.Tick 5 40000; HostOp.Tick 5 41000].

Lemma posts_once_witness :
  let h := posting_host (locked_at 17) in
  let after ops := ar_posts (h_outside (host_ops h ops)) in
  after (take 1 posting_ops) = [("m-root", "root/" +:+ sample_run)] ∧
  TickReport.busy (h_report (host_ops h (take 1 posting_ops))) = true ∧
  after posting_ops = [("m-root", "root/" +:+ sample_run)] ∧
  NoDup (posts (h_outside (host_ops h posting_ops))) ∧
  posts (h_outside h) `prefix_of` posts (h_outside (host_ops h posting_ops)).
Proof.
  intros h after. do 3 (split; [vm_compute; reflexivity|]).
  exact (posts_once posting_ops (posting_host (locked_at 17)) (NoDup_nil_2 (A:=MessageId * Key))).
Defined.
