(* ===== verification/HostGaps.v ===== *)
(** * What the engine and the host do against their comments

    Two facts of the engine, of any run: an attempt no timer watches, and a resume that forgets the window of a
    park. And two runs of the host, each evaluated as an example: a run that is set aside because one read met a
    locked database, and a session that is signalled by a host that lost its run. *)

From S2P Require Import Prelude Text Utf8 Ids Codes Events Flow State Effects Guard Decide Input Evolve Host Examples Ports Contract Sqlite StoreSpec SqliteFacts Runner Execute Tick Logs HostTicks StoreFacts Around HostFacts Posts Spec.
From stdpp Require Import options.

(** ** Corners of the engine

    What the engine does that its own comments do not lead a reader to expect, of any state, with a run of the
    sample flow that reaches it. *)
Definition beat_input (at_ : Z) (beat : HeartbeatKind) : Event :=
  input_at at_ ("b/" +:+ pretty (Z.to_N at_))
    (EventBody.SessionFact coder_key (SessionFact.Heartbeat beat)).

(** Re-arming for a slot that is both blind and sampled arms nothing and clears what watched it. *)
Lemma rearm_both e i slot was_quiet beat r p :
  slot_at e i = Some r → has_open_call (SlotRecord.state r) = true →
  SlotRecord.blind r = true → SlotRecord.sampling r = true →
  p ∈ [TimerPurpose.Quiet; TimerPurpose.SubprocessIdle; TimerPurpose.CallBound] →
  RunState.timers (Emit.state (rearm i slot was_quiet beat e)) !! slot_timer p slot = None.
Proof.
  intros Hr Hopen Hblind Hsampling Hp. unfold rearm.
  set (e1 := if was_quiet then _ else e).
  assert (slot_at e1 i = Some r) as ->.
  { unfold e1, slot_at. destruct was_quiet; [|done]. by rewrite (proj1 (clear_slot_timer_frame _ _ _)). }
  rewrite Hopen, Hblind, Hsampling. cbn [negb andb]. unfold clear_slot_timer. rewrite !clear_timer_state. cbn.
  rewrite !lookup_delete_None. rewrite !elem_of_cons in Hp.
  destruct Hp as [->|[->|[->|[]%not_elem_of_nil]]]; eauto.
Qed.

(** C31: an attempt with a call open whose host has both sampled it and said it is blind goes unwatched. Whatever
    the state, the flow and the sign of life that leaves the slot so, once it is folded the slot has neither
    its [quiet] timer nor [subprocess_idle] nor [call_bound]: the one is cleared for the blind host and the
    other for the one that samples. *)
Theorem sampling_and_blind_is_unwatched s input def key beat i r p :
  Event.body input = EventBody.SessionFact key (SessionFact.Heartbeat beat) →
  (∀ raw, beat ≠ HeartbeatKind.Unknown raw) → ignored_reason s input = None →
  find (apply_input s input) key = Some i → RunState.slots (apply_input s input) !! i = Some r →
  has_open_call (SlotRecord.state r) = true → SlotRecord.blind r = true → SlotRecord.sampling r = true →
  p ∈ [TimerPurpose.Quiet; TimerPurpose.SubprocessIdle; TimerPurpose.CallBound] →
  RunState.timers (Emit.state (emit_after s input def (decide s input def))) !! slot_timer p (SlotRecord.slot r) = None.
Proof.
  intros Hb Hbeat Hi Hf Hr Hopen Hblind Hsampling Hp.
  rewrite <-(proj1 (decide_emitted s input def Hi)). set (e := emit_start s input def).
  destruct (fact_before input e key _ i r Hb Hi eq_refl Hf Hr) as (r0 & Hr0 & _).
  unfold emit_input. rewrite Hb. unfold emit_fact.
  change (find (Emit.state e) key) with (find (apply_input s input) key). rewrite Hf.
  change (RunState.slots (Emit.before e) !! i) with (RunState.slots s !! i) in *. rewrite Hr0.
  assert (slot_at e i = Some r) as Hat by done. rewrite Hat.
  destruct beat; try (by eapply rearm_both). by destruct (Hbeat raw).
Qed.

(** The host sampled once and then could not, while a call is open. *)
Definition sampled_state : RunState :=
  walk running_state [beat_input 6000 HeartbeatKind.CallsOpen; beat_input 7000 HeartbeatKind.SubprocessMoved].

Definition blind_input : Event := beat_input 8000 HeartbeatKind.Blind.

Lemma sampling_and_blind_is_unwatched_witness :
  reachable sample_run sample_def sampled_state ∧
  ∃ r, RunState.slots (apply_input sampled_state blind_input) !! 0%nat = Some r ∧
    RunState.timers (Emit.state (emit_after sampled_state blind_input sample_def
      (decide sampled_state blind_input sample_def))) !! slot_timer TimerPurpose.CallBound (SlotRecord.slot r) = None.
Proof.
  split; [apply running_walk_reachable; reflexivity|].
  set (slots := RunState.slots (apply_input sampled_state blind_input)).
  assert ((λ r, (has_open_call (SlotRecord.state r), SlotRecord.blind r, SlotRecord.sampling r)) <$> slots !! 0%nat =
    Some (true, true, true)) as Hr by (vm_compute; reflexivity).
  destruct (slots !! 0%nat) as [r|] eqn:E; [|discriminate Hr]. cbn in Hr. injection Hr as H1 H2 H3.
  exists r. split; [done|].
  apply (sampling_and_blind_is_unwatched sampled_state blind_input sample_def coder_key HeartbeatKind.Blind 0 r);
    [reflexivity|done|vm_compute; reflexivity|vm_compute; reflexivity|exact E|exact H1|exact H2|exact H3|].
  apply list_elem_of_In. cbn. auto.
Defined.

(** The tree was refused for good and the run is parked for it; then a poisoned row is consumed. *)
Definition window_inputs : list Event :=
  [commissioned_input; input_at 2000 "o" (EventBody.RootOpened "m-root" "m-root");
   input_at 3000 "t" EventBody.ClaimTaken;
   input_at 4000 "tr" (EventBody.TreeRefused TreeRefusal.NotARepository)].
Definition window_state : RunState := walk (initial sample_run sample_def) window_inputs.
Definition poisoned_state : RunState :=
  match evolve window_state (poison_event window_state 5000 "row") with
  | Ok next => next
  | Err _ => window_state
  end.
Definition resume_input : Event := input_at 6000 "res" EventBody.ResumeRun.

(** What a resume decides of a parked run that has neither ended nor begun to. *)
Lemma resume_decides s resume def tree :
  Event.body resume = EventBody.ResumeRun → RunState.phase s = Phase.Running tree → is_Some (RunState.condition s) →
  ignored_reason s resume = None ∧ decide s resume def = Emit.out (resume_run (emit_start s resume def)).
Proof.
  intros Hb Hp Hc. assert (ignored_reason s resume = None) as Hi.
  { unfold ignored_reason, State.is_finished, is_finishing. by rewrite Hb, Hp, bool_decide_true by done. }
  split; [done|]. unfold decide, emit_input. by rewrite Hi, Hb.
Qed.

(** C32: a resume of a run parked for a refused tree re-arms the preparation window; once a poisoned row has been
    consumed on top of that park, the same resume re-arms nothing. Whatever the run, the flow and the row: the park
    the poisoned row writes replaces the reason the resume goes by, and the run goes on preparing its tree with
    the timers it was parked with. *)
Theorem poison_forgets_the_window s at_ key next resume def tree :
  RunState.phase s = Phase.Running tree → rc_reason <$> RunState.condition s = Some ReasonCode.TreeRefused →
  evolve s (poison_event s at_ key) = Ok next → Event.body resume = EventBody.ResumeRun →
  (∃ due, decide s resume def = [Decision.TimerSet TREE_WINDOW_TIMER due TimerPurpose.TreeWindow]) ∧
  decide next resume def = [] ∧ RunState.condition (apply_input next resume) = None ∧
  RunState.phase (apply_input next resume) = Phase.Running tree ∧
  RunState.timers (apply_input next resume) = RunState.timers s.
Proof.
  intros Hp Hc Hev Hb. destruct (RunState.condition s) as [c|] eqn:Ec; [|done]. cbn in Hc. injection Hc as Hc.
  unfold evolve in Hev. cbn in Hev. injection Hev as <-. split.
  - destruct (resume_decides s resume def tree Hb Hp (ex_intro _ _ Ec)) as [_ ->].
    eexists. unfold resume_run. cbn. rewrite Ec, Hc. unfold set_tree_window, set_timer. reflexivity.
  - set (next := _ <| RunState.seq := _ |>).
    destruct (resume_decides next resume def tree Hb Hp ltac:(by eexists)) as [Hi ->].
    split; [done|]. unfold apply_input. rewrite Hi. unfold act_input. by rewrite Hb.
Qed.

Lemma poison_forgets_the_window_witness :
  reachable sample_run sample_def poisoned_state ∧
  RunState.phase poisoned_state = Phase.Running Unprepared ∧
  RunState.timers (apply_input poisoned_state resume_input) = RunState.timers window_state ∧
  RunState.timers window_state = ∅.
Proof.
  split.
  - assert (Hwin : run_of sample_run sample_def (opening_log (tail window_inputs)) window_state)
      by (apply (opening_run (tail window_inputs)); reflexivity).
    exists (opening_log (tail window_inputs) ++ [poison_event window_state 5000 "row"]).
    eapply run_step; [exact Hwin| |done]. apply step_poison. vm_compute. reflexivity.
  - split_and!; [vm_compute; reflexivity| |vm_compute; reflexivity].
    apply (poison_forgets_the_window window_state 5000 "row" poisoned_state resume_input sample_def Unprepared);
      vm_compute; reflexivity.
Defined.

(** ** A locked read *)

(** A client's calls between two ticks. *)
Definition between (calls : list Call) (h : @Host SqliteRunStore Around) : @Host SqliteRunStore Around :=
  h <| h_store := MkConnection (performs (host_tables h) calls) (conn_script (h_store h)) |>.

Definition log_length (h : @Host SqliteRunStore Around) : nat := length (log_of (host_tables h) sample_run).
Definition ticks (times : list Timestamp) (h : @Host SqliteRunStore Around) : @Host SqliteRunStore Around :=
  host_ops h (HostOp.Tick 5 <$> times).

Definition withdrawn_input : Event :=
  input_at 5000 "w" (EventBody.Withdrawn None WithdrawnBy.Requester).

(** A locked read sets a run aside. When the read of the pinned definition, the seventh call of this tick,
    meets a locked database, the run is marked as one that cannot be folded and the tick does not report a
    busy store; no later tick of the host folds it, though nothing is locked any more, and a withdrawal closes
    it with no fold. A lock met by the call before it or after it is reported and the next tick goes on, as
    [StoreError::Busy] promises. *)
Example locked_read_sets_a_run_aside :
  let aside := ticks [3000]%Z (posting_host (locked_at 6)) in
  let later := ticks [4000; 5000; 15000; 25000]%Z aside in
  let closed := ticks [26000]%Z (between [Call.Enqueue sample_run withdrawn_input []] later) in
  TickReport.busy (h_report aside) = false ∧
  RunCache.read_only (cache sample_run aside) = Some ReadOnly.Unfoldable ∧
  conn_script (h_store aside) = [] ∧ log_length later = 0%nat ∧
  (Event.body <$> log_of (host_tables closed) sample_run) =
    [EventBody.Withdrawn None WithdrawnBy.Requester;
     EventBody.Decision (Decision.Finished Outcome.Withdrawn (Some ReasonCode.WithdrawnByRequester))] ∧
  Forall (λ call,
    let busy := ticks [3000]%Z (posting_host (locked_at call)) in
    TickReport.busy (h_report busy) = true ∧ RunCache.read_only (cache sample_run busy) = None ∧
    log_length (ticks [4000]%Z busy) = 3%nat) [5%nat; 7%nat].
Proof. repeat split; repeat constructor; vm_compute; reflexivity. Qed.

(** ** A lost run *)
Definition signal_key : string := effect_key sample_run "stop/s-1/1".
Definition entry_of (epoch : Epoch) : Bytes := to_bits (entry_parts (EffectEntry.Mk PENDING epoch)).

Definition takes_over : Call :=
  Call.CompareAndSet (owner_key sample_run) (Some (lease_bytes sample_lease)) (Some (lease_bytes next_lease)).
Definition records_signal : Call := Call.CompareAndSet signal_key None (Some (entry_of 2)).

(** Signals a session as the host of the first epoch, with calls of another host between the reads. *)
Definition signals (calls1 calls2 : list Call) : @Host SqliteRunStore Around * StoreResult unit :=
  stop sample_run 1 "s-1" StopKind.Term 1 40000
    (sample_host [MkInterlude (λ _, calls1) None; MkInterlude (λ _, calls2) None]).

(** A host that lost its run can still signal a session. [stop] reads the ledger entry, finds none, and
    reads it again to write it; when another host has taken the run and written the entry in between, the
    second read finds it, nothing is written and so nothing is refused, and the signal is sent although a
    found entry is to be taken as sent: the other host, whose entry it is, sends it too. Had the other only
    taken the run, the write would be fenced; had it written before the first read, nothing would be sent. *)
Example lost_host_signals_again :
  let other := restart "h-2" (between [takes_over] (sample_host [])) in
  let theirs := (stop sample_run 2 "s-1" StopKind.Term 1 40000 other).1 in
  let ours := signals [] [takes_over; records_signal] in
  t_kv (host_tables theirs) !! signal_key = Some (entry_of 2) ∧
  ar_signals (h_outside theirs) = [("s-1", false)] ∧
  lease_of (t_kv (host_tables ours.1)) sample_run = Some next_lease ∧
  t_kv (host_tables ours.1) !! signal_key = Some (entry_of 2) ∧
  ours.2 = Ok tt ∧ ar_signals (h_outside ours.1) = [("s-1", false)] ∧
  (signals [] [takes_over]).2 = Err StoreError.Fenced ∧
  ar_signals (h_outside (signals [] [takes_over]).1) = [] ∧
  ar_signals (h_outside (signals [takes_over; records_signal] []).1) = [].
Proof. repeat split; vm_compute; reflexivity. Qed.
