(* ===== verification/BridgeFacts.v ===== *)
(** * What the bridge writes, and what the run hears of it

    A verb of the bridge either refuses and leaves the store as it is, or adds one input to the inbox of a
    run. The relation [others] of the store's laws stands for everything the other processes do, so an
    operation whose stores are related by it writes nothing itself. *)

From S2P Require Import Prelude Text Utf8 Ids Codes Events Flow State Effects Guard Input Evolve Decide Status Host Examples Ports TreeLedger Contract Sqlite StoreSpec SqliteFacts Runner Execute Tick Bridge Spec Seats Timers Runs Logs HostRuns HostTicks StoreFacts Around HostFacts Posts Drains.
From stdpp Require Import options.

(** ** The bridge in the examples

    The parameters of [Bridge] and [TreeLedger] over the world of [Around], and files that a host left after
    folding the sample run to a point: while its coder works, while it asks, and after it was withdrawn. *)
Global Instance sample_ledger_serde : LedgerSerde := {
  ledger_entry_to_vec entry := Some (LedgerEntry.op entry);
  ledger_entry_from_slice bytes := None;
}.

Global Instance around_ledger : LedgerPorts Around := {
  process_alive _ _ o := (o, false);
  file_age _ o := (o, None);
  make_dirs _ o := (o, Some tt);
  remove_file path o :=
    (MkAround (ar_clock o) (ar_budget o) (ar_minted o) (ar_posts o) (ar_signals o) (ar_started o)
       (ar_facts o) (base.delete path (ar_files o)) (ar_results o), tt);
}.

(** The sample flow is the only definition there is. *)
Global Instance sample_bridge_serde : BridgeSerde := {
  pending_to_vec _ := Some "the commission";
  route_from_slice bytes := '(run, key) ← of_bits bytes; Some (MkThreadRoute run key);
  canonical_json _ := "the sample flow";
  flow_digest _ := "00";
  refusal_debug _ := "refused";
}.

Global Instance around_channels : BridgePorts Around := {
  port_channel name o :=
    (o, if bool_decide (name = "flow") then Some flow_decl
        else if bool_decide (name = "review") then Some review_decl else None);
  tree_state _ _ o := (o, None);
}.

(** A run folded by a host, with the routes of its root and of its coder's thread. *)
Definition waiting_tables (inputs : list Event) : Tables :=
  performs sample_tables ((λ input, Call.Enqueue sample_run input []) <$> inputs).

Definition folding_host (inputs : list Event) : @Host SqliteRunStore Around :=
  MkHost (MkConnection (waiting_tables inputs) []) quiet_world sample_layout "h-1" ∅ TreeTrack.default
    TickReport.default (λ _, 0%nat).

Definition folded_tables (inputs : list Event) : Tables :=
  let route key := Some (to_bits (sample_run, key)) in
  performs (host_tables (fold_run 30 sample_row 1 false (folding_host inputs)).1)
    [Call.CompareAndSet "thread/m-root" None (route None);
     Call.CompareAndSet "thread/m-1" None (route (Some coder_key))].

Lemma waiting_rely inputs :
  Forall filed inputs → rely sample_flows (view_of sample_tables) (view_of (waiting_tables inputs)).
Proof.
  unfold waiting_tables. generalize sample_tables_ok. generalize sample_tables.
  induction inputs as [|input inputs IH]; intros t Hok Hall; [done|]. cbn [fmap list_fmap].
  apply Forall_cons in Hall as [Hfiled Hall].
  change (performs t (?call :: ?calls)) with (performs (perform t call) calls).
  destruct (sql_enqueue None sample_run input [] t) as [t' r] eqn:E.
  assert (perform t (Call.Enqueue sample_run input []) = t') as -> by (simpl; by rewrite E).
  apply sql_enqueue_contract in E as [Hok' Hc]; [|done]. etrans; [|by apply IH].
  by eapply (enqueue_rely sample_flows _ _ []).
Qed.

Lemma all_filed_check (inputs : list Event) :
  forallb (λ e, negb (is_reply (Event.body e)) || is_input_key (Event.key e)) inputs = true →
  Forall filed inputs.
Proof.
  rewrite forallb_forall, Forall_forall. intros H e He%list_elem_of_In. specialize (H e He).
  unfold filed. by destruct (is_reply (Event.body e)).
Qed.

Lemma folding_good inputs : Forall filed inputs → good sample_flows (folding_host inputs).
Proof.
  intros Hall. destruct (sample_good [] (Forall_nil_2 _)) as [Hv Hl Hf Hfd Hc].
  assert (Hr := waiting_rely inputs Hall). split.
  - split; [apply performs_ok, sample_tables_ok|constructor].
  - by apply (rely_ok _ _ _ Hr).
  - by apply (rely_flows _ _ _ Hr).
  - by apply (rely_filed _ _ _ Hr).
  - intros run s. unfold cache. simpl. by rewrite lookup_empty.
Qed.

Lemma folded_tables_ok inputs : Forall filed inputs → store_ok (folded_tables inputs).
Proof.
  intros Hall. apply performs_ok.
  destruct (fold_run 30 sample_row 1 false (folding_host inputs)) as [h whole] eqn:E.
  apply (fold_run_keeps sample_flows) in E; [|by apply folding_good]. by destruct E as [[[Hok _] _ _ _ _] _].
Qed.

Definition bridge_on (t : Tables) (script : list Interlude) : @BridgeCtx SqliteRunStore Around :=
  MkBridgeCtx (MkConnection t script) quiet_world sample_layout "ws".

Definition coder : Caller := Caller.Mk "coder" (Some coder_key).
Definition requester : Caller := Caller.Mk "owner" None.

Create HintDb quiet.

(** Reading the declarations posts nothing. *)
Class DeclaredChannels (O : Type) {outside : Outside O} {bridge_ports : BridgePorts O}
    {chat : ChatStore O} := {
  channel_posts name o : posts (port_channel name o).1 = posts o;
}.

Section reading.
Local Unset Default Proof Using.
Context {serde : Serde} {host_serde : HostSerde} {bridge_serde : BridgeSerde} {ledger_serde : LedgerSerde}.
Context {ulid : Ulid} {S O : Type} {store : RunStore S} {inherent : InherentStore S}.
Context {outside : Outside O} {ledger_ports : LedgerPorts O} {bridge_ports : BridgePorts O}.
Context {chat : ChatStore O}.
Context {others : View → View → Prop} {others_refl : Reflexive others} {others_trans : Transitive others}.
Context {laws : RunStoreLaws S others} {inherent_laws : InherentLaws S others}.
Local Abbreviation BridgeCtx := (@Bridge.BridgeCtx S O).
Implicit Types b : BridgeCtx.

(** Only the others wrote. *)
Definition unwritten b b' : Prop :=
  valid (b_store b') ∧ others (observe (b_store b)) (observe (b_store b')).
Definition unposted b b' : Prop := posts (b_outside b') = posts (b_outside b).

(** A refusal that does not come from posting or after it. *)
Definition before_posting (why : Refused) : Prop :=
  why ≠ Refused.Port ∧ ∀ message, why ≠ Refused.PostedNotEnqueued message.

Lemma unwritten_trans b1 b2 b3 : unwritten b1 b2 → unwritten b2 b3 → unwritten b1 b3.
Proof. intros [_ H12] [Hv H23]. split; [done|by etrans]. Qed.
Lemma unposted_trans b1 b2 b3 : unposted b1 b2 → unposted b2 b3 → unposted b1 b3.
Proof. unfold unposted. congruence. Qed.

(** An operation that only reads, and one that writes nothing when it refuses. *)
Definition quiet {A} (m : BridgeCtx → BridgeCtx * A) : Prop :=
  ∀ b, valid (b_store b) → unwritten b (m b).1 ∧ unposted b (m b).1.
Definition refusing {A} (m : BridgeCtx → BridgeCtx * result Refused A) : Prop :=
  ∀ b, valid (b_store b) → ∀ b' why, m b = (b', Err why) →
    unwritten b b' ∧ (before_posting why → unposted b b').

Lemma quiet_trans b1 b2 b3 :
  unwritten b1 b2 ∧ unposted b1 b2 → unwritten b2 b3 ∧ unposted b2 b3 → unwritten b1 b3 ∧ unposted b1 b3.
Proof.
  intros [H12 P12] [H23 P23]. split; [by eapply unwritten_trans|by eapply unposted_trans].
Qed.

Lemma refusing_trans b1 b2 b3 why :
  unwritten b1 b2 ∧ unposted b1 b2 →
  unwritten b2 b3 ∧ (before_posting why → unposted b2 b3) →
  unwritten b1 b3 ∧ (before_posting why → unposted b1 b3).
Proof.
  intros [H12 P12] [H23 P23]. split; [by eapply unwritten_trans|]. intros Hw.
  eapply unposted_trans; [exact P12|by apply P23].
Qed.

Lemma quiet_refusing {A} (m : BridgeCtx → BridgeCtx * result Refused A) : quiet m → refusing m.
Proof. intros Hm b Hv b' why H. specialize (Hm b Hv). rewrite H in Hm. by destruct Hm. Qed.

(** ** Sequences *)
Lemma quiet_give {A} (a : A) : quiet (give a).
Proof. intros b Hv. by split. Qed.
Lemma quiet_refuse {A} why : quiet (refuse (A:=A) why).
Proof. apply quiet_give. Qed.
Lemma quiet_answer_with {A} (a : A) : quiet (answer_with a).
Proof. apply quiet_give. Qed.

Lemma quiet_and_then {A B} (m : BridgeCtx → BridgeCtx * A) (k : A → BridgeCtx → BridgeCtx * B) :
  quiet m → (∀ a, quiet (k a)) → quiet (and_then m k).
Proof.
  intros Hm Hk b Hv. unfold and_then. specialize (Hm b Hv). destruct (m b) as [b1 a]. simpl in Hm.
  eapply quiet_trans; [exact Hm|]. apply Hk, Hm.
Qed.

Lemma quiet_try_then {A B} (m : BridgeCtx → BridgeCtx * result Refused A) (k : A → BridgeCtx → BridgeCtx * result Refused B) :
  quiet m → (∀ a, quiet (k a)) → quiet (try_then m k).
Proof.
  intros Hm Hk b Hv. unfold try_then. specialize (Hm b Hv). destruct (m b) as [b1 [a|e]]; [|done].
  simpl in Hm. eapply quiet_trans; [exact Hm|]. apply Hk, Hm.
Qed.

Lemma refusing_and_then {A B} (m : BridgeCtx → BridgeCtx * A)
    (k : A → BridgeCtx → BridgeCtx * result Refused B) :
  quiet m → (∀ a, refusing (k a)) → refusing (and_then m k).
Proof.
  intros Hm Hk b Hv b' why H. unfold and_then in H. specialize (Hm b Hv). destruct (m b) as [b1 a].
  simpl in Hm. eapply refusing_trans; [exact Hm|]. eapply Hk; [apply Hm|done].
Qed.

Lemma refusing_try_then {A B} (m : BridgeCtx → BridgeCtx * result Refused A)
    (k : A → BridgeCtx → BridgeCtx * result Refused B) :
  quiet m → (∀ a, refusing (k a)) → refusing (try_then m k).
Proof.
  intros Hm Hk b Hv b' why H. unfold try_then in H. specialize (Hm b Hv). destruct (m b) as [b1 [a|e]].
  - simpl in Hm. eapply refusing_trans; [exact Hm|]. eapply Hk; [apply Hm|done].
  - simplify_eq. by destruct Hm.
Qed.

(** A last step that refuses without writing, and then answers. *)
Lemma refusing_then_answer {A B} (m : BridgeCtx → BridgeCtx * result Refused A) (f : A → B) :
  refusing m → refusing (try_then m (λ a, answer_with (f a))).
Proof.
  intros Hm b Hv b' why H. unfold try_then in H. destruct (m b) as [b1 [a|e]] eqn:E; [done|].
  simplify_eq. by eapply Hm.
Qed.

(** ** Calls *)
Definition posts_none {A} (op : O → O * A) : Prop := ∀ o, posts (op o).1 = posts o.

Lemma quiet_with_outside {A} (op : O → O * A) : posts_none op → quiet (with_outside op).
Proof.
  intros Hop b Hv. unfold with_outside, unposted. specialize (Hop (b_outside b)).
  destruct (op (b_outside b)) as [o a]. done.
Qed.

Lemma posts_none_mint : posts_none mint_ulid.
Proof. intros o. apply harmless_posts. constructor. Qed.

Lemma quiet_ported {A} (op : O → O * option A) : posts_none op → quiet (ported op).
Proof.
  intros Hop b Hv. unfold ported. assert (H := quiet_with_outside op Hop b Hv).
  destruct (with_outside op b) as [b1 r]. exact H.
Qed.

(** A reading call of the store. *)
Definition reads_only {A} (op : S → S * A) : Prop :=
  ∀ s s' a, valid s → op s = (s', a) → valid s' ∧ others (observe s) (observe s').

Lemma quiet_with_store {A} (op : S → S * A) : reads_only op → quiet (with_store op).
Proof.
  intros Hop b Hv. unfold with_store. destruct (op (b_store b)) as [s a] eqn:E.
  apply (Hop _ _ _ Hv) in E. by split.
Qed.

Lemma quiet_stored {A} (op : S → S * StoreResult A) : reads_only op → quiet (stored op).
Proof.
  intros Hop b Hv. unfold stored. assert (H := quiet_with_store op Hop b Hv).
  destruct (with_store op b) as [b1 r]. exact H.
Qed.

Lemma reads_only_get key : reads_only (get key).
Proof. intros s s' a Hv H. by apply get_law in H as (? & ? & _). Qed.
Lemma reads_only_load run : reads_only (load run 0).
Proof. intros s s' a Hv H. by apply load_law in H as (? & ? & _). Qed.
Lemma reads_only_next_input run : reads_only (next_input run).
Proof. intros s s' a Hv H. by apply next_input_law in H as (? & ? & _). Qed.
Lemma reads_only_open_runs : reads_only open_runs.
Proof. intros s s' a Hv H. by apply open_runs_law in H as (? & ? & _). Qed.
Lemma reads_only_waiting run : reads_only (waiting_inputs run).
Proof. intros s s' a Hv H. by apply waiting_inputs_law in H. Qed.
Lemma reads_only_readable run : reads_only (load_readable run).
Proof. intros s s' a Hv H. by apply load_readable_law in H. Qed.
Lemma reads_only_pinned first : reads_only (pinned_def first).
Proof.
  intros s s' a Hv H. unfold pinned_def in H. destruct (Event.body first); simplify_eq; try by split.
  destruct (get _ s) as [s1 r] eqn:E. simplify_eq. by apply reads_only_get in E.
Qed.
Lemma reads_only_host_seen workspace : reads_only (host_seen workspace).
Proof.
  intros s s' a Hv H. unfold host_seen in H. destruct (get _ s) as [s1 r] eqn:E. simplify_eq.
  by apply reads_only_get in E.
Qed.
End reading.

#[export] Hint Resolve quiet_give quiet_refuse quiet_answer_with quiet_with_outside quiet_ported
  quiet_with_store quiet_stored reads_only_get reads_only_load reads_only_next_input
  reads_only_open_runs reads_only_waiting reads_only_readable reads_only_pinned
  reads_only_host_seen quiet_refusing : quiet.

(** Walks through the steps and branches of an operation. *)
Ltac quietly :=
  repeat (cbv beta zeta; first
    [ solve [eauto with quiet nocore]
    | apply quiet_try_then; [|intros ?] | apply quiet_and_then; [|intros ?]
    | apply refusing_try_then; [|intros ?] | apply refusing_and_then; [|intros ?]
    | case_match ]).

(** ** The verbs *)
Module Verb.
Inductive Verb :=
| Commission (channel body : string) (refs : Refs) (sender : Handle) (policy : LivenessPolicy)
| Reply (thread : string) (caller : Caller) (text : string) (flags : ReplyFlags)
| Answer (root : string) (caller : Caller) (text : string) (accept : bool)
| Withdraw (root : string) (caller : Caller) (text : string).
End Verb.
Abbreviation Verb := Verb.Verb (only parsing).

Section verbs.
Local Unset Default Proof Using.
Context {serde : Serde} {host_serde : HostSerde} {bridge_serde : BridgeSerde} {ledger_serde : LedgerSerde}.
Context {ulid : Ulid} {S O : Type} {store : RunStore S} {inherent : InherentStore S}.
Context {outside : Outside O} {ledger_ports : LedgerPorts O} {bridge_ports : BridgePorts O}.
Local Abbreviation BridgeCtx := (@Bridge.BridgeCtx S O).
Implicit Types b : BridgeCtx.

Definition spoken {A} (r : BridgeCtx * result Refused A) : BridgeCtx * result Refused unit :=
  (r.1, match r.2 with Ok _ => Ok tt | Err why => Err why end).

(** A verb at an instant, for its effect and its refusal. *)
Definition speak (verb : Verb) (now : Timestamp) b : BridgeCtx * result Refused unit :=
  match verb with
  | Verb.Commission channel body refs sender policy =>
      spoken (commission channel body refs sender policy now b)
  | Verb.Reply thread caller text flags => spoken (reply thread caller text flags now b)
  | Verb.Answer root caller text accept => spoken (answer root caller text accept now b)
  | Verb.Withdraw root caller text => spoken (withdraw root caller text now b)
  end.

Context {others : View → View → Prop} {others_refl : Reflexive others} {others_trans : Transitive others}.
Context {laws : RunStoreLaws S others} {inherent_laws : InherentLaws S others}.
Context {chat : ChatStore O} {declared : DeclaredChannels O}.
Context (others_same : ∀ v v', same_view v v' → others v v').

Local Abbreviation quiet := (BridgeFacts.quiet (S:=S) (O:=O) (others:=others)).
Local Abbreviation refusing := (BridgeFacts.refusing (S:=S) (O:=O) (others:=others)).

Lemma quiet_read_log run : quiet (read_log run).
Proof. unfold read_log. quietly. Qed.
Lemma quiet_first_event run events : quiet (first_event run events).
Proof.
  intros b Hv. unfold first_event. destruct events; [|by split].
  assert (H := quiet_with_store _ (reads_only_next_input run) b Hv).
  destruct (with_store (next_input run) b) as [b1 r]. exact H.
Qed.
Hint Resolve quiet_read_log quiet_first_event : quiet.
Lemma quiet_view run : quiet (view run).
Proof. unfold view. quietly. Qed.
Hint Resolve quiet_view : quiet.
Lemma quiet_route_of thread : quiet (route_of thread).
Proof. unfold route_of. quietly. Qed.
Lemma quiet_state_of run : quiet (state_of run).
Proof. unfold state_of. quietly. Qed.
Hint Resolve quiet_route_of quiet_state_of : quiet.
Lemma quiet_root_route thread : quiet (root_route thread).
Proof. unfold root_route. quietly. Qed.
Hint Resolve quiet_root_route : quiet.
Lemma quiet_input_key run : quiet (input_key run).
Proof. intros b Hv. unfold input_key. assert (H := quiet_with_outside mint_ulid posts_none_mint b Hv).
  destruct (with_outside mint_ulid b) as [b1 r]. exact H. Qed.
Lemma quiet_mint_thread_id : quiet mint_thread_id.
Proof. intros b Hv. unfold mint_thread_id. assert (H := quiet_with_outside mint_ulid posts_none_mint b Hv).
  destruct (with_outside mint_ulid b) as [b1 r]. exact H. Qed.
Lemma quiet_mint_run_id : quiet mint_run_id.
Proof. intros b Hv. unfold mint_run_id. assert (H := quiet_with_outside mint_ulid posts_none_mint b Hv).
  destruct (with_outside mint_ulid b) as [b1 r]. exact H. Qed.
Hint Resolve quiet_input_key quiet_mint_thread_id quiet_mint_run_id : quiet.

Lemma quiet_first_channel targets : quiet (first_channel targets).
Proof.
  induction targets as [|target targets IH]; intros b Hv; simpl; [by split|].
  assert (H := quiet_with_outside (port_channel target) (channel_posts target) b Hv).
  destruct (with_outside (port_channel target) b) as [b1 [channel|]]; [done|].
  eapply quiet_trans; [exact H|]. apply IH, H.
Qed.
Lemma quiet_review_of flow : quiet (review_of flow).
Proof.
  intros b Hv. unfold review_of.
  assert (H := quiet_first_channel (StepDecl.target <$> ChannelDecl.steps flow) b Hv).
  destruct (first_channel _ b) as [b1 r]. exact H.
Qed.
Hint Resolve quiet_review_of : quiet.

(** ** Refusals *)
Lemma enqueue_refused_unwritten run event cas b b' error :
  valid (b_store b) → with_store (enqueue run event cas) b = (b', Err error) →
  unwritten b b' ∧ unposted b b'.
Proof.
  intros Hv H. unfold with_store in H. destruct (enqueue run event cas (b_store b)) as [s r] eqn:E.
  simplify_eq. apply enqueue_law in E as (Hv' & v & Ho & _ & Hc); [|done]. split; [|done]. split; [done|].
  simpl. etrans; [exact Ho|]. apply others_same. by inversion Hc.
Qed.

Lemma refusing_post_and_enqueue run thread sender text key now body :
  refusing (post_and_enqueue run thread sender text key now body).
Proof.
  intros b Hv b' why H. unfold post_and_enqueue, try_then, ported, with_outside, and_then in H.
  destruct (port_post thread sender text Refs_default key (b_outside b)) as [o [message|]].
  - destruct (with_store _ _) as [b1 r] eqn:E. destruct r as [answer|error]; [done|].
    injection H as <- <-. apply enqueue_refused_unwritten in E as [Hu _]; [|done]. split; [done|].
    intros [_ Hw]. by destruct (Hw message).
  - injection H as <- <-. split; [by split|]. by intros [].
Qed.
Hint Resolve refusing_post_and_enqueue : quiet.

Lemma refusing_stored_enqueue run event cas : refusing (stored (enqueue run event cas)).
Proof.
  intros b Hv b' why H. unfold stored in H. destruct (with_store _ b) as [b1 [answer|error]] eqn:E; [done|].
  injection H as <- _. apply enqueue_refused_unwritten in E; [|done]. by destruct E.
Qed.

Lemma refusing_open_run retries run event cas flow_key def :
  refusing (open_run retries run event cas flow_key def).
Proof.
  induction retries as [|retries IH]; intros b Hv b' why H; cbn [open_run] in H;
    assert (Hq := quiet_stored _ (reads_only_get flow_key) b Hv);
    destruct (stored (get flow_key) b) as [b1 [held|e]]; cbn [fst] in Hq;
    try (injection H as <- <-; by destruct Hq);
    destruct (with_store (enqueue run event _) b1) as [b2 r] eqn:E;
    (destruct r as [answer|error]; [done|]); (apply enqueue_refused_unwritten in E; [|apply Hq]);
    assert (Hu := quiet_trans _ _ _ Hq E).
  - destruct error; simplify_eq; by destruct Hu.
  - destruct error; simplify_eq; try (by destruct Hu). case_bool_decide; simplify_eq; [|by destruct Hu].
    eapply refusing_trans; [exact Hu|]. eapply IH; [apply Hu|done].
Qed.

Lemma refusing_commission channel body refs sender policy now :
  refusing (commission channel body refs sender policy now).
Proof.
  intros b. unfold commission. generalize (b_workspace_id b). intros workspace. revert b.
  lazymatch goal with
  | |- ∀ b, _ → ∀ b' why, try_then ?m ?k b = _ → _ => change (refusing (try_then m k))
  end.
  apply refusing_try_then; [apply quiet_ported; intros o; apply channel_posts|]. intros flow.
  apply refusing_and_then; [apply quiet_review_of|]. intros review.
  destruct (compile flow review) as [def|refusal]; [|apply quiet_refusing, quiet_refuse].
  apply refusing_and_then; [apply quiet_mint_run_id|]. intros run.
  apply refusing_and_then; [apply quiet_mint_thread_id|]. intros root. cbv zeta.
  do 2 (apply refusing_try_then; [apply quiet_give|]; intros ?).
  apply (refusing_then_answer _ (λ _, _)), refusing_open_run.
Qed.

Lemma refusing_reply thread caller text flags now : refusing (reply thread caller text flags now).
Proof. unfold reply. cbv zeta. quietly. Qed.

Lemma refusing_answer root caller text accept now : refusing (answer root caller text accept now).
Proof. unfold answer. cbv zeta. quietly. Qed.

Lemma refusing_withdraw root caller text now : refusing (withdraw root caller text now).
Proof.
  unfold withdraw. do 2 (apply refusing_try_then; [eauto with quiet nocore|]; intros ?).
  case_match; [eauto with quiet nocore|]. apply refusing_try_then; [apply quiet_give|]. intros _.
  apply refusing_and_then; [apply quiet_input_key|]. intros key. case_match.
  - apply (refusing_then_answer _ (λ message, Some message)), refusing_post_and_enqueue.
  - apply (refusing_then_answer _ (λ _, None)), refusing_stored_enqueue.
Qed.

Lemma refusing_speak verb now : refusing (speak verb now).
Proof.
  assert (∀ A (m : BridgeCtx → BridgeCtx * result Refused A), refusing m → refusing (λ b, spoken (m b)))
    as Hs.
  { intros A m Hm b Hv b' why H. unfold spoken in H. destruct (m b) as [b1 [a|e]] eqn:E; simplify_eq/=.
    by eapply Hm. }
  destruct verb; simpl; apply Hs; auto using refusing_commission, refusing_reply, refusing_answer, refusing_withdraw.
Qed.
End verbs.

(** ** What was accepted *)
Lemma try_then_Ok {T A B E} (m : T → T * result E A) (k : A → T → T * result E B) t t' b :
  try_then m k t = (t', Ok b) → ∃ t1 a, m t = (t1, Ok a) ∧ k a t1 = (t', Ok b).
Proof. unfold try_then. destruct (m t) as [t1 [a|e]]; [eauto|done]. Qed.

Lemma and_then_eq {T A B} (m : T → T * A) (k : A → T → T * B) t t' b :
  and_then m k t = (t', b) → ∃ t1 a, m t = (t1, a) ∧ k a t1 = (t', b).
Proof. unfold and_then. destruct (m t) as [t1 a]. eauto. Qed.

(** The thread a verb speaks in, who speaks and the words. *)
Definition verb_thread (verb : Verb) : string :=
  match verb with
  | Verb.Commission channel _ _ _ _ => channel
  | Verb.Reply thread _ _ _ | Verb.Answer thread _ _ _ | Verb.Withdraw thread _ _ => thread
  end.

Definition verb_sender (verb : Verb) : Handle :=
  match verb with
  | Verb.Commission _ _ _ sender _ => sender
  | Verb.Reply _ caller _ _ | Verb.Answer _ caller _ _ | Verb.Withdraw _ caller _ => Caller.actor caller
  end.

Definition verb_text (verb : Verb) : string :=
  match verb with
  | Verb.Commission _ body _ _ _ => body
  | Verb.Reply _ _ text _ | Verb.Answer _ _ text _ | Verb.Withdraw _ _ text => text
  end.

(** The input a verb makes of the route of its thread, of the state it read and of its posted message, and
    who may speak it. Only a withdrawal of a run whose root is not posted yet goes without a message. *)
Inductive may_speak (route : ThreadRoute) (s : RunState) : Verb → option MessageId → EventBody → Prop :=
| speak_reply thread caller text flags key message record :
    route_session_key route = Some key →
    record_at s key = Some record → owes_reply (SlotRecord.state record) = true →
    Caller.actor caller = slot_member (SlotRecord.slot record) → Caller.session caller = Some key →
    may_speak route s (Verb.Reply thread caller text flags) (Some message)
      (EventBody.Reply key message (ReplyFlags.escalate flags) (ReplyFlags.needs_rework flags))
| speak_answer root caller text accept question message :
    route_session_key route = None →
    question ∈ open_questions s → (accept = true → is_escalation (Question.asked question) = false) →
    Caller.actor caller = RunState.requester s → Caller.session caller = None →
    may_speak route s (Verb.Answer root caller text accept) (Some message)
      (EventBody.Answer (Question.id question)
         (if accept then Disposition.Accept else Disposition.Continue) message)
| speak_withdraw root caller text message :
    route_session_key route = None → is_Some message ↔ is_Some (RunState.root_message s) →
    Caller.actor caller = RunState.requester s → Caller.session caller = None →
    may_speak route s (Verb.Withdraw root caller text) message
      (EventBody.Withdrawn message WithdrawnBy.Requester).

(** ** The run hears what was accepted *)
Definition is_reply_verb (verb : Verb) : bool := match verb with Verb.Reply _ _ _ _ => true | _ => false end.

(** An attempt that is not over is its seat's latest, and its run is not ending. *)
Lemma open_attempt run def log s i r :
  compiled_run run def log s → RunState.slots s !! i = Some r → over (SlotRecord.state r) = false →
  is_superseded s r = false ∧ ¬ ending s.
Proof.
  intros Hrun Hi Hover. split.
  - apply compiled_run_sound in Hrun as [_ _ Hs _]. pose proof (seats_order _ _ Hs) as Ho.
    apply (superseded_last s i r Ho Hi). split; [done|]. intros j r' Hlt Hj Hseat.
    destruct (Ho i j r r' Hlt Hi Hj (eq_sym Hseat)) as [_ Hov]. congruence.
  - intros He. destruct (run_winding_down _ _ _ _ Hrun) as [Hw _]. specialize (Hw He).
    eapply Forall_lookup_1 in Hw; [|exact Hi]. destruct Hw as [Hov _]. congruence.
Qed.

Lemma owes_reply_over st : owes_reply st = true → over st = false ∧ is_replied st = false.
Proof. by destruct st. Qed.

Lemma spoken_heard run def log route s verb message body e :
  compiled_run run def log s → State.is_finished s = false → may_speak route s verb message body →
  is_reply_verb verb = true ∨ is_finishing s = false → Event.body e = body → ignored_reason s e = None.
Proof.
  intros Hrun Hfin Hmay Hwhen Hbody. unfold ignored_reason. rewrite Hfin, Hbody.
  destruct Hmay as [thread caller text flags key message record _ Hr Ho _ _
                   |root caller text accept question message _ Hq Hacc _ _|root caller text message _ _ _ _].
  - rewrite Hr. unfold record_at in Hr. apply bind_Some in Hr as (i & _ & Hi).
    destruct (owes_reply_over _ Ho) as [Hover Hrep].
    destruct (open_attempt _ _ _ _ _ _ Hrun Hi Hover) as [Hsup Hend].
    assert (is_finishing s = false) as Hf.
    { unfold ending, is_finishing in *. by destruct (RunState.phase s). }
    unfold reply_ignored. rewrite Hrep, Hsup, Hf. by destruct (SlotRecord.state record).
  - destruct Hwhen as [|Hf]; [done|]. rewrite Hf. simpl. unfold unless.
    assert (existsb (answerable (Question.id question)
      (if accept then Disposition.Accept else Disposition.Continue)) (open_questions s) = true) as ->; [|done].
    apply existsb_exists. exists question. split; [by apply list_elem_of_In|]. unfold answerable.
    rewrite bool_decide_eq_true_2 by done. destruct accept; [|done]. simpl. specialize (Hacc eq_refl).
    unfold is_escalation in Hacc. by destruct (Question.asked question).
  - destruct Hwhen as [|Hf]; [done|]. by rewrite Hf.
Qed.

(** But an answer of a run that is finishing is never heard. *)
Definition is_answer_verb (verb : Verb) : bool := match verb with Verb.Answer _ _ _ _ => true | _ => false end.

Lemma answer_unheard route s verb message body e def :
  State.is_finished s = false → may_speak route s verb message body → is_answer_verb verb = true →
  is_finishing s = true → Event.body e = body →
  decide s e def = [Decision.Ignored (Event.seq e) ReasonCode.AlreadyFinishing].
Proof.
  intros Hfin Hmay Hverb Hf Hbody. destruct Hmay; try done. unfold decide, ignored_reason.
  by rewrite Hfin, Hbody, Hf.
Qed.

Section accepted.
Local Unset Default Proof Using.
Context {serde : Serde} {host_serde : HostSerde} {bridge_serde : BridgeSerde} {ledger_serde : LedgerSerde}.
Context {ulid : Ulid} {S O : Type} {store : RunStore S} {inherent : InherentStore S}.
Context {outside : Outside O} {ledger_ports : LedgerPorts O} {bridge_ports : BridgePorts O}.
Context {chat : ChatStore O}.
Context {others : View → View → Prop} {others_refl : Reflexive others} {others_trans : Transitive others}.
Context {laws : RunStoreLaws S others} {inherent_laws : InherentLaws S others}.
Local Abbreviation BridgeCtx := (@Bridge.BridgeCtx S O).
Local Abbreviation unwritten := (BridgeFacts.unwritten (S:=S) (O:=O) (others:=others)).
Implicit Types b : BridgeCtx.

(** The input is in the inbox as it was made. The store takes no second input under a key it has seen: when
    the key minted for this one was there already, it is that one which is in the inbox or the log. *)
Definition put_in b' (run : RunId) (key : Key) (body : EventBody) (now : Timestamp) : Prop :=
  Event_new run 0 now key Origin.Cli body ∈ View.inbox (observe (b_store b')) run ∨
  key ∈ (Event.key <$> View.inbox (observe (b_store b')) run) ∨ logged_key (observe (b_store b')) run key.

Lemma enqueued_put_in run body now key b b' answer :
  valid (b_store b) →
  with_store (enqueue run (Event_new run 0 now key Origin.Cli body) []) b = (b', Ok answer) →
  put_in b' run key body now ∧ b_outside b' = b_outside b.
Proof.
  intros Hv H. unfold with_store in H.
  destruct (enqueue _ _ _ (b_store b)) as [s' r] eqn:E. injection H as <- ->.
  apply enqueue_law in E as (_ & v & Ho & _ & Hc); [|done]. split; [|done]. unfold put_in. simpl.
  inversion Hc as [? _ _ _ _ _ _ Hin _ _ _| ? _ Hdup [Hs _]| |]; subst.
  - left. rewrite Hin. apply elem_of_app. right. by apply list_elem_of_singleton.
  - right. unfold logged_key in *. destruct (Hs run) as (_ & -> & ->). exact Hdup.
Qed.

(** Reading the store asks nothing of the ports. *)
Definition still {A} (m : BridgeCtx → BridgeCtx * A) : Prop := ∀ b, b_outside (m b).1 = b_outside b.

Lemma still_with_store {A} (op : S → S * A) : still (with_store op).
Proof. intros b. unfold with_store. by destruct (op (b_store b)). Qed.
Lemma still_stored {A} (op : S → S * StoreResult A) : still (stored op).
Proof. intros b. unfold stored, with_store. by destruct (op (b_store b)). Qed.
Lemma still_give {A} (a : A) : still (give a).
Proof. done. Qed.
Lemma still_and_then {A B} (m : BridgeCtx → BridgeCtx * A) (k : A → BridgeCtx → BridgeCtx * B) :
  still m → (∀ a, still (k a)) → still (and_then m k).
Proof.
  intros Hm Hk b. unfold and_then. specialize (Hm b). destruct (m b) as [b1 a]. by rewrite (Hk a b1).
Qed.
Lemma still_try_then {A B} (m : BridgeCtx → BridgeCtx * result Refused A)
    (k : A → BridgeCtx → BridgeCtx * result Refused B) :
  still m → (∀ a, still (k a)) → still (try_then m k).
Proof.
  intros Hm Hk b. unfold try_then. specialize (Hm b). destruct (m b) as [b1 [a|]]; [|done].
  by rewrite (Hk a b1).
Qed.

Local Ltac stills :=
  repeat (first [ apply still_with_store | apply still_stored | apply still_give
                | apply still_try_then; [|intros ?] | apply still_and_then; [|intros ?] | case_match ]).

Lemma still_first_event run events : still (first_event run events).
Proof.
  intros b. unfold first_event. destruct events; [|done].
  assert (H := still_with_store (next_input run) b). by destruct (with_store _ b).
Qed.
Lemma still_route_of thread : still (route_of thread).
Proof. unfold route_of. stills. Qed.
Lemma still_state_of run : still (state_of run).
Proof. unfold state_of, view, read_log. stills; apply still_first_event || stills. Qed.

Lemma still_eq {A} (m : BridgeCtx → BridgeCtx * A) b b1 a : still m → m b = (b1, a) → b_outside b1 = b_outside b.
Proof. intros Hm E. specialize (Hm b). by rewrite E in Hm. Qed.

(** What an accepted verb did: it read the route of its thread and a state of that run which is not
    finished, minted a key, posted its words under that key, and put the input it made of them in. *)
Definition accepted b b' (verb : Verb) (now : Timestamp) (run : RunId) (s : RunState)
    (message : option MessageId) (body : EventBody) : Prop :=
  let '(o, minted) := mint_ulid (b_outside b) in
  let key := "input/" +:+ run +:+ "/" +:+ minted in
  ∃ route, (∃ b1 b2, route_of (verb_thread verb) b = (b1, Ok route) ∧ state_of run b1 = (b2, Ok s)) ∧
    route_run route = run ∧ State.is_finished s = false ∧ may_speak route s verb message body ∧
    (b_outside b', message) =
      match message with
      | Some _ => port_post (verb_thread verb) (verb_sender verb) (verb_text verb) Refs_default key o
      | None => (o, None)
      end ∧
    put_in b' run key body now.

(** Minting and posting, from a store that was only read. *)
Lemma post_and_enqueue_Ok run thread sender text now body b b3 b' fresh message :
  valid (b_store b) → input_key run b = (b3, fresh) →
  post_and_enqueue run thread sender text fresh now body b3 = (b', Ok message) →
  let '(o, minted) := mint_ulid (b_outside b) in
  let key := "input/" +:+ run +:+ "/" +:+ minted in
  (b_outside b', Some message) = port_post thread sender text Refs_default key o ∧
  put_in b' run key (body message) now.
Proof.
  unfold input_key, with_outside. intros Hv Hk H. destruct (mint_ulid (b_outside b)) as [o minted].
  injection Hk as <- <-. cbv zeta. unfold post_and_enqueue in H.
  apply try_then_Ok in H as (b1 & posted & H1 & H). unfold ported, with_outside in H1. simpl in H1.
  destruct (port_post _ _ _ _ _ o) as [o' [m|]]; [|done]. injection H1 as <- <-.
  apply and_then_eq in H as (b2 & r & E & H). destruct r as [answer|]; [|done]. injection H as <- <-.
  by apply enqueued_put_in in E as [Hin ->].
Qed.

Lemma quiet_valid {A} (m : BridgeCtx → BridgeCtx * A) b b1 a :
  quiet (others:=others) m → valid (b_store b) → m b = (b1, a) → valid (b_store b1).
Proof. intros Hm Hv E. destruct (Hm b Hv) as [[H _] _]. by rewrite E in H. Qed.

Lemma reply_accepted thread caller text flags now b b' message :
  valid (b_store b) → reply thread caller text flags now b = (b', Ok message) →
  ∃ run s body, accepted b b' (Verb.Reply thread caller text flags) now run s (Some message) body.
Proof.
  intros Hv. unfold reply. intros (b1 & route & Hroute & H)%try_then_Ok.
  destruct (route_session_key route) as [key|] eqn:Ekey; [|done].
  apply try_then_Ok in H as (b2 & s & Hs & H). destruct (State.is_finished s) eqn:Ef; [done|].
  destruct (find s key ≫= _) as [record|] eqn:Er; [|done]. cbv zeta in H.
  destruct (negb _) eqn:Ec in H; [done|]. destruct (negb _) eqn:Eo in H; [done|].
  apply and_then_eq in H as (b3 & fresh & Hk & H).
  rewrite negb_false_iff, andb_true_iff, !bool_decide_eq_true in Ec. rewrite negb_false_iff in Eo.
  assert (Hv1 := quiet_valid _ _ _ _ (quiet_route_of thread) Hv Hroute).
  assert (Hv2 := quiet_valid _ _ _ _ (quiet_state_of (route_run route)) Hv1 Hs).
  assert (b_outside b2 = b_outside b) as Ho.
  { rewrite (still_eq _ _ _ _ (still_state_of _) Hs). exact (still_eq _ _ _ _ (still_route_of _) Hroute). }
  exists (route_run route), s. eexists. unfold accepted. rewrite <-Ho.
  assert (Hp := post_and_enqueue_Ok _ _ _ _ _ _ _ _ _ _ _ Hv2 Hk H).
  destruct (mint_ulid (b_outside b2)) as [o minted]. destruct Hp as [Hpost Hin].
  exists route. split_and!; [by exists b1, b2|done..| |exact Hpost|exact Hin].
  by econstructor; [done|exact Er|..]; apply Ec || exact Eo.
Qed.

Lemma check_requester_Ok s caller :
  check_requester s caller = Ok tt → Caller.actor caller = RunState.requester s ∧ Caller.session caller = None.
Proof.
  unfold check_requester. destruct (_ && _) eqn:E; [|done]. intros _.
  rewrite andb_true_iff, !bool_decide_eq_true in E. naive_solver.
Qed.

(** Both verbs on a root begin alike. *)
Lemma root_verb root caller b {A} (k : RunId → RunState → BridgeCtx → BridgeCtx * result Refused A) b' a :
  valid (b_store b) →
  try_then (root_route root) (λ run, try_then (state_of run) (λ s,
    if State.is_finished s then refuse Refused.RunFinished
    else try_then (give (check_requester s caller)) (λ _, k run s))) b = (b', Ok a) →
  ∃ route s b1 b2, route_of root b = (b1, Ok route) ∧ route_session_key route = None ∧
    state_of (route_run route) b1 = (b2, Ok s) ∧ valid (b_store b2) ∧ b_outside b2 = b_outside b ∧
    State.is_finished s = false ∧ Caller.actor caller = RunState.requester s ∧
    Caller.session caller = None ∧ k (route_run route) s b2 = (b', Ok a).
Proof.
  intros Hv (b1 & run & Hroot & H)%try_then_Ok. apply try_then_Ok in H as (b2 & s & Hs & H).
  destruct (State.is_finished s) eqn:Ef; [done|]. apply try_then_Ok in H as (b3 & [] & Hc & H).
  injection Hc as <- Hc. apply check_requester_Ok in Hc as [Ha Hse].
  unfold root_route in Hroot. apply try_then_Ok in Hroot as (b0 & route & Hroute & Hroot).
  destruct (route_session_key route) eqn:Ekey; [done|]. injection Hroot as <- <-.
  assert (Hv1 := quiet_valid _ _ _ _ (quiet_route_of root) Hv Hroute).
  exists route, s, b0, b2. split_and!; try done.
  - exact (quiet_valid _ _ _ _ (quiet_state_of _) Hv1 Hs).
  - rewrite (still_eq _ _ _ _ (still_state_of _) Hs). exact (still_eq _ _ _ _ (still_route_of _) Hroute).
Qed.

Lemma answer_accepted root caller text accept now b b' message :
  valid (b_store b) → answer root caller text accept now b = (b', Ok message) →
  ∃ run s body, accepted b b' (Verb.Answer root caller text accept) now run s (Some message) body.
Proof.
  intros Hv H. unfold answer in H.
  apply root_verb in H as (route & s & b1 & b2 & Hroute & Hnone & Hs & Hv2 & Ho & Hf & Ha & Hse & H); [|done].
  apply try_then_Ok in H as (b3 & waiting & Hw & H).
  destruct (find_first _ _) as [question|] eqn:Eq; [|done]. destruct (accept && _) eqn:Eacc; [done|].
  apply and_then_eq in H as (b4 & fresh & Hk & H).
  assert (Hv3 := quiet_valid _ _ _ _ (quiet_stored _ (reads_only_waiting _)) Hv2 Hw).
  assert (b_outside b3 = b_outside b) as Ho3 by by rewrite (still_eq _ _ _ _ (still_stored _) Hw).
  exists (route_run route), s. eexists. unfold accepted. rewrite <-Ho3.
  assert (Hp := post_and_enqueue_Ok _ _ _ _ _ _ _ _ _ _ _ Hv3 Hk H).
  destruct (mint_ulid (b_outside b3)) as [o minted]. destruct Hp as [Hpost Hin].
  exists route. split_and!; [by exists b1, b2|done..| |exact Hpost|exact Hin].
  apply find_first_Some in Eq as [Hopen _]. econstructor; [done|exact Hopen| |done|done].
  intros ->. by simpl in Eacc.
Qed.

Lemma withdraw_accepted root caller text now b b' message :
  valid (b_store b) → withdraw root caller text now b = (b', Ok message) →
  ∃ run s body, accepted b b' (Verb.Withdraw root caller text) now run s message body.
Proof.
  intros Hv H. unfold withdraw in H.
  apply root_verb in H as (route & s & b1 & b2 & Hroute & Hnone & Hs & Hv2 & Ho & Hf & Ha & Hse & H); [|done].
  apply and_then_eq in H as (b3 & fresh & Hk & H).
  exists (route_run route), s. eexists. unfold accepted. rewrite <-Ho.
  destruct (RunState.root_message s) as [root_message|] eqn:Eroot;
    apply try_then_Ok in H as (b4 & x & Hp & H); injection H as <- <-.
  - assert (Hpe := post_and_enqueue_Ok _ _ _ _ _ _ _ _ _ _ _ Hv2 Hk Hp).
    destruct (mint_ulid (b_outside b2)) as [o minted]. destruct Hpe as [Hpost Hin].
    exists route. split_and!; [by exists b1, b2|done..| |exact Hpost|exact Hin].
    constructor; try done. all: by rewrite ?Eroot.
  - unfold stored in Hp. destruct (with_store _ b3) as [b5 [y|]] eqn:E; [|done]. injection Hp as <- _.
    unfold input_key, with_outside in Hk. destruct (mint_ulid (b_outside b2)) as [o minted].
    injection Hk as <- <-. apply enqueued_put_in in E as [Hin Hout]; [|done]. exists route.
    split_and!; [by exists b1, b2|done..| |by rewrite Hout|exact Hin].
    constructor; try done. by rewrite Eroot.
Qed.

Definition is_commission (verb : Verb) : bool :=
  match verb with Verb.Commission _ _ _ _ _ => true | _ => false end.

Lemma speak_accepted verb now b b' :
  valid (b_store b) → is_commission verb = false → speak verb now b = (b', Ok tt) →
  ∃ run s message body, accepted b b' verb now run s message body.
Proof.
  intros Hv Hc H. assert (∀ A (r : BridgeCtx * result Refused A), spoken r = (b', Ok tt) →
    ∃ a, r = (b', Ok a)) as Hs.
  { intros A [b1 [a|]] Hr; unfold spoken in Hr; simplify_eq/=. eauto. }
  destruct verb; [done|..]; simpl in H; apply Hs in H as [message H].
  - apply reply_accepted in H as (run & s & body & H); [|done]. eauto.
  - apply answer_accepted in H as (run & s & body & H); [|done]. eauto.
  - apply withdraw_accepted in H as (run & s & body & H); [|done]. eauto.
Qed.
End accepted.

(** ** What a verb does *)

(** C23: a verb that is refused writes nothing. Whatever others do to the store meanwhile, a commission, a
    reply, an answer or a withdrawal that is refused leaves the store related to the one it found by what
    the others did alone, so with nobody else at work it is the same; and unless the chat store failed or the
    message is said to be posted and not enqueued, it posted nothing. *)
Theorem refused_verbs_write_nothing {serde : Serde} {host_serde : HostSerde} {bridge_serde : BridgeSerde}
    {ledger_serde : LedgerSerde} {laws : SerdeLaws serde} {ulid : Ulid} {O : Type} {outside : Outside O}
    {ledger_ports : LedgerPorts O} {bridge_ports : BridgePorts O} {chat : ChatStore O}
    {declared : DeclaredChannels O} (others : View → View → Prop) {others_refl : Reflexive others}
    {others_trans : Transitive others} verb now (b b' : @BridgeCtx SqliteRunStore O) why :
  (∀ v v', same_view v v' → others v v') →
  store_ok (conn_tables (b_store b)) → Forall (honest others) (conn_script (b_store b)) →
  speak verb now b = (b', Err why) →
  store_ok (conn_tables (b_store b')) ∧
  others (view_of (conn_tables (b_store b))) (view_of (conn_tables (b_store b'))) ∧
  (why ≠ Refused.Port → (∀ message, why ≠ Refused.PostedNotEnqueued message) →
   posts (b_outside b') = posts (b_outside b)).
Proof.
  intros Hsame Hok Hscript H. assert (connected others (b_store b)) as Hv by by split.
  pose proof (refusing_speak (S:=SqliteRunStore) (O:=O) (others:=others) Hsame verb now) as Hr.
  destruct (Hr b Hv b' why H) as [[[Hok' _] Ho] Hp].
  split_and!; [done..|]. intros H1 H2. by apply Hp.
Qed.

Global Instance same_view_reflexive : Reflexive same_view.
Proof. intros v. apply same_view_refl. Qed.
Global Instance same_view_transitive : Transitive same_view.
Proof.
  intros v1 v2 v3 [H12 K12] [H23 K23]. split; [|congruence]. intros run.
  destruct (H12 run) as (<- & <- & <-). apply H23.
Qed.

Global Instance around_declared : DeclaredChannels Around.
Proof. by split. Qed.

Lemma refused_verbs_write_nothing_witness :
  let b := bridge_on (folded_tables (tail opening)) [] in
  let verb := Verb.Reply "m-1" requester "done" (ReplyFlags.Mk false false) in
  let b' := (speak verb 6000 b).1 in
  speak verb 6000 b = (b', Err (Refused.NotTheSlot "coder")) ∧
  store_ok (conn_tables (b_store b')) ∧
  same_view (view_of (conn_tables (b_store b))) (view_of (conn_tables (b_store b'))) ∧
  (Refused.NotTheSlot "coder" ≠ Refused.Port →
   (∀ message, Refused.NotTheSlot "coder" ≠ Refused.PostedNotEnqueued message) →
   posts (b_outside b') = posts (b_outside b)).
Proof.
  intros b verb b'.
  assert (speak verb 6000 b = (b', Err (Refused.NotTheSlot "coder"))) as H
    by (vm_compute; reflexivity).
  split; [exact H|].
  apply (refused_verbs_write_nothing same_view verb 6000 b b' (Refused.NotTheSlot "coder")); [done| | |exact H].
  - by apply folded_tables_ok, all_filed_check.
  - constructor.
Defined.


(** A run that asked a question and was withdrawn before it was answered: the question is still open. *)
Definition asked_then_withdrawn : list Event := tail opening ++ asking_inputs ++ [withdrawn_input 7000].

