(* ===== verification/BridgeRuns.v ===== *)
(** * Clients keep what hosts rely on

    A host's theorems let any number of clients write between its calls as long as they keep [rely]. Here
    every verb of the bridge is shown to write less than that: inputs behind those that wait, and names that
    were free. So the theorems hold of hosts and clients on one file. *)

From S2P Require Import Prelude Text Utf8 Ids Codes Events Flow State Effects Guard Input Evolve Decide Status Host Examples Ports TreeLedger Contract Sqlite StoreSpec SqliteFacts Runner Execute Tick Bridge Spec Logs HostRuns HostTicks StoreFacts Around HostFacts Posts Drains BridgeFacts.
From stdpp Require Import options.

Create HintDb keeping.

(** A definition is stored under the name the bridge gives it, and under no other. *)
Definition content_addressed {serde : Serde} {host_serde : HostSerde} {bridge_serde : BridgeSerde}
    (F : string → option FlowDef) : Prop :=
  ∀ def read, flow_from_slice (canonical_json def) = Some read →
    F (flow_ref_hash (flow_ref def)) = Some read.

(** ** What a client writes

    The inputs of clients: a commission, a person's reply under a key of its own, an answer, a withdrawal. *)
Definition client_input (e : Event) : Prop :=
  Event.origin e = Origin.Cli ∧ filed e ∧
  match Event.body e with
  | EventBody.Commissioned _ _ _ _ _ _ _ | EventBody.Reply _ _ _ _ | EventBody.Answer _ _ _
  | EventBody.Withdrawn _ _ => True
  | _ => False
  end.

(** One write of a client: inputs of its own behind what waits, and names that were free. No log, no lease and
    no value that was there changes. *)
Record client_step {serde : Serde} {ulid : Ulid} (F : string → option FlowDef) (v v' : View) : Prop := {
  client_log run : View.log v' run = View.log v run;
  client_inbox run :
    ∃ inputs, View.inbox v' run = View.inbox v run ++ inputs ∧ Forall client_input inputs;
  client_values : View.kv v ⊆ View.kv v';
  client_leases run : View.kv v' !! owner_key run = View.kv v !! owner_key run;
  client_flows : pinned_flows F (View.kv v) → pinned_flows F (View.kv v');
}.

(** A compare-and-set of a client takes a free name, which is that of no lease. *)
Definition takes_name {serde : Serde} {ulid : Ulid} (F : string → option FlowDef) (item : Cas) : Prop :=
  keeps_names F item ∧ Cas.from item = None ∧ is_Some (Cas.to item).

Section steps.
Local Unset Default Proof Using.
Context {serde : Serde} {ulid : Ulid} (F : string → option FlowDef).
Implicit Types v : View.

Lemma client_rely v v' : client_step F v v' → rely F v v'.
Proof.
  intros [Hlog Hin _ Hlease Hflows]. split; try done.
  - intros run. by rewrite Hlog.
  - intros H run. rewrite Hlog. apply H.
  - intros run _. destruct (Hin run) as (inputs & -> & _). by eexists.
  - apply same_leases. intros run. unfold lease_of. by rewrite Hlease.
  - intros H run. destruct (Hin run) as (inputs & -> & Hall). apply Forall_app. split; [apply H|].
    eapply Forall_impl; [exact Hall|]. by intros e (_ & ? & _).
  - intros _ run key _ [Hi|(k & Ha & Hk)]; [left|right].
    + destruct (Hin run) as (inputs & -> & _). rewrite fmap_app. apply elem_of_app. by left.
    + exists k. split; [done|]. unfold logged_key. by rewrite Hlog.
Qed.

Lemma same_view_client v v' : same_view v v' → client_step F v v'.
Proof.
  intros [Hs Hkv]. split; try by rewrite Hkv.
  - intros run. apply Hs.
  - intros run. exists []. rewrite app_nil_r. split; [apply Hs|constructor].
Qed.

Lemma enqueue_client run event cas v r v' :
  client_input event → Forall (takes_name F) cas → enqueue_contract run event cas v r v' →
  client_step F v v'.
Proof.
  intros Hinput Hcas [v1 _ _ _ _ _ Hlog Hin Hkv Hfree Hs| | |]; try by apply same_view_client.
  assert (Forall (keeps_names F) cas) as Hnames
    by (eapply Forall_impl; [exact Hcas|]; by intros item [? _]).
  split.
  - intros other. destruct (base.decide (other = run)) as [->|]; [done|by apply Hs].
  - intros other. destruct (base.decide (other = run)) as [->|Hne].
    + exists [event <| Event.seq := 0 |>]. split; [done|]. apply Forall_singleton.
      destruct Hinput as (? & ? & ?). by split_and!.
    + exists []. rewrite app_nil_r. split; [by apply Hs|constructor].
  - apply map_subseteq_spec. intros key value Hk. rewrite Hkv, cas_writes_lookup; [done|].
    rewrite Forall_forall in *. intros item Hitem Heq. destruct (Hcas item Hitem) as (_ & Hfrom & _).
    specialize (Hfree item Hitem). simpl in Hfree. rewrite Heq in Hfree. congruence.
  - intros other. rewrite Hkv. apply cas_writes_lookup. eapply Forall_impl; [exact Hnames|].
    intros item [_ Hn]. apply Hn.
  - rewrite Hkv. by apply cas_writes_flows.
Qed.
End steps.

Section keeping.
Local Unset Default Proof Using.
Context {serde : Serde} {host_serde : HostSerde} {bridge_serde : BridgeSerde} {ledger_serde : LedgerSerde}.
Context {ulid : Ulid} {S O : Type} {store : RunStore S} {inherent : InherentStore S}.
Context {outside : Outside O} {ledger_ports : LedgerPorts O} {bridge_ports : BridgePorts O}.
Context {chat : ChatStore O} {declared : DeclaredChannels O}.
Context (F : string → option FlowDef) (named : content_addressed F).
Context {others : View → View → Prop} {others_refl : Reflexive others} {others_trans : Transitive others}.
Context {laws : RunStoreLaws S others} {inherent_laws : InherentLaws S others}.
Local Abbreviation BridgeCtx := (@Bridge.BridgeCtx S O).
Local Abbreviation quiet := (BridgeFacts.quiet (S:=S) (O:=O) (others:=others)).
Implicit Types b : BridgeCtx.

(** What happened to the store, one step after another: others wrote, or the client did. *)
Definition fair b b' : Prop :=
  valid (b_store b') ∧
  rtc (λ v v', others v v' ∨ client_step F v v') (observe (b_store b)) (observe (b_store b')).

Lemma fair_trans b1 b2 b3 : fair b1 b2 → fair b2 b3 → fair b1 b3.
Proof. intros [_ H12] [Hv H23]. split; [done|by etrans]. Qed.

(** An operation that writes nothing but that. *)
Definition keeping {A} (m : BridgeCtx → BridgeCtx * A) : Prop :=
  ∀ b, valid (b_store b) → fair b (m b).1.

Lemma quiet_keeping {A} (m : BridgeCtx → BridgeCtx * A) : quiet m → keeping m.
Proof. intros Hm b Hv. destruct (Hm b Hv) as [[Hv' Ho] _]. split; [done|]. apply rtc_once. by left. Qed.

Lemma keeping_and_then {A B} (m : BridgeCtx → BridgeCtx * A) (k : A → BridgeCtx → BridgeCtx * B) :
  keeping m → (∀ a, keeping (k a)) → keeping (and_then m k).
Proof.
  intros Hm Hk b Hv. unfold and_then. specialize (Hm b Hv). destruct (m b) as [b1 a].
  eapply fair_trans; [exact Hm|]. apply Hk, Hm.
Qed.

Lemma keeping_try_then {A B} (m : BridgeCtx → BridgeCtx * result Refused A)
    (k : A → BridgeCtx → BridgeCtx * result Refused B) :
  keeping m → (∀ a, keeping (k a)) → keeping (try_then m k).
Proof.
  intros Hm Hk b Hv. unfold try_then. specialize (Hm b Hv). destruct (m b) as [b1 [a|e]]; [|done].
  eapply fair_trans; [exact Hm|]. apply Hk, Hm.
Qed.

(** ** Writes *)
Lemma keeping_enqueue run event cas :
  client_input event → Forall (takes_name F) cas → keeping (with_store (enqueue run event cas)).
Proof.
  intros He Hcas b Hv. unfold with_store. destruct (enqueue run event cas (b_store b)) as [s r] eqn:E.
  apply enqueue_law in E as (Hv' & v & Ho & _ & Hc); [|done]. split; [done|].
  simpl. eapply rtc_l; [by left|]. apply rtc_once. right. by eapply enqueue_client.
Qed.

Lemma keeping_stored {A} (op : S → S * StoreResult A) : keeping (with_store op) → keeping (stored op).
Proof. intros H b Hv. unfold stored. specialize (H b Hv). by destruct (with_store op b) as [b1 r]. Qed.

Lemma keeping_with_outside {A} (op : O → O * A) : keeping (with_outside op).
Proof. intros b Hv. unfold with_outside. destruct (op (b_outside b)) as [o r]. by split. Qed.

Lemma keeping_ported {A} (op : O → O * option A) : keeping (ported op).
Proof.
  intros b Hv. unfold ported. assert (H := keeping_with_outside op b Hv). by destruct (with_outside op b).
Qed.

(** A key minted for an input is one of a person's. *)
Lemma keeping_minted {A} run (k : Key → BridgeCtx → BridgeCtx * A) :
  (∀ key, is_input_key key = true → keeping (k key)) → keeping (and_then (input_key run) k).
Proof.
  intros Hk b Hv. unfold and_then, input_key. assert (H := keeping_with_outside mint_ulid b Hv).
  destruct (with_outside mint_ulid b) as [b1 minted]. eapply fair_trans; [exact H|].
  apply Hk; [done|apply H].
Qed.

Lemma flow_takes_name def :
  takes_name F (Cas.Mk ("flow/" +:+ flow_ref_hash (flow_ref def)) None (Some (canonical_json def))).
Proof.
  split; [|done]. split; [|done]. intros hash bytes read Hk Hto Hread. cbn [Cas.key Cas.to] in Hk, Hto.
  injection Hto as <-. apply (inj (String.append "flow/")) in Hk as <-. by apply named.
Qed.

Lemma keeping_open_run retries run event cas def :
  client_input event → Forall (takes_name F) cas →
  keeping (open_run retries run event cas ("flow/" +:+ flow_ref_hash (flow_ref def)) def).
Proof.
  intros He Hcas. set (key := "flow/" +:+ _). induction retries as [|retries IH]; intros b Hv;
    cbn [open_run];
    assert (Hq := quiet_keeping _ (quiet_stored _ (reads_only_get key)) b Hv);
    destruct (stored (get key) b) as [b1 [held|e]]; try done; cbn [fst] in Hq;
    assert (Hk : keeping (with_store (enqueue run event
      match held with None => cas ++ [Cas.Mk key None (Some (canonical_json def))] | Some _ => cas end)))
      by (apply keeping_enqueue; [done|]; destruct held; [done|];
          apply Forall_app; split; [done|]; apply Forall_singleton, flow_takes_name);
    specialize (Hk b1 (proj1 Hq)); destruct (with_store (enqueue run event _) b1) as [b2 r];
    assert (Hu := fair_trans _ _ _ Hq Hk); destruct r as [answer|[]]; try exact Hu.
  case_bool_decide; [|exact Hu]. eapply fair_trans; [exact Hu|]. apply IH, Hu.
Qed.

Lemma keeping_post_and_enqueue run thread sender text key now body :
  (∀ message, client_input (Event_new run 0 now key Origin.Cli (body message))) →
  keeping (post_and_enqueue run thread sender text key now body).
Proof.
  intros Hbody. apply keeping_try_then; [apply keeping_ported|]. intros message.
  apply keeping_and_then; [by apply keeping_enqueue|]. intros r.
  destruct r; apply quiet_keeping, quiet_give.
Qed.

Local Ltac by_client :=
  intros; split; [reflexivity|split; [intros ?; first [assumption|discriminate]|exact I]].

Hint Resolve quiet_keeping : keeping.
Hint Extern 1 (keeping (post_and_enqueue _ _ _ _ _ _ _)) =>
  apply keeping_post_and_enqueue; by_client : keeping.
Hint Resolve quiet_give quiet_refuse quiet_answer_with quiet_route_of quiet_state_of quiet_root_route
  quiet_mint_run_id quiet_mint_thread_id quiet_review_of quiet_stored reads_only_waiting : keeping.
Hint Extern 0 (Reflexive _) => typeclasses eauto : keeping.
Hint Extern 0 (Transitive _) => typeclasses eauto : keeping.

(** Walks through the steps and branches of a verb. *)
Local Ltac keep :=
  repeat (cbv beta zeta; first
    [ solve [eauto with keeping nocore]
    | lazymatch goal with
      | |- keeping (and_then (input_key _) _) => apply keeping_minted; intros ? ?
      | |- keeping (try_then _ _) => apply keeping_try_then; [|intros ?]
      | |- keeping (and_then _ _) => apply keeping_and_then; [|intros ?]
      end
    | case_match ]).

Lemma keeping_reply thread caller text flags now : keeping (reply thread caller text flags now).
Proof. unfold reply. keep. Qed.
Lemma keeping_answer root caller text accept now : keeping (answer root caller text accept now).
Proof. unfold answer. keep. Qed.
Lemma keeping_withdraw root caller text now : keeping (withdraw root caller text now).
Proof. unfold withdraw. keep. apply keeping_stored, keeping_enqueue; [by_client|done]. Qed.

Lemma keeping_commission channel body refs sender policy now :
  keeping (commission channel body refs sender policy now).
Proof.
  intros b. unfold commission. generalize (b_workspace_id b). intros workspace. revert b.
  lazymatch goal with
  | |- ∀ b, _ → fair b (try_then ?m ?k b).1 => change (keeping (try_then m k))
  end.
  apply keeping_try_then; [apply keeping_ported|]. intros flow. keep.
  apply keeping_open_run; [by_client|].
  repeat (apply Forall_cons; split; [split; [split; [by intros|by intros]|by eauto]|]). done.
Qed.

Lemma keeping_speak verb now : keeping (speak verb now).
Proof.
  assert (∀ A (m : BridgeCtx → BridgeCtx * result Refused A), keeping m → keeping (λ b, spoken (m b)))
    as Hs by (intros A m Hm b Hv; by apply Hm).
  destruct verb; simpl; apply Hs;
    auto using keeping_commission, keeping_reply, keeping_answer, keeping_withdraw.
Qed.

(** Verbs one after another, each at its instant. *)
Definition conversation (verbs : list (Verb * Timestamp)) b : BridgeCtx :=
  foldl (λ b '(verb, now), (speak verb now b).1) b verbs.

Lemma conversation_keeps verbs b : valid (b_store b) → fair b (conversation verbs b).
Proof.
  unfold conversation. revert b; induction verbs as [|[verb now] verbs IH]; intros b Hv; simpl.
  { by split. }
  assert (Hk := keeping_speak verb now b Hv). eapply fair_trans; [exact Hk|]. apply IH, Hk.
Qed.
End keeping.

(** C21: clients keep the runs. Whatever a client says in whatever order, to whichever threads and accepted or
    refused, with others writing between any two of its calls: what happened to the store is a sequence of
    what the others did and of writes of the client, each of which leaves every log and every lease as it
    is, adds only inputs of a client behind those that wait, and sets only names that were free, a
    definition under its own name. So where the others keep what the theorems on hosts ask of everyone who
    writes to the file, the client and the others together keep it. *)
Theorem clients_keep_runs {serde : Serde} {host_serde : HostSerde} {bridge_serde : BridgeSerde}
    {ledger_serde : LedgerSerde} {laws : SerdeLaws serde} {ulid : Ulid} {O : Type} {outside : Outside O}
    {ledger_ports : LedgerPorts O} {bridge_ports : BridgePorts O} {chat : ChatStore O}
    {declared : DeclaredChannels O} (F : string → option FlowDef) (others : View → View → Prop)
    {others_refl : Reflexive others} {others_trans : Transitive others}
    verbs (b : @BridgeCtx SqliteRunStore O) :
  content_addressed F →
  store_ok (conn_tables (b_store b)) → Forall (honest others) (conn_script (b_store b)) →
  let v := view_of (conn_tables (b_store b)) in
  let v' := view_of (conn_tables (b_store (conversation verbs b))) in
  store_ok (conn_tables (b_store (conversation verbs b))) ∧
  rtc (λ v v', others v v' ∨ client_step F v v') v v' ∧
  ((∀ v v', others v v' → rely F v v') → rely F v v').
Proof.
  intros Hnamed Hok Hscript v v'. assert (connected others (b_store b)) as Hv by by split.
  pose proof (conversation_keeps (S:=SqliteRunStore) (others:=others) F Hnamed verbs b) as Hk.
  destruct (Hk Hv) as [[Hok' _] Hr]. split_and!; [done|done|]. intros Hothers.
  change (rtc (λ v v', others v v' ∨ client_step F v v') v v') in Hr.
  induction Hr as [|v1 v2 v3 [H|H] _ IH]; [done|..]; (etrans; [|exact IH]).
  - by apply Hothers.
  - by apply client_rely.
Qed.

(** A conversation with nobody else at work: a second run is commissioned, the coder replies, the requester
    withdraws. *)
Lemma clients_keep_runs_witness :
  let b := bridge_on (folded_tables (tail opening)) [] in
  let verbs := [(Verb.Commission "flow" "again" Refs_default "owner" LivenessPolicy_default, 6000%Z);
                (Verb.Reply "m-1" coder "done" (ReplyFlags.Mk false false), 6001%Z);
                (Verb.Withdraw "m-root" requester "enough", 6002%Z)] in
  let v := view_of (conn_tables (b_store b)) in
  let v' := view_of (conn_tables (b_store (conversation verbs b))) in
  store_ok (conn_tables (b_store (conversation verbs b))) ∧
  rtc (λ v v', same_view v v' ∨ client_step sample_flows v v') v v' ∧
  ((∀ v v', same_view v v' → rely sample_flows v v') → rely sample_flows v v').
Proof.
  intros b verbs. apply (clients_keep_runs sample_flows same_view verbs b).
  - intros def read H. vm_compute in H. simplify_eq. vm_compute. reflexivity.
  - by apply folded_tables_ok, all_filed_check.
  - constructor.
Defined.
