(* ===== verification/FoldEnds.v ===== *)
(** * The fold of an inbox ends

    [fold_run] is a [while] loop over the inbox of a run. Every turn but the last consumes an input, so while
    nobody adds one the loop ends, and a bound on its turns above the length of the inbox changes nothing. *)

From S2P Require Import Prelude Text Ids Codes Events Flow State Effects Guard Input Evolve Decide Host Examples Ports Contract Sqlite StoreSpec SqliteFacts Runner StoreFacts Around Logs HostRuns HostTicks HostFacts.
From stdpp Require Import options.

(** The others leave the inbox of the run as it is, but for rows they consume. *)
Definition only_consumes (run : RunId) (v v' : View) : Prop :=
  View.inbox v' run `sublist_of` View.inbox v run.

Global Instance only_consumes_refl run : Reflexive (only_consumes run).
Proof. intros v. unfold only_consumes. reflexivity. Qed.

Section ends.
Local Set Default Proof Using "laws".
Context {serde : Serde} {ulid : Ulid} {S O : Type} {store : RunStore S} {outside : Outside O}.
Context (row : RunRow) {laws : RunStoreLaws S (only_consumes (RunRow.run row))}.
Local Abbreviation run := (RunRow.run row).
Local Abbreviation others := (only_consumes run).
Implicit Types (h : @Host S O) (s : S).

Definition rows_in s : list Event := View.inbox (observe (others:=others) s) run.

(** The inbox only lost rows. *)
Definition wanes s s' : Prop := valid (others:=others) s' ∧ rows_in s' `sublist_of` rows_in s.

Lemma wanes_refl s : valid (others:=others) s → wanes s s.
Proof. by intros. Qed.

Lemma wanes_trans s1 s2 s3 : wanes s1 s2 → wanes s2 s3 → wanes s1 s3.
Proof. intros [_ H12] [Hv H23]. split; [done|]. by etrans. Qed.

Definition waning {A} (op : S → S * A) : Prop :=
  ∀ s s' a, valid (others:=others) s → op s = (s', a) → wanes s s'.

Lemma waning_get key : waning (get key).
Proof. intros s s' a Hv H. by apply get_law in H as (? & ? & _). Qed.
Lemma waning_load from : waning (load run from).
Proof. intros s s' a Hv H. by apply load_law in H as (? & ? & _). Qed.

Lemma call_wanes {A} (op : S → S * A) h h' a :
  waning op → valid (others:=others) (h_store h) → call op h = (h', a) → wanes (h_store h) (h_store h').
Proof. intros Hop Hv [H _]%call_eq. by eapply Hop. Qed.

(** ** What a turn does before its append *)
Lemma next_input_wanes h h' r :
  valid (others:=others) (h_store h) → call (next_input run) h = (h', r) →
  wanes (h_store h) (h_store h') ∧ ∀ e, r = Ok (Some e) → e ∈ rows_in (h_store h').
Proof.
  intros Hv [H _]%call_eq. apply next_input_law in H as (Hv' & Ho & Hr); [|done]. split; [done|].
  intros e ->. specialize (Hr _ eq_refl). symmetry in Hr. unfold rows_in.
  by apply head_Some_elem_of in Hr.
Qed.

Lemma note_store_error_store error h : h_store (note_store_error error h) = h_store h.
Proof using Type. by destruct error. Qed.

Lemma fold_pinned_wanes first events h h' r :
  valid (others:=others) (h_store h) → fold_pinned run first events h = (h', r) →
  wanes (h_store h) (h_store h').
Proof.
  intros Hv H. unfold fold_pinned in H. destruct (call (pinned_def first) h) as [h1 def] eqn:E.
  assert (wanes (h_store h) (h_store h1)) as Hw.
  { eapply call_wanes in E; [done| |done]. intros s s' a Hs Hp. unfold pinned_def in Hp.
    destruct (Event.body first); try (simplify_eq; by apply wanes_refl).
    destruct (get _ s) as [s1 found] eqn:Eg. simplify_eq. by eapply waning_get. }
  unfold fold_whole in H. repeat case_match; by simplify_eq.
Qed.

Lemma loaded_state_wanes h h' r :
  valid (others:=others) (h_store h) → loaded_state row h = (h', r) → wanes (h_store h) (h_store h').
Proof.
  intros Hv H. unfold loaded_state in H. cbv zeta in H.
  destruct (RunCache.read_only _); [simplify_eq; by apply wanes_refl|].
  destruct (RunCache.state _); [simplify_eq; by apply wanes_refl|].
  destruct (call (load run 0) h) as [h1 r1] eqn:E.
  apply (call_wanes _ _ _ _ (waning_load 0)) in E as Hw; [|done].
  destruct r1 as [events|error].
  2:{ repeat case_match; simplify_eq; try rewrite note_store_error_store; done. }
  unfold fold_loaded in H. destruct events as [|first events].
  - destruct (call (next_input run) h1) as [h2 r2] eqn:E2.
    apply next_input_wanes in E2 as [Hw2 _]; [|apply Hw].
    assert (wanes (h_store h) (h_store h2)) by by eapply wanes_trans.
    destruct r2 as [[event|]|error].
    + eapply wanes_trans; [done|]. eapply fold_pinned_wanes; [apply Hw2|exact H].
    + by simplify_eq.
    + simplify_eq. by rewrite note_store_error_store.
  - eapply wanes_trans; [exact Hw|]. eapply fold_pinned_wanes; [apply Hw|exact H].
Qed.

Lemma may_work_store turn_owed h h' b : may_work turn_owed h = (h', b) → h_store h' = h_store h.
Proof using Type.
  unfold may_work, ask. intros H. destruct (TickReport.busy _); [by simplify_eq|].
  destruct (budget_gone _) as [o gone]. destruct gone; by simplify_eq.
Qed.

Lemma delete_if_present_waning key : waning (delete_if_present key).
Proof.
  intros s s' a Hv H. unfold delete_if_present in H. destruct (get key s) as [s1 r] eqn:E.
  simplify_eq. by eapply waning_get.
Qed.

Lemma fold_cas_waning state events key : waning (fold_cas run state events key).
Proof.
  intros s s' a Hv H. unfold fold_cas in H.
  destruct (input_cas run state events s) as [s1 b] eqn:E1.
  assert (wanes s s1) as Hw1.
  { unfold input_cas in E1. assert (wanes s s) by by apply wanes_refl.
    destruct (Event.body <$> head events) as [body|]; [|by simplify_eq].
    destruct body; try by simplify_eq.
    - destruct (is_ignored events); [by simplify_eq|]. by eapply delete_if_present_waning.
    - destruct fact; try by simplify_eq. destruct (is_ignored events); [by simplify_eq|].
      destruct (_ ≫= _) as [record|]; [|by simplify_eq].
      destruct (get _ s) as [s2 found] eqn:Eg. simplify_eq. by eapply waning_get. }
  destruct b as [b|]; [|by simplify_eq].
  destruct (finished_cas run events s1) as [s2 c] eqn:E2.
  assert (wanes s1 s2) as Hw2.
  { unfold finished_cas in E2. destruct (holds_finished events); [|simplify_eq; apply wanes_refl, Hw1].
    destruct (delete_if_present (pending_key run) s1) as [s3 d] eqn:E3.
    apply delete_if_present_waning in E3 as Hw3; [|apply Hw1].
    destruct d as [d|]; [|by simplify_eq].
    destruct (delete_if_present (tree_refusal_key run) s3) as [s4 f] eqn:E4.
    apply delete_if_present_waning in E4 as Hw4; [|apply Hw3]. simplify_eq. by eapply wanes_trans. }
  assert (wanes s s2) as Hw02 by by eapply wanes_trans.
  destruct c as [c|]; [|by simplify_eq].
  destruct (delete_if_present (poison_key run key) s2) as [s5 d] eqn:E5.
  apply delete_if_present_waning in E5 as Hw5; [|apply Hw2]. simplify_eq. by eapply wanes_trans.
Qed.

(** ** A turn that goes on consumed an input *)
Lemma sublist_without {A} (f : A → Key) (l k : list A) e :
  l `sublist_of` k → e ∈ k → f e ∉ f <$> l → (length l < length k)%nat.
Proof using Type.
  induction 1 as [|x l k Hl IH|x l k Hl IH]; simpl; intros He Hn.
  - by apply not_elem_of_nil in He.
  - apply not_elem_of_cons in Hn as [Hx Hn]. apply elem_of_cons in He as [->|He]; [done|].
    specialize (IH He Hn). lia.
  - apply sublist_length in Hl. lia.
Qed.

Lemma append_consumes state_seq epoch events key cas s s' r :
  valid (others:=others) s → append run state_seq epoch events [key] cas s = (s', r) →
  valid (others:=others) s' ∧
  (∀ appended, r = Ok appended →
     rows_in s' `sublist_of` rows_in s ∧ key ∉ Event.key <$> rows_in s') ∧
  (∀ k, r = Err (StoreError.CasFailed k) → rows_in s' `sublist_of` rows_in s).
Proof.
  intros Hv H. apply append_law in H as (Hv' & v & Ho & _ & Hc); [|done]. split; [done|].
  unfold only_consumes in Ho. change (View.inbox (observe s) run) with (rows_in s) in Ho. split.
  - intros appended ->. inversion Hc as [v' timers _ _ _ _ _ _ _ Hin| | | | |]. subst v'.
    change (View.inbox (observe s') run) with (rows_in s') in Hin. unfold consumed in Hin. rewrite Hin.
    split; [etrans; [apply sublist_filter|done]|].
    intros (e' & Hk' & He')%list_elem_of_fmap. apply list_elem_of_filter in He' as [Hn _].
    apply Hn. rewrite Hk'. by apply list_elem_of_singleton.
  - intros k ->.
    assert (View.inbox (observe s') run = View.inbox v run) as Heq; [|unfold rows_in; by rewrite Heq].
    inversion Hc as [| |? ? ? Hsame|? ? ? Hsame|? ? ? ? ? ? Hsame|? ? ? Hsame];
      subst; try done; by destruct (proj1 Hsame run) as (_ & _ & ?).
Qed.

Lemma count_poison_false epoch key h : (count_poison row epoch key h).2 = false.
Proof using Type. unfold count_poison. by repeat case_match. Qed.

Lemma commit_attempts_consumes retries epoch state key events next h h' :
  valid (others:=others) (h_store h) →
  commit_attempts retries row epoch state key events next h = (h', true) →
  wanes (h_store h) (h_store h') ∧ key ∉ Event.key <$> rows_in (h_store h').
Proof.
  revert h; induction retries as [|retries IH]; intros h Hv H; cbn [commit_attempts] in H; cbv zeta in H;
    (destruct (call (fold_cas _ _ _ _) h) as [h1 cas] eqn:E1;
     apply (call_wanes _ _ _ _ (fold_cas_waning _ _ _)) in E1 as Hw1; [|done];
     destruct cas as [cas|]; [|done]);
    (destruct (call (append _ _ _ _ _ _) h1) as [h2 r] eqn:E2; apply call_eq in E2 as [Hop _];
     apply append_consumes in Hop as (Hv2 & Hdone & Hcas); [|apply Hw1]);
    (destruct r as [appended|error];
     [simplify_eq; destruct (Hdone _ eq_refl) as [Hs Hn]; split; [|done];
      eapply wanes_trans; [exact Hw1|done]|]).
  - destruct error; try done. assert (Hf := count_poison_false epoch key h2). by rewrite H in Hf.
  - destruct error; try done. apply IH in H as [Hw3 Hn]; [|done]. split; [|done].
    eapply wanes_trans; [exact Hw1|]. eapply wanes_trans; [|exact Hw3]. split; [done|].
    by eapply Hcas.
Qed.

Lemma step_input_consumes epoch h h' :
  valid (others:=others) (h_store h) → step_input row epoch h = (h', true) →
  wanes (h_store h) (h_store h') ∧
  (length (rows_in (h_store h')) < length (rows_in (h_store h)))%nat.
Proof.
  intros Hv H. unfold step_input in H. cbv zeta in H.
  destruct (call (next_input run) h) as [h1 r] eqn:E1.
  apply next_input_wanes in E1 as [Hw1 Hin]; [|done].
  assert (∀ key h2, (count_poison row epoch key h2) ≠ (h', true)) as Hnp.
  { intros key h2 Hc. assert (Hf := count_poison_false epoch key h2). by rewrite Hc in Hf. }
  destruct r as [[input|]|error]; [|done|].
  2:{ destruct error as [| | | | | | | | | |key [seq|]]; try done. by apply Hnp in H. }
  destruct (is_decision _); [by apply Hnp in H|].
  destruct (loaded_state row h1) as [h2 state] eqn:E2.
  apply loaded_state_wanes in E2 as Hw2; [|apply Hw1]. destruct state as [state|]; [|done].
  destruct (reduce state input) as [[events next]|]; [|by apply Hnp in H].
  apply commit_attempts_consumes in H as [Hw3 Hn]; [|apply Hw2].
  assert (wanes (h_store h1) (h_store h')) as Hw13 by by eapply wanes_trans.
  split; [by eapply wanes_trans|].
  assert (length (rows_in (h_store h')) < length (rows_in (h_store h1)))%nat as Hlt.
  { eapply (sublist_without Event.key); [apply Hw13|by apply Hin|done]. }
  destruct Hw1 as [_ Hl%sublist_length]. lia.
Qed.

(** Above the length of the inbox, more turns make no difference. *)
Lemma fold_run_bounded epoch n turn_owed h :
  valid (others:=others) (h_store h) → (length (rows_in (h_store h)) < n)%nat →
  ∃ h', ∀ turns, (n <= turns)%nat → fold_run turns row epoch turn_owed h = (h', true).
Proof.
  revert turn_owed h; induction n as [|n IH]; intros turn_owed h Hv Hn; [lia|].
  destruct (may_work turn_owed h) as [h1 work] eqn:E1. apply may_work_store in E1 as Hs1.
  assert (∀ h', (∀ m, (if work then
      (let '(h0, state) := loaded_state row h1 in
       match state with
       | Some _ => let '(h2, more) := step_input row epoch h0 in
           if more : bool then fold_run m row epoch false h2 else (h2, true)
       | None => (h0, true)
       end) else (h1, true)) = (h', true)) →
      ∃ h', ∀ turns, (Datatypes.S n <= turns)%nat → fold_run turns row epoch turn_owed h = (h', true)) as Hdone.
  { intros h' Hm. exists h'. intros [|turns] Hle; [lia|]. cbn [fold_run]. rewrite E1.
    specialize (Hm turns). by destruct work. }
  destruct work; [|by apply (Hdone h1)].
  destruct (loaded_state row h1) as [h2 state] eqn:E2.
  apply loaded_state_wanes in E2 as Hw2; [|by rewrite Hs1]. destruct Hw2 as [Hv2 Hw2]. rewrite Hs1 in Hw2.
  destruct state as [state|]; [|by apply (Hdone h2)].
  destruct (step_input row epoch h2) as [h3 more] eqn:E3.
  destruct more; [|by apply (Hdone h3)].
  apply step_input_consumes in E3 as Hc; [|done]. destruct Hc as [[Hv3 _] Hlt].
  apply sublist_length in Hw2. destruct (IH false h3 Hv3) as [h' Hh']; [lia|].
  exists h'. intros [|turns] Hle; [lia|]. cbn [fold_run]. rewrite E1. cbn [negb]. rewrite E2, E3.
  apply Hh'. lia.
Qed.
End ends.

(** C14: the fold of an inbox ends. Whatever the store answers and however often SQLite fails, while other
    processes only consume rows of the run's inbox, the loop of [fold_run] ends by itself after at most one
    turn more than there are rows, and any larger bound on its turns gives the same host. *)
Theorem fold_run_ends {serde : Serde} {laws : SerdeLaws serde} {ulid : Ulid} {O : Type} {outside : Outside O}
    row epoch turn_owed (h : @Host SqliteRunStore O) :
  store_ok (host_tables h) → Forall (honest (only_consumes (RunRow.run row))) (conn_script (h_store h)) →
  ∃ h', ∀ turns, (length (inbox_of (host_tables h) (RunRow.run row)) < turns)%nat →
    fold_run turns row epoch turn_owed h = (h', true).
Proof.
  intros Hok Hs.
  destruct (fold_run_bounded row epoch (S (length (inbox_of (host_tables h) (RunRow.run row)))) turn_owed h)
    as [h' Hh']; [by split|apply Nat.lt_succ_diag_r|].
  exists h'. intros turns Hlt. apply Hh'. lia.
Qed.

Definition faulty_script : list Interlude :=
  [MkInterlude (λ _, []) None; MkInterlude (λ _, []) None; MkInterlude (λ _, []) None;
   MkInterlude (λ _, []) None; MkInterlude (λ _, []) None; MkInterlude (λ _, []) None;
   MkInterlude (λ _, []) (Some Fault.Locked)].

Lemma fold_run_ends_witness :
  length (inbox_of (host_tables (sample_host faulty_script)) sample_run) = 1%nat ∧
  TickReport.folded (h_report (fold_run 2 sample_row 1 false (sample_host faulty_script)).1) = 1 ∧
  ∃ h', ∀ turns,
    (length (inbox_of (host_tables (sample_host faulty_script)) (RunRow.run sample_row)) < turns)%nat →
    fold_run turns sample_row 1 false (sample_host faulty_script) = (h', true).
Proof.
  split; [vm_compute; reflexivity|]. split; [vm_compute; reflexivity|].
  apply (fold_run_ends sample_row 1 false (sample_host faulty_script)).
  - apply sample_tables_ok.
  - unfold faulty_script. repeat apply Forall_cons_2; [..|apply Forall_nil_2]; apply honest_nothing; tc_solve.
Defined.
