(* ===== verification/Turns.v ===== *)
(** * Every run gets its turn

    [each_run] gives the runs of a host their turns in one part of a tick, as far as the budget goes, and
    the next tick goes on where this one stopped. However little the budget is, as many ticks as there are
    runs give every run a turn at every part. *)

From S2P Require Import Prelude Text Utf8 Ids Codes Events Flow State Effects Guard Decide Host Examples Ports Contract Sqlite StoreSpec SqliteFacts Runner Execute Tick StoreFacts Around Logs HostTicks HostFacts.
From stdpp Require Import options.

Section turns.
Local Unset Default Proof Using.
Context {serde : Serde} {host_serde : HostSerde} {ulid : Ulid} {S O : Type} {store : RunStore S}.
Context {inherent : InherentStore S} {outside : Outside O}.
Local Abbreviation Host := (@Runner.Host S O).
Implicit Types h : Host.

(** ** Who is served

    The loop of [each_run] as a relation: the indices of the runs that had a turn, in order. *)
Inductive visits (part : Part) (owned : list (RunRow * Epoch))
    (step : RunRow → Epoch → bool → Host → Host) (start : nat) :
    list nat → Host → list nat → Host → Prop :=
| visits_end h : visits part owned step start [] h [] h
| visits_stop offset offsets h h1 :
    may_work (offset =? 0)%nat h = (h1, false) →
    visits part owned step start (offset :: offsets) h []
      (h1 <| h_next_turn := λ p,
         if bool_decide (p = part) then Nat.modulo (start + offset) (length owned) else h_next_turn h1 p |>)
| visits_turn offset offsets h h1 row epoch served h2 :
    may_work (offset =? 0)%nat h = (h1, true) →
    owned !! Nat.modulo (start + offset) (length owned) = Some (row, epoch) →
    visits part owned step start offsets (step row epoch (offset =? 0)%nat h1) served h2 →
    visits part owned step start (offset :: offsets) h
      (Nat.modulo (start + offset) (length owned) :: served) h2.

Section loop.
Context (part : Part) (owned : list (RunRow * Epoch)) (step : RunRow → Epoch → bool → Host → Host).
Local Abbreviation n := (length owned).

Lemma each_run_from_visits start offsets h :
  owned ≠ [] →
  ∃ served, visits part owned step start offsets h served (each_run_from part owned start offsets step h).
Proof.
  intros Hn. revert h; induction offsets as [|offset offsets IH]; intros h; cbn [each_run_from].
  { eexists. constructor. }
  destruct (may_work (offset =? 0)%nat h) as [h1 work] eqn:E. destruct work; cbn [negb].
  - destruct (owned !! Nat.modulo (start + offset) n) as [[row epoch]|] eqn:El.
    + destruct (IH (step row epoch (offset =? 0)%nat h1)) as [served Hv]. eexists.
      by eapply visits_turn.
    + exfalso. apply lookup_ge_None in El. assert (length owned ≠ 0%nat) by by destruct owned.
      assert (Nat.modulo (start + offset) n < n)%nat by by apply Nat.mod_upper_bound. lia.
  - eexists. by apply visits_stop.
Qed.

(** The runs served follow each other, and a part that stopped goes on with the next. *)
Lemma visits_run start offset m h served h' :
  visits part owned step start (seq offset m) h served h' →
  served = (λ j, Nat.modulo (start + j) n) <$> seq offset (length served) ∧
  (length served <= m)%nat ∧
  ((length served < m)%nat → h_next_turn h' part = Nat.modulo (start + offset + length served) n).
Proof.
  revert offset h served; induction m as [|m IH]; intros offset h served H; simpl in H.
  { inversion H; subst. simpl. split_and!; [done|lia|lia]. }
  inversion H as [|? ? ? h1 Hw|? ? ? h1 row epoch served' ? Hw Hl Hv]; subst.
  - simpl. split_and!; [done|lia|]. intros _. rewrite bool_decide_eq_true_2 by done. f_equal. lia.
  - apply IH in Hv as (Hs & Hle & Hnext). cbn [length]. split_and!; [|lia|].
    + cbn [seq fmap list_fmap]. f_equal. exact Hs.
    + intros Hlt. rewrite Hnext by lia. f_equal. lia.
Qed.

(** The first run of a part has its turn, however little is left of the budget. *)
Lemma may_work_owed h : TickReport.busy (h_report h) = false → (may_work true h).2 = true.
Proof.
  unfold may_work. intros ->. destruct (ask budget_gone h) as [h1 gone]. by destruct gone.
Qed.

Definition start_of h : nat := Nat.modulo (h_next_turn h part) n.

Lemma each_run_visits h :
  owned ≠ [] → TickReport.busy (h_report h) = false →
  ∃ k, (1 <= k <= n)%nat ∧
    visits part owned step (start_of h) (seq 0 n) h
      ((λ j, Nat.modulo (start_of h + j) n) <$> seq 0 k) (each_run part owned step h) ∧
    ((k < n)%nat →
     Nat.modulo (h_next_turn (each_run part owned step h) part) n = Nat.modulo (start_of h + k) n).
Proof.
  intros Hn Hb. assert (each_run part owned step h =
    each_run_from part owned (start_of h) (seq 0 n) step h) as ->.
  { unfold each_run, start_of. by destruct owned. }
  destruct (each_run_from_visits (start_of h) (seq 0 n) h Hn) as [served Hv].
  destruct (visits_run _ _ _ _ _ _ Hv) as (Hs & Hle & Hnext). exists (length served).
  split_and!.
  - destruct served; [|simpl; lia]. destruct owned as [|x l] eqn:E; [done|]. exfalso.
    inversion Hv as [|? ? ? h1 Hw|]; subst. assert (Hm := may_work_owed h Hb).
    simpl in Hw. by rewrite Hw in Hm.
  - lia.
  - by rewrite <-Hs.
  - intros Hlt. rewrite Hnext by done. rewrite Nat.Div0.mod_mod. f_equal. lia.
Qed.
End loop.

(** ** The steps of the parts *)
Definition part_step (fuel : nat) (at_ : Timestamp) (part : Part) :
    RunRow → Epoch → bool → Host → Host :=
  match part with
  | Part.Drain => λ row epoch turn_owed, drain_run row epoch at_ turn_owed
  | Part.Fold => λ row epoch turn_owed h, (fold_run fuel row epoch turn_owed h).1
  | Part.Execute => λ row epoch turn_owed h,
      execute_run row epoch at_ turn_owed (withdraw_exit row epoch at_ h)
  end.

(** The host as a tick brings it to a part. *)
Definition part_entry (fuel : nat) (owned : list (RunRow * Epoch)) (at_ : Timestamp) (part : Part) h :
    Host :=
  let run_part p := each_run p owned (part_step fuel at_ p) in
  let before_fold h := fire_due_timers owned at_ (poll_tree fuel owned at_ (run_part Part.Drain h)) in
  match part with
  | Part.Drain => h
  | Part.Fold => before_fold h
  | Part.Execute => run_part Part.Fold (before_fold h)
  end.

(** Nothing but the part itself moves its place in the rotation. *)
Global Instance next_turn_part : Part_of (S:=S) (O:=O) h_next_turn.
Proof. by split. Qed.

Definition same_turn : HostCalls (S:=S) (O:=O).
Proof.
  refine (aside h_next_turn (λ _, True) (λ x y, y = x) _ _ _ _); try congruence; try done.
  intros A op h _ _. unfold ask. by destruct (op (h_outside h)).
Defined.

Local Existing Instance same_turn.

Lemma same_turn_ask {A} (op : O → O * A) : kept_op (ask op).
Proof. intros h _. simpl. unfold ask. by destruct (op (h_outside h)). Qed.

Global Instance same_turn_acts : HostActs same_turn.
Proof.
  apply aside_acts.
  - intros. apply kept_find_or_post_any; [|done]. intros. apply same_turn_ask.
  - intros. apply kept_stop_any. intros. apply same_turn_ask.
Qed.

Lemma kept_turn (f : Host → Host) h : kept f → h_next_turn (f h) = h_next_turn h.
Proof. intros H. by apply (H h). Qed.

Lemma kept_op_turn {A} (m : Host → Host * A) h : kept_op m → h_next_turn (m h).1 = h_next_turn h.
Proof. intros H. by apply (H h). Qed.

Lemma part_step_turn fuel at_ part row epoch turn_owed : kept (part_step fuel at_ part row epoch turn_owed).
Proof. destruct part; simpl; [apply kept_drain_run|apply kept_fold_step|apply kept_execute_step]. Qed.

Lemma each_run_other part other owned step h :
  (∀ row epoch turn_owed, kept (step row epoch turn_owed)) → part ≠ other →
  h_next_turn (each_run other owned step h) part = h_next_turn h part.
Proof.
  intros Hstep Hne. unfold each_run. destruct owned as [|x l] eqn:E; [done|]. rewrite <-E. clear x l E.
  generalize (seq 0 (length owned)). generalize (Nat.modulo (h_next_turn h other) (length owned)).
  intros start offsets. revert h; induction offsets as [|offset offsets IH]; intros h;
    cbn [each_run_from]; [done|].
  assert (h_next_turn (may_work (offset =? 0)%nat h).1 = h_next_turn h) as Hw
    by apply kept_op_turn, kept_may_work.
  destruct (may_work (offset =? 0)%nat h) as [h1 work]. simpl in Hw. destruct work; cbn [negb].
  - destruct (owned !! _) as [[row epoch]|]; [|by rewrite Hw]. rewrite IH.
    rewrite (kept_turn (step row epoch (offset =? 0)%nat) h1 (Hstep _ _ _)). by rewrite Hw.
  - simpl. rewrite bool_decide_eq_false_2 by done. by rewrite Hw.
Qed.

Lemma part_entry_turn fuel owned at_ part h :
  h_next_turn (part_entry fuel owned at_ part h) part = h_next_turn h part.
Proof.
  assert (∀ p q h, p ≠ q → h_next_turn (each_run q owned (part_step fuel at_ q) h) p = h_next_turn h p)
    as Hother by (intros; apply each_run_other; [intros; apply part_step_turn|done]).
  assert (∀ h, h_next_turn (fire_due_timers owned at_ (poll_tree fuel owned at_ h)) = h_next_turn h) as Hmid.
  { intros h1. rewrite (kept_turn _ _ (kept_fire_due_timers _ _)). apply kept_turn, kept_poll_tree. }
  destruct part; simpl; [done|..]; rewrite ?Hother, Hmid, Hother; done.
Qed.

(** After the tick a part stands where its loop left it. *)
Lemma tick_parts_turn fuel owned at_ part h :
  h_next_turn (tick_parts fuel owned at_ h) part =
  h_next_turn (each_run part owned (part_step fuel at_ part) (part_entry fuel owned at_ part h)) part.
Proof.
  assert (tick_parts fuel owned at_ h = take_claims owned at_
    (each_run Part.Execute owned (part_step fuel at_ Part.Execute)
       (part_entry fuel owned at_ Part.Execute h))) as -> by done.
  unfold take_claims. rewrite (kept_turn _ _ (kept_take_claims _ _ _ _)).
  assert (∀ p q h, p ≠ q → h_next_turn (each_run q owned (part_step fuel at_ q) h) p = h_next_turn h p)
    as Hother by (intros; apply each_run_other; [intros; apply part_step_turn|done]).
  destruct part; [| |done]; rewrite Hother by done.
  - simpl. rewrite Hother by done. rewrite (kept_turn _ _ (kept_fire_due_timers _ _)).
    by rewrite (kept_turn _ _ (kept_poll_tree _ _ _)).
  - done.
Qed.

(** ** Ticks one after another *)

(** A tick over the runs a host owns: the instant it works at, and the host as its leases left it. *)
Definition Ticked : Type := Timestamp * Host.

(** Consecutive ticks over the same runs: whatever happened between two of them, the rotation is where the
    last left it. *)
Inductive in_rotation (fuel : nat) (owned : list (RunRow * Epoch)) : list Ticked → Prop :=
| rotation_nil : in_rotation fuel owned []
| rotation_last tick : in_rotation fuel owned [tick]
| rotation_next at_ h at_' h' ticks :
    h_next_turn h' = h_next_turn (tick_parts fuel owned at_ h) →
    in_rotation fuel owned ((at_', h') :: ticks) → in_rotation fuel owned ((at_, h) :: (at_', h') :: ticks).

(** No part of the tick begins with the store busy. *)
Definition part_free (fuel : nat) (owned : list (RunRow * Epoch)) (part : Part) (tick : Ticked) : Prop :=
  TickReport.busy (h_report (part_entry fuel owned tick.1 part tick.2)) = false.

(** The run at an index has a turn at a part of a tick. *)
Definition has_turn (fuel : nat) (owned : list (RunRow * Epoch)) (part : Part) (index : nat)
    (tick : Ticked) : Prop :=
  let entry := part_entry fuel owned tick.1 part tick.2 in
  ∃ served, index ∈ served ∧
    visits part owned (part_step fuel tick.1 part) (start_of part owned entry)
      (seq 0 (length owned)) entry served (each_run part owned (part_step fuel tick.1 part) entry).

(** A tick serves a run of indices from where the rotation stands, and leaves the rotation behind it. *)
Lemma tick_serves fuel owned part at_ h :
  owned ≠ [] → part_free fuel owned part (at_, h) →
  ∃ k, (1 <= k <= length owned)%nat ∧
    (∀ j, (j < k)%nat → has_turn fuel owned part
       (Nat.modulo (h_next_turn h part + j) (length owned)) (at_, h)) ∧
    ((k < length owned)%nat →
     Nat.modulo (h_next_turn (tick_parts fuel owned at_ h) part) (length owned) =
     Nat.modulo (h_next_turn h part + k) (length owned)).
Proof.
  intros Hn Hb. destruct (each_run_visits part owned (part_step fuel at_ part)
    (part_entry fuel owned at_ part h) Hn Hb) as (k & Hk & Hv & Hstop).
  unfold start_of in Hv, Hstop. rewrite part_entry_turn in Hv, Hstop. exists k. split_and!; [lia|lia|..].
  - intros j Hj. eexists. split; [|unfold start_of; simpl; rewrite part_entry_turn; exact Hv].
    apply list_elem_of_fmap. exists j. split; [by rewrite Nat.Div0.add_mod_idemp_l|]. apply elem_of_seq. lia.
  - intros Hlt. rewrite tick_parts_turn, Hstop by done. by rewrite Nat.Div0.add_mod_idemp_l.
Qed.

Lemma rotation_turn fuel owned part ticks d :
  owned ≠ [] → in_rotation fuel owned ticks → Forall (part_free fuel owned part) ticks →
  (d < length ticks)%nat → (d < length owned)%nat →
  ∀ at_ h rest, ticks = (at_, h) :: rest →
  Exists (has_turn fuel owned part (Nat.modulo (h_next_turn h part + d) (length owned))) ticks.
Proof.
  intros Hn Hrot. revert d. induction Hrot as [|[at_ h]|at_ h at_' h' ticks Hnext Hrot IH];
    intros d Hb Hd Hdn at0 h0 rest Heq; [done|..]; injection Heq as <- <- <-;
    apply Forall_cons in Hb as [Hbh Hb]; destruct (tick_serves _ _ _ _ _ Hn Hbh) as (k & Hk & Hserved & Hstop).
  - apply Exists_cons_hd, Hserved. simpl in Hd. lia.
  - destruct (base.decide (d < k)%nat) as [Hlt|Hge]; [by apply Exists_cons_hd, Hserved|].
    apply Exists_cons_tl.
    specialize (IH (d - k)%nat Hb ltac:(simpl in *; lia) ltac:(lia) at_' h' ticks eq_refl).
    assert (Nat.modulo (h_next_turn h' part + (d - k)) (length owned) =
            Nat.modulo (h_next_turn h part + d) (length owned)) as <-; [|exact IH].
    rewrite Hnext, <-Nat.Div0.add_mod_idemp_l, Hstop by lia.
    rewrite Nat.Div0.add_mod_idemp_l. f_equal. lia.
Qed.

(** C15: no run starves. Over as many consecutive ticks as a host owns runs, however early the budget of each
    tick is gone, every run has a turn at every part (draining its sessions, folding its inbox, executing
    what it owes), as long as no part begins with the store busy: a part serves at least the run it owes a
    turn, and the next tick goes on with the first run that had none. *)
Theorem every_run_gets_a_turn fuel owned part ticks index :
  in_rotation fuel owned ticks → Forall (part_free fuel owned part) ticks →
  (length owned <= length ticks)%nat → (index < length owned)%nat →
  Exists (has_turn fuel owned part index) ticks.
Proof.
  intros Hrot Hb Hlen Hi. destruct ticks as [|[at_ h] rest] eqn:E; [simpl in *; lia|]. rewrite <-E in *.
  assert (owned ≠ []) as Hn by (by intros ->; simpl in Hi; lia).
  set (n := length owned) in *. set (s := Nat.modulo (h_next_turn h part) n).
  assert (s < n)%nat by (apply Nat.mod_upper_bound; lia).
  set (d := Nat.modulo (index + (n - s)) n). assert (d < n)%nat by (apply Nat.mod_upper_bound; lia).
  assert (index = Nat.modulo (h_next_turn h part + d) n) as Hd.
  { rewrite <-Nat.Div0.add_mod_idemp_l. fold s. unfold d. rewrite Nat.Div0.add_mod_idemp_r.
    replace (s + (index + (n - s)))%nat with (index + 1 * n)%nat by lia.
    rewrite Nat.Div0.mod_add. by rewrite Nat.mod_small. }
  rewrite Hd. apply (rotation_turn fuel owned part ticks d Hn Hrot Hb ltac:(lia) ltac:(done) at_ h rest E).
Qed.
End turns.

(** Two runs and a budget that is always gone: each tick serves one. *)
Definition other_row : RunRow := RunRow.Mk "01ARZ3NDEKTSV4RRFFQ69G5FAW" "ws" "local" false 0 0 1000.

Definition late_host : @Host SqliteRunStore Around :=
  (sample_host []) <| h_outside := MkAround 3000 (replicate 40 true) 0 [] [] [] [] ∅ [] |>.

Definition two_runs : list (RunRow * Epoch) := [(sample_row, 1); (other_row, 1)].

Lemma every_run_gets_a_turn_witness :
  h_next_turn (tick_parts 5 two_runs 3000 late_host) Part.Fold = 1%nat ∧
  Exists (has_turn 5 two_runs Part.Fold 1) [(3000%Z, late_host); (4000%Z, tick_parts 5 two_runs 3000 late_host)].
Proof.
  split; [vm_compute; reflexivity|]. apply every_run_gets_a_turn.
  - repeat constructor.
  - repeat constructor; vm_compute; reflexivity.
  - simpl. lia.
  - simpl. lia.
Defined.
