(* ===== verification/OpModel.v ===== *)
(** * Operations

    [foundation/src/model.rs], [signing.rs] and [reducer.rs]: the operation every tool's history is made of,
    the bounds on its number, the bytes it is signed over, who may be its author, where it comes from, and
    which reducer folds it. Ed25519 and base64 are the class [Ed25519]. *)

From S2P Require Import Prelude Text Utf8.
From stdpp Require Import options.
From Stdlib Require Import Ascii.

Definition MAX_LAMPORT : Z := Z.shiftl 1 62.
Definition CLOCK_CEILING : Z := Z.shiftl 1 61.
Definition CANONICAL_FORM : string := "nxs-op/2".

Module Op.
Record Op := Mk {
  op_id : string;
  lamport : Z;
  site : Z;
  domain : string;
  target_kind : string;
  target_id : string;
  field : string;
  op_type : string;
  value : option string;
  author : string;
  wall_clock : string;
  key_id : option string;
  sig : option string;
}.
End Op.
Abbreviation Op := Op.Op (only parsing).

Global Instance op_eq_dec : EqDecision Op.
Proof. solve_decision. Defined.

(** The fields of an operation are within [i64]. *)
Definition op_in_range (op : Op) : Prop :=
  (i64_min <= Op.lamport op <= i64_max)%Z ∧ (i64_min <= Op.site op <= i64_max)%Z.

Definition owns_target (prefix : string) (op : Op) : bool :=
  from_option (λ rest, bool_decide (rest = Op.op_id op)) false (strip_prefix prefix (Op.target_id op)).

Definition lamport_in_bound (op : Op) : bool := (Op.lamport op <=? MAX_LAMPORT)%Z.

(** ** The bytes a signature covers *)

(** [u64::to_be_bytes] and [i64::to_be_bytes]. *)
Fixpoint be_bytes (n : nat) (x : N) : string :=
  match n with
  | O => EmptyString
  | Datatypes.S n => be_bytes n (x / 256) +:+ String (ascii_of_N (x mod 256)) EmptyString
  end.
Definition u64_be (x : N) : string := be_bytes 8 (u64_wrap x).
Definition i64_be (x : Z) : string := be_bytes 8 (Z.to_N (x mod 2 ^ 64)).

Definition canonical_field (bytes : string) : string := u64_be (byte_len bytes) +:+ bytes.

Definition canonical_value (value : option string) : string :=
  match value with
  | None => String "000"%char EmptyString
  | Some v => String "001"%char (canonical_field v)
  end.

Definition canonical_bytes (op : Op) : string :=
  CANONICAL_FORM +:+
  canonical_field (Op.op_id op) +:+
  canonical_field (i64_be (Op.lamport op)) +:+
  canonical_field (i64_be (Op.site op)) +:+
  canonical_field (Op.domain op) +:+
  canonical_field (Op.target_kind op) +:+
  canonical_field (Op.target_id op) +:+
  canonical_field (Op.field op) +:+
  canonical_field (Op.op_type op) +:+
  canonical_value (Op.value op) +:+
  canonical_field (Op.author op) +:+
  canonical_field (Op.wall_clock op).

(** ** Authors *)

(** The code point a text starts with, and the rest; texts are UTF-8. *)
Definition bits (c : ascii) (keep : N) : N := N.land (N_of_ascii c) keep.
Definition next_char (s : string) : option (N * string) :=
  match s with
  | EmptyString => None
  | String a s1 =>
      if in_range 0 127 a then Some (N_of_ascii a, s1) else
      match s1 with
      | EmptyString => None
      | String b s2 =>
          if in_range 194 223 a then Some (bits a 31 * 64 + bits b 63, s2) else
          match s2 with
          | EmptyString => None
          | String c s3 =>
              if in_range 224 239 a then Some ((bits a 15 * 64 + bits b 63) * 64 + bits c 63, s3) else
              match s3 with
              | EmptyString => None
              | String d s4 =>
                  Some (((bits a 7 * 64 + bits b 63) * 64 + bits c 63) * 64 + bits d 63, s4)
              end
          end
      end
  end.

Definition between (low high c : N) : bool := (low <=? c) && (c <=? high).

(** [char::is_whitespace] and [char::is_control]. *)
Definition is_whitespace (c : N) : bool :=
  between 9 13 c || (c =? 32) || (c =? 133) || (c =? 160) || (c =? 5760) || between 8192 8202 c ||
  (c =? 8232) || (c =? 8233) || (c =? 8239) || (c =? 8287) || (c =? 12288).
Definition is_control (c : N) : bool := between 0 31 c || between 127 159 c.

Definition is_invisible (c : N) : bool :=
  is_whitespace c || is_control c ||
  (c =? 173) || (c =? 1564) || (c =? 6158) || between 8203 8207 c || between 8234 8238 c ||
  between 8288 8292 c || between 8294 8297 c || (c =? 65279).

(** [author.chars().any(|c| !is_invisible(c))]; every step takes a byte or more. *)
Fixpoint visible_within (fuel : nat) (s : string) : bool :=
  match fuel with
  | O => false
  | Datatypes.S fuel =>
      match next_char s with
      | None => false
      | Some (c, rest) => negb (is_invisible c) || visible_within fuel rest
      end
  end.
Definition is_attributable (author : string) : bool := visible_within (String.length author) author.

Definition present (candidate : option string) : option string :=
  match candidate with
  | Some s => if is_empty (trim s) then None else Some s
  | None => None
  end.

Definition resolve_author (primary fallback : option string) (default : string) : string :=
  match present primary with
  | Some s => s
  | None => match present fallback with Some s => s | None => default end
  end.

(** The refusal of [validate_author] has one kind. *)
Definition validate_author (actor : string) : result unit string :=
  let trimmed := trim actor in
  if is_attributable trimmed then Ok trimmed else Err tt.

(** ** Signatures *)

(** A replica's key signs bytes, and anyone checks a signature under a key id. *)
Class Ed25519 := {
  Key : Type;
  key_id_of : Key → string;
  sign : Key → string → string;
  verify : string → string → string → bool;
}.

Definition seal {ed : Ed25519} (key : Key) (op : Op) : Op :=
  Op.Mk (Op.op_id op) (Op.lamport op) (Op.site op) (Op.domain op) (Op.target_kind op) (Op.target_id op)
    (Op.field op) (Op.op_type op) (Op.value op) (Op.author op) (Op.wall_clock op)
    (Some (key_id_of key)) (Some (sign key (canonical_bytes op))).

Module Provenance.
Inductive Provenance := Own | Verified | Invalid | Unsigned.
End Provenance.
Abbreviation Provenance := Provenance.Provenance (only parsing).

Global Instance provenance_eq_dec : EqDecision Provenance.
Proof. solve_decision. Defined.

Definition Provenance_as_str (p : Provenance) : string :=
  match p with
  | Provenance.Own => "own"
  | Provenance.Verified => "verified"
  | Provenance.Invalid => "invalid"
  | Provenance.Unsigned => "unsigned"
  end.

Definition Provenance_parse (s : string) : option Provenance :=
  if bool_decide (s = "own") then Some Provenance.Own
  else if bool_decide (s = "verified") then Some Provenance.Verified
  else if bool_decide (s = "invalid") then Some Provenance.Invalid
  else if bool_decide (s = "unsigned") then Some Provenance.Unsigned
  else None.

Definition of_received {ed : Ed25519} (op : Op) : Provenance :=
  match Op.key_id op, Op.sig op with
  | None, None => Provenance.Unsigned
  | Some key_id, Some sig =>
      if verify key_id sig (canonical_bytes op) then Provenance.Verified else Provenance.Invalid
  | _, _ => Provenance.Invalid
  end.
