(* ===== verification/Changes.v ===== *)
(** * Described changes

    [foundation/src/change.rs] and [reducer.rs]: what folding an operation does to the views, as data, and
    the SQLite applier that carries it out. The views are tables keyed by their primary key. The applier's
    statements are given the meaning SQL gives them: a column that is not named takes its default,
    [INSERT OR IGNORE] leaves a row that is there, and [ON CONFLICT ... DO UPDATE SET ... WHERE] writes the
    named columns when the condition holds. *)

From S2P Require Import Prelude Text Utf8 OpModel.
From stdpp Require Import options.
From Stdlib Require Import Ascii.

Module Cell.
Inductive Cell := Null | Text (v : string) | Int (v : Z).
End Cell.
Abbreviation Cell := Cell.Cell (only parsing).

Global Instance cell_eq_dec : EqDecision Cell.
Proof. solve_decision. Defined.
Global Instance cell_countable : Countable Cell.
Proof.
  refine (inj_countable'
    (λ c, match c with
          | Cell.Null => inl tt
          | Cell.Text v => inr (inl v)
          | Cell.Int v => inr (inr v)
          end)
    (λ s, match s with
          | inl _ => Cell.Null
          | inr (inl v) => Cell.Text v
          | inr (inr v) => Cell.Int v
          end) _).
  by intros [].
Defined.

(** [impl From<Option<T>> for Cell]. *)
Definition text_or_null (v : option string) : Cell := from_option Cell.Text Cell.Null v.

Abbreviation Cells := (list (string * Cell)) (only parsing).

Module Wins.
Inductive Wins := Higher | Lower.
End Wins.
Abbreviation Wins := Wins.Wins (only parsing).
Global Instance wins_eq_dec : EqDecision Wins.
Proof. solve_decision. Defined.

Module Effect.
Inductive Effect :=
| Ensure (cells : Cells)
| Put (cells : Cells)
| Register (cells : Cells) (version : list (string * Z)) (wins : Wins).
End Effect.
Abbreviation Effect := Effect.Effect (only parsing).

Module Change.
Record Change := Mk { table : string; key : Cells; effect : Effect }.
End Change.
Abbreviation Change := Change.Change (only parsing).

Module Version.
Record Version := Mk { lamport : Z; site : Z }.
End Version.
Abbreviation Version := Version.Version (only parsing).

Definition ensure (table : string) (key cells : Cells) : Change := Change.Mk table key (Effect.Ensure cells).
Definition put (table : string) (key cells : Cells) : Change := Change.Mk table key (Effect.Put cells).
Definition register (table : string) (key cells : Cells) (columns : string * string) (version : Version)
    (wins : Wins) : Change :=
  Change.Mk table key (Effect.Register cells
    [(columns.1, Version.lamport version); (columns.2, Version.site version)] wins).
Definition register_ranked (table : string) (key cells : Cells) (rank : string * Z)
    (columns : string * string) (version : Version) (wins : Wins) : Change :=
  Change.Mk table key (Effect.Register cells
    [rank; (columns.1, Version.lamport version); (columns.2, Version.site version)] wins).

(** ** Tables *)

(** A column as [CREATE TABLE] declares it. *)
Module Affinity.
Inductive Affinity := TEXT | INTEGER.
End Affinity.
Abbreviation Affinity := Affinity.Affinity (only parsing).

Module Column.
Record Column := Mk { name : string; affinity : Affinity; not_null : bool; default : Cell }.
End Column.
Abbreviation Column := Column.Column (only parsing).

Module TableDef.
Record TableDef := Mk { primary_key : list string; columns : list Column }.
End TableDef.
Abbreviation TableDef := TableDef.TableDef (only parsing).

Abbreviation Schema := (gmap string TableDef) (only parsing).
Abbreviation Row := (gmap string Cell) (only parsing).
Abbreviation Table := (gmap (list Cell) (gmap string Cell)) (only parsing).
Abbreviation Views := (gmap string (gmap (list Cell) (gmap string Cell))) (only parsing).

(** What the applier may fail with. [Beyond] marks what SQLite does and this model does not follow: a text
    that is no integer in an INTEGER column, a number in a TEXT column, and a NULL in a primary key. *)
Module SqlError.
Inductive SqlError :=
| InvalidColumnName (name : string)
| NoSuchTable (name : string)
| NoSuchColumn (name : string)
| ConflictTarget
| NotNull (column : string)
| Beyond.
End SqlError.
Abbreviation SqlError := SqlError.SqlError (only parsing).

(** [str::parse::<i64>]. *)
Definition parse_i64 (s : string) : option Z :=
  let digits neg s :=
    if is_empty s then None
    else n ← parse_digits (Z.to_N i64_max + 1) 0 s;
         let z := if neg : bool then (- Z.of_N n)%Z else Z.of_N n in
         if ((i64_min <=? z) && (z <=? i64_max))%Z then Some z else None in
  match s with
  | String "-"%char s => digits true s
  | String "+"%char s => digits false s
  | s => digits false s
  end.

Definition find_column (def : TableDef) (name : string) : option Column :=
  find_first (λ column, bool_decide (Column.name column = name)) (TableDef.columns def).

(** The affinity of a column on the value stored in it. *)
Definition stored_as (affinity : Affinity) (value : Cell) : option Cell :=
  match affinity, value with
  | _, Cell.Null => Some Cell.Null
  | Affinity.TEXT, Cell.Text v => Some (Cell.Text v)
  | Affinity.INTEGER, Cell.Int v => Some (Cell.Int v)
  | Affinity.INTEGER, Cell.Text v => Cell.Int <$> parse_i64 v
  | Affinity.TEXT, Cell.Int _ => None
  end.

Definition coerce_cell (def : TableDef) (cell : string * Cell) : result SqlError (string * Cell) :=
  match find_column def cell.1 with
  | None => Err (SqlError.NoSuchColumn cell.1)
  | Some column =>
      match stored_as (Column.affinity column) cell.2 with
      | None => Err SqlError.Beyond
      | Some value => Ok (cell.1, value)
      end
  end.

Fixpoint coerce (def : TableDef) (cells : Cells) : result SqlError Cells :=
  match cells with
  | [] => Ok []
  | cell :: cells => cell <-? coerce_cell def cell ;; cells <-? coerce def cells ;; Ok (cell :: cells)
  end.

(** Assignments from left to right. *)
Definition set_cells (cells : Cells) (row : Row) : Row := foldl (λ row '(c, v), <[c := v]> row) row cells.

Definition default_row (def : TableDef) : Row :=
  set_cells ((λ column, (Column.name column, Column.default column)) <$> TableDef.columns def) ∅.

Definition new_row (def : TableDef) (cells : Cells) : Row := set_cells cells (default_row def).

(** The first NOT NULL column a row would leave empty. *)
Definition null_violation (def : TableDef) (row : Row) : option string :=
  Column.name <$> find_first (λ column, Column.not_null column &&
    bool_decide (default Cell.Null (row !! Column.name column) = Cell.Null)) (TableDef.columns def).

Definition row_key (def : TableDef) (row : Row) : list Cell :=
  (λ column, default Cell.Null (row !! column)) <$> TableDef.primary_key def.

(** ** Identifiers *)
Definition is_ascii_alphabetic (c : ascii) : bool := in_range 65 90 c || in_range 97 122 c.
Definition is_identifier_char (c : ascii) : bool :=
  is_ascii_alphabetic c || in_range 48 57 c || bool_decide (c = "_"%char).
Definition is_identifier (name : string) : bool :=
  match name with
  | EmptyString => false
  | String c rest => (is_ascii_alphabetic c || bool_decide (c = "_"%char)) && all_chars is_identifier_char rest
  end.

(** ** The applier *)
Definition effect_cells (effect : Effect) : Cells :=
  match effect with
  | Effect.Ensure cells | Effect.Put cells | Effect.Register cells _ _ => cells
  end.

Definition effect_version (effect : Effect) : list (string * Z) :=
  match effect with Effect.Register _ version _ => version | _ => [] end.

Definition version_cells (version : list (string * Z)) : Cells := prod_map id Cell.Int <$> version.

(** [t.v IS NULL OR ...]: a version nobody wrote. *)
Definition unwritten (version : list (string * Z)) (row : Row) : bool :=
  existsb (λ column, bool_decide (default Cell.Null (row !! column.1) = Cell.Null)) version.

(** The row value comparison [(excluded.v, ...) > (t.v, ...)], or [<]; a column that holds no integer decides
    nothing. *)
Fixpoint beats (wins : Wins) (version : list (string * Z)) (row : Row) : bool :=
  match version with
  | [] => false
  | (column, v) :: version =>
      match row !! column with
      | Some (Cell.Int w) =>
          if (v =? w)%Z then beats wins version row
          else match wins with Wins.Higher => (w <? v)%Z | Wins.Lower => (v <? w)%Z end
      | _ => false
      end
  end.

(** [INSERT OR IGNORE] has no conflict target, the other two have the key of the change. *)
Definition ignores (effect : Effect) : bool :=
  match effect with
  | Effect.Ensure _ | Effect.Put [] => true
  | _ => false
  end.

(** The row after the statement, from the row the new one conflicts with. *)
Definition write_row (def : TableDef) (key : Cells) (effect : Effect) (stored : option Row) : Row :=
  let cells := effect_cells effect in
  let version := effect_version effect in
  match stored with
  | None => new_row def (key ++ cells ++ version_cells version)
  | Some row =>
      match effect with
      | Effect.Ensure _ => row
      | Effect.Put cells => set_cells cells row
      | Effect.Register cells version wins =>
          if unwritten version row || beats wins version row
          then set_cells (cells ++ version_cells version) row else row
      end
  end.

(** The effect with the values the columns store. *)
Definition coerce_effect (def : TableDef) (effect : Effect) : result SqlError Effect :=
  cells <-? coerce def (effect_cells effect) ;;
  match effect with
  | Effect.Ensure _ => Ok (Effect.Ensure cells)
  | Effect.Put _ => Ok (Effect.Put cells)
  | Effect.Register _ version wins =>
      _ <-? coerce def (version_cells version) ;;
      Ok (Effect.Register cells version wins)
  end.

Definition first_bad_name (change : Change) : option string :=
  find_first (λ name, negb (is_identifier name))
    (Change.table change ::
     (Change.key change).*1 ++ (effect_cells (Change.effect change)).*1 ++
     (effect_version (Change.effect change)).*1).

Definition apply_one (schema : Schema) (change : Change) (views : Views) : result SqlError Views :=
  match first_bad_name change with
  | Some name => Err (SqlError.InvalidColumnName name)
  | None =>
      match schema !! Change.table change with
      | None => Err (SqlError.NoSuchTable (Change.table change))
      | Some def =>
          key <-? coerce def (Change.key change) ;;
          effect <-? coerce_effect def (Change.effect change) ;;
          if negb (ignores effect) &&
             negb (bool_decide (list_to_set key.*1 = (list_to_set (TableDef.primary_key def) : gset string)))
          then Err SqlError.ConflictTarget else
          let inserted := new_row def (key ++ effect_cells effect ++ version_cells (effect_version effect)) in
          match null_violation def inserted with
          | Some column => if ignores effect then Ok views else Err (SqlError.NotNull column)
          | None =>
              let id := row_key def inserted in
              if bool_decide (Cell.Null ∈ id) then Err SqlError.Beyond else
              let rows := default ∅ (views !! Change.table change) in
              Ok (<[Change.table change := <[id := write_row def key effect (rows !! id)]> rows]> views)
          end
      end
  end.

Fixpoint apply_sqlite (schema : Schema) (changes : list Change) (views : Views) : result SqlError Views :=
  match changes with
  | [] => Ok views
  | change :: changes => views <-? apply_one schema change views ;; apply_sqlite schema changes views
  end.

(** ** Reducers *)
Module Reducer.
Record Reducer := Mk {
  domain : string;
  is_foldable : Op → bool;
  changes : Op → list Change;
  fold_revision : Z;
  view_tables : list string;
}.
End Reducer.
Abbreviation Reducer := Reducer.Reducer (only parsing).

Definition clear_views (reducer : Reducer) (views : Views) : Views :=
  foldl (λ views table, <[table := ∅]> views) views (Reducer.view_tables reducer).

Definition folder_for (reducers : list Reducer) (op : Op) : option Reducer :=
  if negb (lamport_in_bound op) then None
  else match find_first (λ r, bool_decide (Reducer.domain r = Op.domain op)) reducers with
       | Some r => if Reducer.is_foldable r op then Some r else None
       | None => None
       end.
