(* ===== verification/Tasks.v ===== *)
(** * The task reducer

    [core/src/model.rs], the tables of [schema.rs] and [task_reducer.rs]: the vocabulary of the issue
    tracker, and how an operation of the [task] domain changes its views. Texts are UTF-8; both separators
    are single bytes in it, so splitting on them is splitting on bytes. *)

From S2P Require Import Prelude Text Utf8 OpModel Changes.
From stdpp Require Import options.
From Stdlib Require Import Ascii.

(** ** Vocabulary *)
Module TaskStatus.
Inductive Status := Open | InProgress | Closed.
End TaskStatus.
Definition Status_as_str (s : TaskStatus.Status) : string :=
  match s with
  | TaskStatus.Open => "open" | TaskStatus.InProgress => "in_progress" | TaskStatus.Closed => "closed"
  end.
Definition Status_parse (s : string) : option TaskStatus.Status :=
  if bool_decide (s = "open") then Some TaskStatus.Open
  else if bool_decide (s = "in_progress") then Some TaskStatus.InProgress
  else if bool_decide (s = "closed") then Some TaskStatus.Closed
  else None.

Module EdgeKind.
Inductive EdgeKind := Dep | ContributesTo | Mentions | Parent.
End EdgeKind.
Abbreviation EdgeKind := EdgeKind.EdgeKind (only parsing).
Global Instance edge_kind_eq_dec : EqDecision EdgeKind.
Proof. solve_decision. Defined.
Definition EdgeKind_as_str (k : EdgeKind) : string :=
  match k with
  | EdgeKind.Dep => "dep"
  | EdgeKind.ContributesTo => "contributes_to"
  | EdgeKind.Mentions => "mentions"
  | EdgeKind.Parent => "parent"
  end.
Definition EdgeKind_parse (s : string) : option EdgeKind :=
  if bool_decide (s = "dep") then Some EdgeKind.Dep
  else if bool_decide (s = "contributes_to") then Some EdgeKind.ContributesTo
  else if bool_decide (s = "mentions") then Some EdgeKind.Mentions
  else if bool_decide (s = "parent") then Some EdgeKind.Parent
  else None.

Module LinkRelation.
Inductive LinkRelation := WorkedOn | Cited.
End LinkRelation.
Abbreviation LinkRelation := LinkRelation.LinkRelation (only parsing).
Definition LinkRelation_as_str (r : LinkRelation) : string :=
  match r with LinkRelation.WorkedOn => "worked_on" | LinkRelation.Cited => "cited" end.
Definition LinkRelation_parse (s : string) : option LinkRelation :=
  if bool_decide (s = "worked_on") then Some LinkRelation.WorkedOn
  else if bool_decide (s = "cited") then Some LinkRelation.Cited
  else None.

Module LinkWeight.
Inductive LinkWeight := Bearing | Passing.
End LinkWeight.
Abbreviation LinkWeight := LinkWeight.LinkWeight (only parsing).
Definition LinkWeight_as_str (w : LinkWeight) : string :=
  match w with LinkWeight.Bearing => "bearing" | LinkWeight.Passing => "passing" end.
Definition LinkWeight_parse (s : string) : option LinkWeight :=
  if bool_decide (s = "bearing") then Some LinkWeight.Bearing
  else if bool_decide (s = "passing") then Some LinkWeight.Passing
  else None.

Module MergeStrategy.
Inductive MergeStrategy := Lww | CrdtText.
End MergeStrategy.
Abbreviation MergeStrategy := MergeStrategy.MergeStrategy (only parsing).
Definition MergeStrategy_as_str (m : MergeStrategy) : string :=
  match m with MergeStrategy.Lww => "lww" | MergeStrategy.CrdtText => "crdt-text" end.
Definition MergeStrategy_parse (s : string) : option MergeStrategy :=
  if bool_decide (s = "lww") then Some MergeStrategy.Lww
  else if bool_decide (s = "crdt-text") then Some MergeStrategy.CrdtText
  else None.
Definition item_set_op_type (m : MergeStrategy) : string :=
  match m with MergeStrategy.Lww => "set" | MergeStrategy.CrdtText => "set:crdt-text" end.
Definition from_item_set_op_type (op_type : string) : option MergeStrategy :=
  if bool_decide (op_type = "set") then Some MergeStrategy.Lww
  else strip_prefix "set:" op_type ≫= MergeStrategy_parse.

Definition DOMAIN_TASK : string := "task".
Definition MAX_CHUNK_BYTES : N := 300 * 1024.
Definition MAX_CHUNK_ID_BYTES : N := 128.
Definition MAX_SUPERSEDED : nat := 1024.
Definition MAX_FIELD_ENTRY_BYTES : N := 16 * 1024.
Definition MAX_ENTRY_TAGS : nat := 1024.
Definition CHUNK_PAYLOAD_SEP : ascii := "030"%char.
Definition SEP : ascii := "031"%char.
Definition ENTRY_SEP : ascii := "031"%char.

Definition is_chunk_field_char (c : ascii) : bool :=
  is_ascii_alphabetic c || in_range 48 57 c || bool_decide (c = "_"%char) || bool_decide (c = "-"%char) ||
  bool_decide (c = "."%char).
Definition is_valid_chunk_field (field : string) : bool :=
  (1 <=? byte_len field) && (byte_len field <=? 64) && all_chars is_chunk_field_char field.

(** [char::is_ascii_whitespace]. *)
Definition is_ascii_whitespace (c : ascii) : bool :=
  bool_decide (c = " "%char) || in_range 9 10 c || in_range 12 13 c.
Definition is_valid_ref_value (v : string) : bool :=
  negb (is_empty v) && (byte_len v <=? MAX_CHUNK_ID_BYTES) && contains_char "."%char v &&
  all_chars (λ c, negb (is_ascii_whitespace c || bool_decide (c = ENTRY_SEP) ||
                        bool_decide (c = CHUNK_PAYLOAD_SEP))) v.
Definition ref_place_ok (source_id field value : string) : bool :=
  negb (is_empty source_id) && (byte_len source_id <=? MAX_CHUNK_ID_BYTES) &&
  negb (contains_char ENTRY_SEP source_id) && is_valid_chunk_field field && is_valid_ref_value value.

Definition is_valid_chunk_id (id : string) : bool :=
  negb (is_empty id) && (byte_len id <=? MAX_CHUNK_ID_BYTES) &&
  negb (contains_char SEP id || contains_char CHUNK_PAYLOAD_SEP id).

Definition supersede_value (replaced : list string) (payload : string) : string :=
  join SEP replaced +:+ String CHUNK_PAYLOAD_SEP payload.

Definition entry_value (value : string) (label : option string) : string :=
  match label with
  | Some label => value +:+ String ENTRY_SEP label
  | None => value
  end.

Definition parse_entry_value (raw : string) : option (string * option string) :=
  let '(value, label) := match split_once ENTRY_SEP raw with
                         | Some (value, label) => (value, Some label)
                         | None => (raw, None)
                         end in
  let label_ok := match label with
                  | Some l => negb (is_empty l) && negb (contains_char ENTRY_SEP l)
                  | None => true
                  end in
  if negb (is_empty value) && label_ok then Some (value, label) else None.

(** The active rule over the cells it reads. *)
Definition is_active (deleted archived status : option string) : bool :=
  negb (bool_decide (deleted = Some "1")) && bool_decide (archived = None) &&
  (bool_decide (status = Some "open") || bool_decide (status = Some "in_progress")).

(** ** Tables *)
Definition ITEM_LWW_FIELDS : list string :=
  ["type"; "title"; "completion_criterion"; "description"; "design"; "status"; "priority"; "due";
   "defer_until"; "assignee"; "closing_comment"; "deleted"; "archived"; "closed_at"].

Definition text (name : string) : Column := Column.Mk name Affinity.TEXT false Cell.Null.
Definition text_not_null (name : string) : Column := Column.Mk name Affinity.TEXT true Cell.Null.
Definition integer (name : string) : Column := Column.Mk name Affinity.INTEGER false Cell.Null.
Definition integer_default (name : string) (v : Z) : Column :=
  Column.Mk name Affinity.INTEGER false (Cell.Int v).

Definition items_def : TableDef := TableDef.Mk ["id"]
  (text "id" ::
   flat_map (λ f, [text f; integer_default (f +:+ "_v") 0; integer_default (f +:+ "_site") 0])
     ITEM_LWW_FIELDS ++ [integer_default "_placeholder" 0]).
Definition edge_adds_def : TableDef := TableDef.Mk ["tag"]
  [text_not_null "from_id"; text_not_null "to_id"; text_not_null "kind"; text "tag"; integer "lamport";
   integer "site"].
Definition label_adds_def : TableDef := TableDef.Mk ["tag"]
  [text_not_null "item_id"; text_not_null "label"; text "tag"].
Definition thread_link_adds_def : TableDef := TableDef.Mk ["tag"]
  [text_not_null "thread_id"; text_not_null "item_id"; text_not_null "relation"; text_not_null "weight";
   text "tag"; integer "lamport"; integer "site"].
Definition removes_def : TableDef := TableDef.Mk ["tag"] [text "tag"].
Definition notes_def : TableDef := TableDef.Mk ["id"]
  [text "id"; text_not_null "item_id"; text "author"; text "body"; integer "lamport"; integer "site";
   text "created_at"].
Definition note_tombstones_def : TableDef := TableDef.Mk ["note_id"] [text "note_id"].
Definition chunks_def : TableDef := TableDef.Mk ["item_id"; "field"; "id"]
  [text_not_null "item_id"; text_not_null "field"; text_not_null "id"; text "author"; text "body";
   integer "lamport"; integer "site"; text "created_at"].
Definition chunk_superseded_def : TableDef := TableDef.Mk ["item_id"; "field"; "chunk_id"]
  [text_not_null "item_id"; text_not_null "field"; text_not_null "chunk_id"].
Definition custom_fields_def : TableDef := TableDef.Mk ["item_id"; "field"]
  [text_not_null "item_id"; text_not_null "field"; text "value"; integer_default "value_v" 0;
   integer_default "value_site" 0].
Definition field_entries_def : TableDef := TableDef.Mk ["item_id"; "field"; "tag"]
  [text_not_null "item_id"; text_not_null "field"; text_not_null "tag"; text "value"; text "label";
   integer "lamport"; integer "site"; integer_default "removed" 0].
Definition item_timestamps_def : TableDef := TableDef.Mk ["item_id"]
  [text "item_id"; text "created_at"; integer "created_v"; integer "created_site"; text "updated_at";
   integer "updated_v"; integer "updated_site"].

Definition flow_schema : Schema := list_to_map
  [("items", items_def); ("edge_adds", edge_adds_def); ("edge_removes", removes_def);
   ("label_adds", label_adds_def); ("label_removes", removes_def); ("notes", notes_def);
   ("note_tombstones", note_tombstones_def); ("chunks", chunks_def);
   ("chunk_superseded", chunk_superseded_def); ("custom_fields", custom_fields_def);
   ("field_entries", field_entries_def); ("thread_link_adds", thread_link_adds_def);
   ("thread_link_removes", removes_def); ("item_timestamps", item_timestamps_def)].

(** ** Shapes *)
Definition parse_edge (op : Op) : option (string * string * string) :=
  match split_on SEP (Op.target_id op) with
  | [from; to; kind] => if EdgeKind_parse kind then Some (from, to, kind) else None
  | _ => None
  end.

Definition parse_label (op : Op) : option (string * string) :=
  match split_on SEP (Op.target_id op) with
  | [item_id; label] => if is_empty label then None else Some (item_id, label)
  | _ => None
  end.

Definition parse_thread_link (op : Op) : option (string * string * string * string) :=
  match split_on SEP (Op.target_id op) with
  | [thread_id; item_id; relation; weight] =>
      if negb (is_empty thread_id) && negb (is_empty item_id) &&
         (if LinkRelation_parse relation then true else false) &&
         (if LinkWeight_parse weight then true else false)
      then Some (thread_id, item_id, relation, weight) else None
  | _ => None
  end.

Definition entry_place_ok (op : Op) : bool :=
  negb (is_empty (Op.target_id op)) && (byte_len (Op.target_id op) <=? MAX_CHUNK_ID_BYTES) &&
  negb (contains_char ENTRY_SEP (Op.target_id op)) && is_valid_chunk_field (Op.field op).

Definition parse_entry_add (op : Op) : option (string * option string) :=
  raw ← Op.value op;
  if negb (entry_place_ok op) || (MAX_FIELD_ENTRY_BYTES <? byte_len raw) || is_empty (Op.op_id op) ||
     (MAX_CHUNK_ID_BYTES <? byte_len (Op.op_id op)) || contains_char ENTRY_SEP (Op.op_id op)
  then None else parse_entry_value raw.

Definition parse_entry_remove (op : Op) : option (list string) :=
  raw ← Op.value op;
  if negb (entry_place_ok op) then None else
  let tags := split_on ENTRY_SEP raw in
  if (length tags <=? MAX_ENTRY_TAGS)%nat &&
     forallb (λ t, negb (is_empty t) && (byte_len t <=? MAX_CHUNK_ID_BYTES)) tags
  then Some tags else None.

Definition parse_chunk (op : Op) : option (list string * string) :=
  value ← Op.value op;
  if is_empty (Op.target_id op) || (MAX_CHUNK_ID_BYTES <? byte_len (Op.target_id op)) ||
     contains_char SEP (Op.target_id op) || (MAX_CHUNK_ID_BYTES <? byte_len (Op.op_id op)) ||
     negb (is_valid_chunk_field (Op.field op)) || (MAX_CHUNK_BYTES <? byte_len value)
  then None
  else if bool_decide (Op.op_type op = "append") then Some ([], value)
  else if bool_decide (Op.op_type op = "supersede") then
    '(ids, payload) ← split_once CHUNK_PAYLOAD_SEP value;
    let ids := split_on SEP ids in
    if (length ids <=? MAX_SUPERSEDED)%nat && forallb is_valid_chunk_id ids then Some (ids, payload) else None
  else None.

(** ** Changes *)
Definition version (op : Op) : Version := Version.Mk (Op.lamport op) (Op.site op).

Definition item_lww (op : Op) : Change :=
  let f := default "" (find_first (λ f, bool_decide (f = Op.field op)) ITEM_LWW_FIELDS) in
  register "items" [("id", Cell.Text (Op.target_id op))] [(f, text_or_null (Op.value op))]
    (f +:+ "_v", f +:+ "_site") (version op) Wins.Higher.

(** Both strategies fold the last writer. *)
Definition item_changes (op : Op) (strategy : MergeStrategy) : list Change :=
  match strategy with MergeStrategy.Lww | MergeStrategy.CrdtText => [item_lww op] end.

Definition field_change (op : Op) : Change :=
  register "custom_fields"
    [("item_id", Cell.Text (Op.target_id op)); ("field", Cell.Text (Op.field op))]
    [("value", text_or_null (Op.value op))] ("value_v", "value_site") (version op) Wins.Higher.

Definition entry_key (op : Op) (tag : string) : Cells :=
  [("item_id", Cell.Text (Op.target_id op)); ("field", Cell.Text (Op.field op)); ("tag", Cell.Text tag)].

Definition entry_add (op : Op) : list Change :=
  match parse_entry_add op with
  | None => []
  | Some (value, label) =>
      [put "field_entries" (entry_key op (Op.op_id op))
         ([("value", Cell.Text value); ("lamport", Cell.Int (Op.lamport op)); ("site", Cell.Int (Op.site op))]
          ++ match label with Some label => [("label", Cell.Text label)] | None => [] end)]
  end.

Definition entry_remove (op : Op) : list Change :=
  match parse_entry_remove op with
  | None => []
  | Some tags => (λ tag, put "field_entries" (entry_key op tag) [("removed", Cell.Int 1)]) <$> tags
  end.

Definition timestamp_changes (op : Op) : list Change :=
  let key := [("item_id", Cell.Text (Op.target_id op))] in
  [register "item_timestamps" key [("created_at", Cell.Text (Op.wall_clock op))]
     ("created_v", "created_site") (version op) Wins.Lower;
   register "item_timestamps" key [("updated_at", Cell.Text (Op.wall_clock op))]
     ("updated_v", "updated_site") (version op) Wins.Higher].

Definition edge_add (op : Op) : list Change :=
  match parse_edge op with
  | None => []
  | Some (from, to, kind) =>
      [put "edge_adds" [("tag", Cell.Text (Op.op_id op))]
         [("from_id", Cell.Text from); ("to_id", Cell.Text to); ("kind", Cell.Text kind);
          ("lamport", Cell.Int (Op.lamport op)); ("site", Cell.Int (Op.site op))]]
  end.

Definition tombstones (op : Op) (table : string) : list Change :=
  match Op.value op with
  | None => []
  | Some tags =>
      (λ tag, put table [("tag", Cell.Text tag)] []) <$>
        base.filter (λ t, is_empty t = false) (split_on SEP tags)
  end.

Definition label_add (op : Op) : list Change :=
  match parse_label op with
  | None => []
  | Some (item_id, label) =>
      [put "label_adds" [("tag", Cell.Text (Op.op_id op))]
         [("item_id", Cell.Text item_id); ("label", Cell.Text label)]]
  end.

Definition thread_link_add (op : Op) : list Change :=
  match parse_thread_link op with
  | None => []
  | Some (thread_id, item_id, relation, weight) =>
      [put "thread_link_adds" [("tag", Cell.Text (Op.op_id op))]
         [("thread_id", Cell.Text thread_id); ("item_id", Cell.Text item_id);
          ("relation", Cell.Text relation); ("weight", Cell.Text weight);
          ("lamport", Cell.Int (Op.lamport op)); ("site", Cell.Int (Op.site op))]]
  end.

Definition note_add (op : Op) : Change :=
  put "notes" [("id", Cell.Text (Op.op_id op))]
    [("item_id", Cell.Text (Op.target_id op)); ("author", Cell.Text (Op.author op));
     ("body", text_or_null (Op.value op)); ("lamport", Cell.Int (Op.lamport op));
     ("site", Cell.Int (Op.site op)); ("created_at", Cell.Text (Op.wall_clock op))].

Definition chunk_changes (op : Op) : list Change :=
  match parse_chunk op with
  | None => []
  | Some (replaced, payload) =>
      put "chunks"
        [("item_id", Cell.Text (Op.target_id op)); ("field", Cell.Text (Op.field op));
         ("id", Cell.Text (Op.op_id op))]
        [("author", Cell.Text (Op.author op)); ("body", Cell.Text payload);
         ("lamport", Cell.Int (Op.lamport op)); ("site", Cell.Int (Op.site op));
         ("created_at", Cell.Text (Op.wall_clock op))] ::
      ((λ id, put "chunk_superseded"
         [("item_id", Cell.Text (Op.target_id op)); ("field", Cell.Text (Op.field op));
          ("chunk_id", Cell.Text id)] []) <$> replaced)
  end.

Definition note_redact (op : Op) : Change :=
  put "note_tombstones" [("note_id", Cell.Text (Op.target_id op))] [].

(** ** The reducer *)
Definition some {A} (o : option A) : bool := if o then true else false.

Definition is_foldable (op : Op) : bool :=
  let kind := Op.target_kind op in
  let ty := Op.op_type op in
  if bool_decide (kind = "item") then
    some (from_item_set_op_type ty) && bool_decide (Op.field op ∈ ITEM_LWW_FIELDS)
  else if bool_decide (kind = "field") then
    if bool_decide (ty = "add") then some (parse_entry_add op)
    else if bool_decide (ty = "remove") then some (parse_entry_remove op)
    else some (from_item_set_op_type ty) && negb (is_empty (Op.target_id op)) &&
         negb (is_empty (Op.field op))
  else if bool_decide (kind = "edge") && (bool_decide (ty = "add") || bool_decide (ty = "remove"))
  then some (parse_edge op)
  else if bool_decide (kind = "label") && (bool_decide (ty = "add") || bool_decide (ty = "remove"))
  then some (parse_label op)
  else if bool_decide (kind = "thread_link") && bool_decide (ty = "add") then some (parse_thread_link op)
  else if bool_decide (kind = "thread_link") && bool_decide (ty = "remove") then true
  else if bool_decide (kind = "note") && bool_decide (ty = "note_add") then true
  else if bool_decide (kind = "note") && bool_decide (ty = "set") then bool_decide (Op.field op = "deleted")
  else if bool_decide (kind = "chunk") && (bool_decide (ty = "append") || bool_decide (ty = "supersede"))
  then some (parse_chunk op)
  else false.

(** The changes of a foldable operation. The source's [unreachable!] is the empty list here: no foldable
    operation comes to it. *)
Definition op_changes (op : Op) : list Change :=
  let kind := Op.target_kind op in
  let ty := Op.op_type op in
  if bool_decide (kind = "item") then
    match from_item_set_op_type ty with Some strategy => item_changes op strategy | None => [] end
  else if bool_decide (kind = "field") then
    if bool_decide (ty = "add") then entry_add op
    else if bool_decide (ty = "remove") then entry_remove op
    else [field_change op]
  else if bool_decide (kind = "edge") && bool_decide (ty = "add") then edge_add op
  else if bool_decide (kind = "edge") && bool_decide (ty = "remove") then tombstones op "edge_removes"
  else if bool_decide (kind = "label") && bool_decide (ty = "add") then label_add op
  else if bool_decide (kind = "label") && bool_decide (ty = "remove") then tombstones op "label_removes"
  else if bool_decide (kind = "thread_link") && bool_decide (ty = "add") then thread_link_add op
  else if bool_decide (kind = "thread_link") && bool_decide (ty = "remove")
  then tombstones op "thread_link_removes"
  else if bool_decide (kind = "note") && bool_decide (ty = "note_add") then [note_add op]
  else if bool_decide (kind = "note") && bool_decide (ty = "set") then [note_redact op]
  else if bool_decide (kind = "chunk") then chunk_changes op
  else [].

(** The operations whose target is an item date it. *)
Definition dates_item (op : Op) : bool :=
  bool_decide (Op.target_kind op = "item") || bool_decide (Op.target_kind op = "field") ||
  (bool_decide (Op.target_kind op = "note") && bool_decide (Op.op_type op = "note_add")).

Definition task_changes (op : Op) : list Change :=
  op_changes op ++ if dates_item op then timestamp_changes op else [].

Definition task_view_tables : list string :=
  ["items"; "edge_adds"; "edge_removes"; "label_adds"; "label_removes"; "notes"; "note_tombstones"; "chunks";
   "chunk_superseded"; "custom_fields"; "field_entries"; "thread_link_adds"; "thread_link_removes";
   "item_timestamps"].

Definition TaskReducer : Reducer := Reducer.Mk DOMAIN_TASK is_foldable task_changes 3 task_view_tables.
