(* ===== verification/ChangeFacts.v ===== *)
(** * When changes commute

    What a change asks of the schema is the same whatever the views hold ([resolve]), and what it then does
    to its row is one of two shapes. Changes of one row commute when they write different columns, the same
    values, or the same register under different versions ([agree]). *)

From S2P Require Import Prelude Text Utf8 OpModel Changes.
From stdpp Require Import options.

(** ** Folds that depend on a set only *)
Section set_folds.
Local Unset Default Proof Using.
Context {A B : Type} `{EqDecision A} (f : B → A → B).

Definition commute (x y : A) : Prop := ∀ b, f (f b x) y = f (f b y) x.
Definition idempotent (x : A) : Prop := ∀ b, f (f b x) x = f b x.

Lemma foldl_move b x l : (∀ y, y ∈ l → commute x y) → foldl f (f b x) l = f (foldl f b l) x.
Proof.
  revert b; induction l as [|y l IH]; intros b H; simpl; [done|].
  rewrite (H y) by (by left). apply IH. intros z Hz. apply H. by right.
Qed.

Lemma foldl_absorb b x l :
  x ∈ l → idempotent x → (∀ y, y ∈ l → commute x y) → f (foldl f b l) x = foldl f b l.
Proof.
  revert b; induction l as [|y l IH]; intros b Hx Hi Hc; [by apply not_elem_of_nil in Hx|].
  apply elem_of_cons in Hx as [->|Hx]; simpl.
  - rewrite <-foldl_move by (intros z Hz; apply Hc; by right). by rewrite Hi.
  - apply IH; [done..|]. intros z Hz. apply Hc. by right.
Qed.

Lemma foldl_perm b l1 l2 :
  l1 ≡ₚ l2 → (∀ x y, x ∈ l1 → y ∈ l1 → commute x y) → foldl f b l1 = foldl f b l2.
Proof.
  intros Hp. revert b; induction Hp as [|x l1 l2 Hp IH|x y l|l1 l2 l3 H12 IH12 H23 IH23]; intros b Hc; simpl.
  - done.
  - apply IH. intros y z Hy Hz. apply Hc; by right.
  - rewrite (Hc x y) by set_solver. done.
  - rewrite IH12 by done. apply IH23. intros x y. rewrite <-H12. apply Hc.
Qed.

Lemma foldl_remove_dups b l :
  (∀ x, x ∈ l → idempotent x) → (∀ x y, x ∈ l → y ∈ l → commute x y) →
  foldl f b (remove_dups l) = foldl f b l.
Proof.
  revert b; induction l as [|x l IH]; intros b Hi Hc; simpl; [done|].
  assert (∀ x, x ∈ l → idempotent x) as Hi' by (intros y Hy; apply Hi; by right).
  assert (∀ x y, x ∈ l → y ∈ l → commute x y) as Hc' by (intros y z Hy Hz; apply Hc; by right).
  case_decide as Hx.
  - rewrite IH by done. rewrite foldl_move by (intros y Hy; apply Hc; [by left|by right]).
    symmetry. apply foldl_absorb; [done|apply Hi; by left|]. intros y Hy. apply Hc; [by left|by right].
  - simpl. by apply IH.
Qed.

(** Order and repetition do not matter. *)
Lemma foldl_same_set b l1 l2 :
  (∀ x, x ∈ l1 ↔ x ∈ l2) → (∀ x, x ∈ l1 → idempotent x) → (∀ x y, x ∈ l1 → y ∈ l1 → commute x y) →
  foldl f b l1 = foldl f b l2.
Proof.
  intros Hs Hi Hc. rewrite <-(foldl_remove_dups b l1), <-(foldl_remove_dups b l2); try done.
  - apply foldl_perm.
    + apply NoDup_Permutation; try apply NoDup_remove_dups. intros x. rewrite !elem_of_remove_dups. apply Hs.
    + intros x y. rewrite !elem_of_remove_dups. apply Hc.
  - intros x. rewrite <-Hs. apply Hi.
  - intros x y. rewrite <-!Hs. apply Hc.
Qed.
End set_folds.

(** ** Assignments *)
Implicit Types (row : Row) (cells : Cells) (version : list (string * Z)).

Lemma set_cells_app c1 c2 row : set_cells (c1 ++ c2) row = set_cells c2 (set_cells c1 row).
Proof. apply foldl_app. Qed.

Lemma set_cells_cons c v cells row : set_cells ((c, v) :: cells) row = set_cells cells (<[c := v]> row).
Proof. done. Qed.

Lemma set_cells_lookup_ne cells row c : c ∉ cells.*1 → set_cells cells row !! c = row !! c.
Proof.
  revert row; induction cells as [|[d v] cells IH]; intros row Hc; [done|]. simpl in Hc.
  rewrite set_cells_cons, IH by set_solver. apply lookup_insert_ne. set_solver.
Qed.

Lemma set_cells_lookup cells row c v :
  NoDup cells.*1 → (c, v) ∈ cells → set_cells cells row !! c = Some v.
Proof.
  revert row; induction cells as [|[d w] cells IH]; intros row Hnd Hin; [by apply not_elem_of_nil in Hin|].
  simpl in Hnd. apply NoDup_cons in Hnd as [Hd Hnd]. apply elem_of_cons in Hin as [Heq|Hin].
  - simplify_eq. rewrite set_cells_cons, set_cells_lookup_ne by done. apply lookup_insert_eq.
  - rewrite set_cells_cons. by apply IH.
Qed.

(** Every column is read the same after the same assignments. *)
Lemma set_cells_cases cells row c :
  NoDup cells.*1 →
  (∃ v, (c, v) ∈ cells ∧ ∀ row', set_cells cells row' !! c = Some v) ∨
  (c ∉ cells.*1 ∧ set_cells cells row !! c = row !! c).
Proof.
  intros Hnd. destruct (base.decide (c ∈ cells.*1)) as [Hc|Hc].
  - left. apply list_elem_of_fmap in Hc as ([d v] & -> & Hin). exists v. split; [done|].
    intros row'. by apply set_cells_lookup.
  - right. split; [done|by apply set_cells_lookup_ne].
Qed.

Definition consistent (c1 c2 : Cells) : Prop := ∀ c v1 v2, (c, v1) ∈ c1 → (c, v2) ∈ c2 → v1 = v2.

Lemma set_cells_commute c1 c2 row :
  NoDup c1.*1 → NoDup c2.*1 → consistent c1 c2 →
  set_cells c1 (set_cells c2 row) = set_cells c2 (set_cells c1 row).
Proof.
  intros H1 H2 Hc. apply map_eq. intros c.
  destruct (set_cells_cases c1 (set_cells c2 row) c H1) as [(v1 & Hv1 & E1)|[N1 E1]];
    destruct (set_cells_cases c2 (set_cells c1 row) c H2) as [(v2 & Hv2 & E2)|[N2 E2]].
  - rewrite E1, E2. f_equal. by eapply Hc.
  - by rewrite E1, E2, E1.
  - by rewrite E1, E2, E2.
  - rewrite E1, E2. by rewrite !set_cells_lookup_ne.
Qed.

Lemma consistent_disjoint c1 c2 : c1.*1 ## c2.*1 → consistent c1 c2.
Proof.
  intros Hd c v1 v2 H1 H2. exfalso. apply (Hd c); apply list_elem_of_fmap; by eexists (c, _).
Qed.

Lemma set_cells_overwrite c1 c2 row :
  NoDup c1.*1 → NoDup c2.*1 → c1.*1 = c2.*1 → set_cells c2 (set_cells c1 row) = set_cells c2 row.
Proof.
  intros H1 H2 Heq. apply map_eq. intros c.
  destruct (set_cells_cases c2 (set_cells c1 row) c H2) as [(v2 & _ & E2)|[N2 E2]]; [by rewrite !E2|].
  rewrite E2, !set_cells_lookup_ne; [done..| |]; by rewrite ?Heq.
Qed.

Lemma version_cells_columns version : (version_cells version).*1 = version.*1.
Proof. unfold version_cells. rewrite <-list_fmap_compose. by apply list_fmap_ext. Qed.

(** ** Registers *)
Lemma unwritten_same version row row' :
  (∀ c, c ∈ version.*1 → row !! c = row' !! c) → unwritten version row = unwritten version row'.
Proof.
  unfold unwritten. induction version as [|[c v] version IH]; intros H; simpl; [done|].
  rewrite (H c) by (by left). rewrite IH; [done|]. intros d Hd. apply H. by right.
Qed.

Lemma unwritten_columns (v1 v2 : list (string * Z)) row :
  v1.*1 = v2.*1 → unwritten v1 row = unwritten v2 row.
Proof.
  unfold unwritten. revert v2; induction v1 as [|[c x] v1 IH]; intros [|[d y] v2] Hv; simplify_eq/=; [done|].
  f_equal. by apply IH.
Qed.

Lemma beats_same wins version row row' :
  (∀ c, c ∈ version.*1 → row !! c = row' !! c) → beats wins version row = beats wins version row'.
Proof.
  induction version as [|[c v] version IH]; intros H; simpl; [done|].
  rewrite (H c) by (by left). rewrite IH; [done|]. intros d Hd. apply H. by right.
Qed.

(** A row that holds a version. *)
Definition holds version row : Prop := ∀ c v, (c, v) ∈ version → row !! c = Some (Cell.Int v).

Lemma holds_set cells version row :
  NoDup (cells ++ version_cells version).*1 → holds version (set_cells (cells ++ version_cells version) row).
Proof.
  intros Hnd c v Hin. apply set_cells_lookup; [done|]. apply elem_of_app. right.
  apply list_elem_of_fmap. by exists (c, v).
Qed.

Lemma holds_written version row : holds version row → unwritten version row = false.
Proof.
  unfold holds, unwritten. induction version as [|[c v] version IH]; intros H; simpl; [done|].
  rewrite (H c v) by (by left). simpl. rewrite IH; [done|]. intros d w Hd. apply H. by right.
Qed.

Lemma holds_not_beaten wins version row : holds version row → beats wins version row = false.
Proof.
  unfold holds. induction version as [|[c v] version IH]; intros H; simpl; [done|].
  rewrite (H c v) by (by left). rewrite Z.eqb_refl. apply IH. intros d w Hd. apply H. by right.
Qed.

(** Of two versions exactly one beats the other, and beating is transitive through a row. *)
Lemma beats_total wins (v1 v2 : list (string * Z)) row1 row2 :
  holds v1 row1 → holds v2 row2 → v1.*1 = v2.*1 → v1 ≠ v2 →
  beats wins v1 row2 = negb (beats wins v2 row1).
Proof.
  revert v2; induction v1 as [|[c x1] v1 IH]; intros [|[d x2] v2] H1 H2 Hcols Hne; simplify_eq/=.
  rewrite (H1 d x1), (H2 d x2) by (by left). rewrite (Z.eqb_sym x2 x1).
  destruct (Z.eqb_spec x1 x2) as [->|Hx].
  - apply IH; [|..|congruence]; try done; intros e w He; [apply H1|apply H2]; by right.
  - destruct wins; [destruct (Z.ltb_spec x2 x1), (Z.ltb_spec x1 x2)|destruct (Z.ltb_spec x1 x2), (Z.ltb_spec x2 x1)];
      try done; lia.
Qed.

Lemma beats_trans wins (v1 v2 : list (string * Z)) row row1 :
  holds v1 row1 → v1.*1 = v2.*1 → beats wins v2 row1 = true → beats wins v1 row = true →
  beats wins v2 row = true.
Proof.
  revert v2; induction v1 as [|[c x1] v1 IH]; intros [|[d x2] v2] H1 Hcols; simplify_eq/=; [done|].
  rewrite (H1 d x1) by (by left).
  assert (holds v1 row1) as H1' by (intros e w He; apply H1; by right).
  destruct (row !! d) as [[| |y]|]; try done.
  destruct (Z.eqb_spec x2 x1) as [->|Hx].
  - destruct (Z.eqb_spec x1 y) as [->|Hy]; [by apply IH|done].
  - intros Hb1 Hb2. destruct (Z.eqb_spec x1 y) as [->|Hy].
    + by rewrite (proj2 (Z.eqb_neq x2 y)) by done.
    + destruct wins; rewrite ?Z.ltb_lt in *.
      * rewrite (proj2 (Z.eqb_neq x2 y)) by lia. apply Z.ltb_lt. lia.
      * rewrite (proj2 (Z.eqb_neq x2 y)) by lia. apply Z.ltb_lt. lia.
Qed.

(** ** One row *)

(** What a change does to a row that is there. *)
Definition update (effect : Effect) row : Row :=
  match effect with
  | Effect.Ensure _ => row
  | Effect.Put cells => set_cells cells row
  | Effect.Register cells version wins =>
      if unwritten version row || beats wins version row
      then set_cells (cells ++ version_cells version) row else row
  end.

Definition columns (effect : Effect) : list string :=
  (effect_cells effect).*1 ++ (effect_version effect).*1.

Lemma columns_cells effect :
  columns effect = (effect_cells effect ++ version_cells (effect_version effect)).*1.
Proof. unfold columns. by rewrite fmap_app, version_cells_columns. Qed.

Lemma update_lookup_ne effect row c : c ∉ columns effect → update effect row !! c = row !! c.
Proof.
  destruct effect as [cells|cells|cells version wins]; simpl; [done| |].
  - unfold columns. simpl. rewrite app_nil_r. apply set_cells_lookup_ne.
  - rewrite columns_cells. intros Hc. case_match; [|done]. by apply set_cells_lookup_ne.
Qed.

(** Two changes of one row that do not stand in each other's way. *)
Inductive agree : Effect → Effect → Prop :=
| agree_disjoint e1 e2 : columns e1 ## columns e2 → agree e1 e2
| agree_puts c1 c2 : consistent c1 c2 → agree (Effect.Put c1) (Effect.Put c2)
| agree_registers c1 c2 v1 v2 wins :
    c1.*1 = c2.*1 → v1.*1 = v2.*1 → (v1 = v2 → c1 = c2) →
    agree (Effect.Register c1 v1 wins) (Effect.Register c2 v2 wins).

Lemma update_disjoint e1 e2 row :
  NoDup (columns e1) → NoDup (columns e2) → columns e1 ## columns e2 →
  update e1 (update e2 row) = update e2 (update e1 row).
Proof.
  intros H1 H2 Hd.
  assert (∀ (ver : list (string * Z)) c row, (∀ d, d ∈ ver.*1 → d ∈ columns e1) → c ∈ ver.*1 → update e2 row !! c = row !! c) as K1.
  { intros ver c r Hs Hc. apply update_lookup_ne. intros Hc2. exact (Hd c (Hs c Hc) Hc2). }
  assert (∀ (ver : list (string * Z)) c row, (∀ d, d ∈ ver.*1 → d ∈ columns e2) → c ∈ ver.*1 → update e1 row !! c = row !! c) as K2.
  { intros ver c r Hs Hc. apply update_lookup_ne. intros Hc1. exact (Hd c Hc1 (Hs c Hc)). }
  assert (set_cells (effect_cells e1 ++ version_cells (effect_version e1))
      (set_cells (effect_cells e2 ++ version_cells (effect_version e2)) row) =
    set_cells (effect_cells e2 ++ version_cells (effect_version e2))
      (set_cells (effect_cells e1 ++ version_cells (effect_version e1)) row)) as Hset.
  { apply set_cells_commute; rewrite <- ?columns_cells; try done. apply consistent_disjoint.
    by rewrite <-!columns_cells. }
  destruct e1 as [a1|a1|a1 v1 w1], e2 as [a2|a2|a2 v2 w2]; simpl in *; rewrite ?app_nil_r in Hset; try done.
  - rewrite (unwritten_same v2 (set_cells a1 row) row), (beats_same w2 v2 (set_cells a1 row) row);
      [by case_match|..]; intros c Hc; apply (K2 v2 c row); try done; intros d Hd'; apply elem_of_app; by right.
  - rewrite (unwritten_same v1 (set_cells a2 row) row), (beats_same w1 v1 (set_cells a2 row) row);
      [by case_match|..]; intros c Hc; apply (K1 v1 c row); try done; intros d Hd'; apply elem_of_app; by right.
  - assert (∀ d, d ∈ v1.*1 → d ∈ columns (Effect.Register a1 v1 w1)) as S1
      by (intros d Hd'; apply elem_of_app; by right).
    assert (∀ d, d ∈ v2.*1 → d ∈ columns (Effect.Register a2 v2 w2)) as S2
      by (intros d Hd'; apply elem_of_app; by right).
    rewrite (unwritten_same v1 _ row (λ c, K1 v1 c row S1)), (beats_same w1 v1 _ row (λ c, K1 v1 c row S1)).
    rewrite (unwritten_same v2 _ row (λ c, K2 v2 c row S2)), (beats_same w2 v2 _ row (λ c, K2 v2 c row S2)).
    by do 2 case_match.
Qed.

Lemma update_registers c1 c2 v1 v2 wins row :
  NoDup (columns (Effect.Register c1 v1 wins)) → NoDup (columns (Effect.Register c2 v2 wins)) →
  c1.*1 = c2.*1 → v1.*1 = v2.*1 → (v1 = v2 → c1 = c2) →
  update (Effect.Register c1 v1 wins) (update (Effect.Register c2 v2 wins) row) =
  update (Effect.Register c2 v2 wins) (update (Effect.Register c1 v1 wins) row).
Proof.
  intros H1 H2 Hc Hv Heq. rewrite columns_cells in H1, H2. simpl in *.
  destruct (base.decide (v1 = v2)) as [->|Hne]; [by rewrite (Heq eq_refl)|].
  set (s1 := set_cells (c1 ++ version_cells v1)). set (s2 := set_cells (c2 ++ version_cells v2)).
  assert (∀ r, holds v1 (s1 r)) as Hh1 by (intros r; by apply holds_set).
  assert (∀ r, holds v2 (s2 r)) as Hh2 by (intros r; by apply holds_set).
  assert (∀ r, s1 (s2 r) = s1 r) as O1.
  { intros r. apply set_cells_overwrite; try done. by rewrite !fmap_app, !version_cells_columns, Hc, Hv. }
  assert (∀ r, s2 (s1 r) = s2 r) as O2.
  { intros r. apply set_cells_overwrite; try done. by rewrite !fmap_app, !version_cells_columns, Hc, Hv. }
  assert (Hu := unwritten_columns v1 v2 row Hv).
  assert (∀ r, unwritten v1 (s2 r) = false) as U12
    by (intros r; rewrite (unwritten_columns v1 v2) by done; by apply holds_written).
  assert (∀ r, unwritten v2 (s1 r) = false) as U21
    by (intros r; rewrite <-(unwritten_columns v1 v2) by done; by apply holds_written).
  assert (beats wins v1 (s2 row) = negb (beats wins v2 (s1 row))) as Ht by (by apply beats_total).
  assert (beats wins v2 (s1 row) = true → beats wins v1 row = true → beats wins v2 row = true) as T1
    by (intros; by eapply (beats_trans wins v1 v2)).
  assert (beats wins v1 (s2 row) = true → beats wins v2 row = true → beats wins v1 row = true) as T2
    by (intros; by eapply (beats_trans wins v2 v1)).
  rewrite <-Hu. destruct (unwritten v1 row) eqn:Eu; simpl.
  - rewrite U12, U21. simpl. rewrite Ht. destruct (beats wins v2 (s1 row)); simpl; by rewrite ?O1, ?O2.
  - destruct (beats wins v1 row) eqn:B1, (beats wins v2 row) eqn:B2; rewrite ?U12, ?U21, ?Eu, <- ?Hu; simpl.
    + rewrite Ht. destruct (beats wins v2 (s1 row)); simpl; by rewrite ?O1, ?O2.
    + rewrite B1. destruct (beats wins v2 (s1 row)); [by specialize (T1 eq_refl eq_refl)|done].
    + destruct (beats wins v1 (s2 row)); [by specialize (T2 eq_refl eq_refl)|done].
    + by rewrite B1.
Qed.

Lemma update_commute e1 e2 row :
  NoDup (columns e1) → NoDup (columns e2) → agree e1 e2 →
  update e1 (update e2 row) = update e2 (update e1 row).
Proof.
  intros H1 H2 H. destruct H as [e e' Hd|c1 c2 Hc|c1 c2 v1 v2 wins Hc Hv Heq].
  - exact (update_disjoint _ _ _ H1 H2 Hd).
  - unfold columns in H1, H2. simpl in *. rewrite app_nil_r in H1, H2. by apply set_cells_commute.
  - exact (update_registers _ _ _ _ _ _ H1 H2 Hc Hv Heq).
Qed.

Lemma update_idempotent e row : NoDup (columns e) → update e (update e row) = update e row.
Proof.
  intros Hnd. destruct e as [cells|cells|cells version wins]; simpl; [done| |].
  - unfold columns in Hnd. simpl in Hnd. rewrite app_nil_r in Hnd. by apply set_cells_overwrite.
  - rewrite columns_cells in Hnd. simpl in Hnd. destruct (unwritten version row || _) eqn:E.
    + assert (holds version (set_cells (cells ++ version_cells version) row)) as Hh by by apply holds_set.
      by rewrite (holds_written _ _ Hh), (holds_not_beaten _ _ _ Hh).
    + by rewrite E.
Qed.

(** ** The views *)

(** What a change comes to, whatever the views hold: the row it names and what it does to it. *)
Module Write.
Record Write := Mk { table : string; def : TableDef; id : list Cell; key : Cells; effect : Effect }.
End Write.
Abbreviation Write := Write.Write (only parsing).

(** A row that is not there yet, but for what the change writes. *)
Definition seed (w : Write) : Row := new_row (Write.def w) (Write.key w).

Definition carry_out (views : Views) (w : Write) : Views :=
  let rows := default ∅ (views !! Write.table w) in
  <[Write.table w := <[Write.id w :=
      write_row (Write.def w) (Write.key w) (Write.effect w) (rows !! Write.id w)]> rows]> views.

Definition resolve (schema : Schema) (change : Change) : result SqlError (option Write) :=
  match first_bad_name change with
  | Some name => Err (SqlError.InvalidColumnName name)
  | None =>
      match schema !! Change.table change with
      | None => Err (SqlError.NoSuchTable (Change.table change))
      | Some def =>
          key <-? coerce def (Change.key change) ;;
          effect <-? coerce_effect def (Change.effect change) ;;
          if negb (ignores effect) &&
             negb (bool_decide (list_to_set key.*1 = (list_to_set (TableDef.primary_key def) : gset string)))
          then Err SqlError.ConflictTarget else
          let inserted := new_row def (key ++ effect_cells effect ++ version_cells (effect_version effect)) in
          match null_violation def inserted with
          | Some column => if ignores effect then Ok None else Err (SqlError.NotNull column)
          | None =>
              let id := row_key def inserted in
              if bool_decide (Cell.Null ∈ id) then Err SqlError.Beyond
              else Ok (Some (Write.Mk (Change.table change) def id key effect))
          end
      end
  end.

Lemma apply_one_resolve schema change views :
  apply_one schema change views =
  match resolve schema change with
  | Err e => Err e
  | Ok None => Ok views
  | Ok (Some w) => Ok (carry_out views w)
  end.
Proof. unfold apply_one, resolve. repeat case_match; simplify_eq; done. Qed.

Lemma apply_resolved schema changes ws views :
  Forall2 (λ change w, resolve schema change = Ok (Some w)) changes ws →
  apply_sqlite schema changes views = Ok (foldl carry_out views ws).
Proof.
  intros H. revert views; induction H as [|change w changes ws Hw H IH]; intros views; simpl; [done|].
  rewrite apply_one_resolve, Hw. apply IH.
Qed.

(** A write of one of the two shapes, that would also win against the row nobody wrote. *)
Record plain (w : Write) : Prop := {
  plain_columns : NoDup (columns (Write.effect w));
  plain_seed :
    match Write.effect w with
    | Effect.Ensure _ => False
    | Effect.Put _ => True
    | Effect.Register _ version wins =>
        unwritten version (seed w) || beats wins version (seed w) = true
    end;
}.

Lemma write_row_update w stored :
  plain w →
  write_row (Write.def w) (Write.key w) (Write.effect w) stored = update (Write.effect w) (default (seed w) stored).
Proof.
  intros [_ Hs]. destruct stored as [row|]; [by destruct (Write.effect w)|]. simpl.
  unfold seed, new_row in *. rewrite set_cells_app.
  destruct (Write.effect w) as [cells|cells|cells version wins]; simpl in *; [done| |].
  - by rewrite app_nil_r.
  - by rewrite Hs.
Qed.

(** Two writes that do not stand in each other's way: of different rows, or of one row from the same start. *)
Definition apart (w1 w2 : Write) : Prop :=
  Write.table w1 = Write.table w2 → Write.id w1 = Write.id w2 →
  Write.def w1 = Write.def w2 ∧ Write.key w1 = Write.key w2 ∧ agree (Write.effect w1) (Write.effect w2).

Lemma carry_out_commute w1 w2 : plain w1 → plain w2 → apart w1 w2 → commute carry_out w1 w2.
Proof.
  intros H1 H2 Ha views. unfold carry_out.
  destruct (base.decide (Write.table w1 = Write.table w2)) as [Ht|Ht].
  - rewrite <-Ht, !lookup_insert_eq, !insert_insert_eq. simpl. f_equal.
    destruct (base.decide (Write.id w1 = Write.id w2)) as [Hid|Hid].
    + destruct (Ha Ht Hid) as (Hdef & Hkey & Hag).
      rewrite <-Hid, !lookup_insert_eq, !insert_insert_eq, !write_row_update by done. simpl.
      assert (seed w2 = seed w1) as -> by (unfold seed; by rewrite Hdef, Hkey).
      f_equal. symmetry. apply update_commute; [apply H1|apply H2|done].
    + rewrite !lookup_insert_ne by done. by apply insert_insert_ne.
  - rewrite !lookup_insert_ne by done. by apply insert_insert_ne.
Qed.

Lemma carry_out_idempotent w : plain w → idempotent carry_out w.
Proof.
  intros Hw views. unfold carry_out.
  rewrite !lookup_insert_eq, !insert_insert_eq. simpl.
  rewrite !lookup_insert_eq, !insert_insert_eq, !write_row_update by done. simpl.
  rewrite update_idempotent; [done|apply Hw].
Qed.

(** ** Settled writes

    A write that has been carried out stays without effect, whatever comes after it: also after a write of
    the same register under the same version, which beats nothing. *)
Inductive rivals : Effect → Effect → Prop :=
| rivals_agree e1 e2 : agree e1 e2 → rivals e1 e2
| rivals_registers c1 c2 v1 v2 wins :
    c1.*1 = c2.*1 → v1.*1 = v2.*1 → rivals (Effect.Register c1 v1 wins) (Effect.Register c2 v2 wins).

Lemma update_stays e1 e2 row :
  NoDup (columns e1) → NoDup (columns e2) → rivals e1 e2 → update e1 row = row →
  update e1 (update e2 row) = update e2 row.
Proof.
  intros H1 H2 Hr Hs. destruct Hr as [e e' Ha|c1 c2 v1 v2 wins Hc Hv].
  - rewrite update_commute by done. by rewrite Hs.
  - destruct (base.decide (v1 = v2)) as [->|Hne].
    + rewrite columns_cells in H2. simpl in *. destruct (unwritten v2 row || beats wins v2 row) eqn:E; [|by rewrite E].
      assert (Hh := holds_set c2 v2 row H2). by rewrite (holds_written _ _ Hh), (holds_not_beaten _ _ _ Hh).
    + rewrite update_registers by done. by rewrite Hs.
Qed.

Definition near (w1 w2 : Write) : Prop :=
  Write.table w1 = Write.table w2 → Write.id w1 = Write.id w2 →
  Write.def w1 = Write.def w2 ∧ Write.key w1 = Write.key w2 ∧ rivals (Write.effect w1) (Write.effect w2).

Definition settled (views : Views) (w : Write) : Prop := carry_out views w = views.

Lemma settled_row views w :
  plain w →
  settled views w ↔
  ∃ rows row, views !! Write.table w = Some rows ∧ rows !! Write.id w = Some row ∧ update (Write.effect w) row = row.
Proof.
  intros Hw. unfold settled, carry_out. rewrite write_row_update by done. split.
  - intros Heq. assert (Ht := f_equal (lookup (Write.table w)) Heq). rewrite lookup_insert_eq in Ht.
    destruct (views !! Write.table w) as [rows|] eqn:E; [|done]. simpl in *. simplify_eq.
    assert (Hr := f_equal (lookup (Write.id w)) Ht). rewrite lookup_insert_eq in Hr.
    destruct (rows !! Write.id w) as [row|] eqn:Er; [|done]. simpl in *. simplify_eq. by exists rows, row.
  - intros (rows & row & E & Er & Hu). rewrite E. simpl. rewrite Er. simpl. rewrite Hu.
    rewrite (insert_id rows) by done. by apply insert_id.
Qed.

Lemma settled_after views w : plain w → settled (carry_out views w) w.
Proof. intros Hw. by apply carry_out_idempotent. Qed.

Lemma settled_stays views w1 w2 : plain w1 → plain w2 → near w1 w2 → settled views w1 → settled (carry_out views w2) w1.
Proof.
  intros H1 H2 Hn. rewrite !settled_row by done. intros (rows & row & E & Er & Hu). unfold carry_out.
  rewrite write_row_update by done.
  destruct (base.decide (Write.table w1 = Write.table w2)) as [Ht|Ht].
  2:{ exists rows, row. by rewrite lookup_insert_ne by done. }
  rewrite <-Ht, lookup_insert_eq, E. simpl.
  destruct (base.decide (Write.id w1 = Write.id w2)) as [Hid|Hid].
  2:{ eexists _, row. split; [done|]. by rewrite lookup_insert_ne by done. }
  destruct (Hn Ht Hid) as (_ & _ & Hr). rewrite <-Hid, Er. simpl.
  eexists _, _. split; [done|]. rewrite lookup_insert_eq. split; [done|].
  apply update_stays; [apply H1|apply H2|done|done].
Qed.

Lemma settled_stays_all views w ws :
  plain w → Forall plain ws → (∀ w', w' ∈ ws → near w w') → settled views w → settled (foldl carry_out views ws) w.
Proof.
  intros Hw Hws. revert views; induction Hws as [|w' ws Hw' Hws IH]; intros views Hn Hs; simpl; [done|].
  apply IH; [intros x Hx; apply Hn; by right|]. apply settled_stays; [done|done|apply Hn; by left|done].
Qed.

Lemma settled_all_after views ws :
  Forall plain ws → (∀ w1 w2, w1 ∈ ws → w2 ∈ ws → near w1 w2) → Forall (settled (foldl carry_out views ws)) ws.
Proof.
  intros Hp Hn. rewrite Forall_forall in Hp. apply Forall_forall. intros w Hw.
  apply list_elem_of_split in Hw as (l1 & l2 & ->). rewrite foldl_app. simpl.
  apply settled_stays_all.
  - apply Hp. set_solver.
  - apply Forall_forall. intros x Hx. apply Hp. set_solver.
  - intros x Hx. apply Hn; set_solver.
  - apply settled_after, Hp. set_solver.
Qed.

Lemma settled_all_nothing views ws : Forall (settled views) ws → foldl carry_out views ws = views.
Proof. induction 1 as [|w ws Hw Hws IH]; simpl; [done|]. by rewrite Hw. Qed.

(** The tables writes are to. *)
Lemma carry_out_other views w t : t ≠ Write.table w → carry_out views w !! t = views !! t.
Proof. intros Ht. unfold carry_out. by rewrite lookup_insert_ne. Qed.

(** Lists of writes, one list per operation. *)
Definition carry_all (views : Views) (ws : list Write) : Views := foldl carry_out views ws.

Lemma carry_all_commute ws1 ws2 :
  Forall plain ws1 → Forall plain ws2 →
  (∀ w1 w2, w1 ∈ ws1 → w2 ∈ ws2 → apart w1 w2) → commute carry_all ws1 ws2.
Proof.
  rewrite !Forall_forall. intros H1 H2 Ha views. unfold carry_all.
  revert views; induction ws2 as [|w2 ws2 IH]; intros views; simpl; [done|].
  assert (carry_out (foldl carry_out views ws1) w2 = foldl carry_out (carry_out views w2) ws1) as ->.
  { symmetry. apply foldl_move. intros w1 Hw1. intros b. symmetry.
    apply carry_out_commute; [by apply H1|by apply H2; left|]. apply Ha; [done|by left]. }
  apply IH.
  - intros w Hw. apply H2. by right.
  - intros w1 w Hw1 Hw. apply Ha; [done|by right].
Qed.

Lemma carry_all_idempotent ws :
  Forall plain ws → (∀ w1 w2, w1 ∈ ws → w2 ∈ ws → apart w1 w2) → idempotent carry_all ws.
Proof.
  rewrite Forall_forall. intros H Ha views. unfold carry_all. rewrite <-foldl_app.
  assert (∀ x y, x ∈ ws → y ∈ ws → commute carry_out x y) as Hc.
  { intros x y Hx Hy. apply carry_out_commute; auto. }
  assert (∀ x, x ∈ ws → idempotent carry_out x) as Hi by (intros; apply carry_out_idempotent; auto).
  assert (∀ sub, (∀ x, x ∈ sub → x ∈ ws) → foldl carry_out (foldl carry_out views ws) sub =
    foldl carry_out views ws) as Habs.
  { induction sub as [|x sub IH]; intros Hs; simpl; [done|].
    rewrite foldl_absorb; [|apply Hs; by left|apply Hi, Hs; by left|].
    - apply IH. intros y Hy. apply Hs. by right.
    - intros y Hy. apply Hc; [apply Hs; by left|done]. }
  rewrite foldl_app. by apply Habs.
Qed.
