(* ===== verification/OpStore.v ===== *)
(** * The op-log store

    [foundation/src/store.rs]: the log of a workspace file, the clock a handle mints numbers from, and the
    views its reducers fold the log into. A file is shared by the handles of several processes and products:
    [File] is what SQLite holds, [Store] is one handle. A transaction is one step. The rows of [ops] are in
    the order of their [rowid]; triggers refuse to delete one, so the next [rowid] is one above the last. *)

From S2P Require Import Prelude Text Utf8 OpModel Changes.
From stdpp Require Import options.

Notation "' x <-? c ;; k" :=
  (match c with Ok x => k | Err e => Err e end)
  (at level 20, x pattern, c at level 99, k at level 200, only parsing) : run_scope.

Module Stored.
Record Stored := Mk { rowid : Z; op : Op; provenance : Provenance }.
End Stored.
Abbreviation Stored := Stored.Stored (only parsing).

Module Watermark.
Record Watermark := Mk { folded_through : Z; fold_revision : Z; revision_through : Z }.
End Watermark.
Abbreviation Watermark := Watermark.Watermark (only parsing).

Module LogBase.
Record LogBase := Mk {
  relay_position : Z;
  clock : Z;
  residue_count : Z;
  anchor : option string;
  dropped : Z;
  dropped_digest : string;
}.
End LogBase.
Abbreviation LogBase := LogBase.LogBase (only parsing).

Module File.
Record File := Mk {
  schema : Schema;
  ops : list Stored;
  unique_index : bool;
  views : Views;
  view_watermarks : gmap string Watermark;
  log_base : option LogBase;
  user_version : Z;
  application_id : Z;
}.
End File.
Abbreviation File := File.File (only parsing).

Global Instance set_file_ops : Setter File.ops := λ x f,
  File.Mk (File.schema f) x (File.unique_index f) (File.views f) (File.view_watermarks f)
    (File.log_base f) (File.user_version f) (File.application_id f).
Global Instance set_file_unique_index : Setter File.unique_index := λ x f,
  File.Mk (File.schema f) (File.ops f) x (File.views f) (File.view_watermarks f)
    (File.log_base f) (File.user_version f) (File.application_id f).
Global Instance set_file_views : Setter File.views := λ x f,
  File.Mk (File.schema f) (File.ops f) (File.unique_index f) x (File.view_watermarks f)
    (File.log_base f) (File.user_version f) (File.application_id f).
Global Instance set_file_view_watermarks : Setter File.view_watermarks := λ x f,
  File.Mk (File.schema f) (File.ops f) (File.unique_index f) (File.views f) x
    (File.log_base f) (File.user_version f) (File.application_id f).
Global Instance set_file_log_base : Setter File.log_base := λ x f,
  File.Mk (File.schema f) (File.ops f) (File.unique_index f) (File.views f) (File.view_watermarks f)
    x (File.user_version f) (File.application_id f).
Global Instance set_file_application_id : Setter File.application_id := λ x f,
  File.Mk (File.schema f) (File.ops f) (File.unique_index f) (File.views f) (File.view_watermarks f)
    (File.log_base f) (File.user_version f) x.

Module Store.
Record Store {ed : Ed25519} := Mk {
  site : Z;
  clock : Z;
  wall_clock : string;
  reducers : list Reducer;
  views_key : option string;
  emitted_local : bool;
  key : Key;
}.
End Store.
Abbreviation Store := Store.Store (only parsing).

Global Instance set_store_clock `{Ed25519} : Setter Store.clock := λ x s,
  Store.Mk _ (Store.site s) x (Store.wall_clock s) (Store.reducers s) (Store.views_key s)
    (Store.emitted_local s) (Store.key s).
Global Instance set_store_wall_clock `{Ed25519} : Setter Store.wall_clock := λ x s,
  Store.Mk _ (Store.site s) (Store.clock s) x (Store.reducers s) (Store.views_key s)
    (Store.emitted_local s) (Store.key s).
Global Instance set_store_reducers `{Ed25519} : Setter Store.reducers := λ x s,
  Store.Mk _ (Store.site s) (Store.clock s) (Store.wall_clock s) x (Store.views_key s)
    (Store.emitted_local s) (Store.key s).
Global Instance set_store_views_key `{Ed25519} : Setter Store.views_key := λ x s,
  Store.Mk _ (Store.site s) (Store.clock s) (Store.wall_clock s) (Store.reducers s) x
    (Store.emitted_local s) (Store.key s).
Global Instance set_store_emitted_local `{Ed25519} : Setter Store.emitted_local := λ x s,
  Store.Mk _ (Store.site s) (Store.clock s) (Store.wall_clock s) (Store.reducers s) (Store.views_key s)
    x (Store.key s).

Module Ingest.
Inductive Ingest := Folded | Deferred | AlreadySeen | Collided.
End Ingest.
Abbreviation Ingest := Ingest.Ingest (only parsing).

Global Instance ingest_eq_dec : EqDecision Ingest.
Proof. solve_decision. Defined.

(** What a local write does not come back from, and the one refusal it hands back ([Busy]). A panic leaves
    the open transaction to be rolled back. *)
Module Fault.
Inductive Fault :=
| Busy
| BlankAuthor
| ClockOverflow
| NoFreeCoordinate
| CollidedAgain
| FoldFailed (e : SqlError)
| RefusedAgain
| DebugAssert.
End Fault.
Abbreviation Fault := Fault.Fault (only parsing).

Module NeedsHistory.
Inductive NeedsHistory := Rebuild (of_ : string) (recorded ours base : Z).
End NeedsHistory.
Abbreviation NeedsHistory := NeedsHistory.NeedsHistory (only parsing).

Module Target.
Inductive Target := Given (id : string) | Owned (prefix : string).
End Target.
Abbreviation Target := Target.Target (only parsing).

(** What the caller of a local write hands over; [op_id] is the id the generator makes. *)
Module Draft.
Record Draft := Mk {
  op_id : string;
  domain : string;
  target_kind : string;
  target : Target;
  field : string;
  op_type : string;
  value : option string;
  author : string;
}.
End Draft.
Abbreviation Draft := Draft.Draft (only parsing).

(** ** The log *)

(** [MAX] over a column, NULL over no row. *)
Definition max_over (l : list Z) : option Z :=
  match l with [] => None | x :: l => Some (foldl Z.max x l) end.
Definition min_over (l : list Z) : option Z :=
  match l with [] => None | x :: l => Some (foldl Z.min x l) end.

Definition lamports (rows : list Stored) : list Z := (λ row, Op.lamport (Stored.op row)) <$> rows.

Definition is_own (row : Stored) : bool := bool_decide (Stored.provenance row = Provenance.Own).

Definition high_water_mark (file : File) : Z :=
  let bounded := base.filter (λ row, (Op.lamport (Stored.op row) <= MAX_LAMPORT)%Z) (File.ops file) in
  Z.max (Z.max
    (from_option (λ m, Z.min m CLOCK_CEILING) 0%Z (max_over (lamports bounded)))
    (default 0%Z (max_over (lamports (base.filter (λ row, is_own row = true) bounded)))))
    (from_option LogBase.clock 0%Z (File.log_base file)).

Definition at_coordinate (site lamport : Z) (row : Stored) : bool :=
  (Op.site (Stored.op row) =? site)%Z && (Op.lamport (Stored.op row) =? lamport)%Z.

(** [None] where the query's answer is no [i64]. *)
Definition first_free_coordinate (file : File) (site taken : Z) : option Z :=
  let ends := base.filter (λ row,
    Op.site (Stored.op row) = site ∧ (taken <= Op.lamport (Stored.op row))%Z ∧
    existsb (at_coordinate site (Op.lamport (Stored.op row) + 1)) (File.ops file) = false) (File.ops file) in
  m ← min_over (lamports ends);
  if (m <? i64_max)%Z then Some (m + 1)%Z else None.

Definition holds_op (file : File) (op_id : string) : bool :=
  existsb (λ row, bool_decide (Op.op_id (Stored.op row) = op_id)) (File.ops file).

Definition max_op_rowid (file : File) : Z := default 0%Z (max_over (Stored.rowid <$> File.ops file)).

Definition insert_op (file : File) (op : Op) (provenance : Provenance) : option File :=
  if holds_op file (Op.op_id op) ||
     File.unique_index file && existsb (at_coordinate (Op.site op) (Op.lamport op)) (File.ops file)
  then None
  else Some file <| File.ops := File.ops file ++ [Stored.Mk (max_op_rowid file + 1) op provenance] |>.

Definition coordinate_refused (file : File) (op : Op) (own : bool) : bool :=
  existsb (λ row, at_coordinate (Op.site op) (Op.lamport op) row &&
    negb (bool_decide (Op.op_id (Stored.op row) = Op.op_id op)) && (own || is_own row)) (File.ops file).

Definition degrade_coordinate_index (file : File) : File := file <| File.unique_index := false |>.

Definition op_count (file : File) : Z := Z.of_nat (length (File.ops file)).

(** The order [(lamport, site)]; the sorts are stable. *)
Definition op_le (a b : Op) : bool :=
  (Op.lamport a <? Op.lamport b)%Z || ((Op.lamport a =? Op.lamport b) && (Op.site a <=? Op.site b))%Z.
Fixpoint insert_sorted (op : Op) (l : list Op) : list Op :=
  match l with
  | [] => [op]
  | x :: l => if op_le op x then op :: x :: l else x :: insert_sorted op l
  end.
Fixpoint sort_ops (l : list Op) : list Op :=
  match l with
  | [] => []
  | op :: l => insert_sorted op (sort_ops l)
  end.

Definition export (file : File) : list Op := sort_ops (Stored.op <$> File.ops file).

Definition ops_with_ids (file : File) (ids : list string) : list Op :=
  sort_ops (omap (λ id, Stored.op <$>
    find_first (λ row, bool_decide (Op.op_id (Stored.op row) = id)) (File.ops file)) ids).

(** ** Folding *)
Definition fold (file : File) (reducer : Reducer) (op : Op) : result Fault File :=
  match apply_sqlite (File.schema file) (Reducer.changes reducer op) (File.views file) with
  | Ok views => Ok file <| File.views := views |>
  | Err e => Err (Fault.FoldFailed e)
  end.

Definition fold_op (reducers : list Reducer) (file : File) (op : Op) : result Fault File :=
  match folder_for reducers op with
  | Some r => fold file r op
  | None => Ok file
  end.

Fixpoint fold_ops (reducers : list Reducer) (file : File) (ops : list Op) : result Fault File :=
  match ops with
  | [] => Ok file
  | op :: ops => file <-? fold_op reducers file op ;; fold_ops reducers file ops
  end.

Definition fold_whole_log (reducers : list Reducer) (file : File) : result Fault File :=
  fold_ops reducers file (export file).

Definition fold_revision (reducers : list Reducer) : Z := foldr Z.add 0%Z (Reducer.fold_revision <$> reducers).

Definition fold_revision_of (reducers : list Reducer) (domain : string) : option Z :=
  Reducer.fold_revision <$> find_first (λ r, bool_decide (Reducer.domain r = domain)) reducers.

Definition recorded_revision (file : File) (store_id : string) : Z * Z :=
  match File.view_watermarks file !! store_id with
  | Some w => (Watermark.fold_revision w, Watermark.revision_through w)
  | None => (0, 0)%Z
  end.

Definition folded_through (file : File) (store_id : string) : Z :=
  from_option Watermark.folded_through 0%Z (File.view_watermarks file !! store_id).

Definition set_watermark (file : File) (store_id : string) (w : Watermark) : File :=
  file <| File.view_watermarks := <[store_id := w]> (File.view_watermarks file) |>.

Section handles.
Context {ed : Ed25519}.

Definition advance_watermark (store : Store) (file : File) (rowid : Z) : File :=
  match Store.views_key store with
  | None => file
  | Some key =>
      let ours := fold_revision (Store.reducers store) in
      set_watermark file key
        match File.view_watermarks file !! key with
        | None => Watermark.Mk rowid ours rowid
        | Some w => Watermark.Mk (Z.max (Watermark.folded_through w) rowid) (Watermark.fold_revision w)
            (if (Watermark.fold_revision w =? ours)%Z then Z.max (Watermark.revision_through w) rowid
             else Watermark.revision_through w)
        end
  end.

Definition advance_watermark_after (store : Store) (file : File) (rowid : Z) : File :=
  match Store.views_key store with
  | None => file
  | Some key =>
      let ours := fold_revision (Store.reducers store) in
      let rowids := Stored.rowid <$> File.ops file in
      set_watermark file key
        match File.view_watermarks file !! key with
        | None => Watermark.Mk rowid ours
            (if bool_decide (min_over rowids = Some rowid) then rowid else 0%Z)
        | Some w => Watermark.Mk (Z.max (Watermark.folded_through w) rowid) (Watermark.fold_revision w)
            (if (Watermark.fold_revision w =? ours)%Z &&
                (default 0%Z (max_over (base.filter (λ r, (r < rowid)%Z) rowids)) <=?
                   Watermark.revision_through w)%Z
             then Z.max (Watermark.revision_through w) rowid
             else Watermark.revision_through w)
        end
  end.

(** ** The clock *)
Definition tick (store : Store) : result Fault Store :=
  if (Store.clock store <? i64_max)%Z then Ok store <| Store.clock := (Store.clock store + 1)%Z |>
  else Err Fault.ClockOverflow.

Definition refresh_clock (store : Store) (file : File) : Store :=
  let observed := high_water_mark file in
  if (Store.clock store <? observed)%Z then store <| Store.clock := observed |> else store.

Definition open (file : File) (site : Z) (key : Key) : Store :=
  Store.Mk _ site (high_water_mark file) "" [] None false key.

Definition register_reducer (store : Store) (reducer : Reducer) : Store :=
  store <| Store.reducers := Store.reducers store ++ [reducer] |>.

Definition set_wall_clock (store : Store) (now : string) : Store := store <| Store.wall_clock := now |>.

(** ** Taking an operation in *)
Definition take_in (store : Store) (file : File) (op : Op) : result Fault (File * Ingest) :=
  let rowid := max_op_rowid file in
  let folder := folder_for (Store.reducers store) op in
  file <-? match folder with Some r => fold file r op | None => Ok file end ;;
  Ok (advance_watermark_after store file rowid, if folder then Ingest.Folded else Ingest.Deferred).

Definition ingest_in_txn (store : Store) (file : File) (op : Op) (provenance : Provenance) :
    result Fault (File * Ingest) :=
  let own := bool_decide (provenance = Provenance.Own) in
  if negb (File.unique_index file) && coordinate_refused file op own then Ok (file, Ingest.Collided)
  else
    match insert_op file op provenance with
    | Some file => take_in store file op
    | None =>
        if holds_op file (Op.op_id op) then Ok (file, Ingest.AlreadySeen)
        else if coordinate_refused file op own then Ok (file, Ingest.Collided)
        else
          match insert_op (degrade_coordinate_index file) op provenance with
          | Some file => take_in store file op
          | None => Err Fault.RefusedAgain
          end
    end.

Definition observe (store : Store) (op : Op) : Store :=
  if lamport_in_bound op then
    let observed := Z.min (Op.lamport op) CLOCK_CEILING in
    if (Store.clock store <? observed)%Z then store <| Store.clock := observed |> else store
  else store.

(** The operations come back that the store did not take into its views. *)
Fixpoint apply (store : Store) (file : File) (ops : list Op) : result Fault (Store * File * list Op) :=
  match ops with
  | [] => Ok (store, file, [])
  | op :: ops =>
      let store := observe store op in
      '(file, ingest) <-? ingest_in_txn store file op (of_received op) ;;
      '(store, file, deferred) <-? apply store file ops ;;
      let deferred := match ingest with
                      | Ingest.Deferred | Ingest.Collided => op :: deferred
                      | Ingest.Folded | Ingest.AlreadySeen => deferred
                      end in
      Ok (store, file, deferred)
  end.

(** ** Local writes *)

Definition built (store : Store) (draft : Draft) : Op :=
  Op.Mk (Draft.op_id draft) 0 (Store.site store) (Draft.domain draft) (Draft.target_kind draft)
    match Draft.target draft with
    | Target.Given id => id
    | Target.Owned prefix => prefix +:+ Draft.op_id draft
    end
    (Draft.field draft) (Draft.op_type draft) (Draft.value draft) (Draft.author draft)
    (Store.wall_clock store) None None.

Definition with_lamport (op : Op) (lamport : Z) : Op :=
  Op.Mk (Op.op_id op) lamport (Op.site op) (Op.domain op) (Op.target_kind op) (Op.target_id op)
    (Op.field op) (Op.op_type op) (Op.value op) (Op.author op) (Op.wall_clock op) (Op.key_id op) (Op.sig op).

(** One attempt at a coordinate. *)
Definition attempt (store : Store) (file : File) (op : Op) : result Fault (Store * Op * File * Ingest) :=
  store <-? tick store ;;
  let op := seal (Store.key store) (with_lamport op (Store.clock store)) in
  '(file, ingest) <-? ingest_in_txn store file op Provenance.Own ;;
  Ok (store, op, file, ingest).

(** A refused coordinate is stepped over once; a second refusal is a panic. *)
Definition mint (store : Store) (file : File) (op : Op) : result Fault (Store * File * Ingest) :=
  '(store, op, file, ingest) <-? attempt store file op ;;
  if bool_decide (ingest = Ingest.Collided) then
    match first_free_coordinate file (Store.site store) (Op.lamport op) with
    | None => Err Fault.NoFreeCoordinate
    | Some free =>
        '(store, op, file, ingest) <-? attempt store <| Store.clock := (free - 1)%Z |> file op ;;
        if bool_decide (ingest = Ingest.Collided) then Err Fault.CollidedAgain else Ok (store, file, ingest)
    end
  else Ok (store, file, ingest).

(** [locked]: another process holds the write lock through the busy timeout. *)
Definition build_and_ingest (locked : bool) (store : Store) (file : File) (draft : Draft) :
    result Fault (Store * File * (string * Ingest)) :=
  if negb (is_attributable (Draft.author draft)) then Err Fault.BlankAuthor
  else if locked then Err Fault.Busy
  else
    let store := refresh_clock store file in
    let op := built store draft in
    let store := store <| Store.emitted_local := true |> in
    '(store, file, ingest) <-? mint store file op ;;
    Ok (store, file, (Draft.op_id draft, ingest)).

(** [debug]: a build with debug assertions. *)
Definition try_emit (debug locked : bool) (store : Store) (file : File) (draft : Draft) :
    result Fault (Store * File * string) :=
  '(store, file, (op_id, ingest)) <-? build_and_ingest locked store file draft ;;
  if debug && negb (bool_decide (ingest = Ingest.Folded)) then Err Fault.DebugAssert
  else Ok (store, file, op_id).

Definition try_emit_owned (debug locked : bool) (store : Store) (file : File) (draft : Draft)
    (prefix : string) : result Fault (Store * File * string) :=
  '(store, file, (op_id, ingest)) <-? build_and_ingest locked store file
    (Draft.Mk (Draft.op_id draft) (Draft.domain draft) (Draft.target_kind draft) (Target.Owned prefix)
       (Draft.field draft) (Draft.op_type draft) (Draft.value draft) (Draft.author draft)) ;;
  if debug && negb (bool_decide (ingest = Ingest.Folded)) then Err Fault.DebugAssert
  else Ok (store, file, prefix +:+ op_id).

Definition emit_unfolded (debug locked : bool) (store : Store) (file : File) (draft : Draft) :
    result Fault (Store * File * string) :=
  '(store, file, (op_id, ingest)) <-? build_and_ingest locked store file draft ;;
  if debug && negb (bool_decide (ingest = Ingest.Deferred)) then Err Fault.DebugAssert
  else Ok (store, file, op_id).

(** ** Catching up *)
Definition refold (store : Store) (file : File) : result Fault File :=
  fold_whole_log (Store.reducers store) file.

Definition needs_rebuild (store : Store) (file : File) (store_id : string) : bool :=
  let ours := fold_revision (Store.reducers store) in
  let '(recorded, revision_through) := recorded_revision file store_id in
  (recorded <? ours)%Z || ((recorded =? ours) && (revision_through <? max_op_rowid file))%Z.

Definition clear_all (reducers : list Reducer) (views : Views) : Views :=
  foldl (λ views r, clear_views r views) views reducers.

Definition rebuild (store : Store) (file : File) (store_id : string) : result Fault File :=
  file <-? fold_whole_log (Store.reducers store)
    file <| File.views := clear_all (Store.reducers store) (File.views file) |> ;;
  let boundary := max_op_rowid file in
  Ok (set_watermark file store_id
        (Watermark.Mk boundary (fold_revision (Store.reducers store)) boundary)).

(** The inner error is the refusal a based file answers with. *)
Definition bind_views (store : Store) (file : File) (store_id : string) :
    result Fault (Store * File * result NeedsHistory bool) :=
  let store := store <| Store.views_key := Some store_id |> in
  if negb (needs_rebuild store file store_id) then Ok (store, file, Ok false)
  else
    match File.log_base file with
    | Some base =>
        Ok (store, file, Err (NeedsHistory.Rebuild store_id (recorded_revision file store_id).1
              (fold_revision (Store.reducers store)) (LogBase.relay_position base)))
    | None =>
        file <-? rebuild store file store_id ;;
        Ok (store, file, Ok true)
    end.

Definition refold_if_behind (store : Store) (file : File) (store_id : string) :
    result Fault (Store * File * result NeedsHistory unit) :=
  '(store, file, bound) <-? bind_views store file store_id ;;
  match bound with
  | Err e => Ok (store, file, Err e)
  | Ok true => Ok (store, file, Ok tt)
  | Ok false =>
      let boundary := max_op_rowid file in
      if (folded_through file store_id <? boundary)%Z then
        file <-? refold store file ;;
        Ok (store, advance_watermark store file boundary, Ok tt)
      else Ok (store, file, Ok tt)
  end.

Definition force_refold (store : Store) (file : File) (store_id : string) :
    result Fault (Store * File * result NeedsHistory unit) :=
  '(store, file, bound) <-? bind_views store file store_id ;;
  match bound with
  | Err e => Ok (store, file, Err e)
  | Ok true => Ok (store, file, Ok tt)
  | Ok false =>
      file <-? refold store file ;;
      Ok (store, advance_watermark store file (max_op_rowid file), Ok tt)
  end.

(** ** Signing again *)
Definition update_op (file : File) (op_id : string) (f : Stored → Stored) : File :=
  file <| File.ops := (λ row, if bool_decide (Op.op_id (Stored.op row) = op_id) then f row else row)
                      <$> File.ops file |>.

Definition with_seal (op sealed : Op) : Op :=
  Op.Mk (Op.op_id op) (Op.lamport op) (Op.site op) (Op.domain op) (Op.target_kind op) (Op.target_id op)
    (Op.field op) (Op.op_type op) (Op.value op) (Op.author op) (Op.wall_clock op)
    (Op.key_id sealed) (Op.sig sealed).

Definition reseal_one (store : Store) (file : File) (op : Op) : File :=
  match find_first (λ row, bool_decide (Op.op_id (Stored.op row) = Op.op_id op)) (File.ops file) with
  | None => file
  | Some row =>
      if is_own row then
        update_op file (Op.op_id op) (λ row, Stored.Mk (Stored.rowid row)
          (with_seal (Stored.op row) (seal (Store.key store) op)) (Stored.provenance row))
      else
        update_op file (Op.op_id op) (λ row, Stored.Mk (Stored.rowid row) (Stored.op row) (of_received op))
  end.
Definition reseal (store : Store) (file : File) (ops : list Op) : File := foldl (reseal_one store) file ops.
End handles.
