(* ===== verification/LogFacts.v ===== *)
(** * The numbers of the log

    What every transaction keeps true of the log of a file, and what a local write can rely on: the
    coordinate it mints is nobody's, is above everything the clock follows, and is within the bound up to
    which operations fold. *)

From S2P Require Import Prelude Text Utf8 OpModel Changes OpStore.
From stdpp Require Import options.

Local Open Scope Z_scope.

(** ** Queries *)
Lemma max_over_spec l m : max_over l = Some m → m ∈ l ∧ ∀ x, x ∈ l → x <= m.
Proof.
  destruct l as [|y l]; [done|]. intros [= <-]. simpl. revert y.
  induction l as [|z l IH]; intros y; simpl.
  - split; [by left|]. intros x ->%list_elem_of_singleton. lia.
  - destruct (IH (Z.max y z)) as [Hin Hle]. split.
    + apply elem_of_cons in Hin as [Heq|Hin]; [|by do 2 right]. rewrite Heq.
      destruct (Z.max_spec y z) as [[_ ->]|[_ ->]]; [by right; left|by left].
    + assert (Z.max y z <= foldl Z.max (Z.max y z) l) by (apply Hle; by left).
      intros x [->|[->|Hx]%elem_of_cons]%elem_of_cons; [lia|lia|]. apply Hle. by right.
Qed.

Lemma max_over_None l : max_over l = None → l = [].
Proof. by destruct l. Qed.

Lemma min_over_spec l m : min_over l = Some m → m ∈ l ∧ ∀ x, x ∈ l → m <= x.
Proof.
  destruct l as [|y l]; [done|]. intros [= <-]. simpl. revert y.
  induction l as [|z l IH]; intros y; simpl.
  - split; [by left|]. intros x ->%list_elem_of_singleton. lia.
  - destruct (IH (Z.min y z)) as [Hin Hle]. split.
    + apply elem_of_cons in Hin as [Heq|Hin]; [|by do 2 right]. rewrite Heq.
      destruct (Z.min_spec y z) as [[_ ->]|[_ ->]]; [by left|by right; left].
    + assert (foldl Z.min (Z.min y z) l <= Z.min y z) by (apply Hle; by left).
      intros x [->|[->|Hx]%elem_of_cons]%elem_of_cons; [lia|lia|]. apply Hle. by right.
Qed.

Lemma min_over_None l : min_over l = None → l = [].
Proof. by destruct l. Qed.

Implicit Types (file : File) (row : Stored) (op : Op).

Definition lamport_of row : Z := Op.lamport (Stored.op row).
Definition site_of row : Z := Op.site (Stored.op row).
Definition id_of row : string := Op.op_id (Stored.op row).

(** A row holds the coordinate. *)
Definition held file (site lamport : Z) : Prop := ∃ row, row ∈ File.ops file ∧ site_of row = site ∧ lamport_of row = lamport.

Lemma at_coordinate_spec site lamport row :
  at_coordinate site lamport row = true ↔ site_of row = site ∧ lamport_of row = lamport.
Proof. unfold at_coordinate. by rewrite andb_true_iff, !Z.eqb_eq. Qed.

Lemma existsb_spec {A} (f : A → bool) l : existsb f l = true ↔ ∃ x, x ∈ l ∧ f x = true.
Proof. rewrite existsb_exists. split; intros (x & Hx & Hf); exists x; by rewrite list_elem_of_In in *. Qed.

Lemma existsb_none {A} (f : A → bool) l : existsb f l = false ↔ ∀ x, x ∈ l → f x = false.
Proof.
  rewrite <-not_true_iff_false, existsb_spec. split.
  - intros H x Hx. destruct (f x) eqn:E; [|done]. exfalso. apply H. by exists x.
  - intros H (x & Hx & E). by rewrite (H x Hx) in E.
Qed.

Lemma held_spec file site lamport :
  existsb (at_coordinate site lamport) (File.ops file) = true ↔ held file site lamport.
Proof. rewrite existsb_spec. unfold held. by setoid_rewrite at_coordinate_spec. Qed.

Lemma holds_op_spec file id : holds_op file id = true ↔ ∃ row, row ∈ File.ops file ∧ id_of row = id.
Proof. unfold holds_op. rewrite existsb_spec. by setoid_rewrite bool_decide_eq_true. Qed.

Lemma coordinate_refused_spec file op own :
  coordinate_refused file op own = true ↔
  ∃ row, row ∈ File.ops file ∧ site_of row = Op.site op ∧ lamport_of row = Op.lamport op ∧
    id_of row ≠ Op.op_id op ∧ (own = true ∨ is_own row = true).
Proof.
  unfold coordinate_refused. rewrite existsb_spec. apply exist_proper. intros row.
  rewrite !andb_true_iff, at_coordinate_spec, negb_true_iff, bool_decide_eq_false, orb_true_iff. naive_solver.
Qed.

(** ** The invariant of a log *)
Record log_ok file : Prop := {
  log_ids : NoDup (id_of <$> File.ops file);
  log_unique : File.unique_index file = true →
    ∀ row row', row ∈ File.ops file → row' ∈ File.ops file →
      site_of row = site_of row' → lamport_of row = lamport_of row' → row = row';
  log_own_coordinates : ∀ row row', row ∈ File.ops file → row' ∈ File.ops file → is_own row = true →
      site_of row = site_of row' → lamport_of row = lamport_of row' → row = row';
  log_rowids : ∀ row, row ∈ File.ops file → 1 <= Stored.rowid row;
  log_rising : StronglySorted (λ a b, Stored.rowid a < Stored.rowid b) (File.ops file);
  log_base_clock : ∀ base, File.log_base file = Some base → 0 <= LogBase.clock base <= CLOCK_CEILING;
}.

(** Above the ceiling a replica's numbers leave no gap, so that they are as many as the rows that hold
    them. *)
Definition dense file (site n : Z) : Prop := ∀ k, CLOCK_CEILING < k <= n → held file site k.

Definition own_dense file (site : Z) : Prop :=
  ∀ row, row ∈ File.ops file → is_own row = true → site_of row = site ∧ dense file site (lamport_of row).

Lemma dense_bound file site n : dense file site n → n <= CLOCK_CEILING + Z.of_nat (length (File.ops file)).
Proof.
  intros H. destruct (Z.le_gt_cases n CLOCK_CEILING) as [|Hn]; [lia|].
  assert (∀ k, k ∈ seqZ (CLOCK_CEILING + 1) (n - CLOCK_CEILING) → k ∈ lamport_of <$> File.ops file) as Hsub.
  { intros k Hk%elem_of_seqZ. destruct (H k) as (row & Hrow & _ & <-); [lia|]. by apply list_elem_of_fmap_2. }
  assert (Hlen := NoDup_submseteq _ _ (NoDup_seqZ _ _) Hsub).
  apply submseteq_length in Hlen. rewrite length_fmap, length_seqZ in Hlen. lia.
Qed.

(** ** The high-water mark *)
Lemma lamports_elem rows row : row ∈ rows → lamport_of row ∈ lamports rows.
Proof. intros H. unfold lamports. by apply (list_elem_of_fmap_2 (λ row, Op.lamport (Stored.op row))). Qed.

Lemma lamports_inv rows x : x ∈ lamports rows → ∃ row, row ∈ rows ∧ x = lamport_of row.
Proof. intros (row & -> & Hrow)%list_elem_of_fmap. by exists row. Qed.

Lemma max_lamports_ge rows row : row ∈ rows → ∃ m, max_over (lamports rows) = Some m ∧ lamport_of row <= m.
Proof.
  intros Hrow. destruct (max_over (lamports rows)) as [m|] eqn:E.
  - exists m. split; [done|]. by apply (max_over_spec _ _ E), lamports_elem.
  - apply max_over_None in E. apply lamports_elem in Hrow. rewrite E in Hrow. by apply not_elem_of_nil in Hrow.
Qed.

Lemma high_water_mark_received file row :
  row ∈ File.ops file → lamport_of row <= CLOCK_CEILING → lamport_of row <= high_water_mark file.
Proof.
  intros Hrow Hle. unfold high_water_mark.
  set (rows := base.filter (λ row, Op.lamport (Stored.op row) <= MAX_LAMPORT) (File.ops file)).
  destruct (max_lamports_ge rows row) as (m & E & Hm).
  { apply list_elem_of_filter. split; [|done]. change (lamport_of row <= MAX_LAMPORT).
    etrans; [exact Hle|]. by vm_compute. }
  rewrite E. simpl. lia.
Qed.

Lemma high_water_mark_own file row :
  row ∈ File.ops file → is_own row = true → lamport_of row <= MAX_LAMPORT → lamport_of row <= high_water_mark file.
Proof.
  intros Hrow Hown Hle. unfold high_water_mark.
  set (rows := base.filter (λ row, Op.lamport (Stored.op row) <= MAX_LAMPORT) (File.ops file)).
  destruct (max_lamports_ge (base.filter (λ row, is_own row = true) rows) row) as (m & E & Hm).
  { apply list_elem_of_filter. split; [done|]. apply list_elem_of_filter. by split. }
  rewrite E. simpl. lia.
Qed.

Lemma high_water_mark_nonneg file : log_ok file → 0 <= high_water_mark file.
Proof.
  intros Hok. unfold high_water_mark. destruct (File.log_base file) as [base|] eqn:E; simpl; [|lia].
  apply (log_base_clock _ Hok) in E. lia.
Qed.

Lemma high_water_mark_dense file site : log_ok file → own_dense file site → dense file site (high_water_mark file).
Proof.
  intros Hok Hd k Hk. unfold high_water_mark in Hk.
  set (rows := base.filter (λ row, Op.lamport (Stored.op row) <= MAX_LAMPORT) (File.ops file)) in Hk.
  assert (0 <= CLOCK_CEILING) by by vm_compute.
  assert (from_option (λ m, Z.min m CLOCK_CEILING) 0 (max_over (lamports rows)) <= CLOCK_CEILING)
    by (destruct (max_over _); simpl; lia).
  assert (from_option LogBase.clock 0 (File.log_base file) <= CLOCK_CEILING).
  { destruct (File.log_base file) as [base|] eqn:E; simpl; [|lia]. apply (log_base_clock _ Hok) in E. lia. }
  destruct (max_over (lamports (base.filter (λ row, is_own row = true) rows))) as [m|] eqn:E; simpl in Hk; [|lia].
  apply max_over_spec in E as [(row & Hrow & ->)%lamports_inv _].
  apply list_elem_of_filter in Hrow as [Hown [_ Hrow]%list_elem_of_filter].
  apply (Hd row Hrow Hown). lia.
Qed.

(** ** The first free coordinate *)
Lemma last_of_run file site taken :
  held file site taken →
  ∃ row, row ∈ File.ops file ∧ site_of row = site ∧ taken <= lamport_of row ∧ ¬ held file site (lamport_of row + 1).
Proof.
  intros (row & Hrow & Hs & <-).
  set (rows := base.filter (λ r, site_of r = site ∧ lamport_of row <= lamport_of r) (File.ops file)).
  destruct (max_lamports_ge rows row) as (m & E & Hm).
  { apply list_elem_of_filter. split; [|done]. split; [done|lia]. }
  apply max_over_spec in E as [(last & Hlast & ->)%lamports_inv Hmax].
  apply list_elem_of_filter in Hlast as [[Hls Hll] Hlast]. exists last. repeat split; [done..|].
  intros (next & Hnext & Hns & Hnl). assert (lamport_of next <= lamport_of last); [|lia].
  apply Hmax, lamports_elem, list_elem_of_filter. split; [|done]. split; [done|lia].
Qed.

Lemma first_free_spec file site taken :
  held file site taken → dense file site taken → CLOCK_CEILING < taken →
  Z.of_nat (length (File.ops file)) < CLOCK_CEILING →
  ∃ free, first_free_coordinate file site taken = Some free ∧ taken < free ∧ ¬ held file site free ∧
    dense file site (free - 1).
Proof.
  intros Hheld Hdense Hceil Hlen. unfold first_free_coordinate.
  set (ends := base.filter _ (File.ops file)).
  assert (∀ row, row ∈ ends ↔ row ∈ File.ops file ∧ site_of row = site ∧ taken <= lamport_of row ∧
    ¬ held file site (lamport_of row + 1)) as Hends.
  { intros row. unfold ends. rewrite list_elem_of_filter, <-held_spec, not_true_iff_false. unfold site_of, lamport_of.
    naive_solver. }
  destruct (min_over (lamports ends)) as [m|] eqn:E; simpl.
  2:{ destruct (last_of_run file site taken Hheld) as (row & Hrow).
      assert (row ∈ ends) as Hin%lamports_elem by (apply Hends; naive_solver).
      apply min_over_None in E. rewrite E in Hin. by apply not_elem_of_nil in Hin. }
  apply min_over_spec in E as [(row & Hrow & ->)%lamports_inv Hmin].
  apply Hends in Hrow as (Hrow & Hsite & Hle & Hnot).
  assert (∀ n : nat, taken + Z.of_nat n <= lamport_of row → held file site (taken + Z.of_nat n)) as Hrun.
  { induction n as [|n IH]; intros Hn; [by rewrite Z.add_0_r|].
    destruct IH as (r & Hr & Hrs & Hrl); [lia|].
    destruct (existsb (at_coordinate site (lamport_of r + 1)) (File.ops file)) eqn:Ex.
    - apply held_spec in Ex. replace (taken + Z.of_nat (S n)) with (lamport_of r + 1) by lia. done.
    - assert (lamport_of row <= lamport_of r); [|lia]. apply Hmin, lamports_elem, Hends.
      rewrite <-held_spec, Ex. repeat split; [done..|lia|done]. }
  assert (dense file site (lamport_of row)) as Hd.
  { intros k Hk. destruct (Z.le_gt_cases k taken); [apply Hdense; lia|].
    replace k with (taken + Z.of_nat (Z.to_nat (k - taken))) by lia. apply Hrun. lia. }
  assert (Hb := dense_bound _ _ _ Hd).
  assert (CLOCK_CEILING + CLOCK_CEILING < i64_max) by by vm_compute.
  rewrite (proj2 (Z.ltb_lt _ _)) by lia. exists (lamport_of row + 1). repeat split; [lia|done|].
  by replace (lamport_of row + 1 - 1) with (lamport_of row) by lia.
Qed.

(** ** Taking an operation in *)

(** Every operation a reducer of the handle folds, its changes carry out. *)
Definition folds_total (schema : Schema) (reducers : list Reducer) : Prop :=
  ∀ op r views, folder_for reducers op = Some r →
    ∃ views', apply_sqlite schema (Reducer.changes r op) views = Ok views'.

Definition appended file op (provenance : Provenance) : File :=
  file <| File.ops := File.ops file ++ [Stored.Mk (max_op_rowid file + 1) op provenance] |>.

(** The parts of a file a fold leaves alone. *)
Definition same_log file file' : Prop :=
  File.ops file' = File.ops file ∧ File.schema file' = File.schema file ∧
  File.unique_index file' = File.unique_index file ∧ File.log_base file' = File.log_base file.

Lemma same_log_ok file file' : same_log file file' → log_ok file → log_ok file'.
Proof. intros (Ho & _ & Hu & Hb) []. split; by rewrite ?Ho, ?Hu, ?Hb. Qed.

Lemma fold_same_log file r op file' : fold file r op = Ok file' → same_log file file'.
Proof. unfold fold. case_match; intros; by simplify_eq. Qed.

Lemma set_watermark_same_log file key w : same_log file (set_watermark file key w).
Proof. done. Qed.

Section handles.
Local Unset Default Proof Using.
Context {ed : Ed25519}.
Implicit Type store : Store.

Lemma advance_after_same_log store file rowid : same_log file (advance_watermark_after store file rowid).
Proof. unfold advance_watermark_after. by case_match. Qed.

Lemma advance_same_log store file rowid : same_log file (advance_watermark store file rowid).
Proof. unfold advance_watermark. by case_match. Qed.

Lemma same_log_trans file1 file2 file3 : same_log file1 file2 → same_log file2 file3 → same_log file1 file3.
Proof. unfold same_log. intuition congruence. Qed.

(** The views an operation leaves. *)
Definition folded_into store file op (views : Views) : Prop :=
  match folder_for (Store.reducers store) op with
  | Some r => apply_sqlite (File.schema file) (Reducer.changes r op) (File.views file) = Ok views
  | None => views = File.views file
  end.

Lemma advance_after_views store file rowid : File.views (advance_watermark_after store file rowid) = File.views file.
Proof. unfold advance_watermark_after. by case_match. Qed.

Lemma take_in_total store file op :
  folds_total (File.schema file) (Store.reducers store) →
  ∃ file', take_in store file op =
    Ok (file', if folder_for (Store.reducers store) op then Ingest.Folded else Ingest.Deferred) ∧
    same_log file file' ∧ folded_into store file op (File.views file').
Proof.
  intros Ht. unfold take_in, folded_into. destruct (folder_for (Store.reducers store) op) as [r|] eqn:E.
  - unfold fold. destruct (Ht op r (File.views file) E) as (views & Hv). rewrite Hv. eexists. split; [done|].
    rewrite advance_after_views. split; [|done].
    eapply same_log_trans; [|apply advance_after_same_log]. done.
  - eexists. split; [done|]. rewrite advance_after_views. split; [apply advance_after_same_log|done].
Qed.

Lemma insert_op_fresh file op provenance :
  holds_op file (Op.op_id op) = false →
  insert_op file op provenance =
  if File.unique_index file && existsb (at_coordinate (Op.site op) (Op.lamport op)) (File.ops file)
  then None else Some (appended file op provenance).
Proof. unfold insert_op. by intros ->. Qed.

(** A local operation is refused exactly where somebody holds its coordinate. *)
Lemma ingest_own store file op :
  holds_op file (Op.op_id op) = false →
  ingest_in_txn store file op Provenance.Own =
  if existsb (at_coordinate (Op.site op) (Op.lamport op)) (File.ops file) then Ok (file, Ingest.Collided)
  else take_in store (appended file op Provenance.Own) op.
Proof.
  intros Hfresh. unfold ingest_in_txn. rewrite bool_decide_eq_true_2 by done.
  assert (coordinate_refused file op true = existsb (at_coordinate (Op.site op) (Op.lamport op)) (File.ops file)) as Hr.
  { apply eq_bool_prop_intro. rewrite !Is_true_true, coordinate_refused_spec, held_spec. split.
    - intros (row & Hrow & Hs & Hl & _). by exists row.
    - intros (row & Hrow & Hs & Hl). exists row. repeat split; [done..| |by left].
      intros Hid. assert (holds_op file (Op.op_id op) = true); [|congruence]. apply holds_op_spec. by exists row. }
  rewrite Hr, insert_op_fresh, Hfresh by done. by destruct (File.unique_index file), (existsb _ _).
Qed.

Lemma id_of_fresh file op row : holds_op file (Op.op_id op) = false → row ∈ File.ops file → id_of row ≠ Op.op_id op.
Proof. intros Hf Hrow Heq. assert (holds_op file (Op.op_id op) = true); [|congruence]. apply holds_op_spec. by exists row. Qed.

Lemma max_op_rowid_ge file row : row ∈ File.ops file → Stored.rowid row <= max_op_rowid file.
Proof.
  intros Hrow. apply (list_elem_of_fmap_2 Stored.rowid) in Hrow. unfold max_op_rowid.
  destruct (max_over _) as [m|] eqn:E; simpl; [by apply (max_over_spec _ _ E)|].
  apply max_over_None in E. rewrite E in Hrow. by apply not_elem_of_nil in Hrow.
Qed.

Lemma max_op_rowid_nonneg file : log_ok file → 0 <= max_op_rowid file.
Proof.
  intros Hok. unfold max_op_rowid. destruct (max_over _) as [m|] eqn:E; simpl; [|lia].
  apply max_over_spec in E as [(row & -> & Hrow)%list_elem_of_fmap _]. apply (log_rowids _ Hok) in Hrow. lia.
Qed.

Lemma rising_snoc rows row :
  StronglySorted (λ a b, Stored.rowid a < Stored.rowid b) rows →
  (∀ r, r ∈ rows → Stored.rowid r < Stored.rowid row) →
  StronglySorted (λ a b, Stored.rowid a < Stored.rowid b) (rows ++ [row]).
Proof.
  induction 1 as [|r rows Hs IH Hall]; intros Hlt; simpl; [by repeat constructor|].
  constructor; [apply IH; set_solver|]. apply Forall_app. split; [done|]. apply Forall_singleton. apply Hlt. by left.
Qed.

(** The invariant takes an operation in that is fresh, and whose coordinate is free as far as it has to be. *)
Lemma appended_log_ok file op provenance :
  log_ok file → holds_op file (Op.op_id op) = false →
  (File.unique_index file = true → ¬ held file (Op.site op) (Op.lamport op)) →
  coordinate_refused file op (bool_decide (provenance = Provenance.Own)) = false →
  log_ok (appended file op provenance).
Proof.
  intros Hok Hfresh Hu Hr.
  assert (∀ row, row ∈ File.ops (appended file op provenance) ↔
    row ∈ File.ops file ∨ row = Stored.Mk (max_op_rowid file + 1) op provenance) as Hin.
  { intros row. unfold appended. simpl. rewrite elem_of_app. by rewrite list_elem_of_singleton. }
  assert (∀ row, row ∈ File.ops file → is_own row = true ∨ provenance = Provenance.Own →
    site_of row = Op.site op → lamport_of row = Op.lamport op → False) as Hown.
  { intros row Hrow Ho Hs Hl. apply not_true_iff_false in Hr. apply Hr, coordinate_refused_spec.
    exists row. repeat split; [done..|by eapply id_of_fresh|]. rewrite bool_decide_eq_true. tauto. }
  split.
  - unfold appended. simpl. rewrite fmap_app. apply NoDup_app. split; [apply Hok|]. split.
    + intros id Hid ->%list_elem_of_singleton. apply list_elem_of_fmap in Hid as (row & Hid & Hrow).
      by eapply id_of_fresh.
    + apply NoDup_singleton.
  - intros Huniq row row' [Hr1| ->]%Hin [Hr2| ->]%Hin Hs Hl; [by apply (log_unique _ Hok)| | |done];
      exfalso; apply (Hu Huniq); [exists row|exists row']; done.
  - intros row row' [Hr1| ->]%Hin [Hr2| ->]%Hin Ho Hs Hl; [by apply (log_own_coordinates _ Hok)| | |done]; exfalso.
    + eapply (Hown row); auto.
    + apply bool_decide_eq_true in Ho. eapply (Hown row'); auto.
  - assert (Hn := max_op_rowid_nonneg _ Hok). intros row [Hrow| ->]%Hin; [by apply (log_rowids _ Hok)|]. simpl. lia.
  - unfold appended. simpl. apply rising_snoc; [apply Hok|]. intros row Hrow. apply max_op_rowid_ge in Hrow. simpl. lia.
  - apply Hok.
Qed.
End handles.

(** ** Local writes land

    [build_and_ingest]: a local write takes a coordinate nobody holds, stepping over a squatted run at most
    once, and its number is above all the clock follows and within the bound that folds. *)
Lemma ceiling_below_bound : CLOCK_CEILING + CLOCK_CEILING = MAX_LAMPORT ∧ MAX_LAMPORT < i64_max ∧ 0 < CLOCK_CEILING.
Proof. by vm_compute. Qed.

Section minting.
Local Unset Default Proof Using.
Context {ed : Ed25519}.
Implicit Types (store : Store).

(** A file as a handle of site [site] finds it, and what it may hold. *)
Record writable file (site : Z) : Prop := {
  writable_log : log_ok file;
  writable_own : own_dense file site;
  writable_room : Z.of_nat (length (File.ops file)) < CLOCK_CEILING;
}.

(** A handle's clock runs ahead of the ceiling only over numbers its site holds. *)
Definition clock_ok store file : Prop := dense file (Store.site store) (Store.clock store).

Definition stamped store op (n : Z) : Op := seal (Store.key store) (with_lamport op n).

Definition verdict_of store op : Ingest :=
  if folder_for (Store.reducers store) op then Ingest.Folded else Ingest.Deferred.

(** What the log is after an operation landed in it. *)
Definition landed store file file' op : Prop :=
  same_log (appended file op Provenance.Own) file' ∧ folded_into store file op (File.views file').

Lemma attempt_spec store file op :
  Store.clock store < i64_max → holds_op file (Op.op_id op) = false →
  folds_total (File.schema file) (Store.reducers store) →
  let n := Store.clock store + 1 in
  let store' := store <| Store.clock := n |> in
  if existsb (at_coordinate (Op.site op) n) (File.ops file)
  then attempt store file op = Ok (store', stamped store op n, file, Ingest.Collided)
  else ∃ file', attempt store file op =
      Ok (store', stamped store op n, file', verdict_of store (stamped store op n)) ∧
      landed store file file' (stamped store op n).
Proof.
  intros Hclock Hfresh Ht n store'. unfold attempt, tick. rewrite (proj2 (Z.ltb_lt _ _)) by done.
  fold n. fold store'. change (Store.clock store') with n. change (Store.key store') with (Store.key store).
  fold (stamped store op n). rewrite ingest_own by done.
  change (Op.site (stamped store op n)) with (Op.site op). change (Op.lamport (stamped store op n)) with n.
  destruct (existsb (at_coordinate (Op.site op) n) (File.ops file)); [done|].
  destruct (take_in_total store' (appended file (stamped store op n) Provenance.Own) (stamped store op n))
    as (file' & Etake & Hsame & Hinto); [done|].
  exists file'. split; [|done]. rewrite Etake. done.
Qed.

Lemma refreshed_clock store file :
  writable file (Store.site store) → clock_ok store file →
  let store' := refresh_clock store file in
  high_water_mark file <= Store.clock store' ∧ clock_ok store' file ∧ Store.site store' = Store.site store ∧
  Store.key store' = Store.key store ∧ Store.reducers store' = Store.reducers store ∧
  Store.wall_clock store' = Store.wall_clock store.
Proof.
  intros Hw Hc. unfold refresh_clock. destruct (Z.ltb_spec (Store.clock store) (high_water_mark file)) as [Hlt|Hge].
  - repeat split; [done|]. apply high_water_mark_dense; apply Hw.
  - done.
Qed.

(** A number the clock hands out next is above all it follows. *)
Lemma above_followed file site clock row :
  writable file site → high_water_mark file <= clock → row ∈ File.ops file →
  lamport_of row <= CLOCK_CEILING ∨ is_own row = true → lamport_of row < clock + 1.
Proof.
  intros Hw Hc Hrow H. assert (lamport_of row <= high_water_mark file); [|lia].
  destruct H as [H|H]; [by apply high_water_mark_received|]. apply high_water_mark_own; [done..|].
  assert (Hd := dense_bound _ _ _ (proj2 (writable_own _ _ Hw row Hrow H))).
  assert (Hr := writable_room _ _ Hw). assert (Hb := ceiling_below_bound). lia.
Qed.

Lemma landed_ops store file file' op :
  landed store file file' op → File.ops file' = File.ops file ++ [Stored.Mk (max_op_rowid file + 1) op Provenance.Own].
Proof. by intros [[-> _] _]. Qed.

Lemma landed_held store file file' op site n :
  landed store file file' op → held file site n ∨ (Op.site op = site ∧ Op.lamport op = n) → held file' site n.
Proof.
  intros Ho%landed_ops H. unfold held. rewrite Ho. setoid_rewrite elem_of_app.
  destruct H as [(row & Hrow & Hs & Hl)|[<- <-]].
  - exists row. split; [by left|done].
  - eexists. split; [right; by left|done].
Qed.

Lemma landed_dense store file file' op site n :
  landed store file file' op → Op.site op = site → Op.lamport op = n → dense file site (n - 1) → dense file' site n.
Proof.
  intros Hl Hs Hn Hd k Hk. eapply landed_held; [done|].
  destruct (Z.eq_dec k n) as [->|Hne]; [by right|]. left. apply Hd. lia.
Qed.

Lemma landed_writable store file file' op site :
  writable file site → landed store file file' op → holds_op file (Op.op_id op) = false →
  ¬ held file (Op.site op) (Op.lamport op) → Op.site op = site → dense file site (Op.lamport op - 1) →
  log_ok file' ∧ own_dense file' site.
Proof.
  intros Hw Hl Hfresh Hfree Hs Hd. split.
  - eapply same_log_ok; [apply Hl|]. apply appended_log_ok; [apply Hw|done|done|].
    apply not_true_iff_false. intros (row & Hrow & Hrs & Hrl & _)%coordinate_refused_spec. apply Hfree. by exists row.
  - intros row Hrow Hown. rewrite (landed_ops _ _ _ _ Hl) in Hrow. apply elem_of_app in Hrow as [Hrow|Hrow].
    + destruct (writable_own _ _ Hw row Hrow Hown) as [Hrs Hrd]. split; [done|].
      intros k Hk. eapply landed_held; [done|]. left. by apply Hrd.
    + apply list_elem_of_singleton in Hrow as ->. split; [done|]. by eapply landed_dense.
Qed.

(** What a local write comes to. *)
Record written store file (draft : Draft) store' file' op : Prop := {
  written_log : File.ops file' = File.ops file ++ [Stored.Mk (max_op_rowid file + 1) op Provenance.Own];
  written_op : op = stamped store (built store draft) (Op.lamport op);
  written_bounds : 1 <= Op.lamport op <= MAX_LAMPORT;
  written_free : ¬ held file (Store.site store) (Op.lamport op);
  written_above : ∀ row, row ∈ File.ops file → lamport_of row <= CLOCK_CEILING ∨ is_own row = true →
    lamport_of row < Op.lamport op;
  written_ok : log_ok file' ∧ own_dense file' (Store.site store);
  written_views : folded_into store file op (File.views file');
  written_clock : clock_ok store' file' ∧ Store.site store' = Store.site store ∧ Store.clock store' = Op.lamport op;
}.

Lemma mint_spec store file op :
  writable file (Store.site store) → clock_ok store file → high_water_mark file <= Store.clock store →
  folds_total (File.schema file) (Store.reducers store) → holds_op file (Op.op_id op) = false →
  Op.site op = Store.site store →
  ∃ n file', mint store file op = Ok (store <| Store.clock := n |>, file', verdict_of store (stamped store op n)) ∧
    landed store file file' (stamped store op n) ∧ Store.clock store < n ∧ ¬ held file (Store.site store) n ∧
    dense file (Store.site store) (n - 1).
Proof.
  intros Hw Hc Hh Ht Hfresh Hsite. assert (Hb := ceiling_below_bound). assert (Hr := writable_room _ _ Hw).
  assert (Hcb := dense_bound _ _ _ Hc). unfold mint.
  assert (Ha := attempt_spec store file op ltac:(lia) Hfresh Ht). cbv zeta in Ha. rewrite Hsite in Ha.
  set (n := Store.clock store + 1) in *.
  assert (dense file (Store.site store) (n - 1)) as Hd1 by (unfold n; by rewrite Z.add_simpl_r).
  destruct (existsb (at_coordinate (Store.site store) n) (File.ops file)) eqn:Eheld.
  - rewrite Ha. rewrite bool_decide_eq_true_2 by done.
    change (Op.lamport (stamped store op n)) with n. change (Store.site store <| Store.clock := n |>) with (Store.site store).
    apply held_spec in Eheld.
    assert (CLOCK_CEILING < n) as Hceil.
    { destruct Eheld as (row & Hrow & _ & Hl). destruct (Z.le_gt_cases n CLOCK_CEILING) as [Hle|]; [|lia].
      assert (lamport_of row < n); [|lia]. eapply above_followed; [done..|]. left. lia. }
    destruct (first_free_spec file (Store.site store) n) as (free & -> & Hlt & Hfree & Hd); [done| |done|done|].
    { intros k Hk. destruct (Z.eq_dec k n) as [->|]; [done|]. apply Hd1. lia. }
    assert (Hfb := dense_bound _ _ _ Hd).
    assert (free - 1 < i64_max) as Hmax by lia.
    assert (Ha2 := attempt_spec store <| Store.clock := free - 1 |> file (stamped store op n) Hmax Hfresh Ht).
    cbv zeta in Ha2. simpl in Ha2. rewrite Hsite, Z.sub_add in Ha2.
    destruct (existsb _ _) eqn:E2; [by apply held_spec in E2|].
    destruct Ha2 as (file' & Ha2 & Hl). exists free, file'.
    change (stamped store <| Store.clock := free - 1 |> (stamped store op n) free) with (stamped store op free) in Ha2, Hl.
    change (store <| Store.clock := n |> <| Store.clock := free - 1 |>) with (store <| Store.clock := free - 1 |>).
    rewrite Ha2. split_and!; [|exact Hl|lia|done|done].
    unfold verdict_of. cbn. by destruct (folder_for _ _).
  - destruct Ha as (file' & Ha & Hl). exists n, file'. rewrite Ha. split_and!; [|exact Hl|lia| |done].
    + unfold verdict_of. by destruct (folder_for _ _).
    + rewrite <-held_spec. by rewrite Eheld.
Qed.

Lemma build_and_ingest_spec store file draft :
  writable file (Store.site store) → clock_ok store file →
  folds_total (File.schema file) (Store.reducers store) →
  is_attributable (Draft.author draft) = true → holds_op file (Draft.op_id draft) = false →
  ∃ store' file' op,
    build_and_ingest false store file draft = Ok (store', file', (Draft.op_id draft, verdict_of store op)) ∧
    written store file draft store' file' op.
Proof.
  intros Hw Hc Ht Ha Hfresh. unfold build_and_ingest. rewrite Ha. simpl.
  destruct (refreshed_clock store file Hw Hc) as (Hhigh & Hc' & Hsite & Hkey & Hred & Hwall).
  set (s := refresh_clock store file) in *.
  assert (built s draft = built store draft) as -> by (unfold built; by rewrite Hsite, Hwall).
  destruct (mint_spec s <| Store.emitted_local := true |> file (built store draft)) as (n & file' & -> & Hl & Hlt & Hfree & Hd).
  { simpl. by rewrite Hsite. } { done. } { done. } { simpl. by rewrite Hred. } { done. } { simpl. by rewrite Hsite. }
  simpl in *. rewrite Hsite in Hfree, Hd.
  assert (stamped s <| Store.emitted_local := true |> (built store draft) n = stamped store (built store draft) n) as Hst
    by (unfold stamped; simpl; by rewrite Hkey).
  rewrite Hst in Hl. assert (Hb := ceiling_below_bound). assert (Hr := writable_room _ _ Hw).
  assert (Hnn := high_water_mark_nonneg _ (writable_log _ _ Hw)).
  assert (Hdb := dense_bound _ _ _ Hd).
  eexists _, file', (stamped store (built store draft) n). split.
  { unfold verdict_of. simpl. rewrite Hst, Hred. done. }
  split; simpl.
  - by eapply landed_ops.
  - done.
  - lia.
  - done.
  - intros row Hrow Hf. assert (Hab := above_followed _ _ (Store.clock s) _ Hw Hhigh Hrow Hf). lia.
  - eapply landed_writable; done.
  - destruct Hl as [_ Hl]. revert Hl. unfold folded_into. simpl. by rewrite Hred.
  - split; [|done]. unfold clock_ok. simpl. rewrite Hsite. by eapply landed_dense.
Qed.
End minting.
