(* ===== verification/Convergence.v ===== *)
(** * Reducers that converge

    What the store relies on in a reducer, as a class: its changes can always be carried out, operations of
    different coordinates commute, an operation that has been folded stays folded, and a fold keeps to the
    reducer's own tables. What follows is that the views are a function of the log: folding it in the order
    it was taken in, in the order it is exported, or over views that hold it already comes to the same. *)

From S2P Require Import Prelude Text Utf8 OpModel Changes ChangeFacts OpStore LogFacts.
From stdpp Require Import options.

Implicit Types (op : Op) (views : Views) (r : Reducer).

(** What replicas guarantee of the operations of one log: an id names one operation. *)
Definition ids_apart op1 op2 : Prop := Op.op_id op1 = Op.op_id op2 → op1 = op2.

(** And a coordinate does, but for histories of one site that used one twice. *)
Definition compatible op1 op2 : Prop :=
  ids_apart op1 op2 ∧ (Op.lamport op1 = Op.lamport op2 → Op.site op1 = Op.site op2 → op1 = op2).

(** Numbers start at 1. *)
Definition minted op : Prop := (1 <= Op.lamport op)%Z.

(** The tables of a reducer. *)
Definition own_views r views : Views := base.filter (λ p, p.1 ∈ Reducer.view_tables r) views.

Definition fresh_views r : Views := clear_views r ∅.

Lemma carry_out_own r views w :
  Write.table w ∈ Reducer.view_tables r → own_views r (carry_out views w) = carry_out (own_views r views) w.
Proof.
  intros Hp. unfold own_views, carry_out. rewrite map_filter_insert_True by done.
  assert (∀ views : Views, base.filter (λ p, p.1 ∈ Reducer.view_tables r) views !! Write.table w = views !! Write.table w) as Heq.
  { intros v. destruct (v !! Write.table w) as [rows|] eqn:E.
    - by apply map_lookup_filter_Some.
    - apply map_lookup_filter_None. by left. }
  by rewrite Heq.
Qed.

Lemma carry_all_own r views ws :
  (∀ w, w ∈ ws → Write.table w ∈ Reducer.view_tables r) →
  own_views r (carry_all views ws) = carry_all (own_views r views) ws.
Proof.
  unfold carry_all. revert views; induction ws as [|w ws IH]; intros views Hw; simpl; [done|].
  rewrite IH by set_solver. f_equal. apply carry_out_own. set_solver.
Qed.

Lemma carry_all_other views ws t : (∀ w, w ∈ ws → Write.table w ≠ t) → carry_all views ws !! t = views !! t.
Proof.
  unfold carry_all. revert views; induction ws as [|w ws IH]; intros views Hw; simpl; [done|].
  rewrite IH by set_solver. apply carry_out_other. intros ->. apply (Hw w); [by left|done].
Qed.

Class Convergent (schema : Schema) (r : Reducer) := {
  folded : Views → Op → Views;
  settled_op : Views → Op → Prop;
  folded_ok op views :
    Reducer.is_foldable r op = true →
    apply_sqlite schema (Reducer.changes r op) views = Ok (folded views op);
  folded_commute op1 op2 :
    Reducer.is_foldable r op1 = true → Reducer.is_foldable r op2 = true →
    minted op1 → minted op2 → compatible op1 op2 → commute folded op1 op2;
  settled_folded views op :
    Reducer.is_foldable r op = true → minted op → settled_op (folded views op) op;
  settled_op_stays views op1 op2 :
    Reducer.is_foldable r op1 = true → Reducer.is_foldable r op2 = true →
    minted op1 → minted op2 → ids_apart op1 op2 → settled_op views op1 → settled_op (folded views op2) op1;
  settled_nothing views op : settled_op views op → folded views op = views;
  folded_own views op :
    Reducer.is_foldable r op = true → own_views r (folded views op) = folded (own_views r views) op;
  folded_other views op t :
    Reducer.is_foldable r op = true → t ∉ Reducer.view_tables r → folded views op !! t = views !! t;
}.

Lemma folder_for_single r op r' :
  folder_for [r] op = Some r' ↔
  r' = r ∧ lamport_in_bound op = true ∧ Reducer.domain r = Op.domain op ∧ Reducer.is_foldable r op = true.
Proof.
  unfold folder_for. simpl. destruct (lamport_in_bound op); simpl; [|naive_solver].
  case_bool_decide; [|naive_solver]. case_match; naive_solver.
Qed.

Section views.
Local Unset Default Proof Using.
Context {schema : Schema} {r : Reducer} {conv : Convergent schema r}.

(** One operation of the log. *)
Definition folds op : bool := if folder_for [r] op then true else false.
Definition fold1 views op : Views := if folds op then folded views op else views.

(** The views as a function of the log. *)
Definition log_views (ops : list Op) : Views := foldl fold1 (fresh_views r) ops.

Lemma folds_spec op :
  folds op = true ↔
  lamport_in_bound op = true ∧ Reducer.domain r = Op.domain op ∧ Reducer.is_foldable r op = true.
Proof.
  unfold folds. destruct (folder_for [r] op) as [r'|] eqn:E.
  - apply folder_for_single in E. naive_solver.
  - split; [done|]. intros H. assert (folder_for [r] op = Some r) by (apply folder_for_single; naive_solver). congruence.
Qed.

Lemma folds_foldable op : folds op = true → Reducer.is_foldable r op = true.
Proof. rewrite folds_spec. tauto. Qed.

(** The logs this is about: ids are unique, and what folds has a number from 1 on. *)
Record sound (ops : list Op) : Prop := {
  sound_ids : ∀ op1 op2, op1 ∈ ops → op2 ∈ ops → ids_apart op1 op2;
  sound_minted : ∀ op, op ∈ ops → folds op = true → minted op;
}.

Lemma sound_sub ops ops' : (∀ op, op ∈ ops' → op ∈ ops) → sound ops → sound ops'.
Proof. intros Hs []. split; eauto. Qed.

Lemma fold1_commute ops op1 op2 :
  sound ops → op1 ∈ ops → op2 ∈ ops →
  (Op.lamport op1 = Op.lamport op2 → Op.site op1 = Op.site op2 → op1 = op2) → commute fold1 op1 op2.
Proof.
  intros Hs H1 H2 Hc views. unfold fold1. destruct (folds op1) eqn:E1, (folds op2) eqn:E2; try done.
  apply folded_commute; eauto using folds_foldable, sound_minted. split; [by eapply sound_ids|done].
Qed.

(** ** The order of the export *)
Lemma op_le_total a b : op_le a b = false → op_le b a = true ∧ ¬ (Op.lamport a = Op.lamport b ∧ Op.site a = Op.site b).
Proof.
  unfold op_le. rewrite orb_false_iff, andb_false_iff, orb_true_iff, andb_true_iff.
  rewrite !Z.ltb_ge, !Z.ltb_lt, !Z.eqb_neq, !Z.eqb_eq, !Z.leb_gt, !Z.leb_le. lia.
Qed.

Lemma insert_sorted_elem op l x : x ∈ insert_sorted op l ↔ x = op ∨ x ∈ l.
Proof.
  induction l as [|y l IH]; simpl; [set_solver|]. case_match; [set_solver|]. rewrite !elem_of_cons, IH. tauto.
Qed.

Lemma sort_ops_elem l x : x ∈ sort_ops l ↔ x ∈ l.
Proof. induction l as [|y l IH]; simpl; [done|]. by rewrite insert_sorted_elem, IH, elem_of_cons. Qed.

Lemma fold_insert_sorted views op l :
  sound (op :: l) → foldl fold1 views (insert_sorted op l) = foldl fold1 views (op :: l).
Proof.
  intros Hs. revert views; induction l as [|y l IH]; intros views; simpl; [done|].
  destruct (op_le op y) eqn:E; [done|]. simpl. apply op_le_total in E as [_ Hne].
  rewrite IH by (eapply sound_sub; [|done]; set_solver). simpl. f_equal.
  apply (fold1_commute (op :: y :: l)); [done|set_solver..|]. intros H1 H2. exfalso. apply Hne. split; congruence.
Qed.

Lemma fold_sorted views l : sound l → foldl fold1 views (sort_ops l) = foldl fold1 views l.
Proof.
  revert views; induction l as [|op l IH]; intros views Hs; simpl; [done|].
  rewrite fold_insert_sorted; simpl.
  - apply IH. eapply sound_sub; [|done]. set_solver.
  - eapply sound_sub; [|done]. intros x. rewrite !elem_of_cons, sort_ops_elem. tauto.
Qed.

(** ** Folding again *)
Definition settled1 views op : Prop := folds op = true → settled_op views op.

Lemma settled_after_fold ops op views :
  sound ops → op ∈ ops → settled1 (foldl fold1 views ops) op.
Proof.
  intros Hs Hin Hf. apply list_elem_of_split in Hin as (l1 & l2 & ->). rewrite foldl_app. simpl.
  assert (∀ l v, (∀ x, x ∈ l → x ∈ l1 ++ op :: l2) → settled_op v op → settled_op (foldl fold1 v l) op) as Hstay.
  { induction l as [|x l IH]; intros v Hl Hv; simpl; [done|]. apply IH; [set_solver|].
    unfold fold1. destruct (folds x) eqn:E; [|done].
    assert (x ∈ l1 ++ op :: l2) by set_solver. assert (op ∈ l1 ++ op :: l2) by set_solver.
    apply settled_op_stays; eauto using folds_foldable, sound_minted, sound_ids. }
  apply Hstay; [set_solver|]. unfold fold1 at 1. rewrite Hf.
  apply settled_folded; [by apply folds_foldable|]. eapply sound_minted; [done| |done]. set_solver.
Qed.

Lemma fold_again ops ops' views :
  sound ops → (∀ op, op ∈ ops' → op ∈ ops) →
  foldl fold1 (foldl fold1 views ops) ops' = foldl fold1 views ops.
Proof.
  intros Hs Hsub. assert (∀ op, op ∈ ops' → fold1 (foldl fold1 views ops) op = foldl fold1 views ops) as Hone.
  { intros op Hop. unfold fold1 at 1. destruct (folds op) eqn:E; [|done].
    apply settled_nothing. eapply settled_after_fold; eauto. }
  clear Hsub. induction ops' as [|op ops' IH]; simpl; [done|].
  rewrite Hone by set_solver. apply IH. set_solver.
Qed.

(** ** A reducer's own tables *)
Lemma fold_own views ops : own_views r (foldl fold1 views ops) = foldl fold1 (own_views r views) ops.
Proof.
  revert views; induction ops as [|op ops IH]; intros views; simpl; [done|]. rewrite IH. f_equal.
  unfold fold1. destruct (folds op) eqn:E; [|done]. by apply folded_own, folds_foldable.
Qed.

Lemma fold_ops_fold1 (file : File) ops :
  File.schema file = schema →
  fold_ops [r] file ops = Ok file <| File.views := foldl fold1 (File.views file) ops |>.
Proof.
  revert file; induction ops as [|op ops IH]; intros file Hs; simpl; [by destruct file|].
  unfold fold_op, fold, fold1. unfold folds. destruct (folder_for [r] op) as [r'|] eqn:E; [|by rewrite IH].
  apply folder_for_single in E as (-> & _ & _ & Hf). rewrite Hs, folded_ok by done. by rewrite IH.
Qed.

Lemma single_total : folds_total schema [r].
Proof.
  intros op r' views (-> & _ & _ & Hf)%folder_for_single. eexists. by apply folded_ok.
Qed.
End views.
Arguments log_views {schema} r {conv} ops.
Arguments folds r op : clear implicits.
Arguments sound r ops : clear implicits.

(** ** Cleared tables *)
Lemma clear_views_lookup r views t :
  clear_views r views !! t = if base.decide (t ∈ Reducer.view_tables r) then Some ∅ else views !! t.
Proof.
  unfold clear_views. generalize (Reducer.view_tables r) as tables. intros tables.
  induction tables as [|u tables IH] using rev_ind; [done|]. rewrite foldl_snoc.
  destruct (base.decide (u = t)) as [->|Hne].
  - rewrite lookup_insert_eq. rewrite decide_True by set_solver. done.
  - rewrite lookup_insert_ne, IH by done. repeat case_decide; set_solver.
Qed.

Lemma own_views_lookup r views t :
  own_views r views !! t = if base.decide (t ∈ Reducer.view_tables r) then views !! t else None.
Proof.
  unfold own_views. rewrite map_lookup_filter. destruct (views !! t); simpl; case_decide; try done.
  - by rewrite option_guard_True.
  - by rewrite option_guard_False.
Qed.

Lemma clear_views_own r views : own_views r (clear_views r views) = fresh_views r.
Proof.
  apply map_eq. intros t. unfold fresh_views. rewrite own_views_lookup, !clear_views_lookup. by case_decide.
Qed.

(** Clearing tables of another reducer too changes nothing in fresh ones. *)
Lemma clear_views_fresh r r' views :
  own_views r views = fresh_views r → own_views r (clear_views r' views) = fresh_views r.
Proof.
  intros Hv. apply map_eq. intros t. assert (Ht := f_equal (lookup t) Hv). revert Ht. unfold fresh_views.
  rewrite !own_views_lookup, !clear_views_lookup. by repeat case_decide.
Qed.
