(* ===== verification/TaskFacts.v ===== *)
(** * The task reducer converges

    Every change of a foldable operation is one the applier can carry out, of one of the shapes that
    commute, and the changes of two operations never stand in each other's way. *)

From S2P Require Import Prelude Text Utf8 OpModel Changes Tasks ChangeFacts OpStore LogFacts Convergence.
From stdpp Require Import options.

(** ** Shapes of changes *)
Definition to_write (change : Change) : Write :=
  Write.Mk (Change.table change) (default removes_def (flow_schema !! Change.table change))
    (Change.key change).*2 (Change.key change) (Change.effect change).

(** What the reducer's changes are: one constructor per table and effect. *)
Inductive task_change (op : Op) : Change → Prop :=
| change_item f :
    f ∈ ITEM_LWW_FIELDS → Op.target_kind op = "item" → Op.field op = f →
    task_change op (register "items" [("id", Cell.Text (Op.target_id op))] [(f, text_or_null (Op.value op))]
      (f +:+ "_v", f +:+ "_site") (version op) Wins.Higher)
| change_field : task_change op (field_change op)
| change_entry_add value label :
    parse_entry_add op = Some (value, label) →
    task_change op (put "field_entries" (entry_key op (Op.op_id op))
      ([("value", Cell.Text value); ("lamport", Cell.Int (Op.lamport op)); ("site", Cell.Int (Op.site op))]
       ++ match label with Some label => [("label", Cell.Text label)] | None => [] end))
| change_entry_remove tag :
    task_change op (put "field_entries" (entry_key op tag) [("removed", Cell.Int 1)])
| change_created :
    task_change op (register "item_timestamps" [("item_id", Cell.Text (Op.target_id op))]
      [("created_at", Cell.Text (Op.wall_clock op))] ("created_v", "created_site") (version op) Wins.Lower)
| change_updated :
    task_change op (register "item_timestamps" [("item_id", Cell.Text (Op.target_id op))]
      [("updated_at", Cell.Text (Op.wall_clock op))] ("updated_v", "updated_site") (version op) Wins.Higher)
| change_edge from to kind :
    parse_edge op = Some (from, to, kind) →
    task_change op (put "edge_adds" [("tag", Cell.Text (Op.op_id op))]
      [("from_id", Cell.Text from); ("to_id", Cell.Text to); ("kind", Cell.Text kind);
       ("lamport", Cell.Int (Op.lamport op)); ("site", Cell.Int (Op.site op))])
| change_label item_id label :
    parse_label op = Some (item_id, label) →
    task_change op (put "label_adds" [("tag", Cell.Text (Op.op_id op))]
      [("item_id", Cell.Text item_id); ("label", Cell.Text label)])
| change_link thread_id item_id relation weight :
    parse_thread_link op = Some (thread_id, item_id, relation, weight) →
    task_change op (put "thread_link_adds" [("tag", Cell.Text (Op.op_id op))]
      [("thread_id", Cell.Text thread_id); ("item_id", Cell.Text item_id);
       ("relation", Cell.Text relation); ("weight", Cell.Text weight);
       ("lamport", Cell.Int (Op.lamport op)); ("site", Cell.Int (Op.site op))])
| change_tombstone table tag :
    table ∈ ["edge_removes"; "label_removes"; "thread_link_removes"] →
    task_change op (put table [("tag", Cell.Text tag)] [])
| change_note : task_change op (note_add op)
| change_redact : task_change op (note_redact op)
| change_chunk ids payload :
    parse_chunk op = Some (ids, payload) →
    task_change op (put "chunks"
      [("item_id", Cell.Text (Op.target_id op)); ("field", Cell.Text (Op.field op));
       ("id", Cell.Text (Op.op_id op))]
      [("author", Cell.Text (Op.author op)); ("body", Cell.Text payload);
       ("lamport", Cell.Int (Op.lamport op)); ("site", Cell.Int (Op.site op));
       ("created_at", Cell.Text (Op.wall_clock op))])
| change_superseded id :
    task_change op (put "chunk_superseded"
      [("item_id", Cell.Text (Op.target_id op)); ("field", Cell.Text (Op.field op));
       ("chunk_id", Cell.Text id)] []).

Lemma find_field f : f ∈ ITEM_LWW_FIELDS → find_first (λ g, bool_decide (g = f)) ITEM_LWW_FIELDS = Some f.
Proof.
  intros H. destruct (find_first _ _) as [g|] eqn:E.
  - apply find_first_Some in E as [_ E]. by apply bool_decide_eq_true in E as ->.
  - apply find_first_None in E. rewrite Forall_forall in E. specialize (E _ H). by rewrite bool_decide_eq_true_2 in E.
Qed.

Lemma tombstones_shape op table c :
  table ∈ ["edge_removes"; "label_removes"; "thread_link_removes"] → c ∈ tombstones op table → task_change op c.
Proof.
  unfold tombstones. intros Ht Hc. destruct (Op.value op); [|by apply not_elem_of_nil in Hc].
  apply list_elem_of_fmap in Hc as (tag & -> & _). by constructor.
Qed.

Lemma edge_add_shape op c : c ∈ edge_add op → task_change op c.
Proof.
  unfold edge_add. destruct (parse_edge op) as [[[from to] kind]|] eqn:Hp; [|by intros ?%not_elem_of_nil].
  intros ->%list_elem_of_singleton. by constructor.
Qed.
Lemma label_add_shape op c : c ∈ label_add op → task_change op c.
Proof.
  unfold label_add. destruct (parse_label op) as [[item_id label]|] eqn:Hp; [|by intros ?%not_elem_of_nil].
  intros ->%list_elem_of_singleton. by constructor.
Qed.
Lemma thread_link_add_shape op c : c ∈ thread_link_add op → task_change op c.
Proof.
  unfold thread_link_add.
  destruct (parse_thread_link op) as [[[[thread_id item_id] relation] weight]|] eqn:Hp; [|by intros ?%not_elem_of_nil].
  intros ->%list_elem_of_singleton. by constructor.
Qed.
Lemma chunk_shape op c : c ∈ chunk_changes op → task_change op c.
Proof.
  unfold chunk_changes. destruct (parse_chunk op) as [[replaced payload]|] eqn:Hp; [|by intros ?%not_elem_of_nil].
  intros [->|(id & -> & _)%list_elem_of_fmap]%elem_of_cons; econstructor; done.
Qed.
Lemma field_shape op c :
  c ∈ (if bool_decide (Op.op_type op = "add") then entry_add op
       else if bool_decide (Op.op_type op = "remove") then entry_remove op else [field_change op]) →
  task_change op c.
Proof.
  case_bool_decide; [|case_bool_decide].
  - unfold entry_add. destruct (parse_entry_add op) as [[value label]|] eqn:Hp; [|by intros ?%not_elem_of_nil].
    intros ->%list_elem_of_singleton. by constructor.
  - unfold entry_remove. destruct (parse_entry_remove op); [|by intros ?%not_elem_of_nil].
    intros (tag & -> & _)%list_elem_of_fmap. constructor.
  - intros ->%list_elem_of_singleton. by constructor.
Qed.

Lemma op_changes_shape op c : is_foldable op = true → c ∈ op_changes op → task_change op c.
Proof.
  unfold is_foldable, op_changes. case_bool_decide.
  { destruct (from_item_set_op_type _) as [strategy|]; simpl; [|done].
    intros Hf%bool_decide_eq_true Hc.
    assert (c = item_lww op) as -> by (destruct strategy; by apply list_elem_of_singleton in Hc).
    unfold item_lww. rewrite find_field by done. by constructor. }
  case_bool_decide; [intros _; apply field_shape|]. intros _.
  destruct (bool_decide _ && _); [apply edge_add_shape|].
  destruct (bool_decide _ && _); [apply tombstones_shape; set_solver|].
  destruct (bool_decide _ && _); [apply label_add_shape|].
  destruct (bool_decide _ && _); [apply tombstones_shape; set_solver|].
  destruct (bool_decide _ && _); [apply thread_link_add_shape|].
  destruct (bool_decide _ && _); [apply tombstones_shape; set_solver|].
  destruct (bool_decide _ && _); [intros ->%list_elem_of_singleton; constructor|].
  destruct (bool_decide _ && _); [intros ->%list_elem_of_singleton; constructor|].
  case_bool_decide; [apply chunk_shape|by intros ?%not_elem_of_nil].
Qed.

Lemma task_shape op c : is_foldable op = true → c ∈ task_changes op → task_change op c.
Proof.
  intros Hf. unfold task_changes. rewrite elem_of_app. intros [Hc|Hc]; [by apply op_changes_shape|].
  destruct (dates_item op); [|by apply not_elem_of_nil in Hc]. unfold timestamp_changes in Hc.
  rewrite !elem_of_cons in Hc. destruct Hc as [->|[->|?%not_elem_of_nil]]; [apply change_created|apply change_updated|done].
Qed.

(** ** What the applier makes of them *)
Ltac cases_in H := unfold ITEM_LWW_FIELDS in H; rewrite !elem_of_cons in H;
  repeat (destruct H as [->|H]); [..|by apply not_elem_of_nil in H].

Lemma task_resolves op c : task_change op c → resolve flow_schema c = Ok (Some (to_write c)).
Proof.
  intros H. destruct H as [f Hf Hk Hfield| |value label Hp|tag| | |from to kind Hp|item_id label Hp|thread_id item_id relation weight Hp
    |table tag Ht| | |ids payload Hp|id].
  - cases_in Hf; destruct (Op.value op); vm_compute; reflexivity.
  - unfold field_change. destruct (Op.value op); vm_compute; reflexivity.
  - destruct label; vm_compute; reflexivity.
  - vm_compute; reflexivity.
  - vm_compute; reflexivity.
  - vm_compute; reflexivity.
  - vm_compute; reflexivity.
  - vm_compute; reflexivity.
  - vm_compute; reflexivity.
  - cases_in Ht; vm_compute; reflexivity.
  - unfold note_add. destruct (Op.value op); vm_compute; reflexivity.
  - vm_compute; reflexivity.
  - vm_compute; reflexivity.
  - vm_compute; reflexivity.
Qed.

Lemma task_plain op c : minted op → task_change op c → plain (to_write c).
Proof.
  intros Hm H. unfold minted in Hm.
  destruct H as [f Hf Hk Hfield| |value label Hp|tag| | |from to kind Hp|item_id label Hp|thread_id item_id relation weight Hp
    |table tag Ht| | |ids payload Hp|id]; [| |destruct label| | | | | | |cases_in Ht| | | |];
    [cases_in Hf|..]; (split; [apply (bool_decide_unpack (NoDup _)); vm_compute; reflexivity|]); try exact I.
  all: unfold field_change, version; destruct (Op.lamport op); [lia| |lia]; vm_compute; reflexivity.
Qed.

(** ** What two operations do to one row *)
Lemma item_columns_disjoint f g :
  f ∈ ITEM_LWW_FIELDS → g ∈ ITEM_LWW_FIELDS → f ≠ g →
  [f; f +:+ "_v"; f +:+ "_site"] ## [g; g +:+ "_v"; g +:+ "_site"].
Proof.
  assert (Forall (λ f, Forall (λ g, f = g ∨ Forall (.∉ [g; g +:+ "_v"; g +:+ "_site"])
    [f; f +:+ "_v"; f +:+ "_site"]) ITEM_LWW_FIELDS) ITEM_LWW_FIELDS) as H
    by (apply (bool_decide_unpack _); vm_compute; reflexivity).
  rewrite Forall_forall in H. intros Hf Hg Hne. specialize (H f Hf). rewrite Forall_forall in H.
  destruct (H g Hg) as [|Hd]; [done|]. rewrite Forall_forall in Hd. intros c Hc. by apply Hd.
Qed.

(** Two operations write one register. *)
Inductive same_register (op1 op2 : Op) : Effect → Effect → Prop :=
| same_register_intro c1 c2 a b wins :
    c1.*1 = c2.*1 → (op1 = op2 → c1 = c2) →
    same_register op1 op2 (Effect.Register c1 [(a, Op.lamport op1); (b, Op.site op1)] wins)
      (Effect.Register c2 [(a, Op.lamport op2); (b, Op.site op2)] wins).

Definition meet (op1 op2 : Op) (e1 e2 : Effect) : Prop := agree e1 e2 ∨ same_register op1 op2 e1 e2.

(** Two versions are the same only for one operation. *)
Lemma meet_agree op1 op2 e1 e2 : compatible op1 op2 → meet op1 op2 e1 e2 → agree e1 e2.
Proof.
  intros [_ Hc] [H|H]; [done|]. destruct H as [c1 c2 a b wins Hcols Heq].
  apply agree_registers; [done|done|]. intros Hv. apply Heq. simplify_eq. by apply Hc.
Qed.

Lemma meet_rivals op1 op2 e1 e2 : meet op1 op2 e1 e2 → rivals e1 e2.
Proof.
  intros [H|H]; [by apply rivals_agree|]. destruct H as [c1 c2 a b wins Hcols Heq]. by apply rivals_registers.
Qed.

Lemma agree_same c : NoDup (columns c) → match c with Effect.Put _ => True | _ => False end → agree c c.
Proof.
  destruct c as [|cells|]; intros Hnd H; try done. apply agree_puts. intros c v1 v2 H1 H2.
  unfold columns in Hnd. simpl in Hnd. rewrite app_nil_r in Hnd.
  assert (set_cells cells ∅ !! c = Some v1) as E1 by by apply set_cells_lookup.
  rewrite (set_cells_lookup _ _ _ v2) in E1 by done. by simplify_eq.
Qed.

Lemma disjoint_columns e1 e2 : Forall (.∉ columns e2) (columns e1) → agree e1 e2.
Proof. rewrite Forall_forall. intros H. apply agree_disjoint. intros c Hc. by apply H. Qed.

Ltac apart_columns := left; apply disjoint_columns, (bool_decide_unpack _); vm_compute; reflexivity.
Ltac same_put := left; apply agree_same; [apply (bool_decide_unpack (NoDup _)); vm_compute; reflexivity|exact I].
Ltac same_op Hc Hkey Hp Hp' :=
  let H := fresh in
  assert (H := Hc); injection Hkey; intros; rewrite (H ltac:(congruence)) in *; rewrite Hp in Hp';
  simplify_eq; (split; [done|same_put]).
Ltac not_a_tombstone H := exfalso; revert H; apply (bool_decide_unpack (_ ∉ _)); vm_compute; reflexivity.

Lemma task_meet op1 op2 c1 c2 :
  ids_apart op1 op2 → task_change op1 c1 → task_change op2 c2 →
  Change.table c1 = Change.table c2 → (Change.key c1).*2 = (Change.key c2).*2 →
  Change.key c1 = Change.key c2 ∧ meet op1 op2 (Change.effect c1) (Change.effect c2).
Proof.
  intros Hc H1 H2 Htab Hkey.
  destruct H1 as [f Hf Hk Hfield| |value label Hp|tag| | |from to kind Hp|item_id label Hp|thread_id item_id relation weight Hp
    |table tag Htt| | |ids payload Hp|id];
  destruct H2 as [f' Hf' Hk' Hfield'| |value' label' Hp'|tag'| | |from' to' kind' Hp'|item_id' label' Hp'|thread_id' item_id' relation' weight' Hp'
    |table' tag' Htt'| | |ids' payload' Hp'|id']; try discriminate Htab; simpl in Htab, Hkey.
  all: try (subst table; not_a_tombstone Htt).
  all: try (subst table'; not_a_tombstone Htt').
  - injection Hkey as Hkey. split; [simpl; congruence|]. clear Hk Hk' Hfield Hfield'.
    destruct (base.decide (f = f')) as [->|Hne].
    + right. by constructor; [|intros ->].
    + left. apply agree_disjoint. by apply item_columns_disjoint.
  - simplify_eq/=. split; [unfold entry_key; congruence|]. right. by constructor; [|intros ->].
  - destruct label, label'; same_op Hc Hkey Hp Hp'.
  - simplify_eq/=. split; [unfold entry_key; congruence|]. destruct label; apart_columns.
  - simplify_eq/=. split; [unfold entry_key; congruence|]. destruct label'; apart_columns.
  - simplify_eq/=. split; [unfold entry_key; congruence|]. same_put.
  - simplify_eq/=. split; [congruence|]. right. by constructor; [|intros ->].
  - simplify_eq/=. split; [congruence|]. apart_columns.
  - simplify_eq/=. split; [congruence|]. apart_columns.
  - simplify_eq/=. split; [congruence|]. right. by constructor; [|intros ->].
  - same_op Hc Hkey Hp Hp'.
  - same_op Hc Hkey Hp Hp'.
  - same_op Hc Hkey Hp Hp'.
  - simplify_eq/=. split; [congruence|]. same_put.
  - simplify_eq/=. rewrite (Hc ltac:(done)). split; [done|]. same_put.
  - simplify_eq/=. split; [unfold note_redact; simpl; congruence|]. same_put.
  - same_op Hc Hkey Hp Hp'.
  - simplify_eq/=. split; [congruence|]. same_put.
Qed.

(** ** The instance *)
Definition task_folded (views : Views) (op : Op) : Views := carry_all views (to_write <$> task_changes op).

Lemma task_writes op w : is_foldable op = true → w ∈ to_write <$> task_changes op → ∃ c, w = to_write c ∧ task_change op c.
Proof. intros Hf (c & -> & Hc)%list_elem_of_fmap. exists c. split; [done|by apply task_shape]. Qed.

Lemma task_all_plain op : is_foldable op = true → minted op → Forall plain (to_write <$> task_changes op).
Proof.
  intros Hf Hm. apply Forall_forall. intros w Hw. destruct (task_writes op w Hf Hw) as (c & -> & Hs).
  by eapply task_plain.
Qed.

Lemma task_all_apart op1 op2 w1 w2 :
  is_foldable op1 = true → is_foldable op2 = true → compatible op1 op2 →
  w1 ∈ to_write <$> task_changes op1 → w2 ∈ to_write <$> task_changes op2 → apart w1 w2.
Proof.
  intros Hf1 Hf2 Hc Hw1 Hw2 Ht Hid. destruct (task_writes op1 w1 Hf1 Hw1) as (c1 & -> & Hs1).
  destruct (task_writes op2 w2 Hf2 Hw2) as (c2 & -> & Hs2).
  destruct (task_meet op1 op2 c1 c2) as [Hk Hm]; [apply Hc|done..|].
  split; [unfold to_write; simpl; by rewrite (Ht : Change.table c1 = _)|]. split; [done|]. by eapply meet_agree.
Qed.

Lemma task_all_near op1 op2 w1 w2 :
  is_foldable op1 = true → is_foldable op2 = true → ids_apart op1 op2 →
  w1 ∈ to_write <$> task_changes op1 → w2 ∈ to_write <$> task_changes op2 → near w1 w2.
Proof.
  intros Hf1 Hf2 Hc Hw1 Hw2 Ht Hid. destruct (task_writes op1 w1 Hf1 Hw1) as (c1 & -> & Hs1).
  destruct (task_writes op2 w2 Hf2 Hw2) as (c2 & -> & Hs2).
  destruct (task_meet op1 op2 c1 c2) as [Hk Hm]; [done..|].
  split; [unfold to_write; simpl; by rewrite (Ht : Change.table c1 = _)|]. split; [done|]. by eapply meet_rivals.
Qed.

Lemma task_tables op w : is_foldable op = true → w ∈ to_write <$> task_changes op → Write.table w ∈ task_view_tables.
Proof.
  intros Hf Hw. destruct (task_writes op w Hf Hw) as (c & -> & Hs).
  change (Change.table c ∈ task_view_tables).
  destruct Hs as [f Hf' Hk Hfield| |value label Hp|tag| | |from to kind Hp|item_id label Hp|thread_id item_id relation weight Hp
    |table tag Ht| | |ids payload Hp|id]; try (apply (bool_decide_unpack _); vm_compute; reflexivity).
  cases_in Ht; apply (bool_decide_unpack _); vm_compute; reflexivity.
Qed.

Global Instance task_convergent : Convergent flow_schema TaskReducer.
Proof.
  refine {| folded := task_folded; settled_op views op := Forall (settled views) (to_write <$> task_changes op) |}; simpl.
  - intros op views Hf. apply apply_resolved. apply Forall2_fmap_r, Forall2_same_length_lookup_2; [done|].
    intros i c c' H1 H2. simplify_eq. apply task_resolves with op, task_shape; [done|]. by eapply list_elem_of_lookup_2.
  - intros op1 op2 Hf1 Hf2 Hm1 Hm2 Hc views. apply carry_all_commute; [by apply task_all_plain..|].
    intros w1 w2 Hw1 Hw2. by apply (task_all_apart op1 op2).
  - intros views op Hf Hm. apply settled_all_after; [by apply task_all_plain|].
    intros w1 w2 Hw1 Hw2. by apply (task_all_near op op).
  - intros views op1 op2 Hf1 Hf2 Hm1 Hm2 Hc Hs. rewrite Forall_forall in Hs. apply Forall_forall. intros w Hw.
    apply settled_stays_all; [|by apply task_all_plain| |by apply Hs].
    + assert (Hp := task_all_plain _ Hf1 Hm1). rewrite Forall_forall in Hp. by apply Hp.
    + intros w' Hw'. by apply (task_all_near op1 op2).
  - intros views op Hs. by apply settled_all_nothing.
  - intros views op Hf. apply carry_all_own. intros w Hw. by eapply task_tables.
  - intros views op t Hf Ht. apply carry_all_other. intros w Hw <-. by eapply Ht, task_tables.
Defined.
