(* ===== verification/FileRuns.v ===== *)
(** * The views of a shared file

    One workspace file is written by handles of several processes: of the product whose views these are, of
    other releases of it that fold by other rules, of other products, and by ones that only append. Whatever
    they do in whatever order, the views are the fold of the log whenever the recorded watermark says so, and
    the hook a product opens with makes it say so. *)

From S2P Require Import Prelude Text Utf8 OpModel Changes ChangeFacts OpStore LogFacts Convergence.
From stdpp Require Import options.

Local Open Scope Z_scope.

Section ingest.
Local Unset Default Proof Using.
Context {ed : Ed25519}.
Implicit Types (store : Store) (file : File) (op : Op).

(** What taking an operation in comes to, received or local: nothing, or one more row. *)
Lemma ingest_cases store file op provenance file' ingest :
  log_ok file → ingest_in_txn store file op provenance = Ok (file', ingest) →
  file' = file ∨
  ∃ unique, let file1 := appended file <| File.unique_index := unique |> op provenance in
    log_ok file1 ∧ take_in store file1 op = Ok (file', ingest).
Proof.
  intros Hok. unfold ingest_in_txn. set (own := bool_decide (provenance = Provenance.Own)).
  destruct (negb (File.unique_index file) && coordinate_refused file op own) eqn:E1; [intros; simplify_eq; by left|].
  destruct (holds_op file (Op.op_id op)) eqn:Eid.
  { unfold insert_op. rewrite Eid. simpl. intros. simplify_eq. by left. }
  rewrite insert_op_fresh by done.
  destruct (File.unique_index file && existsb (at_coordinate (Op.site op) (Op.lamport op)) (File.ops file)) eqn:E2.
  - destruct (coordinate_refused file op own) eqn:E3; [intros; simplify_eq; by left|].
    rewrite insert_op_fresh by done. simpl. intros Htake. right. exists false. split; [|done].
    apply appended_log_ok; [|done|done|done]. destruct Hok. by split.
  - intros Htake. right. exists (File.unique_index file).
    assert (file <| File.unique_index := File.unique_index file |> = file) as -> by by destruct file.
    split; [|done]. apply appended_log_ok; [done|done| |].
    + intros Hu. rewrite Hu in E2. simpl in E2. by rewrite <-held_spec, E2.
    + destruct (File.unique_index file) eqn:Eu; [|done]. simpl in E2.
      apply not_true_iff_false. intros (row & Hrow & Hs & Hl & _)%coordinate_refused_spec.
      apply not_true_iff_false in E2. apply E2, held_spec. by exists row.
Qed.

Lemma max_rowid_appended file op provenance :
  log_ok file → max_op_rowid (appended file op provenance) = max_op_rowid file + 1.
Proof.
  intros Hok. set (row := Stored.Mk (max_op_rowid file + 1) op provenance).
  assert (max_op_rowid file + 1 <= max_op_rowid (appended file op provenance)) as Hge.
  { apply (max_op_rowid_ge (appended file op provenance) row). unfold appended. simpl. apply elem_of_app.
    right. by left. }
  assert (max_op_rowid (appended file op provenance) <= max_op_rowid file + 1); [|lia].
  assert (Hn := max_op_rowid_nonneg _ Hok). unfold max_op_rowid at 1.
  destruct (max_over (Stored.rowid <$> File.ops (appended file op provenance))) as [m|] eqn:E; simpl; [|lia].
  apply max_over_spec in E as [(x & -> & Hx)%list_elem_of_fmap _]. unfold appended in Hx. simpl in Hx.
  apply elem_of_app in Hx as [Hx|Hx]; [apply max_op_rowid_ge in Hx; lia|].
  apply list_elem_of_singleton in Hx as ->. done.
Qed.

(** The row before the last one. *)
Lemma max_rowid_before file op provenance :
  log_ok file →
  default 0 (max_over (base.filter (λ r, r < max_op_rowid file + 1)
    (Stored.rowid <$> File.ops (appended file op provenance)))) = max_op_rowid file.
Proof.
  intros Hok. unfold appended. simpl. rewrite fmap_app, filter_app. simpl.
  rewrite filter_cons_False by (simpl; lia). rewrite filter_nil, app_nil_r.
  rewrite filter_all; [done|]. apply Forall_forall. intros x (row & -> & Hrow)%list_elem_of_fmap.
  apply max_op_rowid_ge in Hrow. lia.
Qed.

Lemma min_rowid_appended file op provenance :
  min_over (Stored.rowid <$> File.ops (appended file op provenance)) = Some (max_op_rowid file + 1) →
  File.ops file = [].
Proof.
  intros E. apply min_over_spec in E as [_ Hmin]. destruct (File.ops file) as [|row rows] eqn:Eo; [done|].
  exfalso. assert (row ∈ File.ops file) as Hrow by (rewrite Eo; by left).
  assert (max_op_rowid file + 1 <= Stored.rowid row).
  { apply Hmin. unfold appended. simpl. rewrite Eo. simpl. by left. }
  apply max_op_rowid_ge in Hrow. lia.
Qed.
End ingest.

(** ** Handles *)
Section runs.
Local Unset Default Proof Using.
Context {ed : Ed25519} {schema : Schema} {r : Reducer} {conv : Convergent schema r} (sid : string).
Implicit Types (store : Store) (file : File) (op : Op).

Abbreviation ours := (fold_revision [r]).
Abbreviation log_of file := (Stored.op <$> File.ops file) (only parsing).
Context (ours_nonneg : 0 <= ours).

(** Whose handle it is. Another release's reducer may do anything to the product's tables; another product's
    leaves them alone. *)
Inductive role store : Prop :=
| role_ours :
    Store.reducers store = [r] → Store.views_key store = None ∨ Store.views_key store = Some sid → role store
| role_other_release r' :
    Store.reducers store = [r'] → fold_revision [r'] ≠ ours → folds_total schema [r'] →
    Store.views_key store = None ∨ Store.views_key store = Some sid → role store
| role_other_product :
    folds_total schema (Store.reducers store) →
    (∀ op r' views views', folder_for (Store.reducers store) op = Some r' →
       apply_sqlite schema (Reducer.changes r' op) views = Ok views' → own_views r views' = own_views r views) →
    (∀ views, own_views r (clear_all (Store.reducers store) views) = own_views r views) →
    Store.views_key store ≠ Some sid → role store.

Definition other_product store : Prop := Store.reducers store ≠ [r] ∧ Store.views_key store ≠ Some sid.

Definition recorded file : Z := (recorded_revision file sid).1.
Definition through file : Z := (recorded_revision file sid).2.

(** The watermark says the views hold the log. *)
Definition claims_current file : Prop := recorded file = ours ∧ max_op_rowid file <= through file.

Record inv file : Prop := {
  inv_schema : File.schema file = schema;
  inv_log : log_ok file;
  inv_current : sound r (log_of file) → claims_current file →
    own_views r (File.views file) = log_views r (log_of file);
  inv_empty : File.ops file = [] → own_views r (File.views file) = fresh_views r;
  inv_through : through file <= max_op_rowid file;
  inv_folded : through file <= folded_through file sid;
}.

Lemma take_in_views store file op file' ingest :
  take_in store file op = Ok (file', ingest) →
  ∃ views, file' = advance_watermark_after store file <| File.views := views |> (max_op_rowid file) ∧
    folded_into store file op views.
Proof.
  unfold take_in, folded_into, fold. destruct (folder_for (Store.reducers store) op) as [r'|].
  - destruct (apply_sqlite _ _ _) as [views|]; intros; simplify_eq. by exists views.
  - intros. simplify_eq. exists (File.views file). by destruct file.
Qed.

Lemma same_log_max file file' : same_log file file' → max_op_rowid file' = max_op_rowid file.
Proof. intros (Ho & _). unfold max_op_rowid. by rewrite Ho. Qed.

Lemma ours_views store op file views :
  Store.reducers store = [r] → File.schema file = schema → folded_into store file op views →
  views = fold1 (File.views file) op.
Proof.
  unfold folded_into. intros -> Hs. unfold fold1, folds. destruct (folder_for [r] op) as [r'|] eqn:E; [|done].
  apply folder_for_single in E as (-> & _ & _ & Hf). rewrite Hs, folded_ok by done. by intros [= ->].
Qed.

(** The watermark after an operation was taken in: it speaks for the operation only where it spoke for all
    before it, and only for a handle of the product's own release. *)
Lemma watermark_after store file op provenance views :
  role store → inv file → let file1 := appended file op provenance in
  let file' := advance_watermark_after store file1 <| File.views := views |> (max_op_rowid file1) in
  through file' <= max_op_rowid file + 1 ∧ through file' <= folded_through file' sid ∧
  (recorded file' = ours → max_op_rowid file + 1 <= through file' →
   Store.reducers store = [r] ∧ (File.ops file = [] ∨ claims_current file)).
Proof.
  intros Hrole Hinv file1 file'. assert (Hok := inv_log _ Hinv).
  assert (Hn := max_op_rowid_nonneg _ Hok). assert (Ht := inv_through _ Hinv). assert (Hf := inv_folded _ Hinv).
  assert (max_op_rowid file1 = max_op_rowid file + 1) as Hmax by by apply max_rowid_appended.
  assert (default 0 (max_over (base.filter (λ r, r < max_op_rowid file1) (Stored.rowid <$> File.ops file1))) =
    max_op_rowid file) as Hbefore by (rewrite Hmax; by apply max_rowid_before).
  assert (Store.views_key store ≠ Some sid →
    recorded file' = recorded file ∧ through file' = through file ∧ folded_through file' sid = folded_through file sid) as Hother.
  { intros Hkey. unfold file', advance_watermark_after, recorded, through, recorded_revision, folded_through.
    destruct (Store.views_key store) as [key|]; [|done]. simpl. rewrite lookup_insert_ne by congruence. done. }
  destruct (base.decide (Store.views_key store = Some sid)) as [Hkey|Hkey].
  2:{ destruct (Hother Hkey) as (-> & -> & ->). split_and!; [lia|lia|]. intros _ Hle. lia. }
  clear Hother. unfold recorded, through, claims_current, recorded, through in *.
  unfold file', advance_watermark_after, recorded_revision, folded_through in *. rewrite Hkey. simpl.
  rewrite lookup_insert_eq. simpl. 
  change (File.ops file ++ [Stored.Mk (max_op_rowid file + 1) op provenance]) with (File.ops file1).
  rewrite Hbefore, Hmax.
  destruct (File.view_watermarks file !! sid) as [w|] eqn:Ew; simpl in *.
  - destruct (Z.eqb_spec (Watermark.fold_revision w) (fold_revision (Store.reducers store))) as [Hrev|Hrev]; simpl.
    + destruct (Z.leb_spec (max_op_rowid file) (Watermark.revision_through w)) as [Hle|Hgt].
      * split_and!; [lia|lia|]. intros Hours _. split; [|right; split; [done|lia]].
        destruct Hrole as [Hr _|r' Hr Hne _ _|_ _ _ Hk]; [done| |done]. rewrite Hr in Hrev. congruence.
      * split_and!; [lia|lia|]. intros _ Hle. lia.
    + split_and!; [lia|lia|]. intros _ Hle. lia.
  - case_bool_decide as Hmin.
    + split_and!; [lia|lia|]. intros Hours _. apply min_rowid_appended in Hmin. split; [|by left].
      destruct Hrole as [Hr _|r' Hr Hne _ _|_ _ _ Hk]; [done| |done]. rewrite Hr in Hours. congruence.
    + split_and!; [lia|lia|]. intros _ Hle. lia.
Qed.
Lemma take_in_inv store file op provenance file' ingest :
  role store → inv file → log_ok (appended file op provenance) →
  take_in store (appended file op provenance) op = Ok (file', ingest) → inv file'.
Proof.
  intros Hrole Hinv Hok Htake. assert (Hs := inv_schema _ Hinv). assert (Hl := inv_log _ Hinv).
  apply take_in_views in Htake as (views & -> & Hviews).
  destruct (watermark_after store file op provenance views Hrole Hinv) as (Ht & Hf & Hc).
  set (file1 := appended file op provenance) in *. set (file2 := file1 <| File.views := views |>) in *.
  assert (Hsame := advance_after_same_log store file2 (max_op_rowid file1)).
  set (file' := advance_watermark_after store file2 (max_op_rowid file1)) in *.
  assert (max_op_rowid file' = max_op_rowid file + 1) as Hmax.
  { rewrite (same_log_max _ _ Hsame). by apply max_rowid_appended. }
  assert (File.ops file' = File.ops file1) as Hops by apply Hsame.
  assert (File.views file' = views) as Hv by (unfold file'; by rewrite advance_after_views).
  split.
  - by rewrite (proj1 (proj2 Hsame)).
  - apply (same_log_ok file2); [done|]. by apply (same_log_ok file1).
  - intros Hsound [Hrec Hle]. rewrite Hmax in Hle. destruct (Hc Hrec Hle) as [Hr Hbefore].
    apply (ours_views store op file1) in Hviews; [|done|done]. rewrite Hv, Hviews, Hops.
    change (File.views file1) with (File.views file).
    assert (log_of file1 = log_of file ++ [op]) as -> by (unfold file1, appended; simpl; by rewrite fmap_app).
    assert (own_views r (File.views file) = log_views r (log_of file)) as Hown.
    { destruct Hbefore as [He|Hcur].
      - rewrite He. by apply (inv_empty _ Hinv).
      - apply (inv_current _ Hinv); [|done]. eapply sound_sub; [|exact Hsound]. rewrite Hops.
        unfold file1, appended. simpl. rewrite fmap_app. set_solver. }
    change (fold1 (File.views file) op) with (foldl fold1 (File.views file) [op]).
    rewrite fold_own, Hown. unfold log_views. by rewrite foldl_app.
  - rewrite Hops. unfold file1, appended. simpl. by destruct (File.ops file).
  - by rewrite Hmax.
  - done.
Qed.

Lemma inv_index file unique : inv file → log_ok file <| File.unique_index := unique |> → inv file <| File.unique_index := unique |>.
Proof. intros [] Hok. by split. Qed.

(** Whether a row is appended or not, and whatever becomes of the index. *)
Lemma ingest_inv store file op provenance file' ingest :
  role store → inv file → ingest_in_txn store file op provenance = Ok (file', ingest) → inv file'.
Proof.
  intros Hrole Hinv H. apply ingest_cases in H as [->|(unique & Hok & Htake)]; [done| |apply Hinv].
  eapply take_in_inv; [done| |exact Hok|exact Htake]. apply inv_index; [done|].
  destruct (inv_log _ Hinv) as [Hids Huniq Hown Hrows Hrising Hbase]. destruct Hok as [Hids' Huniq' _ _ _ _].
  split; [done| |done..]. intros Hu row row' Hr Hr'. apply Huniq'; [done|unfold appended; simpl; set_solver..].
Qed.

Lemma role_clock store n : role store → role store <| Store.clock := n |>.
Proof. intros []; [by apply role_ours|by eapply role_other_release|by apply role_other_product]. Qed.

Lemma role_observe store op : role store → role (observe store op).
Proof. intros H. unfold observe. repeat case_match; auto using role_clock. Qed.

Lemma apply_inv store file ops store' file' deferred :
  role store → inv file → apply store file ops = Ok (store', file', deferred) → inv file' ∧ role store'.
Proof.
  revert store file deferred; induction ops as [|op ops IH]; intros store file deferred Hrole Hinv; simpl.
  { intros. by simplify_eq. }
  destruct (ingest_in_txn (observe store op) file op (of_received op)) as [[file1 ingest]|] eqn:E; [|done].
  destruct (apply (observe store op) file1 ops) as [[[store2 file2] deferred2]|] eqn:E2; [|done].
  intros. simplify_eq. eapply IH; [..|exact E2]; [by apply role_observe|].
  by eapply ingest_inv; [apply role_observe| |exact E].
Qed.

Lemma attempt_inv store file op store' op' file' ingest :
  role store → inv file → attempt store file op = Ok (store', op', file', ingest) → inv file' ∧ role store'.
Proof.
  unfold attempt, tick. intros Hrole Hinv. destruct (Store.clock store <? i64_max); [|done].
  destruct (ingest_in_txn _ _ _ _) as [[file1 ingest1]|] eqn:E; [|done]. intros. simplify_eq.
  split; [|by apply role_clock]. eapply ingest_inv; [|done|exact E]. by apply role_clock.
Qed.

Lemma mint_inv store file op store' file' ingest :
  role store → inv file → mint store file op = Ok (store', file', ingest) → inv file' ∧ role store'.
Proof.
  unfold mint. intros Hrole Hinv. destruct (attempt store file op) as [[[[store1 op1] file1] ingest1]|] eqn:E; [|done].
  destruct (attempt_inv _ _ _ _ _ _ _ Hrole Hinv E) as [Hinv1 Hrole1].
  case_bool_decide; [|intros; by simplify_eq]. destruct (first_free_coordinate _ _ _) as [free|]; [|done].
  destruct (attempt store1 <| Store.clock := free - 1 |> file1 op1) as [[[[store2 op2] file2] ingest2]|] eqn:E2; [|done].
  apply attempt_inv in E2; [|by apply role_clock|done]. case_match; [done|]. intros. by simplify_eq.
Qed.

Lemma build_and_ingest_inv locked store file draft store' file' out :
  role store → inv file → build_and_ingest locked store file draft = Ok (store', file', out) → inv file' ∧ role store'.
Proof.
  unfold build_and_ingest. intros Hrole Hinv. case_match; [done|]. case_match; [done|].
  destruct (mint _ _ _) as [[[store1 file1] ingest]|] eqn:E; [|done]. intros. simplify_eq.
  eapply mint_inv; [|done|exact E].
  assert (role (refresh_clock store file)) as Hr by (unfold refresh_clock; case_match; auto using role_clock).
  destruct Hr; [by apply role_ours|by eapply role_other_release|by apply role_other_product].
Qed.
(** ** Catching up *)
Inductive opens store (store_id : string) : Prop :=
| opens_ours : Store.reducers store = [r] → store_id = sid → opens store store_id
| opens_other_release r' :
    Store.reducers store = [r'] → fold_revision [r'] ≠ ours → folds_total schema [r'] → store_id = sid →
    opens store store_id
| opens_other_product :
    folds_total schema (Store.reducers store) →
    (∀ op r' views views', folder_for (Store.reducers store) op = Some r' →
       apply_sqlite schema (Reducer.changes r' op) views = Ok views' → own_views r views' = own_views r views) →
    (∀ views, own_views r (clear_all (Store.reducers store) views) = own_views r views) →
    store_id ≠ sid → opens store store_id.

Lemma opens_role store store_id : opens store store_id → role store <| Store.views_key := Some store_id |>.
Proof.
  intros [Hr ->|r' Hr Hne Ht ->|Ht Hv Hc Hne].
  - apply role_ours; [done|by right].
  - eapply role_other_release; [done..|by right].
  - apply role_other_product; [done..|]. simpl. congruence.
Qed.

Lemma fold_ops_frame reducers file ops file' :
  fold_ops reducers file ops = Ok file' →
  same_log file file' ∧ File.view_watermarks file' = File.view_watermarks file.
Proof.
  revert file; induction ops as [|op ops IH]; intros file; simpl; [intros; by simplify_eq|].
  unfold fold_op, fold. destruct (folder_for reducers op) as [r'|]; [|apply IH].
  destruct (apply_sqlite _ _ _); [|done]. intros [Hs Hw]%IH. split; [|done]. eapply same_log_trans; [|exact Hs]. done.
Qed.

Lemma fold_ops_other reducers file ops file' :
  File.schema file = schema →
  (∀ op r' views views', folder_for reducers op = Some r' →
     apply_sqlite schema (Reducer.changes r' op) views = Ok views' → own_views r views' = own_views r views) →
  fold_ops reducers file ops = Ok file' → own_views r (File.views file') = own_views r (File.views file).
Proof.
  intros Hs Ho. revert file Hs; induction ops as [|op ops IH]; intros file Hs; simpl; [intros; by simplify_eq|].
  unfold fold_op, fold. destruct (folder_for reducers op) as [r'|] eqn:E; [|by apply IH].
  rewrite Hs. destruct (apply_sqlite _ _ _) as [views|] eqn:Ea; [|done]. intros Hf%IH; [|done]. rewrite Hf.
  simpl. by eapply Ho.
Qed.

Lemma fold_log_total reducers file : folds_total (File.schema file) reducers → ∃ file', fold_whole_log reducers file = Ok file'.
Proof.
  intros Ht. unfold fold_whole_log. generalize (export file) as ops.
  intros ops. revert file Ht; induction ops as [|op ops IH]; intros file Ht; simpl; [by eexists|].
  unfold fold_op, fold. destruct (folder_for reducers op) as [r'|] eqn:E; [|by apply IH].
  destruct (Ht op r' (File.views file) E) as (views & ->). by apply IH.
Qed.

(** Folding the log over views that hold it, and over cleared ones. *)
Lemma refold_ours file :
  File.schema file = schema →
  fold_whole_log [r] file = Ok file <| File.views := foldl fold1 (File.views file) (export file) |>.
Proof. apply fold_ops_fold1. Qed.

Lemma export_log_views views file :
  sound r (log_of file) → foldl fold1 views (export file) = foldl fold1 views (log_of file).
Proof. apply fold_sorted. Qed.

(** Nothing is folded from an empty log. *)
Lemma fold_empty_log reducers file file' :
  File.ops file = [] → fold_whole_log reducers file = Ok file' → File.views file' = File.views file.
Proof. unfold fold_whole_log, export. intros ->. simpl. intros. by simplify_eq. Qed.

(** A step that leaves the log, and with it what the watermark is measured by, alone. *)
Lemma inv_same_log file file' :
  inv file → same_log file file' →
  (sound r (log_of file) → claims_current file' → own_views r (File.views file') = log_views r (log_of file)) →
  (File.ops file = [] → own_views r (File.views file') = fresh_views r) →
  through file' <= max_op_rowid file → through file' <= folded_through file' sid → inv file'.
Proof.
  intros Hinv Hsame Hc He Ht Hf. destruct Hsame as (Ho & Hs & Hu & Hb) eqn:E. split.
  - rewrite Hs. apply Hinv.
  - eapply same_log_ok; [done|apply Hinv].
  - by rewrite Ho.
  - by rewrite Ho.
  - by rewrite (same_log_max file).
  - done.
Qed.

Lemma rebuild_inv store file store_id file' :
  opens store store_id → inv file → rebuild store file store_id = Ok file' →
  inv file' ∧ same_log file file' ∧
  (Store.reducers store = [r] → store_id = sid → sound r (log_of file) →
   own_views r (File.views file') = log_views r (log_of file)).
Proof.
  intros Hopen Hinv. unfold rebuild.
  destruct (fold_whole_log _ _) as [file1|] eqn:E; [|done]. intros [= <-].
  set (file0 := file <| File.views := clear_all (Store.reducers store) (File.views file) |>) in E.
  assert (Hframe := E). apply fold_ops_frame in Hframe as [Hsame Hw].
  assert (same_log file file1) as Hsame1 by (eapply same_log_trans; [|exact Hsame]; done).
  rewrite (same_log_max file file1) by done.
  set (file2 := set_watermark _ _ _).
  assert (same_log file file2) as Hsame2 by done.
  assert (Hs := inv_schema _ Hinv). assert (Hn := max_op_rowid_nonneg _ (inv_log _ Hinv)).
  assert (Store.reducers store = [r] → sound r (log_of file) →
    own_views r (File.views file1) = log_views r (log_of file)) as Hours.
  { intros Hr Hsound. rewrite Hr in E. rewrite refold_ours in E by done. simplify_eq. simpl.
    rewrite (export_log_views _ file0) by done. rewrite fold_own. unfold file0. rewrite Hr. simpl.
    by rewrite clear_views_own. }
  assert (File.ops file = [] → own_views r (File.views file1) = fresh_views r) as Hempty.
  { intros He. assert (Hf := inv_empty _ Hinv He). rewrite (fold_empty_log _ file0 _ He E). simpl.
    destruct Hopen as [Hr _|r' Hr _ _ _|_ _ Hc _]; [rewrite Hr; simpl; by apply clear_views_fresh..|by rewrite Hc]. }
  split; [|split; [done|]].
  2:{ intros Hr _ Hsound. by apply Hours. }
  destruct (base.decide (store_id = sid)) as [->|Hne].
  - assert (recorded file2 = fold_revision (Store.reducers store) ∧ through file2 = max_op_rowid file ∧
      folded_through file2 sid = max_op_rowid file) as (Hrec & Hthr & Hfol).
    { unfold recorded, through, recorded_revision, folded_through, file2, set_watermark. simpl. by rewrite lookup_insert_eq. }
    apply (inv_same_log file); [done..| |done|lia|lia].
    intros Hsound [Hc _]. change (File.views file2) with (File.views file1). apply Hours; [|done].
    destruct Hopen as [Hr _|r' Hr Hne _ _|_ _ _ Hne]; [done| |done]. rewrite Hr in Hrec. congruence.
  - assert (recorded file2 = recorded file ∧ through file2 = through file ∧ folded_through file2 sid = folded_through file sid)
      as (Hrec & Hthr & Hfol).
    { unfold recorded, through, recorded_revision, folded_through, file2, set_watermark. simpl.
      rewrite lookup_insert_ne by done. by rewrite Hw. }
    apply (inv_same_log file); [done..| |done|rewrite Hthr; apply Hinv|rewrite Hthr, Hfol; apply Hinv].
    intros Hsound [Hc Hm]. change (File.views file2) with (File.views file1).
    destruct Hopen as [_ Heq|r' _ _ _ Heq|_ Ho Hcl _]; [done..|].
    rewrite (fold_ops_other _ file0 _ _ Hs Ho E). simpl. rewrite Hcl. apply (inv_current _ Hinv); [done|].
    rewrite (same_log_max file) in Hm by done. split; [congruence|lia].
Qed.
Lemma views_key_reducers store key : Store.reducers store <| Store.views_key := key |> = Store.reducers store.
Proof. done. Qed.

Lemma opens_views_key store store_id key : opens store store_id → opens store <| Store.views_key := key |> store_id.
Proof. intros []; [by apply opens_ours|by eapply opens_other_release|by apply opens_other_product]. Qed.

Lemma bind_views_inv store file store_id store' file' bound :
  opens store store_id → inv file → bind_views store file store_id = Ok (store', file', bound) →
  inv file' ∧ store' = store <| Store.views_key := Some store_id |> ∧ same_log file file' ∧
  match bound with
  | Ok true => Store.reducers store = [r] → store_id = sid → sound r (log_of file) →
      own_views r (File.views file') = log_views r (log_of file)
  | Ok false => file' = file ∧ needs_rebuild store file store_id = false
  | Err _ => file' = file ∧ File.log_base file ≠ None
  end.
Proof.
  intros Hopen Hinv. unfold bind_views.
  change (needs_rebuild store <| Store.views_key := Some store_id |> file store_id) with (needs_rebuild store file store_id).
  destruct (needs_rebuild store file store_id) eqn:En; simpl; [|intros; by simplify_eq].
  destruct (File.log_base file) as [base|] eqn:Eb; [intros; by simplify_eq|].
  destruct (rebuild _ _ _) as [file1|] eqn:E; [|done]. intros. simplify_eq.
  apply rebuild_inv in E as (Hi & Hsame & Hours); [|by apply opens_views_key|done]. done.
Qed.

(** The hook a product opens with; the watermark it leaves behind. *)
Lemma advanced_watermark store file rowid :
  Store.views_key store = Some sid →
  let file' := advance_watermark store file rowid in
  let ours' := fold_revision (Store.reducers store) in
  (File.view_watermarks file !! sid = None ∧ recorded file' = ours' ∧ through file' = rowid ∧
     folded_through file' sid = rowid) ∨
  (recorded file' = recorded file ∧ folded_through file' sid = Z.max (folded_through file sid) rowid ∧
   through file' = if recorded file =? ours' then Z.max (through file) rowid else through file).
Proof.
  intros Hkey. unfold advance_watermark, recorded, through, recorded_revision, folded_through. rewrite Hkey. simpl.
  rewrite lookup_insert_eq. destruct (File.view_watermarks file !! sid) as [w|] eqn:E; simpl; [right|left]; done.
Qed.

Lemma advance_other store file rowid :
  Store.views_key store ≠ Some sid →
  let file' := advance_watermark store file rowid in
  recorded file' = recorded file ∧ through file' = through file ∧ folded_through file' sid = folded_through file sid.
Proof.
  intros Hkey. unfold advance_watermark, recorded, through, recorded_revision, folded_through.
  destruct (Store.views_key store) as [key|]; [|done]. simpl. rewrite lookup_insert_ne by congruence. done.
Qed.

Lemma advance_views store file rowid : File.views (advance_watermark store file rowid) = File.views file.
Proof. unfold advance_watermark. by case_match. Qed.

Lemma needs_rebuild_false store file :
  needs_rebuild store file sid = false →
  fold_revision (Store.reducers store) < recorded file ∨
  (recorded file = fold_revision (Store.reducers store) ∧ max_op_rowid file <= through file).
Proof.
  unfold needs_rebuild, recorded, through. destruct (recorded_revision file sid) as [rec thr]. simpl.
  rewrite orb_false_iff, andb_false_iff, Z.ltb_ge, Z.eqb_neq, Z.ltb_ge. lia.
Qed.

Lemma refolded_ours_views store file file1 :
  inv file → needs_rebuild store file sid = false → fold_whole_log (Store.reducers store) file = Ok file1 →
  sound r (log_of file) → Store.reducers store = [r] → recorded file <= ours →
  own_views r (File.views file1) = log_views r (log_of file).
Proof.
  intros Hinv Hneeds E Hsound Hr Hle. apply needs_rebuild_false in Hneeds. rewrite Hr in *.
  destruct Hneeds as [Hlt|[Heq Hcur]]; [lia|].
  assert (Hown := inv_current _ Hinv Hsound (conj Heq Hcur)).
  rewrite refold_ours in E by apply Hinv. simplify_eq. simpl. rewrite fold_own, Hown, export_log_views by done.
  unfold log_views. by apply fold_again.
Qed.

(** Folding the log again where nothing called for a rebuild, and moving the watermark to its end. *)
Lemma refolded_inv store file store_id file1 :
  opens store store_id → inv file → needs_rebuild store file store_id = false →
  fold_whole_log (Store.reducers store) file = Ok file1 →
  (fold_revision (Store.reducers store) ≠ ours → store_id = sid → folded_through file sid < max_op_rowid file) →
  let file' := advance_watermark store <| Store.views_key := Some store_id |> file1 (max_op_rowid file) in
  inv file' ∧ same_log file file'.
Proof.
  intros Hopen Hinv Hneeds E Hrelease file'. assert (Hframe := E). apply fold_ops_frame in Hframe as [Hsame Hw].
  assert (Hs := inv_schema _ Hinv). assert (Hn := max_op_rowid_nonneg _ (inv_log _ Hinv)).
  assert (Ht := inv_through _ Hinv). assert (Hf := inv_folded _ Hinv).
  assert (same_log file file') as Hsame' by (eapply same_log_trans; [exact Hsame|apply advance_same_log]).
  assert (File.views file' = File.views file1) as Hv by apply advance_views.
  assert (recorded file1 = recorded file ∧ through file1 = through file ∧ folded_through file1 sid = folded_through file sid)
    as (Hrec1 & Hthr1 & Hfol1) by (unfold recorded, through, recorded_revision, folded_through; by rewrite Hw).
  assert (File.ops file = [] → own_views r (File.views file1) = fresh_views r) as Hempty.
  { intros He. rewrite (fold_empty_log _ file _ He E). by apply (inv_empty _ Hinv). }
  split; [|done]. destruct (base.decide (store_id = sid)) as [->|Hne].
  - assert (Store.views_key store <| Store.views_key := Some sid |> = Some sid) as Hkey by done.
    destruct (advanced_watermark store <| Store.views_key := Some sid |> file1 (max_op_rowid file) Hkey)
      as [(Hnone & Hrec & Hthr & Hfol)|(Hrec & Hfol & Hthr)];
      fold file' in Hrec, Hthr, Hfol; rewrite views_key_reducers in *.
    + apply (inv_same_log file); [done..| |by rewrite Hv|lia|lia]. intros Hsound [Hc _]. rewrite Hv.
      apply (refolded_ours_views store file file1); [done..| |].
      * destruct Hopen as [Hr _|r' Hr Hne _ _|_ _ _ Hne]; [done| |done]. rewrite Hr in Hrec. congruence.
      * assert (recorded file = 0) by (rewrite <-Hrec1; unfold recorded, recorded_revision; by rewrite Hnone). lia.
    + apply (inv_same_log file); [done..| |by rewrite Hv|destruct (_ =? _); lia|destruct (_ =? _); lia].
      intros Hsound [Hc Hm]. rewrite Hv. rewrite (same_log_max file) in Hm by done.
      apply (refolded_ours_views store file file1); [done..| |lia].
      destruct Hopen as [Hr _|r' Hr Hne _ _|_ _ _ Hne]; [done| |done]. exfalso. rewrite Hr in *.
      specialize (Hrelease Hne eq_refl). destruct (Z.eqb_spec (recorded file1) (fold_revision [r'])); [congruence|lia].
  - destruct (advance_other store <| Store.views_key := Some store_id |> file1 (max_op_rowid file)) as (Hrec & Hthr & Hfol).
    { simpl. congruence. }
    fold file' in Hrec, Hthr, Hfol.
    apply (inv_same_log file); [done..| |by rewrite Hv|lia|lia]. intros Hsound [Hc Hm].
    rewrite (same_log_max file) in Hm by done. rewrite Hv.
    destruct Hopen as [_ Heq|r' _ _ _ Heq|_ Ho Hcl _]; [done..|].
    rewrite (fold_ops_other _ file _ _ Hs Ho E). apply (inv_current _ Hinv); [done|]. split; [congruence|lia].
Qed.
End runs.
