(* ===== verification/SharedLog.v ===== *)
(** * One log, one board

    The properties of the op-log store: what a product opens is the fold of the log, whoever wrote to the file
    and in whatever order; two replicas that hold the same operations show the same board; and a local write
    lands. *)

From S2P Require Import Prelude Text Utf8 OpModel Changes ChangeFacts Tasks OpStore LogFacts Convergence TaskFacts FileRuns.
From stdpp Require Import options.

Local Open Scope Z_scope.

Section shared.
Local Unset Default Proof Using.
Context {ed : Ed25519} {schema : Schema} {r : Reducer} {conv : Convergent schema r} (sid : string).
Implicit Types (store : Store) (file : File) (op : Op).

Abbreviation ours := (fold_revision [r]).
Abbreviation log_of file := (Stored.op <$> File.ops file) (only parsing).

(** What one handle may do to a file. *)
Inductive step file : File → Prop :=
| step_write locked store draft store' file' out :
    role (schema:=schema) (r:=r) sid store →
    build_and_ingest locked store file draft = Ok (store', file', out) → step file file'
| step_apply store ops store' file' deferred :
    role (schema:=schema) (r:=r) sid store → apply store file ops = Ok (store', file', deferred) → step file file'
| step_open store store_id store' file' out :
    opens (schema:=schema) (r:=r) sid store store_id →
    refold_if_behind store file store_id = Ok (store', file', out) → step file file'
| step_force store store_id store' file' out :
    opens (schema:=schema) (r:=r) sid store store_id →
    fold_revision (Store.reducers store) = ours ∨ store_id ≠ sid →
    force_refold store file store_id = Ok (store', file', out) → step file file'.

(** A file as the product's tables are created in it. *)
Record created file : Prop := {
  created_schema : File.schema file = schema;
  created_ops : File.ops file = [];
  created_views : own_views r (File.views file) = fresh_views r;
  created_watermark : File.view_watermarks file !! sid = None;
  created_base : File.log_base file = None;
}.

Lemma created_inv file : created file → inv (schema:=schema) (r:=r) sid file.
Proof.
  intros [Hs Ho Hv Hw Hb]. split.
  - done.
  - split; rewrite ?Ho, ?Hb; try done; [apply NoDup_nil_2|intros _ row row' ?%not_elem_of_nil; done
      |intros row row' ?%not_elem_of_nil; done|intros row ?%not_elem_of_nil; done|constructor].
  - intros _ _. by rewrite Ho.
  - done.
  - unfold through, recorded_revision, max_op_rowid. by rewrite Hw, Ho.
  - unfold through, recorded_revision, folded_through. by rewrite Hw.
Qed.

Context (ours_nonneg : 0 <= ours).

Lemma refold_if_behind_inv store file store_id store' file' out :
  opens (schema:=schema) (r:=r) sid store store_id → inv (schema:=schema) (r:=r) sid file →
  refold_if_behind store file store_id = Ok (store', file', out) → inv (schema:=schema) (r:=r) sid file'.
Proof.
  intros Hopen Hinv. unfold refold_if_behind.
  destruct (bind_views store file store_id) as [[[store1 file1] bound]|] eqn:E; [|done].
  destruct (bind_views_inv sid _ _ _ _ _ _ Hopen Hinv E) as (Hinv1 & -> & Hsame & Hb).
  destruct bound as [[]|]; [intros; by simplify_eq| |intros; by simplify_eq].
  destruct Hb as [-> Hneeds]. destruct (Z.ltb_spec (folded_through file store_id) (max_op_rowid file)); [|intros; by simplify_eq].
  unfold refold. destruct (fold_whole_log _ file) as [file2|] eqn:Ef; [|done]. intros. simplify_eq.
  eapply (refolded_inv sid); [done|exact Hopen|done|done|exact Ef|]. by intros _ ->.
Qed.

Lemma force_refold_inv store file store_id store' file' out :
  opens (schema:=schema) (r:=r) sid store store_id → inv (schema:=schema) (r:=r) sid file →
  fold_revision (Store.reducers store) = ours ∨ store_id ≠ sid →
  force_refold store file store_id = Ok (store', file', out) → inv (schema:=schema) (r:=r) sid file'.
Proof.
  intros Hopen Hinv Hrel. unfold force_refold.
  destruct (bind_views store file store_id) as [[[store1 file1] bound]|] eqn:E; [|done].
  destruct (bind_views_inv sid _ _ _ _ _ _ Hopen Hinv E) as (Hinv1 & -> & Hsame & Hb).
  destruct bound as [[]|]; [intros; by simplify_eq| |intros; by simplify_eq].
  destruct Hb as [-> Hneeds]. unfold refold. destruct (fold_whole_log _ file) as [file2|] eqn:Ef; [|done].
  intros. simplify_eq. rewrite (same_log_max file file2) by (eapply fold_ops_frame; exact Ef).
  eapply (refolded_inv sid); [done|exact Hopen|done|done|exact Ef|]. by destruct Hrel.
Qed.

Lemma step_inv file file' : step file file' → inv (schema:=schema) (r:=r) sid file → inv (schema:=schema) (r:=r) sid file'.
Proof.
  intros Hstep Hinv. destruct Hstep as [locked store draft store' file' out Hr E|store ops store' file' deferred Hr E
    |store store_id store' file' out Ho E|store store_id store' file' out Ho Hrel E].
  - by eapply (build_and_ingest_inv sid).
  - by eapply (apply_inv sid).
  - by eapply refold_if_behind_inv.
  - by eapply force_refold_inv.
Qed.

Lemma steps_inv file file' : rtc step file file' → inv (schema:=schema) (r:=r) sid file → inv (schema:=schema) (r:=r) sid file'.
Proof. induction 1 as [|f1 f2 f3 Hs _ IH]; intros Hinv; [done|]. by eapply IH, step_inv. Qed.

(** What the hook leaves. *)
Lemma opened_views store file :
  inv (schema:=schema) (r:=r) sid file → Store.reducers store = [r] → File.log_base file = None →
  recorded sid file <= ours → sound r (log_of file) →
  ∃ store' file', refold_if_behind store file sid = Ok (store', file', Ok tt) ∧
    File.ops file' = File.ops file ∧ own_views r (File.views file') = log_views r (log_of file).
Proof.
  intros Hinv Hr Hb Hle Hsound. assert (Hopen : opens (schema:=schema) (r:=r) sid store sid) by by apply opens_ours.
  assert (Hs := inv_schema _ _ Hinv). assert (∃ out, bind_views store file sid = Ok out) as [[[store1 file1] bound] E].
  { unfold bind_views. case_match; [by eexists|]. rewrite Hb. unfold rebuild.
    destruct (fold_log_total (Store.reducers store <| Store.views_key := Some sid |>) file
      <| File.views := clear_all (Store.reducers store <| Store.views_key := Some sid |>) (File.views file) |>) as (f & ->);
      [|by eexists].
    rewrite views_key_reducers, Hr. simpl. rewrite Hs. apply single_total. }
  unfold refold_if_behind. rewrite E. destruct (bind_views_inv sid _ _ _ _ _ _ Hopen Hinv E) as (Hinv1 & -> & Hsame & Hbd).
  destruct bound as [[]|e].
  - eexists _, _. split; [done|]. split; [apply Hsame|]. by apply Hbd.
  - destruct Hbd as [-> Hneeds].
    destruct (fold_log_total (Store.reducers store) file) as (file2 & Ef).
    { rewrite Hr, Hs. apply single_total. }
    assert (own_views r (File.views file2) = log_views r (log_of file)) as Hv
      by by eapply (refolded_ours_views sid).
    destruct (folded_through file sid <? max_op_rowid file).
    + unfold refold. rewrite views_key_reducers, Ef. eexists _, _. split; [done|].
      apply fold_ops_frame in Ef as [Hs2 _].
      split; [rewrite (proj1 (advance_same_log _ _ _)); apply Hs2|]. by rewrite advance_views.
    + eexists _, _. split; [done|]. split; [done|]. apply (inv_current _ _ Hinv Hsound).
      destruct (needs_rebuild_false sid _ _ Hneeds) as [Hlt|[Heq Hcur]]; rewrite Hr in *; [lia|done].
  - by destruct Hbd.
Qed.
End shared.

(** ** The same operations, the same views *)
Section same_set.
Local Unset Default Proof Using.
Context {schema : Schema} {r : Reducer} {conv : Convergent schema r}.

(** No two operations of a log share a coordinate. *)
Definition coordinates_apart (ops : list Op) : Prop :=
  ∀ op1 op2, op1 ∈ ops → op2 ∈ ops →
    Op.lamport op1 = Op.lamport op2 → Op.site op1 = Op.site op2 → op1 = op2.

Lemma log_views_same_set ops1 ops2 :
  sound r ops1 → coordinates_apart ops1 → (∀ op, op ∈ ops1 ↔ op ∈ ops2) → log_views r ops1 = log_views r ops2.
Proof.
  intros Hs Hc Hset. apply foldl_same_set; [done|..].
  - intros op Hop views. unfold fold1. destruct (folds r op) eqn:E; [|done].
    apply settled_nothing, settled_folded; [by apply folds_foldable|by eapply sound_minted].
  - intros op1 op2 H1 H2. by apply (fold1_commute ops1); [..|by apply Hc].
Qed.

Lemma sound_same_set ops1 ops2 : (∀ op, op ∈ ops1 ↔ op ∈ ops2) → sound r ops1 → sound r ops2.
Proof. intros Hset. apply sound_sub. intros op. apply Hset. Qed.
End same_set.

(** ** A key of its own *)
Definition toy_ed : Ed25519 := Build_Ed25519 unit (λ _, "key") (λ _ bytes, bytes) (λ _ sig bytes, bool_decide (sig = bytes)).

(** A file that handles of any kind wrote to since it was created. *)
Definition reached {ed : Ed25519} {schema : Schema} {r : Reducer} {conv : Convergent schema r} (sid : string) (file : File) : Prop :=
  ∃ file0, created (schema:=schema) (r:=r) sid file0 ∧ rtc (step (schema:=schema) (r:=r) sid) file0 file.

Lemma reached_inv {ed : Ed25519} {schema : Schema} {r : Reducer} {conv : Convergent schema r} (sid : string) file :
  (0 <= fold_revision [r])%Z → reached (schema:=schema) (r:=r) sid file → inv (schema:=schema) (r:=r) sid file.
Proof. intros Hnn (file0 & Hc & Hs). eapply steps_inv; [done..|]. by apply created_inv. Qed.

(** ** A board two processes write to *)
Definition raw_store : @Store.Store toy_ed := Store.Mk toy_ed 1 0 "" [] None false tt.
Definition flow_store : @Store.Store toy_ed := Store.Mk toy_ed 1 0 "" [TaskReducer] None false tt.
Definition board0 : File := File.Mk flow_schema [] true (fresh_views TaskReducer) ∅ None 9 4.
Definition set_op (op_id : string) (lamport site : Z) (value : string) : Op :=
  Op.Mk op_id lamport site DOMAIN_TASK "item" "i" "title" "set" (Some value) "ann" "" None None.
Definition pulled (ops : list Op) : File :=
  match apply (ed:=toy_ed) raw_store board0 ops with Ok (_, file, _) => file | Err _ => board0 end.
Definition board (file : File) : Views :=
  match refold_if_behind (ed:=toy_ed) flow_store file "flow" with
  | Ok (_, file, Ok tt) => own_views TaskReducer (File.views file)
  | _ => ∅
  end.

Lemma board0_created : created (schema:=flow_schema) (r:=TaskReducer) "flow" board0.
Proof. by split. Qed.

Lemma raw_role : role (ed:=toy_ed) (schema:=flow_schema) (r:=TaskReducer) "flow" raw_store.
Proof.
  assert (∀ op, folder_for [] op = None) as Hn by (intros op; unfold folder_for; by case_match).
  apply role_other_product; [|..|done|done].
  - intros op r' views H. simpl in H. by rewrite Hn in H.
  - intros op r' views views' H. simpl in H. by rewrite Hn in H.
Qed.

Lemma pulled_reached ops :
  match apply (ed:=toy_ed) raw_store board0 ops with Ok _ => true | Err _ => false end = true →
  reached (ed:=toy_ed) (schema:=flow_schema) (r:=TaskReducer) "flow" (pulled ops).
Proof.
  intros E. exists board0. split; [apply board0_created|]. apply rtc_once. unfold pulled.
  destruct (apply raw_store board0 ops) as [[[store1 file1] deferred1]|] eqn:Ea; [|done].
  by eapply (step_apply (ed:=toy_ed)); [apply raw_role|].
Qed.

Lemma sound_ops ops :
  Forall (λ op1, Forall (λ op2, Op.op_id op1 = Op.op_id op2 → op1 = op2) ops) ops →
  Forall minted ops → sound TaskReducer ops.
Proof.
  rewrite !Forall_forall. intros Hid Hm. split.
  - intros op1 op2 H1 H2. specialize (Hid op1 H1). rewrite Forall_forall in Hid. exact (Hid op2 H2).
  - intros op Hop _. by apply Hm.
Qed.

Global Instance minted_dec op : Decision (minted op).
Proof. unfold minted. apply _. Defined.



(** C6: Two replicas that hold the same operations, with distinct ids, on distinct coordinates and numbered from
    1, show the same board once each has opened its file, where each file holds its log from the start and no
    release newer than the one that opens has folded it: neither the order the operations came in, nor how
    often, nor which other products and older releases folded them before decides. *)
Theorem replicas_converge {ed : Ed25519} {schema : Schema} {r : Reducer} {conv : Convergent schema r}
    (sid : string) (file1 file2 file1' file2' : File) (store1 store2 store1' store2' : Store) :
  (0 <= fold_revision [r])%Z →
  reached (schema:=schema) (r:=r) sid file1 → reached (schema:=schema) (r:=r) sid file2 →
  Store.reducers store1 = [r] → Store.reducers store2 = [r] →
  File.log_base file1 = None → File.log_base file2 = None →
  (recorded sid file1 <= fold_revision [r])%Z → (recorded sid file2 <= fold_revision [r])%Z →
  sound r (Stored.op <$> File.ops file1) → coordinates_apart (Stored.op <$> File.ops file1) →
  (∀ op, op ∈ Stored.op <$> File.ops file1 ↔ op ∈ Stored.op <$> File.ops file2) →
  refold_if_behind store1 file1 sid = Ok (store1', file1', Ok tt) →
  refold_if_behind store2 file2 sid = Ok (store2', file2', Ok tt) →
  own_views r (File.views file1') = own_views r (File.views file2').
Proof.
  intros Hnn Hi1%reached_inv Hi2%reached_inv Hr1 Hr2 Hb1 Hb2 Hl1 Hl2 Hs Hc Hset E1 E2; [|done..].
  destruct (opened_views sid store1 file1) as (s1 & f1 & E1' & _ & Hv1); [done..|].
  destruct (opened_views sid store2 file2) as (s2 & f2 & E2' & _ & Hv2); [try done..|].
  { by eapply sound_same_set. }
  rewrite E1 in E1'. rewrite E2 in E2'. simplify_eq. rewrite Hv1, Hv2. by apply log_views_same_set.
Qed.

Lemma opens_ok file :
  match refold_if_behind (ed:=toy_ed) flow_store file "flow" with Ok (_, _, Ok tt) => true | _ => false end = true →
  ∃ store' file', refold_if_behind (ed:=toy_ed) flow_store file "flow" = Ok (store', file', Ok tt).
Proof. destruct (refold_if_behind _ _ _) as [[[s f] [[]|]]|]; try discriminate. intros _. by exists s, f. Qed.

Lemma replicas_converge_witness :
  board (pulled [set_op "a" 2 7 "new"; set_op "b" 1 8 "old"]) =
  board (pulled [set_op "b" 1 8 "old"; set_op "a" 2 7 "new"; set_op "b" 1 8 "old"]).
Proof.
  set (file1 := pulled _). set (file2 := pulled _).
  destruct (opens_ok file1) as (s1 & f1 & E1); [vm_compute; reflexivity|].
  destruct (opens_ok file2) as (s2 & f2 & E2); [vm_compute; reflexivity|].
  unfold board. rewrite E1, E2.
  apply (replicas_converge (ed:=toy_ed) (schema:=flow_schema) (r:=TaskReducer) "flow" file1 file2 f1 f2
    flow_store flow_store s1 s2); [by vm_compute|..|exact E1|exact E2].
  - apply pulled_reached. vm_compute. reflexivity.
  - apply pulled_reached. vm_compute. reflexivity.
  - reflexivity.
  - reflexivity.
  - vm_compute. reflexivity.
  - vm_compute. reflexivity.
  - by vm_compute.
  - by vm_compute.
  - apply sound_ops; apply (bool_decide_unpack _); by vm_compute.
  - assert (Stored.op <$> File.ops file1 = [set_op "a" 2 7 "new"; set_op "b" 1 8 "old"]) as -> by by vm_compute.
    intros op1 op2 H1 H2 Hl _. rewrite !elem_of_cons in H1, H2.
    destruct H1 as [->|[->|H1%not_elem_of_nil]], H2 as [->|[->|H2%not_elem_of_nil]];
      first [reflexivity|discriminate Hl|contradiction].
  - assert (Stored.op <$> File.ops file1 = [set_op "a" 2 7 "new"; set_op "b" 1 8 "old"]) as -> by by vm_compute.
    assert (Stored.op <$> File.ops file2 = [set_op "b" 1 8 "old"; set_op "a" 2 7 "new"]) as -> by by vm_compute.
    intros op. rewrite !elem_of_cons. tauto.
Defined.

(** ** Numbers below 1 *)

(** A board whose handle takes operations in as they come. *)
Definition received (ops : list Op) : Views :=
  match refold_if_behind (ed:=toy_ed) flow_store board0 "flow" with
  | Ok (store, file, Ok tt) =>
      match apply store file ops with Ok (_, file, _) => File.views file | Err _ => ∅ end
  | _ => ∅
  end.

Definition cell (table : string) (id : list Cell) (column : string) (views : Views) : option Cell :=
  rows ← views !! table; row ← rows !! id; row !! column.

Definition item_op (op_id : string) (lamport : Z) (field value wall_clock : string) : Op :=
  Op.Mk op_id lamport 7 DOMAIN_TASK "item" "i" field "set" (Some value) "ann" wall_clock None None.

(** An operation whose number is below 1 does not lose every comparison in which the highest version
    wins: it writes its field when it is the first of its item to arrive, and is ignored when it is not, since
    a row is inserted whatever the number and its version columns start at 0. Two replicas that hold the same
    two operations, and folded each as it came, show different titles. *)
Example numbers_below_one_decide_by_order :
  let forged := item_op "a" (-1) "title" "forged" "" in
  let honest := item_op "b" 1 "status" "open" "" in
  folds TaskReducer forged = true ∧ folds TaskReducer honest = true ∧ compatible forged honest ∧
  cell "items" [Cell.Text "i"] "title" (received [forged; honest]) = Some (Cell.Text "forged") ∧
  cell "items" [Cell.Text "i"] "title" (received [honest; forged]) = Some Cell.Null.
Proof. split_and!; try (vm_compute; reflexivity). by split. Qed.

(** A number below 1 wins the register that keeps the lowest version: the task reducer folds it into the
    date an item was created, and the date of the operation that did create it is gone. *)
Example numbers_below_one_take_the_date :
  let created := item_op "b" 1 "title" "real" "2026-01-01" in
  let forged := item_op "a" (-1) "title" "forged" "1970-01-01" in
  cell "item_timestamps" [Cell.Text "i"] "created_at" (received [created]) = Some (Cell.Text "2026-01-01") ∧
  cell "item_timestamps" [Cell.Text "i"] "created_at" (received [created; forged]) = Some (Cell.Text "1970-01-01") ∧
  cell "items" [Cell.Text "i"] "title" (received [created; forged]) = Some (Cell.Text "real").
Proof. split_and!; vm_compute; reflexivity. Qed.
