(* ===== verification/Edits.v ===== *)
(** * Edits show

    The board of a replica after a local edit: the new value of the field is what is read back, unless a
    received operation whose number the clock does not follow has pinned the field. *)

From S2P Require Import Prelude Text Utf8 OpModel Changes ChangeFacts Tasks OpStore LogFacts Convergence TaskFacts FileRuns SharedLog.
From stdpp Require Import options.

Local Open Scope Z_scope.

(** ** Where a version comes from *)

(** Operations on one field of one item. *)
Definition edits (item f : string) (op : Op) : Prop :=
  folds TaskReducer op = true ∧ Op.target_kind op = "item" ∧ Op.target_id op = item ∧ Op.field op = f.

(** Every item row has its version columns, and a number in one is that of an operation on the field. *)
Definition versions_from (ops : list Op) (views : Views) : Prop :=
  ∀ rows item row f, views !! "items" = Some rows → rows !! [Cell.Text item] = Some row → f ∈ ITEM_LWW_FIELDS →
    ∃ n, row !! (f +:+ "_v") = Some (Cell.Int n) ∧ (n <= 0 ∨ ∃ op, op ∈ ops ∧ edits item f op ∧ n = Op.lamport op).

Lemma seed_version item f :
  f ∈ ITEM_LWW_FIELDS → new_row items_def [("id", Cell.Text item)] !! (f +:+ "_v") = Some (Cell.Int 0).
Proof. intros Hf. cases_in Hf; vm_compute; reflexivity. Qed.

(** What one write to an item does to its row. *)
Definition item_write (op : Op) (f : string) : Write :=
  Write.Mk "items" items_def [Cell.Text (Op.target_id op)] [("id", Cell.Text (Op.target_id op))]
    (Effect.Register [(f, text_or_null (Op.value op))] [(f +:+ "_v", Op.lamport op); (f +:+ "_site", Op.site op)] Wins.Higher).

Lemma to_write_item op f :
  to_write (register "items" [("id", Cell.Text (Op.target_id op))] [(f, text_or_null (Op.value op))]
    (f +:+ "_v", f +:+ "_site") (version op) Wins.Higher) = item_write op f.
Proof. unfold to_write, item_write. f_equal. Qed.

Lemma items_unaffected op c views :
  task_change op c → Change.table c ≠ "items" → carry_out views (to_write c) !! "items" = views !! "items".
Proof. intros _ Ht. apply carry_out_other. intros Heq. by apply Ht. Qed.

Lemma items_changes op c :
  folds TaskReducer op = true → c ∈ task_changes op → Change.table c = "items" →
  ∃ f, f ∈ ITEM_LWW_FIELDS ∧ to_write c = item_write op f ∧ edits (Op.target_id op) f op.
Proof.
  intros Hf Hc. assert (Hs := task_shape op c (folds_foldable (r:=TaskReducer) op Hf) Hc). clear Hc.
  destruct Hs as [f Hf' Hk Hfield| |value label Hp|tag| | |from to kind Hp|item_id label Hp|thread_id item_id relation weight Hp
    |table tag Ht| | |ids payload Hp|id]; intros Htab; try discriminate Htab.
  - exists f. split; [done|]. split; [apply to_write_item|done].
  - simpl in Htab. subst table. not_a_tombstone Ht.
Qed.

Lemma item_columns_nodup f : f ∈ ITEM_LWW_FIELDS → NoDup [f; f +:+ "_v"; f +:+ "_site"].
Proof. intros Hf. cases_in Hf; apply (bool_decide_unpack _); vm_compute; reflexivity. Qed.

(** The version after a write to the item's row. *)
Lemma item_write_version op g row f :
  f ∈ ITEM_LWW_FIELDS → g ∈ ITEM_LWW_FIELDS →
  update (Write.effect (item_write op g)) row !! (f +:+ "_v") = row !! (f +:+ "_v") ∨
  (f = g ∧ update (Write.effect (item_write op g)) row !! (f +:+ "_v") = Some (Cell.Int (Op.lamport op))).
Proof.
  intros Hf Hg. destruct (base.decide (f = g)) as [->|Hne].
  - simpl. case_match; [|by left]. right. split; [done|].
    apply (set_cells_lookup ([(g, text_or_null (Op.value op))] ++
      version_cells [(g +:+ "_v", Op.lamport op); (g +:+ "_site", Op.site op)])); [by apply item_columns_nodup|].
    simpl. right. by left.
  - left. apply update_lookup_ne. intros Hin.
    apply (item_columns_disjoint f g Hf Hg Hne (f +:+ "_v")); [set_solver|exact Hin].
Qed.

Lemma versions_step ops views op c :
  folds TaskReducer op = true → op ∈ ops → minted op → c ∈ task_changes op →
  versions_from ops views → versions_from ops (carry_out views (to_write c)).
Proof.
  intros Hf Hop Hm Hc Hv. destruct (base.decide (Change.table c = "items")) as [Ht|Ht].
  2:{ intros rows item row f. rewrite (items_unaffected op); [apply Hv| |done].
      by apply task_shape; [apply (folds_foldable (r:=TaskReducer))|]. }
  destruct (items_changes op c Hf Hc Ht) as (g & Hg & Hw & Hedits). rewrite Hw.
  assert (plain (item_write op g)) as Hplain.
  { rewrite <-Hw. eapply task_plain; [done|]. by apply task_shape; [apply (folds_foldable (r:=TaskReducer))|]. }
  intros rows item row f Hrows Hrow Hf'. unfold carry_out in Hrows. simpl Write.table in Hrows.
  rewrite lookup_insert_eq in Hrows. rewrite write_row_update in Hrows by done. simplify_eq.
  change (Write.id (item_write op g)) with [Cell.Text (Op.target_id op)] in Hrow.
  destruct (base.decide (Op.target_id op = item)) as [<-|Hne].
  - rewrite lookup_insert_eq in Hrow. simplify_eq.
    set (old := default (seed (item_write op g)) _).
    assert (∃ n, old !! (f +:+ "_v") = Some (Cell.Int n) ∧
      (n <= 0 ∨ ∃ o, o ∈ ops ∧ edits (Op.target_id op) f o ∧ n = Op.lamport o)) as (n & Hn & Hwhere).
    { unfold old. destruct (views !! "items") as [rs|] eqn:Ers; simpl.
      - destruct (rs !! [Cell.Text (Op.target_id op)]) as [rw|] eqn:Erw; simpl; [by eapply Hv|].
        exists 0. split; [by apply seed_version|]. left. lia.
      - rewrite lookup_empty. simpl. exists 0. split; [by apply seed_version|]. left. lia. }
    destruct (item_write_version op g old f Hf' Hg) as [->|[-> ->]]; [by exists n|].
    exists (Op.lamport op). split; [done|]. right. by exists op.
  - rewrite lookup_insert_ne in Hrow by congruence.
    destruct (views !! "items") as [rs|] eqn:Ers; simpl in Hrow; [|by rewrite lookup_empty in Hrow].
    by eapply Hv.
Qed.

Lemma versions_fold ops views op :
  folds TaskReducer op = true → op ∈ ops → minted op → versions_from ops views → versions_from ops (task_folded views op).
Proof.
  intros Hf Hop Hm. unfold task_folded, carry_all.
  assert (∀ cs, (∀ c, c ∈ cs → c ∈ task_changes op) → ∀ views,
    versions_from ops views → versions_from ops (foldl carry_out views (to_write <$> cs))) as H.
  { induction cs as [|c cs IH]; intros Hsub v Hv; simpl; [done|]. apply IH; [set_solver|].
    apply (versions_step ops v op c); [done..| |done]. apply Hsub. by left. }
  by apply H.
Qed.

Lemma versions_log ops : sound TaskReducer ops → versions_from ops (log_views TaskReducer ops).
Proof.
  intros Hs. unfold log_views.
  assert (∀ l views, (∀ op, op ∈ l → op ∈ ops) → versions_from ops views → versions_from ops (foldl fold1 views l)) as H.
  { induction l as [|op l IH]; intros views Hl Hv; simpl; [done|]. apply IH; [set_solver|].
    unfold fold1. destruct (folds TaskReducer op) eqn:E; [|done].
    apply versions_fold; [done|set_solver| |done]. eapply sound_minted; [done|set_solver|done]. }
  apply H; [done|]. intros rows item row f Hrows Hrow. unfold fresh_views in Hrows.
  rewrite clear_views_lookup in Hrows. case_decide; simplify_eq; by rewrite lookup_empty in Hrow.
Qed.

(** ** One edit *)
Definition edit (op_id item f : string) (value : option string) (author : string) : Draft :=
  Draft.Mk op_id DOMAIN_TASK "item" (Target.Given item) f "set" value author.

Lemma edit_folds op item f value :
  Op.domain op = DOMAIN_TASK → Op.target_kind op = "item" → Op.target_id op = item → Op.field op = f →
  Op.op_type op = "set" → Op.value op = value → f ∈ ITEM_LWW_FIELDS → Op.lamport op <= MAX_LAMPORT →
  folds TaskReducer op = true ∧
  task_changes op = [register "items" [("id", Cell.Text item)] [(f, text_or_null value)]
    (f +:+ "_v", f +:+ "_site") (version op) Wins.Higher] ++ timestamp_changes op.
Proof.
  intros Hd Hk Hi Hf Ht Hv Hin Hl. split.
  - apply folds_spec. split_and!; [by apply Z.leb_le|by rewrite Hd|]. simpl. unfold is_foldable.
    rewrite bool_decide_eq_true_2, Ht by done. simpl. by apply bool_decide_eq_true_2; rewrite Hf.
  - unfold task_changes, op_changes, dates_item. rewrite Hk, Ht. simpl.
    f_equal. unfold item_lww. rewrite Hf, find_field, Hv, Hi by done. done.
Qed.

(** A write that beats what the row holds is read back. *)
Lemma item_write_reads op f views :
  f ∈ ITEM_LWW_FIELDS → minted op →
  (∀ rows row, views !! "items" = Some rows → rows !! [Cell.Text (Op.target_id op)] = Some row →
     ∃ n, row !! (f +:+ "_v") = Some (Cell.Int n) ∧ n < Op.lamport op) →
  cell "items" [Cell.Text (Op.target_id op)] f (carry_out views (item_write op f)) = Some (text_or_null (Op.value op)).
Proof.
  intros Hf Hm Hrow. assert (Hnd := item_columns_nodup f Hf).
  assert (∀ row, set_cells ([(f, text_or_null (Op.value op))] ++
    version_cells [(f +:+ "_v", Op.lamport op); (f +:+ "_site", Op.site op)]) row !! f = Some (text_or_null (Op.value op))) as Hset
    by (intros row; apply set_cells_lookup; [done|by left]).
  unfold cell, carry_out. simpl Write.table. rewrite lookup_insert_eq. simpl.
  rewrite lookup_insert_eq. simpl. destruct (views !! "items") as [rows|] eqn:Er; simpl; [|apply Hset].
  destruct (rows !! [Cell.Text (Op.target_id op)]) as [row|] eqn:Ew; [|apply Hset].
  destruct (Hrow rows row eq_refl Ew) as (n & Hn & Hlt). unfold unwritten. simpl. rewrite Hn.
  rewrite (proj2 (Z.eqb_neq (Op.lamport op) n)), (proj2 (Z.ltb_lt n (Op.lamport op))), orb_true_r by lia. apply Hset.
Qed.

(** C8: An edit of a field through a handle of the board shows: the write succeeds, also under debug
    assertions, whatever received operations squat on the replica's coordinates, and the field of the item
    then reads the edited value - unless a received operation above the ceiling the clock follows is on
    that field. *)
Theorem edits_show {ed : Ed25519} (debug : bool) (store : Store) (file : File) (op_id item f : string)
    (value : option string) (author : string) :
  File.schema file = flow_schema → Store.reducers store = [TaskReducer] →
  writable file (Store.site store) → clock_ok store file →
  sound TaskReducer (Stored.op <$> File.ops file) →
  own_views TaskReducer (File.views file) = log_views TaskReducer (Stored.op <$> File.ops file) →
  is_attributable author = true → holds_op file op_id = false → f ∈ ITEM_LWW_FIELDS →
  (∀ row, row ∈ File.ops file → edits item f (Stored.op row) → lamport_of row <= CLOCK_CEILING ∨ is_own row = true) →
  ∃ store' file', try_emit debug false store file (edit op_id item f value author) = Ok (store', file', op_id) ∧
    cell "items" [Cell.Text item] f (File.views file') = Some (text_or_null value).
Proof.
  intros Hs Hr Hw Hc Hsound Hviews Ha Hfresh Hf Hpin.
  destruct (build_and_ingest_spec store file (edit op_id item f value author)) as (store' & file' & op & E & Hwr); [done..| |done|done|].
  { rewrite Hs, Hr. apply single_total. }
  destruct Hwr as [Hlog Hop Hb Hfree Habove _ Hinto _].
  destruct (edit_folds op item f value) as [Hfolds Hch]; [rewrite Hop; reflexivity..|done|apply Hb|].
  exists store', file'. unfold try_emit. rewrite E. split.
  { assert (verdict_of store op = Ingest.Folded) as ->; [|by rewrite andb_false_r].
    unfold verdict_of. rewrite Hr. unfold folds in Hfolds. by destruct (folder_for [TaskReducer] op). }
  apply (ours_views (schema:=flow_schema) (r:=TaskReducer)) in Hinto; [|done|done].
  rewrite Hinto. unfold fold1. rewrite Hfolds. simpl folded. unfold task_folded. rewrite Hch.
  assert (Op.target_id op = item) as Hti by by rewrite Hop. assert (Op.value op = value) as Hval by by rewrite Hop.
  rewrite fmap_app. simpl. rewrite <-Hti, <-Hval, to_write_item.
  assert (∀ id views w1 w2, Write.table w1 ≠ "items" → Write.table w2 ≠ "items" →
    cell "items" id f (carry_out (carry_out views w1) w2) = cell "items" id f views) as Hrest.
  { intros id views w1 w2 H1 H2. unfold cell. by rewrite !carry_out_other by congruence. }
  unfold carry_all. simpl. rewrite Hrest by done. apply item_write_reads; [done|unfold minted; lia|].
  intros rows row Hrows Hrow. rewrite Hti in Hrow.
  assert (log_views TaskReducer (Stored.op <$> File.ops file) !! "items" = Some rows) as Hrows'
    by (rewrite <-Hviews, own_views_lookup; by rewrite decide_True by (simpl; set_solver)).
  destruct (versions_log _ Hsound rows item row f Hrows' Hrow Hf) as (n & Hn & Hwhere). exists n. split; [done|].
  destruct Hwhere as [Hle|(o & Ho & Hed & ->)]; [lia|].
  apply list_elem_of_fmap in Ho as (rw & -> & Hrw). apply (Habove rw Hrw). by apply Hpin.
Qed.

(** A board on which received operations sit on the ceiling, and squat on the number that comes next. *)
Definition squatters : list Op :=
  [set_op "a" CLOCK_CEILING 9 "ceiling";
   Op.Mk "b" (CLOCK_CEILING + 1) 1 DOMAIN_TASK "item" "i" "status" "set" (Some "open") "eve" "" None None;
   Op.Mk "c" (CLOCK_CEILING + 2) 1 DOMAIN_TASK "item" "j" "status" "set" (Some "open") "eve" "" None None].
Definition squatted : File :=
  match refold_if_behind (ed:=toy_ed) flow_store (pulled squatters) "flow" with Ok (_, file, _) => file | Err _ => board0 end.

Lemma squatted_inv : inv (schema:=flow_schema) (r:=TaskReducer) "flow" squatted.
Proof.
  apply (reached_inv (ed:=toy_ed)); [by vm_compute|].
  destruct (pulled_reached squatters) as (file0 & Hc & Hs); [vm_compute; reflexivity|].
  exists file0. split; [done|]. eapply rtc_r; [exact Hs|]. unfold squatted.
  destruct (opens_ok (pulled squatters)) as (s & f & E); [vm_compute; reflexivity|]. rewrite E.
  eapply (step_open (ed:=toy_ed)); [|exact E]. by apply opens_ours.
Qed.

Lemma squatted_writable : writable squatted 1.
Proof.
  split.
  - apply (inv_log _ _ squatted_inv).
  - intros row Hrow Hown. exfalso.
    assert (forallb (λ row, negb (is_own row)) (File.ops squatted) = true) as Hf by (vm_compute; reflexivity).
    rewrite forallb_forall in Hf. apply list_elem_of_In in Hrow. specialize (Hf row Hrow).
    rewrite Hown in Hf. discriminate Hf.
  - by vm_compute.
Qed.

Lemma edits_show_witness :
  ∃ store' file',
    try_emit (ed:=toy_ed) true false flow_store squatted (edit "x" "i" "title" (Some "mine") "ann") = Ok (store', file', "x") ∧
    cell "items" [Cell.Text "i"] "title" (File.views file') = Some (Cell.Text "mine").
Proof.
  apply (edits_show (ed:=toy_ed) true flow_store squatted "x" "i" "title" (Some "mine") "ann").
  - apply (inv_schema _ _ squatted_inv).
  - reflexivity.
  - exact squatted_writable.
  - intros k Hk. change (CLOCK_CEILING < k <= 0) in Hk. assert (Hb := ceiling_below_bound). lia.
  - apply sound_ops; apply (bool_decide_unpack _); vm_compute; reflexivity.
  - apply (bool_decide_unpack _). vm_compute. reflexivity.
  - vm_compute. reflexivity.
  - vm_compute. reflexivity.
  - apply (bool_decide_unpack _). vm_compute. reflexivity.
  - intros row Hrow Hed. left.
    assert (forallb (λ row, negb (bool_decide (Op.field (Stored.op row) = "title")) || (lamport_of row <=? CLOCK_CEILING))
      (File.ops squatted) = true) as Hf by (vm_compute; reflexivity).
    rewrite forallb_forall in Hf. apply list_elem_of_In in Hrow. specialize (Hf row Hrow).
    destruct Hed as (_ & _ & _ & Hed). rewrite Hed in Hf. by apply Z.leb_le.
Defined.

(** C7: A local write lands: it appends one operation, signed, with a number from 1 on within the bound up to
    which operations fold, on a coordinate no operation of the log holds, above every number the clock
    follows - those of received operations up to the ceiling and those of the replica's own. It does so
    also where received operations squat on the coordinates that come next, stepping over them at most once;
    the panics of the loop, the clock and the jump are never reached while the log holds fewer operations
    than the ceiling. *)
Theorem local_writes_land {ed : Ed25519} (store : Store) (file : File) (draft : Draft) :
  writable file (Store.site store) → clock_ok store file →
  folds_total (File.schema file) (Store.reducers store) →
  is_attributable (Draft.author draft) = true → holds_op file (Draft.op_id draft) = false →
  ∃ store' file' op,
    build_and_ingest false store file draft =
      Ok (store', file', (Draft.op_id draft, if folder_for (Store.reducers store) op then Ingest.Folded else Ingest.Deferred)) ∧
    File.ops file' = File.ops file ++ [Stored.Mk (max_op_rowid file + 1) op Provenance.Own] ∧
    op = seal (Store.key store) (with_lamport (built store draft) (Op.lamport op)) ∧
    1 <= Op.lamport op <= MAX_LAMPORT ∧ ¬ held file (Store.site store) (Op.lamport op) ∧
    (∀ row, row ∈ File.ops file → lamport_of row <= CLOCK_CEILING ∨ is_own row = true → lamport_of row < Op.lamport op) ∧
    log_ok file' ∧ own_dense file' (Store.site store) ∧ clock_ok store' file' ∧ Store.clock store' = Op.lamport op.
Proof.
  intros Hw Hc Ht Ha Hf. destruct (build_and_ingest_spec store file draft Hw Hc Ht Ha Hf) as (store' & file' & op & E & Hwr).
  exists store', file', op. destruct Hwr as [Hlog Hop Hb Hfree Habove [Hok Hd] _ (Hcl & _ & Hn)]. destruct Hb. split_and!; done.
Qed.

Lemma local_writes_land_witness :
  ∃ store' file' op,
    build_and_ingest (ed:=toy_ed) false flow_store squatted (edit "x" "i" "title" (Some "mine") "ann") =
      Ok (store', file', ("x", if folder_for [TaskReducer] op then Ingest.Folded else Ingest.Deferred)).
Proof.
  destruct (local_writes_land (ed:=toy_ed) flow_store squatted (edit "x" "i" "title" (Some "mine") "ann"))
    as (store' & file' & op & E & _).
  - exact squatted_writable.
  - intros k Hk. change (CLOCK_CEILING < k <= 0) in Hk. assert (Hb := ceiling_below_bound). lia.
  - apply (single_total (schema:=flow_schema) (r:=TaskReducer)).
  - vm_compute. reflexivity.
  - vm_compute. reflexivity.
  - exists store', file', op. exact E.
Defined.
