(* ===== verification/Images.v ===== *)
(** * Images of a store

    [foundation/src/image.rs] and the image half of [store.rs]: the log and the views of a store as a value a
    new replica starts from, with or without the operations below a position of the relay. Tables are whole:
    column names and rows of cells. The version of the engine is a parameter. *)

From S2P Require Import Prelude Text Utf8 OpModel Changes OpStore.
From stdpp Require Import options.

Definition SCHEMA_VERSION : Z := 9.
Definition BASED_MIN_COMPATIBLE : Z := 9.

(** The cells of an image; the digits of a real do not matter here. *)
Module ICell.
Inductive Cell := Null | Integer (v : Z) | Real (digits : string) | Text (v : string).
End ICell.
Abbreviation ICell := ICell.Cell (only parsing).

Module ITable.
Record Table := Mk { name : string; columns : list string; rows : list (list ICell) }.
End ITable.
Abbreviation ITable := ITable.Table (only parsing).

Module ViewBase.
(** [of] is a keyword here. *)
Record ViewBase := Mk { of_ : string; domain : string; fold_revision : Z }.
End ViewBase.
Abbreviation ViewBase := ViewBase.ViewBase (only parsing).

Module Base.
Record Base := Mk {
  relay_position : Z;
  clock : Z;
  residue : Z;
  kept_domains : list string;
  view_bases : list ViewBase;
  anchor : option string;
  dropped : Z;
  dropped_digest : string;
}.
End Base.
Abbreviation Base := Base.Base (only parsing).

Module Image.
Record Image := Mk {
  engine : string;
  schema_version : Z;
  min_compatible : Z;
  ops : ITable;
  views_of : option string;
  folded_through : Z;
  fold_revision : Z;
  views : list ITable;
  base : option Base;
}.
End Image.
Abbreviation Image := Image.Image (only parsing).

Module RefoldReason.
Inductive RefoldReason :=
| NoViews
| OtherEngine (written_by : string)
| OtherSchema (written_at : Z)
| OtherRevision (written_at : Z)
| OtherViews.
End RefoldReason.
Abbreviation RefoldReason := RefoldReason.RefoldReason (only parsing).

Module Loaded.
Inductive Loaded := Views | Refolded (reason : RefoldReason).
End Loaded.
Abbreviation Loaded := Loaded.Loaded (only parsing).

(** What a load fails with; [Panicked] is the panic of a fold. The texts of a malformed image are left out. *)
Module ImageError.
Inductive ImageError :=
| TooNew (min_compatible ours : Z)
| NotEmpty (ops : Z)
| Malformed
| NeedsSchema (written_at ours : Z)
| NeedsRevision (of_ domain : string) (snapshot : Z) (ours : option Z)
| MissingViewBase (domain : string)
| ViewsDiffer
| Storage
| Panicked (f : Fault).
End ImageError.
Abbreviation ImageError := ImageError.ImageError (only parsing).

(** ** Reading a table whole *)
Definition to_icell (c : Cell) : ICell :=
  match c with Cell.Null => ICell.Null | Cell.Int v => ICell.Integer v | Cell.Text v => ICell.Text v end.
Definition itext (v : option string) : ICell := from_option ICell.Text ICell.Null v.

Definition ops_columns : list string :=
  ["rowid"; "op_id"; "lamport"; "site"; "target_kind"; "target_id"; "field"; "op_type"; "value"; "author";
   "wall_clock"; "domain"; "key_id"; "sig"; "provenance"].

Definition dump_op (row : Stored) : list ICell :=
  let op := Stored.op row in
  [ICell.Integer (Stored.rowid row); ICell.Text (Op.op_id op); ICell.Integer (Op.lamport op);
   ICell.Integer (Op.site op); ICell.Text (Op.target_kind op); ICell.Text (Op.target_id op);
   ICell.Text (Op.field op); ICell.Text (Op.op_type op); itext (Op.value op); ICell.Text (Op.author op);
   ICell.Text (Op.wall_clock op); ICell.Text (Op.domain op); itext (Op.key_id op); itext (Op.sig op);
   ICell.Text (Provenance_as_str (Stored.provenance row))].

Definition dump_ops (file : File) : ITable := ITable.Mk "ops" ops_columns (dump_op <$> File.ops file).

(** [None] for a table the file does not have. *)
Definition dump_view (file : File) (table : string) : option ITable :=
  def ← File.schema file !! table;
  let columns := Column.name <$> TableDef.columns def in
  let rows := (map_to_list (default ∅ (File.views file !! table))).*2 in
  Some (ITable.Mk table columns
    ((λ row : Row, (λ c, to_icell (default Cell.Null (row !! c))) <$> columns) <$> rows)).

(** ** The log of an image *)
Module LogRow.
Record LogRow := Mk { rowid : Z; op : Op }.
End LogRow.
Abbreviation LogRow := LogRow.LogRow (only parsing).

Definition get (row : list ICell) (i : nat) : ICell := default ICell.Null (row !! i).
Definition text_at (row : list ICell) (i : nat) : option string :=
  match get row i with ICell.Text t => Some t | _ => None end.
Definition int_at (row : list ICell) (i : nat) : option Z :=
  match get row i with ICell.Integer v => Some v | _ => None end.
Definition nullable_text_at (row : list ICell) (i : option nat) : option (option string) :=
  match i with
  | None => Some None
  | Some i => match get row i with ICell.Null => Some None | ICell.Text t => Some (Some t) | _ => None end
  end.

(** Where the columns of an operation are in the rows. *)
Module Places.
Record Places := Mk {
  rowid : nat; op_id : nat; lamport : nat; site : nat; domain : nat; target_kind : nat; target_id : nat;
  field : nat; op_type : nat; value : nat; author : nat; wall_clock : nat;
  key_id : option nat; sig : option nat;
}.
End Places.
Abbreviation Places := Places.Places (only parsing).

Definition column_at (columns : list string) (name : string) : option nat :=
  position (λ c, bool_decide (c = name)) columns.

Definition places (columns : list string) : option Places :=
  let at_ := column_at columns in
  rowid ← at_ "rowid"; op_id ← at_ "op_id"; lamport ← at_ "lamport"; site ← at_ "site";
  domain ← at_ "domain"; target_kind ← at_ "target_kind"; target_id ← at_ "target_id"; field ← at_ "field";
  op_type ← at_ "op_type"; value ← at_ "value"; author ← at_ "author"; wall_clock ← at_ "wall_clock";
  Some (Places.Mk rowid op_id lamport site domain target_kind target_id field op_type value author wall_clock
    (at_ "key_id") (at_ "sig")).

Definition typed_row (p : Places) (row : list ICell) : option LogRow :=
  rowid ← int_at row (Places.rowid p);
  op_id ← text_at row (Places.op_id p);
  lamport ← int_at row (Places.lamport p);
  site ← int_at row (Places.site p);
  domain ← text_at row (Places.domain p);
  target_kind ← text_at row (Places.target_kind p);
  target_id ← text_at row (Places.target_id p);
  field ← text_at row (Places.field p);
  op_type ← text_at row (Places.op_type p);
  value ← nullable_text_at row (Some (Places.value p));
  author ← text_at row (Places.author p);
  wall_clock ← text_at row (Places.wall_clock p);
  key_id ← nullable_text_at row (Places.key_id p);
  sig ← nullable_text_at row (Places.sig p);
  Some (LogRow.Mk rowid (Op.Mk op_id lamport site domain target_kind target_id field op_type value author
    wall_clock key_id sig)).

Fixpoint typed_rows (p : Places) (width : nat) (rows : list (list ICell)) (last_rowid : Z)
    (seen : gset string) : result ImageError (list LogRow) :=
  match rows with
  | [] => Ok []
  | row :: rows =>
      if negb (length row =? width)%nat then Err ImageError.Malformed else
      match typed_row p row with
      | None => Err ImageError.Malformed
      | Some r =>
          if (LogRow.rowid r <=? last_rowid)%Z || bool_decide (Op.op_id (LogRow.op r) ∈ seen)
          then Err ImageError.Malformed
          else
            rest <-? typed_rows p width rows (LogRow.rowid r) ({[Op.op_id (LogRow.op r)]} ∪ seen) ;;
            Ok (r :: rest)
      end
  end.

Definition typed_log (ops : ITable) : result ImageError (list LogRow) :=
  match places (ITable.columns ops) with
  | None => Err ImageError.Malformed
  | Some p => typed_rows p (length (ITable.columns ops)) (ITable.rows ops) 0 ∅
  end.

Definition check (image : Image) : result ImageError unit :=
  _ <-? typed_log (Image.ops image) ;; Ok tt.

Definition image_op_count (image : Image) : nat := length (ITable.rows (Image.ops image)).

Definition max_rowid (image : Image) : Z :=
  match column_at (ITable.columns (Image.ops image)) "rowid" with
  | None => 0%Z
  | Some at_ => default 0%Z (max_over (omap (λ row : list ICell,
      match row !! at_ with Some (ICell.Integer r) => Some r | _ => None end) (ITable.rows (Image.ops image))))
  end.

(** ** Writing what an image brings *)

(** Whether a cell fits the declared type of a column. *)
Definition fits (cell : ICell) (declared : Affinity) : bool :=
  match cell, declared with
  | ICell.Null, _ => true
  | ICell.Integer _, Affinity.INTEGER | ICell.Text _, Affinity.TEXT => true
  | _, _ => false
  end.

Definition of_icell (c : ICell) : Cell :=
  match c with
  | ICell.Null => Cell.Null
  | ICell.Integer v => Cell.Int v
  | ICell.Text v => Cell.Text v
  | ICell.Real _ => Cell.Null
  end.

Definition columns_of (file : File) (table : string) : list Column :=
  from_option TableDef.columns [] (File.schema file !! table).

(** The places of the columns both sides know. *)
Definition kept (columns : list Column) (names : list string) : list (nat * Column) :=
  omap (λ '(i, name), column ← find_first (λ c, bool_decide (Column.name c = name)) columns; Some (i, column))
    (imap pair names).

Definition insert_view_row (def : TableDef) (keep : list (nat * Column)) (width : nat) (row : list ICell)
    (rows : Table) : result ImageError Table :=
  if negb (length row =? width)%nat then Err ImageError.Malformed
  else if negb (forallb (λ '(i, c), fits (get row i) (Column.affinity c)) keep) then Err ImageError.Malformed
  else
    let new := new_row def ((λ '(i, c), (Column.name c, of_icell (get row i))) <$> keep) in
    let id := row_key def new in
    match null_violation def new, rows !! id with
    | None, None => Ok (<[id := new]> rows)
    | _, _ => Err ImageError.Storage
    end.

Fixpoint insert_view_rows (def : TableDef) (keep : list (nat * Column)) (width : nat)
    (image_rows : list (list ICell)) (rows : Table) : result ImageError Table :=
  match image_rows with
  | [] => Ok rows
  | row :: image_rows =>
      rows <-? insert_view_row def keep width row rows ;;
      insert_view_rows def keep width image_rows rows
  end.

Definition insert_view (file : File) (table : ITable) : result ImageError File :=
  match File.schema file !! ITable.name table with
  | None => Err ImageError.Storage
  | Some def =>
      rows <-? insert_view_rows def (kept (TableDef.columns def) (ITable.columns table))
        (length (ITable.columns table)) (ITable.rows table) (default ∅ (File.views file !! ITable.name table)) ;;
      Ok file <| File.views := <[ITable.name table := rows]> (File.views file) |>
  end.

Fixpoint insert_views (file : File) (tables : list ITable) : result ImageError File :=
  match tables with
  | [] => Ok file
  | table :: tables => file <-? insert_view file table ;; insert_views file tables
  end.

(** The index takes the shape the log calls for. *)
Definition coordinates (rows : list Stored) : list (Z * Z) :=
  (λ row, (Op.lamport (Stored.op row), Op.site (Stored.op row))) <$> rows.
Definition ensure_op_coordinate_index (file : File) : File :=
  file <| File.unique_index := bool_decide (NoDup (coordinates (File.ops file))) |>.

Section images.
Context {ed : Ed25519} (ENGINE_VERSION : string).

Definition verdicts (log : list LogRow) : list Provenance := (λ r, of_received (LogRow.op r)) <$> log.

Definition insert_log (file : File) (log : list LogRow) (verdicts : list Provenance) : File :=
  file <| File.ops := File.ops file ++
    zip_with (λ r verdict, Stored.Mk (LogRow.rowid r) (LogRow.op r) verdict) log verdicts |>.

Definition image (store : Store) (file : File) : option Image :=
  views ← collect_option (dump_view file) (flat_map Reducer.view_tables (Store.reducers store));
  Some (Image.Mk ENGINE_VERSION (File.user_version file) (File.application_id file) (dump_ops file)
    (if bool_decide (views = []) then None else Store.views_key store)
    (from_option (folded_through file) 0%Z (Store.views_key store))
    (fold_revision (Store.reducers store)) views None).

Definition keeps (store : Store) (kept_domains : list string) (op : Op) : bool :=
  negb (if folder_for (Store.reducers store) op then true else false) ||
  bool_decide (Op.domain op ∈ kept_domains).

Definition based_image (store : Store) (file : File) (relay_position : Z) (kept_domains : list string)
    (view_bases : list ViewBase) : result ImageError Image :=
  match image store file with
  | None => Err ImageError.Storage
  | Some img =>
      log <-? typed_log (Image.ops img) ;;
      let pairs := zip log (ITable.rows (Image.ops img)) in
      let residue := length (base.filter (λ r : LogRow,
        folder_for (Store.reducers store) (LogRow.op r) = None) log) in
      let keep := (base.filter (λ p : LogRow * list ICell, keeps store kept_domains (LogRow.op p.1) = true) pairs).*2 in
      Ok (Image.Mk (Image.engine img) (Image.schema_version img)
        (Z.max (Image.min_compatible img) BASED_MIN_COMPATIBLE)
        (ITable.Mk (ITable.name (Image.ops img)) (ITable.columns (Image.ops img)) keep)
        (Image.views_of img) (Image.folded_through img) (Image.fold_revision img) (Image.views img)
        (Some (Base.Mk relay_position (high_water_mark file) (Z.of_nat residue) kept_domains view_bases
           None 0 EmptyString)))
  end.

(** Every column of the store's tables is carried. *)
Definition views_cover_every_column (file : File) (img : Image) : bool :=
  forallb (λ table, forallb (λ c, bool_decide (Column.name c ∈ ITable.columns table))
    (columns_of file (ITable.name table))) (Image.views img).

Definition write_image (store : Store) (file : File) (img : Image) (log : list LogRow)
    (verdicts : list Provenance) (with_views : bool) : result ImageError File :=
  if (0 <? op_count file)%Z then Err (ImageError.NotEmpty (op_count file)) else
  let file := ensure_op_coordinate_index (insert_log file log verdicts) in
  if with_views then
    file <-? insert_views file (Image.views img) ;;
    Ok match Store.views_key store with
       | None => file
       | Some key => set_watermark file key (Watermark.Mk (Image.folded_through img)
           (fold_revision (Store.reducers store)) (Image.folded_through img))
       end
  else Ok file.

(** The clock a log of received operations calls for. *)
Definition clock_of_log (log : list LogRow) : option Z :=
  (λ m, Z.min m CLOCK_CEILING) <$>
    max_over (base.filter (λ l, (l <= MAX_LAMPORT)%Z) ((λ r, Op.lamport (LogRow.op r)) <$> log)).

Definition refold_image (store : Store) (file : File) : result ImageError File :=
  match refold store file with Ok file => Ok file | Err f => Err (ImageError.Panicked f) end.

Definition insert_view_bases (file : File) (boundary : Z) (view_bases : list ViewBase) : File :=
  foldl (λ file vb, set_watermark file (ViewBase.of_ vb) (Watermark.Mk boundary (ViewBase.fold_revision vb) boundary))
    file view_bases.

Definition revision_refusal (store : Store) (vb : ViewBase) : option ImageError :=
  let mine := fold_revision_of (Store.reducers store) (ViewBase.domain vb) in
  if bool_decide (mine = Some (ViewBase.fold_revision vb)) then None
  else Some (ImageError.NeedsRevision (ViewBase.of_ vb) (ViewBase.domain vb) (ViewBase.fold_revision vb) mine).

Definition missing_base (base : Base) (r : Reducer) : bool :=
  negb (bool_decide (Reducer.view_tables r = [])) &&
  negb (existsb (λ v, bool_decide (ViewBase.domain v = Reducer.domain r)) (Base.view_bases base)).

Definition same_tables (store : Store) (img : Image) : bool :=
  bool_decide (list_to_set (flat_map Reducer.view_tables (Store.reducers store)) =
               (list_to_set (ITable.name <$> Image.views img) : gset string)).

Definition load_based_image (store : Store) (file : File) (img : Image) (base : Base) (log : list LogRow)
    (verdicts : list Provenance) : result ImageError (Store * File * Loaded) :=
  if ((Base.relay_position base <? 0) || (Base.clock base <? 0))%Z then Err ImageError.Malformed
  else if negb (Image.schema_version img =? SCHEMA_VERSION)%Z
  then Err (ImageError.NeedsSchema (Image.schema_version img) SCHEMA_VERSION)
  else
    match find_map (revision_refusal store) (Base.view_bases base) with
    | Some e => Err e
    | None =>
        match find_first (missing_base base) (Store.reducers store) with
        | Some r => Err (ImageError.MissingViewBase (Reducer.domain r))
        | None =>
            if negb (same_tables store img) || negb (views_cover_every_column file img)
            then Err ImageError.ViewsDiffer
            else
              let boundary := max_rowid img in
              file <-? write_image store file img log verdicts false ;;
              file <-? insert_views file (Image.views img) ;;
              let file := insert_view_bases file boundary (Base.view_bases base) in
              let floor := Z.min (Base.clock base) CLOCK_CEILING in
              let file := file <| File.log_base := Some (LogBase.Mk (Base.relay_position base) floor
                (Base.residue base) (Base.anchor base) (Base.dropped base) (Base.dropped_digest base)) |> in
              let file := file <| File.application_id := Z.max (File.application_id file) BASED_MIN_COMPATIBLE |> in
              let store := store <| Store.clock :=
                Z.max (Z.max (Store.clock store) floor) (default 0%Z (clock_of_log log)) |> in
              file <-? refold_image store file ;;
              Ok (store, file, Loaded.Views)
        end
    end.

(** Whether the views are taken as they are, or why not. *)
Definition refold_reason (store : Store) (file : File) (img : Image) : option RefoldReason :=
  if bool_decide (Image.views img = [] ∨ Image.views_of img = None) then Some RefoldReason.NoViews
  else if negb (bool_decide (Image.engine img = ENGINE_VERSION))
  then Some (RefoldReason.OtherEngine (Image.engine img))
  else if negb (Image.schema_version img =? SCHEMA_VERSION)%Z
  then Some (RefoldReason.OtherSchema (Image.schema_version img))
  else if negb (Image.fold_revision img =? fold_revision (Store.reducers store))%Z
  then Some (RefoldReason.OtherRevision (Image.fold_revision img))
  else if negb (bool_decide (Image.views_of img = Store.views_key store)) || negb (same_tables store img) ||
          negb (views_cover_every_column file img)
  then Some RefoldReason.OtherViews
  else None.

Definition load_image (store : Store) (file : File) (img : Image) :
    result ImageError (Store * File * Loaded) :=
  if (SCHEMA_VERSION <? Image.min_compatible img)%Z
  then Err (ImageError.TooNew (Image.min_compatible img) SCHEMA_VERSION)
  else
    log <-? typed_log (Image.ops img) ;;
    let verdicts := verdicts log in
    if (0 <? op_count file)%Z then Err (ImageError.NotEmpty (op_count file)) else
    match Image.base img with
    | Some base => load_based_image store file img base log verdicts
    | None =>
        let reason := refold_reason store file img in
        file <-? write_image store file img log verdicts (if reason then false else true) ;;
        let store := match clock_of_log log with
                     | Some highest => store <| Store.clock := Z.max (Store.clock store) highest |>
                     | None => store
                     end in
        match reason with
        | None =>
            match Store.views_key store with
            | None => Ok (store, file, Loaded.Views)
            | Some key =>
                let boundary := max_op_rowid file in
                if (folded_through file key <? boundary)%Z then
                  file <-? refold_image store file ;;
                  Ok (store, advance_watermark store file boundary, Loaded.Views)
                else Ok (store, file, Loaded.Views)
            end
        | Some reason =>
            file <-? refold_image store file ;;
            Ok (store, advance_watermark store file (max_op_rowid file), Loaded.Refolded reason)
        end
    end.
End images.
