(* ===== verification/ImageFacts.v ===== *)
(** * Images bring the log

    The log of an image reads back as the log it was taken from, and a replica that starts from an image
    another engine wrote folds the board from it. *)

From S2P Require Import Prelude Text Utf8 OpModel Changes ChangeFacts Tasks OpStore LogFacts Convergence TaskFacts FileRuns SharedLog Edits Images.
From stdpp Require Import options.
From Stdlib Require Import Ascii.

Local Open Scope Z_scope.

Definition ops_places : Places := Places.Mk 0 1 2 3 11 4 5 6 7 8 9 10 (Some 12%nat) (Some 13%nat).

Lemma places_ops : places ops_columns = Some ops_places.
Proof. reflexivity. Qed.

Definition log_row (row : Stored) : LogRow := LogRow.Mk (Stored.rowid row) (Stored.op row).

Lemma typed_row_dump row : typed_row ops_places (dump_op row) = Some (log_row row).
Proof. destruct row as [rowid [op_id lamport site domain kind id field ty [value|] author wall [key|] [sig|]] prov]; reflexivity. Qed.

Lemma typed_rows_dump rows last seen :
  StronglySorted (λ a b, Stored.rowid a < Stored.rowid b) rows → NoDup (id_of <$> rows) →
  (∀ row, row ∈ rows → last < Stored.rowid row ∧ id_of row ∉ seen) →
  typed_rows ops_places 15 (dump_op <$> rows) last seen = Ok (log_row <$> rows).
Proof.
  revert last seen; induction rows as [|row rows IH]; intros last seen Hs Hnd Hrows; [done|].
  apply StronglySorted_inv in Hs as [Hs Hall]. rewrite Forall_forall in Hall.
  rewrite fmap_cons in Hnd. apply NoDup_cons in Hnd as [Hid Hnd].
  destruct (Hrows row) as [Hlast Hseen]; [by left|].
  rewrite fmap_cons. unfold typed_rows; fold typed_rows. change (length (dump_op row)) with 15%nat. simpl negb.
  rewrite typed_row_dump. change (LogRow.rowid (log_row row)) with (Stored.rowid row).
  change (Op.op_id (LogRow.op (log_row row))) with (id_of row).
  rewrite (proj2 (Z.leb_gt _ _)), bool_decide_eq_false_2 by done. simpl orb. cbv iota.
  rewrite IH; [done|done|done|]. intros r Hr. split; [by apply Hall|]. apply not_elem_of_union. split.
  - rewrite elem_of_singleton. intros Heq. apply Hid. rewrite <-Heq. by apply list_elem_of_fmap_2.
  - apply Hrows. by right.
Qed.

Lemma typed_log_dump file : log_ok file → typed_log (dump_ops file) = Ok (log_row <$> File.ops file).
Proof.
  intros Hok. unfold typed_log. change (ITable.columns (dump_ops file)) with ops_columns. rewrite places_ops.
  apply typed_rows_dump; [apply Hok|apply Hok|]. intros row Hrow. split; [|set_solver].
  apply (log_rowids _ Hok) in Hrow. lia.
Qed.

Section load.
Local Unset Default Proof Using.
Context {ed : Ed25519} {schema : Schema} {r : Reducer} {conv : Convergent schema r} (sid : string).
Implicit Types (store : Store) (file : File).

(** The log as it stands in the file that loaded it: every operation judged again. *)
Definition judged (row : Stored) : Stored := Stored.Mk (Stored.rowid row) (Stored.op row) (of_received (Stored.op row)).

Lemma insert_log_judged file rows :
  File.ops file = [] →
  File.ops (insert_log file (log_row <$> rows) (verdicts (log_row <$> rows))) = judged <$> rows.
Proof.
  intros He. unfold insert_log, verdicts. simpl. rewrite He. simpl.
  induction rows as [|row rows IH]; [done|]. rewrite !fmap_cons. simpl. by rewrite IH.
Qed.

Lemma judged_ops (rows : list Stored) : Stored.op <$> (judged <$> rows) = Stored.op <$> rows.
Proof. rewrite <-list_fmap_compose. by apply list_fmap_ext. Qed.

Lemma image_ops engine store file img : image engine store file = Some img → Image.ops img = dump_ops file ∧ Image.base img = None ∧ Image.min_compatible img = File.application_id file.
Proof. unfold image. destruct (collect_option _ _); simpl; [|done]. intros. by simplify_eq. Qed.

(** A load that folds again what the image brought. *)
Lemma load_refolds engine engine' source_store source img store file reason :
  log_ok source → image engine' source_store source = Some img →
  File.application_id source <= SCHEMA_VERSION →
  refold_reason engine store file img = Some reason →
  File.schema file = schema → File.ops file = [] → own_views r (File.views file) = fresh_views r →
  Store.reducers store = [r] → sound r (Stored.op <$> File.ops source) →
  ∃ store' file', load_image engine store file img = Ok (store', file', Loaded.Refolded reason) ∧
    File.ops file' = judged <$> File.ops source ∧
    own_views r (File.views file') = log_views r (export source).
Proof.
  intros Hok Himg Hver Hreason Hs He Hv Hr Hsound. destruct (image_ops _ _ _ _ Himg) as (Hops & Hbase & Hmin).
  unfold load_image. rewrite Hmin, (proj2 (Z.ltb_ge _ _)) by done. rewrite Hops, typed_log_dump by done.
  assert (op_count file = 0) as Hcount by (unfold op_count; by rewrite He). rewrite Hcount. change (0 <? 0) with false. cbv iota.
  rewrite Hbase, Hreason. unfold write_image. rewrite Hcount. change (0 <? 0) with false. cbv iota.
  set (rows := File.ops source) in *.
  set (file1 := ensure_op_coordinate_index (insert_log file (log_row <$> rows) (verdicts (log_row <$> rows)))).
  set (store1 := match clock_of_log _ with Some highest => _ | None => _ end).
  assert (File.ops file1 = judged <$> rows) as Hops1 by by apply insert_log_judged.
  assert (Store.reducers store1 = [r]) as Hr1 by (unfold store1; by destruct (clock_of_log _)).
  unfold refold_image, refold. rewrite Hr1, (refold_ours (r:=r)) by done.
  eexists _, _. split; [done|]. split.
  - by rewrite (proj1 (advance_same_log _ _ _)).
  - rewrite advance_views. simpl. rewrite fold_own. change (File.views file1) with (File.views file). rewrite Hv.
    assert (export file1 = export source) as ->; [|done]. unfold export. by rewrite Hops1, judged_ops.
Qed.
End load.

(** C34: An image brings the whole log: a replica that starts from one written by another engine, at another
    fold revision, or with other tables holds the same operations, in the same rows, and its board is the
    fold of that log by its own rules. *)
Theorem images_bring_the_log {ed : Ed25519} {schema : Schema} {r : Reducer} {conv : Convergent schema r}
    (engine engine' : string) (source_store store : Store) (source file : File) (img : Image) (reason : RefoldReason) :
  log_ok source → image engine' source_store source = Some img → File.application_id source <= SCHEMA_VERSION →
  refold_reason engine store file img = Some reason →
  File.schema file = schema → File.ops file = [] → own_views r (File.views file) = fresh_views r →
  Store.reducers store = [r] → sound r (Stored.op <$> File.ops source) →
  ∃ store' file', load_image engine store file img = Ok (store', file', Loaded.Refolded reason) ∧
    Stored.op <$> File.ops file' = Stored.op <$> File.ops source ∧
    Stored.rowid <$> File.ops file' = Stored.rowid <$> File.ops source ∧
    own_views r (File.views file') = log_views r (export source).
Proof.
  intros. destruct (load_refolds (schema:=schema) (r:=r) engine engine' source_store source img store file reason)
    as (store' & file' & E & Ho & Hv); [done..|]. exists store', file'. rewrite Ho, judged_ops.
  split_and!; [done..| |done]. rewrite <-list_fmap_compose. by apply list_fmap_ext.
Qed.

Lemma images_bring_the_log_witness :
  ∃ img store' file', image (ed:=toy_ed) "0.9" flow_store squatted = Some img ∧
    load_image (ed:=toy_ed) "1.0" flow_store board0 img =
      Ok (store', file', Loaded.Refolded RefoldReason.NoViews) ∧
    Stored.op <$> File.ops file' = Stored.op <$> File.ops squatted.
Proof.
  destruct (image (ed:=toy_ed) "0.9" flow_store squatted) as [img|] eqn:E; [|vm_compute in E; discriminate E].
  destruct (images_bring_the_log (ed:=toy_ed) (schema:=flow_schema) (r:=TaskReducer) "1.0" "0.9" flow_store flow_store
    squatted board0 img RefoldReason.NoViews) as (store' & file' & El & Ho & _).
  - apply squatted_writable.
  - exact E.
  - by vm_compute.
  - unfold refold_reason. rewrite bool_decide_eq_true_2; [reflexivity|]. right.
    unfold image in E. destruct (collect_option _ _) as [views|]; [|discriminate E].
    injection E as <-. simpl. by destruct (bool_decide _).
  - reflexivity.
  - reflexivity.
  - apply clear_views_own.
  - reflexivity.
  - apply sound_ops; apply (bool_decide_unpack _); vm_compute; reflexivity.
  - exists img, store', file'. split; [reflexivity|]. split; [exact El|exact Ho].
Defined.

(** ** What an image hides

    An image says how far its store had folded, and the store that loads it records that as what its own
    release has folded. A handle that was open while another process appended says more than it folded. *)
(** A handle opens, another process pulls one operation, the handle writes one, and takes an image. *)
Definition gap_history : result Fault (@Store.Store toy_ed * File) :=
  '(store, file, _) <-? refold_if_behind (ed:=toy_ed) flow_store board0 "flow" ;;
  '(_, file, _) <-? apply (ed:=toy_ed) raw_store file [set_op "pulled" 1 7 "pulled"] ;;
  '(store, file, _) <-? try_emit (ed:=toy_ed) true false store file (edit "mine" "j" "title" (Some "mine") "ann") ;;
  Ok (store, file).

Definition title_of (item : string) (views : Views) : option Cell := cell "items" [Cell.Text item] "title" views.

(** A new replica loads the image, and is opened again later. *)
Definition loads_gap : option (Loaded * option Cell * option Cell * option Cell) :=
  match gap_history with
  | Ok (store, file) =>
      img ← image "1.0" store file;
      match refold_if_behind (ed:=toy_ed) flow_store board0 "flow" with
      | Ok (fresh, empty, _) =>
          match load_image "1.0" fresh empty img with
          | Ok (_, loaded, how) =>
              match refold_if_behind (ed:=toy_ed) flow_store loaded "flow" with
              | Ok (_, reopened, Ok tt) =>
                  Some (how, title_of "i" (File.views reopened), title_of "j" (File.views reopened),
                    title_of "i" (log_views TaskReducer (export reopened)))
              | _ => None
              end
          | Err _ => None
          end
      | Err _ => None
      end
  | Err _ => None
  end.

(** The views of an image are taken as they are, and recorded as folded through where the source says it
    had folded - which jumped over an operation another process appended while the source's handle was open.
    The replica that loads the image holds that operation, never folds it, and does not notice when it is
    opened again: the source would rebuild on its next open, and show it. *)
Example images_hide_appended_operations :
  loads_gap = Some (Loaded.Views, None, Some (Cell.Text "mine"), Some (Cell.Text "pulled")) ∧
  match gap_history with Ok (_, file) => title_of "i" (board file) | Err _ => None end = Some (Cell.Text "pulled").
Proof. split; vm_compute; reflexivity. Qed.

(** ** What a signature covers, and who signs

    The bytes an operation is signed over determine every field of it but the seal, and the author a write is
    made under is not always one it accepts. *)
Local Open Scope N_scope.

(** *** Strings of known length *)
Lemma append_split (a b r s : string) : String.length a = String.length b → a +:+ r = b +:+ s → a = b ∧ r = s.
Proof.
  revert b; induction a as [|c a IH]; intros [|d b] Hlen Heq; try discriminate Hlen; [done|].
  injection Hlen as Hlen. injection Heq as -> Heq. destruct (IH b Hlen Heq) as [-> ->]. done.
Qed.

Lemma length_append (a b : string) : String.length (a +:+ b) = (String.length a + String.length b)%nat.
Proof. induction a as [|c a IH]; simpl; [done|by rewrite IH]. Qed.

Lemma be_bytes_length n x : String.length (be_bytes n x) = n.
Proof. revert x; induction n as [|n IH]; intros x; simpl; [done|]. rewrite length_append, IH. simpl. lia. Qed.

Lemma ascii_of_N_inj x y : x < 256 → y < 256 → ascii_of_N x = ascii_of_N y → x = y.
Proof. intros Hx Hy H. apply (f_equal N_of_ascii) in H. by rewrite !N_ascii_embedding in H. Qed.

Lemma be_bytes_inj n x y : x < 256 ^ N.of_nat n → y < 256 ^ N.of_nat n → be_bytes n x = be_bytes n y → x = y.
Proof.
  revert x y; induction n as [|n IH]; intros x y Hx Hy H; [simpl in *; lia|].
  rewrite Nat2N.inj_succ, N.pow_succ_r' in Hx, Hy.
  simpl in H. apply append_split in H as [Hd Hm]; [|by rewrite !be_bytes_length].
  injection Hm as Hm. apply ascii_of_N_inj in Hm; [|apply N.mod_lt; lia..].
  apply IH in Hd; [|apply N.Div0.div_lt_upper_bound; lia..].
  rewrite (N.div_mod x 256), (N.div_mod y 256) by lia. by rewrite Hd, Hm.
Qed.

(** *** Fields *)
Definition short (s : string) : Prop := byte_len s < u64_modulus.

Lemma canonical_field_inj a b r s :
  short a → short b → canonical_field a +:+ r = canonical_field b +:+ s → a = b ∧ r = s.
Proof.
  unfold short, canonical_field, u64_be, u64_wrap. intros Ha Hb. rewrite !N.mod_small by done.
  rewrite <- !string_app_assoc. intros H. apply append_split in H as [Hl H]; [|by rewrite !be_bytes_length].
  apply be_bytes_inj in Hl; [|done..]. apply append_split in H; [done|]. unfold byte_len in Hl. lia.
Qed.

Lemma i64_be_inj x y : (i64_min <= x <= i64_max)%Z → (i64_min <= y <= i64_max)%Z → i64_be x = i64_be y → x = y.
Proof.
  unfold i64_be, i64_min, i64_max. intros Hx Hy H.
  assert (∀ z : Z, (0 <= z mod 2 ^ 64 < 2 ^ 64)%Z) as Hm by (intros z; apply Z.mod_pos_bound; lia).
  assert (Hmx := Hm x). assert (Hmy := Hm y).
  apply be_bytes_inj in H; [|change (256 ^ N.of_nat 8) with (Z.to_N (2 ^ 64)); lia..].
  assert (x mod 2 ^ 64 = y mod 2 ^ 64)%Z as He by lia.
  pose proof (Z.div_mod x (2 ^ 64)). pose proof (Z.div_mod y (2 ^ 64)). lia.
Qed.

Lemma short_i64 x : short (i64_be x).
Proof. unfold short, byte_len, i64_be. by rewrite be_bytes_length. Qed.

(** The fields a signature covers. *)
Record in_range (op : Op) : Prop := {
  range_numbers : op_in_range op;
  range_texts : Forall short [Op.op_id op; Op.domain op; Op.target_kind op; Op.target_id op; Op.field op;
    Op.op_type op; Op.author op; Op.wall_clock op];
  range_value : from_option short True (Op.value op);
}.

Definition unsealed (op : Op) : Op :=
  Op.Mk (Op.op_id op) (Op.lamport op) (Op.site op) (Op.domain op) (Op.target_kind op) (Op.target_id op)
    (Op.field op) (Op.op_type op) (Op.value op) (Op.author op) (Op.wall_clock op) None None.

Lemma canonical_value_inj v w r s :
  from_option short True v → from_option short True w → canonical_value v +:+ r = canonical_value w +:+ s → v = w ∧ r = s.
Proof.
  destruct v as [v|], w as [w|]; simpl from_option; intros Hv Hw H; try discriminate H.
  - set (tag := String "001"%char EmptyString).
    change (tag +:+ (canonical_field v +:+ r) = tag +:+ (canonical_field w +:+ s)) in H.
    apply append_split in H as [_ H]; [|done]. by apply canonical_field_inj in H as [-> ->].
  - change (String "000"%char r = String "000"%char s) in H. by injection H as ->.
Qed.

(** C35: The bytes an operation is signed over determine all of it but the seal: two operations within the
    machine's ranges that sign the same bytes have the same id, coordinate, domain, target, field, kind,
    value - present or not - author and wall clock. *)
Theorem signed_bytes_determine_the_operation (op1 op2 : Op) :
  in_range op1 → in_range op2 → canonical_bytes op1 = canonical_bytes op2 → unsealed op1 = unsealed op2.
Proof.
  intros [[Hl1 Hs1] Ht1 Hv1] [[Hl2 Hs2] Ht2 Hv2]. rewrite !Forall_cons, Forall_nil in Ht1, Ht2.
  destruct Ht1 as (A1 & A2 & A3 & A4 & A5 & A6 & A7 & A8 & _). destruct Ht2 as (B1 & B2 & B3 & B4 & B5 & B6 & B7 & B8 & _).
  unfold canonical_bytes. intros H. apply append_split in H as [_ H]; [|done].
  apply canonical_field_inj in H as [E1 H]; [|done..].
  apply canonical_field_inj in H as [E2 H]; [|apply short_i64..]. apply i64_be_inj in E2; [|done..].
  apply canonical_field_inj in H as [E3 H]; [|apply short_i64..]. apply i64_be_inj in E3; [|done..].
  apply canonical_field_inj in H as [E4 H]; [|done..]. apply canonical_field_inj in H as [E5 H]; [|done..].
  apply canonical_field_inj in H as [E6 H]; [|done..]. apply canonical_field_inj in H as [E7 H]; [|done..].
  apply canonical_field_inj in H as [E8 H]; [|done..]. apply canonical_value_inj in H as [E9 H]; [|done..].
  apply canonical_field_inj in H as [E10 H]; [|done..].
  assert (canonical_field (Op.wall_clock op1) +:+ "" = canonical_field (Op.wall_clock op2) +:+ "") as H'
    by (by rewrite H). apply canonical_field_inj in H' as [E11 _]; [|done..].
  unfold unsealed. by rewrite E1, E2, E3, E4, E5, E6, E7, E8, E9, E10, E11.
Qed.

Lemma signed_bytes_determine_the_operation_witness :
  unsealed (seal (ed:=toy_ed) tt (set_op "a" 1 7 "x")) = unsealed (set_op "a" 1 7 "x").
Proof.
  apply signed_bytes_determine_the_operation.
  - split; [split; by vm_compute|repeat constructor; by vm_compute|by vm_compute].
  - split; [split; by vm_compute|repeat constructor; by vm_compute|by vm_compute].
  - reflexivity.
Defined.

(** *** An author nobody sees *)

(** A zero-width space, as UTF-8. *)
Definition ZERO_WIDTH_SPACE : string :=
  String (ascii_of_N 226) (String (ascii_of_N 128) (String (ascii_of_N 139) EmptyString)).

(** The author a command resolves from its environment is not always one the log accepts: a variable that
    holds a zero-width space is no blank to [resolve_author], and the write that follows panics. *)
Lemma invisible_actors_reach_the_assert :
  resolve_author (Some ZERO_WIDTH_SPACE) (Some "ann") "nxf" = ZERO_WIDTH_SPACE ∧
  build_and_ingest (ed:=toy_ed) false flow_store board0
    (edit "x" "i" "title" (Some "t") (resolve_author (Some ZERO_WIDTH_SPACE) (Some "ann") "nxf")) =
  Err Fault.BlankAuthor.
Proof. split; vm_compute; reflexivity. Qed.
