(* ===== verification/BoardViews.v ===== *)
(** * The views of a board

    The SQL views of [core/src/schema.rs] over the tables of the task reducer: the labels, edges, thread
    links and parents that are present, which are the adds no remove names. A query is a comprehension over
    the rows of its tables; a comparison with a NULL holds of nothing. *)

From S2P Require Import Prelude Text OpModel Changes Tasks.
From stdpp Require Import options.

Definition text_at (row : Row) (column : string) : option string :=
  match row !! column with Some (Cell.Text v) => Some v | _ => None end.
Definition int_at (row : Row) (column : string) : option Z :=
  match row !! column with Some (Cell.Int v) => Some v | _ => None end.

Definition rows_of (views : Views) (table : string) : list Row :=
  (map_to_list (default ∅ (views !! table) : Table)).*2.

(** [x = y] of SQL on texts. *)
Definition same_text (x y : option string) : bool := bool_decide (x = y) && some x.

(** [EXISTS (SELECT 1 FROM removes r WHERE r.tag = a.tag)]. *)
Definition removed (views : Views) (removes : string) (row : Row) : bool :=
  existsb (λ r, same_text (text_at r "tag") (text_at row "tag")) (rows_of views removes).

Definition present_rows (views : Views) (adds removes : string) : list Row :=
  base.filter (λ row, removed views removes row = false) (rows_of views adds).

Definition edge_row (row : Row) : option (string * string * string) :=
  from ← text_at row "from_id"; to ← text_at row "to_id"; kind ← text_at row "kind"; Some (from, to, kind).

Definition present_edges (views : Views) : gset (string * string * string) :=
  list_to_set (omap edge_row (present_rows views "edge_adds" "edge_removes")).

Definition label_row (row : Row) : option (string * string) :=
  item ← text_at row "item_id"; label ← text_at row "label"; Some (item, label).

Definition present_labels (views : Views) : gset (string * string) :=
  list_to_set (omap label_row (present_rows views "label_adds" "label_removes")).

(** The coordinate of an add with the text that decides between equal ones; [COALESCE(.., -1)]. *)
Definition rank (tie : string) (row : Row) : Z * Z * string :=
  (default (-1)%Z (int_at row "lamport"), default (-1)%Z (int_at row "site"), default "" (text_at row tie)).

(** [(l, s, t) < (l', s', t')] of SQL. *)
Definition rank_lt (x y : Z * Z * string) : bool :=
  let '(l, s, t) := x in
  let '(l', s', t') := y in
  (l <? l')%Z || ((l =? l')%Z && ((s <? s')%Z || ((s =? s')%Z && negb (String.leb t' t)))).

(** The rows no other row of their group ranks above. *)
Definition winners (same_group : Row → Row → bool) (tie : string) (rows : list Row) : list Row :=
  base.filter (λ a, existsb (λ a2, same_group a2 a && rank_lt (rank tie a) (rank tie a2)) rows = false) rows.

Definition thread_link_row (row : Row) : option (string * string * string * string) :=
  thread ← text_at row "thread_id"; item ← text_at row "item_id"; relation ← text_at row "relation";
  weight ← text_at row "weight"; Some (thread, item, relation, weight).

Definition present_thread_links (views : Views) : list (string * string * string * string) :=
  omap thread_link_row
    (winners (λ a2 a, same_text (text_at a2 "thread_id") (text_at a "thread_id") &&
                      same_text (text_at a2 "item_id") (text_at a "item_id")) "tag"
       (present_rows views "thread_link_adds" "thread_link_removes")).

Definition is_parent_row (row : Row) : bool := bool_decide (text_at row "kind" = Some "parent").

Definition present_parent (views : Views) : list (string * string) :=
  omap (λ row, child ← text_at row "from_id"; parent ← text_at row "to_id"; Some (child, parent))
    (winners (λ a2 a, same_text (text_at a2 "from_id") (text_at a "from_id")) "to_id"
       (base.filter (λ row, is_parent_row row = true) (present_rows views "edge_adds" "edge_removes"))).

(** ** Items *)
Definition row_active (row : Row) : bool :=
  is_active (text_at row "deleted") (text_at row "archived") (text_at row "status").

(** [COALESCE(deleted,'0')<>'1']. *)
Definition row_undeleted (row : Row) : bool := negb (bool_decide (text_at row "deleted" = Some "1")).

(** [COALESCE(deleted,'0')<>'1' AND archived IS NULL]; a TEXT column holds a text or NULL. *)
Definition row_live (row : Row) : bool :=
  row_undeleted row && bool_decide (text_at row "archived" = None).

Definition row_id (row : Row) : string := default "" (text_at row "id").
Definition has_status (status : string) (row : Row) : bool := bool_decide (text_at row "status" = Some status).

(** [active(id)] of the derivations. *)
Definition active_ids (views : Views) : gset string :=
  list_to_set (row_id <$> base.filter (λ row, row_active row = true) (rows_of views "items")).
