(* ===== verification/Graph.v ===== *)
(** * The graph of a board

    [core/src/graph.rs]: which tickets of a board are ready, claimed, deferred, blocked or suppressed, over
    the active tickets and their edges alone. [BTreeMap] and [BTreeSet] are [gmap] and [gset], walked in the
    order of the keys; a [Vec] that grows at its end is a list with its end first. [usize::MAX] marks a ticket
    that has no number yet, which is [None] here: no board has that many tickets. *)

From S2P Require Import Prelude Text OpModel Changes Tasks BoardViews.
From stdpp Require Import options.

Local Open Scope nat_scope.

Module Ticket.
Record Ticket := Mk { id : string; in_progress : bool; defer_until : option string }.
End Ticket.
Abbreviation Ticket := Ticket.Ticket (only parsing).
Global Instance ticket_eq_dec : EqDecision Ticket.
Proof. solve_decision. Defined.

Module Edge.
Record Edge := Mk { from : string; to : string; kind : EdgeKind }.
End Edge.
Abbreviation Edge := Edge.Edge (only parsing).

Module Candidate.
Record Candidate := Mk {
  id : string;
  in_progress : bool;
  finishable : bool;
  promoter : option string;
}.
End Candidate.
Abbreviation Candidate := Candidate.Candidate (only parsing).
Global Instance candidate_eq_dec : EqDecision Candidate.
Proof. solve_decision. Defined.

Module Lanes.
Record Lanes := Mk {
  ready : list string;
  in_progress : list string;
  deferred : list string;
  blocked : list string;
  suppressed_by_blocked : list string;
  suppressed_by_deferred_only : list string;
  candidates : list Candidate;
}.
End Lanes.
Abbreviation Lanes := Lanes.Lanes (only parsing).
Global Instance lanes_eq_dec : EqDecision Lanes.
Proof. solve_decision. Defined.

Abbreviation Adjacency := (gmap string (gset string)) (only parsing).

Module Board.
Record Board := Mk {
  tickets : gmap string Ticket;
  deps : Adjacency;
  parents : Adjacency;
  children : Adjacency;
}.
Definition empty_with (tickets : gmap string Ticket) : Board := Mk tickets ∅ ∅ ∅.
End Board.
Abbreviation Board := Board.Board (only parsing).

Definition sorted_set (s : gset string) : list string := merge_sort String.le (elements s).

(** [map.entry(k).or_default().insert(v)]. *)
Definition add_to (k v : string) (m : Adjacency) : Adjacency := <[k := {[v]} ∪ default ∅ (m !! k)]> m.

(** [map.get(k).into_iter().flatten()]. *)
Definition all_at (k : string) (m : Adjacency) : list string := sorted_set (default ∅ (m !! k)).

Definition add_edge (b : Board) (e : Edge) : Board :=
  let '(Board.Mk tickets deps parents children) := b in
  match Edge.kind e with
  | EdgeKind.Dep => Board.Mk tickets (add_to (Edge.from e) (Edge.to e) deps) parents children
  | EdgeKind.Parent =>
      Board.Mk tickets deps (add_to (Edge.from e) (Edge.to e) parents)
        (add_to (Edge.to e) (Edge.from e) children)
  | EdgeKind.ContributesTo | EdgeKind.Mentions => b
  end.

Definition new_board (tickets : list Ticket) (edges : list Edge) : Board :=
  foldl add_edge (Board.empty_with (foldl (λ m t, <[Ticket.id t := t]> m) ∅ tickets)) edges.

Definition active (b : Board) (id : string) : bool := if Board.tickets b !! id then true else false.

Definition tickets_of (b : Board) : list Ticket :=
  omap (λ id, Board.tickets b !! id) (sorted_keys (Board.tickets b)).

Definition active_deps (b : Board) (id : string) : list string :=
  base.filter (λ t, active b t = true) (all_at id (Board.deps b)).

Definition blockers (b : Board) (id : string) : list Ticket :=
  omap (λ t, Board.tickets b !! t) (active_deps b id).

(** ** Cycles

    Tarjan's algorithm, with its recursion as a list of frames. *)
Module Tarjan.
Record Tarjan := Mk {
  index : list (option nat);
  low : list nat;
  on_stack : list bool;
  stack : list nat;
  next : nat;
  cyclic : gset string;
}.
End Tarjan.
Abbreviation Tarjan := Tarjan.Tarjan (only parsing).

Section tarjan.
Context (ids : list string) (succ : list (list nat)).

Definition index_of (s : Tarjan) (v : nat) : option nat := default None (Tarjan.index s !! v).
Definition low_of (s : Tarjan) (v : nat) : nat := default 0 (Tarjan.low s !! v).
Definition is_on_stack (s : Tarjan) (v : nat) : bool := default false (Tarjan.on_stack s !! v).
Definition successors (v : nat) : list nat := default [] (succ !! v).

(** A ticket met for the first time: it takes the next number and goes on the stack. *)
Definition discover (v : nat) (s : Tarjan) : Tarjan :=
  let '(Tarjan.Mk index low on_stack stack next cyclic) := s in
  Tarjan.Mk (<[v := Some next]> index) (<[v := next]> low) (<[v := true]> on_stack) (v :: stack) (S next)
    cyclic.

Definition lower (v : nat) (bound : nat) (s : Tarjan) : Tarjan :=
  let '(Tarjan.Mk index low on_stack stack next cyclic) := s in
  Tarjan.Mk index (<[v := low_of s v `min` bound]> low) on_stack stack next cyclic.

(** What comes off the stack up to [v], in the order it comes, and what stays. *)
Fixpoint pop_until (v : nat) (stack : list nat) : list nat * list nat :=
  match stack with
  | [] => ([], [])
  | w :: stack => if w =? v then ([w], stack) else prod_map (cons w) id (pop_until v stack)
  end.

Definition close_component (v : nat) (s : Tarjan) : Tarjan :=
  let '(Tarjan.Mk index low on_stack stack next cyclic) := s in
  let '(component, stack) := pop_until v stack in
  let on_stack := foldl (λ o w, <[w := false]> o) on_stack component in
  let found : gset string := list_to_set (omap (λ w, ids !! w) component) in
  Tarjan.Mk index low on_stack stack next
    (if (1 <? length component) || bool_decide (v ∈ successors v) then cyclic ∪ found else cyclic).

(** One round of [while let Some(&(v, walked)) = frames.last()]. *)
Definition walk_round (frames : list (nat * nat)) (s : Tarjan) : list (nat * nat) * Tarjan :=
  match frames with
  | [] => ([], s)
  | (v, walked) :: rest =>
      match successors v !! walked with
      | Some w =>
          let frames := (v, S walked) :: rest in
          match index_of s w with
          | None => ((w, 0) :: frames, discover w s)
          | Some i => if is_on_stack s w then (frames, lower v i s) else (frames, s)
          end
      | None =>
          let s := match rest with
                   | (parent, _) :: _ => lower parent (low_of s v) s
                   | [] => s
                   end in
          (rest, if bool_decide (Some (low_of s v) = index_of s v) then close_component v s else s)
      end
  end.

Fixpoint walk_frames (fuel : nat) (frames : list (nat * nat)) (s : Tarjan) : Tarjan :=
  match fuel, frames with
  | O, _ | _, [] => s
  | S fuel, _ => let '(frames, s) := walk_round frames s in walk_frames fuel frames s
  end.

(** Every round walks a successor or leaves a ticket. *)
Definition rounds : nat := sum_list_with (λ row, S (length row)) succ.

Definition walk_root (s : Tarjan) (root : nat) : Tarjan :=
  match index_of s root with
  | Some _ => s
  | None => walk_frames rounds [(root, 0)] (discover root s)
  end.

Definition unwalked (n : nat) : Tarjan := Tarjan.Mk (replicate n None) (replicate n 0) (replicate n false) [] 0 ∅.

Definition walk_all : Tarjan := foldl walk_root (unwalked (length ids)) (seq 0 (length ids)).
End tarjan.

Definition numbers (ids : list string) : gmap string nat := list_to_map (imap (λ i id, (id, i)) ids).

Definition successor_table (b : Board) : list (list nat) :=
  let ids := sorted_keys (Board.tickets b) in
  (λ id, omap (λ t, numbers ids !! t) (active_deps b id)) <$> ids.

Definition cyclic (b : Board) : gset string :=
  Tarjan.cyclic (walk_all (sorted_keys (Board.tickets b)) (successor_table b)).

(** ** Suppression *)

(** [for c in children: if active(c) && out.insert(c) { stack.push(c) }]. *)
Definition visit_child (b : Board) (st : gset string * list string) (c : string) : gset string * list string :=
  let '(out, stack) := st in
  if active b c && negb (bool_decide (c ∈ out)) then ({[c]} ∪ out, c :: stack) else (out, stack).

Fixpoint descend (b : Board) (fuel : nat) (out : gset string) (stack : list string) : gset string :=
  match fuel, stack with
  | O, _ | _, [] => out
  | S fuel, p :: stack =>
      let '(out, stack) := foldl (visit_child b) (out, stack) (all_at p (Board.children b)) in
      descend b fuel out stack
  end.

(** Every round takes a root or a ticket that went on the stack once. *)
Definition descendants (b : Board) (roots : gset string) : gset string :=
  descend b (size roots + size (Board.tickets b)) ∅ (reverse (sorted_set roots)).

(** ** Lanes *)
Definition held (b : Board) (id : string) : bool := negb (bool_decide (active_deps b id = [])).

(** [d > now] on texts compares bytes. *)
Definition deferred_at (now : string) (t : Ticket) : bool :=
  match Ticket.defer_until t with
  | Some d => negb (String.leb d now)
  | None => false
  end.

Definition is_open (t : Ticket) : bool := negb (Ticket.in_progress t).

Definition stands_still (b : Board) (cyclic : gset string) (t : Ticket) : bool :=
  is_open t && (bool_decide (Ticket.id t ∈ cyclic) || held b (Ticket.id t)).

Definition board_blocked (b : Board) : list string :=
  let cyclic := cyclic b in
  Ticket.id <$> base.filter (λ t, stands_still b cyclic t = true) (tickets_of b).

(** An open ticket none of whose parents is active rests. *)
Definition rests (b : Board) (t : Ticket) : bool :=
  is_open t &&
  match Board.parents b !! Ticket.id t with
  | Some ps => negb (bool_decide (ps = ∅)) && forallb (λ p, negb (active b p)) (sorted_set ps)
  | None => false
  end.

Definition promoter_of (b : Board) (actionable : gmap string Ticket) (t : Ticket) : option string :=
  if Ticket.in_progress t then None
  else find_first (λ p, match actionable !! p with Some pt => Ticket.in_progress pt | None => false end)
         (all_at (Ticket.id t) (Board.parents b)).

Definition candidate_of (b : Board) (actionable : gmap string Ticket) (t : Ticket) : Candidate :=
  Candidate.Mk (Ticket.id t) (Ticket.in_progress t)
    (negb (existsb (active b) (all_at (Ticket.id t) (Board.children b))))
    (promoter_of b actionable t).

Definition lanes (b : Board) (now : string) : Lanes :=
  let cyclic := cyclic b in
  let blocked : gset string :=
    list_to_set (Ticket.id <$> base.filter (λ t, stands_still b cyclic t = true) (tickets_of b)) in
  let deferred : gset string :=
    list_to_set (Ticket.id <$> base.filter (λ t, (is_open t && (negb (bool_decide (Ticket.id t ∈ blocked)) && deferred_at now t)) = true) (tickets_of b)) in
  let under_blocked := descendants b blocked in
  let under_deferred := descendants b deferred in
  let actionable := base.filter (λ t,
    (negb (bool_decide (Ticket.id t ∈ cyclic)) && negb (held b (Ticket.id t)) && negb (deferred_at now t) &&
     negb (bool_decide (Ticket.id t ∈ under_blocked)) && negb (bool_decide (Ticket.id t ∈ under_deferred)) &&
     negb (rests b t)) = true) (tickets_of b) in
  let actionable_map : gmap string Ticket := list_to_map ((λ t, (Ticket.id t, t)) <$> actionable) in
  let candidates := candidate_of b actionable_map <$> actionable in
  Lanes.Mk
    (Candidate.id <$> base.filter (λ c, Candidate.in_progress c = false) candidates)
    (Candidate.id <$> base.filter (λ c, Candidate.in_progress c = true) candidates)
    (sorted_set deferred) (sorted_set blocked) (sorted_set under_blocked)
    (sorted_set (under_deferred ∖ under_blocked)) candidates.

(** ** The selection from the tables *)
Definition ticket_of (row : Row) : Ticket :=
  Ticket.Mk (row_id row) (has_status "in_progress" row) (text_at row "defer_until").

Definition select_edge (active : gset string) (e : string * string * string) : option Edge :=
  let '(from, to, kind) := e in
  if bool_decide (kind = "dep") || bool_decide (kind = "parent") then
    if bool_decide (from ∈ active) || bool_decide (to ∈ active) then Edge.Mk from to <$> EdgeKind_parse kind
    else None
  else None.

Definition select (views : Views) : Board :=
  let tickets := ticket_of <$> base.filter (λ row, row_active row = true) (rows_of views "items") in
  let active : gset string := list_to_set (Ticket.id <$> tickets) in
  new_board tickets (omap (select_edge active) (elements (present_edges views))).
