(* ===== verification/TarjanFacts.v ===== *)
(** * The walk for cycles

    Tarjan's walk of [Graph] finds the tickets on a cycle, all of them and no other, and its rounds suffice.
    [layers] is the shape of the stack under the open frames: below each frame's ticket what was met from it
    and is not closed yet. *)

From S2P Require Import Prelude Text OpModel Changes Tasks BoardViews Graph.
From stdpp Require Import relations options.

Local Open Scope nat_scope.

Section tarjan.
Local Unset Default Proof Using.
Context (ids : list string) (succ : list (list nat)).
Abbreviation n := (length ids).
Context (Hids : NoDup ids) (Hsucc : length succ = n) (Hrange : ∀ v w, w ∈ successors succ v → w < n).

Definition leads (u w : nat) : Prop := w ∈ successors succ u.
Definition seen (s : Tarjan) (v : nat) : Prop := is_Some (index_of s v).
Definition num (s : Tarjan) (v : nat) : nat := default 0 (index_of s v).
Definition on (s : Tarjan) (v : nat) : Prop := is_on_stack s v = true.

(** What [w] may be to a ticket whose low mark is [l] once the leads to it is walked. *)
Definition walked_to (s : Tarjan) (l w : nat) : Prop := seen s w ∧ (on s w → l <= num s w).

(** A ticket met from [v], all of whose arrows are walked, and that is not the first of its component. *)
Definition under (s : Tarjan) (v u : nat) : Prop :=
  low_of s v <= low_of s u ∧ low_of s u < num s u ∧ rtc leads v u ∧
  ∀ w, leads u w → walked_to s (low_of s v) w.

Definition called_from (frames : list (nat * nat)) (v : nat) : Prop :=
  match frames with (p, _) :: _ => leads p v | [] => True end.

Inductive layers (s : Tarjan) : list (nat * nat) → list nat → Prop :=
| layers_nil : layers s [] []
| layers_cons v k frames below rest :
    Forall (under s v) below →
    low_of s v <= num s v →
    k <= length (successors succ v) →
    Forall (walked_to s (low_of s v)) (take k (successors succ v)) →
    called_from frames v →
    layers s frames rest →
    layers s ((v, k) :: frames) (below ++ v :: rest).

(** Closed tickets: seen and off the stack. *)
Definition closed (s : Tarjan) (v : nat) : Prop := seen s v ∧ ¬ on s v.

Record inv (frames : list (nat * nat)) (s : Tarjan) : Prop := {
  inv_index : length (Tarjan.index s) = n;
  inv_low : length (Tarjan.low s) = n;
  inv_on_stack : length (Tarjan.on_stack s) = n;
  inv_sorted : StronglySorted (λ u w, num s w < num s u) (Tarjan.stack s);
  inv_on v : on s v ↔ v ∈ Tarjan.stack s;
  inv_seen v : v ∈ Tarjan.stack s → seen s v;
  inv_next v : seen s v → v < n ∧ num s v < Tarjan.next s;
  inv_layers : layers s frames (Tarjan.stack s);
  inv_reach u : u ∈ Tarjan.stack s →
    ∃ x, x ∈ Tarjan.stack s ∧ num s x = low_of s u ∧ rtc leads u x;
  inv_closed u w : closed s u → leads u w → closed s w;
  inv_cyclic id : id ∈ Tarjan.cyclic s ↔ ∃ v, ids !! v = Some id ∧ closed s v ∧ tc leads v v;
}.

(** ** Reading and writing the tables *)
Lemma default_insert {A} (d : A) (l : list A) v w x : v < length l →
  default d (<[v := x]> l !! w) = if decide (w = v) then x else default d (l !! w).
Proof.
  intros Hv. destruct (decide (w = v)) as [->|Hne].
  - by rewrite list_lookup_insert_eq.
  - by rewrite list_lookup_insert_ne.
Qed.

Lemma discover_index v s w : length (Tarjan.index s) = n → v < n →
  index_of (discover v s) w = if decide (w = v) then Some (Tarjan.next s) else index_of s w.
Proof. intros Hl Hv. destruct s; simpl in *. unfold index_of. simpl. apply default_insert. lia. Qed.
Lemma discover_low v s w : length (Tarjan.low s) = n → v < n →
  low_of (discover v s) w = if decide (w = v) then Tarjan.next s else low_of s w.
Proof. intros Hl Hv. destruct s; simpl in *. unfold low_of. simpl. apply default_insert. lia. Qed.
Lemma discover_on v s w : length (Tarjan.on_stack s) = n → v < n →
  is_on_stack (discover v s) w = if decide (w = v) then true else is_on_stack s w.
Proof. intros Hl Hv. destruct s; simpl in *. unfold is_on_stack. simpl. apply default_insert. lia. Qed.

Lemma lower_low v b s w : length (Tarjan.low s) = n → v < n →
  low_of (lower v b s) w = if decide (w = v) then low_of s v `min` b else low_of s w.
Proof. intros Hl Hv. destruct s; simpl in *. unfold low_of. simpl. apply default_insert. lia. Qed.
Lemma lower_index v b s w : index_of (lower v b s) w = index_of s w.
Proof. by destruct s. Qed.
Lemma lower_on v b s w : is_on_stack (lower v b s) w = is_on_stack s w.
Proof. by destruct s. Qed.

(** ** Layers of another state *)
Lemma walked_to_mono s s' l l' w :
  walked_to s l w → l' <= l →
  (∀ w, seen s w → seen s' w ∧ num s' w = num s w ∧ (on s' w → on s w)) → walked_to s' l' w.
Proof. intros [Hs Hl] Hle Hw. destruct (Hw w Hs) as (Hs' & Hn & Ho). split; [done|]. intros ?%Ho%Hl. lia. Qed.

Lemma under_mono s s' v u :
  under s v u → seen s u →
  (∀ w, seen s w → seen s' w ∧ num s' w = num s w ∧ (on s' w → on s w)) →
  low_of s' v <= low_of s v → low_of s' u = low_of s u → under s' v u.
Proof.
  intros (H1 & H2 & H3 & H4) Hu Hw Hv Hlu. destruct (Hw u Hu) as (_ & Hn & _). unfold under.
  rewrite Hlu, Hn. split_and!; [lia|done|done|]. intros w Huw. by eapply walked_to_mono; [apply H4| |].
Qed.

Lemma layers_mono s s' frames stack :
  layers s frames stack → (∀ u, u ∈ stack → seen s u ∧ low_of s' u = low_of s u) →
  (∀ w, seen s w → seen s' w ∧ num s' w = num s w ∧ (on s' w → on s w)) → layers s' frames stack.
Proof.
  intros H. induction H as [|v k frames below rest Hb Hlow Hk Hw Hc Hl IH]; intros Hst Hs; [constructor|].
  destruct (Hst v) as [Hv Hlv]; [set_solver|]. destruct (Hs v Hv) as (_ & Hn & _).
  constructor; [| |done| |done|].
  - apply Forall_forall. intros u Hu. destruct (Hst u) as [Hsu Hlu]; [set_solver|].
    eapply under_mono; [by eapply Forall_forall in Hb|done|done|lia|done].
  - lia.
  - eapply Forall_impl; [done|]. intros w ?. eapply walked_to_mono; [done|lia|done].
  - apply IH; [|done]. intros u Hu. apply Hst. set_solver.
Qed.

(** The ticket of the top frame with what is under it, and the rest of the stack. *)
Lemma layers_inv s v k frames stack : layers s ((v, k) :: frames) stack →
  ∃ below rest, stack = below ++ v :: rest ∧ Forall (under s v) below ∧ low_of s v <= num s v ∧
    k <= length (successors succ v) ∧
    Forall (walked_to s (low_of s v)) (take k (successors succ v)) ∧ called_from frames v ∧
    layers s frames rest.
Proof. intros H. inversion H; subst. by eexists _, _. Qed.

Lemma inv_split frames s below v rest :
  inv frames s → Tarjan.stack s = below ++ v :: rest →
  (∀ u, u ∈ below → num s v < num s u) ∧ (∀ u, u ∈ rest → num s u < num s v) ∧
  (∀ u w, u ∈ below → w ∈ rest → num s w < num s u).
Proof.
  intros Hi Hst. pose proof (inv_sorted _ _ Hi) as Hs. rewrite Hst in Hs.
  apply StronglySorted_app in Hs as (Hs1 & Hs2 & Hs3).
  apply StronglySorted_cons in Hs3 as [Hs3 Hs4]. rewrite Forall_forall in Hs3.
  split_and!.
  - intros u Hu. apply Hs1; set_solver.
  - intros u Hu. by apply Hs3.
  - intros u w Hu Hw. apply Hs1; set_solver.
Qed.

Lemma layers_nil_inv s stack : layers s [] stack → stack = [].
Proof. by inversion 1. Qed.

(** ** A ticket met for the first time *)
Lemma discover_states frames s v :
  inv frames s → v < n → ¬ seen s v →
  (∀ w, seen (discover v s) w ↔ w = v ∨ seen s w) ∧ num (discover v s) v = Tarjan.next s ∧
  (∀ w, seen s w → seen (discover v s) w ∧ num (discover v s) w = num s w ∧
                  (on (discover v s) w → on s w)) ∧
  (∀ w, w ≠ v → low_of (discover v s) w = low_of s w) ∧ low_of (discover v s) v = Tarjan.next s ∧
  (∀ w, closed (discover v s) w ↔ closed s w).
Proof.
  intros [Hi Hl Ho] Hv Hn. unfold seen, num, on, closed in *.
  assert (∀ w, is_Some (index_of s w) → w ≠ v) as Hne by (intros w ? ->; done).
  split_and!.
  - intros w. rewrite discover_index by done. case_decide; [naive_solver|]. naive_solver.
  - rewrite discover_index by done. by case_decide.
  - intros w Hw. specialize (Hne w Hw). rewrite discover_index, discover_on by done.
    by rewrite !decide_False by done.
  - intros w Hw. rewrite discover_low by done. by rewrite decide_False.
  - rewrite discover_low by done. by rewrite decide_True.
  - intros w. unfold seen, on. rewrite discover_index, discover_on by done. case_decide as Hw; [|done].
    subst. naive_solver.
Qed.

Lemma discover_inv frames0 frames s v :
  inv frames0 s → v < n → ¬ seen s v → called_from frames v →
  layers (discover v s) frames (Tarjan.stack s) → inv ((v, 0) :: frames) (discover v s).
Proof.
  intros Hinv Hv Hn Hc Hlayers.
  destruct (discover_states frames0 s v Hinv Hv Hn) as (Hseen & Hnum & Hold & Hlow & Hlv & Hclosed).
  assert (Tarjan.stack (discover v s) = v :: Tarjan.stack s) as Hst by by destruct s.
  assert (Tarjan.next (discover v s) = S (Tarjan.next s)) as Hnx by by destruct s.
  assert (Tarjan.cyclic (discover v s) = Tarjan.cyclic s) as Hcy by by destruct s.
  destruct Hinv as [Hi Hl Ho Hsort Hon Hsn Hnext Hlay Hreach Hcl Hcyc].
  assert (∀ u, u ∈ Tarjan.stack s → u ≠ v) as Hne by (intros u ?%Hsn ->; done).
  split.
  - destruct s; simpl in *. by rewrite length_insert.
  - destruct s; simpl in *. by rewrite length_insert.
  - destruct s; simpl in *. by rewrite length_insert.
  - rewrite Hst. apply StronglySorted_cons. split.
    + apply Forall_forall. intros u Hu. destruct (Hold u (Hsn u Hu)) as (_ & -> & _). rewrite Hnum.
      by apply Hnext, Hsn.
    + eapply StronglySorted_impl_elem_of; [|exact Hsort].
      intros u w Hu Hw. destruct (Hold u (Hsn u Hu)) as (_ & -> & _).
      by destruct (Hold w (Hsn w Hw)) as (_ & -> & _).
  - intros w. rewrite Hst. unfold on. rewrite discover_on by done. rewrite elem_of_cons, <-Hon.
    case_decide; naive_solver.
  - intros w. rewrite Hst, elem_of_cons, Hseen. naive_solver.
  - intros w [->|Hw]%Hseen; rewrite Hnx.
    + rewrite Hnum. split; [done|lia].
    + destruct (Hold w Hw) as (_ & -> & _). destruct (Hnext w Hw). split; [done|lia].
  - rewrite Hst. apply (layers_cons _ v 0 frames []); [constructor|lia|lia|constructor|done|done].
  - rewrite Hst. intros u [->|Hu]%elem_of_cons.
    + exists v. split; [by left|]. split; [lia|]. reflexivity.
    + destruct (Hreach u Hu) as (x & Hx & Hnx' & Hr). exists x. split; [by right|].
      destruct (Hold x (Hsn x Hx)) as (_ & -> & _). by rewrite Hlow by auto.
  - intros u w. rewrite !Hclosed. apply Hcl.
  - intros id. rewrite Hcy, Hcyc. by setoid_rewrite Hclosed.
Qed.

(** ** A low mark that goes down *)
Lemma lower_inv frames frames' s v b :
  inv frames s → v < n → layers (lower v b s) frames' (Tarjan.stack s) →
  (∃ x, x ∈ Tarjan.stack s ∧ num s x = low_of s v `min` b ∧ rtc leads v x) → inv frames' (lower v b s).
Proof.
  intros Hinv Hv Hlayers Hx. pose proof (inv_low _ _ Hinv) as Hl.
  assert (Tarjan.stack (lower v b s) = Tarjan.stack s) as Hst by by destruct s.
  assert (∀ w, num (lower v b s) w = num s w) as Hnum by (intros; unfold num; by rewrite lower_index).
  assert (∀ w, seen (lower v b s) w ↔ seen s w) as Hseen by (intros; unfold seen; by rewrite lower_index).
  assert (∀ w, on (lower v b s) w ↔ on s w) as Hon' by (intros; unfold on; by rewrite lower_on).
  assert (∀ w, closed (lower v b s) w ↔ closed s w) as Hclosed
    by (intros; unfold closed; by rewrite Hseen, Hon').
  destruct Hinv as [Hi _ Ho Hsort Hon Hsn Hnext Hlay Hreach Hcl Hcyc].
  split.
  - by destruct s.
  - destruct s; simpl in *. by rewrite length_insert.
  - by destruct s.
  - rewrite Hst. eapply StronglySorted_impl_elem_of; [|exact Hsort]. intros u w _ _. by rewrite !Hnum.
  - intros w. rewrite Hst, Hon'. apply Hon.
  - intros w. rewrite Hst, Hseen. apply Hsn.
  - intros w. rewrite Hseen, Hnum. destruct s; simpl in *. apply Hnext.
  - by rewrite Hst.
  - rewrite Hst. intros u Hu. rewrite lower_low by done. case_decide as Hd.
    + subst. destruct Hx as (x & ? & ? & ?). exists x. by rewrite Hnum.
    + destruct (Hreach u Hu) as (x & ? & ? & ?). exists x. by rewrite Hnum.
  - intros u w. rewrite !Hclosed. apply Hcl.
  - intros id. setoid_rewrite Hclosed. destruct s; simpl in *. apply Hcyc.
Qed.

Lemma lower_id s v b : length (Tarjan.low s) = n → v < n → low_of s v <= b → lower v b s = s.
Proof.
  intros Hl Hv Hle. destruct s as [index low on_stack stack next cyclic]. simpl in *. f_equal.
  rewrite Nat.min_l by done. unfold low_of. simpl. apply list_insert_id.
  destruct (lookup_lt_is_Some_2 low v) as [x Hx]; [lia|]. by rewrite Hx.
Qed.

(** ** One more leads walked *)
Lemma layers_walk s v k frames stack w :
  successors succ v !! k = Some w → walked_to s (low_of s v) w →
  layers s ((v, k) :: frames) stack → layers s ((v, S k) :: frames) stack.
Proof.
  intros Hw Ht (below & rest & -> & Hb & Hl & Hk & Hs & Hc & Hr)%layers_inv.
  constructor; [done|done| | |done|done].
  - by apply lookup_lt_Some in Hw.
  - rewrite (take_S_r _ _ w) by done. apply Forall_app. split; [done|]. by constructor.
Qed.

Lemma layers_low s frames stack u : layers s frames stack → u ∈ stack → low_of s u <= num s u.
Proof.
  intros H. induction H as [|v k frames below rest Hb Hlow Hk Hw Hc Hl IH]; [set_solver|].
  intros [Hu|[->|Hu]%elem_of_cons]%elem_of_app; [|done|by apply IH].
  rewrite Forall_forall in Hb. destruct (Hb u Hu) as (_ & ? & _). lia.
Qed.

Lemma top_on_stack s v k frames stack : layers s ((v, k) :: frames) stack → v ∈ stack.
Proof. intros (below & rest & -> & _)%layers_inv. set_solver. Qed.

(** The top frame's layer when its own low mark goes down. *)
Lemma layers_lower s v b k frames stack :
  length (Tarjan.low s) = n → v < n → (∀ u, u ∈ stack → seen s u) → NoDup stack →
  layers s ((v, k) :: frames) stack → layers (lower v b s) ((v, k) :: frames) stack.
Proof.
  intros Hlen Hv Hseen Hnd (below & rest & -> & Hb & Hl & Hk & Hs & Hc & Hr)%layers_inv.
  apply NoDup_app in Hnd as (_ & Hnd & [Hvr _]%NoDup_cons).
  assert (∀ w, seen s w → seen (lower v b s) w ∧ num (lower v b s) w = num s w ∧
                           (on (lower v b s) w → on s w)) as Hold.
  { intros w Hw. unfold seen, num, on. by rewrite lower_index, lower_on. }
  assert (low_of (lower v b s) v <= low_of s v) as Hle by (rewrite lower_low, decide_True by done; lia).
  assert (∀ u, u ≠ v → low_of (lower v b s) u = low_of s u) as Hne
    by (intros; by rewrite lower_low, decide_False).
  constructor; [| |done| |done|].
  - apply Forall_forall. intros u Hu. eapply under_mono; [by eapply Forall_forall in Hb| |done|done|].
    + apply Hseen. set_solver.
    + apply Hne. intros ->. apply (Hnd v Hu). by left.
  - destruct (Hold v) as (_ & -> & _); [apply Hseen; set_solver|]. lia.
  - eapply Forall_impl; [done|]. intros w ?. by eapply walked_to_mono.
  - eapply layers_mono; [done| |done]. intros u Hu. split; [apply Hseen; set_solver|].
    apply Hne. by intros ->.
Qed.

Lemma stack_NoDup frames s : inv frames s → NoDup (Tarjan.stack s).
Proof.
  intros Hinv. pose proof (inv_sorted _ _ Hinv) as H. induction H as [|u l Hl IH Hu]; constructor; [|done].
  intros Hin. rewrite Forall_forall in Hu. apply Hu in Hin. lia.
Qed.

(** ** A ticket left for its caller *)
Lemma join_inv v p j frames s :
  inv ((v, length (successors succ v)) :: (p, j) :: frames) s → low_of s v < num s v →
  inv ((p, j) :: frames) (lower p (low_of s v) s).
Proof.
  intros Hinv Hlow.
  destruct (layers_inv _ _ _ _ _ (inv_layers _ _ Hinv)) as (bv & rv & Hst & Hbv & _ & _ & Hwv & Hpv & Hlp).
  simpl in Hpv. rewrite firstn_all in Hwv.
  pose proof (stack_NoDup _ _ Hinv) as Hnd. rewrite Hst in Hnd.
  apply NoDup_app in Hnd as (_ & Hdj & [Hvr Hnd]%NoDup_cons).
  assert (p ∈ rv) as Hp by by eapply top_on_stack.
  assert (∀ u, u ∈ bv ++ v :: rv → seen s u) as Hseen by (rewrite <- Hst; apply Hinv).
  assert (p < n) as Hpn by (apply (inv_next _ _ Hinv), Hseen; set_solver).
  assert (∀ u, u ∈ bv ++ [v] → u ≠ p ∧ seen s u) as Hu.
  { intros u Hu. split; [|apply Hseen; set_solver]. intros ->.
    apply elem_of_app in Hu as [Hu|Hu%list_elem_of_singleton]; [|by subst].
    apply (Hdj p Hu). by right. }
  pose proof (inv_low _ _ Hinv) as Hlen.
  set (s' := lower p (low_of s v) s).
  assert (low_of s' p = low_of s p `min` low_of s v) as Hlp' by (unfold s'; by rewrite lower_low, decide_True).
  assert (∀ w, seen s w → seen s' w ∧ num s' w = num s w ∧ (on s' w → on s w)) as Hold.
  { intros w Hw. unfold seen, num, on, s'. by rewrite lower_index, lower_on. }
  assert (∀ u, u ≠ p → low_of s' u = low_of s u) as Hne by (intros; unfold s'; by rewrite lower_low, decide_False).
  destruct (inv_reach _ _ Hinv p) as (xp & Hxp & Hnp & Hrp); [rewrite Hst; set_solver|].
  destruct (inv_reach _ _ Hinv v) as (xv & Hxv & Hnv & Hrv); [rewrite Hst; set_solver|].
  apply (lower_inv _ _ _ _ _ Hinv Hpn).
  - fold s'. apply (layers_lower _ _ (low_of s v)) in Hlp; [|done|done|intros; apply Hseen; set_solver|done]. fold s' in Hlp.
    apply layers_inv in Hlp as (bp & rp & -> & Hbp & Hl & Hk & Hw & Hc & Hr).
    rewrite Hst. replace (bv ++ v :: bp ++ p :: rp) with ((bv ++ v :: bp) ++ p :: rp) by (by rewrite <- app_assoc).
    constructor; [|done|done|done|done|done].
    apply Forall_app. split; [|constructor; [|done]].
    + apply Forall_forall. intros u Hub. rewrite Forall_forall in Hbv. destruct (Hbv u Hub) as (H1 & H2 & H3 & H4).
      destruct (Hu u) as [Hup Hus]; [set_solver|]. unfold under. rewrite (Hne u Hup).
      destruct (Hold u Hus) as (_ & -> & _). split_and!; [lia|done|by eapply rtc_l|].
      intros w Huw. eapply walked_to_mono; [by apply H4|lia|done].
    + destruct (Hu v) as [Hup Hus]; [set_solver|]. unfold under. rewrite (Hne v Hup).
      destruct (Hold v Hus) as (_ & -> & _). split_and!; [lia|done|by apply rtc_once|].
      intros w Hvw. eapply walked_to_mono; [by eapply Forall_forall in Hwv|lia|done].
  - destruct (Nat.min_spec (low_of s p) (low_of s v)) as [[_ ->]|[_ ->]]; [by exists xp|].
    exists xv. split_and!; [done|done|by eapply rtc_l].
Qed.

(** ** A component that is complete *)
Lemma pop_until_app v below rest : v ∉ below → pop_until v (below ++ v :: rest) = (below ++ [v], rest).
Proof.
  induction below as [|u below IH]; intros Hv; simpl.
  - by rewrite Nat.eqb_refl.
  - apply not_elem_of_cons in Hv as [Hne Hv]. destruct (Nat.eqb_spec u v); [by subst|].
    by rewrite IH.
Qed.

Lemma cleared_lookup component o w :
  Forall (λ u, u < length o) component →
  default false (foldl (λ o w, <[w := false]> o) o component !! w) = true ↔
  default false (o !! w) = true ∧ w ∉ component.
Proof.
  revert o. induction component as [|u c IH]; intros o Hc; simpl.
  - set_solver.
  - apply Forall_cons in Hc as [Hu Hc]. rewrite IH by (by rewrite length_insert).
    rewrite default_insert by done. case_decide; set_solver.
Qed.

Lemma length_cleared component o : length (foldl (λ o w, <[w := false]> o) o component) = length (o : list bool).
Proof. revert o. induction component as [|u c IH]; intros o; simpl; [done|]. by rewrite IH, length_insert. Qed.

Section component.
Context (frames : list (nat * nat)) (s : Tarjan) (v : nat) (below rest : list nat).
Context (Hinv : inv ((v, length (successors succ v)) :: frames) s).
Context (Hst : Tarjan.stack s = below ++ v :: rest) (Hroot : low_of s v = num s v).
Context (Hbelow : Forall (under s v) below).
Context (Hwalked : ∀ w, leads v w → walked_to s (low_of s v) w).

Lemma component_walked u w : u ∈ below ++ [v] → leads u w → seen s w ∧ (on s w → w ∈ below ++ [v]).
Proof.
  intros Hu Huw. assert (walked_to s (low_of s v) w) as [Hs Hw].
  { apply elem_of_app in Hu as [Hu|Hu%list_elem_of_singleton]; [|rewrite Hu in Huw; by apply Hwalked].
    rewrite Forall_forall in Hbelow. by apply (Hbelow u Hu). }
  split; [done|]. intros Hon. specialize (Hw Hon).
  apply (inv_on _ _ Hinv) in Hon. rewrite Hst in Hon.
  destruct (inv_split _ _ _ _ _ Hinv Hst) as (_ & Hr & _).
  apply elem_of_app in Hon as [Hon|[->|Hon]%elem_of_cons]; [set_solver|set_solver|].
  specialize (Hr w Hon). lia.
Qed.

Lemma component_returns u : u ∈ below ++ [v] → rtc leads u v.
Proof.
  remember (num s u) as i eqn:Hi. revert u Hi. induction (lt_wf i) as [i _ IH]. intros u -> Hu.
  apply elem_of_app in Hu as [Hu|Hu%list_elem_of_singleton]; [|by rewrite Hu].
  rewrite Forall_forall in Hbelow. destruct (Hbelow u Hu) as (H1 & H2 & _).
  destruct (inv_reach _ _ Hinv u) as (x & Hx & Hn & Hr); [rewrite Hst; set_solver|].
  transitivity x; [done|]. apply (IH (num s x)); [lia|done|].
  rewrite Hst in Hx. destruct (inv_split _ _ _ _ _ Hinv Hst) as (_ & Hlt & _).
  apply elem_of_app in Hx as [Hx|[->|Hx]%elem_of_cons]; [set_solver|set_solver|].
  specialize (Hlt x Hx). lia.
Qed.

Lemma component_reached u : u ∈ below ++ [v] → rtc leads v u.
Proof.
  intros [Hu|Hu%list_elem_of_singleton]%elem_of_app; [|by rewrite Hu].
  rewrite Forall_forall in Hbelow. by apply (Hbelow u Hu).
Qed.

Lemma component_on u : u ∈ below ++ [v] → on s u ∧ seen s u ∧ u < n.
Proof.
  intros Hu. assert (u ∈ Tarjan.stack s) as Hs by (rewrite Hst; set_solver).
  split; [by apply (inv_on _ _ Hinv)|]. split; [by apply (inv_seen _ _ Hinv)|].
  by apply (inv_next _ _ Hinv), (inv_seen _ _ Hinv).
Qed.

(** Nothing closed leads back onto the stack. *)
Lemma closed_stays u w : closed s u → rtc leads u w → closed s w.
Proof. intros Hu H. induction H as [|x y z Hxy _ IH]; [done|]. apply IH. by eapply (inv_closed _ _ Hinv). Qed.

(** The test [component.len() > 1 || succ[v].contains(&v)]. *)
Lemma component_cyclic u : u ∈ below ++ [v] →
  (1 <? length (below ++ [v])) || bool_decide (v ∈ successors succ v) = true ↔ tc leads u u.
Proof.
  intros Hu. rewrite orb_true_iff, Nat.ltb_lt, bool_decide_eq_true, length_app. simpl. split.
  - intros [Hlen|Hself].
    + assert (∃ x, x ∈ below ++ [v] ∧ x ≠ u) as (x & Hx & Hne).
      { destruct (decide (u = v)) as [->|Huv]; [|exists v; set_solver].
        destruct below as [|x b] eqn:E; [simpl in Hlen; lia|]. exists x. split; [set_solver|].
        destruct (inv_split _ _ _ _ _ Hinv Hst) as (H & _). intros ->.
        specialize (H v (list_elem_of_here _ _)). lia. }
      assert (rtc leads u x) as Hux by (transitivity v; [by apply component_returns|by apply component_reached]).
      assert (rtc leads x u) as Hxu by (transitivity v; [by apply component_returns|by apply component_reached]).
      apply rtc_tc in Hux as [?|Hux]; [by subst|]. by eapply tc_rtc_r.
    + eapply tc_rtc_r; [|by apply component_reached]. eapply tc_rtc_l; [by apply component_returns|].
      by apply tc_once.
  - intros Htc. destruct (decide (below = [])) as [Hb|Hb]; [|left; destruct below; [done|simpl; lia]].
    rewrite Hb in Hu. apply list_elem_of_singleton in Hu as ->. right.
    assert (∃ w, leads v w ∧ rtc leads w v) as (w & Hw & Hr).
    { inversion Htc; subst; [by exists v|]. eexists. by split; [|by apply tc_rtc]. }
    destruct (component_walked v w) as [Hs Hon]; [set_solver|done|].
    destruct (decide (is_on_stack s w = true)) as [Ho|Ho].
    + specialize (Hon Ho). rewrite Hb in Hon. by apply list_elem_of_singleton in Hon as ->.
    + assert (closed s v) as [_ Hv] by by eapply closed_stays.
      exfalso. apply Hv, component_on. set_solver.
Qed.

Lemma closed_cyclic id : v ∉ below →
  id ∈ Tarjan.cyclic (close_component ids succ v s) ↔
  id ∈ Tarjan.cyclic s ∨ ∃ w, w ∈ below ++ [v] ∧ ids !! w = Some id ∧ tc leads w w.
Proof.
  intros Hvb. pose proof component_cyclic as Hcc.
  destruct s as [index low on_stack stack next cyclic]; simpl in *. rewrite Hst, pop_until_app by done.
  simpl in *. destruct ((1 <? _) || _).
  - rewrite elem_of_union, elem_of_list_to_set, list_elem_of_omap. naive_solver.
  - split; [by left|]. intros [?|(w & Hw & _ & Ht)]; [done|]. by apply Hcc in Ht.
Qed.

Lemma close_inv : layers s frames rest → inv frames (close_component ids succ v s).
Proof.
  intros Hlay. pose proof (stack_NoDup _ _ Hinv) as Hnd. rewrite Hst in Hnd.
  apply NoDup_app in Hnd as (_ & Hdj & [Hvr _]%NoDup_cons).
  assert (v ∉ below) as Hvb by (intros Hv; apply (Hdj v Hv); by left).
  assert (∀ w, w ∈ rest → w ∉ below ++ [v]) as Hrest.
  { intros w Hw [Hb|Hb%list_elem_of_singleton]%elem_of_app; [|by subst]. apply (Hdj w Hb). by right. }
  set (s' := close_component ids succ v s).
  assert (Tarjan.stack s' = rest) as Hst'.
  { unfold s'. destruct s; simpl in *. rewrite Hst, pop_until_app by done. done. }
  assert (∀ w, index_of s' w = index_of s w) as Hidx
    by (intros; unfold s'; destruct s; simpl in *; by rewrite Hst, pop_until_app).
  assert (∀ w, low_of s' w = low_of s w) as Hlow
    by (intros; unfold s'; destruct s; simpl in *; by rewrite Hst, pop_until_app).
  assert (∀ w, on s' w ↔ on s w ∧ w ∉ below ++ [v]) as Hon'.
  { intros w. pose proof (inv_on_stack _ _ Hinv) as Hlo. unfold on, is_on_stack, s'.
    assert (Forall (λ u, u < length (Tarjan.on_stack s)) (below ++ [v])) as Hlt.
    { apply Forall_forall. intros u Hu. rewrite Hlo. by apply component_on. }
    destruct s; simpl in *. rewrite Hst, pop_until_app by done. simpl. by apply cleared_lookup. }
  assert (∀ w, closed s' w ↔ closed s w ∨ w ∈ below ++ [v]) as Hclosed.
  { intros w. unfold closed, seen. rewrite Hidx, Hon'. destruct (decide (w ∈ below ++ [v])) as [Hw|Hw].
    - destruct (component_on w Hw) as (_ & Hs & _). unfold seen in Hs. tauto.
    - tauto. }
  assert (∀ w, num s' w = num s w) as Hnum by (intros; unfold num; by rewrite Hidx).
  split.
  - unfold s'. destruct s; simpl in *. rewrite Hst, pop_until_app by done. apply Hinv.
  - unfold s'. destruct s; simpl in *. rewrite Hst, pop_until_app by done. apply Hinv.
  - pose proof (inv_on_stack _ _ Hinv) as Hlo. unfold s'. destruct s; simpl in *.
    rewrite Hst, pop_until_app by done. simpl. by rewrite length_cleared.
  - rewrite Hst'. pose proof (inv_sorted _ _ Hinv) as Hs. rewrite Hst in Hs.
    apply StronglySorted_app in Hs as (_ & _ & [_ Hs]%StronglySorted_cons).
    eapply StronglySorted_impl_elem_of; [|exact Hs]. intros u w _ _. by rewrite !Hnum.
  - intros w. rewrite Hon', Hst', (inv_on _ _ Hinv), Hst. set_solver.
  - intros w. rewrite Hst'. unfold seen. rewrite Hidx. intros Hw. apply (inv_seen _ _ Hinv).
    rewrite Hst. set_solver.
  - intros w. unfold seen. rewrite Hidx, Hnum. intros Hw.
    replace (Tarjan.next s') with (Tarjan.next s)
      by (unfold s'; destruct s; simpl in *; by rewrite Hst, pop_until_app).
    by apply (inv_next _ _ Hinv).
  - rewrite Hst'. eapply layers_mono; [done| |].
    + intros u Hu. split; [|done]. apply (inv_seen _ _ Hinv). rewrite Hst. set_solver.
    + intros w Hw. unfold seen. rewrite Hidx, Hnum. split_and!; [done|done|]. by intros [? _]%Hon'.
  - rewrite Hst'. intros u Hu. rewrite Hlow. destruct (inv_reach _ _ Hinv u) as (x & Hx & Hn & Hr).
    { rewrite Hst. set_solver. }
    exists x. rewrite Hnum. split_and!; [|done|done].
    assert (low_of s u <= num s u) as Hle by by eapply layers_low.
    destruct (inv_split _ _ _ _ _ Hinv Hst) as (Hb & Hr' & Hbr). specialize (Hr' u Hu). rewrite Hst in Hx.
    apply elem_of_app in Hx as [Hx|[->|Hx]%elem_of_cons]; [|lia|done]. specialize (Hb x Hx). lia.
  - intros u w. rewrite !Hclosed. intros [Hu|Hu] Huw; [left; by eapply (inv_closed _ _ Hinv)|].
    destruct (component_walked u w Hu Huw) as [Hs Hon].
    destruct (decide (is_on_stack s w = true)) as [Ho|Ho]; [right; by apply Hon|by left].
  - intros id. setoid_rewrite Hclosed. pose proof (closed_cyclic id Hvb) as Hcy. fold s' in Hcy.
    rewrite Hcy, (inv_cyclic _ _ Hinv). split.
    + intros [(w & Hw & Hc & Ht)|(w & Hw & Hid & Ht)]; exists w; naive_solver.
    + intros (w & Hid & [Hc|Hw] & Ht); [left|right]; by exists w.
Qed.
End component.

(** ** One round *)
Definition cost (s : Tarjan) (v : nat) : nat :=
  if index_of s v then 0 else S (length (successors succ v)).

(** The rounds that are left at most. *)
Definition potential (frames : list (nat * nat)) (s : Tarjan) : nat :=
  sum_list_with (cost s) (seq 0 n) + sum_list_with (λ f, S (length (successors succ f.1)) - f.2) frames.

Lemma sum_list_with_update {A} (f g : A → nat) l x :
  NoDup l → x ∈ l → g x = 0 → (∀ y, y ≠ x → g y = f y) →
  sum_list_with f l = f x + sum_list_with g l.
Proof.
  intros Hnd Hx Hg Hne. induction Hnd as [|y l Hy Hnd IH]; [set_solver|]. simpl.
  apply elem_of_cons in Hx as [->|Hx].
  - rewrite Hg. assert (sum_list_with f l = sum_list_with g l) as ->; [|lia].
    clear -Hy Hne. induction l as [|z l IH]; [done|]. simpl. rewrite IH by set_solver. rewrite Hne; [done|set_solver].
  - rewrite IH by done. rewrite Hne; [lia|]. by intros ->.
Qed.

Lemma cost_discover frames s v : inv frames s → v < n → ¬ seen s v →
  sum_list_with (cost s) (seq 0 n) =
  S (length (successors succ v)) + sum_list_with (cost (discover v s)) (seq 0 n).
Proof.
  intros Hinv Hv Hs.
  rewrite (sum_list_with_update (cost s) (cost (discover v s)) (seq 0 n) v).
  - f_equal. unfold cost, seen in *. destruct (index_of s v); [|done]. exfalso. apply Hs. by eexists.
  - apply NoDup_ListNoDup, seq_NoDup.
  - rewrite elem_of_seq. lia.
  - unfold cost. rewrite discover_index by (done || apply Hinv). by rewrite decide_True.
  - intros w Hw. unfold cost. rewrite discover_index by (done || apply Hinv). by rewrite decide_False.
Qed.

Lemma cost_same s s' : (∀ v, index_of s' v = index_of s v) →
  sum_list_with (cost s') (seq 0 n) = sum_list_with (cost s) (seq 0 n).
Proof. intros H. induction (seq 0 n) as [|v l IH]; simpl; [done|]. unfold cost at 1 3. by rewrite H, IH. Qed.

Lemma close_index v s w : index_of (close_component ids succ v s) w = index_of s w.
Proof. destruct s as [?? ? stack ??]. simpl. by destruct (pop_until v stack). Qed.

Lemma walk_new v k frames s w :
  inv ((v, k) :: frames) s → successors succ v !! k = Some w → index_of s w = None →
  inv ((w, 0) :: (v, S k) :: frames) (discover w s).
Proof.
  intros Hinv Hw Hn. assert (w < n) as Hwn by by eapply Hrange, list_elem_of_lookup_2.
  assert (¬ seen s w) as Hns by (unfold seen; rewrite Hn; by intros []).
  destruct (discover_states _ s w Hinv Hwn Hns) as (Hseen & Hnum & Hold & Hlow & Hlv & _).
  pose proof (inv_layers _ _ Hinv) as Hl.
  assert (v ∈ Tarjan.stack s) as Hv by by eapply top_on_stack.
  assert (v ≠ w) as Hvw by (intros ->; apply Hns, (inv_seen _ _ Hinv), Hv).
  eapply discover_inv; [done|done|done|by eapply list_elem_of_lookup_2|].
  apply (layers_walk _ _ _ _ _ w); [done| |].
  - split; [apply Hseen; by left|]. intros _. rewrite Hnum, Hlow by done.
    apply layers_low with (u := v) in Hl; [|done].
    destruct (inv_next _ _ Hinv v); [by apply (inv_seen _ _ Hinv)|]. lia.
  - eapply layers_mono; [done| |done]. intros u Hu. pose proof (inv_seen _ _ Hinv u Hu) as Hus.
    split; [done|]. apply Hlow. by intros ->.
Qed.

Lemma walk_known v k frames s w i :
  inv ((v, k) :: frames) s → successors succ v !! k = Some w → index_of s w = Some i → on s w →
  inv ((v, S k) :: frames) (lower v i s).
Proof.
  intros Hinv Hw Hi Hon. pose proof (inv_layers _ _ Hinv) as Hl.
  assert (num s w = i) as Hnum by (unfold num; by rewrite Hi).
  assert (v ∈ Tarjan.stack s) as Hv by by eapply top_on_stack.
  assert (v < n) as Hvn by by apply (inv_next _ _ Hinv), (inv_seen _ _ Hinv).
  pose proof (inv_low _ _ Hinv) as Hlen.
  eapply lower_inv; [done|done| |].
  - apply (layers_walk _ _ _ _ _ w); [done| |].
    + split; [unfold seen; by rewrite lower_index, Hi|]. intros _.
      unfold num. rewrite lower_index, Hi, lower_low, decide_True by done. simpl. lia.
    + apply layers_lower; [done|done|apply Hinv|by eapply stack_NoDup|done].
  - destruct (inv_reach _ _ Hinv v Hv) as (x & Hx & Hn & Hr).
    destruct (Nat.min_spec (low_of s v) i) as [[_ ->]|[_ ->]]; [by exists x|].
    exists w. split_and!; [by apply (inv_on _ _ Hinv)|done|]. by eapply rtc_once, list_elem_of_lookup_2.
Qed.

Lemma walk_closed v k frames s w :
  inv ((v, k) :: frames) s → successors succ v !! k = Some w → seen s w → ¬ on s w →
  inv ((v, S k) :: frames) s.
Proof.
  intros [? ? ? ? ? ? ? Hl ? ? ?] Hw Hs Hon. split; try done.
  apply (layers_walk _ _ _ _ _ w); [done| |done]. by split.
Qed.

(** The last round of a ticket. *)
Lemma walk_left v k frames s :
  inv ((v, k) :: frames) s → successors succ v !! k = None →
  inv frames (walk_round ids succ ((v, k) :: frames) s).2.
Proof.
  intros Hinv Hk. pose proof (inv_layers _ _ Hinv) as Hl.
  apply layers_inv in Hl as (below & rest & Hst & Hb & Hle & Hk' & Hw & Hc & Hr).
  apply lookup_ge_None in Hk as Hge. assert (k = length (successors succ v)) as -> by lia.
  rewrite firstn_all, Forall_forall in Hw.
  assert (seen s v) as [i Hi] by (apply (inv_seen _ _ Hinv); rewrite Hst; set_solver).
  assert (num s v = i) as Hnum by (unfold num; by rewrite Hi).
  simpl. rewrite Hk. simpl. destruct frames as [|[p j] frames].
  - assert (low_of s v = num s v) as Hroot.
    { apply layers_nil_inv in Hr as ->. destruct (inv_reach _ _ Hinv v) as (x & Hx & Hn & _).
      { rewrite Hst. set_solver. }
      destruct (inv_split _ _ _ _ _ Hinv Hst) as (Hlt & _). rewrite Hst in Hx.
      apply elem_of_app in Hx as [Hx|Hx%list_elem_of_singleton]; [|by subst].
      specialize (Hlt x Hx). lia. }
    rewrite bool_decide_true by congruence. by eapply close_inv.
  - assert (p ∈ rest) as Hp by by eapply top_on_stack.
    assert (p ∈ Tarjan.stack s) as Hps by (rewrite Hst; set_solver).
    destruct (inv_next _ _ Hinv p (inv_seen _ _ Hinv p Hps)) as [Hpn _].
    pose proof (inv_low _ _ Hinv) as Hlen.
    destruct (inv_split _ _ _ _ _ Hinv Hst) as (_ & Hlt & _). specialize (Hlt p Hp).
    rewrite lower_index, lower_low, decide_False by (done || (intros ->; lia)).
    case_bool_decide as Hd.
    + assert (low_of s v = num s v) as Hroot by congruence.
      assert (low_of s p <= num s p) by by eapply layers_low.
      rewrite lower_id by (done || lia). by eapply close_inv.
    + apply join_inv; [done|]. assert (low_of s v ≠ num s v) by congruence. lia.
Qed.

Lemma walk_round_index frames s w : index_of s w ≠ None → inv frames s →
  index_of (walk_round ids succ frames s).2 w = index_of s w.
Proof.
  intros Hw Hinv. destruct frames as [|[v k] frames]; [done|]. simpl.
  destruct (successors succ v !! k) as [x|] eqn:Hk.
  - destruct (index_of s x) as [i|] eqn:Hi.
    + destruct (is_on_stack s x); [|done]. apply lower_index.
    + cbn [snd]. rewrite discover_index; [|apply Hinv|by eapply Hrange, list_elem_of_lookup_2].
      case_decide; [by subst|done].
  - simpl. case_bool_decide; rewrite ?close_index; destruct frames as [|[p j] ?]; rewrite ?lower_index; done.
Qed.

Lemma walk_round_inv v k frames s f' s' :
  inv ((v, k) :: frames) s → walk_round ids succ ((v, k) :: frames) s = (f', s') →
  inv f' s' ∧ potential f' s' < potential ((v, k) :: frames) s.
Proof.
  intros Hinv E. destruct (layers_inv _ _ _ _ _ (inv_layers _ _ Hinv)) as (_ & _ & _ & _ & _ & Hk & _).
  destruct (successors succ v !! k) as [w|] eqn:Hw.
  - simpl in E. rewrite Hw in E. pose proof (lookup_lt_Some _ _ _ Hw) as Hlt.
    destruct (index_of s w) as [i|] eqn:Hi; [destruct (is_on_stack s w) eqn:Ho|]; injection E as <- <-.
    + split; [by eapply walk_known|]. unfold potential.
      rewrite (cost_same s (lower v i s)) by apply lower_index. simpl. lia.
    + split; [eapply walk_closed; [done|done|by eexists|]|].
      * unfold on. by rewrite Ho.
      * unfold potential. simpl. lia.
    + split; [by apply walk_new|]. unfold potential.
      rewrite (cost_discover _ s w Hinv); [simpl; lia|by eapply Hrange, list_elem_of_lookup_2|].
      unfold seen. rewrite Hi. by intros [].
  - pose proof (walk_left v k frames s Hinv Hw) as Hinv'. rewrite E in Hinv'.
    simpl in E. rewrite Hw in E. injection E as <- <-. split; [done|]. unfold potential. simpl.
    rewrite (cost_same s); [simpl in *; lia|]. intros u.
    destruct frames as [|[p j] frames]; simpl; case_bool_decide; by rewrite ?close_index, ?lower_index.
Qed.

(** ** The whole walk *)
Lemma walk_frames_inv fuel frames s :
  inv frames s → potential frames s <= fuel →
  inv [] (walk_frames ids succ fuel frames s) ∧
  ∀ w, seen s w → seen (walk_frames ids succ fuel frames s) w.
Proof.
  revert frames s. induction fuel as [|fuel IH]; intros frames s Hinv Hf.
  - destruct frames as [|[v k] frames]; [done|].
    destruct (walk_round ids succ ((v, k) :: frames) s) as [f' s'] eqn:E.
    destruct (walk_round_inv _ _ _ _ _ _ Hinv E). lia.
  - destruct frames as [|[v k] frames]; [done|].
    destruct (walk_round ids succ ((v, k) :: frames) s) as [f' s'] eqn:E.
    destruct (walk_round_inv _ _ _ _ _ _ Hinv E) as [Hinv' Hlt].
    cbn [walk_frames]. rewrite E. destruct (IH f' s' Hinv') as [H1 H2]; [lia|]. split; [done|].
    intros w Hw. apply H2. unfold seen in *. destruct Hw as [i Hi].
    pose proof (walk_round_index ((v, k) :: frames) s w) as Hr. rewrite E in Hr. simpl in Hr.
    rewrite Hr by (done || by rewrite Hi). by eexists.
Qed.

Lemma rounds_enough s : sum_list_with (cost s) (seq 0 n) <= rounds succ.
Proof.
  unfold rounds. rewrite <-Hsucc. unfold cost, successors.
  assert (∀ a (l : list (list nat)), (∀ i, l !! i = succ !! (a + i)) →
    sum_list_with (λ v, if index_of s v then 0 else S (length (default [] (succ !! v)))) (seq a (length l)) <=
    sum_list_with (λ row, S (length row)) l) as H; [|by apply (H 0)].
  intros a l. revert a. induction l as [|row l IH]; intros a Hl; simpl; [done|].
  pose proof (Hl 0) as H0. simpl in H0. rewrite Nat.add_0_r in H0. rewrite <-H0. simpl.
  assert (∀ i, l !! i = succ !! (S a + i)) as Hl' by (intros i; rewrite Nat.add_succ_comm; apply (Hl (S i))).
  specialize (IH (S a) Hl'). destruct (index_of s a); lia.
Qed.

Lemma walk_root_inv s root :
  inv [] s → root < n → inv [] (walk_root ids succ s root) ∧ seen (walk_root ids succ s root) root ∧
  ∀ w, seen s w → seen (walk_root ids succ s root) w.
Proof.
  intros Hinv Hr. unfold walk_root. destruct (index_of s root) as [i|] eqn:Hi.
  - split; [done|]. split; [by eexists|done].
  - assert (¬ seen s root) as Hns by (unfold seen; rewrite Hi; by intros []).
    destruct (discover_states [] s root Hinv Hr Hns) as (Hseen & _).
    pose proof (layers_nil_inv _ _ (inv_layers _ _ Hinv)) as Hst.
    assert (inv [(root, 0)] (discover root s)) as Hinv'.
    { eapply discover_inv; [done|done|done|done|]. rewrite Hst. constructor. }
    destruct (walk_frames_inv (rounds succ) _ _ Hinv') as [H1 H2].
    { etransitivity; [|apply (rounds_enough s)]. rewrite (cost_discover _ s root Hinv Hr Hns).
      unfold potential. simpl. lia. }
    split; [done|]. split; [|intros w Hw]; apply H2, Hseen; auto.
Qed.

Lemma unwalked_inv : inv [] (unwalked n).
Proof.
  assert (∀ v, index_of (unwalked n) v = None) as Hidx.
  { intros v. unfold index_of. simpl. destruct (replicate n None !! v) eqn:E; [|done].
    by apply lookup_replicate in E as [-> _]. }
  assert (∀ v, is_on_stack (unwalked n) v = false) as Hon.
  { intros v. unfold is_on_stack. simpl. destruct (replicate n false !! v) eqn:E; [|done].
    by apply lookup_replicate in E as [-> _]. }
  assert (∀ v, ¬ seen (unwalked n) v) as Hs by (intros v; unfold seen; rewrite Hidx; by intros []).
  split; try (simpl; by rewrite length_replicate).
  - constructor.
  - intros v. unfold on. rewrite Hon. set_solver.
  - set_solver.
  - intros v Hv. by apply Hs in Hv.
  - constructor.
  - set_solver.
  - intros u w [Hu _]. by apply Hs in Hu.
  - intros id. split; [set_solver|]. intros (v & _ & [Hv _] & _). by apply Hs in Hv.
Qed.

Lemma walk_roots_inv roots s :
  Forall (λ v, v < n) roots → inv [] s →
  inv [] (foldl (walk_root ids succ) s roots) ∧
  (∀ w, w ∈ roots ∨ seen s w → seen (foldl (walk_root ids succ) s roots) w).
Proof.
  revert s. induction roots as [|r roots IH]; intros s Hr Hinv; simpl; [set_solver|].
  apply Forall_cons in Hr as [Hrn Hr]. destruct (walk_root_inv s r Hinv Hrn) as (H1 & H2 & H3).
  destruct (IH _ Hr H1) as [H4 H5]. split; [done|]. intros w Hw. apply H5. set_solver.
Qed.

Lemma walk_all_cyclic id :
  id ∈ Tarjan.cyclic (walk_all ids succ) ↔ ∃ v, ids !! v = Some id ∧ tc leads v v.
Proof.
  assert (Forall (λ v, v < n) (seq 0 n)) as Hr by (apply Forall_forall; intros v; rewrite elem_of_seq; lia).
  destruct (walk_roots_inv _ _ Hr unwalked_inv) as [Hinv Hseen]. fold (walk_all ids succ) in *.
  pose proof (layers_nil_inv _ _ (inv_layers _ _ Hinv)) as Hst.
  rewrite (inv_cyclic _ _ Hinv). split; intros (v & Hv & H); exists v; split; [done|tauto|done|].
  split; [|done]. split.
  - apply Hseen. left. rewrite elem_of_seq. apply lookup_lt_Some in Hv. lia.
  - rewrite (inv_on _ _ Hinv), Hst. set_solver.
Qed.
End tarjan.
