(* ===== verification/GraphFacts.v ===== *)
(** * What the graph of a board says

    The cycles, descendants and lanes of [Graph] in terms of the relations of the board: [depends] leads from
    an active ticket to an active ticket it depends on, [contains] from a ticket to an active child. *)

From S2P Require Import Prelude Text OpModel Changes Tasks BoardViews Graph TarjanFacts.
From stdpp Require Import relations options.

Local Open Scope nat_scope.

(** ** Ordered sets *)
Lemma elem_of_sorted_set s x : x ∈ sorted_set s ↔ x ∈ s.
Proof. unfold sorted_set. by rewrite merge_sort_Permutation, elem_of_elements. Qed.

Lemma sorted_set_NoDup s : NoDup (sorted_set s).
Proof. unfold sorted_set. rewrite merge_sort_Permutation. apply NoDup_elements. Qed.

Lemma sorted_keys_NoDup {V} (m : gmap string V) : NoDup (sorted_keys m).
Proof. unfold sorted_keys. rewrite merge_sort_Permutation. apply NoDup_fst_map_to_list. Qed.

Lemma sorted_set_sorted s : Sorted String.le (sorted_set s).
Proof. apply Sorted_merge_sort. apply _. Qed.

Lemma sorted_keys_sorted {V} (m : gmap string V) : Sorted String.le (sorted_keys m).
Proof. apply Sorted_merge_sort. apply _. Qed.

(** A list in order without repetition is the ordered form of its elements. *)
Lemma sorted_set_unique l s :
  Sorted String.le l → NoDup l → (∀ x, x ∈ l ↔ x ∈ s) → l = sorted_set s.
Proof.
  intros Hs Hnd Hin. apply (Sorted_unique String.le); [done|apply sorted_set_sorted|].
  apply NoDup_Permutation; [done|apply sorted_set_NoDup|]. intros x. by rewrite Hin, elem_of_sorted_set.
Qed.

(** ** Boards *)
Definition depends (b : Board) (x y : string) : Prop := active b x = true ∧ y ∈ active_deps b x.
Definition contains (b : Board) (p c : string) : Prop :=
  c ∈ default ∅ (Board.children b !! p) ∧ active b c = true.

(** Tickets are kept under their ids. *)
Definition keyed_by_id (b : Board) : Prop := ∀ k t, Board.tickets b !! k = Some t → Ticket.id t = k.

Lemma active_spec b x : active b x = true ↔ is_Some (Board.tickets b !! x).
Proof. unfold active. destruct (_ !! x) eqn:E; naive_solver. Qed.

Lemma elem_of_active_deps b x y :
  y ∈ active_deps b x ↔ y ∈ default ∅ (Board.deps b !! x) ∧ active b y = true.
Proof. unfold active_deps, all_at. rewrite list_elem_of_filter, elem_of_sorted_set. tauto. Qed.

Lemma lookup_numbers ids t i : NoDup ids → numbers ids !! t = Some i ↔ ids !! i = Some t.
Proof.
  intros Hnd. unfold numbers. rewrite <-elem_of_list_to_map.
  - rewrite elem_of_lookup_imap. naive_solver.
  - replace ((imap (λ i id, (id, i)) ids).*1) with ids; [done|].
    apply list_eq. intros j. rewrite list_lookup_fmap, list_lookup_imap. by destruct (ids !! j).
Qed.

(** ** Cycles *)
Section cycles.
Local Unset Default Proof Using.
Context (b : Board).
Abbreviation ids := (sorted_keys (Board.tickets b)).

Lemma length_successor_table : length (successor_table b) = length ids.
Proof. unfold successor_table. by rewrite length_fmap. Qed.

Lemma elem_of_successors v w :
  w ∈ successors (successor_table b) v ↔ ∃ x y, ids !! v = Some x ∧ ids !! w = Some y ∧ depends b x y.
Proof.
  unfold successors, successor_table. rewrite list_lookup_fmap.
  destruct (ids !! v) as [x|] eqn:Ex; simpl; [|set_solver].
  rewrite list_elem_of_omap. split.
  - intros (y & Hy & Hw). exists x, y. rewrite lookup_numbers in Hw by apply sorted_keys_NoDup.
    split_and!; [done|done|]. split; [|done]. by apply active_spec, elem_of_sorted_keys, (list_elem_of_lookup_2 _ v).
  - intros (x' & y & [= <-] & Hw & [_ Hy]). exists y. split; [done|].
    by apply lookup_numbers; [apply sorted_keys_NoDup|].
Qed.

Lemma depends_numbered x y : depends b x y → ∃ v w, ids !! v = Some x ∧ ids !! w = Some y.
Proof.
  intros [Hx [_ Hy]%elem_of_active_deps].
  rewrite active_spec, <-elem_of_sorted_keys, list_elem_of_lookup in Hx.
  rewrite active_spec, <-elem_of_sorted_keys, list_elem_of_lookup in Hy. naive_solver.
Qed.

Lemma tc_numbered v w x y :
  ids !! v = Some x → ids !! w = Some y → tc (leads (successor_table b)) v w ↔ tc (depends b) x y.
Proof.
  intros Hv Hw. pose proof (sorted_keys_NoDup (Board.tickets b)) as Hnd. split.
  - intros H. revert x Hv. induction H as [v w H|v u w H _ IH]; intros x Hv.
    + apply elem_of_successors in H as (x' & y' & ? & ? & ?). simplify_eq. by apply tc_once.
    + apply elem_of_successors in H as (x' & z & ? & Hz & ?). simplify_eq. eapply tc_l; [done|]. by apply IH.
  - intros H. revert v Hv. induction H as [x y H|x z y H _ IH]; intros v Hv.
    + apply tc_once, elem_of_successors. eauto.
    + destruct (depends_numbered _ _ H) as (_ & u & _ & Hu). eapply tc_l; [|by apply (IH Hw u)].
      apply elem_of_successors. eauto.
Qed.

Lemma cyclic_spec x : x ∈ cyclic b ↔ tc (depends b) x x.
Proof.
  unfold cyclic. rewrite walk_all_cyclic.
  - split.
    + intros (v & Hv & H). by eapply tc_numbered.
    + intros H. assert (∃ y, depends b x y) as [y Hy] by (inversion H; eauto).
      destruct (depends_numbered _ _ Hy) as (v & _ & Hv & _). exists v. split; [done|]. by eapply tc_numbered.
  - apply sorted_keys_NoDup.
  - apply length_successor_table.
  - intros v w (_ & y & _ & Hw & _)%elem_of_successors. by eapply lookup_lt_Some.
Qed.

(** A ticket on a cycle is held by the next one on it. *)
Lemma cyclic_held x : x ∈ cyclic b → held b x = true.
Proof.
  intros H%cyclic_spec. assert (∃ y, depends b x y) as (y & _ & Hy) by (inversion H; eauto).
  unfold held. apply negb_true_iff, bool_decide_eq_false. intros E. rewrite E in Hy. set_solver.
Qed.
End cycles.

(** ** Descendants *)
Section descendants.
Local Unset Default Proof Using.
Context (b : Board).

(** The rounds a list of children adds are the tickets it adds. *)
Definition unmet (out : gset string) : nat := size (dom (Board.tickets b) ∖ out).

Lemma visit_children cs out stack out' stack' :
  foldl (visit_child b) (out, stack) cs = (out', stack') →
  (∀ c, c ∈ out' ↔ c ∈ out ∨ c ∈ cs ∧ active b c = true) ∧
  (∀ c, c ∈ stack' ↔ c ∈ stack ∨ c ∈ out' ∧ c ∉ out) ∧
  length stack' + unmet out' = length stack + unmet out.
Proof.
  revert out stack. induction cs as [|c cs IH]; intros out stack E; simpl in E.
  - injection E as <- <-. set_solver.
  - destruct (active b c && negb (bool_decide (c ∈ out))) eqn:Ec; destruct (IH _ _ E) as (H1 & H2 & H3).
    + apply andb_true_iff in Ec as [Ha Hc%negb_true_iff%bool_decide_eq_false].
      split_and!.
      * intros d. rewrite H1, elem_of_union, elem_of_singleton, elem_of_cons. clear -Ha. split; [|tauto].
        intros [[->|?]|[? ?]]; tauto.
      * intros d. rewrite H2, elem_of_cons, not_elem_of_union, not_elem_of_singleton.
        assert (c ∈ out') by (apply H1; left; apply elem_of_union_l, elem_of_singleton; done).
        clear H1 H2 H3 E IH. destruct (decide (d = c)); [subst|]; tauto.
      * rewrite H3. simpl. unfold unmet. apply active_spec in Ha.
        assert (dom (Board.tickets b) ∖ out = {[c]} ∪ dom (Board.tickets b) ∖ ({[c]} ∪ out)) as ->.
        { apply set_eq. intros d. assert (c ∈ dom (Board.tickets b)) by by apply elem_of_dom.
          destruct (decide (d = c)); set_solver. }
        rewrite (size_union (C:=gset string) {[c]}) by set_solver. rewrite (size_singleton (C:=gset string)). lia.
    + split_and!; [|done|done]. intros d. rewrite H1, elem_of_cons.
      apply andb_false_iff in Ec as [Ec|Ec%negb_false_iff%bool_decide_eq_true]; clear -Ec.
      * split; [tauto|]. intros [?|[[->|?] Ha]]; [by left|congruence|by right].
      * split; [tauto|]. intros [?|[[->|?] Ha]]; [by left|by left|by right].
Qed.

Lemma descend_spec roots fuel out stack :
  length stack + unmet out <= fuel →
  (∀ c, c ∈ out → ∃ r, r ∈ roots ∧ tc (contains b) r c) →
  (∀ p, p ∈ stack → p ∈ roots ∪ out) →
  (∀ p c, p ∈ roots ∪ out → p ∉ stack → contains b p c → c ∈ out) →
  ∀ c, c ∈ descend b fuel out stack ↔ ∃ r, r ∈ roots ∧ tc (contains b) r c.
Proof.
  revert out stack. induction fuel as [|fuel IH]; intros out stack Hf Hout Hst Hcl.
  all: destruct stack as [|p stack].
  all: try (intros c; simpl; split; [apply Hout|]; intros (r & Hr & H);
    assert (∀ x y, x ∈ roots ∪ out → tc (contains b) x y → y ∈ out) as Hreach;
    [intros x y Hx Hxy; induction Hxy as [x y Hxy|x y z Hxy _ IHt];
      [eapply Hcl; [done|set_solver|done]|apply IHt, elem_of_union; right; eapply Hcl; [done|set_solver|done]]
    |apply (Hreach r c); [set_solver|done]]).
  - simpl in Hf. lia.
  - simpl. destruct (foldl (visit_child b) (out, stack) (all_at p (Board.children b))) as [out' stack'] eqn:E.
    destruct (visit_children _ _ _ _ _ E) as (H1 & H2 & H3).
    assert (∀ c, c ∈ all_at p (Board.children b) ∧ active b c = true ↔ contains b p c) as Hch.
    { intros c. unfold all_at, contains. by rewrite elem_of_sorted_set. }
    apply IH.
    + simpl in Hf. lia.
    + intros c [Hc|Hc%Hch]%H1; [by apply Hout|].
      assert (p ∈ roots ∪ out) as [Hp|Hp]%elem_of_union by (apply Hst; by left).
      * exists p. split; [done|]. by apply tc_once.
      * destruct (Hout p Hp) as (r & Hr & Hrp). exists r. split; [done|]. by eapply tc_r.
    + intros q [Hq|[Hq _]]%H2; [|by apply elem_of_union_r]. assert (q ∈ roots ∪ out) as Hro by (apply Hst; by right).
      rewrite elem_of_union in Hro |- *. specialize (H1 q). tauto.
    + intros q c Hq Hqs Hqc. apply H1. destruct (decide (q = p)) as [->|Hne]; [right; by apply Hch|].
      left. eapply Hcl; [| |done].
      * rewrite elem_of_union in Hq |- *. specialize (H2 q). destruct (decide (q ∈ out)); tauto.
      * rewrite elem_of_cons. specialize (H2 q). tauto.
Qed.

Lemma descendants_spec roots c : c ∈ descendants b roots ↔ ∃ r, r ∈ roots ∧ tc (contains b) r c.
Proof.
  assert (∀ p, p ∈ reverse (sorted_set roots) ↔ p ∈ roots) as Hroots
    by (intros p; by rewrite elem_of_reverse, elem_of_sorted_set).
  unfold descendants. apply descend_spec.
  - rewrite length_reverse. unfold sorted_set. rewrite merge_sort_Permutation. unfold unmet.
    rewrite difference_empty_L, size_dom. done.
  - set_solver.
  - intros p. rewrite Hroots. set_solver.
  - intros p q. rewrite Hroots. set_solver.
Qed.
End descendants.

(** C13: the iterative walk finds the tickets on a cycle of dependencies among active tickets, every one of
    them and no other, and ends by itself within its rounds. *)
Theorem cycles_are_found (b : Board) (x : string) : x ∈ cyclic b ↔ tc (depends b) x x.
Proof. apply cyclic_spec. Qed.

(** ** What the lanes of a board mean

    The lanes of [Graph] against their meaning: who depends on whom, who contains whom, and the instant.
    Cycles do not appear: a ticket on a cycle depends on an active ticket, the next one on it. *)
Section meaning.
Local Unset Default Proof Using.
Context (b : Board).

Definition opened (x : string) : Prop := ∃ t, Board.tickets b !! x = Some t ∧ Ticket.in_progress t = false.
Definition claimed (x : string) : Prop := ∃ t, Board.tickets b !! x = Some t ∧ Ticket.in_progress t = true.
(** Depends on an active ticket. *)
Definition waits (x : string) : Prop := ∃ y, y ∈ default ∅ (Board.deps b !! x) ∧ is_Some (Board.tickets b !! y).
Definition put_off (now x : string) : Prop :=
  ∃ t d, Board.tickets b !! x = Some t ∧ Ticket.defer_until t = Some d ∧ ¬ String.le d now.
Definition is_blocked (x : string) : Prop := opened x ∧ waits x.
Definition is_deferred (now x : string) : Prop := opened x ∧ ¬ waits x ∧ put_off now x.
(** Somewhere below one of the tickets of a set, through active tickets. *)
Definition below (gate : string → Prop) (x : string) : Prop := ∃ r, gate r ∧ tc (contains b) r x.
(** Has parents, none of them active. *)
Definition orphaned (x : string) : Prop :=
  (∃ p, p ∈ default ∅ (Board.parents b !! x)) ∧
  ∀ p, p ∈ default ∅ (Board.parents b !! x) → Board.tickets b !! p = None.
Definition can_act (now x : string) : Prop :=
  ¬ waits x ∧ ¬ put_off now x ∧ ¬ below is_blocked x ∧ ¬ below (is_deferred now) x ∧ (opened x → ¬ orphaned x).
End meaning.

Section facts.
Local Unset Default Proof Using.
Context (b : Board) (Hkeyed : keyed_by_id b).

Lemma elem_of_tickets t : t ∈ tickets_of b ↔ Board.tickets b !! Ticket.id t = Some t.
Proof.
  unfold tickets_of. rewrite list_elem_of_omap. split.
  - intros (x & _ & Ht). by rewrite (Hkeyed _ _ Ht).
  - intros Ht. exists (Ticket.id t). split; [|done]. apply elem_of_sorted_keys. eauto.
Qed.

Lemma elem_of_ticket_ids (f : Ticket → bool) x :
  x ∈ Ticket.id <$> base.filter (λ t, f t = true) (tickets_of b) ↔
  ∃ t, Board.tickets b !! x = Some t ∧ f t = true.
Proof.
  rewrite list_elem_of_fmap. setoid_rewrite list_elem_of_filter. setoid_rewrite elem_of_tickets. split.
  - intros (t & -> & Hf & Ht). eauto.
  - intros (t & Ht & Hf). exists t. pose proof (Hkeyed _ _ Ht) as <-. done.
Qed.

Lemma held_waits x : held b x = true ↔ waits b x.
Proof.
  unfold held, waits. rewrite negb_true_iff, bool_decide_eq_false. setoid_rewrite <-active_spec.
  setoid_rewrite <-elem_of_active_deps. split.
  - destruct (active_deps b x) as [|y l]; [done|]. intros _. exists y. by left.
  - intros (y & Hy) E. rewrite E in Hy. set_solver.
Qed.

(** The test for cycles adds nothing to the test for dependencies. *)
Lemma stands_still_waits t : stands_still b (cyclic b) t = true ↔ Ticket.in_progress t = false ∧ waits b (Ticket.id t).
Proof.
  unfold stands_still, is_open. rewrite andb_true_iff, negb_true_iff, orb_true_iff, bool_decide_eq_true.
  rewrite held_waits. split; [|tauto]. intros [? [Hc%cyclic_held|?]]; [|done]. by rewrite held_waits in Hc.
Qed.

Lemma deferred_at_spec now x t : Board.tickets b !! x = Some t → deferred_at now t = true ↔ put_off b now x.
Proof.
  intros Ht. unfold deferred_at, put_off. split.
  - destruct (Ticket.defer_until t) as [d|] eqn:E; [|done]. intros H%negb_true_iff.
    exists t, d. split_and!; [done|done|]. intros Hle. unfold String.le in Hle. by rewrite H in Hle.
  - intros (t' & d & ? & Hd & Hle). simplify_eq. rewrite Hd. apply negb_true_iff. unfold String.le in Hle.
    by destruct (String.leb d now).
Qed.

Abbreviation blocked_ids :=
  (list_to_set (Ticket.id <$> base.filter (λ t, stands_still b (cyclic b) t = true) (tickets_of b)) : gset string).
Abbreviation deferred_ids now :=
  (list_to_set (Ticket.id <$> base.filter (λ t, (is_open t &&
    (negb (bool_decide (Ticket.id t ∈ blocked_ids)) && deferred_at now t)) = true) (tickets_of b)) : gset string).

Lemma elem_of_blocked x : x ∈ blocked_ids ↔ is_blocked b x.
Proof.
  rewrite elem_of_list_to_set, elem_of_ticket_ids. unfold is_blocked, opened. setoid_rewrite stands_still_waits. split.
  - intros (t & Ht & Hp & Hw). rewrite (Hkeyed _ _ Ht) in Hw. eauto.
  - intros [(t & Ht & Hp) Hw]. exists t. rewrite (Hkeyed _ _ Ht). eauto.
Qed.

Lemma elem_of_deferred now x : x ∈ deferred_ids now ↔ is_deferred b now x.
Proof.
  rewrite elem_of_list_to_set, elem_of_ticket_ids. unfold is_deferred. split.
  - intros (t & Ht & H). unfold is_open in H.
    rewrite !andb_true_iff, !negb_true_iff, bool_decide_eq_false, elem_of_blocked, (Hkeyed _ _ Ht) in H.
    destruct H as (Ho & Hb & Hd). apply (deferred_at_spec now x t Ht) in Hd. split_and!; [by exists t| |done].
    intros Hw. apply Hb. split; [by exists t|done].
  - intros ((t & Ht & Ho) & Hw & Hd). exists t. split; [done|]. unfold is_open.
    rewrite !andb_true_iff, !negb_true_iff, bool_decide_eq_false, elem_of_blocked, (Hkeyed _ _ Ht).
    rewrite (deferred_at_spec now x t Ht). split_and!; [done| |done]. by intros [_ ?].
Qed.

Lemma elem_of_below (gate : gset string) (P : string → Prop) x :
  (∀ r, r ∈ gate ↔ P r) → x ∈ descendants b gate ↔ below b P x.
Proof. intros H. rewrite descendants_spec. unfold below. by setoid_rewrite H. Qed.

Lemma rests_spec x t : Board.tickets b !! x = Some t → rests b t = true ↔ opened b x ∧ orphaned b x.
Proof.
  intros Ht. unfold rests, is_open. rewrite (Hkeyed _ _ Ht), andb_true_iff, negb_true_iff.
  assert (opened b x ↔ Ticket.in_progress t = false) as -> by (unfold opened; naive_solver).
  unfold orphaned. destruct (Board.parents b !! x) as [ps|]; cbn [default from_option]; unfold id.
  - rewrite andb_true_iff, negb_true_iff, bool_decide_eq_false, forallb_forall. setoid_rewrite <-list_elem_of_In.
    setoid_rewrite elem_of_sorted_set. setoid_rewrite negb_true_iff.
    assert (ps ≠ ∅ ↔ ∃ p, p ∈ ps) as -> by (split; [apply set_choose_L|set_solver]).
    assert (∀ p, active b p = false ↔ Board.tickets b !! p = None) as Ha
      by (intros p; unfold active; by destruct (_ !! p)).
    by setoid_rewrite Ha.
  - set_solver.
Qed.

Definition acts (now : string) (t : Ticket) : bool :=
  negb (bool_decide (Ticket.id t ∈ cyclic b)) && negb (held b (Ticket.id t)) && negb (deferred_at now t) &&
  negb (bool_decide (Ticket.id t ∈ descendants b blocked_ids)) &&
  negb (bool_decide (Ticket.id t ∈ descendants b (deferred_ids now))) && negb (rests b t).

Lemma acts_spec now x t : Board.tickets b !! x = Some t → acts now t = true ↔ can_act b now x.
Proof.
  intros Ht. unfold acts, can_act. rewrite !andb_true_iff, !negb_true_iff, !bool_decide_eq_false.
  rewrite <-!not_true_iff_false, (rests_spec x t Ht), (deferred_at_spec now x t Ht), (Hkeyed _ _ Ht), held_waits.
  rewrite (elem_of_below _ _ x elem_of_blocked), (elem_of_below _ _ x (elem_of_deferred now)).
  pose proof (cyclic_held b x) as Hc. rewrite held_waits in Hc. tauto.
Qed.

Lemma elem_of_candidates (m : gmap string Ticket) now (c : bool) x :
  x ∈ Candidate.id <$> base.filter (λ k, Candidate.in_progress k = c)
        (candidate_of b m <$> base.filter (λ t, acts now t = true) (tickets_of b)) ↔
  (∃ t, Board.tickets b !! x = Some t ∧ Ticket.in_progress t = c) ∧ can_act b now x.
Proof.
  rewrite list_elem_of_fmap. setoid_rewrite list_elem_of_filter. setoid_rewrite list_elem_of_fmap. split.
  - intros (k & -> & Hk & t & -> & Ht). apply list_elem_of_filter in Ht as [Ha Ht%elem_of_tickets].
    split; [by exists t|]. by eapply acts_spec.
  - intros ((t & Ht & Hc) & Ha). exists (candidate_of b m t). pose proof (Hkeyed _ _ Ht) as Hid.
    split; [by rewrite <-Hid|]. split; [done|]. exists t. split; [done|]. apply list_elem_of_filter.
    split; [by eapply acts_spec|]. apply elem_of_tickets. by rewrite Hid.
Qed.
End facts.

Lemma new_board_keyed tickets edges : keyed_by_id (new_board tickets edges).
Proof.
  unfold new_board. intros k t.
  assert (∀ b, Board.tickets (foldl add_edge b edges) = Board.tickets b) as ->.
  { induction edges as [|e edges IH]; intros b; simpl; [done|]. rewrite IH. destruct b. unfold add_edge.
    by destruct (Edge.kind e). }
  simpl. assert (∀ m : gmap string Ticket, (∀ k t, m !! k = Some t → Ticket.id t = k) →
    ∀ k t, foldl (λ m t, <[Ticket.id t := t]> m) m tickets !! k = Some t → Ticket.id t = k) as H; [|by apply H].
  induction tickets as [|t0 ts IH]; intros m Hm k' t'; simpl; [apply Hm|]. apply IH.
  intros k1 t1 [[<- <-]|[_ ?]]%lookup_insert_Some; auto.
Qed.

(** C12: the lanes of every board mean what they say. Blocked is open and depending on an active ticket;
    deferred is open, free of those and put off past the instant; a ticket can be acted on when it depends on
    nothing active, is not put off, has no blocked or deferred ticket above it, and, if open, is not left
    behind by all its parents; ready and claimed are the open and the claimed of these. Suppressed by a blocked
    ticket is everything active below one, suppressed by a deferred one everything below those but not below a
    blocked one. *)
Theorem lanes_mean (tickets : list Ticket) (edges : list Edge) (now x : string) :
  let b := new_board tickets edges in
  let l := lanes b now in
  (x ∈ Lanes.ready l ↔ opened b x ∧ can_act b now x) ∧
  (x ∈ Lanes.in_progress l ↔ claimed b x ∧ can_act b now x) ∧
  (x ∈ Lanes.deferred l ↔ is_deferred b now x) ∧
  (x ∈ Lanes.blocked l ↔ is_blocked b x) ∧
  (x ∈ Lanes.suppressed_by_blocked l ↔ below b (is_blocked b) x) ∧
  (x ∈ Lanes.suppressed_by_deferred_only l ↔ below b (is_deferred b now) x ∧ ¬ below b (is_blocked b) x).
Proof.
  cbv zeta. set (b := new_board tickets edges).
  assert (keyed_by_id b) as Hk by apply new_board_keyed. unfold lanes.
  cbn [Lanes.ready Lanes.in_progress Lanes.deferred Lanes.blocked Lanes.suppressed_by_blocked
       Lanes.suppressed_by_deferred_only]. fold (acts b now).
  rewrite !elem_of_sorted_set, elem_of_difference.
  rewrite (elem_of_deferred b Hk now x), (elem_of_blocked b Hk x).
  rewrite (elem_of_below b _ _ x (elem_of_blocked b Hk)), (elem_of_below b _ _ x (elem_of_deferred b Hk now)).
  split_and!; [|by apply (elem_of_candidates b Hk)..|done|done|done|done].
  by apply (elem_of_candidates b Hk).
Qed.

(** A board of seven tickets: [b] and [c] hold each other, [d] is put off, [e] is claimed and contains [f],
    [g] lies under [b]. *)
Definition sample_board : Board :=
  new_board
    [Ticket.Mk "a" false None; Ticket.Mk "b" false None; Ticket.Mk "c" true None; Ticket.Mk "d" false (Some "2027");
     Ticket.Mk "e" true None; Ticket.Mk "f" false None; Ticket.Mk "g" false None]
    [Edge.Mk "b" "c" EdgeKind.Dep; Edge.Mk "c" "b" EdgeKind.Dep; Edge.Mk "a" "z" EdgeKind.Dep;
     Edge.Mk "f" "e" EdgeKind.Parent; Edge.Mk "g" "b" EdgeKind.Parent].

Example sample_lanes : lanes sample_board "2026" =
  Lanes.Mk ["a"; "f"] ["e"] ["d"] ["b"] ["g"] []
    [Candidate.Mk "a" false true None; Candidate.Mk "e" true false None; Candidate.Mk "f" false true (Some "e")].
Proof. vm_compute. reflexivity. Qed.
