(* ===== verification/Derive.v ===== *)
(** * Derivations over the views

    [core/src/derive.rs] and [invariant.rs]: the lanes of a board, the signals [next] orders by and the
    violations, as SQL over the views. A common table expression is a set; a recursive one is iterated as
    often as it can still find a row. [walk] keeps the rows of one depth without their repetitions: the
    queries only ask which of them there are. *)

From S2P Require Import Prelude Text OpModel Changes Tasks BoardViews Graph.
From stdpp Require Import options.

Local Open Scope nat_scope.

Abbreviation Pairs := (gset (string * string)) (only parsing).
Abbreviation EdgeRows := (gset (string * string * string)) (only parsing).

(** ** Cycles *)

(** The ends of the edges of a kind. *)
Definition ends (kind : string) (edges : EdgeRows) : Pairs :=
  list_to_set (omap (λ '(from, to, k), if bool_decide (k = kind) then Some (from, to) else None) (elements edges)).

(** [SELECT w.start, e.t FROM walk w JOIN edges e ON e.f = w.node]. *)
Definition join_edges (edges walked : Pairs) : Pairs :=
  list_to_set (flat_map (λ '(start, node), omap (λ '(f, t), if bool_decide (f = node) then Some (start, t) else None)
    (elements edges)) (elements walked)).

(** The rows of depth [depth + 1]. *)
Fixpoint walk_level (edges : Pairs) (depth : nat) : Pairs :=
  match depth with
  | O => edges
  | S depth => join_edges edges (walk_level edges depth)
  end.

(** A row of depth [d] has successors while [d <= count(edges)]. *)
Definition walk (edges : Pairs) : Pairs := ⋃ (walk_level edges <$> seq 0 (S (size edges))).

Definition on_cycle (edges : Pairs) : gset string :=
  list_to_set (omap (λ '(start, node), if bool_decide (node = start) then Some start else None) (elements (walk edges))).

(** The walk of the lanes keeps to active tickets; the one of the write seam does not. *)
Definition active_dep_edges (views : Views) : Pairs :=
  base.filter (λ e, e.1 ∈ active_ids views ∧ e.2 ∈ active_ids views) (ends "dep" (present_edges views)).

Definition cyclic_ids (views : Views) : gset string := on_cycle (active_dep_edges views).

Definition cyclic_nodes (views : Views) : list string :=
  merge_sort String.le (elements (on_cycle (ends "dep" (present_edges views)))).

(** ** Gating *)

(** [EXISTS (SELECT 1 FROM present_edges d WHERE d.from_id=i.id AND d.kind='dep' AND d.to_id IN active)]. *)
Definition has_active_dep (views : Views) (id : string) : bool :=
  existsb (λ '(from, to), bool_decide (from = id) && bool_decide (to ∈ active_ids views))
    (elements (ends "dep" (present_edges views))).

Definition ids_where (views : Views) (holds : Row → bool) : gset string :=
  list_to_set (row_id <$> base.filter (λ row, holds row = true) (rows_of views "items")).

Definition blocked_row (views : Views) (row : Row) : bool :=
  row_live row && has_status "open" row &&
  (bool_decide (row_id row ∈ cyclic_ids views) || has_active_dep views (row_id row)).

Definition blocked_gating (views : Views) : gset string := ids_where views (blocked_row views).

(** [defer_until > ?1]. *)
Definition deferred_beyond (now : string) (row : Row) : bool :=
  match text_at row "defer_until" with Some d => negb (String.leb d now) | None => false end.

Definition deferred_row (views : Views) (now : string) (row : Row) : bool :=
  row_live row && has_status "open" row && deferred_beyond now row &&
  negb (bool_decide (row_id row ∈ cyclic_ids views)) && negb (has_active_dep views (row_id row)).

Definition deferred_gating (views : Views) (now : string) : gset string :=
  ids_where views (deferred_row views now).

(** The active children of a set of parents. *)
Definition children_of (views : Views) (parents : gset string) : gset string :=
  list_to_set (omap (λ '(from, to),
    if bool_decide (from ∈ active_ids views) && bool_decide (to ∈ parents) then Some from else None)
    (elements (ends "parent" (present_edges views)))).

(** [UNION] of the children of a gate and of the rows found so far. *)
Definition all_under (views : Views) (gate : gset string) : gset string :=
  Nat.iter (size (ends "parent" (present_edges views)))
    (λ found, found ∪ children_of views found) (children_of views gate).

Definition suppressed (views : Views) (now : string) : gset string :=
  all_under views (blocked_gating views ∪ deferred_gating views now).

(** ** Lanes *)
Definition has_parent (views : Views) (id : string) : bool :=
  existsb (λ '(from, _), bool_decide (from = id)) (elements (ends "parent" (present_edges views))).
Definition has_active_parent (views : Views) (id : string) : bool :=
  existsb (λ '(from, to), bool_decide (from = id) && bool_decide (to ∈ active_ids views))
    (elements (ends "parent" (present_edges views))).

(** [status<>'open' OR NOT (has a parent AND has no active parent)]. *)
Definition unmasked (views : Views) (row : Row) : bool :=
  match text_at row "status" with Some s => negb (bool_decide (s = "open")) | None => false end ||
  negb (has_parent views (row_id row) && negb (has_active_parent views (row_id row))).

Definition actionable_row (views : Views) (now : string) (row : Row) : bool :=
  row_live row && negb (bool_decide (row_id row ∈ cyclic_ids views)) &&
  negb (bool_decide (row_id row ∈ suppressed views now)) && negb (deferred_beyond now row) &&
  unmasked views row && negb (has_active_dep views (row_id row)).

(** [SELECT .. ORDER BY id]. *)
Definition in_order (ids : gset string) : list string := merge_sort String.le (elements ids).

Definition actionable (views : Views) (now status : string) : list string :=
  in_order (ids_where views (λ row, actionable_row views now row && has_status status row)).

Definition ready (views : Views) (now : string) : list string := actionable views now "open".
Definition in_progress (views : Views) (now : string) : list string := actionable views now "in_progress".

Definition deferred (views : Views) (now : string) : list string := in_order (deferred_gating views now).
Definition blocked (views : Views) : list string := in_order (blocked_gating views).

Definition suppressed_by_blocked (views : Views) : list string :=
  in_order (ids_where views (λ row,
    bool_decide (row_id row ∈ all_under views (blocked_gating views)) && row_active row)).

Definition suppressed_by_deferred_only (views : Views) (now : string) : list string :=
  in_order (ids_where views (λ row,
    bool_decide (row_id row ∈ all_under views (deferred_gating views now)) &&
    negb (bool_decide (row_id row ∈ all_under views (blocked_gating views))) && row_active row)).

(** ** What [next] orders by *)
Module NextCandidate.
Record NextCandidate := Mk {
  id : string;
  status : string;
  finishable : bool;
  promoter : option string;
}.
End NextCandidate.
Abbreviation NextCandidate := NextCandidate.NextCandidate (only parsing).

Definition has_active_child (views : Views) (id : string) : bool :=
  existsb (λ '(from, to), bool_decide (to = id) && bool_decide (from ∈ active_ids views))
    (elements (ends "parent" (present_edges views))).

(** [SELECT MIN(e.to_id) ..]. *)
Definition least_claimed_parent (views : Views) (now id : string) : option string :=
  head (in_order (list_to_set (omap (λ '(from, to),
    if bool_decide (from = id) &&
       bool_decide (to ∈ ids_where views (λ row, actionable_row views now row && has_status "in_progress" row))
    then Some to else None) (elements (ends "parent" (present_edges views)))))).

Definition next_candidate (views : Views) (now id status : string) : NextCandidate :=
  NextCandidate.Mk id status (negb (has_active_child views id))
    (if bool_decide (status = "open") then least_claimed_parent views now id else None).

(** The rows of [actionable_items] with a status of the two, by id. *)
Definition next_candidates (views : Views) (now : string) : list NextCandidate :=
  omap (λ id,
    row ← (default ∅ (views !! "items") : Table) !! [Cell.Text id];
    status ← text_at row "status";
    if (actionable_row views now row && (bool_decide (status = "open") || bool_decide (status = "in_progress")))
    then Some (next_candidate views now id status) else None)
    (in_order (ids_where views (λ _, true))).

Definition finishable_in_progress (views : Views) (now : string) : list string :=
  NextCandidate.id <$> base.filter (λ c,
    NextCandidate.status c = "in_progress" ∧ NextCandidate.finishable c = true) (next_candidates views now).

Definition promoted_children (views : Views) (now : string) : list (string * string) :=
  omap (λ c, pair (NextCandidate.id c) <$> NextCandidate.promoter c) (next_candidates views now).

Definition dependents_count (views : Views) (id : string) : nat :=
  length (base.filter (λ e, e.2 = id ∧ e.1 ∈ active_ids views) (elements (ends "dep" (present_edges views)))).

(** ** Violations *)
Module Violation.
Record Violation := Mk { item_id : string; kind : string }.
End Violation.
Abbreviation Violation := Violation.Violation (only parsing).

Definition is_item (views : Views) (id : string) : bool :=
  existsb (λ row, same_text (text_at row "id") (Some id) && row_undeleted row) (rows_of views "items").

Definition dangling_edge_violations (views : Views) : list Violation :=
  let points : gset string := list_to_set (flat_map
    (λ '(from, to, kind), if bool_decide (kind = "parent") then [] else [from; to])
    (elements (present_edges views))) in
  (λ id, Violation.Mk id "edge_dangling") <$> base.filter (λ id, is_item views id = false) (in_order points).

(** The violation of an item for its present parent, from the row of that parent. *)
Definition parent_violation (views : Views) (id parent : string) : list Violation :=
  match find_first (λ row, same_text (text_at row "id") (Some parent)) (rows_of views "items") with
  | None => [Violation.Mk id "belongs_to_missing"]
  | Some row => if row_undeleted row then [] else [Violation.Mk id "belongs_to_deleted"]
  end.

Definition reference_violations (views : Views) : list Violation :=
  flat_map (λ id,
    flat_map (λ '(child, parent), if bool_decide (child = id) then parent_violation views id parent else [])
      (present_parent views)) (in_order (ids_where views row_undeleted)) ++
  dangling_edge_violations views.

(** ** From the graph to [next]

    [facade/src/read.rs]: how the [next] lane reads the candidates of the graph. *)
(** The conversion in [next_lane]. *)
Definition as_next_candidate (c : Candidate) : NextCandidate :=
  NextCandidate.Mk (Candidate.id c) (if Candidate.in_progress c then "in_progress" else "open")
    (Candidate.finishable c) (Candidate.promoter c).
