(* ===== verification/DeriveFacts.v ===== *)
(** * What the derivations say

    The bounded walk of [Derive] finds every cycle: a shortest cycle passes each edge once. The iterated union
    reaches every descendant: each round that finds something finds one more. *)

From S2P Require Import Prelude Text OpModel Changes Tasks BoardViews Derive.
From stdpp Require Import relations options.

Local Open Scope nat_scope.

Definition edge (edges : Pairs) (x y : string) : Prop := (x, y) ∈ edges.

(** ** The walk *)
Lemma elem_of_join_edges edges walked x z :
  (x, z) ∈ join_edges edges walked ↔ ∃ y, (x, y) ∈ walked ∧ edge edges y z.
Proof.
  unfold join_edges, edge. rewrite elem_of_list_to_set, list_elem_of_In, in_flat_map. split.
  - intros ([x' y] & Hy%list_elem_of_In%elem_of_elements & Hz%list_elem_of_In).
    apply list_elem_of_omap in Hz as ([f t] & He%elem_of_elements & Hb). case_bool_decide; simplify_eq. eauto.
  - intros (y & Hy & He). exists (x, y). split; [by apply list_elem_of_In, elem_of_elements|].
    apply list_elem_of_In, list_elem_of_omap. exists (y, z). split; [by apply elem_of_elements|].
    by rewrite bool_decide_true.
Qed.

Lemma elem_of_walk_level edges d x y : (x, y) ∈ walk_level edges d ↔ nsteps (edge edges) (S d) x y.
Proof.
  revert y. induction d as [|d IH]; intros y; simpl.
  - split; [intros H; by apply nsteps_once|]. intros H. by apply nsteps_once_inv in H.
  - rewrite elem_of_join_edges. split.
    + intros (z & Hz%IH & He). by eapply nsteps_r.
    + intros (z & Hz & He)%nsteps_inv_r. exists z. split; [by apply IH|done].
Qed.

(** A path as the list of its edges. *)
Fixpoint path (x : string) (es : list (string * string)) (y : string) : Prop :=
  match es with
  | [] => x = y
  | (a, b) :: es => x = a ∧ path b es y
  end.

Lemma path_app x es1 es2 z : path x (es1 ++ es2) z ↔ ∃ y, path x es1 y ∧ path y es2 z.
Proof.
  revert x. induction es1 as [|[a b] es1 IH]; intros x; simpl.
  - naive_solver.
  - rewrite IH. naive_solver.
Qed.

Lemma nsteps_path edges d x y :
  nsteps (edge edges) d x y ↔ ∃ es, length es = d ∧ path x es y ∧ Forall (.∈ edges) es.
Proof.
  revert x. induction d as [|d IH]; intros x.
  - split.
    + inversion 1; subst. by exists [].
    + intros ([|??] & ? & H & _); [|done]. simpl in H. subst. constructor.
  - split.
    + inversion 1 as [|? ? z ? He Hs]; subst. apply IH in Hs as (es & <- & Hp & Hf).
      exists ((x, z) :: es). by repeat constructor.
    + intros ([|[a b] es] & Hl & Hp & Hf); [done|]. destruct Hp as [<- Hp]. apply Forall_cons in Hf as [He Hf].
      eapply nsteps_l; [done|]. apply IH. exists es. split; [by injection Hl|done].
Qed.

(** An edge passed twice can be passed once. *)
Lemma short_cycle edges x :
  tc (edge edges) x x → ∃ d, d < size edges ∧ nsteps (edge edges) (S d) x x.
Proof.
  intros (d & Hd & Hs)%tc_nsteps. destruct d as [|d]; [lia|]. clear Hd.
  induction (lt_wf d) as [d _ IH]. destruct (decide (d < size edges)) as [?|Hge]; [by exists d|].
  apply nsteps_path in Hs as (es & Hl & Hp & Hf).
  destruct (decide (NoDup es)) as [Hnd|Hdup].
  - exfalso. assert (length es <= size edges); [|lia].
    rewrite <-(size_list_to_set (C:=gset (string * string)) es) by done.
    apply subseteq_size. intros e He%elem_of_list_to_set. by eapply Forall_forall in Hf.
  - assert (∃ e l1 l2 l3, es = l1 ++ e :: l2 ++ e :: l3) as ([a b] & l1 & l2 & l3 & ->).
    { clear -Hdup. induction es as [|e es IHes]; [destruct Hdup; constructor|].
      destruct (decide (e ∈ es)) as [(l2 & l3 & ->)%list_elem_of_split|Hn]; [by exists e, [], l2, l3|].
      destruct IHes as (e' & l1 & l2 & l3 & ->); [intros ?; apply Hdup; by constructor|].
      by exists e', (e :: l1), l2, l3. }
    apply path_app in Hp as (y & Hp1 & -> & Hp2). apply path_app in Hp2 as (z & _ & -> & Hp3).
    apply (IH (length l1 + length l3)).
    + rewrite !length_app in Hl. simpl in Hl. rewrite length_app in Hl. simpl in Hl. lia.
    + apply nsteps_path. exists (l1 ++ (a, b) :: l3). split_and!.
      * rewrite length_app. simpl. lia.
      * apply path_app. exists a. by repeat split.
      * rewrite !Forall_app, !Forall_cons, !Forall_app, !Forall_cons in Hf. rewrite Forall_app, Forall_cons. tauto.
Qed.

Lemma elem_of_on_cycle edges x : x ∈ on_cycle edges ↔ tc (edge edges) x x.
Proof.
  unfold on_cycle. rewrite elem_of_list_to_set, list_elem_of_omap. split.
  - intros ([s y] & Hw%elem_of_elements & Hb). case_bool_decide; simplify_eq.
    unfold walk in Hw. apply elem_of_union_list in Hw as (X & HX & Hx).
    apply list_elem_of_fmap in HX as (d & -> & _). apply elem_of_walk_level in Hx.
    apply tc_nsteps. exists (S d). split; [lia|done].
  - intros (d & Hd & Hs)%short_cycle. exists (x, x). split; [|by rewrite bool_decide_true].
    apply elem_of_elements, elem_of_union_list. exists (walk_level edges d). split.
    + apply list_elem_of_fmap. exists d. split; [done|]. apply elem_of_seq. lia.
    + by apply elem_of_walk_level.
Qed.

(** ** Edges of a kind *)
Lemma elem_of_ends kind edges x y : (x, y) ∈ ends kind edges ↔ (x, y, kind) ∈ edges.
Proof.
  unfold ends. rewrite elem_of_list_to_set, list_elem_of_omap. split.
  - intros ([[f t] k] & He%elem_of_elements & Hb). case_bool_decide; by simplify_eq.
  - intros He. exists (x, y, kind). split; [by apply elem_of_elements|]. by rewrite bool_decide_true.
Qed.

Lemma existsb_elements (f : string * string → bool) (s : Pairs) :
  existsb f (elements s) = true ↔ ∃ e, e ∈ s ∧ f e = true.
Proof.
  rewrite existsb_exists. setoid_rewrite <-list_elem_of_In. by setoid_rewrite elem_of_elements.
Qed.

(** ** Descendants *)
Section under.
Local Unset Default Proof Using.
Context (views : Views).
Abbreviation parent_ends := (ends "parent" (present_edges views)).

Definition child (p c : string) : Prop := (c, p) ∈ parent_ends ∧ c ∈ active_ids views.

Lemma elem_of_children_of parents c : c ∈ children_of views parents ↔ ∃ p, p ∈ parents ∧ child p c.
Proof.
  unfold children_of, child. rewrite elem_of_list_to_set, list_elem_of_omap. split.
  - intros ([f t] & He%elem_of_elements & Hb). destruct (_ && _) eqn:E; simplify_eq.
    apply andb_true_iff in E as [?%bool_decide_eq_true ?%bool_decide_eq_true]. eauto.
  - intros (p & Hp & He & Hc). exists (c, p). split; [by apply elem_of_elements|].
    by rewrite !bool_decide_true.
Qed.

Abbreviation grow := (λ found : gset string, found ∪ children_of views found).

Lemma iter_grow_sound n (gate found : gset string) :
  (∀ c, c ∈ found → ∃ r, r ∈ gate ∧ tc child r c) →
  ∀ c, c ∈ Nat.iter n grow found → ∃ r, r ∈ gate ∧ tc child r c.
Proof.
  intros Hf. induction n as [|n IH]; intros c; simpl; [apply Hf|].
  intros [Hc|(p & Hp & Hc)%elem_of_children_of]%elem_of_union; [by apply IH|].
  destruct (IH p Hp) as (r & Hr & Hrp). exists r. split; [done|]. by eapply tc_r.
Qed.

Lemma iter_mono n found : found ⊆ Nat.iter n grow found.
Proof. induction n as [|n IH]; simpl; set_solver. Qed.

Lemma size_grows (X Y : gset string) : ¬ Y ⊆ X → size X < size (X ∪ Y).
Proof. intros H. apply subset_size. split; [set_solver|]. intros Hs. apply H. set_solver. Qed.

(** The rounds either end or have found as many tickets. *)
Lemma iter_grow_full n found :
  children_of views (Nat.iter n grow found) ⊆ Nat.iter n grow found ∨ n <= size (Nat.iter n grow found).
Proof.
  induction n as [|n [IH|IH]]; [right; lia| |].
  - left. simpl. set (X := Nat.iter n grow found) in *.
    assert (X ∪ children_of views X = X) as -> by set_solver. done.
  - simpl. set (X := Nat.iter n grow found) in *.
    destruct (decide (children_of views X ⊆ X)) as [Hsub|Hsub].
    + left. assert (X ∪ children_of views X = X) as -> by set_solver. done.
    + right. pose proof (size_grows _ _ Hsub). lia.
Qed.

Lemma under_size (X : gset string) : (∀ c, c ∈ X → ∃ p, child p c) → size X <= size parent_ends.
Proof.
  intros HX. assert (X ⊆ set_map fst parent_ends) as Hs.
  { intros c Hc. destruct (HX c Hc) as (p & Hp & _). apply elem_of_map. by exists (c, p). }
  etransitivity; [by apply subseteq_size|]. clear.
  induction parent_ends as [|e X He IH] using set_ind_L.
  - by rewrite set_map_empty.
  - rewrite set_map_union_L, set_map_singleton_L.
    rewrite (size_union (C:=gset (string * string)) {[e]}) by set_solver.
    rewrite (size_singleton (C:=gset (string * string))).
    pose proof (size_union_alt (C:=gset string) {[e.1]} (set_map fst X)) as Hu. rewrite Hu.
    rewrite (size_singleton (C:=gset string)).
    assert (size ((set_map fst X : gset string) ∖ {[e.1]}) <= size (set_map fst X : gset string)); [|lia].
    apply subseteq_size. set_solver.
Qed.

Lemma closed_under X : children_of views X ⊆ X → ∀ p c, p ∈ X → tc child p c → c ∈ X.
Proof.
  intros HX p c Hp Htc. induction Htc as [p c Hc|p q c Hq _ IH].
  - apply HX, elem_of_children_of. eauto.
  - apply IH, HX, elem_of_children_of. eauto.
Qed.

Lemma elem_of_all_under gate c : c ∈ all_under views gate ↔ ∃ r, r ∈ gate ∧ tc child r c.
Proof.
  assert (∀ c, c ∈ children_of views gate → ∃ r, r ∈ gate ∧ tc child r c) as Hbase.
  { intros d (p & Hp & Hd)%elem_of_children_of. exists p. split; [done|]. by apply tc_once. }
  unfold all_under. set (m := size parent_ends). split; [by apply iter_grow_sound|].
  intros (r & Hr & Htc). set (X := Nat.iter m grow (children_of views gate)).
  assert (children_of views X ⊆ X) as HX.
  { destruct (iter_grow_full m (children_of views gate)) as [H|H]; [done|]. fold X in H.
    assert (∀ d, d ∈ X ∪ children_of views X → ∃ p, child p d) as Hch.
    { intros d [Hd|(p & _ & Hd)%elem_of_children_of]%elem_of_union; [|by exists p].
      destruct (iter_grow_sound m gate _ Hbase d Hd) as (q & _ & Hq). revert Hq.
      clear. intros Hq. induction Hq as [|? ? ? _ _ IH]; eauto. }
    pose proof (under_size _ Hch) as Hle. fold m in Hle.
    destruct (decide (children_of views X ⊆ X)) as [?|Hn]; [done|].
    pose proof (size_grows _ _ Hn). lia. }
  assert (children_of views gate ⊆ X) as HX0 by apply iter_mono.
  inversion Htc as [? ? Hc|? q ? Hq Hqc]; subst.
  - apply HX0, elem_of_children_of. eauto.
  - eapply closed_under; [done| |done]. apply HX0, elem_of_children_of. eauto.
Qed.
End under.
