(* ===== verification/LaneFacts.v ===== *)
(** * The two derivations of the lanes agree

    The graph of a board ([Graph], what [next] reads) and the SQL over its tables ([Derive]) give the same
    lanes, on the views of any log of operations. *)

From S2P Require Import Prelude Text Utf8 OpModel Changes Tasks ChangeFacts OpStore LogFacts Convergence TaskFacts BoardViews Graph TarjanFacts GraphFacts Derive DeriveFacts.
From stdpp Require Import relations options.

Local Open Scope nat_scope.

(** Items are kept under their id. *)
Definition items_keyed (views : Views) : Prop :=
  ∀ key row, (default ∅ (views !! "items") : Table) !! key = Some row →
    ∃ id, key = [Cell.Text id] ∧ row !! "id" = Some (Cell.Text id).

(** ** The selection *)
Lemma add_to_lookup k v m k' x :
  x ∈ default ∅ (add_to k v m !! k') ↔ (k' = k ∧ x = v) ∨ x ∈ default ∅ (m !! k').
Proof.
  unfold add_to. destruct (decide (k' = k)) as [->|Hne].
  - rewrite lookup_insert_eq. simpl. set_solver.
  - rewrite lookup_insert_ne by done. naive_solver.
Qed.

Lemma add_edges_tickets edges b : Board.tickets (foldl add_edge b edges) = Board.tickets b.
Proof.
  revert b. induction edges as [|e edges IH]; intros b; simpl; [done|]. rewrite IH.
  destruct b. unfold add_edge. by destruct (Edge.kind e).
Qed.

Lemma add_edges_deps edges b x y :
  y ∈ default ∅ (Board.deps (foldl add_edge b edges) !! x) ↔
  y ∈ default ∅ (Board.deps b !! x) ∨ Edge.Mk x y EdgeKind.Dep ∈ edges.
Proof.
  revert b. induction edges as [|[f t k] edges IH]; intros b; simpl; [set_solver|].
  rewrite IH, elem_of_cons. destruct b. destruct k; simpl; rewrite ?add_to_lookup; naive_solver.
Qed.

Lemma add_edges_parents edges b x y :
  y ∈ default ∅ (Board.parents (foldl add_edge b edges) !! x) ↔
  y ∈ default ∅ (Board.parents b !! x) ∨ Edge.Mk x y EdgeKind.Parent ∈ edges.
Proof.
  revert b. induction edges as [|[f t k] edges IH]; intros b; simpl; [set_solver|].
  rewrite IH, elem_of_cons. destruct b. destruct k; simpl; rewrite ?add_to_lookup; naive_solver.
Qed.

Lemma add_edges_children edges b x y :
  y ∈ default ∅ (Board.children (foldl add_edge b edges) !! x) ↔
  y ∈ default ∅ (Board.children b !! x) ∨ Edge.Mk y x EdgeKind.Parent ∈ edges.
Proof.
  revert b. induction edges as [|[f t k] edges IH]; intros b; simpl; [set_solver|].
  rewrite IH, elem_of_cons. destruct b. destruct k; simpl; rewrite ?add_to_lookup; naive_solver.
Qed.

Lemma collect_tickets (ts : list Ticket) (m : gmap string Ticket) x t :
  (∀ t1 t2, t1 ∈ ts → t2 ∈ ts → Ticket.id t1 = Ticket.id t2 → t1 = t2) →
  foldl (λ m t, <[Ticket.id t := t]> m) m ts !! x = Some t ↔
  (t ∈ ts ∧ Ticket.id t = x) ∨ (m !! x = Some t ∧ ∀ t', t' ∈ ts → Ticket.id t' ≠ x).
Proof.
  revert m. induction ts as [|t0 ts IH]; intros m Hu; simpl; [set_solver|].
  rewrite IH by (intros; apply Hu; [by right|by right|done]).
  assert (∀ t', t' ∈ ts → Ticket.id t' = Ticket.id t0 → t' = t0) as H0 by (intros; apply Hu; [by right|by left|done]).
  clear Hu IH. split.
  - intros [[Hin Hid]|[Hm Hn]]; [left; split; [by right|done]|].
    apply lookup_insert_Some in Hm as [[<- <-]|[Hne Hm]]; [left; split; [by left|done]|].
    right. split; [done|]. intros t' [->|Ht']%elem_of_cons; [done|by apply Hn].
  - intros [[Hin Hid]|[Hm Hn]].
    + destruct (decide (t ∈ ts)) as [?|Hnot]; [by left|]. right.
      apply elem_of_cons in Hin as [->|]; [|done]. split; [rewrite <-Hid; apply lookup_insert_eq|].
      intros t' Ht' E. apply Hnot. rewrite <-(H0 t'); [done|done|congruence].
    + right. split; [rewrite lookup_insert_ne; [done|apply Hn; by left]|]. intros t' Ht'. apply Hn. by right.
Qed.

(** ** Rows *)
Lemma elem_of_rows views table row :
  row ∈ rows_of views table ↔ ∃ key, (default ∅ (views !! table) : Table) !! key = Some row.
Proof.
  unfold rows_of. rewrite list_elem_of_fmap. split.
  - intros ([k r] & -> & H%elem_of_map_to_list). by exists k.
  - intros [k H]. exists (k, row). split; [done|]. by apply elem_of_map_to_list.
Qed.

#[local] Opaque rows_of.

Lemma elem_of_ids_where views (P : Row → bool) x :
  x ∈ ids_where views P ↔ ∃ row, row ∈ rows_of views "items" ∧ row_id row = x ∧ P row = true.
Proof.
  unfold ids_where. rewrite elem_of_list_to_set, list_elem_of_fmap. setoid_rewrite list_elem_of_filter.
  naive_solver.
Qed.

Lemma elem_of_active_ids views x :
  x ∈ active_ids views ↔ ∃ row, row ∈ rows_of views "items" ∧ row_id row = x ∧ row_active row = true.
Proof. apply elem_of_ids_where. Qed.

Lemma row_active_spec row :
  row_active row = row_live row && (has_status "open" row || has_status "in_progress" row).
Proof. done. Qed.

Section keyed.
Local Unset Default Proof Using.
Context (views : Views) (Hkeyed : items_keyed views).
Abbreviation b := (select views).
Abbreviation items := (rows_of views "items").

Lemma same_row r1 r2 : r1 ∈ items → r2 ∈ items → row_id r1 = row_id r2 → r1 = r2.
Proof.
  intros (k1 & H1)%elem_of_rows (k2 & H2)%elem_of_rows.
  destruct (Hkeyed k1 r1 H1) as (i1 & -> & E1). destruct (Hkeyed k2 r2 H2) as (i2 & -> & E2).
  unfold row_id, text_at. rewrite E1, E2. simpl. intros <-. by simplify_eq.
Qed.

Lemma select_ticket x t :
  Board.tickets b !! x = Some t ↔
  ∃ row, row ∈ items ∧ row_active row = true ∧ row_id row = x ∧ t = ticket_of row.
Proof.
  unfold select, new_board. rewrite add_edges_tickets. simpl. rewrite collect_tickets.
  - setoid_rewrite list_elem_of_fmap. setoid_rewrite list_elem_of_filter. split.
    + intros [[(row & -> & Ha & Hr) <-]|[H _]]; [by exists row|]. by rewrite lookup_empty in H.
    + intros (row & Hr & Ha & <- & ->). left. split; [by exists row|done].
  - intros t1 t2. rewrite !list_elem_of_fmap. setoid_rewrite list_elem_of_filter.
    intros (r1 & -> & _ & H1) (r2 & -> & _ & H2) E. f_equal. by apply same_row.
Qed.

Lemma select_active x : active b x = true ↔ x ∈ active_ids views.
Proof.
  rewrite active_spec, elem_of_active_ids. split.
  - intros [t (row & ? & ? & ? & _)%select_ticket]. eauto.
  - intros (row & Hr & Hid & Ha). exists (ticket_of row). apply select_ticket. eauto.
Qed.

Lemma select_keyed : keyed_by_id b.
Proof. intros k t (row & _ & _ & <- & ->)%select_ticket. done. Qed.

(** The edges the selection keeps: of the two kinds, with an active end. *)
Lemma selected_edges from to kind :
  Edge.Mk from to kind ∈ omap (select_edge (active_ids views)) (elements (present_edges views)) ↔
  (from, to, EdgeKind_as_str kind) ∈ present_edges views ∧ (kind = EdgeKind.Dep ∨ kind = EdgeKind.Parent) ∧
  (from ∈ active_ids views ∨ to ∈ active_ids views).
Proof.
  rewrite list_elem_of_omap. setoid_rewrite elem_of_elements. split.
  - intros ([[f t] k] & He & Hs). unfold select_edge in Hs.
    destruct (bool_decide (k = "dep")) eqn:Ed; [|destruct (bool_decide (k = "parent")) eqn:Ep; [|done]]; simpl in Hs.
    + apply bool_decide_eq_true in Ed as ->. destruct (_ || _) eqn:Ea; [|done]. vm_compute in Hs. simplify_eq.
      apply orb_true_iff in Ea as [?%bool_decide_eq_true|?%bool_decide_eq_true]; naive_solver.
    + apply bool_decide_eq_true in Ep as ->. destruct (_ || _) eqn:Ea; [|done]. vm_compute in Hs. simplify_eq.
      apply orb_true_iff in Ea as [?%bool_decide_eq_true|?%bool_decide_eq_true]; naive_solver.
  - intros (He & Hk & Ha). exists (from, to, EdgeKind_as_str kind). split; [done|]. unfold select_edge.
    assert (bool_decide (from ∈ active_ids views) || bool_decide (to ∈ active_ids views) = true) as ->.
    { apply orb_true_iff. rewrite !bool_decide_eq_true. done. }
    by destruct Hk as [-> | ->].
Qed.

Lemma select_deps x y :
  y ∈ active_deps b x ↔ (x, y, "dep") ∈ present_edges views ∧ y ∈ active_ids views.
Proof.
  rewrite elem_of_active_deps, select_active. unfold select at 1, new_board. rewrite add_edges_deps. simpl.
  replace (list_to_set _ : gset string) with (active_ids views) by (unfold active_ids; by rewrite <-list_fmap_compose).
  rewrite selected_edges. simpl. rewrite lookup_empty. set_solver.
Qed.

Lemma select_parents x y :
  x ∈ active_ids views →
  y ∈ default ∅ (Board.parents b !! x) ↔ (x, y) ∈ ends "parent" (present_edges views).
Proof.
  intros Hx. unfold select, new_board. rewrite add_edges_parents. simpl.
  replace (list_to_set _ : gset string) with (active_ids views) by (unfold active_ids; by rewrite <-list_fmap_compose).
  rewrite selected_edges, elem_of_ends. simpl. rewrite lookup_empty. set_solver.
Qed.

Lemma select_contains p c : contains b p c ↔ child views p c.
Proof.
  unfold contains, child. rewrite select_active. unfold select at 1, new_board. rewrite add_edges_children. simpl.
  replace (list_to_set _ : gset string) with (active_ids views) by (unfold active_ids; by rewrite <-list_fmap_compose).
  rewrite selected_edges, elem_of_ends. simpl. rewrite lookup_empty. set_solver.
Qed.

Lemma select_depends x y : depends b x y ↔ edge (active_dep_edges views) x y.
Proof.
  unfold depends, edge, active_dep_edges. rewrite select_active, select_deps, elem_of_filter, elem_of_ends. simpl. tauto.
Qed.

Lemma tc_iff {A} (R1 R2 : relation A) x y : (∀ x y, R1 x y ↔ R2 x y) → tc R1 x y ↔ tc R2 x y.
Proof. intros H. split; intros Htc; induction Htc; try (by apply tc_once, H); eapply tc_l; try done; by apply H. Qed.

(** ** The sets of the derivations *)
Lemma cyclic_same : cyclic b = cyclic_ids views.
Proof.
  apply set_eq. intros x. unfold cyclic_ids. rewrite cyclic_spec, elem_of_on_cycle. apply tc_iff, select_depends.
Qed.

Lemma held_same x : held b x = has_active_dep views x.
Proof.
  apply eq_true_iff_eq. unfold held, has_active_dep. rewrite negb_true_iff, bool_decide_eq_false, existsb_elements.
  split.
  - intros Hne. destruct (active_deps b x) as [|y l] eqn:E; [done|].
    assert (y ∈ active_deps b x) as [He Hy]%select_deps by (rewrite E; by left).
    exists (x, y). rewrite elem_of_ends. by rewrite !bool_decide_true.
  - intros ([f y] & He%elem_of_ends & Hb). apply andb_true_iff in Hb as [->%bool_decide_eq_true Hy%bool_decide_eq_true].
    intros E. assert (y ∈ active_deps b x) as Hin by by apply select_deps. rewrite E in Hin. set_solver.
Qed.

Lemma descendants_same roots : descendants b roots = all_under views roots.
Proof.
  apply set_eq. intros x. rewrite descendants_spec, elem_of_all_under.
  setoid_rewrite (tc_iff _ _ _ _ select_contains). done.
Qed.

Lemma all_under_union gate1 gate2 c :
  c ∈ all_under views (gate1 ∪ gate2) ↔ c ∈ all_under views gate1 ∨ c ∈ all_under views gate2.
Proof. rewrite !elem_of_all_under. set_solver. Qed.

Lemma all_under_active gate c : c ∈ all_under views gate → c ∈ active_ids views.
Proof.
  intros (r & _ & H)%elem_of_all_under. induction H as [p c [_ Hc]|]; done.
Qed.

(** A ticket of the board with its row. *)
Lemma tickets_elem t : t ∈ tickets_of b ↔ ∃ row, row ∈ items ∧ row_active row = true ∧ t = ticket_of row.
Proof.
  unfold tickets_of. rewrite list_elem_of_omap. split.
  - intros (id & _ & (row & ? & ? & _ & ?)%select_ticket). eauto.
  - intros (row & Hr & Ha & ->). exists (row_id row).
    assert (Board.tickets b !! row_id row = Some (ticket_of row)) as H by (apply select_ticket; eauto).
    split; [|done]. apply elem_of_sorted_keys. eauto.
Qed.

(** Of an active row, open and claimed are the two cases. *)
Lemma open_row row : row_active row = true → is_open (ticket_of row) = has_status "open" row.
Proof.
  rewrite row_active_spec. unfold is_open, has_status. simpl. unfold has_status.
  destruct (text_at row "status") as [s|]; [|by rewrite andb_false_r].
  repeat case_bool_decide; simplify_eq; try done. by rewrite andb_false_r.
Qed.

Lemma live_open row : row_live row && has_status "open" row = row_active row && has_status "open" row.
Proof. rewrite row_active_spec. by destruct (row_live row), (has_status "open" row), (has_status "in_progress" row). Qed.

(** A set of ids of tickets, as a condition on rows. *)
Lemma ids_same (f : Ticket → bool) (g : Row → bool) :
  (∀ row, row ∈ items → row_active row && f (ticket_of row) = g row) →
  (list_to_set (Ticket.id <$> base.filter (λ t, f t = true) (tickets_of b)) : gset string) = ids_where views g.
Proof.
  intros Hfg. apply set_eq. intros x.
  rewrite elem_of_list_to_set, list_elem_of_fmap, elem_of_ids_where. setoid_rewrite list_elem_of_filter.
  setoid_rewrite tickets_elem. split.
  - intros (t & -> & Hf & row & Hr & Ha & ->). exists row. split_and!; [done|done|].
    by rewrite <-Hfg, Ha, Hf.
  - intros (row & Hr & <- & Hg). rewrite <-Hfg in Hg by done. apply andb_true_iff in Hg as [Ha Hf].
    exists (ticket_of row). eauto 6.
Qed.

Abbreviation blocked_set :=
  (list_to_set (Ticket.id <$> base.filter (λ t, stands_still b (cyclic b) t = true) (tickets_of b)) : gset string).
Abbreviation deferred_set now :=
  (list_to_set (Ticket.id <$> base.filter (λ t, (is_open t &&
    (negb (bool_decide (Ticket.id t ∈ blocked_set)) && deferred_at now t)) = true) (tickets_of b)) : gset string).

Lemma blocked_same : blocked_set = blocked_gating views.
Proof.
  apply ids_same. intros row Hr. unfold stands_still, blocked_row. rewrite live_open. simpl.
  rewrite cyclic_same, held_same. destruct (row_active row) eqn:Ha; [|done]. by rewrite open_row.
Qed.

Lemma blocked_gating_row row : row ∈ items →
  row_id row ∈ blocked_gating views ↔ blocked_row views row = true.
Proof.
  intros Hr. unfold blocked_gating. rewrite elem_of_ids_where. split; [|eauto].
  intros (r & Hr' & Hid & Hb). by rewrite (same_row row r).
Qed.

Lemma deferred_same now : deferred_set now = deferred_gating views now.
Proof.
  apply ids_same. intros row Hr. rewrite blocked_same. simpl. unfold deferred_row. rewrite live_open.
  destruct (row_active row) eqn:Ha; [|done]. rewrite open_row by done.
  destruct (has_status "open" row) eqn:Ho; [|done]. rewrite !andb_true_l.
  rewrite (bool_decide_ext _ _ (blocked_gating_row row Hr)). unfold blocked_row.
  rewrite live_open, Ha, Ho, !andb_true_l. change (deferred_at now (ticket_of row)) with (deferred_beyond now row).
  destruct (bool_decide (row_id row ∈ cyclic_ids views)), (has_active_dep views (row_id row)); cbn [orb negb].
  all: rewrite ?(bool_decide_true (true = true)), ?(bool_decide_false (false = true)) by done.
  all: by destruct (deferred_beyond now row).
Qed.

(** ** What can be acted on *)
Lemma parent_facts x :
  x ∈ active_ids views →
  has_parent views x = negb (bool_decide (default ∅ (Board.parents b !! x) = ∅)) ∧
  has_active_parent views x = negb (forallb (λ p, negb (active b p)) (sorted_set (default ∅ (Board.parents b !! x)))).
Proof.
  intros Hx. split; apply eq_true_iff_eq; rewrite negb_true_iff.
  - unfold has_parent. rewrite existsb_elements, bool_decide_eq_false. split.
    + intros ([f y] & He & ->%bool_decide_eq_true). apply select_parents in He; [|done]. set_solver.
    + intros (y & Hy)%set_choose_L. exists (x, y). split; [by apply select_parents|by apply bool_decide_eq_true].
  - unfold has_active_parent. rewrite existsb_elements, <-not_true_iff_false, forallb_forall. split.
    + intros ([f y] & He & [->%bool_decide_eq_true Hy%bool_decide_eq_true]%andb_true_iff) Hall.
      apply select_parents in He; [|done]. specialize (Hall y). rewrite <-list_elem_of_In, elem_of_sorted_set in Hall.
      apply Hall, negb_true_iff in He. apply select_active in Hy. congruence.
    + intros Hn. destruct (existsb (active b) (sorted_set (default ∅ (Board.parents b !! x)))) eqn:E.
      * apply existsb_exists in E as (y & Hy & Ha). rewrite <-list_elem_of_In, elem_of_sorted_set in Hy.
        exists (x, y). split; [by apply select_parents|]. apply andb_true_iff. rewrite !bool_decide_eq_true.
        split; [done|by apply select_active].
      * exfalso. apply Hn. intros y Hy. apply negb_true_iff, not_true_iff_false. intros Ha.
        apply not_true_iff_false in E. apply E, existsb_exists. eauto.
Qed.

Lemma rests_same row : row ∈ items → row_active row = true → rests b (ticket_of row) = negb (unmasked views row).
Proof.
  intros Hr Ha. assert (row_id row ∈ active_ids views) as Hx by (apply elem_of_active_ids; eauto).
  destruct (parent_facts _ Hx) as [Hp Hap]. unfold rests, unmasked. rewrite Hp, Hap, open_row by done.
  assert (match text_at row "status" with Some s => negb (bool_decide (s = "open")) | None => false end =
          negb (has_status "open" row)) as ->.
  { rewrite row_active_spec in Ha. unfold has_status in *. destruct (text_at row "status") as [s|].
    - by rewrite (bool_decide_ext (s = "open") (Some s = Some "open")) by (split; congruence).
    - by rewrite andb_false_r in Ha. }
  destruct (has_status "open" row); [|done]. rewrite andb_true_l, orb_false_l, !negb_involutive.
  change (Ticket.id (ticket_of row)) with (row_id row).
  destruct (Board.parents b !! row_id row) as [ps|]; [done|]. cbn [default].
  by rewrite bool_decide_true.
Qed.

Definition may_act (now : string) (t : Ticket) : bool :=
  negb (bool_decide (Ticket.id t ∈ cyclic b)) && negb (held b (Ticket.id t)) && negb (deferred_at now t) &&
  negb (bool_decide (Ticket.id t ∈ descendants b blocked_set)) &&
  negb (bool_decide (Ticket.id t ∈ descendants b (deferred_set now))) && negb (rests b t).

Lemma may_act_same now row : row ∈ items → row_active row = true →
  may_act now (ticket_of row) = actionable_row views now row.
Proof.
  intros Hr Ha. unfold may_act, actionable_row.
  rewrite rests_same, negb_involutive by done. rewrite deferred_same, blocked_same, !descendants_same.
  rewrite row_active_spec in Ha. apply andb_true_iff in Ha as [-> _].
  change (Ticket.id (ticket_of row)) with (row_id row).
  change (deferred_at now (ticket_of row)) with (deferred_beyond now row).
  rewrite held_same, cyclic_same. unfold suppressed.
  rewrite (bool_decide_ext _ _ (all_under_union _ _ _)), bool_decide_or, negb_orb, andb_true_l.
  destruct (negb (has_active_dep views (row_id row))), (negb (deferred_beyond now row)), (unmasked views row);
    rewrite ?andb_true_r, ?andb_false_r, ?andb_false_l; try done; by rewrite andb_assoc.
Qed.

(** ** Lists in order *)
Lemma tickets_sublist (f : Ticket → bool) l :
  sublist (Ticket.id <$> base.filter (λ t, f t = true) (omap (λ id, Board.tickets b !! id) l)) l.
Proof.
  induction l as [|x l IH]; simpl; [constructor|]. destruct (Board.tickets b !! x) as [t|] eqn:Ht; [|by constructor].
  rewrite filter_cons. case_decide; [|by constructor]. simpl. rewrite (select_keyed _ _ Ht). by constructor.
Qed.

Lemma tickets_by_id (f : Ticket → bool) :
  Sorted String.le (Ticket.id <$> base.filter (λ t, f t = true) (tickets_of b)) ∧
  NoDup (Ticket.id <$> base.filter (λ t, f t = true) (tickets_of b)).
Proof.
  pose proof (tickets_sublist f (sorted_keys (Board.tickets b))) as Hsub. split.
  - apply StronglySorted_Sorted. eapply StronglySorted_sublist; [exact Hsub|].
    apply Sorted_StronglySorted; [intros ???; apply transitivity|apply sorted_keys_sorted].
  - eapply sublist_NoDup; [apply (sorted_keys_NoDup (Board.tickets b))|exact Hsub].
Qed.

Lemma in_order_same (f : Ticket → bool) (g : Row → bool) :
  (∀ row, row ∈ items → row_active row && f (ticket_of row) = g row) →
  Ticket.id <$> base.filter (λ t, f t = true) (tickets_of b) = in_order (ids_where views g).
Proof.
  intros Hfg. destruct (tickets_by_id f) as [Hs Hn]. apply sorted_set_unique; [done|done|].
  intros x. rewrite <-(ids_same f g Hfg). by rewrite elem_of_list_to_set.
Qed.

(** The first of an ordered set that meets a condition is the least of those that do. *)
Lemma find_first_least (f : string → bool) (s s' : gset string) :
  (∀ x, x ∈ s' ↔ x ∈ s ∧ f x = true) → find_first f (sorted_set s) = head (sorted_set s').
Proof.
  intros H. rewrite find_first_filter. f_equal. apply sorted_set_unique.
  - apply StronglySorted_Sorted. eapply StronglySorted_sublist; [apply sublist_filter|].
    apply Sorted_StronglySorted; [intros ???; apply transitivity|apply sorted_set_sorted].
  - apply NoDup_filter, sorted_set_NoDup.
  - intros x. rewrite list_elem_of_filter, elem_of_sorted_set, H. tauto.
Qed.

(** ** Candidates *)
Abbreviation acting now := (base.filter (λ t, may_act now t = true) (tickets_of b)).
Abbreviation acting_map now := (list_to_map ((λ t, (Ticket.id t, t)) <$> acting now) : gmap string Ticket).

Lemma acting_lookup now x t :
  acting_map now !! x = Some t ↔
  ∃ row, row ∈ items ∧ row_active row = true ∧ row_id row = x ∧ actionable_row views now row = true ∧ t = ticket_of row.
Proof.
  rewrite <-elem_of_list_to_map.
  - rewrite list_elem_of_fmap. setoid_rewrite list_elem_of_filter. setoid_rewrite tickets_elem. split.
    + intros (t' & [= -> ->] & Hm & row & Hr & Ha & ->). exists row. by rewrite <-may_act_same.
    + intros (row & Hr & Ha & <- & Hac & ->). exists (ticket_of row). split; [done|].
      rewrite may_act_same by done. split; [done|]. by exists row.
  - rewrite <-list_fmap_compose. apply (tickets_by_id (may_act now)).
Qed.

Lemma finishable_same x : existsb (active b) (all_at x (Board.children b)) = has_active_child views x.
Proof.
  apply eq_true_iff_eq. unfold has_active_child, all_at. rewrite existsb_elements, existsb_exists. split.
  - intros (c & Hc & Ha). rewrite <-list_elem_of_In, elem_of_sorted_set in Hc.
    assert (contains b x c) as [He Hac]%select_contains by done. exists (c, x). split; [done|].
    by rewrite !bool_decide_true.
  - intros ([c p] & He & [->%bool_decide_eq_true Hc%bool_decide_eq_true]%andb_true_iff).
    assert (contains b x c) as [Hin Ha] by by apply select_contains. exists c.
    rewrite <-list_elem_of_In, elem_of_sorted_set. done.
Qed.

Lemma claimed_parent now p :
  match acting_map now !! p with Some pt => Ticket.in_progress pt | None => false end = true ↔
  p ∈ ids_where views (λ row, actionable_row views now row && has_status "in_progress" row).
Proof.
  rewrite elem_of_ids_where. split.
  - destruct (acting_map now !! p) as [pt|] eqn:E; [|done]. intros Hp.
    apply acting_lookup in E as (row & Hr & _ & Hid & Hac & ->). exists row. split_and!; [done|done|].
    rewrite Hac. exact Hp.
  - intros (row & Hr & Hid & [Hac Hs]%andb_true_iff).
    assert (row_active row = true) as Ha.
    { rewrite row_active_spec, Hs, orb_true_r, andb_true_r. unfold actionable_row in Hac.
      by rewrite !andb_true_iff in Hac; destruct Hac as [[[[[? _] _] _] _] _]. }
    assert (acting_map now !! p = Some (ticket_of row)) as -> by (apply acting_lookup; eauto 10).
    exact Hs.
Qed.

Lemma promoter_same now row : row ∈ items → row_active row = true →
  promoter_of b (acting_map now) (ticket_of row) =
  if has_status "open" row then least_claimed_parent views now (row_id row) else None.
Proof.
  intros Hr Ha. unfold promoter_of. rewrite <-open_row by done. unfold is_open.
  destruct (Ticket.in_progress (ticket_of row)); cbn [negb]; [done|].
  assert (row_id row ∈ active_ids views) as Hx by (apply elem_of_active_ids; eauto).
  apply find_first_least. intros p. rewrite claimed_parent, elem_of_list_to_set, list_elem_of_omap.
  change (Ticket.id (ticket_of row)) with (row_id row). rewrite select_parents by done. split.
  - intros ([f t] & He%elem_of_elements & Hb). destruct (_ && _) eqn:E; simplify_eq.
    apply andb_true_iff in E as [->%bool_decide_eq_true ?%bool_decide_eq_true]. done.
  - intros [He Hp]. exists (row_id row, p). split; [by apply elem_of_elements|]. by rewrite !bool_decide_true.
Qed.

Lemma status_text row : row_active row = true →
  text_at row "status" = Some (if has_status "in_progress" row then "in_progress" else "open").
Proof.
  rewrite row_active_spec. unfold has_status. intros [_ H]%andb_true_iff.
  apply orb_true_iff in H as [->%bool_decide_eq_true| ->%bool_decide_eq_true]; by vm_compute.
Qed.

Lemma candidates_same now :
  as_next_candidate <$> (candidate_of b (acting_map now) <$> acting now) = next_candidates views now.
Proof.
  rewrite <-list_fmap_compose. pose proof (promoter_same now) as Hpr. set (amap := acting_map now) in *.
  unfold tickets_of. rewrite filter_omap_fmap. unfold next_candidates.
  rewrite (omap_restrict _ (.∈ active_ids views) (in_order _)).
  - rewrite (sorted_set_unique (base.filter (.∈ active_ids views) _) (active_ids views)).
    + rewrite (sorted_set_unique (sorted_keys (Board.tickets b)) (active_ids views)).
      * apply omap_ext_elem. intros x Hx%elem_of_sorted_set.
        apply elem_of_active_ids in Hx as (row & Hr & Hid & Ha).
        assert (Board.tickets b !! x = Some (ticket_of row)) as -> by (apply select_ticket; eauto).
        assert ((default ∅ (views !! "items") : Table) !! [Cell.Text x] = Some row) as ->.
        { apply elem_of_rows in Hr as [key Hk]. destruct (Hkeyed key row Hk) as (id & -> & E).
          unfold row_id, text_at in Hid. rewrite E in Hid. simpl in Hid. by subst. }
        cbn [mbind option_bind]. rewrite (status_text row Ha), may_act_same by done. cbn [mbind option_bind].
        destruct (actionable_row views now row); [|done].
        assert (∀ c, bool_decide ((if c : bool then "in_progress" else "open") = "open") ||
          bool_decide ((if c then "in_progress" else "open") = "in_progress") = true) as -> by by intros [].
        cbn [andb]. f_equal. unfold as_next_candidate, candidate_of, next_candidate, compose.
        cbn [Candidate.id Candidate.in_progress Candidate.finishable Candidate.promoter].
        change (Ticket.id (ticket_of row)) with (row_id row).
        rewrite Hpr, finishable_same, Hid, <-open_row by done. unfold is_open.
        change (Ticket.in_progress (ticket_of row)) with (has_status "in_progress" row).
        by destruct (has_status "in_progress" row).
      * apply sorted_keys_sorted.
      * apply sorted_keys_NoDup.
      * intros x. by rewrite elem_of_sorted_keys, <-active_spec, select_active.
    + apply StronglySorted_Sorted. eapply StronglySorted_sublist; [apply sublist_filter|].
      apply Sorted_StronglySorted; [intros ???; apply transitivity|apply sorted_set_sorted].
    + apply NoDup_filter, sorted_set_NoDup.
    + intros x. rewrite list_elem_of_filter. split; [tauto|]. intros Hx. split; [done|].
      apply elem_of_sorted_set, elem_of_ids_where. apply elem_of_active_ids in Hx as (row & ? & ? & _). eauto.
  - intros x c Hx Hc. 
    destruct ((default ∅ (views !! "items") : Table) !! [Cell.Text x]) as [row|] eqn:Er; [|done]. cbn [mbind option_bind] in Hc.
    destruct (text_at row "status") as [st|] eqn:Es; [|done]. cbn [mbind option_bind] in Hc.
    destruct (_ && _) eqn:E in Hc; [|done]. apply andb_true_iff in E as [Hac Hst].
    destruct (Hkeyed _ _ Er) as (id & [= <-] & Hid). apply elem_of_active_ids. exists row. split_and!.
    + apply elem_of_rows. eauto.
    + unfold row_id, text_at. by rewrite Hid.
    + rewrite row_active_spec. unfold actionable_row in Hac. rewrite !andb_true_iff in Hac.
      destruct Hac as [[[[[-> _] _] _] _] _]. unfold has_status. rewrite Es.
      apply orb_true_iff in Hst as [->%bool_decide_eq_true| ->%bool_decide_eq_true]; by vm_compute.
Qed.

(** ** Every lane *)
Lemma candidate_ids (m : gmap string Ticket) (f : Ticket → bool) (claimed : bool) (l : list Ticket) :
  Candidate.id <$> base.filter (λ c, Candidate.in_progress c = claimed)
    (candidate_of b m <$> base.filter (λ t, f t = true) l) =
  Ticket.id <$> base.filter (λ t, (f t && Bool.eqb (Ticket.in_progress t) claimed) = true) l.
Proof.
  induction l as [|t l IH]; [done|]. rewrite !(filter_cons _ t). destruct (f t) eqn:E; cbn [andb].
  - rewrite decide_True by done. cbn [fmap list_fmap]. rewrite filter_cons.
    change (Candidate.in_progress (candidate_of b m t)) with (Ticket.in_progress t).
    destruct (decide (Ticket.in_progress t = claimed)) as [->|Hne].
    + rewrite Bool.eqb_reflx, decide_True by done. cbn [fmap list_fmap]. f_equal. exact IH.
    + rewrite decide_False; [exact IH|]. by intros ?%Bool.eqb_prop.
  - rewrite !decide_False by done. exact IH.
Qed.

Lemma actionable_row_live now row : actionable_row views now row = true → row_live row = true.
Proof. unfold actionable_row. rewrite !andb_true_iff. tauto. Qed.

(** The rows of a lane of the two statuses. *)
Lemma lane_rows now row claimed status :
  row ∈ items → status = (if claimed : bool then "in_progress" else "open") →
  row_active row && (may_act now (ticket_of row) && Bool.eqb (Ticket.in_progress (ticket_of row)) claimed) =
  actionable_row views now row && has_status status row.
Proof.
  intros Hr ->. destruct (row_active row) eqn:Ha.
  - rewrite may_act_same by done. cbn [andb]. f_equal. unfold ticket_of. cbn [Ticket.in_progress].
    unfold has_status. rewrite (status_text row Ha). by destruct (has_status "in_progress" row), claimed.
  - cbn [andb]. symmetry. apply not_true_iff_false. intros [Hac Hs]%andb_true_iff.
    apply actionable_row_live in Hac. rewrite row_active_spec, Hac in Ha.
    by destruct claimed; rewrite Hs, ?orb_true_r in Ha.
Qed.

Lemma suppressed_rows gate : in_order (all_under views gate) =
  in_order (ids_where views (λ row, bool_decide (row_id row ∈ all_under views gate) && row_active row)).
Proof.
  unfold in_order. f_equal. f_equal. apply set_eq. intros x. rewrite elem_of_ids_where. split.
  - intros Hx. destruct (proj1 (elem_of_active_ids _ _) (all_under_active _ _ Hx)) as (row & Hr & <- & Ha).
    exists row. by rewrite Ha, bool_decide_true.
  - intros (row & _ & <- & [H%bool_decide_eq_true _]%andb_true_iff). done.
Qed.

Lemma suppressed_only_rows gate1 gate2 : in_order (all_under views gate1 ∖ all_under views gate2) =
  in_order (ids_where views (λ row, bool_decide (row_id row ∈ all_under views gate1) &&
    negb (bool_decide (row_id row ∈ all_under views gate2)) && row_active row)).
Proof.
  unfold in_order. f_equal. f_equal. apply set_eq. intros x. rewrite elem_of_ids_where, elem_of_difference. split.
  - intros [Hx Hn]. destruct (proj1 (elem_of_active_ids _ _) (all_under_active _ _ Hx)) as (row & Hr & <- & Ha).
    exists row. by rewrite Ha, bool_decide_true, bool_decide_false.
  - intros (row & _ & <- & H). rewrite !andb_true_iff, negb_true_iff, bool_decide_eq_true, bool_decide_eq_false in H. tauto.
Qed.

Lemma lanes_unfold now :
  lanes b now =
  Lanes.Mk
    (Candidate.id <$> base.filter (λ c, Candidate.in_progress c = false) (candidate_of b (acting_map now) <$> acting now))
    (Candidate.id <$> base.filter (λ c, Candidate.in_progress c = true) (candidate_of b (acting_map now) <$> acting now))
    (sorted_set (deferred_set now)) (sorted_set blocked_set) (sorted_set (descendants b blocked_set))
    (sorted_set (descendants b (deferred_set now) ∖ descendants b blocked_set))
    (candidate_of b (acting_map now) <$> acting now).
Proof. reflexivity. Qed.

Lemma lanes_same now :
  let l := lanes b now in
  Lanes.ready l = ready views now ∧ Lanes.in_progress l = in_progress views now ∧
  Lanes.deferred l = deferred views now ∧ Lanes.blocked l = blocked views ∧
  Lanes.suppressed_by_blocked l = suppressed_by_blocked views ∧
  Lanes.suppressed_by_deferred_only l = suppressed_by_deferred_only views now ∧
  as_next_candidate <$> Lanes.candidates l = next_candidates views now ∧ board_blocked b = blocked views.
Proof.
  cbv zeta. rewrite lanes_unfold.
  cbn [Lanes.ready Lanes.in_progress Lanes.deferred Lanes.blocked Lanes.suppressed_by_blocked
       Lanes.suppressed_by_deferred_only Lanes.candidates].
  rewrite !candidate_ids, deferred_same, blocked_same, !descendants_same. split_and!.
  - apply in_order_same. intros row Hr. by apply lane_rows.
  - apply in_order_same. intros row Hr. by apply lane_rows.
  - done.
  - done.
  - apply suppressed_rows.
  - apply suppressed_only_rows.
  - apply candidates_same.
  - unfold blocked. rewrite <-blocked_same. unfold board_blocked.
    destruct (tickets_by_id (stands_still b (cyclic b))) as [Hs Hn]. apply sorted_set_unique; [done|done|].
    intros x. by rewrite elem_of_list_to_set.
Qed.
End keyed.

(** ** The views of a log *)
Lemma items_keyed_fresh : items_keyed (fresh_views TaskReducer).
Proof. intros key row H. vm_compute in H. done. Qed.

Lemma item_columns f : f ∈ ITEM_LWW_FIELDS → "id" ∉ [f; f +:+ "_v"; f +:+ "_site"].
Proof.
  assert (Forall (λ f, "id" ∉ [f; f +:+ "_v"; f +:+ "_site"]) ITEM_LWW_FIELDS) as H
    by (apply (bool_decide_unpack _); vm_compute; reflexivity).
  rewrite Forall_forall in H. apply H.
Qed.

Lemma items_keyed_write views op c :
  task_change op c → items_keyed views → items_keyed (carry_out views (to_write c)).
Proof.
  intros Hc Hv. destruct (decide (Write.table (to_write c) = "items")) as [Ht|Ht].
  - destruct Hc as [f Hf Hk Hfield| |value label Hp|tag| | |from to kind Hp|item_id label Hp|thread_id item_id relation weight Hp
      |table tag Htab| | |ids payload Hp|id]; try discriminate Ht.
    + pose proof (item_columns f Hf) as Hid. intros key row.
      set (cells := [(f, text_or_null (Op.value op))]).
      set (ver := [(f +:+ "_v", Op.lamport op); (f +:+ "_site", Op.site op)]).
      assert ("id" ∉ (cells ++ version_cells ver).*1) as Hcols.
      { rewrite fmap_app, version_cells_columns. exact Hid. }
      unfold carry_out. cbn [to_write register Write.table Write.id Write.key Write.def Write.effect Change.table
        Change.key Change.effect fst snd]. set (rows := default ∅ (views !! "items") : Table).
      rewrite lookup_insert_eq. cbn [default from_option]. unfold id.
      change ([("id", Cell.Text (Op.target_id op))].*2) with [Cell.Text (Op.target_id op)].
      intros [[<- <-]|[Hne Hrow]]%lookup_insert_Some; [|by apply Hv].
      exists (Op.target_id op). split; [done|]. fold cells. unfold write_row.
      cbn [effect_cells effect_version]. fold ver.
      destruct (rows !! [Cell.Text (Op.target_id op)]) as [row|] eqn:E.
      * destruct (Hv _ _ E) as (id & [= <-] & Hrow). destruct (_ || _); [|done].
        by rewrite set_cells_lookup_ne.
      * unfold new_row. rewrite set_cells_app, set_cells_lookup_ne by done. done.
    + cases_in Htab; discriminate Ht.
  - intros key row. rewrite carry_out_other by done. apply Hv.
Qed.

Lemma items_keyed_log ops : items_keyed (log_views (schema:=flow_schema) TaskReducer ops).
Proof.
  unfold log_views. generalize items_keyed_fresh. generalize (fresh_views TaskReducer).
  induction ops as [|op ops IH]; intros views Hv; simpl; [done|]. apply IH. unfold fold1.
  destruct (folds TaskReducer op) eqn:Ef; [|done]. apply folds_foldable in Ef.
  change (items_keyed (carry_all views (to_write <$> task_changes op))).
  assert (∀ w, w ∈ to_write <$> task_changes op → ∃ c, w = to_write c ∧ task_change op c) as Hw
    by (intros w; by apply task_writes).
  revert views Hv Hw. induction (to_write <$> task_changes op) as [|w ws IHw]; intros views Hv Hw; [done|].
  simpl. apply IHw; [|intros; apply Hw; by right].
  destruct (Hw w) as (c & -> & Hc); [by left|]. by eapply items_keyed_write.
Qed.

(** C11: on the views of any log, the lanes the graph derives are those of the SQL derivations: the same ready,
    claimed, deferred, blocked and suppressed tickets in the same order, and the same candidates of [next] with
    the same signals. Tarjan's walk against a bounded join, a worklist against a recursive union. *)
Theorem lanes_agree (ops : list Op) (now : string) :
  let views := log_views (schema:=flow_schema) TaskReducer ops in
  let l := lanes (select views) now in
  Lanes.ready l = ready views now ∧ Lanes.in_progress l = in_progress views now ∧
  Lanes.deferred l = deferred views now ∧ Lanes.blocked l = blocked views ∧
  Lanes.suppressed_by_blocked l = suppressed_by_blocked views ∧
  Lanes.suppressed_by_deferred_only l = suppressed_by_deferred_only views now ∧
  as_next_candidate <$> Lanes.candidates l = next_candidates views now ∧
  board_blocked (select views) = blocked views.
Proof. cbv zeta. apply lanes_same, items_keyed_log. Qed.
