(* ===== verification/Server.v ===== *)
(** * The table of a server fold

    [fold-ddb/src/layout.rs], [write.rs], [table.rs] and [mem.rs]: where a folded row lives in the one table a
    server keeps, a described change as one conditional write, and a stream's partition with DynamoDB's
    condition semantics. Lengths are of UTF-8 bytes. *)

From S2P Require Import Prelude Text Utf8 OpModel Changes.
From stdpp Require Import options.
From Stdlib Require Import Ascii.

(** ** Layout *)
Definition PK : string := "stream_id".
Definition SK : string := "sk".
Definition ACTIVE : string := "nxf_active".
Definition DATED : string := "nxf_dated".
Definition DATED_AT : string := "nxf_dated_at".
Definition TYPED : string := "nxf_typed".

Definition MAX_KEY_BYTES : N := 1024.
Definition MAX_PARTITION_BYTES : N := 2048.
Definition MAX_ITEM_BYTES : N := 400 * 1024.

Definition RESERVED : list string := [PK; SK; ACTIVE; DATED; DATED_AT; TYPED].

Definition WATERMARK_KEY : string := ".meta#watermark".
Definition ADJACENCY : string := ".adj#".
Definition LABEL_ADJACENCY : string := ".ladj#".
Definition LINK_ADJACENCY : string := ".tadj#".
Definition CONTRIBUTES_ADJACENCY : string := ".cadj#".
Definition REF_ADJACENCY : string := ".radj#".
Definition REF_SOURCE : string := ".rsrc#".

(** A schema is given with its defaults read, so a default in a spelling that is not supported, and a failing
    SQLite, have no counterpart. *)
Module LayoutError.
Inductive LayoutError :=
| UnknownTable (table : string)
| UnknownColumn (table column : string)
| ReservedColumn (table column : string)
| NullKey (table column : string).
End LayoutError.
Abbreviation LayoutError := LayoutError.LayoutError (only parsing).

(** [str::replace] of one character. *)
Fixpoint replace_char (c : ascii) (by_ s : string) : string :=
  match s with
  | EmptyString => EmptyString
  | String a s => if decide (a = c) then by_ +:+ replace_char c by_ s else String a (replace_char c by_ s)
  end.

Definition escape (v : string) : string := replace_char "#"%char "%23" (replace_char "%"%char "%25" v).

Definition table_prefix (table : string) : string := table +:+ "#".

(** SQLite's TEXT affinity stores an integer key as its decimal text: the same row. *)
Definition key_value (table : string) (cell : string * Cell) : result LayoutError string :=
  match cell.2 with
  | Cell.Text v => Ok (escape v)
  | Cell.Int v => Ok (pretty v)
  | Cell.Null => Err (LayoutError.NullKey table cell.1)
  end.

Fixpoint key_values (table : string) (key : Cells) : result LayoutError (list string) :=
  match key with
  | [] => Ok []
  | cell :: key => v <-? key_value table cell ;; vs <-? key_values table key ;; Ok (v :: vs)
  end.

Definition row_sk (table : string) (key : Cells) : result LayoutError string :=
  vs <-? key_values table key ;; Ok (table_prefix table +:+ join "#"%char vs).

Definition typed_partition (stream item_type : string) : string := stream +:+ "#" +:+ escape item_type.

Definition adjacency_prefix (item : string) : string := ADJACENCY +:+ escape item +:+ "#".
Definition adjacency_key (item tag : string) : string := adjacency_prefix item +:+ escape tag.
Definition label_adjacency_prefix (item : string) : string := LABEL_ADJACENCY +:+ escape item +:+ "#".
Definition label_adjacency_key (item tag : string) : string := label_adjacency_prefix item +:+ escape tag.
Definition link_adjacency_prefix (item : string) : string := LINK_ADJACENCY +:+ escape item +:+ "#".
Definition link_adjacency_key (item tag : string) : string := link_adjacency_prefix item +:+ escape tag.
Definition contributes_adjacency_prefix (item : string) : string :=
  CONTRIBUTES_ADJACENCY +:+ escape item +:+ "#".
Definition contributes_adjacency_key (item tag : string) : string :=
  contributes_adjacency_prefix item +:+ escape tag.
Definition ref_adjacency_prefix (value field : string) : string :=
  REF_ADJACENCY +:+ escape value +:+ "#" +:+ escape field +:+ "#".
Definition ref_adjacency_key (value field source : string) : string :=
  ref_adjacency_prefix value field +:+ escape source.
Definition ref_source_prefix (source field : string) : string :=
  REF_SOURCE +:+ escape source +:+ "#" +:+ escape field +:+ "#".
Definition ref_source_key (source field value : string) : string :=
  ref_source_prefix source field +:+ escape value.

Module TableLayout.
Record TableLayout := Mk { key : list string; columns : list string; defaults : gmap string Cell }.
End TableLayout.
Abbreviation TableLayout := TableLayout.TableLayout (only parsing).

Definition default_of (t : TableLayout) (column : string) : Cell :=
  default Cell.Null (TableLayout.defaults t !! column).

Abbreviation Layout := (gmap string TableLayout) (only parsing).

(** What [pragma_table_info] says of a table; a default that is NULL is none. *)
Definition table_layout (def : TableDef) : TableLayout :=
  TableLayout.Mk (TableDef.primary_key def) (Column.name <$> TableDef.columns def)
    (list_to_map (omap (λ column,
       match Column.default column with
       | Cell.Null => None
       | cell => Some (Column.name column, cell)
       end) (TableDef.columns def))).

Fixpoint from_sqlite (schema : Schema) (tables : list string) : result LayoutError Layout :=
  match tables with
  | [] => Ok ∅
  | table :: tables =>
      match schema !! table with
      | None => Err (LayoutError.UnknownTable table)
      | Some def =>
          match find_first (λ column, bool_decide (column ∈ RESERVED)) (Column.name <$> TableDef.columns def) with
          | Some column => Err (LayoutError.ReservedColumn table column)
          | None => out <-? from_sqlite schema tables ;; Ok (<[table := table_layout def]> out)
          end
      end
  end.

(** ** Conditional writes *)
Module Cond.
Inductive Cond :=
| RowAbsent
| RowPresent
| Absent (attribute : string)
| Beats (columns : list string) (theirs : list Z) (wins : Wins)
| Any (parts : list Cond).
End Cond.
Abbreviation Cond := Cond.Cond (only parsing).

Module TableWrite.
Record TableWrite := Mk { sk : string; set : Cells; remove : list string; condition : option Cond }.
End TableWrite.
Abbreviation TableWrite := TableWrite.TableWrite (only parsing).

(** [Write::put]. *)
Definition put_row (sk : string) (set : Cells) : TableWrite := TableWrite.Mk sk set [] None.

Definition attribute_bytes (name : string) (cell : Cell) : N :=
  byte_len name + match cell with Cell.Null => 1 | Cell.Text v => byte_len v | Cell.Int _ => 21 end.

Definition sum_bytes (cells : Cells) : N := foldr N.add 0 ((λ c, attribute_bytes c.1 c.2) <$> cells).

Definition write_bytes (w : TableWrite) : N :=
  byte_len SK + byte_len (TableWrite.sk w) + sum_bytes (TableWrite.set w).

(** [Vec<i64>] is ordered column by column. *)
Fixpoint versions_lt (x y : list Z) : bool :=
  match x, y with
  | [], [] => false
  | [], _ => true
  | _, [] => false
  | a :: x, b :: y => (a <? b)%Z || ((a =? b)%Z && versions_lt x y)
  end.

Definition version_beats (theirs stored : list Z) (wins : Wins) : bool :=
  match wins with
  | Wins.Higher => versions_lt stored theirs
  | Wins.Lower => versions_lt theirs stored
  end.

Definition int_default (cell : Cell) : option Z := match cell with Cell.Int v => Some v | _ => None end.

(** What a register may be written on: no row, a version nobody wrote that theirs beats, or a lower one. *)
Definition register_cond (table : TableLayout) (version : list (string * Z)) (wins : Wins) : Cond :=
  let theirs := version.*2 in
  let columns := version.*1 in
  let defaults := default_of table <$> columns in
  let unwritten_wins :=
    existsb (λ d, bool_decide (int_default d = None)) defaults || version_beats theirs (omap int_default defaults) wins in
  Cond.Any (Cond.RowAbsent :: (if unwritten_wins then Cond.Absent <$> columns else []) ++
            [Cond.Beats columns theirs wins]).

Definition plan_condition (table : TableLayout) (effect : Effect) : option Cond :=
  match effect with
  | Effect.Ensure _ => Some Cond.RowAbsent
  | Effect.Put _ => None
  | Effect.Register _ version wins => Some (register_cond table version wins)
  end.

(** A NULL cell whose column defaults to NULL is removed, which reads the same. *)
Definition is_absent (table : TableLayout) (cell : string * Cell) : bool :=
  bool_decide (cell.2 = Cell.Null) && bool_decide (default_of table cell.1 = Cell.Null).

Definition null_as_absent (table : TableLayout) (cells : Cells) : Cells * list string :=
  (base.filter (λ c, is_absent table c = false) cells,
   (base.filter (λ c, is_absent table c = true) cells).*1).

Fixpoint check_columns (name : string) (table : TableLayout) (columns : list string) : result LayoutError unit :=
  match columns with
  | [] => Ok tt
  | column :: columns =>
      if bool_decide (column ∈ RESERVED) then Err (LayoutError.ReservedColumn name column)
      else if bool_decide (column ∈ TableLayout.columns table) then check_columns name table columns
      else Err (LayoutError.UnknownColumn name column)
  end.

Definition plan (layout : Layout) (change : Change) : result LayoutError TableWrite :=
  match layout !! Change.table change with
  | None => Err (LayoutError.UnknownTable (Change.table change))
  | Some table =>
      let effect := Change.effect change in
      let set := Change.key change ++ effect_cells effect ++ version_cells (effect_version effect) in
      _ <-? check_columns (Change.table change) table set.*1 ;;
      let '(set, remove) := null_as_absent table set in
      sk <-? row_sk (Change.table change) (Change.key change) ;;
      Ok (TableWrite.Mk sk set remove (plan_condition table effect))
  end.

(** ** A stream's partition in memory *)
Module MemTable.
Record MemTable := Mk { stream : string; rows : gmap string (gmap string Cell) }.
End MemTable.
Abbreviation MemTable := MemTable.MemTable (only parsing).

Module Outcome.
Inductive Outcome := Written | Kept | TooLarge.
End Outcome.
Abbreviation Outcome := Outcome.Outcome (only parsing).
Global Instance outcome_eq_dec : EqDecision Outcome.
Proof. solve_decision. Defined.

Fixpoint stored_version (columns : list string) (row : Row) : option (list Z) :=
  match columns with
  | [] => Some []
  | c :: columns =>
      match row !! c with
      | Some (Cell.Int v) => cons v <$> stored_version columns row
      | _ => None
      end
  end.

(** A comparison with an attribute that is absent or of another type is false. *)
Fixpoint holds (row : option Row) (cond : Cond) : bool :=
  match cond with
  | Cond.RowAbsent => negb (if row then true else false)
  | Cond.RowPresent => if row then true else false
  | Cond.Absent a => match row with None => true | Some row => bool_decide (row !! a = None) end
  | Cond.Beats columns theirs wins =>
      match row with
      | None => false
      | Some row =>
          match stored_version columns row with
          | None => false
          | Some stored => negb (bool_decide (columns = [])) && version_beats theirs stored wins
          end
      end
  | Cond.Any parts => existsb (holds row) parts
  end.

Definition fresh_row (stream sk : string) : Row := <[PK := Cell.Text stream]> {[SK := Cell.Text sk]}.

Definition written_row (stream : string) (w : TableWrite) (row : option Row) : Row :=
  foldl (λ row a, delete a row)
    (set_cells (TableWrite.set w) (default (fresh_row stream (TableWrite.sk w)) row)) (TableWrite.remove w).

Definition get (t : MemTable) (sk : string) : option Row := MemTable.rows t !! sk.

Definition write (w : TableWrite) (t : MemTable) : MemTable * Outcome :=
  let '(MemTable.Mk stream rows) := t in
  let stored := rows !! TableWrite.sk w in
  if match TableWrite.condition w with Some cond => holds stored cond | None => true end then
    let row := written_row stream w stored in
    if MAX_ITEM_BYTES <? sum_bytes (map_to_list row) then (t, Outcome.TooLarge)
    else (MemTable.Mk stream (<[TableWrite.sk w := row]> rows), Outcome.Written)
  else (t, Outcome.Kept).

Definition delete_row (sk : string) (t : MemTable) : MemTable :=
  let '(MemTable.Mk stream rows) := t in MemTable.Mk stream (delete sk rows).

(** Every row in the order of the sort keys. *)
Definition rows_in_order (t : MemTable) : list (string * Row) :=
  omap (λ sk, pair sk <$> MemTable.rows t !! sk) (sorted_keys (MemTable.rows t)).

(** The range from a prefix on that starts with it. *)
Definition query_prefix (t : MemTable) (prefix : string) : list Row :=
  (base.filter (λ r, starts_with prefix r.1 = true) (rows_in_order t)).*2.

Definition query_attribute (t : MemTable) (attribute partition : string) : list Row :=
  base.filter (λ row, row !! attribute = Some (Cell.Text partition)) (rows_in_order t).*2.

Definition query_active (t : MemTable) : list Row := query_attribute t ACTIVE (MemTable.stream t).

Definition query_typed (t : MemTable) (item_type : string) : list Row :=
  query_attribute t TYPED (typed_partition (MemTable.stream t) item_type).

Module Dated.
Inductive Dated := Closed | Archived.
End Dated.
Abbreviation Dated := Dated.Dated (only parsing).
Global Instance dated_eq_dec : EqDecision Dated.
Proof. solve_decision. Defined.
Definition dated_partition (lane : Dated) (stream : string) : string :=
  match lane with Dated.Closed => stream +:+ "#closed" | Dated.Archived => stream +:+ "#archived" end.

(** A stable sort by the key, the highest first. *)
Fixpoint insert_newest (at_ : Row → string) (row : Row) (rows : list Row) : list Row :=
  match rows with
  | [] => [row]
  | r :: rows => if String.leb (at_ row) (at_ r) then r :: insert_newest at_ row rows else row :: r :: rows
  end.

Definition row_text (row : Row) (column : string) : option string :=
  match row !! column with Some (Cell.Text v) => Some v | _ => None end.
Definition row_int (row : Row) (column : string) : option Z :=
  match row !! column with Some (Cell.Int v) => Some v | _ => None end.

Definition query_dated (t : MemTable) (lane : Dated) (limit : option nat) : list Row :=
  let at_ row := default "" (row_text row DATED_AT) in
  let rows := foldl (λ rows row, insert_newest at_ row rows) []
    (query_attribute t DATED (dated_partition lane (MemTable.stream t))) in
  match limit with Some n => take n rows | None => rows end.
