(* ===== verification/ServerFold.v ===== *)
(** * The fold of a server

    [fold-ddb/src/board.rs] and [fold.rs]: every change of an operation carried out as a conditional write,
    the indexes of the board kept beside the rows, the watermark, and the reads of the board. The requests are
    those of a table that answers; each is a function of the partition, which is passed through. *)

From S2P Require Import Prelude Text Utf8 OpModel Changes Tasks BoardViews Graph Server.
From stdpp Require Import options.
From Stdlib Require Import Ascii.

(** ** Changes *)

(** The text of the first cell of a column that holds one. *)
Definition cell_text (column : string) (cells : Cells) : option string :=
  find_map (λ '(c, v), match v with Cell.Text t => if bool_decide (c = column) then Some t else None | _ => None end)
    cells.
Definition key_text (change : Change) (column : string) : option string := cell_text column (Change.key change).
Definition effect_text (change : Change) (column : string) : option string :=
  cell_text column (effect_cells (Change.effect change)).

Definition REMOVED : string := "removed".

(** ** Entries under a ticket *)
Module Owned.
Record Owned := Mk {
  adds : string;
  removes : string;
  owner : string;
  only : option (string * string);
  key : string → string → string;
  copies : list string;
}.
End Owned.
Abbreviation Owned := Owned.Owned (only parsing).

Definition LABELS : Owned := Owned.Mk "label_adds" "label_removes" "item_id" None label_adjacency_key ["label"].
Definition LINKS : Owned :=
  Owned.Mk "thread_link_adds" "thread_link_removes" "item_id" None link_adjacency_key
    ["thread_id"; "weight"; "lamport"; "site"].
Definition CONTRIBUTES : Owned :=
  Owned.Mk "edge_adds" "edge_removes" "from_id" (Some ("kind", "contributes_to")) contributes_adjacency_key ["to_id"].
Definition OWNED : list Owned := [LABELS; LINKS; CONTRIBUTES].

Definition files (owned : Owned) (cell : string → option string) : bool :=
  match Owned.only owned with
  | None => true
  | Some (column, value) => bool_decide (cell column = Some value)
  end.

(** The cells of a row that are there. *)
Definition copied (row : Row) (columns : list string) : Cells :=
  omap (λ column, match row !! column with
                  | None | Some Cell.Null => None
                  | Some cell => Some (column, cell)
                  end) columns.

Definition flag (b : bool) : Cell := Cell.Int (if b then 1 else 0).

Definition owned_write (owned : Owned) (add : Row) (tag : string) (removed : bool) : option TableWrite :=
  if files owned (row_text add) then
    item ← row_text add (Owned.owner owned);
    Some (put_row (Owned.key owned item tag)
      (("tag", Cell.Text tag) :: copied add (Owned.copies owned) ++ [(REMOVED, flag removed)]))
  else None.

Definition item_key (id : string) : string := "items#" +:+ escape id.
Definition tag_key (table tag : string) : string := table_prefix table +:+ escape tag.

Definition has_row (t : MemTable) (sk : string) : bool := if get t sk then true else false.

Definition refresh_owned_add (owned : Owned) (add : Row) (tag : string) (t : MemTable) : MemTable :=
  if negb (files owned (row_text add)) then t else
  match owned_write owned add tag (has_row t (tag_key (Owned.removes owned) tag)) with
  | Some w => (write w t).1
  | None => t
  end.

Definition refresh_owned (owned : Owned) (tag : string) (t : MemTable) : MemTable :=
  match get t (tag_key (Owned.adds owned) tag) with
  | None => t
  | Some add => refresh_owned_add owned add tag t
  end.

Definition owned_entry_key (change : Change) : option string :=
  owned ← find_first (λ o, bool_decide (Owned.adds o = Change.table change)) OWNED;
  if files owned (effect_text change) then
    item ← effect_text change (Owned.owner owned);
    tag ← key_text change "tag";
    Some (Owned.key owned item tag)
  else None.

(** ** The index attributes of an item *)
Definition is_active_row (row : Row) : bool :=
  is_active (row_text row "deleted") (row_text row "archived") (row_text row "status").

Definition typed (row : Row) : option string :=
  if bool_decide (row_text row "deleted" = Some "1") then None else row_text row "type".

Definition typed_partitions (stream : string) (changes : list Change) : list string :=
  typed_partition stream <$>
    omap (λ c, effect_text c "type") (base.filter (λ c, Change.table c = "items") changes).

Definition lane_at (v : option string) : string :=
  match v with Some v => if is_empty v then "0" else v | None => "0" end.

Definition lane (row : Row) : option (Dated * string) :=
  if bool_decide (row_text row "deleted" = Some "1") then None
  else match row_text row "archived" with
       | Some archived => Some (Dated.Archived, lane_at (Some archived))
       | None =>
           if bool_decide (row_text row "status" = Some "closed")
           then Some (Dated.Closed, lane_at (row_text row "closed_at")) else None
       end.

Definition dated_key (at_ id : string) : string :=
  let key := at_ +:+ String SEP id in
  if byte_len key <=? MAX_KEY_BYTES then key else "0" +:+ String SEP id.

Definition index_attributes (stream id : string) (row : Row) : Cells :=
  (if is_active_row row then [(ACTIVE, Cell.Text stream)] else []) ++
  match typed row with Some ty => [(TYPED, Cell.Text (typed_partition stream ty))] | None => [] end ++
  match lane row with
  | Some (l, at_) => [(DATED, Cell.Text (dated_partition l stream)); (DATED_AT, Cell.Text (dated_key at_ id))]
  | None => []
  end.

Definition indexed_bytes (stream id : string) (row : Row) : N :=
  sum_bytes (base.filter (λ c, c.1 ∉ [ACTIVE; TYPED; DATED; DATED_AT]) (map_to_list row)) +
  sum_bytes (index_attributes stream id row).

(** ** Edges *)
Definition EDGE_COPIES : list string := ["from_id"; "to_id"; "kind"; "lamport"; "site"].

(** The ends of an edge that are there. *)
Definition edge_ends (edge : Row) : list string := omap (row_text edge) ["from_id"; "to_id"].

Definition write_adjacency (tag : string) (edge : Row) (removed : bool) (t : MemTable) : MemTable :=
  let set := ("tag", Cell.Text tag) :: copied edge EDGE_COPIES ++ [(REMOVED, flag removed)] in
  foldl (λ t end_, (write (put_row (adjacency_key end_ tag) set) t).1) t
    (sorted_set (list_to_set (edge_ends edge))).

Definition is_indexed (edge : Row) : bool :=
  match kind ← row_text edge "kind"; EdgeKind_parse kind with
  | Some (EdgeKind.Dep | EdgeKind.Parent) => true
  | _ => false
  end.

(** Whether an end is active: by what the caller knows, or by its stored flag. *)
Definition end_active (t : MemTable) (known : option (string * bool)) (end_ : string) : bool :=
  let stored := match get t (item_key end_) with Some r => bool_decide (is_Some (r !! ACTIVE)) | None => false end in
  match known with
  | Some (id, active) => if bool_decide (id = end_) then active else stored
  | None => stored
  end.

Definition flag_edge (tag : string) (edge : Row) (removed : option bool) (known : option (string * bool))
    (t : MemTable) : MemTable :=
  let flagged :=
    is_indexed edge &&
    match removed with Some removed => negb removed | None => negb (has_row t (tag_key "edge_removes" tag)) end &&
    existsb (end_active t known) (edge_ends edge) in
  if Bool.eqb flagged (bool_decide (is_Some (edge !! ACTIVE))) then t
  else
    let '(set, remove) := if flagged then ([(ACTIVE, Cell.Text (MemTable.stream t))], []) else ([], [ACTIVE]) in
    (write (TableWrite.Mk (tag_key "edge_adds" tag) set remove (Some Cond.RowPresent)) t).1.

Definition link_edge (tag : string) (t : MemTable) : MemTable :=
  match get t (tag_key "edge_adds" tag) with
  | None => t
  | Some edge =>
      let removed := has_row t (tag_key "edge_removes" tag) in
      flag_edge tag edge (Some removed) None (write_adjacency tag edge removed t)
  end.

(** The edges of a ticket whose activity flipped. *)
Definition flag_entry (id : string) (active : bool) (t : MemTable) (entry : Row) : MemTable :=
  match row_text entry "tag" with
  | None => t
  | Some tag =>
      match get t (tag_key "edge_adds" tag) with
      | None => t
      | Some edge => flag_edge tag edge None (Some (id, active)) t
      end
  end.

(** An index attribute as the row calls for it against the one it has: what to set and what to remove. *)
Definition moved (names : list string) (now was : option (list string)) : Cells * list string :=
  if bool_decide (now = was) then ([], [])
  else match now with
       | Some vs => (zip names (Cell.Text <$> vs), [])
       | None => ([], names)
       end.

Definition refresh_item (id : string) (t : MemTable) : MemTable * option Outcome :=
  let sk := item_key id in
  match get t sk with
  | None => (t, None)
  | Some row =>
      let stream := MemTable.stream t in
      let active := is_active_row row in
      let was_active := bool_decide (is_Some (row !! ACTIVE)) in
      let t := if Bool.eqb active was_active then t
               else foldl (flag_entry id active) t (query_prefix t (adjacency_prefix id)) in
      let '(set1, remove1) :=
        if Bool.eqb active was_active then ([], [])
        else if active then ([(ACTIVE, Cell.Text stream)], []) else ([], [ACTIVE]) in
      let '(set2, remove2) := moved [TYPED]
        ((λ ty, [typed_partition stream ty]) <$> typed row) ((λ v, [v]) <$> row_text row TYPED) in
      let '(set3, remove3) := moved [DATED; DATED_AT]
        ((λ '(l, at_), [dated_partition l stream; dated_key at_ id]) <$> lane row)
        (p ← row_text row DATED; at_ ← row_text row DATED_AT; Some [p; at_]) in
      let set := set1 ++ set2 ++ set3 in
      let remove := remove1 ++ remove2 ++ remove3 in
      if bool_decide (set = []) && bool_decide (remove = []) then (t, None)
      else
        let '(t, outcome) := write (TableWrite.Mk sk set remove (Some Cond.RowPresent)) t in
        (t, Some outcome)
  end.

(** ** Reverse references *)
Definition ref_cells (source field value : string) : Cells :=
  [("target_id", Cell.Text value); ("field", Cell.Text field); ("source_id", Cell.Text source)].

(** The key of the register of a place, and the prefix of its entries. *)
Definition place_keys (item field : string) : string * string :=
  let place := escape item +:+ "#" +:+ escape field in
  ("custom_fields#" +:+ place, "field_entries#" +:+ place +:+ "#").

Definition present_entry (row : Row) : option string :=
  let removed := match row !! REMOVED with Some (Cell.Int v) => negb (v =? 0)%Z | _ => false end in
  if negb removed && some (row_text row "tag") then row_text row "value" else None.

Definition link_ref (source field value : string) (st : MemTable * list string) : MemTable * list string :=
  let '(t, unwritten) := st in
  let cells := ref_cells source field value in
  let hint := ref_adjacency_key value field source in
  let '(t, o) := write (put_row hint cells) t in
  if bool_decide (o = Outcome.TooLarge) then (t, unwritten ++ [hint]) else
  let mirror := ref_source_key source field value in
  let '(t, o) := write (put_row mirror cells) t in
  (t, if bool_decide (o = Outcome.TooLarge) then unwritten ++ [mirror] else unwritten).

Definition unlink_ref (source field value : string) (t : MemTable) : MemTable :=
  delete_row (ref_source_key source field value) (delete_row (ref_adjacency_key value field source) t).

(** The values the rows of a place warrant a hint for. *)
Definition wanted_refs (item field : string) (t : MemTable) : gset string :=
  let '(register, entries) := place_keys item field in
  let single := match get t register with Some row => option_list (row_text row "value") | None => [] end in
  let listed := omap (λ row,
    if bool_decide (row_text row "item_id" = Some item) && bool_decide (row_text row "field" = Some field)
    then present_entry row else None) (query_prefix t entries) in
  list_to_set (base.filter (λ v, ref_place_ok item field v = true) (single ++ listed)).

Definition reconcile_refs (item field : string) (touched : bool) (t : MemTable) : MemTable * list string :=
  let hinted : gset string :=
    list_to_set (omap (λ row, row_text row "target_id") (query_prefix t (ref_source_prefix item field))) in
  if bool_decide (hinted = ∅) && negb touched then (t, []) else
  let wanted := wanted_refs item field t in
  let '(t, unwritten) := foldl (λ st v, link_ref item field v st) (t, []) (sorted_set (wanted ∖ hinted)) in
  (foldl (λ t v, unlink_ref item field v t) t (sorted_set (hinted ∖ wanted)), unwritten).

(** ** After the changes of an operation *)

(** A set of pairs in order. *)
Definition pair_le (x y : string * string) : Prop :=
  (bool_decide (x.1 = y.1) && String.leb x.2 y.2) || (negb (bool_decide (x.1 = y.1)) && String.leb x.1 y.1) = true.
Global Instance pair_le_dec : RelDecision pair_le.
Proof. intros x y. unfold pair_le. apply _. Defined.
Definition sorted_pairs (s : gset (string * string)) : list (string * string) := merge_sort pair_le (elements s).

Definition changed_keys (table column : string) (changes : list Change) : gset string :=
  list_to_set (omap (λ c, if bool_decide (Change.table c = table) then key_text c column else None) changes).

(** The tags of one kind of add whose entry may have changed. *)
Definition owned_tags (index : nat) (changes : list Change) : gset string :=
  list_to_set (omap (λ c,
    match position (λ o, bool_decide (Owned.adds o = Change.table c) || bool_decide (Owned.removes o = Change.table c)) OWNED with
    | Some at_ =>
        if bool_decide (at_ = index) then
          match OWNED !! index with
          | Some owned =>
              if negb (bool_decide (Change.table c = Owned.adds owned)) || files owned (effect_text c)
              then key_text c "tag" else None
          | None => None
          end
        else None
    | None => None
    end) changes).

(** The places a change touched a custom value of. *)
Definition place_of (c : Change) : option (string * string) :=
  if bool_decide (Change.table c = "custom_fields") || bool_decide (Change.table c = "field_entries") then
    item ← key_text c "item_id"; field ← key_text c "field"; Some (item, field)
  else None.

Definition admits (item field : string) (c : Change) : bool :=
  bool_decide (place_of c = Some (item, field)) &&
  match effect_text c "value" with Some v => ref_place_ok item field v | None => false end.

Module Unwritten.
Inductive Unwritten := IndexAttributes (id : string) | ReferenceRow (sk : string).
End Unwritten.
Abbreviation Unwritten := Unwritten.Unwritten (only parsing).

Definition refresh_items (ids : list string) (t : MemTable) : MemTable * list Unwritten :=
  foldl (λ '(t, unwritten) id,
    let '(t, outcome) := refresh_item id t in
    (t, if bool_decide (outcome = Some Outcome.TooLarge) then unwritten ++ [Unwritten.IndexAttributes id] else unwritten))
    (t, []) ids.

Definition after (changes : list Change) (t : MemTable) : MemTable * list Unwritten :=
  let '(t, unwritten) := refresh_items (sorted_set (changed_keys "items" "id" changes)) t in
  let t := foldl (λ t tag, link_edge tag t) t (sorted_set (changed_keys "edge_adds" "tag" changes)) in
  let t := foldl (λ t tag, link_edge tag t) t (sorted_set (changed_keys "edge_removes" "tag" changes)) in
  let t := foldl (λ t '(index, owned), foldl (λ t tag, refresh_owned owned tag t) t (sorted_set (owned_tags index changes)))
    t (imap pair OWNED) in
  foldl (λ '(t, unwritten) '(item, field),
    let '(t, sks) := reconcile_refs item field (existsb (admits item field) changes) t in
    (t, unwritten ++ (Unwritten.ReferenceRow <$> sks)))
    (t, unwritten) (sorted_pairs (list_to_set (omap place_of changes))).

Definition derived_keys (changes : list Change) : list string :=
  flat_map (λ c,
    if bool_decide (Change.table c = "edge_adds") then
      (λ end_, adjacency_key end_ (default "" (key_text c "tag"))) <$> omap (effect_text c) ["from_id"; "to_id"]
    else []) changes ++ omap owned_entry_key changes.

(** ** Recomputing the indexes *)
Definition wanted_everywhere (t : MemTable) : gset (string * string * string) :=
  let want value row := item ← row_text row "item_id"; field ← row_text row "field"; v ← value row;
    if ref_place_ok item field v then Some (item, field, v) else None in
  list_to_set (omap (want (λ row, row_text row "value")) (query_prefix t "custom_fields#") ++
               omap (want present_entry) (query_prefix t "field_entries#")).

Definition carries (row : option Row) (cells : Cells) : bool :=
  match row with Some row => forallb (λ c, bool_decide (row !! c.1 = Some c.2)) cells | None => false end.

(** A set of triples in order. *)
Definition triple_le (x y : string * string * string) : Prop :=
  let '(a, b, c) := x in
  let '(a', b', c') := y in
  (if bool_decide (a = a') then if bool_decide (b = b') then String.leb c c' else String.leb b b' else String.leb a a') = true.
Global Instance triple_le_dec : RelDecision triple_le.
Proof. intros [[a b] c] [[a' b'] c']. unfold triple_le. apply _. Defined.

(** Rows by the key they hold. *)
Definition stored_by_key (rows : list Row) : gmap string (gmap string Cell) :=
  foldl (λ m row, match row_text row SK with Some sk => <[sk := row]> m | None => m end) ∅ rows.

Definition reindex_refs (t : MemTable) : MemTable * list string :=
  let wanted := merge_sort triple_le (elements (wanted_everywhere t)) in
  let hints := stored_by_key (query_prefix t ".radj#") in
  let mirrors := stored_by_key (query_prefix t ".rsrc#") in
  let '(t, unwritten) := foldl (λ st '(item, field, v),
    if negb (carries (hints !! ref_adjacency_key v field item) (ref_cells item field v)) ||
       negb (carries (mirrors !! ref_source_key item field v) (ref_cells item field v))
    then link_ref item field v st else st) (t, []) wanted in
  let backed : gset string :=
    list_to_set (flat_map (λ '(item, field, v), [ref_adjacency_key v field item; ref_source_key item field v]) wanted) in
  (foldl (λ t sk, if bool_decide (sk ∈ backed) then t else delete_row sk t) t (sorted_keys hints ++ sorted_keys mirrors),
   unwritten).

Definition reindex (t : MemTable) : MemTable * list string :=
  let '(t, unindexed) := foldl (λ '(t, unindexed) row,
    match row_text row "id" with
    | Some id =>
        let '(t, outcome) := refresh_item id t in
        (t, if bool_decide (outcome = Some Outcome.TooLarge) then unindexed ++ [id] else unindexed)
    | None => (t, unindexed)
    end) (t, []) (query_prefix t (table_prefix "items")) in
  let t := foldl (λ t row, match row_text row "tag" with Some tag => link_edge tag t | None => t end) t
    (query_prefix t (table_prefix "edge_adds")) in
  let t := foldl (λ t owned, foldl (λ t row,
      match row_text row "tag" with Some tag => refresh_owned_add owned row tag t | None => t end) t
      (query_prefix t (table_prefix (Owned.adds owned)))) t OWNED in
  let '(t, sks) := reindex_refs t in
  (t, unindexed ++ sks).

(** ** The selection of a hosted board *)
Module Selection.
Record Selection := Mk {
  items : gmap string (gmap string Cell);
  board : Board;
  parents : gmap string string;
}.
End Selection.
Abbreviation Selection := Selection.Selection (only parsing).

Definition selected_item (row : Row) : option (string * Row) :=
  if starts_with "items#" (default "" (row_text row SK)) then
    id ← row_text row "id";
    if is_active_row row then Some (id, row) else None
  else None.

Definition selected_edge (row : Row) : option (Edge * (Z * Z * string)) :=
  let sk := default "" (row_text row SK) in
  if negb (starts_with "items#" sk) && starts_with "edge_adds#" sk then
    from ← row_text row "from_id"; to ← row_text row "to_id"; kind ← row_text row "kind";
    kind ← EdgeKind_parse kind;
    Some (Edge.Mk from to kind,
          (default (-1)%Z (row_int row "lamport"), default (-1)%Z (row_int row "site"), to))
  else None.

(** The highest coordinate of a child's parent edges. *)
Definition better_parent (best : gmap string (Z * Z * string)) (e : Edge * (Z * Z * string)) :
    gmap string (Z * Z * string) :=
  if bool_decide (Edge.kind e.1 = EdgeKind.Parent) then
    let child := Edge.from e.1 in
    match best !! child with
    | None => <[child := e.2]> best
    | Some b => if rank_lt b e.2 then <[child := e.2]> best else best
    end
  else best.

Definition select_active (t : MemTable) : Selection :=
  let rows := query_active t in
  let items := omap selected_item rows in
  let edges := omap selected_edge rows in
  let item_map : gmap string Row := foldl (λ m '(id, row), <[id := row]> m) ∅ items in
  Selection.Mk item_map
    (new_board
       ((λ '(id, row), Ticket.Mk id (bool_decide (row_text row "status" = Some "in_progress"))
                         (row_text row "defer_until")) <$> items)
       edges.*1)
    ((λ c, c.2) <$> base.filter (λ p, is_Some (item_map !! p.1)) (foldl better_parent ∅ edges)).

(** ** The fold run *)
Module Reason.
Inductive Reason :=
| LongKey (bytes : N)
| LongPartition (bytes : N)
| LargeRow (bytes : N)
| LargeItem (id : string) (bytes : N)
| KeptRows (sks : list string) (unwritten : list Unwritten).
End Reason.
Abbreviation Reason := Reason.Reason (only parsing).

Module FoldResult.
Inductive FoldResult := Folded | NotFolded | Refused (op_id : string) (reason : Reason).
End FoldResult.
Abbreviation FoldResult := FoldResult.FoldResult (only parsing).

Module Folder.
Record Folder := Mk { reducers : list Reducer; layout : gmap string TableLayout }.
End Folder.
Abbreviation Folder := Folder.Folder (only parsing).

Definition folder_changes (folder : Folder) (op : Op) : list Change :=
  match folder_for (Folder.reducers folder) op with
  | Some r => Reducer.changes r op
  | None => []
  end.

Fixpoint plan_all (layout : Layout) (changes : list Change) : result LayoutError (list TableWrite) :=
  match changes with
  | [] => Ok []
  | c :: changes => w <-? plan layout c ;; ws <-? plan_all layout changes ;; Ok (w :: ws)
  end.

(** What each item row the writes touch would weigh with its index attributes. *)
Definition weighed (t : MemTable) (rows : gmap string (gmap string Cell)) (w : TableWrite) :
    gmap string (gmap string Cell) :=
  if starts_with "items#" (TableWrite.sk w) then
    let stored := match rows !! TableWrite.sk w with Some row => Some row | None => get t (TableWrite.sk w) end in
    <[TableWrite.sk w := written_row (MemTable.stream t) w stored]> rows
  else rows.

Definition item_bytes (t : MemTable) (writes : list TableWrite) : list (string * N) :=
  let rows := foldl (weighed t) ∅ writes in
  (λ '(_, row), let id := default "" (row_text row "id") in (id, indexed_bytes (MemTable.stream t) id row)) <$>
    omap (λ sk, pair sk <$> rows !! sk) (sorted_keys rows).

(** Why an operation is refused before it writes anything. *)
Definition refusal (t : MemTable) (changes : list Change) (writes : list TableWrite) : option Reason :=
  match find_first (λ k, MAX_KEY_BYTES <? byte_len k) ((TableWrite.sk <$> writes) ++ derived_keys changes) with
  | Some k => Some (Reason.LongKey (byte_len k))
  | None =>
  match find_first (λ p, MAX_PARTITION_BYTES <? byte_len p) (typed_partitions (MemTable.stream t) changes) with
  | Some p => Some (Reason.LongPartition (byte_len p))
  | None =>
  match find_first (λ w, MAX_ITEM_BYTES <? write_bytes w) writes with
  | Some w => Some (Reason.LargeRow (write_bytes w))
  | None =>
  match find_first (λ i, MAX_ITEM_BYTES <? i.2) (item_bytes t writes) with
  | Some (id, bytes) => Some (Reason.LargeItem id bytes)
  | None => None
  end end end end.

Definition write_all (writes : list TableWrite) (t : MemTable) : MemTable * list string :=
  foldl (λ '(t, too_large) w,
    let '(t, o) := write w t in
    (t, if bool_decide (o = Outcome.TooLarge) then too_large ++ [TableWrite.sk w] else too_large))
    (t, []) writes.

Definition fold (folder : Folder) (op : Op) (t : MemTable) : MemTable * result LayoutError FoldResult :=
  let changes := folder_changes folder op in
  if bool_decide (length changes = 0%nat) then (t, Ok FoldResult.NotFolded) else
  match plan_all (Folder.layout folder) changes with
  | Err e => (t, Err e)
  | Ok writes =>
      match refusal t changes writes with
      | Some reason => (t, Ok (FoldResult.Refused (Op.op_id op) reason))
      | None =>
          let '(t, too_large) := write_all writes t in
          let '(t, unwritten) := after changes t in
          (t, Ok (if bool_decide (too_large = []) && bool_decide (length unwritten = 0%nat) then FoldResult.Folded
                  else FoldResult.Refused (Op.op_id op) (Reason.KeptRows too_large unwritten)))
      end
  end.

(** ** The watermark *)
Definition INDEX_DOMAIN : string := "index".
Definition REFOLD_UNTIL : string := "refold_until".
Definition INDEX_REVISION : Z := 4.

Module FoldMark.
Record FoldMark := Mk { folded_through : Z; revisions : gmap string Z; refold_until : option Z }.
End FoldMark.
Abbreviation FoldMark := FoldMark.FoldMark (only parsing).

Definition reducer_revisions (folder : Folder) : gmap string Z :=
  foldl (λ m r, <[Reducer.domain r := Reducer.fold_revision r]> m) ∅ (Folder.reducers folder).
Definition revisions (folder : Folder) : gmap string Z := <[INDEX_DOMAIN := INDEX_REVISION]> (reducer_revisions folder).

Definition revision_cells (folder : Folder) : Cells :=
  omap (λ domain, (λ rev, ("revision_" +:+ domain, Cell.Int rev)) <$> revisions folder !! domain)
    (sorted_keys (revisions folder)).

Definition advance (folder : Folder) (through : Z) (t : MemTable) : MemTable * Outcome :=
  write (TableWrite.Mk WATERMARK_KEY (("folded_through", Cell.Int through) :: revision_cells folder) []
    (Some (Cond.Any [Cond.RowAbsent; Cond.Beats ["folded_through"] [through] Wins.Higher]))) t.

Definition sentinel (folded_through : Z) (until : option Z) : TableWrite :=
  put_row WATERMARK_KEY (("folded_through", Cell.Int folded_through) ::
    match until with Some u => [(REFOLD_UNTIL, Cell.Int u)] | None => [] end).

Definition stamp (folder : Folder) (through : Z) : TableWrite :=
  TableWrite.Mk WATERMARK_KEY (("folded_through", Cell.Int through) :: revision_cells folder) [REFOLD_UNTIL] None.

Definition mark_revisions (row : Row) : gmap string Z :=
  list_to_map (omap (λ '(a, c), match c with
    | Cell.Int v => (λ domain, (domain, v)) <$> strip_prefix "revision_" a
    | _ => None
    end) (map_to_list row)).

Definition watermark (t : MemTable) : option FoldMark :=
  (λ row, FoldMark.Mk (default 0%Z (row_int row "folded_through")) (mark_revisions row) (row_int row REFOLD_UNTIL)) <$>
    get t WATERMARK_KEY.

Definition is_current (folder : Folder) (mark : FoldMark) : bool :=
  bool_decide (FoldMark.revisions mark = revisions folder).

(** The position of a batch is the highest of its operations. *)
Definition last_position (ops : list (Z * Op)) : option Z :=
  match ops with
  | [] => None
  | (seq, _) :: ops => Some (foldl (λ m p, Z.max m p.1) seq ops)
  end.

Fixpoint fold_ops (folder : Folder) (ops : list (Z * Op)) (t : MemTable) :
    MemTable * result LayoutError (list (string * Reason)) :=
  match ops with
  | [] => (t, Ok [])
  | (_, op) :: ops =>
      match fold folder op t with
      | (t, Err e) => (t, Err e)
      | (t, Ok folded) =>
          let '(t, refused) := fold_ops folder ops t in
          (t, refused <-? refused ;;
              Ok (match folded with FoldResult.Refused id reason => (id, reason) :: refused | _ => refused end))
      end
  end.

Definition fold_batch (folder : Folder) (ops : list (Z * Op)) (t : MemTable) :
    MemTable * result LayoutError (list (string * Reason)) :=
  match fold_ops folder ops t with
  | (t, Err e) => (t, Err e)
  | (t, Ok refused) =>
      match last_position ops with
      | Some through => ((advance folder through t).1, Ok refused)
      | None => (t, Ok refused)
      end
  end.

Definition clear (until : Z) (t : MemTable) : MemTable :=
  let rows := query_prefix t "" in
  let stale := match find_first (λ r, bool_decide (row_text r SK = Some WATERMARK_KEY)) rows with
               | Some mark => base.filter (λ a, starts_with "revision_" a = true) (map_to_list mark).*1
               | None => []
               end in
  let w := sentinel 0 (Some until) in
  let t := (write (TableWrite.Mk (TableWrite.sk w) (TableWrite.set w) stale (TableWrite.condition w)) t).1 in
  foldl (λ t row, match row_text row SK with
                  | Some sk => if bool_decide (sk = WATERMARK_KEY) then t else delete_row sk t
                  | None => t
                  end) t rows.
