(* ===== verification/ServerFacts.v ===== *)
(** * The rows of a server fold

    A sort key says which row of which table it is, a planned write does to a stored row what the SQLite
    applier does to the row it reads as, and so a folded partition holds the views of the log. *)

From S2P Require Import Prelude Text Utf8 OpModel Changes Tasks ChangeFacts OpStore LogFacts Convergence TaskFacts BoardViews Graph Server ServerFold.
From stdpp Require Import options.
From Stdlib Require Import Ascii.

(** ** Keys *)
Definition hash : ascii := "#"%char.
Abbreviation plain_part := (λ part, contains_char hash part = false) (only parsing).
Abbreviation path := (join hash) (only parsing).

Lemma join_cons c (part : string) (parts : list string) :
  parts ≠ [] → join c (part :: parts) = part +:+ String c (join c parts).
Proof. by destruct parts. Qed.

Lemma join_app c (p q : list string) :
  p ≠ [] → q ≠ [] → join c (p ++ q) = join c p +:+ String c (join c q).
Proof.
  intros Hp Hq. induction p as [|x [|y p] IH]; [done|by apply join_cons|].
  change ((x :: y :: p) ++ q) with (x :: (y :: p) ++ q). rewrite !join_cons by done.
  rewrite IH by done. by rewrite <-string_app_assoc.
Qed.

Lemma join_split c (s : string) : join c (split_on c s) = s.
Proof.
  induction s as [|a s IH]; simpl; [done|]. case_bool_decide as Ha.
  - rewrite join_cons by apply split_on_nonempty. by rewrite IH, Ha.
  - destruct (split_on c s) as [|part parts] eqn:E; [by apply split_on_nonempty in E|].
    destruct parts; [simpl in *; by rewrite IH|]. rewrite join_cons in IH |- * by done.
    by rewrite <-IH.
Qed.

Lemma split_parts c (s : string) : Forall (λ part, contains_char c part = false) (split_on c s).
Proof.
  induction s as [|a s IH]; simpl; [by repeat constructor|]. case_bool_decide as Ha; [by constructor|].
  destruct (split_on c s) as [|part parts] eqn:E; [by apply split_on_nonempty in E|].
  apply Forall_cons in IH as [Hp IH]. constructor; [|done]. simpl. by rewrite bool_decide_eq_false_2.
Qed.

Lemma path_inj (p q : list string) :
  p ≠ [] → q ≠ [] → Forall plain_part p → Forall plain_part q → path p = path q → p = q.
Proof. intros Hp Hq Fp Fq E. rewrite <-(split_join hash p), <-(split_join hash q), E by done. done. Qed.

(** A prefix that ends in a separator is a prefix of the parts. *)
Lemma starts_with_path (p q : list string) :
  p ≠ [] → q ≠ [] → Forall plain_part p → Forall plain_part q →
  starts_with (path p +:+ "#") (path q) = true ↔ ∃ rest, rest ≠ [] ∧ q = p ++ rest.
Proof.
  intros Hp Hq Fp Fq. unfold starts_with. rewrite bool_decide_eq_true. split.
  - intros [s Hs]. apply strip_prefix_Some in Hs. exists (split_on hash s). split; [apply split_on_nonempty|].
    apply path_inj; [done|by destruct p|done|apply Forall_app; split; [done|apply split_parts]|].
    rewrite join_app by (done || apply split_on_nonempty). by rewrite join_split, Hs, <-string_app_assoc.
  - intros (rest & Hr & ->). rewrite join_app by done. exists (path rest).
    change (String hash (path rest)) with ("#" +:+ path rest). by rewrite string_app_assoc, strip_prefix_app.
Qed.

(** *** Escaping *)
Definition escape_char (a : ascii) : string :=
  if decide (a = "%"%char) then "%25" else if decide (a = hash) then "%23" else String a "".

Lemma replace_char_app c by_ (x y : string) :
  replace_char c by_ (x +:+ y) = replace_char c by_ x +:+ replace_char c by_ y.
Proof.
  induction x as [|a x IH]; simpl; [done|]. rewrite IH. destruct (decide (a = c)); [by rewrite string_app_assoc|done].
Qed.

Lemma escape_cons a s : escape (String a s) = escape_char a +:+ escape s.
Proof.
  unfold escape, escape_char, hash. cbn [replace_char]. destruct (decide (a = "%"%char)) as [->|Ha].
  - rewrite replace_char_app. done.
  - cbn [replace_char]. by destruct (decide (a = "#"%char)).
Qed.

Lemma escape_plain v : contains_char hash (escape v) = false.
Proof.
  induction v as [|a v IH]; [done|]. rewrite escape_cons, contains_char_app, IH, orb_false_r. unfold escape_char.
  destruct (decide (a = "%"%char)); [done|]. destruct (decide (a = hash)); [done|]. simpl.
  by rewrite bool_decide_eq_false_2.
Qed.

Global Instance escape_inj : Inj (=) (=) escape.
Proof.
  intros x. induction x as [|a x IH]; intros [|b y]; rewrite ?escape_cons; [done| | |].
  - unfold escape_char. repeat case_decide; done.
  - unfold escape_char. repeat case_decide; done.
  - unfold escape_char. repeat case_decide; subst; simpl; intros [=]; f_equal; try congruence; auto.
Qed.

Lemma escape_len v : byte_len v ≤ byte_len (escape v).
Proof.
  unfold byte_len. induction v as [|a v IH]; [done|]. rewrite escape_cons, string_length_app.
  assert (1 <= String.length (escape_char a))%nat by (unfold escape_char; repeat case_decide; simpl; lia).
  simpl. lia.
Qed.

Lemma escapes_plain (vs : list string) : Forall plain_part (escape <$> vs).
Proof. apply Forall_fmap, Forall_true. intros v. apply escape_plain. Qed.

(** *** The key of a row *)
Definition text_sk (table : string) (key : list string) : string := path (table :: (escape <$> key)).

(** What the tables of the tracker have in common. *)
Definition sound_table (table : string) (def : TableDef) : Prop :=
  contains_char hash table = false ∧ starts_with "." table = false ∧ TableDef.primary_key def ≠ [] ∧
  NoDup (TableDef.primary_key def) ∧ NoDup (Column.name <$> TableDef.columns def) ∧
  Forall (λ c, c ∈ Column.name <$> TableDef.columns def) (TableDef.primary_key def) ∧
  Forall (λ c, c ∉ RESERVED) (Column.name <$> TableDef.columns def).

Lemma flow_tables_sound : map_Forall sound_table flow_schema.
Proof. apply (bool_decide_unpack _). vm_compute. reflexivity. Qed.

Definition task_layout : Layout :=
  match from_sqlite flow_schema task_view_tables with Ok layout => layout | Err _ => ∅ end.

Lemma task_layout_tables : task_layout = table_layout <$> flow_schema.
Proof. vm_cast_no_check (eq_refl task_layout). Qed.

Section table.
Local Unset Default Proof Using.
Context (table : string) (def : TableDef) (Hdef : flow_schema !! table = Some def).

Lemma table_sound : sound_table table def.
Proof. by apply flow_tables_sound. Qed.

Lemma text_sk_plain (key : list string) : Forall plain_part (table :: (escape <$> key)).
Proof. destruct table_sound as [Hh _]. constructor; [done|apply escapes_plain]. Qed.

Lemma layout_table : task_layout !! table = Some (table_layout def).
Proof. rewrite task_layout_tables, lookup_fmap. by rewrite Hdef. Qed.
End table.

Lemma text_sk_inj table1 def1 key1 table2 def2 key2 :
  flow_schema !! table1 = Some def1 → flow_schema !! table2 = Some def2 →
  text_sk table1 key1 = text_sk table2 key2 → table1 = table2 ∧ key1 = key2.
Proof.
  intros H1 H2 E. apply path_inj in E; [|done|done|by eapply text_sk_plain..].
  injection E as -> E. split; [done|]. by apply (inj (fmap escape)) in E.
Qed.

Lemma text_sk_prefix table1 def1 table2 def2 key :
  flow_schema !! table1 = Some def1 → flow_schema !! table2 = Some def2 → key ≠ [] →
  starts_with (table_prefix table1) (text_sk table2 key) = true ↔ table1 = table2.
Proof.
  intros H1 H2 Hk. unfold table_prefix, text_sk. change (table1 +:+ "#") with (path [table1] +:+ "#").
  rewrite starts_with_path; [|done|done|..].
  - split; [intros (rest & _ & [=]); done|]. intros ->. exists (escape <$> key). by destruct key.
  - assert (H := text_sk_plain _ _ H1 []). done.
  - by eapply text_sk_plain.
Qed.

(** The keys of the indexes start with a dot, those of rows do not. *)
Lemma starts_with_dot s : starts_with "." s = true ↔ ∃ r, s = String "." r.
Proof.
  unfold starts_with. rewrite bool_decide_eq_true. split.
  - intros [r Hr%strip_prefix_Some]. by exists r.
  - intros [r ->]. by exists r.
Qed.

Lemma text_sk_no_dot table def key : flow_schema !! table = Some def → starts_with "." (text_sk table key) = false.
Proof.
  intros H. destruct (table_sound _ _ H) as (_ & Hd & _). apply not_true_iff_false. apply not_true_iff_false in Hd.
  contradict Hd. apply starts_with_dot in Hd as [r Hr]. apply starts_with_dot. unfold text_sk in Hr.
  destruct table as [|a table]; [|destruct (escape <$> key); simpl in Hr; injection Hr as -> _; by eexists].
  exfalso. revert H. vm_compute. done.
Qed.

(** ** Rows *)

(** The row a stored one reads as: an attribute that is absent is its column's default. *)
Definition row_of (def : TableDef) (d : Row) : Row :=
  list_to_map ((λ column, (Column.name column, default (Column.default column) (d !! Column.name column)))
    <$> TableDef.columns def).

Lemma row_of_lookup def d c :
  row_of def d !! c = (λ column, default (Column.default column) (d !! c)) <$> find_column def c.
Proof.
  unfold row_of, find_column. induction (TableDef.columns def) as [|column columns IH]; [done|].
  rewrite fmap_cons, list_to_map_cons. cbn [find_first]. case_bool_decide as Hc.
  - subst c. by rewrite lookup_insert_eq.
  - rewrite lookup_insert_ne by done. apply IH.
Qed.

Lemma find_column_names def c : c ∈ Column.name <$> TableDef.columns def → ∃ column, find_column def c = Some column.
Proof.
  unfold find_column. intros (column & -> & Hin)%list_elem_of_fmap.
  destruct (find_first _ _) as [x|] eqn:E; [by exists x|]. apply find_first_None in E. rewrite Forall_forall in E.
  specialize (E _ Hin). by rewrite bool_decide_eq_true_2 in E.
Qed.

Lemma find_column_not_in def c : c ∉ Column.name <$> TableDef.columns def → find_column def c = None.
Proof.
  intros Hc. apply find_first_None, Forall_forall. intros column Hin. apply bool_decide_eq_false_2.
  intros <-. apply Hc. by apply list_elem_of_fmap_2.
Qed.

Lemma default_of_column def c :
  NoDup (Column.name <$> TableDef.columns def) →
  default_of (table_layout def) c = from_option Column.default Cell.Null (find_column def c).
Proof.
  unfold default_of, table_layout, find_column. cbn [TableLayout.defaults].
  induction (TableDef.columns def) as [|column columns IH]; [done|]. intros [Hnot Hnd]%NoDup_cons.
  specialize (IH Hnd). cbn [find_first].
  assert (∀ f : Column → option (string * Cell),
    omap f (column :: columns) = match f column with Some y => y :: omap f columns | None => omap f columns end) as ->
    by done.
  case_bool_decide as Hc.
  - subst c. change (from_option Column.default Cell.Null (Some column)) with (Column.default column). destruct (Column.default column) eqn:E; cbv beta iota; rewrite ?list_to_map_cons.
    + rewrite IH. change (find_first _ columns) with (find_column (TableDef.Mk [] columns) (Column.name column)).
      by rewrite find_column_not_in.
    + by rewrite lookup_insert_eq.
    + by rewrite lookup_insert_eq.
  - rewrite <-IH. destruct (Column.default column); cbv beta iota; rewrite ?list_to_map_cons; [done|by rewrite lookup_insert_ne..].
Qed.

(** *** A written row *)
Lemma delete_all_lookup (names : list string) (row : Row) c :
  foldl (λ row a, delete a row) row names !! c = if decide (c ∈ names) then None else row !! c.
Proof.
  revert row. induction names as [|a names IH]; intros row; [done|]. cbn [foldl]. rewrite IH.
  destruct (decide (c ∈ names)); [by rewrite decide_True by (by right)|].
  destruct (decide (c = a)) as [->|Hne].
  - rewrite lookup_delete_eq. by rewrite decide_True by (by left).
  - rewrite lookup_delete_ne by done. by rewrite decide_False by (rewrite elem_of_cons; tauto).
Qed.

Lemma fst_fmap_filter (P : string * Cell → Prop) `{!∀ x, Decision (P x)} (cells : Cells) c :
  c ∉ cells.*1 → c ∉ (base.filter P cells).*1.
Proof. intros Hc (x & -> & [_ Hx]%list_elem_of_filter)%list_elem_of_fmap. by apply Hc, list_elem_of_fmap_2. Qed.

Lemma NoDup_fst_filter (P : string * Cell → Prop) `{!∀ x, Decision (P x)} (cells : Cells) :
  NoDup cells.*1 → NoDup (base.filter P cells).*1.
Proof. intros Hnd. eapply sublist_NoDup; [done|]. apply fmap_sublist, sublist_filter. Qed.

(** The write a plan makes of the cells of a change. *)
Definition planned (table : TableLayout) (sk : string) (set : Cells) (cond : option Cond) : TableWrite :=
  TableWrite.Mk sk (null_as_absent table set).1 (null_as_absent table set).2 cond.

Section written.
Local Unset Default Proof Using.
Context (table : TableLayout) (stream sk : string) (set : Cells) (cond : option Cond) (stored : option Row).
Abbreviation before := (default (fresh_row stream sk) stored).
Abbreviation after_write := (written_row stream (planned table sk set cond) stored).

Lemma written_other c : c ∉ set.*1 → after_write !! c = before !! c.
Proof.
  intros Hc. unfold written_row, planned, null_as_absent. cbn [TableWrite.set TableWrite.remove TableWrite.sk fst snd].
  rewrite delete_all_lookup, decide_False by by apply fst_fmap_filter.
  by rewrite set_cells_lookup_ne by by apply fst_fmap_filter.
Qed.

Lemma written_cell c v :
  NoDup set.*1 → (c, v) ∈ set → after_write !! c = if is_absent table (c, v) then None else Some v.
Proof.
  intros Hnd Hc. unfold written_row, planned, null_as_absent. cbn [TableWrite.set TableWrite.remove TableWrite.sk fst snd].
  rewrite delete_all_lookup. destruct (is_absent table (c, v)) eqn:E.
  - rewrite decide_True; [done|]. apply list_elem_of_fmap. exists (c, v). split; [done|]. by apply list_elem_of_filter.
  - rewrite decide_False.
    + apply set_cells_lookup; [by apply NoDup_fst_filter|]. by apply list_elem_of_filter.
    + intros ([c' v'] & -> & [Ha Hin]%list_elem_of_filter)%list_elem_of_fmap. simpl in *.
      assert (set_cells set ∅ !! c' = Some v') as E1 by by apply set_cells_lookup.
      rewrite (set_cells_lookup _ _ _ v) in E1 by done. congruence.
Qed.
End written.

(** What is written reads as an assignment of every cell. *)
Lemma written_reads table def stream sk set cond stored :
  flow_schema !! table = Some def → NoDup set.*1 → Forall (λ c, c ∈ Column.name <$> TableDef.columns def) set.*1 →
  row_of def (written_row stream (planned (table_layout def) sk set cond) stored) =
  set_cells set (row_of def (default (fresh_row stream sk) stored)).
Proof.
  intros Hdef Hnd Hcols. destruct (table_sound _ _ Hdef) as (_ & _ & _ & _ & Hnames & _ & Hres).
  apply map_eq. intros c. rewrite row_of_lookup. destruct (decide (c ∈ set.*1)) as [Hin|Hnot].
  - rewrite Forall_forall in Hcols. destruct (find_column_names def c) as [column Hcol]; [by apply Hcols|].
    apply list_elem_of_fmap in Hin as ([c' v] & -> & Hin). cbn [fst] in *.
    rewrite (set_cells_lookup _ _ _ v), (written_cell _ _ _ _ _ _ _ v), Hcol by done.
    cbn [fmap option_fmap option_map]. f_equal. unfold is_absent. cbn [fst snd].
    rewrite default_of_column, Hcol by done. cbn [from_option].
    destruct (bool_decide (v = Cell.Null)) eqn:Ev; [|done]. apply bool_decide_eq_true in Ev as ->.
    rewrite andb_true_l. by case_bool_decide.
  - by rewrite set_cells_lookup_ne, row_of_lookup, written_other.
Qed.

Lemma set_cells_lookup_defaults (columns : list Column) c (m : Row) :
  NoDup (Column.name <$> columns) →
  set_cells ((λ column, (Column.name column, Column.default column)) <$> columns) m !! c =
  match find_first (λ column, bool_decide (Column.name column = c)) columns with
  | Some column => Some (Column.default column)
  | None => m !! c
  end.
Proof.
  revert m. induction columns as [|column columns IH]; intros m; [done|]. intros [Hnot Hnd]%NoDup_cons.
  rewrite fmap_cons, set_cells_cons, IH by done. cbn [find_first]. case_bool_decide as Hc; [|].
  - subst c. rewrite lookup_insert_eq.
    change (find_first _ columns) with (find_column (TableDef.Mk [] columns) (Column.name column)).
    by rewrite find_column_not_in.
  - by rewrite lookup_insert_ne.
Qed.

Lemma fresh_reads table def stream sk :
  flow_schema !! table = Some def → row_of def (fresh_row stream sk) = default_row def.
Proof.
  intros Hdef. destruct (table_sound _ _ Hdef) as (_ & _ & _ & _ & Hnames & _ & Hres).
  apply map_eq. intros c. rewrite row_of_lookup. unfold default_row. rewrite set_cells_lookup_defaults by done.
  fold (find_column def c). destruct (find_column def c) as [column|] eqn:E; [|done]. cbn [fmap option_fmap option_map].
  f_equal. apply find_first_Some in E as [Hin <-%bool_decide_eq_true].
  assert (Column.name column ∉ RESERVED) as Hr.
  { rewrite Forall_forall in Hres. by apply Hres, list_elem_of_fmap_2. }
  unfold fresh_row. rewrite lookup_insert_ne, lookup_singleton_ne; [done|..]; intros E; apply Hr; rewrite <-E; set_solver.
Qed.

(** ** Conditions *)
Lemma versions_lt_lexicographic (version : list (string * Z)) (ws : list Z) (row : Row) wins :
  Forall2 (λ cv w, row !! cv.1 = Some (Cell.Int w)) version ws →
  beats wins version row = version_beats version.*2 ws wins.
Proof.
  intros H. induction H as [|[c v] w version ws Hc H IH]; [by destruct wins|]. cbn [beats fmap list_fmap fst snd] in *.
  rewrite Hc, IH. destruct wins; simpl; destruct (Z.eqb_spec v w) as [->|Hne].
  - by rewrite Z.ltb_irrefl, Z.eqb_refl.
  - destruct (Z.eqb_spec w v); [done|]. by rewrite andb_false_l, orb_false_r.
  - by rewrite Z.ltb_irrefl.
  - by rewrite andb_false_l, orb_false_r.
Qed.

Lemma versions_written (version : list (string * Z)) (ws : list Z) (row : Row) :
  Forall2 (λ cv w, row !! cv.1 = Some (Cell.Int w)) version ws → unwritten version row = false.
Proof.
  intros H. induction H as [|[c v] w version ws Hc H IH]; [done|]. cbn [fst] in Hc.
  unfold unwritten in *. cbn [existsb fst]. by rewrite Hc, IH.
Qed.

Lemma stored_version_all (version : list (string * Z)) (ws : list Z) (row : Row) :
  Forall2 (λ cv w, row !! cv.1 = Some (Cell.Int w)) version ws → stored_version version.*1 row = Some ws.
Proof.
  intros H. induction H as [|[c v] w version ws Hc H IH]; [done|]. cbn [fst] in Hc.
  cbn [fmap list_fmap fst stored_version]. by rewrite Hc, IH.
Qed.

(** The columns of each version, which are written together. *)
Definition version_groups : list (list string) :=
  ["value_v"; "value_site"] :: ["created_v"; "created_site"] :: ["updated_v"; "updated_site"] ::
  ((λ f, [f +:+ "_v"; f +:+ "_site"]) <$> ITEM_LWW_FIELDS).

Definition grouped (d : Row) : Prop :=
  Forall (λ g, Forall (λ a, d !! a = None) g ∨ Forall (λ a, ∃ v, d !! a = Some (Cell.Int v)) g) version_groups.

Definition default_version (def : TableDef) (c : string) : bool :=
  match find_column def c with
  | Some column => match Column.default column with Cell.Text _ => false | _ => true end
  | None => false
  end.

Lemma existsb_absent (d : Row) (columns : list string) :
  columns ≠ [] → Forall (λ a, d !! a = None) columns → existsb (Server.holds (Some d)) (Cond.Absent <$> columns) = true.
Proof.
  destruct columns as [|c columns]; [done|]. intros _ [Hc _]%Forall_cons. cbn [fmap list_fmap existsb Server.holds].
  by rewrite bool_decide_eq_true_2.
Qed.

Lemma existsb_present (d : Row) (columns : list string) :
  Forall (λ a, ∃ v, d !! a = Some (Cell.Int v)) columns → existsb (Server.holds (Some d)) (Cond.Absent <$> columns) = false.
Proof.
  induction 1 as [|c columns [v Hc] _ IH]; [done|]. cbn [fmap list_fmap existsb Server.holds].
  by rewrite bool_decide_eq_false_2, IH by congruence.
Qed.

Section register.
Local Unset Default Proof Using.
Context (def : TableDef) (d : Row) (Hnames : NoDup (Column.name <$> TableDef.columns def)).

Lemma row_of_present c v :
  default_version def c = true → d !! c = Some (Cell.Int v) → row_of def d !! c = Some (Cell.Int v).
Proof. unfold default_version. rewrite row_of_lookup. destruct (find_column def c); [by intros _ ->|done]. Qed.

Lemma row_of_absent c :
  default_version def c = true → d !! c = None → row_of def d !! c = Some (default_of (table_layout def) c).
Proof.
  unfold default_version. rewrite row_of_lookup, default_of_column by done.
  destruct (find_column def c); [by intros _ ->|done].
Qed.

Lemma default_version_int c :
  default_version def c = true →
  default_of (table_layout def) c = Cell.Null ∨ ∃ v, default_of (table_layout def) c = Cell.Int v.
Proof.
  unfold default_version. rewrite default_of_column by done. destruct (find_column def c) as [column|]; [|done].
  cbn [from_option]. destruct (Column.default column) as [| |v]; [by left|done|by right; exists v].
Qed.

(** Of a version nobody wrote, the defaults decide. *)
Lemma absent_defaults (version : list (string * Z)) :
  Forall (λ c, default_version def c = true) version.*1 → Forall (λ a, d !! a = None) version.*1 →
  let defaults := default_of (table_layout def) <$> version.*1 in
  (existsb (λ d, bool_decide (int_default d = None)) defaults = true ∧ unwritten version (row_of def d) = true) ∨
  (existsb (λ d, bool_decide (int_default d = None)) defaults = false ∧
   Forall2 (λ cv w, row_of def d !! cv.1 = Some (Cell.Int w)) version (omap int_default defaults)).
Proof.
  induction version as [|[c v] version IH]; cbn [fmap list_fmap fst]; [by right|].
  intros [Hc Hv]%Forall_cons [Ha Hd]%Forall_cons. specialize (IH Hv Hd). unfold unwritten in *. cbn [existsb fst].
  rewrite row_of_absent by done. cbn [from_option].
  destruct (default_version_int c Hc) as [E|[w E]]; rewrite E; [by left|]. cbn [omap list_omap int_default].
  rewrite (bool_decide_eq_false_2 (Some w = None)), (bool_decide_eq_false_2 (default Cell.Null (Some (Cell.Int w)) = Cell.Null)) by done.
  destruct IH as [[-> ->]|[-> IH]]; [by left|]. right. split; [done|]. constructor; [|done].
  cbn [fst]. by rewrite row_of_absent, E.
Qed.

Lemma register_agrees (version : list (string * Z)) wins :
  version ≠ [] → Forall (λ c, default_version def c = true) version.*1 →
  Forall (λ a, d !! a = None) version.*1 ∨ Forall (λ a, ∃ v, d !! a = Some (Cell.Int v)) version.*1 →
  Server.holds (Some d) (register_cond (table_layout def) version wins) =
  unwritten version (row_of def d) || beats wins version (row_of def d).
Proof.
  intros Hne Hdefs Hgroup. assert (version.*1 ≠ []) as Hne1 by (by destruct version). unfold register_cond.
  cbn [Server.holds existsb]. rewrite existsb_app. cbn [negb orb existsb]. rewrite orb_false_r.
  destruct Hgroup as [Habs|Hpres].
  - assert (stored_version version.*1 d = None) as Hsv.
    { destruct version as [|[c v] version]; [done|]. apply Forall_cons in Habs as [Hc _]. simpl in *. by rewrite Hc. }
    cbn [Server.holds]. rewrite Hsv, orb_false_r. destruct (absent_defaults version Hdefs Habs) as [[-> ->]|[-> H2]].
    + cbn [orb]. by apply existsb_absent.
    + rewrite (versions_lt_lexicographic _ _ _ _ H2), (versions_written _ _ _ H2). cbn [orb].
      destruct (version_beats _ _ _); [by apply existsb_absent|done].
  - assert (∃ ws, Forall2 (λ cv w, d !! cv.1 = Some (Cell.Int w)) version ws) as [ws Hws].
    { clear Hne Hne1 Hdefs. induction version as [|[c v] version IH]; [by exists []|].
      apply Forall_cons in Hpres as [[w Hc] Hp]. destruct (IH Hp) as [ws Hws]. exists (w :: ws). by constructor. }
    assert (Forall2 (λ cv w, row_of def d !! cv.1 = Some (Cell.Int w)) version ws) as H2.
    { clear Hne Hne1 Hpres. induction Hws as [|[c v] w version ws Hc Hws IH]; [done|].
      apply Forall_cons in Hdefs as [Hdc Hdefs]. constructor; [by apply row_of_present|by apply IH]. }
    cbn [Server.holds]. rewrite (stored_version_all _ _ _ Hws), (bool_decide_eq_false_2 _ Hne1).
    rewrite (versions_lt_lexicographic _ _ _ _ H2), (versions_written _ _ _ H2). cbn [negb andb orb].
    match goal with |- context [if ?b then Cond.Absent <$> _ else []] => destruct b end; [by rewrite existsb_present|done].
Qed.
End register.

(** ** Changes that can be planned *)
Definition text_cells (def : TableDef) (key : list string) : Cells := zip (TableDef.primary_key def) (Cell.Text <$> key).

Definition cells_of (c : Change) : Cells :=
  Change.key c ++ effect_cells (Change.effect c) ++ version_cells (effect_version (Change.effect c)).

(** The effect writes the columns of a version together or not at all. *)
Definition whole_versions (effect : Effect) (written : list string) : Prop :=
  Forall (λ g, Forall (λ a, a ∉ written) g ∨ g = (effect_version effect).*1) version_groups ∧
  match effect with
  | Effect.Ensure _ => False
  | Effect.Put _ => True
  | Effect.Register _ version _ => version.*1 ∈ version_groups
  end.
Global Instance whole_versions_dec effect written : Decision (whole_versions effect written).
Proof. unfold whole_versions. destruct effect; apply _. Defined.

Record plannable (c : Change) (def : TableDef) (key : list string) : Prop := {
  plannable_def : flow_schema !! Change.table c = Some def;
  plannable_key : Change.key c = text_cells def key;
  plannable_len : length key = length (TableDef.primary_key def);
  plannable_nodup : NoDup (cells_of c).*1;
  plannable_columns : Forall (λ a, a ∈ Column.name <$> TableDef.columns def) (cells_of c).*1;
  plannable_versions : whole_versions (Change.effect c) (cells_of c).*1;
  plannable_defaults : Forall (λ a, default_version def a = true) (effect_version (Change.effect c)).*1;
}.

Ltac plannable def key :=
  exists def, key; split; [vm_compute; reflexivity|reflexivity|reflexivity|
    apply (bool_decide_unpack _); vm_compute; reflexivity..].

Lemma task_plannable op c : task_change op c → ∃ def key, plannable c def key.
Proof.
  intros H. destruct H as [f Hf Hk Hfield| |value label Hp|tag| | |from to kind Hp|item_id label Hp|thread_id item_id relation weight Hp
    |table tag Ht| | |ids payload Hp|id].
  - cases_in Hf; plannable items_def [Op.target_id op].
  - plannable custom_fields_def [Op.target_id op; Op.field op].
  - destruct label; plannable field_entries_def [Op.target_id op; Op.field op; Op.op_id op].
  - plannable field_entries_def [Op.target_id op; Op.field op; tag].
  - plannable item_timestamps_def [Op.target_id op].
  - plannable item_timestamps_def [Op.target_id op].
  - plannable edge_adds_def [Op.op_id op].
  - plannable label_adds_def [Op.op_id op].
  - plannable thread_link_adds_def [Op.op_id op].
  - cases_in Ht; plannable removes_def [tag].
  - plannable notes_def [Op.op_id op].
  - plannable note_tombstones_def [Op.target_id op].
  - plannable chunks_def [Op.target_id op; Op.field op; Op.op_id op].
  - plannable chunk_superseded_def [Op.target_id op; Op.field op; id].
Qed.

Lemma check_columns_ok name table (columns : list string) :
  Forall (λ a, a ∈ TableLayout.columns table) columns → Forall (λ a, a ∉ RESERVED) columns →
  check_columns name table columns = Ok tt.
Proof.
  intros Hin Hres. induction columns as [|a columns IH]; [done|].
  apply Forall_cons in Hin as [Ha Hin]. apply Forall_cons in Hres as [Hr Hres]. cbn [check_columns].
  rewrite bool_decide_eq_false_2, bool_decide_eq_true_2 by done. by apply IH.
Qed.

Lemma key_values_text table (names key : list string) :
  length key = length names → key_values table (zip names (Cell.Text <$> key)) = Ok (escape <$> key).
Proof.
  revert names. induction key as [|v key IH]; intros [|a names]; try done. intros [= Hlen].
  cbn [zip zip_with fmap list_fmap key_values key_value snd]. unfold zip in IH. by rewrite IH.
Qed.

Section plannable.
Local Unset Default Proof Using.
Context (c : Change) (def : TableDef) (key : list string) (Hc : plannable c def key).
Abbreviation table := (Change.table c).
Abbreviation sk := (text_sk table key).

Lemma plannable_sound : sound_table table def.
Proof. apply table_sound, Hc. Qed.

Lemma plannable_some_key : key ≠ [].
Proof.
  destruct plannable_sound as (_ & _ & Hpk & _). intros E. apply Hpk. assert (H := plannable_len _ _ _ Hc).
  rewrite E in H. by destruct (TableDef.primary_key def).
Qed.

Lemma plannable_unreserved : Forall (λ a, a ∉ RESERVED) (cells_of c).*1.
Proof.
  destruct plannable_sound as (_ & _ & _ & _ & _ & _ & Hres). rewrite Forall_forall in Hres.
  apply Forall_forall. intros a Ha. apply Hres. assert (H := plannable_columns _ _ _ Hc). rewrite Forall_forall in H. by apply H.
Qed.

Lemma row_sk_text : row_sk table (Change.key c) = Ok sk.
Proof.
  unfold row_sk. rewrite (plannable_key _ _ _ Hc). unfold text_cells. rewrite key_values_text by apply Hc.
  cbv beta iota. f_equal. unfold text_sk. rewrite join_cons by (assert (H := plannable_some_key); by destruct key).
  unfold table_prefix. by rewrite <-string_app_assoc.
Qed.

Lemma plan_ok :
  plan task_layout c =
  Ok (planned (table_layout def) sk (cells_of c) (plan_condition (table_layout def) (Change.effect c))).
Proof.
  unfold plan. rewrite (layout_table _ _ (plannable_def _ _ _ Hc)). fold (cells_of c).
  rewrite check_columns_ok by (apply Hc || apply plannable_unreserved). cbv beta iota.
  destruct (null_as_absent _ _) as [set remove] eqn:E. rewrite row_sk_text. cbv beta iota.
  unfold planned. by rewrite E.
Qed.
End plannable.

(** ** One write *)
Lemma write_stream w t : MemTable.stream (write w t).1 = MemTable.stream t.
Proof. destruct t as [stream rows]. unfold write. repeat case_match; done. Qed.

Lemma write_other w t sk : sk ≠ TableWrite.sk w → get (write w t).1 sk = get t sk.
Proof.
  intros Hne. destruct t as [stream rows]. unfold write, get. repeat case_match; try done; simpl; by apply lookup_insert_ne.
Qed.

(** A write that was not too large stored a row or was not to. *)
Lemma write_cases w t t' o :
  write w t = (t', o) → o ≠ Outcome.TooLarge →
  (o = Outcome.Written ∧ get t' (TableWrite.sk w) = Some (written_row (MemTable.stream t) w (get t (TableWrite.sk w))) ∧
   match TableWrite.condition w with Some cond => Server.holds (get t (TableWrite.sk w)) cond | None => true end = true) ∨
  (o = Outcome.Kept ∧ t' = t ∧
   match TableWrite.condition w with Some cond => Server.holds (get t (TableWrite.sk w)) cond | None => true end = false).
Proof.
  destruct t as [stream rows]. unfold write, get. cbn [MemTable.rows MemTable.stream].
  destruct (match TableWrite.condition w with Some _ => _ | None => _ end) eqn:Hcond.
  - destruct (_ <? _); intros [= <- <-] Ho; [done|]. left. split_and!; [done| |done]. simpl. apply lookup_insert_eq.
  - intros [= <- <-] _. by right.
Qed.

(** What is known of the row stored under the key of a table. *)
Record kept_row (def : TableDef) (key : list string) (sk : string) (d : Row) : Prop := {
  kept_sk : d !! SK = Some (Cell.Text sk);
  kept_key c v : (c, v) ∈ text_cells def key → d !! c = Some v;
  kept_grouped : grouped d;
}.

Lemma set_cells_same (cells : Cells) (row : Row) :
  NoDup cells.*1 → (∀ c v, (c, v) ∈ cells → row !! c = Some v) → set_cells cells row = row.
Proof.
  intros Hnd H. apply map_eq. intros c. destruct (decide (c ∈ cells.*1)) as [Hin|Hnot].
  - apply list_elem_of_fmap in Hin as ([c' v] & -> & Hin). rewrite (set_cells_lookup _ _ _ v) by done. symmetry. by apply H.
  - by apply set_cells_lookup_ne.
Qed.

Section written_change.
Local Unset Default Proof Using.
Context (c : Change) (def : TableDef) (key : list string) (stream : string) (cond : option Cond) (stored : option Row).
Context (Hc : plannable c def key).
Abbreviation sk := (text_sk (Change.table c) key).
Abbreviation d' := (written_row stream (planned (table_layout def) sk (cells_of c) cond) stored).

Lemma text_cells_text a v : (a, v) ∈ text_cells def key → ∃ t, v = Cell.Text t.
Proof. unfold text_cells. intros (t & -> & _)%elem_of_zip_r%list_elem_of_fmap. by exists t. Qed.

Lemma cells_of_key a v : (a, v) ∈ text_cells def key → (a, v) ∈ cells_of c.
Proof. intros H. unfold cells_of. rewrite (plannable_key _ _ _ Hc). apply elem_of_app. by left. Qed.

Lemma written_int a v : (a, v) ∈ version_cells (effect_version (Change.effect c)) → d' !! a = Some v ∧ ∃ z, v = Cell.Int z.
Proof.
  intros Hin. assert (∃ z, v = Cell.Int z) as [z ->].
  { unfold version_cells in Hin. apply list_elem_of_fmap in Hin as ([a' z] & [= -> ->] & _). by exists z. }
  split; [|by exists z]. rewrite (written_cell _ _ _ _ _ _ _ (Cell.Int z)); [done|apply Hc|].
  unfold cells_of. rewrite !elem_of_app. auto.
Qed.

Lemma written_grouped : grouped (default ∅ stored) → grouped d'.
Proof.
  intros Hold. destruct (plannable_versions _ _ _ Hc) as [Hv _]. unfold grouped in *.
  rewrite Forall_forall in Hold, Hv |- *. intros g Hg. specialize (Hold g Hg). specialize (Hv g Hg).
  destruct Hv as [Hnot|E].
  - assert (∀ a, a ∈ g → d' !! a = default ∅ stored !! a) as Hsame.
    { intros a Ha. rewrite Forall_forall in Hnot. rewrite written_other by by apply Hnot. destruct stored; [done|].
      assert (a ∉ [PK; SK]) as Hr.
      { revert a Ha. rewrite <-Forall_forall. clear -Hg. revert g Hg. rewrite <-Forall_forall.
        apply (bool_decide_unpack _). vm_compute. reflexivity. }
      cbn [default from_option]. unfold fresh_row, id. rewrite lookup_empty, lookup_insert_ne, lookup_singleton_ne; [done|..].
      all: intros E; apply Hr; rewrite E; set_solver. }
    destruct Hold as [Hold|Hold]; [left|right]; apply Forall_forall; intros a Ha; rewrite Hsame by done;
      rewrite Forall_forall in Hold; by apply Hold.
  - right. apply Forall_forall. intros a Ha. rewrite E in Ha.
    assert (∃ v, (a, v) ∈ version_cells (effect_version (Change.effect c))) as [v Hv].
    { apply list_elem_of_fmap in Ha as ([a' z] & -> & Hin). exists (Cell.Int z). unfold version_cells.
      apply list_elem_of_fmap. by exists (a', z). }
    destruct (written_int _ _ Hv) as [Hl [z ->]]. by exists z.
Qed.

Lemma written_kept : (∀ d, stored = Some d → kept_row def key sk d) → kept_row def key sk d'.
Proof.
  intros Hold. split.
  - rewrite written_other.
    + destruct stored as [d|]; [by apply (kept_sk _ _ _ _ (Hold d eq_refl))|]. cbn [default from_option].
      unfold fresh_row, id. by rewrite lookup_insert_ne, lookup_singleton_eq.
    + assert (H := plannable_unreserved _ _ _ Hc). rewrite Forall_forall in H. intros Hin. apply (H _ Hin). set_solver.
  - intros a v Hin. destruct (text_cells_text _ _ Hin) as [t ->].
    rewrite (written_cell _ _ _ _ _ _ _ (Cell.Text t)); [done|apply Hc|by apply cells_of_key].
  - apply written_grouped. destruct stored as [d|]; [apply (kept_grouped _ _ _ _ (Hold d eq_refl))|].
    apply Forall_true. intros g. left. apply Forall_true. intros a. apply lookup_empty.
Qed.
End written_change.

Section one_write.
Local Unset Default Proof Using.
Context (c : Change) (def : TableDef) (key : list string) (Hc : plannable c def key).
Abbreviation sk := (text_sk (Change.table c) key).

Lemma row_of_key d a v : kept_row def key sk d → (a, v) ∈ text_cells def key → row_of def d !! a = Some v.
Proof.
  intros Hd Hin. destruct (plannable_sound _ _ _ Hc) as (_ & _ & _ & _ & _ & Hpk & _). rewrite Forall_forall in Hpk.
  destruct (find_column_names def a) as [column Hcol].
  { apply Hpk. unfold text_cells in Hin. by apply elem_of_zip_l in Hin. }
  rewrite row_of_lookup, Hcol, (kept_key _ _ _ _ Hd _ _ Hin). done.
Qed.

Lemma set_key_same d : kept_row def key sk d → set_cells (Change.key c) (row_of def d) = row_of def d.
Proof.
  intros Hd. apply set_cells_same.
  - assert (H := plannable_nodup _ _ _ Hc). unfold cells_of in H. rewrite fmap_app in H. by apply NoDup_app in H as [H _].
  - intros a v. rewrite (plannable_key _ _ _ Hc). by apply row_of_key.
Qed.

Lemma stored_group d version wins cells :
  Change.effect c = Effect.Register cells version wins → grouped d →
  version ≠ [] ∧ Forall (λ a, default_version def a = true) version.*1 ∧
  (Forall (λ a, d !! a = None) version.*1 ∨ Forall (λ a, ∃ v, d !! a = Some (Cell.Int v)) version.*1).
Proof.
  intros He Hg. destruct (plannable_versions _ _ _ Hc) as [_ Hin]. assert (Hd := plannable_defaults _ _ _ Hc).
  rewrite He in Hin, Hd. cbn [effect_version] in Hd. split_and!; [|done|].
  - intros ->. revert Hin. apply (bool_decide_unpack (_ ∉ _)). vm_compute. reflexivity.
  - unfold grouped in Hg. rewrite Forall_forall in Hg. by apply Hg.
Qed.

(** The row a change leaves reads as the row the applier leaves. *)
Lemma write_reads t t' o :
  (∀ d, get t sk = Some d → kept_row def key sk d) →
  write (planned (table_layout def) sk (cells_of c) (plan_condition (table_layout def) (Change.effect c))) t = (t', o) →
  o ≠ Outcome.TooLarge →
  ∃ d', get t' sk = Some d' ∧ kept_row def key sk d' ∧
    row_of def d' = write_row def (Change.key c) (Change.effect c) (row_of def <$> get t sk).
Proof.
  intros Hkept Hw Ho. assert (Hnames := plannable_sound _ _ _ Hc). destruct Hnames as (_ & _ & _ & _ & Hnames & _).
  destruct (plannable_versions _ _ _ Hc) as [_ Hshape]. assert (Hdef := plannable_def _ _ _ Hc).
  apply write_cases in Hw as [(_ & Hget & Hcond)|(_ & -> & Hcond)]; [..|done];
    cbn [planned TableWrite.sk TableWrite.condition] in *.
  - eexists. split; [done|]. split; [by apply written_kept|].
    rewrite (written_reads (Change.table c)) by (done || apply Hc). destruct (get t sk) as [d|] eqn:Eg.
    + cbn [default from_option fmap option_fmap option_map]. unfold id, cells_of. rewrite set_cells_app, set_key_same by auto.
      destruct (Change.effect c) as [|cells|cells version wins] eqn:He; [done|by cbn; rewrite app_nil_r|].
      cbn [plan_condition] in Hcond. destruct (stored_group d version wins cells) as (H1 & H2 & H3);
        [done|apply (kept_grouped _ _ _ _ (Hkept d eq_refl))|].
      rewrite register_agrees in Hcond by done. cbn [write_row effect_cells effect_version]. by rewrite Hcond.
    + cbn [default from_option fmap option_fmap option_map]. unfold id. by rewrite (fresh_reads (Change.table c)).
  - destruct (Change.effect c) as [|cells|cells version wins] eqn:He; [done..|]. cbn [plan_condition] in Hcond.
    destruct (get t sk) as [d|] eqn:Eg; [|done]. exists d. split; [done|]. split; [by apply Hkept|].
    destruct (stored_group d version wins cells) as (H1 & H2 & H3);
      [done|apply (kept_grouped _ _ _ _ (Hkept d eq_refl))|].
    rewrite register_agrees in Hcond by done. cbn [fmap option_fmap option_map write_row]. by rewrite Hcond.
Qed.
End one_write.

(** ** A partition mirrors views *)
Global Instance text_cell_inj : Inj (=) (=) Cell.Text.
Proof. by intros ?? [=]. Qed.

Abbreviation view_row views table key := ((default ∅ (views !! table) : Table) !! key).

(** A stored row is of a table, or of an index. *)
Definition placed (sk : string) (d : Row) : Prop :=
  starts_with "." sk = true ∨
  ∃ table def key, flow_schema !! table = Some def ∧ length key = length (TableDef.primary_key def) ∧
    sk = text_sk table key ∧ kept_row def key sk d.

Record mirrors (t : MemTable) (views : Views) : Prop := {
  mirror_rows table def key :
    flow_schema !! table = Some def → length key = length (TableDef.primary_key def) →
    row_of def <$> get t (text_sk table key) = view_row views table (Cell.Text <$> key);
  mirror_keys table def k row :
    flow_schema !! table = Some def → view_row views table k = Some row →
    ∃ key, k = Cell.Text <$> key ∧ length key = length (TableDef.primary_key def);
  mirror_placed sk d : get t sk = Some d → placed sk d;
}.

Lemma placed_kept table def key d :
  flow_schema !! table = Some def → placed (text_sk table key) d → kept_row def key (text_sk table key) d.
Proof.
  intros Hdef [H|(table' & def' & key' & Hdef' & _ & E & H)]; [by rewrite (text_sk_no_dot _ _ _ Hdef) in H|].
  destruct (text_sk_inj _ _ _ _ _ _ Hdef Hdef' E) as [-> ->]. by simplify_eq.
Qed.

Lemma carry_out_row views w table k :
  view_row (carry_out views w) table k =
  if decide (table = Write.table w ∧ k = Write.id w)
  then Some (write_row (Write.def w) (Write.key w) (Write.effect w) (view_row views table k))
  else view_row views table k.
Proof.
  unfold carry_out. destruct (decide (table = Write.table w)) as [->|Ht].
  - rewrite lookup_insert_eq. cbn [default from_option]. unfold id. destruct (decide (k = Write.id w)) as [->|Hk].
    + by rewrite decide_True, lookup_insert_eq.
    + rewrite decide_False by tauto. by rewrite lookup_insert_ne.
  - rewrite decide_False by tauto. by rewrite lookup_insert_ne.
Qed.

Lemma mirrors_write c def key t t' o views :
  plannable c def key → mirrors t views →
  write (planned (table_layout def) (text_sk (Change.table c) key) (cells_of c)
    (plan_condition (table_layout def) (Change.effect c))) t = (t', o) →
  o ≠ Outcome.TooLarge → mirrors t' (carry_out views (to_write c)).
Proof.
  intros Hc Hm Hw Ho. assert (Hdef := plannable_def _ _ _ Hc).
  destruct (write_reads c def key Hc t t' o) as (d' & Hget & Hkept & Hrow); [|done..|].
  { intros d Hd. apply (placed_kept (Change.table c)); [done|]. by apply (mirror_placed _ _ Hm). }
  assert (∀ sk, sk ≠ text_sk (Change.table c) key → get t' sk = get t sk) as Hother.
  { intros sk Hne. assert (H := write_other (planned (table_layout def) (text_sk (Change.table c) key) (cells_of c)
      (plan_condition (table_layout def) (Change.effect c))) t sk Hne). by rewrite Hw in H. }
  assert ((to_write c).(Write.id) = Cell.Text <$> key) as Hid.
  { cbn [to_write Write.id]. rewrite (plannable_key _ _ _ Hc). unfold text_cells. apply snd_zip.
    rewrite length_fmap. by rewrite (plannable_len _ _ _ Hc). }
  assert (Write.def (to_write c) = def) as Hd by (cbn [to_write Write.def]; by rewrite Hdef).
  split.
  - intros table def2 key2 Hdef2 Hlen. rewrite carry_out_row, Hid, Hd. cbn [to_write Write.table Write.key Write.effect].
    destruct (decide (table = Change.table c ∧ Cell.Text <$> key2 = Cell.Text <$> key)) as [[-> E]|Hne].
    + apply (inj (fmap Cell.Text)) in E as ->. simplify_eq. rewrite Hget. cbn [fmap option_fmap option_map].
      rewrite Hrow. f_equal. f_equal. by apply (mirror_rows _ _ Hm).
    + rewrite Hother; [by apply (mirror_rows _ _ Hm)|]. intros E.
      destruct (text_sk_inj _ _ _ _ _ _ Hdef2 Hdef E) as [-> ->]. by apply Hne.
  - intros table def2 k row Hdef2. rewrite carry_out_row, Hid.
    destruct (decide (table = Write.table (to_write c) ∧ k = Cell.Text <$> key)) as [[E ->]|Hne].
    + intros _. exists key. split; [done|]. cbn [to_write Write.table] in E. subst table. simplify_eq. apply Hc.
    + by apply (mirror_keys _ _ Hm).
  - intros sk d Hd2. destruct (decide (sk = text_sk (Change.table c) key)) as [->|Hne].
    + right. exists (Change.table c), def, key. simplify_eq. split_and!; [done|apply Hc|done|done].
    + rewrite Hother in Hd2 by done. by apply (mirror_placed _ _ Hm).
Qed.

