(* ===== verification/ServerIndex.v ===== *)
(** * The indexes of a server fold

    What keeps the indexes leaves the rows as they are, and after every operation each index is what the
    rows call for: an item is flagged when it is active, an edge when it is present and has an active end, and
    an edge is filed under both its ends. *)

From S2P Require Import Prelude Text Utf8 OpModel Changes Tasks ChangeFacts OpStore LogFacts Convergence TaskFacts BoardViews Graph GraphFacts Server ServerFold ServerFacts.
From stdpp Require Import options.
From Stdlib Require Import Ascii.

(** ** Frames *)
Definition INDEX_NAMES : list string := [ACTIVE; TYPED; DATED; DATED_AT].

Definition base_row (d : Row) : Row := base.filter (λ p, p.1 ∉ INDEX_NAMES) d.

(** The attributes of the indexes only tickets are in. *)
Definition ITEM_NAMES : list string := [TYPED; DATED; DATED_AT].

(** A stored row holds its own key and fits, and only a ticket is in an index of tickets. *)
Record stored_row (stream sk : string) (d : Row) : Prop := {
  stored_pk : d !! PK = Some (Cell.Text stream);
  stored_sk : d !! SK = Some (Cell.Text sk);
  stored_fits : sum_bytes (map_to_list d) ≤ MAX_ITEM_BYTES;
  stored_items a : starts_with "items#" sk = false → a ∈ ITEM_NAMES → d !! a = None;
}.

Definition well_stored (t : MemTable) : Prop := ∀ sk d, get t sk = Some d → stored_row (MemTable.stream t) sk d.

(** The rows are the same but for the attributes of indexes. *)
Abbreviation same_bases t t' :=
  (∀ sk, starts_with "." sk = false → base_row <$> get t sk = base_row <$> get t' sk) (only parsing).

Record same_rows (t t' : MemTable) : Prop := {
  same_stream : MemTable.stream t = MemTable.stream t';
  same_keyed : well_stored t → well_stored t';
  same_base : same_bases t t';
  same_mark : get t WATERMARK_KEY = get t' WATERMARK_KEY;
}.

(** Only entries that are no adjacencies of edges differ, and not the watermark. *)
Definition entry_key (sk : string) : bool := starts_with "." sk && negb (starts_with ADJACENCY sk).
Definition beside_key (sk : string) : bool := entry_key sk && negb (bool_decide (sk = WATERMARK_KEY)).

Record beside (t t' : MemTable) : Prop := {
  beside_stream : MemTable.stream t = MemTable.stream t';
  beside_keyed : well_stored t → well_stored t';
  beside_get sk : beside_key sk = false → get t sk = get t' sk;
}.

(** Only the watermark differs. *)
Record marks (t t' : MemTable) : Prop := {
  marks_stream : MemTable.stream t = MemTable.stream t';
  marks_keyed : well_stored t → well_stored t';
  marks_get sk : sk ≠ WATERMARK_KEY → get t sk = get t' sk;
}.

Global Instance same_rows_preorder : PreOrder same_rows.
Proof.
  split; [by split|]. intros t1 t2 t3 [H1 H2 H3 H4] [G1 G2 G3 G4]. split; [by rewrite H1|by intros ?%H2%G2| |by rewrite H4].
  intros sk Hsk. by rewrite H3, G3.
Qed.

Global Instance beside_preorder : PreOrder beside.
Proof.
  split; [by split|]. intros t1 t2 t3 [H1 H2 H3] [G1 G2 G3]. split; [by rewrite H1|by intros ?%H2%G2|].
  intros sk Hsk. by rewrite H3, G3.
Qed.

Lemma beside_rows t t' : beside t t' → same_rows t t'.
Proof.
  intros [H1 H2 H3]. split; [done..| |by apply H3]. intros sk Hsk. rewrite H3; [done|]. unfold beside_key, entry_key. by rewrite Hsk.
Qed.

(** A loop stays within a relation its body stays within. *)
Lemma foldl_within_elem {A B} (R : relation A) `{!PreOrder R} (f : A → B → A) (l : list B) a :
  (∀ a x, x ∈ l → R a (f a x)) → R a (foldl f a l).
Proof.
  revert a. induction l as [|x l IH]; intros a Hf; [done|]. cbn [foldl].
  etransitivity; [apply Hf; by left|apply IH]. intros b y Hy. apply Hf. by right.
Qed.

Lemma foldl_within {A B} (R : relation A) `{!PreOrder R} (f : A → B → A) (l : list B) a :
  (∀ a x, R a (f a x)) → R a (foldl f a l).
Proof. intros Hf. by apply foldl_within_elem. Qed.

Lemma foldl_within_fst {A B C} (R : relation A) `{!PreOrder R} (f : A * C → B → A * C) (l : list B) s :
  (∀ s x, R s.1 (f s x).1) → R s.1 (foldl f s l).1.
Proof. intros Hf. revert s. induction l as [|x l IH]; intros s; [done|]. cbn [foldl]. etransitivity; [apply Hf|apply IH]. Qed.

(** *** Writes *)

(** A write that does not touch the key of the row, and puts only a ticket into an index of tickets. *)
Record keeps_row (w : TableWrite) : Prop := {
  keeps_set a : a ∈ [PK; SK] → a ∉ (TableWrite.set w).*1;
  keeps_removed a : a ∈ [PK; SK] → a ∉ TableWrite.remove w;
  keeps_items a : starts_with "items#" (TableWrite.sk w) = false → a ∈ ITEM_NAMES → a ∉ (TableWrite.set w).*1;
}.

Lemma fresh_row_lookup stream sk a :
  fresh_row stream sk !! a = if decide (a = PK) then Some (Cell.Text stream) else if decide (a = SK) then Some (Cell.Text sk) else None.
Proof.
  unfold fresh_row. destruct (decide (a = PK)) as [->|Hp]; [by rewrite lookup_insert_eq|]. rewrite lookup_insert_ne by done.
  destruct (decide (a = SK)) as [->|Hs]; [by rewrite lookup_singleton_eq|]. by rewrite lookup_singleton_ne.
Qed.

(** An attribute the write neither sets nor removes. *)
Lemma written_row_other stream w stored a :
  a ∉ (TableWrite.set w).*1 → a ∉ TableWrite.remove w →
  written_row stream w stored !! a = default (fresh_row stream (TableWrite.sk w)) stored !! a.
Proof. intros Hs Hr. unfold written_row. by rewrite delete_all_lookup, decide_False, set_cells_lookup_ne. Qed.

Lemma written_row_unset stream w stored a :
  a ∉ (TableWrite.set w).*1 → default (fresh_row stream (TableWrite.sk w)) stored !! a = None →
  written_row stream w stored !! a = None.
Proof. intros Hs Hd. unfold written_row. rewrite delete_all_lookup, set_cells_lookup_ne by done. by destruct (decide _). Qed.

Lemma write_keyed w t : keeps_row w → well_stored t → well_stored (write w t).1.
Proof.
  intros [Hset Hrem Hitem] Ht sk d. rewrite write_stream.
  destruct (decide (sk = TableWrite.sk w)) as [->|Hne]; [|rewrite write_other by done; apply Ht].
  destruct t as [stream rows]. unfold write, get in *. cbn [MemTable.rows MemTable.stream] in *. specialize (Ht (TableWrite.sk w)).
  destruct (match TableWrite.condition w with Some _ => _ | None => _ end); [|apply Ht].
  destruct (_ <? _) eqn:Hfits; [apply Ht|]. apply N.ltb_ge in Hfits.
  cbn [fst MemTable.rows]. rewrite lookup_insert_eq. intros [= <-].
  unfold get in Ht. cbn [MemTable.rows MemTable.stream] in Ht. split; [..|done|intros a Hsk Ha].
  - rewrite written_row_other by (apply Hset || apply Hrem; set_solver).
    destruct (rows !! TableWrite.sk w) as [d|]; [by apply (stored_pk _ _ _ (Ht d eq_refl))|].
    cbn [default from_option]. unfold id. by rewrite fresh_row_lookup.
  - rewrite written_row_other by (apply Hset || apply Hrem; set_solver).
    destruct (rows !! TableWrite.sk w) as [d|]; [by apply (stored_sk _ _ _ (Ht d eq_refl))|].
    cbn [default from_option]. unfold id. by rewrite fresh_row_lookup.
  - apply written_row_unset; [by apply Hitem|].
    destruct (rows !! TableWrite.sk w) as [d|]; [by apply (stored_items _ _ _ (Ht d eq_refl))|].
    cbn [default from_option]. unfold id. rewrite fresh_row_lookup, !decide_False; [done|..].
    all: intros ->; revert Ha; apply (bool_decide_unpack (_ ∉ _)); vm_compute; reflexivity.
Qed.

Lemma delete_keyed sk t : well_stored t → well_stored (delete_row sk t).
Proof.
  intros Ht sk' d. destruct t as [stream rows]. unfold get. cbn [delete_row MemTable.rows].
  intros [_ H]%lookup_delete_Some. by apply (Ht sk').
Qed.

Lemma write_beside w t : beside_key (TableWrite.sk w) = true → keeps_row w → beside t (write w t).1.
Proof.
  intros Hk Hkeep. split; [by rewrite write_stream|by apply write_keyed|]. intros sk Hsk. symmetry. apply write_other. congruence.
Qed.

Lemma delete_beside sk t : beside_key sk = true → beside t (delete_row sk t).
Proof.
  intros Hk. split; [by destruct t|by apply delete_keyed|]. intros sk' Hsk. destruct t as [stream rows]. unfold get. simpl.
  rewrite lookup_delete_ne; [done|congruence].
Qed.

Lemma write_dot w t :
  starts_with "." (TableWrite.sk w) = true → TableWrite.sk w ≠ WATERMARK_KEY → keeps_row w → same_rows t (write w t).1.
Proof.
  intros Hk Hne Hkeep. split; [by rewrite write_stream|by apply write_keyed| |by rewrite write_other].
  intros sk Hsk. rewrite write_other; [done|congruence].
Qed.

Lemma write_marks w t : TableWrite.sk w = WATERMARK_KEY → keeps_row w → marks t (write w t).1.
Proof.
  intros Hk Hkeep. split; [by rewrite write_stream|by apply write_keyed|]. intros sk Hsk. symmetry. apply write_other. congruence.
Qed.

(** The cells a row copies from another are of the columns it names. *)
Lemma copied_columns (d : Row) columns a : a ∈ (copied d columns).*1 → a ∈ columns.
Proof.
  unfold copied. intros ([a' v] & -> & (c & Hc & H)%list_elem_of_omap)%list_elem_of_fmap.
  destruct (d !! c) as [[| |]|]; by simplify_eq.
Qed.

Lemma unreserved_keeps w : (∀ a, a ∈ (TableWrite.set w).*1 ++ TableWrite.remove w → a ∉ RESERVED) → keeps_row w.
Proof.
  intros H. assert (∀ a, a ∈ [PK; SK] ++ ITEM_NAMES → a ∈ RESERVED) as Hr
    by (apply Forall_forall, (bool_decide_unpack _); vm_compute; reflexivity).
  split; intros a; [intros Ha|intros Ha|intros _ Ha]; intros Hin; (apply (H a); [|apply Hr]); rewrite elem_of_app; tauto.
Qed.

Lemma copied_keeps sk (d : Row) tag columns removed :
  Forall (λ a, a ∉ RESERVED) columns →
  keeps_row (put_row sk (("tag", Cell.Text tag) :: copied d columns ++ [(REMOVED, removed)])).
Proof.
  intros Hc. apply unreserved_keeps. intros a. cbn [put_row TableWrite.set TableWrite.remove]. rewrite app_nil_r.
  rewrite Forall_forall in Hc. rewrite fmap_cons, fmap_app, elem_of_cons, elem_of_app.
  intros [->|[H%copied_columns|H%list_elem_of_singleton]]; [|by apply Hc|rewrite H];
    apply (bool_decide_unpack (_ ∉ _)); vm_compute; reflexivity.
Qed.

Lemma ref_keeps sk source field value : keeps_row (put_row sk (ref_cells source field value)).
Proof.
  apply unreserved_keeps. change (∀ a, a ∈ ["target_id"; "field"; "source_id"] → a ∉ RESERVED).
  apply Forall_forall, (bool_decide_unpack _). vm_compute. reflexivity.
Qed.

Lemma base_row_lookup d a : base_row d !! a = if decide (a ∈ INDEX_NAMES) then None else d !! a.
Proof.
  unfold base_row. destruct (decide (a ∈ INDEX_NAMES)) as [Hin|Hnot].
  - apply map_lookup_filter_None. right. intros v _ H. by apply H.
  - destruct (d !! a) as [v|] eqn:E.
    + apply map_lookup_filter_Some. done.
    + apply map_lookup_filter_None. by left.
Qed.

(** A write of index attributes on a row that is there. *)
Definition index_write (w : TableWrite) : Prop :=
  TableWrite.condition w = Some Cond.RowPresent ∧ (∀ a, a ∈ (TableWrite.set w).*1 → a ∈ INDEX_NAMES) ∧
  (∀ a, a ∈ TableWrite.remove w → a ∈ INDEX_NAMES) ∧
  (∀ a, starts_with "items#" (TableWrite.sk w) = false → a ∈ ITEM_NAMES → a ∉ (TableWrite.set w).*1).

Lemma index_keeps w : index_write w → keeps_row w.
Proof.
  intros (_ & Hs & Hr & Hi). assert (∀ a, a ∈ [PK; SK] → a ∉ INDEX_NAMES) as Hn
    by (apply Forall_forall, (bool_decide_unpack _); vm_compute; reflexivity).
  split; [intros a Ha%Hn Hin%Hs; done|intros a Ha%Hn Hin%Hr; done|done].
Qed.

Lemma index_written_other stream w row a :
  index_write w → a ∉ INDEX_NAMES → written_row stream w (Some row) !! a = row !! a.
Proof.
  intros (_ & Hset & Hrem & _) Ha. unfold written_row. rewrite delete_all_lookup.
  rewrite decide_False by (intros H; by apply Ha, Hrem). rewrite set_cells_lookup_ne; [done|]. intros H. by apply Ha, Hset.
Qed.

Lemma base_row_ext d d' : (∀ a, a ∉ INDEX_NAMES → d !! a = d' !! a) → base_row d = base_row d'.
Proof.
  intros H. apply map_eq. intros a. rewrite !base_row_lookup. destruct (decide (a ∈ INDEX_NAMES)) as [|Hn]; [done|by apply H].
Qed.

Lemma write_index w t : index_write w → starts_with "." (TableWrite.sk w) = false → same_rows t (write w t).1.
Proof.
  intros Hw Hdot. split; [by rewrite write_stream|apply write_keyed, index_keeps; done| |].
  2: { rewrite write_other; [done|]. intros E. by rewrite <-E in Hdot. }
  intros sk _. destruct (decide (sk = TableWrite.sk w)) as [->|Hne].
  - destruct (write w t) as [t' o] eqn:E. cbn [fst]. destruct (decide (o = Outcome.TooLarge)) as [->|Ho].
    { destruct t as [stream rows]. unfold write in E. repeat case_match; by simplify_eq. }
    apply write_cases in E as [(_ & Hget & Hcond)|(_ & -> & _)]; [|done..]. rewrite Hget.
    rewrite (proj1 Hw) in Hcond. destruct (get t (TableWrite.sk w)) as [row|]; [|done].
    cbn [fmap option_fmap option_map]. f_equal. apply base_row_ext. intros a Ha. symmetry. by apply index_written_other.
  - by rewrite write_other.
Qed.

(** *** What reads the rows reads the same *)
Lemma same_get t t' sk d :
  same_bases t t' → starts_with "." sk = false → get t' sk = Some d → ∃ d0, get t sk = Some d0 ∧ base_row d0 = base_row d.
Proof.
  intros Hs Hsk Hd. assert (H := Hs sk Hsk). rewrite Hd in H. cbn [fmap option_fmap option_map] in H.
  destruct (get t sk) as [d0|]; [|done]. exists d0. by simplify_eq/=.
Qed.

Lemma base_row_at d d' a : base_row d = base_row d' → a ∉ INDEX_NAMES → d !! a = d' !! a.
Proof.
  intros E Ha. assert (base_row d !! a = base_row d' !! a) as H by by rewrite E.
  rewrite !base_row_lookup in H. by rewrite !decide_False in H by done.
Qed.

Lemma index_reserved a : a ∈ INDEX_NAMES → a ∈ RESERVED.
Proof. unfold INDEX_NAMES, RESERVED. set_solver. Qed.

Lemma row_of_base table def d d' :
  flow_schema !! table = Some def → base_row d = base_row d' → row_of def d = row_of def d'.
Proof.
  intros Hdef E. destruct (table_sound _ _ Hdef) as (_ & _ & _ & _ & _ & _ & Hres). rewrite Forall_forall in Hres.
  apply map_eq. intros a. rewrite !row_of_lookup. destruct (find_column def a) as [column|] eqn:Ec; [|done].
  cbn [fmap option_fmap option_map]. do 2 f_equal. apply base_row_at; [done|].
  intros Ha%index_reserved. apply find_first_Some in Ec as [Hin <-%bool_decide_eq_true].
  apply (Hres (Column.name column)); [by apply list_elem_of_fmap_2|done].
Qed.

Lemma kept_row_base table def key sk d d' :
  flow_schema !! table = Some def → base_row d = base_row d' → kept_row def key sk d → kept_row def key sk d'.
Proof.
  intros Hdef E [H1 H2 H3]. destruct (table_sound _ _ Hdef) as (_ & _ & _ & _ & _ & Hpk & Hres).
  rewrite Forall_forall in Hres, Hpk. split.
  - rewrite <-(base_row_at _ _ _ E); [done|]. unfold INDEX_NAMES, SK. set_solver.
  - intros c v Hin. rewrite <-(base_row_at _ _ _ E); [by apply H2|]. intros Ha%index_reserved.
    apply (Hres c); [|done]. apply Hpk. unfold text_cells in Hin. by apply elem_of_zip_l in Hin.
  - unfold grouped in *. rewrite Forall_forall in H3 |- *. intros g Hg. specialize (H3 g Hg).
    assert (∀ a, a ∈ g → a ∉ INDEX_NAMES) as Hn.
    { intros a Ha. revert a Ha. rewrite <-Forall_forall. clear -Hg. revert g Hg. rewrite <-Forall_forall.
      apply (bool_decide_unpack _). vm_compute. reflexivity. }
    destruct H3 as [H3|H3]; [left|right]; apply Forall_forall; intros a Ha; rewrite Forall_forall in H3;
      rewrite <-(base_row_at _ _ _ E) by (by apply Hn); by apply H3.
Qed.

Lemma mirrors_bases t t' views : same_bases t t' → mirrors t views → mirrors t' views.
Proof.
  intros Hs Hm. split.
  - intros table def key Hdef Hlen. rewrite <-(mirror_rows _ _ Hm _ _ _ Hdef Hlen).
    assert (H := Hs _ (text_sk_no_dot _ _ key Hdef)).
    destruct (get t _) as [d|], (get t' _) as [d'|]; try done. cbn [fmap option_fmap option_map] in *.
    f_equal. symmetry. apply (row_of_base table); [done|]. by simplify_eq/=.
  - apply Hm.
  - intros sk d' Hd. destruct (starts_with "." sk) eqn:Hsk; [by left|].
    destruct (same_get _ _ _ _ Hs Hsk Hd) as (d & Hget & E). apply (mirror_placed _ _ Hm) in Hget.
    destruct Hget as [H|(table & def & key & Hdef & Hlen & -> & Hk)]; [congruence|].
    right. exists table, def, key. split_and!; [done..|]. by eapply kept_row_base.
Qed.

Lemma mirrors_same t t' views : same_rows t t' → mirrors t views → mirrors t' views.
Proof. intros Hs. apply mirrors_bases, Hs. Qed.

Lemma mirrors_marks t t' views : marks t t' → mirrors t views → mirrors t' views.
Proof. intros Hs. apply mirrors_bases. intros sk Hsk. rewrite (marks_get _ _ Hs); [done|]. by intros ->. Qed.

(** *** What keeps the indexes *)
Lemma refresh_owned_add_beside owned add tag t : owned ∈ OWNED → beside t (refresh_owned_add owned add tag t).
Proof.
  intros Ho. unfold refresh_owned_add, owned_write. destruct (files _ _); [|done]. cbn [negb].
  destruct (row_text add (Owned.owner owned)) as [item|]; [|done]. cbn [mbind option_bind].
  unfold OWNED in Ho. rewrite !elem_of_cons in Ho.
  destruct Ho as [->|[->|[->|[]%not_elem_of_nil]]]; (apply write_beside; [reflexivity|]);
    apply copied_keeps, (bool_decide_unpack _); vm_compute; reflexivity.
Qed.

Lemma refresh_owned_beside owned tag t : owned ∈ OWNED → beside t (refresh_owned owned tag t).
Proof. intros Ho. unfold refresh_owned. destruct (get _ _); [by apply refresh_owned_add_beside|done]. Qed.

Lemma link_ref_beside source field value st : beside st.1 (link_ref source field value st).1.
Proof.
  destruct st as [t unwritten]. unfold link_ref.
  destruct (write (put_row (ref_adjacency_key value field source) _) t) as [t1 o1] eqn:E1.
  assert (beside t t1) as H1.
  { assert (t1 = (write (put_row (ref_adjacency_key value field source) (ref_cells source field value)) t).1) as -> by by rewrite E1.
    by apply write_beside, ref_keeps. }
  case_bool_decide; [done|].
  destruct (write (put_row (ref_source_key source field value) _) t1) as [t2 o2] eqn:E2. cbn [fst].
  etransitivity; [done|].
  assert (t2 = (write (put_row (ref_source_key source field value) (ref_cells source field value)) t1).1) as -> by by rewrite E2.
  by apply write_beside, ref_keeps.
Qed.

Lemma unlink_ref_beside source field value t : beside t (unlink_ref source field value t).
Proof. unfold unlink_ref. etransitivity; by apply delete_beside. Qed.

Lemma reconcile_refs_beside item field touched t : beside t (reconcile_refs item field touched t).1.
Proof.
  unfold reconcile_refs. destruct (_ && _); [done|].
  set (wanted := wanted_refs item field t).
  set (hinted := list_to_set (omap _ (query_prefix t _)) : gset string).
  destruct (foldl (λ st v, link_ref item field v st) (t, []) (sorted_set (wanted ∖ hinted))) as [t1 unwritten] eqn:E. cbn [fst].
  transitivity t1.
  - assert (H := foldl_within_fst beside (λ st v, link_ref item field v st) (sorted_set (wanted ∖ hinted)) (t, [])).
    rewrite E in H. apply H. intros st v. apply link_ref_beside.
  - apply foldl_within; [apply _|]. intros t0 v. apply unlink_ref_beside.
Qed.

Lemma flag_edge_rows tag edge removed known t : same_rows t (flag_edge tag edge removed known t).
Proof.
  unfold flag_edge. destruct (Bool.eqb _ _); [done|].
  match goal with |- context [if ?b then ([(ACTIVE, _)], []) else _] => destruct b end; (apply write_index; [|done]);
    (split_and!; [done|..]; cbn; unfold INDEX_NAMES, ITEM_NAMES, ACTIVE, TYPED, DATED, DATED_AT; set_solver).
Qed.

Lemma write_adjacency_rows tag edge removed t : same_rows t (write_adjacency tag edge removed t).
Proof. unfold write_adjacency. apply foldl_within; [apply _|]. intros t0 e.
  apply write_dot; [done|done|]. apply copied_keeps, (bool_decide_unpack _). vm_compute. reflexivity. Qed.

Lemma link_edge_rows tag t : same_rows t (link_edge tag t).
Proof.
  unfold link_edge. destruct (get _ _) as [edge|]; [|done].
  etransitivity; [apply write_adjacency_rows|apply flag_edge_rows].
Qed.

Lemma flag_entry_rows id active t entry : same_rows t (flag_entry id active t entry).
Proof. unfold flag_entry. destruct (row_text _ _); [|done]. destruct (get _ _); [apply flag_edge_rows|done]. Qed.

Lemma row_text_base d d' a : base_row d = base_row d' → a ∉ INDEX_NAMES → row_text d a = row_text d' a.
Proof. intros E Ha. unfold row_text. by rewrite (base_row_at _ _ _ E Ha). Qed.

Ltac base_columns E :=
  rewrite !(row_text_base _ _ _ E) by (apply (bool_decide_unpack (_ ∉ _)); vm_compute; reflexivity).

Lemma is_active_row_base d d' : base_row d = base_row d' → is_active_row d = is_active_row d'.
Proof. intros E. unfold is_active_row. by base_columns E. Qed.

Lemma typed_base d d' : base_row d = base_row d' → typed d = typed d'.
Proof. intros E. unfold typed. by base_columns E. Qed.

Lemma lane_base d d' : base_row d = base_row d' → lane d = lane d'.
Proof. intros E. unfold lane. by base_columns E. Qed.

(** *** The refresh of an item *)

(** Attributes that are all there, with these texts, or all absent. *)
Definition stored_as (names : list string) (vs : option (list string)) (d : Row) : Prop :=
  match vs with
  | Some vs => Forall2 (λ a v, d !! a = Some (Cell.Text v)) names vs
  | None => Forall (λ a, d !! a = None) names
  end.

Definition partitions_of (stream id : string) (l : Dated * string) : list string :=
  [dated_partition l.1 stream; dated_key l.2 id].

(** The index attributes an item should have, and those it has. *)
Definition active_now (stream : string) (d : Row) : option (list string) := if is_active_row d then Some [stream] else None.
Definition typed_now (stream : string) (d : Row) : option (list string) := (λ ty, [typed_partition stream ty]) <$> typed d.
Definition dated_now (stream id : string) (d : Row) : option (list string) := partitions_of stream id <$> lane d.

Record right_item (stream id : string) (d : Row) : Prop := {
  right_active : stored_as [ACTIVE] (active_now stream d) d;
  right_typed : stored_as [TYPED] (typed_now stream d) d;
  right_dated : stored_as [DATED; DATED_AT] (dated_now stream id d) d;
}.

(** Whatever they are, they are texts, and those that go together are there together. *)
Record index_shape (stream : string) (d : Row) : Prop := {
  shape_active : ∃ b : bool, stored_as [ACTIVE] (if b then Some [stream] else None) d;
  shape_typed : ∃ vs, stored_as [TYPED] vs d;
  shape_dated : ∃ vs, stored_as [DATED; DATED_AT] vs d;
}.

Lemma right_shape stream id d : right_item stream id d → index_shape stream d.
Proof. intros [H1 H2 H3]. split; [by exists (is_active_row d)|by eexists..]. Qed.

Lemma stored_as_ext names vs d d' : (∀ a, a ∈ names → d !! a = d' !! a) → stored_as names vs d → stored_as names vs d'.
Proof.
  intros H. unfold stored_as. destruct vs as [vs|].
  - intros Hs. induction Hs as [|a v names vs Ha Hs IH]; [done|]. constructor; [|apply IH; intros b Hb; apply H; by right].
    rewrite <-H by by left. done.
  - rewrite !Forall_forall. intros Hs a Ha. rewrite <-H by done. by apply Hs.
Qed.

Lemma stored_as_active stream d : stored_as [ACTIVE] (active_now stream d) d → d !! ACTIVE = if is_active_row d then Some (Cell.Text stream) else None.
Proof.
  unfold active_now, stored_as. destruct (is_active_row d); intros H.
  - by apply Forall2_cons in H as [H _].
  - by apply Forall_cons in H as [H _].
Qed.

Lemma index_shape_ext stream d d' :
  (∀ a, a ∈ INDEX_NAMES → d !! a = d' !! a) → index_shape stream d → index_shape stream d'.
Proof.
  intros H [[b H1] [vs H2] [vs' H3]]. split; [exists b|exists vs|exists vs']; (eapply stored_as_ext; [|done]);
    intros a Ha; apply H; unfold INDEX_NAMES; set_solver.
Qed.

Lemma index_shape_empty stream : index_shape stream ∅.
Proof. split; [exists false|exists None..]; by repeat constructor. Qed.

(** What a write sets and removes. *)
Definition moves (set : Cells) (remove : list string) (d : Row) : Row := foldl (λ d a, delete a d) (set_cells set d) remove.

Lemma moves_other set remove d a : a ∉ set.*1 → a ∉ remove → moves set remove d !! a = d !! a.
Proof. intros Hs Hr. unfold moves. by rewrite delete_all_lookup, decide_False, set_cells_lookup_ne. Qed.

Lemma insert_delete_all (remove : list string) (d : Row) c v :
  c ∉ remove → <[c := v]> (foldl (λ d a, delete a d) d remove) = foldl (λ d a, delete a d) (<[c := v]> d) remove.
Proof.
  intros Hc. apply map_eq. intros a. rewrite delete_all_lookup. destruct (decide (a = c)) as [->|Hne].
  - by rewrite lookup_insert_eq, decide_False, lookup_insert_eq.
  - by rewrite !lookup_insert_ne, delete_all_lookup by done.
Qed.

Lemma moves_app s1 r1 s2 r2 d :
  (∀ a, a ∈ r1 → a ∉ s2.*1) → moves (s1 ++ s2) (r1 ++ r2) d = moves s2 r2 (moves s1 r1 d).
Proof.
  unfold moves. rewrite set_cells_app, foldl_app. generalize (set_cells s1 d). clear d. intros d Hd. f_equal.
  revert d. induction s2 as [|[c v] s2 IH]; intros d; [done|]. rewrite !set_cells_cons, insert_delete_all.
  - apply IH. intros a Ha Hin. apply (Hd a Ha). by right.
  - intros Hc. apply (Hd c Hc). by left.
Qed.

Lemma moved_names names now was set remove :
  moved names now was = (set, remove) →
  (∀ a, a ∈ set.*1 → a ∈ names) ∧ (∀ a, a ∈ remove → a ∈ names).
Proof.
  unfold moved. case_bool_decide; [intros [= <- <-]; split; intros a; by rewrite ?fmap_nil; intros ?%not_elem_of_nil|].
  destruct now as [vs|]; intros [= <- <-]; (split; intros a; [|try by intros ?%not_elem_of_nil]).
  - intros ([a' v] & -> & Hin)%list_elem_of_fmap. by apply elem_of_zip_l in Hin.
  - rewrite fmap_nil. by intros ?%not_elem_of_nil.
  - done.
Qed.

Lemma moved_stored names now was set remove d :
  NoDup names → (∀ vs, now = Some vs → length vs = length names) → stored_as names was d →
  moved names now was = (set, remove) → stored_as names now (moves set remove d).
Proof.
  intros Hnd Hlen Hwas. unfold moved. case_bool_decide as E; [intros [= <- <-]; by rewrite E|].
  destruct now as [vs|]; intros [= <- <-]; unfold moves; cbn [foldl stored_as].
  - specialize (Hlen vs eq_refl). apply Forall2_same_length_lookup_2; [done|]. intros i a v Ha Hv.
    apply set_cells_lookup; [rewrite fst_zip; [done|rewrite length_fmap; lia]|].
    apply list_elem_of_lookup. exists i. apply lookup_zip_Some. by rewrite list_lookup_fmap, Hv.
  - apply Forall_forall. intros a Ha. by rewrite delete_all_lookup, decide_True.
Qed.

(** The edges of a ticket whose flag flips, before the flag itself. *)
Definition flip_edges (id : string) (row : Row) (t : MemTable) : MemTable :=
  let active := is_active_row row in
  if Bool.eqb active (bool_decide (is_Some (row !! ACTIVE))) then t
  else foldl (flag_entry id active) t (query_prefix t (adjacency_prefix id)).

Lemma flip_edges_rows id row t : same_rows t (flip_edges id row t).
Proof.
  unfold flip_edges. destruct (Bool.eqb _ _); [done|]. apply foldl_within; [apply _|]. intros t0 entry. apply flag_entry_rows.
Qed.

Lemma was_active stream d : index_shape stream d →
  stored_as [ACTIVE] (if bool_decide (is_Some (d !! ACTIVE)) then Some [stream] else None) d.
Proof.
  intros [[b H] _ _]. unfold stored_as in H. assert (bool_decide (is_Some (d !! ACTIVE)) = b) as ->; [|done]. destruct b.
  - apply Forall2_cons in H as [-> _]. by apply bool_decide_eq_true_2.
  - apply Forall_cons in H as [-> _]. done.
Qed.

Lemma was_typed stream d : index_shape stream d → stored_as [TYPED] ((λ v, [v]) <$> row_text d TYPED) d.
Proof.
  intros [_ [vs H] _]. unfold row_text, stored_as in *. destruct vs as [vs|].
  - apply Forall2_cons_inv_l in H as (v & l & H & _ & _). rewrite H. by repeat constructor.
  - apply Forall_cons in H as [H _]. rewrite H. by repeat constructor.
Qed.

Lemma was_dated stream d : index_shape stream d →
  stored_as [DATED; DATED_AT] (p ← row_text d DATED; at_ ← row_text d DATED_AT; Some [p; at_]) d.
Proof.
  intros [_ _ [vs H]]. unfold row_text, stored_as in *. destruct vs as [vs|].
  - apply Forall2_cons_inv_l in H as (p & l & H1 & H & _). apply Forall2_cons_inv_l in H as (v & l' & H2 & _ & _).
    rewrite H1, H2. by repeat constructor.
  - apply Forall_cons in H as [H1 [H _]%Forall_cons]. rewrite H1, H. by repeat constructor.
Qed.

(** The three groups of attributes, which do not touch one another. *)
Lemma three_moves names1 s1 r1 names2 s2 r2 names3 s3 r3 now1 was1 now2 was2 now3 was3 d :
  NoDup (names1 ++ names2 ++ names3) →
  moved names1 now1 was1 = (s1, r1) → moved names2 now2 was2 = (s2, r2) → moved names3 now3 was3 = (s3, r3) →
  stored_as names1 was1 d → stored_as names2 was2 d → stored_as names3 was3 d →
  (∀ vs, now1 = Some vs → length vs = length names1) → (∀ vs, now2 = Some vs → length vs = length names2) →
  (∀ vs, now3 = Some vs → length vs = length names3) →
  let d' := moves (s1 ++ s2 ++ s3) (r1 ++ r2 ++ r3) d in
  stored_as names1 now1 d' ∧ stored_as names2 now2 d' ∧ stored_as names3 now3 d'.
Proof.
  intros (Hd1 & H12 & (Hd2 & H23 & Hd3)%NoDup_app)%NoDup_app M1 M2 M3 W1 W2 W3 L1 L2 L3. cbv zeta.
  destruct (moved_names _ _ _ _ _ M1) as [Hs1 Hr1]. destruct (moved_names _ _ _ _ _ M2) as [Hs2 Hr2].
  destruct (moved_names _ _ _ _ _ M3) as [Hs3 Hr3].
  assert (∀ a, a ∈ names1 → a ∉ names2 ∧ a ∉ names3) as H1 by (intros a Ha%H12; by apply not_elem_of_app in Ha).
  rewrite !moves_app.
  2: { intros a Ha%Hr2 Hin%Hs3. by apply (H23 a). }
  2: { intros a Ha%Hr1%H1. rewrite fmap_app, not_elem_of_app. split; [intros ?%Hs2|intros ?%Hs3]; tauto. }
  split_and!.
  - apply (stored_as_ext _ _ (moves s1 r1 d)); [|by eapply moved_stored]. intros a [Ha2 Ha3]%H1. symmetry.
    rewrite (moves_other s3 r3), (moves_other s2 r2); [done|intros ?%Hs2; done|intros ?%Hr2; done|intros ?%Hs3; done|intros ?%Hr3; done].
  - apply (stored_as_ext _ _ (moves s2 r2 (moves s1 r1 d))).
    { intros a Ha. symmetry. apply moves_other; [intros ?%Hs3|intros ?%Hr3]; by apply (H23 a). }
    eapply moved_stored; [done|done| |exact M2]. apply (stored_as_ext _ _ d); [|done]. intros a Ha. symmetry.
    apply moves_other; [intros Hin%Hs1%H1|intros Hin%Hr1%H1]; tauto.
  - eapply moved_stored; [done|done| |exact M3]. apply (stored_as_ext _ _ d); [|done]. intros a Ha. symmetry.
    rewrite (moves_other s2 r2), (moves_other s1 r1); [done|intros Hin%Hs1%H1; tauto|intros Hin%Hr1%H1; tauto|
      intros ?%Hs2; by apply (H23 a)|intros ?%Hr2; by apply (H23 a)].
Qed.

Lemma refresh_item_write id t row :
  get t (item_key id) = Some row →
  ∃ set remove, let w := TableWrite.Mk (item_key id) set remove (Some Cond.RowPresent) in
    index_write w ∧
    (index_shape (MemTable.stream t) row → right_item (MemTable.stream t) id (written_row (MemTable.stream t) w (Some row))) ∧
    refresh_item id t =
      if bool_decide (set = []) && bool_decide (remove = []) then (flip_edges id row t, None)
      else let '(t, outcome) := write w (flip_edges id row t) in (t, Some outcome).
Proof.
  intros Hget. unfold refresh_item. rewrite Hget. fold (flip_edges id row t). set (stream := MemTable.stream t).
  set (flip := Bool.eqb (is_active_row row) (bool_decide (is_Some (row !! ACTIVE)))).
  destruct (if flip then ([], []) else _) as [set1 remove1] eqn:E1.
  destruct (moved [TYPED] _ _) as [set2 remove2] eqn:E2. destruct (moved [DATED; DATED_AT] _ _) as [set3 remove3] eqn:E3.
  assert (moved [ACTIVE] (active_now stream row) (if bool_decide (is_Some (row !! ACTIVE)) then Some [stream] else None) =
          (set1, remove1)) as M1.
  { rewrite <-E1. unfold flip, moved, active_now. destruct (is_active_row row), (bool_decide (is_Some (row !! ACTIVE)));
      case_bool_decide; done. }
  clear E1 flip. destruct (moved_names _ _ _ _ _ M1) as [Hs1 Hr1]. destruct (moved_names _ _ _ _ _ E2) as [Hs2 Hr2].
  destruct (moved_names _ _ _ _ _ E3) as [Hs3 Hr3]. exists (set1 ++ set2 ++ set3), (remove1 ++ remove2 ++ remove3).
  cbv zeta. match goal with |- ?P ∧ _ => assert P as Hw; [|split; [exact Hw|split; [|done]]] end.
  - split_and!; cbn [TableWrite.condition TableWrite.set TableWrite.remove TableWrite.sk]; [done|..|].
    + intros a. rewrite !fmap_app, !elem_of_app. intros [Ha%Hs1|[Ha%Hs2|Ha%Hs3]]; unfold INDEX_NAMES; set_solver.
    + intros a. rewrite !elem_of_app. intros [Ha%Hr1|[Ha%Hr2|Ha%Hr3]]; unfold INDEX_NAMES; set_solver.
    + intros a H. unfold item_key in H. by rewrite starts_with_app in H.
  - intros Hshape.
    destruct (three_moves [ACTIVE] set1 remove1 [TYPED] set2 remove2 [DATED; DATED_AT] set3 remove3
      (active_now stream row) (if bool_decide (is_Some (row !! ACTIVE)) then Some [stream] else None)
      (typed_now stream row) ((λ v, [v]) <$> row_text row TYPED)
      (dated_now stream id row) (p ← row_text row DATED; at_ ← row_text row DATED_AT; Some [p; at_]) row) as (R1 & R2 & R3);
      [apply (bool_decide_unpack _); vm_compute; reflexivity|exact M1|exact E2| |by apply was_active|by eapply was_typed|
       by eapply was_dated|..].
    { rewrite <-E3. unfold dated_now, partitions_of. by destruct (lane row) as [[]|]. }
    1-3: intros vs; unfold active_now, typed_now, dated_now;
      (destruct (is_active_row row) || idtac); (destruct (typed row) || idtac); (destruct (lane row) || idtac); intros [= <-]; done.
    change (moves _ _ row) with (written_row stream (TableWrite.Mk (item_key id) (set1 ++ set2 ++ set3)
      (remove1 ++ remove2 ++ remove3) (Some Cond.RowPresent)) (Some row)) in R1, R2, R3.
    match goal with |- right_item _ _ ?d => assert (base_row d = base_row row) as Hb end.
    { apply base_row_ext. intros a Ha. by apply index_written_other. }
    split; unfold active_now, typed_now, dated_now in *.
    + by rewrite (is_active_row_base _ _ Hb).
    + by rewrite (typed_base _ _ Hb).
    + by rewrite (lane_base _ _ Hb).
Qed.

Lemma refresh_item_rows id t : same_rows t (refresh_item id t).1.
Proof.
  destruct (get t (item_key id)) as [row|] eqn:E; [|unfold refresh_item; by rewrite E].
  destruct (refresh_item_write id t row E) as (set & remove & Hw & _ & ->).
  destruct (_ && _); [apply flip_edges_rows|]. etransitivity; [apply flip_edges_rows|].
  assert (H := write_index _ (flip_edges id row t) Hw eq_refl). by destruct (write _ _).
Qed.

Lemma refresh_items_rows ids t : same_rows t (refresh_items ids t).1.
Proof.
  unfold refresh_items. apply (foldl_within_fst same_rows _ ids (t, [])). intros [t0 unwritten] id.
  assert (H := refresh_item_rows id t0). by destruct (refresh_item id t0).
Qed.

(** The tickets and edges an operation touched, in the order the indexes are brought up to date. *)
Definition touched_items (changes : list Change) : list string := sorted_set (changed_keys "items" "id" changes).
Definition touched_edges (changes : list Change) : list string :=
  sorted_set (changed_keys "edge_adds" "tag" changes) ++ sorted_set (changed_keys "edge_removes" "tag" changes).

Definition link_edges (tags : list string) (t : MemTable) : MemTable := foldl (λ t tag, link_edge tag t) t tags.

Lemma link_edges_rows tags t : same_rows t (link_edges tags t).
Proof. unfold link_edges. apply foldl_within; [apply _|]. intros t0 tag. apply link_edge_rows. Qed.

Lemma foldl_app_snd {A B C} (f : A * list C → B → A * list C) (l : list B) s :
  (∀ s x, ∃ more, (f s x).2 = s.2 ++ more) → (foldl f s l).2 = [] → s.2 = [].
Proof.
  intros Hf. revert s. induction l as [|x l IH]; intros s; [done|]. cbn [foldl]. intros H%IH.
  destruct (Hf s x) as [more E]. rewrite E in H. by apply app_eq_nil in H as [? _].
Qed.

Lemma after_stages changes t :
  beside (link_edges (touched_edges changes) (refresh_items (touched_items changes) t).1) (after changes t).1 ∧
  ((after changes t).2 = [] → (refresh_items (touched_items changes) t).2 = []).
Proof.
  unfold after, touched_items. destruct (refresh_items _ t) as [t1 unwritten]. cbn [fst snd].
  replace (foldl (λ t tag, link_edge tag t) _ (sorted_set (changed_keys "edge_removes" "tag" changes)))
    with (link_edges (touched_edges changes) t1) by (unfold link_edges, touched_edges; by rewrite foldl_app).
  set (t3 := link_edges (touched_edges changes) t1).
  set (t4 := foldl _ t3 (imap pair OWNED)).
  assert (beside t3 t4) as H4.
  { apply foldl_within_elem; [apply _|]. intros t0 [index owned] Hin. apply foldl_within; [apply _|]. intros t5 tag.
    apply refresh_owned_beside. apply elem_of_lookup_imap_1 in Hin as (i & o & [= -> ->] & Ho).
    by eapply list_elem_of_lookup_2. }
  split.
  - etransitivity; [exact H4|]. apply (foldl_within_fst beside _ _ (t4, unwritten)). intros [t0 u] [item field].
    assert (H := reconcile_refs_beside item field (existsb (admits item field) changes) t0).
    by destruct (reconcile_refs _ _ _ _).
  - intros H. apply foldl_app_snd in H; [done|]. intros [t0 u] [item field].
    destruct (reconcile_refs _ _ _ _) as [t5 sks]. cbn. by eexists.
Qed.

Lemma after_rows changes t : same_rows t (after changes t).1.
Proof.
  destruct (after_stages changes t) as [H%beside_rows _].
  etransitivity; [|exact H]. etransitivity; [|apply link_edges_rows]. apply refresh_items_rows.
Qed.

(** ** One operation *)
Definition task_folder : Folder := Folder.Mk [TaskReducer] task_layout.

Lemma task_folder_changes op : folder_changes task_folder op = if folds TaskReducer op then task_changes op else [].
Proof.
  unfold folder_changes, folds. cbn [task_folder Folder.reducers].
  destruct (folder_for [TaskReducer] op) as [r|] eqn:E; [|done]. apply folder_for_single in E as [-> _]. done.
Qed.

Lemma task_folder_shape op c : c ∈ folder_changes task_folder op → task_change op c.
Proof.
  rewrite task_folder_changes. destruct (folds TaskReducer op) eqn:Hf; [|by intros ?%not_elem_of_nil].
  apply task_shape. by apply folds_foldable in Hf.
Qed.

Lemma write_all_cons w ws t t' :
  write_all (w :: ws) t = (t', []) →
  ∃ t1 o, write w t = (t1, o) ∧ o ≠ Outcome.TooLarge ∧ write_all ws t1 = (t', []).
Proof.
  unfold write_all. cbn [foldl]. destruct (write w t) as [t1 o] eqn:E. intros H. exists t1, o. split; [done|].
  case_bool_decide as Ho; [|done]. exfalso.
  assert ((foldl (λ '(t, too_large) w, let '(t, o) := write w t in
    (t, if bool_decide (o = Outcome.TooLarge) then too_large ++ [TableWrite.sk w] else too_large))
    (t1, [] ++ [TableWrite.sk w]) ws).2 = []) as H2 by by rewrite H.
  apply foldl_app_snd in H2; [done|]. intros [t0 u] x. destruct (write x t0) as [t2 o2]. cbn.
  case_bool_decide; [by eexists|exists []; by rewrite app_nil_r].
Qed.

(** How a fold that refused nothing goes. *)
Inductive folding (t : MemTable) (changes : list Change) : MemTable → Prop :=
| folding_nothing : changes = [] → folding t changes t
| folding_changes writes t1 :
    plan_all task_layout changes = Ok writes → refusal t changes writes = None → write_all writes t = (t1, []) →
    (after changes t1).2 = [] → folding t changes (after changes t1).1.

Lemma fold_folding op t t' r :
  fold task_folder op t = (t', Ok r) → (∀ id reason, r ≠ FoldResult.Refused id reason) →
  folding t (folder_changes task_folder op) t'.
Proof.
  unfold fold. cbn [task_folder Folder.layout]. case_bool_decide as Hlen.
  { intros [= <- <-] _. constructor. by apply nil_length_inv. }
  destruct (plan_all task_layout _) as [writes|] eqn:Hp; [|done].
  destruct (refusal _ _ _) eqn:Hr; [intros [= <- <-] H; by edestruct H|].
  destruct (write_all writes t) as [t1 too_large] eqn:Hw. destruct (after _ t1) as [t2 unwritten] eqn:Ha.
  intros [= <- <-] H. case_bool_decide as H1; [|by edestruct H]. case_bool_decide as H2; [|by edestruct H]. subst too_large.
  assert (t2 = (after (folder_changes task_folder op) t1).1) as -> by by rewrite Ha.
  econstructor; [done..|]. rewrite Ha. by apply nil_length_inv.
Qed.

(** Every change has its write. *)
Lemma plan_all_cons c changes writes :
  plan_all task_layout (c :: changes) = Ok writes →
  ∃ w ws, plan task_layout c = Ok w ∧ plan_all task_layout changes = Ok ws ∧ writes = w :: ws.
Proof. cbn [plan_all]. intros H. case_results. by do 2 eexists. Qed.

Lemma mirrors_write_all op changes writes t t' views :
  Forall (task_change op) changes → plan_all task_layout changes = Ok writes → write_all writes t = (t', []) →
  mirrors t views → mirrors t' (carry_all views (to_write <$> changes)).
Proof.
  intros Hs. revert writes t views. induction Hs as [|c changes Hc Hs IH]; intros writes t views.
  { intros [= <-] [= <-] Hm. exact Hm. }
  intros (w & ws & Hp & Hps & ->)%plan_all_cons (t1 & o & Hw & Ho & Hws)%write_all_cons Hm.
  destruct (task_plannable op c Hc) as (def & key & Hc'). rewrite (plan_ok c def key Hc') in Hp. injection Hp as <-.
  rewrite fmap_cons. apply (IH ws t1); [done..|]. by eapply mirrors_write.
Qed.

Lemma mirrors_fold op t t' r views :
  fold task_folder op t = (t', Ok r) → (∀ id reason, r ≠ FoldResult.Refused id reason) →
  mirrors t views → mirrors t' (fold1 views op).
Proof.
  intros Hf Hr Hm. apply fold_folding in Hf; [|done]. assert (Hshape := task_folder_shape op). revert Hf Hshape.
  rewrite task_folder_changes. unfold fold1. destruct (folds TaskReducer op) eqn:Efold; intros Hf Hshape.
  - change (mirrors t' (carry_all views (to_write <$> task_changes op))).
    destruct Hf as [->|writes t1 Hp _ Hw _]; [done|]. apply (mirrors_same t1); [apply after_rows|].
    apply (mirrors_write_all op _ writes t); [by apply Forall_forall|done..].
  - destruct Hf as [_|writes t1 [= <-] _ [= <-] _]; [done|]. by apply (mirrors_same t); [apply after_rows|].
Qed.

(** *** A log *)
Lemma fold_ops_cons seq op ops t t' :
  fold_ops task_folder ((seq, op) :: ops) t = (t', Ok []) →
  ∃ t1 r, fold task_folder op t = (t1, Ok r) ∧ (∀ id reason, r ≠ FoldResult.Refused id reason) ∧
    fold_ops task_folder ops t1 = (t', Ok []).
Proof.
  cbn [fold_ops]. destruct (fold task_folder op t) as [t1 [r|e]] eqn:E; [|done].
  destruct (fold_ops task_folder ops t1) as [t2 [refused|e]] eqn:E2; [|done]. intros [= <- Hr].
  exists t1, r. split; [done|]. destruct r; simplify_eq; by split.
Qed.

Lemma fold_ops_invariant (P : MemTable → list Op → Prop) ops past t t' :
  (∀ past op t t1 r, P t past → fold task_folder op t = (t1, Ok r) → (∀ id reason, r ≠ FoldResult.Refused id reason) →
     P t1 (past ++ [op])) →
  fold_ops task_folder ops t = (t', Ok []) → P t past → P t' (past ++ ops.*2).
Proof.
  intros Hstep. revert past t. induction ops as [|[seq op] ops IH]; intros past t.
  { intros [= <-] HP. by rewrite app_nil_r. }
  intros (t1 & r & Hf & Hr & Hops)%fold_ops_cons HP. cbn [fmap list_fmap snd]. rewrite cons_middle, app_assoc.
  apply (IH _ t1); [done|]. by eapply Hstep.
Qed.

Lemma fresh_row_none table k : view_row (fresh_views TaskReducer) table k = None.
Proof.
  destruct (fresh_views TaskReducer !! table) as [rows|] eqn:E; [|apply lookup_empty].
  assert (map_Forall (λ _ (rows : Table), rows = ∅) (fresh_views TaskReducer)) as H
    by (apply (bool_decide_unpack _); vm_compute; reflexivity).
  apply H in E. cbn [default from_option]. unfold id. rewrite E. exact (lookup_empty k).
Qed.

(** A partition without rows of tables. *)
Lemma mirrors_none t : (∀ sk d, get t sk = Some d → starts_with "." sk = true) → mirrors t (fresh_views TaskReducer).
Proof.
  intros H. split.
  - intros table def key Hdef _. rewrite fresh_row_none. destruct (get t (text_sk table key)) as [d|] eqn:E; [|done].
    apply H in E. by rewrite (text_sk_no_dot _ _ key Hdef) in E.
  - intros table def k row _. by rewrite fresh_row_none.
  - intros sk d Hd. left. by apply (H sk d).
Qed.

Lemma mirrors_fresh stream : mirrors (MemTable.Mk stream ∅) (fresh_views TaskReducer).
Proof. apply mirrors_none. done. Qed.

(** ** Sizes

    The rows of edges and their entries are of a few short attributes, so that no write of one is too large. *)
Definition EDGE_NAMES : list string :=
  [PK; SK; ACTIVE; "from_id"; "to_id"; "kind"; "lamport"; "site"; "tag"; REMOVED].

Definition small (bound : N) (d : Row) : Prop :=
  ∀ a v, d !! a = Some v → a ∈ EDGE_NAMES ∧ attribute_bytes a v ≤ bound.

(** The length an edge's attributes keep within, and the length its entries do. *)
Definition edge_bound : N := 2100.
Definition entry_bound : N := 16384.

Lemma sum_bytes_bound bound (cells : Cells) :
  Forall (λ c, attribute_bytes c.1 c.2 ≤ bound) cells → sum_bytes cells ≤ N.of_nat (length cells) * bound.
Proof.
  unfold sum_bytes. induction 1 as [|c cells Hc H IH]; [done|]. rewrite fmap_cons. cbn [foldr length]. lia.
Qed.

Lemma named_bytes (names : list string) bound (d : Row) :
  (∀ a v, d !! a = Some v → a ∈ names ∧ attribute_bytes a v ≤ bound) →
  sum_bytes (map_to_list d) ≤ N.of_nat (length names) * bound.
Proof.
  intros Hs. assert (length (map_to_list d) <= length names)%nat as Hlen.
  { rewrite <-(length_fmap fst). apply NoDup_incl_length.
    - apply NoDup_ListNoDup, NoDup_fst_map_to_list.
    - intros a Ha%list_elem_of_In. apply list_elem_of_In. apply list_elem_of_fmap in Ha as ([a' v] & -> & Hin%elem_of_map_to_list).
      by apply Hs in Hin as [? _]. }
  transitivity (N.of_nat (length (map_to_list d)) * bound); [|apply N.mul_le_mono_r; lia].
  apply sum_bytes_bound, Forall_forall. intros [a v] Hin%elem_of_map_to_list. by apply Hs in Hin as [_ ?].
Qed.

Lemma small_fits bound d : small bound d → bound ≤ entry_bound → (MAX_ITEM_BYTES <? sum_bytes (map_to_list d)) = false.
Proof.
  intros Hs%named_bytes Hb. apply N.ltb_ge. change (N.of_nat (length EDGE_NAMES)) with 10 in Hs.
  unfold entry_bound, MAX_ITEM_BYTES in *. lia.
Qed.

Lemma small_insert bound d a v : small bound d → a ∈ EDGE_NAMES → attribute_bytes a v ≤ bound → small bound (<[a := v]> d).
Proof. intros Hs Ha Hv a' v' [[<- <-]|[_ H]]%lookup_insert_Some; [done|by apply Hs]. Qed.

Lemma small_delete bound d a : small bound d → small bound (delete a d).
Proof. intros Hs a' v' [_ H]%lookup_delete_Some. by apply Hs. Qed.

Lemma small_set_cells bound (cells : Cells) d :
  small bound d → Forall (λ c, c.1 ∈ EDGE_NAMES ∧ attribute_bytes c.1 c.2 ≤ bound) cells → small bound (set_cells cells d).
Proof.
  intros Hd Hc. revert d Hd. induction Hc as [|[a v] cells [Ha Hv] Hc IH]; intros d Hd; [done|].
  rewrite set_cells_cons. apply IH. by apply small_insert.
Qed.

Lemma small_mono b1 b2 d : b1 ≤ b2 → small b1 d → small b2 d.
Proof. intros Hle Hs a v [? ?]%Hs. split; [done|lia]. Qed.

(** ** Edges *)
Abbreviation edge_key := (tag_key "edge_adds") (only parsing).

Lemma tag_key_text table tag : tag_key table tag = text_sk table [tag].
Proof. unfold tag_key, table_prefix, text_sk. by rewrite <-string_app_assoc. Qed.

Lemma item_key_text id : item_key id = text_sk "items" [id].
Proof. done. Qed.

Lemma adjacency_key_path e tag : adjacency_key e tag = path [".adj"; escape e; escape tag].
Proof. unfold adjacency_key, adjacency_prefix. by rewrite <-!string_app_assoc. Qed.

Lemma adjacency_key_inj e tag e' tag' : adjacency_key e tag = adjacency_key e' tag' → e = e' ∧ tag = tag'.
Proof.
  rewrite !adjacency_key_path. intros E.
  apply path_inj in E; [by simplify_eq|done|done|..]; repeat constructor; apply escape_plain.
Qed.

Lemma adjacency_key_dot e tag : starts_with "." (adjacency_key e tag) = true.
Proof. done. Qed.

(** What is known of every edge row of a partition. *)
Definition edge_rows_ok (t : MemTable) : Prop :=
  ∀ tag d, get t (edge_key tag) = Some d →
    (d !! ACTIVE = None ∨ d !! ACTIVE = Some (Cell.Text (MemTable.stream t))) ∧ small edge_bound d ∧
    row_text d "tag" = Some tag.

Definition flag_cell (t : MemTable) (flagged : bool) : option Cell :=
  if flagged then Some (Cell.Text (MemTable.stream t)) else None.

(** What an edge should be flagged by, when the activity of a ticket may be about to change. *)
Definition edge_flag (t : MemTable) (known : option (string * bool)) (tag : string) (d : Row) : bool :=
  is_indexed d && negb (has_row t (tag_key "edge_removes" tag)) && existsb (end_active t known) (edge_ends d).

Lemma edge_ends_base d d' : base_row d = base_row d' → edge_ends d = edge_ends d'.
Proof.
  intros E. unfold edge_ends. cbn [omap list_omap].
  by rewrite !(row_text_base _ _ _ E) by (apply (bool_decide_unpack (_ ∉ _)); vm_compute; reflexivity).
Qed.

Lemma is_indexed_base d d' : base_row d = base_row d' → is_indexed d = is_indexed d'.
Proof.
  intros E. unfold is_indexed.
  by rewrite !(row_text_base _ _ _ E) by (apply (bool_decide_unpack (_ ∉ _)); vm_compute; reflexivity).
Qed.

(** A write of a small row is carried out. *)
Lemma write_small bound w t :
  match TableWrite.condition w with Some cond => Server.holds (get t (TableWrite.sk w)) cond | None => true end = true →
  small bound (written_row (MemTable.stream t) w (get t (TableWrite.sk w))) → bound ≤ entry_bound →
  write w t = (MemTable.Mk (MemTable.stream t)
    (<[TableWrite.sk w := written_row (MemTable.stream t) w (get t (TableWrite.sk w))]> (MemTable.rows t)), Outcome.Written).
Proof.
  destruct t as [stream rows]. unfold write, get. cbn [MemTable.stream MemTable.rows]. intros -> Hs Hb.
  by rewrite (small_fits bound).
Qed.

Lemma flag_cell_present t (d : Row) :
  d !! ACTIVE = None ∨ d !! ACTIVE = Some (Cell.Text (MemTable.stream t)) →
  d !! ACTIVE = flag_cell t (bool_decide (is_Some (d !! ACTIVE))).
Proof. unfold flag_cell. intros [-> | ->]; [done|]. by rewrite bool_decide_eq_true_2. Qed.

Lemma stream_attribute t : byte_len (MemTable.stream t) ≤ MAX_PARTITION_BYTES →
  attribute_bytes ACTIVE (Cell.Text (MemTable.stream t)) ≤ edge_bound.
Proof. intros H. unfold attribute_bytes, edge_bound, MAX_PARTITION_BYTES in *. change (byte_len ACTIVE) with 10. lia. Qed.

(** *** Flagging one edge *)
Section flag_edge.
Local Unset Default Proof Using.
Context (t : MemTable) (Hstream : byte_len (MemTable.stream t) ≤ MAX_PARTITION_BYTES) (Hok : edge_rows_ok t).

(** Only the flag of one edge changes. *)
Record flags_one (tag : string) (t' : MemTable) : Prop := {
  flags_stream : MemTable.stream t' = MemTable.stream t;
  flags_other sk : sk ≠ edge_key tag → get t' sk = get t sk;
  flags_base : base_row <$> get t' (edge_key tag) = base_row <$> get t (edge_key tag);
  flags_ok : edge_rows_ok t';
}.

Lemma flags_one_same tag : flags_one tag t.
Proof. by split. Qed.

Lemma edge_rows_ok_insert tag d d' :
  get t (edge_key tag) = Some d → base_row d' = base_row d → d' !! ACTIVE = None ∨ d' !! ACTIVE = Some (Cell.Text (MemTable.stream t)) →
  small edge_bound d' → edge_rows_ok (MemTable.Mk (MemTable.stream t) (<[edge_key tag := d']> (MemTable.rows t))).
Proof.
  intros Hd Hb Ha Hs tag' d0. unfold get. cbn [MemTable.rows MemTable.stream].
  intros [[E <-]|[Hne H]]%lookup_insert_Some; [|by apply Hok]. rewrite !tag_key_text in E.
  apply text_sk_inj with (def1 := edge_adds_def) (def2 := edge_adds_def) in E as [_ [= <-]]; [|done..].
  split_and!; [done..|]. rewrite (row_text_base _ _ _ Hb); [by apply (Hok tag d)|].
  apply (bool_decide_unpack (_ ∉ _)). vm_compute. reflexivity.
Qed.

Lemma store_flag tag edge w d' :
  get t (edge_key tag) = Some edge → TableWrite.sk w = edge_key tag → TableWrite.condition w = Some Cond.RowPresent →
  written_row (MemTable.stream t) w (Some edge) = d' → (∀ a, a ≠ ACTIVE → d' !! a = edge !! a) →
  d' !! ACTIVE = None ∨ d' !! ACTIVE = Some (Cell.Text (MemTable.stream t)) → small edge_bound d' →
  flags_one tag (write w t).1 ∧ get (write w t).1 (edge_key tag) = Some d'.
Proof.
  intros Hget Hsk Hcond Hw Hother Hact Hs. assert (base_row d' = base_row edge) as Hb.
  { apply base_row_ext. intros a Ha. apply Hother. intros ->. apply Ha. unfold INDEX_NAMES. set_solver. }
  rewrite (write_small edge_bound w t); rewrite ?Hsk, ?Hcond, ?Hget, ?Hw; [|done|done|by vm_compute].
  unfold get in *. cbn [fst MemTable.rows]. split; [|apply lookup_insert_eq]. split.
  - done.
  - intros sk Hne. unfold get. cbn [MemTable.rows]. by rewrite lookup_insert_ne.
  - unfold get. cbn [MemTable.rows]. rewrite lookup_insert_eq, Hget. cbn. by rewrite Hb.
  - by apply (edge_rows_ok_insert tag edge).
Qed.

Lemma flag_edge_spec tag edge removed known :
  get t (edge_key tag) = Some edge → match removed with Some r => r = has_row t (tag_key "edge_removes" tag) | None => True end →
  flags_one tag (flag_edge tag edge removed known t) ∧
  ∃ edge', get (flag_edge tag edge removed known t) (edge_key tag) = Some edge' ∧
    edge' !! ACTIVE = flag_cell t (edge_flag t known tag edge).
Proof.
  intros Hget Hrem. destruct (Hok tag edge Hget) as (Hact & Hsmall & Htag). unfold flag_edge.
  replace (is_indexed edge && _ && _) with (edge_flag t known tag edge)
    by (unfold edge_flag; destruct removed as [r|]; [by subst r|done]).
  destruct (Bool.eqb _ _) eqn:Eeq.
  { apply eqb_prop in Eeq. split; [apply flags_one_same|]. exists edge. split; [done|]. rewrite Eeq. by apply flag_cell_present. }
  clear Eeq Hrem. destruct (edge_flag t known tag edge); cbn [flag_cell].
  - destruct (store_flag tag edge (TableWrite.Mk (edge_key tag) [(ACTIVE, Cell.Text (MemTable.stream t))] [] (Some Cond.RowPresent))
      (<[ACTIVE := Cell.Text (MemTable.stream t)]> edge)) as [H1 H2]; try done.
    + intros a Ha. by rewrite lookup_insert_ne.
    + right. apply lookup_insert_eq.
    + apply small_insert; [done|unfold EDGE_NAMES; set_solver|by apply stream_attribute].
    + split; [done|]. eexists. split; [done|]. apply lookup_insert_eq.
  - destruct (store_flag tag edge (TableWrite.Mk (edge_key tag) [] [ACTIVE] (Some Cond.RowPresent)) (delete ACTIVE edge))
      as [H1 H2]; try done.
    + intros a Ha. by rewrite lookup_delete_ne.
    + left. apply lookup_delete_eq.
    + by apply small_delete.
    + split; [done|]. eexists. split; [done|]. apply lookup_delete_eq.
Qed.
End flag_edge.

(** *** Flagging the edges of a ticket *)
Lemma text_sk_ne table1 def1 key1 table2 def2 key2 :
  flow_schema !! table1 = Some def1 → flow_schema !! table2 = Some def2 → table1 ≠ table2 →
  text_sk table1 key1 ≠ text_sk table2 key2.
Proof. intros H1 H2 Hne E. by destruct (text_sk_inj _ _ _ _ _ _ H1 H2 E) as [? _]. Qed.

Lemma item_key_not_edge id tag : item_key id ≠ edge_key tag.
Proof. rewrite item_key_text, tag_key_text. by apply (text_sk_ne _ items_def _ _ edge_adds_def). Qed.

Lemma remove_key_not_edge tag' tag : tag_key "edge_removes" tag' ≠ edge_key tag.
Proof. rewrite !tag_key_text. by apply (text_sk_ne _ removes_def _ _ edge_adds_def). Qed.

Lemma edge_key_inj tag tag' : edge_key tag = edge_key tag' → tag = tag'.
Proof. rewrite !tag_key_text. intros E. by destruct (text_sk_inj "edge_adds" edge_adds_def [tag] "edge_adds" edge_adds_def [tag'] eq_refl eq_refl E) as [_ [= ->]]. Qed.

Lemma item_key_inj id id' : item_key id = item_key id' → id = id'.
Proof. rewrite !item_key_text. intros E. by destruct (text_sk_inj "items" items_def [id] "items" items_def [id'] eq_refl eq_refl E) as [_ [= ->]]. Qed.

Lemma adjacency_not_row e tag table def key : flow_schema !! table = Some def → adjacency_key e tag ≠ text_sk table key.
Proof. intros Hdef E. assert (H := text_sk_no_dot table def key Hdef). by rewrite <-E in H. Qed.

(** The flags of edges may differ, nothing else does. *)
Record flags_some (t t' : MemTable) : Prop := {
  some_stream : MemTable.stream t' = MemTable.stream t;
  some_other sk : (∀ tag, sk ≠ edge_key tag) → get t' sk = get t sk;
  some_base tag : base_row <$> get t' (edge_key tag) = base_row <$> get t (edge_key tag);
  some_ok : edge_rows_ok t';
}.

Lemma flags_some_one t t' tag : flags_one t tag t' → flags_some t t'.
Proof.
  intros [H1 H2 H3 H4]. split; [done| |intros tag'|done].
  - intros sk Hne. apply H2, Hne.
  - destruct (decide (tag' = tag)) as [->|Hne]; [done|]. rewrite H2; [done|]. intros E. by apply Hne, edge_key_inj.
Qed.

Lemma flags_some_trans t1 t2 t3 : flags_some t1 t2 → flags_some t2 t3 → flags_some t1 t3.
Proof.
  intros [H1 H2 H3 H4] [G1 G2 G3 G4]. split; [congruence| |intros tag|done].
  - intros sk Hne. by rewrite G2, H2.
  - by rewrite G3, H3.
Qed.

Lemma some_edge t t' tag d' :
  flags_some t t' → get t' (edge_key tag) = Some d' → ∃ d, get t (edge_key tag) = Some d ∧ base_row d' = base_row d.
Proof.
  intros Hs Hd. assert (H := some_base _ _ Hs tag). rewrite Hd in H.
  destruct (get t (edge_key tag)) as [d|]; [|done]. exists d. cbn in H. by simplify_eq.
Qed.

Lemma end_active_some t t' known e : flags_some t t' → end_active t' known e = end_active t known e.
Proof. intros Hs. unfold end_active. rewrite (some_other _ _ Hs); [done|]. intros tag. apply item_key_not_edge. Qed.

Lemma edge_flag_some t t' known tag d d' :
  flags_some t t' → base_row d' = base_row d → edge_flag t' known tag d' = edge_flag t known tag d.
Proof.
  intros Hs E. unfold edge_flag. rewrite (is_indexed_base _ _ E), (edge_ends_base _ _ E).
  unfold has_row. rewrite (some_other _ _ Hs) by (intros tag'; apply remove_key_not_edge). f_equal.
  induction (edge_ends d) as [|e ends IH]; [done|]. cbn [existsb]. by rewrite IH, (end_active_some t t').
Qed.

(** An edge has the flag it should have. *)
Definition right_edge (t : MemTable) (known : option (string * bool)) (tag : string) : Prop :=
  ∀ d, get t (edge_key tag) = Some d → d !! ACTIVE = flag_cell t (edge_flag t known tag d).

Lemma right_edge_other t t' known tag tag' :
  flags_one t tag t' → tag' ≠ tag → right_edge t known tag' → right_edge t' known tag'.
Proof.
  intros H1 Hne Hr d Hd. assert (Hs := flags_some_one _ _ _ H1).
  rewrite (flags_other _ _ _ H1) in Hd by (intros E; by apply Hne, edge_key_inj).
  rewrite (Hr d Hd), (edge_flag_some t t' _ _ d d) by done. unfold flag_cell. by rewrite (some_stream _ _ Hs).
Qed.

Lemma flag_edge_right t tag edge removed known :
  byte_len (MemTable.stream t) ≤ MAX_PARTITION_BYTES → edge_rows_ok t → get t (edge_key tag) = Some edge →
  match removed with Some r => r = has_row t (tag_key "edge_removes" tag) | None => True end →
  right_edge (flag_edge tag edge removed known t) known tag.
Proof.
  intros Hlen Hok Hget Hrem. destruct (flag_edge_spec t Hlen Hok tag edge removed known Hget Hrem) as [H1 (edge' & Hg & Ha)].
  assert (Hs := flags_some_one _ _ _ H1). intros d Hd. rewrite Hg in Hd. simplify_eq. rewrite Ha.
  rewrite (edge_flag_some t _ known tag edge d Hs).
  - unfold flag_cell. by rewrite (some_stream _ _ Hs).
  - assert (H := flags_base _ _ _ H1). rewrite Hg, Hget in H. cbn in H. by simplify_eq.
Qed.

Section flip.
Local Unset Default Proof Using.
Context (id : string) (active : bool).
Abbreviation known := (Some (id, active)).

Lemma flag_entry_spec t entry :
  byte_len (MemTable.stream t) ≤ MAX_PARTITION_BYTES → edge_rows_ok t →
  flags_some t (flag_entry id active t entry) ∧
  ∀ tag, right_edge t known tag ∨ row_text entry "tag" = Some tag → right_edge (flag_entry id active t entry) known tag.
Proof.
  intros Hlen Hok. unfold flag_entry. destruct (row_text entry "tag") as [tag|] eqn:Et.
  2: { split; [by split|]. by intros tag [?|?]. }
  destruct (get t (tag_key "edge_adds" tag)) as [edge|] eqn:Hget.
  2: { split; [by split|]. intros tag' [?|[= <-]]; [done|]. intros d Hd. congruence. }
  destruct (flag_edge_spec t Hlen Hok tag edge None known Hget I) as [H1 _]. split; [by eapply flags_some_one|].
  intros tag' H. destruct (decide (tag' = tag)) as [->|Hne]; [by apply flag_edge_right|].
  destruct H as [H|[= ->]]; [|done]. by eapply right_edge_other.
Qed.

Lemma flag_entries_spec entries t :
  byte_len (MemTable.stream t) ≤ MAX_PARTITION_BYTES → edge_rows_ok t →
  flags_some t (foldl (flag_entry id active) t entries) ∧
  ∀ tag, right_edge t known tag ∨ (∃ entry, entry ∈ entries ∧ row_text entry "tag" = Some tag) →
    right_edge (foldl (flag_entry id active) t entries) known tag.
Proof.
  revert t. induction entries as [|entry entries IH]; intros t Hlen Hok; cbn [foldl].
  { split; [by split|]. intros tag [?|(entry & ?%not_elem_of_nil & _)]; done. }
  destruct (flag_entry_spec t entry Hlen Hok) as [Hs Hr].
  destruct (IH (flag_entry id active t entry)) as [Hs2 Hr2]; [by rewrite (some_stream _ _ Hs)|apply Hs|].
  split; [by eapply flags_some_trans|]. intros tag [H|(e & [->|Hin]%elem_of_cons & Ht)]; apply Hr2.
  - left. apply Hr. by left.
  - left. apply Hr. by right.
  - right. by exists e.
Qed.
End flip.

(** ** Queries *)
Lemma elem_of_rows_in_order t sk d : (sk, d) ∈ rows_in_order t ↔ get t sk = Some d.
Proof.
  unfold rows_in_order, get. rewrite list_elem_of_omap. split.
  - intros (sk' & _ & H). destruct (MemTable.rows t !! sk') eqn:E; by simplify_eq/=.
  - intros H. exists sk. rewrite elem_of_sorted_keys, H. split; [by exists d|done].
Qed.

Lemma elem_of_query_prefix t prefix d :
  d ∈ query_prefix t prefix ↔ ∃ sk, get t sk = Some d ∧ starts_with prefix sk = true.
Proof.
  unfold query_prefix. rewrite list_elem_of_fmap. split.
  - intros ([sk d'] & -> & [Hp Hin]%list_elem_of_filter). exists sk. by rewrite elem_of_rows_in_order in Hin.
  - intros (sk & Hget & Hp). exists (sk, d). split; [done|]. apply list_elem_of_filter. by rewrite elem_of_rows_in_order.
Qed.

Lemma elem_of_query_active t d :
  d ∈ query_active t ↔ ∃ sk, get t sk = Some d ∧ d !! ACTIVE = Some (Cell.Text (MemTable.stream t)).
Proof.
  unfold query_active, query_attribute. rewrite list_elem_of_filter, list_elem_of_fmap. split.
  - intros (Ha & [sk d'] & -> & Hin). exists sk. by rewrite elem_of_rows_in_order in Hin.
  - intros (sk & Hget & Ha). split; [done|]. exists (sk, d). by rewrite elem_of_rows_in_order.
Qed.

(** ** The indexes are right *)

(** But for the tickets of [X] and the edges of [Y], which are still to be looked at. *)
Record indexed (X Y : gset string) (t : MemTable) : Prop := {
  ix_stream : byte_len (MemTable.stream t) ≤ MAX_PARTITION_BYTES;
  ix_right id d : id ∉ X → get t (item_key id) = Some d → right_item (MemTable.stream t) id d;
  ix_shape id d : get t (item_key id) = Some d → index_shape (MemTable.stream t) d;
  ix_edge tag : tag ∉ Y → right_edge t None tag;
  ix_filed tag d e :
    tag ∉ Y → get t (edge_key tag) = Some d → e ∈ edge_ends d → is_Some (get t (adjacency_key e tag));
  ix_edges : edge_rows_ok t;
  ix_entries e tag a :
    get t (adjacency_key e tag) = Some a → small entry_bound a ∧ row_text a "tag" = Some tag;
}.

Lemma ix_item X Y t :
  indexed X Y t → ∀ id d, id ∉ X → get t (item_key id) = Some d → d !! ACTIVE = flag_cell t (is_active_row d).
Proof. intros Hix id d Hid Hd. apply stored_as_active. by apply (ix_right _ _ _ Hix id d Hid Hd). Qed.

Lemma existsb_ext_elem {A} (f g : A → bool) (l : list A) : (∀ x, x ∈ l → f x = g x) → existsb f l = existsb g l.
Proof.
  induction l as [|x l IH]; intros H; [done|]. cbn [existsb]. rewrite (H x) by by left. f_equal. apply IH. intros y Hy. apply H. by right.
Qed.

(** *** A ticket *)
Section refresh.
Local Unset Default Proof Using.
Context (id : string) (X Y : gset string) (t : MemTable) (row : Row).
Context (Hix : indexed X Y t) (Hrow : get t (item_key id) = Some row).
Abbreviation active := (is_active_row row).
Abbreviation known := (Some (id, active)).

Lemma known_elsewhere tag d : id ∉ edge_ends d → edge_flag t known tag d = edge_flag t None tag d.
Proof.
  intros Hid. unfold edge_flag. f_equal. apply existsb_ext_elem. intros e He. unfold end_active.
  rewrite bool_decide_eq_false_2; [done|]. by intros ->.
Qed.

Lemma known_stored tag d :
  Bool.eqb active (bool_decide (is_Some (row !! ACTIVE))) = true → edge_flag t known tag d = edge_flag t None tag d.
Proof.
  intros Heq%eqb_prop. unfold edge_flag. f_equal. apply existsb_ext_elem. intros e He. unfold end_active.
  destruct (bool_decide (id = e)) eqn:Hid; [|done]. apply bool_decide_eq_true in Hid as <-. by rewrite Hrow.
Qed.

Lemma flip_edges_spec :
  flags_some t (flip_edges id row t) ∧ ∀ tag, tag ∉ Y → right_edge (flip_edges id row t) known tag.
Proof.
  unfold flip_edges. destruct (Bool.eqb active (bool_decide (is_Some (row !! ACTIVE)))) eqn:Heq.
  - split; [split; try done; apply Hix|]. intros tag Htag d Hd. rewrite known_stored by done. by apply (ix_edge _ _ _ Hix).
  - destruct (flag_entries_spec id active (query_prefix t (adjacency_prefix id)) t) as [Hs Hr]; [apply Hix..|].
    split; [done|]. intros tag Htag. apply Hr. destruct (get t (tag_key "edge_adds" tag)) as [d|] eqn:Hd.
    2: { left. intros d Hd'. congruence. }
    destruct (decide (id ∈ edge_ends d)) as [Hin|Hnot].
    + right. destruct (ix_filed _ _ _ Hix tag d id Htag Hd Hin) as [a Ha]. exists a.
      split; [|by apply (ix_entries _ _ _ Hix id)]. apply elem_of_query_prefix. exists (adjacency_key id tag).
      split; [done|]. apply starts_with_app.
    + left. intros d' Hd'. simplify_eq. rewrite known_elsewhere by done. by apply (ix_edge _ _ _ Hix).
Qed.

(** After the ticket's own flag, every flag is right. *)
Lemma indexed_flagged t1 t2 row2 :
  flags_some t t1 → (∀ tag, tag ∉ Y → right_edge t1 known tag) → MemTable.stream t2 = MemTable.stream t1 →
  (∀ sk, sk ≠ item_key id → get t2 sk = get t1 sk) → get t2 (item_key id) = Some row2 → base_row row2 = base_row row →
  right_item (MemTable.stream t) id row2 → indexed (X ∖ {[id]}) Y t2.
Proof.
  intros Hs Hr Hst Hother Hrow2 Hb Hright. assert (row2 !! ACTIVE = flag_cell t active) as Ha.
  { rewrite <-(is_active_row_base _ _ Hb). apply stored_as_active, Hright. }
  assert (Hst' := some_stream _ _ Hs).
  assert (∀ tag, get t2 (edge_key tag) = get t1 (edge_key tag)) as Hedge
    by (intros tag; apply Hother, not_eq_sym, item_key_not_edge).
  assert (∀ e tag, get t2 (adjacency_key e tag) = get t (adjacency_key e tag)) as Hadj.
  { intros e tag. rewrite Hother by (rewrite item_key_text; by apply adjacency_not_row with items_def).
    apply (some_other _ _ Hs). intros tag'. rewrite tag_key_text. by apply adjacency_not_row with edge_adds_def. }
  assert (∀ id', id' ≠ id → get t2 (item_key id') = get t (item_key id')) as Hitem.
  { intros id' Hne. rewrite Hother by (intros E; by apply Hne, item_key_inj). apply (some_other _ _ Hs).
    intros tag. apply item_key_not_edge. }
  assert (∀ b, flag_cell t2 b = flag_cell t b) as Hcell by (intros b; unfold flag_cell; by rewrite Hst, Hst').
  split.
  - rewrite Hst, Hst'. apply Hix.
  - intros id' d Hid Hd. destruct (decide (id' = id)) as [->|Hne].
    + rewrite Hrow2 in Hd. simplify_eq. by rewrite Hst, Hst'.
    + rewrite Hitem in Hd by done. rewrite Hst, Hst'. apply (ix_right _ _ _ Hix id'); [set_solver|done].
  - intros id' d Hd. rewrite Hst, Hst'. destruct (decide (id' = id)) as [->|Hne].
    + rewrite Hrow2 in Hd. simplify_eq. by eapply right_shape.
    + rewrite Hitem in Hd by done. by apply (ix_shape _ _ _ Hix id').
  - intros tag Htag d Hd. rewrite Hedge in Hd. rewrite (Hr tag Htag d Hd), Hcell.
    assert (edge_flag t2 None tag d = edge_flag t1 known tag d) as ->.
    { unfold edge_flag, has_row. rewrite Hother by (rewrite item_key_text, tag_key_text;
        by apply (text_sk_ne _ removes_def _ _ items_def)). f_equal. apply existsb_ext_elem. intros e He. unfold end_active.
      destruct (bool_decide (id = e)) eqn:Hid.
      - apply bool_decide_eq_true in Hid as <-. rewrite Hrow2, Ha. unfold flag_cell. by destruct active.
      - apply bool_decide_eq_false in Hid. rewrite Hother; [done|]. intros E. apply Hid. symmetry. by apply item_key_inj. }
    unfold flag_cell. by rewrite Hst'.
  - intros tag d e Htag Hd He. rewrite Hedge in Hd. destruct (some_edge _ _ _ _ Hs Hd) as (d0 & Hd0 & E).
    rewrite Hadj. apply (ix_filed _ _ _ Hix tag d0); [done..|]. by rewrite <-(edge_ends_base _ _ E).
  - intros tag d Hd. rewrite Hedge in Hd. rewrite Hst. by apply (some_ok _ _ Hs).
  - intros e tag a. rewrite Hadj. apply Hix.
Qed.
End refresh.

Lemma refresh_item_indexed id X Y t :
  indexed X Y t → (refresh_item id t).2 ≠ Some Outcome.TooLarge → indexed (X ∖ {[id]}) Y (refresh_item id t).1.
Proof.
  intros Hix. destruct (get t (item_key id)) as [row|] eqn:Hrow.
  2: { unfold refresh_item. rewrite Hrow. intros _. destruct Hix as [H1 H2 H3 H4 H5 H6 H7]. split; try done.
       intros id' d Hid Hd. apply (H2 id'); [|done]. intros Hin. destruct (decide (id' = id)) as [->|]; [|set_solver]. cbn in Hd. congruence. }
  destruct (refresh_item_write id t row Hrow) as (set & remove & Hw & Hact & ->).
  destruct (flip_edges_spec id X Y t row Hix Hrow) as [Hs Hr]. set (t1 := flip_edges id row t) in *.
  assert (get t1 (item_key id) = Some row) as Hrow1
    by (rewrite (some_other _ _ Hs); [done|intros tag; apply item_key_not_edge]).
  specialize (Hact (ix_shape _ _ _ Hix id row Hrow)).
  destruct (bool_decide (set = []) && bool_decide (remove = [])) eqn:Eempty.
  - intros _. apply andb_true_iff in Eempty as [->%bool_decide_eq_true ->%bool_decide_eq_true].
    by apply (indexed_flagged id X Y t row Hix Hrow t1 t1 row).
  - destruct (write _ t1) as [t2 o] eqn:E. cbn [fst snd]. intros Ho.
    assert (t2 = (write (TableWrite.Mk (item_key id) set remove (Some Cond.RowPresent)) t1).1) as Et by by rewrite E.
    apply write_cases in E as [(_ & Hget & _)|(_ & _ & Hcond)]; [..|congruence]; cbn [TableWrite.sk TableWrite.condition] in *.
    2: { by rewrite Hrow1 in Hcond. }
    rewrite Hrow1, (some_stream _ _ Hs) in Hget. eapply (indexed_flagged id X Y t row Hix Hrow t1 t2); try done.
    + by rewrite Et, write_stream.
    + intros sk Hsk. rewrite Et. by apply write_other.
    + apply base_row_ext. intros a Ha. by apply index_written_other.
Qed.

Lemma refresh_items_indexed ids X Y t :
  indexed X Y t → (refresh_items ids t).2 = [] → indexed (X ∖ list_to_set ids) Y (refresh_items ids t).1.
Proof.
  unfold refresh_items. set (step := λ '(t, unwritten) id, let '(t, outcome) := refresh_item id t in
    (t, if bool_decide (outcome = Some Outcome.TooLarge) then unwritten ++ [Unwritten.IndexAttributes id] else unwritten)).
  revert X t. induction ids as [|id ids IH]; intros X t Hix; cbn [foldl fst snd].
  { intros _. by rewrite list_to_set_nil, difference_empty_L. }
  intros Hnone. assert ((step (t, []) id).2 = []) as Hfirst.
  { revert Hnone. apply foldl_app_snd. intros [t0 u] id'. unfold step. destruct (refresh_item id' t0) as [t2 o]. cbn.
    case_bool_decide; [by eexists|exists []; by rewrite app_nil_r]. }
  assert (H := refresh_item_indexed id X Y t Hix). revert Hfirst Hnone. unfold step at 1 3 5.
  destruct (refresh_item id t) as [t1 o]. cbn [fst snd] in *. case_bool_decide as Ho; [done|]. intros _ Hnone.
  replace (X ∖ list_to_set (id :: ids)) with (X ∖ {[id]} ∖ list_to_set ids) by (rewrite list_to_set_cons; set_solver).
  apply IH; [by apply H|done].
Qed.

(** *** An edge *)
Lemma escape_len_upper v : byte_len (escape v) ≤ 3 * byte_len v.
Proof.
  unfold byte_len. induction v as [|a v IH]; [done|]. rewrite escape_cons, string_length_app.
  assert (String.length (escape_char a) <= 3)%nat by (unfold escape_char; repeat case_decide; simpl; lia).
  cbn [String.length]. lia.
Qed.

Lemma byte_len_app a b : byte_len (a +:+ b) = byte_len a + byte_len b.
Proof. unfold byte_len. rewrite string_length_app. lia. Qed.

Lemma adjacency_key_len e tag : byte_len (adjacency_key e tag) = 6 + byte_len (escape e) + byte_len (escape tag).
Proof.
  unfold adjacency_key, adjacency_prefix. rewrite !byte_len_app. change (byte_len ADJACENCY) with 5.
  change (byte_len "#") with 1. lia.
Qed.

Lemma row_text_Some (d : Row) a v : row_text d a = Some v ↔ d !! a = Some (Cell.Text v).
Proof. unfold row_text. split; [|by intros ->]. destruct (d !! a) as [[| |]|]; by intros [= ->]. Qed.

Lemma small_text bound d a v : small bound d → row_text d a = Some v → byte_len v ≤ bound.
Proof. intros Hs H%row_text_Some. apply Hs in H as [_ H]. unfold attribute_bytes in H. lia. Qed.

Lemma elem_of_copied (d : Row) columns a v : (a, v) ∈ copied d columns → a ∈ columns ∧ d !! a = Some v.
Proof.
  unfold copied. intros (c & Hc & H)%list_elem_of_omap. destruct (d !! c) as [[| |]|] eqn:E; by simplify_eq.
Qed.

Section entries.
Local Unset Default Proof Using.
Context (tag : string) (edge : Row) (removed : bool).
Context (Hsmall : small edge_bound edge) (Htag : row_text edge "tag" = Some tag).

Definition entry_cells : Cells := ("tag", Cell.Text tag) :: copied edge EDGE_COPIES ++ [(REMOVED, flag removed)].

Lemma entry_cells_small : Forall (λ c, c.1 ∈ EDGE_NAMES ∧ attribute_bytes c.1 c.2 ≤ entry_bound) entry_cells.
Proof.
  assert (∀ a v, edge !! a = Some v → a ∈ EDGE_NAMES ∧ attribute_bytes a v ≤ entry_bound) as Hedge
    by (apply (small_mono edge_bound); [by vm_compute|done]).
  constructor; [by apply Hedge, row_text_Some|]. apply Forall_app. split.
  - apply Forall_forall. intros [a v] [_ H]%elem_of_copied. by apply Hedge.
  - apply Forall_singleton. split; [unfold EDGE_NAMES; set_solver|]. by destruct removed; vm_compute.
Qed.

Lemma entry_row_tag d : row_text (set_cells entry_cells d) "tag" = Some tag.
Proof.
  apply row_text_Some. unfold entry_cells. rewrite set_cells_cons, set_cells_lookup_ne; [apply lookup_insert_eq|].
  rewrite fmap_app, not_elem_of_app. split.
  - intros ([a v] & E & [H _]%elem_of_copied)%list_elem_of_fmap. cbn [fst] in E. subst a. revert H.
    apply (bool_decide_unpack (_ ∉ _)). vm_compute. reflexivity.
  - apply (bool_decide_unpack (_ ∉ _)). vm_compute. reflexivity.
Qed.

Lemma fresh_entry_small stream e :
  byte_len stream ≤ MAX_PARTITION_BYTES → e ∈ edge_ends edge → small entry_bound (fresh_row stream (adjacency_key e tag)).
Proof.
  intros Hlen He. assert (byte_len tag ≤ edge_bound) as Ht by by eapply small_text.
  assert (byte_len e ≤ edge_bound) as He'.
  { unfold edge_ends in He. apply list_elem_of_omap in He as (a & _ & He). by eapply small_text. }
  unfold fresh_row. apply small_insert; [|unfold EDGE_NAMES; set_solver|].
  - intros a v [<- <-]%lookup_singleton_Some. split; [unfold EDGE_NAMES; set_solver|]. unfold attribute_bytes.
    rewrite adjacency_key_len. assert (H1 := escape_len_upper e). assert (H2 := escape_len_upper tag).
    change (byte_len SK) with 2. unfold edge_bound, entry_bound in *. lia.
  - unfold attribute_bytes. change (byte_len PK) with 9. unfold MAX_PARTITION_BYTES, entry_bound in *. lia.
Qed.

(** Entries under some ends are written, nothing else. *)
Record files_entries (ends : list string) (t t' : MemTable) : Prop := {
  files_stream : MemTable.stream t' = MemTable.stream t;
  files_other sk : (∀ e, sk ≠ adjacency_key e tag) → get t' sk = get t sk;
  files_kept sk : is_Some (get t sk) → is_Some (get t' sk);
  files_filed e : e ∈ ends → is_Some (get t' (adjacency_key e tag));
  files_entries_ok e tag' a : get t' (adjacency_key e tag') = Some a → small entry_bound a ∧ row_text a "tag" = Some tag';
}.

Lemma write_entry e t :
  byte_len (MemTable.stream t) ≤ MAX_PARTITION_BYTES → e ∈ edge_ends edge →
  (∀ e tag a, get t (adjacency_key e tag) = Some a → small entry_bound a ∧ row_text a "tag" = Some tag) →
  files_entries [e] t (write (put_row (adjacency_key e tag) entry_cells) t).1.
Proof.
  intros Hlen He Hok. set (key := adjacency_key e tag).
  assert (written_row (MemTable.stream t) (put_row key entry_cells) (get t key) =
          set_cells entry_cells (default (fresh_row (MemTable.stream t) key) (get t key))) as Hrow by done.
  assert (small entry_bound (set_cells entry_cells (default (fresh_row (MemTable.stream t) key) (get t key)))) as Hs.
  { apply small_set_cells; [|apply entry_cells_small]. destruct (get t key) as [d|] eqn:E; cbn [default from_option].
    - by apply Hok in E as [? _].
    - by apply fresh_entry_small. }
  rewrite (write_small entry_bound); cbn [put_row TableWrite.sk TableWrite.condition fst] in *; [|done|by rewrite Hrow|done].
  rewrite Hrow. unfold get. cbn [MemTable.rows]. split.
  - done.
  - intros sk Hne. unfold get. cbn [MemTable.rows]. apply lookup_insert_ne. apply not_eq_sym, Hne.
  - intros sk Hsk. unfold get in *. cbn [MemTable.rows]. destruct (decide (sk = key)) as [->|Hne].
    + rewrite lookup_insert_eq. by eexists.
    + by rewrite lookup_insert_ne.
  - intros e' ->%list_elem_of_singleton. unfold get. cbn [MemTable.rows]. fold key. rewrite lookup_insert_eq. by eexists.
  - intros e' tag' a. unfold get. cbn [MemTable.rows]. intros [[E <-]|[_ H]]%lookup_insert_Some; [|by apply (Hok e')].
    destruct (adjacency_key_inj _ _ _ _ E) as [_ <-]. split; [done|apply entry_row_tag].
Qed.

Lemma write_entries ends t :
  byte_len (MemTable.stream t) ≤ MAX_PARTITION_BYTES → (∀ e, e ∈ ends → e ∈ edge_ends edge) →
  (∀ e tag a, get t (adjacency_key e tag) = Some a → small entry_bound a ∧ row_text a "tag" = Some tag) →
  files_entries ends t (foldl (λ t e, (write (put_row (adjacency_key e tag) entry_cells) t).1) t ends).
Proof.
  revert t. induction ends as [|e ends IH]; intros t Hlen Hends Hok; cbn [foldl].
  { split; [done..|by intros e ?%not_elem_of_nil|done]. }
  assert (H1 := write_entry e t Hlen (Hends e ltac:(by left)) Hok). set (t1 := (write _ t).1) in *.
  destruct (IH t1) as [G1 G2 G3 G4 G5]; [by rewrite (files_stream _ _ _ H1)|intros; apply Hends; by right|apply H1|].
  split.
  - by rewrite G1, (files_stream _ _ _ H1).
  - intros sk Hne. by rewrite G2, (files_other _ _ _ H1).
  - intros sk Hsk. by apply G3, (files_kept _ _ _ H1).
  - intros e' [->|Hin]%elem_of_cons; [|by apply G4]. apply G3, (files_filed _ _ _ H1). by left.
  - done.
Qed.
End entries.

Lemma edge_flag_gets t t' known tag d :
  (∀ id, get t' (item_key id) = get t (item_key id)) →
  get t' (tag_key "edge_removes" tag) = get t (tag_key "edge_removes" tag) →
  edge_flag t' known tag d = edge_flag t known tag d.
Proof.
  intros Hi Hr. unfold edge_flag, has_row. rewrite Hr. f_equal. apply existsb_ext_elem. intros e _. unfold end_active. by rewrite Hi.
Qed.

Lemma link_edge_indexed tag X Y t : indexed X Y t → indexed X (Y ∖ {[tag]}) (link_edge tag t).
Proof.
  intros Hix. unfold link_edge. destruct (get t (tag_key "edge_adds" tag)) as [edge|] eqn:Hget.
  2: { destruct Hix as [H1 H2 H3 H4 H5 H6 H7]. split; try done.
       - intros tag' Htag. destruct (decide (tag' = tag)) as [->|]; [|apply H4; set_solver]. intros d Hd. congruence.
       - intros tag' d e Htag Hd. destruct (decide (tag' = tag)) as [->|]; [congruence|]. apply H5; [set_solver|done]. }
  destruct (ix_edges _ _ _ Hix tag edge Hget) as (_ & Hsmall & Htag).
  set (removed := has_row t (tag_key "edge_removes" tag)). set (t1 := write_adjacency tag edge removed t).
  assert (files_entries tag (sorted_set (list_to_set (edge_ends edge))) t t1) as Hf.
  { apply write_entries; [done|done|apply Hix| |apply Hix]. intros e. by rewrite elem_of_sorted_set, elem_of_list_to_set. }
  assert (∀ table def key, flow_schema !! table = Some def → get t1 (text_sk table key) = get t (text_sk table key)) as Hrows.
  { intros table def key Hdef. apply (files_other _ _ _ _ Hf). intros e. apply not_eq_sym. by eapply adjacency_not_row. }
  assert (∀ tag', get t1 (edge_key tag') = get t (edge_key tag')) as Hedge
    by (intros tag'; rewrite tag_key_text; by apply Hrows with edge_adds_def).
  assert (∀ id, get t1 (item_key id) = get t (item_key id)) as Hitem
    by (intros id; rewrite item_key_text; by apply Hrows with items_def).
  assert (∀ tag', get t1 (tag_key "edge_removes" tag') = get t (tag_key "edge_removes" tag')) as Hrem
    by (intros tag'; rewrite tag_key_text; by apply Hrows with removes_def).
  assert (byte_len (MemTable.stream t1) ≤ MAX_PARTITION_BYTES) as Hlen by (rewrite (files_stream _ _ _ _ Hf); apply Hix).
  assert (edge_rows_ok t1) as Hok.
  { intros tag' d Hd. rewrite Hedge in Hd. rewrite (files_stream _ _ _ _ Hf). by apply (ix_edges _ _ _ Hix). }
  assert (get t1 (edge_key tag) = Some edge) as Hget1 by by rewrite Hedge.
  assert (removed = has_row t1 (tag_key "edge_removes" tag)) as Hremoved by (unfold removed, has_row; by rewrite Hrem).
  destruct (flag_edge_spec t1 Hlen Hok tag edge (Some removed) None Hget1 Hremoved) as [H1 _].
  assert (Hs := flags_some_one _ _ _ H1).
  assert (right_edge (flag_edge tag edge (Some removed) None t1) None tag) as Hright by by apply flag_edge_right.
  set (t2 := flag_edge tag edge (Some removed) None t1) in *.
  assert (MemTable.stream t2 = MemTable.stream t) as Hst by by rewrite (some_stream _ _ Hs), (files_stream _ _ _ _ Hf).
  assert (∀ id, get t2 (item_key id) = get t (item_key id)) as Hitem2.
  { intros id. rewrite (some_other _ _ Hs); [done|]. intros tag'. apply item_key_not_edge. }
  assert (∀ e tag', get t2 (adjacency_key e tag') = get t1 (adjacency_key e tag')) as Hadj.
  { intros e tag'. apply (some_other _ _ Hs). intros tag2. rewrite tag_key_text. by apply adjacency_not_row with edge_adds_def. }
  split.
  - rewrite Hst. apply Hix.
  - intros id d Hid. rewrite Hitem2, Hst. by apply Hix.
  - intros id d. rewrite Hitem2, Hst. apply Hix.
  - intros tag' Htag'. destruct (decide (tag' = tag)) as [->|Hne]; [done|]. apply (right_edge_other t1 _ _ tag); [done..|].
    intros d Hd. rewrite Hedge in Hd. rewrite (edge_flag_gets t t1) by done. unfold flag_cell.
    rewrite (files_stream _ _ _ _ Hf). apply (ix_edge _ _ _ Hix); [set_solver|done].
  - intros tag' d e Htag' Hd He. rewrite Hadj. destruct (some_edge _ _ _ _ Hs Hd) as (d0 & Hd0 & E).
    rewrite (edge_ends_base _ _ E) in He. destruct (decide (tag' = tag)) as [->|Hne].
    + rewrite Hget1 in Hd0. simplify_eq. apply (files_filed _ _ _ _ Hf). by rewrite elem_of_sorted_set, elem_of_list_to_set.
    + apply (files_kept _ _ _ _ Hf). rewrite Hedge in Hd0. apply (ix_filed _ _ _ Hix tag' d0); [set_solver|done|done].
  - apply Hs.
  - intros e tag' a. rewrite Hadj. apply (files_entries_ok _ _ _ _ Hf).
Qed.

Lemma link_edges_indexed tags X Y t : indexed X Y t → indexed X (Y ∖ list_to_set tags) (link_edges tags t).
Proof.
  unfold link_edges. revert Y t. induction tags as [|tag tags IH]; intros Y t Hix; cbn [foldl].
  { by rewrite list_to_set_nil, difference_empty_L. }
  replace (Y ∖ list_to_set (tag :: tags)) with (Y ∖ {[tag]} ∖ list_to_set tags) by (rewrite list_to_set_cons; set_solver).
  by apply IH, link_edge_indexed.
Qed.

(** *** What is beside *)
Lemma row_not_entry table def key : flow_schema !! table = Some def → entry_key (text_sk table key) = false.
Proof. intros Hdef. unfold entry_key. by rewrite (text_sk_no_dot _ _ key Hdef). Qed.

Lemma adjacency_not_entry e tag : entry_key (adjacency_key e tag) = false.
Proof. done. Qed.

Lemma indexed_entries X Y t t' :
  MemTable.stream t = MemTable.stream t' → (∀ sk, entry_key sk = false → get t sk = get t' sk) → indexed X Y t → indexed X Y t'.
Proof.
  intros Hst Hget Hix.
  assert (∀ tag, get t' (edge_key tag) = get t (edge_key tag)) as Hedge.
  { intros tag. symmetry. apply Hget. rewrite tag_key_text. by apply row_not_entry with edge_adds_def. }
  assert (∀ id, get t' (item_key id) = get t (item_key id)) as Hitem.
  { intros id. symmetry. apply Hget. rewrite item_key_text. by apply row_not_entry with items_def. }
  assert (∀ tag, get t' (tag_key "edge_removes" tag) = get t (tag_key "edge_removes" tag)) as Hrem.
  { intros tag. symmetry. apply Hget. rewrite tag_key_text. by apply row_not_entry with removes_def. }
  assert (∀ e tag, get t' (adjacency_key e tag) = get t (adjacency_key e tag)) as Hadj.
  { intros e tag. symmetry. apply Hget, adjacency_not_entry. }
  split.
  - rewrite <-Hst. apply Hix.
  - intros id d Hid. rewrite Hitem, <-Hst. by apply Hix.
  - intros id d. rewrite Hitem, <-Hst. apply Hix.
  - intros tag Htag d. rewrite Hedge. intros Hd. unfold flag_cell. rewrite (edge_flag_gets t t'), <-Hst by done.
    by apply (ix_edge _ _ _ Hix).
  - intros tag d e Htag. rewrite Hedge, Hadj. by apply Hix.
  - intros tag d. rewrite Hedge, <-Hst. apply Hix.
  - intros e tag a. rewrite Hadj. apply Hix.
Qed.

Lemma indexed_beside X Y t t' : beside t t' → indexed X Y t → indexed X Y t'.
Proof. intros [Hst _ Hget]. apply indexed_entries; [done|]. intros sk Hsk. apply Hget. unfold beside_key. by rewrite Hsk. Qed.

Lemma indexed_marks X Y t t' : marks t t' → indexed X Y t → indexed X Y t'.
Proof. intros [Hst _ Hget]. apply indexed_entries; [done|]. intros sk Hsk. apply Hget. by intros ->. Qed.

Lemma after_indexed changes t :
  indexed (list_to_set (touched_items changes)) (list_to_set (touched_edges changes)) t → (after changes t).2 = [] →
  indexed ∅ ∅ (after changes t).1.
Proof.
  intros Hix Hnone. destruct (after_stages changes t) as [Hb Hu]. eapply indexed_beside; [exact Hb|].
  assert (H := link_edges_indexed (touched_edges changes) _ _ _ (refresh_items_indexed _ _ _ _ Hix (Hu Hnone))).
  by rewrite !difference_diag_L in H.
Qed.

(** *** The changes themselves *)
Lemma small_written bound table stream sk set cond stored :
  small bound (default (fresh_row stream sk) stored) →
  Forall (λ c, c.1 ∈ EDGE_NAMES ∧ attribute_bytes c.1 c.2 ≤ bound) set →
  small bound (written_row stream (planned table sk set cond) stored).
Proof.
  intros Hd Hset. unfold written_row, planned. cbn [TableWrite.set TableWrite.remove TableWrite.sk].
  assert (small bound (set_cells (null_as_absent table set).1 (default (fresh_row stream sk) stored))) as Hs.
  { apply small_set_cells; [done|]. unfold null_as_absent. cbn [fst]. rewrite Forall_forall in Hset.
    apply Forall_forall. intros c [_ Hc]%list_elem_of_filter. by apply Hset. }
  revert Hs. generalize (set_cells (null_as_absent table set).1 (default (fresh_row stream sk) stored)).
  induction (null_as_absent table set).2 as [|a names IH]; intros d Hs; [done|]. cbn [foldl]. apply IH. by apply small_delete.
Qed.

Lemma fresh_small stream sk :
  byte_len stream ≤ MAX_PARTITION_BYTES → byte_len sk ≤ MAX_KEY_BYTES → small edge_bound (fresh_row stream sk).
Proof.
  intros Hlen Hsk. unfold fresh_row. apply small_insert; [|unfold EDGE_NAMES; set_solver|].
  - intros a v [<- <-]%lookup_singleton_Some. split; [unfold EDGE_NAMES; set_solver|]. unfold attribute_bytes.
    change (byte_len SK) with 2. unfold edge_bound, MAX_KEY_BYTES in *. lia.
  - unfold attribute_bytes. change (byte_len PK) with 9. unfold MAX_PARTITION_BYTES, edge_bound in *. lia.
Qed.

(** What keeps an edge's row small. *)
Record edge_fits (c : Change) (key : list string) : Prop := {
  edge_fits_key : byte_len (text_sk (Change.table c) key) ≤ MAX_KEY_BYTES;
  edge_fits_cells : Forall (λ x, x.1 ∈ EDGE_NAMES ∧ attribute_bytes x.1 x.2 ≤ edge_bound) (cells_of c);
}.

Section write_change.
Local Unset Default Proof Using.
Context (c : Change) (def : TableDef) (key : list string) (X Y : gset string) (t t' : MemTable) (o : Outcome).
Context (Hc : plannable c def key) (Hix : indexed X Y t).
Context (Hwrite : write (planned (table_layout def) (text_sk (Change.table c) key) (cells_of c)
  (plan_condition (table_layout def) (Change.effect c))) t = (t', o)) (Ho : o ≠ Outcome.TooLarge).
Context (Hitems : ∀ id, Change.table c = "items" → key = [id] → id ∈ X).
Context (Hadds : ∀ tag, Change.table c = "edge_adds" → key = [tag] → tag ∈ Y ∧ edge_fits c key).
Context (Hremoves : ∀ tag, Change.table c = "edge_removes" → key = [tag] → tag ∈ Y).
Abbreviation sk := (text_sk (Change.table c) key).

Lemma written_attribute d' a :
  a ∈ INDEX_NAMES → get t' sk = Some d' → d' !! a = default ∅ (get t sk) !! a.
Proof.
  intros Ha Hd. apply write_cases in Hwrite as [(_ & Hget & _)|(_ & -> & _)]; [|by rewrite Hd|done].
  cbn [planned TableWrite.sk] in Hget. rewrite Hget in Hd. injection Hd as <-. rewrite written_other.
  - destruct (get t sk); [done|]. cbn [default from_option]. unfold id. rewrite fresh_row_lookup, !decide_False; [done|..].
    all: intros ->; revert Ha; apply (bool_decide_unpack (_ ∉ _)); vm_compute; reflexivity.
  - assert (H := plannable_unreserved _ _ _ Hc). rewrite Forall_forall in H. intros Hin%H. by apply Hin, index_reserved.
Qed.

Lemma written_flag d' : get t' sk = Some d' → d' !! ACTIVE = default ∅ (get t sk) !! ACTIVE.
Proof. apply written_attribute. unfold INDEX_NAMES. set_solver. Qed.

Lemma written_elsewhere sk' : sk' ≠ sk → get t' sk' = get t sk'.
Proof.
  intros Hne. assert (H := write_other (planned (table_layout def) sk (cells_of c)
    (plan_condition (table_layout def) (Change.effect c))) t sk' Hne). by rewrite Hwrite in H.
Qed.

Lemma written_stream : MemTable.stream t' = MemTable.stream t.
Proof.
  assert (H := write_stream (planned (table_layout def) sk (cells_of c)
    (plan_condition (table_layout def) (Change.effect c))) t). by rewrite Hwrite in H.
Qed.

Lemma written_there : is_Some (get t' sk) ∨ t' = t.
Proof.
  apply write_cases in Hwrite as [(_ & Hget & _)|(_ & -> & _)]; [|by right|done]. left.
  cbn [planned TableWrite.sk] in Hget. rewrite Hget. by eexists.
Qed.

Lemma written_edge_small d' tag :
  Change.table c = "edge_adds" → key = [tag] → get t' sk = Some d' → small edge_bound d'.
Proof.
  intros Ht Hk Hd. destruct (Hadds tag Ht Hk) as [_ [Hkey Hcells]].
  assert (∀ d, get t sk = Some d → small edge_bound d) as Hold.
  { intros d. rewrite Ht, Hk, <-tag_key_text. intros H. by apply (ix_edges _ _ _ Hix) in H as (_ & H & _). }
  apply write_cases in Hwrite as [(_ & Hget & _)|(_ & -> & _)]; [|by apply Hold|done].
  cbn [planned TableWrite.sk] in Hget. rewrite Hget in Hd. injection Hd as <-. apply small_written; [|done].
  destruct (get t sk) as [d|]; [by apply Hold|]. apply fresh_small; [apply Hix|done].
Qed.

Lemma written_edge_tag d' tag :
  Change.table c = "edge_adds" → key = [tag] → get t' sk = Some d' → row_text d' "tag" = Some tag.
Proof.
  intros Ht Hk Hd. apply row_text_Some. assert (def = edge_adds_def) as Hdef.
  { assert (H := plannable_def _ _ _ Hc). rewrite Ht in H. by injection H as <-. }
  apply write_cases in Hwrite as [(_ & Hget & _)|(_ & -> & _)]; [..|done].
  - cbn [planned TableWrite.sk] in Hget. rewrite Hget in Hd. injection Hd as <-.
    rewrite (written_cell _ _ _ _ _ _ _ (Cell.Text tag)); [done|apply Hc|].
    unfold cells_of. rewrite (plannable_key _ _ _ Hc), Hk, Hdef. by left.
  - rewrite Ht, Hk, <-tag_key_text in Hd. apply (ix_edges _ _ _ Hix) in Hd as (_ & _ & Hd). by apply row_text_Some.
Qed.

Lemma end_active_written e : end_active t' None e = end_active t None e.
Proof.
  unfold end_active. destruct (decide (item_key e = sk)) as [->|Hne]; [|by rewrite written_elsewhere].
  destruct written_there as [[d' Hd']| ->]; [|done]. rewrite Hd', (written_flag d' Hd').
  destruct (get t sk); [done|]. cbn [default from_option]. by rewrite lookup_empty.
Qed.

Lemma write_indexed : indexed X Y t'.
Proof.
  assert (Hdef := plannable_def _ _ _ Hc). assert (Hst := written_stream).
  assert (∀ e tag, get t' (adjacency_key e tag) = get t (adjacency_key e tag)) as Hadj
    by (intros e tag; apply written_elsewhere; by eapply adjacency_not_row).
  assert (∀ table' def' k, flow_schema !! table' = Some def' → text_sk table' [k] = sk → table' = Change.table c ∧ key = [k]) as Hsame
    by (intros table' def' k Hd' E; destruct (text_sk_inj _ _ _ _ _ _ Hd' Hdef E); by split).
  assert (∀ tag d, tag ∉ Y → get t' (edge_key tag) = Some d → get t (edge_key tag) = Some d) as Hedge.
  { intros tag d Htag Hd. rewrite <-Hd. symmetry. apply written_elsewhere. rewrite tag_key_text. intros E.
    destruct (Hsame "edge_adds" edge_adds_def tag eq_refl E) as [Ht Hk]. by destruct (Hadds tag (eq_sym Ht) Hk) as [? _]. }
  split.
  - rewrite Hst. apply Hix.
  - intros id d Hid Hd. rewrite Hst. apply (ix_right _ _ _ Hix id); [done|].
    rewrite <-Hd. symmetry. apply written_elsewhere. rewrite item_key_text. intros E.
    destruct (Hsame "items" items_def id eq_refl E) as [Ht Hk]. by apply Hid, Hitems.
  - intros id d Hd. rewrite Hst. destruct (decide (item_key id = sk)) as [E|Hne].
    + rewrite E in Hd. apply (index_shape_ext _ (default ∅ (get t sk))); [intros a Ha; symmetry; by apply written_attribute|].
      destruct (get t sk) as [d0|] eqn:E0; [|apply index_shape_empty]. rewrite <-E in E0. by apply (ix_shape _ _ _ Hix id).
    + rewrite written_elsewhere in Hd by done. by apply (ix_shape _ _ _ Hix id).
  - intros tag Htag d Hd%Hedge; [|done]. rewrite (ix_edge _ _ _ Hix tag Htag d Hd). unfold flag_cell. rewrite Hst.
    assert (edge_flag t' None tag d = edge_flag t None tag d) as ->; [|done].
    unfold edge_flag, has_row. rewrite written_elsewhere.
    + f_equal. apply existsb_ext_elem. intros e _. apply end_active_written.
    + rewrite tag_key_text. intros E. destruct (Hsame "edge_removes" removes_def tag eq_refl E) as [Ht Hk]. by apply Htag, Hremoves.
  - intros tag d e Htag Hd%Hedge He; [|done]. rewrite Hadj. by apply (ix_filed _ _ _ Hix tag d).
  - intros tag d Hd. rewrite Hst. destruct (decide (edge_key tag = sk)) as [E|Hne].
    + assert (E' := E). rewrite tag_key_text in E'. destruct (Hsame "edge_adds" edge_adds_def tag eq_refl E') as [Ht Hk].
      rewrite E in Hd. split_and!.
      * rewrite (written_flag d Hd). destruct (get t sk) as [d0|] eqn:E0; [|left; apply lookup_empty].
        rewrite <-E in E0. by apply (ix_edges _ _ _ Hix tag).
      * by eapply (written_edge_small d tag).
      * by eapply (written_edge_tag d tag).
    + rewrite written_elsewhere in Hd by done. by apply (ix_edges _ _ _ Hix).
  - intros e tag a. rewrite Hadj. apply Hix.
Qed.
End write_change.

(** *** One operation *)
Lemma refusal_keys t changes writes k :
  refusal t changes writes = None → k ∈ (TableWrite.sk <$> writes) ++ derived_keys changes → byte_len k ≤ MAX_KEY_BYTES.
Proof.
  unfold refusal. destruct (find_first _ ((TableWrite.sk <$> writes) ++ derived_keys changes)) eqn:E; [done|]. intros _ Hk.
  apply find_first_None in E. rewrite Forall_forall in E. specialize (E k Hk). by apply N.ltb_ge in E.
Qed.

Lemma plan_all_elem changes writes c :
  plan_all task_layout changes = Ok writes → c ∈ changes → ∃ w, w ∈ writes ∧ plan task_layout c = Ok w.
Proof.
  revert writes. induction changes as [|c0 changes IH]; intros writes H Hin; [by apply not_elem_of_nil in Hin|].
  apply plan_all_cons in H as (w & ws & Hw & Hws & ->). apply elem_of_cons in Hin as [->|Hin].
  - exists w. split; [by left|done].
  - destruct (IH ws Hws Hin) as (w' & Hw' & Hp). exists w'. split; [by right|done].
Qed.

(** The one shape of a change that writes an edge. *)
Lemma edge_change op c :
  task_change op c → Change.table c = "edge_adds" →
  ∃ from to kind, parse_edge op = Some (from, to, kind) ∧
    c = put "edge_adds" [("tag", Cell.Text (Op.op_id op))]
      [("from_id", Cell.Text from); ("to_id", Cell.Text to); ("kind", Cell.Text kind);
       ("lamport", Cell.Int (Op.lamport op)); ("site", Cell.Int (Op.site op))].
Proof.
  intros H Ht. destruct H as [f Hf Hk Hfield| |value label Hp|tag| | |from to kind Hp|item_id label Hp|thread_id item_id relation weight Hp
    |table tag Htt| | |ids payload Hp|id]; try discriminate Ht.
  - by exists from, to, kind.
  - cbn in Ht. subst table. not_a_tombstone Htt.
Qed.

Lemma parse_edge_kind op from to kind : parse_edge op = Some (from, to, kind) → is_Some (EdgeKind_parse kind).
Proof.
  unfold parse_edge. destruct (split_on _ _) as [|x [|y [|z [|]]]]; try done.
  destruct (EdgeKind_parse z) eqn:E; [|done]. intros [= -> -> ->]. rewrite E. by eexists.
Qed.

Lemma EdgeKind_parse_len kind : is_Some (EdgeKind_parse kind) → byte_len kind ≤ 14.
Proof. unfold EdgeKind_parse. intros [k H]. repeat case_bool_decide; subst; done. Qed.

Lemma edge_change_fits op changes t writes c tag :
  plan_all task_layout changes = Ok writes → refusal t changes writes = None → c ∈ changes → task_change op c →
  Change.table c = "edge_adds" → plannable c edge_adds_def [tag] → edge_fits c [tag].
Proof.
  intros Hp Hr Hin Hc Ht Hpl. destruct (edge_change op c Hc Ht) as (from & to & kind & Hk%parse_edge_kind%EdgeKind_parse_len & Ec).
  assert (byte_len (text_sk (Change.table c) [tag]) ≤ MAX_KEY_BYTES) as Hsk.
  { apply (refusal_keys t changes writes); [done|]. apply elem_of_app. left. destruct (plan_all_elem _ _ c Hp Hin) as (w & Hw & E).
    rewrite (plan_ok c _ _ Hpl) in E. injection E as <-. apply list_elem_of_fmap. by exists (planned (table_layout edge_adds_def) (text_sk (Change.table c) [tag]) (cells_of c) (plan_condition (table_layout edge_adds_def) (Change.effect c))). }
  assert (∀ e, e ∈ [from; to] → byte_len (adjacency_key e (Op.op_id op)) ≤ MAX_KEY_BYTES) as Hadj.
  { intros e He. apply (refusal_keys t changes writes); [done|]. apply elem_of_app. right. unfold derived_keys. apply elem_of_app. left.
    apply list_elem_of_In, in_flat_map. exists c. split; [by apply list_elem_of_In|]. rewrite Ht, Ec.
    apply list_elem_of_In.
    change (adjacency_key e (Op.op_id op) ∈ (λ e, adjacency_key e (Op.op_id op)) <$> [from; to]).
    by apply (list_elem_of_fmap_2 (λ e, adjacency_key e (Op.op_id op))). }
  assert (∀ e, e ∈ [from; to] → byte_len e ≤ MAX_KEY_BYTES ∧ byte_len (Op.op_id op) ≤ MAX_KEY_BYTES) as Hends.
  { intros e He. assert (H := Hadj e He). rewrite adjacency_key_len in H.
    assert (H1 := escape_len e). assert (H2 := escape_len (Op.op_id op)). lia. }
  split; [done|]. rewrite Ec. destruct (Hends from) as [Hf Ho]; [set_solver|]. destruct (Hends to) as [Hto _]; [set_solver|].
  unfold MAX_KEY_BYTES in *. unfold cells_of. cbn [put Change.key Change.effect effect_cells effect_version version_cells fmap list_fmap app].
  repeat (apply Forall_cons; split; [split; [apply (bool_decide_unpack _); vm_compute; reflexivity|]|]); [..|done].
  all: unfold attribute_bytes, edge_bound; cbn [fst snd].
  all: match goal with |- byte_len ?n + _ ≤ _ => let x := eval vm_compute in (byte_len n) in change (byte_len n) with x end; lia.
Qed.

Lemma touched c table column key all :
  c ∈ all → Change.table c = table → key_text c column = Some key → key ∈ changed_keys table column all.
Proof.
  intros Hin Ht Hk. unfold changed_keys. apply elem_of_list_to_set, list_elem_of_omap. exists c. split; [done|].
  by rewrite bool_decide_eq_true_2.
Qed.

Section operation.
Local Unset Default Proof Using.
Context (op : Op) (all : list Change) (planned_all : list TableWrite) (t0 : MemTable).
Context (Hshape : ∀ c, c ∈ all → task_change op c).
Context (Hplan : plan_all task_layout all = Ok planned_all) (Hfits : refusal t0 all planned_all = None).
Abbreviation X := (list_to_set (touched_items all) : gset string).
Abbreviation Y := (list_to_set (touched_edges all) : gset string).

Lemma touched_change c def key :
  c ∈ all → plannable c def key →
  (∀ id, Change.table c = "items" → key = [id] → id ∈ X) ∧
  (∀ tag, Change.table c = "edge_adds" → key = [tag] → tag ∈ Y ∧ edge_fits c key) ∧
  (∀ tag, Change.table c = "edge_removes" → key = [tag] → tag ∈ Y).
Proof.
  intros Hin Hc. assert (Hdef := plannable_def _ _ _ Hc). assert (Hkey := plannable_key _ _ _ Hc). split_and!.
  - intros id Ht ->. rewrite Ht in Hdef. injection Hdef as <-. apply elem_of_list_to_set. unfold touched_items.
    rewrite elem_of_sorted_set. apply (touched c); [done..|]. unfold key_text. by rewrite Hkey.
  - intros tag Ht ->. assert (Hdef' := Hdef). rewrite Ht in Hdef'. injection Hdef' as <-. split; [|by eapply edge_change_fits; eauto].
    apply elem_of_list_to_set. unfold touched_edges. rewrite elem_of_app, !elem_of_sorted_set. left.
    apply (touched c); [done..|]. unfold key_text. by rewrite Hkey.
  - intros tag Ht ->. rewrite Ht in Hdef. injection Hdef as <-.
    apply elem_of_list_to_set. unfold touched_edges. rewrite elem_of_app, !elem_of_sorted_set. right.
    apply (touched c); [done..|]. unfold key_text. by rewrite Hkey.
Qed.

Lemma write_all_indexed changes writes t t' :
  (∀ c, c ∈ changes → c ∈ all) → plan_all task_layout changes = Ok writes → write_all writes t = (t', []) →
  indexed X Y t → indexed X Y t'.
Proof.
  revert writes t. induction changes as [|c changes IH]; intros writes t Hin.
  { intros [= <-] [= <-]. done. }
  intros (w & ws & Hp & Hps & ->)%plan_all_cons (t1 & o & Hw & Ho & Hws)%write_all_cons Hix.
  assert (c ∈ all) as Hc by (apply Hin; by left).
  destruct (task_plannable op c (Hshape c Hc)) as (def & key & Hpl). rewrite (plan_ok c def key Hpl) in Hp. injection Hp as <-.
  apply (IH ws t1); [intros; apply Hin; by right|done..|]. destruct (touched_change c def key Hc Hpl) as (H1 & H2 & H3).
  by apply (write_indexed c def key X Y t t1 o).
Qed.
End operation.

Lemma indexed_mono X Y X' Y' t : X ⊆ X' → Y ⊆ Y' → indexed X Y t → indexed X' Y' t.
Proof.
  intros HX HY [H1 H2 H3 H4 H5 H6 H7]. split; [done| |done| | |done|done].
  - intros id d Hid. apply H2. set_solver.
  - intros tag Htag. apply H4. set_solver.
  - intros tag d e Htag. apply H5. set_solver.
Qed.

(** Every fold that refuses nothing leaves right indexes. *)
Lemma indexed_fold op t t' r :
  fold task_folder op t = (t', Ok r) → (∀ id reason, r ≠ FoldResult.Refused id reason) → indexed ∅ ∅ t → indexed ∅ ∅ t'.
Proof.
  intros Hf Hr Hix. apply fold_folding in Hf; [|done]. destruct Hf as [_|writes t1 Hp Hfit Hw Ha]; [done|].
  apply after_indexed; [|done]. eapply (write_all_indexed op); [apply task_folder_shape|done|done|done|done|done|].
  by apply (indexed_mono ∅ ∅); [apply empty_subseteq..|].
Qed.

Lemma indexed_fresh stream : byte_len stream ≤ MAX_PARTITION_BYTES → indexed ∅ ∅ (MemTable.Mk stream ∅).
Proof. intros Hlen. by split. Qed.

(** *** Keys *)
Lemma planned_keeps c def key :
  plannable c def key →
  keeps_row (planned (table_layout def) (text_sk (Change.table c) key) (cells_of c) (plan_condition (table_layout def) (Change.effect c))).
Proof.
  intros Hc. apply unreserved_keeps. assert (H := plannable_unreserved _ _ _ Hc). rewrite Forall_forall in H.
  intros a [Hin|Hin]%elem_of_app; apply H; revert Hin; unfold planned, null_as_absent; cbn [TableWrite.set TableWrite.remove fst snd];
    intros (x & -> & [_ Hx]%list_elem_of_filter)%list_elem_of_fmap; by apply list_elem_of_fmap_2.
Qed.

Lemma write_all_keyed op changes writes t t' :
  Forall (task_change op) changes → plan_all task_layout changes = Ok writes → write_all writes t = (t', []) →
  well_stored t → well_stored t'.
Proof.
  intros Hs. revert writes t. induction Hs as [|c changes Hc Hs IH]; intros writes t.
  { intros [= <-] [= <-]. done. }
  intros (w & ws & Hp & Hps & ->)%plan_all_cons (t1 & o & Hw & Ho & Hws)%write_all_cons Ht.
  destruct (task_plannable op c Hc) as (def & key & Hc'). rewrite (plan_ok c def key Hc') in Hp. injection Hp as <-.
  apply (IH ws t1); [done..|]. assert (H := write_keyed _ t (planned_keeps c def key Hc') Ht). by rewrite Hw in H.
Qed.

Lemma well_stored_fold op t t' r :
  fold task_folder op t = (t', Ok r) → (∀ id reason, r ≠ FoldResult.Refused id reason) → well_stored t → well_stored t'.
Proof.
  intros Hf Hr Ht. apply fold_folding in Hf; [|done]. destruct Hf as [_|writes t1 Hp _ Hw _]; [done|].
  apply (same_keyed t1); [apply after_rows|]. eapply (write_all_keyed op); [|done..].
  apply Forall_forall. apply task_folder_shape.
Qed.

(** ** The tables *)

(** A table as the rows under its prefix give it. *)
Definition read_table (t : MemTable) (table : string) (def : TableDef) : Table :=
  list_to_map ((λ d, (row_key def (row_of def d), row_of def d)) <$> query_prefix t (table_prefix table)).

Section mirrored.
Local Unset Default Proof Using.
Context (t : MemTable) (views : Views) (Hm : mirrors t views).

Lemma some_key table def (key : list string) :
  flow_schema !! table = Some def → length key = length (TableDef.primary_key def) → key ≠ [].
Proof.
  intros Hdef Hlen ->. destruct (table_sound _ _ Hdef) as (_ & _ & Hpk & _). apply Hpk. by apply nil_length_inv.
Qed.

(** The rows under the prefix of a table are its rows. *)
Lemma table_rows table def sk d :
  flow_schema !! table = Some def → get t sk = Some d →
  starts_with (table_prefix table) sk = true ↔
  ∃ key, sk = text_sk table key ∧ length key = length (TableDef.primary_key def).
Proof.
  intros Hdef Hget. split.
  - intros Hp. destruct (mirror_placed _ _ Hm _ _ Hget) as [Hdot|(table' & def' & key & Hdef' & Hlen & -> & _)].
    + exfalso. apply starts_with_dot in Hdot as [r ->]. unfold starts_with, table_prefix in Hp.
      apply bool_decide_eq_true in Hp as [q Hq%strip_prefix_Some]. destruct (table_sound _ _ Hdef) as (_ & Hd & _).
      destruct table as [|a table]; [done|]. injection Hq as <- _.
      assert (starts_with "." (String "." table) = true) by (apply starts_with_dot; by eexists). congruence.
    + apply (text_sk_prefix table def table' def') in Hp as <-; [|done|done|by eapply some_key].
      exists key. split; [done|]. by simplify_eq.
  - intros (key & -> & Hlen). apply (text_sk_prefix table def table def); [done|done|by eapply some_key|done].
Qed.

Lemma row_key_text table def key d :
  flow_schema !! table = Some def → length key = length (TableDef.primary_key def) →
  get t (text_sk table key) = Some d → row_key def (row_of def d) = Cell.Text <$> key.
Proof.
  intros Hdef Hlen Hget. assert (kept_row def key (text_sk table key) d) as Hk
    by (by apply (placed_kept table); [|apply (mirror_placed _ _ Hm)]).
  destruct (table_sound _ _ Hdef) as (_ & _ & _ & _ & _ & Hpk & _). rewrite Forall_forall in Hpk.
  unfold row_key. apply list_eq_same_length with (length key); [by rewrite length_fmap| |].
  { by rewrite length_fmap. }
  intros i x y Hi Hx Hy. rewrite list_lookup_fmap in Hx, Hy.
  destruct (TableDef.primary_key def !! i) as [a|] eqn:Ea; [|done]. destruct (key !! i) as [v|] eqn:Ev; [|done].
  cbn [fmap option_fmap option_map] in *. simplify_eq.
  destruct (find_column_names def a) as [column Hcol]; [apply Hpk; by eapply list_elem_of_lookup_2|].
  rewrite row_of_lookup, Hcol, (kept_key _ _ _ _ Hk a (Cell.Text v)); [done|].
  unfold text_cells. apply list_elem_of_lookup. exists i. apply lookup_zip_Some. rewrite list_lookup_fmap, Ev. done.
Qed.

Lemma read_table_views table def : flow_schema !! table = Some def → read_table t table def = default ∅ (views !! table).
Proof.
  intros Hdef. unfold read_table. apply map_eq. intros k.
  assert (∀ k row, (k, row) ∈ (λ d, (row_key def (row_of def d), row_of def d)) <$> query_prefix t (table_prefix table) ↔
            view_row views table k = Some row) as Hrows.
  { intros k0 row. rewrite list_elem_of_fmap. setoid_rewrite elem_of_query_prefix. split.
    - intros (d & [= -> ->] & sk & Hget & Hp). apply (table_rows table def sk d Hdef Hget) in Hp as (key & -> & Hlen).
      rewrite (row_key_text table def key d) by done. rewrite <-(mirror_rows _ _ Hm _ _ _ Hdef Hlen). by rewrite Hget.
    - intros Hrow. destruct (mirror_keys _ _ Hm _ _ _ _ Hdef Hrow) as (key & -> & Hlen).
      rewrite <-(mirror_rows _ _ Hm _ _ _ Hdef Hlen) in Hrow. destruct (get t (text_sk table key)) as [d|] eqn:Hget; [|done].
      cbn [fmap option_fmap option_map] in Hrow. simplify_eq. exists d. rewrite (row_key_text table def key d) by done.
      split; [done|]. exists (text_sk table key). split; [done|]. eapply table_rows; [done..|by exists key]. }
  destruct (view_row views table k) as [row|] eqn:E.
  - apply elem_of_list_to_map_1'; [|by apply Hrows]. intros row' Hin%Hrows. congruence.
  - apply not_elem_of_list_to_map. intros ([k' row'] & -> & Hin%Hrows)%list_elem_of_fmap. cbn [fst] in *. congruence.
Qed.

Lemma single_key table def k d a :
  flow_schema !! table = Some def → TableDef.primary_key def = [a] → get t (text_sk table [k]) = Some d →
  row_text d a = Some k.
Proof.
  intros Hdef Hpk Hd. apply row_text_Some. assert (kept_row def [k] (text_sk table [k]) d) as Hk
    by (by apply (placed_kept table); [|apply (mirror_placed _ _ Hm)]).
  apply (kept_key _ _ _ _ Hk). unfold text_cells. rewrite Hpk. by left.
Qed.
End mirrored.
