(* ===== verification/Snapshots.v ===== *)
(** * Snapshots of a server fold

    [fold-ddb/src/snapshot.rs]: the tables of a stream and the position they reach as a value another stream
    starts from, made of a partition, of a replica's views or of an image; and what a stream goes through in
    its life: batches, a clear, a rebuild of its indexes, a start from a snapshot. *)

From S2P Require Import Prelude Text Utf8 OpModel Changes Tasks ChangeFacts OpStore LogFacts Convergence TaskFacts BoardViews Graph GraphFacts LaneFacts Images Server ServerFold ServerFacts ServerIndex.
From stdpp Require Import options.
From Stdlib Require Import Ascii.

(** ** Snapshots *)
Definition FORMAT : N := 1.

(** [serde_json::Value]; the digits of a number that is no [i64] do not matter here. *)
Module Value.
Inductive Number := I64 (v : Z) | Other (digits : string).
Inductive Value :=
| Null
| Bool (b : bool)
| Number_ (n : Number)
| String_ (v : string)
| Array (values : list Value)
| Object (members : list (string * Value)).
End Value.
Abbreviation Value := Value.Value (only parsing).

Module Snapshot.
Record Snapshot := Mk {
  format : N;
  stream_id : string;
  folded_through : Z;
  revisions : gmap string Z;
  tables : gmap string (list (gmap string Value));
}.
End Snapshot.
Abbreviation Snapshot := Snapshot.Snapshot (only parsing).

(** A table that answers has no errors of its own. *)
Module ImportError.
Inductive ImportError :=
| Layout (e : LayoutError)
| WrongStream (snapshot table : string)
| Format (format : N)
| OtherRevisions (snapshot folder : gmap string Z)
| NotEmpty
| BadCell (table column : string).
End ImportError.
Abbreviation ImportError := ImportError.ImportError (only parsing).

Definition to_value (cell : Cell) : Value :=
  match cell with
  | Cell.Null => Value.Null
  | Cell.Text v => Value.String_ v
  | Cell.Int v => Value.Number_ (Value.I64 v)
  end.

Definition to_cell (value : Value) : option Cell :=
  match value with
  | Value.Null => Some Cell.Null
  | Value.String_ v => Some (Cell.Text v)
  | Value.Number_ (Value.I64 v) => Some (Cell.Int v)
  | _ => None
  end.

Definition view_cells (row : Row) (columns : list string) : gmap string Value :=
  to_value <$> base.filter (λ p, p.1 ∈ columns) row.

(** The watermark first, then the tables. *)
Definition export_snapshot (folder : Folder) (t : MemTable) : option Snapshot :=
  mark ← watermark t;
  Some (Snapshot.Mk FORMAT (MemTable.stream t) (FoldMark.folded_through mark) (FoldMark.revisions mark)
    (map_imap (λ name layout, Some ((λ row, view_cells row (TableLayout.columns layout)) <$> query_prefix t (table_prefix name)))
      (Folder.layout folder))).

(** The columns of a row in order, each of them the layout's and a cell. *)
Fixpoint import_cells (name : string) (layout : TableLayout) (row : list (string * Value)) : result ImportError Cells :=
  match row with
  | [] => Ok []
  | (column, value) :: row =>
      if bool_decide (column ∈ TableLayout.columns layout) then
        match to_cell value with
        | Some cell => set <-? import_cells name layout row ;; Ok ((column, cell) :: set)
        | None => Err (ImportError.BadCell name column)
        end
      else Err (ImportError.Layout (LayoutError.UnknownColumn name column))
  end.

Definition sorted_entries {V} (row : gmap string V) : list (string * V) :=
  omap (λ a, pair a <$> row !! a) (sorted_keys row).

(** The key of a row is of the cells it has, NULL where it has none. *)
Definition import_key (layout : TableLayout) (set : Cells) : Cells :=
  (λ k, (k, default Cell.Null (snd <$> find_first (λ c, bool_decide (c.1 = k)) set))) <$> TableLayout.key layout.

Definition layout_err {A} (r : result LayoutError A) : result ImportError A :=
  match r with Ok a => Ok a | Err e => Err (ImportError.Layout e) end.

Definition import_row (name : string) (layout : TableLayout) (row : gmap string Value) : result ImportError TableWrite :=
  set <-? import_cells name layout (sorted_entries row) ;;
  sk <-? layout_err (row_sk name (import_key layout set)) ;;
  let '(set, remove) := null_as_absent layout set in
  Ok (TableWrite.Mk sk set remove None).

Fixpoint import_rows (name : string) (layout : TableLayout) (rows : list (gmap string Value)) :
    result ImportError (list TableWrite) :=
  match rows with
  | [] => Ok []
  | row :: rows => w <-? import_row name layout row ;; ws <-? import_rows name layout rows ;; Ok (w :: ws)
  end.

Fixpoint import_tables (layout : Layout) (tables : list (string * list (gmap string Value))) :
    result ImportError (list TableWrite) :=
  match tables with
  | [] => Ok []
  | (name, rows) :: tables =>
      match layout !! name with
      | None => Err (ImportError.Layout (LayoutError.UnknownTable name))
      | Some table => ws <-? import_rows name table rows ;; more <-? import_tables layout tables ;; Ok (ws ++ more)
      end
  end.

(** Every write is made, whatever becomes of it. *)
Definition write_each (writes : list TableWrite) (t : MemTable) : MemTable := foldl (λ t w, (write w t).1) t writes.

Definition import_snapshot (folder : Folder) (snapshot : Snapshot) (t : MemTable) : MemTable * result ImportError unit :=
  if FORMAT <? Snapshot.format snapshot then (t, Err (ImportError.Format (Snapshot.format snapshot)))
  else if negb (bool_decide (Snapshot.stream_id snapshot = MemTable.stream t)) then
    (t, Err (ImportError.WrongStream (Snapshot.stream_id snapshot) (MemTable.stream t)))
  else if negb (bool_decide (delete INDEX_DOMAIN (Snapshot.revisions snapshot) = reducer_revisions folder)) then
    (t, Err (ImportError.OtherRevisions (Snapshot.revisions snapshot) (revisions folder)))
  else if match watermark t with Some mark => negb (bool_decide (FoldMark.revisions mark = ∅)) | None => false end then
    (t, Err ImportError.NotEmpty)
  else
    match import_tables (Folder.layout folder) (sorted_entries (Snapshot.tables snapshot)) with
    | Err e => (t, Err e)
    | Ok writes =>
        let t := (write (sentinel 0 None) t).1 in
        let t := (reindex (write_each writes t)).1 in
        ((write (stamp folder (Snapshot.folded_through snapshot)) t).1, Ok tt)
    end.

(** Of a replica's views: its tables hold no cells but texts, integers and NULL. *)
Definition snapshot_from_sqlite (folder : Folder) (stream_id : string) (folded_through : Z) (file : File) : Snapshot :=
  Snapshot.Mk FORMAT stream_id folded_through (revisions folder)
    (map_imap (λ name layout,
       if bool_decide (is_Some (File.schema file !! name))
       then Some ((λ row, view_cells row (TableLayout.columns layout)) <$> rows_of (File.views file) name)
       else None) (Folder.layout folder)).

Module FromImageError.
Inductive FromImageError := NotBased | BadCell (table column : string).
End FromImageError.
Abbreviation FromImageError := FromImageError.FromImageError (only parsing).

Definition image_value (cell : ICell) : option Value :=
  match cell with
  | ICell.Null => Some Value.Null
  | ICell.Integer v => Some (Value.Number_ (Value.I64 v))
  | ICell.Text v => Some (Value.String_ v)
  | ICell.Real _ => None
  end.

(** A column named twice keeps its last cell. *)
Fixpoint image_row (table : string) (cells : list (string * ICell)) (row : gmap string Value) :
    result FromImageError (gmap string Value) :=
  match cells with
  | [] => Ok row
  | (column, cell) :: cells =>
      match image_value cell with
      | Some value => image_row table cells (<[column := value]> row)
      | None => Err (FromImageError.BadCell table column)
      end
  end.

Fixpoint image_rows (table : ITable) (rows : list (list ICell)) : result FromImageError (list (gmap string Value)) :=
  match rows with
  | [] => Ok []
  | row :: rows =>
      cells <-? image_row (ITable.name table) (zip (ITable.columns table) row) ∅ ;;
      more <-? image_rows table rows ;; Ok (cells :: more)
  end.

Fixpoint image_tables (views : list ITable) (tables : gmap string (list (gmap string Value))) :
    result FromImageError (gmap string (list (gmap string Value))) :=
  match views with
  | [] => Ok tables
  | table :: views =>
      rows <-? image_rows table (ITable.rows table) ;; image_tables views (<[ITable.name table := rows]> tables)
  end.

Definition from_image (image : Image) (stream_id : string) : result FromImageError Snapshot :=
  match Image.base image with
  | None => Err FromImageError.NotBased
  | Some base =>
      tables <-? image_tables (Image.views image) ∅ ;;
      Ok (Snapshot.Mk FORMAT stream_id (Base.relay_position base)
        (foldl (λ m v, <[ViewBase.domain v := ViewBase.fold_revision v]> m) ∅ (Base.view_bases base)) tables)
  end.

Definition snapshot_watermark (snapshot : Snapshot) : FoldMark :=
  FoldMark.Mk (Snapshot.folded_through snapshot) (Snapshot.revisions snapshot) None.

(** ** Rows on their way through a snapshot *)
Abbreviation names def := (Column.name <$> TableDef.columns def) (only parsing).

Lemma to_cell_value cell : to_cell (to_value cell) = Some cell.
Proof. by destruct cell. Qed.

Lemma elem_of_sorted_entries {V} (m : gmap string V) a v : (a, v) ∈ sorted_entries m ↔ m !! a = Some v.
Proof.
  unfold sorted_entries. rewrite list_elem_of_omap. split.
  - intros (b & _ & H). destruct (m !! b) eqn:E; by simplify_eq/=.
  - intros H. exists a. rewrite elem_of_sorted_keys, H. split; [by exists v|done].
Qed.

Lemma sorted_entries_keys {V} (m : gmap string V) : (sorted_entries m).*1 = sorted_keys m.
Proof.
  unfold sorted_entries. assert (∀ a, a ∈ sorted_keys m → is_Some (m !! a)) as H by (intros a; by rewrite elem_of_sorted_keys).
  revert H. induction (sorted_keys m) as [|a l IH]; intros H; [done|]. cbn [omap list_omap].
  destruct (H a) as [v E]; [by left|]. rewrite E. cbn. f_equal. apply IH. intros b Hb. apply H. by right.
Qed.

Lemma sorted_entries_fmap {V W} (f : V → W) (m : gmap string V) :
  sorted_entries (f <$> m) = (λ x, (x.1, f x.2)) <$> sorted_entries m.
Proof.
  unfold sorted_entries. assert (sorted_keys (f <$> m) = sorted_keys m) as ->.
  { unfold sorted_keys. by rewrite map_to_list_fmap, <-list_fmap_compose. }
  induction (sorted_keys m) as [|a l IH]; [done|]. cbn [omap list_omap]. rewrite lookup_fmap.
  destruct (m !! a); cbn; by rewrite IH.
Qed.

(** The cells of a row that are its table's. *)
Definition own_cells (def : TableDef) (d : Row) : Row := base.filter (λ p, p.1 ∈ names def) d.

Lemma own_cells_lookup def d a : own_cells def d !! a = if decide (a ∈ names def) then d !! a else None.
Proof.
  unfold own_cells. destruct (decide (a ∈ names def)) as [Hin|Hnot].
  - destruct (d !! a) as [v|] eqn:E; [by apply map_lookup_filter_Some|apply map_lookup_filter_None; by left].
  - apply map_lookup_filter_None. right. intros v _ H. by apply Hnot.
Qed.

Lemma view_cells_own def d : view_cells d (names def) = to_value <$> own_cells def d.
Proof. done. Qed.

Lemma import_cells_values name layout (cells : Cells) :
  Forall (λ a, a ∈ TableLayout.columns layout) cells.*1 →
  import_cells name layout ((λ x, (x.1, to_value x.2)) <$> cells) = Ok cells.
Proof.
  induction cells as [|[a v] cells IH]; [done|]. rewrite fmap_cons. intros [Ha Hc]%Forall_cons.
  cbn [fmap list_fmap fst snd import_cells]. rewrite bool_decide_eq_true_2, to_cell_value by done.
  change (list_fmap _ _ ?f ?l) with (f <$> l). by rewrite IH.
Qed.

Lemma own_names def d : Forall (λ a, a ∈ names def) (sorted_entries (own_cells def d)).*1.
Proof.
  apply Forall_forall. intros a ([a' v] & -> & Hin)%list_elem_of_fmap. apply elem_of_sorted_entries in Hin. cbn [fst].
  rewrite own_cells_lookup in Hin. by destruct (decide _).
Qed.

(** A row whose key is texts. *)
Definition keyed_row (def : TableDef) (key : list string) (d : Row) : Prop :=
  length key = length (TableDef.primary_key def) ∧ ∀ c v, (c, v) ∈ text_cells def key → d !! c = Some v.

Lemma text_cells_lookup def key c i :
  length key = length (TableDef.primary_key def) → TableDef.primary_key def !! i = Some c →
  ∃ v, key !! i = Some v ∧ (c, Cell.Text v) ∈ text_cells def key.
Proof.
  intros Hlen Hc. destruct (lookup_lt_is_Some_2 key i) as [v Hv]; [rewrite Hlen; by eapply lookup_lt_Some|].
  exists v. split; [done|]. unfold text_cells. apply list_elem_of_lookup. exists i. apply lookup_zip_Some.
  by rewrite list_lookup_fmap, Hv.
Qed.

Lemma find_cell (cells : Cells) a v :
  NoDup cells.*1 → (a, v) ∈ cells → find_first (λ c, bool_decide (c.1 = a)) cells = Some (a, v).
Proof.
  induction cells as [|[b w] cells IH]; [by intros _ ?%not_elem_of_nil|]. rewrite fmap_cons. intros [Hb Hnd]%NoDup_cons.
  cbn [find_first fst]. intros [E|Hin]%elem_of_cons; [injection E as -> ->; by rewrite bool_decide_eq_true_2|].
  rewrite bool_decide_eq_false_2; [by apply IH|]. intros ->. apply Hb. apply list_elem_of_fmap. by exists (a, v).
Qed.

Section carried.
Local Unset Default Proof Using.
Context (table : string) (def : TableDef) (key : list string) (d : Row).
Context (Hdef : flow_schema !! table = Some def) (Hkey : keyed_row def key d).
Abbreviation set := (sorted_entries (own_cells def d)).

Lemma own_set_NoDup : NoDup set.*1.
Proof. rewrite sorted_entries_keys. apply sorted_keys_NoDup. Qed.

Lemma import_key_text : import_key (table_layout def) set = text_cells def key.
Proof.
  destruct Hkey as [Hlen Hcells]. unfold import_key, text_cells. cbn [table_layout TableLayout.key].
  apply list_eq_same_length with (length key).
  { rewrite length_zip, length_fmap. lia. }
  { by rewrite length_fmap. }
  intros i x y Hi Hx Hy. rewrite list_lookup_fmap in Hx. destruct (TableDef.primary_key def !! i) as [c|] eqn:Ec; [|done].
  destruct (text_cells_lookup def key c i Hlen Ec) as (v & Hv & Hin). cbn [fmap option_fmap option_map] in Hx. injection Hx as <-.
  destruct y as [y1 y2]. apply lookup_zip_Some in Hy as [Hy1 Hy2]. rewrite list_lookup_fmap, Hv in Hy2. cbn in Hy2. injection Hy2 as Hy2.
  rewrite Ec in Hy1. injection Hy1 as Hy1. rewrite (find_cell _ c (Cell.Text v)); [cbn; by subst|apply own_set_NoDup|].
  apply elem_of_sorted_entries. rewrite own_cells_lookup, decide_True; [by apply Hcells|].
  destruct (table_sound _ _ Hdef) as (_ & _ & _ & _ & _ & Hpk & _). rewrite Forall_forall in Hpk.
  apply Hpk. by eapply list_elem_of_lookup_2.
Qed.

(** The write an import makes of the row. *)
Definition row_write : TableWrite := planned (table_layout def) (text_sk table key) set None.

Lemma import_row_ok : import_row table (table_layout def) (view_cells d (names def)) = Ok row_write.
Proof.
  unfold import_row. rewrite view_cells_own, sorted_entries_fmap, import_cells_values by apply own_names. cbv beta iota.
  rewrite import_key_text. unfold row_sk, text_cells. rewrite key_values_text by apply Hkey. cbn [layout_err]. cbv beta iota.
  unfold row_write, planned. destruct (null_as_absent _ _) as [s r]. do 2 f_equal. unfold text_sk, table_prefix.
  rewrite join_cons; [by rewrite <-string_app_assoc|]. destruct (table_sound _ _ Hdef) as (_ & _ & Hpk & _).
  destruct Hkey as [Hlen _], key; [|done]. by destruct (TableDef.primary_key def).
Qed.
Abbreviation imported stream := (written_row stream row_write None).

Lemma columns_unreserved a : a ∈ names def → a ∉ RESERVED.
Proof.
  destruct (table_sound _ _ Hdef) as (_ & _ & _ & _ & _ & _ & Hres). rewrite Forall_forall in Hres. apply Hres.
Qed.

Lemma imported_other stream a : a ∉ names def → imported stream !! a = fresh_row stream (text_sk table key) !! a.
Proof. intros Ha. apply written_other. intros Hin. assert (H := own_names def d). rewrite Forall_forall in H. by apply Ha, H. Qed.

Lemma imported_own stream a :
  a ∈ names def →
  imported stream !! a = (v ← d !! a; if is_absent (table_layout def) (a, v) then None else Some v).
Proof.
  intros Ha. unfold row_write. destruct (d !! a) as [v|] eqn:E; cbn [mbind option_bind].
  - apply written_cell; [apply own_set_NoDup|]. apply elem_of_sorted_entries. by rewrite own_cells_lookup, decide_True.
  - rewrite written_other.
    + cbn [default from_option]. unfold id. assert (Hr := columns_unreserved a Ha). rewrite fresh_row_lookup, !decide_False; [done|..].
      all: intros ->; apply Hr; unfold RESERVED; set_solver.
    + rewrite sorted_entries_keys, elem_of_sorted_keys, own_cells_lookup, decide_True, E by done. by intros [].
Qed.

(** The row reads as it did. *)
Lemma imported_reads stream : row_of def (imported stream) = row_of def d.
Proof.
  destruct (table_sound _ _ Hdef) as (_ & _ & _ & _ & Hnames & _ & _).
  apply map_eq. intros a. rewrite !row_of_lookup. destruct (find_column def a) as [column|] eqn:Ec; [|done].
  cbn [fmap option_fmap option_map]. f_equal. assert (a ∈ names def) as Ha.
  { apply find_first_Some in Ec as [Hin <-%bool_decide_eq_true]. by apply list_elem_of_fmap_2. }
  rewrite imported_own by done. destruct (d !! a) as [v|]; [|done]. cbn [mbind option_bind default from_option].
  unfold is_absent. cbn [fst snd]. rewrite default_of_column, Ec by done. cbn [from_option].
  case_bool_decide as Hv; [|done]. case_bool_decide as Hd; [|done]. cbn. by rewrite Hv.
Qed.

Lemma imported_kept stream : grouped (imported stream) → kept_row def key (text_sk table key) (imported stream).
Proof.
  intros Hg. destruct Hkey as [Hlen Hcells]. split; [|intros c v Hin|done].
  - rewrite imported_other; [by rewrite fresh_row_lookup|]. intros H%columns_unreserved. apply H. unfold RESERVED. set_solver.
  - assert (c ∈ names def) as Hc.
    { destruct (table_sound _ _ Hdef) as (_ & _ & _ & _ & _ & Hpk & _). rewrite Forall_forall in Hpk. apply Hpk.
      unfold text_cells in Hin. by apply elem_of_zip_l in Hin. }
    destruct (text_cells_text def key c v Hin) as [s ->]. rewrite imported_own, (Hcells _ _ Hin) by done. done.
Qed.

(** A row of a partition holds all that is stored of it again. *)
Lemma imported_sub stream : stored_row stream (text_sk table key) d → imported stream ⊆ d.
Proof.
  intros [Hpk Hsk _ _]. apply map_subseteq_spec. intros a v. destruct (decide (a ∈ names def)) as [Ha|Ha].
  - rewrite imported_own by done. destruct (d !! a) as [w|]; [|done]. cbn [mbind option_bind]. by destruct (is_absent _ _).
  - rewrite imported_other, fresh_row_lookup by done. destruct (decide (a = PK)) as [->|]; [by intros [= <-]|].
    destruct (decide (a = SK)) as [->|]; [by intros [= <-]|done].
Qed.

Lemma row_write_keeps : keeps_row row_write.
Proof.
  apply unreserved_keeps. intros a Hin. apply columns_unreserved. assert (H := own_names def d). rewrite Forall_forall in H. apply H.
  revert Hin. rewrite elem_of_app. unfold row_write, planned, null_as_absent. cbn [TableWrite.set TableWrite.remove fst snd].
  intros [(x & -> & [_ Hx]%list_elem_of_filter)%list_elem_of_fmap|(x & -> & [_ Hx]%list_elem_of_filter)%list_elem_of_fmap];
    by apply list_elem_of_fmap_2.
Qed.
End carried.

(** ** The writes of an import *)
Lemma write_each_stream ws t : MemTable.stream (write_each ws t) = MemTable.stream t.
Proof. unfold write_each. revert t. induction ws as [|w ws IH]; intros t; [done|]. cbn [foldl]. by rewrite IH, write_stream. Qed.

Lemma write_each_other ws t sk : sk ∉ TableWrite.sk <$> ws → get (write_each ws t) sk = get t sk.
Proof.
  unfold write_each. revert t. induction ws as [|w ws IH]; intros t; [done|]. rewrite fmap_cons. cbn [foldl].
  rewrite not_elem_of_cons. intros [Hne Hnot]. rewrite IH by done. by apply write_other.
Qed.

Lemma write_each_keyed ws t : Forall keeps_row ws → well_stored t → well_stored (write_each ws t).
Proof.
  unfold write_each. intros Hk. revert t. induction Hk as [|w ws Hw Hk IH]; intros t Ht; [done|]. cbn [foldl].
  apply IH. by apply write_keyed.
Qed.

Abbreviation fits d := (sum_bytes (map_to_list d) ≤ MAX_ITEM_BYTES).

(** Rows that are new and fit are all stored. *)
Lemma write_each_get ws t w :
  NoDup (TableWrite.sk <$> ws) →
  Forall (λ w, TableWrite.condition w = None ∧ get t (TableWrite.sk w) = None ∧
               fits (written_row (MemTable.stream t) w None)) ws →
  w ∈ ws → get (write_each ws t) (TableWrite.sk w) = Some (written_row (MemTable.stream t) w None).
Proof.
  revert t. induction ws as [|w0 ws IH]; intros t; [by intros _ _ ?%not_elem_of_nil|]. rewrite fmap_cons.
  intros [Hnot Hnd]%NoDup_cons [(Hc & Hg & Hf) Hws]%Forall_cons Hin. unfold write_each. cbn [foldl].
  change (foldl _ ?t ws) with (write_each ws t). apply elem_of_cons in Hin as [->|Hin].
  - rewrite write_each_other by done. destruct t as [stream rows]. unfold write, get in *. cbn [MemTable.rows MemTable.stream] in *.
    rewrite Hc, Hg. rewrite (proj2 (N.ltb_ge _ _) Hf). cbn. apply lookup_insert_eq.
  - rewrite IH; [by rewrite write_stream|done| |done]. rewrite Forall_forall in Hws |- *. intros w' Hw'.
    destruct (Hws w' Hw') as (H1 & H2 & H3). rewrite write_stream. split_and!; [done| |done].
    rewrite write_other; [done|]. intros E. apply Hnot. rewrite <-E. by apply list_elem_of_fmap_2.
Qed.

(** ** Room for the index attributes *)
Definition has_room (t : MemTable) : Prop :=
  ∀ id d d', get t (item_key id) = Some d → base_row d' = base_row d → right_item (MemTable.stream t) id d' → fits d'.

Lemma has_room_same t t' : same_rows t t' → has_room t → has_room t'.
Proof.
  intros Hs Hroom id d d' Hd Hb Hright. destruct (same_get _ _ _ _ (same_base _ _ Hs) (text_sk_no_dot "items" items_def [id] eq_refl) Hd) as (d0 & Hd0 & E).
  apply (Hroom id d0 d' Hd0); [by rewrite E|]. by rewrite (same_stream _ _ Hs).
Qed.

(** An item with room is refreshed. *)
Lemma refresh_item_fits id X Y t : indexed X Y t → has_room t → (refresh_item id t).2 ≠ Some Outcome.TooLarge.
Proof.
  intros Hix Hroom. destruct (get t (item_key id)) as [row|] eqn:Hrow; [|unfold refresh_item; by rewrite Hrow].
  destruct (refresh_item_write id t row Hrow) as (set & remove & Hw & Hright & ->). destruct (_ && _); [done|].
  destruct (flip_edges_spec id X Y t row Hix Hrow) as [Hs _].
  assert (get (flip_edges id row t) (item_key id) = Some row) as Hrow1
    by (rewrite (some_other _ _ Hs); [done|intros tag; apply item_key_not_edge]).
  specialize (Hright (ix_shape _ _ _ Hix id row Hrow)). set (w := TableWrite.Mk _ _ _ _) in *.
  assert (fits (written_row (MemTable.stream t) w (Some row))) as Hfits.
  { apply (Hroom id row); [done|..|done]. apply base_row_ext. intros a Ha. by apply index_written_other. }
  assert (Hst := some_stream _ _ Hs). destruct (flip_edges id row t) as [stream rows]. unfold write, get in *.
  cbn [w MemTable.rows MemTable.stream TableWrite.condition TableWrite.sk Server.holds] in *. rewrite Hrow1, Hst.
  by rewrite (proj2 (N.ltb_ge _ _) Hfits).
Qed.

(** *** Two rows of the same attributes *)
Lemma stored_as_same names vs d d' a : stored_as names vs d → stored_as names vs d' → a ∈ names → d !! a = d' !! a.
Proof.
  unfold stored_as. destruct vs as [vs|].
  - intros H1 H2 (i & Hi)%list_elem_of_lookup. destruct (Forall2_lookup_l _ _ _ _ _ H1 Hi) as (v & Hv & E).
    rewrite E. by destruct (Forall2_lookup_lr _ _ _ _ _ _ H2 Hi Hv).
  - rewrite !Forall_forall. intros H1 H2 Ha. by rewrite H1, H2.
Qed.

Lemma right_item_same stream id d d' a :
  right_item stream id d → right_item stream id d' →
  is_active_row d = is_active_row d' → typed d = typed d' → lane d = lane d' → a ∈ INDEX_NAMES → d !! a = d' !! a.
Proof.
  intros [A1 A2 A3] [B1 B2 B3] E1 E2 E3 Ha. unfold active_now, typed_now, dated_now in *. rewrite <-E1 in B1. rewrite <-E2 in B2.
  rewrite <-E3 in B3. unfold INDEX_NAMES in Ha. rewrite !elem_of_cons in Ha.
  destruct Ha as [->|[->|[->|[->|[]%not_elem_of_nil]]]].
  - by apply (stored_as_same _ _ _ _ _ A1 B1); left.
  - by apply (stored_as_same _ _ _ _ _ A2 B2); left.
  - by apply (stored_as_same _ _ _ _ _ A3 B3); left.
  - apply (stored_as_same _ _ _ _ _ A3 B3). by right; left.
Qed.

(** A row with its index attributes stored has room for them. *)
Lemma right_item_eq stream id d d' : base_row d' = base_row d → right_item stream id d → right_item stream id d' → d' = d.
Proof.
  intros Hb Hd Hd'. apply map_eq. intros a. destruct (decide (a ∈ INDEX_NAMES)) as [Ha|Ha]; [|by apply base_row_at].
  apply (right_item_same stream id); [done|done|by apply is_active_row_base|by apply typed_base|by apply lane_base|done].
Qed.

Lemma indexed_room X Y t : indexed X Y t → well_stored t → X = ∅ → has_room t.
Proof.
  intros Hix Ht -> id d d' Hd Hb Hright. rewrite (right_item_eq _ id d d' Hb (ix_right _ _ _ Hix id d (not_elem_of_empty _) Hd) Hright).
  by apply (stored_fits _ _ _ (Ht _ _ Hd)).
Qed.

(** ** What a snapshot carries

    The rows of a snapshot by their keys: those of a partition, or of a replica. *)
Abbreviation Carried := (string → list (list string * Row)) (only parsing).

(** A row is of its key, and the columns of a version are stored together. *)
Definition carried_row (stream table : string) (def : TableDef) (key : list string) (d : Row) : Prop :=
  keyed_row def key d ∧ grouped (written_row stream (row_write table def key d) None).

Record carries (snapshot : Snapshot) (R : Carried) (views : Views) : Prop := {
  carries_tables table rows :
    Snapshot.tables snapshot !! table = Some rows →
    ∃ def, flow_schema !! table = Some def ∧ rows = (λ kd, view_cells kd.2 (names def)) <$> R table;
  carries_absent table : Snapshot.tables snapshot !! table = None → R table = [];
  carries_keys table : NoDup (R table).*1;
  carries_row table def key d :
    flow_schema !! table = Some def → (key, d) ∈ R table → carried_row (Snapshot.stream_id snapshot) table def key d;
  carries_views table def k row :
    flow_schema !! table = Some def →
    view_row views table k = Some row ↔ ∃ key d, (key, d) ∈ R table ∧ k = Cell.Text <$> key ∧ row = row_of def d;
}.

(** Every row fits, a ticket with its index attributes, and an edge is short. *)
Record room (stream : string) (R : Carried) : Prop := {
  room_row table def key d :
    flow_schema !! table = Some def → (key, d) ∈ R table → fits (written_row stream (row_write table def key d) None);
  room_item id d d' :
    ([id], d) ∈ R "items" → base_row d' = base_row (written_row stream (row_write "items" items_def [id] d) None) →
    right_item stream id d' → fits d';
  room_edge tag d :
    ([tag], d) ∈ R "edge_adds" → small edge_bound (written_row stream (row_write "edge_adds" edge_adds_def [tag] d) None);
}.

Definition table_writes (R : Carried) (table : string) : list TableWrite :=
  match flow_schema !! table with Some def => (λ kd, row_write table def kd.1 kd.2) <$> R table | None => [] end.

Lemma import_rows_ok table def (rows : list (list string * Row)) :
  flow_schema !! table = Some def → Forall (λ kd, keyed_row def kd.1 kd.2) rows →
  import_rows table (table_layout def) ((λ kd, view_cells kd.2 (names def)) <$> rows) =
  Ok ((λ kd, row_write table def kd.1 kd.2) <$> rows).
Proof.
  intros Hdef. induction 1 as [|[key d] rows Hk Hrows IH]; [done|]. rewrite !fmap_cons. cbn [import_rows fst snd] in *.
  rewrite (import_row_ok table def key d) by done. cbv beta iota. by rewrite IH.
Qed.

Lemma fmap_bind {A B C} (f : A → list B) (g : B → C) (l : list A) : g <$> (l ≫= f) = l ≫= (λ a, g <$> f a).
Proof. induction l as [|a l IH]; [done|]. cbn [mbind list_bind]. by rewrite fmap_app, <-IH. Qed.

Section import.
Local Unset Default Proof Using.
Context (snapshot : Snapshot) (R : Carried) (views : Views) (Hcarries : carries snapshot R views).
Abbreviation all_writes := (sorted_keys (Snapshot.tables snapshot) ≫= table_writes R).

Lemma import_tables_ok : import_tables task_layout (sorted_entries (Snapshot.tables snapshot)) = Ok all_writes.
Proof.
  unfold sorted_entries. assert (∀ table, table ∈ sorted_keys (Snapshot.tables snapshot) → is_Some (Snapshot.tables snapshot !! table)) as H
    by (intros table; by rewrite elem_of_sorted_keys).
  revert H. induction (sorted_keys (Snapshot.tables snapshot)) as [|table l IH]; intros H; [done|].
  destruct (H table) as [rows E]; [by left|]. destruct (carries_tables _ _ _ Hcarries table rows E) as (def & Hdef & ->).
  cbn [omap list_omap]. rewrite E. cbn [fmap option_fmap option_map import_tables].
  rewrite (layout_table table def Hdef), (import_rows_ok table def (R table)) by
    (done || (apply Forall_forall; intros [key d] Hin; by apply (carries_row _ _ _ Hcarries table def))).
  cbv beta iota. rewrite IH by (intros; apply H; by right). cbn [mbind list_bind]. unfold table_writes at 2. by rewrite Hdef.
Qed.

Lemma elem_of_all_writes w :
  w ∈ all_writes ↔ ∃ table def key d, flow_schema !! table = Some def ∧ (key, d) ∈ R table ∧ w = row_write table def key d.
Proof.
  rewrite list_elem_of_bind. unfold table_writes. split.
  - intros (table & Hw & _). destruct (flow_schema !! table) as [def|] eqn:Hdef; [|by apply not_elem_of_nil in Hw].
    apply list_elem_of_fmap in Hw as ([key d] & -> & Hin). by exists table, def, key, d.
  - intros (table & def & key & d & Hdef & Hin & ->). exists table. rewrite Hdef. split.
    + apply list_elem_of_fmap. by exists (key, d).
    + rewrite elem_of_sorted_keys. destruct (Snapshot.tables snapshot !! table) eqn:E; [by eexists|].
      apply (carries_absent _ _ _ Hcarries) in E. rewrite E in Hin. by apply not_elem_of_nil in Hin.
Qed.

Lemma all_writes_NoDup : NoDup (TableWrite.sk <$> all_writes).
Proof.
  rewrite fmap_bind. apply NoDup_bind.
  - intros t1 t2 sk _ _. unfold table_writes.
    destruct (flow_schema !! t1) as [def1|] eqn:H1; [|by intros ?%not_elem_of_nil].
    destruct (flow_schema !! t2) as [def2|] eqn:H2; [|by intros _ ?%not_elem_of_nil].
    rewrite <-!list_fmap_compose. intros ([k1 d1] & -> & _)%list_elem_of_fmap ([k2 d2] & E & _)%list_elem_of_fmap.
    cbn in E. by destruct (text_sk_inj _ _ _ _ _ _ H1 H2 E).
  - intros table _. unfold table_writes. destruct (flow_schema !! table) as [def|] eqn:Hdef; [|constructor].
    assert (H := carries_keys _ _ _ Hcarries table). revert H. rewrite <-list_fmap_compose.
    induction (R table) as [|[key d] rows IH]; [intros _; constructor|]. rewrite !fmap_cons. intros [Hnot Hnd]%NoDup_cons. constructor; [|by apply IH].
    intros ([key' d'] & E & Hin)%list_elem_of_fmap. cbn in E. destruct (text_sk_inj _ _ _ _ _ _ Hdef Hdef E) as [_ ->].
    apply Hnot. apply list_elem_of_fmap. by exists (key', d').
  - apply sorted_keys_NoDup.
Qed.

(** *** The rows are there *)
Section loaded.
Context (t0 : MemTable) (Hm : mirrors t0 (fresh_views TaskReducer)) (Hix : indexed ∅ ∅ t0).
Context (Hstream : MemTable.stream t0 = Snapshot.stream_id snapshot) (Hroom : room (Snapshot.stream_id snapshot) R).
Abbreviation stream := (Snapshot.stream_id snapshot).
Abbreviation loaded := (write_each all_writes t0).

Lemma no_rows table def key :
  flow_schema !! table = Some def → length key = length (TableDef.primary_key def) → get t0 (text_sk table key) = None.
Proof.
  intros Hdef Hlen. assert (H := mirror_rows _ _ Hm table def key Hdef Hlen).
  assert (view_row (fresh_views TaskReducer) table (Cell.Text <$> key) = None) as E by apply fresh_row_none.
  rewrite E in H. by destruct (get t0 (text_sk table key)).
Qed.

Lemma loaded_stream : MemTable.stream loaded = stream.
Proof. by rewrite write_each_stream. Qed.

Lemma loaded_row table def key d :
  flow_schema !! table = Some def → (key, d) ∈ R table →
  get loaded (text_sk table key) = Some (written_row stream (row_write table def key d) None).
Proof.
  intros Hdef Hin. rewrite <-Hstream.
  apply (write_each_get all_writes t0 (row_write table def key d)).
  - apply all_writes_NoDup.
  - apply Forall_forall. intros w (table' & def' & key' & d' & Hdef' & Hin' & ->)%elem_of_all_writes. split_and!; [done|..].
    + cbn. apply (no_rows table' def'); [done|]. by apply (carries_row _ _ _ Hcarries table' def' key' d').
    + rewrite Hstream. by apply Hroom.
  - apply elem_of_all_writes. by exists table, def, key, d.
Qed.

Lemma loaded_other sk :
  (∀ table def key d, flow_schema !! table = Some def → (key, d) ∈ R table → sk ≠ text_sk table key) → get loaded sk = get t0 sk.
Proof.
  intros H. apply write_each_other. intros (w & -> & (table & def & key & d & Hdef & Hin & ->)%elem_of_all_writes)%list_elem_of_fmap.
  by apply (H table def key d).
Qed.

(** A row of a table is one the snapshot has. *)
Lemma loaded_inv table def key d' :
  flow_schema !! table = Some def → length key = length (TableDef.primary_key def) → get loaded (text_sk table key) = Some d' →
  ∃ d, (key, d) ∈ R table ∧ d' = written_row stream (row_write table def key d) None.
Proof.
  intros Hdef Hlen Hd. destruct (decide (key ∈ (R table).*1)) as [Hin|Hnot].
  - apply list_elem_of_fmap in Hin as ([key' d] & -> & Hin). cbn [fst] in *. exists d. split; [done|].
    rewrite (loaded_row table def key' d) in Hd by done. by injection Hd as <-.
  - exfalso. rewrite loaded_other, (no_rows table def) in Hd; [done|done|done|].
    intros table' def' key' d0 Hdef' Hin' E. destruct (text_sk_inj _ _ _ _ _ _ Hdef Hdef' E) as [-> ->].
    apply Hnot, list_elem_of_fmap. by exists (key', d0).
Qed.

Lemma loaded_dot sk : starts_with "." sk = true → get loaded sk = get t0 sk.
Proof.
  intros Hdot. apply loaded_other. intros table def key d Hdef _ ->. by rewrite (text_sk_no_dot _ _ key Hdef) in Hdot.
Qed.

Lemma loaded_mirrors : mirrors loaded views.
Proof.
  split.
  - intros table def key Hdef Hlen. destruct (get loaded (text_sk table key)) as [d'|] eqn:E; cbn [fmap option_fmap option_map].
    + destruct (loaded_inv table def key d' Hdef Hlen E) as (d & Hin & ->).
      destruct (carries_row _ _ _ Hcarries table def key d Hdef Hin) as [Hk _]. rewrite imported_reads by done. symmetry.
      apply (carries_views _ _ _ Hcarries table def); [done|]. by exists key, d.
    + destruct (view_row views table (Cell.Text <$> key)) as [row|] eqn:Ev; [|done]. exfalso.
      apply (carries_views _ _ _ Hcarries table def) in Ev as (key' & d & Hin & Ek & _); [|done].
      apply (inj (fmap Cell.Text)) in Ek as <-. by rewrite (loaded_row table def key d) in E.
  - intros table def k row Hdef. rewrite (carries_views _ _ _ Hcarries table def) by done. intros (key & d & Hin & -> & _).
    exists key. split; [done|]. by apply (carries_row _ _ _ Hcarries table def key d).
  - intros sk d' Hd. destruct (starts_with "." sk) eqn:Hdot; [by left|].
    destruct (decide (sk ∈ TableWrite.sk <$> all_writes)) as [Hin|Hnot].
    + right. apply list_elem_of_fmap in Hin as (w & -> & (table & def & key & d & Hdef & Hin & ->)%elem_of_all_writes).
      destruct (carries_row _ _ _ Hcarries table def key d Hdef Hin) as [Hk Hg]. exists table, def, key.
      cbn [row_write planned TableWrite.sk] in *. rewrite (loaded_row table def key d) in Hd by done. injection Hd as <-.
      split_and!; [done|by apply Hk|done|]. by apply imported_kept.
    + rewrite write_each_other in Hd by done. by apply (mirror_placed _ _ Hm).
Qed.

Lemma loaded_stored : well_stored t0 → well_stored loaded.
Proof.
  apply write_each_keyed, Forall_forall. intros w (table & def & key & d & Hdef & Hin & ->)%elem_of_all_writes.
  by apply row_write_keeps.
Qed.

Abbreviation ids_of table := (list_to_set (concat (R table).*1) : gset string).

Lemma loaded_single table def k d' :
  flow_schema !! table = Some def → length (TableDef.primary_key def) = 1%nat → get loaded (text_sk table [k]) = Some d' →
  k ∈ ids_of table ∧ ∃ d, ([k], d) ∈ R table ∧ d' = written_row stream (row_write table def [k] d) None.
Proof.
  intros Hdef Hlen Hd. destruct (loaded_inv table def [k] d') as (d & Hin & ->); [done|by rewrite Hlen|done|]. split; [|by exists d].
  apply elem_of_list_to_set, list_elem_of_In, in_concat. exists [k]. split; [|by left]. apply list_elem_of_In, list_elem_of_fmap.
  by exists ([k], d).
Qed.

Lemma loaded_unindexed table def key d a :
  flow_schema !! table = Some def → a ∈ INDEX_NAMES → written_row stream (row_write table def key d) None !! a = None.
Proof.
  intros Hdef Ha. rewrite imported_other.
  - rewrite fresh_row_lookup, !decide_False; [done|..]; intros ->; revert Ha; apply (bool_decide_unpack (_ ∉ _)); vm_compute; reflexivity.
  - intros Hin%(columns_unreserved table def Hdef). by apply Hin, index_reserved.
Qed.

Lemma loaded_indexed : indexed (ids_of "items") (ids_of "edge_adds") loaded.
Proof.
  assert (∀ e tag, get loaded (adjacency_key e tag) = get t0 (adjacency_key e tag)) as Hadj by (intros e tag; by apply loaded_dot).
  assert (∀ tag d', get loaded (edge_key tag) = Some d' → tag ∈ ids_of "edge_adds" ∧
    ∃ d, ([tag], d) ∈ R "edge_adds" ∧ d' = written_row stream (row_write "edge_adds" edge_adds_def [tag] d) None) as Hedge.
  { intros tag d'. rewrite tag_key_text. by apply loaded_single. }
  split.
  - rewrite loaded_stream, <-Hstream. apply Hix.
  - intros id d Hid. rewrite item_key_text. intros [Hin _]%(loaded_single "items" items_def); [|done..]. done.
  - intros id d. rewrite item_key_text. intros [_ (d0 & Hin & ->)]%(loaded_single "items" items_def); [|done..].
    apply (index_shape_ext _ ∅); [|apply index_shape_empty]. intros a Ha. rewrite lookup_empty. symmetry. by apply loaded_unindexed.
  - intros tag Htag d [Hin _]%Hedge. done.
  - intros tag d e Htag [Hin _]%Hedge. done.
  - intros tag d [_ (d0 & Hin & ->)]%Hedge. split_and!.
    + left. apply loaded_unindexed; [done|]. unfold INDEX_NAMES. set_solver.
    + by apply (room_edge _ _ Hroom).
    + apply row_text_Some. destruct (carries_row _ _ _ Hcarries "edge_adds" edge_adds_def [tag] d0 eq_refl Hin) as [Hk Hg].
      apply (kept_key _ _ _ _ (imported_kept "edge_adds" edge_adds_def [tag] d0 eq_refl Hk stream Hg)). by left.
  - intros e tag a. rewrite Hadj. apply Hix.
Qed.

Lemma loaded_room : has_room loaded.
Proof.
  intros id d d'. rewrite item_key_text. intros Hd Hb. rewrite loaded_stream. revert Hd Hb.
  intros [_ (d0 & Hin & ->)]%(loaded_single "items" items_def) Hb; [|done..]. by apply (room_item _ _ Hroom id d0).
Qed.
End loaded.
End import.

(** ** The indexes rebuilt *)
Definition reindex_item : MemTable * list string → Row → MemTable * list string := λ '(t, unindexed) row,
  match row_text row "id" with
  | Some id =>
      let '(t, outcome) := refresh_item id t in
      (t, if bool_decide (outcome = Some Outcome.TooLarge) then unindexed ++ [id] else unindexed)
  | None => (t, unindexed)
  end.

Lemma foldl_omap {A B C} (f : B → option C) (g : A → C → A) (l : list B) a :
  foldl (λ a x, match f x with Some y => g a y | None => a end) a l = foldl g a (omap f l).
Proof. revert a. induction l as [|x l IH]; intros a; [done|]. cbn [foldl omap list_omap]. by destruct (f x); apply IH. Qed.

Lemma reindex_item_rows s row : same_rows s.1 (reindex_item s row).1.
Proof.
  destruct s as [t u]. unfold reindex_item. destruct (row_text row "id") as [id|]; [|done].
  assert (H := refresh_item_rows id t). by destruct (refresh_item id t).
Qed.

Lemma reindex_items_indexed rows X Y s :
  indexed X Y s.1 → has_room s.1 →
  indexed (X ∖ list_to_set (omap (λ row, row_text row "id") rows)) Y (foldl reindex_item s rows).1.
Proof.
  revert X s. induction rows as [|row rows IH]; intros X s Hix Hroom; cbn [foldl omap list_omap].
  { by rewrite list_to_set_nil, difference_empty_L. }
  assert (has_room (reindex_item s row).1) as Hroom' by (eapply has_room_same; [apply reindex_item_rows|done]).
  destruct s as [t u]. unfold reindex_item in *. cbn [fst] in *. destruct (row_text row "id") as [id|]; [|by apply IH].
  assert (H := refresh_item_indexed id X Y t Hix (refresh_item_fits id X Y t Hix Hroom)).
  destruct (refresh_item id t) as [t1 o]. cbn [fst] in *. rewrite list_to_set_cons.
  replace (X ∖ ({[id]} ∪ _)) with (X ∖ {[id]} ∖ list_to_set (omap (λ row, row_text row "id") rows)) by set_solver.
  by apply IH.
Qed.

Lemma elem_of_stored_by_key rows sk : sk ∈ sorted_keys (stored_by_key rows) → ∃ row, row ∈ rows ∧ row_text row SK = Some sk.
Proof.
  rewrite elem_of_sorted_keys. unfold stored_by_key.
  assert (∀ (m : gmap string Row), is_Some (foldl (λ m row, match row_text row SK with Some sk => <[sk := row]> m | None => m end) m rows !! sk) →
    is_Some (m !! sk) ∨ ∃ row, row ∈ rows ∧ row_text row SK = Some sk) as H.
  { induction rows as [|row rows IH]; intros m; cbn [foldl]; [by left|]. intros [H|(r & Hr & E)]%IH.
    - destruct (row_text row SK) as [sk'|] eqn:E; [|by left]. destruct (decide (sk' = sk)) as [->|Hne].
      + right. exists row. split; [by left|done].
      + rewrite lookup_insert_ne in H by done. by left.
    - right. exists r. split; [by right|done]. }
  intros [[r Hr]|Hex]%H; [|done]. by rewrite lookup_empty in Hr.
Qed.

Lemma reference_key_beside t prefix sk :
  well_stored t → prefix = ".radj#" ∨ prefix = ".rsrc#" → sk ∈ sorted_keys (stored_by_key (query_prefix t prefix)) →
  beside_key sk = true.
Proof.
  intros Ht Hp (row & (sk' & Hget & Hs)%elem_of_query_prefix & E)%elem_of_stored_by_key.
  apply row_text_Some in E. rewrite (stored_sk _ _ _ (Ht sk' row Hget)) in E. injection E as ->.
  unfold starts_with in Hs. apply bool_decide_eq_true in Hs as [r Hr%strip_prefix_Some]. rewrite Hr. by destruct Hp as [-> | ->].
Qed.

Lemma reindex_refs_beside t : well_stored t → beside t (reindex_refs t).1.
Proof.
  intros Ht. unfold reindex_refs.
  set (hints := stored_by_key (query_prefix t ".radj#")). set (mirrors := stored_by_key (query_prefix t ".rsrc#")).
  set (wanted := merge_sort triple_le (elements (wanted_everywhere t))). set (step := λ st '(item, field, v), _).
  assert (beside t (foldl step (t, []) wanted).1) as H1.
  { apply (foldl_within_fst beside step wanted (t, [])). intros st [[item field] v]. unfold step.
    destruct (_ || _); [apply link_ref_beside|done]. }
  destruct (foldl step (t, []) wanted) as [t1 unwritten]. cbn [fst] in *. etransitivity; [exact H1|].
  apply foldl_within_elem; [apply _|]. intros t2 sk Hsk. case_bool_decide; [done|]. apply delete_beside.
  apply elem_of_app in Hsk as [Hsk|Hsk]; eapply reference_key_beside in Hsk; try done; auto.
Qed.

Lemma reindex_stages t :
  ∃ t3, t3 = link_edges (omap (λ row, row_text row "tag") (query_prefix (foldl reindex_item (t, []) (query_prefix t (table_prefix "items"))).1
               (table_prefix "edge_adds"))) (foldl reindex_item (t, []) (query_prefix t (table_prefix "items"))).1 ∧
        (well_stored t3 → beside t3 (reindex t).1).
Proof.
  unfold reindex. match goal with |- context [foldl ?f (t, []) (query_prefix t (table_prefix "items"))] =>
    lazymatch f with reindex_item => fail | _ => change f with reindex_item end end. destruct (foldl reindex_item (t, []) _) as [t1 unindexed]. cbn [fst].
  rewrite (foldl_omap (λ row, row_text row "tag") (λ t tag, link_edge tag t)). fold (link_edges
    (omap (λ row, row_text row "tag") (query_prefix t1 (table_prefix "edge_adds"))) t1).
  set (t3 := link_edges _ t1). exists t3. split; [done|]. intros Ht3. set (t4 := foldl _ t3 OWNED).
  assert (beside t3 t4) as H4.
  { apply foldl_within_elem; [apply _|]. intros t0 owned Ho. apply foldl_within; [apply _|]. intros t5 row.
    destruct (row_text row "tag"); [by apply refresh_owned_add_beside|done]. }
  assert (H := reindex_refs_beside t4 (beside_keyed _ _ H4 Ht3)). destruct (reindex_refs t4) as [t5 sks]. cbn [fst] in *.
  by etransitivity.
Qed.

Lemma reindex_rows t : well_stored t → same_rows t (reindex t).1.
Proof.
  intros Ht. destruct (reindex_stages t) as (t3 & E & Hb). assert (same_rows t t3) as H3.
  { rewrite E. etransitivity; [|apply link_edges_rows]. apply (foldl_within_fst same_rows reindex_item _ (t, [])).
    apply reindex_item_rows. }
  etransitivity; [exact H3|]. apply beside_rows, Hb. by apply (same_keyed _ _ H3).
Qed.

(** What is not there need not be looked at. *)
Lemma indexed_drop X Y t :
  (∀ id, id ∈ X → get t (item_key id) = None) → (∀ tag, tag ∈ Y → get t (edge_key tag) = None) → indexed X Y t → indexed ∅ ∅ t.
Proof.
  intros HX HY [H1 H2 H3 H4 H5 H6 H7]. split; [done| |done| | |done|done].
  - intros id d _ Hd. apply H2; [|done]. intros Hin%HX. congruence.
  - intros tag _. destruct (decide (tag ∈ Y)) as [Hin%HY|Hnot]; [|by apply H4]. intros d Hd. congruence.
  - intros tag d e _ Hd. apply H5; [|done]. intros Hin%HY. congruence.
Qed.

Lemma same_none t t' table def key :
  same_rows t t' → flow_schema !! table = Some def → get t (text_sk table key) = None → get t' (text_sk table key) = None.
Proof.
  intros Hs Hdef Hn. destruct (get t' (text_sk table key)) as [d|] eqn:Hd; [|done].
  destruct (same_get _ _ _ _ (same_base _ _ Hs) (text_sk_no_dot table def key Hdef) Hd) as (d0 & Hd0 & _). congruence.
Qed.

(** Whatever flags and entries a partition had before. *)
Lemma reindex_indexed X Y t views :
  mirrors t views → indexed X Y t → well_stored t → has_room t → indexed ∅ ∅ (reindex t).1.
Proof.
  intros Hm Hix Ht Hroom. destruct (reindex_stages t) as (t3 & E & Hb).
  set (rows := query_prefix t (table_prefix "items")) in *. set (t1 := (foldl reindex_item (t, []) rows).1) in *.
  set (tags := omap (λ row, row_text row "tag") (query_prefix t1 (table_prefix "edge_adds"))) in *.
  assert (same_rows t t1) as H1 by (apply (foldl_within_fst same_rows reindex_item _ (t, [])); apply reindex_item_rows).
  assert (same_rows t1 t3) as H3 by (rewrite E; apply link_edges_rows).
  assert (indexed (X ∖ list_to_set (omap (λ row, row_text row "id") rows)) Y t1) as Hix1 by by apply reindex_items_indexed.
  apply (indexed_beside _ _ t3); [apply Hb; by apply (same_keyed _ _ H3), (same_keyed _ _ H1)|].
  assert (indexed (X ∖ list_to_set (omap (λ row, row_text row "id") rows)) (Y ∖ list_to_set tags) t3) as Hix3
    by (rewrite E; by apply link_edges_indexed).
  revert Hix3. apply indexed_drop.
  - intros id [_ Hid]%elem_of_difference. rewrite item_key_text. apply (same_none t _ "items" items_def); [by etransitivity|done|].
    destruct (get t (text_sk "items" [id])) as [d|] eqn:Hd; [|done]. exfalso. apply Hid, elem_of_list_to_set, list_elem_of_omap.
    exists d. split; [|by apply (single_key t views Hm "items" items_def id d "id")].
    apply elem_of_query_prefix. exists (text_sk "items" [id]). split; [done|]. by apply (text_sk_prefix "items" items_def "items" items_def).
  - intros tag [_ Htag]%elem_of_difference. rewrite tag_key_text. apply (same_none t1 _ "edge_adds" edge_adds_def); [done|done|].
    destruct (get t1 (text_sk "edge_adds" [tag])) as [d|] eqn:Hd; [|done]. exfalso. apply Htag, elem_of_list_to_set, list_elem_of_omap.
    exists d. split.
    + apply elem_of_query_prefix. exists (text_sk "edge_adds" [tag]). split; [done|].
      by apply (text_sk_prefix "edge_adds" edge_adds_def "edge_adds" edge_adds_def).
    + apply (single_key t1 views (mirrors_same _ _ _ H1 Hm) "edge_adds" edge_adds_def tag d "tag"); done.
Qed.

(** ** The watermark *)
Definition MARK_NAMES : list string := PK :: SK :: "folded_through" :: REFOLD_UNTIL :: (revision_cells task_folder).*1.

Definition mark_row (d : Row) : Prop :=
  ∀ a v, d !! a = Some v → a ∈ MARK_NAMES ∧ (a ∉ [PK; SK] → ∃ z, v = Cell.Int z).
Definition mark_ok (t : MemTable) : Prop := ∀ d, get t WATERMARK_KEY = Some d → mark_row d.

(** A write of the watermark sets its own attributes. *)
Definition mark_write (w : TableWrite) : Prop :=
  TableWrite.sk w = WATERMARK_KEY ∧ Forall (λ c, c.1 ∈ MARK_NAMES ∧ ∃ z, c.2 = Cell.Int z) (TableWrite.set w) ∧ keeps_row w.

Lemma set_cells_elem (cells : Cells) (d : Row) a v : set_cells cells d !! a = Some v → (a, v) ∈ cells ∨ d !! a = Some v.
Proof.
  revert d. induction cells as [|[c w] cells IH]; intros d; [by right|]. rewrite set_cells_cons.
  intros [H|[[<- <-]|[_ H]]%lookup_insert_Some]%IH; [left; by right|left; by left|by right].
Qed.

Lemma written_mark stream w stored :
  mark_write w → (∀ d, stored = Some d → mark_row d) → mark_row (written_row stream w stored).
Proof.
  intros (_ & Hset & _) Hold a v. unfold written_row. rewrite delete_all_lookup. destruct (decide _); [done|].
  rewrite Forall_forall in Hset. intros [H%Hset|H]%set_cells_elem; [by destruct H|]. destruct stored as [d|]; [by apply (Hold d)|].
  cbn [default from_option] in H. unfold id in H. rewrite fresh_row_lookup in H. unfold MARK_NAMES.
  destruct (decide (a = PK)) as [->|]; [split; set_solver|]. destruct (decide (a = SK)) as [->|]; [split; set_solver|done].
Qed.

Lemma mark_written w t : mark_write w → mark_ok t → mark_ok (write w t).1.
Proof.
  intros Hw Ht d. destruct t as [stream rows]. unfold write. assert (Hsk := proj1 Hw). rewrite Hsk. unfold mark_ok, get in *. cbn [MemTable.rows] in *.
  destruct (match TableWrite.condition w with Some _ => _ | None => _ end); [|apply Ht]. destruct (_ <? _); [apply Ht|].
  cbn [fst MemTable.rows]. rewrite lookup_insert_eq. intros [= <-]. by apply written_mark.
Qed.

Lemma advance_write through :
  mark_write (TableWrite.Mk WATERMARK_KEY (("folded_through", Cell.Int through) :: revision_cells task_folder) []
    (Some (Cond.Any [Cond.RowAbsent; Cond.Beats ["folded_through"] [through] Wins.Higher]))).
Proof.
  split; [done|]. split.
  - constructor; [split; [unfold MARK_NAMES; set_solver|by eexists]|]. apply Forall_forall. intros c Hc. split.
    + unfold MARK_NAMES. do 4 right. by apply list_elem_of_fmap_2.
    + revert Hc. unfold revision_cells. intros (domain & _ & E)%list_elem_of_omap.
      destruct (revisions task_folder !! domain); simplify_eq/=. by eexists.
  - apply unreserved_keeps. change (∀ a, a ∈ ("folded_through" :: (revision_cells task_folder).*1) ++ [] → a ∉ RESERVED).
    apply Forall_forall, (bool_decide_unpack _). vm_compute. reflexivity.
Qed.

Lemma stamp_write through : mark_write (stamp task_folder through).
Proof.
  destruct (advance_write through) as (_ & Hset & _). split; [done|]. split; [exact Hset|]. apply unreserved_keeps.
  change (∀ a, a ∈ ("folded_through" :: (revision_cells task_folder).*1) ++ [REFOLD_UNTIL] → a ∉ RESERVED).
  apply Forall_forall, (bool_decide_unpack _). vm_compute. reflexivity.
Qed.

Lemma sentinel_write through until : mark_write (sentinel through until).
Proof.
  split; [done|]. split.
  - constructor; [split; [unfold MARK_NAMES; set_solver|by eexists]|]. destruct until as [u|]; [|done].
    constructor; [split; [unfold MARK_NAMES; set_solver|by eexists]|done].
  - apply unreserved_keeps. destruct until as [u|];
      [change (∀ a, a ∈ ["folded_through"; REFOLD_UNTIL] → a ∉ RESERVED)|change (∀ a, a ∈ ["folded_through"] → a ∉ RESERVED)];
      apply Forall_forall, (bool_decide_unpack _); vm_compute; reflexivity.
Qed.

(** A watermark is short. *)
Lemma mark_fits stream d :
  byte_len stream ≤ MAX_PARTITION_BYTES → mark_row d → d !! PK = Some (Cell.Text stream) → d !! SK = Some (Cell.Text WATERMARK_KEY) →
  fits d.
Proof.
  intros Hlen Hd Hpk Hsk. assert (∀ a v, d !! a = Some v → a ∈ MARK_NAMES ∧ attribute_bytes a v ≤ edge_bound) as H.
  { intros a v Hv. destruct (Hd a v Hv) as [Ha Hint]. split; [done|].
    destruct (decide (a = PK)) as [->|Hp]; [rewrite Hpk in Hv; injection Hv as <-; unfold attribute_bytes; change (byte_len PK) with 9;
      unfold MAX_PARTITION_BYTES, edge_bound in *; lia|].
    destruct (decide (a = SK)) as [->|Hs]; [rewrite Hsk in Hv; injection Hv as <-; by vm_compute|].
    destruct Hint as [z ->]; [set_solver|]. clear -Ha. revert a Ha. apply Forall_forall.
    assert (Forall (λ a, byte_len a + 21 ≤ edge_bound) MARK_NAMES) as H by (apply (bool_decide_unpack _); vm_compute; reflexivity).
    exact H. }
  apply named_bytes in H. etransitivity; [exact H|]. by vm_compute.
Qed.

(** *** The revisions it names *)
Lemma mark_revisions_lookup (d : Row) domain :
  mark_revisions d !! domain = match d !! ("revision_" +:+ domain) with Some (Cell.Int v) => Some v | _ => None end.
Proof.
  unfold mark_revisions. set (l := omap _ (map_to_list d)).
  assert (∀ v, (domain, v) ∈ l ↔ d !! ("revision_" +:+ domain) = Some (Cell.Int v)) as Hl.
  { intros v. unfold l. rewrite list_elem_of_omap. split.
    - intros ([a c] & Hin%elem_of_map_to_list & E). destruct c as [| |z]; try done.
      destruct (strip_prefix "revision_" a) as [r|] eqn:Er; [|done]. cbn in E. simplify_eq. by apply strip_prefix_Some in Er as ->.
    - intros Hv. exists ("revision_" +:+ domain, Cell.Int v). split; [by apply elem_of_map_to_list|]. by rewrite strip_prefix_app. }
  destruct (d !! ("revision_" +:+ domain)) as [[| |v]|] eqn:E.
  1, 2, 4: apply not_elem_of_list_to_map; intros ([k v] & Ek & Hin)%list_elem_of_fmap; cbn [fst] in Ek; subst k; apply Hl in Hin; congruence.
  apply elem_of_list_to_map_1'; [|by apply Hl]. intros v' [=]%Hl. done.
Qed.

Definition unrevised (t : MemTable) : Prop := ∀ d, get t WATERMARK_KEY = Some d → mark_revisions d = ∅.

Lemma unrevised_watermark t :
  match watermark t with Some mark => negb (bool_decide (FoldMark.revisions mark = ∅)) | None => false end = false ↔ unrevised t.
Proof.
  unfold watermark, unrevised. destruct (get t WATERMARK_KEY) as [d|]; cbn [fmap option_fmap option_map FoldMark.revisions]; [|by split].
  rewrite negb_false_iff, bool_decide_eq_true. split; [by intros H ? [= <-]|auto].
Qed.

Lemma elem_of_revision_cells folder domain v :
  ("revision_" +:+ domain, Cell.Int v) ∈ revision_cells folder ↔ revisions folder !! domain = Some v.
Proof.
  unfold revision_cells. rewrite list_elem_of_omap. split.
  - intros (domain' & _ & E). destruct (revisions folder !! domain') as [rev|] eqn:Er; [|done]. cbn in E. by simplify_eq.
  - intros H. exists domain. rewrite elem_of_sorted_keys, H. by split; [eexists|].
Qed.

Lemma revision_names domain : "revision_" +:+ domain ∈ (revision_cells task_folder).*1 ↔ is_Some (revisions task_folder !! domain).
Proof.
  rewrite list_elem_of_fmap. split.
  - intros ([a c] & E & Hin). cbn [fst] in E. subst a. assert (Hc := Hin). unfold revision_cells in Hc.
    apply list_elem_of_omap in Hc as (domain' & _ & E). destruct (revisions task_folder !! domain'); [|done]. cbn in E. injection E as _ <-.
    apply elem_of_revision_cells in Hin. by eexists.
  - intros [v Hv]. exists ("revision_" +:+ domain, Cell.Int v). split; [done|]. by apply elem_of_revision_cells.
Qed.

(** The watermark an import ends with. *)
Lemma stamped through t :
  byte_len (MemTable.stream t) ≤ MAX_PARTITION_BYTES → mark_ok t → well_stored t → unrevised t →
  watermark (write (stamp task_folder through) t).1 = Some (FoldMark.Mk through (revisions task_folder) None).
Proof.
  intros Hlen Hmark Ht Hrev. set (w := stamp task_folder through). set (stored := get t WATERMARK_KEY).
  set (d' := written_row (MemTable.stream t) w stored).
  assert (∀ a, a ∉ ("folded_through" :: (revision_cells task_folder).*1) → a ≠ REFOLD_UNTIL →
    d' !! a = default (fresh_row (MemTable.stream t) WATERMARK_KEY) stored !! a) as Hother.
  { intros a Ha Hne. apply written_row_other; [exact Ha|]. intros H%list_elem_of_singleton. done. }
  assert (∀ a v, (a, v) ∈ TableWrite.set w → a ≠ REFOLD_UNTIL → d' !! a = Some v) as Hset.
  { intros a v Hin Hne. unfold d', written_row. rewrite delete_all_lookup, decide_False by (intros H%list_elem_of_singleton; done).
    apply set_cells_lookup; [|done]. change ((TableWrite.set w).*1) with ("folded_through" :: (revision_cells task_folder).*1).
    apply (bool_decide_unpack _). vm_compute. reflexivity. }
  assert (fits d') as Hfits.
  { apply (mark_fits (MemTable.stream t)); [done|apply written_mark; [apply stamp_write|done]|..].
    all: rewrite Hother by (try done; apply (bool_decide_unpack (_ ∉ _)); vm_compute; reflexivity); unfold stored.
    all: destruct (get t WATERMARK_KEY) as [d|] eqn:E; [apply (Ht _ _ E)|cbn [default from_option]; unfold id; by rewrite fresh_row_lookup]. }
  assert (get (write w t).1 WATERMARK_KEY = Some d') as Hget.
  { unfold d', stored. destruct t as [stream rows]. unfold write, get in *. cbn [MemTable.rows MemTable.stream] in *.
    cbn [w stamp TableWrite.condition TableWrite.sk]. fold w. unfold d', stored, get in Hfits. cbn [MemTable.rows] in Hfits.
    rewrite (proj2 (N.ltb_ge _ _) Hfits). cbn. apply lookup_insert_eq. }
  unfold watermark. rewrite Hget. cbn [fmap option_fmap option_map]. do 2 f_equal.
  - unfold row_int. rewrite (Hset _ (Cell.Int through)); [done|by left|done].
  - apply map_eq. intros domain. rewrite mark_revisions_lookup. destruct (revisions task_folder !! domain) as [v|] eqn:E.
    + rewrite (Hset _ (Cell.Int v)); [done|right; by apply elem_of_revision_cells|done].
    + rewrite Hother; [|rewrite elem_of_cons, revision_names, E; by intros [|[]]|done]. unfold stored, unrevised in *.
      destruct (get t WATERMARK_KEY) as [d|]; cbn [default from_option]; unfold id.
      * rewrite <-mark_revisions_lookup, (Hrev d eq_refl). apply lookup_empty.
      * by rewrite fresh_row_lookup.
  - unfold row_int, d', written_row. rewrite delete_all_lookup, decide_True; [done|]. by left.
Qed.

(** ** A stream cleared *)
Section clear.
Local Unset Default Proof Using.
Context (t : MemTable) (until : Z) (Ht : well_stored t).

Definition drop_row (t : MemTable) (row : Row) : MemTable :=
  match row_text row SK with
  | Some sk => if bool_decide (sk = WATERMARK_KEY) then t else delete_row sk t
  | None => t
  end.

Lemma drop_row_stream t0 row : MemTable.stream (drop_row t0 row) = MemTable.stream t0.
Proof. unfold drop_row. destruct (row_text row SK); [|done]. case_bool_decide; [done|]. by destruct t0. Qed.

Lemma drop_row_get t0 row sk : get (drop_row t0 row) sk = get t0 sk ∨ get (drop_row t0 row) sk = None ∧ sk ≠ WATERMARK_KEY.
Proof.
  unfold drop_row. destruct (row_text row SK) as [sk'|]; [|by left]. case_bool_decide as Hne; [by left|]. destruct t0 as [stream rows].
  unfold get. cbn [delete_row MemTable.rows]. destruct (decide (sk' = sk)) as [->|]; [right; by rewrite lookup_delete_eq|].
  left. by rewrite lookup_delete_ne.
Qed.

Lemma drop_rows_get rows t0 sk :
  (get (foldl drop_row t0 rows) sk = get t0 sk ∨ get (foldl drop_row t0 rows) sk = None ∧ sk ≠ WATERMARK_KEY) ∧
  (sk ≠ WATERMARK_KEY → (∃ row, row ∈ rows ∧ row_text row SK = Some sk) → get (foldl drop_row t0 rows) sk = None).
Proof.
  revert t0. induction rows as [|row rows IH]; intros t0; cbn [foldl]; [split; [by left|by intros _ (r & ?%not_elem_of_nil & _)]|].
  destruct (IH (drop_row t0 row)) as [H1 H2]. assert (H3 := drop_row_get t0 row sk). split.
  - destruct H1 as [->|[-> ?]]; [done|by right].
  - intros Hne (r & [->|Hr]%elem_of_cons & Hsk); [|by apply H2; [|exists r]].
    assert (get (drop_row t0 row) sk = None) as E.
    { unfold drop_row. rewrite Hsk, bool_decide_eq_false_2 by done. destruct t0 as [stream rows0]. unfold get. cbn. apply lookup_delete_eq. }
    destruct H1 as [->|[-> _]]; done.
Qed.

Lemma drop_rows_stored rows t0 : well_stored t0 → well_stored (foldl drop_row t0 rows).
Proof.
  revert t0. induction rows as [|row rows IH]; intros t0 H0; [done|]. cbn [foldl]. apply IH. unfold drop_row.
  destruct (row_text row SK); [|done]. case_bool_decide; [done|]. by apply delete_keyed.
Qed.

Lemma drop_rows_stream rows t0 : MemTable.stream (foldl drop_row t0 rows) = MemTable.stream t0.
Proof. revert t0. induction rows as [|row rows IH]; intros t0; [done|]. cbn [foldl]. by rewrite IH, drop_row_stream. Qed.

Lemma clear_stages : ∃ w, mark_write w ∧ clear until t = foldl drop_row (write w t).1 (query_prefix t "").
Proof.
  unfold clear. set (stale := match find_first _ _ with Some mark => _ | None => _ end).
  exists (TableWrite.Mk (TableWrite.sk (sentinel 0 (Some until))) (TableWrite.set (sentinel 0 (Some until))) stale
    (TableWrite.condition (sentinel 0 (Some until)))). split; [|done].
  destruct (sentinel_write 0 (Some until)) as (H1 & H2 & [K1 K2 K3]). split; [done|]. split; [done|]. split; [exact K1| |exact K3].
  cbn [TableWrite.remove]. unfold stale. intros a Ha. destruct (find_first _ _) as [mark|]; [|apply not_elem_of_nil].
  intros [Hs _]%list_elem_of_filter. rewrite !elem_of_cons in Ha. destruct Ha as [->|[->|?%not_elem_of_nil]]; done.
Qed.

(** Nothing but the watermark is left. *)
Lemma clear_get sk d : get (clear until t) sk = Some d → sk = WATERMARK_KEY.
Proof.
  destruct clear_stages as (w & (Hsk & _) & ->). intros Hd. destruct (decide (sk = WATERMARK_KEY)) as [|Hne]; [done|]. exfalso.
  destruct (drop_rows_get (query_prefix t "") (write w t).1 sk) as [H1 H2]. destruct (get t sk) as [d0|] eqn:E.
  - rewrite H2 in Hd; [done|done|]. exists d0. split; [|by apply row_text_Some, (stored_sk _ _ _ (Ht sk d0 E))].
    apply elem_of_query_prefix. exists sk. split; [done|]. apply (starts_with_app "" sk).
  - destruct H1 as [H1|[H1 _]]; [|congruence]. rewrite H1, write_other in Hd by congruence. congruence.
Qed.

Lemma clear_stored : well_stored (clear until t).
Proof. destruct clear_stages as (w & (_ & _ & Hk) & ->). apply drop_rows_stored. by apply write_keyed. Qed.

Lemma clear_stream : MemTable.stream (clear until t) = MemTable.stream t.
Proof. destruct clear_stages as (w & _ & ->). by rewrite drop_rows_stream, write_stream. Qed.

Lemma clear_mark : mark_ok t → mark_ok (clear until t).
Proof.
  destruct clear_stages as (w & Hw & ->). intros Hm d. destruct (drop_rows_get (query_prefix t "") (write w t).1 WATERMARK_KEY) as [[->|[_ ?]] _]; [|done].
  by apply mark_written.
Qed.
End clear.

(** ** A stream started *)
Lemma unrevised_sentinel t : unrevised t → unrevised (write (sentinel 0 None) t).1.
Proof.
  intros H d. destruct t as [stream rows]. unfold unrevised, write, get in *.
  cbn [sentinel put_row TableWrite.condition TableWrite.sk MemTable.rows] in *. destruct (_ <? _); [apply H|]. cbn [fst MemTable.rows].
  rewrite lookup_insert_eq. intros [= <-]. apply map_eq. intros domain. rewrite lookup_empty, mark_revisions_lookup.
  rewrite written_row_other by (cbn; rewrite ?list_elem_of_singleton; (done || apply not_elem_of_nil)).
  destruct (rows !! WATERMARK_KEY) as [d|]; cbn [default from_option]; unfold id.
  - rewrite <-mark_revisions_lookup, (H d eq_refl). apply lookup_empty.
  - by rewrite fresh_row_lookup.
Qed.

Lemma write_each_mark ws t :
  Forall (λ w, starts_with "." (TableWrite.sk w) = false) ws → get (write_each ws t) WATERMARK_KEY = get t WATERMARK_KEY.
Proof.
  intros H. apply write_each_other. intros (w & E & Hin)%list_elem_of_fmap. rewrite Forall_forall in H. specialize (H w Hin).
  by rewrite <-E in H.
Qed.

(** What every partition of a stream has. *)
Record serves (stream : string) (log : list Op) (t : MemTable) : Prop := {
  sv_stream : MemTable.stream t = stream;
  sv_mirrors : mirrors t (log_views TaskReducer log);
  sv_stored : well_stored t;
  sv_mark : mark_ok t;
  sv_indexed : byte_len stream ≤ MAX_PARTITION_BYTES → indexed ∅ ∅ t;
}.

Lemma serves_marks stream log t w : mark_write w → serves stream log t → serves stream log (write w t).1.
Proof.
  intros Hw [H1 H2 H3 H4 H5]. assert (marks t (write w t).1) as Hm by (destruct Hw as (? & _ & ?); by apply write_marks). split.
  - by rewrite write_stream.
  - by eapply mirrors_marks.
  - by apply (marks_keyed _ _ Hm).
  - by apply mark_written.
  - intros Hlen. eapply indexed_marks; [done|by apply H5].
Qed.

Lemma serves_reindex stream log t : serves stream log t → serves stream log (reindex t).1.
Proof.
  intros [H1 H2 H3 H4 H5]. assert (Hs := reindex_rows t H3). split.
  - by rewrite <-(same_stream _ _ Hs).
  - by eapply mirrors_same.
  - by apply (same_keyed _ _ Hs).
  - intros d. rewrite <-(same_mark _ _ Hs). apply H4.
  - intros Hlen. eapply reindex_indexed; [done|by apply H5|done|]. eapply indexed_room; [by apply H5|done|done].
Qed.

Lemma serves_clear stream log t until : serves stream log t → serves stream [] (clear until t).
Proof.
  intros [H1 H2 H3 H4 H5]. assert (∀ sk d, get (clear until t) sk = Some d → starts_with "." sk = true) as Hdot
    by (intros sk d Hd; apply clear_get in Hd; [by subst sk|done]).
  assert (∀ table def key, flow_schema !! table = Some def → get (clear until t) (text_sk table key) = None) as Hnone.
  { intros table def key Hdef. destruct (get (clear until t) (text_sk table key)) as [d|] eqn:E; [|done].
    apply Hdot in E. by rewrite (text_sk_no_dot _ _ key Hdef) in E. }
  split.
  - by rewrite clear_stream.
  - by apply mirrors_none.
  - by apply clear_stored.
  - by apply clear_mark.
  - intros Hlen. split.
    + by rewrite clear_stream, H1.
    + intros id d _. rewrite item_key_text. by rewrite (Hnone "items" items_def).
    + intros id d. rewrite item_key_text. by rewrite (Hnone "items" items_def).
    + intros tag _ d. rewrite tag_key_text. by rewrite (Hnone "edge_adds" edge_adds_def).
    + intros tag d e _. rewrite tag_key_text. by rewrite (Hnone "edge_adds" edge_adds_def).
    + intros tag d. rewrite tag_key_text. by rewrite (Hnone "edge_adds" edge_adds_def).
    + intros e tag a Ha. apply clear_get in Ha; [|done]. discriminate Ha.
Qed.

Section start.
Local Unset Default Proof Using.
Context (stream : string) (log : list Op) (snapshot : Snapshot) (R : Carried) (t : MemTable).
Context (Hserves : serves stream [] t) (Hcarries : carries snapshot R (log_views TaskReducer log)) (Hroom : room stream R).
Context (Hstream : Snapshot.stream_id snapshot = stream).
Abbreviation all_writes := (sorted_keys (Snapshot.tables snapshot) ≫= table_writes R).

Definition started : MemTable :=
  (write (stamp task_folder (Snapshot.folded_through snapshot))
    (reindex (write_each all_writes (write (sentinel 0 None) t).1)).1).1.

Lemma import_started t' : import_snapshot task_folder snapshot t = (t', Ok tt) → t' = started ∧ unrevised t.
Proof.
  unfold import_snapshot. destruct (FORMAT <? _); [done|]. destruct (negb _); [done|]. destruct (negb (bool_decide (delete _ _ = _))); [done|].
  destruct (match watermark t with Some _ => _ | None => _ end) eqn:E; [done|].
  cbn [task_folder Folder.layout]. rewrite (import_tables_ok snapshot R _ Hcarries). intros [= <-]. split; [done|].
  by apply unrevised_watermark.
Qed.

Lemma import_ok :
  Snapshot.format snapshot ≤ FORMAT → delete INDEX_DOMAIN (Snapshot.revisions snapshot) = reducer_revisions task_folder → unrevised t →
  import_snapshot task_folder snapshot t = (started, Ok tt).
Proof.
  intros Hf Hrev Hun. unfold import_snapshot. rewrite (proj2 (N.ltb_ge _ _) Hf). rewrite (bool_decide_eq_true_2 (Snapshot.stream_id snapshot = _))
    by (by rewrite (sv_stream _ _ _ Hserves)). rewrite bool_decide_eq_true_2 by done. cbn [negb].
  rewrite (proj2 (unrevised_watermark t) Hun). cbn [task_folder Folder.layout]. by rewrite (import_tables_ok snapshot R _ Hcarries).
Qed.

Lemma loaded_serves :
  let t1 := write_each all_writes (write (sentinel 0 None) t).1 in
  MemTable.stream t1 = stream ∧ mirrors t1 (log_views TaskReducer log) ∧ well_stored t1 ∧ mark_ok t1 ∧
  (byte_len stream ≤ MAX_PARTITION_BYTES → ∃ X Y, indexed X Y t1 ∧ has_room t1) ∧
  get t1 WATERMARK_KEY = get (write (sentinel 0 None) t).1 WATERMARK_KEY.
Proof.
  cbv zeta. destruct (serves_marks stream [] t _ (sentinel_write 0 None) Hserves) as [H1 H2 H3 H4 H5].
  set (t0 := (write (sentinel 0 None) t).1) in *.
  assert (get (write_each all_writes t0) WATERMARK_KEY = get t0 WATERMARK_KEY) as Hmark.
  { apply write_each_mark, Forall_forall. intros w (table & def & key & d & Hdef & _ & ->)%(elem_of_all_writes _ _ _ Hcarries).
    by apply (text_sk_no_dot table def). }
  rewrite <-Hstream in *. split_and!.
  - by rewrite write_each_stream.
  - by apply loaded_mirrors.
  - by eapply loaded_stored.
  - intros d. rewrite Hmark. apply H4.
  - intros Hlen. do 2 eexists. split; [by eapply loaded_indexed; eauto|by eapply loaded_room; eauto].
  - done.
Qed.

Lemma started_serves : serves stream log started.
Proof.
  destruct loaded_serves as (H1 & H2 & H3 & H4 & H5 & _). unfold started. apply serves_marks; [apply stamp_write|].
  set (t1 := write_each all_writes (write (sentinel 0 None) t).1) in *. assert (Hs := reindex_rows t1 H3). split.
  - by rewrite <-(same_stream _ _ Hs).
  - by eapply mirrors_same.
  - by apply (same_keyed _ _ Hs).
  - intros d. rewrite <-(same_mark _ _ Hs). apply H4.
  - intros Hlen. destruct (H5 Hlen) as (X & Y & Hix & Hr). by eapply reindex_indexed.
Qed.

Lemma started_mark :
  byte_len stream ≤ MAX_PARTITION_BYTES → unrevised t →
  watermark started = Some (FoldMark.Mk (Snapshot.folded_through snapshot) (revisions task_folder) None).
Proof.
  intros Hlen Hun. destruct loaded_serves as (H1 & H2 & H3 & H4 & _ & H6). unfold started.
  set (t1 := write_each all_writes (write (sentinel 0 None) t).1) in *. assert (Hs := reindex_rows t1 H3). apply stamped.
  - by rewrite <-(same_stream _ _ Hs), H1.
  - intros d. rewrite <-(same_mark _ _ Hs). apply H4.
  - by apply (same_keyed _ _ Hs).
  - intros d. rewrite <-(same_mark _ _ Hs), H6. by apply unrevised_sentinel.
Qed.
End start.

(** ** The life of a stream

    It is fresh, folds batches of a log without refusing an operation, is cleared, has its indexes rebuilt, or
    starts from a snapshot of the views of a log. *)
Inductive served (stream : string) : list Op → MemTable → Prop :=
| served_fresh : served stream [] (MemTable.Mk stream ∅)
| served_batch log ops t t' :
    served stream log t → fold_batch task_folder ops t = (t', Ok []) → served stream (log ++ ops.*2) t'
| served_clear log until t : served stream log t → served stream [] (clear until t)
| served_reindex log t : served stream log t → served stream log (reindex t).1
| served_import log snapshot R t t' :
    served stream [] t → carries snapshot R (log_views TaskReducer log) → room stream R →
    import_snapshot task_folder snapshot t = (t', Ok tt) → served stream log t'.

Lemma serves_fresh stream : serves stream [] (MemTable.Mk stream ∅).
Proof. split; [done|apply mirrors_fresh|done|done|apply indexed_fresh]. Qed.

Lemma write_all_mark op changes writes t t' :
  Forall (task_change op) changes → plan_all task_layout changes = Ok writes → write_all writes t = (t', []) →
  get t' WATERMARK_KEY = get t WATERMARK_KEY.
Proof.
  intros Hs. revert writes t. induction Hs as [|c changes Hc Hs IH]; intros writes t; [by intros [= <-] [= <-]|].
  intros (w & ws & Hp & Hps & ->)%plan_all_cons (t1 & o & Hw & Ho & Hws)%write_all_cons.
  destruct (task_plannable op c Hc) as (def & key & Hc'). rewrite (plan_ok c def key Hc') in Hp. injection Hp as <-.
  rewrite (IH ws t1) by done. match type of Hw with write ?w t = _ => assert (H := write_other w t WATERMARK_KEY) end. rewrite Hw in H.
  apply H. cbn [planned TableWrite.sk]. intros E. assert (H' := text_sk_no_dot _ _ key (plannable_def _ _ _ Hc')). by rewrite <-E in H'.
Qed.

Lemma serves_fold stream log op t t' r :
  serves stream log t → fold task_folder op t = (t', Ok r) → (∀ id reason, r ≠ FoldResult.Refused id reason) →
  serves stream (log ++ [op]) t'.
Proof.
  intros [H1 H2 H3 H4 H5] Hf Hr. assert (Hfold := fold_folding op t t' r Hf Hr).
  assert (MemTable.stream t' = MemTable.stream t ∧ get t' WATERMARK_KEY = get t WATERMARK_KEY) as [Hst Hmark].
  { destruct Hfold as [_|writes t1 Hp _ Hw _]; [done|]. assert (Ha := after_rows (folder_changes task_folder op) t1).
    rewrite <-(same_stream _ _ Ha), <-(same_mark _ _ Ha). split; [|eapply (write_all_mark op); [|done..]; apply Forall_forall, task_folder_shape].
    clear -Hw. revert t Hw. induction writes as [|w ws IH]; intros t Hw; [by injection Hw as <-|].
    apply write_all_cons in Hw as (t2 & o & Hw & _ & Hws). rewrite (IH t2 Hws). assert (H := write_stream w t). by rewrite Hw in H. }
  split.
  - by rewrite Hst.
  - unfold log_views. rewrite foldl_app. cbn [foldl]. by eapply mirrors_fold.
  - by eapply well_stored_fold.
  - intros d. rewrite Hmark. apply H4.
  - intros Hlen. eapply indexed_fold; [done..|by apply H5].
Qed.

Lemma serves_batch stream log ops t t' :
  serves stream log t → fold_batch task_folder ops t = (t', Ok []) → serves stream (log ++ ops.*2) t'.
Proof.
  intros Hs. unfold fold_batch. destruct (fold_ops task_folder ops t) as [t1 [refused|e]] eqn:E; [|done].
  assert (refused = [] → serves stream (log ++ ops.*2) t1) as H.
  { intros ->. apply (fold_ops_invariant (λ t past, serves stream past t) ops log t t1); [|done|done].
    intros past op t2 t3 r Hp. by apply serves_fold. }
  destruct (last_position ops) as [through|]; intros [= <- ->]; [|by apply H].
  apply (serves_marks _ _ t1 _ (advance_write through)). by apply H.
Qed.

Lemma served_serves stream log t : served stream log t → serves stream log t.
Proof.
  induction 1 as [|log ops t t' _ IH Hf|log until t _ IH|log t _ IH|log snapshot R t t' _ IH Hc Hr Hi].
  - apply serves_fresh.
  - by eapply serves_batch.
  - by eapply serves_clear.
  - by apply serves_reindex.
  - assert (Snapshot.stream_id snapshot = stream) as Hst.
    { revert Hi. unfold import_snapshot. destruct (FORMAT <? _); [done|]. destruct (negb _) eqn:E; [done|]. intros _.
      apply negb_false_iff, bool_decide_eq_true in E. by rewrite E, (sv_stream _ _ _ IH). }
    apply (import_started log snapshot R t Hc) in Hi as [-> _]. by apply started_serves.
Qed.

(** ** Snapshots of a partition *)
Lemma sum_bytes_perm (l l' : Cells) : l ≡ₚ l' → sum_bytes l = sum_bytes l'.
Proof.
  intros Hl. unfold sum_bytes. induction Hl as [|c l l' _ IH|c c' l|l1 l2 l3 _ IH1 _ IH2]; rewrite ?fmap_cons; cbn [foldr]; [done|lia..].
Qed.

Lemma sum_bytes_app (l l' : Cells) : sum_bytes (l ++ l') = sum_bytes l + sum_bytes l'.
Proof. unfold sum_bytes. rewrite fmap_app. induction l as [|c l IH]; [done|]. cbn [fmap list_fmap app foldr] in *. lia. Qed.

Lemma sum_bytes_sub (d d' : Row) : d ⊆ d' → sum_bytes (map_to_list d) ≤ sum_bytes (map_to_list d').
Proof.
  intros [k Hk]%map_to_list_submseteq%submseteq_Permutation.
  rewrite (sum_bytes_perm _ _ Hk), sum_bytes_app. lia.
Qed.

Lemma small_sub bound (d d' : Row) : d ⊆ d' → small bound d' → small bound d.
Proof. intros Hsub Hs a v Hv. apply Hs. by eapply lookup_weaken. Qed.

Lemma NoDup_fmap_elem {A B} (f : A → B) (l : list A) :
  (∀ x y, x ∈ l → y ∈ l → f x = f y → x = y) → NoDup l → NoDup (f <$> l).
Proof.
  intros Hf Hnd. induction Hnd as [|x l Hx Hnd IH]; [constructor|]. rewrite fmap_cons. constructor.
  - intros (y & E & Hy)%list_elem_of_fmap. apply Hx. rewrite (Hf x y); [done|by left|by right|done].
  - apply IH. intros a b Ha Hb. apply Hf; by right.
Qed.

(** The key of a row as its texts. *)
Definition row_texts (def : TableDef) (d : Row) : list string := omap (row_text d) (TableDef.primary_key def).

Lemma keyed_texts def key d : keyed_row def key d → row_texts def d = key.
Proof.
  unfold keyed_row, text_cells, row_texts. generalize (TableDef.primary_key def) as pk. intros pk [Hlen H]. revert pk Hlen H.
  induction key as [|v key IH]; intros [|c pk] Hlen H; try done. cbn [omap list_omap].
  assert (row_text d c = Some v) as -> by (apply row_text_Some, H; by left). f_equal. apply IH; [by injection Hlen|].
  intros c' v' Hin. apply H. by right.
Qed.

Section exported.
Local Unset Default Proof Using.
Context (stream : string) (log : list Op) (t : MemTable) (Ht : serves stream log t).
Abbreviation views := (log_views TaskReducer log).

(** The rows of a table with their keys. *)
Definition partition_rows (table : string) : list (list string * Row) :=
  match flow_schema !! table with
  | Some def => (λ d, (row_texts def d, d)) <$> query_prefix t (table_prefix table)
  | None => []
  end.

Lemma row_texts_key table def key d :
  flow_schema !! table = Some def → length key = length (TableDef.primary_key def) → get t (text_sk table key) = Some d →
  row_texts def d = key ∧ keyed_row def key d.
Proof.
  intros Hdef Hlen Hd. assert (kept_row def key (text_sk table key) d) as Hk
    by (apply (placed_kept table); [done|]; by apply (mirror_placed _ _ (sv_mirrors _ _ _ Ht))).
  assert (keyed_row def key d) as Hkey by (split; [done|apply Hk]). split; [by apply keyed_texts|done].
Qed.

Lemma elem_of_partition_rows table def key d :
  flow_schema !! table = Some def →
  (key, d) ∈ partition_rows table ↔ length key = length (TableDef.primary_key def) ∧ get t (text_sk table key) = Some d.
Proof.
  intros Hdef. unfold partition_rows. rewrite Hdef, list_elem_of_fmap. setoid_rewrite elem_of_query_prefix. split.
  - intros (d' & [= -> ->] & sk & Hget & Hp). apply (table_rows t views (sv_mirrors _ _ _ Ht) table def sk d' Hdef Hget) in Hp as (key' & -> & Hlen).
    destruct (row_texts_key table def key' d' Hdef Hlen Hget) as [-> _]. done.
  - intros [Hlen Hget]. exists d. destruct (row_texts_key table def key d Hdef Hlen Hget) as [-> _]. split; [done|].
    exists (text_sk table key). split; [done|]. apply (table_rows t views (sv_mirrors _ _ _ Ht) table def (text_sk table key) d Hdef Hget).
    by exists key.
Qed.

(** Each row comes once. *)
Lemma partition_keys table : NoDup (partition_rows table).*1.
Proof.
  unfold partition_rows. destruct (flow_schema !! table) as [def|] eqn:Hdef; [|constructor].
  rewrite <-list_fmap_compose. unfold query_prefix. rewrite <-list_fmap_compose.
  assert (NoDup (rows_in_order t).*1) as Hnd.
  { unfold rows_in_order. eapply sublist_NoDup; [apply (sorted_keys_NoDup (MemTable.rows t))|].
    induction (sorted_keys (MemTable.rows t)) as [|sk sks IH]; [done|]. cbn [omap list_omap].
    destruct (MemTable.rows t !! sk); cbn; by constructor. }
  apply NoDup_fmap_elem.
  - intros [sk1 d1] [sk2 d2] [Hs1 H1]%list_elem_of_filter [Hs2 H2]%list_elem_of_filter. rewrite elem_of_rows_in_order in H1, H2.
    cbn [fst snd compose] in *. apply (table_rows t views (sv_mirrors _ _ _ Ht) table def _ _ Hdef H1) in Hs1 as (k1 & -> & L1).
    apply (table_rows t views (sv_mirrors _ _ _ Ht) table def _ _ Hdef H2) in Hs2 as (k2 & -> & L2).
    destruct (row_texts_key table def k1 d1 Hdef L1 H1) as [-> _]. destruct (row_texts_key table def k2 d2 Hdef L2 H2) as [-> _].
    intros ->. congruence.
  - apply NoDup_filter. by apply NoDup_fmap_1 in Hnd.
Qed.

Lemma version_groups_whole table def g :
  flow_schema !! table = Some def → g ∈ version_groups → Forall (λ a, a ∈ names def) g ∨ Forall (λ a, a ∉ names def) g.
Proof.
  assert (map_Forall (λ _ def, Forall (λ g, Forall (λ a, a ∈ names def) g ∨ Forall (λ a, a ∉ names def) g) version_groups) flow_schema) as H
    by (apply (bool_decide_unpack _); vm_compute; reflexivity).
  intros Hdef Hg. apply H in Hdef. rewrite Forall_forall in Hdef. by apply Hdef.
Qed.

Lemma version_names g a : g ∈ version_groups → a ∈ g → a ∉ [PK; SK].
Proof.
  assert (Forall (λ g, Forall (λ a, a ∉ [PK; SK]) g) version_groups) as H by (apply (bool_decide_unpack _); vm_compute; reflexivity).
  intros Hg Ha. rewrite Forall_forall in H. specialize (H g Hg). rewrite Forall_forall in H. by apply H.
Qed.

Lemma imported_grouped table def key d :
  flow_schema !! table = Some def → keyed_row def key d → grouped d → grouped (written_row stream (row_write table def key d) None).
Proof.
  intros Hdef Hk Hg. unfold grouped in *. rewrite Forall_forall in Hg |- *. intros g Hin.
  destruct (version_groups_whole table def g Hdef Hin) as [Hown|Hnot].
  - rewrite Forall_forall in Hown. specialize (Hg g Hin). destruct Hg as [H|H]; rewrite Forall_forall in H; [left|right]; apply Forall_forall; intros a Ha;
      rewrite imported_own by auto.
    + by rewrite H.
    + destruct (H a Ha) as [v ->]. by exists v.
  - rewrite Forall_forall in Hnot. left. apply Forall_forall. intros a Ha. rewrite imported_other by auto. rewrite fresh_row_lookup.
    assert (Hr := version_names g a Hin Ha). rewrite !decide_False; [done|..]; intros ->; apply Hr; [by right; left|by left].
Qed.

Lemma exported_carries snapshot : export_snapshot task_folder t = Some snapshot → carries snapshot partition_rows views.
Proof.
  intros E. unfold export_snapshot in E. destruct (watermark t) as [mark|]; [|done]. cbn [mbind option_bind] in E. injection E as <-.
  cbn [task_folder Folder.layout]. split; cbn [Snapshot.tables Snapshot.stream_id].
  - intros table rows. rewrite map_lookup_imap, task_layout_tables, lookup_fmap. intros H.
    destruct (flow_schema !! table) as [def|] eqn:Hdef; [|done]. cbn in H. injection H as <-. exists def. split; [done|].
    unfold partition_rows. rewrite Hdef, <-list_fmap_compose. done.
  - intros table. rewrite map_lookup_imap, task_layout_tables, lookup_fmap. unfold partition_rows.
    by destruct (flow_schema !! table).
  - apply partition_keys.
  - intros table def key d Hdef [Hlen Hget]%(elem_of_partition_rows table def); [|done].
    destruct (row_texts_key table def key d Hdef Hlen Hget) as [_ Hk]. split; [done|]. rewrite (sv_stream _ _ _ Ht).
    apply imported_grouped; [done|done|]. assert (kept_row def key (text_sk table key) d) as H; [|apply H].
    apply (placed_kept table); [done|]. by apply (mirror_placed _ _ (sv_mirrors _ _ _ Ht)).
  - intros table def k row Hdef. split.
    + intros Hrow. destruct (mirror_keys _ _ (sv_mirrors _ _ _ Ht) table def k row Hdef Hrow) as (key & -> & Hlen).
      rewrite <-(mirror_rows _ _ (sv_mirrors _ _ _ Ht) table def key Hdef Hlen) in Hrow.
      destruct (get t (text_sk table key)) as [d|] eqn:Hget; [|done]. cbn in Hrow. injection Hrow as <-.
      exists key, d. split; [|done]. by apply (elem_of_partition_rows table def).
    + intros (key & d & [Hlen Hget]%(elem_of_partition_rows table def) & -> & ->); [|done].
      rewrite <-(mirror_rows _ _ (sv_mirrors _ _ _ Ht) table def key Hdef Hlen), Hget. done.
Qed.

Lemma imported_text table def key d c :
  flow_schema !! table = Some def → keyed_row def key d → c ∈ names def →
  row_text (written_row stream (row_write table def key d) None) c = row_text d c.
Proof.
  intros Hdef Hk Hc. unfold row_text. rewrite imported_own by done. destruct (d !! c) as [v|]; [|done]. cbn [mbind option_bind].
  unfold is_absent. cbn [fst snd]. case_bool_decide as Hv; [subst v; by destruct (bool_decide _)|done].
Qed.

Ltac imported_columns Hk :=
  rewrite !(imported_text "items" items_def _ _ _ eq_refl Hk) by (apply (bool_decide_unpack _); vm_compute; reflexivity).

Lemma exported_room : byte_len stream ≤ MAX_PARTITION_BYTES → room stream partition_rows.
Proof.
  intros Hlen. assert (Hix := sv_indexed _ _ _ Ht Hlen). assert (Hst := sv_stream _ _ _ Ht).
  assert (∀ table def key d, flow_schema !! table = Some def → (key, d) ∈ partition_rows table →
    get t (text_sk table key) = Some d ∧ keyed_row def key d ∧ stored_row stream (text_sk table key) d ∧
    written_row stream (row_write table def key d) None ⊆ d) as Hrow.
  { intros table def key d Hdef [Hl Hget]%(elem_of_partition_rows table def); [|done].
    destruct (row_texts_key table def key d Hdef Hl Hget) as [_ Hk]. assert (Hs := sv_stored _ _ _ Ht _ _ Hget). rewrite Hst in Hs.
    split_and!; [done..|]. by apply imported_sub. }
  split.
  - intros table def key d Hdef Hin. destruct (Hrow table def key d Hdef Hin) as (_ & _ & Hs & Hsub).
    etransitivity; [by apply sum_bytes_sub|apply Hs].
  - intros id d d' Hin Hb Hright. destruct (Hrow "items" items_def [id] d eq_refl Hin) as (Hget & Hk & Hs & Hsub).
    etransitivity; [apply (sum_bytes_sub d' d)|apply Hs]. rewrite <-item_key_text in Hget.
    assert (Hd := ix_right _ _ _ Hix id d (not_elem_of_empty _) Hget). rewrite Hst in Hd.
    apply map_subseteq_spec. intros a v Ha. destruct (decide (a ∈ INDEX_NAMES)) as [Hin'|Hnot].
    + rewrite <-Ha. symmetry. apply (right_item_same stream id); [done|done|..|done].
      * rewrite (is_active_row_base _ _ Hb). unfold is_active_row. by imported_columns Hk.
      * rewrite (typed_base _ _ Hb). unfold typed. by imported_columns Hk.
      * rewrite (lane_base _ _ Hb). unfold lane. by imported_columns Hk.
    + rewrite (base_row_at _ _ _ Hb Hnot) in Ha. by eapply lookup_weaken.
  - intros tag d Hin. destruct (Hrow "edge_adds" edge_adds_def [tag] d eq_refl Hin) as (Hget & _ & _ & Hsub).
    eapply small_sub; [done|]. rewrite <-tag_key_text in Hget. by apply (ix_edges _ _ _ Hix) in Hget as (_ & H & _).
Qed.
End exported.

(** ** Snapshots of a replica *)

(** The columns of a version are all their defaults or all numbers. *)
Definition whole_row (def : TableDef) (row : Row) : Prop :=
  ∀ g, g ∈ version_groups → Forall (λ a, a ∈ names def) g →
    Forall (λ a, row !! a = Some (default_of (table_layout def) a)) g ∨ Forall (λ a, ∃ v, row !! a = Some (Cell.Int v)) g.

Record regular_row (def : TableDef) (k : list Cell) (row : Row) : Prop := {
  regular_key : ∃ key, k = Cell.Text <$> key ∧ keyed_row def key row;
  regular_columns : row_of def row = row;
  regular_whole : whole_row def row;
}.

Definition regular (views : Views) : Prop :=
  ∀ table def k row, flow_schema !! table = Some def → view_row views table k = Some row → regular_row def k row.

Lemma row_of_again def d : row_of def (row_of def d) = row_of def d.
Proof. apply map_eq. intros a. rewrite !row_of_lookup. by destruct (find_column def a). Qed.

Section regular_change.
Local Unset Default Proof Using.
Context (c : Change) (def : TableDef) (key : list string) (Hc : plannable c def key).
Abbreviation tail := (effect_cells (Change.effect c) ++ version_cells (effect_version (Change.effect c))).

(** Some of the cells of the change, with its version. *)
Lemma set_regular (cells : Cells) (row : Row) :
  cells = cells_of c ∨ cells = tail → row_of def row = row → whole_row def row →
  row_of def (set_cells cells row) = set_cells cells row ∧ whole_row def (set_cells cells row).
Proof.
  intros Hcells Hrow Hwhole. assert (Hnd := plannable_nodup _ _ _ Hc). assert (Hcols := plannable_columns _ _ _ Hc).
  assert (∀ x, x ∈ cells → x ∈ cells_of c) as Hsub
    by (destruct Hcells as [-> | ->]; [done|intros x Hx; unfold cells_of; apply elem_of_app; by right]).
  assert (∀ x, x ∈ version_cells (effect_version (Change.effect c)) → x ∈ cells) as Hver
    by (destruct Hcells as [-> | ->]; intros x Hx; unfold cells_of; rewrite ?elem_of_app; auto).
  assert (NoDup cells.*1) as Hnd'.
  { destruct Hcells as [-> | ->]; [done|]. unfold cells_of in Hnd. rewrite fmap_app in Hnd. by apply NoDup_app in Hnd as (_ & _ & ?). }
  assert (∀ a, a ∈ cells.*1 → a ∈ (cells_of c).*1) as Hfst
    by (intros a (x & -> & Hx)%list_elem_of_fmap; by apply list_elem_of_fmap_2, Hsub).
  rewrite Forall_forall in Hcols. split.
  - apply map_eq. intros a. rewrite row_of_lookup. destruct (decide (a ∈ cells.*1)) as [Ha|Ha].
    + destruct (find_column_names def a) as [column ->]; [by apply Hcols, Hfst|]. apply list_elem_of_fmap in Ha as ([a' v] & -> & Hin).
      cbn [fst fmap option_fmap option_map]. by rewrite (set_cells_lookup _ _ _ v).
    + rewrite set_cells_lookup_ne by done. transitivity (row_of def row !! a); [by rewrite row_of_lookup|by rewrite Hrow].
  - intros g Hg Hown. destruct (plannable_versions _ _ _ Hc) as [Hv _]. rewrite Forall_forall in Hv. destruct (Hv g Hg) as [Hnot|E].
    + rewrite Forall_forall in Hnot. assert (∀ a, a ∈ g → set_cells cells row !! a = row !! a) as Hsame
        by (intros a Ha; apply set_cells_lookup_ne; intros Hin%Hfst; by apply (Hnot a)).
      destruct (Hwhole g Hg Hown) as [H|H]; [left|right]; rewrite Forall_forall in H; apply Forall_forall; intros a Ha;
        rewrite Hsame by done; by apply H.
    + right. apply Forall_forall. intros a Ha. rewrite E in Ha. apply list_elem_of_fmap in Ha as ([a' v] & -> & Hin). exists v.
      apply set_cells_lookup; [done|]. apply Hver. unfold version_cells. apply list_elem_of_fmap. by exists (a', v).
Qed.

Lemma default_row_regular : row_of def (default_row def) = default_row def ∧ whole_row def (default_row def).
Proof.
  assert (Hdef := plannable_def _ _ _ Hc). destruct (table_sound _ _ Hdef) as (_ & _ & _ & _ & Hnames & _).
  rewrite <-(fresh_reads (Change.table c) def "" "" Hdef). split; [apply row_of_again|]. intros g Hg Hown. left.
  rewrite Forall_forall in Hown |- *. intros a Ha. rewrite row_of_lookup, default_of_column by done.
  destruct (find_column_names def a) as [column E]; [by apply Hown|]. rewrite E. cbn [fmap option_fmap option_map from_option]. f_equal.
  assert (Hr := version_names g a Hg Ha). rewrite fresh_row_lookup, !decide_False; [done|..]; intros ->; apply Hr; [by right; left|by left].
Qed.

Lemma write_regular (stored : option Row) :
  (∀ row, stored = Some row → regular_row def (Cell.Text <$> key) row) →
  regular_row def (Cell.Text <$> key) (write_row def (Change.key c) (Change.effect c) stored).
Proof.
  intros Hold. assert (Hlen := plannable_len _ _ _ Hc). destruct stored as [row|].
  - destruct (Hold row eq_refl) as [(key' & Ek & Hkey) Hcols Hwhole]. apply (inj (fmap Cell.Text)) in Ek as <-.
    assert (regular_row def (Cell.Text <$> key) (set_cells tail row)) as Hset.
    { destruct (set_regular tail row) as [H1 H2]; [by right|done|done|]. split; [|done|done]. exists key. split; [done|]. split; [done|].
      intros a v Hin. rewrite set_cells_lookup_ne; [by apply Hkey|]. assert (H := plannable_nodup _ _ _ Hc). unfold cells_of in H.
      rewrite fmap_app in H. apply NoDup_app in H as (_ & H & _). apply H. rewrite (plannable_key _ _ _ Hc).
      apply list_elem_of_fmap. by exists (a, v). }
    destruct (plannable_versions _ _ _ Hc) as [_ Hshape]. revert Hset Hshape. unfold write_row.
    destruct (Change.effect c) as [|cells|cells version wins]; cbn [effect_cells effect_version]; intros Hset Hshape.
    + done.
    + change (version_cells []) with ([] : Cells) in Hset. by rewrite app_nil_r in Hset.
    + destruct (_ || _); [done|]. by apply Hold.
  - destruct default_row_regular as [D1 D2]. destruct (set_regular (cells_of c) (default_row def)) as [H1 H2]; [by left|done|done|].
    change (write_row def (Change.key c) (Change.effect c) None) with (set_cells (cells_of c) (default_row def)).
    split; [|done|done]. exists key. split; [done|]. split; [done|]. intros a v Hin. apply set_cells_lookup; [apply Hc|].
    unfold cells_of. rewrite (plannable_key _ _ _ Hc). apply elem_of_app. by left.
Qed.
End regular_change.

Lemma carry_regular c def key views : plannable c def key → regular views → regular (carry_out views (to_write c)).
Proof.
  intros Hc Hviews table def' k row Hdef'. assert (Hdef := plannable_def _ _ _ Hc). rewrite carry_out_row.
  assert (Write.id (to_write c) = Cell.Text <$> key) as ->.
  { cbn [to_write Write.id]. rewrite (plannable_key _ _ _ Hc). unfold text_cells. apply snd_zip.
    rewrite length_fmap. by rewrite (plannable_len _ _ _ Hc). }
  destruct (decide _) as [[-> ->]|]; [|by apply (Hviews table def')]. cbn [to_write Write.table Write.def Write.key Write.effect] in *.
  rewrite Hdef' in Hdef. injection Hdef as ->. rewrite Hdef'. cbn [default from_option]. unfold id. intros [= <-].
  apply (write_regular c def key Hc). intros row Hrow. by apply (Hviews (Change.table c) def).
Qed.

Lemma log_regular log : regular (log_views TaskReducer log).
Proof.
  unfold log_views. rewrite <-(reverse_involutive log). induction (reverse log) as [|op ops IH].
  { intros table def k row _. cbn [reverse foldl]. change (foldl _ ?v []) with v. by rewrite fresh_row_none. }
  rewrite reverse_cons, foldl_app. cbn [foldl]. set (views := foldl _ _ _) in *. unfold fold1.
  destruct (folds TaskReducer op) eqn:Ef; [|done]. change (regular (carry_all views (to_write <$> task_changes op))).
  assert (Forall (task_change op) (task_changes op)) as Hs.
  { assert (H := task_folder_shape op). rewrite task_folder_changes, Ef in H. by apply Forall_forall. }
  unfold carry_all. clearbody views. revert views IH. induction Hs as [|c cs Hc Hs IHc]; intros views Hv; [done|].
  rewrite fmap_cons. cbn [foldl]. apply IHc. destruct (task_plannable op c Hc) as (def & key & Hp). by eapply carry_regular.
Qed.

Section replica.
Local Unset Default Proof Using.
Context (stream : string) (through : Z) (log : list Op) (file : File).
Context (Htables : ∀ table def, flow_schema !! table = Some def → is_Some (File.schema file !! table)).
Context (Hviews : own_views TaskReducer (File.views file) = log_views TaskReducer log).
Abbreviation snapshot := (snapshot_from_sqlite task_folder stream through file).

Lemma own_row table def k : flow_schema !! table = Some def → view_row (File.views file) table k = view_row (log_views TaskReducer log) table k.
Proof.
  intros Hdef. rewrite <-Hviews. unfold own_views. do 2 f_equal. symmetry.
  assert (map_Forall (λ table _, table ∈ Reducer.view_tables TaskReducer) flow_schema) as H
    by (apply (bool_decide_unpack _); vm_compute; reflexivity).
  apply H in Hdef. destruct (File.views file !! table) as [rows|] eqn:E.
  - by apply map_lookup_filter_Some.
  - apply map_lookup_filter_None. by left.
Qed.

Definition replica_rows (table : string) : list (list string * Row) :=
  match flow_schema !! table with
  | Some def => (λ row, (row_texts def row, row)) <$> rows_of (File.views file) table
  | None => []
  end.

Lemma elem_of_replica_rows table def key d :
  flow_schema !! table = Some def →
  (key, d) ∈ replica_rows table ↔ view_row (log_views TaskReducer log) table (Cell.Text <$> key) = Some d.
Proof.
  intros Hdef. unfold replica_rows. rewrite Hdef, list_elem_of_fmap. setoid_rewrite elem_of_rows. split.
  - intros (row & [= -> ->] & k & Hrow). rewrite (own_row table def) in Hrow by done.
    destruct (regular_key _ _ _ (log_regular log table def k row Hdef Hrow)) as (key' & -> & Hk). by rewrite (keyed_texts def key' row Hk).
  - intros Hrow. exists d. destruct (regular_key _ _ _ (log_regular log table def _ d Hdef Hrow)) as (key' & Ek & Hk).
    apply (inj (fmap Cell.Text)) in Ek as <-. rewrite (keyed_texts def key d Hk). split; [done|].
    exists (Cell.Text <$> key). by rewrite (own_row table def).
Qed.

Lemma replica_keys table : NoDup (replica_rows table).*1.
Proof.
  unfold replica_rows. destruct (flow_schema !! table) as [def|] eqn:Hdef; [|constructor].
  rewrite <-list_fmap_compose. unfold rows_of. rewrite <-list_fmap_compose. apply NoDup_fmap_elem; [|apply NoDup_map_to_list].
  intros [k1 r1] [k2 r2] H1%elem_of_map_to_list H2%elem_of_map_to_list. cbn [compose fst snd].
  assert (∀ k r, view_row (File.views file) table k = Some r → k = Cell.Text <$> row_texts def r) as H.
  { intros k r Hr. rewrite (own_row table def) in Hr by done.
    destruct (regular_key _ _ _ (log_regular log table def k r Hdef Hr)) as (key & -> & Hk). by rewrite (keyed_texts def key r Hk). }
  intros E. assert (k1 = k2) as -> by (rewrite (H k1 r1 H1), (H k2 r2 H2); by rewrite E). f_equal. congruence.
Qed.

Lemma default_groups table def g :
  flow_schema !! table = Some def → g ∈ version_groups → Forall (λ a, a ∈ names def) g →
  Forall (λ a, default_of (table_layout def) a = Cell.Null) g ∨ Forall (λ a, default_of (table_layout def) a ≠ Cell.Null ∧ default_version def a = true) g.
Proof.
  assert (map_Forall (λ _ def, Forall (λ g, Forall (λ a, a ∈ names def) g →
    Forall (λ a, default_of (table_layout def) a = Cell.Null) g ∨
    Forall (λ a, default_of (table_layout def) a ≠ Cell.Null ∧ default_version def a = true) g) version_groups) flow_schema) as H
    by (apply (bool_decide_unpack _); vm_compute; reflexivity).
  intros Hdef Hg. assert (H' := H table def Hdef). rewrite Forall_forall in H'. by apply H'.
Qed.

Lemma replica_grouped table def key d :
  flow_schema !! table = Some def → keyed_row def key d → whole_row def d →
  grouped (written_row stream (row_write table def key d) None).
Proof.
  intros Hdef Hk Hwhole. unfold grouped. rewrite Forall_forall. intros g Hg.
  destruct (version_groups_whole table def g Hdef Hg) as [Hown|Hnot].
  2: { rewrite Forall_forall in Hnot. left. apply Forall_forall. intros a Ha. rewrite imported_other by auto. rewrite fresh_row_lookup.
       assert (Hr := version_names g a Hg Ha). rewrite !decide_False; [done|..]; intros ->; apply Hr; [by right; left|by left]. }
  assert (∀ a, a ∈ g → a ∈ names def) as Hnames by by apply Forall_forall.
  destruct (Hwhole g Hg Hown) as [H|H]; rewrite Forall_forall in H.
  - destruct (default_groups table def g Hdef Hg Hown) as [Hd|Hd]; rewrite Forall_forall in Hd.
    + left. apply Forall_forall. intros a Ha. rewrite imported_own by auto. rewrite (H a Ha). cbn [mbind option_bind].
      unfold is_absent. cbn [fst snd]. rewrite (Hd a Ha). by rewrite bool_decide_eq_true_2.
    + right. apply Forall_forall. intros a Ha. destruct (Hd a Ha) as [Hn Hv]. rewrite imported_own by auto. rewrite (H a Ha).
      destruct (table_sound _ _ Hdef) as (_ & _ & _ & _ & Hnd & _). destruct (default_version_int def Hnd a Hv) as [E|[z E]]; [done|].
      rewrite E. by exists z.
  - right. apply Forall_forall. intros a Ha. rewrite imported_own by auto. destruct (H a Ha) as [z ->]. by exists z.
Qed.

Lemma replica_carries : carries snapshot replica_rows (log_views TaskReducer log).
Proof.
  unfold snapshot_from_sqlite. cbn [task_folder Folder.layout]. split; cbn [Snapshot.tables Snapshot.stream_id].
  - intros table rows. rewrite map_lookup_imap, task_layout_tables, lookup_fmap. intros H.
    destruct (flow_schema !! table) as [def|] eqn:Hdef; [|done]. cbn in H. rewrite bool_decide_eq_true_2 in H by by eapply Htables.
    injection H as <-. exists def. split; [done|]. unfold replica_rows. rewrite Hdef, <-list_fmap_compose. done.
  - intros table. rewrite map_lookup_imap, task_layout_tables, lookup_fmap. unfold replica_rows.
    destruct (flow_schema !! table) as [def|] eqn:Hdef; [|done]. cbn. by rewrite bool_decide_eq_true_2 by by eapply Htables.
  - apply replica_keys.
  - intros table def key d Hdef Hrow%(elem_of_replica_rows table def); [|done].
    destruct (log_regular log table def _ d Hdef Hrow) as [(key' & Ek & Hk) _ Hw]. apply (inj (fmap Cell.Text)) in Ek as <-.
    split; [done|]. by apply replica_grouped.
  - intros table def k row Hdef. split.
    + intros Hrow. destruct (log_regular log table def k row Hdef Hrow) as [(key & -> & Hk) Hcols _]. exists key, row.
      rewrite (elem_of_replica_rows table def) by done. done.
    + intros (key & d & Hin & -> & ->). rewrite (elem_of_replica_rows table def) in Hin by done.
      destruct (log_regular log table def _ d Hdef Hin) as [_ -> _]. done.
Qed.
End replica.

(** ** Whether a snapshot fits *)

(** A row as an import writes it: it fits, a ticket with its index attributes, and an edge is short. *)
Definition write_fits (stream : string) (w : TableWrite) : bool :=
  let row := written_row stream w None in
  (sum_bytes (map_to_list row) <=? MAX_ITEM_BYTES) &&
  (negb (starts_with "items#" (TableWrite.sk w)) ||
   (indexed_bytes stream (default "" (row_text row "id")) row <=? MAX_ITEM_BYTES)) &&
  (negb (starts_with "edge_adds#" (TableWrite.sk w)) ||
   forallb (λ c, attribute_bytes c.1 c.2 <=? edge_bound) (map_to_list row)).

Definition import_fits (snapshot : Snapshot) : bool :=
  match import_tables task_layout (sorted_entries (Snapshot.tables snapshot)) with
  | Ok writes => forallb (write_fits (Snapshot.stream_id snapshot)) writes
  | Err _ => false
  end.

(** The cells of a group of attributes. *)
Definition group_cells (names : list string) (vs : option (list string)) : Cells :=
  match vs with Some vs => zip names (Cell.Text <$> vs) | None => [] end.

Lemma index_attributes_groups stream id d :
  index_attributes stream id d =
  group_cells [ACTIVE] (active_now stream d) ++ group_cells [TYPED] (typed_now stream d) ++
  group_cells [DATED; DATED_AT] (dated_now stream id d).
Proof.
  unfold index_attributes, active_now, typed_now, dated_now, partitions_of. destruct (is_active_row d), (typed d), (lane d) as [[]|]; done.
Qed.

Lemma elem_of_group names vs (d : Row) a v :
  stored_as names vs d → (a, v) ∈ group_cells names vs ↔ a ∈ names ∧ d !! a = Some v.
Proof.
  unfold stored_as, group_cells. destruct vs as [vs|].
  - intros H. induction H as [|n w names vs Hn H IH]; [split; [by intros ?%not_elem_of_nil|by intros [?%not_elem_of_nil _]]|].
    rewrite fmap_cons. cbn [zip zip_with]. rewrite !elem_of_cons, IH. split.
    + intros [[= -> ->]|[? ?]]; [split; [by left|done]|split; [by right|done]].
    + intros [[->|?] Hv]; [left; congruence|by right].
  - rewrite Forall_forall. intros H. split; [by intros ?%not_elem_of_nil|]. intros [Ha Hv]. rewrite H in Hv; done.
Qed.

(** The attributes a right item holds are those its size counts. *)
Lemma elem_of_index_attributes stream id d a v :
  right_item stream id d → (a, v) ∈ index_attributes stream id d ↔ a ∈ INDEX_NAMES ∧ d !! a = Some v.
Proof.
  intros [H1 H2 H3]. rewrite index_attributes_groups, !elem_of_app, (elem_of_group _ _ _ _ _ H1), (elem_of_group _ _ _ _ _ H2),
    (elem_of_group _ _ _ _ _ H3). change INDEX_NAMES with ([ACTIVE] ++ [TYPED] ++ [DATED; DATED_AT]). rewrite !elem_of_app. tauto.
Qed.

Lemma index_attributes_NoDup stream id d : NoDup (index_attributes stream id d).
Proof.
  apply (NoDup_fmap_1 fst). rewrite index_attributes_groups, !fmap_app. unfold active_now, typed_now, dated_now, partitions_of.
  destruct (is_active_row d), (typed d), (lane d) as [[]|]; apply (bool_decide_unpack _); vm_compute; reflexivity.
Qed.

Lemma right_item_bytes stream id d d' :
  base_row d' = base_row d → right_item stream id d' → sum_bytes (map_to_list d') = indexed_bytes stream id d.
Proof.
  intros Hb Hright. unfold indexed_bytes. change [ACTIVE; TYPED; DATED; DATED_AT] with INDEX_NAMES.
  rewrite (sum_bytes_perm _ _ (symmetry (filter_app_complement (λ c : string * Cell, c.1 ∉ INDEX_NAMES) (map_to_list d')))), sum_bytes_app.
  f_equal; apply sum_bytes_perm, NoDup_Permutation.
  - apply NoDup_filter, NoDup_map_to_list.
  - apply NoDup_filter, NoDup_map_to_list.
  - intros [a v]. rewrite !list_elem_of_filter, !elem_of_map_to_list. cbn [fst]. split; intros [Ha Hv]; (split; [done|]).
    + by rewrite <-(base_row_at _ _ _ Hb Ha).
    + by rewrite (base_row_at _ _ _ Hb Ha).
  - apply NoDup_filter, NoDup_map_to_list.
  - apply index_attributes_NoDup.
  - intros [a v]. rewrite list_elem_of_filter, elem_of_map_to_list. cbn [fst].
    assert (index_attributes stream id d = index_attributes stream id d') as ->.
    { rewrite !index_attributes_groups. unfold active_now, typed_now, dated_now.
      by rewrite (is_active_row_base _ _ Hb), (typed_base _ _ Hb), (lane_base _ _ Hb). }
    rewrite (elem_of_index_attributes _ _ _ _ _ Hright). split; intros [Ha Hv]; (split; [|done]); [|tauto].
    by destruct (decide (a ∈ INDEX_NAMES)).
Qed.

Lemma import_fits_room snapshot R views : carries snapshot R views → import_fits snapshot = true → room (Snapshot.stream_id snapshot) R.
Proof.
  intros Hc. unfold import_fits. rewrite (import_tables_ok snapshot R views Hc). rewrite forallb_forall. intros Hf.
  assert (∀ table def key d, flow_schema !! table = Some def → (key, d) ∈ R table →
    write_fits (Snapshot.stream_id snapshot) (row_write table def key d) = true) as H.
  { intros table def key d Hdef Hin. apply Hf, list_elem_of_In, (elem_of_all_writes _ _ _ Hc). by exists table, def, key, d. }
  clear Hf. set (stream := Snapshot.stream_id snapshot) in *. split.
  - intros table def key d Hdef Hin. specialize (H table def key d Hdef Hin). unfold write_fits in H.
    apply andb_true_iff in H as [[H _]%andb_true_iff _]. by apply N.leb_le in H.
  - intros id d d' Hin Hb Hright. destruct (carries_row _ _ _ Hc "items" items_def [id] d eq_refl Hin) as [Hk Hg].
    specialize (H "items" items_def [id] d eq_refl Hin). unfold write_fits in H. apply andb_true_iff in H as [[_ H]%andb_true_iff _].
    assert (starts_with "items#" (TableWrite.sk (row_write "items" items_def [id] d)) = true) as Hp
      by exact (proj2 (text_sk_prefix "items" items_def "items" items_def [id] eq_refl eq_refl ltac:(done)) eq_refl).
    rewrite Hp in H. cbn [negb orb] in H.
    assert (row_text (written_row stream (row_write "items" items_def [id] d) None) "id" = Some id) as E.
    { apply row_text_Some, (kept_key _ _ _ _ (imported_kept "items" items_def [id] d eq_refl Hk stream Hg)). by left. }
    rewrite E in H. cbn [default from_option] in H. apply N.leb_le in H. by rewrite (right_item_bytes _ _ _ _ Hb Hright).
  - intros tag d Hin. specialize (H "edge_adds" edge_adds_def [tag] d eq_refl Hin). unfold write_fits in H.
    apply andb_true_iff in H as [_ H].
    assert (starts_with "edge_adds#" (TableWrite.sk (row_write "edge_adds" edge_adds_def [tag] d)) = true) as Hp
      by exact (proj2 (text_sk_prefix "edge_adds" edge_adds_def "edge_adds" edge_adds_def [tag] eq_refl eq_refl ltac:(done)) eq_refl).
    rewrite Hp in H. cbn [negb orb] in H. rewrite forallb_forall in H. intros a v Hv. split.
    + destruct (decide (a ∈ names edge_adds_def)) as [Ha|Ha].
      * revert a Ha Hv. assert (Forall (λ a, a ∈ EDGE_NAMES) (names edge_adds_def)) as Hn by (apply (bool_decide_unpack _); vm_compute; reflexivity).
        rewrite Forall_forall in Hn. auto.
      * destruct (carries_row _ _ _ Hc "edge_adds" edge_adds_def [tag] d eq_refl Hin) as [Hk _].
        rewrite imported_other, fresh_row_lookup in Hv by done. unfold EDGE_NAMES.
        destruct (decide (a = PK)) as [->|]; [set_solver|]. destruct (decide (a = SK)) as [->|]; [set_solver|done].
    + specialize (H (a, v)). cbn [fst snd] in H. apply N.leb_le, H. by apply list_elem_of_In, elem_of_map_to_list.
Qed.
