(* ===== verification/ServerBoard.v ===== *)
(** * A server answers as a replica

    A partition that folded a log without refusing anything holds the views of the log, and the board read
    from its index is the board of these views: a server and a replica hand out the same lanes. *)

From S2P Require Import Prelude Text Utf8 OpModel Changes Tasks ChangeFacts OpStore LogFacts Convergence TaskFacts SharedLog BoardViews Graph GraphFacts LaneFacts Server ServerFold ServerFacts ServerIndex Snapshots.
From stdpp Require Import options.
From Stdlib Require Import Ascii.

(** ** Texts of rows *)
Lemma row_of_text def column (d : Row) c :
  find_column def c = Some column → Column.default column = Cell.Null → text_at (row_of def d) c = row_text d c.
Proof.
  intros Hc Hd. unfold text_at, row_text. rewrite row_of_lookup, Hc. cbn [fmap option_fmap option_map]. rewrite Hd.
  by destruct (d !! c) as [[]|].
Qed.

Lemma EdgeKind_parse_as_str s kind : EdgeKind_parse s = Some kind ↔ s = EdgeKind_as_str kind.
Proof.
  split; [|intros ->; by destruct kind]. unfold EdgeKind_parse. repeat case_bool_decide; intros [= <-]; done.
Qed.

Lemma is_indexed_spec d :
  is_indexed d = true ↔ ∃ kind, row_text d "kind" = Some (EdgeKind_as_str kind) ∧ (kind = EdgeKind.Dep ∨ kind = EdgeKind.Parent).
Proof.
  unfold is_indexed. destruct (row_text d "kind") as [s|]; cbn [mbind option_bind]; [|naive_solver].
  destruct (EdgeKind_parse s) as [kind|] eqn:E.
  - apply EdgeKind_parse_as_str in E as ->. split.
    + intros H. exists kind. split; [done|]. destruct kind; auto; done.
    + intros (kind' & [= H] & Hk). assert (kind = kind') as ->.
      { assert (EdgeKind_parse (EdgeKind_as_str kind) = Some kind') as H' by by apply EdgeKind_parse_as_str.
        rewrite (proj2 (EdgeKind_parse_as_str _ kind) eq_refl) in H'. by simplify_eq. }
      by destruct Hk as [-> | ->].
  - split; [done|]. intros (kind & [= ->] & _). by rewrite (proj2 (EdgeKind_parse_as_str _ kind) eq_refl) in E.
Qed.

(** ** Boards of the same tickets and edges *)
Global Instance edge_eq_dec : EqDecision Edge.
Proof. solve_decision. Defined.

Lemma add_to_twice k v m : add_to k v (add_to k v m) = add_to k v m.
Proof. unfold add_to. rewrite lookup_insert_eq, insert_insert_eq. cbn [default from_option]. f_equal. unfold id. set_solver. Qed.

Lemma add_to_swap k1 v1 k2 v2 m : add_to k2 v2 (add_to k1 v1 m) = add_to k1 v1 (add_to k2 v2 m).
Proof.
  unfold add_to. destruct (decide (k1 = k2)) as [->|Hne].
  - rewrite !lookup_insert_eq, !insert_insert_eq. cbn [default from_option]. f_equal. unfold id. set_solver.
  - rewrite !lookup_insert_ne by done. by apply insert_insert_ne.
Qed.

Lemma new_board_same ts1 ts2 es1 es2 :
  Board.tickets (new_board ts1 es1) = Board.tickets (new_board ts2 es2) → (∀ e, e ∈ es1 ↔ e ∈ es2) →
  new_board ts1 es1 = new_board ts2 es2.
Proof.
  unfold new_board. rewrite !add_edges_tickets. cbn [Board.empty_with Board.tickets]. intros -> Hes.
  apply foldl_same_set; [done|..].
  - intros e _ b. destruct b as [ts deps parents children]. unfold add_edge.
    destruct (Edge.kind e); try done; f_equal; apply add_to_twice.
  - intros e1 e2 _ _ b. destruct b as [ts deps parents children]. unfold add_edge.
    destruct (Edge.kind e1), (Edge.kind e2); try done; f_equal; apply add_to_swap.
Qed.

(** ** The selection *)
Lemma rows_NoDup views : items_keyed views → NoDup (rows_of views "items").
Proof.
  intros Hiv. unfold rows_of. apply NoDup_fmap_elem; [|apply NoDup_map_to_list].
  intros [k1 r1] [k2 r2] H1%elem_of_map_to_list H2%elem_of_map_to_list. cbn [snd]. intros ->.
  destruct (Hiv k1 r2 H1) as (i1 & -> & E1). destruct (Hiv k2 r2 H2) as (i2 & -> & E2). rewrite E1 in E2. by injection E2 as ->.
Qed.

#[local] Opaque rows_of.

Section selection.
Local Unset Default Proof Using.
Context (t : MemTable) (views : Views).
Context (Hm : mirrors t views) (Hix : indexed ∅ ∅ t) (Hkey : well_stored t) (Hiv : items_keyed views).

(** A row of a table with one key column, on either side. *)
Lemma row_at table def k :
  flow_schema !! table = Some def → length (TableDef.primary_key def) = 1%nat →
  row_of def <$> get t (text_sk table [k]) = view_row views table [Cell.Text k].
Proof. intros Hdef Hlen. by apply (mirror_rows _ _ Hm). Qed.

Lemma elem_of_table table def row :
  flow_schema !! table = Some def → length (TableDef.primary_key def) = 1%nat →
  row ∈ rows_of views table ↔ ∃ k d, get t (text_sk table [k]) = Some d ∧ row = row_of def d.
Proof.
  intros Hdef Hlen. rewrite elem_of_rows. split.
  - intros [key Hrow]. destruct (mirror_keys _ _ Hm _ _ _ _ Hdef Hrow) as (ks & -> & Hk). rewrite Hlen in Hk.
    destruct ks as [|k [|]]; try done. change (Cell.Text <$> [k]) with [Cell.Text k] in Hrow.
    rewrite <-(row_at table def k Hdef Hlen) in Hrow. exists k.
    destruct (get t (text_sk table [k])) as [d|]; [|done]. exists d. cbn in Hrow. by simplify_eq.
  - intros (k & d & Hd & ->). exists [Cell.Text k]. rewrite <-(row_at table def k Hdef Hlen), Hd. done.
Qed.

Abbreviation key_cell := (single_key t views Hm).

(** *** Tickets *)
Ltac text_column := eapply row_of_text; [vm_compute; reflexivity|reflexivity].

Lemma item_reads d :
  row_active (row_of items_def d) = is_active_row d ∧
  text_at (row_of items_def d) "status" = row_text d "status" ∧
  text_at (row_of items_def d) "defer_until" = row_text d "defer_until" ∧
  text_at (row_of items_def d) "id" = row_text d "id".
Proof.
  assert (text_at (row_of items_def d) "status" = row_text d "status") as E1 by text_column.
  assert (text_at (row_of items_def d) "deleted" = row_text d "deleted") as E2 by text_column.
  assert (text_at (row_of items_def d) "archived" = row_text d "archived") as E3 by text_column.
  split_and!; [|done|text_column|text_column]. unfold row_active, is_active_row. by rewrite E1, E2, E3.
Qed.

Lemma prefix_key table def sk d :
  flow_schema !! table = Some def → length (TableDef.primary_key def) = 1%nat → get t sk = Some d →
  starts_with (table_prefix table) (default "" (row_text d SK)) = true ↔ ∃ k, sk = text_sk table [k].
Proof.
  intros Hdef Hlen Hd. assert (row_text d SK = Some sk) as -> by (apply row_text_Some; by apply (stored_sk _ _ _ (Hkey sk d Hd))).
  cbn [default from_option]. unfold id. rewrite (table_rows t views Hm table def sk d Hdef Hd). split.
  - intros (ks & -> & Hk). rewrite Hlen in Hk. destruct ks as [|k [|]]; try done. by exists k.
  - intros [k ->]. exists [k]. by rewrite Hlen.
Qed.

Lemma selected_items id d :
  (id, d) ∈ omap selected_item (query_active t) ↔ get t (item_key id) = Some d ∧ is_active_row d = true.
Proof.
  rewrite list_elem_of_omap. setoid_rewrite elem_of_query_active. unfold selected_item. split.
  - intros (d' & (sk & Hd & _) & H). destruct (starts_with "items#" _) eqn:Hs; [|done].
    apply (prefix_key "items" items_def sk d') in Hs as [k ->]; [|done..].
    rewrite (key_cell "items" items_def k d' "id") in H by done. cbn [mbind option_bind] in H.
    destruct (is_active_row d') eqn:Ha; [|done]. simplify_eq. by rewrite item_key_text.
  - intros [Hd Ha]. exists d. split.
    + exists (item_key id). split; [done|]. rewrite (ix_item _ _ _ Hix id d) by done. by rewrite Ha.
    + rewrite item_key_text in Hd. assert (starts_with "items#" (default "" (row_text d SK)) = true) as ->.
      { eapply (prefix_key "items" items_def); [done..|by eexists]. }
      rewrite (key_cell "items" items_def id d "id") by done. cbn [mbind option_bind]. by rewrite Ha.
Qed.

Lemma selected_tickets : Board.tickets (Selection.board (select_active t)) = Board.tickets (select views).
Proof.
  apply map_eq. intros x. apply option_eq. intros tk. rewrite select_ticket by done.
  unfold select_active. cbn [Selection.board]. unfold new_board. rewrite add_edges_tickets. cbn [Board.empty_with Board.tickets].
  rewrite collect_tickets.
  - setoid_rewrite list_elem_of_fmap. split.
    + intros [[([id d] & -> & [Hd Ha]%selected_items) <-]|[H _]]; [|by rewrite lookup_empty in H].
      destruct (item_reads d) as (E1 & E2 & E3 & E4). exists (row_of items_def d). rewrite E1. split_and!; [|done|..].
      * apply (elem_of_table "items" items_def); [done..|]. exists id, d. by rewrite <-item_key_text.
      * unfold row_id. rewrite E4, (key_cell "items" items_def id d "id") by done. done.
      * unfold ticket_of, row_id, has_status. rewrite E2, E3, E4, (key_cell "items" items_def id d "id") by done. done.
    + intros (row & (id & d & Hd & ->)%(elem_of_table "items" items_def) & Ha & <- & ->); [|done..]. destruct (item_reads d) as (E1 & E2 & E3 & E4). rewrite E1 in Ha.
      left. split; [|done]. exists (id, d). split; [|apply selected_items; by rewrite item_key_text].
      unfold ticket_of, row_id, has_status. rewrite E2, E3, E4, (key_cell "items" items_def id d "id") by done. done.
  - intros t1 t2. rewrite !list_elem_of_fmap.
    intros ([id1 d1] & -> & [H1 _]%selected_items) ([id2 d2] & -> & [H2 _]%selected_items). cbn [Ticket.id]. intros <-.
    by simplify_eq.
Qed.

(** *** Edges *)
Lemma end_active_ids e : end_active t None e = true ↔ e ∈ active_ids views.
Proof.
  rewrite elem_of_active_ids. unfold end_active. split.
  - destruct (get t (item_key e)) as [d|] eqn:Hd; [|done]. rewrite (ix_item _ _ _ Hix e d) by done. unfold flag_cell.
    destruct (is_active_row d) eqn:Ha; [|done]. intros _. destruct (item_reads d) as (E1 & _ & _ & E4).
    exists (row_of items_def d). split_and!; [|by unfold row_id; rewrite E4, (key_cell "items" items_def e d "id") by done|by rewrite E1].
    apply (elem_of_table "items" items_def); [done..|]. exists e, d. by rewrite <-item_key_text.
  - intros (row & Hrow & Hid & Ha). apply (elem_of_table "items" items_def) in Hrow as (id & d & Hd & ->); [|done..].
    destruct (item_reads d) as (E1 & _ & _ & E4). unfold row_id in Hid.
    rewrite E4, (key_cell "items" items_def id d "id") in Hid by done. cbn in Hid. subst e. rewrite item_key_text, Hd.
    rewrite (ix_item _ _ _ Hix id d) by done. unfold flag_cell. rewrite <-E1, Ha. by apply bool_decide_eq_true_2.
Qed.

Lemma edge_reads d :
  text_at (row_of edge_adds_def d) "from_id" = row_text d "from_id" ∧
  text_at (row_of edge_adds_def d) "to_id" = row_text d "to_id" ∧
  text_at (row_of edge_adds_def d) "kind" = row_text d "kind" ∧
  text_at (row_of edge_adds_def d) "tag" = row_text d "tag".
Proof. split_and!; text_column. Qed.

Lemma removed_reads tag d :
  get t (edge_key tag) = Some d →
  removed views "edge_removes" (row_of edge_adds_def d) = has_row t (tag_key "edge_removes" tag).
Proof.
  rewrite !tag_key_text. intros Hd. destruct (edge_reads d) as (_ & _ & _ & E). unfold removed, has_row.
  rewrite E, (key_cell "edge_adds" edge_adds_def tag d "tag") by done. apply eq_true_iff_eq. rewrite existsb_exists. split.
  - intros (row & Hrow%list_elem_of_In & Hs). apply (elem_of_table "edge_removes" removes_def) in Hrow as (k & r & Hr & ->); [|done..].
    assert (text_at (row_of removes_def r) "tag" = row_text r "tag") as E2 by text_column.
    rewrite E2, (key_cell "edge_removes" removes_def k r "tag") in Hs by done. unfold same_text in Hs.
    apply andb_true_iff in Hs as [[= ->]%bool_decide_eq_true _]. by rewrite Hr.
  - destruct (get t (text_sk "edge_removes" [tag])) as [r|] eqn:Hr; [|done]. intros _. exists (row_of removes_def r). split.
    + apply list_elem_of_In, (elem_of_table "edge_removes" removes_def); [done..|]. by exists tag, r.
    + assert (text_at (row_of removes_def r) "tag" = row_text r "tag") as E2 by text_column.
      rewrite E2, (key_cell "edge_removes" removes_def tag r "tag") by done. unfold same_text. by rewrite bool_decide_eq_true_2.
Qed.

Lemma present_edges_reads from to kind :
  (from, to, kind) ∈ present_edges views ↔
  ∃ tag d, get t (edge_key tag) = Some d ∧ has_row t (tag_key "edge_removes" tag) = false ∧
    row_text d "from_id" = Some from ∧ row_text d "to_id" = Some to ∧ row_text d "kind" = Some kind.
Proof.
  unfold present_edges. rewrite elem_of_list_to_set, list_elem_of_omap. unfold present_rows. split.
  - intros (row & [Hrem Hrow]%list_elem_of_filter & He).
    apply (elem_of_table "edge_adds" edge_adds_def) in Hrow as (tag & d & Hd & ->); [|done..].
    rewrite <-tag_key_text in Hd. rewrite (removed_reads tag d Hd) in Hrem. destruct (edge_reads d) as (E1 & E2 & E3 & _).
    unfold edge_row in He. rewrite E1, E2, E3 in He. exists tag, d.
    destruct (row_text d "from_id"), (row_text d "to_id"), (row_text d "kind"); by simplify_eq/=.
  - intros (tag & d & Hd & Hrem & H1 & H2 & H3). exists (row_of edge_adds_def d). destruct (edge_reads d) as (E1 & E2 & E3 & _).
    split; [|unfold edge_row; by rewrite E1, E2, E3, H1, H2, H3]. apply list_elem_of_filter.
    split; [by rewrite (removed_reads tag d Hd)|]. apply (elem_of_table "edge_adds" edge_adds_def); [done..|].
    exists tag, d. by rewrite <-tag_key_text.
Qed.

Lemma elem_of_edges from to kind :
  Edge.Mk from to kind ∈ (omap selected_edge (query_active t)).*1 ↔
  ∃ tag d, get t (edge_key tag) = Some d ∧ d !! ACTIVE = Some (Cell.Text (MemTable.stream t)) ∧
    row_text d "from_id" = Some from ∧ row_text d "to_id" = Some to ∧ row_text d "kind" = Some (EdgeKind_as_str kind).
Proof.
  rewrite list_elem_of_fmap. setoid_rewrite list_elem_of_omap. setoid_rewrite elem_of_query_active. unfold selected_edge. split.
  - intros (x & Ex & d & (sk & Hd & Ha) & Hx). destruct (negb _) eqn:Hn; [|done].
    destruct (starts_with "edge_adds#" _) eqn:Hs; [|done]. cbn [andb] in Hx.
    apply (prefix_key "edge_adds" edge_adds_def sk d) in Hs as [tag ->]; [|done..]. exists tag, d. rewrite tag_key_text.
    destruct (row_text d "from_id"), (row_text d "to_id"), (row_text d "kind") as [k0|]; try done. cbn in Hx.
    destruct (EdgeKind_parse k0) as [k|] eqn:Ek; [|done]. simplify_eq/=. by apply EdgeKind_parse_as_str in Ek as ->.
  - intros (tag & d & Hd & Ha & H1 & H2 & H3). rewrite tag_key_text in Hd.
    assert (starts_with "edge_adds#" (default "" (row_text d SK)) = true) as Hs.
    { eapply (prefix_key "edge_adds" edge_adds_def); [done..|by eexists]. }
    assert (negb (starts_with "items#" (default "" (row_text d SK))) = true) as Hn.
    { apply negb_true_iff, not_true_iff_false. intros H.
      apply (prefix_key "items" items_def (text_sk "edge_adds" [tag]) d) in H as [k H]; [|done..].
      by apply (text_sk_ne "edge_adds" edge_adds_def [tag] "items" items_def [k]) in H. }
    exists (Edge.Mk from to kind, (default (-1)%Z (row_int d "lamport"), default (-1)%Z (row_int d "site"), to)).
    split; [done|]. exists d. split; [by eexists|]. rewrite Hs, Hn, H1, H2, H3. cbn [andb mbind option_bind].
    by rewrite (proj2 (EdgeKind_parse_as_str _ kind) eq_refl).
Qed.

Lemma selected_edges_same e :
  e ∈ (omap selected_edge (query_active t)).*1 ↔
  e ∈ omap (select_edge (active_ids views)) (elements (present_edges views)).
Proof.
  destruct e as [from to kind]. rewrite elem_of_edges, selected_edges, present_edges_reads. split.
  - intros (tag & d & Hd & Ha & H1 & H2 & H3). assert (edge_flag t None tag d = true) as Hf.
    { rewrite (ix_edge _ _ _ Hix tag) in Ha by done. by destruct (edge_flag t None tag d). }
    unfold edge_flag in Hf. apply andb_true_iff in Hf as [[Hi Hr%negb_true_iff]%andb_true_iff He].
    split_and!; [by exists tag, d|..].
    + apply is_indexed_spec in Hi as (kind' & Hk & Hor). rewrite H3 in Hk. injection Hk as Hk.
      assert (kind = kind') as ->; [|done]. by destruct kind, kind'.
    + unfold edge_ends in He. cbn [omap list_omap] in He. rewrite H1, H2 in He. cbn [existsb] in He.
      rewrite orb_false_r in He. apply orb_true_iff in He as [H|H]; [left|right]; by apply end_active_ids.
  - intros ((tag & d & Hd & Hr & H1 & H2 & H3) & Hk & Hact). exists tag, d. split_and!; try done.
    rewrite (ix_edge _ _ _ Hix tag) by done. unfold flag_cell. assert (edge_flag t None tag d = true) as ->; [|done].
    unfold edge_flag. rewrite Hr, (proj2 (is_indexed_spec d)) by (by exists kind). cbn [negb andb].
    unfold edge_ends. cbn [omap list_omap]. rewrite H1, H2. cbn [existsb]. rewrite orb_false_r. apply orb_true_iff.
    by rewrite !end_active_ids.
Qed.

Lemma selected_board : Selection.board (select_active t) = select views.
Proof.
  assert (Ht := selected_tickets). revert Ht. unfold select_active, select. cbn [Selection.board]. intros Ht.
  apply new_board_same; [exact Ht|]. intros e. rewrite selected_edges_same.
  replace (list_to_set _ : gset string) with (active_ids views); [done|]. unfold active_ids. by rewrite <-list_fmap_compose.
Qed.
End selection.

(** ** The listings *)

(** The key of a row in its lane. *)
Definition lane_key (row : Row) : string :=
  match lane row with Some (_, at_) => dated_key at_ (default "" (row_text row "id")) | None => "" end.

(** The highest key first. *)
Definition newest (x y : Row) : Prop := String.le (lane_key y) (lane_key x).

Lemma insert_newest_perm at_ row rows : insert_newest at_ row rows ≡ₚ row :: rows.
Proof. induction rows as [|r rows IH]; [done|]. cbn [insert_newest]. destruct (String.leb _ _); [|done]. rewrite IH. apply Permutation_swap. Qed.

Lemma sort_newest_perm at_ rows acc : foldl (λ rows row, insert_newest at_ row rows) acc rows ≡ₚ rows ++ acc.
Proof.
  revert acc. induction rows as [|row rows IH]; intros acc; [done|]. cbn [foldl]. rewrite IH, insert_newest_perm.
  symmetry. apply Permutation_middle.
Qed.

Lemma insert_newest_sorted at_ row rows :
  StronglySorted (λ x y, String.le (at_ y) (at_ x)) rows → StronglySorted (λ x y, String.le (at_ y) (at_ x)) (insert_newest at_ row rows).
Proof.
  induction 1 as [|r rows Hs IH Hr]; [by repeat constructor|]. cbn [insert_newest]. destruct (String.leb (at_ row) (at_ r)) eqn:E.
  - constructor; [done|]. rewrite insert_newest_perm. constructor; [|done]. unfold String.le. by rewrite E.
  - assert (String.le (at_ r) (at_ row)) as Hle.
    { destruct (total String.le (at_ row) (at_ r)) as [H|H]; [|done]. unfold String.le in H. by rewrite E in H. }
    constructor; [by constructor|]. constructor; [done|]. eapply Forall_impl; [done|]. intros x Hx. by transitivity (at_ r).
Qed.

Lemma sort_newest_sorted at_ rows acc :
  StronglySorted (λ x y, String.le (at_ y) (at_ x)) acc →
  StronglySorted (λ x y, String.le (at_ y) (at_ x)) (foldl (λ rows row, insert_newest at_ row rows) acc rows).
Proof. revert acc. induction rows as [|row rows IH]; intros acc Ha; [done|]. cbn [foldl]. by apply IH, insert_newest_sorted. Qed.

(** An order by what a row holds is an order by what it reads as. *)
Lemma StronglySorted_read (at_ : Row → string) (rows : list Row) :
  Forall (λ d, at_ d = lane_key (row_of items_def d)) rows → StronglySorted (λ x y, String.le (at_ y) (at_ x)) rows →
  StronglySorted newest (row_of items_def <$> rows).
Proof.
  intros Hat Hs. induction Hs as [|d rows Hs IH Hd]; [constructor|]. apply Forall_cons in Hat as [Hat Hats]. rewrite fmap_cons.
  constructor; [by apply IH|]. rewrite Forall_forall in Hd, Hats. apply Forall_forall. intros row (d' & -> & Hin)%list_elem_of_fmap.
  unfold newest. rewrite <-Hat, <-Hats by done. by apply Hd.
Qed.

Lemma typed_partition_inj stream ty ty' : typed_partition stream ty = typed_partition stream ty' → ty = ty'.
Proof. unfold typed_partition. intros E%(inj (String.app stream)). apply (inj escape). by injection E. Qed.

Lemma dated_partition_inj stream l l' : dated_partition l stream = dated_partition l' stream → l = l'.
Proof. unfold dated_partition. destruct l, l'; intros E; try done; by apply (inj (String.app stream)) in E. Qed.

Section listings.
Local Unset Default Proof Using.
Context (t : MemTable) (views : Views).
Context (Hm : mirrors t views) (Hix : indexed ∅ ∅ t) (Hkey : well_stored t) (Hiv : items_keyed views).
Abbreviation key_cell := (single_key t views Hm).
Abbreviation stream := (MemTable.stream t).

Lemma lane_reads d : lane (row_of items_def d) = lane d ∧ typed (row_of items_def d) = typed d ∧ row_text (row_of items_def d) "id" = row_text d "id".
Proof.
  assert (∀ c, c ∈ ["deleted"; "archived"; "status"; "closed_at"; "type"; "id"] → row_text (row_of items_def d) c = row_text d c) as H.
  { intros c Hc. rewrite !elem_of_cons in Hc. destruct Hc as [->|[->|[->|[->|[->|[->|[]%not_elem_of_nil]]]]]];
      (eapply (row_of_text items_def); [vm_compute; reflexivity|reflexivity]). }
  unfold lane, typed. rewrite !H by (apply (bool_decide_unpack _); vm_compute; reflexivity). done.
Qed.

Lemma rows_in_order_NoDup : NoDup (rows_in_order t).*2.
Proof.
  apply NoDup_fmap_elem.
  - intros [sk1 d1] [sk2 d2] H1 H2. rewrite elem_of_rows_in_order in H1, H2. cbn [snd]. intros ->.
    assert (E := stored_sk _ _ _ (Hkey _ _ H1)). rewrite (stored_sk _ _ _ (Hkey _ _ H2)) in E. by injection E as ->.
  - unfold rows_in_order. apply (NoDup_fmap_1 fst). eapply sublist_NoDup; [apply (sorted_keys_NoDup (MemTable.rows t))|].
    induction (sorted_keys (MemTable.rows t)) as [|sk sks IH]; [done|]. cbn [omap list_omap].
    destruct (MemTable.rows t !! sk); cbn; by constructor.
Qed.

(** Only tickets are in the indexes of tickets. *)
Lemma elem_of_query_items attribute partition d :
  attribute ∈ ITEM_NAMES →
  d ∈ query_attribute t attribute partition ↔ d !! attribute = Some (Cell.Text partition) ∧ ∃ id, get t (item_key id) = Some d.
Proof.
  intros Ha. unfold query_attribute. rewrite list_elem_of_filter, list_elem_of_fmap. split.
  - intros (Hd & [sk d'] & -> & Hin). cbn [snd] in *. rewrite elem_of_rows_in_order in Hin. split; [done|].
    destruct (starts_with "items#" sk) eqn:Hs.
    + apply (table_rows t views Hm "items" items_def sk d' eq_refl Hin) in Hs as (key & -> & Hlen).
      destruct key as [|id [|]]; try done. exists id. by rewrite item_key_text.
    + rewrite (stored_items _ _ _ (Hkey _ _ Hin) attribute) in Hd; done.
  - intros [Hd (id & Hget)]. split; [done|]. exists (item_key id, d). by rewrite elem_of_rows_in_order.
Qed.

Lemma typed_listed ty d : d ∈ query_typed t ty ↔ typed d = Some ty ∧ ∃ id, get t (item_key id) = Some d.
Proof.
  unfold query_typed. rewrite elem_of_query_items by (apply (bool_decide_unpack _); vm_compute; reflexivity).
  split; intros [Hd (id & Hget)]; (split; [|by exists id]).
  - assert (H := right_typed _ _ _ (ix_right _ _ _ Hix id d (not_elem_of_empty _) Hget)). unfold typed_now, stored_as in H.
    destruct (typed d) as [ty'|]; cbn [fmap option_fmap option_map] in H.
    + apply Forall2_cons in H as [H _]. rewrite Hd in H. injection H as H. by apply typed_partition_inj in H as ->.
    + apply Forall_cons in H as [H _]. congruence.
  - assert (H := right_typed _ _ _ (ix_right _ _ _ Hix id d (not_elem_of_empty _) Hget)). unfold typed_now, stored_as in H.
    rewrite Hd in H. by apply Forall2_cons in H as [H _].
Qed.

Lemma dated_stored id d l at_ :
  get t (item_key id) = Some d → lane d = Some (l, at_) →
  d !! DATED = Some (Cell.Text (dated_partition l stream)) ∧ d !! DATED_AT = Some (Cell.Text (dated_key at_ id)).
Proof.
  intros Hget Hl. assert (H := right_dated _ _ _ (ix_right _ _ _ Hix id d (not_elem_of_empty _) Hget)).
  unfold dated_now, partitions_of, stored_as in H. rewrite Hl in H. cbn [fmap option_fmap option_map fst snd] in H.
  by apply Forall2_cons in H as [H1 [H2 _]%Forall2_cons].
Qed.

Lemma dated_listed l d : d ∈ query_attribute t DATED (dated_partition l stream) ↔
  fst <$> lane d = Some l ∧ ∃ id, get t (item_key id) = Some d.
Proof.
  rewrite elem_of_query_items by (apply (bool_decide_unpack _); vm_compute; reflexivity).
  split; intros [Hd (id & Hget)]; (split; [|by exists id]).
  - destruct (lane d) as [[l' at_]|] eqn:El.
    + destruct (dated_stored id d l' at_ Hget El) as [H _]. rewrite Hd in H. injection H as H. by apply dated_partition_inj in H as ->.
    + assert (H := right_dated _ _ _ (ix_right _ _ _ Hix id d (not_elem_of_empty _) Hget)). unfold dated_now, stored_as in H.
      rewrite El in H. apply Forall_cons in H as [H _]. congruence.
  - destruct (lane d) as [[l' at_]|] eqn:El; [|done]. cbn in Hd. injection Hd as ->. by destruct (dated_stored id d l at_ Hget El).
Qed.

Lemma lane_key_stored l d :
  d ∈ query_attribute t DATED (dated_partition l stream) → default "" (row_text d DATED_AT) = lane_key (row_of items_def d).
Proof.
  intros [Hl (id & Hget)]%dated_listed. destruct (lane_reads d) as (E1 & _ & E3). unfold lane_key. rewrite E1, E3.
  assert (row_text d "id" = Some id) as -> by (rewrite item_key_text in Hget; by apply (key_cell "items" items_def id d "id")).
  destruct (lane d) as [[l' at_]|] eqn:El; [|done]. destruct (dated_stored id d l' at_ Hget El) as [_ H].
  unfold row_text. by rewrite H.
Qed.

(** Rows of tickets that are picked by what they read as are rows of the views. *)
Lemma listed_rows (P : Row → Prop) `{!∀ row, Decision (P row)} (ds : list Row) :
  NoDup ds → (∀ d, d ∈ ds ↔ P (row_of items_def d) ∧ ∃ id, get t (item_key id) = Some d) →
  row_of items_def <$> ds ≡ₚ base.filter P (rows_of views "items").
Proof.
  intros Hnd Hds. apply NoDup_Permutation.
  - apply NoDup_fmap_elem; [|done]. intros d1 d2 [_ (id1 & H1)]%Hds [_ (id2 & H2)]%Hds E.
    rewrite item_key_text in H1, H2. assert (row_text d1 "id" = row_text d2 "id") as Eid.
    { destruct (lane_reads d1) as (_ & _ & <-). destruct (lane_reads d2) as (_ & _ & <-). by rewrite E. }
    rewrite (key_cell "items" items_def id1 d1 "id"), (key_cell "items" items_def id2 d2 "id") in Eid by done.
    injection Eid as <-. rewrite H1 in H2. by injection H2.
  - by apply NoDup_filter, rows_NoDup.
  - intros row. rewrite list_elem_of_filter, list_elem_of_fmap. split.
    + intros (d & -> & [HP (id & Hget)]%Hds). split; [done|]. rewrite item_key_text in Hget.
      apply (elem_of_table t views Hm "items" items_def); [done..|]. by exists id, d.
    + intros [HP Hrow]. apply (elem_of_table t views Hm "items" items_def) in Hrow as (id & d & Hget & ->); [|done..].
      exists d. split; [done|]. apply Hds. split; [done|]. exists id. by rewrite item_key_text.
Qed.
End listings.

(** C9: a partition that folded a log of operations, batch by batch and without refusing one, holds the views
    of the log: read table by table, under the prefix of the table and with the defaults of absent attributes, it
    gives exactly the rows the SQLite applier leaves of the same operations. *)
Theorem server_holds_the_views (stream : string) (log : list Op) (t : MemTable) (table : string) (def : TableDef) :
  served stream log t → flow_schema !! table = Some def →
  read_table t table def = default ∅ (log_views TaskReducer log !! table).
Proof. intros Hs%served_serves Hdef. apply read_table_views; [apply Hs|done]. Qed.

(** C10: the board a server selects from its index of active tickets and edges is the board of the views a
    replica folds from the same set of operations, in whatever order either of them came by these: the same
    tickets, dependencies and parents, so every lane of [next] is the same on both. *)
Theorem server_answers_as_a_replica (stream : string) (served_log log : list Op) (t : MemTable) :
  byte_len stream ≤ MAX_PARTITION_BYTES → served stream served_log t →
  sound TaskReducer served_log → coordinates_apart served_log → (∀ op, op ∈ served_log ↔ op ∈ log) →
  Selection.board (select_active t) = select (log_views TaskReducer log).
Proof.
  intros Hlen Hs%served_serves Hsound Hc Hset. rewrite <-(log_views_same_set served_log log) by done.
  apply selected_board; [apply Hs|by apply (sv_indexed _ _ _ Hs)|apply Hs|apply items_keyed_log].
Qed.

(** C36: the listings of a served stream are the listings of its log's views: the tickets of a type that are not
    deleted, and the closed or archived ones, each of them once and no other, the last ones by the instant they
    were closed or archived at, newest first, of which a limit keeps the first. *)
Theorem server_lists_the_tickets (stream : string) (log : list Op) (t : MemTable) :
  byte_len stream ≤ MAX_PARTITION_BYTES → served stream log t →
  (∀ ty, row_of items_def <$> query_typed t ty ≡ₚ
    base.filter (λ row, typed row = Some ty) (rows_of (log_views TaskReducer log) "items")) ∧
  (∀ l, row_of items_def <$> query_dated t l None ≡ₚ
    base.filter (λ row, fst <$> lane row = Some l) (rows_of (log_views TaskReducer log) "items")) ∧
  (∀ l, StronglySorted newest (row_of items_def <$> query_dated t l None)) ∧
  (∀ l n, query_dated t l (Some n) = take n (query_dated t l None)).
Proof.
  intros Hlen [_ Hm Hst _ Hix]%served_serves. specialize (Hix Hlen). split_and!.
  - intros ty. apply (listed_rows t (log_views TaskReducer log) Hm (items_keyed_log log)).
    + unfold query_typed, query_attribute. by apply NoDup_filter, rows_in_order_NoDup.
    + intros d. destruct (lane_reads d) as (_ & -> & _). by apply (typed_listed t (log_views TaskReducer log)).
  - intros l. unfold query_dated. rewrite sort_newest_perm, app_nil_r.
    apply (listed_rows t (log_views TaskReducer log) Hm (items_keyed_log log)).
    + unfold query_attribute. by apply NoDup_filter, rows_in_order_NoDup.
    + intros d. destruct (lane_reads d) as (-> & _ & _). by apply (dated_listed t (log_views TaskReducer log)).
  - intros l. unfold query_dated. set (rows := query_attribute t DATED _).
    apply (StronglySorted_read (λ d, default "" (row_text d DATED_AT))); [|by apply sort_newest_sorted; constructor].
    apply Forall_forall. intros d Hd. rewrite sort_newest_perm, app_nil_r in Hd.
    by apply (lane_key_stored t (log_views TaskReducer log) Hm Hix Hst l).
  - done.
Qed.

(** C37: a snapshot of a served stream, taken of whatever it went through, starts any stream of that name that holds
    nothing: the start succeeds, the new stream serves the same log - the same tables and the same board - and its
    watermark is current and names the position of the snapshot, from which it folds on. *)
Theorem snapshots_start_streams (stream : string) (log : list Op) (t t0 : MemTable) (mark : FoldMark) (snapshot : Snapshot) :
  byte_len stream ≤ MAX_PARTITION_BYTES → served stream log t → watermark t = Some mark → is_current task_folder mark = true →
  export_snapshot task_folder t = Some snapshot → served stream [] t0 → unrevised t0 →
  ∃ t', import_snapshot task_folder snapshot t0 = (t', Ok tt) ∧ served stream log t' ∧
    (∀ table def, flow_schema !! table = Some def → read_table t' table def = read_table t table def) ∧
    Selection.board (select_active t') = Selection.board (select_active t) ∧
    watermark t' = Some (FoldMark.Mk (FoldMark.folded_through mark) (revisions task_folder) None).
Proof.
  intros Hlen Hs Hmark Hcur He Hs0 Hun. assert (Ht := served_serves _ _ _ Hs). assert (Ht0 := served_serves _ _ _ Hs0).
  assert (Hc := exported_carries stream log t Ht snapshot He). assert (Hroom := exported_room stream log t Ht Hlen).
  assert (Snapshot.format snapshot = FORMAT ∧ Snapshot.stream_id snapshot = stream ∧
    Snapshot.folded_through snapshot = FoldMark.folded_through mark ∧ Snapshot.revisions snapshot = FoldMark.revisions mark)
    as (Ef & Est & Eth & Erev).
  { unfold export_snapshot in He. rewrite Hmark in He. cbn [mbind option_bind] in He. injection He as <-. by rewrite <-(sv_stream _ _ _ Ht). }
  apply bool_decide_eq_true in Hcur.
  assert (import_snapshot task_folder snapshot t0 = (started snapshot (partition_rows t) t0, Ok tt)) as Himp.
  { apply (import_ok stream log); [done..|by rewrite Ef| |done]. rewrite Erev, Hcur. vm_compute. reflexivity. }
  assert (Ht' := started_serves stream log snapshot (partition_rows t) t0 Ht0 Hc Hroom Est).
  exists (started snapshot (partition_rows t) t0). split; [done|]. split; [by eapply served_import|]. split_and!.
  - intros table def Hdef. by rewrite (read_table_views _ _ (sv_mirrors _ _ _ Ht') table def Hdef), (read_table_views _ _ (sv_mirrors _ _ _ Ht) table def Hdef).
  - rewrite (selected_board _ _ (sv_mirrors _ _ _ Ht') (sv_indexed _ _ _ Ht' Hlen) (sv_stored _ _ _ Ht') (items_keyed_log log)).
    by rewrite (selected_board _ _ (sv_mirrors _ _ _ Ht) (sv_indexed _ _ _ Ht Hlen) (sv_stored _ _ _ Ht) (items_keyed_log log)).
  - rewrite <-Eth. by apply (started_mark stream log).
Qed.

(** C38: a snapshot made of the views of a replica that folded a log starts a stream that holds nothing, when its rows
    fit: the start succeeds, the stream serves that log, and its board is the board of the replica. *)
Theorem replicas_start_streams (stream : string) (through : Z) (log : list Op) (file : File) (t0 : MemTable) :
  byte_len stream ≤ MAX_PARTITION_BYTES →
  (∀ table def, flow_schema !! table = Some def → is_Some (File.schema file !! table)) →
  own_views TaskReducer (File.views file) = log_views TaskReducer log →
  import_fits (snapshot_from_sqlite task_folder stream through file) = true → served stream [] t0 → unrevised t0 →
  ∃ t', import_snapshot task_folder (snapshot_from_sqlite task_folder stream through file) t0 = (t', Ok tt) ∧ served stream log t' ∧
    Selection.board (select_active t') = select (log_views TaskReducer log) ∧
    watermark t' = Some (FoldMark.Mk through (revisions task_folder) None).
Proof.
  intros Hlen Htables Hviews Hfits Hs0 Hun. assert (Ht0 := served_serves _ _ _ Hs0).
  assert (Hc := replica_carries stream through log file Htables Hviews). set (snapshot := snapshot_from_sqlite task_folder stream through file) in *.
  assert (Hroom := import_fits_room snapshot (replica_rows file) _ Hc Hfits).
  change (room stream (replica_rows file)) in Hroom. set (t' := started snapshot (replica_rows file) t0).
  assert (import_snapshot task_folder snapshot t0 = (t', Ok tt)) as Himp.
  { apply (import_ok stream log); [done..| |done]. vm_compute. reflexivity. }
  assert (Ht' := started_serves stream log snapshot (replica_rows file) t0 Ht0 Hc Hroom eq_refl).
  exists t'. split; [done|]. split; [by eapply served_import|]. split.
  - apply (selected_board _ _ (sv_mirrors _ _ _ Ht') (sv_indexed _ _ _ Ht' Hlen) (sv_stored _ _ _ Ht') (items_keyed_log log)).
  - by apply (started_mark stream log snapshot (replica_rows file) t0).
Qed.

(** *** A small log *)
Definition status_op (op_id : string) (lamport : Z) (item status : string) : Op :=
  Op.Mk op_id lamport 7 DOMAIN_TASK "item" item "status" "set" (Some status) "ann" "" None None.
Definition dep_op (op_id : string) (lamport : Z) (from to : string) : Op :=
  Op.Mk op_id lamport 7 DOMAIN_TASK "edge" (join SEP [from; to; "dep"]) "" "add" None "ann" "" None None.

Definition small_log : list (Z * Op) :=
  [(1%Z, status_op "a" 1 "i" "open"); (2%Z, dep_op "b" 2 "j" "i"); (3%Z, status_op "c" 3 "j" "open")].

Lemma served_once stream ops :
  (fold_batch task_folder ops (MemTable.Mk stream ∅)).2 = Ok [] →
  served stream ops.*2 (fold_batch task_folder ops (MemTable.Mk stream ∅)).1.
Proof.
  intros H. apply (served_batch stream [] ops (MemTable.Mk stream ∅)); [constructor|].
  destruct (fold_batch task_folder ops (MemTable.Mk stream ∅)). simpl in *. by rewrite H.
Qed.

Lemma server_holds_the_views_witness :
  read_table (fold_batch task_folder small_log (MemTable.Mk "s" ∅)).1 "edge_adds" edge_adds_def =
    default ∅ (log_views TaskReducer small_log.*2 !! "edge_adds") ∧
  size (read_table (fold_batch task_folder small_log (MemTable.Mk "s" ∅)).1 "items" items_def) = 2%nat.
Proof.
  split; [|vm_compute; reflexivity]. apply (server_holds_the_views "s"); [|vm_compute; reflexivity].
  apply served_once. vm_compute. reflexivity.
Defined.

Lemma server_answers_as_a_replica_witness :
  let t := (fold_batch task_folder small_log (MemTable.Mk "s" ∅)).1 in
  Selection.board (select_active t) = select (log_views TaskReducer (reverse small_log.*2)) ∧
  Lanes.blocked (lanes (Selection.board (select_active t)) "") = ["j"] ∧
  Lanes.ready (lanes (Selection.board (select_active t)) "") = ["i"].
Proof.
  cbv zeta. split; [|split; vm_compute; reflexivity].
  apply (server_answers_as_a_replica "s" small_log.*2 (reverse small_log.*2)).
  - by vm_compute.
  - apply served_once. vm_compute. reflexivity.
  - apply sound_ops; apply (bool_decide_unpack _); by vm_compute.
  - intros op1 op2 H1 H2 Hl _. cbn [small_log fmap list_fmap snd] in H1, H2. rewrite !elem_of_cons in H1, H2.
    destruct H1 as [->|[->|[->|H1%not_elem_of_nil]]], H2 as [->|[->|[->|H2%not_elem_of_nil]]];
      first [reflexivity|discriminate Hl|contradiction].
  - intros op. by rewrite elem_of_reverse.
Defined.

(** *** Listings *)
Definition field_op (op_id : string) (lamport : Z) (item field value : string) : Op :=
  Op.Mk op_id lamport 7 DOMAIN_TASK "item" item field "set" (Some value) "ann" "" None None.

Definition closing_log : list (Z * Op) :=
  [(1%Z, field_op "a" 1 "i" "status" "closed"); (2%Z, field_op "b" 2 "i" "closed_at" "2026-01-01T00:00:00Z");
   (3%Z, field_op "c" 3 "j" "status" "closed"); (4%Z, field_op "d" 4 "j" "closed_at" "2026-02-01T00:00:00Z");
   (5%Z, field_op "e" 5 "k" "type" "bug")].

Lemma server_lists_the_tickets_witness :
  let t := (fold_batch task_folder closing_log (MemTable.Mk "s" ∅)).1 in
  StronglySorted newest (row_of items_def <$> query_dated t Dated.Closed None) ∧
  omap (λ d, row_text d "id") (query_dated t Dated.Closed None) = ["j"; "i"] ∧
  omap (λ d, row_text d "id") (query_typed t "bug") = ["k"].
Proof.
  cbv zeta. split; [|split; vm_compute; reflexivity].
  destruct (server_lists_the_tickets "s" closing_log.*2 (fold_batch task_folder closing_log (MemTable.Mk "s" ∅)).1) as (_ & _ & H & _).
  - by vm_compute.
  - apply served_once. vm_compute. reflexivity.
  - apply H.
Defined.

(** *** A stream and its snapshot *)
Definition small_partition : MemTable := (fold_batch task_folder small_log (MemTable.Mk "s" ∅)).1.

Lemma small_served : served "s" small_log.*2 small_partition.
Proof. apply served_once. vm_compute. reflexivity. Qed.

(** A stream cleared is started from its own snapshot. *)
Lemma snapshots_start_streams_witness :
  ∃ snapshot t', export_snapshot task_folder small_partition = Some snapshot ∧
    import_snapshot task_folder snapshot (clear 3 small_partition) = (t', Ok tt) ∧
    Lanes.blocked (lanes (Selection.board (select_active t')) "") = ["j"] ∧
    FoldMark.folded_through <$> watermark t' = Some 3%Z.
Proof.
  destruct (export_snapshot task_folder small_partition) as [snapshot|] eqn:E; [|vm_compute in E; discriminate E].
  destruct (watermark small_partition) as [mark|] eqn:Em; [|vm_compute in Em; discriminate Em].
  assert (is_current task_folder <$> watermark small_partition = Some true) as Hcur by (vm_compute; reflexivity).
  assert (FoldMark.folded_through <$> watermark small_partition = Some 3%Z) as Hth by (vm_compute; reflexivity).
  rewrite Em in Hcur, Hth. injection Hcur as Hcur. injection Hth as Hth.
  destruct (snapshots_start_streams "s" small_log.*2 small_partition (clear 3 small_partition) mark snapshot) as (t' & Hi & _ & _ & Hb & Hm).
  - by vm_compute.
  - exact small_served.
  - exact Em.
  - exact Hcur.
  - exact E.
  - apply (served_clear "s" small_log.*2), small_served.
  - apply unrevised_watermark. vm_compute. reflexivity.
  - exists snapshot, t'. split; [reflexivity|]. split; [exact Hi|]. rewrite Hb, Hm, <-Hth. split; [vm_compute; reflexivity|reflexivity].
Defined.

Definition small_replica : File := File.Mk flow_schema [] true (log_views TaskReducer small_log.*2) ∅ None 0 0.

Lemma replicas_start_streams_witness :
  ∃ t', import_snapshot task_folder (snapshot_from_sqlite task_folder "s" 3 small_replica) (MemTable.Mk "s" ∅) = (t', Ok tt) ∧
    Selection.board (select_active t') = select (log_views TaskReducer small_log.*2).
Proof.
  destruct (replicas_start_streams "s" 3 small_log.*2 small_replica (MemTable.Mk "s" ∅)) as (t' & Hi & _ & Hb & _).
  - by vm_compute.
  - intros table def H. cbn [small_replica File.schema]. rewrite H. by exists def.
  - apply (bool_decide_unpack _). vm_compute. reflexivity.
  - vm_compute. reflexivity.
  - apply served_fresh.
  - done.
  - exists t'. split; [exact Hi|exact Hb].
Defined.
